(* ===== verification/_CoqProject ===== *)
-Q . S2P
Prelude.v
SeqCache.v
Voting.v
IpcApi.v
Finality.v
Provider.v
Syncer.v
CetfActor.v
VoteExt.v
Pool.v
Checkpoint.v
Message.v
Exec.v
Chain.v
Bytes.v
App.v
Merkle.v
Storage.v
Gas.v
TmConv.v
EthConv.v
EthPool.v
Query.v
Car.v
Snapshot.v
EthFilter.v
Sol.v
PrioQueue.v
Staking.v
Quorum.v
GatewayActor.v
GatewayFunds.v
GatewayMessages.v
SubnetActor.v
SubnetFunds.v
ProviderCache.v
Membership.v
ResolverService.v
Actors.v
Deploy.v
Genesis.v
Delorean.v
Diamond.v
Registry.v
Relayer.v
Broadcast.v
SignCheckpoint.v
EvmKeyStore.v
