(* ===== verification/Prelude.v ===== *)
(** * Delorean: a verification of the node of the Delorean protocol

    Delorean is an IPC subnet node (Fendermint: CometBFT consensus, the Filecoin
    virtual machine as ledger) extended with encryption to the future: contracts
    enqueue tags, and the validators sign each scheduled tag with BLS in their vote
    extensions, so that the aggregated signature, which is the decryption key, ends
    up on chain.  This library is a shallow embedding of the consensus-critical part
    of the Rust sources under [src/], of the services around it (queries, snapshots
    and the Ethereum API) and of the Solidity contracts that the node calls, with the
    theorems that make it correct.

    ** The parts of the program and their files

    The node follows its parent chain ("top-down"):
    - [SeqCache]: [topdown/src/cache.rs], the cache of parent blocks by height.
    - [Finality]: [topdown/src/finality], the provider that proposes and validates
      parent finality, on top of [SeqCache].
    - [Provider]: [fetch.rs], [proxy.rs], [toggle.rs], queries to the parent with
      retries and the switch that turns IPC off, on top of [Finality].
    - [Voting]: [topdown/src/voting.rs], the tally of validators' votes on parent
      blocks, the quorum search and the publishing of votes.
    - [Syncer]: [topdown/src/sync], the loop that polls the parent and feeds
      [Finality] and [Voting] together.
    - [IpcApi]: [ipc/api/src], subnet ids, IPC addresses, cross-net messages.

    It signs tags:
    - [CetfActor]: [actors/cetf/src], the actor with the tags, the validators' keys
      and the signatures.
    - [VoteExt]: [fvm/extend.rs] and the handlers of [app.rs] for vote extensions:
      signing, verification and aggregation, on the state of [CetfActor].

    It executes blocks, in layers that call one another from the bottom of this list
    to its top, as [chain.rs] composes them:
    - [Checkpoint]: power tables, bottom-up checkpoints, top-down minting, upgrades
      ([genesis/src/lib.rs], [fvm/checkpoint.rs], [fvm/topdown.rs], [fvm/upgrades.rs]).
    - [Pool]: [vm/resolver], the pool of contents to resolve from other subnets.
    - [Message]: messages, conversion from and to Ethereum transactions, signatures,
      and the interpreter that guards execution by them.
    - [Exec]: the FVM interpreter: begin, deliver, end, check.
    - [Chain]: the chain message interpreter, which combines all of the above.
    - [Bytes]: transactions as bytes, and the limits of a block.
    - [App]: the ABCI application: proposals, blocks, commits and the state history.

    It starts from a genesis file:
    - [Actors]: [actors/chainmetadata/src] and [actors/eam/src], the actor that keeps block
      hashes, the one that guards deployment, and the lookup of hashes by the FVM.
    - [Deploy]: [eth/hardhat/src], dependencies, order and linking of contracts.
    - [Genesis]: [fvm/genesis.rs], [fvm/state/genesis.rs], the init actor and the
      identifiers of chains, on top of [Deploy].

    It exchanges contents and votes with other nodes ([ipld/resolver/src]):
    - [ProviderCache]: signed records, and the cache of peers by subnet.
    - [Membership]: the behaviour that gossips them.
    - [ResolverService]: discovery, content, the service with its queries, and the
      way of a vote from gossip to the tally of [Voting].

    It sends transactions of its own:
    - [Broadcast]: [rpc/src/message.rs] and [fvm/broadcast.rs], the messages it builds and
      the retries, on top of [Message].
    - [SignCheckpoint]: the signing of checkpoints ([fvm/checkpoint.rs]) with the Merkle
      proof of membership, on top of [Broadcast] and [Merkle].
    - [Relayer]: [ipc/provider/src/checkpoint.rs], which takes signed checkpoints to the parent.
    - [EvmKeyStore]: [ipc/wallet/src/evm], the keys of a user, in memory and in a file.

    It answers queries, and hands its state to new nodes:
    - [Query]: [fvm/query.rs], [fvm/state/query.rs] and the handler of ABCI queries:
      reads, calls that are rolled back, and the search for a gas limit.
    - [Car]: the walk over the state tree ([fvm/state/snapshot.rs]) and the writer that
      cuts it into chunks ([vm/snapshot/src/car]).
    - [Snapshot]: [vm/snapshot/src], the manager that makes snapshots and the client
      that offers and downloads them, with the ABCI handlers, on top of [Car].
    - [Storage]: [storage/src], the in-memory store and its transactions.
    - [Merkle]: [ext/merkle-tree-rs/src], the trees behind the validators' membership proofs.

    It serves Ethereum tools:
    - [TmConv]: [tmconv.rs], results and events in the format of CometBFT.
    - [EthConv]: [eth/api/src/conv], those in the format of Ethereum.
    - [Gas]: [eth/api/src/gas] and the fee methods of [apis/eth.rs].
    - [EthPool]: [mpool.rs] and [error.rs], transactions that arrive out of order.
    - [EthFilter]: [filters.rs] and the filter map of [state.rs].

    On the chain, in Solidity ([contracts/src]), live the contracts that connect a subnet
    to its parent:
    - [Sol]: errors, checked arithmetic, and calls that pass a state or revert.
    - [PrioQueue]: [lib/priority], the two heaps of validators by power.
    - [Staking]: [lib/LibStaking.sol] and [lib/LibStakingChangeLog.sol], collateral,
      changes of it, active and waiting validators, and releases, on top of [PrioQueue].
    - [Quorum]: [lib/LibQuorum.sol] and [lib/LibMultisignatureChecker.sol], signatures on
      checkpoints in the child and multisignatures in the parent.
    - [GatewayActor]: [gateway/], [lib/LibGateway.sol] and its helpers, every call of the
      gateway that changes its state; [GatewayFunds] and [GatewayMessages] hold what is
      proved of its money and of its messages.
    - [SubnetActor]: [subnet/] and [lib/LibSubnetActor.sol], every call of the subnet
      actor, on top of the gateway; [SubnetFunds] relates the books of the two.
    - [Diamond]: [lib/LibDiamond.sol] and [diamond/], the proxy all of them are deployed as.
    - [Registry]: [SubnetRegistryDiamond.sol] and [subnetregistry/], which deploys subnet actors.
    - [Delorean]: [delorean/], the example contracts that release a key, with [CetfActor].

    This file holds what they share: machine words, the result type of fallible
    code, ordered maps, and the tactics and hints.

    ** How state and operations correspond to the code

    A struct is a record with the field names of the source, an enum an inductive
    type with its constructors; a method is a definition with its name (prefixed
    where two components use the same one) that takes the record and returns the new
    one.  Software transactions are atomic in the source, so an STM method is one
    function on the record.  The result is an [outcome]: [Ok], [Err] for a Rust error,
    [Retry] for a transaction that waits, and [Panic].  A [u64] is a [Z] with the
    wrap-around of the release profile written out.  Concurrent parts (the tally,
    the provider, the resolver) are step relations, with invariants over their
    reflexive-transitive closure.

    A call of a contract takes the state of the chain that it can see (storage, balances,
    the rest of the world) and succeeds with a new one or reverts ([Sol.ST]); storage
    mappings are finite maps with the default value for absent keys, and integers are
    checked at their width.  Calls out of a contract to an account or a token are a
    parameter ([Outside]): they move the value and may change the rest of the world.  An account
    that the gateway pays may call back into it ([GatewayActor.Callback]): [GatewayFunds] and the
    log of [GatewayMessages] cover any calls back, to any depth; the child in [GatewayMessages],
    [SubnetActor] and [SubnetFunds] leave them out.  Token contracts do not call back.

    Code outside the repository is a type class of operations with a second class of
    the documented laws that the theorems need: addresses ([AddressOps]), BLS and
    secp256k1 and the hash functions ([BLS], [MsgCrypto]), serializers ([ExtCodec],
    [TxCodec], [QueryCodec], [HexCodec], [EthApiExt]), the gateway contracts
    ([Gateway]), the virtual machine ([Fvm], [FvmTransactions]) and its store
    ([FvmStore]), files and checksums ([SnapshotExt]), the network libraries
    of the resolver ([Libp2p], [Gossipsub], [Kademlia], [Bitswap], [Limiter]) and the channel of its events
    ([Broadcast]), compiled contracts
    ([Hardhat]), the machine at genesis ([GEnv]), the node a transaction is sent to ([Node]), the
    two chains of the relayer ([Child], [Parent]) and the file of a key store ([KeyFile]).  The witness of a theorem that assumes laws instantiates
    the class with concrete functions.  The parent chain is a record of queries that
    may answer anything, once per attempt.

    ** What the theorems show

    - Following the parent: cache, provider and tally keep their invariants in every
      reachable state; one run of the syncer brings them to the finalized head of
      the parent; the quorum search finds the highest block with a quorum, and
      quorums overlap; what is proposed is exactly characterised; the data executed
      is that of the parent, and over any sequence of finalities every parent block
      is executed once and in order.
    - Tags: a tag enqueued in a block is signed and its aggregate stored two blocks
      later; honest extensions are accepted and accepted ones are valid; only the
      system actor stores signatures, and each stored one has a provenance.
    - Blocks: a block built by an honest proposer is accepted; finalizing a block is
      all or nothing; the history of states is a window; an Ethereum transaction executes
      exactly when its sender signed it; accepted mempool transactions of a sender are consistent.
    - Conversions: Ethereum transactions, IPC addresses and signed messages round
      trip, and the data an Ethereum signature covers is characterised.
    - Queries: the handlers refine a specification that reads the state without
      changing it; a call predicts the delivery of the same message; the gas search
      ends.
    - Snapshots: a node that syncs from an honest one ends with its state, and no node
      ever installs a state that was not offered; chunks split a file without loss,
      and the walk visits every reachable block.  The store serializes transactions.
      Merkle proofs verify, and only for the leaves of the tree.
    - Ethereum: the logs of an execution are recovered from its events; a submitted
      transaction is served until it is included, and a gap of nonces closes in
      order; filters that ask for something miss no event, and polling returns each once; gas is
      bounded.
    - Contracts: the heaps stay heaps and the active validators are the strongest ones
      after every confirmed change; a checkpoint reaches its quorum only with signatures
      of that weight; the gateway holds what it owes to its subnets and to the postbox, and
      only a subnet's own actor takes from what is owed to it; the books of subnet actor and
      gateway agree and collateral is backed; messages from a parent are delivered once and in
      order to a child that sends nothing down; Solidity and Rust route messages alike.
    - Genesis: balances add up to the circulating supply, identifiers are not handed out
      twice and addresses lead to their actors; contracts are deployed after what they need.
    - Gossip: the provider cache refines a set of pairs; a vote that is gossiped reaches the
      tally unless the application falls behind, and a request to resolve is answered once.
    - Transactions of the node: broadcasting ends, sends only valid messages and retries only
      what may be retried; a round of signing covers every checkpoint of which the node is a
      validator, with a proof that verifies and a signature that recovers to it; a round of the relayer makes progress, but more
      than one task at a time can lose a checkpoint.  Key stores survive a restart.
    - Diamonds implement a table of functions; the registry deploys actors that route by it.
      A fund-raising contract releases its key only after its goal was reached, and then does.
    - Flaws of the contracts are theorems as well: a validator's signature counts as often
      as it is repeated, any subnet can stop the messages to another one, a subnet with a
      token supply can draw native coins, messages sent down skip the nonce of the parent,
      a validator that leaves before the bootstrap can be paid its pre-fund again, and
      collateral can get stuck in the release queue.
    - Behaviour that differs from the documentation is stated as theorems too:
      unverified tag signatures are stored, a reset leaves the syncer stuck, the
      empty state can be queried, the removal of a filter can block all others, and
      the recommended premium is four times the price paid.

    ** Recursion and bounds

    Recursion is structural, on lists of blocks, messages or heights, or well-founded
    with [Equations] ([unblock] on the size of the buffer, the loops of [Merkle] on
    node indices, [captures_iter] on the rest of a string).  Two loops have no bound in
    the source and take fuel: the gas search, where [gas_search_terminates] gives the
    number of rounds that is enough, and the walk over the state tree, where
    [stream_complete] does so by the number of paths below the root.  The heaps take 17
    rounds, more than the height of a heap with 16-bit positions.  The search for missing
    blocks and the closure of dependencies take fuel; where references do not form a cycle,
    [missing_blocks_exact] and [deployment_order] show that some amount is enough and any
    larger one gives the same result.  The topological sort takes as many rounds as there are
    contracts.  Waiting for a commit takes the number of polls after which the height is
    reached ([wait_terminates]), and broadcasting the retry limit of its configuration.  [f64] is
    modelled bit for bit for the non-negative normal numbers that occur.  The loop of [sync] runs over the heights up to the finalized head, which
    bound it in the source, and the retry loop over the retry limit of the
    configuration.  Hypotheses that heights stay below [2^62], [2^63] or [U64_MAX] rule
    out wrap-around where the source has unchecked arithmetic; where wrap-around can
    be reached it is stated as a theorem ([proposal_delay_wraps]).

    ** What is not modelled

    Command line, configuration, HTTP, sockets, RocksDB, metrics and libp2p are input and
    output, or libraries; the bindings of the contracts are generated; the getters of the
    contracts only read the storage that is modelled; the inside of the virtual machine and of
    the built-in actors is not in the repository.  Waiting times and logging are left out.
    The wallet for Filecoin keys ([ipc/wallet/src/fvm]), the cache of validators' keys and the
    other methods of the Ethereum API have logic of their own and are still open. *)

From stdpp Require Import base tactics numbers list gmap sorting.
From Stdlib Require Import ZArith Lia.

Open Scope Z_scope.

(** ** Machine words

    Heights, weights and nonces are Rust [u64] values.  They are kept as [Z]
    together with the wrap-around of the release profile: the workspace's
    [Cargo.toml] does not turn [overflow-checks] on, so [a + b], [a - b] and
    [a * b] are taken modulo [2^64]. *)

Definition U64_MAX : Z := 2 ^ 64 - 1.
Definition wrap64 (x : Z) : Z := x mod 2 ^ 64.
Definition is_u64 (x : Z) : Prop := 0 <= x <= U64_MAX.
Definition add64 (a b : Z) : Z := wrap64 (a + b).
Definition sub64 (a b : Z) : Z := wrap64 (a - b).
Definition mul64 (a b : Z) : Z := wrap64 (a * b).
Definition saturating_sub (a b : Z) : Z := Z.max 0 (a - b).

(** [x as u64] for a signed 64-bit [x], and back. *)
Definition i64_as_u64 (x : Z) : Z := wrap64 x.

Declare Scope u64_scope.
Delimit Scope u64_scope with u64.
Infix "+" := add64 : u64_scope.
Infix "-" := sub64 : u64_scope.
Infix "*" := mul64 : u64_scope.

(** ** Outcomes

    A Rust call either returns, fails with an error value (an [Err] of a
    [Result], or the [abort] of an STM transaction), blocks (the [retry] of an
    STM transaction), or panics ([unwrap], [expect], [unreachable!], an index
    out of range). *)
Inductive outcome (E A : Type) : Type :=
| Ok (a : A)
| Err (e : E)
| Retry
| Panic.
Arguments Ok {E A} a.
Arguments Err {E A} e.
Arguments Retry {E A}.
Arguments Panic {E A}.

#[export] Instance outcome_ret E : MRet (outcome E) := λ A a, Ok a.
#[export] Instance outcome_bind E : MBind (outcome E) := λ A B f m,
  match m with Ok a => f a | Err e => Err e | Retry => Retry | Panic => Panic end.
#[export] Instance outcome_fmap E : FMap (outcome E) := λ A B f m,
  match m with Ok a => Ok (f a) | Err e => Err e | Retry => Retry | Panic => Panic end.

(** [option::ok_or] and [Option::unwrap]. *)
Definition ok_or {E A} (e : E) (o : option A) : outcome E A :=
  match o with Some a => Ok a | None => Err e end.
Definition unwrap {E A} (o : option A) : outcome E A :=
  match o with Some a => Ok a | None => Panic end.
Definition map_err {E F A} (f : E → F) (m : outcome E A) : outcome F A :=
  match m with Ok a => Ok a | Err e => Err (f e) | Retry => Retry | Panic => Panic end.

(** ** Bytes *)
Notation bytes := (list Z) (only parsing).

(** [u64::to_be_bytes] and [u64::from_be_bytes] *)
Definition to_be_bytes (x : Z) : bytes :=
  (λ i, Z.land (Z.shiftr x (8 * i)) 255) <$> [7; 6; 5; 4; 3; 2; 1; 0].
Definition from_be_bytes (b : bytes) : Z := foldl (λ acc b, acc * 256 + b) 0 b.

(** ** Proof automation *)

Create HintDb delorean.

(** Split the first [match] found in the goal or in a hypothesis, keeping the
    equation, and simplify the equalities between constructors. *)
Ltac split_match_hyp :=
  match goal with
  | H : context [match ?x with _ => _ end] |- _ =>
      lazymatch x with context [match _ with _ => _ end] => fail | _ => destruct x eqn:? end
  end.
Ltac split_match_goal :=
  match goal with
  | |- context [match ?x with _ => _ end] =>
      lazymatch x with context [match _ with _ => _ end] => fail | _ => destruct x eqn:? end
  end.
Ltac inv_outcome :=
  repeat first
    [ progress simplify_eq/=
    | match goal with
      | H : mbind _ ?m = Ok _ |- _ => destruct m eqn:?; cbn in H
      end
    | split_match_hyp ].

(** Turn the boolean comparisons of the code into propositions. *)
Ltac zbool :=
  repeat match goal with
  | H : orb _ _ = false |- _ => apply orb_false_iff in H as [??]
  | H : (_ =? _) = true |- _ => apply Z.eqb_eq in H
  | H : (_ =? _) = false |- _ => apply Z.eqb_neq in H
  | H : (_ <? _) = true |- _ => apply Z.ltb_lt in H
  | H : (_ <? _) = false |- _ => apply Z.ltb_ge in H
  | H : (_ <=? _) = true |- _ => apply Z.leb_le in H
  | H : (_ <=? _) = false |- _ => apply Z.leb_gt in H
  | H : andb _ _ = true |- _ => apply andb_true_iff in H as [??]
  | H : negb _ = true |- _ => apply negb_true_iff in H
  | H : negb _ = false |- _ => apply negb_false_iff in H
  end.

(** ** Words: lemmas *)

Lemma wrap64_small x : is_u64 x → wrap64 x = x.
Proof. unfold is_u64, wrap64, U64_MAX. intros ?. apply Z.mod_small. lia. Qed.
Lemma wrap64_range x : is_u64 (wrap64 x).
Proof.
  unfold is_u64, wrap64, U64_MAX. pose proof (Z.mod_pos_bound x (2 ^ 64)). lia.
Qed.
Lemma add64_small a b : is_u64 a → is_u64 b → a + b <= U64_MAX → (a + b)%u64 = a + b.
Proof. intros [??] [??] ?. apply wrap64_small. unfold is_u64. lia. Qed.
Lemma sub64_small a b : is_u64 a → is_u64 b → b <= a → (a - b)%u64 = a - b.
Proof. intros [??] [??] ?. apply wrap64_small. unfold is_u64. lia. Qed.
Lemma sub64_underflow a b : is_u64 a → is_u64 b → a < b → (a - b)%u64 = 2 ^ 64 + (a - b).
Proof.
  unfold is_u64, sub64, wrap64, U64_MAX. intros ???.
  rewrite <- (Z.mod_small (2 ^ 64 + (a - b)) (2 ^ 64)) by lia.
  rewrite <- Zplus_mod_idemp_l, Z_mod_same_full. f_equal; lia.
Qed.
Lemma wrap64_add_l a b : wrap64 (wrap64 a + b) = wrap64 (a + b).
Proof. unfold wrap64. apply Zplus_mod_idemp_l. Qed.
Lemma wrap64_add_r a b : wrap64 (a + wrap64 b) = wrap64 (a + b).
Proof. unfold wrap64. apply Zplus_mod_idemp_r. Qed.
Lemma saturating_sub_range a b : is_u64 a → 0 <= b → is_u64 (saturating_sub a b).
Proof. unfold is_u64, saturating_sub, U64_MAX. lia. Qed.

Lemma to_be_bytes_roundtrip x :
  is_u64 x →
  from_be_bytes (to_be_bytes x) = x ∧ length (to_be_bytes x) = 8%nat ∧
  Forall (λ b, 0 <= b < 256) (to_be_bytes x).
Proof.
  intros Hx. unfold is_u64, U64_MAX in Hx.
  assert (∀ i, Z.land (Z.shiftr x (8 * i)) 255 = Z.shiftr x (8 * i) mod 256) as Hmod.
  { intros i. change 255 with (Z.ones 8). by rewrite Z.land_ones. }
  split; [|split; [done|]].
  - unfold from_be_bytes, to_be_bytes. cbn [fmap list_fmap foldl]. rewrite !Hmod.
    rewrite !Z.shiftr_div_pow2 by lia.
    change (2 ^ (8 * 0)) with 1. rewrite Z.div_1_r.
    change (2 ^ (8 * 1)) with 256. change (2 ^ (8 * 2)) with (256 * 256).
    change (2 ^ (8 * 3)) with (256 * 256 * 256). change (2 ^ (8 * 4)) with (256 * 256 * 256 * 256).
    change (2 ^ (8 * 5)) with (256 * 256 * 256 * 256 * 256).
    change (2 ^ (8 * 6)) with (256 * 256 * 256 * 256 * 256 * 256).
    change (2 ^ (8 * 7)) with (256 * 256 * 256 * 256 * 256 * 256 * 256).
    rewrite <- !Z.div_div by lia.
    assert (x / 256 / 256 / 256 / 256 / 256 / 256 / 256 < 256) as Htop.
    { rewrite !Z.div_div by lia. apply Z.div_lt_upper_bound; lia. }
    Z.to_euclidean_division_equations. lia.
  - apply Forall_fmap, Forall_forall. intros i _. simpl. rewrite Hmod. apply Z.mod_pos_bound. lia.
Qed.

#[export] Hint Resolve wrap64_range : delorean.

(** ** Outcomes: lemmas *)

Lemma bind_Ok {E A B} (m : outcome E A) (f : A → outcome E B) b :
  m ≫= f = Ok b ↔ ∃ a, m = Ok a ∧ f a = Ok b.
Proof. destruct m; naive_solver. Qed.
Lemma map_err_Ok {E F A} (f : E → F) (m : outcome E A) a :
  map_err f m = Ok a ↔ m = Ok a.
Proof. destruct m; naive_solver. Qed.

(** ** Lists: lemmas *)

Lemma filter_all {A} (P : A → Prop) `{∀ x, Decision (P x)} (l : list A) :
  Forall P l → filter P l = l.
Proof.
  induction 1 as [|x l Hx _ IH]; [done|]. rewrite filter_cons, decide_True by done. by rewrite IH.
Qed.
Lemma filter_none {A} (P : A → Prop) `{∀ x, Decision (P x)} (l : list A) :
  (∀ x, x ∈ l → ¬ P x) → filter P l = [].
Proof.
  induction l as [|x l IH]; intros Hl; [done|]. rewrite filter_cons, decide_False by (apply Hl; by left).
  apply IH. intros y Hy. apply Hl. by right.
Qed.
Lemma omap_filter_sublist {A B} (P : A → Prop) `{∀ x, Decision (P x)} (f : A → option B) (l : list A) :
  omap f (filter P l) `sublist_of` omap f l.
Proof.
  induction l as [|x l IH]; [constructor|]. rewrite filter_cons. case_decide; cbn; destruct (f x); by repeat constructor.
Qed.

(** ** Ordered maps

    [im::OrdMap<u64, _>] and [BTreeMap<u64, _>] are finite maps whose
    iterators visit the keys in increasing order. *)

Definition ord_keys {A} (m : gmap Z A) : list Z := merge_sort Z.le (elements (dom m)).
Definition ord_iter {A} (m : gmap Z A) : list (Z * A) :=
  omap (λ k, (λ a, (k, a)) <$> m !! k) (ord_keys m).
Definition get_min {A} (m : gmap Z A) : option Z := head (ord_keys m).
Definition get_max {A} (m : gmap Z A) : option Z := last (ord_keys m).
(** The right half of [OrdMap::split]: the entry at the key itself is dropped. *)
Definition split_right {A} (k : Z) (m : gmap Z A) : gmap Z A := filter (λ e, k < e.1) m.

Section ordmap.
Context {A : Type}.
Implicit Types (m : gmap Z A) (k : Z).

Lemma elem_of_ord_keys m k : k ∈ ord_keys m ↔ is_Some (m !! k).
Proof.
  unfold ord_keys. rewrite merge_sort_Permutation, elem_of_elements. apply elem_of_dom.
Qed.
Lemma NoDup_ord_keys m : NoDup (ord_keys m).
Proof. unfold ord_keys. rewrite merge_sort_Permutation. apply NoDup_elements. Qed.
Lemma ord_keys_sorted m : StronglySorted Z.le (ord_keys m).
Proof. apply StronglySorted_merge_sort; apply _. Qed.
Lemma ord_keys_nil m : ord_keys m = [] ↔ m = ∅.
Proof.
  split.
  - intros H. apply map_eq. intros k. rewrite lookup_empty.
    destruct (m !! k) eqn:E; [|done].
    assert (k ∈ ord_keys m) as Hk by (apply elem_of_ord_keys; eauto).
    rewrite H in Hk. by apply elem_of_nil in Hk.
  - intros ->. done.
Qed.

Lemma get_min_Some m k :
  get_min m = Some k ↔ is_Some (m !! k) ∧ ∀ k', is_Some (m !! k') → k <= k'.
Proof.
  unfold get_min. setoid_rewrite <- elem_of_ord_keys.
  pose proof (ord_keys_sorted m) as Hs. split.
  - destruct (ord_keys m) as [|x l]; intros ?; simplify_eq/=.
    apply StronglySorted_inv in Hs as [_ Hs]. split; [left|].
    intros k' [->|Hk']%elem_of_cons; [lia|]. rewrite Forall_forall in Hs. by apply Hs.
  - intros [Hk Hmin]. destruct (ord_keys m) as [|x l]; [by apply elem_of_nil in Hk|].
    simpl. f_equal. pose proof (Hmin x ltac:(left)).
    apply StronglySorted_inv in Hs as [_ Hs]. rewrite Forall_forall in Hs.
    apply elem_of_cons in Hk as [->|Hk]; [done|]. apply Hs in Hk. lia.
Qed.
Lemma get_max_Some m k :
  get_max m = Some k ↔ is_Some (m !! k) ∧ ∀ k', is_Some (m !! k') → k' <= k.
Proof.
  unfold get_max. setoid_rewrite <- elem_of_ord_keys.
  pose proof (ord_keys_sorted m) as Hs.
  assert (∀ x, last (ord_keys m) = Some x → x ∈ ord_keys m ∧ ∀ k', k' ∈ ord_keys m → k' <= x) as Hlast.
  { intros x [l Hl]%last_Some. rewrite Hl in *. split; [set_solver|].
    intros k' [Hk'| ->%list_elem_of_singleton]%elem_of_app; [|lia].
    apply StronglySorted_app in Hs as (Hs & _ & _). eapply Hs; set_solver. }
  split; [apply Hlast|]. intros [Hk Hmax].
  destruct (last (ord_keys m)) as [x|] eqn:Hx.
  - destruct (Hlast x eq_refl) as [Hx1 Hx2]. f_equal.
    pose proof (Hmax x Hx1). pose proof (Hx2 k Hk). lia.
  - apply last_None in Hx. rewrite Hx in Hk. by apply elem_of_nil in Hk.
Qed.
Lemma get_min_None m : get_min m = None ↔ m = ∅.
Proof. unfold get_min. rewrite <- ord_keys_nil. destruct (ord_keys m); naive_solver. Qed.
Lemma get_max_None m : get_max m = None ↔ m = ∅.
Proof. unfold get_max. rewrite <- ord_keys_nil. apply last_None. Qed.
Lemma get_min_max_le m a b : get_min m = Some a → get_max m = Some b → a <= b.
Proof. intros [_ H]%get_min_Some [? _]%get_max_Some. by apply H. Qed.

Lemma lookup_split_right k m k' a :
  split_right k m !! k' = Some a ↔ m !! k' = Some a ∧ k < k'.
Proof. unfold split_right. rewrite map_lookup_filter_Some. done. Qed.
Lemma split_right_empty k : split_right k (∅ : gmap Z A) = ∅.
Proof. apply map_filter_empty. Qed.
Lemma get_max_singleton k (a : A) : get_max ({[k := a]} : gmap Z A) = Some k.
Proof.
  apply get_max_Some. rewrite lookup_singleton_eq. split; [eauto|].
  intros k' [? Hk']. apply lookup_singleton_Some in Hk' as [-> _]. lia.
Qed.
End ordmap.

(** ** Sums over lists and sets *)

Definition Zsum {A} (f : A → Z) (l : list A) : Z := foldr (λ a acc, f a + acc) 0 l.

#[export] Instance Zsum_perm {A} (f : A → Z) : Proper ((≡ₚ) ==> (=)) (Zsum f).
Proof. intros l l' Hl. unfold Zsum. induction Hl; simpl; lia. Qed.
Lemma Zsum_app {A} (f : A → Z) l l' : Zsum f (l ++ l') = Zsum f l + Zsum f l'.
Proof. induction l as [|a l IH]; simpl; [done|]. unfold Zsum in *. simpl. lia. Qed.
Lemma Zsum_nonneg {A} (f : A → Z) l : (∀ a, 0 <= f a) → 0 <= Zsum f l.
Proof.
  intros Hf. induction l as [|a l IH]; [done|]. unfold Zsum in *. simpl. specialize (Hf a). lia.
Qed.

Section set_sum.
Context {K : Type} `{Countable K}.
Implicit Types (f : K → Z) (s : gset K).

Definition set_sum f s : Z := Zsum f (elements s).

Lemma set_sum_empty f : set_sum f ∅ = 0.
Proof. unfold set_sum. by rewrite elements_empty. Qed.
Lemma set_sum_insert f k s : k ∉ s → set_sum f ({[k]} ∪ s) = f k + set_sum f s.
Proof. intros Hk. unfold set_sum. by rewrite elements_union_singleton. Qed.
Lemma set_sum_disj_union f s s' : s ## s' → set_sum f (s ∪ s') = set_sum f s + set_sum f s'.
Proof. intros Hd. unfold set_sum. by rewrite elements_disj_union, Zsum_app. Qed.
Lemma set_sum_nonneg f s : (∀ k, 0 <= f k) → 0 <= set_sum f s.
Proof. apply Zsum_nonneg. Qed.
Lemma set_sum_split f s s' : set_sum f s = set_sum f (s ∩ s') + set_sum f (s ∖ s').
Proof.
  rewrite <- set_sum_disj_union by set_solver. f_equal. apply set_eq. intros k.
  destruct (decide (k ∈ s')); set_solver.
Qed.
Lemma set_sum_mono f s s' : (∀ k, 0 <= f k) → s ⊆ s' → set_sum f s <= set_sum f s'.
Proof.
  intros Hf Hs. rewrite (set_sum_split f s' s).
  assert (s' ∩ s = s) as -> by set_solver. pose proof (set_sum_nonneg f (s' ∖ s) Hf). lia.
Qed.
Lemma set_sum_union_inter f s s' :
  set_sum f (s ∪ s') + set_sum f (s ∩ s') = set_sum f s + set_sum f s'.
Proof.
  replace (s ∪ s') with (s ∪ (s' ∖ s)).
  - rewrite set_sum_disj_union by set_solver. rewrite (set_sum_split f s' s).
    assert (s' ∩ s = s ∩ s') as -> by set_solver. lia.
  - apply set_eq. intros k. destruct (decide (k ∈ s)); set_solver.
Qed.
Lemma set_sum_ext f g s : (∀ k, k ∈ s → f k = g k) → set_sum f s = set_sum g s.
Proof.
  unfold set_sum. intros Hfg. assert (∀ k, k ∈ elements s → f k = g k) as Hl
    by (intros k Hk; apply Hfg; set_solver).
  induction (elements s) as [|k l IH]; [done|]. simpl.
  rewrite (Hl k) by left. f_equal. apply IH. intros k' Hk'. apply Hl. by right.
Qed.
Lemma set_sum_zero f s : (∀ k, k ∈ s → f k = 0) → set_sum f s = 0.
Proof.
  intros Hf. rewrite (set_sum_ext f (λ _, 0)) by done. unfold set_sum.
  induction (elements s); [done|]. unfold Zsum in *. simpl. lia.
Qed.
End set_sum.

(** ** Ordered iteration *)

Section ord_iter.
Context {A : Type}.
Implicit Types (m : gmap Z A).

Lemma ord_iter_keys m : (ord_iter m).*1 = ord_keys m.
Proof.
  unfold ord_iter.
  assert (∀ k, k ∈ ord_keys m → is_Some (m !! k)) as Hk by (intros; by apply elem_of_ord_keys).
  induction (ord_keys m) as [|k l IH]; [done|]. csimpl.
  destruct (Hk k ltac:(left)) as [a Ha]. rewrite Ha. csimpl. f_equal.
  apply IH. intros k' Hk'. apply Hk. by right.
Qed.
Lemma elem_of_ord_iter m k a : (k, a) ∈ ord_iter m ↔ m !! k = Some a.
Proof.
  unfold ord_iter. rewrite list_elem_of_omap. setoid_rewrite fmap_Some. split.
  - intros (k' & _ & a' & Ha' & [=]). by subst.
  - intros Ha. exists k. split; [apply elem_of_ord_keys; eauto|eauto].
Qed.
Lemma StronglySorted_lt l : NoDup l → StronglySorted Z.le l → StronglySorted Z.lt l.
Proof.
  intros Hnd Hs. induction Hs as [|k l Hs IH Hall]; [constructor|].
  apply NoDup_cons in Hnd as [Hk Hnd]. constructor; [by apply IH|].
  rewrite Forall_forall in *. intros k' Hk'. specialize (Hall k' Hk').
  assert (k ≠ k') by (by intros ->). lia.
Qed.
Lemma StronglySorted_reverse {B} (R : relation B) l :
  StronglySorted R l → StronglySorted (flip R) (reverse l).
Proof.
  induction 1 as [|x l Hs IH Hall]; [constructor|]. rewrite reverse_cons.
  apply StronglySorted_app. split_and!; [|done|repeat constructor].
  intros a b Ha ->%list_elem_of_singleton. rewrite elem_of_reverse in Ha.
  rewrite Forall_forall in Hall. by apply Hall.
Qed.
(** [iter().rev()] visits the keys in strictly decreasing order. *)
Lemma rev_ord_iter_sorted m : StronglySorted (λ a b, b.1 < a.1) (reverse (ord_iter m)).
Proof.
  apply (StronglySorted_reverse (λ a b, a.1 < b.1)).
  pose proof (StronglySorted_lt _ (NoDup_ord_keys m) (ord_keys_sorted m)) as Hs.
  rewrite <- ord_iter_keys in Hs. clear -Hs.
  induction (ord_iter m) as [|[k a] l IH]; [constructor|]. csimpl in Hs.
  apply StronglySorted_inv in Hs as [Hs Hall]. constructor; [by apply IH|].
  rewrite Forall_fmap in Hall. done.
Qed.
End ord_iter.

(** A list whose entries are related in order of position is sorted. *)
Lemma StronglySorted_of_lookup {A} (R : relation A) (l : list A) :
  (∀ i j x y, (i < j)%nat → l !! i = Some x → l !! j = Some y → R x y) → StronglySorted R l.
Proof.
  induction l as [|a l IH]; intros Hl; constructor.
  - apply IH. intros i j x y Hij Hx Hy. by apply (Hl (S i) (S j)); [lia|..].
  - apply Forall_lookup. intros i x Hx. by apply (Hl 0%nat (S i)); [lia|..].
Qed.

Lemma forallb_false {A} (f : A → bool) l : forallb f l = false → ∃ x, x ∈ l ∧ f x = false.
Proof.
  induction l as [|x l IH]; simpl; [done|]. destruct (f x) eqn:Hx; simpl.
  - intros (y & Hy & Hf)%IH. exists y. split; [by right|done].
  - intros _. exists x. split; [by left|done].
Qed.
