(* ===== verification/SeqCache.v ===== *)
(** * The sequential key cache ([fendermint/vm/topdown/src/cache.rs])

    [SequentialKeyCache<K, V>] keeps the parent blocks fetched so far in a
    double-ended queue whose keys grow by a constant increment, and finds an
    entry by index arithmetic instead of by search.  The deque is a list, front
    first.  [K] is taken at its only use, [BlockHeight = u64].

    The theorems relate the cache to a finite map from heights to values: the
    index arithmetic finds exactly what a map lookup would, [append] inserts only
    the next key and classifies every other key, and the two [remove_key_*]
    operations are the two cuts of the map. *)

From S2P Require Import Prelude.
From stdpp Require Import base tactics numbers list gmap.

Open Scope Z_scope.

Record SequentialKeyCache (V : Type) := mkCache {
  increment : Z;
  data : list (Z * V);
}.
Arguments mkCache {V} increment data.
Arguments increment {V} _.
Arguments data {V} _.

Inductive SequentialAppendError :=
| AboveBound
| AlreadyInserted
| BelowBound.

Section cache.
Context {V : Type}.
Implicit Types (c : SequentialKeyCache V) (k lo : Z) (v : V).

Definition new (inc : Z) : SequentialKeyCache V := mkCache inc [].
Definition sequential : SequentialKeyCache V := mkCache 1 [].
Definition size c : nat := length (data c).
Definition is_empty c : bool := match data c with [] => true | _ => false end.
Definition upper_bound c : option Z := fst <$> last (data c).
Definition lower_bound c : option Z := fst <$> head (data c).

Definition within_bound {E} c k : outcome E bool :=
  match lower_bound c, upper_bound c with
  | Some lower, Some upper => Ok ((lower <=? k) && (k <=? upper))
  | None, None => Ok false
  | _, _ => Panic
  end.

(** [((key - lower) / self.increment).to_usize().unwrap()]: an increment of
    zero is a division by zero. *)
Definition index_of {E} c k lower : outcome E nat :=
  if increment c =? 0 then Panic
  else Ok (Z.to_nat ((k - lower)%u64 / increment c)).

Definition get_value {E} c k : outcome E (option V) :=
  inside ← within_bound c k;
  if (inside : bool) then
    lower ← unwrap (lower_bound c);
    index ← index_of c k lower;
    Ok (snd <$> data c !! index)
  else Ok None.

(** [VecDeque::range]: the bounds are checked against each other and against
    the length. *)
Definition deque_range {E} (l : list (Z * V)) (start stop : nat) : outcome E (list V) :=
  if (start <=? stop)%nat && (stop <=? length l)%nat
  then Ok (snd <$> take (stop - start) (drop start l)) else Panic.

Definition values_from {E} c start : outcome E (list V) :=
  if is_empty c then Ok (snd <$> data c) else
  lower ← unwrap (lower_bound c);
  index ← index_of c (Z.max start lower) lower;
  deque_range (data c) index (size c).

Definition values_within {E} c start stop : outcome E (list V) :=
  if is_empty c then Ok (snd <$> data c) else
  lower ← unwrap (lower_bound c);
  upper ← unwrap (upper_bound c);
  end_idx ← index_of c (Z.min stop upper) lower;
  start_idx ← index_of c (Z.max start lower) lower;
  deque_range (data c) start_idx (S end_idx).

Definition values c : list V := snd <$> data c.

Fixpoint pop_front_while (p : Z → bool) (l : list (Z * V)) : list (Z * V) :=
  match l with
  | [] => []
  | (k, v) :: l' => if p k then pop_front_while p l' else l
  end.

Definition remove_key_below c k : SequentialKeyCache V :=
  mkCache (increment c) (pop_front_while (λ k', k' <? k) (data c)).

Definition remove_key_above c k : SequentialKeyCache V :=
  mkCache (increment c)
    (reverse (pop_front_while (λ k', k <? k') (reverse (data c)))).

Definition push_back c k v : SequentialKeyCache V :=
  mkCache (increment c) (data c ++ [(k, v)]).

Definition append c k v : outcome SequentialAppendError (SequentialKeyCache V) :=
  match upper_bound c with
  | None => Ok (push_back c k v)
  | Some upper =>
      let expected_next_key := (upper + increment c)%u64 in
      if expected_next_key =? k then Ok (push_back c k v)
      else if expected_next_key <? k then Err AboveBound
      else
        lower ← unwrap (lower_bound c);
        if k <? lower then Err BelowBound else Err AlreadyInserted
  end.

(** ** Well-formedness: the keys form an arithmetic progression of words *)

Definition keyed (inc lo : Z) (l : list (Z * V)) : Prop :=
  ∀ i e, l !! i = Some e → e.1 = lo + inc * Z.of_nat i ∧ is_u64 e.1.

Definition wf c : Prop :=
  0 < increment c ∧
  match head (data c) with
  | None => True
  | Some (lo, _) => keyed (increment c) lo (data c)
  end.

(** The finite map a cache stands for. *)
Definition to_map c : gmap Z V := list_to_map (data c).

(** ** Progressions *)

Lemma keyed_cons inc lo k v l :
  keyed inc lo ((k, v) :: l) ↔ k = lo ∧ is_u64 k ∧ keyed inc (lo + inc) l.
Proof.
  split.
  - intros H. destruct (H 0%nat (k, v) eq_refl) as [Hk Hu]; simpl in *.
    split; [lia|]. split; [done|]. intros i e He.
    destruct (H (S i) e He) as [He' Hu']. split; [lia|done].
  - intros (-> & Hu & H) [|i] e He; simplify_eq/=; [split; [lia|done]|].
    destruct (H _ _ He). split; [lia|done].
Qed.
Lemma keyed_nil inc lo : keyed inc lo [].
Proof. intros i e He. done. Qed.
Lemma keyed_app inc lo l l' :
  keyed inc lo (l ++ l') ↔ keyed inc lo l ∧ keyed inc (lo + inc * Z.of_nat (length l)) l'.
Proof.
  revert lo. induction l as [|[k v] l IH]; intros lo; simpl.
  - rewrite Z.mul_0_r, Z.add_0_r. split; [split; [apply keyed_nil|done]|by intros [_ ?]].
  - rewrite !keyed_cons, IH.
    replace (lo + inc + inc * Z.of_nat (length l)) with (lo + inc * Z.of_nat (S (length l))) by lia.
    tauto.
Qed.
Lemma keyed_ge inc lo l k v : 0 < inc → keyed inc lo l → (k, v) ∈ l → lo <= k.
Proof.
  intros ? H [i Hi]%list_elem_of_lookup. destruct (H _ _ Hi) as [He _]. simpl in He. nia.
Qed.
Lemma keyed_NoDup inc lo l : 0 < inc → keyed inc lo l → NoDup l.*1.
Proof.
  intros Hinc. revert lo. induction l as [|[k v] l IH]; intros lo; [constructor|].
  rewrite keyed_cons. intros (-> & _ & H). constructor; [|by eauto].
  intros ([k' v'] & Hk & Hin)%list_elem_of_fmap. simpl in *. subst k'.
  eapply keyed_ge in Hin; eauto. lia.
Qed.

Lemma wf_keyed c lo v l : wf c → data c = (lo, v) :: l → keyed (increment c) lo (data c).
Proof. intros [_ H] Heq. rewrite Heq in *. done. Qed.
Lemma keyed_wf inc lo l : 0 < inc → keyed inc lo l → wf (mkCache inc l).
Proof.
  intros ? H. split; [done|]. destruct l as [|[k v] l]; simpl; [done|].
  pose proof (proj1 (keyed_cons _ _ _ _ _) H) as (-> & _). done.
Qed.
(** A well-formed cache is a progression from some origin, also when empty. *)
Lemma wf_origin c : wf c → ∃ lo, keyed (increment c) lo (data c).
Proof.
  intros [Hinc H]. destruct (data c) as [|[lo v] l] eqn:Hd; [exists 0; apply keyed_nil|].
  exists lo. done.
Qed.
Lemma wf_NoDup c : wf c → NoDup (data c).*1.
Proof. intros H. destruct (wf_origin c H). eapply keyed_NoDup; [apply H|done]. Qed.

Lemma to_map_Some c k v : wf c → to_map c !! k = Some v ↔ (k, v) ∈ data c.
Proof. intros H. symmetry. by apply elem_of_list_to_map, wf_NoDup. Qed.
Lemma to_map_None c k : to_map c !! k = None ↔ k ∉ (data c).*1.
Proof. symmetry. apply not_elem_of_list_to_map. Qed.

Lemma to_map_u64 c k v : wf c → to_map c !! k = Some v → is_u64 k.
Proof.
  intros Hwf Hk. apply to_map_Some in Hk; [|done].
  destruct (wf_origin c Hwf) as [lo Hl].
  apply list_elem_of_lookup_1 in Hk as [i Hi]. apply (Hl i _ Hi).
Qed.

Lemma new_wf inc : 0 < inc → wf (new inc).
Proof. intros ?. by split. Qed.
Lemma sequential_wf : wf sequential.
Proof. split; [simpl; lia|done]. Qed.
End cache.

#[export] Hint Resolve sequential_wf new_wf keyed_nil : delorean.

Section cache_facts.
Context {V : Type}.
Implicit Types (c : SequentialKeyCache V) (l : list (Z * V)) (k lo : Z) (v : V).

(** ** Bounds *)

Lemma lower_bound_cons c lo v l : data c = (lo, v) :: l → lower_bound c = Some lo.
Proof. unfold lower_bound. by intros ->. Qed.
Lemma upper_bound_keyed c lo :
  keyed (increment c) lo (data c) → data c ≠ [] →
  upper_bound c = Some (lo + increment c * (Z.of_nat (length (data c)) - 1)).
Proof.
  intros H Hne. unfold upper_bound. rewrite last_lookup.
  destruct (lookup_lt_is_Some_2 (data c) (pred (length (data c)))) as [e He].
  { destruct (data c); simpl in *; [done|lia]. }
  rewrite He. destruct (H _ _ He) as [Hk _]. simpl. f_equal. rewrite Hk.
  destruct (data c); simpl in *; [done|]. f_equal. f_equal. lia.
Qed.
Lemma upper_bound_None c : upper_bound c = None ↔ data c = [].
Proof. unfold upper_bound. rewrite fmap_None. apply last_None. Qed.
Lemma lower_bound_None c : lower_bound c = None ↔ data c = [].
Proof. unfold lower_bound. destruct (data c); naive_solver. Qed.

(** Keys of the map lie between the bounds, and both bounds are keys. *)
Lemma to_map_bounds c k v lo hi :
  wf c → lower_bound c = Some lo → upper_bound c = Some hi →
  to_map c !! k = Some v → lo <= k <= hi.
Proof.
  intros Hwf Hlo Hhi Hk. apply (to_map_Some c k v Hwf) in Hk.
  apply list_elem_of_lookup in Hk as [i Hi].
  destruct (data c) as [|[lo' v'] l] eqn:Hd; [done|].
  rewrite (lower_bound_cons c lo' v' l Hd) in Hlo. simplify_eq.
  pose proof (wf_keyed c _ _ _ Hwf Hd) as Hkey.
  rewrite (upper_bound_keyed c lo Hkey) in Hhi by (rewrite Hd; done). simplify_eq.
  rewrite <- Hd in Hi. destruct (Hkey _ _ Hi) as [Hke _]. simpl in Hke.
  apply lookup_lt_Some in Hi. destruct Hwf. nia.
Qed.

Lemma to_map_upper c hi : wf c → upper_bound c = Some hi → is_Some (to_map c !! hi).
Proof.
  unfold upper_bound. intros Hwf Hhi. apply fmap_Some in Hhi as ([k v] & Hl & ->).
  exists v. apply (to_map_Some c _ _ Hwf). rewrite last_lookup in Hl.
  by eapply list_elem_of_lookup_2.
Qed.
Lemma to_map_lower c lo : wf c → lower_bound c = Some lo → is_Some (to_map c !! lo).
Proof.
  unfold lower_bound. intros Hwf Hlo. destruct (data c) as [|[k v] l] eqn:Hd; simplify_eq/=.
  exists v. apply (to_map_Some c _ _ Hwf). rewrite Hd. left.
Qed.
Lemma bounds_u64 c lo hi :
  wf c → lower_bound c = Some lo → upper_bound c = Some hi → is_u64 lo ∧ is_u64 hi ∧ lo <= hi.
Proof.
  intros Hwf Hlo Hhi.
  destruct (to_map_lower c lo Hwf Hlo) as [v Hv]. destruct (to_map_upper c hi Hwf Hhi) as [v' Hv'].
  pose proof (to_map_bounds c _ _ _ _ Hwf Hlo Hhi Hv).
  apply (to_map_Some c _ _ Hwf) in Hv, Hv'.
  apply list_elem_of_lookup in Hv as [i Hi]. apply list_elem_of_lookup in Hv' as [j Hj].
  destruct (wf_origin c Hwf) as [o Ho].
  destruct (Ho _ _ Hi), (Ho _ _ Hj). simpl in *. split_and!; [done|done|lia].
Qed.
(** With unit increments every height between the bounds is present. *)
Lemma to_map_dense c lo hi k :
  wf c → increment c = 1 → lower_bound c = Some lo → upper_bound c = Some hi →
  lo <= k <= hi → is_Some (to_map c !! k).
Proof.
  intros Hwf Hinc Hlo Hhi Hk.
  destruct (data c) as [|[lo' v'] l] eqn:Hd; [by rewrite (proj2 (lower_bound_None c) Hd) in Hlo|].
  rewrite (lower_bound_cons c lo' v' l Hd) in Hlo. simplify_eq.
  pose proof (wf_keyed c _ _ _ Hwf Hd) as Hkey.
  rewrite (upper_bound_keyed c lo Hkey) in Hhi by (rewrite Hd; done). simplify_eq.
  destruct (lookup_lt_is_Some_2 (data c) (Z.to_nat (k - lo))) as [[k' v] He]; [nia|].
  destruct (Hkey _ _ He) as [Hk' _]. simpl in Hk'.
  exists v. apply (to_map_Some c _ _ Hwf). replace k with k' by nia.
  by eapply list_elem_of_lookup_2.
Qed.

Lemma to_map_empty c k : data c = [] → to_map c !! k = None.
Proof. unfold to_map. intros ->. apply lookup_empty. Qed.

Lemma within_bound_spec {E} c k :
  wf c → increment c = 1 →
  within_bound (E:=E) c k = Ok (bool_decide (is_Some (to_map c !! k))).
Proof.
  intros Hwf Hinc. unfold within_bound.
  destruct (lower_bound c) as [lo|] eqn:Hlo; destruct (upper_bound c) as [hi|] eqn:Hhi.
  - f_equal. apply eq_true_iff_eq. rewrite bool_decide_eq_true, andb_true_iff, !Z.leb_le. split.
    + by eapply to_map_dense.
    + intros [v Hv]. by eapply to_map_bounds.
  - apply upper_bound_None in Hhi. by rewrite (proj2 (lower_bound_None c) Hhi) in Hlo.
  - apply lower_bound_None in Hlo. by rewrite (proj2 (upper_bound_None c) Hlo) in Hhi.
  - apply lower_bound_None in Hlo. rewrite to_map_empty by done.
    by rewrite bool_decide_eq_false_2 by (intros []; done).
Qed.

(** The index computed for a key of the progression is its position. *)
Lemma index_of_keyed {E} c lo i e :
  wf c → keyed (increment c) lo (data c) → lower_bound c = Some lo →
  data c !! i = Some e → index_of (E:=E) c e.1 lo = Ok i.
Proof.
  intros [Hinc Hwf] Hkey Hlo Hi. unfold index_of.
  destruct (Hkey _ _ Hi) as [He Hu].
  assert (is_u64 lo) as Hulo.
  { unfold lower_bound in Hlo. destruct (data c) as [|[lo' v'] l]; simplify_eq/=.
    by apply keyed_cons in Hkey as (_ & ? & _). }
  rewrite (proj2 (Z.eqb_neq _ _)) by lia.
  rewrite sub64_small by (done || nia).
  rewrite He. replace (lo + increment c * Z.of_nat i - lo) with (Z.of_nat i * increment c) by lia.
  rewrite Z.div_mul by lia. by rewrite Nat2Z.id.
Qed.

Lemma get_value_entry {E} c k v :
  wf c → (k, v) ∈ data c → get_value (E:=E) c k = Ok (Some v).
Proof.
  intros Hwf Hin. pose proof Hin as [i Hi]%list_elem_of_lookup.
  destruct (data c) as [|[lo v0] l] eqn:Hd; [by apply elem_of_nil in Hin|].
  assert (lower_bound c = Some lo) as Hlo by by eapply lower_bound_cons.
  pose proof (wf_keyed c _ _ _ Hwf Hd) as Hkey.
  assert (data c ≠ []) as Hne by (by rewrite Hd).
  pose proof (upper_bound_keyed c lo Hkey Hne) as Hhi.
  unfold get_value, within_bound. rewrite Hlo, Hhi. rewrite <- Hd in *.
  pose proof (to_map_bounds c k v _ _ Hwf Hlo Hhi (proj2 (to_map_Some c k v Hwf) Hin)) as [Hl Hh].
  apply Z.leb_le in Hl, Hh. rewrite Hl, Hh. simpl.
  rewrite (index_of_keyed c lo i (k, v) Hwf Hkey Hlo Hi). simpl. by rewrite Hi.
Qed.

Lemma get_value_map {E} c k :
  wf c → increment c = 1 → get_value (E:=E) c k = Ok (to_map c !! k).
Proof.
  intros Hwf Hinc. destruct (to_map c !! k) as [v|] eqn:Hk.
  - apply get_value_entry; [done|]. by apply to_map_Some.
  - unfold get_value. rewrite within_bound_spec by done. rewrite Hk.
    by rewrite bool_decide_eq_false_2 by (intros []; done).
Qed.
End cache_facts.

Section cache_ops.
Context {V : Type}.
Implicit Types (c : SequentialKeyCache V) (l : list (Z * V)) (k lo : Z) (v : V).

(** ** Cuts *)

Lemma pop_front_while_suffix p l : ∃ n, pop_front_while p l = drop n l.
Proof.
  induction l as [|[k v] l [n IH]]; [by exists 0%nat|]. simpl.
  destruct (p k); [by exists (S n)|by exists 0%nat].
Qed.
(** Popping from the front is filtering when the predicate, once false along
    the list, stays false. *)
Lemma pop_front_while_filter (p : Z → bool) l :
  (∀ i j a b, (i < j)%nat → l !! i = Some a → l !! j = Some b → p b.1 = true → p a.1 = true) →
  pop_front_while p l = filter (λ e, p e.1 = false) l.
Proof.
  induction l as [|[k v] l IH]; [done|]. intros Hmono. simpl.
  rewrite filter_cons. simpl. destruct (p k) eqn:Hp.
  - rewrite decide_False by done. apply IH. intros i j a b Hij Ha Hb.
    apply (Hmono (S i) (S j)); [lia|done..].
  - rewrite decide_True by done. f_equal. symmetry.
    apply filter_all, Forall_lookup. intros j b Hb.
    destruct (p b.1) eqn:Hpb; [|done].
    by rewrite <- Hp, <- (Hmono 0%nat (S j) (k, v) b); [|lia|..].
Qed.
Lemma keyed_mono inc lo l i j a b :
  0 < inc → keyed inc lo l → (i < j)%nat → l !! i = Some a → l !! j = Some b → a.1 < b.1.
Proof. intros ? H ? [Ha _]%H [Hb _]%H. nia. Qed.

Lemma keyed_drop inc lo n l : keyed inc lo l → ∃ lo', keyed inc lo' (drop n l).
Proof.
  intros H. rewrite <- (take_drop n l) in H. apply keyed_app in H as [_ H]. eauto.
Qed.
Lemma keyed_take inc lo n l : keyed inc lo l → keyed inc lo (take n l).
Proof. intros H. rewrite <- (take_drop n l) in H. by apply keyed_app in H as [H _]. Qed.

Lemma list_to_map_filter_nodup (P : Z * V → Prop) `{∀ e, Decision (P e)} l :
  NoDup l.*1 → (list_to_map (filter P l) : gmap Z V) = filter P (list_to_map l).
Proof.
  intros Hnd. apply map_eq. intros k. apply option_eq. intros v.
  rewrite map_lookup_filter_Some.
  rewrite <- !elem_of_list_to_map, list_elem_of_filter; [simpl; tauto|done|].
  eapply sublist_NoDup; [exact Hnd|]. apply fmap_sublist, sublist_filter.
Qed.

Lemma filter_negb_spec (p : Z → bool) (P : Z → Prop) `{∀ k, Decision (P k)} l :
  (∀ k, p k = false ↔ P k) → filter (λ e, p e.1 = false) l = filter (λ e, P e.1) l.
Proof. intros Hp. apply list_filter_iff. intros e. apply Hp. Qed.

Lemma remove_key_below_data c k :
  wf c → data (remove_key_below c k) = filter (λ e, k <= e.1) (data c).
Proof.
  intros Hwf. destruct (wf_origin c Hwf) as [lo Hkey]. simpl.
  rewrite pop_front_while_filter.
  - apply (filter_negb_spec (λ k', k' <? k) (λ k', k <= k')). intros k'. apply Z.ltb_ge.
  - intros i j a b Hij Ha Hb Hlt. pose proof (keyed_mono _ _ _ _ _ _ _ (proj1 Hwf) Hkey Hij Ha Hb).
    zbool. apply Z.ltb_lt. lia.
Qed.
Lemma remove_key_above_data c k :
  wf c → data (remove_key_above c k) = filter (λ e, e.1 <= k) (data c).
Proof.
  intros Hwf. destruct (wf_origin c Hwf) as [lo Hkey]. simpl.
  rewrite pop_front_while_filter.
  - rewrite (filter_negb_spec (λ k', k <? k') (λ k', k' <= k)) by (intros; apply Z.ltb_ge).
    by rewrite <- (reverse_involutive (filter _ (data c))), filter_reverse.
  - intros i j a b Hij Ha Hb Hlt.
    pose proof (lookup_lt_Some _ _ _ Ha) as Hi. pose proof (lookup_lt_Some _ _ _ Hb) as Hj.
    rewrite length_reverse in Hi, Hj.
    rewrite reverse_lookup in Ha by done. rewrite reverse_lookup in Hb by done.
    assert (b.1 < a.1) by (eapply keyed_mono; [apply Hwf|apply Hkey| |done..]; lia).
    zbool. apply Z.ltb_lt. lia.
Qed.

Lemma remove_key_below_wf c k : wf c → wf (remove_key_below c k).
Proof.
  intros Hwf. destruct (wf_origin c Hwf) as [lo Hkey]. unfold remove_key_below.
  destruct (pop_front_while_suffix (λ k', k' <? k) (data c)) as [n ->].
  destruct (keyed_drop _ _ n _ Hkey). eapply keyed_wf; [apply Hwf|done].
Qed.
Lemma remove_key_above_wf c k : wf c → wf (remove_key_above c k).
Proof.
  intros Hwf. destruct (wf_origin c Hwf) as [lo Hkey]. unfold remove_key_above.
  destruct (pop_front_while_suffix (λ k', k <? k') (reverse (data c))) as [n ->].
  rewrite drop_reverse, reverse_involutive.
  eapply keyed_wf; [apply Hwf|]. by apply keyed_take.
Qed.

Lemma remove_key_below_to_map c k :
  wf c → to_map (remove_key_below c k) = filter (λ e, k <= e.1) (to_map c).
Proof.
  intros Hwf. unfold to_map. rewrite remove_key_below_data by done.
  by apply list_to_map_filter_nodup, wf_NoDup.
Qed.
Lemma remove_key_above_to_map c k :
  wf c → to_map (remove_key_above c k) = filter (λ e, e.1 <= k) (to_map c).
Proof.
  intros Hwf. unfold to_map. rewrite remove_key_above_data by done.
  by apply list_to_map_filter_nodup, wf_NoDup.
Qed.

(** ** Appending *)

Lemma push_back_to_map c k v : k ∉ (data c).*1 → to_map (push_back c k v) = <[k:=v]> (to_map c).
Proof.
  intros Hk. unfold to_map, push_back. simpl. rewrite list_to_map_app. simpl.
  rewrite insert_empty. apply map_eq. intros k'.
  destruct (decide (k' = k)) as [->|Hne].
  - rewrite lookup_insert_eq, lookup_union_r, lookup_singleton_eq; [done|].
    by apply not_elem_of_list_to_map.
  - rewrite lookup_insert_ne by done. rewrite lookup_union_l; [done|].
    by rewrite lookup_singleton_ne.
Qed.

Lemma push_back_empty_wf c k v : wf c → data c = [] → is_u64 k → wf (push_back c k v).
Proof.
  intros [Hinc _] Hd Hk. unfold push_back. rewrite Hd. eapply (keyed_wf _ k); [done|].
  apply keyed_cons. eauto with delorean.
Qed.
Lemma push_back_next_wf c hi v :
  wf c → upper_bound c = Some hi → is_u64 (hi + increment c) →
  wf (push_back c (hi + increment c) v).
Proof.
  intros Hwf Hhi Hk. destruct (wf_origin c Hwf) as [lo Hkey].
  destruct (decide (data c = [])) as [Hd|Hd].
  { by rewrite (proj2 (upper_bound_None c) Hd) in Hhi. }
  rewrite (upper_bound_keyed c lo Hkey Hd) in Hhi. simplify_eq.
  eapply (keyed_wf _ lo); [apply Hwf|]. apply keyed_app. split; [done|].
  apply keyed_cons. split; [lia|]. eauto with delorean.
Qed.
End cache_ops.

#[export] Hint Resolve remove_key_below_wf remove_key_above_wf push_back_empty_wf
  push_back_next_wf : delorean.

Section cache_theorems.
Context {V : Type}.
Implicit Types (c : SequentialKeyCache V) (k lo hi : Z) (v : V).

Lemma upper_bound_push_back c k v : upper_bound (push_back c k v) = Some k.
Proof. unfold upper_bound, push_back. simpl. by rewrite last_snoc. Qed.
Lemma lower_bound_push_back c k v :
  lower_bound (push_back c k v) = Some (default k (lower_bound c)).
Proof. unfold lower_bound, push_back. simpl. by destruct (data c). Qed.

Lemma above_not_key c k hi :
  wf c → upper_bound c = Some hi → hi < k → k ∉ (data c).*1.
Proof.
  intros Hwf Hhi Hk. apply to_map_None. destruct (to_map c !! k) as [v|] eqn:Hv; [|done].
  destruct (lower_bound c) as [lo|] eqn:Hlo.
  - pose proof (to_map_bounds c k v lo hi Hwf Hlo Hhi Hv). lia.
  - apply lower_bound_None in Hlo. by rewrite to_map_empty in Hv.
Qed.

Lemma append_cases c k v :
  wf c → increment c = 1 → is_u64 k →
  (∀ hi, upper_bound c = Some hi → hi < U64_MAX) →
  match append c k v with
  | Ok c' => c' = push_back c k v ∧ wf c' ∧ increment c' = 1 ∧ to_map c' = <[k:=v]> (to_map c) ∧
             upper_bound c' = Some k ∧ (∀ hi, upper_bound c = Some hi → k = hi + 1)
  | Err AboveBound => ∃ hi, upper_bound c = Some hi ∧ hi + 1 < k
  | Err AlreadyInserted => is_Some (to_map c !! k)
  | Err BelowBound => ∃ lo, lower_bound c = Some lo ∧ k < lo
  | Retry | Panic => False
  end.
Proof.
  intros Hwf Hinc Hk Hmax. unfold append.
  destruct (upper_bound c) as [hi|] eqn:Hhi.
  2:{ apply upper_bound_None in Hhi.
      split_and!; eauto using upper_bound_push_back, push_back_empty_wf; [|done].
      apply push_back_to_map. rewrite Hhi. apply not_elem_of_nil. }
  destruct (lower_bound c) as [lo|] eqn:Hlo.
  2:{ apply lower_bound_None in Hlo. by rewrite (proj2 (upper_bound_None c) Hlo) in Hhi. }
  destruct (bounds_u64 c lo hi Hwf Hlo Hhi) as (Hulo & Huhi & Hle).
  pose proof (Hmax hi eq_refl) as Hlt.
  assert (is_u64 (hi + 1)) as Hu1 by (unfold is_u64 in *; lia).
  rewrite Hinc, add64_small by (done || unfold is_u64, U64_MAX in *; lia).
  destruct (hi + 1 =? k) eqn:Hn; zbool.
  - subst k. split_and!; [done| |done| |apply upper_bound_push_back|congruence].
    + pose proof (push_back_next_wf c hi v Hwf Hhi) as Hp. rewrite Hinc in Hp. by apply Hp.
    + apply push_back_to_map. eapply above_not_key; eauto. lia.
  - destruct (hi + 1 <? k) eqn:Hab; zbool; [by eauto|]. simpl.
    destruct (k <? lo) eqn:Hbl; zbool; [by eauto|].
    eapply to_map_dense; eauto. lia.
Qed.

(** Index arithmetic is map lookup: for a well-formed cache with unit
    increments, [get_value] never panics and returns exactly the value the map
    of cached entries holds at the key. *)
Theorem get_value_lookup {E} c k :
  wf c → increment c = 1 → get_value (E:=E) c k = Ok (to_map c !! k).
Proof. apply get_value_map. Qed.

(** [append] accepts exactly the first key or the successor of the upper
    bound, inserting it and keeping the progression; every refusal carries the
    error that describes where the key lies. *)
Theorem append_spec c k v :
  wf c → increment c = 1 → is_u64 k →
  (∀ hi, upper_bound c = Some hi → hi < U64_MAX) →
  match append c k v with
  | Ok c' => wf c' ∧ increment c' = 1 ∧ to_map c' = <[k:=v]> (to_map c) ∧
             upper_bound c' = Some k ∧ (∀ hi, upper_bound c = Some hi → k = hi + 1)
  | Err AboveBound => ∃ hi, upper_bound c = Some hi ∧ hi + 1 < k
  | Err AlreadyInserted => is_Some (to_map c !! k)
  | Err BelowBound => ∃ lo, lower_bound c = Some lo ∧ k < lo
  | Retry | Panic => False
  end.
Proof.
  intros Hwf Hinc Hk Hmax. pose proof (append_cases c k v Hwf Hinc Hk Hmax) as Hc.
  destruct (append c k v) as [c'|[]| |]; try done. apply Hc.
Qed.

(** Clearing entries below (above) a height cuts the map there: what is
    kept is exactly the entries at or above (at or below) it, and the cache
    stays well formed. *)
Theorem remove_key_cut c k :
  wf c →
  wf (remove_key_below c k) ∧ wf (remove_key_above c k) ∧
  to_map (remove_key_below c k) = filter (λ e, k <= e.1) (to_map c) ∧
  to_map (remove_key_above c k) = filter (λ e, e.1 <= k) (to_map c).
Proof.
  intros Hwf. split_and!; eauto using remove_key_below_to_map, remove_key_above_to_map with delorean.
Qed.
End cache_theorems.

(** ** Witnesses *)

Definition sample_cache : SequentialKeyCache bool :=
  mkCache 1 [(7, true); (8, false); (9, true)].

Lemma sample_cache_wf : wf sample_cache.
Proof.
  split; [simpl; lia|]. simpl. repeat (apply keyed_cons; split; [lia|]; split; [unfold is_u64, U64_MAX; lia|]).
  apply keyed_nil.
Qed.

Lemma get_value_lookup_witness :
  get_value (E:=Empty_set) sample_cache 8 = Ok (to_map sample_cache !! 8) ∧
  to_map sample_cache !! 8 = Some false ∧ to_map sample_cache !! 10 = None.
Proof.
  split; [|split; vm_compute; reflexivity].
  apply (get_value_lookup sample_cache 8); [exact sample_cache_wf|reflexivity].
Defined.

Lemma append_spec_witness :
  match append sample_cache 10 false with
  | Ok c' => to_map c' = <[10:=false]> (to_map sample_cache)
  | _ => False
  end.
Proof.
  pose proof (append_spec sample_cache 10 false sample_cache_wf eq_refl) as H.
  assert (append sample_cache 10 false = Ok (push_back sample_cache 10 false)) as E
    by (vm_compute; reflexivity).
  rewrite E in *. apply H.
  - unfold is_u64, U64_MAX. lia.
  - intros hi Hhi. vm_compute in Hhi. injection Hhi as <-. unfold U64_MAX. lia.
Defined.

Lemma remove_key_cut_witness :
  to_map (remove_key_below sample_cache 8) = filter (λ e, 8 <= e.1) (to_map sample_cache) ∧
  data (remove_key_below sample_cache 8) = [(8, false); (9, true)].
Proof.
  split; [apply (remove_key_cut sample_cache 8 sample_cache_wf)|vm_compute; reflexivity].
Defined.
