(* ===== verification/Voting.v ===== *)
(** * The parent-finality vote tally ([fendermint/vm/topdown/src/voting.rs])

    A [VoteTally] holds the power table of the subnet, the chain of final parent
    blocks this node has seen, and the votes gossiped about them.  Its four
    [TVar]s are the fields of a record; an STM method is a function on the record
    that returns the new record, aborts with an error, or retries.  Validator keys
    [K] and block hashes [V] are the type parameters of the source.

    The declarative meaning of a quorum is [is_quorum]; [find_quorum] is shown to
    return the highest block that has one. *)

From S2P Require Import Prelude.
From stdpp Require Import base tactics numbers list gmap sorting.

Open Scope Z_scope.

Record VoteTally (K V : Type) `{Countable K} `{Countable V} := mkTally {
  power_table : gmap K Z;
  chain : gmap Z (option V);
  votes : gmap Z (gmap V (gset K));
  pause_votes : bool;
}.
Arguments mkTally {K V _ _ _ _} _ _ _ _.
Arguments power_table {K V _ _ _ _} _.
Arguments chain {K V _ _ _ _} _.
Arguments votes {K V _ _ _ _} _.
Arguments pause_votes {K V _ _ _ _} _.

Inductive VotingError (K V : Type) :=
| Uninitialized
| UnexpectedBlock (expected got : Z)
| UnpoweredValidator (k : K)
| Equivocation (k : K) (height : Z) (new old : V).
Arguments Uninitialized {K V}.
Arguments UnexpectedBlock {K V} _ _.
Arguments UnpoweredValidator {K V} _.
Arguments Equivocation {K V} _ _ _ _.

Section tally.
Context {K V : Type} `{Countable K} `{Countable V}.
Implicit Types (t : VoteTally K V) (h : Z) (vk : K) (v : V).

(** ** Operations *)

Definition empty : VoteTally K V := mkTally ∅ ∅ ∅ false.

(** [HashMap::from_iter]: a later entry for the same key replaces an earlier one. *)
Definition from_iter (l : list (K * Z)) : gmap K Z :=
  foldl (λ m '(k, w), <[k:=w]> m) ∅ l.

Definition new (pt : list (K * Z)) (last_finalized_block : Z * V) : VoteTally K V :=
  let '(height, hash) := last_finalized_block in
  mkTally (from_iter pt) {[ height := Some hash ]} ∅ false.

Definition has_power t vk : bool :=
  match power_table t !! vk with
  | None => false
  | Some weight => 0 <? weight
  end.

(** [pt.values().sum()] *)
Definition sum_weights (pt : gmap K Z) : Z := map_fold (λ _ w acc, w + acc) 0 pt.
Definition total_weight t : Z := wrap64 (sum_weights (power_table t)).

Definition quorum_threshold t : Z := ((total_weight t * 2)%u64 / 3 + 1)%u64.

Definition last_finalized_height t : Z := default 0 (get_min (chain t)).
Definition latest_height t : Z := default 0 (get_max (chain t)).
Definition block_hash t h : option V := mjoin (chain t !! h).

Definition add_block t (block_height : Z) (hash : option V)
    : outcome (VotingError K V) (VoteTally K V) :=
  match get_max (chain t) with
  | None => Err Uninitialized
  | Some parent_height =>
      if block_height =? (parent_height + 1)%u64 then
        Ok (mkTally (power_table t) (<[block_height := hash]> (chain t)) (votes t) (pause_votes t))
      else Err (UnexpectedBlock (parent_height + 1)%u64 block_height)
  end.

(** The first entry at the height that holds a vote of the same validator for
    another hash. *)
Definition find_equivocation vk v (at_height : gmap V (gset K)) : option V :=
  match list_find (λ e : V * gset K, e.1 ≠ v ∧ vk ∈ e.2) (map_to_list at_height) with
  | Some (_, (bh, _)) => Some bh
  | None => None
  end.

Definition add_vote t vk (block_height : Z) v
    : outcome (VotingError K V) (VoteTally K V * bool) :=
  if pause_votes t then Retry else
  let min_height := last_finalized_height t in
  if block_height <? min_height then Ok (t, false) else
  if negb (has_power t vk) then Err (UnpoweredValidator vk) else
  let at_height := default ∅ (votes t !! block_height) in
  match find_equivocation vk v at_height with
  | Some bh => Err (Equivocation vk block_height v bh)
  | None =>
      let for_block := default ∅ (at_height !! v) in
      if decide (vk ∈ for_block) then Ok (t, false)
      else Ok (mkTally (power_table t) (chain t)
                 (<[block_height := <[v := {[vk]} ∪ for_block]> at_height]> (votes t))
                 (pause_votes t), true)
  end.

Definition pause_votes_until_find_quorum t : VoteTally K V :=
  mkTally (power_table t) (chain t) (votes t) true.

(** The inner loop: a voter not seen before adds its current weight. *)
Definition count_voter (pt : gmap K Z) (acc : gset K * Z) vk : gset K * Z :=
  let '(voters, weight) := acc in
  if decide (vk ∈ voters) then acc
  else ({[vk]} ∪ voters, (weight + default 0 (pt !! vk))%u64).

(** The outer loop, over [chain.iter().rev()]. *)
Fixpoint find_quorum_loop (fin threshold : Z) (pt : gmap K Z)
    (vts : gmap Z (gmap V (gset K))) (blocks : list (Z * option V))
    (acc : gset K * Z) : option (Z * V) :=
  match blocks with
  | [] => None
  | (h, bh) :: rest =>
      if h =? fin then None else
      match bh with
      | None => find_quorum_loop fin threshold pt vts rest acc
      | Some v =>
          match vts !! h ≫= (.!! v) with
          | None => find_quorum_loop fin threshold pt vts rest acc
          | Some for_block =>
              let acc' := foldl (count_voter pt) acc (elements for_block) in
              if threshold <=? acc'.2 then Some (h, v)
              else find_quorum_loop fin threshold pt vts rest acc'
          end
      end
  end.

Definition find_quorum t : VoteTally K V * option (Z * V) :=
  let t' := mkTally (power_table t) (chain t) (votes t) false in
  (t', match get_min (chain t) with
       | None => None
       | Some fin =>
           find_quorum_loop fin (quorum_threshold t) (power_table t) (votes t)
             (reverse (ord_iter (chain t))) (∅, 0)
       end).

Definition set_finalized t h v : VoteTally K V :=
  mkTally (power_table t) (<[h := Some v]> (split_right h (chain t)))
    (split_right h (votes t)) (pause_votes t).

Definition set_power_table t (pt : list (K * Z)) : VoteTally K V :=
  mkTally (from_iter pt) (chain t) (votes t) (pause_votes t).

Definition apply_power_update (pt : gmap K Z) (u : K * Z) : gmap K Z :=
  let '(vk, w) := u in if w =? 0 then delete vk pt else <[vk := w]> pt.

Definition update_power_table t (updates : list (K * Z)) : VoteTally K V :=
  match updates with
  | [] => t
  | _ => mkTally (foldl apply_power_update (power_table t) updates)
           (chain t) (votes t) (pause_votes t)
  end.

(** ** One round of [publish_vote_loop]

    [next_vote] is the transaction of the loop: wait for a height above the last
    one voted on, and add our own vote for its block when we have power.
    [publish_round] is the loop body after the transaction has committed,
    aborted, or timed out (a transaction that keeps retrying ends in the
    timeout).  It returns the tally, the new [prev], and the vote published. *)
Definition next_vote t vk (prev_height : Z)
    : outcome (VotingError K V) (VoteTally K V * (Z * V * bool)) :=
  let next_height := latest_height t in
  if next_height =? prev_height then Retry else
  match block_hash t next_height with
  | None => Retry
  | Some next_hash =>
      let hp := has_power t vk in
      if hp then
        '(t', _) ← add_vote t vk next_height next_hash;
        Ok (t', (next_height, next_hash, hp))
      else Ok (t, (next_height, next_hash, hp))
  end.

Definition prev_height_of (prev : option (Z * V * bool)) : Z :=
  match prev with Some (height, _, _) => height | None => 0 end.

Definition publish_round t vk (prev : option (Z * V * bool))
    : VoteTally K V * option (Z * V * bool) * option (Z * V) :=
  let prev_height := prev_height_of prev in
  let proceed t' vs :=
    let '(h, v, hp) := vs in
    (t', Some (h, v, hp), if hp && (0 <? prev_height) then Some (h, v) else None) in
  match next_vote t vk prev_height with
  | Ok (t', vs) => proceed t' vs
  | Err _ => (t, prev, None)
  | Retry | Panic =>
      match prev with
      | Some vs => proceed t vs
      | None => (t, None, None)
      end
  end.
End tally.

Section tally_facts.
Context {K V : Type} `{Countable K} `{Countable V}.
Implicit Types (t : VoteTally K V) (pt : gmap K Z) (h : Z) (vk : K) (v : V) (s : gset K).

(** ** Weights *)

Definition weight pt vk : Z := default 0 (pt !! vk).
Definition weight_of pt s : Z := set_sum (weight pt) s.

(** Weights are words and twice their sum still fits in one, so the threshold
    computation does not wrap. *)
Definition powers_ok pt : Prop :=
  (∀ vk w, pt !! vk = Some w → 0 <= w) ∧ 2 * sum_weights pt <= U64_MAX.

Lemma weight_nonneg pt vk : powers_ok pt → 0 <= weight pt vk.
Proof. intros [Hp _]. unfold weight. destruct (pt !! vk) eqn:E; simpl; [eauto|lia]. Qed.

Lemma sum_weights_insert pt vk w :
  pt !! vk = None → sum_weights (<[vk := w]> pt) = w + sum_weights pt.
Proof. intros Hk. unfold sum_weights. apply map_fold_insert_L; [intros; lia|done]. Qed.
Lemma sum_weights_dom pt : sum_weights pt = weight_of pt (dom pt).
Proof.
  induction pt as [|vk w pt Hk IH] using map_ind; [done|].
  rewrite sum_weights_insert by done. unfold weight_of.
  rewrite dom_insert_L, set_sum_insert by by apply not_elem_of_dom.
  unfold weight at 1. rewrite lookup_insert_eq. simpl. f_equal. rewrite IH.
  apply set_sum_ext. intros k' Hk'. unfold weight.
  rewrite lookup_insert_ne; [done|]. intros <-. by apply not_elem_of_dom in Hk.
Qed.
Lemma weight_of_le_sum pt s : powers_ok pt → weight_of pt s <= sum_weights pt.
Proof.
  intros Hp. rewrite sum_weights_dom. unfold weight_of.
  rewrite (set_sum_split (weight pt) s (dom pt)).
  assert (set_sum (weight pt) (s ∖ dom pt) = 0) as ->.
  { apply set_sum_zero. intros vk [_ Hvk]%elem_of_difference. unfold weight.
    by apply not_elem_of_dom in Hvk as ->. }
  rewrite Z.add_0_r. apply set_sum_mono; [intros; by apply weight_nonneg|set_solver].
Qed.
Lemma weight_of_u64 pt s : powers_ok pt → is_u64 (weight_of pt s).
Proof.
  intros Hp. pose proof (weight_of_le_sum pt s Hp).
  assert (0 <= weight_of pt s) by (apply set_sum_nonneg; intros; by apply weight_nonneg).
  destruct Hp as [_ Hp]. unfold is_u64, U64_MAX in *. lia.
Qed.

Lemma total_weight_eq t : powers_ok (power_table t) → total_weight t = sum_weights (power_table t).
Proof.
  intros Hp. apply wrap64_small. rewrite sum_weights_dom. by apply weight_of_u64.
Qed.
Lemma quorum_threshold_eq t :
  powers_ok (power_table t) → quorum_threshold t = sum_weights (power_table t) * 2 / 3 + 1.
Proof.
  intros Hp. unfold quorum_threshold. rewrite total_weight_eq by done.
  pose proof (weight_of_u64 (power_table t) (dom (power_table t)) Hp) as Hu.
  rewrite <- sum_weights_dom in Hu. destruct Hp as [_ Hp].
  unfold is_u64, U64_MAX in *.
  unfold mul64. rewrite wrap64_small by (unfold is_u64, U64_MAX; lia).
  unfold add64. rewrite wrap64_small; [done|]. unfold is_u64, U64_MAX.
  pose proof (Z.div_pos (sum_weights (power_table t) * 2) 3).
  pose proof (Z.div_le_upper_bound (sum_weights (power_table t) * 2) 3 (2 ^ 64 - 2)). lia.
Qed.

(** ** The voting loop *)

Lemma count_voters_spec pt (l : list K) voters w :
  powers_ok pt → w = weight_of pt voters →
  foldl (count_voter pt) (voters, w) l =
    (voters ∪ list_to_set l, weight_of pt (voters ∪ list_to_set l)).
Proof.
  intros Hp. revert voters w. induction l as [|vk l IH]; intros voters w ->; simpl.
  - by rewrite union_empty_r_L.
  - case_decide as Hin.
    + rewrite IH by done.
      by replace (voters ∪ ({[vk]} ∪ list_to_set l)) with (voters ∪ list_to_set l) by set_solver.
    + assert ((weight_of pt voters + default 0 (pt !! vk))%u64 = weight_of pt ({[vk]} ∪ voters)) as ->.
      { pose proof (weight_of_u64 pt ({[vk]} ∪ voters) Hp) as Hu. unfold weight_of in *.
        rewrite set_sum_insert in Hu |- * by done. rewrite Z.add_comm in Hu |- *.
        by apply wrap64_small. }
      rewrite IH by done.
      by replace ({[vk]} ∪ voters ∪ list_to_set l) with (voters ∪ ({[vk]} ∪ list_to_set l)) by set_solver.
Qed.

(** The voters counted at one height: those who voted for the block our chain
    has there. *)
Definition votes_for t h v : option (gset K) := votes t !! h ≫= (.!! v).
Definition counted t h : gset K :=
  match chain t !! h with
  | Some (Some v) => default ∅ (votes_for t h v)
  | _ => ∅
  end.
(** The voters counted at a height or any later one. *)
Definition voters_from t h : gset K :=
  ⋃ (counted t <$> filter (λ h', h <= h') (ord_keys (chain t))).

(** A block of our chain, above the finalized one, that received some vote and
    whose voters, together with those of its descendants, reach the threshold. *)
Definition is_quorum t h v : Prop :=
  chain t !! h = Some (Some v) ∧ last_finalized_height t < h ∧
  is_Some (votes_for t h v) ∧
  quorum_threshold t <= weight_of (power_table t) (voters_from t h).

Lemma elem_of_voters_from t h vk :
  vk ∈ voters_from t h ↔
  ∃ h' v s, h <= h' ∧ chain t !! h' = Some (Some v) ∧ votes_for t h' v = Some s ∧ vk ∈ s.
Proof.
  unfold voters_from. rewrite elem_of_union_list. split.
  - intros (X & (h' & -> & [Hle Hh']%list_elem_of_filter)%list_elem_of_fmap & Hvk).
    unfold counted in Hvk. destruct (chain t !! h') as [[v|]|] eqn:Hc; [|set_solver..].
    destruct (votes_for t h' v) as [s|] eqn:Hs; [naive_solver|set_solver].
  - intros (h' & v & s & Hle & Hc & Hs & Hvk). exists (counted t h'). split.
    + apply list_elem_of_fmap. exists h'. split; [done|]. apply list_elem_of_filter.
      split; [done|]. apply elem_of_ord_keys. eauto.
    + unfold counted. by rewrite Hc, Hs.
Qed.
End tally_facts.

Section quorum_search.
Context {K V : Type} `{Countable K} `{Countable V}.
Implicit Types (t : VoteTally K V) (h : Z) (vk : K) (v : V) (U : gset K).

(** What the loop knows when [rest] is still to be visited: the voters [U] are
    those counted at the heights already visited. *)
Definition visited t U (rest : list (Z * option V)) : Prop :=
  ∀ vk, vk ∈ U ↔ ∃ k, is_Some (chain t !! k) ∧ k ∉ rest.*1 ∧ vk ∈ counted t k.

Lemma visited_skip t U h bh rest :
  counted t h = ∅ → visited t U ((h, bh) :: rest) → visited t U rest.
Proof.
  intros Hc Hv vk. rewrite (Hv vk). split; intros (k & Hk & Hn & Hin); exists k; csimpl in *.
  - set_solver.
  - split_and!; [done| |done]. intros [->|?]%elem_of_cons; [set_solver|done].
Qed.
Lemma visited_count t U h v s rest :
  chain t !! h = Some (Some v) → votes_for t h v = Some s → h ∉ rest.*1 →
  visited t U ((h, Some v) :: rest) → visited t (U ∪ s) rest.
Proof.
  intros Hc Hs Hn Hv vk.
  assert (counted t h = s) as Hcs by (unfold counted; by rewrite Hc, Hs).
  rewrite elem_of_union, (Hv vk). split.
  - intros [(k & Hk & Hnk & Hin)|Hin]; [exists k|exists h]; csimpl in *; set_solver.
  - intros (k & Hk & Hnk & Hin). destruct (decide (k = h)) as [->|Hne]; [set_solver|].
    left. exists k. csimpl. set_solver.
Qed.
(** When every key not in [rest] lies above it, the voters from the next height
    on are those visited together with those counted there. *)
Lemma visited_voters_from t U h v s rest :
  chain t !! h = Some (Some v) → votes_for t h v = Some s →
  (∀ k, is_Some (chain t !! k) → k ∉ ((h, Some v) :: rest).*1 → h < k) →
  (∀ k, k ∈ rest.*1 → k < h) →
  visited t U ((h, Some v) :: rest) → voters_from t h = U ∪ s.
Proof.
  intros Hc Hs Habove Hbelow Hv. apply set_eq. intros vk.
  rewrite elem_of_voters_from, elem_of_union, (Hv vk). split.
  - intros (h' & v' & s' & Hle & Hc' & Hs' & Hin).
    destruct (decide (h' = h)) as [->|Hne]; [right; congruence|]. left. exists h'.
    split_and!; [eauto| |unfold counted; by rewrite Hc', Hs'].
    csimpl. intros [->|Hr]%elem_of_cons; [done|]. apply Hbelow in Hr. lia.
  - intros [(k & Hk & Hnk & Hin)|Hin]; [|exists h, v, s; split_and!; [lia|done..]].
    pose proof (Habove k Hk Hnk). unfold counted in Hin.
    destruct (chain t !! k) as [[v'|]|] eqn:Hck; [|set_solver..].
    destruct (votes_for t k v') as [s'|] eqn:Hsk; [|set_solver].
    exists k, v', s'. split_and!; [lia|done..].
Qed.

Lemma find_quorum_loop_spec t fin rest U :
  powers_ok (power_table t) → get_min (chain t) = Some fin →
  (∀ h bh, (h, bh) ∈ rest → chain t !! h = Some bh) →
  StronglySorted (λ a b, b.1 < a.1) rest →
  (∀ k h, is_Some (chain t !! k) → k ∉ rest.*1 → h ∈ rest.*1 → h < k) →
  visited t U rest →
  match find_quorum_loop fin (quorum_threshold t) (power_table t) (votes t) rest
          (U, weight_of (power_table t) U) with
  | Some (h, v) => is_quorum t h v ∧ ∀ h' v', h' ∈ rest.*1 → is_quorum t h' v' → h' <= h
  | None => ∀ h v, h ∈ rest.*1 → ¬ is_quorum t h v
  end.
Proof.
  intros Hp Hmin. revert U.
  assert (last_finalized_height t = fin) as Hfin by (unfold last_finalized_height; by rewrite Hmin).
  induction rest as [|[h bh] rest IH]; intros U Hchain Hsort Habove Hvis; simpl.
  { intros h v Hh. by apply elem_of_nil in Hh. }
  apply StronglySorted_inv in Hsort as [Hsort Hhd]. rewrite Forall_forall in Hhd.
  assert (∀ k, k ∈ rest.*1 → k < h) as Hbelow.
  { intros k ([k' a] & -> & Hka)%list_elem_of_fmap. apply (Hhd (k', a) Hka). }
  pose proof (Hchain h bh ltac:(left)) as Hh.
  assert (∀ k h', is_Some (chain t !! k) → k ∉ rest.*1 → h' ∈ rest.*1 → h' < k) as Habove'.
  { intros k h' Hk Hn Hh'. destruct (decide (k = h)) as [->|]; [by apply Hbelow|].
    apply (Habove k h'); [done|set_solver|set_solver]. }
  assert (∀ k b, (k, b) ∈ rest → chain t !! k = Some b) as Hchain' by (intros; apply Hchain; by right).
  destruct (h =? fin) eqn:Hf; zbool.
  { intros h' v [->|Hh']%elem_of_cons (_ & Hlt & _); [simpl in *; lia|]. apply Hbelow in Hh'. lia. }
  destruct bh as [v|].
  2:{ assert (∀ v, ¬ is_quorum t h v) as Hno by (intros v [Hc _]; congruence).
      specialize (IH U Hchain' Hsort Habove'
        (visited_skip t U h None rest ltac:(unfold counted; by rewrite Hh) Hvis)).
      destruct (find_quorum_loop _ _ _ _ _ _) as [[hq vq]|]; set_solver. }
  change (votes t !! h ≫= (.!! v)) with (votes_for t h v).
  destruct (votes_for t h v) as [s|] eqn:Hs.
  2:{ assert (∀ v, ¬ is_quorum t h v) as Hno.
      { intros v' (Hc & _ & [s' Hs'] & _). congruence. }
      specialize (IH U Hchain' Hsort Habove'
        (visited_skip t U h (Some v) rest ltac:(unfold counted; by rewrite Hh, Hs) Hvis)).
      destruct (find_quorum_loop _ _ _ _ _ _) as [[hq vq]|]; set_solver. }
  rewrite count_voters_spec by done. rewrite list_to_set_elements_L. simpl.
  assert (h ∉ rest.*1) as Hnh by (intros Hin; apply Hbelow in Hin; lia).
  assert (voters_from t h = U ∪ s) as Hvf.
  { eapply visited_voters_from; eauto. intros k Hk Hn. apply (Habove k h Hk Hn). left. }
  assert (fin < h) as Hlt.
  { apply get_min_Some in Hmin as [_ Hmin]. pose proof (Hmin h ltac:(eauto)). lia. }
  destruct (quorum_threshold t <=? _) eqn:Hthr; zbool.
  - split.
    + split_and!; [done|lia|eauto|by rewrite Hvf].
    + intros h' v' [->|Hh']%elem_of_cons _; [simpl; lia|]. apply Hbelow in Hh'. lia.
  - specialize (IH (U ∪ s) Hchain' Hsort Habove' (visited_count t U h v s rest Hh Hs Hnh Hvis)).
    assert (∀ v, ¬ is_quorum t h v) as Hno.
    { intros v' (_ & _ & _ & Hq). rewrite Hvf in Hq. lia. }
    destruct (find_quorum_loop _ _ _ _ _ _) as [[hq vq]|]; set_solver.
Qed.

Lemma find_quorum_best t :
  powers_ok (power_table t) →
  match (find_quorum t).2 with
  | Some (h, v) => is_quorum t h v ∧ ∀ h' v', is_quorum t h' v' → h' <= h
  | None => ∀ h v, ¬ is_quorum t h v
  end.
Proof.
  intros Hp. unfold find_quorum. simpl.
  destruct (get_min (chain t)) as [fin|] eqn:Hmin.
  2:{ apply get_min_None in Hmin. intros h v [Hc _]. by rewrite Hmin, lookup_empty in Hc. }
  assert (∀ k, is_Some (chain t !! k) → k ∈ (reverse (ord_iter (chain t))).*1) as Hall.
  { intros k Hk. rewrite fmap_reverse, elem_of_reverse, ord_iter_keys. by apply elem_of_ord_keys. }
  pose proof (find_quorum_loop_spec t fin (reverse (ord_iter (chain t))) ∅ Hp Hmin) as Hspec.
  unfold weight_of in Hspec. rewrite set_sum_empty in Hspec.
  assert (∀ h v, is_quorum t h v → h ∈ (reverse (ord_iter (chain t))).*1) as Hin.
  { intros h v [Hc _]. apply Hall. eauto. }
  destruct (find_quorum_loop _ _ _ _ _ _) as [[h v]|].
  all: ospecialize (Hspec _ _ _ _);
    [intros h' bh; rewrite elem_of_reverse; apply elem_of_ord_iter
    |apply rev_ord_iter_sorted
    |intros k h' Hk Hn; by apply Hall in Hk
    |intros vk; split; [set_solver|intros (k & Hk & Hn & _); by apply Hall in Hk]
    |].
  - destruct Hspec as [Hq Hmax]. split; [done|]. eauto.
  - intros h v Hq. eapply Hspec; eauto.
Qed.
End quorum_search.

Section tally_invariant.
Context {K V : Type} `{Countable K} `{Countable V}.
Implicit Types (t : VoteTally K V) (h : Z) (vk : K) (v : V).

(** The votes of the tally as a relation. *)
Definition voted t vk h v : Prop := ∃ s, votes_for t h v = Some s ∧ vk ∈ s.

Definition contiguous (c : gmap Z (option V)) : Prop :=
  ∀ a b h, is_Some (c !! a) → is_Some (c !! b) → a <= h <= b → is_Some (c !! h).
Definition no_equivocation t : Prop :=
  ∀ vk h v v', voted t vk h v → voted t vk h v' → v = v'.
Definition votes_recent t : Prop :=
  ∀ h, is_Some (votes t !! h) → last_finalized_height t <= h.

Record tally_inv t : Prop := {
  inv_powers : powers_ok (power_table t);
  inv_contiguous : contiguous (chain t);
  inv_no_equivocation : no_equivocation t;
  inv_recent : votes_recent t;
}.

(** The transactions run on the tally.  The guards are the callers': the last
    finalized block only moves forward ([check_height] of the finality
    provider), heights stay below the end of the word, and power tables keep
    twice the total power within a word. *)
Inductive tally_step : VoteTally K V → VoteTally K V → Prop :=
| step_add_block t t' h bh :
    latest_height t < U64_MAX → add_block t h bh = Ok t' → tally_step t t'
| step_add_vote t t' vk h v added :
    add_vote t vk h v = Ok (t', added) → tally_step t t'
| step_pause t : tally_step t (pause_votes_until_find_quorum t)
| step_find_quorum t : tally_step t (find_quorum t).1
| step_set_finalized t h v :
    is_u64 h → last_finalized_height t <= h → tally_step t (set_finalized t h v)
| step_set_power_table t l :
    powers_ok (from_iter l) → tally_step t (set_power_table t l)
| step_update_power_table t l :
    powers_ok (power_table (update_power_table t l)) →
    tally_step t (update_power_table t l).

(** ** Votes *)

Lemma find_equivocation_Some vk v (at_height : gmap V (gset K)) bh :
  find_equivocation vk v at_height = Some bh →
  bh ≠ v ∧ ∃ s, at_height !! bh = Some s ∧ vk ∈ s.
Proof.
  unfold find_equivocation.
  destruct (list_find _ _) as [[i [bh' s]]|] eqn:Hf; intros ?; simplify_eq.
  apply list_find_Some in Hf as (Hl & [Hne Hin] & _). simpl in *.
  split; [done|]. exists s. split; [|done].
  apply elem_of_map_to_list. by eapply list_elem_of_lookup_2.
Qed.
Lemma find_equivocation_None vk v (at_height : gmap V (gset K)) bh s :
  find_equivocation vk v at_height = None → at_height !! bh = Some s → vk ∈ s → bh = v.
Proof.
  unfold find_equivocation.
  destruct (list_find _ _) as [[i [bh' s']]|] eqn:Hf; intros ? Hs Hin; simplify_eq.
  apply list_find_None in Hf. rewrite Forall_forall in Hf.
  apply elem_of_map_to_list in Hs. specialize (Hf _ Hs). simpl in Hf.
  destruct (decide (bh = v)); [done|]. by destruct Hf.
Qed.

Lemma votes_for_default t h v : votes_for t h v = default ∅ (votes t !! h) !! v.
Proof. unfold votes_for. by destruct (votes t !! h); simpl; rewrite ?lookup_empty. Qed.

Lemma add_vote_cases t vk h v :
  pause_votes t = false →
  match add_vote t vk h v with
  | Ok (t', true) =>
      last_finalized_height t <= h ∧ has_power t vk = true ∧
      (∀ v', ¬ voted t vk h v') ∧
      power_table t' = power_table t ∧ chain t' = chain t ∧ pause_votes t' = false ∧
      (∀ h', is_Some (votes t' !! h') → h' = h ∨ is_Some (votes t !! h')) ∧
      (∀ k' h' v', voted t' k' h' v' ↔ voted t k' h' v' ∨ (k' = vk ∧ h' = h ∧ v' = v))
  | Ok (t', false) => t' = t ∧ (h < last_finalized_height t ∨ voted t vk h v)
  | Err (UnpoweredValidator k) => k = vk ∧ has_power t vk = false
  | Err (Equivocation k h' v1 v2) => k = vk ∧ h' = h ∧ v1 = v ∧ v2 ≠ v ∧ voted t vk h v2
  | _ => False
  end.
Proof.
  intros Hpause. unfold add_vote. rewrite Hpause.
  destruct (h <? _) eqn:Hh; zbool; [auto|].
  destruct (has_power t vk) eqn:Hhp; simpl; [|done].
  destruct (find_equivocation _ _ _) as [bh|] eqn:Hf.
  { apply find_equivocation_Some in Hf as (Hne & s & Hs & Hin).
    split_and!; try done. exists s. by rewrite votes_for_default. }
  case_decide as Hin.
  { split; [done|]. right. destruct (default ∅ (votes t !! h) !! v) as [s|] eqn:Hs; [|set_solver].
    exists s. by rewrite votes_for_default, Hs. }
  split_and!; try done.
  - intros v' (s & Hs & Hvk). rewrite votes_for_default in Hs.
    pose proof (find_equivocation_None _ _ _ _ _ Hf Hs Hvk) as ->.
    apply Hin. by rewrite Hs.
  - intros h' Hh'. simpl in Hh'. destruct (decide (h' = h)); [auto|].
    right. by rewrite lookup_insert_ne in Hh' by done.
  - intros k' h' v'. unfold voted, votes_for. simpl.
    destruct (decide (h' = h)) as [->|Hne].
    2:{ rewrite lookup_insert_ne by done. naive_solver. }
    rewrite lookup_insert_eq. simpl. change (votes t !! h ≫= (.!! v')) with (votes_for t h v').
    rewrite votes_for_default. destruct (decide (v' = v)) as [->|Hnv].
    + rewrite lookup_insert_eq. split.
      * intros (s' & [= <-] & Hk'). apply elem_of_union in Hk' as [->%elem_of_singleton|Hk']; [auto|].
        left. destruct (default ∅ _ !! v) as [s|]; [by eauto|]. by apply elem_of_empty in Hk'.
      * intros [(s & Hs & Hk')|(-> & _ & _)]; eexists; (split; [reflexivity|]); apply elem_of_union.
        -- right. by rewrite Hs.
        -- left. by apply elem_of_singleton.
    + rewrite lookup_insert_ne by done. naive_solver.
Qed.
End tally_invariant.

Section tally_preservation.
Context {K V : Type} `{Countable K} `{Countable V}.
Implicit Types (t : VoteTally K V) (h : Z) (vk : K) (v : V).

Lemma add_block_Ok t t' h bh :
  add_block t h bh = Ok t' →
  ∃ p, get_max (chain t) = Some p ∧ h = (p + 1)%u64 ∧
    t' = mkTally (power_table t) (<[h := bh]> (chain t)) (votes t) (pause_votes t).
Proof.
  unfold add_block. destruct (get_max (chain t)) as [p|]; [|done].
  destruct (h =? _) eqn:Hh; intros ?; simplify_eq. zbool. eauto.
Qed.

(** The chain's heights are words. *)
Definition heights_ok t : Prop := ∀ h, is_Some (chain t !! h) → is_u64 h.

Lemma get_min_extend (c : gmap Z (option V)) p bh a :
  get_max c = Some p → get_min c = Some a → get_min (<[p + 1 := bh]> c) = Some a.
Proof.
  intros [Hp Hmax]%get_max_Some [Ha Hmin]%get_min_Some. apply get_min_Some. split.
  - destruct (decide (a = p + 1)) as [->|]; [rewrite lookup_insert_eq; eauto|].
    by rewrite lookup_insert_ne.
  - intros k. destruct (decide (k = p + 1)) as [->|].
    + intros _. pose proof (Hmax a Ha). lia.
    + rewrite lookup_insert_ne by done. apply Hmin.
Qed.
Lemma get_max_extend (c : gmap Z (option V)) p bh :
  get_max c = Some p → get_max (<[p + 1 := bh]> c) = Some (p + 1).
Proof.
  intros [Hp Hmax]%get_max_Some. apply get_max_Some. rewrite lookup_insert_eq.
  split; [eauto|]. intros k. destruct (decide (k = p + 1)) as [->|]; [lia|].
  rewrite lookup_insert_ne by done. intros Hk. apply Hmax in Hk. lia.
Qed.
Lemma contiguous_extend (c : gmap Z (option V)) p bh :
  get_max c = Some p → contiguous c → contiguous (<[p + 1 := bh]> c).
Proof.
  intros [Hp Hmax]%get_max_Some Hc a b h Ha Hb Hh.
  destruct (decide (h = p + 1)) as [->|Hne]; [rewrite lookup_insert_eq; eauto|].
  rewrite lookup_insert_ne by done.
  assert (∀ k, is_Some (<[p + 1 := bh]> c !! k) → k = p + 1 ∨ (is_Some (c !! k) ∧ k <= p)) as Hk.
  { intros k Hk. destruct (decide (k = p + 1)); [auto|]. rewrite lookup_insert_ne in Hk by done. auto. }
  destruct (Hk a Ha) as [->|[Ha' ?]], (Hk b Hb) as [->|[Hb' ?]]; try lia.
  - apply (Hc a p); [done..|lia].
  - by apply (Hc a b).
Qed.

(** [set_finalized] leaves the finalized block as the least one. *)
Lemma get_min_set_finalized t h v : get_min (chain (set_finalized t h v)) = Some h.
Proof.
  apply get_min_Some. simpl. rewrite lookup_insert_eq. split; [eauto|].
  intros k. destruct (decide (k = h)) as [->|]; [lia|]. rewrite lookup_insert_ne by done.
  intros [b [_ ?]%lookup_split_right]. lia.
Qed.
Lemma contiguous_finalized t h v :
  contiguous (chain t) → last_finalized_height t <= h → contiguous (chain (set_finalized t h v)).
Proof.
  unfold last_finalized_height. simpl. intros Hc Hle a b k Ha Hb Hk.
  destruct (decide (k = h)) as [->|Hne]; [rewrite lookup_insert_eq; eauto|].
  rewrite lookup_insert_ne by done.
  assert (∀ x, is_Some (<[h := Some v]> (split_right h (chain t)) !! x) →
            x = h ∨ (is_Some (chain t !! x) ∧ h < x)) as Hin.
  { intros x [y Hx]. destruct (decide (x = h)); [auto|]. rewrite lookup_insert_ne in Hx by done.
    apply lookup_split_right in Hx. naive_solver. }
  assert (h < k) by (destruct (Hin a Ha) as [->|[_ ?]]; lia).
  destruct (Hin b Hb) as [->|[Hb' ?]]; [lia|].
  destruct (get_min (chain t)) as [m|] eqn:Hm.
  - apply get_min_Some in Hm as [Hm _]. simpl in Hle.
    destruct (Hc m b k Hm Hb' ltac:(lia)) as [y Hy]. exists y. by apply lookup_split_right.
  - apply get_min_None in Hm. rewrite Hm, lookup_empty in Hb'. by destruct Hb'.
Qed.

Lemma voted_set_finalized t h v vk h' v' :
  voted (set_finalized t h v) vk h' v' ↔ voted t vk h' v' ∧ h < h'.
Proof.
  unfold voted, votes_for, set_finalized. simpl.
  destruct (split_right h (votes t) !! h') as [m|] eqn:Hm.
  - apply lookup_split_right in Hm as [-> ?]. naive_solver.
  - split; [by intros (s & [=] & _)|]. intros [(s & Hs & Hin) Hlt].
    destruct (votes t !! h') as [m|] eqn:Hv; [|done].
    rewrite (proj2 (lookup_split_right h (votes t) h' m)) in Hm by done. done.
Qed.

Lemma tally_step_inv t t' :
  tally_inv t → heights_ok t → tally_step t t' → tally_inv t'.
Proof.
  intros [Hp Hc Hne Hr] Hh Hstep. destruct Hstep as
    [t t' h bh Hlt Hadd|t t' vk h v added Hadd|t|t|t h v Hu Hle|t l Hok|t l Hok]; simpl.
  - apply add_block_Ok in Hadd as (p & Hmax & -> & ->).
    unfold latest_height in Hlt. rewrite Hmax in Hlt. simpl in Hlt.
    assert (is_u64 p) as Hu by (apply Hh; by apply get_max_Some in Hmax as [? _]).
    rewrite add64_small by (done || unfold is_u64, U64_MAX in *; lia).
    split; simpl; [done|by apply contiguous_extend|done|].
    intros h Hvt. pose proof (Hr h Hvt) as Hle. unfold last_finalized_height in *. simpl.
    destruct (get_min (chain t)) as [a|] eqn:Hmin; simpl in *.
    + by rewrite (get_min_extend _ _ _ a).
    + apply get_min_None in Hmin. rewrite Hmin in Hmax. done.
  - destruct (pause_votes t) eqn:Hpause; [by unfold add_vote in Hadd; rewrite Hpause in Hadd|].
    pose proof (add_vote_cases t vk h v Hpause) as Hcases. rewrite Hadd in Hcases.
    destruct added; [|by destruct Hcases as [-> _]].
    destruct Hcases as (Hle & _ & Hfresh & Hpt & Hch & _ & Hkeys & Hvoted).
    split; [by rewrite Hpt|by rewrite Hch| |].
    + intros k h' v1 v2 [H1|(-> & -> & ->)]%Hvoted [H2|(? & ? & ?)]%Hvoted; subst; eauto.
      * by destruct (Hfresh v1).
      * by destruct (Hfresh v2).
    + intros h' [->|Hh']%Hkeys; unfold last_finalized_height in *; rewrite Hch; [done|by apply Hr].
  - by split.
  - by split.
  - split; simpl; [done|by apply contiguous_finalized| |].
    + intros k h' v1 v2 [H1 _]%voted_set_finalized [H2 _]%voted_set_finalized. eauto.
    + intros h' [m [_ Hlt]%lookup_split_right]. unfold last_finalized_height.
      rewrite get_min_set_finalized. simpl. lia.
  - by split.
  - destruct l; split; done.
Qed.

Lemma tally_step_heights t t' :
  heights_ok t → tally_step t t' → heights_ok t'.
Proof.
  intros Hh Hstep. destruct Hstep as
    [t t' h bh Hlt Hadd|t t' vk h v added Hadd|t|t|t h v Hu Hle|t l Hok|t l Hok]; try done.
  - apply add_block_Ok in Hadd as (p & Hmax & -> & ->). intros h. simpl.
    destruct (decide (h = (p + 1)%u64)) as [->|]; [intros _; apply wrap64_range|].
    rewrite lookup_insert_ne by done. apply Hh.
  - destruct (pause_votes t) eqn:Hpause; [by unfold add_vote in Hadd; rewrite Hpause in Hadd|].
    pose proof (add_vote_cases t vk h v Hpause) as Hcases. rewrite Hadd in Hcases.
    destruct added; [|by destruct Hcases as [-> _]].
    destruct Hcases as (_ & _ & _ & _ & Hch & _). unfold heights_ok. by rewrite Hch.
  - intros k. simpl. destruct (decide (k = h)) as [->|]; [done|].
    rewrite lookup_insert_ne by done. intros [b [Hb _]%lookup_split_right]. apply Hh. eauto.
  - by destruct l.
Qed.
End tally_preservation.

Section tally_theorems.
Context {K V : Type} `{Countable K} `{Countable V}.
Implicit Types (t : VoteTally K V) (h : Z) (vk : K) (v : V).

Lemma new_inv (pt : list (K * Z)) h v :
  powers_ok (from_iter pt) → is_u64 h → tally_inv (new pt (h, v)) ∧ heights_ok (new pt (h, v)).
Proof.
  intros Hp Hu. unfold new. split; [split; simpl; try done|].
  - intros a b k Ha%lookup_singleton_is_Some Hb%lookup_singleton_is_Some Hk.
    assert (k = h) as -> by lia. rewrite lookup_singleton_eq. eauto.
  - intros vk h' v1 v2 (s & Hs & _). unfold votes_for in Hs. simpl in Hs.
    by rewrite lookup_empty in Hs.
  - intros h' Hh'. simpl in Hh'. rewrite lookup_empty in Hh'. by destruct Hh'.
  - intros k Hk. simpl in Hk. by apply lookup_singleton_is_Some in Hk as <-.
Qed.

(** Reachable tallies are well formed: from any initial tally, whatever
    blocks, votes, finalizations and power-table changes arrive, the chain has
    no gaps, no validator has votes for two hashes at one height, and no vote
    below the last finalized height is kept. *)
Theorem tally_reachable_inv (pt : list (K * Z)) h0 v0 t :
  powers_ok (from_iter pt) → is_u64 h0 → rtc tally_step (new pt (h0, v0)) t →
  tally_inv t.
Proof.
  intros Hp Hu Hr. destruct (new_inv pt h0 v0 Hp Hu) as [Hinv Hh].
  induction Hr as [t|t t' t'' Hstep _ IH]; [done|].
  apply IH; eauto using tally_step_inv, tally_step_heights.
Qed.

(** C4. [find_quorum] is the search its comment describes: if the powers are not negative
    and twice their sum fits a [u64], it returns a block with a quorum exactly when one
    exists, and then the highest one. *)
Theorem find_quorum_highest t :
  powers_ok (power_table t) →
  match (find_quorum t).2 with
  | Some (h, v) => is_quorum t h v ∧ ∀ h' v', is_quorum t h' v' → h' <= h
  | None => ∀ h v, ¬ is_quorum t h v
  end.
Proof. apply find_quorum_best. Qed.

(** C26. Quorums overlap: if two nodes with the same table of powers, none negative and
    with a sum that CometBFT allows, find quorums,
    for whatever blocks, the validators counted by both hold more than a third
    of the total power. *)
Theorem find_quorum_overlap t1 t2 h1 v1 h2 v2 :
  power_table t1 = power_table t2 → powers_ok (power_table t1) →
  (find_quorum t1).2 = Some (h1, v1) → (find_quorum t2).2 = Some (h2, v2) →
  sum_weights (power_table t1) <
    3 * weight_of (power_table t1) (voters_from t1 h1 ∩ voters_from t2 h2).
Proof.
  intros Heq Hp H1 H2.
  pose proof (find_quorum_best t1 Hp) as Hq1. rewrite H1 in Hq1.
  pose proof (find_quorum_best t2 ltac:(by rewrite <- Heq)) as Hq2. rewrite H2 in Hq2.
  destruct Hq1 as [(_ & _ & _ & Hw1) _], Hq2 as [(_ & _ & _ & Hw2) _].
  rewrite quorum_threshold_eq in Hw1, Hw2 by (done || by rewrite <- Heq).
  rewrite <- Heq in Hw2.
  pose proof (weight_of_le_sum (power_table t1) (voters_from t1 h1 ∪ voters_from t2 h2) Hp) as Hle.
  unfold weight_of in *.
  pose proof (set_sum_union_inter (weight (power_table t1)) (voters_from t1 h1) (voters_from t2 h2)).
  pose proof (Z.mul_succ_div_gt (sum_weights (power_table t1) * 2) 3 ltac:(lia)). lia.
Qed.

(** [add_vote] on every branch: a vote is added exactly when it is a
    validator's first at the height, and then nothing else about the votes
    changes; it is ignored when already there or below the last finalized
    height; otherwise the error names the cause. *)
Theorem add_vote_spec t vk h v :
  pause_votes t = false →
  match add_vote t vk h v with
  | Ok (t', true) =>
      last_finalized_height t <= h ∧ has_power t vk = true ∧ (∀ v', ¬ voted t vk h v') ∧
      (∀ k' h' v', voted t' k' h' v' ↔ voted t k' h' v' ∨ (k' = vk ∧ h' = h ∧ v' = v))
  | Ok (t', false) => t' = t ∧ (h < last_finalized_height t ∨ voted t vk h v)
  | Err (UnpoweredValidator k) => k = vk ∧ has_power t vk = false
  | Err (Equivocation k h' v1 v2) => k = vk ∧ h' = h ∧ v1 = v ∧ v2 ≠ v ∧ voted t vk h v2
  | _ => False
  end.
Proof.
  intros Hpause. pose proof (add_vote_cases t vk h v Hpause) as Hc.
  destruct (add_vote t vk h v) as [[t' []]|[]| |]; naive_solver.
Qed.

(** Whatever a round of the publishing loop gossips is either the vote it
    has just added to the tally for the latest block of the chain, by a
    validator with power, or a repetition of the previous one. *)
Theorem publish_round_sound t t' vk prev prev' h v :
  tally_inv t →
  publish_round t vk prev = (t', prev', Some (h, v)) →
  0 < prev_height_of prev ∧ prev' = Some (h, v, true) ∧
  ((prev = Some (h, v, true) ∧ t' = t) ∨
   (h = latest_height t ∧ h ≠ prev_height_of prev ∧ block_hash t h = Some v ∧
    has_power t vk = true ∧ voted t' vk h v)).
Proof.
  intros Hinv. unfold publish_round, next_vote.
  destruct (latest_height t =? prev_height_of prev) eqn:Hl.
  { destruct prev as [[[h' v'] hp]|]; [|done]. intros ?. inv_outcome. zbool. subst. auto. }
  zbool. destruct (block_hash t (latest_height t)) as [v'|] eqn:Hb.
  2:{ destruct prev as [[[h' v'] hp]|]; [|done]. intros ?. inv_outcome. zbool. subst. auto. }
  destruct (has_power t vk) eqn:Hhp; [|intros ?; simplify_eq/=].
  destruct (pause_votes t) eqn:Hpause.
  { unfold add_vote. rewrite Hpause. simpl.
    destruct prev as [[[h' w] hp]|]; [|done]. intros ?. inv_outcome. zbool. subst. auto. }
  pose proof (add_vote_cases t vk (latest_height t) v' Hpause) as Hc.
  destruct (add_vote t vk (latest_height t) v') as [[t1 added]|e| |] eqn:Hadd; simpl;
    intros ?; simplify_eq; [|destruct Hc..].
  destruct (0 <? prev_height_of prev) eqn:Hpos; simplify_eq. zbool.
  split_and!; [done..|]. right. split_and!; try done.
  destruct added; [apply Hc; auto|]. destruct Hc as [-> [Hlt|?]]; [|done].
  unfold last_finalized_height, latest_height in *.
  destruct (get_min (chain t)) as [a|] eqn:Ha.
  - destruct (get_max (chain t)) as [b|] eqn:Hbm; simpl in *.
    + pose proof (get_min_max_le _ _ _ Ha Hbm). lia.
    + apply get_max_None in Hbm. by rewrite Hbm in Ha.
  - apply get_min_None in Ha. simpl in *. unfold block_hash in Hb. by rewrite Ha, lookup_empty in Hb.
Qed.
End tally_theorems.

(** ** A concrete tally: three validators of equal power, one block above the
    finalized one, and the votes of all three for it. *)
Definition sample_new : VoteTally Z Z := new [(1, 1); (2, 1); (3, 1)] (10, 100).
Definition ok_tally (r : outcome (VotingError Z Z) (VoteTally Z Z)) : VoteTally Z Z :=
  match r with Ok t => t | _ => empty end.
Definition ok_vote (r : outcome (VotingError Z Z) (VoteTally Z Z * bool)) : VoteTally Z Z :=
  match r with Ok (t, _) => t | _ => empty end.
Definition sample_block : VoteTally Z Z := ok_tally (add_block sample_new 11 (Some 111)).
Definition sample_vote (t : VoteTally Z Z) (vk : Z) : VoteTally Z Z := ok_vote (add_vote t vk 11 111).
Definition sample_votes : VoteTally Z Z := foldl sample_vote sample_block [1; 2; 3].

Lemma sample_powers : powers_ok (power_table sample_votes).
Proof.
  split; [|vm_compute; discriminate].
  apply (bool_decide_eq_true_1 (map_Forall (λ _ w, 0 <= w) (power_table sample_votes))).
  vm_compute. reflexivity.
Qed.
Lemma sample_block_step : tally_step sample_new sample_block.
Proof. apply (step_add_block _ _ 11 (Some 111)); vm_compute; reflexivity. Qed.
Lemma sample_vote_step t vk :
  (∃ b, add_vote t vk 11 111 = Ok (sample_vote t vk, b)) → tally_step t (sample_vote t vk).
Proof. intros [b Hb]. eapply step_add_vote, Hb. Qed.

Lemma tally_reachable_inv_witness : tally_inv sample_votes.
Proof.
  apply (tally_reachable_inv [(1, 1); (2, 1); (3, 1)] 10 100);
    [exact sample_powers|vm_compute; split; discriminate|].
  eapply rtc_l; [exact sample_block_step|].
  apply rtc_l with (sample_vote sample_block 1);
    [apply sample_vote_step; exists true; vm_compute; reflexivity|].
  apply rtc_l with (sample_vote (sample_vote sample_block 1) 2);
    [apply sample_vote_step; exists true; vm_compute; reflexivity|].
  apply rtc_once, sample_vote_step. exists true. vm_compute. reflexivity.
Defined.

Lemma find_quorum_highest_witness :
  is_quorum sample_votes 11 111 ∧ ∀ h' v', is_quorum sample_votes h' v' → h' <= 11.
Proof.
  pose proof (find_quorum_highest sample_votes sample_powers) as H.
  assert ((find_quorum sample_votes).2 = Some (11, 111)) as E by (vm_compute; reflexivity).
  rewrite E in H. exact H.
Defined.

Lemma find_quorum_overlap_witness :
  sum_weights (power_table sample_votes) <
    3 * weight_of (power_table sample_votes) (voters_from sample_votes 11 ∩ voters_from sample_votes 11).
Proof.
  apply (find_quorum_overlap sample_votes sample_votes 11 111 11 111);
    [reflexivity|exact sample_powers|vm_compute; reflexivity..].
Defined.

Lemma add_vote_spec_witness :
  voted (sample_vote sample_block 2) 2 11 111 ∧
  (∀ v, ¬ voted sample_block 2 11 v) ∧
  add_vote (sample_vote sample_block 2) 2 11 112 = Err (Equivocation 2 11 112 111).
Proof.
  pose proof (add_vote_spec sample_block 2 11 111 eq_refl) as H.
  assert (add_vote sample_block 2 11 111 = Ok (sample_vote sample_block 2, true)) as E
    by (vm_compute; reflexivity).
  rewrite E in H. destruct H as (_ & _ & Hfresh & Hvotes). split; [|split; [exact Hfresh|]].
  - apply Hvotes. right. auto.
  - vm_compute. reflexivity.
Defined.

Lemma publish_round_sound_witness :
  (publish_round sample_block 1 (Some (10, 100, true))).2 = Some (11, 111) ∧
  voted (sample_vote sample_block 1) 1 11 111.
Proof.
  split; [vm_compute; reflexivity|].
  destruct (publish_round_sound sample_block (sample_vote sample_block 1) 1 (Some (10, 100, true))
              (Some (11, 111, true)) 11 111) as (_ & _ & [[H _]|(_ & _ & _ & _ & Hv)]).
  - destruct (new_inv [(1, 1); (2, 1); (3, 1)] 10 100) as [Hi Hh];
      [exact sample_powers|vm_compute; split; discriminate|].
    exact (tally_step_inv _ _ Hi Hh sample_block_step).
  - vm_compute. reflexivity.
  - discriminate H.
  - exact Hv.
Defined.
