(* ===== verification/IpcApi.v ===== *)
(** * Subnet identifiers, IPC addresses and cross-net messages ([ipc/api/src])

    [SubnetID] is the route from the root network to a subnet: the chain id of
    the root and the subnet actors on the way.  [IPCAddress] is a subnet together
    with an address in it.  The file models [subnet_id.rs], [address.rs],
    [cross.rs] and [staking.rs].

    Addresses are [fvm_shared::address::Address], a crate outside the sources:
    their operations are the class [AddressOps], and what the string formats rely
    on is the class [AddressLaws].  [IdAddress] is the instance for the ID
    addresses ([f0...]), on which the witnesses evaluate. *)

From Stdlib Require Import Ascii String DecimalString DecimalN.
From stdpp Require Import base tactics numbers list.
From S2P Require Import Prelude.

Open Scope Z_scope.

(** ** Strings of the Rust standard library *)

(** [str::split] on one character: there is always at least one piece. *)
Fixpoint split_on (c : ascii) (s : string) : list string :=
  match s with
  | EmptyString => [EmptyString]
  | String a s' =>
      if Ascii.eqb a c then EmptyString :: split_on c s'
      else match split_on c s' with
           | [] => [String a EmptyString]
           | p :: ps => String a p :: ps
           end
  end.

Fixpoint no_char (c : ascii) (s : string) : bool :=
  match s with
  | EmptyString => true
  | String a s' => negb (Ascii.eqb a c) && no_char c s'
  end.

(** [u64]'s [Display] and [FromStr]: the latter takes an optional plus sign, and
    fails on the empty string, on anything but digits, and above the maximum. *)
Definition u64_to_string (x : Z) : string := NilZero.string_of_uint (N.to_uint (Z.to_N x)).
Definition parse_digits (s : string) : option Z :=
  d ← NilZero.uint_of_string s;
  let x := Z.of_N (N.of_uint d) in
  if x <=? U64_MAX then Some x else None.
Definition parse_u64 (s : string) : option Z :=
  match s with
  | String "+" s' => parse_digits s'
  | _ => parse_digits s
  end.

(** ** Addresses *)

Class AddressOps (A : Type) := {
  addr_eq_dec :: EqDecision A;
  addr_new_id : Z → A;
  addr_to_string : A → string;
  addr_from_str : string → string + A;
}.
Class AddressLaws (A : Type) `{AddressOps A} : Prop := {
  addr_roundtrip a : addr_from_str (addr_to_string a) = inr a;
  addr_no_slash a : no_char "/" (addr_to_string a) = true;
  addr_no_colon a : no_char ":" (addr_to_string a) = true;
}.

(** ** Subnet identifiers *)

Inductive ApiError :=
| InvalidID (id reason : string)
| InvalidIPCAddr
| FVMAddressError (e : string).

Record SubnetID (A : Type) := mkSubnetID { root : Z; children : list A }.
Arguments mkSubnetID {A} _ _.
Arguments root {A} _.
Arguments children {A} _.

Record IPCAddress (A : Type) := mkIPCAddress { subnet_id : SubnetID A; raw_address : A }.
Arguments mkIPCAddress {A} _ _.
Arguments subnet_id {A} _.
Arguments raw_address {A} _.

Definition MAX_CHAIN_ID : Z := 4503599627370476.

Section subnet.
Context {A : Type} `{AddressOps A}.
Implicit Types (s from to other : SubnetID A) (a : A).

Definition UNDEF : SubnetID A := mkSubnetID 0 [].
Definition new_from_parent s (subnet_act : A) : SubnetID A :=
  mkSubnetID (root s) (children s ++ [subnet_act]).
Definition new_root (root_id : Z) : SubnetID A := mkSubnetID root_id [].
Definition is_root s : bool := match children s with [] => true | _ => false end.

Definition subnet_actor s : A := default (addr_new_id 0) (last (children s)).

Definition parent s : option (SubnetID A) :=
  match children s with
  | [] => None
  | _ => Some (mkSubnetID (root s) (take (length (children s) - 1) (children s)))
  end.

(** [iter().zip(..).take_while(|(a, b)| a == b).count()] *)
Fixpoint common_prefix (l k : list A) : nat :=
  match l, k with
  | x :: l', y :: k' => if decide (x = y) then S (common_prefix l' k') else 0%nat
  | _, _ => 0%nat
  end.

Definition common_parent s other : option (nat * SubnetID A) :=
  if negb (root s =? root other) then None else
  let common := common_prefix (children s) (children other) in
  Some (common, mkSubnetID (root s) (take common (children s))).

(** [v[..n].to_vec()] *)
Definition slice_to {E B} (v : list B) (n : Z) : outcome E (list B) :=
  if n <=? Z.of_nat (length v) then Ok (take (Z.to_nat n) v) else Panic.

Definition down {E} s from : outcome E (option (SubnetID A)) :=
  if (length (children s) <=? length (children from))%nat then Ok None else
  match common_parent s from with
  | Some (i, _) =>
      c ← slice_to (children s) (Z.of_nat i + 1)%u64;
      Ok (Some (mkSubnetID (root s) c))
  | None => Ok None
  end.

Definition up {E} s from : outcome E (option (SubnetID A)) :=
  if (length (children s) <? length (children from))%nat then Ok None else
  match common_parent s from with
  | Some (i, _) =>
      c ← slice_to (children s) (Z.of_nat i - 1)%u64;
      Ok (Some (mkSubnetID (root s) c))
  | None => Ok None
  end.

Definition children_str (l : list A) : string :=
  foldl (λ output a, (output ++ "/" ++ addr_to_string a)%string) ""%string l.
Definition to_string s : string :=
  ("/r" ++ u64_to_string (root s) ++ children_str (children s))%string.

(** The chain id hashes the printed form; [fnv] is the hasher of the [fnv] crate. *)
Definition chain_id (fnv : string → Z) s : Z :=
  if is_root s then root s else fnv (to_string s) mod MAX_CHAIN_ID.

Fixpoint parse_children (id : string) (segments : list string) : outcome ApiError (list A) :=
  match segments with
  | [] => Ok []
  | addr :: rest =>
      match addr_from_str addr with
      | inl e => Err (InvalidID id ("invalid child address " ++ addr ++ ": " ++ e))
      | inr a => cs ← parse_children id rest; Ok (a :: cs)
      end
  end.

Definition from_str (id : string) : outcome ApiError (SubnetID A) :=
  if negb (String.prefix "/r" id) then Err (InvalidID id "expected to start with '/r'") else
  match drop 1 (split_on "/" id) with
  | String _ digits :: rest =>
      r ← ok_or (InvalidID id "invalid root ID") (parse_u64 digits);
      cs ← parse_children id rest;
      Ok (mkSubnetID r cs)
  | _ => Panic
  end.

(** ** IPC addresses *)

Definition ipc_to_string (x : IPCAddress A) : string :=
  (to_string (subnet_id x) ++ ":" ++ addr_to_string (raw_address x))%string.

Definition ipc_from_str (s : string) : outcome ApiError (IPCAddress A) :=
  match split_on ":" s with
  | [r0; r1] =>
      match addr_from_str r1 with
      | inl e => Err (FVMAddressError e)
      | inr a => sid ← from_str r0; Ok (mkIPCAddress sid a)
      end
  | _ => Err InvalidIPCAddr
  end.
End subnet.

(** ** Cross-net messages *)

Inductive IpcMsgKind := Transfer | Call | Receipt.
Inductive IPCMsgType := BottomUp | TopDown.

Definition msg_kind_try_from (value : Z) : option IpcMsgKind :=
  match value with
  | 0 => Some Transfer
  | 1 => Some Call
  | 2 => Some Receipt
  | _ => None
  end.

Record IpcEnvelope (A : Type) := mkEnvelope {
  kind : IpcMsgKind;
  to : IPCAddress A;
  value : Z;
  from : IPCAddress A;
  message : bytes;
  nonce : Z;
}.
Arguments mkEnvelope {A} _ _ _ _ _ _.
Arguments kind {A} _.
Arguments to {A} _.
Arguments value {A} _.
Arguments from {A} _.
Arguments message {A} _.
Arguments nonce {A} _.

Section cross.
Context {A : Type} `{AddressOps A}.
Implicit Types (m : IpcEnvelope A) (curr : SubnetID A).

Definition is_bottomup (from to : SubnetID A) : bool :=
  match common_parent from to with
  | Some (index, _) => (index <? length (children from))%nat
  | None => false
  end.

#[global] Instance subnet_id_eq_dec : EqDecision (SubnetID A).
Proof. solve_decision. Defined.
#[global] Instance ipc_msg_type_eq_dec : EqDecision IPCMsgType.
Proof. solve_decision. Defined.

Definition ipc_type m : IPCMsgType :=
  if is_bottomup (subnet_id (from m)) (subnet_id (to m)) then BottomUp else TopDown.

Definition apply_type m curr : IPCMsgType :=
  let sto := subnet_id (to m) in
  let sfrom := subnet_id (from m) in
  if bool_decide (common_parent curr sto = common_parent sfrom sto) &&
     bool_decide (ipc_type m = BottomUp)
  then BottomUp else TopDown.

Definition new_release_msg (sub_id : SubnetID A) (from to : A) (value : Z) : option (IpcEnvelope A) :=
  p ← parent sub_id;
  Some (mkEnvelope Transfer (mkIPCAddress p to) value (mkIPCAddress sub_id from) [] 0).

Definition new_fund_msg (sub_id : SubnetID A) (from to : A) (value : Z) : option (IpcEnvelope A) :=
  p ← parent sub_id;
  Some (mkEnvelope Transfer (mkIPCAddress sub_id to) value (mkIPCAddress p from) [] 0).
End cross.

(** ** Staking changes *)

Inductive StakingOperation := Deposit | Withdraw | SetMetadata | SetFederatedPower.

Record StakingChange (A : Type) := mkChange {
  op : StakingOperation;
  payload : bytes;
  validator : A;
}.
Arguments mkChange {A} _ _ _.
Arguments op {A} _.
Arguments payload {A} _.
Arguments validator {A} _.

Record StakingChangeRequest (A : Type) := mkChangeRequest {
  configuration_number : Z;
  change : StakingChange A;
}.
Arguments mkChangeRequest {A} _ _.
Arguments configuration_number {A} _.
Arguments change {A} _.

(** ** Strings: lemmas *)

Lemma split_on_nonempty c s : split_on c s ≠ [].
Proof. destruct s as [|a s]; simpl; [done|]. destruct (Ascii.eqb a c), (split_on c s); done. Qed.
Lemma split_on_none c s : no_char c s = true → split_on c s = [s].
Proof.
  induction s as [|a s IH]; simpl; [done|]. intros [Ha Hs]%andb_true_iff.
  apply negb_true_iff in Ha. by rewrite Ha, IH.
Qed.
Lemma split_on_app c p s :
  no_char c p = true → split_on c (p ++ String c s) = p :: split_on c s.
Proof.
  induction p as [|a p IH]; simpl.
  - by rewrite Ascii.eqb_refl.
  - intros [Ha Hp]%andb_true_iff. apply negb_true_iff in Ha. by rewrite Ha, IH.
Qed.
Lemma no_char_app c s s' : no_char c (s ++ s') = no_char c s && no_char c s'.
Proof. induction s as [|a s IH]; simpl; [done|]. by rewrite IH, andb_assoc. Qed.
Lemma string_app_assoc (s t u : string) : ((s ++ t) ++ u = s ++ (t ++ u))%string.
Proof. induction s as [|a s IH]; [done|]. exact (f_equal (String a) IH). Qed.
Lemma string_app_nil_r (s : string) : (s ++ "" = s)%string.
Proof. induction s as [|a s IH]; [done|]. exact (f_equal (String a) IH). Qed.

(** A printed number is made of digits, and parses back. *)
Definition digit_free (c : ascii) : bool :=
  forallb (λ d, negb (Ascii.eqb c d)) ["0"; "1"; "2"; "3"; "4"; "5"; "6"; "7"; "8"; "9"]%char.
Lemma no_char_uint c d : digit_free c = true → no_char c (NilEmpty.string_of_uint d) = true.
Proof.
  intros Hc. assert (∀ a, In a ["0"; "1"; "2"; "3"; "4"; "5"; "6"; "7"; "8"; "9"]%char →
                     negb (Ascii.eqb a c) = true) as Ha.
  { intros a Ha. rewrite Ascii.eqb_sym. by apply (proj1 (forallb_forall _ _) Hc). }
  induction d as [|d IH|d IH|d IH|d IH|d IH|d IH|d IH|d IH|d IH|d IH];
    cbn [no_char NilEmpty.string_of_uint]; [done|..];
    apply andb_true_intro; split; try exact IH; apply Ha; simpl; tauto.
Qed.
Lemma no_char_u64 c x : digit_free c = true → no_char c (u64_to_string x) = true.
Proof.
  intros Hc. unfold u64_to_string, NilZero.string_of_uint.
  destruct (N.to_uint (Z.to_N x)); try by apply no_char_uint.
  by apply (no_char_uint c Decimal.zero).
Qed.
Lemma parse_digits_to_string x : is_u64 x → parse_digits (u64_to_string x) = Some x.
Proof.
  intros [Hlo Hhi]. unfold parse_digits, u64_to_string.
  rewrite NilZero.usu by (unfold N.to_uint; destruct (Z.to_N x); [done|]; apply DecimalPos.Unsigned.to_uint_nonnil).
  simpl. rewrite DecimalN.Unsigned.of_to, Z2N.id by done.
  by rewrite (proj2 (Z.leb_le _ _) Hhi).
Qed.
Lemma parse_u64_to_string x : is_u64 x → parse_u64 (u64_to_string x) = Some x.
Proof.
  intros Hx. rewrite <- (parse_digits_to_string x Hx).
  pose proof (no_char_u64 "+" x eq_refl) as Hp. unfold parse_u64.
  destruct (u64_to_string x) as [|[[] [] [] [] [] [] [] []] s]; done.
Qed.

Section subnet_facts.
Context {A : Type} `{AddressOps A}.
Implicit Types (s from to other : SubnetID A) (l k : list A).

(** ** Paths *)

Lemma common_prefix_spec l k :
  take (common_prefix l k) l = take (common_prefix l k) k ∧
  (common_prefix l k <= length l)%nat ∧ (common_prefix l k <= length k)%nat ∧
  ∀ x y, l !! common_prefix l k = Some x → k !! common_prefix l k = Some y → x ≠ y.
Proof.
  revert k. induction l as [|x l IH]; intros [|y k]; simpl; try (split_and!; [done|lia..|done]).
  case_decide as Hxy; simpl.
  - destruct (IH k) as (Heq & Hl & Hk & Hne). subst y. rewrite Heq. split_and!; [done|lia..|done].
  - split_and!; [done|lia..|]. intros ???; congruence.
Qed.
Lemma common_prefix_prefix l k : common_prefix l k = length l ↔ l `prefix_of` k.
Proof.
  destruct (common_prefix_spec l k) as (Heq & Hl & Hk & Hne). split.
  - intros Hlen. rewrite Hlen in Heq. rewrite firstn_all in Heq.
    exists (drop (length l) k). rewrite Heq at 1. by rewrite take_drop.
  - intros [k' ->]. destruct (decide (common_prefix l (l ++ k') = length l)) as [?|Hlt]; [done|].
    assert (is_Some (l !! common_prefix l (l ++ k'))) as [x Hx] by (apply lookup_lt_is_Some; lia).
    destruct (Hne x x Hx); [|done]. by apply lookup_app_l_Some.
Qed.

Lemma is_bottomup_spec from to :
  is_bottomup from to = true ↔
  root from = root to ∧ ¬ children from `prefix_of` children to.
Proof.
  unfold is_bottomup, common_parent. rewrite <- common_prefix_prefix.
  destruct (root from =? root to) eqn:Hr; zbool; simpl.
  - rewrite Nat.ltb_lt. pose proof (common_prefix_spec (children from) (children to)). naive_solver lia.
  - naive_solver.
Qed.

(** ** Printing and parsing *)

Definition slashed (l : list A) : string :=
  foldr (λ a out, ("/" ++ addr_to_string a ++ out)%string) ""%string l.
Lemma children_str_slashed l : children_str l = slashed l.
Proof.
  unfold children_str.
  assert (∀ acc, foldl (λ output a, (output ++ "/" ++ addr_to_string a)%string) acc l =
                 (acc ++ slashed l)%string) as Hfold; [|by rewrite Hfold].
  induction l as [|a l IH]; intros acc; simpl.
  - by rewrite string_app_nil_r.
  - by rewrite IH, !string_app_assoc.
Qed.

Context {HL : AddressLaws A}.

Lemma split_slashed p l :
  no_char "/" p = true → split_on "/" (p ++ slashed l) = p :: map addr_to_string l.
Proof.
  revert p. induction l as [|a l IH]; intros p Hp; simpl.
  - by rewrite string_app_nil_r, split_on_none.
  - change (split_on "/" (p ++ String "/" (addr_to_string a ++ slashed l)) =
            p :: addr_to_string a :: map addr_to_string l).
    rewrite (split_on_app "/" p) by done. f_equal. apply IH, addr_no_slash.
Qed.
Lemma parse_children_printed id l : parse_children id (map addr_to_string l) = Ok l.
Proof. induction l as [|a l IH]; simpl; [done|]. by rewrite addr_roundtrip, IH. Qed.

Lemma to_string_split s :
  split_on "/" (to_string s) =
    ""%string :: ("r" ++ u64_to_string (root s))%string :: map addr_to_string (children s).
Proof.
  unfold to_string. rewrite children_str_slashed, <- string_app_assoc.
  pose proof (split_slashed ("r" ++ u64_to_string (root s)) (children s)) as Hs.
  rewrite <- Hs; [done|]. cbn [no_char String.append]. by apply no_char_u64.
Qed.
Lemma from_str_to_string s : is_u64 (root s) → from_str (to_string s) = Ok s.
Proof.
  intros Hr. unfold from_str. rewrite to_string_split.
  assert (String.prefix "/r" (to_string s) = true) as ->.
  { change (String.prefix "" (u64_to_string (root s) ++ children_str (children s)) = true).
    by destruct (_ ++ _)%string. }
  cbn [negb drop]. change ("r" ++ u64_to_string (root s))%string with (String "r" (u64_to_string (root s))).
  cbv beta iota. rewrite parse_u64_to_string by done. simpl.
  rewrite parse_children_printed. by destruct s.
Qed.

Lemma no_colon_slashed l : no_char ":" (slashed l) = true.
Proof.
  induction l as [|a l IH]; [done|]. cbn [slashed foldr]. fold (slashed l).
  by rewrite !no_char_app, IH, addr_no_colon.
Qed.
Lemma no_colon_to_string s : no_char ":" (to_string s) = true.
Proof.
  unfold to_string. rewrite children_str_slashed, !no_char_app, no_colon_slashed.
  by rewrite no_char_u64.
Qed.
End subnet_facts.

Section subnet_theorems.
Context {A : Type} `{AddressOps A}.
Implicit Types (s from to : SubnetID A) (x : IPCAddress A) (m : IpcEnvelope A).

(** Printing an IPC address (subnet, colon, address) and parsing it gives
    the address back, for every subnet path. *)
Theorem ipc_address_roundtrip x `{!AddressLaws A} :
  is_u64 (root (subnet_id x)) → ipc_from_str (ipc_to_string x) = Ok x.
Proof.
  intros Hr. unfold ipc_from_str, ipc_to_string.
  change (":" ++ addr_to_string (raw_address x))%string with (String ":" (addr_to_string (raw_address x))).
  rewrite split_on_app, split_on_none by eauto using no_colon_to_string, addr_no_colon.
  rewrite addr_roundtrip, from_str_to_string by done. by destruct x.
Qed.

(** Routing moves one hop along the path: from a subnet on the way to [s],
    [down] gives its child towards [s] and [up] its parent. *)
Theorem routing_one_hop {E} s from :
  root from = root s → children from `prefix_of` children s →
  Z.of_nat (length (children s)) < U64_MAX →
  (children from ≠ children s →
   ∃ s', down (E:=E) s from = Ok (Some s') ∧ parent s' = Some from ∧
         children s' `prefix_of` children s) ∧
  (children from ≠ [] → up (E:=E) s from = Ok (parent from)).
Proof.
  destruct s as [r l], from as [r' k]; simpl. intros -> [k' ->] Hlen.
  assert (common_prefix (k ++ k') k = length k) as Hc.
  { clear. induction k as [|a k IH]; simpl; [by destruct k'|]. by rewrite decide_True, IH. }
  rewrite length_app in Hlen. unfold U64_MAX in Hlen.
  unfold down, up, common_parent, slice_to, parent. simpl.
  rewrite Z.eqb_refl, Hc, length_app. simpl. split.
  - destruct k' as [|a k']; [by rewrite app_nil_r|]. intros _.
    rewrite (proj2 (Nat.leb_gt _ _)) by (simpl in *; lia).
    rewrite add64_small by (unfold is_u64, U64_MAX; simpl in *; lia).
    rewrite (proj2 (Z.leb_le _ _)) by (simpl in *; lia). simpl.
    replace (Z.to_nat (Z.of_nat (length k) + 1)) with (length (k ++ [a])) by (rewrite length_app; simpl; lia).
    replace (k ++ a :: k') with ((k ++ [a]) ++ k') by by rewrite <- app_assoc.
    rewrite take_app_length. eexists. split; [done|]. simpl. rewrite length_app. simpl.
    replace (length k + 1 - 1)%nat with (length k) by lia. rewrite take_app_length.
    split; [by destruct k|]. by exists k'.
  - intros Hk. rewrite (proj2 (Nat.ltb_ge _ _)) by lia.
    assert (0 < length k)%nat by (destruct k; simpl; [done|lia]).
    rewrite sub64_small by (unfold is_u64, U64_MAX; lia).
    rewrite (proj2 (Z.leb_le _ _)) by lia. simpl.
    rewrite take_app_le by lia. replace (Z.to_nat (Z.of_nat (length k) - 1)) with (length k - 1)%nat by lia.
    by destruct k.
Qed.

(** [up] has no result for the root: whenever the paths have no subnet
    actor in common, in particular from the root network, the slice bound
    underflows and the call panics. *)
Theorem up_panics_without_common_actor {E} s from :
  root from = root s → (length (children from) <= length (children s))%nat →
  Z.of_nat (length (children s)) < U64_MAX →
  up (E:=E) s from = Panic ↔ common_prefix (children s) (children from) = 0%nat.
Proof.
  intros Hr Hle Hlen. unfold up, common_parent, slice_to.
  rewrite (proj2 (Nat.ltb_ge _ _)) by done. rewrite Hr, Z.eqb_refl. cbn [negb].
  destruct (common_prefix_spec (children s) (children from)) as (_ & Hcs & _).
  destruct (common_prefix (children s) (children from)) as [|n].
  - change (Z.of_nat 0) with 0. rewrite (sub64_underflow 0 1) by (unfold is_u64, U64_MAX; lia).
    rewrite (proj2 (Z.leb_gt _ _)) by (unfold U64_MAX in *; lia). done.
  - rewrite sub64_small by (unfold is_u64, U64_MAX in *; lia).
    rewrite (proj2 (Z.leb_le _ _)) by lia. done.
Qed.

(** The two constructors of transfer messages have the right direction: a
    release goes bottom-up, a fund goes top-down. *)
Theorem transfer_direction sub_id (a b : A) v m m' :
  new_release_msg sub_id a b v = Some m → new_fund_msg sub_id a b v = Some m' →
  ipc_type m = BottomUp ∧ ipc_type m' = TopDown.
Proof.
  unfold new_release_msg, new_fund_msg, parent.
  destruct sub_id as [r l]; simpl. destruct l as [|y l]; [done|].
  intros ??; simplify_eq/=. unfold ipc_type. simpl. split.
  - assert (is_bottomup (mkSubnetID r (y :: l)) (mkSubnetID r (take (length l - 0) (y :: l))) = true) as ->;
      [|done].
    apply is_bottomup_spec. simpl. split; [done|].
    intros Hp%prefix_length. rewrite length_take in Hp. simpl in Hp. lia.
  - destruct (is_bottomup _ _) eqn:Hb; [|done]. apply is_bottomup_spec in Hb as [_ Hp].
    destruct Hp. simpl. exists (drop (length l - 0) (y :: l)). by rewrite take_drop.
Qed.
End subnet_theorems.

(** ** ID addresses: [f0] followed by the actor id *)

Record IdAddress := mkId { actor_id : N }.
#[export] Instance id_address_eq_dec : EqDecision IdAddress.
Proof. solve_decision. Defined.
#[export] Instance id_address_ops : AddressOps IdAddress := {
  addr_new_id x := mkId (Z.to_N x);
  addr_to_string a := String "f" (String "0" (NilZero.string_of_uint (N.to_uint (actor_id a))));
  addr_from_str s :=
    match s with
    | String "f" (String "0" d) =>
        match NilZero.uint_of_string d with
        | Some u => inr (mkId (N.of_uint u))
        | None => inl "invalid id"%string
        end
    | _ => inl "unknown network"%string
    end;
}.
#[export] Instance id_address_laws : AddressLaws IdAddress.
Proof.
  split.
  - intros [n]. simpl. rewrite NilZero.usu.
    + by rewrite DecimalN.Unsigned.of_to.
    + unfold N.to_uint. destruct n; [done|]. apply DecimalPos.Unsigned.to_uint_nonnil.
  - intros [n]. pose proof (no_char_u64 "/" (Z.of_N n) eq_refl) as Hn.
    unfold u64_to_string in Hn. by rewrite N2Z.id in Hn.
  - intros [n]. pose proof (no_char_u64 ":" (Z.of_N n) eq_refl) as Hn.
    unfold u64_to_string in Hn. by rewrite N2Z.id in Hn.
Qed.

Definition sample_subnet : SubnetID IdAddress := mkSubnetID 123 [mkId 1; mkId 2; mkId 3].

Lemma ipc_address_roundtrip_witness :
  ipc_to_string (mkIPCAddress sample_subnet (mkId 1001)) = "/r123/f01/f02/f03:f01001"%string ∧
  ipc_from_str (ipc_to_string (mkIPCAddress sample_subnet (mkId 1001))) =
    Ok (mkIPCAddress sample_subnet (mkId 1001)).
Proof.
  split; [vm_compute; reflexivity|].
  apply (ipc_address_roundtrip (mkIPCAddress sample_subnet (mkId 1001))).
  vm_compute; split; discriminate.
Defined.

Lemma routing_one_hop_witness :
  up (E:=Empty_set) sample_subnet (mkSubnetID 123 [mkId 1; mkId 2]) = Ok (Some (mkSubnetID 123 [mkId 1])).
Proof.
  apply (routing_one_hop (E:=Empty_set) sample_subnet (mkSubnetID 123 [mkId 1; mkId 2])).
  - reflexivity.
  - exists [mkId 3]. reflexivity.
  - vm_compute. reflexivity.
  - discriminate.
Defined.

Lemma up_panics_without_common_actor_witness :
  up (E:=Empty_set) sample_subnet (mkSubnetID 123 []) = Panic.
Proof.
  apply (up_panics_without_common_actor (E:=Empty_set) sample_subnet (mkSubnetID 123 []));
    vm_compute; first [reflexivity | lia].
Defined.

Lemma transfer_direction_witness :
  match new_release_msg sample_subnet (mkId 7) (mkId 8) 5 with
  | Some m => ipc_type m = BottomUp
  | None => False
  end.
Proof.
  pose proof (transfer_direction sample_subnet (mkId 7) (mkId 8) 5 _ _ eq_refl eq_refl) as [H _].
  exact H.
Defined.
