(* ===== verification/Finality.v ===== *)
(** * The parent finality provider ([fendermint/vm/topdown/src/finality], [lib.rs], [error.rs])

    [FinalityWithNull] keeps the parent blocks that have been fetched but not yet
    committed to the ledger (a null round is cached as [None]) and the last
    finality committed.  From the cache it proposes the next parent block to
    finalize, and checks the proposals of others.

    The theorems say what is proposed (the highest non-null block behind the
    proposal delay and within the proposal range), what is accepted (exactly the
    blocks of the cache above the last committed one), and that a node accepts
    what it would itself propose. *)

From stdpp Require Import base tactics numbers list gmap strings.
From S2P Require Import Prelude SeqCache IpcApi.

Open Scope Z_scope.

(** ** Configuration, errors, payloads ([lib.rs], [error.rs], [finality/mod.rs]) *)

Definition DEFAULT_MAX_PROPOSAL_RANGE : Z := 100.
Definition DEFAULT_MAX_CACHE_BLOCK : Z := 500.
Definition DEFAULT_PROPOSAL_DELAY : Z := 2.

(** Durations are in milliseconds. *)
Record Config := mkConfig {
  chain_head_delay : Z;
  polling_interval : Z;
  exponential_back_off : Z;
  exponential_retry_limit : nat;
  opt_max_proposal_range : option Z;
  opt_max_cache_blocks : option Z;
  opt_proposal_delay : option Z;
}.

Definition new_config (delay polling backoff : Z) (limit : nat) : Config :=
  mkConfig delay polling backoff limit None None None.
Definition with_max_proposal_range (c : Config) (x : Z) : Config :=
  mkConfig (chain_head_delay c) (polling_interval c) (exponential_back_off c)
    (exponential_retry_limit c) (Some x) (opt_max_cache_blocks c) (opt_proposal_delay c).
Definition with_proposal_delay (c : Config) (x : Z) : Config :=
  mkConfig (chain_head_delay c) (polling_interval c) (exponential_back_off c)
    (exponential_retry_limit c) (opt_max_proposal_range c) (opt_max_cache_blocks c) (Some x).
Definition with_max_cache_blocks (c : Config) (x : Z) : Config :=
  mkConfig (chain_head_delay c) (polling_interval c) (exponential_back_off c)
    (exponential_retry_limit c) (opt_max_proposal_range c) (Some x) (opt_proposal_delay c).

Definition max_proposal_range (c : Config) : Z :=
  default DEFAULT_MAX_PROPOSAL_RANGE (opt_max_proposal_range c).
Definition proposal_delay (c : Config) : Z := default DEFAULT_PROPOSAL_DELAY (opt_proposal_delay c).
Definition max_cache_blocks (c : Config) : Z := default DEFAULT_MAX_CACHE_BLOCK (opt_max_cache_blocks c).

Record IPCParentFinality := mkFinality { height : Z; block_hash : bytes }.
#[export] Instance ipc_parent_finality_eq_dec : EqDecision IPCParentFinality.
Proof. solve_decision. Defined.

(** [IPCParentFinality::new]: the epoch is a signed 64-bit number. *)
Definition new_parent_finality (epoch : Z) (hash : bytes) : IPCParentFinality :=
  mkFinality (i64_as_u64 epoch) hash.

Inductive TopdownError :=
| NotSequential
| NonSequentialParentViewInsert (e : SequentialAppendError)
| ParentChainReorgDetected
| CannotQueryParent (msg : string) (h : Z).

Definition ParentViewPayload (A : Type) : Type :=
  bytes * list (StakingChangeRequest A) * list (IpcEnvelope A).

Definition payload_hash {A} (p : ParentViewPayload A) : bytes := p.1.1.
Definition validator_changes {A} (p : ParentViewPayload A) : list (StakingChangeRequest A) := p.1.2.
Definition topdown_cross_msgs {A} (p : ParentViewPayload A) : list (IpcEnvelope A) := p.2.

Fixpoint sequential_from {T} (f : T → Z) (n : Z) (msgs : list T) : outcome TopdownError unit :=
  match msgs with
  | [] => Ok tt
  | msg :: rest =>
      if negb ((n + 1)%u64 =? f msg) then Err NotSequential
      else sequential_from f (n + 1)%u64 rest
  end.
Definition ensure_sequential {T} (msgs : list T) (f : T → Z) : outcome TopdownError unit :=
  match msgs with
  | [] => Ok tt
  | first :: rest => sequential_from f (f first) rest
  end.

(** ** The provider ([finality/null.rs]) *)

Record FinalityWithNull (A : Type) := mkProvider {
  config : Config;
  genesis_epoch : Z;
  cached_data : SequentialKeyCache (option (ParentViewPayload A));
  last_committed_finality : option IPCParentFinality;
}.
Arguments mkProvider {A} _ _ _ _.
Arguments config {A} _.
Arguments genesis_epoch {A} _.
Arguments cached_data {A} _.
Arguments last_committed_finality {A} _.

Section provider.
Context {A : Type}.
Implicit Types (f : FinalityWithNull A) (h : Z) (p : IPCParentFinality).

Definition new (c : Config) (genesis : Z) (committed : option IPCParentFinality) : FinalityWithNull A :=
  mkProvider c genesis sequential committed.

Definition set_cache f c : FinalityWithNull A :=
  mkProvider (config f) (genesis_epoch f) c (last_committed_finality f).

(** The data at a height; a null round has the default. *)
Definition handle_null_block {E T} f h (get : ParentViewPayload A → T) (d : T) : outcome E (option T) :=
  v ← get_value (cached_data f) h;
  Ok (option_map (λ i, match i with Some payload => get payload | None => d end) v).

Definition validator_changes_at {E} f h : outcome E (option (list (StakingChangeRequest A))) :=
  handle_null_block f h validator_changes [].
Definition top_down_msgs_at {E} f h : outcome E (option (list (IpcEnvelope A))) :=
  handle_null_block f h topdown_cross_msgs [].

Definition reset f (finality : IPCParentFinality) : FinalityWithNull A :=
  mkProvider (config f) (genesis_epoch f) sequential (Some finality).

Definition parent_block_filled f h (hash : bytes) (changes : list (StakingChangeRequest A))
    (msgs : list (IpcEnvelope A)) : outcome TopdownError (FinalityWithNull A) :=
  _ ← (match msgs with [] => Ok tt | _ => ensure_sequential msgs nonce end);
  _ ← (match changes with [] => Ok tt | _ => ensure_sequential changes configuration_number end);
  c ← map_err NonSequentialParentViewInsert
        (append (cached_data f) h (Some (hash, changes, msgs)));
  Ok (set_cache f c).

Definition parent_null_round f h : outcome TopdownError (FinalityWithNull A) :=
  c ← map_err NonSequentialParentViewInsert (append (cached_data f) h None);
  Ok (set_cache f c).

Definition new_parent_view f h (maybe_payload : option (ParentViewPayload A))
    : outcome TopdownError (FinalityWithNull A) :=
  match maybe_payload with
  | Some (hash, changes, msgs) => parent_block_filled f h hash changes msgs
  | None => parent_null_round f h
  end.

(** The [debug_assert!] on [previous_finality] is not compiled in. *)
Definition set_new_finality f (finality : IPCParentFinality)
    (previous_finality : option IPCParentFinality) : FinalityWithNull A :=
  mkProvider (config f) (genesis_epoch f)
    (remove_key_below (cached_data f) (height finality)) (Some finality).

Definition cached_blocks f : Z := Z.of_nat (size (cached_data f)).

Definition get_at_height {E T} f h (get : ParentViewPayload A → T) : outcome E (option T) :=
  v ← get_value (cached_data f) h;
  Ok (match v with Some (Some payload) => Some (get payload) | _ => None end).

Definition block_hash_at_height {E} f h : outcome E (option bytes) :=
  match last_committed_finality f with
  | Some c => if height c =? h then Ok (Some (block_hash c)) else get_at_height f h payload_hash
  | None => get_at_height f h payload_hash
  end.

Definition latest_height_in_cache f : option Z := upper_bound (cached_data f).

Definition latest_height f : option Z :=
  match latest_height_in_cache f with
  | Some h => Some h
  | None => height <$> last_committed_finality f
  end.

(** The loop [for h in (lower_bound..=height).rev()], [n] heights to go. *)
Fixpoint scan_down {E} (c : SequentialKeyCache (option (ParentViewPayload A))) (n : nat) h
    : outcome E (option Z) :=
  match n with
  | O => Ok None
  | S n' =>
      v ← get_value c h;
      match v with
      | Some (Some _) => Ok (Some h)
      | _ => scan_down c n' (h - 1)
      end
  end.

Definition first_non_null_block {E} f h : outcome E (option Z) :=
  match lower_bound (cached_data f) with
  | Some lower => scan_down (cached_data f) (Z.to_nat (h - lower + 1)) h
  | None => Ok None
  end.

Definition propose_next_height {E} f : outcome E (option Z) :=
  match latest_height_in_cache f with
  | None => Ok None
  | Some latest =>
      match last_committed_finality f with
      | None => Panic
      | Some c =>
          let last_committed_height := height c in
          let max_proposal_height := (last_committed_height + max_proposal_range (config f))%u64 in
          let candidate_height := Z.min max_proposal_height latest in
          r ← first_non_null_block f candidate_height;
          match r with
          | None => Ok None
          | Some first_non_null_height =>
              r' ← first_non_null_block f (first_non_null_height - proposal_delay (config f))%u64;
              match r' with
              | Some proposal_height =>
                  if last_committed_height =? proposal_height then Ok None
                  else Ok (Some proposal_height)
              | None => Ok None
              end
          end
      end
  end.

Definition next_proposal {E} f : outcome E (option IPCParentFinality) :=
  r ← propose_next_height f;
  match r with
  | None => Ok None
  | Some h =>
      o ← block_hash_at_height f h;
      hash ← unwrap o;
      Ok (Some (mkFinality h hash))
  end.

Definition check_height f p : bool :=
  match last_committed_finality f with
  | None => false
  | Some c =>
      if height p <=? height c then false
      else match latest_height_in_cache f with
           | Some latest => height p <=? latest
           | None => false
           end
  end.

Definition check_block_hash {E} f p : outcome E bool :=
  o ← block_hash_at_height f (height p);
  Ok (match o with
      | Some hash => bool_decide (hash = block_hash p)
      | None => false
      end).

Definition check_proposal {E} f p : outcome E bool :=
  if check_height f p then check_block_hash f p else Ok false.
End provider.

Section provider_facts.
Context {A : Type}.
Implicit Types (f : FinalityWithNull A) (h k : Z) (p : IPCParentFinality).

(** A height at which the cache holds a block, not a null round. *)
Definition non_null f h : Prop := ∃ payload, to_map (cached_data f) !! h = Some (Some payload).

(** The cache is a progression by one, and starts at or above the last
    committed height. *)
Record provider_inv f : Prop := {
  inv_cache : wf (cached_data f);
  inv_increment : increment (cached_data f) = 1;
  inv_above : ∀ c lo, last_committed_finality f = Some c →
    lower_bound (cached_data f) = Some lo → height c <= lo;
  inv_committed : ∀ c, last_committed_finality f = Some c → is_u64 (height c);
}.

Lemma get_value_inv {E} f h :
  provider_inv f → get_value (E:=E) (cached_data f) h = Ok (to_map (cached_data f) !! h).
Proof. intros Hf. apply get_value_map; apply Hf. Qed.

Lemma non_null_bounds f h lo hi :
  provider_inv f → lower_bound (cached_data f) = Some lo →
  upper_bound (cached_data f) = Some hi → non_null f h → lo <= h <= hi.
Proof. intros Hf Hlo Hhi [v Hv]. eapply to_map_bounds; eauto using inv_cache. Qed.

Lemma scan_down_spec {E} f n h :
  provider_inv f →
  match scan_down (E:=E) (cached_data f) n h with
  | Ok (Some h') => h - Z.of_nat n < h' <= h ∧ non_null f h' ∧ ∀ k, h' < k <= h → ¬ non_null f k
  | Ok None => ∀ k, h - Z.of_nat n < k <= h → ¬ non_null f k
  | _ => False
  end.
Proof.
  intros Hf. revert h. induction n as [|n IH]; intros h; cbn [scan_down]; [intros k Hk; lia|].
  rewrite (get_value_inv f h) by done. cbn [mbind outcome_bind].
  assert ((∃ pl, to_map (cached_data f) !! h = Some (Some pl)) ∨
          ¬ non_null f h ∧ (to_map (cached_data f) !! h = None ∨ to_map (cached_data f) !! h = Some None))
    as [[pl Hpl]|[Hn Hcase]].
  { unfold non_null. destruct (to_map (cached_data f) !! h) as [[pl|]|]; naive_solver. }
  { rewrite Hpl. split_and!; [lia..|by exists pl|lia]. }
  specialize (IH (h - 1)).
  replace (h - Z.of_nat (S n)) with (h - 1 - Z.of_nat n) by lia.
  assert (match to_map (cached_data f) !! h with Some (Some _) => Ok (Some h) | _ => scan_down (cached_data f) n (h - 1) end
          = scan_down (E:=E) (cached_data f) n (h - 1)) as -> by by destruct Hcase as [->| ->].
  assert (∀ k j, j < k <= h → (j < k <= h - 1 → ¬ non_null f k) → ¬ non_null f k) as Hext.
  { intros k j Hk Hprev. destruct (decide (k = h)) as [->|]; [done|]. apply Hprev. lia. }
  destruct (scan_down _ n (h - 1)) as [[h'|]|e| |]; [|by eauto|done..].
  destruct IH as (Hb & Hnn & Hmax). split_and!; [lia..|done|eauto].
Qed.

Lemma first_non_null_block_spec {E} f h :
  provider_inv f →
  match first_non_null_block (E:=E) f h with
  | Ok (Some h') => h' <= h ∧ non_null f h' ∧ ∀ k, h' < k <= h → ¬ non_null f k
  | Ok None => ∀ k, k <= h → ¬ non_null f k
  | _ => False
  end.
Proof.
  intros Hf. unfold first_non_null_block.
  destruct (lower_bound (cached_data f)) as [lo|] eqn:Hlo.
  - pose proof (scan_down_spec (E:=E) f (Z.to_nat (h - lo + 1)) h Hf) as Hs.
    assert (∀ k, non_null f k → lo <= k) as Hge.
    { intros k Hk. destruct (upper_bound (cached_data f)) as [hi|] eqn:Hhi.
      - destruct (non_null_bounds f k lo hi); done.
      - apply upper_bound_None in Hhi. apply lower_bound_None in Hhi. congruence. }
    destruct (scan_down _ _ h) as [[h'|]|e| |]; [naive_solver| |done..].
    intros k Hk Hn. apply (Hs k); [|done]. apply Hge in Hn. lia.
  - apply lower_bound_None in Hlo. intros k Hk [v Hv]. by rewrite to_map_empty in Hv.
Qed.

Lemma first_non_null_block_unique {E} f h h' :
  provider_inv f → h' <= h → non_null f h' → (∀ k, h' < k <= h → ¬ non_null f k) →
  first_non_null_block (E:=E) f h = Ok (Some h').
Proof.
  intros Hf Hle Hn Hmax. pose proof (first_non_null_block_spec (E:=E) f h Hf) as Hs.
  destruct (first_non_null_block f h) as [[h1|]|e| |]; [|naive_solver|done..].
  destruct Hs as (Hle1 & Hn1 & Hmax1).
  destruct (Z.lt_trichotomy h1 h') as [?|[->|?]]; [|done|].
  - destruct (Hmax1 h'); [lia|done].
  - destruct (Hmax h1); [lia|done].
Qed.

(** Above the last committed height the hash is that of the cached block. *)
Lemma block_hash_above {E} f h :
  provider_inv f → (∀ c, last_committed_finality f = Some c → height c < h) →
  block_hash_at_height (E:=E) f h =
    Ok (match to_map (cached_data f) !! h with Some (Some pl) => Some (payload_hash pl) | _ => None end).
Proof.
  intros Hf Hc. unfold block_hash_at_height, get_at_height. rewrite get_value_inv by done.
  destruct (last_committed_finality f) as [c|]; [|done].
  specialize (Hc c eq_refl). rewrite (proj2 (Z.eqb_neq (height c) h)) by lia. done.
Qed.

Lemma check_proposal_iff {E} f p :
  provider_inv f →
  ∃ b, check_proposal (E:=E) f p = Ok b ∧
    (b = true ↔
     ∃ c pl, last_committed_finality f = Some c ∧ height c < height p ∧
             to_map (cached_data f) !! height p = Some (Some pl) ∧ payload_hash pl = block_hash p).
Proof.
  intros Hf. unfold check_proposal, check_height.
  destruct (last_committed_finality f) as [c|] eqn:Hc.
  2:{ exists false. split; [done|]. naive_solver. }
  destruct (height p <=? height c) eqn:Hle; zbool.
  { exists false. split; [done|]. split; [done|]. intros (c' & pl & ? & ? & _). simplify_eq. lia. }
  unfold check_block_hash.
  rewrite block_hash_above by (done || intros ? ?; congruence).
  unfold latest_height_in_cache. destruct (upper_bound (cached_data f)) as [hi|] eqn:Hhi; simpl.
  2:{ exists false. split; [done|]. split; [done|]. intros (c' & pl & ? & ? & Hpl & _).
      apply upper_bound_None in Hhi. by rewrite to_map_empty in Hpl. }
  destruct (height p <=? hi) eqn:Hb; zbool.
  - eexists. split; [done|]. destruct (to_map (cached_data f) !! height p) as [[pl|]|].
    + rewrite bool_decide_eq_true. naive_solver.
    + naive_solver.
    + naive_solver.
  - exists false. split; [done|]. split; [done|]. intros (c' & pl & ? & ? & Hpl & _).
    destruct (lower_bound (cached_data f)) as [lo|] eqn:Hlo.
    + assert (lo <= height p <= hi) by (eapply non_null_bounds; eauto; by exists pl). lia.
    + apply lower_bound_None in Hlo. by rewrite to_map_empty in Hpl.
Qed.
End provider_facts.

Lemma sequential_from_spec {T} (key : T → Z) n msgs :
  is_u64 n →
  sequential_from key n msgs = Ok tt ↔
  ∀ i m, msgs !! i = Some m → key m = wrap64 (n + 1 + Z.of_nat i).
Proof.
  revert n. induction msgs as [|m msgs IH]; intros n Hn; simpl; [by split|].
  destruct ((n + 1)%u64 =? key m) eqn:Hk; zbool; simpl.
  - rewrite IH by apply wrap64_range. unfold add64 in *. split.
    + intros Hs [|i] m' Hi; simpl in Hi.
      * injection Hi as <-. rewrite <- Hk. f_equal. lia.
      * rewrite (Hs i m' Hi). rewrite <- ?Z.add_assoc, !wrap64_add_l. f_equal. lia.
    + intros Hs i m' Hi. rewrite (Hs (S i) m' Hi). rewrite <- ?Z.add_assoc, !wrap64_add_l. f_equal. lia.
  - split; [done|]. intros Hs. destruct Hk. rewrite (Hs 0%nat m eq_refl). unfold add64. f_equal. lia.
Qed.

Section provider_steps.
Context {A : Type}.
Implicit Types (f : FinalityWithNull A) (h k : Z) (p : IPCParentFinality).

Lemma new_parent_view_Ok f h pl f' :
  new_parent_view f h pl = Ok f' →
  ∃ c, append (cached_data f) h pl = Ok c ∧ f' = set_cache f c ∧
    match pl with
    | Some (hash, changes, msgs) =>
        ensure_sequential msgs nonce = Ok tt ∧
        ensure_sequential changes configuration_number = Ok tt
    | None => True
    end.
Proof.
  unfold new_parent_view, parent_block_filled, parent_null_round, map_err. intros Heq.
  destruct pl as [[[hash changes] msgs]|]; inv_outcome; eexists; split_and!;
    try done; repeat match goal with u : () |- _ => destruct u end; done.
Qed.

(** The transactions on the provider as they are called: the syncer polls the height
    after the latest one that the provider knows, in the cache or else the last
    committed one; finalities and resets are arbitrary. *)
Inductive provider_step : FinalityWithNull A → FinalityWithNull A → Prop :=
| step_new_parent_view f f' h pl :
    is_u64 h → (∀ l, latest_height f = Some l → h = l + 1) →
    new_parent_view f h pl = Ok f' → provider_step f f'
| step_set_new_finality f p prev :
    is_u64 (height p) → provider_step f (set_new_finality f p prev)
| step_reset f p : is_u64 (height p) → provider_step f (reset f p).

Lemma lower_bound_remove_below {V} (c : SequentialKeyCache V) k lo :
  wf c → lower_bound (remove_key_below c k) = Some lo → k <= lo.
Proof.
  intros Hwf Hlo. destruct (to_map_lower _ _ (remove_key_below_wf c k Hwf) Hlo) as [v Hv].
  rewrite remove_key_below_to_map in Hv by done. by apply map_lookup_filter_Some in Hv as [_ ?].
Qed.

Lemma empty_cache_latest f :
  lower_bound (cached_data f) = None → latest_height f = height <$> last_committed_finality f.
Proof.
  unfold latest_height, latest_height_in_cache, upper_bound, lower_bound.
  by destruct (data (cached_data f)).
Qed.
Lemma provider_step_inv f f' : provider_inv f → provider_step f f' → provider_inv f'.
Proof.
  intros [Hwf Hinc Hab Hcm] Hstep.
  destruct Hstep as [f f' h pl Hu Hnext Hv|f p prev Hu|f p Hu].
  - assert (Hmax : ∀ hi, latest_height_in_cache f = Some hi → hi < U64_MAX).
    { intros hi Hhi. unfold latest_height in Hnext. rewrite Hhi in Hnext. specialize (Hnext hi eq_refl). unfold is_u64 in Hu. lia. }
    apply new_parent_view_Ok in Hv as (c' & Happ & -> & _).
    pose proof (append_cases _ h pl Hwf Hinc Hu Hmax) as Hc. rewrite Happ in Hc.
    destruct Hc as (-> & Hwf' & Hinc' & _). split; simpl; try done.
    intros c lo Hlc. rewrite lower_bound_push_back. intros [= <-].
    destruct (lower_bound (cached_data f)) as [lo'|] eqn:Hlo'; simpl; [eauto|].
    apply empty_cache_latest in Hlo' as Hl. rewrite Hlc in Hl. specialize (Hnext _ Hl). lia.
  - split; simpl; [by apply remove_key_below_wf|done| |naive_solver].
    intros c lo [= <-]. by apply lower_bound_remove_below.
  - split; simpl; [apply sequential_wf|done|done|naive_solver].
Qed.

Lemma new_provider_inv c genesis committed :
  (∀ p, committed = Some p → is_u64 (height p)) → provider_inv (new (A:=A) c genesis committed).
Proof. intros Hu. split; simpl; [apply sequential_wf|done|done|done]. Qed.

(** ** Proposals *)

Definition highest_non_null f bound h : Prop :=
  h <= bound ∧ non_null f h ∧ ∀ k, h < k <= bound → ¬ non_null f k.

Lemma highest_non_null_unique f b h h' :
  highest_non_null f b h → highest_non_null f b h' → h = h'.
Proof.
  intros (Hle & Hn & Hmax) (Hle' & Hn' & Hmax').
  destruct (Z.lt_trichotomy h h') as [?|[?|?]]; [|done|]; exfalso.
  - apply (Hmax h'); [lia|done].
  - apply (Hmax' h); [lia|done].
Qed.

Lemma first_non_null_block_cases {E} f b :
  provider_inv f →
  (∃ h, first_non_null_block (E:=E) f b = Ok (Some h) ∧ highest_non_null f b h) ∨
  (first_non_null_block (E:=E) f b = Ok None ∧ ∀ h, ¬ highest_non_null f b h).
Proof.
  intros Hf. pose proof (first_non_null_block_spec (E:=E) f b Hf) as Hs.
  destruct (first_non_null_block f b) as [[h|]|e| |]; [left|right|done..]; [eauto|].
  split; [done|]. intros h (Hle & Hn & _). by eapply Hs.
Qed.

Lemma first_non_null_none {E} f b h :
  provider_inv f → first_non_null_block (E:=E) f b = Ok None → h <= b → ¬ non_null f h.
Proof.
  intros Hf Hb. pose proof (first_non_null_block_spec (E:=E) f b Hf) as Hs. rewrite Hb in Hs. apply Hs.
Qed.

(** The height [propose_next_height] settles on, given the bound [b] it computes
    for the delayed search from the first non-null height. *)
Definition proposal_height f (c : IPCParentFinality) (latest first h : Z) : Prop :=
  highest_non_null f (Z.min (height c + max_proposal_range (config f)) latest) first ∧
  highest_non_null f (first - proposal_delay (config f))%u64 h ∧ height c ≠ h.

Lemma propose_next_height_cases {E} f c :
  provider_inv f → last_committed_finality f = Some c →
  is_u64 (height c + max_proposal_range (config f)) →
  ∃ o, propose_next_height (E:=E) f = Ok o ∧
    ∀ h, o = Some h ↔ ∃ latest first, latest_height_in_cache f = Some latest ∧
                                      proposal_height f c latest first h.
Proof.
  intros Hf Hc Hr. unfold propose_next_height, proposal_height. rewrite Hc.
  destruct (latest_height_in_cache f) as [latest|]; [|by exists None; naive_solver].
  unfold add64. rewrite wrap64_small by done.
  set (b := Z.min _ latest).
  destruct (first_non_null_block_cases (E:=E) f b Hf) as [(first & -> & Hfirst)|[-> Hno]];
    [|exists None; naive_solver]. cbn [mbind outcome_bind].
  destruct (first_non_null_block_cases (E:=E) f (first - proposal_delay (config f))%u64 Hf)
    as [(h & -> & Hh)|[-> Hno]]; cbn [mbind outcome_bind].
  - exists (if height c =? h then None else Some h).
    split; [by destruct (height c =? h)|]. intros h'.
    destruct (height c =? h) eqn:Hch; zbool; split.
    + done.
    + intros (l & first' & [= <-] & Hf' & Hh' & Hne).
      rewrite (highest_non_null_unique _ _ _ _ Hf' Hfirst) in Hh'.
      rewrite (highest_non_null_unique _ _ _ _ Hh' Hh) in Hne. done.
    + intros [= <-]. eauto 10.
    + intros (l & first' & [= <-] & Hf' & Hh' & Hne). f_equal.
      rewrite (highest_non_null_unique _ _ _ _ Hf' Hfirst) in Hh'.
      by eapply highest_non_null_unique.
  - exists None. split; [done|]. intros h. split; [done|].
    intros (l & first' & [= <-] & Hf' & Hh' & _).
    rewrite (highest_non_null_unique _ _ _ _ Hf' Hfirst) in Hh'. by eapply Hno in Hh'.
Qed.

Lemma proposal_height_above f c latest first h :
  provider_inv f → last_committed_finality f = Some c → proposal_height f c latest first h →
  height c < h.
Proof.
  intros Hf Hc (_ & (_ & Hn & _) & Hne).
  destruct (lower_bound (cached_data f)) as [lo|] eqn:Hlo.
  - destruct (upper_bound (cached_data f)) as [hi|] eqn:Hhi.
    + pose proof (inv_above f Hf c lo Hc Hlo). destruct (non_null_bounds f h lo hi); try done. lia.
    + apply upper_bound_None, lower_bound_None in Hhi. congruence.
  - apply lower_bound_None in Hlo. destruct Hn as [v Hv]. by rewrite to_map_empty in Hv.
Qed.

Lemma next_proposal_cases {E} f c :
  provider_inv f → last_committed_finality f = Some c →
  is_u64 (height c + max_proposal_range (config f)) →
  ∃ o, next_proposal (E:=E) f = Ok o ∧
    ∀ p, o = Some p ↔ ∃ latest first pl, latest_height_in_cache f = Some latest ∧
      proposal_height f c latest first (height p) ∧
      to_map (cached_data f) !! height p = Some (Some pl) ∧ payload_hash pl = block_hash p.
Proof.
  intros Hf Hc Hr. unfold next_proposal.
  destruct (propose_next_height_cases (E:=E) f c Hf Hc Hr) as (o & -> & Ho). cbn [mbind outcome_bind].
  destruct o as [h|].
  - destruct (proj1 (Ho h) eq_refl) as (latest & first & Hl & Hh).
    pose proof (proposal_height_above _ _ _ _ _ Hf Hc Hh) as Hlt.
    rewrite block_hash_above by (done || intros; congruence).
    destruct Hh as (Hfirst & (Hle & [pl Hpl] & Hmax) & Hne). rewrite Hpl. simpl.
    eexists. split; [done|]. intros [ph phash]. simpl. split.
    + intros [= <- <-]. exists latest, first, pl. unfold proposal_height, highest_non_null, non_null. eauto 10.
    + intros (l' & first' & pl' & Hl' & Hh' & Hpl' & <-).
      assert (Some h = Some ph) as [= ->] by (apply Ho; eauto). congruence.
  - exists None. split; [done|]. intros p. split; [done|].
    intros (l & first & pl & Hl & Hh & _).
    assert (None = Some (height p)) by (apply Ho; eauto). done.
Qed.
End provider_steps.

Section provider_theorems.
Context {A : Type}.
Implicit Types (f : FinalityWithNull A) (h k : Z) (p : IPCParentFinality).


(** What is proposed: [next_proposal] does not panic, and proposes the block
    at the highest non-null height at least [proposal_delay] below the highest
    non-null height seen within the proposal range, unless that is the one
    already committed.  Heights are assumed at or above the delay. *)
Theorem next_proposal_spec {E} f c :
  provider_inv f → last_committed_finality f = Some c →
  is_u64 (height c + max_proposal_range (config f)) → 0 <= proposal_delay (config f) →
  (∀ h, non_null f h → proposal_delay (config f) <= h) →
  ∃ o, next_proposal (E:=E) f = Ok o ∧
    ∀ p, o = Some p ↔
      ∃ latest first pl, latest_height_in_cache f = Some latest ∧
        highest_non_null f (Z.min (height c + max_proposal_range (config f)) latest) first ∧
        highest_non_null f (first - proposal_delay (config f)) (height p) ∧
        height c < height p ∧
        to_map (cached_data f) !! height p = Some (Some pl) ∧ payload_hash pl = block_hash p.
Proof.
  intros Hf Hc Hr Hd0 Hd.
  destruct (next_proposal_cases (E:=E) f c Hf Hc Hr) as (o & Hnp & Ho). exists o. split; [done|].
  assert (∀ b first, highest_non_null f b first →
            (first - proposal_delay (config f))%u64 = first - proposal_delay (config f)) as Hsub.
  { intros b first (_ & Hn & _). specialize (Hd first Hn).
    destruct Hn as [v Hv]. pose proof (to_map_u64 _ _ _ (inv_cache f Hf) Hv) as Hu.
    apply sub64_small; unfold is_u64 in *; lia. }
  intros p. rewrite Ho. split; intros (latest & first & pl & Hl & Hrest); exists latest, first, pl.
  - destruct Hrest as (Hh & Hpl). pose proof (proposal_height_above _ _ _ _ _ Hf Hc Hh).
    destruct Hh as (Hfirst & Hh & _). rewrite (Hsub _ _ Hfirst) in Hh. eauto 10.
  - destruct Hrest as (Hfirst & Hh & Hlt & Hpl). split; [done|]. split; [|done].
    split; [done|]. split; [by rewrite (Hsub _ _ Hfirst)|lia].
Qed.

(** What is accepted: [check_proposal] never panics, and accepts exactly the
    blocks of the cache, by height and hash, above the last committed height. *)
Theorem check_proposal_spec {E} f p :
  provider_inv f →
  ∃ b, check_proposal (E:=E) f p = Ok b ∧
    (b = true ↔
     ∃ c pl, last_committed_finality f = Some c ∧ height c < height p ∧
             to_map (cached_data f) !! height p = Some (Some pl) ∧ payload_hash pl = block_hash p).
Proof. apply check_proposal_iff. Qed.

(** A proposal made by one node is accepted by another whose cache holds the
    same block at that height and which has not committed it yet; in particular
    a node accepts its own proposal. *)
Theorem proposal_accepted {E} f1 f2 c1 c2 p :
  provider_inv f1 → last_committed_finality f1 = Some c1 →
  is_u64 (height c1 + max_proposal_range (config f1)) →
  provider_inv f2 → last_committed_finality f2 = Some c2 → height c2 <= height c1 →
  to_map (cached_data f1) !! height p = to_map (cached_data f2) !! height p →
  next_proposal (E:=E) f1 = Ok (Some p) → check_proposal (E:=E) f2 p = Ok true.
Proof.
  intros Hf1 Hc1 Hr Hf2 Hc2 Hle Heq Hnp.
  destruct (next_proposal_cases (E:=E) f1 c1 Hf1 Hc1 Hr) as (o & Hnp' & Ho).
  rewrite Hnp in Hnp'. injection Hnp' as <-.
  destruct (proj1 (Ho p) eq_refl) as (latest & first & pl & _ & Hh & Hpl & Hhash).
  pose proof (proposal_height_above _ _ _ _ _ Hf1 Hc1 Hh).
  destruct (check_proposal_iff (E:=E) f2 p Hf2) as (b & -> & Hb). f_equal. apply Hb.
  exists c2, pl. rewrite <- Heq. split_and!; [done|lia|done..].
Qed.

(** Near the genesis of the parent the delay is not applied: when the first
    non-null height is below [proposal_delay], the subtraction wraps around and
    that height itself is proposed. *)
Theorem proposal_delay_wraps {E} f c latest first :
  provider_inv f → last_committed_finality f = Some c →
  is_u64 (height c + max_proposal_range (config f)) → is_u64 (proposal_delay (config f)) →
  latest_height_in_cache f = Some latest → latest < 2 ^ 63 → proposal_delay (config f) < 2 ^ 63 →
  highest_non_null f (Z.min (height c + max_proposal_range (config f)) latest) first →
  latest <= height c + max_proposal_range (config f) →
  first < proposal_delay (config f) → height c < first →
  propose_next_height (E:=E) f = Ok (Some first).
Proof.
  intros Hf Hc Hr Hd Hl Hl63 Hd63 Hfirst Hlr Hlt Hcf.
  destruct (propose_next_height_cases (E:=E) f c Hf Hc Hr) as (o & -> & Ho). f_equal. apply Ho.
  exists latest, first. split; [done|]. split; [done|]. split; [|lia].
  destruct Hfirst as (Hle & Hn & Hmax). pose proof Hn as [v Hv].
  pose proof (to_map_u64 _ _ _ (inv_cache f Hf) Hv) as Hu.
  rewrite sub64_underflow by done. unfold is_u64, U64_MAX in *. split; [lia|]. split; [done|].
  intros k Hk Hkn. apply (Hmax k); [|done]. split; [lia|].
  destruct (lower_bound (cached_data f)) as [lo|] eqn:Hlo.
  - destruct (non_null_bounds f k lo latest); try done. lia.
  - apply lower_bound_None in Hlo. by rewrite to_map_empty in Hv.
Qed.

(** [ensure_sequential] accepts a list exactly when the keys count up by one
    (modulo the word size) from the first. *)
Theorem ensure_sequential_spec {T} (msgs : list T) (key : T → Z) :
  (∀ m, m ∈ msgs → is_u64 (key m)) →
  ensure_sequential msgs key = Ok tt ↔
  ∀ i first m, head msgs = Some first → msgs !! i = Some m →
    key m = wrap64 (key first + Z.of_nat i).
Proof.
  destruct msgs as [|first rest]; intros Hu; [by split|]. simpl.
  assert (is_u64 (key first)) as Hf by (apply Hu; left).
  rewrite (sequential_from_spec key (key first) rest Hf). split.
  - intros Hs [|i] m0 m [= <-] Hi; simpl in Hi.
    + injection Hi as <-. by rewrite Z.add_0_r, wrap64_small.
    + rewrite (Hs i m Hi). f_equal. lia.
  - intros Hs i m Hi. rewrite (Hs (S i) first m eq_refl Hi). f_equal. lia.
Qed.
End provider_theorems.

(** ** A concrete provider: committed at 10, blocks at 11, 13 and 14, a null
    round at 12. *)
Definition sample_payload (x : Z) : option (ParentViewPayload IdAddress) := Some ([x], [], []).
Definition ok_provider (f : FinalityWithNull IdAddress)
    (r : outcome TopdownError (FinalityWithNull IdAddress)) : FinalityWithNull IdAddress :=
  match r with Ok f' => f' | _ => f end.
Definition sample_view (f : FinalityWithNull IdAddress) (v : Z * option (ParentViewPayload IdAddress)) :=
  ok_provider f (new_parent_view f v.1 v.2).
Definition sample_new (committed : Z) : FinalityWithNull IdAddress :=
  new (new_config 5 10 10 3) 0 (Some (mkFinality committed [0])).
Definition sample_provider : FinalityWithNull IdAddress :=
  foldl sample_view (sample_new 10)
    [(11, sample_payload 11); (12, None); (13, sample_payload 13); (14, sample_payload 14)].
(** The first block above a parent committed at its genesis. *)
Definition sample_genesis : FinalityWithNull IdAddress :=
  sample_view (sample_new 0) (1, sample_payload 1).

(** A check of the guards of [step_new_parent_view], by evaluation. *)
Definition view_guard (f : FinalityWithNull IdAddress) (v : Z * option (ParentViewPayload IdAddress)) : bool :=
  (0 <=? v.1) && (v.1 <? U64_MAX) &&
  (match latest_height f with Some l => v.1 =? l + 1 | None => true end) &&
  (match new_parent_view f v.1 v.2 with Ok _ => true | _ => false end).
Lemma sample_view_step f v : view_guard f v = true → provider_step f (sample_view f v).
Proof.
  unfold view_guard, sample_view. intros Hg. zbool.
  destruct (new_parent_view f v.1 v.2) as [f'| | |] eqn:Hv; try done. simpl.
  apply (step_new_parent_view f f' v.1 v.2); [unfold is_u64; lia| |done].
  intros l Hl. rewrite Hl in *. zbool. done.
Qed.
Lemma sample_views_inv (vs : list (Z * option (ParentViewPayload IdAddress))) f :
  provider_inv f →
  (fix go f vs := match vs with [] => true | v :: vs' => view_guard f v && go (sample_view f v) vs' end)
    f vs = true →
  provider_inv (foldl sample_view f vs).
Proof.
  revert f. induction vs as [|v vs IH]; intros f Hf Hg; simpl; [done|].
  apply andb_true_iff in Hg as [Hv Hg]. apply IH; [|done].
  by eapply provider_step_inv, sample_view_step.
Qed.
Lemma sample_new_inv x : 0 <= x <= 100 → provider_inv (sample_new x).
Proof. intros Hx. apply new_provider_inv. intros p [= <-]. unfold is_u64, U64_MAX. simpl. lia. Qed.
Lemma sample_provider_inv : provider_inv sample_provider.
Proof. apply sample_views_inv; [apply sample_new_inv; lia|vm_compute; reflexivity]. Qed.


Lemma sample_provider_bounds h : non_null sample_provider h → 11 <= h <= 14.
Proof. apply non_null_bounds; [apply sample_provider_inv|vm_compute; reflexivity..]. Qed.

Lemma next_proposal_spec_witness :
  next_proposal (E:=Empty_set) sample_provider = Ok (Some (mkFinality 11 [11])) ∧
  ∃ first, highest_non_null sample_provider 14 first ∧ highest_non_null sample_provider (first - 2) 11.
Proof.
  split; [vm_compute; reflexivity|].
  destruct (next_proposal_spec (E:=Empty_set) sample_provider (mkFinality 10 [0])) as (o & Ho & Hp).
  - exact sample_provider_inv.
  - reflexivity.
  - vm_compute. split; discriminate.
  - vm_compute. discriminate.
  - intros h Hh. apply sample_provider_bounds in Hh. vm_compute proposal_delay. lia.
  - assert (o = Some (mkFinality 11 [11])) as ->.
    { assert (Ok (E:=Empty_set) (Some (mkFinality 11 [11])) = Ok o) as [= <-]; [|reflexivity].
      rewrite <- Ho. vm_compute. reflexivity. }
    destruct (proj1 (Hp _) eq_refl) as (latest & first & pl & Hl & H1 & H2 & _).
    vm_compute in Hl. injection Hl as <-. exists first. split; [exact H1|exact H2].
Defined.

Lemma check_proposal_spec_witness :
  check_proposal (E:=Empty_set) sample_provider (mkFinality 13 [13]) = Ok true ∧
  ∃ b, check_proposal (E:=Empty_set) sample_provider (mkFinality 13 [7]) = Ok b ∧ b = false.
Proof.
  split; [vm_compute; reflexivity|].
  destruct (check_proposal_spec (E:=Empty_set) sample_provider (mkFinality 13 [7]) sample_provider_inv)
    as (b & Hb & _).
  exists b. split; [exact Hb|]. vm_compute in Hb. injection Hb as <-. reflexivity.
Defined.

Lemma proposal_accepted_witness :
  check_proposal (E:=Empty_set) sample_provider (mkFinality 11 [11]) = Ok true.
Proof.
  apply (proposal_accepted (E:=Empty_set) sample_provider sample_provider (mkFinality 10 [0]) (mkFinality 10 [0]));
    [exact sample_provider_inv|reflexivity| |exact sample_provider_inv|reflexivity| | | ].
  - vm_compute. split; discriminate.
  - vm_compute. discriminate.
  - reflexivity.
  - vm_compute. reflexivity.
Defined.

Lemma proposal_delay_wraps_witness :
  proposal_delay (config sample_genesis) = 2 ∧
  propose_next_height (E:=Empty_set) sample_genesis = Ok (Some 1).
Proof.
  split; [reflexivity|].
  apply (proposal_delay_wraps (E:=Empty_set) sample_genesis (mkFinality 0 [0]) 1 1);
    try (vm_compute; first [reflexivity | split; discriminate | discriminate]).
  - apply (sample_views_inv [(1, sample_payload 1)]); [apply sample_new_inv; lia|vm_compute; reflexivity].
  - split; [vm_compute; discriminate|]. split; [exists ([1], [], []); vm_compute; reflexivity|].
    intros k Hk. vm_compute Z.min in Hk. lia.
Defined.

Lemma ensure_sequential_spec_witness :
  ensure_sequential [5; 6; 7] id = Ok tt ∧
  (∀ i first m, head [5; 6; 7] = Some first → [5; 6; 7] !! i = Some m →
     id m = wrap64 (id first + Z.of_nat i)).
Proof.
  split; [vm_compute; reflexivity|].
  apply (ensure_sequential_spec [5; 6; 7] id).
  - intros m Hm. assert (5 <= m <= 7) by (set_unfold in Hm; lia). unfold is_u64, U64_MAX, id. lia.
  - vm_compute. reflexivity.
Defined.
