(* ===== verification/Provider.v ===== *)
(** * The cached finality provider and its toggle ([topdown/src/finality/fetch.rs],
    [toggle.rs], [proxy.rs], [lib.rs])

    [CachedFinalityProvider] answers from the cache of [FinalityWithNull] and
    falls back on queries to the parent, with retries.  [Toggle] is the provider
    that may be switched off.

    The parent is reached through [ParentQueryProxy], whose answers come from
    another chain: a record of functions, one per query, returning the text of the
    error or the answer.  A client that is asked several times is a sequence of
    such records, since every attempt may be answered differently.

    The main theorem is that the messages executed do not depend on what happens
    to be cached: any node whose cache and client are faithful to one parent chain
    gets the messages of that chain. *)

From Stdlib Require Import Ascii String.
From stdpp Require Import base tactics numbers list gmap sorting.
From S2P Require Import Prelude SeqCache IpcApi Finality.

Open Scope Z_scope.

(** ** Null rounds ([lib.rs]) *)

Fixpoint str_contains (needle s : string) : bool :=
  String.prefix needle s ||
  match s with
  | EmptyString => false
  | String _ s' => str_contains needle s'
  end.

Definition NULL_ROUND_ERR_MSG : string := "requested epoch was a null round"%string.
Definition is_null_round_str (s : string) : bool := str_contains NULL_ROUND_ERR_MSG s.
Definition handle_null_round {T} (res : string + T) (d : T) : string + T :=
  match res with
  | inr t => inr t
  | inl e => if is_null_round_str e then inr d else inl e
  end.

(** ** Queries to the parent ([proxy.rs]) *)

Record GetBlockHashResult := mkBlockHashResult { parent_block_hash : bytes; res_block_hash : bytes }.
Record TopDownQueryPayload (T : Type) := mkQueryPayload { query_value : T; query_block_hash : bytes }.
Arguments mkQueryPayload {T} _ _.
Arguments query_value {T} _.
Arguments query_block_hash {T} _.

Record ParentQueryProxy (A : Type) := mkProxy {
  get_chain_head_height : string + Z;
  get_genesis_epoch : string + Z;
  get_block_hash : Z → string + GetBlockHashResult;
  get_top_down_msgs : Z → string + TopDownQueryPayload (list (IpcEnvelope A));
  get_validator_changes : Z → string + TopDownQueryPayload (list (StakingChangeRequest A));
}.
Arguments get_chain_head_height {A} _.
Arguments get_genesis_epoch {A} _.
Arguments get_block_hash {A} _ _.
Arguments get_top_down_msgs {A} _ _.
Arguments get_validator_changes {A} _ _.

(** [IPCProviderProxy] sorts what the node's RPC returns ([raw]) by nonce and by
    configuration number ([slice::sort_by], a stable merge sort). *)
Definition key_le {T} (key : T → Z) (a b : T) : Prop := key a <= key b.
#[export] Instance key_le_dec {T} (key : T → Z) a b : Decision (key_le key a b) :=
  decide (key a <= key b).
Definition sort_by_key {T} (key : T → Z) (l : list T) : list T := merge_sort (key_le key) l.
Definition proxy_get_top_down_msgs {A} (raw : Z → string + TopDownQueryPayload (list (IpcEnvelope A)))
    (h : Z) : string + TopDownQueryPayload (list (IpcEnvelope A)) :=
  match raw h with
  | inl e => inl e
  | inr v => inr (mkQueryPayload (sort_by_key nonce (query_value v)) (query_block_hash v))
  end.
Definition proxy_get_validator_changes {A}
    (raw : Z → string + TopDownQueryPayload (list (StakingChangeRequest A)))
    (h : Z) : string + TopDownQueryPayload (list (StakingChangeRequest A)) :=
  match raw h with
  | inl e => inl e
  | inr v => inr (mkQueryPayload (sort_by_key configuration_number (query_value v)) (query_block_hash v))
  end.

(** The [retry!] macro: attempt [i] is answered by [f i]. *)
Fixpoint retry {T} (retries : nat) (f : nat → string + T) (i : nat) : string + T :=
  match f i with
  | inr t => inr t
  | inl e =>
      if is_null_round_str e then inl e
      else match retries with
           | O => inl e
           | S retries' => retry retries' f (S i)
           end
  end.

(** ** The provider ([fetch.rs]) *)

Section cached_provider.
Context {A : Type}.
Implicit Types (f : FinalityWithNull A) (client : nat → ParentQueryProxy A) (h : Z).

Definition map_value {T} (r : string + TopDownQueryPayload T) : string + T :=
  match r with inl e => inl e | inr v => inr (query_value v) end.

(** The inner query is an [anyhow::Result] that is never an error; an [Err] of
    the parent carries its text. *)
Definition from_result {T} (r : string + T) : outcome string T :=
  match r with inl e => Err e | inr t => Ok t end.

Definition validator_changes f client h : outcome string (list (StakingChangeRequest A)) :=
  r ← validator_changes_at f h;
  match r with
  | Some v => Ok v
  | None =>
      let r := retry (exponential_retry_limit (config f))
                 (λ i, map_value (get_validator_changes (client i) h)) 0 in
      from_result (handle_null_round r [])
  end.

Definition top_down_msgs f client h : outcome string (list (IpcEnvelope A)) :=
  r ← top_down_msgs_at f h;
  match r with
  | Some v => Ok v
  | None =>
      let r := retry (exponential_retry_limit (config f))
                 (λ i, map_value (get_top_down_msgs (client i) h)) 0 in
      from_result (handle_null_round r [])
  end.

(** The heights of [from..=to]. *)
Definition heights (from to : Z) : list Z := seqZ from (to - from + 1).

Fixpoint collect {T} (get : Z → outcome string (list T)) (hs : list Z) : outcome string (list T) :=
  match hs with
  | [] => Ok []
  | h :: hs' => r ← get h; v ← collect get hs'; Ok (r ++ v)
  end.

(** The clients of successive heights are separate sequences of attempts. *)
Definition validator_changes_from f (client : Z → nat → ParentQueryProxy A) (from to : Z) :=
  collect (λ h, validator_changes f (client h) h) (heights from to).
Definition top_down_msgs_from f (client : Z → nat → ParentQueryProxy A) (from to : Z) :=
  collect (λ h, top_down_msgs f (client h) h) (heights from to).
End cached_provider.

(** ** The toggle ([toggle.rs]) *)

Definition Toggle (P : Type) : Type := option P.

Section toggle.
Context {A : Type}.
Implicit Types (t : Toggle (FinalityWithNull A)) (h : Z).

Definition is_enabled {P} (t : Toggle P) : bool := match t with Some _ => true | None => false end.
Definition perform_or_else {P E T} (t : Toggle P) (f : P → outcome E T) (other : T) : outcome E T :=
  match t with Some p => f p | None => Ok other end.
(** The same for a method that changes the provider. *)
Definition perform_update {P E} (t : Toggle P) (f : P → outcome E P) : outcome E (Toggle P) :=
  match t with Some p => p' ← f p; Ok (Some p') | None => Ok None end.

Definition toggled_off : string := "provider is toggled off"%string.
Definition toggle_genesis_epoch t : outcome string Z :=
  match t with Some p => Ok (genesis_epoch p) | None => Err toggled_off end.
Definition toggle_validator_changes_from t client (from to : Z)
    : outcome string (list (StakingChangeRequest A)) :=
  match t with Some p => validator_changes_from p client from to | None => Err toggled_off end.
Definition toggle_top_down_msgs_from t client (from to : Z) : outcome string (list (IpcEnvelope A)) :=
  match t with Some p => top_down_msgs_from p client from to | None => Err toggled_off end.

Definition toggle_next_proposal {E} t : outcome E (option IPCParentFinality) :=
  perform_or_else t next_proposal None.
Definition toggle_check_proposal {E} t p : outcome E bool :=
  perform_or_else t (λ f, check_proposal f p) false.
Definition toggle_set_new_finality {E} t p prev : outcome E (Toggle (FinalityWithNull A)) :=
  perform_update t (λ f, Ok (set_new_finality f p prev)).
Definition toggle_block_hash {E} t h : outcome E (option bytes) :=
  perform_or_else t (λ f, block_hash_at_height f h) None.
Definition toggle_latest_height_in_cache {E} t : outcome E (option Z) :=
  perform_or_else t (λ f, Ok (latest_height_in_cache f)) None.
Definition toggle_latest_height {E} t : outcome E (option Z) :=
  perform_or_else t (λ f, Ok (latest_height f)) None.
Definition toggle_last_committed_finality {E} t : outcome E (option IPCParentFinality) :=
  perform_or_else t (λ f, Ok (last_committed_finality f)) None.
Definition toggle_new_parent_view t h payload : outcome TopdownError (Toggle (FinalityWithNull A)) :=
  perform_update t (λ f, new_parent_view f h payload).
Definition toggle_reset {E} t p : outcome E (Toggle (FinalityWithNull A)) :=
  perform_update t (λ f, Ok (reset f p)).
Definition toggle_cached_blocks {E} t : outcome E Z :=
  perform_or_else t (λ f, Ok (cached_blocks f)) U64_MAX.
Definition toggle_first_non_null_block {E} t h : outcome E (option Z) :=
  perform_or_else t (λ f, first_non_null_block f h) None.
End toggle.

(** ** Facts *)

Section provider_faithful.
Context {A : Type}.
Implicit Types (f : FinalityWithNull A) (client : nat → ParentQueryProxy A) (h : Z).

(** The parent chain: the data of a block, or [None] for a null round. *)
Context (view : Z → option (ParentViewPayload A)).

Definition cache_faithful f : Prop :=
  ∀ h v, to_map (cached_data f) !! h = Some v → v = view h.

(** The answer of a client about a height, in terms of the parent chain. *)
Definition answers {T} (get : ParentViewPayload A → T) h (r : string + T) : Prop :=
  match view h with
  | Some pl => r = inr (get pl)
  | None => ∃ e, r = inl e ∧ is_null_round_str e = true
  end.

(** Within the retry limit, after failures other than null rounds, an attempt is
    answered. *)
Definition eventually_answers {T} (limit : nat) (attempts : nat → string + T)
    (get : ParentViewPayload A → T) h : Prop :=
  ∃ i, (i <= limit)%nat ∧ answers get h (attempts i) ∧
       ∀ j, (j < i)%nat → ∃ e, attempts j = inl e ∧ is_null_round_str e = false.

Lemma retry_answers {T} limit (attempts : nat → string + T) i0 n :
  (n <= limit)%nat →
  (∀ j, (i0 <= j < i0 + n)%nat → ∃ e, attempts j = inl e ∧ is_null_round_str e = false) →
  (∀ e, attempts (i0 + n)%nat = inl e → is_null_round_str e = true) →
  retry limit attempts i0 = attempts (i0 + n)%nat.
Proof.
  revert i0 n. induction limit as [|limit IH]; intros i0 [|n] Hle Hfail Hans; try lia;
    rewrite ?Nat.add_0_r in *; simpl.
  - destruct (attempts i0) as [e|t] eqn:He; [|done]. by rewrite (Hans e eq_refl).
  - destruct (attempts i0) as [e|t] eqn:He; [|done]. by rewrite (Hans e eq_refl).
  - destruct (Hfail i0) as (e & -> & ->); [lia|].
    rewrite (IH (S i0) n); [f_equal; lia|lia|intros; apply Hfail; lia|].
    intros e'. replace (S i0 + n)%nat with (i0 + S n)%nat by lia. apply Hans.
Qed.

Lemma retry_handle_null {T} limit (attempts : nat → string + list T) get h :
  eventually_answers limit attempts get h →
  handle_null_round (retry limit attempts 0) [] =
    inr (match view h with Some pl => get pl | None => [] end).
Proof.
  intros (i & Hle & Hans & Hfail). unfold answers in Hans.
  rewrite (retry_answers limit attempts 0 i); [|done|intros; apply Hfail; lia|].
  - simpl. destruct (view h) as [pl|]; [by rewrite Hans|].
    destruct Hans as (e & -> & He). simpl. by rewrite He.
  - intros e He. simpl in He. destruct (view h) as [pl|]; [congruence|].
    destruct Hans as (e' & He' & Hn). congruence.
Qed.

(** One cached query: [at] is the cache lookup, [attempts] the fallback. *)
Lemma cached_query_faithful {T} f h (get : ParentViewPayload A → list T) attempts :
  provider_inv f → cache_faithful f →
  (to_map (cached_data f) !! h = None →
   eventually_answers (exponential_retry_limit (config f)) attempts get h) →
  (r ← handle_null_block f h get [];
   match r with
   | Some v => Ok v
   | None => from_result (handle_null_round (retry (exponential_retry_limit (config f)) attempts 0) [])
   end) = Ok (match view h with Some pl => get pl | None => [] end).
Proof.
  intros Hf Hcf Hans. unfold handle_null_block. rewrite get_value_inv by done.
  destruct (to_map (cached_data f) !! h) as [v|] eqn:Hv; simpl.
  - by rewrite (Hcf h v Hv).
  - by rewrite (retry_handle_null _ _ get h (Hans eq_refl)).
Qed.

Lemma collect_Ok {T} (get : Z → outcome string (list T)) (val : Z → list T) hs :
  (∀ h, h ∈ hs → get h = Ok (val h)) → collect get hs = Ok (concat (val <$> hs)).
Proof.
  induction hs as [|h hs IH]; intros Hg; simpl; [done|].
  rewrite Hg by left. simpl. rewrite IH; [done|]. intros. apply Hg. by right.
Qed.

Definition data_of {T} (get : ParentViewPayload A → list T) h : list T :=
  match view h with Some pl => get pl | None => [] end.
End provider_faithful.

Section provider_theorems.
Context {A : Type}.
Implicit Types (f : FinalityWithNull A) (client : Z → nat → ParentQueryProxy A).

Lemma queries_faithful (view : Z → option (ParentViewPayload A)) f client from to :
  provider_inv f → cache_faithful view f →
  (∀ h, h ∈ heights from to → to_map (cached_data f) !! h = None →
     eventually_answers view (exponential_retry_limit (config f))
       (λ i, map_value (get_validator_changes (client h i) h)) Finality.validator_changes h ∧
     eventually_answers view (exponential_retry_limit (config f))
       (λ i, map_value (get_top_down_msgs (client h i) h)) topdown_cross_msgs h) →
  validator_changes_from f client from to =
    Ok (concat (data_of view Finality.validator_changes <$> heights from to)) ∧
  top_down_msgs_from f client from to =
    Ok (concat (data_of view topdown_cross_msgs <$> heights from to)).
Proof.
  intros Hf Hcf Hans. split; apply collect_Ok; intros h Hh.
  - apply cached_query_faithful; [done..|]. intros Hn. by apply Hans.
  - apply cached_query_faithful; [done..|]. intros Hn. by apply Hans.
Qed.

(** The data executed for a range of parent heights is that of the parent
    chain, whatever part of it is cached: when the cache agrees with the chain and
    the client answers about the other heights within the retry limit, both
    queries return the chain's messages and validator changes in order of height.
    Two such nodes therefore execute the same ones. *)
Theorem executed_data_faithful (view : Z → option (ParentViewPayload A)) f client from to :
  provider_inv f → cache_faithful view f →
  (∀ h, h ∈ heights from to → to_map (cached_data f) !! h = None →
     eventually_answers view (exponential_retry_limit (config f))
       (λ i, map_value (get_validator_changes (client h i) h)) Finality.validator_changes h ∧
     eventually_answers view (exponential_retry_limit (config f))
       (λ i, map_value (get_top_down_msgs (client h i) h)) topdown_cross_msgs h) →
  validator_changes_from f client from to =
    Ok (concat (data_of view Finality.validator_changes <$> heights from to)) ∧
  top_down_msgs_from f client from to =
    Ok (concat (data_of view topdown_cross_msgs <$> heights from to)).
Proof. apply queries_faithful. Qed.

(** The provider gives up only when every attempt failed: a height that is
    not cached and whose every attempt up to the limit fails with an error other
    than a null round yields the error of the last attempt. *)
Theorem query_fails_after_retries f (cl : nat → ParentQueryProxy A) h (err : nat → string) :
  provider_inv f → to_map (cached_data f) !! h = None →
  (∀ i, (i <= exponential_retry_limit (config f))%nat →
     get_top_down_msgs (cl i) h = inl (err i) ∧ is_null_round_str (err i) = false) →
  top_down_msgs f cl h = Err (err (exponential_retry_limit (config f))).
Proof.
  intros Hf Hn Hfail. unfold top_down_msgs, top_down_msgs_at, handle_null_block.
  rewrite get_value_inv, Hn by done. simpl.
  assert (∀ r i, (i + r = exponential_retry_limit (config f))%nat →
            retry r (λ i, map_value (get_top_down_msgs (cl i) h)) i =
              inl (err (exponential_retry_limit (config f)))) as Hr.
  { induction r as [|r IH]; intros i Hi; simpl;
      destruct (Hfail i) as [-> Hnn]; try lia; simpl; rewrite Hnn.
    - do 2 f_equal. lia.
    - apply IH. lia. }
  rewrite Hr by lia. simpl. by destruct (Hfail (exponential_retry_limit (config f))) as [_ ->].
Qed.

(** Sorting repairs the order: if what the parent returns is some permutation
    of a sequentially numbered list, the list the proxy hands over is that list,
    so it passes the sequence check of the cache. *)
Theorem sort_restores_sequence {T} (key : T → Z) (raw msgs : list T) :
  raw ≡ₚ msgs → (∀ m, m ∈ msgs → is_u64 (key m)) →
  (∀ i m, msgs !! i = Some m → ∀ first, head msgs = Some first → key first + Z.of_nat i <= U64_MAX) →
  ensure_sequential msgs key = Ok tt →
  sort_by_key key raw = msgs.
Proof.
  intros Hperm Hu Hmax Hseq.
  assert (∀ i j x y, msgs !! i = Some x → msgs !! j = Some y → key x - key y = Z.of_nat i - Z.of_nat j)
    as Hkeys.
  { destruct msgs as [|first rest]; [done|]. simpl in Hseq.
    rewrite sequential_from_spec in Hseq by (apply Hu; left).
    assert (∀ i x, (first :: rest) !! i = Some x → key x = key first + Z.of_nat i) as Hk.
    { intros [|i] x Hx; [simpl in Hx; simplify_eq; lia|]. pose proof (Hmax (S i) x Hx first eq_refl).
      rewrite (Hseq i x Hx), wrap64_small; [lia|]. destruct (Hu first ltac:(left)).
      unfold is_u64. lia. }
    intros i j x y Hx Hy. rewrite (Hk i x Hx), (Hk j y Hy). lia. }
  unfold sort_by_key. apply (StronglySorted_unique_strong (key_le key)).
  - intros x y Hx Hy Hxy Hyx. rewrite merge_sort_Permutation, Hperm in Hx.
    apply list_elem_of_lookup_1 in Hx as [i Hi], Hy as [j Hj].
    pose proof (Hkeys i j x y Hi Hj). unfold key_le in *.
    assert (i = j) as -> by lia. congruence.
  - apply StronglySorted_merge_sort; unfold key_le; [|intros ??; lia].
    intros ???; lia.
  - apply StronglySorted_of_lookup. unfold key_le. intros i j x y Hij Hx Hy.
    pose proof (Hkeys i j x y Hx Hy). lia.
  - by rewrite merge_sort_Permutation.
Qed.
End provider_theorems.

(** ** Witnesses: a parent with one message per block and a null round at 12; the
    node has cached height 11, and its client times out once per height. *)
Definition sample_msg (x : Z) : IpcEnvelope IdAddress :=
  mkEnvelope Transfer (mkIPCAddress sample_subnet (mkId 7)) 1 (mkIPCAddress (new_root 123) (mkId 8)) [] x.
Definition sample_chain (h : Z) : option (ParentViewPayload IdAddress) :=
  if h =? 12 then None else Some ([h], [], [sample_msg h]).
Definition timeout_proxy : ParentQueryProxy IdAddress :=
  mkProxy _ (inl "timeout"%string) (inl "timeout"%string) (λ _, inl "timeout"%string)
    (λ _, inl "timeout"%string) (λ _, inl "timeout"%string).
Definition answer {T} (get : ParentViewPayload IdAddress → T) (h : Z) : string + TopDownQueryPayload T :=
  match sample_chain h with
  | Some pl => inr (mkQueryPayload (get pl) (payload_hash pl))
  | None => inl NULL_ROUND_ERR_MSG
  end.
Definition chain_proxy : ParentQueryProxy IdAddress :=
  mkProxy _ (inr 100) (inr 0)
    (λ h, match sample_chain h with
          | Some pl => inr (mkBlockHashResult [] (payload_hash pl))
          | None => inl NULL_ROUND_ERR_MSG
          end)
    (answer topdown_cross_msgs) (answer Finality.validator_changes).
Definition flaky_client (h : Z) (i : nat) : ParentQueryProxy IdAddress :=
  match i with O => timeout_proxy | _ => chain_proxy end.
Definition sample_cached : FinalityWithNull IdAddress := sample_view (sample_new 10) (11, sample_chain 11).

Lemma sample_cached_inv : provider_inv sample_cached.
Proof.
  apply (sample_views_inv [(11, sample_chain 11)]); [apply sample_new_inv; lia|vm_compute; reflexivity].
Qed.
Lemma sample_cached_faithful : cache_faithful sample_chain sample_cached.
Proof.
  intros h v Hv. apply to_map_Some in Hv; [|apply sample_cached_inv].
  apply list_elem_of_singleton in Hv. injection Hv as -> ->. vm_compute. reflexivity.
Qed.

Lemma flaky_client_answers h :
  eventually_answers sample_chain (exponential_retry_limit (config sample_cached))
    (λ i, map_value (get_validator_changes (flaky_client h i) h)) Finality.validator_changes h ∧
  eventually_answers sample_chain (exponential_retry_limit (config sample_cached))
    (λ i, map_value (get_top_down_msgs (flaky_client h i) h)) topdown_cross_msgs h.
Proof.
  split; (exists 1%nat; split; [vm_compute; lia|split; [|intros [|j] Hj; [by exists "timeout"%string|lia]]]);
    unfold answers, flaky_client, chain_proxy, answer; simpl;
    (destruct (sample_chain h) as [pl|]; [done|by exists NULL_ROUND_ERR_MSG]).
Qed.

Lemma executed_data_faithful_witness :
  validator_changes_from sample_cached flaky_client 11 13 = Ok [] ∧
  top_down_msgs_from sample_cached flaky_client 11 13 = Ok [sample_msg 11; sample_msg 13].
Proof.
  apply (executed_data_faithful sample_chain sample_cached flaky_client 11 13);
    [exact sample_cached_inv|exact sample_cached_faithful|].
  intros h _ _. apply flaky_client_answers.
Defined.

Lemma query_fails_after_retries_witness :
  top_down_msgs sample_cached (λ _, timeout_proxy) 12 = Err "timeout"%string.
Proof.
  apply (query_fails_after_retries sample_cached (λ _, timeout_proxy) 12 (λ _, "timeout"%string)).
  - exact sample_cached_inv.
  - vm_compute. reflexivity.
  - intros i _. split; [reflexivity|vm_compute; reflexivity].
Defined.

Lemma sort_restores_sequence_witness :
  sort_by_key nonce [sample_msg 6; sample_msg 5; sample_msg 7] =
    [sample_msg 5; sample_msg 6; sample_msg 7].
Proof.
  apply (sort_restores_sequence nonce).
  - apply Permutation_swap.
  - intros m Hm. assert (5 <= nonce m <= 7) by (set_unfold in Hm; destruct Hm as [->|[->|[->|[]]]]; simpl; lia).
    unfold is_u64, U64_MAX. lia.
  - intros i m Hi first [= <-]. apply lookup_lt_Some in Hi. simpl in *. unfold U64_MAX. lia.
  - vm_compute. reflexivity.
Defined.
