(* ===== verification/Syncer.v ===== *)
(** * The parent syncer ([fendermint/vm/topdown/src/sync])

    [LotusParentSyncer] polls the parent block by block and puts each one, or a
    null round, both into the cache of the finality provider and into the chain of
    the vote tally, in one transaction.

    The correctness theorem runs it against a parent chain given as a function
    from heights to blocks: one call of [sync] brings the cache and the tally to
    the finalized head of that chain (or to the cache limit), with the blocks of
    the chain at every height.  A second theorem shows what happens after the
    reset that follows a reorg. *)

From Stdlib Require Import Ascii String.
From stdpp Require Import base tactics numbers list gmap.
From S2P Require Import Prelude SeqCache Voting IpcApi Finality Provider.

Open Scope Z_scope.

Inductive SyncError :=
| AnyhowError (msg : string)
| SyncTopdown (e : TopdownError).

Record LotusParentSyncer (K A : Type) `{Countable K} := mkSyncer {
  sync_config : Config;
  provider : Toggle (FinalityWithNull A);
  vote_tally : VoteTally K bytes;
  sync_many : bool;
}.
Arguments mkSyncer {K A _ _} _ _ _ _.
Arguments sync_config {K A _ _} _.
Arguments provider {K A _ _} _.
Arguments vote_tally {K A _ _} _.
Arguments sync_many {K A _ _} _.

Section syncer.
Context {K A : Type} `{Countable K}.
Implicit Types (s : LotusParentSyncer K A) (proxy : ParentQueryProxy A) (h : Z).

Definition exceed_cache_size_limit {E} s : outcome E bool :=
  n ← toggle_cached_blocks (provider s);
  Ok (max_cache_blocks (sync_config s) <? n).

Definition latest_cached_data {E} s : outcome E (Z * bytes) :=
  l ← toggle_latest_height (provider s);
  latest ← unwrap l;
  r ← toggle_first_non_null_block (provider s) latest;
  prev_non_null_height ←
    (match r with
     | Some height => Ok height
     | None =>
         c ← toggle_last_committed_finality (provider s);
         p ← unwrap c;
         Ok (height p)
     end);
  o ← toggle_block_hash (provider s) prev_non_null_height;
  hash ← unwrap o;
  Ok (latest, hash).

Definition map_voting_err {T} (r : outcome (VotingError K bytes) T) : outcome TopdownError T :=
  map_err (λ _, NotSequential) r.

(** The transaction of [poll_next]: both updates, or none. *)
Definition commit_view s h (payload : option (ParentViewPayload A))
    : outcome TopdownError (LotusParentSyncer K A) :=
  p ← toggle_new_parent_view (provider s) h payload;
  t ← map_voting_err (add_block (vote_tally s) h (payload_hash <$> payload));
  Ok (mkSyncer (sync_config s) p t (sync_many s)).

Definition cannot_query {T} (what : string) h (r : string + T) : outcome TopdownError T :=
  match r with
  | inl e => Err (CannotQueryParent (what ++ ": " ++ e)%string h)
  | inr t => Ok t
  end.

Definition fetch_data proxy h (hash : bytes) : outcome TopdownError (ParentViewPayload A) :=
  changes ← cannot_query "get_validator_changes"%string h (get_validator_changes proxy h);
  msgs ← cannot_query "get_top_down_msgs"%string h (get_top_down_msgs proxy h);
  if negb (bool_decide (query_block_hash changes = hash)) then Err ParentChainReorgDetected else
  if negb (bool_decide (query_block_hash msgs = hash)) then Err ParentChainReorgDetected else
  Ok (hash, query_value changes, query_value msgs).

Definition poll_next s proxy h (prev_hash : bytes)
    : outcome TopdownError (LotusParentSyncer K A * bytes) :=
  match get_block_hash proxy h with
  | inl e =>
      if is_null_round_str e then
        s' ← commit_view s h None;
        Ok (s', prev_hash)
      else Err (CannotQueryParent ("get_block_hash: " ++ e)%string h)
  | inr res =>
      if negb (bool_decide (parent_block_hash res = prev_hash)) then Err ParentChainReorgDetected else
      pl ← fetch_data proxy h (res_block_hash res);
      s' ← commit_view s h (Some pl);
      Ok (s', payload_hash pl)
  end.

Definition finalized_chain_head s proxy : string + option Z :=
  match get_chain_head_height proxy with
  | inl e => inl e
  | inr head =>
      if head <? chain_head_delay (sync_config s) then inr None
      else inr (Some (head - chain_head_delay (sync_config s))%u64)
  end.

(** The ledger is asked until it has a committed finality: [answers] is what it
    says, and running out of them is still waiting. *)
Fixpoint query_starting_finality (answers : list (string + option IPCParentFinality)) proxy
    : outcome string IPCParentFinality :=
  match answers with
  | [] => Retry
  | inr (Some finality) :: _ =>
      if height finality =? 0 then
        genesis ← from_result (get_genesis_epoch proxy);
        r ← from_result (get_block_hash proxy genesis);
        Ok (mkFinality genesis (res_block_hash r))
      else Ok finality
  | _ :: rest => query_starting_finality rest proxy
  end.

Definition reset_syncer s answers proxy : outcome string (LotusParentSyncer K A) :=
  finality ← query_starting_finality answers proxy;
  p ← toggle_reset (provider s) finality;
  Ok (mkSyncer (sync_config s) p (vote_tally s) (sync_many s)).

(** [self.reset().await]: the syncer after it and the result. *)
Definition run_reset s answers proxy : LotusParentSyncer K A * outcome SyncError unit :=
  match reset_syncer s answers proxy with
  | Ok s' => (s', Ok tt)
  | Err e => (s, Err (AnyhowError e))
  | Retry => (s, Retry)
  | Panic => (s, Panic)
  end.

(** The loop of [sync]; [n] is the number of heights left up to the head, and
    [i] the number of polls made. *)
Fixpoint sync_loop (n : nat) s answers (proxies : nat → ParentQueryProxy A) (i : nat)
    (latest_fetched head : Z) (prev_hash : bytes) : LotusParentSyncer K A * outcome SyncError unit :=
  match n with
  | O => (s, Retry)
  | S n' =>
      match exceed_cache_size_limit s with
      | Ok true => (s, Ok tt)
      | Ok false =>
          match poll_next s (proxies i) (latest_fetched + 1)%u64 prev_hash with
          | Ok (s', hash) =>
              let latest' := (latest_fetched + 1)%u64 in
              if latest' =? head then (s', Ok tt)
              else if negb (sync_many s') then (s', Ok tt)
              else sync_loop n' s' answers proxies (S i) latest' head hash
          | Err ParentChainReorgDetected => run_reset s answers (proxies i)
          | Err e => (s, Err (SyncTopdown e))
          | Retry => (s, Retry)
          | Panic => (s, Panic)
          end
      | Err e => (s, Err e)
      | Retry => (s, Retry)
      | Panic => (s, Panic)
      end
  end.

Definition sync s answers (proxies : nat → ParentQueryProxy A) : LotusParentSyncer K A * outcome SyncError unit :=
  match finalized_chain_head s (proxies 0%nat) with
  | inl e => (s, Err (AnyhowError e))
  | inr None => (s, Ok tt)
  | inr (Some head) =>
      match latest_cached_data s with
      | Ok (latest_fetched, prev_hash) =>
          if head <? latest_fetched then run_reset s answers (proxies 0%nat)
          else if latest_fetched =? head then (s, Ok tt)
          else sync_loop (Z.to_nat (head - latest_fetched)) s answers proxies 0 latest_fetched head prev_hash
      | Err e => (s, Err e)
      | Retry => (s, Retry)
      | Panic => (s, Panic)
      end
  end.

(** [TendermintAwareSyncer::sync]: nothing is done while CometBFT catches up. *)
Definition tendermint_sync (catching_up : string + bool) s answers proxies
    : LotusParentSyncer K A * outcome SyncError unit :=
  match catching_up with
  | inl e => (s, Err (AnyhowError e))
  | inr true => (s, Ok tt)
  | inr false => sync s answers proxies
  end.

(** The transaction of [launch_polling_syncer], before the loop is started. *)
Definition launch_polling_syncer (c : Config) (view_provider : Toggle (FinalityWithNull A))
    (tally : VoteTally K bytes) answers (power_table : list (K * Z)) proxy
    : outcome string (LotusParentSyncer K A) :=
  if negb (is_enabled view_provider) then Err "provider not enabled, enable to run syncer"%string else
  finality ← query_starting_finality answers proxy;
  p ← toggle_set_new_finality view_provider finality None;
  let t := set_finalized tally (height finality) (block_hash finality) in
  let t' := set_power_table t power_table in
  Ok (mkSyncer c p t' true).

(** [fetch_topdown_events]: the blocks of a range that carry something. *)
Fixpoint fetch_topdown_events proxy (hs : list Z) : outcome TopdownError (list (Z * ParentViewPayload A)) :=
  match hs with
  | [] => Ok []
  | h :: rest =>
      match get_block_hash proxy h with
      | inr res =>
          pl ← fetch_data proxy h (res_block_hash res);
          events ← fetch_topdown_events proxy rest;
          Ok (match Finality.validator_changes pl, topdown_cross_msgs pl with
              | [], [] => events
              | _, _ => (h, pl) :: events
              end)
      | inl e =>
          if is_null_round_str e then fetch_topdown_events proxy rest
          else Err (CannotQueryParent ("get_block_hash: " ++ e)%string h)
      end
  end.
End syncer.

Section sync_facts.
Context {K A : Type} `{Countable K}.
Implicit Types (s : LotusParentSyncer K A) (proxy : ParentQueryProxy A) (f : FinalityWithNull A) (h : Z).

(** The parent chain, and a proxy that answers from it. *)
Context (view : Z → option (ParentViewPayload A)).

Definition chain_proxy_ok proxy : Prop :=
  ∀ h, match view h with
       | None => ∃ e, get_block_hash proxy h = inl e ∧ is_null_round_str e = true
       | Some pl =>
           (∃ ph, get_block_hash proxy h = inr (mkBlockHashResult ph (payload_hash pl)) ∧
              ∀ k plk, k < h → view k = Some plk → (∀ j, k < j < h → view j = None) →
                ph = payload_hash plk) ∧
           get_validator_changes proxy h =
             inr (mkQueryPayload (Finality.validator_changes pl) (payload_hash pl)) ∧
           get_top_down_msgs proxy h = inr (mkQueryPayload (topdown_cross_msgs pl) (payload_hash pl)) ∧
           ensure_sequential (topdown_cross_msgs pl) nonce = Ok tt ∧
           ensure_sequential (Finality.validator_changes pl) configuration_number = Ok tt
       end.

(** [hash] is that of the last block at or below [h]. *)
Definition prev_hash_ok h (hash : bytes) : Prop :=
  ∃ k pl, k <= h ∧ view k = Some pl ∧ payload_hash pl = hash ∧ ∀ j, k < j <= h → view j = None.

(** The syncer follows the chain up to [latest]: cache and tally hold its blocks,
    and end at the same height. *)
Record sync_inv s f (latest : Z) : Prop := {
  sync_provider : provider s = Some f;
  sync_provider_inv : provider_inv f;
  sync_faithful : cache_faithful view f;
  sync_latest : latest_height f = Some latest;
  sync_committed : ∃ c pl, last_committed_finality f = Some c ∧ view (height c) = Some pl ∧
    payload_hash pl = block_hash c ∧ ∀ lo, lower_bound (cached_data f) = Some lo → lo <= height c + 1;
  sync_tally : get_max (chain (vote_tally s)) = Some latest;
  sync_chain : ∀ h bh, chain (vote_tally s) !! h = Some bh → bh = payload_hash <$> view h;
}.

Lemma sync_latest_u64 s f latest : sync_inv s f latest → is_u64 latest.
Proof.
  intros [_ Hf _ Hl (c & _ & Hc & _) _ _]. unfold latest_height, latest_height_in_cache in Hl.
  destruct (upper_bound (cached_data f)) as [hi|] eqn:Hhi; simplify_eq.
  - destruct (to_map_upper _ _ (inv_cache f Hf) Hhi) as [v Hv].
    by apply (to_map_u64 _ _ _ (inv_cache f Hf) Hv).
  - rewrite Hc in Hl. simpl in Hl. simplify_eq. by apply (inv_committed f Hf).
Qed.

(** Between the committed height and the latest one, a height without a block in
    the cache is a null round of the chain. *)
Lemma not_cached_null s f latest c h :
  sync_inv s f latest → last_committed_finality f = Some c → height c < h <= latest →
  ¬ non_null f h → view h = None.
Proof.
  intros [_ Hf Hcf Hl (c' & _ & Hc & _ & _ & Hlo) _ _] Hc' Hh Hn. simplify_eq.
  unfold latest_height, latest_height_in_cache in Hl.
  destruct (upper_bound (cached_data f)) as [hi|] eqn:Hhi; simplify_eq.
  2:{ rewrite Hc in Hl. simpl in Hl. simplify_eq. lia. }
  destruct (lower_bound (cached_data f)) as [lo|] eqn:Hlb.
  2:{ apply lower_bound_None, upper_bound_None in Hlb. congruence. }
  specialize (Hlo lo eq_refl).
  destruct (to_map_dense _ lo latest h (inv_cache f Hf) (inv_increment f Hf) Hlb Hhi) as [v Hv]; [lia|].
  rewrite <- (Hcf h v Hv). destruct v as [pl|]; [|done]. destruct Hn. by exists pl.
Qed.

Lemma block_hash_faithful {E} s f latest h pl :
  sync_inv s f latest → non_null f h ∨ (height <$> last_committed_finality f) = Some h →
  view h = Some pl → block_hash_at_height (E:=E) f h = Ok (Some (payload_hash pl)).
Proof.
  intros [_ Hf Hcf _ (c & plc & Hc & Hvc & Hhc & _) _ _] Hcase Hv.
  unfold block_hash_at_height, get_at_height. rewrite Hc in *. simpl in Hcase.
  destruct (height c =? h) eqn:Heq; zbool; [subst h; congruence|].
  destruct Hcase as [[pl' Hpl]|Hx]; [|congruence]. pose proof (Hcf h _ Hpl) as Hv'.
  rewrite get_value_inv, Hpl by done. simpl. congruence.
Qed.

Lemma latest_cached_data_ok {E} s f latest :
  sync_inv s f latest →
  ∃ hash, latest_cached_data (E:=E) s = Ok (latest, hash) ∧ prev_hash_ok latest hash.
Proof.
  intros Hs. pose proof Hs as [Hp Hf Hcf Hl (c & plc & Hc & Hvc & Hhc & Hlo) _ _].
  unfold latest_cached_data. rewrite Hp. simpl. rewrite Hl. simpl.
  destruct (first_non_null_block_cases (E:=E) f latest Hf) as [(h & Hfn & Hle & Hn & Hmax)|[Hfn _]];
    rewrite Hfn; simpl.
  - pose proof Hn as [pl Hpl]. pose proof (Hcf h _ Hpl) as Hv.
    rewrite (block_hash_faithful s f latest h pl) by eauto. simpl.
    exists (payload_hash pl). split; [done|]. exists h, pl. split_and!; try done.
    intros j Hj. eapply not_cached_null; [done..| |by apply Hmax].
    destruct (lower_bound (cached_data f)) as [lo|] eqn:Hlb.
    + pose proof (inv_above f Hf c lo Hc Hlb).
      destruct (upper_bound (cached_data f)) as [hi|] eqn:Hhi.
      * destruct (non_null_bounds f h lo hi Hf Hlb Hhi Hn). lia.
      * apply upper_bound_None, lower_bound_None in Hhi. congruence.
    + apply lower_bound_None in Hlb. by rewrite to_map_empty in Hpl.
  - rewrite Hc. simpl. rewrite (block_hash_faithful s f latest (height c) plc) by (rewrite ?Hc; eauto).
    simpl. exists (payload_hash plc). split; [done|]. exists (height c), plc.
    assert (height c <= latest) as Hcl.
    { unfold latest_height, latest_height_in_cache in Hl.
      destruct (upper_bound (cached_data f)) as [hi|] eqn:Hhi; [|rewrite Hc in Hl; simplify_eq/=; lia].
      destruct (lower_bound (cached_data f)) as [lo|] eqn:Hlb.
      - pose proof (inv_above f Hf c lo Hc Hlb). simplify_eq.
        destruct (bounds_u64 _ lo latest (inv_cache f Hf) Hlb Hhi) as (_ & _ & ?). lia.
      - apply lower_bound_None, upper_bound_None in Hlb. congruence. }
    split_and!; try done. intros j Hj. eapply not_cached_null; [done..|].
    eapply first_non_null_none; [done..|lia].
Qed.

Definition seq_ok (v : option (ParentViewPayload A)) : Prop :=
  match v with
  | Some pl => ensure_sequential (topdown_cross_msgs pl) nonce = Ok tt ∧
               ensure_sequential (Finality.validator_changes pl) configuration_number = Ok tt
  | None => True
  end.

Lemma append_next s f latest v :
  sync_inv s f latest → latest < U64_MAX →
  append (cached_data f) (latest + 1) v = Ok (push_back (cached_data f) (latest + 1) v).
Proof.
  intros Hs Hmax. pose proof (sync_latest_u64 s f latest Hs) as Hu.
  destruct Hs as [_ Hf _ Hl _ _ _]. unfold append, latest_height, latest_height_in_cache in *.
  destruct (upper_bound (cached_data f)) as [hi|]; [|done]. injection Hl as ->.
  rewrite (inv_increment f Hf), add64_small by (unfold is_u64, U64_MAX in *; lia).
  by rewrite Z.eqb_refl.
Qed.

Lemma new_parent_view_next s f latest v :
  sync_inv s f latest → latest < U64_MAX → seq_ok v →
  new_parent_view f (latest + 1) v = Ok (set_cache f (push_back (cached_data f) (latest + 1) v)).
Proof.
  intros Hs Hmax Hv. unfold new_parent_view, parent_block_filled, parent_null_round.
  destruct v as [[[hash changes] msgs]|]; simpl in *.
  - destruct Hv as [Hm Hc]. unfold topdown_cross_msgs, Finality.validator_changes in *. simpl in *.
    assert ((match msgs with [] => Ok tt | _ => ensure_sequential msgs nonce end) = Ok tt) as ->
      by by destruct msgs.
    assert ((match changes with [] => Ok tt | _ => ensure_sequential changes configuration_number end)
            = Ok tt) as -> by by destruct changes.
    simpl. by rewrite (append_next s).
  - by rewrite (append_next s).
Qed.

Lemma cached_below s f latest h v :
  sync_inv s f latest → to_map (cached_data f) !! h = Some v → h <= latest.
Proof.
  intros [_ Hf _ Hl _ _ _] Hv. unfold latest_height, latest_height_in_cache in Hl.
  destruct (lower_bound (cached_data f)) as [lo|] eqn:Hlb.
  - destruct (upper_bound (cached_data f)) as [hi|] eqn:Hhi; simplify_eq.
    + destruct (to_map_bounds _ h v lo latest (inv_cache f Hf) Hlb Hhi Hv). done.
    + apply upper_bound_None, lower_bound_None in Hhi. congruence.
  - apply lower_bound_None in Hlb. by rewrite to_map_empty in Hv.
Qed.
Lemma committed_below s f latest c :
  sync_inv s f latest → last_committed_finality f = Some c → height c <= latest.
Proof.
  intros [_ Hf _ Hl _ _ _] Hc. unfold latest_height, latest_height_in_cache in Hl.
  destruct (upper_bound (cached_data f)) as [hi|] eqn:Hhi; [|rewrite Hc in Hl; simplify_eq/=; lia].
  destruct (lower_bound (cached_data f)) as [lo|] eqn:Hlb.
  - pose proof (inv_above f Hf c lo Hc Hlb). simplify_eq.
    destruct (bounds_u64 _ lo latest (inv_cache f Hf) Hlb Hhi) as (_ & _ & ?). lia.
  - apply lower_bound_None, upper_bound_None in Hlb. congruence.
Qed.

Lemma commit_view_ok s f latest :
  sync_inv s f latest → latest < U64_MAX → seq_ok (view (latest + 1)) →
  ∃ s' f', commit_view s (latest + 1) (view (latest + 1)) = Ok s' ∧ sync_inv s' f' (latest + 1) ∧
    sync_config s' = sync_config s ∧ sync_many s' = sync_many s.
Proof.
  intros Hs Hmax Hseq. pose proof (sync_latest_u64 s f latest Hs) as Hu.
  pose proof (new_parent_view_next s f latest _ Hs Hmax Hseq) as Hnew.
  pose proof (cached_below s f latest) as Hbelow. pose proof (committed_below s f latest) as Hcb.
  pose proof Hs as [Hp Hf Hcf Hl (c & plc & Hc & Hvc & Hhc & Hlo) Ht Hch].
  unfold commit_view, toggle_new_parent_view, perform_update, map_voting_err, add_block.
  rewrite Hp, Hnew, Ht. simpl.
  rewrite add64_small, Z.eqb_refl by (unfold is_u64, U64_MAX in *; lia). simpl.
  eexists _, _. split; [done|]. split; [|done].
  assert (to_map (push_back (cached_data f) (latest + 1) (view (latest + 1))) =
          <[latest + 1 := view (latest + 1)]> (to_map (cached_data f))) as Hmap.
  { apply push_back_to_map. apply to_map_None.
    destruct (to_map (cached_data f) !! (latest + 1)) as [v|] eqn:Hv; [|done].
    specialize (Hbelow _ _ Hs Hv). lia. }
  split; simpl; [done| | | | |by apply get_max_extend|].
  - eapply provider_step_inv; [exact Hf|].
    apply (step_new_parent_view f _ (latest + 1) (view (latest + 1))); [unfold is_u64 in *; lia| |done].
    intros l. rewrite Hl. by intros [= ->].
  - intros h v. simpl. rewrite Hmap. intros [[-> <-]|[_ Hv]]%lookup_insert_Some; [done|]. by apply Hcf.
  - unfold latest_height, latest_height_in_cache. simpl. by rewrite upper_bound_push_back.
  - exists c, plc. split_and!; try done. intros lo. simpl. rewrite lower_bound_push_back. intros [= <-].
    destruct (lower_bound (cached_data f)) as [lo|] eqn:Hlb; simpl; [by apply Hlo|].
    apply lower_bound_None, upper_bound_None in Hlb.
    unfold latest_height, latest_height_in_cache in Hl. rewrite Hlb, Hc in Hl. simplify_eq/=. lia.
  - intros h bh [[-> <-]|[_ Hh]]%lookup_insert_Some; [done|]. by apply Hch.
Qed.

Lemma poll_next_ok s f latest proxy hash :
  sync_inv s f latest → latest < U64_MAX → chain_proxy_ok proxy → prev_hash_ok latest hash →
  ∃ s' f' hash', poll_next s proxy (latest + 1) hash = Ok (s', hash') ∧
    sync_inv s' f' (latest + 1) ∧ prev_hash_ok (latest + 1) hash' ∧
    sync_config s' = sync_config s ∧ sync_many s' = sync_many s.
Proof.
  intros Hs Hmax Hproxy (k & plk & Hk & Hvk & Hhk & Hnull).
  specialize (Hproxy (latest + 1)). unfold poll_next.
  destruct (view (latest + 1)) as [pl|] eqn:Hv.
  - destruct Hproxy as ((ph & -> & Hph) & Hch & Hmsgs & Hs1 & Hs2). simpl.
    rewrite (Hph k plk) by (done || lia || intros; apply Hnull; lia).
    rewrite bool_decide_eq_true_2 by done. simpl.
    unfold fetch_data. rewrite Hch, Hmsgs. simpl. rewrite bool_decide_eq_true_2 by done. simpl.
    destruct (commit_view_ok s f latest Hs Hmax) as (s' & f' & Hcv & Hs' & Hcfg);
      [by rewrite Hv|]. rewrite Hv in Hcv.
    destruct pl as [[hash' changes] msgs]. unfold payload_hash, Finality.validator_changes, topdown_cross_msgs in *.
    simpl in *. rewrite Hcv. simpl. exists s', f', hash'. split_and!; try done; try apply Hcfg.
    exists (latest + 1), (hash', changes, msgs). split_and!; [lia|done..|lia].
  - destruct Hproxy as (e & -> & He). rewrite He.
    destruct (commit_view_ok s f latest Hs Hmax) as (s' & f' & Hcv & Hs' & Hcfg);
      [by rewrite Hv|]. rewrite Hv in Hcv. rewrite Hcv. simpl.
    exists s', f', hash. split_and!; try done; try apply Hcfg.
    exists k, plk. split_and!; [lia|done..|]. intros j Hj.
    destruct (decide (j = latest + 1)) as [->|]; [done|]. apply Hnull. lia.
Qed.
End sync_facts.

Section sync_theorems.
Context {K A : Type} `{Countable K}.
Implicit Types (s : LotusParentSyncer K A) (proxies : nat → ParentQueryProxy A) (f : FinalityWithNull A).

Lemma exceed_cache_size_limit_eq {E} s f :
  provider s = Some f →
  exceed_cache_size_limit (E:=E) s = Ok (max_cache_blocks (sync_config s) <? cached_blocks f).
Proof. unfold exceed_cache_size_limit. by intros ->. Qed.

Lemma sync_loop_ok (view : Z → option (ParentViewPayload A)) answers proxies head n :
  is_u64 head → (∀ i, chain_proxy_ok view (proxies i)) →
  ∀ s f latest hash i,
  sync_inv view s f latest → prev_hash_ok view latest hash →
  0 < head - latest → n = Z.to_nat (head - latest) →
  ∃ s' f' latest', sync_loop n s answers proxies i latest head hash = (s', Ok tt) ∧
    sync_inv view s' f' latest' ∧ latest <= latest' <= head ∧ sync_config s' = sync_config s ∧
    (latest' = head ∨ sync_many s = false ∨ max_cache_blocks (sync_config s) < cached_blocks f').
Proof.
  intros Hhead Hproxies. induction n as [|n IH]; intros s f latest hash i Hs Hprev Hpos Hn; [lia|].
  cbn [sync_loop]. rewrite (exceed_cache_size_limit_eq s f (sync_provider _ _ _ _ Hs)).
  destruct (max_cache_blocks (sync_config s) <? cached_blocks f) eqn:Hex; zbool.
  { exists s, f, latest. split_and!; try done; try lia; auto. }
  pose proof (sync_latest_u64 view s f latest Hs) as Hu.
  rewrite add64_small by (unfold is_u64, U64_MAX in *; lia).
  destruct (poll_next_ok view s f latest (proxies i) hash)
    as (s' & f' & hash' & -> & Hs' & Hprev' & Hcfg & Hmany); try done.
  { unfold is_u64 in *. lia. }
  destruct (latest + 1 =? head) eqn:Htip; zbool.
  { exists s', f', (latest + 1). split_and!; try done; try lia; auto. }
  rewrite Hmany. destruct (sync_many s) eqn:Hsm; simpl.
  - destruct (IH s' f' (latest + 1) hash' (S i) Hs' Hprev') as (s2 & f2 & l2 & Hl & Hs2 & Hb & Hc2 & Hend);
      [lia..|].
    exists s2, f2, l2. rewrite Hl. rewrite Hcfg in *. rewrite Hmany in Hend.
    split_and!; try done; lia.
  - exists s', f', (latest + 1). split_and!; try done; try lia; auto.
Qed.

(** C10. One [sync] follows the parent: if the syncer agrees with the parent chain
    up to some height, and the parent's queries are answered from that chain, then
    [sync] succeeds, cache and tally still hold exactly the blocks of the chain and
    end at the same height, and that height is the finalized head unless the cache
    limit was reached or one block at a time was asked for. *)
Theorem sync_follows_parent (view : Z → option (ParentViewPayload A)) s f latest answers proxies chain_head :
  sync_inv view s f latest → (∀ i, chain_proxy_ok view (proxies i)) →
  get_chain_head_height (proxies 0%nat) = inr chain_head →
  is_u64 chain_head → 0 <= chain_head_delay (sync_config s) →
  latest <= chain_head - chain_head_delay (sync_config s) →
  ∃ s' f' latest', sync s answers proxies = (s', Ok tt) ∧ sync_inv view s' f' latest' ∧
    latest <= latest' <= chain_head - chain_head_delay (sync_config s) ∧
    (latest' = chain_head - chain_head_delay (sync_config s) ∨ sync_many s = false ∨
     max_cache_blocks (sync_config s) < cached_blocks f').
Proof.
  intros Hs Hproxies Hhead Hu Hd Hle. pose proof (sync_latest_u64 view s f latest Hs) as Hul.
  unfold sync, finalized_chain_head. rewrite Hhead.
  rewrite (proj2 (Z.ltb_ge _ _)) by (unfold is_u64 in *; lia).
  rewrite sub64_small by (unfold is_u64 in *; lia).
  destruct (latest_cached_data_ok (E:=SyncError) view s f latest Hs) as (hash & -> & Hprev).
  rewrite (proj2 (Z.ltb_ge _ _)) by lia.
  destruct (latest =? _) eqn:Heq; zbool.
  { exists s, f, latest. split_and!; try done; try lia; auto. }
  destruct (sync_loop_ok view answers proxies (chain_head - chain_head_delay (sync_config s))
              (Z.to_nat (chain_head - chain_head_delay (sync_config s) - latest)))
    with (s:=s) (f:=f) (latest:=latest) (hash:=hash) (i:=0%nat)
    as (s' & f' & l' & Hl & Hs' & Hb & _ & Hend); try done; try (unfold is_u64 in *; lia).
  exists s', f', l'. by split_and!; try apply Hb.
Qed.

Lemma launch_sync_inv (view : Z → option (ParentViewPayload A)) c genesis answers pt proxy
    finality pl (s : LotusParentSyncer K A) :
  query_starting_finality answers proxy = Ok finality → is_u64 (height finality) →
  view (height finality) = Some pl → payload_hash pl = block_hash finality →
  launch_polling_syncer c (Some (Finality.new c genesis None)) Voting.empty answers pt proxy = Ok s →
  ∃ f, sync_inv view s f (height finality).
Proof.
  intros Hq Hu Hv Hh. unfold launch_polling_syncer. simpl. rewrite Hq. simpl. intros [= <-].
  eexists. split; simpl; try done.
  - eapply provider_step_inv; [|by apply (step_set_new_finality _ finality None)].
    by apply (new_provider_inv c genesis None).
  - exists finality, pl. by split_and!.
  - rewrite split_right_empty, insert_empty. apply get_max_singleton.
  - intros h bh. rewrite split_right_empty, insert_empty.
    intros [<- <-]%lookup_singleton_Some. by rewrite Hv, <- Hh.
Qed.

(** Launching establishes the agreement: after the launch transaction on a
    fresh provider and an empty tally, cache and tally start at the finality the
    ledger committed. *)
Theorem launch_establishes_sync (view : Z → option (ParentViewPayload A)) c genesis answers pt proxy
    finality pl (s : LotusParentSyncer K A) :
  query_starting_finality answers proxy = Ok finality → is_u64 (height finality) →
  view (height finality) = Some pl → payload_hash pl = block_hash finality →
  launch_polling_syncer c (Some (Finality.new c genesis None)) Voting.empty answers pt proxy = Ok s →
  ∃ f, sync_inv view s f (height finality).
Proof. apply launch_sync_inv. Qed.

Lemma poll_next_misaligned s proxy h hash m s' hash' :
  get_max (chain (vote_tally s)) = Some m → h ≠ (m + 1)%u64 →
  poll_next s proxy h hash ≠ Ok (s', hash').
Proof.
  intros Hm Hne.
  assert (∀ pl s2, commit_view s h pl ≠ Ok s2) as Hcv.
  { intros pl s2. unfold commit_view. destruct (toggle_new_parent_view _ _ _); simpl; try done.
    unfold map_voting_err, add_block. rewrite Hm, (proj2 (Z.eqb_neq _ _)) by done. done. }
  unfold poll_next. destruct (get_block_hash proxy h) as [e|res].
  - destruct (is_null_round_str e); [|done]. destruct (commit_view s h None) eqn:Hc; simpl; try done.
    by apply Hcv in Hc.
  - destruct (negb _); [done|]. destruct (fetch_data _ _ _) as [pl| | |]; simpl; try done.
    destruct (commit_view s h (Some pl)) eqn:Hc; simpl; try done. by apply Hcv in Hc.
Qed.

Lemma run_reset_cases s f answers proxy s' r :
  provider s = Some f → run_reset s answers proxy = (s', r) →
  vote_tally s' = vote_tally s ∧ (s' = s ∨ ∃ p, provider s' = Some (reset f p)).
Proof.
  intros Hp. unfold run_reset, reset_syncer. rewrite Hp. simpl.
  destruct (query_starting_finality answers proxy); simpl; intros [= <- <-]; eauto.
Qed.

(** After a reorg the syncer does not recover by itself: [reset] empties the
    cache and goes back to the committed height, but leaves the tally's chain as
    it was, so from then on [sync] adds no block, whatever the parent answers, as
    long as the tally is ahead of the committed finality. *)
Theorem reset_leaves_syncer_stuck s f m p answers proxy s1 answers' proxies s2 r :
  provider s = Some f → get_max (chain (vote_tally s)) = Some m → is_u64 m → m < U64_MAX →
  query_starting_finality answers proxy = Ok p → is_u64 (height p) → height p < m →
  run_reset s answers proxy = (s1, Ok tt) →
  sync s1 answers' proxies = (s2, r) →
  vote_tally s2 = vote_tally s ∧
  ∃ f2, provider s2 = Some f2 ∧ cached_blocks f2 = 0.
Proof.
  intros Hp Hm Hum Hmm Hq Hup Hlt Hreset. unfold run_reset, reset_syncer in Hreset.
  rewrite Hq, Hp in Hreset. simpl in Hreset. injection Hreset as <-.
  set (s1 := mkSyncer _ _ _ _).
  assert (∀ pr s' r', run_reset s1 answers' pr = (s', r') →
    vote_tally s' = vote_tally s ∧ ∃ f2, provider s' = Some f2 ∧ cached_blocks f2 = 0) as Hrr.
  { intros pr s' r' Hr. destruct (run_reset_cases s1 (reset f p) answers' pr s' r') as [Ht [->|[p' Hp']]];
      [done..| |]; split; try done; eexists; split; done. }
  assert (vote_tally s1 = vote_tally s ∧ ∃ f2, provider s1 = Some f2 ∧ cached_blocks f2 = 0) as Hs1
    by (split; [done|by eexists]).
  unfold sync. destruct (finalized_chain_head s1 (proxies 0%nat)) as [e|[head|]]; [by intros [= <- <-]| |by intros [= <- <-]].
  assert (latest_cached_data (E:=SyncError) s1 = Ok (height p, block_hash p)) as ->.
  { unfold latest_cached_data. simpl. unfold block_hash_at_height. simpl. by rewrite Z.eqb_refl. }
  destruct (head <? height p); [by apply Hrr|].
  destruct (height p =? head); [by intros [= <- <-]|].
  destruct (Z.to_nat (head - height p)) as [|n]; [by intros [= <- <-]|]. cbn [sync_loop].
  rewrite (exceed_cache_size_limit_eq s1 (reset f p)) by done.
  destruct (_ <? _); [by intros [= <- <-]|].
  destruct (poll_next s1 (proxies 0%nat) (height p + 1)%u64 (block_hash p)) as [[s' h']|[]| |] eqn:Hpoll;
    try by intros [= <- <-].
  - apply (poll_next_misaligned s1 _ _ _ m) in Hpoll; [done|done|].
    rewrite !add64_small by (unfold is_u64, U64_MAX in *; lia). lia.
  - apply Hrr.
Qed.
End sync_theorems.

(** ** Witnesses: the parent chain of [Provider.sample_chain], head at 20 *)

Definition linked_proxy : ParentQueryProxy IdAddress :=
  mkProxy _ (inr 20) (inr 0)
    (λ h, match sample_chain h with
          | Some pl => inr (mkBlockHashResult (if h =? 13 then [11] else [h - 1]) (payload_hash pl))
          | None => inl NULL_ROUND_ERR_MSG
          end)
    (answer topdown_cross_msgs) (answer Finality.validator_changes).
Definition ledger_answers : list (string + option IPCParentFinality) :=
  [inr None; inl "not ready"%string; inr (Some (mkFinality 10 [10]))].
Definition sample_config : Config := new_config 5 10 10 3.
Definition launched : outcome string (LotusParentSyncer Z IdAddress) :=
  launch_polling_syncer sample_config (Some (Finality.new sample_config 0 None)) Voting.empty
    ledger_answers [(1, 1)] linked_proxy.
Definition ok_syncer (r : outcome string (LotusParentSyncer Z IdAddress)) : LotusParentSyncer Z IdAddress :=
  match r with Ok s => s | _ => mkSyncer sample_config None Voting.empty true end.
Definition sample_syncer : LotusParentSyncer Z IdAddress := ok_syncer launched.

Lemma linked_proxy_ok : chain_proxy_ok sample_chain linked_proxy.
Proof.
  intros h. unfold linked_proxy, answer, sample_chain. simpl.
  destruct (h =? 12) eqn:Hh; simpl; zbool.
  - eexists. split; [reflexivity|vm_compute; reflexivity].
  - split_and!; try reflexivity. eexists. split; [reflexivity|].
    intros k plk Hk Hvk Hbetween. destruct (k =? 12) eqn:Hk12; [done|]. simplify_eq. zbool.
    unfold payload_hash. simpl. destruct (decide (k = h - 1)) as [->|Hne].
    + by rewrite (proj2 (Z.eqb_neq h 13)) by lia.
    + specialize (Hbetween (h - 1) ltac:(lia)) as Hprev. destruct (h - 1 =? 12) eqn:Hp; [|done]. zbool.
      assert (h = 13) as -> by lia. simpl. f_equal. destruct (decide (k = 11)) as [->|]; [done|].
      specialize (Hbetween 11 ltac:(lia)). done.
Qed.
Lemma sample_syncer_inv : ∃ f, sync_inv sample_chain sample_syncer f 10.
Proof.
  apply (launch_sync_inv sample_chain sample_config 0 ledger_answers [(1, 1)] linked_proxy
           (mkFinality 10 [10]) ([10], [], [sample_msg 10])); try (vm_compute; reflexivity).
  vm_compute. split; discriminate.
Qed.

Lemma launch_establishes_sync_witness : ∃ f, sync_inv sample_chain sample_syncer f 10.
Proof.
  apply (launch_establishes_sync sample_chain sample_config 0 ledger_answers [(1, 1)] linked_proxy
           (mkFinality 10 [10]) ([10], [], [sample_msg 10])); try (vm_compute; reflexivity).
  vm_compute. split; discriminate.
Defined.

Lemma sync_follows_parent_witness :
  latest_height_in_cache <$> provider (sync sample_syncer [] (λ _, linked_proxy)).1 = Some (Some 15) ∧
  ∃ s' f' latest', sync sample_syncer [] (λ _, linked_proxy) = (s', Ok tt) ∧
    sync_inv sample_chain s' f' latest'.
Proof.
  split; [vm_compute; reflexivity|]. destruct sample_syncer_inv as [f Hf].
  destruct (sync_follows_parent sample_chain sample_syncer f 10 [] (λ _, linked_proxy) 20)
    as (s' & f' & l' & Hs & Hi & _).
  - exact Hf.
  - intros i. exact linked_proxy_ok.
  - reflexivity.
  - vm_compute. split; discriminate.
  - vm_compute. discriminate.
  - vm_compute. discriminate.
  - exists s', f', l'. split; [exact Hs|exact Hi].
Defined.

(** The syncer above, at height 15, sees a reorg and is reset to the committed
    height 10. *)
Definition synced : LotusParentSyncer Z IdAddress := (sync sample_syncer [] (λ _, linked_proxy)).1.
Definition synced_provider : FinalityWithNull IdAddress :=
  match provider synced with Some f => f | None => Finality.new sample_config 0 None end.
Lemma reset_leaves_syncer_stuck_witness :
  vote_tally (sync (run_reset synced ledger_answers linked_proxy).1 [] (λ _, linked_proxy)).1 =
    vote_tally synced.
Proof.
  apply (reset_leaves_syncer_stuck synced synced_provider 15 (mkFinality 10 [10])
           ledger_answers linked_proxy (run_reset synced ledger_answers linked_proxy).1
           [] (λ _, linked_proxy)
           (sync (run_reset synced ledger_answers linked_proxy).1 [] (λ _, linked_proxy)).1
           (sync (run_reset synced ledger_answers linked_proxy).1 [] (λ _, linked_proxy)).2);
    try (vm_compute; first [reflexivity | split; discriminate]).
Defined.
