(* ===== verification/CetfActor.v ===== *)
(** * The CETF actor ([fendermint/actors/cetf/src])

    The actor keeps the tags scheduled for signing, by block height, the BLS keys
    the validators registered, and the aggregated signatures, by tag.  Contracts
    enqueue tags; the system actor enables the actor and stores signatures.

    A HAMT in the blockstore is the finite map it stores, so the [Cid] fields of
    the state hold maps.  The runtime is a record of what the methods read from it:
    the caller (an ID address, which the VM guarantees), the current epoch and the
    delegated address of an actor.  Keccak-256 and SHA-256 are parameters. *)

From Stdlib Require Import Ascii String.
From stdpp Require Import base tactics numbers list gmap.
From S2P Require Import Prelude.

Open Scope Z_scope.

(** ** Data ([shared.rs]) *)

Notation Tag := (list Z) (only parsing).
Notation BlsPublicKey := (list Z) (only parsing).
Notation BlsSignature := (list Z) (only parsing).

Definition TAG_LEN : nat := 32.
Definition BLS_PUBLIC_KEY_LEN : nat := 48.
Definition BLS_SIGNATURE_LEN : nat := 96.

(** [buf.copy_from_slice(&bytes)] into an array of [n] bytes. *)
Definition copy_from_slice {E} (n : nat) (b : bytes) : outcome E bytes :=
  if decide (length b = n) then Ok b else Panic.
Definition tag_from_bytes {E} (b : bytes) : outcome E Tag := copy_from_slice TAG_LEN b.

Record AddValidatorParams (A : Type) := mkAddValidator { av_address : A; av_public_key : BlsPublicKey }.
Arguments mkAddValidator {A} _ _.
Arguments av_address {A} _.
Arguments av_public_key {A} _.
Record AddSignedTagParams := mkAddSignedTag { ast_height : Z; ast_signature : BlsSignature }.

Inductive Method (A : Type) :=
| Constructor
| Echo
| EnqueueTag (tag : Tag)
| GetTag (height : Z)
| AddValidator (params : AddValidatorParams A)
| Enable
| Disable
| AddSignedTag (params : AddSignedTagParams).
Arguments Constructor {A}.
Arguments Echo {A}.
Arguments EnqueueTag {A} _.
Arguments GetTag {A} _.
Arguments AddValidator {A} _.
Arguments Enable {A}.
Arguments Disable {A}.
Arguments AddSignedTag {A} _.

Inductive ActorError :=
| Forbidden (caller : Z)
| AssertionFailed (msg : string)
| IllegalState (msg : string).

(** What a method returns besides the state. *)
Inductive Return := RetUnit | RetEpoch (epoch : Z).

Record Runtime := mkRuntime {
  caller : Z;
  curr_epoch : Z;
  lookup_delegated_address : Z → option bytes;
}.

Definition SYSTEM_ACTOR_ID : Z := 0.

(** ** State ([state.rs]) *)

Record State (A : Type) `{Countable A} := mkState {
  tag_map : gmap Z Tag;
  validators : gmap A BlsPublicKey;
  enabled : bool;
  signed_hashed_tags : gmap Tag BlsSignature;
}.
Arguments mkState {A _ _} _ _ _ _.
Arguments tag_map {A _ _} _.
Arguments validators {A _ _} _.
Arguments enabled {A _ _} _.
Arguments signed_hashed_tags {A _ _} _.

Section actor.
Context {A : Type} `{Countable A}.
Context (keccak256 sha256 : bytes → bytes).
Implicit Types (st : State A) (rt : Runtime).

Definition new : State A := mkState ∅ ∅ false ∅.

Definition state_add_validator st (address : A) (public_key : BlsPublicKey) : State A :=
  mkState (tag_map st) (<[address := public_key]> (validators st)) (enabled st) (signed_hashed_tags st).

Definition add_tag_at_height st (height : Z) (tag : Tag) : State A :=
  mkState (<[height := tag]> (tag_map st)) (validators st) (enabled st) (signed_hashed_tags st).

Definition get_tag_at_height st (height : Z) : option Tag := tag_map st !! height.

Definition get_validators_keymap st : gmap A BlsPublicKey := validators st.

Definition add_signed_and_hashed_tag st (tag : Tag) (signature : BlsSignature) : State A :=
  mkState (tag_map st) (validators st) (enabled st) (<[tag := signature]> (signed_hashed_tags st)).

Definition add_signed_tag_at_height st (height : Z) (signature : BlsSignature)
    : outcome ActorError (State A) :=
  tag ← ok_or (IllegalState "Tag not found at height") (get_tag_at_height st height);
  Ok (add_signed_and_hashed_tag st tag signature).

Definition add_signed_blockheight_tag_at_height st (height : Z) (signature : BlsSignature) : State A :=
  add_signed_and_hashed_tag st (sha256 (to_be_bytes height)) signature.

Definition set_enabled st (b : bool) : State A :=
  mkState (tag_map st) (validators st) b (signed_hashed_tags st).

(** ** Methods ([actor.rs]) *)

Definition validate_caller_is_system rt : outcome ActorError unit :=
  if caller rt =? SYSTEM_ACTOR_ID then Ok tt else Err (Forbidden (caller rt)).

Definition constructor rt : outcome ActorError (State A) :=
  _ ← validate_caller_is_system rt;
  Ok new.

(** The address of the calling contract: the payload without the namespace. *)
Definition calling_eth_address rt : outcome ActorError bytes :=
  calling_contract ← ok_or (AssertionFailed "No delegated address for caller")
                       (lookup_delegated_address rt (caller rt));
  match calling_contract with
  | [] => Panic
  | _ :: eth => if decide (length eth = 20%nat) then Ok eth else Panic
  end.

Definition signing_tag (eth : bytes) (tag : Tag) : outcome ActorError Tag :=
  copy_from_slice TAG_LEN (keccak256 (eth ++ tag)).

Definition enqueue_tag rt st (tag : Tag) : outcome ActorError (State A * Z) :=
  eth ← calling_eth_address rt;
  stag ← signing_tag eth tag;
  let scheduled_epoch := i64_as_u64 (curr_epoch rt + 2) in
  Ok (if enabled st then add_tag_at_height st scheduled_epoch stag else st, scheduled_epoch).

Definition get_tag st (height : Z) : outcome ActorError unit :=
  let _ := get_tag_at_height st height in Ok tt.

Definition enable rt st : outcome ActorError (State A) :=
  _ ← validate_caller_is_system rt;
  Ok (set_enabled st true).

Definition disable rt st : outcome ActorError (State A) :=
  _ ← validate_caller_is_system rt;
  Ok (set_enabled st false).

Definition add_validator st (params : AddValidatorParams A) : outcome ActorError (State A) :=
  Ok (state_add_validator st (av_address params) (av_public_key params)).

Definition add_signed_tag rt st (params : AddSignedTagParams) : outcome ActorError (State A) :=
  _ ← validate_caller_is_system rt;
  add_signed_tag_at_height st (ast_height params) (ast_signature params).

(** Dispatch on an actor whose state exists; [rt.create] refuses a second
    state. *)
Definition invoke_method rt st (m : Method A) : outcome ActorError (State A * Return) :=
  let unit_ret r := st' ← r; Ok (st', RetUnit) in
  match m with
  | Constructor =>
      _ ← validate_caller_is_system rt;
      Err (IllegalState "failed to create state; expected empty array CID")
  | Echo => Ok (st, RetUnit)
  | EnqueueTag tag => '(st', epoch) ← enqueue_tag rt st tag; Ok (st', RetEpoch epoch)
  | GetTag height => _ ← get_tag st height; Ok (st, RetUnit)
  | Enable => unit_ret (enable rt st)
  | AddValidator params => unit_ret (add_validator st params)
  | Disable => unit_ret (disable rt st)
  | AddSignedTag params => unit_ret (add_signed_tag rt st params)
  end.
End actor.

Section actor_facts.
Context {A : Type} `{Countable A}.
Context (keccak256 : bytes → bytes).
Implicit Types (st : State A) (rt : Runtime) (m : Method A) (tr : list (Runtime * Method A)).

(** The histories of the actor, latest call first.  A call that fails is rolled
    back by the VM and leaves no trace. *)
Inductive run : list (Runtime * Method A) → State A → Prop :=
| run_constructor rt st : constructor rt = Ok st → run [] st
| run_call tr st st' rt m ret :
    run tr st → invoke_method keccak256 rt st m = Ok (st', ret) → run ((rt, m) :: tr) st'.

Lemma validate_system rt : validate_caller_is_system rt = Ok tt ↔ caller rt = SYSTEM_ACTOR_ID.
Proof. unfold validate_caller_is_system. destruct (caller rt =? _) eqn:E; zbool; naive_solver. Qed.
Lemma validate_system_bind {B} rt (k : unit → outcome ActorError B) b :
  (validate_caller_is_system rt ≫= k) = Ok b → caller rt = SYSTEM_ACTOR_ID ∧ k tt = Ok b.
Proof. unfold validate_caller_is_system. destruct (caller rt =? _) eqn:E; zbool; simpl; naive_solver. Qed.

(** What a successful call does to the state. *)
Lemma invoke_method_cases rt st m st' ret :
  invoke_method keccak256 rt st m = Ok (st', ret) →
  match m with
  | Constructor => False
  | Echo | GetTag _ => st' = st ∧ ret = RetUnit
  | EnqueueTag tag =>
      ∃ eth stag, calling_eth_address rt = Ok eth ∧ signing_tag keccak256 eth tag = Ok stag ∧
        ret = RetEpoch (i64_as_u64 (curr_epoch rt + 2)) ∧
        st' = if enabled st then add_tag_at_height st (i64_as_u64 (curr_epoch rt + 2)) stag else st
  | AddValidator p => st' = state_add_validator st (av_address p) (av_public_key p) ∧ ret = RetUnit
  | Enable => caller rt = SYSTEM_ACTOR_ID ∧ st' = set_enabled st true ∧ ret = RetUnit
  | Disable => caller rt = SYSTEM_ACTOR_ID ∧ st' = set_enabled st false ∧ ret = RetUnit
  | AddSignedTag p =>
      caller rt = SYSTEM_ACTOR_ID ∧ ret = RetUnit ∧
      ∃ tag, get_tag_at_height st (ast_height p) = Some tag ∧
             st' = add_signed_and_hashed_tag st tag (ast_signature p)
  end.
Proof.
  unfold invoke_method. destruct m as [| |tag|h|p| | |p].
  - by intros [_ ?]%validate_system_bind.
  - by intros [= <- <-].
  - unfold enqueue_tag. destruct (calling_eth_address rt) as [eth| | |]; simpl; try done.
    destruct (signing_tag keccak256 eth tag) as [stag| | |] eqn:Hs; simpl; try done.
    intros [= <- <-]. exists eth, stag. split_and!; done.
  - unfold get_tag. simpl. by intros [= <- <-].
  - simpl. by intros [= <- <-].
  - unfold enable, validate_caller_is_system.
    destruct (caller rt =? _) eqn:E; zbool; simpl; naive_solver.
  - unfold disable, validate_caller_is_system.
    destruct (caller rt =? _) eqn:E; zbool; simpl; naive_solver.
  - unfold add_signed_tag, validate_caller_is_system.
    destruct (caller rt =? _) eqn:E; zbool; simpl; [|done].
    unfold add_signed_tag_at_height. destruct (get_tag_at_height st _) eqn:Ht; simpl; [|done].
    intros [= <- <-]. eauto 10.
Qed.

(** A tag is enqueued by a call of the history. *)
Definition enqueued tr (height : Z) (stag : Tag) : Prop :=
  ∃ rt tag eth, (rt, EnqueueTag tag) ∈ tr ∧ calling_eth_address rt = Ok eth ∧
    signing_tag keccak256 eth tag = Ok stag ∧ height = i64_as_u64 (curr_epoch rt + 2).
Lemma enqueued_cons tr e h stag : enqueued tr h stag → enqueued (e :: tr) h stag.
Proof. intros (rt & tag & eth & Hin & Hrest). exists rt, tag, eth. split; [by right|done]. Qed.

Lemma run_tag_map tr st : run tr st → ∀ h stag, tag_map st !! h = Some stag → enqueued tr h stag.
Proof.
  induction 1 as [rt st Hc|tr st st' rt m ret Hrun IH Hcall]; intros h stag Hst.
  - apply validate_system_bind in Hc as [_ [= <-]]. done.
  - apply invoke_method_cases in Hcall. destruct m as [| |tag|h'|p| | |p]; try naive_solver eauto using enqueued_cons.
    destruct Hcall as (eth & stag' & Heth & Hs & _ & ->).
    destruct (enabled st); [|eauto using enqueued_cons].
    simpl in Hst. apply lookup_insert_Some in Hst as [[<- <-]|[_ Hst]]; [|eauto using enqueued_cons].
    exists rt, tag, eth. split; [by left|done].
Qed.
End actor_facts.

Section actor_theorems.
Context {A : Type} `{Countable A}.
Context (keccak256 : bytes → bytes).
Implicit Types (st : State A) (rt : Runtime) (m : Method A) (tr : list (Runtime * Method A)).

(** Only the system actor can switch the actor on or off or store a
    signature: a call by anyone else leaves both unchanged, or fails. *)
Theorem only_system_signs_and_enables rt st m st' ret :
  caller rt ≠ SYSTEM_ACTOR_ID → invoke_method keccak256 rt st m = Ok (st', ret) →
  enabled st' = enabled st ∧ signed_hashed_tags st' = signed_hashed_tags st.
Proof.
  intros Hne Hc%invoke_method_cases. destruct m as [| |tag|h|p| | |p]; try naive_solver.
  destruct Hc as (eth & stag & _ & _ & _ & ->). by destruct (enabled st) eqn:Hen; simpl; rewrite ?Hen.
Qed.

(** C32. Provenance of signatures: a signature stored for a tag was put there by
    the system actor, and the tag is the Keccak digest of the address of a
    contract and of the data it enqueued earlier, at the height the signature was
    submitted for. *)
Theorem signed_tag_provenance tr st tag sig :
  run keccak256 tr st → signed_hashed_tags st !! tag = Some sig →
  ∃ rt p, (rt, AddSignedTag p) ∈ tr ∧ caller rt = SYSTEM_ACTOR_ID ∧ ast_signature p = sig ∧
          enqueued keccak256 tr (ast_height p) tag.
Proof.
  intros Hrun. revert tag sig.
  induction Hrun as [rt st Hc|tr st st' rt m ret Hrun IH Hcall]; intros tag sig Hst.
  { apply validate_system_bind in Hc as [_ [= <-]]. done. }
  assert (signed_hashed_tags st !! tag = Some sig →
    ∃ rt' p, (rt', AddSignedTag p) ∈ (rt, m) :: tr ∧ caller rt' = SYSTEM_ACTOR_ID ∧ ast_signature p = sig ∧
          enqueued keccak256 ((rt, m) :: tr) (ast_height p) tag) as Hold.
  { intros (rt' & p & Hin & ? & ? & Henq)%IH. exists rt', p.
    split_and!; [by right|done..|by apply enqueued_cons]. }
  apply invoke_method_cases in Hcall. destruct m as [| |t|h|p| | |p]; try naive_solver.
  - destruct Hcall as (eth & stag & _ & _ & _ & ->). apply Hold. by destruct (enabled st).
  - destruct Hcall as (Hsys & _ & tag' & Htag & ->). simpl in Hst.
    apply lookup_insert_Some in Hst as [[<- <-]|[_ Hst]]; [|by apply Hold].
    exists rt, p. split_and!; [by left|done..|]. apply enqueued_cons. by eapply run_tag_map.
Qed.

(** Scheduling: with the actor enabled, a tag enqueued in epoch [e] can be
    read at height [e + 2], the height returned, and every other height keeps its
    tag.  With the actor disabled nothing is scheduled, yet the same height is
    returned. *)
Theorem enqueue_tag_schedules rt st tag eth stag :
  calling_eth_address rt = Ok eth → signing_tag keccak256 eth tag = Ok stag →
  0 <= curr_epoch rt < 2 ^ 63 - 2 →
  ∃ st', enqueue_tag keccak256 rt st tag = Ok (st', curr_epoch rt + 2) ∧
    (∀ h, get_tag_at_height st' h =
       if enabled st && (h =? curr_epoch rt + 2) then Some stag else get_tag_at_height st h).
Proof.
  intros Heth Hs He. unfold enqueue_tag. rewrite Heth. simpl. rewrite Hs. simpl.
  unfold i64_as_u64. rewrite wrap64_small by (unfold is_u64, U64_MAX; lia).
  eexists. split; [done|]. intros h. destruct (enabled st); [|done]. simpl. unfold get_tag_at_height. simpl.
  destruct (h =? curr_epoch rt + 2) eqn:Hh; zbool; [subst; by rewrite lookup_insert_eq|].
  by rewrite lookup_insert_ne.
Qed.

(** One tag per block: of two tags enqueued in the same epoch only the second
    is kept, so the first is never signed, although its caller got the height. *)
Theorem second_enqueue_overwrites rt1 rt2 st st1 st2 t1 t2 e1 e2 eth2 stag2 :
  enabled st = true → curr_epoch rt1 = curr_epoch rt2 →
  calling_eth_address rt2 = Ok eth2 → signing_tag keccak256 eth2 t2 = Ok stag2 →
  enqueue_tag keccak256 rt1 st t1 = Ok (st1, e1) → enqueue_tag keccak256 rt2 st1 t2 = Ok (st2, e2) →
  e1 = e2 ∧ get_tag_at_height st2 e1 = Some stag2.
Proof.
  intros Hen He Heth2 Hs2. unfold enqueue_tag. rewrite Heth2, He, Hen. simpl. rewrite Hs2. simpl.
  destruct (calling_eth_address rt1) as [eth1| | |]; simpl; try done.
  destruct (signing_tag keccak256 eth1 t1) as [stag1| | |]; simpl; try done.
  intros [= <- <-] [= <- <-]. split; [done|]. simpl. rewrite Hen. unfold get_tag_at_height. simpl.
  by rewrite lookup_insert_eq.
Qed.
End actor_theorems.

(** ** Witnesses: one contract (actor 100), and a digest made of the last 32
    bytes of its input, reversed. *)
Definition sample_digest (b : bytes) : bytes := take 32 (reverse b ++ repeat 0 32).
Definition sample_eth : bytes := repeat 1 20.
Definition sample_rt (who epoch : Z) : Runtime :=
  mkRuntime who epoch (λ id, if id =? 100 then Some (10 :: sample_eth) else None).
Definition sample_tag (x : Z) : Tag := x :: repeat 0 31.
Definition sample_sig : BlsSignature := repeat 9 96.
Definition sample_calls : list (Runtime * Method Z) :=
  [(sample_rt 0 7, AddSignedTag (mkAddSignedTag 7 sample_sig));
   (sample_rt 100 5, EnqueueTag (sample_tag 3));
   (sample_rt 0 4, Enable)].
Fixpoint replay (tr : list (Runtime * Method Z)) : State Z :=
  match tr with
  | [] => new
  | (rt, m) :: tr' =>
      match invoke_method sample_digest rt (replay tr') m with
      | Ok (st, _) => st
      | _ => replay tr'
      end
  end.
Lemma sample_run : run sample_digest sample_calls (replay sample_calls).
Proof.
  eapply run_call; [eapply run_call; [eapply run_call; [apply (run_constructor _ (sample_rt 0 0))|]|]|];
    vm_compute; reflexivity.
Qed.
Definition sample_signing_tag (x : Z) : Tag := sample_digest (sample_eth ++ sample_tag x).

Lemma only_system_signs_and_enables_witness :
  enabled (add_tag_at_height (replay [(sample_rt 0 4, Enable)]) 7 (sample_signing_tag 3)) = true.
Proof.
  apply (only_system_signs_and_enables sample_digest (sample_rt 100 5) (replay [(sample_rt 0 4, Enable)])
           (EnqueueTag (sample_tag 3)) _ (RetEpoch 7)).
  - discriminate.
  - vm_compute. reflexivity.
Defined.

Lemma signed_tag_provenance_witness :
  ∃ rt p, (rt, AddSignedTag p) ∈ sample_calls ∧ caller rt = SYSTEM_ACTOR_ID ∧ ast_signature p = sample_sig ∧
          enqueued sample_digest sample_calls (ast_height p) (sample_signing_tag 3).
Proof.
  apply (signed_tag_provenance sample_digest sample_calls (replay sample_calls)).
  - exact sample_run.
  - vm_compute. reflexivity.
Defined.

Lemma enqueue_tag_schedules_witness :
  ∃ st', enqueue_tag sample_digest (sample_rt 100 5) (set_enabled (A:=Z) new true) (sample_tag 3) = Ok (st', 7) ∧
    get_tag_at_height st' 7 = Some (sample_signing_tag 3).
Proof.
  destruct (enqueue_tag_schedules sample_digest (sample_rt 100 5) (set_enabled (A:=Z) new true) (sample_tag 3)
              sample_eth (sample_signing_tag 3)) as (st' & He & Hh).
  - vm_compute. reflexivity.
  - vm_compute. reflexivity.
  - simpl. lia.
  - exists st'. split; [exact He|]. rewrite Hh. reflexivity.
Defined.

Lemma second_enqueue_overwrites_witness :
  let st := set_enabled (A:=Z) new true in
  match enqueue_tag sample_digest (sample_rt 100 5) st (sample_tag 3) with
  | Ok (st1, e1) =>
      match enqueue_tag sample_digest (sample_rt 100 5) st1 (sample_tag 4) with
      | Ok (st2, _) => get_tag_at_height st2 e1 = Some (sample_signing_tag 4)
      | _ => False
      end
  | _ => False
  end.
Proof.
  pose (st := set_enabled (A:=Z) new true).
  pose (st1 := add_tag_at_height st 7 (sample_signing_tag 3)).
  pose (st2 := add_tag_at_height st1 7 (sample_signing_tag 4)).
  destruct (second_enqueue_overwrites sample_digest (sample_rt 100 5) (sample_rt 100 5) st st1 st2
              (sample_tag 3) (sample_tag 4) 7 7 sample_eth (sample_signing_tag 4)) as [_ H];
    try (vm_compute; reflexivity).
Defined.
