(* ===== verification/VoteExt.v ===== *)
(** * Vote extensions and the life of a tag
    ([vm/interpreter/src/fvm/extend.rs], [fvm/state/cetf.rs], [app/src/app.rs],
    [vm/interpreter/src/chain.rs], [vm/message/src/cetf.rs])

    At every height a validator signs the tag scheduled two blocks above the last
    committed one, and the block height itself, and attaches the signatures to its
    vote.  The others verify the extension; the next proposer aggregates the tag
    signatures of the last commit into a transaction that stores the result in the
    CETF actor.

    BLS signatures ([bls_signatures]) and the CBOR codec of the extension are
    parameters: the classes [BLS] and [ExtCodec], with their laws.  So are the
    conversions of a validator's public key to a CometBFT account and to an
    address. *)

From Stdlib Require Import Ascii String.
From stdpp Require Import base tactics numbers list gmap.
From S2P Require Import Prelude CetfActor.

Open Scope Z_scope.

(** ** Parameters *)

Class BLS := {
  Sig : Type;
  PublicKey : Type;
  PrivateKey : Type;
  sig_from_bytes : bytes → option Sig;
  sig_as_bytes : Sig → bytes;
  pk_from_bytes : bytes → option PublicKey;
  pk_as_bytes : PublicKey → bytes;
  bls_sign : PrivateKey → bytes → Sig;
  public_key : PrivateKey → PublicKey;
  aggregate : list Sig → option Sig;
  verify_messages : Sig → list bytes → list PublicKey → bool;
}.
Class BLSLaws `{BLS} : Prop := {
  sig_roundtrip s : sig_from_bytes (sig_as_bytes s) = Some s;
  sig_length s : length (sig_as_bytes s) = BLS_SIGNATURE_LEN;
  pk_roundtrip p : pk_from_bytes (pk_as_bytes p) = Some p;
  verify_sign k m : verify_messages (bls_sign k m) [m] [public_key k] = true;
  aggregate_nonempty l : l ≠ [] → is_Some (aggregate l);
}.

(** ** Tags and signatures ([extend.rs]) *)

Inductive TagKind := TagCetf (t : Tag) | TagBlockHeight (h : Z).
Inductive SignatureKind := SigCetf (s : BlsSignature) | SigBlockHeight (s : BlsSignature).
#[export] Instance signature_kind_eq_dec : EqDecision SignatureKind.
Proof. solve_decision. Defined.

Definition tag_to_vec (t : TagKind) : bytes :=
  match t with
  | TagCetf tag => tag
  | TagBlockHeight height => to_be_bytes height
  end.
Definition sig_as_slice (s : SignatureKind) : bytes :=
  match s with SigCetf s | SigBlockHeight s => s end.

Class ExtCodec := {
  to_vec : list SignatureKind → bytes;
  from_slice : bytes → option (list SignatureKind);
}.
Class ExtCodecLaws `{ExtCodec} : Prop := {
  codec_roundtrip l : from_slice (to_vec l) = Some l;
  codec_nonempty l : to_vec l ≠ [];
}.

(** [CetfMessage] ([message/src/cetf.rs]) *)
Inductive CetfMessage := CetfTag (height : Z) (s : BlsSignature).

Inductive VerifyResponse := Accept | Reject.

(** A validator of the CometBFT power table, as [verify_vote_extension] sees it:
    its account id and its address, both computed from its public key. *)
Record ValidatorKeys (Id A : Type) := mkKeys { tm_addr : Id; fvm_addr : A }.
Arguments mkKeys {Id A} _ _.
Arguments tm_addr {Id A} _.
Arguments fvm_addr {Id A} _.

Section vote_ext.
Context `{BLS} `{ExtCodec}.
Context {A Id : Type} `{Countable A} `{Countable Id}.
Implicit Types (cetf : option (State A)) (ctx : option PrivateKey) (tags : list TagKind)
  (sigs : list SignatureKind).

(** [sig.as_bytes().try_into().unwrap()] *)
Definition bls_signature_bytes {E} (s : Sig) : outcome E BlsSignature :=
  copy_from_slice BLS_SIGNATURE_LEN (sig_as_bytes s).

Definition sign_kind {E} (sk : PrivateKey) (t : TagKind) : outcome E SignatureKind :=
  match t with
  | TagCetf tag => s ← bls_signature_bytes (bls_sign sk tag); Ok (SigCetf s)
  | TagBlockHeight height => s ← bls_signature_bytes (bls_sign sk (to_be_bytes height)); Ok (SigBlockHeight s)
  end.

Fixpoint sign_all {E} (sk : PrivateKey) tags : outcome E (list SignatureKind) :=
  match tags with
  | [] => Ok []
  | t :: rest => s ← sign_kind sk t; ss ← sign_all sk rest; Ok (s :: ss)
  end.

Definition no_actor : string := "no CETF actor found!"%string.

Definition interpreter_extend_vote cetf ctx tags : outcome string (list SignatureKind) :=
  st ← ok_or no_actor cetf;
  if negb (enabled st) then Ok []
  else match ctx with
       | Some sk => sign_all sk tags
       | None => Ok []
       end.

(** The loop over the zipped signatures and tags. *)
Fixpoint verify_all (pk : PublicKey) (l : list (SignatureKind * TagKind)) (res : bool) : outcome string bool :=
  match l with
  | [] => Ok res
  | (s, t) :: rest =>
      b ← ok_or "failed to convert SignatureKind to bls signature"%string (sig_from_bytes (sig_as_slice s));
      verify_all pk rest (res && verify_messages b [tag_to_vec t] [pk])
  end.

Definition key_map (power_table : list (ValidatorKeys Id A)) : gmap Id A :=
  foldl (λ m k, <[tm_addr k := fvm_addr k]> m) ∅ power_table.

Definition interpreter_verify_vote_extension cetf ctx (power_table : outcome string (list (ValidatorKeys Id A)))
    (id : Id) tags sigs : outcome string (option bool) :=
  match ctx with
  | None => Ok None
  | Some _ =>
      st ← ok_or no_actor cetf;
      if negb (enabled st) then
        match tags, sigs with
        | [], [] => Ok None
        | _, _ => Err "CETF Actor is disabled! There should not be and tags or signatures"%string
        end
      else
        pt ← power_table;
        addr ← unwrap (key_map pt !! id);
        pk_bytes ← unwrap (get_validators_keymap st !! addr);
        pk ← ok_or "failed to deser bls pubkey"%string (pk_from_bytes pk_bytes);
        res ← verify_all pk (zip sigs tags) true;
        Ok (Some res)
  end.

(** ** The application ([app.rs])

    [block_height] is that of the last committed state, and [cetf] the state of
    the actor in it ([get_tag_at_height] of [fvm/state/cetf.rs] reads it). *)

Definition committed_tag cetf (height : Z) : outcome string (option Tag) :=
  st ← ok_or "CETF actor id not found in state"%string cetf;
  Ok (get_tag_at_height st height).

Definition extend_vote (request_height block_height : Z) cetf ctx : outcome string bytes :=
  if request_height =? 0 then Ok [] else
  let fvm_tags_height := (block_height + 2)%u64 in
  cetf_tag ← committed_tag cetf (block_height + 2)%u64;
  let tags := (match cetf_tag with Some tag => [TagCetf tag] | None => [] end)
              ++ [TagBlockHeight fvm_tags_height] in
  signatures ← interpreter_extend_vote cetf ctx tags;
  match signatures with
  | [] => Ok []
  | _ => Ok (to_vec signatures)
  end.

(** The tags the signatures of an extension are for. *)
Fixpoint tags_of cetf (block_height : Z) sigs : outcome string (list TagKind) :=
  match sigs with
  | [] => Ok []
  | SigCetf _ :: rest =>
      o ← committed_tag cetf (block_height + 2)%u64;
      tag ← ok_or "failed to get tag at height: None"%string o;
      ts ← tags_of cetf block_height rest;
      Ok (TagCetf tag :: ts)
  | SigBlockHeight _ :: rest =>
      ts ← tags_of cetf block_height rest;
      Ok (TagBlockHeight (block_height + 2)%u64 :: ts)
  end.

Definition verify_vote_extension (request_height block_height : Z) cetf ctx power_table (id : Id)
    (vote_extension : bytes) : outcome string VerifyResponse :=
  if (request_height =? 0) && bool_decide (vote_extension = []) then Ok Accept else
  if bool_decide (vote_extension = []) then Ok Accept else
  sigs ← ok_or "failed to deserialize signatures"%string (from_slice vote_extension);
  tags ← tags_of cetf block_height sigs;
  res ← interpreter_verify_vote_extension cetf ctx power_table id tags sigs;
  Ok (match res with Some false => Reject | _ => Accept end).

(** The first half of [prepare_proposal]: the aggregation of the extensions of
    the last commit. *)
Definition is_cetf_sig (s : SignatureKind) : bool := match s with SigCetf _ => true | _ => false end.

Fixpoint decode_votes {E} (votes : list bytes) : outcome E (list SignatureKind) :=
  match votes with
  | [] => Ok []
  | [] :: rest => decode_votes rest
  | ext :: rest =>
      sigs ← unwrap (from_slice ext);
      more ← decode_votes rest;
      Ok (sigs ++ more)
  end.

Definition parse_sigs {E} (sigs : list SignatureKind) : outcome E (list Sig) :=
  unwrap (mapM (λ s, sig_from_bytes (sig_as_slice s)) sigs).

Definition aggregate_sigs {E} (l : list Sig) : outcome E (option Sig) :=
  match l with
  | [] => Ok None
  | _ => s ← unwrap (aggregate l); Ok (Some s)
  end.

(** [cetf_tag_msg_to_chainmessage] *)
Definition cetf_tag_msg {E} (height : Z) (s : Sig) : outcome E CetfMessage :=
  b ← bls_signature_bytes s;
  Ok (CetfTag height b).

Definition prepare_cetf {E} (request_height : Z) (local_last_commit : option (list bytes))
    : outcome E (list CetfMessage) :=
  match local_last_commit with
  | None => Ok []
  | Some votes =>
      all ← decode_votes votes;
      cetf_sigs ← parse_sigs (List.filter is_cetf_sig all);
      height_sigs ← parse_sigs (List.filter (λ s, negb (is_cetf_sig s)) all);
      agg_cetf_sig ← aggregate_sigs cetf_sigs;
      _ ← aggregate_sigs height_sigs;
      match agg_cetf_sig with
      | Some agg => msg ← cetf_tag_msg request_height agg; Ok [msg]
      | None => Ok []
      end
  end.

(** [cetf_tag_msg_to_fvm]: the call the message turns into, by the system actor. *)
Definition cetf_tag_call (msg : CetfMessage) : Method A :=
  match msg with CetfTag height s => AddSignedTag (mkAddSignedTag height s) end.
End vote_ext.

Section ext_facts.
Context `{BLSLaws} `{ExtCodecLaws}.
Context {A Id : Type} `{Countable A} `{Countable Id}.
Implicit Types (cetf : option (State A)) (tags : list TagKind) (sigs : list SignatureKind).

Lemma bls_signature_bytes_ok {E} s : bls_signature_bytes (E:=E) s = Ok (sig_as_bytes s).
Proof. unfold bls_signature_bytes, copy_from_slice. by rewrite decide_True by apply sig_length. Qed.

(** The signature of a tag by a key. *)
Definition signed (sk : PrivateKey) (t : TagKind) : SignatureKind :=
  match t with
  | TagCetf tag => SigCetf (sig_as_bytes (bls_sign sk tag))
  | TagBlockHeight h => SigBlockHeight (sig_as_bytes (bls_sign sk (to_be_bytes h)))
  end.
Lemma sign_all_ok {E} sk tags : sign_all (E:=E) sk tags = Ok (signed sk <$> tags).
Proof.
  induction tags as [|t tags IH]; simpl; [done|]. destruct t; simpl;
    rewrite bls_signature_bytes_ok; simpl; by rewrite IH.
Qed.
Lemma sig_of_signed sk t :
  sig_from_bytes (sig_as_slice (signed sk t)) = Some (bls_sign sk (tag_to_vec t)).
Proof. destruct t; simpl; by rewrite sig_roundtrip. Qed.

Lemma verify_all_signed sk tags :
  verify_all (public_key sk) (zip (signed sk <$> tags) tags) true = Ok true.
Proof.
  induction tags as [|t tags IH]; [done|]. rewrite fmap_cons. cbn [zip_with verify_all].
  rewrite sig_of_signed. cbn [ok_or mbind outcome_bind]. rewrite verify_sign. exact IH.
Qed.

(** The loop accepts only if every pair verifies. *)
Lemma verify_all_true pk l res :
  verify_all pk l res = Ok true →
  res = true ∧ ∀ s t, (s, t) ∈ l →
    ∃ b, sig_from_bytes (sig_as_slice s) = Some b ∧ verify_messages b [tag_to_vec t] [pk] = true.
Proof.
  revert res. induction l as [|[s t] l IH]; intros res; simpl.
  - intros [= ->]. split; [done|]. intros s t Hin. by apply not_elem_of_nil in Hin.
  - destruct (sig_from_bytes (sig_as_slice s)) as [b|] eqn:Hb; simpl; [|done].
    intros [[Hr Hv]%andb_true_iff Hl]%IH. split; [done|].
    intros s' t' [Heq|Hin]%elem_of_cons; [simplify_eq; eauto|eauto].
Qed.

(** Decoding and aggregating the extensions of a commit. *)
Lemma decode_votes_app {E} (exts : list (list SignatureKind)) :
  decode_votes (E:=E) (to_vec <$> exts) = Ok (concat exts).
Proof.
  induction exts as [|e exts IH]; [done|]. rewrite fmap_cons. cbn [decode_votes concat].
  destruct (to_vec e) as [|b bs] eqn:He; [by apply codec_nonempty in He|].
  rewrite <- He, codec_roundtrip. cbn [unwrap mbind outcome_bind]. by rewrite IH.
Qed.
Lemma parse_sigs_signed {E} (l : list (PrivateKey * TagKind)) :
  parse_sigs (E:=E) ((λ x, signed x.1 x.2) <$> l) = Ok ((λ x, bls_sign x.1 (tag_to_vec x.2)) <$> l).
Proof.
  unfold parse_sigs.
  assert (mapM (λ s, sig_from_bytes (sig_as_slice s)) ((λ x, signed x.1 x.2) <$> l) =
          Some ((λ x, bls_sign x.1 (tag_to_vec x.2)) <$> l)) as ->; [|done].
  apply mapM_Some. induction l as [|x l IH]; constructor; [apply sig_of_signed|exact IH].
Qed.
Lemma aggregate_sigs_ok {E} l :
  l ≠ [] → ∃ s, aggregate l = Some s ∧ aggregate_sigs (E:=E) l = Ok (Some s).
Proof.
  intros Hl. destruct (aggregate_nonempty l Hl) as [s Hs]. exists s. split; [done|].
  unfold aggregate_sigs. destruct l; [done|]. by rewrite Hs.
Qed.

(** The tags signed at a height whose scheduled tag is [tag]. *)
Definition tags_at (tag : option Tag) (height : Z) : list TagKind :=
  (match tag with Some t => [TagCetf t] | None => [] end) ++ [TagBlockHeight height].

Lemma extend_vote_signed request_height h st sk :
  request_height ≠ 0 → enabled st = true →
  extend_vote request_height h (Some st) (Some sk) =
    Ok (to_vec (signed sk <$> tags_at (get_tag_at_height (A:=A) st (h + 2)%u64) (h + 2)%u64)).
Proof.
  intros Hr Hen. unfold extend_vote. rewrite (proj2 (Z.eqb_neq _ _) Hr). simpl.
  unfold interpreter_extend_vote. simpl. rewrite Hen. simpl. fold (tags_at (get_tag_at_height st (h + 2)%u64) (h + 2)%u64).
  rewrite sign_all_ok. simpl. unfold tags_at. by destruct (get_tag_at_height st _).
Qed.

Lemma tags_of_signed st h sk :
  tags_of (Some st) h (signed sk <$> tags_at (get_tag_at_height (A:=A) st (h + 2)%u64) (h + 2)%u64) =
    Ok (tags_at (get_tag_at_height st (h + 2)%u64) (h + 2)%u64).
Proof.
  destruct (get_tag_at_height st (h + 2)%u64) as [tag|] eqn:Ht; simpl; [|done].
  unfold committed_tag. simpl. by rewrite Ht.
Qed.

(** Filtering the signatures of the validators of a commit by kind. *)
Lemma filter_cetf_signed (sks : list PrivateKey) tag h :
  List.filter is_cetf_sig (concat ((λ sk, signed sk <$> tags_at (Some tag) h) <$> sks)) =
    (λ x, signed x.1 x.2) <$> ((λ sk, (sk, TagCetf tag)) <$> sks).
Proof. induction sks as [|sk sks IH]; [done|]. exact (f_equal (cons _) IH). Qed.
Lemma filter_height_signed (sks : list PrivateKey) tag h :
  List.filter (λ s, negb (is_cetf_sig s)) (concat ((λ sk, signed sk <$> tags_at (Some tag) h) <$> sks)) =
    (λ x, signed x.1 x.2) <$> ((λ sk, (sk, TagBlockHeight h)) <$> sks).
Proof. induction sks as [|sk sks IH]; [done|]. exact (f_equal (cons _) IH). Qed.
Lemma fmap_nonempty {B C} (f : B → C) l : l ≠ [] → f <$> l ≠ [].
Proof. by destruct l. Qed.

Lemma prepare_cetf_signed {E} request_height (sks : list PrivateKey) tag h :
  sks ≠ [] →
  ∃ agg, aggregate ((λ sk, bls_sign sk tag) <$> sks) = Some agg ∧
    prepare_cetf (E:=E) request_height
      (Some (to_vec <$> ((λ sk, signed sk <$> tags_at (Some tag) h) <$> sks))) =
      Ok [CetfTag request_height (sig_as_bytes agg)].
Proof.
  intros Hne. unfold prepare_cetf. rewrite decode_votes_app. cbn [mbind outcome_bind].
  rewrite filter_cetf_signed, filter_height_signed, !parse_sigs_signed. cbn [mbind outcome_bind].
  rewrite <- !list_fmap_compose. unfold compose. simpl.
  destruct (aggregate_sigs_ok (E:=E) ((λ sk, bls_sign sk tag) <$> sks)) as (agg & Ha & ->);
    [by apply fmap_nonempty|].
  destruct (aggregate_sigs_ok (E:=E) ((λ sk, bls_sign sk (to_be_bytes h)) <$> sks)) as (agg' & _ & ->);
    [by apply fmap_nonempty|].
  exists agg. split; [done|]. simpl. unfold cetf_tag_msg. by rewrite bls_signature_bytes_ok.
Qed.
End ext_facts.

(** ** Blocks of calls to the actor *)

Section blocks.
Context {A : Type} `{Countable A} (keccak256 : bytes → bytes).
Implicit Types (st : State A) (calls : list (Runtime * Method A)).

(** The calls of a block, in order; one that fails is rolled back. *)
Definition exec_call st (c : Runtime * Method A) : State A :=
  match invoke_method keccak256 c.1 st c.2 with Ok (st', _) => st' | _ => st end.
Definition exec_calls st calls : State A := foldl exec_call st calls.

Definition is_enqueue (m : Method A) : bool := match m with EnqueueTag _ => true | _ => false end.

Lemma exec_call_tag st c h :
  is_enqueue c.2 = false ∨ h ≠ i64_as_u64 (curr_epoch c.1 + 2) →
  get_tag_at_height (exec_call st c) h = get_tag_at_height st h.
Proof.
  intros Hcase. unfold exec_call.
  destruct (invoke_method keccak256 c.1 st c.2) as [[st' ret]| | |] eqn:Hi; try done.
  apply invoke_method_cases in Hi. destruct c as [rt m]. simpl in *.
  destruct m as [| |tag|h'|p| | |p]; try naive_solver.
  destruct Hi as (eth & stag & _ & _ & _ & ->). destruct (enabled st); [|done].
  unfold get_tag_at_height. simpl. destruct Hcase; [done|]. by rewrite lookup_insert_ne.
Qed.
Lemma exec_calls_tag st calls h :
  (∀ c, c ∈ calls → is_enqueue c.2 = false ∨ h ≠ i64_as_u64 (curr_epoch c.1 + 2)) →
  get_tag_at_height (exec_calls st calls) h = get_tag_at_height st h.
Proof.
  revert st. induction calls as [|c calls IH]; intros st Hc; [done|]. simpl.
  unfold exec_calls in IH. rewrite IH by (intros; apply Hc; by right).
  apply exec_call_tag, Hc. by left.
Qed.
End blocks.

Section ext_theorems.
Context `{BLSLaws} `{ExtCodecLaws}.
Context {A Id : Type} `{Countable A} `{Countable Id}.
Implicit Types (st : State A) (sk : PrivateKey).

(** C2. The life of a tag, while the actor is enabled.  A contract enqueues data in block [n], and nothing
    else is enqueued after it in that block.  At height [n + 1] the validators
    extend their votes on the state committed at [n]; whatever is executed in block
    [n + 1] and before it in block [n + 2], the transaction the proposer of block
    [n + 2] builds from these votes stores, under the tag derived from the contract
    and its data, the aggregate of the validators' signatures of that tag. *)
Theorem tag_is_signed keccak256 n rt st0 data eth stag st1 h rest st_n calls1 calls2 sks exts rt_sys :
  0 <= n < 2 ^ 62 → enabled st0 = true → curr_epoch rt = n →
  calling_eth_address rt = Ok eth → signing_tag keccak256 eth data = Ok stag →
  enqueue_tag keccak256 rt st0 data = Ok (st1, h) →
  st_n = exec_calls keccak256 st1 rest → Forall (λ c, is_enqueue c.2 = false) rest → enabled st_n = true →
  Forall (λ c, curr_epoch c.1 = n + 1) calls1 → Forall (λ c, curr_epoch c.1 = n + 2) calls2 →
  sks ≠ [] → Forall2 (λ sk ext, extend_vote (n + 1) n (Some st_n) (Some sk) = Ok ext) sks exts →
  caller rt_sys = SYSTEM_ACTOR_ID →
  ∃ agg st', aggregate ((λ sk, bls_sign sk stag) <$> sks) = Some agg ∧
    prepare_cetf (E:=ActorError) (n + 2) (Some exts) = Ok [CetfTag (n + 2) (sig_as_bytes agg)] ∧
    invoke_method keccak256 rt_sys (exec_calls keccak256 (exec_calls keccak256 st_n calls1) calls2)
      (cetf_tag_call (CetfTag (n + 2) (sig_as_bytes agg))) = Ok (st', RetUnit) ∧
    h = n + 2 ∧ signed_hashed_tags st' !! stag = Some (sig_as_bytes agg).
Proof.
  intros Hn Hen0 Hep Heth Hst Henq -> Hrest Hen Hc1 Hc2 Hsks Hexts Hsys.
  assert (∀ x, 0 <= x <= n + 4 → wrap64 x = x) as Hw
    by (intros; apply wrap64_small; unfold is_u64, U64_MAX; lia).
  unfold enqueue_tag in Henq. rewrite Heth in Henq. cbn [mbind outcome_bind] in Henq.
  rewrite Hst in Henq. cbn [mbind outcome_bind] in Henq.
  unfold i64_as_u64 in Henq. rewrite Hep, Hen0, Hw in Henq by lia. injection Henq as <- <-.
  set (st_n := exec_calls _ _ rest) in *.
  assert (get_tag_at_height st_n (n + 2) = Some stag) as Htag.
  { unfold st_n. rewrite exec_calls_tag; [unfold get_tag_at_height; simpl; by rewrite lookup_insert_eq|].
    intros c Hc. left. by apply (proj1 (Forall_forall _ _) Hrest). }
  assert (exts = to_vec <$> ((λ sk, signed sk <$> tags_at (Some stag) (n + 2)) <$> sks)) as ->.
  { clear Hsks. induction Hexts as [|sk ext sks exts He Hexts IH]; [done|].
    rewrite extend_vote_signed in He by (done || lia). unfold add64 in He. rewrite Hw, Htag in He by lia.
    injection He as <-. by rewrite !fmap_cons, IH. }
  destruct (prepare_cetf_signed (E:=ActorError) (n + 2) sks stag (n + 2) Hsks) as (agg & Hagg & Hprep).
  exists agg. eexists. split; [exact Hagg|]. split; [exact Hprep|].
  set (st2 := exec_calls _ (exec_calls _ st_n calls1) calls2).
  assert (get_tag_at_height st2 (n + 2) = Some stag) as Htag2.
  { unfold st2. rewrite exec_calls_tag.
    - rewrite exec_calls_tag; [done|]. intros c Hc. right.
      rewrite (proj1 (Forall_forall _ _) Hc1 c Hc). unfold i64_as_u64. rewrite Hw; lia.
    - intros c Hc. right. rewrite (proj1 (Forall_forall _ _) Hc2 c Hc). unfold i64_as_u64. rewrite Hw; lia. }
  simpl. unfold add_signed_tag, add_signed_tag_at_height, validate_caller_is_system. simpl.
  rewrite Hsys. simpl. rewrite Htag2. simpl. split; [done|]. split; [done|].
  simpl. by rewrite lookup_insert_eq.
Qed.

(** Honest extensions are accepted: what a validator attaches to its vote is
    accepted by every validator with the same committed state, given that the
    signer is in the power table and registered its own BLS key. *)
Theorem honest_extension_accepted request_height h st sk ctx pt id addr ext :
  request_height ≠ 0 → enabled st = true →
  key_map (A:=A) (Id:=Id) pt !! id = Some addr → validators st !! addr = Some (pk_as_bytes (public_key sk)) →
  extend_vote request_height h (Some st) (Some sk) = Ok ext →
  ext ≠ [] ∧
  verify_vote_extension request_height h (Some st) (Some ctx) (Ok pt) id ext = Ok Accept.
Proof.
  intros Hr Hen Hid Hpk. rewrite extend_vote_signed by done. intros [= <-].
  split; [apply codec_nonempty|]. unfold verify_vote_extension.
  rewrite (proj2 (Z.eqb_neq _ _) Hr), bool_decide_eq_false_2 by apply codec_nonempty.
  cbn [andb]. rewrite codec_roundtrip. cbn [ok_or mbind outcome_bind].
  rewrite tags_of_signed. cbn [mbind outcome_bind]. unfold interpreter_verify_vote_extension.
  cbn [ok_or mbind outcome_bind]. rewrite Hen. cbn [negb].
  rewrite Hid. cbn [unwrap mbind outcome_bind]. unfold get_validators_keymap. rewrite Hpk.
  cbn [unwrap mbind outcome_bind]. rewrite pk_roundtrip. cbn [ok_or mbind outcome_bind].
  by rewrite verify_all_signed.
Qed.

(** Nothing forged is accepted: when a validator accepts a non-empty extension
    while the actor is enabled, every signature in it is valid, for the registered
    key of the sender, on the scheduled tag or on the height. *)
Theorem accepted_extension_valid request_height h st ctx pt id ext :
  enabled st = true → ext ≠ [] →
  verify_vote_extension request_height h (Some st) (Some ctx) (Ok pt) id ext = Ok Accept →
  ∃ addr pk_bytes pk sigs, key_map (A:=A) (Id:=Id) pt !! id = Some addr ∧
    validators st !! addr = Some pk_bytes ∧ pk_from_bytes pk_bytes = Some pk ∧ from_slice ext = Some sigs ∧
    ∀ s, s ∈ sigs → ∃ b, sig_from_bytes (sig_as_slice s) = Some b ∧
      verify_messages b [match s with
                         | SigCetf _ => default [] (get_tag_at_height st (h + 2)%u64)
                         | SigBlockHeight _ => to_be_bytes (h + 2)%u64
                         end] [pk] = true.
Proof.
  intros Hen Hne. unfold verify_vote_extension.
  rewrite bool_decide_eq_false_2, andb_false_r by done.
  destruct (from_slice ext) as [sigs|]; simpl; [|done].
  destruct (tags_of (Some st) h sigs) as [tags| | |] eqn:Htags; simpl; try done.
  unfold interpreter_verify_vote_extension. simpl. rewrite Hen. simpl.
  destruct (key_map pt !! id) as [addr|]; simpl; [|done].
  unfold get_validators_keymap. destruct (validators st !! addr) as [pk_bytes|] eqn:Hreg; simpl; [|done].
  destruct (pk_from_bytes pk_bytes) as [pk|] eqn:Hpk; simpl; [|done].
  destruct (verify_all pk (zip sigs tags) true) as [[]| | |] eqn:Hv; simpl; try done.
  intros _. apply verify_all_true in Hv as [_ Hv].
  exists addr, pk_bytes, pk, sigs. split_and!; try done.
  clear Hpk. revert tags Htags Hv. induction sigs as [|s sigs IH]; intros tags Htags Hv s' Hs'.
  { by apply not_elem_of_nil in Hs'. }
  destruct s as [b|b]; simpl in Htags; unfold committed_tag in Htags; simpl in Htags.
  - destruct (get_tag_at_height st (h + 2)%u64) as [tag|] eqn:Ht; simpl in Htags; [|done].
    destruct (tags_of (Some st) h sigs) as [ts| | |] eqn:Hts; simpl in Htags; try done. injection Htags as <-.
    apply elem_of_cons in Hs' as [->|Hs'].
    + apply (Hv (SigCetf b) (TagCetf tag)). by left.
    + apply (IH ts eq_refl); [|done]. intros s t Hin. apply Hv. by right.
  - destruct (tags_of (Some st) h sigs) as [ts| | |] eqn:Hts; simpl in Htags; try done. injection Htags as <-.
    apply elem_of_cons in Hs' as [->|Hs'].
    + apply (Hv (SigBlockHeight b) (TagBlockHeight (h + 2)%u64)). by left.
    + apply (IH ts eq_refl); [|done]. intros s t Hin. apply Hv. by right.
Qed.

(** A vote need not carry the tag's signature, and may carry it twice: with
    the actor enabled and a tag scheduled, the empty extension, the extension with
    only the height signed, and the one that repeats the tag's signature are all
    accepted. *)
Theorem extension_may_omit_or_repeat request_height h st sk ctx pt id addr tag :
  enabled st = true → get_tag_at_height st (h + 2)%u64 = Some tag →
  key_map (A:=A) (Id:=Id) pt !! id = Some addr → validators st !! addr = Some (pk_as_bytes (public_key sk)) →
  let verify := verify_vote_extension request_height h (Some st) (Some ctx) (Ok pt) id in
  verify [] = Ok Accept ∧
  verify (to_vec [signed sk (TagBlockHeight (h + 2)%u64)]) = Ok Accept ∧
  verify (to_vec [signed sk (TagCetf tag); signed sk (TagCetf tag)]) = Ok Accept.
Proof.
  intros Hen Ht Hid Hpk verify. unfold verify, verify_vote_extension. split; [|split].
  - rewrite bool_decide_eq_true_2 by done. by destruct (request_height =? 0).
  - rewrite bool_decide_eq_false_2, andb_false_r by apply codec_nonempty.
    rewrite codec_roundtrip. simpl. unfold interpreter_verify_vote_extension. simpl. rewrite Hen. simpl.
    rewrite Hid. simpl. unfold get_validators_keymap. rewrite Hpk. simpl. rewrite pk_roundtrip. simpl.
    rewrite sig_roundtrip. simpl. by rewrite verify_sign.
  - rewrite bool_decide_eq_false_2, andb_false_r by apply codec_nonempty.
    rewrite codec_roundtrip. simpl. unfold committed_tag. simpl. rewrite Ht. simpl.
    unfold interpreter_verify_vote_extension. simpl. rewrite Hen. simpl.
    rewrite Hid. simpl. unfold get_validators_keymap. rewrite Hpk. simpl. rewrite pk_roundtrip. simpl.
    rewrite sig_roundtrip. simpl. by rewrite verify_sign.
Qed.
End ext_theorems.

(** ** Witnesses: a toy signature scheme whose signatures are numbers, padded to
    96 bytes, and a codec through stdpp's encodings. *)
Definition toy_mac (k : Z) (m : bytes) : Z := k * 1000 + foldr Z.add 0 m.
#[local] Instance toy_bls : BLS := {
  Sig := Z; PublicKey := Z; PrivateKey := Z;
  sig_from_bytes b := if decide (tail b = repeat 0 95) then head b else None;
  sig_as_bytes s := s :: repeat 0 95;
  pk_from_bytes b := head b;
  pk_as_bytes p := [p];
  bls_sign := toy_mac;
  public_key k := k;
  aggregate l := match l with [] => None | _ => Some (foldr Z.add 0 l) end;
  verify_messages s ms pks :=
    match ms, pks with [m], [pk] => s =? toy_mac pk m | _, _ => false end;
}.
#[local] Instance toy_bls_laws : BLSLaws.
Proof.
  split; simpl; try done.
  - intros k m. apply Z.eqb_refl.
  - intros [|x l]; [done|]. intros _. eexists. done.
Qed.
#[local] Instance signature_kind_countable : Countable SignatureKind.
Proof.
  refine (inj_countable' (λ s, match s with SigCetf b => inl b | SigBlockHeight b => inr b end)
            (λ x, match x with inl b => SigCetf b | inr b => SigBlockHeight b end) _).
  by intros [].
Defined.
#[local] Instance toy_codec : ExtCodec := {
  to_vec l := [Z.pos (encode l)];
  from_slice b := match b with [Z.pos p] => decode p | _ => None end;
}.
#[local] Instance toy_codec_laws : ExtCodecLaws.
Proof. split; simpl; [|done]. intros l. apply decode_encode. Qed.

Definition sample_st0 : State Z :=
  state_add_validator (state_add_validator (set_enabled new true) 501 [11]) 502 [12].
Definition sample_stn : State Z := add_tag_at_height sample_st0 7 (sample_signing_tag 3).
Definition toy_key (x : Z) : PrivateKey := x.
Definition sample_sks : list PrivateKey := toy_key <$> [11; 12].
Definition sample_ext (sk : PrivateKey) : bytes :=
  to_vec (signed sk <$> tags_at (Some (sample_signing_tag 3)) 7).

Lemma tag_is_signed_witness :
  ∃ agg st', aggregate ((λ sk, bls_sign sk (sample_signing_tag 3)) <$> sample_sks) = Some agg ∧
    prepare_cetf (E:=ActorError) 7 (Some (sample_ext <$> sample_sks)) = Ok [CetfTag 7 (sig_as_bytes agg)] ∧
    invoke_method sample_digest (sample_rt 0 7)
      (exec_calls sample_digest (exec_calls sample_digest sample_stn
         [(sample_rt 100 6, EnqueueTag (sample_tag 4))]) [])
      (cetf_tag_call (CetfTag 7 (sig_as_bytes agg))) = Ok (st', RetUnit) ∧
    7 = 5 + 2 ∧ signed_hashed_tags st' !! sample_signing_tag 3 = Some (sig_as_bytes agg).
Proof.
  apply (tag_is_signed sample_digest 5 (sample_rt 100 5) sample_st0 (sample_tag 3) sample_eth
           (sample_signing_tag 3) sample_stn 7 [] sample_stn
           [(sample_rt 100 6, EnqueueTag (sample_tag 4))] [] sample_sks (sample_ext <$> sample_sks) (sample_rt 0 7));
    try (vm_compute; reflexivity).
  - lia.
  - constructor.
  - constructor; [reflexivity|constructor].
  - constructor.
  - discriminate.
  - constructor; [vm_compute; reflexivity|]. constructor; [vm_compute; reflexivity|]. constructor.
Defined.

Definition sample_power_table : list (ValidatorKeys Z Z) := [mkKeys 1 501; mkKeys 2 502].

Lemma honest_extension_accepted_witness :
  verify_vote_extension 6 5 (Some sample_stn) (Some (toy_key 99)) (Ok sample_power_table) 2 (sample_ext (toy_key 12)) = Ok Accept.
Proof.
  apply (honest_extension_accepted 6 5 sample_stn (toy_key 12) (toy_key 99) sample_power_table 2 502); try (vm_compute; reflexivity).
  lia.
Defined.

Lemma accepted_extension_valid_witness :
  ∃ addr pk_bytes pk sigs, key_map (A:=Z) sample_power_table !! 2 = Some addr ∧
    validators sample_stn !! addr = Some pk_bytes ∧ pk_from_bytes pk_bytes = Some pk ∧
    from_slice (sample_ext (toy_key 12)) = Some sigs ∧
    ∀ s, s ∈ sigs → ∃ b, sig_from_bytes (sig_as_slice s) = Some b ∧
      verify_messages b [match s with
                         | SigCetf _ => default [] (get_tag_at_height sample_stn (5 + 2)%u64)
                         | SigBlockHeight _ => to_be_bytes (5 + 2)%u64
                         end] [pk] = true.
Proof.
  apply (accepted_extension_valid 6 5 sample_stn (toy_key 99) sample_power_table 2 (sample_ext (toy_key 12)));
    try (vm_compute; reflexivity).
  discriminate.
Defined.

Lemma extension_may_omit_or_repeat_witness :
  verify_vote_extension 6 5 (Some sample_stn) (Some (toy_key 99)) (Ok sample_power_table) 2
    (to_vec [signed (toy_key 12) (TagBlockHeight (5 + 2)%u64)]) = Ok Accept.
Proof.
  apply (extension_may_omit_or_repeat 6 5 sample_stn (toy_key 12) (toy_key 99) sample_power_table 2 502 (sample_signing_tag 3));
    vm_compute; reflexivity.
Defined.
