(* ===== verification/Pool.v ===== *)
(** * The resolution pool ([fendermint/vm/resolver/src/pool.rs], [ipld.rs])

    The application asks for content by adding items to the pool; a background
    resolver takes tasks from the queue of the pool, asks the subnets, and marks
    the content as resolved or queues the task again.

    A task shares its two flags with the status of its key, and a status is never
    removed or replaced, so the shared cells are named by the key: a task is its
    key, and reading a flag of the task is reading the status of that key.  The
    tasks that have left the queue are those being resolved ([running]), those
    waiting to be retried ([retrying]), and those dropped because the resolver
    service is gone ([dropped]). *)

From stdpp Require Import base tactics numbers list gmap.
From S2P Require Import Prelude.

Open Scope Z_scope.

Record ResolveStatus (T : Type) `{Countable T} := mkStatus {
  is_resolved : bool;
  use_own_subnet : bool;
  status_items : gset T;
}.
Arguments mkStatus {T _ _} _ _ _.
Arguments is_resolved {T _ _} _.
Arguments use_own_subnet {T _ _} _.
Arguments status_items {T _ _} _.

Record ResolvePool (K T : Type) `{Countable K} `{Countable T} := mkPool {
  items : gmap K (ResolveStatus T);
  queue : list K;
}.
Arguments mkPool {K T _ _ _ _} _ _.
Arguments items {K T _ _ _ _} _.
Arguments queue {K T _ _ _ _} _.

(** The answers of the resolver client: the outer failure is that of submitting
    the request to the service. *)
Inductive Resolved := SubmitFailed | ResolveOk | ResolveFailed.
Inductive TaskOutcome := TaskDropped | TaskResolved | TaskRetry.

Section pool.
Context {K T : Type} `{Countable K} `{Countable T} (key_of : T → K).
Implicit Types (p : ResolvePool K T) (item : T) (k : K).

Definition new_status item (own : bool) : ResolveStatus T := mkStatus false own {[item]}.
Definition new_pool : ResolvePool K T := mkPool ∅ [].

Definition add p item (own : bool) : ResolvePool K T * ResolveStatus T :=
  let k := key_of item in
  match items p !! k with
  | Some s =>
      let s' := mkStatus (is_resolved s) (use_own_subnet s || own) ({[item]} ∪ status_items s) in
      (mkPool (<[k := s']> (items p)) (queue p), s')
  | None =>
      let s := new_status item own in
      (mkPool (<[k := s]> (items p)) (queue p ++ [k]), s)
  end.

Definition get_status p item : option (ResolveStatus T) := items p !! key_of item.

Definition collect_resolved p : gset T :=
  map_fold (λ _ s acc, if is_resolved s then status_items s ∪ acc else acc) ∅ (items p).

(** [TChan::read] blocks on the empty queue. *)
Definition next {E} p : outcome E (K * ResolvePool K T) :=
  match queue p with
  | [] => Retry
  | k :: q => Ok (k, mkPool (items p) q)
  end.

(** [task.set_resolved()], through the shared cell. *)
Definition set_resolved p k : ResolvePool K T :=
  mkPool (alter (λ s, mkStatus true (use_own_subnet s) (status_items s)) k (items p)) (queue p).

(** The decision of [start_resolve] on the answers from the source subnet and,
    when asked, from our own. *)
Definition resolve_outcome (theirs : Resolved) (own : option Resolved) : TaskOutcome :=
  match theirs, own with
  | SubmitFailed, _ => TaskDropped
  | ResolveOk, _ => TaskResolved
  | _, Some ResolveOk => TaskResolved
  | ResolveFailed, _ => TaskRetry
  end.

(** ** The pool together with its resolver *)

Record Resolver := mkResolver {
  pool : ResolvePool K T;
  running : list (K * bool);
  retrying : list K;
  dropped : list K;
}.

(** One transition of the application or of the resolver: an item is added; the
    loop of [run] takes a task, reading whether to ask our own subnet; a running
    task is answered; a waiting task is queued again. *)
Inductive resolver_step : Resolver → Resolver → Prop :=
| step_add r item own :
    resolver_step r (mkResolver (add (pool r) item own).1 (running r) (retrying r) (dropped r))
| step_take r k p' s :
    next (E:=Empty_set) (pool r) = Ok (k, p') → items (pool r) !! k = Some s →
    resolver_step r (mkResolver p' ((k, use_own_subnet s) :: running r) (retrying r) (dropped r))
| step_answer r k asked_own l1 l2 theirs own :
    running r = l1 ++ (k, asked_own) :: l2 → (is_Some own ↔ asked_own = true) →
    resolver_step r
      (match resolve_outcome theirs own with
       | TaskResolved => mkResolver (set_resolved (pool r) k) (l1 ++ l2) (retrying r) (dropped r)
       | TaskRetry => mkResolver (pool r) (l1 ++ l2) (k :: retrying r) (dropped r)
       | TaskDropped => mkResolver (pool r) (l1 ++ l2) (retrying r) (k :: dropped r)
       end)
| step_requeue r k l1 l2 :
    retrying r = l1 ++ k :: l2 →
    resolver_step r (mkResolver (mkPool (items (pool r)) (queue (pool r) ++ [k])) (running r) (l1 ++ l2) (dropped r)).

(** The keys with work left, wherever the task is. *)
Definition pending (r : Resolver) : list K :=
  queue (pool r) ++ (running r).*1 ++ retrying r ++ dropped r.

(** Every key of the pool is either resolved or pending, exactly once. *)
Record resolver_inv (r : Resolver) : Prop := {
  pending_nodup : NoDup (pending r);
  pending_iff k : k ∈ pending r ↔ ∃ s, items (pool r) !! k = Some s ∧ is_resolved s = false;
}.

(** ** Facts *)

Lemma elem_of_collect_resolved p item :
  item ∈ collect_resolved p ↔
  ∃ k s, items p !! k = Some s ∧ is_resolved s = true ∧ item ∈ status_items s.
Proof.
  unfold collect_resolved. destruct p as [m q]. simpl.
  apply (map_fold_weak_ind (λ acc m, item ∈ acc ↔
    ∃ k s, m !! k = Some s ∧ is_resolved s = true ∧ item ∈ status_items s)).
  - split; [set_solver|]. intros (k & s & Hk & _). by rewrite lookup_empty in Hk.
  - intros k s m' acc Hk IH. destruct (is_resolved s) eqn:Hr.
    + rewrite elem_of_union, IH. split.
      * intros [Hi|(k' & s' & Hk' & Hrest)].
        -- exists k, s. by rewrite lookup_insert_eq.
        -- exists k', s'. split; [|done]. rewrite lookup_insert_ne; [done|]. intros <-. congruence.
      * intros (k' & s' & Hk' & Hr' & Hi'). apply lookup_insert_Some in Hk' as [[_ <-]|[_ Hk']];
          [by left|right; eauto].
    + rewrite IH. split.
      * intros (k' & s' & Hk' & Hrest). exists k', s'. split; [|done].
        rewrite lookup_insert_ne; [done|]. intros <-. congruence.
      * intros (k' & s' & Hk' & Hr' & Hi'). apply lookup_insert_Some in Hk' as [[_ <-]|[_ Hk']];
          [congruence|eauto].
Qed.

Lemma pending_answer r k b l1 l2 :
  running r = l1 ++ (k, b) :: l2 →
  pending r ≡ₚ k :: queue (pool r) ++ (l1 ++ l2).*1 ++ retrying r ++ dropped r.
Proof.
  intros Hr. unfold pending. rewrite Hr, !fmap_app, fmap_cons. simpl. solve_Permutation.
Qed.

Lemma resolver_inv_perm r r' :
  pending r' ≡ₚ pending r → items (pool r') = items (pool r) → resolver_inv r → resolver_inv r'.
Proof.
  intros Hp Hi [Hnd Hiff]. split; [by rewrite Hp|]. intros k. rewrite Hp, Hi. apply Hiff.
Qed.

Lemma step_add_inv r item own :
  resolver_inv r →
  resolver_inv (mkResolver (add (pool r) item own).1 (running r) (retrying r) (dropped r)).
Proof.
  intros [Hnd Hiff]. unfold add. destruct (items (pool r) !! key_of item) as [s|] eqn:Hs.
  - split; [exact Hnd|]. intros k. rewrite (Hiff k). simpl.
    destruct (decide (k = key_of item)) as [->|Hne].
    + rewrite lookup_insert_eq, Hs. naive_solver.
    + by rewrite lookup_insert_ne.
  - set (r' := mkResolver _ _ _ _).
    assert (pending r' ≡ₚ key_of item :: pending r) as Hp
      by (unfold r', pending; simpl; solve_Permutation).
    split.
    + rewrite Hp. constructor; [|done]. rewrite (Hiff (key_of item)), Hs. naive_solver.
    + intros k. rewrite Hp, elem_of_cons, (Hiff k). unfold r'. simpl.
      destruct (decide (k = key_of item)) as [->|Hne].
      * rewrite lookup_insert_eq. naive_solver.
      * rewrite lookup_insert_ne by done. naive_solver.
Qed.

Lemma step_resolved_inv r k b l1 l2 :
  running r = l1 ++ (k, b) :: l2 → resolver_inv r →
  resolver_inv (mkResolver (set_resolved (pool r) k) (l1 ++ l2) (retrying r) (dropped r)).
Proof.
  intros Hrun [Hnd Hiff]. pose proof (pending_answer r k b l1 l2 Hrun) as Hp.
  rewrite Hp in Hnd. apply NoDup_cons in Hnd as [Hk Hnd]. split; [exact Hnd|].
  intros k'. specialize (Hiff k'). rewrite Hp, elem_of_cons in Hiff. unfold pending. simpl.
  destruct (decide (k' = k)) as [->|Hne].
  - rewrite lookup_alter_eq. split; [done|]. intros (s & Hs & Hr).
    destruct (items (pool r) !! k); [|done]. simpl in Hs. by injection Hs as <-.
  - rewrite lookup_alter_ne by done. naive_solver.
Qed.

Lemma resolver_step_inv r r' : resolver_inv r → resolver_step r r' → resolver_inv r'.
Proof.
  intros Hinv Hstep.
  destruct Hstep as [r item own|r k p' s Hnext Hs|r k b l1 l2 theirs own Hrun Hown|r k l1 l2 Hret].
  - by apply step_add_inv.
  - unfold next in Hnext. destruct (queue (pool r)) as [|k' q] eqn:Hq; simplify_eq.
    eapply resolver_inv_perm; [| |exact Hinv]; [|done].
    unfold pending. simpl. rewrite Hq. solve_Permutation.
  - destruct (resolve_outcome theirs own).
    + eapply resolver_inv_perm; [| |exact Hinv]; [|done].
      rewrite (pending_answer r k b l1 l2 Hrun). unfold pending. simpl. solve_Permutation.
    + by eapply step_resolved_inv.
    + eapply resolver_inv_perm; [| |exact Hinv]; [|done].
      rewrite (pending_answer r k b l1 l2 Hrun). unfold pending. simpl. solve_Permutation.
  - eapply resolver_inv_perm; [| |exact Hinv]; [|done].
    unfold pending. simpl. rewrite Hret. solve_Permutation.
Qed.

(** Items are filed under their key, and what is resolved stays resolved. *)
Definition filed p : Prop :=
  ∀ k s item, items p !! k = Some s → item ∈ status_items s → key_of item = k.
Lemma add_filed p item own : filed p → filed (add p item own).1.
Proof.
  intros Hf. unfold add. destruct (items p !! key_of item) as [s|] eqn:Hs; simpl;
    intros k s' i Hk Hi; simpl in Hk; apply lookup_insert_Some in Hk as [[<- <-]|[_ Hk]]; simpl in *; eauto.
  - apply elem_of_union in Hi as [->%elem_of_singleton|Hi]; [done|]. by eapply Hf.
  - by apply elem_of_singleton in Hi as ->.
Qed.
Lemma resolver_step_filed r r' : resolver_step r r' → filed (pool r) → filed (pool r').
Proof.
  intros Hstep Hf. destruct Hstep as [r item own|r k p' s Hnext Hs|r k b l1 l2 theirs own Hrun Hown|r k l1 l2 Hret]; simpl.
  - by apply add_filed.
  - unfold next in Hnext. by destruct (queue (pool r)); simplify_eq.
  - destruct (resolve_outcome theirs own); simpl; [done| |done].
    intros k' s i Hk Hi. simpl in Hk. destruct (decide (k' = k)) as [->|Hne].
    + rewrite lookup_alter_eq in Hk. destruct (items (pool r) !! k) eqn:Hk0; [|done].
      injection Hk as <-. by eapply Hf.
    + rewrite lookup_alter_ne in Hk by done. by eapply Hf.
  - done.
Qed.
End pool.

Section pool_theorems.
Context {K T : Type} `{Countable K} `{Countable T} (key_of : T → K).
Implicit Types (p : ResolvePool K T) (item : T) (k : K) (r : Resolver (K:=K) (T:=T)).

Definition initial_resolver : Resolver (K:=K) (T:=T) := mkResolver new_pool [] [] [].

(** No request is lost or duplicated: in every interleaving of additions,
    resolutions, failures and retries, each key of the pool is resolved, or has
    exactly one task, queued, running, waiting for a retry, or dropped because the
    resolver service was gone. *)
Theorem no_task_lost r :
  rtc (resolver_step key_of) initial_resolver r → resolver_inv r.
Proof.
  intros Hr. assert (resolver_inv initial_resolver) as Hinit.
  { split; [constructor|]. intros k. unfold pending. simpl. rewrite lookup_empty.
    split; [intros Hk; by apply not_elem_of_nil in Hk|naive_solver]. }
  induction Hr as [r|r r' r'' Hstep _ IH]; [done|]. apply IH. by eapply resolver_step_inv.
Qed.

(** What is offered for execution: an item is collected exactly when it was
    added under a key whose content has been resolved, so all the items of one key
    become available together. *)
Theorem collect_resolved_spec r item :
  rtc (resolver_step key_of) initial_resolver r →
  item ∈ collect_resolved (pool r) ↔
  ∃ s, get_status key_of (pool r) item = Some s ∧ is_resolved s = true ∧ item ∈ status_items s.
Proof.
  intros Hr. assert (filed key_of (pool r)) as Hf.
  { assert (filed key_of (pool initial_resolver)) as Hinit by (intros k s i Hk; simpl in Hk; by rewrite lookup_empty in Hk).
    induction Hr as [r|r r' r'' Hstep _ IH]; [done|]. apply IH. by eapply resolver_step_filed. }
  rewrite elem_of_collect_resolved. unfold get_status. split.
  - intros (k & s & Hk & Hrest). rewrite (Hf k s item Hk) by apply Hrest. eauto.
  - intros (s & Hs & Hrest). eauto.
Qed.

(** Adding is idempotent on the queue: an item whose key is known is recorded
    with it but not queued again, and a resolution already made is kept. *)
Theorem add_known_key p item own s :
  items p !! key_of item = Some s →
  queue (add key_of p item own).1 = queue p ∧
  ∃ s', get_status key_of (add key_of p item own).1 item = Some s' ∧ is_resolved s' = is_resolved s ∧
        status_items s' = {[item]} ∪ status_items s ∧ use_own_subnet s' = use_own_subnet s || own.
Proof.
  intros Hs. unfold add, get_status. rewrite Hs. simpl. split; [done|].
  rewrite lookup_insert_eq. eauto.
Qed.
End pool_theorems.

(** ** Witnesses: items are numbers, filed under their tens *)
Definition tens (x : Z) : Z := x / 10.
Definition sample_pool : ResolvePool Z Z := (add tens new_pool 42 false).1.
Definition sample_resolver : Resolver (K:=Z) (T:=Z) :=
  mkResolver (set_resolved (mkPool (items sample_pool) []) 4) [] [] [].
Lemma sample_resolver_run : rtc (resolver_step tens) initial_resolver sample_resolver.
Proof.
  eapply rtc_l; [apply (step_add tens _ 42 false)|].
  eapply rtc_l; [eapply (step_take tens); vm_compute; reflexivity|].
  eapply rtc_l; [apply (step_answer tens _ 4 false [] [] ResolveOk None); [reflexivity|]|].
  - split; [intros [? Hx]; discriminate|discriminate].
  - apply rtc_refl.
Qed.

Lemma no_task_lost_witness : resolver_inv sample_resolver.
Proof. apply (no_task_lost tens). exact sample_resolver_run. Defined.

Lemma collect_resolved_spec_witness : 42 ∈ collect_resolved (pool sample_resolver).
Proof.
  apply (collect_resolved_spec tens sample_resolver 42 sample_resolver_run).
  exists (mkStatus true false {[42]}). split; [vm_compute; reflexivity|]. split; [reflexivity|].
  apply elem_of_singleton. reflexivity.
Defined.

Lemma add_known_key_witness : queue (add tens sample_pool 47 true).1 = [4].
Proof.
  destruct (add_known_key tens sample_pool 47 true (mkStatus false false {[42]})) as [H _].
  - vm_compute. reflexivity.
  - rewrite H. vm_compute. reflexivity.
Defined.
