(* ===== verification/Checkpoint.v ===== *)
(** * Validator power and bottom-up checkpoints
    ([vm/genesis/src/lib.rs], [vm/interpreter/src/fvm/checkpoint.rs], [fvm/state/ipc.rs],
    [fvm/topdown.rs], [fvm/upgrades.rs])

    Power is derived from collateral; at the end of a checkpoint period the ledger
    switches to the next power table, and CometBFT is told the difference.

    The gateway is a Solidity contract: its calls are the class [Gateway], as
    functions of the ledger state [S] they run on.  A call that only reads returns
    a value, one that writes returns the new state as well.

    The main theorem is that the difference computed by [power_diff], applied to
    the vote tally (or by CometBFT) the way updates are applied, gives every
    validator its power in the next table. *)

From Stdlib Require Import Ascii String.
From stdpp Require Import base tactics numbers list gmap.
From S2P Require Import Prelude Voting IpcApi Finality Provider.

Open Scope Z_scope.

(** ** Power ([genesis/src/lib.rs]) *)

Definition DECIMALS : Z := 18.

(** The scale is an [i8]; [d.abs()] and the addition wrap around at 8 bits, and
    the conversion to [u32] wraps around at 32 bits. *)
Definition wrap_i8 (x : Z) : Z := (x + 128) mod 256 - 128.
Definition scale_decimals (scale : Z) : Z :=
  if 0 <=? scale then saturating_sub DECIMALS scale
  else (wrap_i8 (DECIMALS + wrap_i8 (Z.abs scale))) mod 2 ^ 32.
Definition atto_per_power (scale : Z) : Z := 10 ^ scale_decimals scale.

(** [BigInt::div_ceil] *)
Definition div_ceil (a b : Z) : Z := - ((- a) / b).
Definition into_power (atto scale : Z) : Z := Z.min (div_ceil atto (atto_per_power scale)) U64_MAX.

Record Validator (K : Type) := mkValidator { public_key : K; power : Z }.
Arguments mkValidator {K} _ _.
Arguments public_key {K} _.
Arguments power {K} _.
#[export] Instance validator_eq_dec {K} `{EqDecision K} : EqDecision (Validator K).
Proof. solve_decision. Defined.

(** [map_power] converts the collateral of a validator. *)
Definition map_power {K} (f : Z → Z) (v : Validator K) : Validator K := mkValidator (public_key v) (f (power v)).

(** ** Power tables ([checkpoint.rs]) *)

Section power.
Context {K : Type} `{Countable K} (serialize : K → bytes).
Implicit Types (current next : list (Validator K)).

Definition into_power_map (value : list (Validator K)) : gmap bytes (Validator K) :=
  foldl (λ m v, <[serialize (public_key v) := v]> m) ∅ value.

Definition power_diff current next : list (Validator K) :=
  let current := into_power_map current in
  let next := into_power_map next in
  let deleted := omap (λ e : bytes * Validator K,
    match next !! e.1 with
    | Some _ => None
    | None => Some (mkValidator (public_key e.2) 0)
    end) (map_to_list current) in
  let inserted := omap (λ e : bytes * Validator K,
    match current !! e.1 with
    | Some w => if decide (w = e.2) then None else Some e.2
    | None => Some e.2
    end) (map_to_list next) in
  deleted ++ inserted.

Definition as_update (v : Validator K) : K * Z := (public_key v, power v).
End power.

(** ** The gateway *)

Record BottomUpCheckpoint (A M : Type) := mkCheckpoint {
  cp_subnet_id : SubnetID A;
  cp_block_height : Z;
  cp_block_hash : bytes;
  cp_next_configuration_number : Z;
  cp_msgs : list M;
}.
Arguments mkCheckpoint {A M} _ _ _ _ _.
Arguments cp_subnet_id {A M} _.
Arguments cp_block_height {A M} _.
Arguments cp_block_hash {A M} _.
Arguments cp_next_configuration_number {A M} _.
Arguments cp_msgs {A M} _.

(** [M] is the type of the bottom-up messages of the contract, [R] what applying
    messages returns. *)
Class Gateway (S K A M R : Type) := {
  gw_enabled : S → outcome string bool;
  gw_subnet_id : S → outcome string (SubnetID A);
  gw_bottom_up_msg_batch : S → Z → outcome string (Z * list M);
  gw_bottom_up_check_period : S → outcome string Z;
  gw_current_power_table : S → outcome string (Z * list (Validator K));
  gw_apply_validator_changes : S → outcome string (S * Z);
  gw_create_bottom_up_checkpoint : S → BottomUpCheckpoint A M → list (Validator K) → outcome string S;
  gw_commit_parent_finality : S → IPCParentFinality → outcome string (S * option IPCParentFinality);
  gw_store_validator_changes : S → list (StakingChangeRequest A) → outcome string S;
  gw_mint_to_gateway : S → Z → outcome string S;
  gw_apply_cross_messages : S → list (IpcEnvelope A) → outcome string (S * R);
  gw_incomplete_checkpoints : S → outcome string (list (BottomUpCheckpoint A M));
  gw_checkpoint_signatories : S → Z → outcome string (list bytes);
  msg_value : M → Z;
}.

(** ** Execution state ([fvm/state/exec.rs]) *)

Record FvmUpdatableParams := mkParams {
  app_version : Z;
  base_fee : Z;
  circ_supply : Z;
  power_scale : Z;
}.
Record FvmExecState (S : Type) := mkExec {
  ledger : S;
  exec_chain_id : Z;
  exec_height : Z;
  exec_timestamp : Z;
  exec_block_hash : option bytes;
  exec_validator_id : option bytes;
  params : FvmUpdatableParams;
  params_dirty : bool;
}.
Arguments mkExec {S} _ _ _ _ _ _ _ _.
Arguments ledger {S} _.
Arguments exec_height {S} _.
Arguments exec_chain_id {S} _.
Arguments exec_timestamp {S} _.
Arguments exec_block_hash {S} _.
Arguments exec_validator_id {S} _.
Arguments params {S} _.
Arguments params_dirty {S} _.

Section exec_state.
Context {S : Type}.
Implicit Types (st : FvmExecState S).

Definition set_ledger st (s : S) : FvmExecState S :=
  mkExec s (exec_chain_id st) (exec_height st) (exec_timestamp st) (exec_block_hash st) (exec_validator_id st)
    (params st) (params_dirty st).
Definition with_block_hash st (h : bytes) : FvmExecState S :=
  mkExec (ledger st) (exec_chain_id st) (exec_height st) (exec_timestamp st) (Some h) (exec_validator_id st)
    (params st) (params_dirty st).
Definition with_validator_id st (v : bytes) : FvmExecState S :=
  mkExec (ledger st) (exec_chain_id st) (exec_height st) (exec_timestamp st) (exec_block_hash st) (Some v)
    (params st) (params_dirty st).
Definition update_params st (f : FvmUpdatableParams → FvmUpdatableParams) : FvmExecState S :=
  mkExec (ledger st) (exec_chain_id st) (exec_height st) (exec_timestamp st) (exec_block_hash st) (exec_validator_id st)
    (f (params st)) true.
Definition update_app_version st (f : Z → Z) : FvmExecState S :=
  update_params st (λ p, mkParams (f (app_version p)) (base_fee p) (circ_supply p) (power_scale p)).
Definition update_base_fee st (f : Z → Z) : FvmExecState S :=
  update_params st (λ p, mkParams (app_version p) (f (base_fee p)) (circ_supply p) (power_scale p)).
Definition update_circ_supply st (f : Z → Z) : FvmExecState S :=
  update_params st (λ p, mkParams (app_version p) (base_fee p) (f (circ_supply p)) (power_scale p)).

(** A read-only call of the gateway leaves the execution state as it is; a
    writing one replaces the ledger. *)
Definition on_ledger st (f : S → outcome string S) : outcome string (FvmExecState S) :=
  s ← f (ledger st); Ok (set_ledger st s).
End exec_state.

(** ** Checkpoints ([checkpoint.rs]) and top-down execution ([topdown.rs]) *)

Section checkpoint.
Context {S K A M R : Type} `{Countable K} `{Gateway S K A M R} (serialize : K → bytes).
Implicit Types (st : FvmExecState S).

Definition tokens_to_mint (msgs : list (IpcEnvelope A)) : Z := foldl (λ total m, total + value m) 0 msgs.
Definition tokens_to_burn (msgs : list M) : Z := foldl (λ total m, total + msg_value m) 0 msgs.

(** [height.value() % period]: a period of zero is a division by zero. *)
Definition should_create_checkpoint st (height : Z) : outcome string (option (list M * SubnetID A)) :=
  on ← gw_enabled (ledger st);
  if negb on then Ok None else
  id ← gw_subnet_id (ledger st);
  if is_root id then Ok None else
  batch ← gw_bottom_up_msg_batch (ledger st) height;
  let '(batch_height, msgs) := batch in
  if negb (batch_height =? 0) then Ok (Some (msgs, id)) else
  period ← gw_bottom_up_check_period (ledger st);
  if period =? 0 then Panic
  else if height mod period =? 0 then Ok (Some (msgs, id)) else Ok None.

Definition maybe_create_checkpoint st
    : outcome string (FvmExecState S * option (BottomUpCheckpoint A M * list (Validator K))) :=
  let height := exec_height st in
  if height <? 0 then Err "block height is not u64"%string else
  block_hash ← ok_or "block hash not set"%string (exec_block_hash st);
  r ← should_create_checkpoint st height;
  match r with
  | None => Ok (st, None)
  | Some (msgs, subnet_id) =>
      current ← gw_current_power_table (ledger st);
      applied ← gw_apply_validator_changes (ledger st);
      let '(s1, next_configuration_number) := applied in
      let st1 := set_ledger st s1 in
      let st2 := update_circ_supply st1 (λ c, c - tokens_to_burn msgs) in
      let checkpoint := mkCheckpoint subnet_id height block_hash next_configuration_number msgs in
      st3 ← on_ledger st2 (λ s, gw_create_bottom_up_checkpoint s checkpoint current.2);
      power_updates ←
        (if next_configuration_number =? 0 then Ok []
         else next ← gw_current_power_table (ledger st3); Ok (power_diff serialize current.2 next.2));
      Ok (st3, Some (checkpoint, power_updates))
  end.

(** The incomplete checkpoints the validator has not signed. *)
Fixpoint unsigned_among st (validator_addr : bytes) (cps : list (BottomUpCheckpoint A M))
    : outcome string (list (BottomUpCheckpoint A M)) :=
  match cps with
  | [] => Ok []
  | cp :: rest =>
      signatories ← gw_checkpoint_signatories (ledger st) (cp_block_height cp);
      more ← unsigned_among st validator_addr rest;
      Ok (if bool_decide (validator_addr ∈ signatories) then more else cp :: more)
  end.
Definition unsigned_checkpoints st (validator_addr : bytes) : outcome string (list (BottomUpCheckpoint A M)) :=
  cps ← gw_incomplete_checkpoints (ledger st);
  unsigned_among st validator_addr cps.

Definition commit_finality st (finality : IPCParentFinality) (provider : Toggle (FinalityWithNull A))
    : outcome string (FvmExecState S * (Z * option IPCParentFinality)) :=
  r ← gw_commit_parent_finality (ledger st) finality;
  let '(s, prev) := r in
  match prev with
  | Some p => Ok (set_ledger st s, (height p, Some p))
  | None => g ← toggle_genesis_epoch provider; Ok (set_ledger st s, (g, None))
  end.

Definition execute_topdown_msgs st (messages : list (IpcEnvelope A)) : outcome string (FvmExecState S * R) :=
  let minted := tokens_to_mint messages in
  st1 ← (if minted =? 0 then Ok st
         else st' ← on_ledger st (λ s, gw_mint_to_gateway s minted);
              Ok (update_circ_supply st' (λ c, c + minted)));
  r ← gw_apply_cross_messages (ledger st1) messages;
  Ok (set_ledger st1 r.1, r.2).
End checkpoint.

(** ** Upgrades ([upgrades.rs]) *)

Record Upgrade (S : Type) := mkUpgrade {
  up_chain_id : Z;
  up_block_height : Z;
  new_app_version : option Z;
  migration : FvmExecState S → outcome string (FvmExecState S);
}.
Arguments mkUpgrade {S} _ _ _ _.
Arguments up_chain_id {S} _.
Arguments up_block_height {S} _.
Arguments new_app_version {S} _.
Arguments migration {S} _ _.

(** The ordering of the keys makes equal exactly the keys with both parts equal,
    so the [BTreeMap] is a map from pairs. *)
Definition upgrade_cmp (a b : Z * Z) : comparison :=
  if a.1 =? b.1 then Z.compare a.2 b.2 else Z.compare a.1 b.1.

Definition UpgradeScheduler (S : Type) : Type := gmap (Z * Z) (Upgrade S).

Section upgrades.
Context {S : Type}.
Implicit Types (u : Upgrade S) (sch : UpgradeScheduler S).

Definition execute_upgrade u (st : FvmExecState S) : outcome string (FvmExecState S * option Z) :=
  st' ← migration u st; Ok (st', new_app_version u).
Definition schedule sch u : outcome string (UpgradeScheduler S) :=
  match sch !! (up_chain_id u, up_block_height u) with
  | None => Ok (<[(up_chain_id u, up_block_height u) := u]> sch)
  | Some _ => Err "Upgrade already exists"%string
  end.
Definition scheduled sch (chain_id height : Z) : option (Upgrade S) := sch !! (chain_id, height).
End upgrades.

Section power_facts.
Context {K V : Type} `{Countable K} `{Countable V} (serialize : K → bytes).
Context {Hinj : Inj (=) (=) serialize}.
Implicit Types (l current next : list (Validator K)) (k : K) (pt : gmap K Z).

Lemma into_power_map_key l b v : into_power_map serialize l !! b = Some v → b = serialize (public_key v).
Proof.
  unfold into_power_map. induction l as [|x l IH] using rev_ind; [done|].
  rewrite foldl_snoc. intros [[<- <-]|[_ Hl]]%lookup_insert_Some; [done|]. by apply IH.
Qed.
Lemma from_iter_power l k :
  from_iter (as_update <$> l) !! k = power <$> into_power_map serialize l !! serialize k.
Proof.
  unfold from_iter, into_power_map. induction l as [|x l IH] using rev_ind; [done|].
  rewrite fmap_app, foldl_app, foldl_snoc. simpl.
  destruct (decide (public_key x = k)) as [->|Hne].
  - by rewrite !lookup_insert_eq.
  - rewrite !lookup_insert_ne; [done| |done]. intros Hs. by apply Hinj in Hs.
Qed.

(** Updates with distinct keys set exactly the powers they list. *)
Lemma apply_updates_notin pt (us : list (K * Z)) k :
  k ∉ us.*1 → foldl apply_power_update pt us !! k = pt !! k.
Proof.
  revert pt. induction us as [|[k' w] us IH]; intros pt Hk; simpl; [done|].
  apply not_elem_of_cons in Hk as [Hne Hk]. rewrite IH by done. simpl in Hne.
  destruct (w =? 0); [by rewrite lookup_delete_ne|by rewrite lookup_insert_ne].
Qed.
Lemma apply_updates_in pt (us : list (K * Z)) k w :
  NoDup us.*1 → (k, w) ∈ us → weight (foldl apply_power_update pt us) k = w.
Proof.
  revert pt. induction us as [|[k' w'] us IH]; intros pt Hnd Hin; [by apply not_elem_of_nil in Hin|].
  apply NoDup_cons in Hnd as [Hk Hnd]. simpl. apply elem_of_cons in Hin as [[= <- <-]|Hin]; [|by apply IH].
  unfold weight. rewrite apply_updates_notin by done. destruct (w =? 0) eqn:Hw; zbool.
  - by rewrite lookup_delete_eq.
  - by rewrite lookup_insert_eq.
Qed.

Lemma elem_of_power_diff current next v :
  v ∈ power_diff serialize current next ↔
  (∃ w, into_power_map serialize current !! serialize (public_key v) = Some w ∧
        into_power_map serialize next !! serialize (public_key v) = None ∧
        power v = 0 ∧ public_key w = public_key v) ∨
  (into_power_map serialize next !! serialize (public_key v) = Some v ∧
   into_power_map serialize current !! serialize (public_key v) ≠ Some v).
Proof.
  unfold power_diff. rewrite elem_of_app, !list_elem_of_omap. split.
  - intros [([b w] & Hin & He)|([b w] & Hin & He)]; apply elem_of_map_to_list in Hin; simpl in He;
      pose proof (into_power_map_key _ _ _ Hin); subst b.
    + destruct (into_power_map serialize next !! _) eqn:Hn; simplify_eq. left. by exists w.
    + destruct (into_power_map serialize current !! _) as [w'|] eqn:Hc; [case_decide|]; simplify_eq;
        right; (split; [done|]); congruence.
  - intros [(w & Hc & Hn & Hp & Hk)|[Hn Hc]].
    + left. exists (serialize (public_key v), w). rewrite elem_of_map_to_list. simpl. rewrite Hn.
      split; [done|]. destruct v as [k p]. simpl in *. by rewrite Hk, Hp.
    + right. exists (serialize (public_key v), v). rewrite elem_of_map_to_list. simpl. split; [done|].
      destruct (into_power_map serialize current !! _) as [w'|]; [|done]. rewrite decide_False; [done|].
      by intros ->.
Qed.

Lemma power_diff_keys current next : NoDup (as_update <$> power_diff serialize current next).*1.
Proof.
  rewrite <- list_fmap_compose. unfold compose, as_update. simpl. unfold power_diff.
  assert (∀ (m : gmap bytes (Validator K)) (f : bytes * Validator K → option (Validator K)),
    (∀ b v, m !! b = Some v → b = serialize (public_key v)) →
    (∀ b v w, f (b, v) = Some w → public_key w = public_key v) →
    NoDup (public_key <$> omap f (map_to_list m))) as Haux.
  { intros m f Hm Hf. assert (∀ b v, (b, v) ∈ map_to_list m → b = serialize (public_key v)) as Hl.
    { intros b v Hin. apply Hm. by apply elem_of_map_to_list. }
    pose proof (NoDup_fst_map_to_list m) as Hnd. clear Hm.
    induction (map_to_list m) as [|[b v] l IH]; simpl; [constructor|].
    simpl in Hnd. apply NoDup_cons in Hnd as [Hb Hnd].
    assert (NoDup (public_key <$> omap f l)) as IH' by (apply IH; [intros; apply Hl; by right|done]).
    destruct (f (b, v)) as [w|] eqn:Hw; [|done]. rewrite fmap_cons. constructor; [|done].
    intros (w' & Hk & Hin)%list_elem_of_fmap. apply list_elem_of_omap in Hin as ([b' v'] & Hin & Hw').
    apply Hb. apply list_elem_of_fmap. exists (b', v'). split; [|done]. simpl.
    rewrite (Hl b v), (Hl b' v') by first [by left|by right].
    rewrite <- (Hf _ _ _ Hw), <- (Hf _ _ _ Hw'). by rewrite Hk. }
  rewrite fmap_app. apply NoDup_app. split_and!.
  - apply Haux; [apply into_power_map_key|]. intros b v w. simpl.
    destruct (into_power_map serialize next !! b); [done|]. by intros [= <-].
  - intros k (v & -> & Hv)%list_elem_of_fmap (v' & Hk & Hv')%list_elem_of_fmap.
    apply list_elem_of_omap in Hv as ([b w] & Hin & He), Hv' as ([b' w'] & Hin' & He'). simpl in *.
    apply elem_of_map_to_list in Hin, Hin'.
    destruct (into_power_map serialize next !! b) eqn:Hn; [done|]. injection He as <-. simpl in Hk.
    assert (v' = w') as -> by (destruct (into_power_map serialize current !! b'); [case_decide|]; simplify_eq; done).
    rewrite (into_power_map_key _ _ _ Hin), Hk, <- (into_power_map_key _ _ _ Hin') in Hn. congruence.
  - apply Haux; [apply into_power_map_key|]. intros b v w. simpl.
    destruct (into_power_map serialize current !! b); [case_decide|]; intros; simplify_eq; done.
Qed.

Lemma power_diff_weight current next (t : VoteTally K V) k :
  power_table t = from_iter (as_update <$> current) →
  weight (power_table (update_power_table t (as_update <$> power_diff serialize current next))) k =
    weight (from_iter (as_update <$> next)) k.
Proof.
  intros Ht. set (us := as_update <$> power_diff serialize current next).
  assert (power_table (update_power_table t us) = foldl apply_power_update (power_table t) us) as ->
    by by destruct us.
  assert (∀ w, (k, w) ∈ us ↔ mkValidator k w ∈ power_diff serialize current next) as Hus.
  { intros w. unfold us. rewrite list_elem_of_fmap. split.
    - intros ([k' w'] & Heq & Hin). unfold as_update in Heq. simpl in Heq. by simplify_eq.
    - intros Hin. by exists (mkValidator k w). }
  unfold weight at 2. rewrite from_iter_power.
  destruct (into_power_map serialize next !! serialize k) as [v|] eqn:Hn; simpl.
  - assert (public_key v = k) as Hk by (symmetry; apply Hinj; by apply into_power_map_key in Hn).
    destruct (decide (into_power_map serialize current !! serialize k = Some v)) as [Hc|Hc].
    + unfold weight. rewrite apply_updates_notin, Ht, from_iter_power, Hc; [done|].
      intros ([k' w] & -> & Hin)%list_elem_of_fmap. simpl in *.
      apply Hus, elem_of_power_diff in Hin as [(w' & _ & Hn' & _)|[Hn' Hc']]; simpl in *; congruence.
    + apply apply_updates_in; [apply power_diff_keys|]. apply Hus, elem_of_power_diff. right. simpl.
      destruct v as [k' w]. simpl in *. by subst k'.
  - destruct (into_power_map serialize current !! serialize k) as [v|] eqn:Hc.
    + apply apply_updates_in; [apply power_diff_keys|]. apply Hus, elem_of_power_diff. left.
      exists v. simpl. split_and!; try done. symmetry. apply Hinj. by apply into_power_map_key in Hc.
    + unfold weight. rewrite apply_updates_notin, Ht, from_iter_power, Hc; [done|].
      intros ([k' w] & -> & Hin)%list_elem_of_fmap. simpl in *.
      apply Hus, elem_of_power_diff in Hin as [(w' & Hc' & _)|[Hn' _]]; simpl in *; congruence.
Qed.
End power_facts.

Section checkpoint_theorems.
Context {S K A M R V : Type} `{Countable K} `{Countable V} `{Gateway S K A M R} (serialize : K → bytes).
Implicit Types (st : FvmExecState S) (current next : list (Validator K)).

(** The difference of two power tables does its job: a tally (or CometBFT) that
    has the current table and applies the difference gives every validator the
    power it has in the next one. *)
Theorem power_diff_applies current next (t : VoteTally K V) k :
  Inj (=) (=) serialize → power_table t = from_iter (as_update <$> current) →
  weight (power_table (update_power_table t (as_update <$> power_diff serialize current next))) k =
    weight (from_iter (as_update <$> next)) k.
Proof. intros Hinj Ht. by apply power_diff_weight. Qed.

Lemma should_create_checkpoint_Some st h msgs id :
  should_create_checkpoint (K:=K) (R:=R) st h = Ok (Some (msgs, id)) →
  gw_enabled (K:=K) (R:=R) (M:=M) (A:=A) (ledger st) = Ok true ∧
  gw_subnet_id (K:=K) (R:=R) (M:=M) (ledger st) = Ok id ∧ is_root id = false ∧
  ∃ bh, gw_bottom_up_msg_batch (K:=K) (R:=R) (A:=A) (ledger st) h = Ok (bh, msgs) ∧
    (bh ≠ 0 ∨ ∃ period, gw_bottom_up_check_period (K:=K) (R:=R) (M:=M) (A:=A) (ledger st) = Ok period ∧
                        period ≠ 0 ∧ h mod period = 0).
Proof.
  unfold should_create_checkpoint. intros Hs.
  destruct (gw_enabled (ledger st)) as [[]| | |] eqn:E1; simpl in Hs; try done.
  destruct (gw_subnet_id (ledger st)) as [id'| | |] eqn:E2; simpl in Hs; try done.
  destruct (is_root id') eqn:E3; [done|].
  destruct (gw_bottom_up_msg_batch (ledger st) h) as [[bh ms]| | |] eqn:E4; simpl in Hs; try done.
  destruct (bh =? 0) eqn:E5; simpl in Hs; zbool.
  - destruct (gw_bottom_up_check_period (ledger st)) as [period| | |] eqn:E6; simpl in Hs; try done.
    destruct (period =? 0) eqn:E7; [done|]. destruct (h mod period =? 0) eqn:E8; [|done].
    zbool. simplify_eq. eauto 15.
  - simplify_eq. eauto 10.
Qed.

(** Checkpoints are made at boundaries only, and move the power table on: when
    one is created, the gateway is enabled, the subnet is not a root, and messages
    are waiting or the period is over; the supply goes down by the value leaving;
    and a tally with the table before has the ledger's table after applying the
    updates returned, unless the configuration did not change. *)
Theorem checkpoint_boundary st st' cp updates c0 current (t : VoteTally K V) :
  Inj (=) (=) serialize →
  maybe_create_checkpoint (R:=R) serialize st = Ok (st', Some (cp, updates)) →
  gw_current_power_table (R:=R) (M:=M) (A:=A) (ledger st) = Ok (c0, current) →
  power_table t = from_iter (as_update <$> current) →
  cp_block_height cp = exec_height st ∧ exec_block_hash st = Some (cp_block_hash cp) ∧
  gw_enabled (K:=K) (R:=R) (M:=M) (A:=A) (ledger st) = Ok true ∧ is_root (cp_subnet_id cp) = false ∧
  circ_supply (params st') = circ_supply (params st) - tokens_to_burn (S:=S) (K:=K) (R:=R) (A:=A) (cp_msgs cp) ∧
  (cp_next_configuration_number cp = 0 → updates = []) ∧
  (cp_next_configuration_number cp ≠ 0 →
   ∃ c1 next, gw_current_power_table (R:=R) (M:=M) (A:=A) (ledger st') = Ok (c1, next) ∧
     ∀ k, weight (power_table (update_power_table t (as_update <$> updates))) k =
          weight (from_iter (as_update <$> next)) k).
Proof.
  intros Hinj Hm Hcur Ht. unfold maybe_create_checkpoint in Hm.
  destruct (exec_height st <? 0); [done|].
  destruct (exec_block_hash st) as [bh|] eqn:Hbh; simpl in Hm; [|done].
  destruct (should_create_checkpoint st (exec_height st)) as [[[msgs id]|]| | |] eqn:Hs; simpl in Hm; try done.
  apply should_create_checkpoint_Some in Hs as (Hen & Hid & Hroot & _).
  rewrite Hcur in Hm. simpl in Hm.
  destruct (gw_apply_validator_changes (ledger st)) as [[s1 conf]| | |] eqn:Ha; simpl in Hm; try done.
  unfold on_ledger in Hm. simpl in Hm.
  destruct (gw_create_bottom_up_checkpoint s1 _ current) as [s2| | |] eqn:Hc; simpl in Hm; try done.
  destruct (conf =? 0) eqn:Hconf; simpl in Hm.
  - simplify_eq. simpl. zbool. split_and!; try done.
  - destruct (gw_current_power_table s2) as [[c1 next]| | |] eqn:Hn; simpl in Hm; try done.
    simplify_eq. simpl. zbool. split_and!; try done. intros _. exists c1, next. split; [done|].
    intros k. by apply power_diff_weight.
Qed.

(** Top-down messages mint exactly the value they carry: executing them raises
    the circulating supply by the sum of their values and marks the parameters for
    saving whenever that is not zero. *)
Theorem topdown_mints_value st messages st' r :
  execute_topdown_msgs (K:=K) (M:=M) (R:=R) st messages = Ok (st', r) →
  circ_supply (params st') = circ_supply (params st) + foldr Z.add 0 (value <$> messages) ∧
  (foldr Z.add 0 (value <$> messages) ≠ 0 → params_dirty st' = true) ∧
  base_fee (params st') = base_fee (params st) ∧ exec_height st' = exec_height st.
Proof.
  assert (∀ acc, foldl (λ total m, total + value m) acc messages = acc + foldr Z.add 0 (value <$> messages)) as Hsum.
  { induction messages as [|m ms IH]; intros acc; simpl; [lia|]. rewrite IH. unfold fmap. lia. }
  unfold execute_topdown_msgs, tokens_to_mint. rewrite Hsum, Z.add_0_l. intros Hx.
  destruct (foldr Z.add 0 (value <$> messages) =? 0) eqn:Hz; zbool; simpl in Hx.
  - destruct (gw_apply_cross_messages _ messages) as [[s2 r2]| | |]; simpl in Hx; try done.
    simplify_eq. simpl. split_and!; try done. lia.
  - unfold on_ledger in Hx. destruct (gw_mint_to_gateway (ledger st) _) as [s1| | |]; simpl in Hx; try done.
    destruct (gw_apply_cross_messages _ messages) as [[s2 r2]| | |]; simpl in Hx; try done.
    simplify_eq. simpl. split_and!; done.
Qed.

(** Power is collateral rounded up: for every scale that an [i8] can shift by,
    the power of a collateral is the least number of units covering it, at least
    one when there is any collateral, and clipped to the largest word. *)
Theorem into_power_ceil atto scale :
  0 <= atto → -109 <= scale <= 127 →
  is_u64 (into_power atto scale) ∧ (0 < atto → 0 < into_power atto scale) ∧
  (into_power atto scale < U64_MAX →
   (into_power atto scale - 1) * atto_per_power scale < atto <= into_power atto scale * atto_per_power scale).
Proof.
  intros Ha Hs.
  assert (0 < atto_per_power scale) as Hpos.
  { unfold atto_per_power. apply Z.pow_pos_nonneg; [lia|]. unfold scale_decimals, saturating_sub, DECIMALS.
    destruct (0 <=? scale); [lia|]. apply Z.mod_pos_bound. lia. }
  unfold into_power, div_ceil, is_u64.
  assert (0 <= - (- atto / atto_per_power scale)) as Hnn.
  { pose proof (Z.div_le_upper_bound (- atto) (atto_per_power scale) 0). lia. }
  pose proof (Z.mul_div_le (- atto) (atto_per_power scale) Hpos) as Hlo.
  pose proof (Z.mul_succ_div_gt (- atto) (atto_per_power scale) Hpos) as Hhi.
  split; [unfold U64_MAX; lia|]. split.
  - intros Hp. assert (- atto / atto_per_power scale < 0) by (apply Z.div_lt_upper_bound; lia).
    unfold U64_MAX. lia.
  - intros Hlt. rewrite Z.min_l by lia. nia.
Qed.

(** Scheduling an upgrade: it is found at its chain and height and nowhere
    else, and a second one for the same chain and height is refused. *)
Theorem schedule_upgrade_spec (sch : UpgradeScheduler S) (u : Upgrade S) :
  match schedule sch u with
  | Ok sch' =>
      scheduled sch (up_chain_id u) (up_block_height u) = None ∧
      ∀ c h, scheduled sch' c h =
        if decide (c = up_chain_id u ∧ h = up_block_height u) then Some u else scheduled sch c h
  | Err _ => is_Some (scheduled sch (up_chain_id u) (up_block_height u))
  | _ => False
  end.
Proof.
  unfold schedule, scheduled. destruct (sch !! _) eqn:E; [eauto|]. split; [done|].
  intros c h. case_decide as Hd.
  - destruct Hd as [-> ->]. apply (lookup_insert_eq (M:=gmap (Z * Z))).
  - apply (lookup_insert_ne (M:=gmap (Z * Z))). intros [= <- <-]. by destruct Hd.
Qed.
End checkpoint_theorems.

(** ** Witnesses: a ledger that is just the configuration number and two power
    tables, with a checkpoint period of ten blocks. *)
Record ToyLedger := mkToy { toy_conf : Z; toy_current : list (Validator Z); toy_next : list (Validator Z) }.
#[local] Instance toy_gateway : Gateway ToyLedger Z IdAddress Z unit := {
  gw_enabled _ := Ok true;
  gw_subnet_id _ := Ok sample_subnet;
  gw_bottom_up_msg_batch _ _ := Ok (0, [5; 7]);
  gw_bottom_up_check_period _ := Ok 10;
  gw_current_power_table s := Ok (toy_conf s, toy_current s);
  gw_apply_validator_changes s := Ok (mkToy (toy_conf s + 1) (toy_next s) (toy_next s), toy_conf s + 1);
  gw_create_bottom_up_checkpoint s _ _ := Ok s;
  gw_commit_parent_finality s _ := Ok (s, None);
  gw_store_validator_changes s _ := Ok s;
  gw_mint_to_gateway s _ := Ok s;
  gw_apply_cross_messages s _ := Ok (s, tt);
  gw_incomplete_checkpoints _ := Ok [];
  gw_checkpoint_signatories _ _ := Ok [];
  msg_value m := m;
}.
Definition toy_serialize (k : Z) : bytes := [k].
#[local] Instance toy_serialize_inj : Inj (=) (=) toy_serialize.
Proof. intros x y Hxy. by injection Hxy. Qed.
Definition table_before : list (Validator Z) := [mkValidator 1 10; mkValidator 2 20; mkValidator 3 30].
Definition table_after : list (Validator Z) := [mkValidator 1 10; mkValidator 3 35; mkValidator 4 40].
Definition toy_exec : FvmExecState ToyLedger :=
  mkExec (mkToy 1 table_before table_after) 1337 20 0 (Some [9]) None (mkParams 0 0 1000 3) false.
Definition toy_tally : VoteTally Z Z := Voting.new (as_update <$> table_before) (0, 0).

Lemma power_diff_applies_witness :
  weight (power_table (update_power_table toy_tally
    (as_update <$> power_diff toy_serialize table_before table_after))) 2 = 0 ∧
  weight (power_table (update_power_table toy_tally
    (as_update <$> power_diff toy_serialize table_before table_after))) 3 = 35.
Proof.
  split.
  - apply (power_diff_applies toy_serialize table_before table_after toy_tally 2); [exact toy_serialize_inj|reflexivity].
  - apply (power_diff_applies toy_serialize table_before table_after toy_tally 3); [exact toy_serialize_inj|reflexivity].
Defined.

Definition toy_checkpoint : BottomUpCheckpoint IdAddress Z := mkCheckpoint sample_subnet 20 [9] 2 [5; 7].
Definition toy_exec_after : FvmExecState ToyLedger :=
  mkExec (mkToy 2 table_after table_after) 1337 20 0 (Some [9]) None (mkParams 0 0 988 3) true.
Lemma checkpoint_boundary_witness :
  circ_supply (params toy_exec_after) = 1000 - 12 ∧ is_root (cp_subnet_id toy_checkpoint) = false.
Proof.
  destruct (checkpoint_boundary (R:=unit) toy_serialize toy_exec toy_exec_after toy_checkpoint
              (power_diff toy_serialize table_before table_after) 1 table_before toy_tally)
    as (_ & _ & _ & Hroot & Hsupply & _).
  - exact toy_serialize_inj.
  - vm_compute. reflexivity.
  - reflexivity.
  - reflexivity.
  - split; [exact Hsupply|exact Hroot].
Defined.

Lemma topdown_mints_value_witness :
  circ_supply (params (set_ledger (update_circ_supply toy_exec (λ c, c + 2)) (ledger toy_exec))) = 1002.
Proof.
  apply (topdown_mints_value (K:=Z) (M:=Z) (R:=unit) toy_exec [sample_msg 1; sample_msg 2] _ tt).
  vm_compute. reflexivity.
Defined.

Lemma into_power_ceil_witness : 0 < into_power 1 3 ∧ into_power 1500000000000000 3 = 2.
Proof.
  split; [|vm_compute; reflexivity]. destruct (into_power_ceil 1 3) as (_ & H & _); [lia|lia|]. apply H. lia.
Defined.
