(* ===== verification/Message.v ===== *)
(** * Messages, their signatures, and Ethereum transactions
    ([vm/message/src/signed.rs], [conv/from_eth.rs], [conv/from_fvm.rs],
    [vm/actor_interface/src/eam.rs], [vm/interpreter/src/signed.rs])

    A message is either signed the FVM way (over its CID and the chain id) or, when
    both ends are Ethereum addresses, the way Ethereum signs the transaction the
    message converts to.  [SignedMessageInterpreter] lets a message through to the
    FVM only after its signature verified.

    Hashes, curve operations and serializers live in other crates: they are the
    class [MsgCrypto], and what signing relies on is [MsgCryptoLaws].  The payload of
    an address is [AddressPayload]. *)

From Stdlib Require Import Ascii String DecimalString DecimalN.
From stdpp Require Import base tactics numbers list countable.
From S2P Require Import Prelude IpcApi.

Open Scope Z_scope.

(** ** Addresses *)

Inductive Payload :=
| PayloadID (id : Z)
| PayloadSecp256k1 (hash : bytes)
| PayloadActor (hash : bytes)
| PayloadDelegated (namespace : Z) (subaddress : bytes)
| PayloadBLS (key : bytes).
#[export] Instance payload_eq_dec : EqDecision Payload.
Proof. solve_decision. Defined.
#[export] Instance payload_countable : Countable Payload.
Proof.
  refine (inj_countable' (λ p, match p with
    | PayloadID id => (0%nat, id, [])
    | PayloadSecp256k1 h => (1%nat, 0, h)
    | PayloadActor h => (2%nat, 0, h)
    | PayloadDelegated ns sub => (3%nat, ns, sub)
    | PayloadBLS k => (4%nat, 0, k)
    end) (λ t, match t with
    | (0%nat, id, _) => PayloadID id
    | (1%nat, _, h) => PayloadSecp256k1 h
    | (2%nat, _, h) => PayloadActor h
    | (3%nat, ns, sub) => PayloadDelegated ns sub
    | (_, _, k) => PayloadBLS k
    end) _). by intros [].
Defined.

Class AddressPayload (A : Type) `{AddressOps A} := {
  payload : A → Payload;
  new_delegated : Z → bytes → option A;
}.
Class AddressPayloadLaws (A : Type) `{AddressPayload A} : Prop := {
  payload_inj (a b : A) : payload a = payload b → a = b;
  payload_new_id id : payload (addr_new_id id) = PayloadID id;
  payload_new_delegated ns sub :
    length sub = 20%nat → ∃ a : A, new_delegated ns sub = Some a ∧ payload a = PayloadDelegated ns sub;
}.

Definition EAM_ACTOR_ID : Z := 10.
Definition CREATE_EXTERNAL : Z := 4.
Definition INVOKE_CONTRACT : Z := 3844450837.

(** ** Ethereum addresses ([eam.rs]): arrays of 20 bytes *)

Definition ETH_ADDRESS_LEN : nat := 20.
Definition from_id (id : Z) : bytes := [255] ++ repeat 0 11 ++ to_be_bytes id.
Definition is_masked_id (b : bytes) : bool :=
  match b with
  | b0 :: rest => (b0 =? 255) && bool_decide (take 11 rest = repeat 0 11)
  | [] => false
  end.

(** ** Messages ([fvm_shared::message::Message]) and transactions *)

Record Message (A : Type) := mkMessage {
  m_version : Z;
  m_from : A;
  m_to : A;
  m_sequence : Z;
  m_value : Z;
  m_method_num : Z;
  m_params : bytes;
  m_gas_limit : Z;
  m_gas_fee_cap : Z;
  m_gas_premium : Z;
}.
Arguments mkMessage {A} _ _ _ _ _ _ _ _ _ _.
Arguments m_version {A} _.
Arguments m_from {A} _.
Arguments m_to {A} _.
Arguments m_sequence {A} _.
Arguments m_value {A} _.
Arguments m_method_num {A} _.
Arguments m_params {A} _.
Arguments m_gas_limit {A} _.
Arguments m_gas_fee_cap {A} _.
Arguments m_gas_premium {A} _.

Inductive NameOrAddress := EnsName (name : string) | EthTo (a : bytes).

(** The fields of an [Eip1559TransactionRequest] the conversions use; the access
    list is always the empty default. *)
Record EthTx := mkTx {
  tx_from : option bytes;
  tx_to : option NameOrAddress;
  tx_gas : option Z;
  tx_value : option Z;
  tx_data : option bytes;
  tx_nonce : option Z;
  tx_max_priority_fee_per_gas : option Z;
  tx_max_fee_per_gas : option Z;
  tx_chain_id : option Z;
}.
Record EthSignature := mkEthSig { sig_v : Z; sig_r : Z; sig_s : Z }.

Inductive SignatureType := Secp256k1 | BLSSig.
Record Signature := mkSignature { sig_type : SignatureType; sig_bytes : bytes }.

Definition MAX_U256 : Z := 2 ^ 256 - 1.
Definition SECP_SIG_LEN : nat := 65.
Definition SECP_PUB_LEN : nat := 65.

(** ** Parameters *)

Class MsgCrypto (A : Type) := {
  SecretKey : Type;
  (** [fvm_ipld_encoding]: the CBOR of a message, of a byte string *)
  cbor_message : Message A → option bytes;
  bytes_ser : bytes → option bytes;
  bytes_de : bytes → option bytes;
  (** hashes, and the bytes of a CID made of a digest *)
  blake2b256 : bytes → bytes;
  keccak256 : bytes → bytes;
  cid_v1 : bytes → bytes;
  (** [libsecp256k1] *)
  secp_sign : SecretKey → bytes → bytes * Z;
  recovery_id_parse : Z → option Z;
  parse_standard : bytes → option (bytes * bytes);
  (** [ethers]: the hash of a transaction that is signed, the signed RLP, and
      recovery of the sender *)
  sighash : EthTx → bytes;
  rlp_signed : EthTx → EthSignature → bytes;
  eth_recover : EthSignature → bytes → option bytes;
  (** [fvm_shared]: recovery of the public key, and verification against an
      address, which returns the error if any *)
  recover_secp_public_key : bytes → bytes → option bytes;
  sig_verify : Signature → bytes → A → option string;
}.

Inductive SignedMessageError :=
| ErrIpld
| ErrInvalidSignature (s : string)
| ErrEthereum (s : string).

Inductive Signable :=
| SignEthereum (hash from : bytes)
| SignRegular (data : bytes)
| SignRegularFromEth (data from : bytes).

Record SignedMessage (A : Type) := mkSigned { message : Message A; signature : Signature }.
Arguments mkSigned {A} _ _.
Arguments message {A} _.
Arguments signature {A} _.

Section conv.
Context {A : Type} `{AddressPayload A} `{!MsgCrypto A}.
Implicit Types (m : Message A) (a : A) (tx : EthTx).

(** ** Conversions ([from_eth.rs], [from_fvm.rs]) *)

Definition EAM_ACTOR_ADDR : A := addr_new_id EAM_ACTOR_ID.

(** [impl From<EthAddress> for Address] *)
Definition eth_to_address {E} (b : bytes) : outcome E A :=
  if is_masked_id b then Ok (addr_new_id (from_be_bytes (drop 12 b)))
  else unwrap (new_delegated EAM_ACTOR_ID b).
Definition to_fvm_address {E} (b : bytes) : outcome E A := eth_to_address b.

Definition to_eth_address a : outcome string (option bytes) :=
  match payload a with
  | PayloadDelegated namespace sub =>
      if (namespace =? EAM_ACTOR_ID) && bool_decide (length sub = ETH_ADDRESS_LEN)
      then Ok (Some sub) else Err "not an Ethereum address"%string
  | PayloadID id => if id =? EAM_ACTOR_ID then Ok None else Ok (Some (from_id id))
  | _ => Err "not an Ethereum address"%string
  end.

(** The bytes of the magnitude are taken, without the sign; [from_big_endian]
    panics on more than 32 of them. *)
Definition to_eth_tokens (amount : Z) : outcome string Z :=
  if MAX_U256 <? amount then Err "TokenAmount > U256.MAX"%string
  else if Z.abs amount <=? MAX_U256 then Ok (Z.abs amount) else Panic.
Definition to_fvm_tokens (value : Z) : Z := value.

(** [U256::as_u64] *)
Definition as_u64 {E} (x : Z) : outcome E Z := if x <=? U64_MAX then Ok x else Panic.

Definition zero_address : bytes := repeat 0 20.

Definition to_fvm_message tx : outcome string (Message A) :=
  r ← match tx_to tx with
      | None => Ok (CREATE_EXTERNAL, EAM_ACTOR_ADDR)
      | Some (EthTo to) => a ← to_fvm_address to; Ok (INVOKE_CONTRACT, a)
      | Some (EnsName _) => Err "ENS is not supported"%string
      end;
  from ← to_fvm_address (default zero_address (tx_from tx));
  params ← ok_or "cannot serialize"%string (bytes_ser (default [] (tx_data tx)));
  sequence ← as_u64 (default 0 (tx_nonce tx));
  Ok (mkMessage 0 from r.2 sequence (to_fvm_tokens (default 0 (tx_value tx))) r.1 params
        (default 0 ((λ gas, Z.min gas U64_MAX) <$> tx_gas tx))
        (to_fvm_tokens (default 0 (tx_max_fee_per_gas tx)))
        (to_fvm_tokens (default 0 (tx_max_priority_fee_per_gas tx)))).

Definition to_eth_transaction_request m (chain_id : Z) : outcome string EthTx :=
  data ← ok_or "cannot deserialize"%string (bytes_de (m_params m));
  from ← to_eth_address (m_from m);
  fee_cap ← to_eth_tokens (m_gas_fee_cap m);
  premium ← to_eth_tokens (m_gas_premium m);
  to ← to_eth_address (m_to m);
  v ← (if m_value m =? 0 then Ok None else v ← to_eth_tokens (m_value m); Ok (Some v));
  Ok (mkTx (Some (default zero_address from)) (EthTo <$> to) (Some (m_gas_limit m)) v (Some data)
        (Some (m_sequence m)) (Some premium) (Some fee_cap) (Some chain_id)).

Definition parse_secp256k1 (sig : bytes) : outcome string (Z * (bytes * bytes)) :=
  if decide (length sig = SECP_SIG_LEN) then
    b64 ← unwrap (sig !! 64%nat);
    rec_id ← ok_or "invalid recovery id"%string (recovery_id_parse b64);
    rs ← ok_or "invalid signature"%string (parse_standard (take 64 sig));
    Ok (rec_id, rs)
  else Err "unexpected Secp256k1 length"%string.

(** [v.serialize() + shift] is a [u8] addition. *)
Definition to_eth_signature (sig : Signature) (normalized : bool) : outcome string EthSignature :=
  match sig_type sig with
  | Secp256k1 =>
      p ← parse_secp256k1 (sig_bytes sig);
      let shift := if normalized then 0 else 27 in
      Ok (mkEthSig ((p.1 + shift) mod 256) (from_be_bytes p.2.1) (from_be_bytes p.2.2))
  | _ => Err "unexpected signature type"%string
  end.

(** [EthAddress::from(PublicKey)]: the last 20 bytes of the hash of the key. *)
Definition eth_address_of_key {E} (pubkey : bytes) : outcome E bytes :=
  if decide (length pubkey = SECP_PUB_LEN) then
    let h := drop 12 (keccak256 (drop 1 pubkey)) in
    if decide (length h = ETH_ADDRESS_LEN) then Ok h else Panic
  else Panic.

(** ** Signing and verification ([signed.rs]) *)

Definition maybe_eth_address a : option bytes :=
  match payload a with
  | PayloadDelegated namespace sub =>
      if (namespace =? EAM_ACTOR_ID) && bool_decide (length sub = ETH_ADDRESS_LEN) then Some sub else None
  | _ => None
  end.
Definition is_eth_addr_compat a : bool := match to_eth_address a with Ok _ => true | _ => false end.
Definition is_eth_addr_deleg a : bool := bool_decide (is_Some (maybe_eth_address a)).

Definition chain_id_bytes (chain_id : Z) : bytes := to_be_bytes chain_id.
Definition message_cid m : outcome SignedMessageError bytes :=
  bz ← ok_or ErrIpld (cbor_message m); Ok (cid_v1 (blake2b256 bz)).

Definition signable m (chain_id : Z) : outcome SignedMessageError Signable :=
  match maybe_eth_address (m_from m) with
  | Some addr =>
      if is_eth_addr_compat (m_to m) then
        tx ← map_err ErrEthereum (to_eth_transaction_request m chain_id);
        Ok (SignEthereum (sighash tx) addr)
      else
        cid ← message_cid m; Ok (SignRegularFromEth (cid ++ chain_id_bytes chain_id) addr)
  | None => cid ← message_cid m; Ok (SignRegular (cid ++ chain_id_bytes chain_id))
  end.

Definition sign_secp256k1 (sk : SecretKey) (hash : bytes) : Signature :=
  let '(sig, rec_id) := secp_sign sk hash in mkSignature Secp256k1 (sig ++ [rec_id]).
Definition sign_regular (sk : SecretKey) (data : bytes) : Signature := sign_secp256k1 sk (blake2b256 data).
Definition sign_eth (sk : SecretKey) (hash : bytes) : Signature := sign_secp256k1 sk hash.

Definition new_secp256k1 m (sk : SecretKey) (chain_id : Z) : outcome SignedMessageError (SignedMessage A) :=
  s ← signable m chain_id;
  Ok (mkSigned m match s with
                 | SignEthereum hash _ => sign_eth sk hash
                 | SignRegular data => sign_regular sk data
                 | SignRegularFromEth data _ => sign_regular sk data
                 end).

Definition verify_eth_method m : outcome SignedMessageError unit :=
  if decide (m_to m = EAM_ACTOR_ADDR) then
    if m_method_num m =? CREATE_EXTERNAL then Ok tt
    else Err (ErrEthereum "The EAM actor can only be called with CreateExternal")
  else if m_method_num m =? INVOKE_CONTRACT then Ok tt
  else Err (ErrEthereum "An EVM actor can only be called with InvokeContract").

Definition recover_secp256k1 (sig : Signature) (data : bytes) : outcome string bytes :=
  if decide (length (sig_bytes sig) = SECP_SIG_LEN) then
    ok_or "cannot recover"%string (recover_secp_public_key (blake2b256 data) (sig_bytes sig))
  else Err "Invalid Secp256k1 signature length"%string.

Definition not_recovered : string :=
  "the Ethereum delegated address did not match the one recovered from the signature"%string.

Definition verify_signature m (sig : Signature) (chain_id : Z) : outcome SignedMessageError unit :=
  s ← signable m chain_id;
  match s with
  | SignEthereum hash from =>
      esig ← map_err ErrEthereum (to_eth_signature sig true);
      rec ← ok_or (ErrEthereum "cannot recover") (eth_recover esig hash);
      if decide (rec = from) then verify_eth_method m else Err (ErrInvalidSignature not_recovered)
  | SignRegular data =>
      match sig_verify sig data (m_from m) with
      | None => Ok tt
      | Some e => Err (ErrInvalidSignature e)
      end
  | SignRegularFromEth data from =>
      rec ← map_err ErrInvalidSignature (recover_secp256k1 sig data);
      rec_addr ← eth_address_of_key rec;
      if decide (rec_addr = from) then Ok tt else Err (ErrInvalidSignature not_recovered)
  end.
Definition verify (sm : SignedMessage A) (chain_id : Z) : outcome SignedMessageError unit :=
  verify_signature (message sm) (signature sm) chain_id.

Definition domain_hash (sm : SignedMessage A) (chain_id : Z) : outcome SignedMessageError (option bytes) :=
  if is_eth_addr_deleg (m_from (message sm)) && is_eth_addr_compat (m_to (message sm)) then
    tx ← map_err ErrEthereum (to_eth_transaction_request (message sm) chain_id);
    sig ← map_err ErrEthereum (to_eth_signature (signature sm) true);
    let hash := keccak256 (rlp_signed tx sig) in
    if decide (length hash = 32%nat) then Ok (Some hash) else Panic
  else Ok None.
End conv.

(** ** The interpreter of signed messages ([vm/interpreter/src/signed.rs]) *)

Record SyntheticMessage (A : Type) := mkSynthetic {
  syn_message : Message A;
  orig_cid : bytes;
  syn_signature : Signature;
}.
Arguments mkSynthetic {A} _ _ _.
Arguments syn_message {A} _.
Arguments orig_cid {A} _.
Arguments syn_signature {A} _.

Inductive VerifiableMessage (A : Type) :=
| VSigned (m : SignedMessage A)
| VSynthetic (m : SyntheticMessage A)
| VNotVerify (m : Message A).
Arguments VSigned {A} _.
Arguments VSynthetic {A} _.
Arguments VNotVerify {A} _.

Record SignedMessageApplyRet (R : Type) := mkSignedRet { fvm : R; ret_domain_hash : option bytes }.
Arguments mkSignedRet {R} _ _.
Arguments fvm {R} _.
Arguments ret_domain_hash {R} _.

Section signed_interpreter.
Context {A : Type} `{AddressPayload A} `{!MsgCrypto A}.
(** The inner interpreter, its state and its results. *)
Context {St R C : Type} (chain_id : St → Z).
Context (inner_deliver : St → Message A → outcome string (St * R)).
Context (inner_check : St → Message A → bool → outcome string (St * C)).
Implicit Types (st : St) (msg : VerifiableMessage A).

(** [orig] is the CBOR of the original message. *)
Definition new_synthetic (m : Message A) (orig : option bytes) (sig : Signature)
    : outcome SignedMessageError (SyntheticMessage A) :=
  bz ← ok_or ErrIpld orig; Ok (mkSynthetic m (cid_v1 (blake2b256 bz)) sig).
Definition verify_synthetic (m : SyntheticMessage A) (chain : Z) : outcome SignedMessageError unit :=
  match sig_verify (syn_signature m) (orig_cid m ++ chain_id_bytes chain) (m_from (syn_message m)) with
  | None => Ok tt
  | Some e => Err (ErrInvalidSignature e)
  end.

Definition verify_verifiable msg (chain : Z) : outcome SignedMessageError unit :=
  match msg with
  | VSigned m => verify m chain
  | VSynthetic m => verify_synthetic m chain
  | VNotVerify _ => Ok tt
  end.
Definition into_message msg : Message A :=
  match msg with
  | VSigned m => message m
  | VSynthetic m => syn_message m
  | VNotVerify m => m
  end.
Definition verifiable_domain_hash msg (chain : Z) : outcome SignedMessageError (option bytes) :=
  match msg with
  | VSigned m => domain_hash m chain
  | VSynthetic _ => Ok None
  | VNotVerify _ => Ok None
  end.

(** The left of the sum is [InvalidSignature]. *)
Definition signed_deliver st msg : outcome string (St * (string + SignedMessageApplyRet R)) :=
  match verify_verifiable msg (chain_id st) with
  | Err ErrIpld => Err "message cannot be serialized"%string
  | Err (ErrEthereum e) => Ok (st, inl e)
  | Err (ErrInvalidSignature s) => Ok (st, inl s)
  | Ok _ =>
      h ← map_err (λ _, "failed to compute domain hash"%string)
            (verifiable_domain_hash msg (chain_id st));
      r ← inner_deliver st (into_message msg);
      Ok (r.1, inr (mkSignedRet r.2 h))
  | Retry => Retry
  | Panic => Panic
  end.

Definition signed_check st msg (is_recheck : bool) : outcome string (St * (string + C)) :=
  let verify_result := if is_recheck then Ok tt else verify_verifiable msg (chain_id st) in
  match verify_result with
  | Err ErrIpld => Err "message cannot be serialized"%string
  | Err (ErrEthereum e) => Ok (st, inl e)
  | Err (ErrInvalidSignature s) => Ok (st, inl s)
  | Ok _ => r ← inner_check st (into_message msg) is_recheck; Ok (r.1, inr r.2)
  | Retry => Retry
  | Panic => Panic
  end.
End signed_interpreter.

(** ** Laws of the parameters

    [address_of] and [eth_address_of] are the addresses of a key.  Signatures parse
    back, recovering the signer of a hash gives the key that signed it, and
    verification accepts a signature of the key of a secp256k1 address. *)
Class MsgCryptoLaws (A : Type) `{AddressPayload A} `{!MsgCrypto A} := {
  public_key_bytes : SecretKey → bytes;
  secp_address : SecretKey → A;
  bytes_roundtrip b : ∃ s, bytes_ser b = Some s ∧ bytes_de s = Some b;
  keccak_length b : length (keccak256 b) = 32%nat;
  public_key_length sk : length (public_key_bytes sk) = SECP_PUB_LEN;
  sign_length sk h : length (secp_sign sk h).1 = 64%nat;
  sign_parses sk h :
    0 <= (secp_sign sk h).2 < 4 ∧
    recovery_id_parse (secp_sign sk h).2 = Some (secp_sign sk h).2 ∧
    ∃ r s, parse_standard (secp_sign sk h).1 = Some (r, s) ∧
      eth_recover (mkEthSig (secp_sign sk h).2 (from_be_bytes r) (from_be_bytes s)) h =
        Some (drop 12 (keccak256 (drop 1 (public_key_bytes sk))));
  recover_sign sk h :
    recover_secp_public_key h ((secp_sign sk h).1 ++ [(secp_sign sk h).2]) = Some (public_key_bytes sk);
  verify_secp sk data :
    sig_verify (sign_regular sk data) data (secp_address sk) = None;
}.

(** ** Facts *)

Lemma from_id_masked id : is_masked_id (from_id id) = true.
Proof. done. Qed.
Lemma from_id_drop id : drop 12 (from_id id) = to_be_bytes id.
Proof. done. Qed.
Lemma from_id_inj x y : is_u64 x → is_u64 y → from_id x = from_id y → x = y.
Proof.
  intros Hx Hy Heq. destruct (to_be_bytes_roundtrip x Hx) as [<- _], (to_be_bytes_roundtrip y Hy) as [<- _].
  by rewrite <- !from_id_drop, Heq.
Qed.

Section conv_facts.
Context {A : Type} `{AddressPayloadLaws A} `{!MsgCrypto A}.
Implicit Types (m : Message A) (a : A) (tx : EthTx) (b : bytes).

(** The addresses with one Ethereum form: a delegated address that does not look
    like a masked ID, and an ID other than the address manager's. *)
Definition eth_addr_ok a : Prop :=
  match payload a with
  | PayloadDelegated namespace sub =>
      namespace = EAM_ACTOR_ID ∧ length sub = ETH_ADDRESS_LEN ∧ is_masked_id sub = false
  | PayloadID id => is_u64 id ∧ id ≠ EAM_ACTOR_ID
  | _ => False
  end.

Lemma to_eth_address_ok a :
  eth_addr_ok a → ∃ b, to_eth_address a = Ok (Some b) ∧ ∀ E, to_fvm_address (E:=E) b = Ok a.
Proof.
  unfold eth_addr_ok, to_eth_address, to_fvm_address, eth_to_address.
  destruct (payload a) as [id| | |ns sub|] eqn:Ha; try done.
  - intros [Hid Hne]. rewrite (proj2 (Z.eqb_neq _ _) Hne). eexists. split; [done|]. intros E.
    rewrite from_id_masked, from_id_drop. destruct (to_be_bytes_roundtrip id Hid) as [-> _].
    f_equal. apply payload_inj. by rewrite payload_new_id.
  - intros (-> & Hl & Hm). rewrite Z.eqb_refl, bool_decide_eq_true_2 by done. simpl.
    exists sub. split; [done|]. intros E. rewrite Hm.
    destruct (payload_new_delegated EAM_ACTOR_ID sub Hl) as (a' & -> & Ha'). simpl.
    f_equal. apply payload_inj. by rewrite Ha', Ha.
Qed.
Lemma to_eth_address_eam : to_eth_address (EAM_ACTOR_ADDR (A:=A)) = Ok None.
Proof. unfold to_eth_address, EAM_ACTOR_ADDR. by rewrite payload_new_id. Qed.
Lemma eth_addr_ok_not_eam a : eth_addr_ok a → a ≠ EAM_ACTOR_ADDR.
Proof. intros (b & Hb & _)%to_eth_address_ok ->. by rewrite to_eth_address_eam in Hb. Qed.
Lemma maybe_eth_to_eth a b : maybe_eth_address a = Some b → to_eth_address a = Ok (Some b).
Proof.
  unfold maybe_eth_address, to_eth_address. destruct (payload a); try done.
  destruct (_ && _); [by intros [= ->]|done].
Qed.
Lemma maybe_eth_inj a1 a2 b : maybe_eth_address a1 = Some b → maybe_eth_address a2 = Some b → a1 = a2.
Proof.
  unfold maybe_eth_address. intros Ha1 Ha2. apply payload_inj.
  destruct (payload a1) as [| | |ns1 s1|]; try done. destruct (payload a2) as [| | |ns2 s2|]; try done.
  destruct (_ && _) eqn:E1 in Ha1; [|done]. destruct (_ && _) eqn:E2 in Ha2; [|done]. zbool. congruence.
Qed.

Lemma to_eth_tokens_ok x : 0 <= x <= MAX_U256 → to_eth_tokens x = Ok x.
Proof.
  intros [??]. unfold to_eth_tokens. rewrite (proj2 (Z.ltb_ge _ _)), Z.abs_eq by lia.
  by rewrite (proj2 (Z.leb_le _ _)).
Qed.
Lemma to_eth_tokens_abs x y : to_eth_tokens x = Ok y → y = Z.abs x.
Proof. unfold to_eth_tokens. repeat case_match; congruence. Qed.
Lemma to_eth_tokens_opp x y : to_eth_tokens x = Ok y → to_eth_tokens (- x) = Ok y.
Proof.
  unfold to_eth_tokens. rewrite Z.abs_opp. destruct (MAX_U256 <? x) eqn:Hx; [done|].
  destruct (Z.abs x <=? MAX_U256) eqn:Ha; [|done]. zbool.
  by rewrite (proj2 (Z.ltb_ge _ _)) by lia.
Qed.

(** What the transaction of a message records of it. *)
Lemma to_eth_transaction_request_Ok m c tx :
  to_eth_transaction_request m c = Ok tx →
  ∃ data from to, bytes_de (m_params m) = Some data ∧ to_eth_address (m_from m) = Ok from ∧
    to_eth_address (m_to m) = Ok to ∧
    tx = mkTx (Some (default zero_address from)) (EthTo <$> to) (Some (m_gas_limit m))
           (if m_value m =? 0 then None else Some (Z.abs (m_value m))) (Some data) (Some (m_sequence m))
           (Some (Z.abs (m_gas_premium m))) (Some (Z.abs (m_gas_fee_cap m))) (Some c).
Proof.
  unfold to_eth_transaction_request. destruct (bytes_de (m_params m)) as [data|]; simpl; [|done].
  destruct (to_eth_address (m_from m)) as [from| | |]; simpl; try done.
  destruct (to_eth_tokens (m_gas_fee_cap m)) as [fee| | |] eqn:Hf; simpl; try done.
  destruct (to_eth_tokens (m_gas_premium m)) as [prem| | |] eqn:Hp; simpl; try done.
  destruct (to_eth_address (m_to m)) as [to| | |]; simpl; try done.
  apply to_eth_tokens_abs in Hf as ->. apply to_eth_tokens_abs in Hp as ->.
  destruct (m_value m =? 0); simpl; [intros [= <-]; eauto 10|].
  destruct (to_eth_tokens (m_value m)) as [v| | |] eqn:Hv; simpl; try done.
  apply to_eth_tokens_abs in Hv as ->. intros [= <-]. eauto 10.
Qed.

Lemma signable_eth m c addr tx :
  maybe_eth_address (m_from m) = Some addr → to_eth_transaction_request m c = Ok tx →
  signable m c = Ok (SignEthereum (sighash tx) addr).
Proof.
  intros Ha Htx. unfold signable. rewrite Ha.
  destruct (to_eth_transaction_request_Ok _ _ _ Htx) as (_ & _ & to & _ & _ & Hto & _).
  unfold is_eth_addr_compat. by rewrite Hto, Htx.
Qed.

Lemma decide_refl {B} `{EqDecision B} (x : B) {C} (y z : C) : (if decide (x = x) then y else z) = y.
Proof. by rewrite decide_True. Qed.
Lemma to_eth_address_inj a1 a2 t :
  (a1 = EAM_ACTOR_ADDR ∨ eth_addr_ok a1) → (a2 = EAM_ACTOR_ADDR ∨ eth_addr_ok a2) →
  to_eth_address a1 = Ok t → to_eth_address a2 = Ok t → a1 = a2.
Proof.
  intros [->|(b1 & Hb1 & Hf1)%to_eth_address_ok] [->|(b2 & Hb2 & Hf2)%to_eth_address_ok] Ht1 Ht2;
    rewrite ?to_eth_address_eam in *; try congruence.
  assert (b1 = b2) as <- by congruence. specialize (Hf1 string). specialize (Hf2 string). congruence.
Qed.
Lemma verify_eth_method_eq m1 m2 :
  m_to m1 = m_to m2 → verify_eth_method m1 = Ok tt → verify_eth_method m2 = Ok tt →
  m_method_num m1 = m_method_num m2.
Proof.
  unfold verify_eth_method. intros ->. destruct (decide _); repeat case_match; zbool; congruence.
Qed.

(** The transactions of Ethereum wallets: every field is present but an absent
    value means zero, and the recipient has one form as an address. *)
Record wallet_tx tx from chain_id : Prop := {
  wallet_from : tx_from tx = Some from ∧ length from = ETH_ADDRESS_LEN ∧ is_masked_id from = false;
  wallet_to : match tx_to tx with
              | None => True
              | Some (EthTo to) => ∃ a : A, eth_addr_ok a ∧ to_eth_address a = Ok (Some to)
              | Some (EnsName _) => False
              end;
  wallet_gas : ∃ gas, tx_gas tx = Some gas ∧ is_u64 gas;
  wallet_nonce : ∃ nonce, tx_nonce tx = Some nonce ∧ is_u64 nonce;
  wallet_value : match tx_value tx with None => True | Some v => 0 < v <= MAX_U256 end;
  wallet_data : ∃ data, tx_data tx = Some data;
  wallet_premium : ∃ x, tx_max_priority_fee_per_gas tx = Some x ∧ 0 <= x <= MAX_U256;
  wallet_fee : ∃ x, tx_max_fee_per_gas tx = Some x ∧ 0 <= x <= MAX_U256;
  wallet_chain : tx_chain_id tx = Some chain_id;
}.

Lemma wallet_recipient tx from chain_id :
  wallet_tx tx from chain_id →
  ∃ ta meth, match tx_to tx with
             | None => Ok (CREATE_EXTERNAL, EAM_ACTOR_ADDR)
             | Some (EthTo to) => a ← to_fvm_address to; Ok (INVOKE_CONTRACT, a)
             | Some (EnsName _) => Err "ENS is not supported"%string
             end = Ok (meth, ta) ∧
    (∃ t, to_eth_address ta = Ok t ∧ EthTo <$> t = tx_to tx) ∧
    ∀ m, m_to m = ta → m_method_num m = meth → verify_eth_method m = Ok ().
Proof.
  intros [_ Hto _ _ _ _ _ _ _]. destruct (tx_to tx) as [[name|to]|]; simpl; [done| |].
  - destruct Hto as (ta & Hok & Hta). destruct (to_eth_address_ok _ Hok) as (b & Hb & Hb').
    rewrite Hta in Hb. injection Hb as <-. rewrite Hb'. exists ta, INVOKE_CONTRACT.
    split; [done|]. split; [by eexists|]. intros m Hmt Hmm. unfold verify_eth_method.
    rewrite decide_False by (rewrite Hmt; by apply eth_addr_ok_not_eam). by rewrite Hmm.
  - exists EAM_ACTOR_ADDR, CREATE_EXTERNAL. split; [done|].
    split; [eexists; split; [apply to_eth_address_eam|done]|].
    intros m Hmt Hmm. unfold verify_eth_method. by rewrite decide_True, Hmm.
Qed.
End conv_facts.

Section sign_facts.
Context {A : Type} `{L : MsgCryptoLaws A}.

Lemma to_eth_signature_sign sk h :
  ∃ esig, to_eth_signature (sign_secp256k1 (A:=A) sk h) true = Ok esig ∧
    eth_recover esig h = Some (drop 12 (keccak256 (drop 1 (public_key_bytes sk)))).
Proof.
  pose proof (sign_length sk h) as Hl. destruct (sign_parses sk h) as (Hv & Hr & r & s & Hp & Hrec).
  unfold to_eth_signature, sign_secp256k1. destruct (secp_sign sk h) as [sig v]. simpl in *.
  unfold parse_secp256k1, SECP_SIG_LEN. rewrite decide_True by (rewrite length_app; simpl; lia).
  rewrite lookup_app_r, Hl by lia. simpl. rewrite Hr. simpl. rewrite take_app_length', Hp by done. simpl.
  eexists. split; [done|]. rewrite Z.add_0_r, Z.mod_small by lia. exact Hrec.
Qed.
(** The same in the form that contracts take, with the recovery id shifted by 27. *)
Lemma to_eth_signature_sign_shifted sk h :
  ∃ esig, to_eth_signature (sign_secp256k1 (A:=A) sk h) false = Ok esig ∧
    eth_recover (mkEthSig (sig_v esig - 27) (sig_r esig) (sig_s esig)) h =
      Some (drop 12 (keccak256 (drop 1 (public_key_bytes sk)))).
Proof.
  pose proof (sign_length sk h) as Hl. destruct (sign_parses sk h) as (Hv & Hr & r & s & Hp & Hrec).
  unfold to_eth_signature, sign_secp256k1. destruct (secp_sign sk h) as [sig v]. simpl in *.
  unfold parse_secp256k1, SECP_SIG_LEN. rewrite decide_True by (rewrite length_app; simpl; lia).
  rewrite lookup_app_r, Hl by lia. simpl. rewrite Hr. simpl. rewrite take_app_length', Hp by done. simpl.
  eexists. split; [done|]. simpl. rewrite Z.mod_small by lia. replace (v + 27 - 27) with v by lia. exact Hrec.
Qed.
Lemma eth_address_of_public_key {E} sk :
  eth_address_of_key (E:=E) (public_key_bytes sk) =
    Ok (drop 12 (keccak256 (drop 1 (public_key_bytes sk)))).
Proof.
  unfold eth_address_of_key. rewrite decide_True by apply public_key_length.
  rewrite decide_True; [done|]. by rewrite length_drop, keccak_length.
Qed.
Lemma recover_secp256k1_sign sk data :
  recover_secp256k1 (sign_regular (A:=A) sk data) data = Ok (public_key_bytes sk).
Proof.
  pose proof (sign_length sk (blake2b256 data)) as Hl. pose proof (recover_sign sk (blake2b256 data)) as Hr.
  unfold recover_secp256k1, sign_regular, sign_secp256k1.
  destruct (secp_sign sk (blake2b256 data)) as [sig v]. simpl in *.
  rewrite decide_True by (rewrite length_app, Hl; done). by rewrite Hr.
Qed.
Lemma wallet_tx_message {PL : AddressPayloadLaws A} tx from chain_id :
  wallet_tx (A:=A) tx from chain_id →
  ∃ m, to_fvm_message tx = Ok m ∧ maybe_eth_address (m_from m) = Some from ∧
    to_eth_transaction_request m chain_id = Ok tx ∧ verify_eth_method m = Ok ().
Proof.
  intros Hw. destruct (wallet_recipient _ _ _ Hw) as (ta & meth & Hr & (t & Hta & Ht) & Hmeth).
  destruct Hw as [(Hf & Hlen & Hmask) _ (gas & Hgas & Hg0 & Hg) (nonce & Hnonce & Hn0 & Hn) Hval
                  (data & Hdata) (prem & Hprem & Hp) (fee & Hfee & Hfe) Hchain].
  destruct (payload_new_delegated EAM_ACTOR_ID from Hlen) as (fa & Hfa & Hpa).
  assert (maybe_eth_address fa = Some from) as Hmfa.
  { unfold maybe_eth_address. by rewrite Hpa, Z.eqb_refl, bool_decide_eq_true_2. }
  destruct (bytes_roundtrip data) as (ps & Hps & Hde).
  unfold to_fvm_message. rewrite Hr, Hf, Hdata, Hnonce, Hgas, Hprem, Hfee. simpl.
  unfold to_fvm_address, eth_to_address. rewrite Hmask, Hfa. simpl. rewrite Hps. simpl.
  unfold as_u64. rewrite (proj2 (Z.leb_le _ _) Hn). simpl. rewrite Z.min_l by done.
  eexists. split; [done|]. split; [done|]. split; [|by apply Hmeth].
  unfold to_eth_transaction_request, to_fvm_tokens. simpl.
  rewrite Hde, (maybe_eth_to_eth _ _ Hmfa), (to_eth_tokens_ok fee), (to_eth_tokens_ok prem), Hta by done. simpl. rewrite Ht.
  destruct tx as [tf to tg tv td tn tp tfee tc]. simpl in *. simplify_eq.
  destruct tv as [v|]; simpl; [|done]. rewrite (proj2 (Z.eqb_neq v 0)) by lia.
  by rewrite to_eth_tokens_ok by lia.
Qed.
End sign_facts.

Section message_theorems.
Context {A : Type} `{AddressPayload A, MsgCrypto A} {PL : AddressPayloadLaws A} {CL : MsgCryptoLaws A}.
Implicit Types (m : Message A) (tx : EthTx) (sk : SecretKey) (chain_id : Z).

(** Converting a message to an Ethereum transaction and back gives the
    message, when its ends have one Ethereum form, its method is the one Ethereum
    uses for that recipient, its amounts fit in 256 bits and its parameters are
    the CBOR of a byte string. *)
Theorem eth_message_roundtrip m chain_id data :
  m_version m = 0 → eth_addr_ok (m_from m) →
  (m_to m = EAM_ACTOR_ADDR ∧ m_method_num m = CREATE_EXTERNAL ∨
   eth_addr_ok (m_to m) ∧ m_method_num m = INVOKE_CONTRACT) →
  is_u64 (m_sequence m) → is_u64 (m_gas_limit m) →
  0 <= m_value m <= MAX_U256 → 0 <= m_gas_fee_cap m <= MAX_U256 → 0 <= m_gas_premium m <= MAX_U256 →
  bytes_ser data = Some (m_params m) →
  ∃ tx, to_eth_transaction_request m chain_id = Ok tx ∧ to_fvm_message tx = Ok m.
Proof.
  intros Hv Hfrom Hto [Hs0 Hs] [Hg0 Hg] Hval Hfee Hprem Hser.
  destruct (bytes_roundtrip data) as (ps & Hps & Hde). rewrite Hser in Hps. injection Hps as <-.
  destruct (to_eth_address_ok _ Hfrom) as (fb & Hfb & Hfb').
  unfold to_eth_transaction_request. rewrite Hde, Hfb, !to_eth_tokens_ok by done. simpl.
  assert (∃ v, (if m_value m =? 0 then Ok (E:=string) None else Ok (Some (m_value m))) = Ok v ∧
               default 0 v = m_value m) as (v & -> & Hdv).
  { destruct (m_value m =? 0) eqn:Hz; [|eauto]. zbool. rewrite Hz. eauto. }
  assert (∀ to, default 0 (Some (m_gas_limit m)) = m_gas_limit m → to = m_to m →
    mkMessage 0 (m_from m) to (m_sequence m) (m_value m) (m_method_num m) (m_params m)
      (m_gas_limit m) (m_gas_fee_cap m) (m_gas_premium m) = m) as Hm.
  { intros to _ ->. rewrite <- Hv. by destruct m. }
  destruct Hto as [[Hto Hmeth]|[Hto Hmeth]].
  - rewrite Hto, to_eth_address_eam. simpl. eexists. split; [done|]. unfold to_fvm_message. simpl.
    rewrite Hfb', Hser. simpl. unfold as_u64. rewrite (proj2 (Z.leb_le _ _) Hs). simpl.
    rewrite Hdv, Z.min_l, <- Hmeth by done. unfold to_fvm_tokens. f_equal. by apply Hm.
  - destruct (to_eth_address_ok _ Hto) as (tb & Htb & Htb'). rewrite Htb. simpl.
    eexists. split; [done|]. unfold to_fvm_message. simpl. rewrite Htb', Hfb', Hser. simpl.
    unfold as_u64. rewrite (proj2 (Z.leb_le _ _) Hs). simpl.
    rewrite Hdv, Z.min_l, <- Hmeth by done. unfold to_fvm_tokens. f_equal. by apply Hm.
Qed.

(** Signing and verifying agree: a message signed with [new_secp256k1] by the
    key of its sender passes [verify] on the same chain, whichever of the three
    schemes the addresses select; for the Ethereum scheme the method has to be one
    of the allowed ones. *)
Theorem signed_message_verifies m sk chain_id sm :
  new_secp256k1 m sk chain_id = Ok sm →
  m_from m = secp_address sk ∧ maybe_eth_address (m_from m) = None ∨
  maybe_eth_address (m_from m) = Some (drop 12 (keccak256 (drop 1 (public_key_bytes sk)))) ∧
    (is_eth_addr_compat (m_to m) = true → verify_eth_method m = Ok tt) →
  verify sm chain_id = Ok tt.
Proof.
  unfold new_secp256k1, verify, verify_signature, signable. intros Hsm Hfrom.
  destruct Hfrom as [[Hfrom Hno]|[Haddr Hmeth]].
  - rewrite Hno in Hsm. destruct (message_cid m) as [cid| | |] eqn:Hcid; try done.
    simpl in Hsm. injection Hsm as <-. simpl. rewrite Hno, Hcid. simpl. by rewrite Hfrom, verify_secp.
  - rewrite Haddr in Hsm. destruct (is_eth_addr_compat (m_to m)) eqn:Hto.
    + destruct (to_eth_transaction_request m chain_id) as [tx| | |] eqn:Htx; try done.
      simpl in Hsm. injection Hsm as <-. simpl. rewrite Haddr, Hto, Htx. simpl. unfold sign_eth.
      destruct (to_eth_signature_sign sk (sighash tx)) as (esig & -> & Hrec). simpl. rewrite Hrec. simpl.
      rewrite decide_refl. by apply Hmeth.
    + destruct (message_cid m) as [cid| | |] eqn:Hcid; try done.
      simpl in Hsm. injection Hsm as <-. simpl. rewrite Haddr, Hto, Hcid. simpl.
      rewrite recover_secp256k1_sign. simpl. rewrite eth_address_of_public_key. simpl. by rewrite decide_refl.
Qed.

(** What an Ethereum signature covers.  Two messages from Ethereum accounts to
    recipients with one Ethereum form or to the address manager, with allowed methods
    and the same transaction (hence the same signed hash), agree on the sender, the
    recipient, the nonce, the method, the call data, the gas limit and the size of
    the amounts: the method number, which is not part of the transaction, cannot be
    tampered with. *)
Theorem eth_signature_binds m1 m2 chain_id tx a1 a2 :
  maybe_eth_address (m_from m1) = Some a1 → maybe_eth_address (m_from m2) = Some a2 →
  (m_to m1 = EAM_ACTOR_ADDR ∨ eth_addr_ok (m_to m1)) → (m_to m2 = EAM_ACTOR_ADDR ∨ eth_addr_ok (m_to m2)) →
  verify_eth_method m1 = Ok tt → verify_eth_method m2 = Ok tt →
  to_eth_transaction_request m1 chain_id = Ok tx → to_eth_transaction_request m2 chain_id = Ok tx →
  m_from m1 = m_from m2 ∧ m_to m1 = m_to m2 ∧ m_sequence m1 = m_sequence m2 ∧
  m_method_num m1 = m_method_num m2 ∧ bytes_de (m_params m1) = bytes_de (m_params m2) ∧
  m_gas_limit m1 = m_gas_limit m2 ∧ Z.abs (m_value m1) = Z.abs (m_value m2) ∧
  Z.abs (m_gas_fee_cap m1) = Z.abs (m_gas_fee_cap m2) ∧ Z.abs (m_gas_premium m1) = Z.abs (m_gas_premium m2).
Proof.
  intros Hf1 Hf2 Hok1 Hok2 Hm1 Hm2 Ht1 Ht2.
  apply to_eth_transaction_request_Ok in Ht1 as (d1 & f1 & t1 & Hd1 & Hfa1 & Hto1 & ->).
  apply to_eth_transaction_request_Ok in Ht2 as (d2 & f2 & t2 & Hd2 & Hfa2 & Hto2 & Heq).
  rewrite (maybe_eth_to_eth _ _ Hf1) in Hfa1. rewrite (maybe_eth_to_eth _ _ Hf2) in Hfa2.
  injection Hfa1 as <-. injection Hfa2 as <-. injection Heq as Haddr Htoeq Hgas Hv Hdata Hseq Hprem Hfee.
  simpl in Haddr. subst a2.
  assert (t1 = t2) as <- by (destruct t1, t2; simpl in Htoeq; congruence).
  assert (m_to m1 = m_to m2) as Hto by (by apply (to_eth_address_inj _ _ t1)).
  split; [by apply (maybe_eth_inj _ _ a1)|]. split; [done|]. split; [done|].
  split; [by apply verify_eth_method_eq|]. split; [congruence|]. split; [done|].
  split; [|done]. destruct (m_value m1 =? 0) eqn:Hz1, (m_value m2 =? 0) eqn:Hz2; zbool; congruence.
Qed.

(** An Ethereum signature does not cover the sign of the amounts: a message
    whose value is negated has the same transaction and passes verification with
    the same signature ([to_eth_tokens] drops the sign). *)
Theorem eth_signature_ignores_sign m chain_id sig a tx :
  maybe_eth_address (m_from m) = Some a → to_eth_transaction_request m chain_id = Ok tx →
  let m' := mkMessage (m_version m) (m_from m) (m_to m) (m_sequence m) (- m_value m) (m_method_num m)
              (m_params m) (m_gas_limit m) (m_gas_fee_cap m) (m_gas_premium m) in
  to_eth_transaction_request m' chain_id = Ok tx ∧
  verify_signature m' sig chain_id = verify_signature m sig chain_id.
Proof.
  intros Hf Htx m'.
  assert (to_eth_transaction_request m' chain_id = Ok tx) as Htx'.
  { revert Htx. unfold to_eth_transaction_request, m'. simpl.
    destruct (bytes_de (m_params m)); simpl; [|done]. destruct (to_eth_address (m_from m)); simpl; try done.
    destruct (to_eth_tokens (m_gas_fee_cap m)); simpl; try done.
    destruct (to_eth_tokens (m_gas_premium m)); simpl; try done.
    destruct (to_eth_address (m_to m)); simpl; try done.
    replace (- m_value m =? 0) with (m_value m =? 0) by (destruct (m_value m); done).
    destruct (m_value m =? 0); simpl; [done|].
    destruct (to_eth_tokens (m_value m)) eqn:Hv; try done. by rewrite (to_eth_tokens_opp _ _ Hv). }
  split; [done|]. unfold verify_signature.
  by rewrite (signable_eth m' _ a tx), (signable_eth m _ a tx).
Qed.
End message_theorems.

Section interpreter_theorems.
Context {A : Type} `{AddressPayload A, MsgCrypto A} {PL : AddressPayloadLaws A} {CL : MsgCryptoLaws A}.
Context {St R C : Type} (chain_id : St → Z).
Context (inner_deliver : St → Message A → outcome string (St * R)).
Context (inner_check : St → Message A → bool → outcome string (St * C)).

(** The signature recovers to the sender from the hash of the transaction. *)
Definition signed_by tx (sig : Signature) (from : bytes) (esig : EthSignature) : Prop :=
  to_eth_signature (A:=A) sig true = Ok esig ∧ eth_recover esig (sighash tx) = Some from.

Lemma to_eth_signature_total (sig : Signature) :
  (∃ esig, to_eth_signature (A:=A) sig true = Ok esig) ∨ ∃ e, to_eth_signature (A:=A) sig true = Err e.
Proof.
  unfold to_eth_signature, parse_secp256k1. destruct (sig_type sig); [|right; by eexists].
  destruct (decide _) as [Hl|]; [|right; by eexists].
  destruct (lookup_lt_is_Some_2 (sig_bytes sig) 64) as [b ->]; [rewrite Hl; unfold SECP_SIG_LEN; lia|]. simpl.
  destruct (recovery_id_parse b); simpl; [|right; by eexists].
  destruct (parse_standard _); simpl; [left|right]; by eexists.
Qed.

(** The two outcomes of verifying a message that stands for a transaction. *)
Lemma verify_eth_message (m : Message A) tx from chain sig :
  maybe_eth_address (m_from m) = Some from → to_eth_transaction_request m chain = Ok tx →
  verify_eth_method m = Ok tt →
  (∃ esig, signed_by tx sig from esig ∧ verify_signature m sig chain = Ok tt) ∨
  (¬ (∃ esig, signed_by tx sig from esig) ∧
   ∃ e, verify_signature m sig chain = Err (ErrEthereum e) ∨
        verify_signature m sig chain = Err (ErrInvalidSignature e)).
Proof.
  intros Hf Htx Hm. unfold verify_signature, signed_by. rewrite (signable_eth _ _ _ _ Hf Htx). simpl.
  destruct (to_eth_signature_total sig) as [[esig He]|[e He]]; rewrite He; simpl.
  - destruct (eth_recover esig (sighash tx)) as [rec|] eqn:Hrec; simpl.
    + destruct (decide (rec = from)) as [->|Hne]; [left; eauto|].
      right. split; [intros (? & [= <-] & Hr); congruence|]. eauto.
    + right. split; [intros (? & [= <-] & Hr); congruence|]. eauto.
  - right. split; [intros (? & [=] & _)|eauto].
Qed.

(** The transaction of a wallet is known by the hash of its signed form. *)
Lemma domain_hash_eth (m : Message A) tx from chain sig esig :
  maybe_eth_address (m_from m) = Some from → to_eth_transaction_request m chain = Ok tx →
  signed_by tx sig from esig →
  domain_hash (mkSigned m sig) chain = Ok (Some (keccak256 (rlp_signed tx esig))).
Proof.
  intros Hf Htx [He _]. unfold domain_hash, is_eth_addr_deleg. simpl.
  rewrite bool_decide_eq_true_2 by (rewrite Hf; by eexists). simpl.
  assert (is_eth_addr_compat (m_to m) = true) as ->.
  { apply to_eth_transaction_request_Ok in Htx as (d & f & t & _ & _ & Hto & _).
    unfold is_eth_addr_compat. by rewrite Hto. }
  rewrite Htx. simpl. rewrite He. simpl. by rewrite decide_True by apply keccak_length.
Qed.

(** C33. An Ethereum transaction executes exactly when its sender signed it.  The
    transaction of a wallet converts to a message, and whatever signature the
    message arrives with: if the signature recovers to the sender from the hash of
    the transaction the wallet signed, [deliver] runs the message in the inner
    interpreter and reports the Ethereum hash of the signed transaction, and [check]
    passes it on; if it does not recover to the sender, [deliver] and a first [check]
    report an invalid signature and leave the state untouched, and only a recheck
    passes it on. *)
Theorem wallet_transaction_executes st tx from :
  wallet_tx (A:=A) tx from (chain_id st) →
  ∃ m, to_fvm_message tx = Ok m ∧ maybe_eth_address (m_from m) = Some from ∧
  ∀ sig, let msg := VSigned (mkSigned m sig) in
  (∀ esig, signed_by tx sig from esig →
     (∀ st' r, inner_deliver st m = Ok (st', r) →
        signed_deliver chain_id inner_deliver st msg =
          Ok (st', inr (mkSignedRet r (Some (keccak256 (rlp_signed tx esig)))))) ∧
     ∀ recheck st' r, inner_check st m recheck = Ok (st', r) →
        signed_check chain_id inner_check st msg recheck = Ok (st', inr r)) ∧
  (¬ (∃ esig, signed_by tx sig from esig) →
     (∃ e, signed_deliver chain_id inner_deliver st msg = Ok (st, inl e)) ∧
     (∃ e, signed_check chain_id inner_check st msg false = Ok (st, inl e)) ∧
     ∀ st' r, inner_check st m true = Ok (st', r) →
        signed_check chain_id inner_check st msg true = Ok (st', inr r)).
Proof.
  intros Hw. destruct (wallet_tx_message tx from _ Hw) as (m & Hm & Hfrom & Htx & Hmeth).
  exists m. split; [done|]. split; [done|]. intros sig msg.
  destruct (verify_eth_message m tx from (chain_id st) sig Hfrom Htx Hmeth)
    as [(es & Hs & Hv)|(Hno & e & Hv)]; unfold signed_deliver, signed_check, msg; simpl; unfold verify; simpl.
  - split; [|by intros []; exists es]. intros esig Hsig. rewrite Hv.
    rewrite (domain_hash_eth m tx from _ sig esig Hfrom Htx Hsig). simpl. split.
    + intros st' r ->. done.
    + intros recheck st' r Hr. destruct recheck; by rewrite Hr.
  - split; [intros esig Hsig; destruct Hno; by exists esig|]. intros _.
    assert (∀ st' r, inner_check st m true = Ok (st', r) →
      (r0 ← inner_check st m true; Ok (r0.1, inr r0.2)) = Ok (E:=string) (st', inr (A:=string) r)) as Hrc.
    { by intros st' r ->. }
    destruct Hv as [->| ->]; eauto.
Qed.
End interpreter_theorems.

(** ** Witnesses

    Addresses are their payloads, printed as the number that encodes them.  A key is a byte; its public key repeats it, and
    so does its signature, which the toy recovery reads back. *)
#[export] Instance toy_address_ops : AddressOps Payload := {
  addr_eq_dec := payload_eq_dec;
  addr_new_id := PayloadID;
  addr_to_string := λ a, String "t" (NilZero.string_of_uint (N.to_uint (Npos (encode a))));
  addr_from_str := λ s,
    match s with
    | String "t" d =>
        match NilZero.uint_of_string d ≫= (λ u, match N.of_uint u with Npos p => decode p | _ => None end) with
        | Some a => inr a
        | None => inl "invalid payload"%string
        end
    | _ => inl "unknown network"%string
    end;
}.
#[export] Instance toy_address_string_laws : AddressLaws Payload.
Proof.
  split.
  - intros a. cbn [addr_from_str addr_to_string toy_address_ops].
    rewrite NilZero.usu by apply DecimalPos.Unsigned.to_uint_nonnil.
    cbn [mbind option_bind]. rewrite DecimalN.Unsigned.of_to. by rewrite decode_encode.
  - intros a. exact (no_char_u64 "/" (Z.pos (encode a)) eq_refl).
  - intros a. exact (no_char_u64 ":" (Z.pos (encode a)) eq_refl).
Qed.
#[export] Instance toy_address_payload : AddressPayload Payload := {
  payload := λ a, a;
  new_delegated := λ ns sub, if decide (length sub <= 54)%nat then Some (PayloadDelegated ns sub) else None;
}.
#[export] Instance toy_address_laws : AddressPayloadLaws Payload.
Proof.
  split; [done|done|]. intros ns sub Hl. simpl. rewrite decide_True by lia. eauto.
Qed.

Definition pad32 (b : bytes) : bytes := take 32 (b ++ repeat 0 32).
#[export] Instance toy_crypto : MsgCrypto Payload := {
  SecretKey := { x : Z | 0 <=? x = true };
  cbor_message := λ m, Some [m_sequence m; m_value m];
  bytes_ser := λ b, Some (1 :: b);
  bytes_de := λ b, match b with 1 :: b' => Some b' | _ => None end;
  blake2b256 := pad32;
  keccak256 := pad32;
  cid_v1 := λ d, d;
  secp_sign := λ sk _, (repeat (`sk) 64, 0);
  recovery_id_parse := λ v, if v <? 4 then Some v else None;
  parse_standard := λ b, Some ([default 0 (head b)], [default 0 (head b)]);
  sighash := λ tx, [default 0 (tx_nonce tx)];
  rlp_signed := λ tx _, [default 0 (tx_nonce tx)];
  eth_recover := λ s _, Some (repeat (sig_r s) 20);
  recover_secp_public_key := λ _ b, Some (repeat (default 0 (head b)) 65);
  sig_verify := λ s _ a, if decide (a = PayloadSecp256k1 (repeat (default 0 (head (sig_bytes s))) 20))
                         then None else Some EmptyString;
}.
#[export] Instance toy_crypto_laws : MsgCryptoLaws Payload.
Proof.
  unshelve econstructor.
  - exact (λ sk, repeat (`sk) 65).
  - exact (λ sk, PayloadSecp256k1 (repeat (`sk) 20)).
  - intros b. by exists (1 :: b).
  - intros b. simpl. unfold pad32. rewrite length_take, length_app, repeat_length. lia.
  - done.
  - done.
  - intros sk h. simpl. split; [lia|]. split; [done|]. by exists [`sk], [`sk].
  - done.
  - intros sk data. simpl. by rewrite decide_True.
Defined.

Definition toy_key (x : Z) (Hx : (0 <=? x) = true) : SecretKey (A:=Payload) := exist _ x Hx.
Definition sample_from : Payload := PayloadDelegated EAM_ACTOR_ID (repeat 7 20).
Definition sample_to : Payload := PayloadID 1000.
Definition sample_message (value : Z) : Message Payload :=
  mkMessage 0 sample_from sample_to 5 value INVOKE_CONTRACT [1; 2; 3] 1000000 100 10.
Definition sample_tx : EthTx :=
  mkTx (Some (repeat 7 20)) (Some (EthTo (from_id 1000))) (Some 1000000) (Some 30) (Some [2; 3]) (Some 5)
    (Some 10) (Some 100) (Some 1337).
Definition sample_sig : Signature := mkSignature Secp256k1 (repeat 7 64 ++ [0]).

Lemma sample_to_ok : eth_addr_ok sample_to.
Proof. split; [unfold is_u64, U64_MAX; lia|done]. Qed.

Lemma eth_message_roundtrip_witness :
  to_eth_transaction_request (sample_message 30) 1337 = Ok sample_tx ∧
  ∃ tx, to_eth_transaction_request (sample_message 30) 1337 = Ok tx ∧ to_fvm_message tx = Ok (sample_message 30).
Proof.
  split; [vm_compute; reflexivity|].
  apply (eth_message_roundtrip (sample_message 30) 1337 [2; 3]); try done.
  right. split; [apply sample_to_ok|done].
Defined.

Lemma sample_wallet_tx : wallet_tx (A:=Payload) sample_tx (repeat 7 20) 1337.
Proof.
  split; simpl; try done.
  - exists sample_to. split; [apply sample_to_ok|done].
  - exists 1000000. split; [done|]. unfold is_u64, U64_MAX. lia.
  - exists 5. split; [done|]. unfold is_u64, U64_MAX. lia.
  - by eexists.
  - by exists 10.
  - by exists 100.
Qed.

Lemma signed_message_verifies_witness :
  ∃ sm, new_secp256k1 (sample_message 30) (toy_key 7 eq_refl) 1337 = Ok sm ∧ verify sm 1337 = Ok tt.
Proof.
  exists (mkSigned (sample_message 30) sample_sig). split; [vm_compute; reflexivity|].
  apply (signed_message_verifies (sample_message 30) (toy_key 7 eq_refl) 1337); [vm_compute; reflexivity|].
  right. split; [vm_compute; reflexivity|]. intros _. vm_compute. reflexivity.
Defined.

Lemma eth_signature_binds_witness :
  m_method_num (sample_message 30) = m_method_num (sample_message (-30)) ∧
  Z.abs (m_value (sample_message 30)) = Z.abs (m_value (sample_message (-30))).
Proof.
  destruct (eth_signature_binds (sample_message 30) (sample_message (-30)) 1337 sample_tx (repeat 7 20) (repeat 7 20))
    as (_ & _ & _ & Hm & _ & _ & Hv & _); try (vm_compute; reflexivity).
  - right. apply sample_to_ok.
  - right. apply sample_to_ok.
  - by split.
Defined.

Lemma eth_signature_ignores_sign_witness :
  verify_signature (sample_message 30) sample_sig 1337 = Ok tt ∧
  verify_signature (sample_message (-30)) sample_sig 1337 = Ok tt.
Proof.
  assert (verify_signature (sample_message 30) sample_sig 1337 = Ok tt) as Hv by (vm_compute; reflexivity).
  split; [exact Hv|].
  destruct (eth_signature_ignores_sign (sample_message 30) 1337 sample_sig (repeat 7 20) sample_tx) as [_ Heq];
    [vm_compute; reflexivity|vm_compute; reflexivity|].
  rewrite Hv in Heq. exact Heq.
Defined.

Definition count_deliver (st : Z) (m : Message Payload) : outcome string (Z * Z) := Ok (st + 1, m_sequence m).
Definition count_check (st : Z) (m : Message Payload) (recheck : bool) : outcome string (Z * Z) :=
  Ok (st, m_sequence m).
Definition forged_sig : Signature := mkSignature Secp256k1 (repeat 8 64 ++ [0]).
Lemma wallet_transaction_executes_witness :
  signed_deliver (λ _, 1337) count_deliver 0 (VSigned (mkSigned (sample_message 30) sample_sig)) =
    Ok (1, inr (mkSignedRet 5 (Some (pad32 [5])))) ∧
  ∃ e, signed_deliver (λ _, 1337) count_deliver 0 (VSigned (mkSigned (sample_message 30) forged_sig)) =
    Ok (0, inl e).
Proof.
  destruct (wallet_transaction_executes (λ _, 1337) count_deliver count_check 0 sample_tx (repeat 7 20)
    sample_wallet_tx) as (m & Hm & _ & Hall).
  assert (m = sample_message 30) as -> by (vm_compute in Hm; by injection Hm as <-).
  split.
  - apply (proj1 (Hall sample_sig) (mkEthSig 0 7 7)); [split; reflexivity|reflexivity].
  - apply (proj2 (Hall forged_sig)). intros (esig & He & Hr). vm_compute in He. injection He as <-.
    vm_compute in Hr. discriminate Hr.
Defined.
