(* ===== verification/Exec.v ===== *)
(** * Execution of messages and blocks by the FVM interpreter
    ([vm/interpreter/src/fvm/exec.rs], [fvm/check.rs], [fvm/state/exec.rs])

    [FvmMessageInterpreter] opens a block (upgrades, cron, chain metadata, enabling
    the CETF actor), delivers and checks messages, and closes the block.

    The virtual machine itself ([fvm]) is a crate outside the sources: the class
    [Fvm], whose functions run on the ledger state [S].  [FvmLaws] says what the
    interpreter relies on: reading an actor back, and that a successful message to
    the CETF actor runs the method it names. *)

From Stdlib Require Import Ascii String.
From stdpp Require Import base tactics numbers list gmap.
From S2P Require Import Prelude Voting IpcApi Finality Provider CetfActor Message Checkpoint.

Open Scope Z_scope.

(** ** Parameters *)

Inductive ApplyKind := Explicit | Implicit.
Inductive ExitCode :=
| ExitOk
| SYS_SENDER_INVALID
| SYS_SENDER_STATE_INVALID
| SYS_ASSERTION_FAILED
| ExitOther (code : Z).
#[export] Instance exit_code_eq_dec : EqDecision ExitCode.
Proof. solve_decision. Defined.
Definition is_success (c : ExitCode) : bool := match c with ExitOk => true | _ => false end.

(** The events actors emit, and the parts of the FVM's [ApplyRet] and [ActorState]
    the code reads. *)
Record EventEntry := mkEntry { entry_flags : Z; entry_key : string; entry_value : bytes }.
Record StampedEvent := mkEvent { emitter : Z; entries : list EventEntry }.
Record ApplyRet := mkApplyRet {
  exit_code : ExitCode;
  gas_used : Z;
  return_data : bytes;
  failure_info : option string;
  events : list StampedEvent;
}.
Record ActorState (A : Type) := mkActor {
  act_code : bytes;
  act_state : bytes;
  act_sequence : Z;
  act_balance : Z;
  act_delegated_address : option A;
}.
Arguments mkActor {A} _ _ _ _ _.
Arguments act_code {A} _.
Arguments act_state {A} _.
Arguments act_sequence {A} _.
Arguments act_balance {A} _.
Arguments act_delegated_address {A} _.

Class Fvm (S A : Type) `{AddressOps A} `{!Countable A} := {
  BLOCK_GAS_LIMIT : Z;
  (** [frc42_dispatch::method_hash!] *)
  method_hash : string → Z;
  (** [Message::check] returns the error; the length of the encoded message *)
  fvm_msg_check : Message A → option string;
  fvm_raw_length : Message A → outcome string Z;
  fvm_execute : S → Message A → ApplyKind → Z → outcome string (S * ApplyRet);
  fvm_lookup_id : S → A → outcome string (option Z);
  fvm_get_actor : S → Z → outcome string (option (ActorState A));
  fvm_set_actor : S → Z → ActorState A → S;
  (** the state of the CETF actor, if the actor exists *)
  fvm_cetf_state : S → outcome string (option (State A));
  (** the CBOR of the parameters of [PushBlockHash] *)
  fvm_push_block_params : Z → bytes → outcome string bytes;
  (** the CBOR of the parameters of [AddSignedTag] *)
  fvm_signed_tag_params : AddSignedTagParams → outcome string bytes;
  (** [Address::new_secp256k1] of a serialized key *)
  addr_new_secp256k1 : bytes → option A;
  (** the [Display] of a [TokenAmount] *)
  token_to_string : Z → string;
}.

Record FvmApplyRet (A : Type) := mkFvmRet {
  apply_ret : ApplyRet;
  ret_from : A;
  ret_to : A;
  ret_method_num : Z;
  ret_gas_limit : Z;
  emitters : gmap Z A;
}.
Arguments mkFvmRet {A} _ _ _ _ _ _.
Arguments apply_ret {A} _.
Arguments ret_from {A} _.
Arguments ret_to {A} _.
Arguments ret_method_num {A} _.
Arguments ret_gas_limit {A} _.
Arguments emitters {A} _.

Record FvmCheckRet (A : Type) := mkCheckRet {
  check_sender : A;
  check_gas_limit : Z;
  check_exit_code : ExitCode;
  check_return_data : option bytes;
  check_info : option string;
}.
Arguments mkCheckRet {A} _ _ _ _ _.
Arguments check_sender {A} _.
Arguments check_gas_limit {A} _.
Arguments check_exit_code {A} _.
Arguments check_return_data {A} _.
Arguments check_info {A} _.

Definition CETFSYSCALL_ACTOR_ID : Z := 49.
Definition CHAINMETADATA_ACTOR_ID : Z := 48.
Definition CRON_ACTOR_ID : Z := 3.
Definition EPOCH_TICK : Z := 2.

Section fvm_exec.
Context {S A : Type} `{AddressOps A} `{!Countable A} `{!Fvm S A}.
Implicit Types (st : FvmExecState S) (m : Message A).

Definition SYSTEM_ACTOR_ADDR : A := addr_new_id SYSTEM_ACTOR_ID.
Definition CRON_ACTOR_ADDR : A := addr_new_id CRON_ACTOR_ID.
Definition CHAINMETADATA_ACTOR_ADDR : A := addr_new_id CHAINMETADATA_ACTOR_ID.
Definition CETFSYSCALL_ACTOR_ADDR : A := addr_new_id CETFSYSCALL_ACTOR_ID.

(** ** Executing one message ([state/exec.rs]) *)

Definition check_error (e : string) : ApplyRet * gmap Z A :=
  (mkApplyRet SYS_ASSERTION_FAILED 0 [] (Some e) [], ∅).

(** The loop over the set of emitters, which the order does not affect. *)
Fixpoint delegated_addresses (s : S) (ids : list Z) : outcome string (gmap Z A) :=
  match ids with
  | [] => Ok ∅
  | id :: rest =>
      a ← fvm_get_actor s id;
      more ← delegated_addresses s rest;
      Ok (match a ≫= act_delegated_address with Some addr => <[id := addr]> more | None => more end)
  end.
Definition emitter_delegated_addresses st (r : ApplyRet) : outcome string (gmap Z A) :=
  delegated_addresses (ledger st) (elements (list_to_set (C:=gset Z) (emitter <$> events r))).

Definition execute_message st m (kind : ApplyKind) : outcome string (FvmExecState S * (ApplyRet * gmap Z A)) :=
  match fvm_msg_check m with
  | Some e => Ok (st, check_error e)
  | None =>
      raw_length ← fvm_raw_length m;
      r ← fvm_execute (ledger st) m kind raw_length;
      let st' := set_ledger st r.1 in
      addrs ← emitter_delegated_addresses st' r.2;
      Ok (st', (r.2, addrs))
  end.
Definition execute_implicit st m := execute_message st m Implicit.
Definition execute_explicit st m := execute_message st m Explicit.

(** ** Delivering ([exec.rs]) *)

Definition fvm_deliver st m : outcome string (FvmExecState S * FvmApplyRet A) :=
  r ← (if decide (m_from m = SYSTEM_ACTOR_ADDR) then execute_implicit st m else execute_explicit st m);
  Ok (r.1, mkFvmRet r.2.1 (m_from m) (m_to m) (m_method_num m) (m_gas_limit m) r.2.2).

(** ** Opening a block *)

Definition system_gas_limit : Z := (BLOCK_GAS_LIMIT * 10000)%u64.
(** A message from the system actor, with the height as its sequence number. *)
Definition system_message (height : Z) (to : A) (method_num : Z) (params : bytes) : Message A :=
  mkMessage 0 SYSTEM_ACTOR_ADDR to (i64_as_u64 height) 0 method_num params system_gas_limit 0 0.

(** A system message whose failure fails the block, with [what] as the message of the error. *)
Definition apply_system (what : string) st m : outcome string (FvmExecState S * (ApplyRet * gmap Z A)) :=
  r ← execute_implicit st m;
  match failure_info r.2.1 with
  | Some e => Err (what ++ e)%string
  | None => Ok r
  end.

Definition run_upgrade (sch : UpgradeScheduler S) st : outcome string (FvmExecState S) :=
  if exec_height st <? 0 then Panic else
  match scheduled sch (exec_chain_id st) (exec_height st) with
  | Some upgrade =>
      r ← execute_upgrade upgrade st;
      Ok (match r.2 with Some v => update_app_version r.1 (λ _, v) | None => r.1 end)
  | None => Ok st
  end.

Definition push_block_hash (height : Z) (push_chain_meta : bool) st : outcome string (FvmExecState S) :=
  match push_chain_meta, exec_block_hash st with
  | true, Some block_hash =>
      params ← fvm_push_block_params height block_hash;
      r ← apply_system "failed to apply chainmetadata message: " st (system_message height CHAINMETADATA_ACTOR_ADDR
                             (method_hash "PushBlockHash") params);
      Ok r.1
  | _, _ => Ok st
  end.

(** The addresses of the validators of CometBFT, given their serialized keys. *)
Definition bft_addresses (keys : list bytes) : outcome string (list A) :=
  ok_or "failed to turn TM public key into address"%string (mapM addr_new_secp256k1 keys).

(** [bft_power_table] is the answer of CometBFT for a height. *)
Definition enable_cetf (height : Z) (bft_power_table : Z → outcome string (list bytes)) st
    : outcome string (FvmExecState S) :=
  if 0 <? i64_as_u64 (exec_height st) then
    if exec_height st <? 0 then Err "integer overflow"%string else
    keys ← bft_power_table (exec_height st);
    bft_keys ← bft_addresses keys;
    o ← fvm_cetf_state (ledger st);
    cetf ← ok_or "no CETF actor found!"%string o;
    if enabled cetf then Ok st
    else if forallb (λ key, bool_decide (is_Some (get_validators_keymap cetf !! key))) bft_keys then
      r ← apply_system "Failed to apply cetf message: " st
             (system_message height CETFSYSCALL_ACTOR_ADDR (method_hash "Enable") []);
      Ok r.1
    else Ok st
  else Ok st.

Definition fvm_begin (sch : UpgradeScheduler S) (push_chain_meta : bool)
    (bft_power_table : Z → outcome string (list bytes)) st
    : outcome string (FvmExecState S * FvmApplyRet A) :=
  let height := exec_height st in
  st1 ← run_upgrade sch st;
  let msg := system_message height CRON_ACTOR_ADDR EPOCH_TICK [] in
  r ← apply_system "failed to apply block cron message: " st1 msg;
  st2 ← push_block_hash height push_chain_meta r.1;
  st3 ← enable_cetf height bft_power_table st2;
  Ok (st3, mkFvmRet r.2.1 SYSTEM_ACTOR_ADDR CRON_ACTOR_ADDR EPOCH_TICK system_gas_limit r.2.2).

(** ** Checking a message for the mempool ([check.rs]) *)

Definition checked m st (code : ExitCode) (data : option bytes) (info : option string)
    : outcome string (FvmExecState S * FvmCheckRet A) :=
  Ok (st, mkCheckRet (m_from m) (m_gas_limit m) code data info).

Definition sequence_mismatch (expected got : Z) : string :=
  ("expected sequence " ++ u64_to_string expected ++ ", got " ++ u64_to_string got)%string.

Definition non_empty (s : string) : option string := match s with EmptyString => None | _ => Some s end.

Definition fvm_check (exec_in_check : bool) st m : outcome string (FvmExecState S * FvmCheckRet A) :=
  match fvm_msg_check m with
  | Some e => checked m st SYS_ASSERTION_FAILED None (Some ("pre-check failure: " ++ e)%string)
  | None =>
      let not_found := checked m st SYS_SENDER_INVALID None (Some ("cannot find actor " ++ addr_to_string (m_from m))%string) in
      o ← fvm_lookup_id (ledger st) (m_from m);
      match o with
      | None => not_found
      | Some id =>
          a ← fvm_get_actor (ledger st) id;
          match a with
          | None => not_found
          | Some actor =>
              let balance_needed := m_gas_fee_cap m * m_gas_limit m in
              if act_balance actor <? balance_needed then
                checked m st SYS_SENDER_STATE_INVALID None
                  (Some ("actor balance " ++ token_to_string (act_balance actor) ++ " less than needed " ++
                         token_to_string balance_needed)%string)
              else if negb (act_sequence actor =? m_sequence m) then
                checked m st SYS_SENDER_STATE_INVALID None (Some (sequence_mismatch (act_sequence actor) (m_sequence m)))
              else if exec_in_check then
                r ← execute_explicit st m;
                checked m r.1 (exit_code r.2.1) (Some (return_data r.2.1)) (failure_info r.2.1 ≫= non_empty)
              else
                let actor' := mkActor (act_code actor) (act_state actor) (act_sequence actor + 1)%u64 (act_balance actor - balance_needed)
                                (act_delegated_address actor) in
                checked m (set_ledger st (fvm_set_actor (ledger st) id actor')) ExitOk None None
          end
      end
  end.

(** ** Closing a block

    The signatures of checkpoints are broadcast by a task of its own; [fvm_end]
    returns the checkpoints handed to it.  [validator] is the address of the
    validator, if the node is one. *)
Definition fvm_end {K M R} `{Countable K} `{!Gateway S K A M R} (serialize : K → bytes)
    (validator : option bytes) (syncing : bool) st
    : outcome string (FvmExecState S * list (Validator K) * option (list (BottomUpCheckpoint A M))) :=
  r ← maybe_create_checkpoint serialize st;
  match r.2 with
  | None => Ok (r.1, [], None)
  | Some (checkpoint, updates) =>
      match validator, syncing with
      | Some v, false =>
          incomplete ← unsigned_checkpoints r.1 v;
          Ok (r.1, updates, Some incomplete)
      | _, _ => Ok (r.1, updates, None)
      end
  end.

(** Checking the transactions of a mempool one after the other. *)
Fixpoint check_all st (ms : list (Message A)) : outcome string (FvmExecState S * list ExitCode) :=
  match ms with
  | [] => Ok (st, [])
  | m :: rest =>
      r ← fvm_check false st m;
      more ← check_all r.1 rest;
      Ok (more.1, check_exit_code r.2 :: more.2)
  end.
End fvm_exec.

(** ** Laws of the parameters *)

(** The method numbers of the CETF actor ([cetf/src/shared.rs]). *)
Definition cetf_method_num {S A} `{Fvm S A} (c : Method A) : Z :=
  method_hash match c with
              | Constructor => "Constructor"
              | Echo => "Echo"
              | EnqueueTag _ => "EnqueueTag"
              | GetTag _ => "GetTag"
              | AddValidator _ => "AddValidator"
              | Enable => "Enable"
              | Disable => "Disable"
              | AddSignedTag _ => "AddSignedTag"
              end.
(** The parameters of the calls the interpreter makes. *)
Definition cetf_encodes {S A} `{Fvm S A} (c : Method A) (params : bytes) : Prop :=
  match c with
  | Enable => params = []
  | AddSignedTag p => fvm_signed_tag_params p = Ok params
  | _ => False
  end.

(** A system message to the CETF actor that does not fail runs the method it
    names; one that fails changes nothing. *)
Class FvmLaws (S A : Type) `{Fvm S A} (actor_keccak : bytes → bytes) : Prop := {
  get_set_actor s id a : fvm_get_actor (fvm_set_actor s id a) id = Ok (Some a);
  lookup_set_actor s id a x : fvm_lookup_id (fvm_set_actor s id a) x = fvm_lookup_id s x;
  cetf_dispatch s s' m len r c st :
    fvm_execute s m Implicit len = Ok (s', r) →
    m_from m = SYSTEM_ACTOR_ADDR → m_to m = CETFSYSCALL_ACTOR_ADDR →
    m_method_num m = cetf_method_num c → cetf_encodes c (m_params m) →
    fvm_cetf_state s = Ok (Some st) →
    match failure_info r with
    | None => ∃ rt st' ret, caller rt = SYSTEM_ACTOR_ID ∧
                invoke_method actor_keccak rt st c = Ok (st', ret) ∧ fvm_cetf_state s' = Ok (Some st')
    | Some _ => fvm_cetf_state s' = Ok (Some st)
    end;
}.

(** ** Facts *)

Section exec_facts.
Context {S A : Type} `{AddressOps A} `{!Countable A} `{!Fvm S A}.
Implicit Types (st : FvmExecState S) (m : Message A).

Lemma execute_message_height st m kind st' r :
  execute_message st m kind = Ok (st', r) →
  exec_height st' = exec_height st ∧ exec_chain_id st' = exec_chain_id st.
Proof.
  unfold execute_message. destruct (fvm_msg_check m); [by intros [= <- _]|].
  destruct (fvm_raw_length m) as [len| | |]; simpl; try done.
  destruct (fvm_execute _ _ _ _) as [[s r']| | |]; simpl; try done.
  destruct (emitter_delegated_addresses _ _); simpl; try done. by intros [= <- _].
Qed.
Lemma apply_system_Ok what st m st' r :
  apply_system what st m = Ok (st', r) →
  execute_implicit st m = Ok (st', r) ∧ failure_info r.1 = None.
Proof.
  unfold apply_system. destruct (execute_implicit st m) as [[s [r' e]]| | |]; simpl; try done.
  destruct (failure_info r') eqn:Hf; [done|]. intros [= <- <-]. done.
Qed.
(** An implicit message that did not fail was run by the machine. *)
Lemma execute_implicit_run st m st' r :
  execute_implicit st m = Ok (st', r) → failure_info r.1 = None →
  ∃ len, fvm_execute (ledger st) m Implicit len = Ok (ledger st', r.1).
Proof.
  intros Hx Hf. unfold execute_implicit, execute_message in Hx.
  destruct (fvm_msg_check m); [by injection Hx as <- <-|].
  destruct (fvm_raw_length m) as [len| | |]; simpl in Hx; try done.
  destruct (fvm_execute _ _ _ _) as [[s r']| | |] eqn:He; simpl in Hx; try done.
  destruct (emitter_delegated_addresses _ _); simpl in Hx; try done. injection Hx as <- <-.
  by exists len.
Qed.
Lemma apply_system_run what st m st' r :
  apply_system what st m = Ok (st', r) →
  ∃ len, fvm_execute (ledger st) m Implicit len = Ok (ledger st', r.1) ∧ failure_info r.1 = None.
Proof.
  intros [Hx Hf]%apply_system_Ok. destruct (execute_implicit_run _ _ _ _ Hx Hf) as [len Hl]. eauto.
Qed.
Lemma push_block_hash_height h b st st' :
  push_block_hash h b st = Ok st' → exec_height st' = exec_height st.
Proof.
  unfold push_block_hash. destruct b, (exec_block_hash st); try by intros [= <-].
  destruct (fvm_push_block_params _ _); simpl; try done.
  destruct (apply_system _ st _) as [[s r]| | |] eqn:Ha; simpl; try done. intros [= <-].
  apply apply_system_Ok in Ha as [Ha _]. by apply execute_message_height in Ha as [? _].
Qed.
End exec_facts.

Section exec_theorems.
Context {S A : Type} `{AddressPayload A} `{!Countable A} `{!Fvm S A} (actor_keccak : bytes → bytes).
Context {FL : FvmLaws S A actor_keccak}.
Implicit Types (st : FvmExecState S) (m : Message A).

Lemma enable_cetf_registered h bft st st' :
  0 < exec_height st < 2 ^ 63 → enable_cetf h bft st = Ok st' →
  ∃ keys addrs cetf, bft (exec_height st) = Ok keys ∧ bft_addresses keys = Ok addrs ∧
    fvm_cetf_state (ledger st') = Ok (Some cetf) ∧
    (enabled cetf = true ∨ ∃ a, a ∈ addrs ∧ get_validators_keymap cetf !! a = None).
Proof.
  intros Hh. unfold enable_cetf, i64_as_u64.
  rewrite wrap64_small by (unfold is_u64, U64_MAX; lia).
  rewrite (proj2 (Z.ltb_lt _ _)), (proj2 (Z.ltb_ge _ _)) by lia.
  destruct (bft (exec_height st)) as [keys| | |]; simpl; try done.
  destruct (bft_addresses keys) as [addrs| | |] eqn:Hka; simpl; try done.
  destruct (fvm_cetf_state (ledger st)) as [[cetf|]| | |] eqn:Hc; simpl; try done.
  destruct (enabled cetf) eqn:Hen; [intros [= <-]; eauto 10|].
  destruct (forallb _ _) eqn:Hall.
  - destruct (apply_system _ st _) as [[s r]| | |] eqn:Ha; simpl; try done. intros [= <-].
    apply apply_system_run in Ha as (len & He & Hf).
    pose proof (cetf_dispatch _ _ _ _ _ Enable cetf He eq_refl eq_refl eq_refl eq_refl Hc) as Hd.
    rewrite Hf in Hd. destruct Hd as (rt & st' & ret & Hcaller & Hinv & Hst').
    exists keys, addrs, st'. split; [done|]. split; [done|]. split; [done|]. left.
    by apply invoke_method_cases in Hinv as (_ & -> & _).
  - intros [= <-]. exists keys, addrs, cetf. split; [done|]. split; [done|]. split; [done|]. right.
    apply forallb_false in Hall as (a & Hin & Hno). exists a. split; [done|].
    by apply bool_decide_eq_false, eq_None_not_Some in Hno.
Qed.

(** The CETF actor is enabled as soon as every validator has registered a
    key: after the opening of a block above genesis, the actor is enabled or some
    validator of the power table is not in its key map.  Migrations are assumed to
    leave the height of the block alone. *)
Theorem begin_enables_cetf sch push bft st st' ret :
  0 < exec_height st < 2 ^ 63 →
  (∀ u r, scheduled sch (exec_chain_id st) (exec_height st) = Some u → migration u st = Ok r →
          exec_height r = exec_height st) →
  fvm_begin sch push bft st = Ok (st', ret) →
  ∃ keys addrs cetf, bft (exec_height st) = Ok keys ∧ bft_addresses keys = Ok addrs ∧
    fvm_cetf_state (ledger st') = Ok (Some cetf) ∧
    (enabled cetf = true ∨ ∃ a, a ∈ addrs ∧ get_validators_keymap cetf !! a = None).
Proof.
  intros Hh Hmig. unfold fvm_begin.
  destruct (run_upgrade sch st) as [st1| | |] eqn:Hu; simpl; try done.
  assert (exec_height st1 = exec_height st) as H1.
  { revert Hu. unfold run_upgrade. destruct (exec_height st <? 0); [done|].
    destruct (scheduled sch _ _) as [u|] eqn:Hs; [|by intros [= <-]].
    unfold execute_upgrade. destruct (migration u st) as [r| | |] eqn:Hm; simpl; try done.
    specialize (Hmig u r eq_refl Hm). destruct (new_app_version u); by intros [= <-]. }
  destruct (apply_system _ st1 _) as [[st2 r]| | |] eqn:Ha; simpl; try done.
  apply apply_system_Ok in Ha as [[H2 _]%execute_message_height _].
  destruct (push_block_hash _ push st2) as [st3| | |] eqn:Hp; simpl; try done.
  apply push_block_hash_height in Hp.
  destruct (enable_cetf _ bft st3) as [st4| | |] eqn:He; simpl; try done. intros [= <- _].
  replace (exec_height st) with (exec_height st3) in * by congruence.
  by apply (enable_cetf_registered (exec_height st3)).
Qed.

(** Only the system runs for free.  A message of a user, or a relayed one, that
    passes the signature check is executed explicitly, charging its sender, and
    never as the system actor; signatures verify only against key addresses. *)
Theorem user_messages_run_explicitly `{!AddressPayloadLaws A} `{!MsgCrypto A} st msg st' ret :
  (∀ s d (a : A), sig_verify s d a = None →
     match payload a with PayloadSecp256k1 _ | PayloadBLS _ => True | _ => False end) →
  (∀ m, msg ≠ VNotVerify m) →
  signed_deliver exec_chain_id fvm_deliver st msg = Ok (st', inr ret) →
  m_from (into_message msg) ≠ SYSTEM_ACTOR_ADDR ∧
  execute_explicit st (into_message msg) = Ok (st', (apply_ret (fvm ret), emitters (fvm ret))).
Proof.
  intros Hsig Hmsg Hd.
  assert (m_from (into_message msg) ≠ SYSTEM_ACTOR_ADDR) as Hfrom.
  { assert (verify_verifiable msg (exec_chain_id st) = Ok tt) as Hv.
    { revert Hd. unfold signed_deliver. by destruct (verify_verifiable msg _) as [[]|[]| |]. }
    unfold SYSTEM_ACTOR_ADDR. intros Hsys. destruct msg as [sm|sy|m]; [| |by destruct (Hmsg m)]; simpl in *.
    - revert Hv. unfold verify, verify_signature, signable, maybe_eth_address.
      rewrite Hsys, payload_new_id.
      destruct (message_cid (message sm)) as [cid| | |]; simpl; try done.
      destruct (sig_verify _ _ _) eqn:Hs; [done|]. apply Hsig in Hs.
      by rewrite payload_new_id in Hs.
    - revert Hv. unfold verify_synthetic. destruct (sig_verify _ _ _) eqn:Hs; [done|].
      apply Hsig in Hs. by rewrite Hsys, payload_new_id in Hs. }
  split; [done|]. revert Hd. unfold signed_deliver.
  destruct (verify_verifiable msg _) as [[]|[]| |]; try done.
  destruct (verifiable_domain_hash msg _); simpl; try done. unfold fvm_deliver. rewrite decide_False by done.
  destruct (execute_explicit st (into_message msg)) as [[s [r e]]| | |]; simpl; try done.
  by intros [= <- <-].
Qed.

(** What a successful check of a message does. *)
Lemma fvm_check_ok st m id a st' ret :
  fvm_lookup_id (ledger st) (m_from m) = Ok (Some id) → fvm_get_actor (ledger st) id = Ok (Some a) →
  fvm_check false st m = Ok (st', ret) → check_exit_code ret = ExitOk →
  m_gas_fee_cap m * m_gas_limit m <= act_balance a ∧ m_sequence m = act_sequence a ∧
  ledger st' = fvm_set_actor (ledger st) id
    (mkActor (act_code a) (act_state a) (act_sequence a + 1)%u64 (act_balance a - m_gas_fee_cap m * m_gas_limit m) (act_delegated_address a)).
Proof.
  intros Hid Ha. unfold fvm_check, checked. destruct (fvm_msg_check m); [by intros [= _ <-]|].
  rewrite Hid. simpl. rewrite Ha. simpl. destruct (_ <? _) eqn:Hb; [by intros [= _ <-]|].
  destruct (act_sequence a =? m_sequence m) eqn:Hq; simpl; [|by intros [= _ <-]].
  intros [= <- <-] _. zbool. done.
Qed.

(** The mempool cannot be double spent.  If transactions of one sender are
    checked one after the other and all pass, their nonces are the consecutive ones
    from the nonce of the account, and the gas they may cost together is covered by
    its balance. *)
Theorem mempool_is_consistent ms st id a from st' codes :
  fvm_lookup_id (ledger st) from = Ok (Some id) → fvm_get_actor (ledger st) id = Ok (Some a) →
  is_u64 (act_sequence a) → act_sequence a + Z.of_nat (length ms) <= U64_MAX → 0 <= act_balance a →
  Forall (λ m, m_from m = from) ms → check_all st ms = Ok (st', codes) → Forall (λ c, c = ExitOk) codes →
  (m_sequence <$> ms) = seqZ (act_sequence a) (Z.of_nat (length ms)) ∧
  Zsum (λ m, m_gas_fee_cap m * m_gas_limit m) ms <= act_balance a.
Proof.
  revert st a codes. induction ms as [|m ms IH]; intros st a codes Hid Ha Hseq Hmax Hbal Hfrom Hall Hok.
  { simpl. split; [done|]. simpl. lia. }
  apply Forall_cons in Hfrom as [Hm Hfrom]. simpl in Hall.
  destruct (fvm_check false st m) as [[st1 ret]| | |] eqn:Hc; simpl in Hall; try done.
  destruct (check_all st1 ms) as [[st2 codes']| | |] eqn:Hrest; simpl in Hall; try done.
  injection Hall as <- <-. apply Forall_cons in Hok as [Hcode Hok]. rewrite <- Hm in Hid.
  destruct (fvm_check_ok _ _ _ _ _ _ Hid Ha Hc Hcode) as (Hcost & Hs & Hl).
  cbn [length] in Hmax. rewrite Nat2Z.inj_succ in Hmax. destruct Hseq as [Hs0 Hs1].
  rewrite add64_small in Hl by (unfold is_u64; lia).
  destruct (IH st1 (mkActor (act_code a) (act_state a) (act_sequence a + 1) (act_balance a - m_gas_fee_cap m * m_gas_limit m)
                      (act_delegated_address a)) codes') as [Hnonces Hsum]; try done.
  - by rewrite Hl, lookup_set_actor, <- Hm.
  - by rewrite Hl, get_set_actor.
  - unfold is_u64. simpl. lia.
  - simpl. lia.
  - simpl. lia.
  - rewrite fmap_cons, Hnonces, Hs. simpl in *. split; [|lia].
    rewrite (seqZ_cons (act_sequence a)) by lia. f_equal. f_equal; lia.
Qed.
End exec_theorems.

(** ** Witnesses

    A ledger of accounts, with the CETF actor; a message to that actor from the
    system runs the method, any other message succeeds without effect. *)

Record ToyLedger := mkToyLedger { accounts : gmap Z (ActorState Payload); toy_cetf : State Payload }.
Definition toy_rt : Runtime := mkRuntime SYSTEM_ACTOR_ID 0 (λ _, None).
Definition toy_keccak (b : bytes) : bytes := pad32 b.
Definition toy_method (m : Message Payload) : option (Method Payload) :=
  if bool_decide (m_from m = PayloadID SYSTEM_ACTOR_ID) && bool_decide (m_to m = PayloadID CETFSYSCALL_ACTOR_ID)
  then match m_method_num m, m_params m with
       | 6, [] => Some Enable
       | 12, h :: s => Some (AddSignedTag (mkAddSignedTag h s))
       | _, _ => None
       end
  else None.
Definition toy_ret (e : option string) : ApplyRet := mkApplyRet ExitOk 100 [] e [mkEvent 7 []].
Definition toy_execute (s : ToyLedger) (m : Message Payload) (kind : ApplyKind) (len : Z)
    : outcome string (ToyLedger * ApplyRet) :=
  match toy_method m with
  | Some c =>
      match invoke_method toy_keccak toy_rt (toy_cetf s) c with
      | Ok (st, _) => Ok (mkToyLedger (accounts s) st, toy_ret None)
      | _ => Ok (s, toy_ret (Some "actor error"%string))
      end
  | None => Ok (s, toy_ret None)
  end.
#[export] Instance toy_fvm : Fvm ToyLedger Payload := {
  BLOCK_GAS_LIMIT := 10000000000;
  method_hash := λ s, Z.of_nat (String.length s);
  fvm_msg_check := λ m, if m_gas_limit m =? 0 then Some "no gas limit"%string else None;
  fvm_raw_length := λ m, Ok (Z.of_nat (length (m_params m)));
  fvm_execute := toy_execute;
  fvm_lookup_id := λ s a, Ok (match a with PayloadID id => Some id | PayloadSecp256k1 h => head h | _ => None end);
  fvm_get_actor := λ s id, Ok (accounts s !! id);
  fvm_set_actor := λ s id a, mkToyLedger (<[id := a]> (accounts s)) (toy_cetf s);
  fvm_cetf_state := λ s, Ok (Some (toy_cetf s));
  fvm_push_block_params := λ h b, Ok (h :: b);
  fvm_signed_tag_params := λ p, Ok (ast_height p :: ast_signature p);
  addr_new_secp256k1 := λ b, Some (PayloadSecp256k1 b);
  token_to_string := u64_to_string;
}.
#[export] Instance toy_fvm_laws : FvmLaws ToyLedger Payload toy_keccak.
Proof.
  split.
  - intros s id a. simpl. by rewrite lookup_insert_eq.
  - done.
  - intros s s' m len r c st He Hf Ht Hn Hp [= <-]. simpl in He. unfold toy_execute in He.
    assert (toy_method m = Some c) as Hc.
    { unfold toy_method. rewrite Hf, Ht, !bool_decide_eq_true_2 by done. rewrite Hn. simpl.
      destruct c as [| | | | | | |[h sig]]; simpl in Hp; try done; simplify_eq; by rewrite ?Hp, <- ?Hp. }
    rewrite Hc in He.
    destruct (invoke_method toy_keccak toy_rt (toy_cetf s) c) as [[st' ret]| | |] eqn:Hi;
      injection He as <- <-; simpl; try done. by exists toy_rt, st', ret.
Qed.

Definition toy_state (registered : list (Payload * bytes)) : State Payload :=
  mkState ∅ (list_to_map registered) false ∅.
Definition toy_block (registered : list (Payload * bytes)) : FvmExecState ToyLedger :=
  mkExec (mkToyLedger {[1 := mkActor [] [] 5 1000 None]} (toy_state registered)) 1337 5 0 (Some [9]) None
    (mkParams 0 0 1000 3) false.
Definition toy_bft (h : Z) : outcome string (list bytes) := Ok [[1]; [2]].
Definition both_registered : list (Payload * bytes) :=
  [(PayloadSecp256k1 [1], [10]); (PayloadSecp256k1 [2], [20])].

Lemma begin_enables_cetf_witness :
  ∃ st' ret cetf, fvm_begin ∅ true toy_bft (toy_block both_registered) = Ok (st', ret) ∧
    fvm_cetf_state (ledger st') = Ok (Some cetf) ∧
    (enabled cetf = true ∨
     ∃ a, a ∈ [PayloadSecp256k1 [1]; PayloadSecp256k1 [2]] ∧ get_validators_keymap cetf !! a = None).
Proof.
  destruct (fvm_begin ∅ true toy_bft (toy_block both_registered)) as [[st' ret]| | |] eqn:Hb;
    [|vm_compute in Hb; discriminate Hb..].
  destruct (begin_enables_cetf toy_keccak ∅ true toy_bft (toy_block both_registered) st' ret)
    as (keys & addrs & cetf & Hk & Ha & Hc & Hen).
  - simpl. lia.
  - intros u r Hs. vm_compute in Hs. discriminate Hs.
  - exact Hb.
  - exists st', ret, cetf. split; [reflexivity|]. split; [exact Hc|].
    injection Hk as <-. injection Ha as <-. exact Hen.
Defined.

Definition user_message (seq : Z) : Message Payload :=
  mkMessage 0 (PayloadSecp256k1 (repeat 1 20)) (PayloadID 1000) seq 0 0 [] 10 20 1.
Definition user_sig : Signature := mkSignature Secp256k1 (repeat 1 64 ++ [0]).
Lemma user_messages_run_explicitly_witness :
  ∃ st' ret, signed_deliver exec_chain_id fvm_deliver (toy_block []) (VSigned (mkSigned (user_message 5) user_sig)) =
      Ok (st', inr ret) ∧
    execute_explicit (toy_block []) (user_message 5) = Ok (st', (apply_ret (fvm ret), emitters (fvm ret))).
Proof.
  destruct (signed_deliver exec_chain_id fvm_deliver (toy_block []) (VSigned (mkSigned (user_message 5) user_sig)))
    as [[st' [e|ret]]| | |] eqn:Hd; try (vm_compute in Hd; discriminate Hd).
  exists st', ret. split; [reflexivity|].
  apply (user_messages_run_explicitly (toy_block []) _ st' ret) in Hd as [_ Hx].
  - exact Hx.
  - intros s d a. simpl. destruct (decide _) as [->|]; done.
  - intros m Heq. discriminate Heq.
Defined.

Lemma mempool_is_consistent_witness :
  ∃ st', check_all (toy_block []) [user_message 5; user_message 6] = Ok (st', [ExitOk; ExitOk]) ∧
    Zsum (λ m, m_gas_fee_cap m * m_gas_limit m) [user_message 5; user_message 6] <= 1000.
Proof.
  destruct (check_all (toy_block []) [user_message 5; user_message 6]) as [[st' codes]| | |] eqn:Hc;
    try (vm_compute in Hc; discriminate Hc).
  assert (codes = [ExitOk; ExitOk]) as ->.
  { assert (snd <$> check_all (toy_block []) [user_message 5; user_message 6] = Ok [ExitOk; ExitOk]) as Hs
      by (vm_compute; reflexivity).
    rewrite Hc in Hs. by injection Hs. }
  exists st'. split; [reflexivity|].
  apply (mempool_is_consistent toy_keccak [user_message 5; user_message 6] (toy_block []) 1 (mkActor [] [] 5 1000 None)
    (PayloadSecp256k1 (repeat 1 20)) st' [ExitOk; ExitOk]); try done.
  - by repeat constructor.
  - by repeat constructor.
Defined.
