(* ===== verification/Chain.v ===== *)
(** * The chain message interpreter ([vm/interpreter/src/chain.rs],
    [vm/message/src/ipc.rs], [chain.rs])

    The interpreter that knows about IPC: it adds the resolved checkpoints and the
    parent finality to proposals, votes on proposals, and executes the transactions
    of a block, keeping the finality provider, the vote tally and the resolution
    pool in step with the ledger.

    [ChainEnv] is shared state behind STM variables: the operations that change it
    return the new one.  The layers below are those of [Message] (signatures) and
    [Exec] (the FVM), composed as in the code. *)

From Stdlib Require Import Ascii String.
From stdpp Require Import base tactics numbers list gmap.
From S2P Require Import Prelude SeqCache Voting IpcApi Finality Provider Pool CetfActor VoteExt Message Checkpoint Exec.

Open Scope Z_scope.

(** ** Messages ([ipc.rs], [chain.rs]) *)

Record ValidatorSignature (A : Type) := mkValSig { vs_validator : A; vs_signature : Signature }.
Arguments mkValSig {A} _ _.
Record IpcCheckpoint (A : Type) := mkIpcCheckpoint {
  ic_subnet_id : SubnetID A;
  ic_height : Z;
  ic_next_validator_set_id : Z;
  ic_bottom_up_messages : bytes;
}.
Arguments mkIpcCheckpoint {A} _ _ _ _.
Arguments ic_subnet_id {A} _.
Arguments ic_bottom_up_messages {A} _.
Record CertifiedMessage (A : Type) := mkCertified {
  cert_message : IpcCheckpoint A;
  certificate : list (ValidatorSignature A);
}.
Arguments mkCertified {A} _ _.
Arguments cert_message {A} _.
Record RelayedMessage (A : Type) := mkRelayed {
  rel_message : CertifiedMessage A;
  relayer : A;
  rel_sequence : Z;
  rel_gas_limit : Z;
  rel_gas_fee_cap : Z;
  rel_gas_premium : Z;
}.
Arguments mkRelayed {A} _ _ _ _ _ _.
Arguments rel_message {A} _.
Arguments relayer {A} _.
Arguments rel_sequence {A} _.
Arguments rel_gas_limit {A} _.
Arguments rel_gas_fee_cap {A} _.
Arguments rel_gas_premium {A} _.
Record SignedRelayedMessage (A : Type) := mkSignedRelayed {
  srm_message : RelayedMessage A;
  srm_signature : Signature;
}.
Arguments mkSignedRelayed {A} _ _.
Arguments srm_message {A} _.
Arguments srm_signature {A} _.
Record ParentFinality := mkParentFinality { pf_height : Z; pf_block_hash : bytes }.

Inductive IpcMessage (A : Type) :=
| BottomUpResolve (m : SignedRelayedMessage A)
| BottomUpExec (m : CertifiedMessage A)
| TopDownExec (p : ParentFinality).
Arguments BottomUpResolve {A} _.
Arguments BottomUpExec {A} _.
Arguments TopDownExec {A} _.

Inductive ChainMessage (A : Type) :=
| Signed (m : SignedMessage A)
| Ipc (m : IpcMessage A)
| Cetf (m : CetfMessage).
Arguments Signed {A} _.
Arguments Ipc {A} _.
Arguments Cetf {A} _.

(** The only kind of item is a bottom-up checkpoint, so an item is that checkpoint;
    items are hashed and compared structurally. *)
Notation CheckpointPoolItem := CertifiedMessage (only parsing).
Definition resolve_key {A} (item : CertifiedMessage A) : SubnetID A * bytes :=
  (ic_subnet_id (cert_message item), ic_bottom_up_messages (cert_message item)).

(** [x as i64] for a [u64] *)
Definition u64_as_i64 (x : Z) : Z := if x <? 2 ^ 63 then x else x - 2 ^ 64.

Section countable.
Context {A : Type} `{Countable A}.
#[export] Instance signature_eq_dec : EqDecision Signature.
Proof. intros [[] x] [[] y]; (destruct (decide (x = y)); [left; congruence|right; congruence]) || (right; congruence). Defined.
#[export] Instance signature_countable : Countable Signature :=
  inj_countable' (λ s, (match sig_type s with Secp256k1 => true | BLSSig => false end, sig_bytes s))
    (λ p, mkSignature (if (p.1 : bool) then Secp256k1 else BLSSig) p.2)
    ltac:(by intros [[] ?]).
#[export] Instance subnet_eq_dec : EqDecision (SubnetID A).
Proof. solve_decision. Defined.
#[export] Instance subnet_countable : Countable (SubnetID A) :=
  inj_countable' (λ s, (root s, children s)) (λ p, mkSubnetID p.1 p.2) ltac:(by intros []).
#[export] Instance validator_signature_eq_dec : EqDecision (ValidatorSignature A).
Proof. solve_decision. Defined.
#[export] Instance ipc_checkpoint_eq_dec : EqDecision (IpcCheckpoint A).
Proof. solve_decision. Defined.
#[export] Instance certified_eq_dec : EqDecision (CertifiedMessage A).
Proof. solve_decision. Defined.
#[export] Instance certified_countable : Countable (CertifiedMessage A) :=
  inj_countable'
    (λ c, (ic_subnet_id (cert_message c), ic_height _ (cert_message c),
           ic_next_validator_set_id _ (cert_message c), ic_bottom_up_messages (cert_message c),
           (λ v, (vs_validator _ v, vs_signature _ v)) <$> certificate _ c))
    (λ p, mkCertified (mkIpcCheckpoint p.1.1.1.1 p.1.1.1.2 p.1.1.2 p.1.2) ((λ q, mkValSig q.1 q.2) <$> p.2))
    ltac:(intros [[] l]; simpl; f_equal; induction l as [|[] l IH]; [done|]; simpl; by f_equal).
End countable.

(** ** The environment *)

Record ChainEnv (K A : Type) `{Countable K} `{Countable A} := mkEnv {
  checkpoint_pool : ResolvePool (SubnetID A * bytes) (CertifiedMessage A);
  parent_finality_provider : Toggle (FinalityWithNull A);
  parent_finality_votes : VoteTally K bytes;
}.
Arguments mkEnv {K A _ _ _ _} _ _ _.
Arguments checkpoint_pool {K A _ _ _ _} _.
Arguments parent_finality_provider {K A _ _ _ _} _.
Arguments parent_finality_votes {K A _ _ _ _} _.

(** What delivering a message returns; the left is [InvalidSignature]. *)
Inductive ChainMessageApplyRet (A : Type) :=
| RetSigned (r : string + SignedMessageApplyRet (FvmApplyRet A))
| RetIpc (r : FvmApplyRet A).
Arguments RetSigned {A} _.
Arguments RetIpc {A} _.

Definition GATEWAY_ACTOR_ID : Z := 64.
Definition METHOD_INVOKE_CONTRACT : Z := INVOKE_CONTRACT.

Section chain.
Context {S K A M : Type} `{AddressPayload A} `{!Countable A} `{Countable K} `{!MsgCrypto A}.
Context `{!Fvm S A} `{!Gateway S K A M (FvmApplyRet A)} (serialize : K → bytes).
Implicit Types (env : ChainEnv K A) (st : FvmExecState S) (msg : ChainMessage A) (msgs : list (ChainMessage A)).

(** ** Proposals

    [iter] is the order in which the [HashSet] of resolved items is iterated. *)

Definition choose_finality (parent quorum : option IPCParentFinality) : option IPCParentFinality :=
  match parent, quorum with
  | Some parent, Some quorum => Some (if height parent <=? height quorum then parent else quorum)
  | Some _, None => None
  | None, _ => None
  end.

Definition chain_prepare {E} (iter : gset (CertifiedMessage A) → list (CertifiedMessage A)) env msgs
    : outcome E (ChainEnv K A * list (ChainMessage A)) :=
  let ckpts := (λ c, Ipc (BottomUpExec c)) <$> iter (collect_resolved (checkpoint_pool env)) in
  let votes := pause_votes_until_find_quorum (parent_finality_votes env) in
  parent ← toggle_next_proposal (parent_finality_provider env);
  let '(votes, q) := find_quorum votes in
  let quorum := (λ q : Z * bytes, mkFinality q.1 q.2) <$> q in
  let finality := match choose_finality parent quorum with
                  | Some f => [Ipc (TopDownExec (mkParentFinality (u64_as_i64 (height f)) (Finality.block_hash f)))]
                  | None => []
                  end in
  Ok (mkEnv (checkpoint_pool env) (parent_finality_provider env) votes, msgs ++ finality ++ ckpts).

(** Whether a message of a proposal is acceptable. *)
Definition process_message {E} env msg : outcome E bool :=
  match msg with
  | Ipc (BottomUpExec m) =>
      Ok (match get_status resolve_key (checkpoint_pool env) m with
          | None => false
          | Some status => is_resolved status
          end)
  | Ipc (TopDownExec p) =>
      toggle_check_proposal (parent_finality_provider env) (mkFinality (i64_as_u64 (pf_height p)) (pf_block_hash p))
  | _ => Ok true
  end.
Fixpoint chain_process {E} env msgs : outcome E bool :=
  match msgs with
  | [] => Ok true
  | msg :: rest => ok ← process_message env msg; match ok with true => chain_process env rest | false => Ok false end
  end.

(** ** Messages for the FVM *)

Definition GATEWAY_ACTOR_ADDR : A := addr_new_id GATEWAY_ACTOR_ID.

(** [cbor_relayed] is the CBOR of the relayed message. *)
Definition relayed_bottom_up_ckpt_to_fvm (cbor_relayed : RelayedMessage A → option bytes)
    (relayed : SignedRelayedMessage A) : outcome SignedMessageError (SyntheticMessage A) :=
  let r := srm_message relayed in
  let msg := mkMessage 0 (relayer r) GATEWAY_ACTOR_ADDR (rel_sequence r) 0 METHOD_INVOKE_CONTRACT []
               (rel_gas_limit r) (rel_gas_fee_cap r) (rel_gas_premium r) in
  new_synthetic msg (cbor_relayed r) (srm_signature relayed).

Definition cetf_tag_msg_to_fvm (tag : Z) (sig : BlsSignature) : outcome string (Message A) :=
  params ← fvm_signed_tag_params (mkAddSignedTag tag sig);
  Ok (mkMessage 0 SYSTEM_ACTOR_ADDR CETFSYSCALL_ACTOR_ADDR tag 0 (method_hash "AddSignedTag") params
        system_gas_limit 0 0).

(** ** Execution

    [client] answers the queries to the parent, by height and attempt. *)
Context (cbor_relayed : RelayedMessage A → option bytes) (client : Z → nat → ParentQueryProxy A).

Definition inner_deliver st (m : VerifiableMessage A)
    : outcome string (FvmExecState S * (string + SignedMessageApplyRet (FvmApplyRet A))) :=
  signed_deliver exec_chain_id fvm_deliver st m.

Definition deliver_topdown env st (p : ParentFinality)
    : outcome string (ChainEnv K A * FvmExecState S * FvmApplyRet A) :=
  if negb (is_enabled (parent_finality_provider env))
  then Err "cannot execute IPC top-down message: parent provider disabled"%string
  else
    let finality := new_parent_finality (pf_height p) (pf_block_hash p) in
    r ← commit_finality st finality (parent_finality_provider env);
    let '(st1, (prev_height, prev_finality)) := r in
    let execution_fr := prev_height in
    let execution_to := (height finality - 1)%u64 in
    changes ← toggle_validator_changes_from (parent_finality_provider env) client execution_fr execution_to;
    st2 ← on_ledger st1 (λ s, gw_store_validator_changes s changes);
    msgs ← toggle_top_down_msgs_from (parent_finality_provider env) client execution_fr execution_to;
    r2 ← execute_topdown_msgs st2 msgs;
    provider ← toggle_set_new_finality (parent_finality_provider env) finality prev_finality;
    let votes := set_finalized (parent_finality_votes env) (height finality) (Finality.block_hash finality) in
    Ok (mkEnv (checkpoint_pool env) provider votes, r2.1, r2.2).

Definition deliver_succeeded (r : string + SignedMessageApplyRet (FvmApplyRet A)) : bool :=
  match r with inr ret => is_success (exit_code (apply_ret (fvm ret))) | inl _ => false end.

Definition chain_deliver env st msg
    : outcome string (ChainEnv K A * FvmExecState S * ChainMessageApplyRet A) :=
  match msg with
  | Cetf (CetfTag h sig) =>
      m ← cetf_tag_msg_to_fvm h sig;
      r ← inner_deliver st (VNotVerify m);
      Ok (env, r.1, RetSigned r.2)
  | Signed m =>
      r ← inner_deliver st (VSigned m);
      Ok (env, r.1, RetSigned r.2)
  | Ipc (BottomUpResolve m) =>
      smsg ← map_err (λ _, "failed to syntesize FVM message"%string) (relayed_bottom_up_ckpt_to_fvm cbor_relayed m);
      r ← inner_deliver st (VSynthetic smsg);
      let env' := if deliver_succeeded r.2
                  then mkEnv (add resolve_key (checkpoint_pool env) (rel_message (srm_message m)) false).1
                         (parent_finality_provider env) (parent_finality_votes env)
                  else env in
      Ok (env', r.1, RetSigned r.2)
  | Ipc (BottomUpExec _) => Panic
  | Ipc (TopDownExec p) => r ← deliver_topdown env st p; Ok (r.1.1, r.1.2, RetIpc r.2)
  end.

Definition chain_begin env st (sch : UpgradeScheduler S) (push_chain_meta : bool)
    (bft_power_table : Z → outcome string (list bytes))
    : outcome string (ChainEnv K A * FvmExecState S * FvmApplyRet A) :=
  r ← fvm_begin sch push_chain_meta bft_power_table st; Ok (env, r.1, r.2).

Definition chain_end env st (validator : option bytes) (syncing : bool)
    : outcome string (ChainEnv K A * FvmExecState S * list (Validator K)) :=
  r ← fvm_end serialize validator syncing st;
  let out := r.1.2 in
  let env' := match out with
              | [] => env
              | _ => mkEnv (checkpoint_pool env) (parent_finality_provider env)
                       (update_power_table (parent_finality_votes env) (as_update <$> out))
              end in
  Ok (env', r.1.1, out).

(** ** The mempool: the outer left is [IllegalMessage]. *)
Definition inner_check (exec_in_check : bool) st (m : VerifiableMessage A) (is_recheck : bool) :=
  signed_check exec_chain_id (λ st m _, fvm_check exec_in_check st m) st m is_recheck.

Definition chain_check (exec_in_check : bool) st msg (is_recheck : bool)
    : outcome string (FvmExecState S * (unit + (string + FvmCheckRet A))) :=
  match msg with
  | Signed m => r ← inner_check exec_in_check st (VSigned m) is_recheck; Ok (r.1, inr r.2)
  | Ipc (BottomUpResolve m) =>
      smsg ← map_err (λ _, "failed to syntesize FVM message"%string) (relayed_bottom_up_ckpt_to_fvm cbor_relayed m);
      r ← inner_check exec_in_check st (VSynthetic smsg) is_recheck;
      Ok (r.1, inr r.2)
  | Ipc (TopDownExec _) | Ipc (BottomUpExec _) => Ok (st, inl tt)
  | Cetf (CetfTag h sig) =>
      m ← cetf_tag_msg_to_fvm h sig;
      r ← inner_check exec_in_check st (VNotVerify m) is_recheck;
      Ok (r.1, inr r.2)
  end.
End chain.

(** ** Facts *)

Lemma u64_i64_roundtrip x : is_u64 x → i64_as_u64 (u64_as_i64 x) = x.
Proof.
  unfold i64_as_u64, u64_as_i64, is_u64, U64_MAX. intros Hx. destruct (x <? 2 ^ 63) eqn:Hlt.
  - apply wrap64_small. unfold is_u64, U64_MAX. lia.
  - unfold wrap64. rewrite <- (Z_mod_plus_full (x - 2 ^ 64) 1 (2 ^ 64)). rewrite Z.mod_small; lia.
Qed.

Section chain_facts.
Context {K A : Type} `{AddressOps A} `{!Countable A} `{Countable K}.
Implicit Types (env : ChainEnv K A) (msg : ChainMessage A) (msgs : list (ChainMessage A)).

(** Items are stored under their key. *)
Definition pool_keys (p : ResolvePool (SubnetID A * bytes) (CertifiedMessage A)) : Prop :=
  ∀ k s item, items p !! k = Some s → item ∈ status_items s → resolve_key item = k.
Lemma pool_keys_add p item own : pool_keys p → pool_keys (add resolve_key p item own).1.
Proof.
  intros Hp k s i Hk Hi. unfold add in Hk.
  destruct (items p !! resolve_key item) as [s0|] eqn:Hs0; simpl in Hk;
    apply lookup_insert_Some in Hk as [[<- <-]|[_ Hk]]; try by eapply Hp.
  - simpl in Hi. apply elem_of_union in Hi as [->%elem_of_singleton|Hi]; [done|]. by eapply Hp.
  - simpl in Hi. by apply elem_of_singleton in Hi as ->.
Qed.

(** What a validator requires of a message in a proposal. *)
Definition acceptable env msg : Prop :=
  match msg with
  | Ipc (BottomUpExec m) =>
      ∃ s, items (checkpoint_pool env) !! resolve_key m = Some s ∧ is_resolved s = true
  | Ipc (TopDownExec p) =>
      ∃ f c pl, parent_finality_provider env = Some f ∧ last_committed_finality f = Some c ∧
        height c < i64_as_u64 (pf_height p) ∧
        to_map (cached_data f) !! i64_as_u64 (pf_height p) = Some (Some pl) ∧ payload_hash pl = pf_block_hash p
  | _ => True
  end.

Definition env_inv env : Prop := ∀ f, parent_finality_provider env = Some f → provider_inv f.

Lemma process_message_spec {E} env msg :
  env_inv env → ∃ b, process_message (E:=E) env msg = Ok b ∧ (b = true ↔ acceptable env msg).
Proof.
  intros Hinv. destruct msg as [m|[m|m|p]|m]; try (exists true; done); simpl.
  - unfold get_status. eexists. split; [done|].
    destruct (items (checkpoint_pool env) !! resolve_key m) as [s|]; naive_solver.
  - unfold toggle_check_proposal, perform_or_else.
    destruct (parent_finality_provider env) as [f|] eqn:Hf; [|exists false; naive_solver].
    destruct (check_proposal_iff (E:=E) f (mkFinality (i64_as_u64 (pf_height p)) (pf_block_hash p)) (Hinv f Hf))
      as (b & -> & Hb). exists b. split; [done|]. rewrite Hb. simpl. naive_solver.
Qed.
Lemma chain_process_spec {E} env msgs :
  env_inv env → ∃ b, chain_process (E:=E) env msgs = Ok b ∧ (b = true ↔ Forall (acceptable env) msgs).
Proof.
  intros Hinv. induction msgs as [|msg msgs IH]; simpl; [by exists true|].
  destruct (process_message_spec (E:=E) env msg Hinv) as (b & -> & Hb). simpl. destruct b.
  - destruct IH as (b' & -> & Hb'). exists b'. split; [done|]. rewrite Forall_cons, Hb'. naive_solver.
  - exists false. split; [done|]. rewrite Forall_cons. naive_solver.
Qed.

(** A node that follows the parent chain [view], with [c] as the last finality it
    committed: its cache and its tally agree with the chain, and votes are counted
    above [c]. *)
Record follows (view : Z → option (ParentViewPayload A)) env (f : FinalityWithNull A) (c : IPCParentFinality) : Prop := {
  fol_provider : parent_finality_provider env = Some f;
  fol_inv : provider_inv f;
  fol_cache : cache_faithful view f;
  fol_committed : last_committed_finality f = Some c;
  fol_range : is_u64 (height c + max_proposal_range (config f));
  fol_chain : ∀ h bh, chain (parent_finality_votes env) !! h = Some bh → bh = payload_hash <$> view h;
  fol_heights : ∀ h, is_Some (chain (parent_finality_votes env) !! h) → is_u64 h;
  fol_finalized : height c <= last_finalized_height (parent_finality_votes env);
  fol_powers : powers_ok (power_table (parent_finality_votes env));
}.

(** What a node proposes is a block of the parent chain above its last finality,
    cached or in the chain of its tally. *)
Lemma proposed_finality {E} view env f c o q p :
  follows view env f c → next_proposal (E:=E) f = Ok o →
  (find_quorum (pause_votes_until_find_quorum (parent_finality_votes env))).2 = q →
  choose_finality o ((λ q : Z * bytes, mkFinality q.1 q.2) <$> q) = Some p →
  is_u64 (height p) ∧ height c < height p ∧
  (is_Some (to_map (cached_data f) !! height p) ∨ is_Some (chain (parent_finality_votes env) !! height p)) ∧
  ∃ pl, view (height p) = Some pl ∧ payload_hash pl = Finality.block_hash p.
Proof.
  intros [_ Hf Hcf Hc Hr Hch Hhs Hfin Hpw] Ho Hq Hp.
  destruct o as [p0|]; [|done]. destruct q as [[hq vq]|]; [|done]. simpl in Hp.
  destruct (height p0 <=? hq) eqn:Hle; injection Hp as <-.
  - destruct (next_proposal_cases (E:=E) f c Hf Hc Hr) as (o & Ho' & Hcases).
    rewrite Ho in Ho'. injection Ho' as <-.
    destruct (proj1 (Hcases p0) eq_refl) as (latest & first & pl & _ & Hph & Hpl & Hhash).
    pose proof (proposal_height_above _ _ _ _ _ Hf Hc Hph) as Hlt. rewrite Hpl.
    split; [by apply (to_map_u64 _ _ _ (inv_cache f Hf) Hpl)|]. split; [done|]. split; [by left; eauto|].
    exists pl. split; [|done]. by rewrite <- (Hcf _ _ Hpl).
  - pose proof (find_quorum_best (pause_votes_until_find_quorum (parent_finality_votes env)) Hpw) as Hb.
    rewrite Hq in Hb. destruct Hb as [(Hchain & Hlast & _) _]. simpl in *.
    assert (height c < hq) by (unfold last_finalized_height in *; simpl in *; lia).
    split; [apply Hhs; eauto|]. split; [done|]. split; [by right; eauto|].
    apply Hch in Hchain. symmetry in Hchain. apply fmap_Some in Hchain as (pl & Hpl & ->). eauto.
Qed.

(** The messages a node adds to a proposal are acceptable to every node that
    follows the same parent chain at least as far, has not committed more, and has
    resolved the same checkpoints. *)
Lemma prepared_acceptable {E} view iter env1 env2 f1 f2 c1 c2 msgs env1' out :
  follows view env1 f1 c1 → follows view env2 f2 c2 → height c2 <= height c1 →
  (∀ h, height c1 < h → is_Some (to_map (cached_data f1) !! h) ∨ is_Some (chain (parent_finality_votes env1) !! h) →
        is_Some (to_map (cached_data f2) !! h)) →
  pool_keys (checkpoint_pool env1) → (∀ s, iter s ≡ₚ elements s) →
  (∀ k s, items (checkpoint_pool env1) !! k = Some s → is_resolved s = true →
          ∃ s', items (checkpoint_pool env2) !! k = Some s' ∧ is_resolved s' = true) →
  chain_prepare (E:=E) iter env1 msgs = Ok (env1', out) →
  ∃ extra, out = msgs ++ extra ∧ Forall (acceptable env2) extra.
Proof.
  intros Hfol1 Hfol2 Hle Hsync Hkeys Hiter Hres.
  unfold chain_prepare, toggle_next_proposal, perform_or_else. rewrite (fol_provider _ _ _ _ Hfol1).
  destruct (next_proposal f1) as [o| | |] eqn:Ho; cbn [mbind outcome_bind]; try done.
  destruct (find_quorum _) as [votes q] eqn:Hq. intros [= _ <-]. eexists. split; [done|].
  apply Forall_app. split.
  - destruct (choose_finality _ _) as [p|] eqn:Hp; [|by constructor]. constructor; [|by constructor].
    destruct (proposed_finality (E:=E) view env1 f1 c1 o q p Hfol1 Ho) as (Hu & Hlt & Hin & pl & Hpl & Hhash);
      [by rewrite Hq|done|].
    simpl. rewrite u64_i64_roundtrip by done.
    destruct (Hsync _ Hlt Hin) as [v Hv]. pose proof (fol_cache _ _ _ _ Hfol2 _ _ Hv) as ->.
    rewrite Hpl in Hv. exists f2, c2, pl. rewrite Hv.
    split; [apply Hfol2|]. split; [apply Hfol2|]. split; [lia|done].
  - apply Forall_fmap, Forall_forall. intros item Hitem. rewrite Hiter in Hitem.
    apply elem_of_elements, elem_of_collect_resolved in Hitem as (k & s & Hk & Hr & Hi).
    simpl. rewrite (Hkeys _ _ _ Hk Hi). by eapply Hres.
Qed.
End chain_facts.

(** ** What the gateway promises

    Ghost observations of a ledger: the finality the gateway committed last, and
    the cross-net messages and validator changes handed to it so far.  Committing
    returns the previous finality; the other calls leave the finality alone. *)
Class GatewayLaws (S K A M R : Type) `{Gateway S K A M R} := {
  gw_committed : S → option IPCParentFinality;
  gw_applied : S → list (IpcEnvelope A);
  gw_stored : S → list (StakingChangeRequest A);
  gw_commit_law s f s' prev :
    gw_commit_parent_finality s f = Ok (s', prev) →
    prev = gw_committed s ∧ gw_committed s' = Some f ∧ gw_applied s' = gw_applied s ∧ gw_stored s' = gw_stored s;
  gw_store_law s l s' :
    gw_store_validator_changes s l = Ok s' →
    gw_committed s' = gw_committed s ∧ gw_applied s' = gw_applied s ∧ gw_stored s' = gw_stored s ++ l;
  gw_mint_law s x s' :
    gw_mint_to_gateway s x = Ok s' →
    gw_committed s' = gw_committed s ∧ gw_applied s' = gw_applied s ∧ gw_stored s' = gw_stored s;
  gw_apply_law s l s' r :
    gw_apply_cross_messages s l = Ok (s', r) →
    gw_committed s' = gw_committed s ∧ gw_applied s' = gw_applied s ++ l ∧ gw_stored s' = gw_stored s;
}.

Section topdown_facts.
Context {S K A M : Type} `{AddressPayload A} `{!Countable A} `{Countable K} `{!MsgCrypto A}.
Context `{!Fvm S A} `{!Gateway S K A M (FvmApplyRet A)} `{!GatewayLaws S K A M (FvmApplyRet A)}.
Context (view : Z → option (ParentViewPayload A)).
Implicit Types (env : ChainEnv K A) (st : FvmExecState S) (client : Z → nat → ParentQueryProxy A).

Lemma execute_topdown_law st msgs st' r :
  execute_topdown_msgs st msgs = Ok (st', r) →
  gw_committed (ledger st') = gw_committed (ledger st) ∧
  gw_applied (ledger st') = gw_applied (ledger st) ++ msgs ∧
  gw_stored (ledger st') = gw_stored (ledger st).
Proof.
  unfold execute_topdown_msgs. destruct (tokens_to_mint msgs =? 0); simpl.
  - destruct (gw_apply_cross_messages _ _) as [[s r']| | |] eqn:Ha; simpl; try done. intros [= <- _].
    by apply gw_apply_law in Ha.
  - unfold on_ledger. destruct (gw_mint_to_gateway _ _) as [s| | |] eqn:Hm; simpl; try done.
    destruct (gw_apply_cross_messages _ _) as [[s2 r']| | |] eqn:Ha; simpl; try done. intros [= <- _].
    apply gw_mint_law in Hm as (Hc & Hap & Hst). apply gw_apply_law in Ha as (Hc2 & Hap2 & Hst2).
    simpl. by rewrite Hc2, Hap2, Hst2, Hc, Hap, Hst.
Qed.

(** Which heights were executed when [h] is the finality to start from. *)
Definition executed_until (genesis h : Z) (s : S) : Prop :=
  (match gw_committed s with None => h = genesis | Some f => h = height f end) ∧
  gw_applied s = concat (data_of view topdown_cross_msgs <$> heights genesis (h - 1)) ∧
  gw_stored s = concat (data_of view Finality.validator_changes <$> heights genesis (h - 1)).

(** A node that can answer for the parent chain: what is not cached is answered by
    the client within the retry limit. *)
Record can_execute env client (f : FinalityWithNull A) (genesis : Z) : Prop := {
  ce_provider : parent_finality_provider env = Some f;
  ce_inv : provider_inv f;
  ce_cache : cache_faithful view f;
  ce_genesis : genesis_epoch f = genesis;
  ce_answers : ∀ h, to_map (cached_data f) !! h = None →
     eventually_answers view (exponential_retry_limit (config f))
       (λ i, map_value (get_validator_changes (client h i) h)) Finality.validator_changes h ∧
     eventually_answers view (exponential_retry_limit (config f))
       (λ i, map_value (get_top_down_msgs (client h i) h)) topdown_cross_msgs h;
}.

Lemma heights_app a b c : a <= b → b < c → heights a (b - 1) ++ heights b (c - 1) = heights a (c - 1).
Proof.
  intros Hab Hbc. unfold heights. replace (c - 1 - a + 1) with ((b - 1 - a + 1) + (c - 1 - b + 1)) by lia.
  rewrite (seqZ_app a (b - 1 - a + 1) (c - 1 - b + 1)) by lia. do 2 f_equal. lia.
Qed.

(** One delivery: the heights from the last finality up to below the new one. *)
Lemma deliver_topdown_step env client st p f genesis h env' st' r :
  can_execute env client f genesis → executed_until genesis h (ledger st) →
  genesis <= h → 0 <= h < pf_height p → pf_height p < 2 ^ 63 →
  deliver_topdown client env st p = Ok (env', st', r) →
  executed_until genesis (pf_height p) (ledger st') ∧
  gw_committed (ledger st') = Some (mkFinality (pf_height p) (pf_block_hash p)) ∧
  (∃ f', parent_finality_provider env' = Some f' ∧
     last_committed_finality f' = Some (mkFinality (pf_height p) (pf_block_hash p))) ∧
  last_finalized_height (parent_finality_votes env') = pf_height p.
Proof.
  intros [Hp Hf Hcf Hg Hans] (Hh & Hap & Hst) Hgh Hlt Hmax. unfold deliver_topdown. rewrite Hp. cbn [is_enabled negb].
  set (fin := new_parent_finality (pf_height p) (pf_block_hash p)).
  assert (fin = mkFinality (pf_height p) (pf_block_hash p)) as Hfin.
  { unfold fin, new_parent_finality, i64_as_u64. rewrite wrap64_small; [done|]. unfold is_u64, U64_MAX. lia. }
  assert ((height fin - 1)%u64 = pf_height p - 1) as Hto.
  { rewrite Hfin. simpl. apply sub64_small; unfold is_u64, U64_MAX; lia. }
  unfold commit_finality. destruct (gw_commit_parent_finality _ fin) as [[s1 prev]| | |] eqn:Hc; cbn [mbind outcome_bind]; try done.
  apply gw_commit_law in Hc as (-> & Hc1 & Ha1 & Hs1).
  set (pr := match gw_committed (ledger st) with Some p => _ | None => _ end).
  assert (∃ pv, pr = Ok (set_ledger st s1, (h, pv))) as [pv ->].
  { unfold pr. destruct (gw_committed (ledger st)); subst h; eauto. rewrite <- Hg. eauto. }
  cbn [mbind outcome_bind toggle_validator_changes_from toggle_top_down_msgs_from]. rewrite Hto.
  destruct (queries_faithful view f client h (pf_height p - 1) Hf Hcf) as [-> ->]; [intros; by apply Hans|].
  simpl. unfold on_ledger. simpl. destruct (gw_store_validator_changes s1 _) as [s2| | |] eqn:Hs2; simpl; try done.
  apply gw_store_law in Hs2 as (Hc2 & Ha2 & Hst2).
  destruct (execute_topdown_msgs _ _) as [[st3 r3]| | |] eqn:Hx; simpl; try done. intros [= <- <- _].
  apply execute_topdown_law in Hx as (Hc3 & Ha3 & Hst3). simpl in *.
  split; [|split; [by rewrite Hc3, Hc2, Hc1, Hfin|split]].
  - split; [by rewrite Hc3, Hc2, Hc1, Hfin|].
    rewrite <- (heights_app genesis h) by lia. rewrite !fmap_app, !concat_app.
    by rewrite Ha3, Ha2, Ha1, Hap, Hst3, Hst2, Hs1, Hst.
  - eexists. split; [done|]. simpl. by rewrite Hfin.
  - unfold last_finalized_height. rewrite get_min_set_finalized. exact (f_equal height Hfin).
Qed.
End topdown_facts.

Section chain_theorems.
Context {S K A M : Type} `{AddressPayload A} `{!Countable A} `{Countable K} `{!MsgCrypto A}.
Context `{!Fvm S A} `{!Gateway S K A M (FvmApplyRet A)}.
Implicit Types (env : ChainEnv K A) (st : FvmExecState S) (client : Z → nat → ParentQueryProxy A)
  (msgs : list (ChainMessage A)).

(** Delivering finalities one after the other.  Between two deliveries the syncer,
    the votes and other transactions change the environment, so every delivery
    comes with its own. *)
Fixpoint deliver_finalities st (steps : list (ChainEnv K A * (Z → nat → ParentQueryProxy A) * ParentFinality))
    : outcome string (FvmExecState S) :=
  match steps with
  | [] => Ok st
  | (env, client, p) :: rest => r ← deliver_topdown client env st p; deliver_finalities r.1.2 rest
  end.

Lemma deliver_finalities_until `{!GatewayLaws S K A M (FvmApplyRet A)} view genesis base st steps st' :
  0 <= genesis <= base → executed_until view genesis base (ledger st) →
  Forall (λ s, ∃ f, can_execute view s.1.1 s.1.2 f genesis) steps →
  (∀ i a b, (base :: (pf_height ∘ snd <$> steps)) !! i = Some a →
            (base :: (pf_height ∘ snd <$> steps)) !! Nat.succ i = Some b → a < b < 2 ^ 63) →
  deliver_finalities st steps = Ok st' →
  executed_until view genesis (default base (last (pf_height ∘ snd <$> steps))) (ledger st') ∧
  gw_committed (ledger st') =
    from_option (λ s, Some (mkFinality (pf_height s.2) (pf_block_hash s.2))) (gw_committed (ledger st)) (last steps).
Proof.
  revert st base. induction steps as [|[[env client] p] steps IH]; intros st base Hgb Hex Hce Hinc Hrun.
  { simpl in *. by injection Hrun as <-. }
  apply Forall_cons in Hce as [[f Hf] Hce]. simpl in Hf, Hrun.
  destruct (Hinc 0%nat base (pf_height p)) as [Hlt Hmax]; [done|done|].
  destruct (deliver_topdown client env st p) as [[[env1 st1] r]| | |] eqn:Hd; simpl in Hrun; try done.
  destruct (deliver_topdown_step view env client st p f genesis base env1 st1 r) as (Hex1 & Hc1 & _);
    [done..|lia|lia|done|done|].
  destruct (IH st1 (pf_height p)) as [Hex2 Hc2]; [lia|done|done| |done|].
  { intros i a b Hi Hj. apply (Hinc (Nat.succ i)); done. }
  rewrite fmap_cons, !last_cons. split.
  - by destruct (last (pf_height ∘ snd <$> steps)).
  - rewrite Hc2, Hc1. by destruct (last steps).
Qed.

(** C3. Parent blocks are executed exactly once.  Starting from a ledger without a
    finality, deliver finalities of increasing height, each on a node whose cache
    agrees with the parent chain and whose client answers within the retry limit.
    Then the messages handed to the gateway are those of all parent blocks from
    the genesis epoch to just below the last finality, each once and in order, and
    so are the validator changes; the ledger has committed the last finality. *)
Theorem topdown_exactly_once `{!GatewayLaws S K A M (FvmApplyRet A)} view genesis st steps st' :
  gw_committed (ledger st) = None → gw_applied (ledger st) = [] → gw_stored (ledger st) = [] → 0 <= genesis →
  Forall (λ s, ∃ f, can_execute view s.1.1 s.1.2 f genesis) steps →
  (∀ i a b, (genesis :: (pf_height ∘ snd <$> steps)) !! i = Some a →
            (genesis :: (pf_height ∘ snd <$> steps)) !! Nat.succ i = Some b → a < b < 2 ^ 63) →
  deliver_finalities st steps = Ok st' →
  let last_height := default genesis (last (pf_height ∘ snd <$> steps)) in
  gw_applied (ledger st') = concat (data_of view topdown_cross_msgs <$> heights genesis (last_height - 1)) ∧
  gw_stored (ledger st') = concat (data_of view Finality.validator_changes <$> heights genesis (last_height - 1)) ∧
  gw_committed (ledger st') =
    (λ s, mkFinality (pf_height s.2) (pf_block_hash s.2)) <$> last steps.
Proof.
  intros Hc Ha Hs Hg Hce Hinc Hrun.
  assert (executed_until view genesis genesis (ledger st)) as Hex.
  { unfold executed_until, heights. rewrite Hc, Ha, Hs. replace (genesis - 1 - genesis + 1) with 0 by lia. done. }
  destruct (deliver_finalities_until view genesis genesis st steps st') as [(_ & Ha' & Hs') Hc']; try done.
  split; [done|]. split; [done|]. rewrite Hc', Hc. by destruct (last steps).
Qed.
(** A proposal is accepted exactly when every checkpoint in it for execution is
    resolved, and every finality in it is a block this node has in its cache, with
    the same hash, above the last finality it committed. *)
Theorem process_accepts_iff {E} env msgs :
  env_inv env →
  ∃ b, chain_process (E:=E) env msgs = Ok b ∧
    (b = true ↔ ∀ m, m ∈ msgs →
       match m with
       | Ipc (BottomUpExec c) =>
           ∃ s, items (checkpoint_pool env) !! resolve_key c = Some s ∧ is_resolved s = true
       | Ipc (TopDownExec p) =>
           ∃ f c pl, parent_finality_provider env = Some f ∧ last_committed_finality f = Some c ∧
             height c < i64_as_u64 (pf_height p) ∧
             to_map (cached_data f) !! i64_as_u64 (pf_height p) = Some (Some pl) ∧
             payload_hash pl = pf_block_hash p
       | _ => True
       end).
Proof.
  intros Hinv. destruct (chain_process_spec (E:=E) env msgs Hinv) as (b & Hb & Hiff).
  exists b. split; [done|]. by rewrite Hiff, Forall_forall.
Qed.

(** C37. Signatures of tags are not verified when they are stored.  Every node accepts
    a proposal with any signature for any height, whoever made it; and if a tag is
    scheduled for that height, delivering the message without a failure stores that
    signature under the tag. *)
Theorem forged_tag_is_stored actor_keccak `{!FvmLaws S A actor_keccak} env cbor client st h sig cetf tag env' st' ret :
  fvm_cetf_state (ledger st) = Ok (Some cetf) → get_tag_at_height cetf h = Some tag →
  chain_deliver (M:=M) cbor client env st (Cetf (CetfTag h sig)) = Ok (env', st', RetSigned (inr ret)) →
  failure_info (apply_ret (fvm ret)) = None →
  (∀ node : ChainEnv K A, chain_process (E:=string) node [Cetf (CetfTag h sig)] = Ok true) ∧
  ∃ cetf', fvm_cetf_state (ledger st') = Ok (Some cetf') ∧ signed_hashed_tags cetf' !! tag = Some sig.
Proof.
  intros Hc Htag Hd Hf. split; [done|]. revert Hd. unfold chain_deliver, cetf_tag_msg_to_fvm.
  destruct (fvm_signed_tag_params (mkAddSignedTag h sig)) as [ps| | |] eqn:Hps; simpl; try done.
  unfold inner_deliver, signed_deliver, fvm_deliver. simpl. rewrite decide_True by done.
  destruct (execute_implicit st _) as [[s [r e]]| | |] eqn:Hx; simpl; try done.
  intros [= _ <- <-]. simpl in Hf.
  destruct (execute_implicit_run _ _ _ _ Hx Hf) as [len Hrun].
  pose proof (cetf_dispatch _ _ _ _ _ (AddSignedTag (mkAddSignedTag h sig)) cetf Hrun eq_refl eq_refl eq_refl Hps Hc) as Hd.
  cbn [fst] in Hd. rewrite Hf in Hd. destruct Hd as (rt & cetf' & ret' & _ & Hinv & Hc').
  exists cetf'. split; [done|]. apply invoke_method_cases in Hinv as (_ & _ & tag' & Ht' & ->).
  simpl in Ht'. rewrite Htag in Ht'. injection Ht' as <-. simpl. by rewrite lookup_insert_eq.
Qed.
End chain_theorems.

(** ** Witnesses

    Addresses are IDs.  The ledger records what the gateway was given, next to the
    CETF actor; the parent is that of the witnesses of [Provider]. *)
#[local] Remove Hints id_address_eq_dec : typeclass_instances.
#[export] Instance id_address_countable : Countable IdAddress :=
  inj_countable' actor_id mkId ltac:(by intros []).
#[export] Instance id_address_payload : AddressPayload IdAddress := {
  payload := λ a, PayloadID (Z.of_N (actor_id a));
  new_delegated := λ _ _, None;
}.
#[export] Instance id_crypto : MsgCrypto IdAddress := {
  SecretKey := unit;
  cbor_message := λ m, Some [m_sequence m];
  bytes_ser := Some;
  bytes_de := Some;
  blake2b256 := pad32;
  keccak256 := pad32;
  cid_v1 := λ d, d;
  secp_sign := λ _ _, ([], 0);
  recovery_id_parse := λ _, None;
  parse_standard := λ _, None;
  sighash := λ _, [];
  rlp_signed := λ _ _, [];
  eth_recover := λ _ _, None;
  recover_secp_public_key := λ _ _, None;
  sig_verify := λ _ _ _, None;
}.

Record GwLedger := mkGwLedger {
  gl_committed : option IPCParentFinality;
  gl_applied : list (IpcEnvelope IdAddress);
  gl_stored : list (StakingChangeRequest IdAddress);
  gl_cetf : State IdAddress;
  gl_accounts : gmap Z (ActorState IdAddress);
}.
Definition gl_method (m : Message IdAddress) : option (Method IdAddress) :=
  if bool_decide (m_from m = mkId 0) && bool_decide (m_to m = mkId 49) then
    match m_method_num m, m_params m with
    | 6, [] => Some Enable
    | 12, h :: s => Some (AddSignedTag (mkAddSignedTag h s))
    | _, _ => None
    end
  else None.
Definition gl_execute (s : GwLedger) (m : Message IdAddress) (kind : ApplyKind) (len : Z)
    : outcome string (GwLedger * ApplyRet) :=
  match gl_method m with
  | Some c =>
      match invoke_method toy_keccak toy_rt (gl_cetf s) c with
      | Ok (st, _) => Ok (mkGwLedger (gl_committed s) (gl_applied s) (gl_stored s) st (gl_accounts s), toy_ret None)
      | _ => Ok (s, toy_ret (Some "actor error"%string))
      end
  | None => Ok (s, toy_ret None)
  end.
#[export] Instance gl_fvm : Fvm GwLedger IdAddress := {
  BLOCK_GAS_LIMIT := 10000000000;
  method_hash := λ s, Z.of_nat (String.length s);
  fvm_msg_check := λ _, None;
  fvm_raw_length := λ m, Ok (Z.of_nat (length (m_params m)));
  fvm_execute := gl_execute;
  fvm_lookup_id := λ s a, Ok (Some 0);
  fvm_get_actor := λ s id, Ok (gl_accounts s !! id);
  fvm_set_actor := λ s id a, mkGwLedger (gl_committed s) (gl_applied s) (gl_stored s) (gl_cetf s) (<[id := a]> (gl_accounts s));
  fvm_cetf_state := λ s, Ok (Some (gl_cetf s));
  fvm_push_block_params := λ h b, Ok (h :: b);
  fvm_signed_tag_params := λ p, Ok (ast_height p :: ast_signature p);
  addr_new_secp256k1 := λ _, None;
  token_to_string := u64_to_string;
}.
#[export] Instance gl_gateway : Gateway GwLedger Z IdAddress Z (FvmApplyRet IdAddress) := {
  gw_enabled _ := Ok true;
  gw_subnet_id _ := Ok sample_subnet;
  gw_bottom_up_msg_batch _ _ := Ok (0, []);
  gw_bottom_up_check_period _ := Ok 10;
  gw_current_power_table s := Ok (1, []);
  gw_apply_validator_changes s := Ok (s, 0);
  gw_create_bottom_up_checkpoint s _ _ := Ok s;
  gw_commit_parent_finality s f := Ok (mkGwLedger (Some f) (gl_applied s) (gl_stored s) (gl_cetf s) (gl_accounts s), gl_committed s);
  gw_store_validator_changes s l := Ok (mkGwLedger (gl_committed s) (gl_applied s) (gl_stored s ++ l) (gl_cetf s) (gl_accounts s));
  gw_mint_to_gateway s _ := Ok s;
  gw_apply_cross_messages s l :=
    Ok (mkGwLedger (gl_committed s) (gl_applied s ++ l) (gl_stored s) (gl_cetf s) (gl_accounts s),
        mkFvmRet (toy_ret None) (mkId 0) (mkId 64) 0 0 ∅);
  gw_incomplete_checkpoints _ := Ok [];
  gw_checkpoint_signatories _ _ := Ok [];
  msg_value m := m;
}.
#[export] Instance gl_gateway_laws : GatewayLaws GwLedger Z IdAddress Z (FvmApplyRet IdAddress).
Proof.
  unshelve econstructor.
  - exact gl_committed.
  - exact gl_applied.
  - exact gl_stored.
  - by intros s f s' prev [= <- <-].
  - by intros s l s' [= <-].
  - by intros s x s' [= <-].
  - by intros s l s' r [= <- _].
Defined.
#[export] Instance gl_fvm_laws : FvmLaws GwLedger IdAddress toy_keccak.
Proof.
  split.
  - intros s id a. simpl. by rewrite lookup_insert_eq.
  - done.
  - intros s s' m len r c st He Hf Ht Hn Hp [= <-]. simpl in He. unfold gl_execute in He.
    assert (gl_method m = Some c) as Hc.
    { unfold gl_method. rewrite Hf, Ht, !bool_decide_eq_true_2 by done. rewrite Hn. simpl.
      destruct c as [| | | | | | |[h sig]]; simpl in Hp; try done; simplify_eq; by rewrite ?Hp, <- ?Hp. }
    rewrite Hc in He.
    destruct (invoke_method toy_keccak toy_rt (gl_cetf s) c) as [[st' ret]| | |] eqn:Hi;
      injection He as <- <-; simpl; try done. by exists toy_rt, st', ret.
Qed.

Definition sample_ledger (committed : option IPCParentFinality) : GwLedger :=
  mkGwLedger committed [] [] (mkState {[7 := [1; 2]]} ∅ true ∅) ∅.
Definition sample_exec (committed : option IPCParentFinality) : FvmExecState GwLedger :=
  mkExec (sample_ledger committed) 1337 5 0 (Some [9]) None (mkParams 0 0 1000 3) false.
Definition sample_env : ChainEnv Z IdAddress :=
  mkEnv (new_pool) (Some sample_cached) (Voting.new [(1, 10)] (10, [0])).
Lemma sample_can_execute : can_execute sample_chain sample_env flaky_client sample_cached 0.
Proof.
  split; [done|apply sample_cached_inv|apply sample_cached_faithful|done|].
  intros h _. apply flaky_client_answers.
Qed.

Definition sample_steps : list (ChainEnv Z IdAddress * (Z → nat → ParentQueryProxy IdAddress) * ParentFinality) :=
  [(sample_env, flaky_client, mkParentFinality 2 [2]); (sample_env, flaky_client, mkParentFinality 3 [3])].
Lemma topdown_exactly_once_witness :
  ∃ st', deliver_finalities (sample_exec None) sample_steps = Ok st' ∧
    gl_applied (ledger st') = [sample_msg 0; sample_msg 1; sample_msg 2] ∧
    gl_committed (ledger st') = Some (mkFinality 3 [3]).
Proof.
  destruct (deliver_finalities (sample_exec None) sample_steps) as [st'| | |] eqn:Hd;
    [|vm_compute in Hd; discriminate Hd..].
  exists st'. split; [reflexivity|].
  destruct (topdown_exactly_once sample_chain 0 (sample_exec None) sample_steps st') as (Ha & _ & Hc);
    try reflexivity.
  - repeat constructor; exists sample_cached; apply sample_can_execute.
  - clear Hd. intros [|[|i]] a b Hi Hj; simpl in Hi, Hj; simplify_eq; lia.
  - exact Hd.
  - split; [exact Ha|exact Hc].
Defined.

Lemma process_accepts_iff_witness :
  ∃ b, chain_process (E:=string) sample_env [Ipc (TopDownExec (mkParentFinality 11 [11]))] = Ok b ∧ b = true.
Proof.
  destruct (process_accepts_iff (E:=string) sample_env [Ipc (TopDownExec (mkParentFinality 11 [11]))])
    as (b & Hb & Hiff).
  - intros f [= <-]. apply sample_cached_inv.
  - exists b. split; [exact Hb|]. apply Hiff. intros m Hm. apply list_elem_of_singleton in Hm as ->.
    exists sample_cached, (mkFinality 10 [0]), ([11], [], [sample_msg 11]).
    split; [reflexivity|]. split; [reflexivity|]. split; [vm_compute; reflexivity|].
    split; [vm_compute; reflexivity|reflexivity].
Defined.

Lemma forged_tag_is_stored_witness :
  ∃ env' st' ret, chain_deliver (M:=Z) (λ _, None) flaky_client sample_env (sample_exec None) (Cetf (CetfTag 7 [66])) =
      Ok (env', st', RetSigned (inr ret)) ∧
    ∃ cetf', fvm_cetf_state (ledger st') = Ok (Some cetf') ∧ signed_hashed_tags cetf' !! [1; 2] = Some [66].
Proof.
  destruct (chain_deliver (M:=Z) (λ _, None) flaky_client sample_env (sample_exec None) (Cetf (CetfTag 7 [66])))
    as [[[env' st'] [[e|ret]|r]]| | |] eqn:Hd; try (vm_compute in Hd; discriminate Hd).
  exists env', st', ret. split; [reflexivity|].
  destruct (forged_tag_is_stored toy_keccak sample_env (λ _, None) flaky_client (sample_exec None) 7 [66]
              (mkState {[7 := [1; 2]]} ∅ true ∅) [1; 2] env' st' ret) as [_ Hs].
  - reflexivity.
  - reflexivity.
  - exact Hd.
  - vm_compute in Hd. injection Hd as <- <- <-. reflexivity.
  - exact Hs.
Defined.
