(* ===== verification/Bytes.v ===== *)
(** * Transactions as bytes ([vm/interpreter/src/bytes.rs], [abci/src/util.rs])

    [BytesMessageInterpreter] decodes the transactions of CometBFT, hands them to
    the chain message interpreter, and bounds the number of messages of a block;
    [take_until_max_size] bounds their size.

    The encoding of chain messages ([fvm_ipld_encoding], with derived serializers)
    is the class [TxCodec]. *)

From Stdlib Require Import Ascii String.
From stdpp Require Import base tactics numbers list gmap.
From S2P Require Import Prelude SeqCache Voting IpcApi Finality Provider Pool CetfActor VoteExt Message Checkpoint Exec Chain.

Open Scope Z_scope.

Class TxCodec (A : Type) := {
  tx_from_slice : bytes → option (ChainMessage A);
  tx_to_vec : ChainMessage A → option bytes;
}.
Class TxCodecLaws (A : Type) `{TxCodec A} : Prop := {
  tx_roundtrip m b : tx_to_vec m = Some b → tx_from_slice b = Some m;
}.

Inductive ProposalPrepareMode := PassThrough | AppendOnly | PrependOnly.
Record BytesMessageInterpreter := mkBytes {
  prepare_mode : ProposalPrepareMode;
  reject_malformed_proposal : bool;
  max_msgs : nat;
}.

Section bytes.
Context {S K A M : Type} `{AddressPayload A} `{!Countable A} `{Countable K} `{!MsgCrypto A}.
Context `{!Fvm S A} `{!Gateway S K A M (FvmApplyRet A)} `{!TxCodec A}.
Implicit Types (i : BytesMessageInterpreter) (env : ChainEnv K A) (msgs : list bytes).

Definition bytes_prepare i iter env msgs : outcome string (ChainEnv K A * list bytes) :=
  let chain_msgs := match prepare_mode i with
                    | PassThrough => omap tx_from_slice msgs
                    | AppendOnly | PrependOnly => []
                    end in
  r ← chain_prepare iter env chain_msgs;
  chain_msgs ← ok_or "failed to encode ChainMessage as IPLD"%string (mapM tx_to_vec r.2);
  let all_msgs := match prepare_mode i with
                  | PassThrough => chain_msgs
                  | AppendOnly => msgs ++ chain_msgs
                  | PrependOnly => chain_msgs ++ msgs
                  end in
  Ok (r.1, if (max_msgs i <? length all_msgs)%nat then take (max_msgs i) all_msgs else all_msgs).

(** [None] when a malformed transaction makes the proposal rejected. *)
Fixpoint decode_txs (reject_malformed : bool) msgs : option (list (ChainMessage A)) :=
  match msgs with
  | [] => Some []
  | msg :: rest =>
      match tx_from_slice msg with
      | None => if reject_malformed then None else decode_txs reject_malformed rest
      | Some m => ms ← decode_txs reject_malformed rest; Some (m :: ms)
      end
  end.

Definition bytes_process i env msgs : outcome string bool :=
  if (max_msgs i <? length msgs)%nat then Ok false else
  match decode_txs (reject_malformed_proposal i) msgs with
  | None => Ok false
  | Some chain_msgs => chain_process env chain_msgs
  end.

(** The left of the results is the decoding error. *)
Definition bytes_deliver cbor_relayed client env (st : FvmExecState S) (msg : bytes)
    : outcome string (ChainEnv K A * FvmExecState S * (unit + ChainMessageApplyRet A)) :=
  match tx_from_slice msg with
  | None => Ok (env, st, inl tt)
  | Some m => r ← chain_deliver (M:=M) cbor_relayed client env st m; Ok (r.1.1, r.1.2, inr r.2)
  end.

Definition bytes_check cbor_relayed (exec_in_check : bool) (st : FvmExecState S) (msg : bytes) (is_recheck : bool)
    : outcome string (FvmExecState S * (unit + (unit + (string + FvmCheckRet A)))) :=
  match tx_from_slice msg with
  | None => Ok (st, inl tt)
  | Some m => r ← chain_check cbor_relayed exec_in_check st m is_recheck; Ok (r.1, inr r.2)
  end.
End bytes.

(** ** The size of a block ([abci/src/util.rs]): [size] is the running total; the
    sum of the lengths of vectors in memory does not overflow. *)
Fixpoint take_until (size : Z) (txs : list bytes) (max_tx_bytes : Z) : list bytes :=
  match txs with
  | [] => []
  | tx :: rest =>
      if max_tx_bytes <? Z.min U64_MAX (size + Z.of_nat (length tx)) then []
      else tx :: take_until (size + Z.of_nat (length tx)) rest max_tx_bytes
  end.
Definition take_until_max_size (txs : list bytes) (max_tx_bytes : Z) : list bytes :=
  take_until 0 txs max_tx_bytes.

(** ** Facts *)

Definition txs_size (txs : list bytes) : Z := Zsum (λ tx, Z.of_nat (length tx)) txs.

Lemma take_until_spec size txs mx :
  0 <= mx < U64_MAX → 0 <= size → size <= mx →
  ∃ rest, txs = take_until size txs mx ++ rest ∧ size + txs_size (take_until size txs mx) <= mx ∧
    match rest with
    | [] => True
    | tx :: _ => mx < size + txs_size (take_until size txs mx) + Z.of_nat (length tx)
    end.
Proof.
  intros Hmx. revert size. induction txs as [|tx txs IH]; intros size Hs Hle; simpl.
  { exists []. split; [done|]. unfold txs_size. simpl. split; [lia|done]. }
  destruct (mx <? Z.min U64_MAX (size + Z.of_nat (length tx))) eqn:Hlt; zbool.
  - exists (tx :: txs). split; [done|]. unfold txs_size. simpl. lia.
  - destruct (IH (size + Z.of_nat (length tx))) as (rest & Heq' & Hsz & Hr); [lia|lia|].
    exists rest. split; [simpl; by f_equal|]. unfold txs_size in *. simpl. split; [lia|].
    destruct rest; [done|]. lia.
Qed.

Lemma take_until_prefix size txs mx : take_until size txs mx `prefix_of` txs.
Proof.
  revert size. induction txs as [|tx txs IH]; intros size; simpl; [done|].
  destruct (_ <? _); [apply prefix_nil|by apply prefix_cons].
Qed.

Section bytes_facts.
Context {K A : Type} `{AddressOps A} `{!Countable A} `{Countable K} `{!TxCodec A}.

Lemma decode_txs_elem b (l : list bytes) ms m :
  decode_txs b l = Some ms → m ∈ ms → ∃ tx, tx ∈ l ∧ tx_from_slice tx = Some m.
Proof.
  revert ms. induction l as [|tx l IH]; intros ms; simpl.
  - intros [= <-] Hm. by apply not_elem_of_nil in Hm.
  - destruct (tx_from_slice tx) as [m'|] eqn:Htx.
    + destruct (decode_txs b l) as [ms'|]; simpl; [|done]. intros [= <-] [->|Hm]%elem_of_cons.
      * exists tx. split; [by left|done].
      * destruct (IH ms' eq_refl Hm) as (tx' & Hin & Hd). exists tx'. split; [by right|done].
    + destruct b; [done|]. intros Hd Hm. destruct (IH ms Hd Hm) as (tx' & Hin & Hd').
      exists tx'. split; [by right|done].
Qed.
Lemma decode_txs_lenient (l : list bytes) : is_Some (decode_txs (A:=A) false l).
Proof.
  induction l as [|tx l IH]; simpl; [eauto|]. destruct (tx_from_slice tx); [|done].
  destruct IH as [ms ->]. simpl. eauto.
Qed.
Lemma mapM_elem {B C} (f : B → option C) l k y : mapM f l = Some k → y ∈ k → ∃ x, x ∈ l ∧ f x = Some y.
Proof.
  intros Hm%mapM_Some Hy. induction Hm as [|x y' l k Hf Hm IH]; [by apply not_elem_of_nil in Hy|].
  apply elem_of_cons in Hy as [->|Hy].
  - exists x. split; [by left|done].
  - destruct (IH Hy) as (x' & Hin & Hx'). exists x'. split; [by right|done].
Qed.

(** A list of transactions is accepted when each of them decodes to an acceptable
    message, or not at all. *)
Lemma bytes_process_accepts i (env : ChainEnv K A) l :
  env_inv env → reject_malformed_proposal i = false → (length l <= max_msgs i)%nat →
  (∀ tx m, tx ∈ l → tx_from_slice tx = Some m → acceptable env m) →
  bytes_process i env l = Ok true.
Proof.
  intros Hinv Hrej Hlen Hacc. unfold bytes_process. rewrite (proj2 (Nat.ltb_ge _ _) Hlen), Hrej.
  destruct (decode_txs_lenient l) as [ms Hms]. rewrite Hms.
  destruct (chain_process_spec (E:=string) env ms Hinv) as (b & -> & Hb). f_equal. apply Hb.
  apply Forall_forall. intros m Hm. destruct (decode_txs_elem _ _ _ _ Hms Hm) as (tx & Hin & Htx). eauto.
Qed.
End bytes_facts.

(** The size of a block is bounded, and nothing is skipped: the transactions
    kept are the first ones, they fit in the limit together, and the first one left
    out would not have. *)
Theorem block_size_bounded txs max_tx_bytes :
  0 <= max_tx_bytes < U64_MAX →
  ∃ rest, txs = take_until_max_size txs max_tx_bytes ++ rest ∧
    txs_size (take_until_max_size txs max_tx_bytes) <= max_tx_bytes ∧
    match rest with
    | [] => True
    | tx :: _ => max_tx_bytes < txs_size (take_until_max_size txs max_tx_bytes) + Z.of_nat (length tx)
    end.
Proof. intros Hmx. by apply (take_until_spec 0 txs max_tx_bytes Hmx); lia. Qed.

Lemma block_size_bounded_witness :
  take_until_max_size [[1; 2]; [3]; [4; 5; 6]; [7]] 5 = [[1; 2]; [3]] ∧
  txs_size (take_until_max_size [[1; 2]; [3]; [4; 5; 6]; [7]] 5) <= 5.
Proof.
  split; [reflexivity|].
  destruct (block_size_bounded [[1; 2]; [3]; [4; 5; 6]; [7]] 5) as (rest & _ & Hsize & _);
    [unfold U64_MAX; lia|exact Hsize].
Defined.
