(* ===== verification/App.v ===== *)
(** * The ABCI application ([app/src/app.rs], [tmconv.rs], [vm/message/src/query.rs])

    [App] keeps the last committed state and a history of past ones in a database,
    the state of the block being executed, the state for checking transactions,
    and the environment of the chain interpreter; CometBFT calls it to build and
    vote on proposals, to execute and commit blocks, and for snapshots.

    The database transactions of [set_committed_state] are atomic, so the database
    is a part of the record.  Opening an FVM machine on a state root and flushing it
    are the class [FvmStore].  A handler returns the application with its answer,
    also when it fails. *)

From Stdlib Require Import Ascii String.
From stdpp Require Import base tactics numbers list gmap.
From S2P Require Import Prelude SeqCache Voting IpcApi Finality Provider Pool CetfActor VoteExt Message Checkpoint Exec Chain Bytes.

Open Scope Z_scope.

(** ** Data *)

Record FvmStateParams := mkStateParams {
  state_root : bytes;
  timestamp : Z;
  network_version : Z;
  sp_base_fee : Z;
  sp_circ_supply : Z;
  sp_chain_id : Z;
  sp_power_scale : Z;
  sp_app_version : Z;
}.

Record AppState := mkAppState {
  block_height : Z;
  oldest_state_height : Z;
  state_params : FvmStateParams;
}.
Definition state_height (s : AppState) : Z := (block_height s + 1)%u64.

Inductive FvmQueryHeight := QueryCommitted | QueryPending | QueryHeight (h : Z).
Definition I64_MAX : Z := 2 ^ 63 - 1.
Definition query_height_from (value : Z) : FvmQueryHeight :=
  if value =? 0 then QueryCommitted
  else if I64_MAX <=? value then QueryPending
  else QueryHeight value.

Inductive AppError := InvalidEncoding | InvalidSignature | IllegalMessage | NotInitialized.

(** Results of transactions: rejected by the application, or what the FVM said. *)
Inductive ExecTxResult (A : Type) :=
| ExecInvalid (err : AppError) (info : string)
| ExecRet (ret : FvmApplyRet A) (domain_hash : option bytes) (block_hash : option bytes).
Arguments ExecInvalid {A} _ _.
Arguments ExecRet {A} _ _ _.
Inductive CheckTxResult (A : Type) :=
| CheckInvalid (err : AppError) (info : string)
| CheckRet (ret : FvmCheckRet A).
Arguments CheckInvalid {A} _ _.
Arguments CheckRet {A} _.

(** The answer to a request; the process may also exit at the halt height. *)
Inductive AbciResult (R : Type) := Answer (o : outcome string R) | Halted.
Arguments Answer {R} _.
Arguments Halted {R}.

Class FvmStore (S : Type) := {
  fvm_open : FvmStateParams → Z → outcome string S;
  fvm_flush : S → outcome string bytes;
}.

(** The history in the database: the pruning loop stops when [oldest] is above
    [prune_height]; [fuel] bounds its iterations. *)
Fixpoint prune (fuel : nat) (hist : gmap Z FvmStateParams) (oldest prune_height : Z)
    : gmap Z FvmStateParams * Z :=
  match fuel with
  | O => (hist, oldest)
  | S n => if oldest <=? prune_height then prune n (delete oldest hist) (oldest + 1)%u64 prune_height
           else (hist, oldest)
  end.

Record Db := mkDb {
  db_state : option AppState;
  state_hist : gmap Z FvmStateParams;
}.

Section db.
Context (state_hist_size : Z).
Implicit Types (db : Db) (s : AppState).

Definition set_committed_state db s : Db :=
  let hist := <[state_height s := state_params s]> (state_hist db) in
  if (0 <? state_hist_size) && (state_hist_size <=? state_height s) then
    let prune_height := saturating_sub (state_height s) state_hist_size in
    let '(hist', oldest') := prune (Z.to_nat (prune_height + 1)) hist (oldest_state_height s) prune_height in
    mkDb (Some (mkAppState (block_height s) oldest' (state_params s))) hist'
  else mkDb (Some s) hist.

Definition committed_state db : outcome string AppState :=
  ok_or "app state not found"%string (db_state db).

(** [root] is the root of the empty state tree. *)
Definition empty_params (root : bytes) : FvmStateParams := mkStateParams root 0 0 0 0 0 0 0.
Definition init_committed_state db (root : bytes) : Db :=
  match db_state db with
  | None => set_committed_state db (mkAppState 0 0 (empty_params root))
  | Some _ => db
  end.

Definition state_params_at_height db (h : FvmQueryHeight) : outcome string (FvmStateParams * Z) :=
  let latest := s ← committed_state db; Ok (state_params s, block_height s) in
  match h with
  | QueryHeight h => match state_hist db !! h with Some p => Ok (p, h) | None => latest end
  | _ => latest
  end.

Definition can_query_state (height : Z) (p : FvmStateParams) : bool :=
  negb ((height =? 0) && (timestamp p =? 0) && (network_version p =? 0)).

(** Whether a query runs, and on which state. *)
Definition query_state db (request_height : Z) : outcome string (AppError + FvmStateParams * Z) :=
  r ← state_params_at_height db (query_height_from request_height);
  Ok (if can_query_state r.2 r.1 then inr r else inl NotInitialized).

(** [genesis] is the state the genesis interpreter made and committed. *)
Definition init_chain db (initial_height : Z) (genesis : FvmStateParams) : Db :=
  let height := (initial_height - 1)%u64 in
  set_committed_state db (mkAppState height height genesis).

(** The state of an imported snapshot. *)
Definition import_snapshot db (height : Z) (p : FvmStateParams) : outcome string Db :=
  s ← committed_state db;
  Ok (set_committed_state db (mkAppState height (oldest_state_height s) p)).

(** How much of the block history CometBFT can forget. *)
Definition retain_height (s : AppState) : Z :=
  if state_hist_size =? 0 then 0 else saturating_sub (block_height s) state_hist_size.
End db.

Record App (S K A : Type) `{Countable K} `{Countable A} := mkApp {
  app_db : Db;
  exec_state : option (FvmExecState S);
  check_state : option (FvmExecState S);
  chain_env : ChainEnv K A;
}.
Arguments mkApp {S K A _ _ _ _} _ _ _ _.
Arguments app_db {S K A _ _ _ _} _.
Arguments exec_state {S K A _ _ _ _} _.
Arguments check_state {S K A _ _ _ _} _.
Arguments chain_env {S K A _ _ _ _} _.

Record FinalizeRequest := mkFinalize {
  req_height : Z;
  req_hash : option bytes;
  req_time : Z;
  req_proposer : bytes;
  req_txs : list bytes;
}.
Record FinalizeResponse (A : Type) := mkFinalizeResponse {
  begin_ret : FvmApplyRet A;
  tx_results : list (ExecTxResult A);
  validator_updates : list (bytes * Z);
  resp_app_hash : bytes;
}.
Arguments mkFinalizeResponse {A} _ _ _ _.

Section app.
Context {S K A M : Type} `{AddressPayload A} `{!Countable A} `{Countable K} `{!MsgCrypto A}.
Context `{!Fvm S A} `{!Gateway S K A M (FvmApplyRet A)} `{!TxCodec A} `{!FvmStore S} `{BLS} `{ExtCodec}.
(** The configuration, the clients of the node, and conversions of other crates. *)
Context (state_hist_size halt_height : Z) (interpreter : BytesMessageInterpreter) (exec_in_check : bool).
Context (cbor_relayed : RelayedMessage A → option bytes) (client : Z → nat → ParentQueryProxy A).
Context (sch : UpgradeScheduler S) (push_chain_meta : bool) (bft_power_table : Z → outcome string (list bytes)).
Context (validator : option bytes) (syncing : bool) (serialize : K → bytes) (tm_public_key : K → option bytes).
Context (app_hash : FvmStateParams → bytes).
Implicit Types (app : App S K A) (env : ChainEnv K A) (st : FvmExecState S).

Definition new_exec_state (p : FvmStateParams) (height : Z) : outcome string (FvmExecState S) :=
  s ← fvm_open p height;
  Ok (mkExec s (sp_chain_id p) height (timestamp p) None None
        (mkParams (sp_app_version p) (sp_base_fee p) (sp_circ_supply p) (sp_power_scale p)) false).

(** ** Checking transactions *)
Definition to_check_result (r : unit + (unit + (string + FvmCheckRet A))) : CheckTxResult A :=
  match r with
  | inl _ => CheckInvalid InvalidEncoding ""
  | inr (inl _) => CheckInvalid IllegalMessage ""
  | inr (inr (inl d)) => CheckInvalid InvalidSignature d
  | inr (inr (inr ret)) => CheckRet ret
  end.
Definition check_tx app (tx : bytes) (is_recheck : bool) : App S K A * outcome string (CheckTxResult A) :=
  let none := mkApp (app_db app) (exec_state app) None (chain_env app) in
  let res :=
    state ← match check_state app with
            | Some state => Ok state
            | None => s ← committed_state (app_db app);
                      if I64_MAX <? block_height s then Err "integer overflow"%string
                      else new_exec_state (state_params s) (block_height s)
            end;
    bytes_check cbor_relayed exec_in_check state tx is_recheck in
  match res with
  | Ok (state, r) => (mkApp (app_db app) (exec_state app) (Some state) (chain_env app), Ok (to_check_result r))
  | Err e => (none, Err e)
  | Retry => (none, Retry)
  | Panic => (none, Panic)
  end.

(** ** Proposals *)
Definition encode_cetf (msgs : list CetfMessage) : outcome string (list bytes) :=
  unwrap (mapM (λ m, tx_to_vec (Cetf m)) msgs).
Definition prepare_proposal iter app (request_height : Z) (local_last_commit : option (list bytes))
    (txs : list bytes) (max_tx_bytes : Z) : outcome string (App S K A * list bytes) :=
  cetf ← prepare_cetf request_height local_last_commit;
  cetf_txs ← encode_cetf cetf;
  r ← bytes_prepare interpreter iter (chain_env app) (cetf_txs ++ txs);
  if max_tx_bytes <? 0 then Panic
  else Ok (mkApp (app_db app) (exec_state app) (check_state app) r.1, take_until_max_size r.2 max_tx_bytes).
Definition process_proposal app (txs : list bytes) : outcome string bool :=
  bytes_process interpreter (chain_env app) txs.

(** ** Blocks *)
Definition to_exec_tx_result (r : unit + ChainMessageApplyRet A) (block_hash : option bytes) : ExecTxResult A :=
  match r with
  | inl _ => ExecInvalid InvalidEncoding ""
  | inr (RetSigned (inl d)) => ExecInvalid InvalidSignature d
  | inr (RetSigned (inr ret)) => ExecRet (fvm ret) (ret_domain_hash ret) block_hash
  | inr (RetIpc ret) => ExecRet ret None block_hash
  end.

(** The environment is shared, so its changes stay when a later step fails. *)
Fixpoint deliver_txs env st (txs : list bytes)
    : ChainEnv K A * outcome string (FvmExecState S * list (ExecTxResult A)) :=
  match txs with
  | [] => (env, Ok (st, []))
  | tx :: rest =>
      match bytes_deliver (M:=M) cbor_relayed client env st tx with
      | Ok (env1, st1, r) =>
          let '(env2, o) := deliver_txs env1 st1 rest in
          (env2, more ← o; Ok (more.1, to_exec_tx_result r (exec_block_hash st1) :: more.2))
      | Err e => (env, Err e)
      | Retry => (env, Retry)
      | Panic => (env, Panic)
      end
  end.

(** [Power::try_from] refuses powers above the maximum of [i64]. *)
Fixpoint to_validator_updates (vs : list (Validator K)) : outcome string (list (bytes * Z)) :=
  match vs with
  | [] => Ok []
  | v :: rest =>
      k ← ok_or "invalid key"%string (tm_public_key (Checkpoint.public_key v));
      if I64_MAX <? power v then Err "integer overflow"%string
      else more ← to_validator_updates rest; Ok ((k, power v) :: more)
  end.

(** Begin, deliver and end; [None] as the execution state is left behind. *)
Definition execute_block env st (txs : list bytes)
    : ChainEnv K A * outcome string (FvmExecState S * (FvmApplyRet A * list (ExecTxResult A) * list (Validator K))) :=
  match chain_begin env st sch push_chain_meta bft_power_table with
  | Ok (env1, st1, ret) =>
      let '(env2, o) := deliver_txs env1 st1 txs in
      match o with
      | Ok (st2, results) =>
          match chain_end serialize env2 st2 validator syncing with
          | Ok (env3, st3, power_table) => (env3, Ok (st3, (ret, results, power_table)))
          | Err e => (env2, Err e)
          | Retry => (env2, Retry)
          | Panic => (env2, Panic)
          end
      | Err e => (env2, Err e)
      | Retry => (env2, Retry)
      | Panic => (env2, Panic)
      end
  | Err e => (env, Err e)
  | Retry => (env, Retry)
  | Panic => (env, Panic)
  end.

(** The state to commit after a block. *)
Definition committed_after (s : AppState) st (root : bytes) : AppState :=
  let p := params st in
  mkAppState (exec_height st) (oldest_state_height s)
    (mkStateParams root (exec_timestamp st) (network_version (state_params s)) (base_fee p) (circ_supply p)
       (sp_chain_id (state_params s)) (power_scale p) (Checkpoint.app_version p)).

Definition finalize_block app (req : FinalizeRequest) : App S K A * AbciResult (FinalizeResponse A) :=
  match req_hash req with
  | None => (app, Answer (Err "empty block hash"%string))
  | Some hash =>
      if negb (halt_height =? 0) && (req_height req =? halt_height) then (app, Halted) else
      let start :=
        state ← committed_state (app_db app);
        if req_time req <? 0 then Panic else
        let p := state_params state in
        st ← new_exec_state (mkStateParams (state_root p) (req_time req) (network_version p) (sp_base_fee p)
               (sp_circ_supply p) (sp_chain_id p) (sp_power_scale p) (sp_app_version p)) (req_height req);
        match exec_state app with
        | Some _ => Panic
        | None => Ok (state, with_validator_id (with_block_hash st hash) (req_proposer req))
        end in
      match start with
      | Ok (state, st) =>
          let '(env, o) := execute_block (chain_env app) st (req_txs req) in
          let failed := mkApp (app_db app) None (check_state app) env in
          let finish :=
            r ← o;
            if exec_height r.1 <? 0 then Err "integer overflow"%string else
            root ← fvm_flush (ledger r.1);
            Ok (committed_after state r.1 root, r.2) in
          match finish with
          | Ok (state', (ret, results, power_table)) =>
              let app' := mkApp (set_committed_state state_hist_size (app_db app) state') None (check_state app) env in
              (app', Answer (updates ← to_validator_updates power_table;
                             Ok (mkFinalizeResponse ret results updates (app_hash (state_params state')))))
          | Err e => (failed, Answer (Err e))
          | Retry => (failed, Answer Retry)
          | Panic => (failed, Answer Panic)
          end
      | Err e => (app, Answer (Err e))
      | Retry => (app, Answer Retry)
      | Panic => (app, Answer Panic)
      end
  end.

(** [commit] forgets the state for checks, and answers the height to retain. *)
Definition commit app : App S K A * outcome string Z :=
  match committed_state (app_db app) with
  | Ok s => (mkApp (app_db app) (exec_state app) None (chain_env app), Ok (retain_height state_hist_size s))
  | Err e => (app, Err e)
  | Retry => (app, Retry)
  | Panic => (app, Panic)
  end.
End app.

(** ** Facts: the history *)

Lemma prune_spec fuel hist oldest ph :
  0 <= oldest → ph < U64_MAX → (Z.to_nat (ph + 1 - oldest) <= fuel)%nat →
  ∃ hist', prune fuel hist oldest ph = (hist', Z.max oldest (ph + 1)) ∧
    ∀ h, hist' !! h = if decide (oldest <= h <= ph) then None else hist !! h.
Proof.
  intros H0 Hph. revert hist oldest H0. induction fuel as [|fuel IH]; intros hist oldest H0 Hf; simpl.
  - exists hist. rewrite Z.max_l by lia. split; [done|]. intros h. by rewrite decide_False by lia.
  - destruct (oldest <=? ph) eqn:Hle; zbool.
    + rewrite add64_small by (unfold is_u64, U64_MAX in *; lia).
      destruct (IH (delete oldest hist) (oldest + 1)) as (hist' & -> & Hl); [lia|lia|].
      exists hist'. split; [f_equal; lia|]. intros h. rewrite Hl.
      destruct (decide (oldest + 1 <= h <= ph)).
      * by rewrite decide_True by lia.
      * destruct (decide (h = oldest)) as [->|Hne].
        -- by rewrite lookup_delete_eq, decide_True by lia.
        -- rewrite lookup_delete_ne by done. by rewrite decide_False by lia.
    + exists hist. rewrite Z.max_l by lia. split; [done|]. intros h. by rewrite decide_False by lia.
Qed.

(** What committing a state does to the history: the loop has enough fuel, and
    leaves the states of the window. *)
Lemma set_committed_state_spec size db s :
  0 <= size → 0 <= block_height s < U64_MAX → 0 <= oldest_state_height s →
  ∃ hist' oldest',
    set_committed_state size db s = mkDb (Some (mkAppState (block_height s) oldest' (state_params s))) hist' ∧
    oldest' = (if decide (0 < size <= block_height s + 1)
               then Z.max (oldest_state_height s) (block_height s + 2 - size) else oldest_state_height s) ∧
    ∀ h, hist' !! h =
      if decide (0 < size <= block_height s + 1 ∧ oldest_state_height s <= h <= block_height s + 1 - size) then None
      else if decide (h = block_height s + 1) then Some (state_params s) else state_hist db !! h.
Proof.
  intros Hsize Hbh Hold. unfold set_committed_state, state_height.
  rewrite add64_small by (unfold is_u64, U64_MAX in *; lia).
  assert (∀ h, <[block_height s + 1 := state_params s]> (state_hist db) !! h =
    if decide (h = block_height s + 1) then Some (state_params s) else state_hist db !! h) as Hins.
  { intros h. destruct (decide _) as [->|]; [by rewrite lookup_insert_eq|by rewrite lookup_insert_ne]. }
  destruct ((0 <? size) && (size <=? block_height s + 1)) eqn:Hp.
  - zbool. unfold saturating_sub. rewrite Z.max_r by lia.
    destruct (prune_spec (Z.to_nat (block_height s + 1 - size + 1)) (<[block_height s + 1 := state_params s]> (state_hist db))
                (oldest_state_height s) (block_height s + 1 - size)) as (hist' & -> & Hl);
      [lia|unfold U64_MAX in *; lia|lia|].
    eexists _, _. split; [done|]. rewrite (decide_True (P:=0 < size <= _)) by lia. split; [lia|].
    intros h. rewrite Hl, Hins. destruct (decide (oldest_state_height s <= h <= _)).
    + by rewrite decide_True by lia.
    + rewrite (decide_False (P:=_ ∧ _)) by lia. done.
  - exists (<[block_height s + 1 := state_params s]> (state_hist db)), (oldest_state_height s).
    rewrite (decide_False (P:=0 < size <= _)) by (apply andb_false_iff in Hp as [?|?]; zbool; lia).
    split; [by destruct s|]. split; [done|]. intros h.
    rewrite (decide_False (P:=_ ∧ _)) by (apply andb_false_iff in Hp as [?|?]; zbool; lia). apply Hins.
Qed.

(** Committing the states of a sequence of blocks. *)
Definition commit_state size db (p : FvmStateParams) : Db :=
  match db_state db with
  | Some s => set_committed_state size db (mkAppState (block_height s + 1)%u64 (oldest_state_height s) p)
  | None => db
  end.
Definition commit_states size db (ps : list FvmStateParams) : Db := foldl (commit_state size) db ps.

(** The database after genesis and the blocks that made [ps]. *)
Record hist_inv (size : Z) (states : list FvmStateParams) (n : Z) db : Prop := {
  hi_len : length states = Z.to_nat (n + 1);
  hi_state : ∃ oldest p, db_state db = Some (mkAppState n oldest p) ∧ last states = Some p ∧
    0 <= oldest ∧ oldest <= (if decide (size = 0) then 0 else Z.max 0 (n + 2 - size));
  hi_hist : ∀ h, state_hist db !! h =
    if decide (1 <= h <= n + 1 ∧ (size = 0 ∨ n + 1 - size < h)) then states !! Z.to_nat (h - 1) else None;
}.

Lemma commit_state_inv size states n db p :
  0 <= size → 0 <= n → n + 2 < U64_MAX → hist_inv size states n db →
  hist_inv size (states ++ [p]) (n + 1) (commit_state size db p).
Proof.
  intros Hsize Hn Hmax [Hlen (oldest & p0 & Hs & _ & Ho0 & Ho) Hh]. unfold commit_state. rewrite Hs. simpl.
  rewrite add64_small by (unfold is_u64, U64_MAX in *; lia).
  destruct (set_committed_state_spec size db (mkAppState (n + 1) oldest p)) as (hist' & oldest' & -> & Ho' & Hl);
    [done|simpl; lia|done|]. simpl in *.
  split.
  - rewrite length_app, Hlen. simpl. lia.
  - exists oldest', p. simpl. split; [done|]. split; [by rewrite last_snoc|].
    destruct (decide (size = 0)); destruct (decide (0 < size <= n + 1 + 1)); lia.
  - intros h. rewrite Hl, Hh.
    destruct (decide (h = n + 1 + 1)) as [->|Hne].
    + rewrite decide_False by lia. rewrite decide_True by lia.
      rewrite lookup_app_r, Hlen by lia. by replace (Z.to_nat (n + 1 + 1 - 1) - Z.to_nat (n + 1))%nat with 0%nat by lia.
    + destruct (decide (0 < size <= n + 1 + 1 ∧ oldest <= h <= n + 1 + 1 - size)) as [Hp|Hp].
      * rewrite decide_False by lia. done.
      * destruct (decide (1 <= h <= n + 1 ∧ (size = 0 ∨ n + 1 - size < h))) as [Hw|Hw].
        -- rewrite decide_True. { by rewrite lookup_app_l by lia. }
           destruct (decide (size = 0)); lia.
        -- by rewrite decide_False by lia.
Qed.

Definition empty_db : Db := mkDb None ∅.

Lemma init_chain_inv size root genesis :
  0 <= size → hist_inv size [genesis] 0 (init_chain size (init_committed_state size empty_db root) 1 genesis).
Proof.
  intros Hsize. unfold init_chain, init_committed_state. cbn [db_state empty_db].
  destruct (set_committed_state_spec size empty_db (mkAppState 0 0 (empty_params root)))
    as (hist1 & old1 & -> & _ & Hl1); [done|simpl; unfold U64_MAX; lia|done|].
  change (1 - 1)%u64 with 0. cbn [block_height state_params].
  destruct (set_committed_state_spec size (mkDb (Some (mkAppState 0 old1 (empty_params root))) hist1)
              (mkAppState 0 0 genesis)) as (hist2 & old2 & -> & Ho2 & Hl2);
    [done|simpl; unfold U64_MAX; lia|done|]. simpl in *.
  split; [done| |].
  - exists old2, genesis. simpl. split; [done|]. split; [done|].
    rewrite Ho2. repeat case_decide; lia.
  - intros h. rewrite Hl2, Hl1, lookup_empty. replace (0 + 1) with 1 by lia.
    destruct (decide (h = 1)) as [->|Hne].
    + rewrite decide_False, decide_True by lia. done.
    + rewrite (decide_False (P:=1 <= h <= 1 ∧ _)) by lia. by repeat case_decide.
Qed.
Lemma commit_states_inv size states n db ps :
  0 <= size → 0 <= n → n + Z.of_nat (length ps) + 2 < U64_MAX → hist_inv size states n db →
  hist_inv size (states ++ ps) (n + Z.of_nat (length ps)) (commit_states size db ps).
Proof.
  intros Hsize. revert states n db. induction ps as [|p ps IH]; intros states n db Hn Hmax Hi.
  - simpl in *. by rewrite app_nil_r, Z.add_0_r.
  - simpl in *. replace (n + Z.of_nat (S (length ps))) with ((n + 1) + Z.of_nat (length ps)) by lia.
    replace (states ++ p :: ps) with ((states ++ [p]) ++ ps) by by rewrite <- app_assoc.
    apply IH; [lia|lia|]. apply commit_state_inv; [done|lia|lia|done].
Qed.

(** A key below the oldest height is never pruned. *)
Lemma commit_states_keep size db s ps p :
  0 <= size → db_state db = Some s → 1 <= block_height s → 2 <= oldest_state_height s →
  block_height s + Z.of_nat (length ps) + 2 < U64_MAX → state_hist db !! 1 = Some p →
  state_hist (commit_states size db ps) !! 1 = Some p.
Proof.
  intros Hsize. revert db s. induction ps as [|q ps IH]; intros db s Hs Hb Ho Hmax Hp; [done|].
  unfold commit_states in *. simpl. unfold commit_state at 2. rewrite Hs.
  cbn [length] in Hmax. rewrite add64_small by (unfold is_u64, U64_MAX in *; lia).
  destruct (set_committed_state_spec size db (mkAppState (block_height s + 1) (oldest_state_height s) q))
    as (hist' & old' & -> & Ho' & Hl); [done|simpl; lia|simpl; lia|]. simpl in *.
  eapply IH; [done|simpl; lia| |simpl; lia|].
  - simpl. destruct (decide _); lia.
  - simpl. rewrite Hl, decide_False by lia. by rewrite decide_False by lia.
Qed.

Section db_theorems.
Context (size : Z) (root : bytes).

(** The empty state can be queried.  Before genesis the application refuses to
    query its latest state, which is the empty one, yet a query at height 1 runs on
    that state.  And if the chain starts at height 3 or above, the empty state stays
    in the history for ever, whatever the size of the history. *)
Theorem empty_state_is_queryable genesis initial_height ps :
  0 <= size → 3 <= initial_height → initial_height + Z.of_nat (length ps) + 2 < U64_MAX →
  query_state (init_committed_state size empty_db root) 0 = Ok (inl NotInitialized) ∧
  query_state (init_committed_state size empty_db root) 1 = Ok (inr (empty_params root, 1)) ∧
  state_hist (commit_states size
    (init_chain size (init_committed_state size empty_db root) initial_height genesis) ps) !! 1 =
    Some (empty_params root).
Proof.
  intros Hsize Hinit Hmax. unfold init_committed_state. cbn [db_state empty_db].
  destruct (set_committed_state_spec size empty_db (mkAppState 0 0 (empty_params root)))
    as (hist1 & old1 & -> & _ & Hl1); [done|simpl; unfold U64_MAX; lia|done|]. cbn [block_height state_params].
  assert (hist1 !! 1 = Some (empty_params root)) as H1.
  { rewrite Hl1. simpl. by rewrite decide_False by lia. }
  split; [done|]. split.
  { unfold query_state. change (query_height_from 1) with (QueryHeight 1). unfold state_params_at_height. simpl. by rewrite H1. }
  unfold init_chain. rewrite sub64_small by (unfold is_u64, U64_MAX in *; lia).
  destruct (set_committed_state_spec size (mkDb (Some (mkAppState 0 old1 (empty_params root))) hist1)
              (mkAppState (initial_height - 1) (initial_height - 1) genesis)) as (hist2 & old2 & -> & Ho2 & Hl2);
    [done|simpl; lia|simpl; lia|]. simpl in *.
  eapply (commit_states_keep size); [done|done|simpl; lia| |simpl; lia|].
  - simpl. rewrite Ho2. destruct (decide _); lia.
  - simpl. rewrite Hl2, decide_False by lia. by rewrite decide_False by lia.
Qed.

(** The history is a window.  After genesis at height 1 and any number [n] of
    blocks, a query at height [h] runs on the state made by block [h - 1] if that
    state is one of the last [size] ones (all of them when [size] is zero), and on
    the latest state otherwise; no more than [size] states are kept. *)
Theorem history_window genesis ps h :
  0 <= size → Z.of_nat (length ps) + 2 < U64_MAX →
  let n := Z.of_nat (length ps) in
  let db := commit_states size (init_chain size (init_committed_state size empty_db root) 1 genesis) ps in
  ∃ latest, last (genesis :: ps) = Some latest ∧
  state_params_at_height db (QueryHeight h) =
    (if decide (1 <= h <= n + 1 ∧ (size = 0 ∨ n + 1 - size < h))
     then match (genesis :: ps) !! Z.to_nat (h - 1) with Some p => Ok (p, h) | None => Panic end
     else Ok (latest, n)) ∧
  (is_Some (state_hist db !! h) → size = 0 ∨ n + 1 - size < h <= n + 1).
Proof.
  intros Hsize Hmax n db.
  assert (hist_inv size (genesis :: ps) n db) as [Hlen (oldest & latest & Hs & Hl & _) Hh].
  { pose proof (commit_states_inv size [genesis] 0 _ ps Hsize (Z.le_refl 0) Hmax (init_chain_inv size root genesis Hsize)) as Hi.
    exact Hi. }
  exists latest. split; [done|]. split.
  - unfold state_params_at_height, committed_state. rewrite Hs, Hh. simpl.
    destruct (decide _) as [Hw|]; [|done].
    destruct (lookup_lt_is_Some_2 (genesis :: ps) (Z.to_nat (h - 1))) as [p Hp]; [lia|]. by rewrite Hp.
  - rewrite Hh. intros [p Hp]. destruct (decide _); [lia|done].
Qed.
End db_theorems.

(** ** Facts: the frame of a block

    Executing messages changes the ledger and the parameters, and nothing else of
    the execution state. *)
Section frame.
Context {S K A M : Type} `{AddressPayload A} `{!Countable A} `{Countable K} `{!MsgCrypto A}.
Context `{!Fvm S A} `{!Gateway S K A M (FvmApplyRet A)} `{!TxCodec A}.
Implicit Types (st : FvmExecState S) (env : ChainEnv K A).

Definition same_block st st' : Prop :=
  exec_chain_id st' = exec_chain_id st ∧ exec_height st' = exec_height st ∧
  exec_timestamp st' = exec_timestamp st ∧ exec_block_hash st' = exec_block_hash st ∧
  exec_validator_id st' = exec_validator_id st.
#[export] Instance same_block_preorder : PreOrder same_block.
Proof.
  split; [by intros st|]. intros st1 st2 st3 (?&?&?&?&?) (?&?&?&?&?).
  unfold same_block. split_and!; congruence.
Qed.
Lemma set_ledger_same st s : same_block st (set_ledger st s).
Proof. done. Qed.

Lemma execute_message_same st m kind st' r : execute_message st m kind = Ok (st', r) → same_block st st'.
Proof.
  unfold execute_message. destruct (fvm_msg_check m); [by intros [= <- _]|].
  destruct (fvm_raw_length m) as [len| | |]; simpl; try done.
  destruct (fvm_execute _ _ _ _) as [[s r']| | |]; simpl; try done.
  destruct (emitter_delegated_addresses _ _); simpl; try done. by intros [= <- _].
Qed.
Lemma apply_system_same what st m st' r : apply_system what st m = Ok (st', r) → same_block st st'.
Proof. intros [Hx _]%apply_system_Ok. by apply execute_message_same in Hx. Qed.
Lemma fvm_deliver_same st m st' r : fvm_deliver st m = Ok (st', r) → same_block st st'.
Proof.
  unfold fvm_deliver, execute_implicit, execute_explicit.
  destruct (decide _); (destruct (execute_message st m _) as [[s r']| | |] eqn:Hx; simpl; try done);
    intros [= <- _]; by eapply execute_message_same.
Qed.
Lemma signed_deliver_same st m st' r :
  signed_deliver exec_chain_id fvm_deliver st m = Ok (st', r) → same_block st st'.
Proof.
  unfold signed_deliver. destruct (verify_verifiable m _) as [[]|[]| |]; try done; try by intros [= <- _].
  destruct (verifiable_domain_hash m _); simpl; try done.
  destruct (fvm_deliver st (into_message m)) as [[s r']| | |] eqn:Hd; simpl; try done.
  intros [= <- _]. by eapply fvm_deliver_same.
Qed.
Lemma execute_topdown_same st msgs st' r : execute_topdown_msgs st msgs = Ok (st', r) → same_block st st'.
Proof.
  unfold execute_topdown_msgs, on_ledger. destruct (tokens_to_mint msgs =? 0); simpl.
  - destruct (gw_apply_cross_messages _ _) as [[s r']| | |]; simpl; try done. by intros [= <- _].
  - destruct (gw_mint_to_gateway _ _); simpl; try done.
    destruct (gw_apply_cross_messages _ _) as [[s r']| | |]; simpl; try done. by intros [= <- _].
Qed.
Lemma deliver_topdown_same client env st p env' st' r :
  deliver_topdown client env st p = Ok (env', st', r) → same_block st st'.
Proof.
  unfold deliver_topdown. destruct (negb _); [done|].
  destruct (commit_finality st _ _) as [[st1 [h prev]]| | |] eqn:Hc; simpl; try done.
  assert (same_block st st1) as H01.
  { revert Hc. unfold commit_finality. destruct (gw_commit_parent_finality _ _) as [[s o]| | |]; simpl; try done.
    destruct o; [by intros [= <- _ _]|]. destruct (toggle_genesis_epoch _); simpl; try done. by intros [= <- _ _]. }
  destruct (toggle_validator_changes_from _ _ _ _); simpl; try done.
  unfold on_ledger. destruct (gw_store_validator_changes _ _) as [s2| | |]; simpl; try done.
  destruct (toggle_top_down_msgs_from _ _ _ _) as [msgs| | |]; simpl; try done.
  destruct (execute_topdown_msgs _ _) as [[st3 r3]| | |] eqn:Hx; simpl; try done.
  destruct (toggle_set_new_finality _ _ _); simpl; try done. intros [= _ <- _].
  apply execute_topdown_same in Hx. by etrans; [exact H01|].
Qed.
Lemma bytes_deliver_same cbor client env st tx env' st' r :
  bytes_deliver (M:=M) cbor client env st tx = Ok (env', st', r) → same_block st st'.
Proof.
  unfold bytes_deliver, inner_deliver. destruct (tx_from_slice tx) as [m|]; [|by intros [= _ <- _]].
  unfold chain_deliver, inner_deliver. destruct m as [m|[m|m|p]|[h sig]]; simpl; try done.
  - destruct (signed_deliver _ _ st _) as [[s r']| | |] eqn:Hd; simpl; try done.
    intros [= _ <- _]. by eapply signed_deliver_same.
  - destruct (relayed_bottom_up_ckpt_to_fvm cbor m); simpl; try done.
    destruct (signed_deliver _ _ st _) as [[s r']| | |] eqn:Hd; simpl; try done.
    intros [= _ <- _]. by eapply signed_deliver_same.
  - destruct (deliver_topdown client env st p) as [[[e s] r']| | |] eqn:Hd; simpl; try done.
    intros [= _ <- _]. by eapply deliver_topdown_same.
  - destruct (cetf_tag_msg_to_fvm h sig); simpl; try done.
    destruct (signed_deliver _ _ st _) as [[s r']| | |] eqn:Hd; simpl; try done.
    intros [= _ <- _]. by eapply signed_deliver_same.
Qed.
Lemma deliver_txs_same cbor client txs env st env' st' rs :
  deliver_txs (M:=M) cbor client env st txs = (env', Ok (st', rs)) → same_block st st'.
Proof.
  revert env st rs. induction txs as [|tx txs IH]; intros env st rs; simpl; [by intros [= _ <- _]|].
  destruct (bytes_deliver cbor client env st tx) as [[[env1 st1] r]| | |] eqn:Hd; try done.
  destruct (deliver_txs cbor client env1 st1 txs) as [env2 [[st2 rs2]| | |]] eqn:Hr; simpl; try done.
  intros [= <- <- _]. apply bytes_deliver_same in Hd. apply IH in Hr. by etrans.
Qed.
Lemma maybe_create_checkpoint_same (serialize : K → bytes) st st' o :
  maybe_create_checkpoint serialize st = Ok (st', o) → same_block st st'.
Proof.
  unfold maybe_create_checkpoint, on_ledger. destruct (exec_height st <? 0); [done|].
  destruct (exec_block_hash st) eqn:Hb; simpl; [|done].
  destruct (should_create_checkpoint st _) as [[[msgs id]|]| | |]; simpl; try done; [|by intros [= <- _]].
  destruct (gw_current_power_table _) as [cur| | |]; simpl; try done.
  destruct (gw_apply_validator_changes _) as [[s1 conf]| | |]; simpl; try done.
  destruct (gw_create_bottom_up_checkpoint _ _ _) as [s3| | |]; simpl; try done.
  destruct (conf =? 0); simpl.
  - intros [= <- _]. unfold same_block. simpl. by rewrite Hb.
  - destruct (gw_current_power_table _) as [nxt| | |]; simpl; try done.
    intros [= <- _]. unfold same_block. simpl. by rewrite Hb.
Qed.
End frame.

Section app_theorems.
Context {S K A M : Type} `{AddressPayload A} `{!Countable A} `{Countable K} `{!MsgCrypto A}.
Context `{!Fvm S A} `{!Gateway S K A M (FvmApplyRet A)} `{!TxCodec A} `{!FvmStore S} `{BLS} `{ExtCodec}.
Context (state_hist_size halt_height : Z) (interpreter : BytesMessageInterpreter) (exec_in_check : bool).
Context (cbor_relayed : RelayedMessage A → option bytes) (client : Z → nat → ParentQueryProxy A).
Context (sch : UpgradeScheduler S) (push_chain_meta : bool) (bft_power_table : Z → outcome string (list bytes)).
Context (validator : option bytes) (syncing : bool) (serialize : K → bytes) (tm_public_key : K → option bytes).
Context (app_hash : FvmStateParams → bytes).
Implicit Types (app : App S K A) (env : ChainEnv K A) (st : FvmExecState S).

Definition migrations_keep_block : Prop :=
  ∀ c h u st st', scheduled sch c h = Some u → migration u st = Ok st' → same_block st st'.

Lemma fvm_begin_same st st' ret :
  migrations_keep_block → fvm_begin sch push_chain_meta bft_power_table st = Ok (st', ret) → same_block st st'.
Proof.
  intros Hmig. unfold fvm_begin.
  destruct (run_upgrade sch st) as [st1| | |] eqn:Hu; simpl; try done.
  assert (same_block st st1) as H01.
  { revert Hu. unfold run_upgrade. destruct (exec_height st <? 0); [done|].
    destruct (scheduled sch _ _) as [u|] eqn:Hs; [|by intros [= <-]].
    unfold execute_upgrade. destruct (migration u st) as [r| | |] eqn:Hm; simpl; try done.
    specialize (Hmig _ _ u st r Hs Hm). by destruct (new_app_version u); intros [= <-]. }
  destruct (apply_system _ st1 _) as [[st2 r]| | |] eqn:Ha; simpl; try done. apply apply_system_same in Ha.
  destruct (push_block_hash _ _ st2) as [st3| | |] eqn:Hp; simpl; try done.
  assert (same_block st2 st3) as H23.
  { revert Hp. unfold push_block_hash. destruct push_chain_meta, (exec_block_hash st2); try by intros [= <-].
    destruct (fvm_push_block_params _ _); simpl; try done.
    destruct (apply_system _ st2 _) as [[s r']| | |] eqn:Hx; simpl; try done. intros [= <-]. by eapply apply_system_same. }
  destruct (enable_cetf _ _ st3) as [st4| | |] eqn:He; simpl; try done. intros [= <- _].
  assert (same_block st3 st4) as H34.
  { revert He. unfold enable_cetf. destruct (_ <? _); [|by intros [= <-]]. destruct (exec_height st3 <? 0); [done|].
    destruct (bft_power_table _); simpl; try done. destruct (bft_addresses _); simpl; try done.
    destruct (fvm_cetf_state _) as [[cetf|]| | |]; simpl; try done. destruct (enabled cetf); [by intros [= <-]|].
    destruct (forallb _ _); [|by intros [= <-]].
    destruct (apply_system _ st3 _) as [[s r']| | |] eqn:Hx; simpl; try done. intros [= <-]. by eapply apply_system_same. }
  by do 3 (etrans; [eassumption|]).
Qed.

Lemma to_validator_updates_cases vs :
  match to_validator_updates tm_public_key vs with
  | Ok _ => True
  | Err _ => ∃ v, v ∈ vs ∧ (tm_public_key (Checkpoint.public_key v) = None ∨ I64_MAX < power v)
  | _ => False
  end.
Proof.
  induction vs as [|v vs IH]; simpl; [done|].
  destruct (tm_public_key (Checkpoint.public_key v)) eqn:Hk; simpl; [|exists v; split; [left|by left]].
  destruct (I64_MAX <? power v) eqn:Hp; zbool; [exists v; split; [left|by right]|].
  destruct (to_validator_updates tm_public_key vs); simpl; try done.
  destruct IH as (w & Hin & Hw). exists w. split; [by right|done].
Qed.

Lemma execute_block_same env st txs env' st' out :
  migrations_keep_block →
  execute_block (M:=M) cbor_relayed client sch push_chain_meta bft_power_table validator syncing serialize env st txs =
    (env', Ok (st', out)) → same_block st st'.
Proof.
  intros Hmig. unfold execute_block, chain_begin.
  destruct (fvm_begin _ _ _ st) as [[st1 ret]| | |] eqn:Hb; simpl; try done.
  apply fvm_begin_same in Hb; [|done].
  destruct (deliver_txs cbor_relayed client env st1 txs) as [env2 [[st2 rs]| | |]] eqn:Hd; try done.
  apply deliver_txs_same in Hd. unfold chain_end, fvm_end.
  destruct (maybe_create_checkpoint serialize st2) as [[st3 o]| | |] eqn:Hm; simpl; try done.
  apply maybe_create_checkpoint_same in Hm. intros Hx.
  assert (st' = st3) as ->.
  { revert Hx. destruct o as [[cp updates]|]; simpl; [|by intros [= _ <- _]].
    destruct validator as [v|]; simpl; [|by intros [= _ <- _]].
    destruct syncing; simpl; [by intros [= _ <- _]|].
    destruct (unsigned_checkpoints st3 v); simpl; try done. by intros [= _ <- _]. }
  by do 2 (etrans; [eassumption|]).
Qed.
Notation finalize := (finalize_block (M:=M) state_hist_size halt_height cbor_relayed client sch push_chain_meta
  bft_power_table validator syncing serialize tm_public_key app_hash).

Lemma deliver_txs_results env st txs env' st' rs :
  deliver_txs (M:=M) cbor_relayed client env st txs = (env', Ok (st', rs)) → length rs = length txs.
Proof.
  revert env st rs. induction txs as [|tx txs IH]; intros env st rs; simpl; [by intros [= _ _ <-]|].
  destruct (bytes_deliver _ _ _ _ _) as [[[env1 st1] r]| | |]; try done.
  destruct (deliver_txs cbor_relayed client env1 st1 txs) as [env2 [[st2 rs2]| | |]] eqn:Hd; try done.
  intros [= <- <- <-]. simpl. f_equal. by eapply IH.
Qed.
Lemma execute_block_results env st txs env' st' ret rs pt :
  execute_block (M:=M) cbor_relayed client sch push_chain_meta bft_power_table validator syncing serialize env st txs =
    (env', Ok (st', (ret, rs, pt))) → length rs = length txs.
Proof.
  unfold execute_block. destruct (chain_begin _ _ _ _ _) as [[[env1 st1] r]| | |]; try done.
  destruct (deliver_txs cbor_relayed client env1 st1 txs) as [env2 [[st2 rs2]| | |]] eqn:Hd; try done.
  apply deliver_txs_results in Hd. destruct (chain_end _ _ _ _ _) as [[[env3 st3] t]| | |]; try done. by intros [= _ _ _ <- _].
Qed.

(** [s'] is what the execution of a block on the committed state gives: it is opened at the
    committed root with the height, time, hash and proposer of the block, begin, all
    transactions and end run on it, and the ledger after them is flushed to the new root. *)
Definition block_applied app (env' : ChainEnv K A) (req : FinalizeRequest) (s' : AppState)
    (ret : FvmApplyRet A) (results : list (ExecTxResult A)) (power_table : list (Validator K)) : Prop :=
  ∃ s hash st st' root, let p := state_params s in
    db_state (app_db app) = Some s ∧ req_hash req = Some hash ∧
    new_exec_state (mkStateParams (state_root p) (req_time req) (network_version p) (sp_base_fee p) (sp_circ_supply p)
      (sp_chain_id p) (sp_power_scale p) (sp_app_version p)) (req_height req) = Ok st ∧
    execute_block (M:=M) cbor_relayed client sch push_chain_meta bft_power_table validator syncing serialize
      (chain_env app) (with_validator_id (with_block_hash st hash) (req_proposer req)) (req_txs req) = (env', Ok (st', (ret, results, power_table))) ∧
    length results = length (req_txs req) ∧ fvm_flush (ledger st') = Ok root ∧
    s' = mkAppState (req_height req) (oldest_state_height s)
      (mkStateParams root (req_time req) (network_version p) (base_fee (params st')) (circ_supply (params st'))
        (sp_chain_id p) (power_scale (params st')) (Checkpoint.app_version (params st'))).

(** C28. The database takes a block completely or not at all.  Suppose no execution state is
    left from before, and the migrations of upgrades do not change height and time.  Whatever
    happens, none is left behind, so the next block can be executed, and the state of the
    mempool is untouched.  If the block succeeds, what is committed is the result of running
    the whole block, with one answer per transaction, on the committed state: the root of the
    flushed ledger, base fee, supply, power scale and version after the block, its height and
    time, and the chain id, network version and pruning position from before.  If it fails, the
    database is as before, except when only the conversion of the validator updates for
    CometBFT failed, which comes after the commit; the environment in memory (provider of
    finality, votes, pools) may keep what the block did before the failure. *)
Theorem finalize_block_all_or_nothing app req app' res :
  migrations_keep_block → exec_state app = None → finalize app req = (app', res) →
  exec_state app' = None ∧ check_state app' = check_state app ∧
  match res with
  | Answer (Ok resp) =>
      ∃ s' ret results power_table updates,
        block_applied app (chain_env app') req s' ret results power_table ∧
        app_db app' = set_committed_state state_hist_size (app_db app) s' ∧
        to_validator_updates tm_public_key power_table = Ok updates ∧
        resp = mkFinalizeResponse ret results updates (app_hash (state_params s'))
  | Answer _ =>
      app_db app' = app_db app ∨
      ∃ s' ret results power_table v,
        block_applied app (chain_env app') req s' ret results power_table ∧
        app_db app' = set_committed_state state_hist_size (app_db app) s' ∧
        v ∈ power_table ∧ (tm_public_key (Checkpoint.public_key v) = None ∨ I64_MAX < power v)
  | Halted => app' = app ∧ halt_height = req_height req
  end.
Proof.
  intros Hmig Hnone. unfold finalize_block.
  destruct (req_hash req) as [hash|] eqn:Hhash; [|intros [= <- <-]; eauto].
  destruct (negb (halt_height =? 0) && _) eqn:Hhalt; [intros [= <- <-]; zbool; eauto|].
  unfold committed_state. destruct (db_state (app_db app)) as [s|] eqn:Hs; simpl; [|intros [= <- <-]; eauto].
  destruct (req_time req <? 0); [intros [= <- <-]; eauto|].
  destruct (new_exec_state _ _) as [st| | |] eqn:Hst; simpl; try (intros [= <- <-]; eauto; fail). rewrite Hnone.
  set (st0 := with_validator_id _ _).
  destruct (execute_block _ _ _ _ _ _ _ _ (chain_env app) st0 (req_txs req)) as [env o] eqn:Hx.
  destruct o as [[st' [[ret rs] pt]]| | |]; simpl; try (intros [= <- <-]; eauto; fail).
  pose proof (execute_block_results _ _ _ _ _ _ _ _ Hx) as Hlen.
  pose proof Hx as (_ & Hheight & Htime & _)%execute_block_same; [|done].
  destruct (exec_height st' <? 0); [intros [= <- <-]; eauto|].
  destruct (fvm_flush (ledger st')) as [root| | |] eqn:Hroot; simpl; try (intros [= <- <-]; eauto; fail).
  assert (Hap : block_applied app env req (committed_after s st' root) ret rs pt).
  { exists s, hash, st, st', root. split_and!; try done. unfold committed_after. rewrite Hheight, Htime.
    unfold new_exec_state in Hst. apply bind_Ok in Hst as (l & _ & [= <-]). done. }
  intros [= <- <-]. split; [done|]. split; [done|].
  pose proof (to_validator_updates_cases pt) as Hcases.
  destruct (to_validator_updates tm_public_key pt) as [updates| | |] eqn:Hu; simpl; try done.
  - by exists (committed_after s st' root), ret, rs, pt, updates.
  - right. destruct Hcases as (v & Hin & Hv). by exists (committed_after s st' root), ret, rs, pt, v.
Qed.

End app_theorems.

Section proposal_theorems.
Context {S K A : Type} `{AddressPayload A} `{!Countable A} `{Countable K} `{!TxCodec A} `{BLS} `{ExtCodec}.
Context (interpreter : BytesMessageInterpreter).

(** C1. Honest blocks are accepted.  A proposal built by one validator is accepted by
    every other one that follows the same parent chain at least as far, has not
    committed more of it, has resolved the same checkpoints and runs the same
    configuration, provided the mempool held no message that only validators may
    propose; this holds also after the block is cut to the maximum number of
    messages and bytes. *)
Theorem honest_block_accepted `{!TxCodecLaws A} view iter (app1 app2 : App S K A) f1 f2 c1 c2 height votes txs max_bytes app1' block :
  prepare_mode interpreter = PrependOnly → reject_malformed_proposal interpreter = false →
  follows view (chain_env app1) f1 c1 → follows view (chain_env app2) f2 c2 →
  Finality.height c2 <= Finality.height c1 →
  (∀ h, Finality.height c1 < h →
        is_Some (to_map (cached_data f1) !! h) ∨ is_Some (chain (parent_finality_votes (chain_env app1)) !! h) →
        is_Some (to_map (cached_data f2) !! h)) →
  pool_keys (checkpoint_pool (chain_env app1)) → (∀ s, iter s ≡ₚ elements s) →
  (∀ k s, items (checkpoint_pool (chain_env app1)) !! k = Some s → is_resolved s = true →
          ∃ s', items (checkpoint_pool (chain_env app2)) !! k = Some s' ∧ is_resolved s' = true) →
  (∀ tx m, tx ∈ txs → tx_from_slice tx = Some m →
           match m with Ipc (BottomUpExec _) | Ipc (TopDownExec _) => False | _ => True end) →
  prepare_proposal interpreter iter app1 height votes txs max_bytes = Ok (app1', block) →
  process_proposal interpreter app2 block = Ok true.
Proof.
  intros Hmode Hrej Hf1 Hf2 Hle Hsync Hkeys Hiter Hres Htxs. unfold prepare_proposal.
  destruct (prepare_cetf height votes) as [cetf| | |]; simpl; try done.
  unfold encode_cetf. destruct (mapM _ cetf) as [cetf_txs|] eqn:Hc; simpl; [|done].
  unfold bytes_prepare. rewrite Hmode.
  destruct (chain_prepare iter (chain_env app1) []) as [[env1 out]| | |] eqn:Hp; simpl; try done.
  destruct (mapM tx_to_vec out) as [outs|] eqn:Ho; simpl; [|done].
  destruct (max_bytes <? 0); [done|]. intros [= _ <-].
  destruct (prepared_acceptable view iter _ _ f1 f2 c1 c2 [] env1 out Hf1 Hf2 Hle Hsync Hkeys Hiter Hres Hp)
    as (extra & -> & Hacc).
  set (all := outs ++ cetf_txs ++ txs).
  set (cut := if (max_msgs interpreter <? length all)%nat then _ else _).
  assert (cut `prefix_of` all ∧ (length cut <= max_msgs interpreter)%nat) as [Hpre Hlen].
  { unfold cut. destruct (max_msgs interpreter <? length all)%nat eqn:Hl.
    - split; [by exists (drop (max_msgs interpreter) all); rewrite take_drop|]. rewrite length_take. lia.
    - apply Nat.ltb_ge in Hl. by split. }
  assert (take_until_max_size cut max_bytes `prefix_of` cut) as Hpre2 by apply take_until_prefix.
  apply bytes_process_accepts; [|done| |].
  - intros f Hf. rewrite (fol_provider _ _ _ _ Hf2) in Hf. injection Hf as <-. apply Hf2.
  - etrans; [by apply prefix_length|done].
  - intros tx m Htx Hm. assert (tx ∈ all) as Hin.
    { destruct Hpre as [k1 Hk1], Hpre2 as [k2 Hk2]. rewrite Hk1, Hk2. set_solver. }
    apply elem_of_app in Hin as [Hin|[Hin|Hin]%elem_of_app].
    + destruct (mapM_elem _ _ _ _ Ho Hin) as (m' & Hm' & Hv). apply tx_roundtrip in Hv.
      rewrite Hm in Hv. injection Hv as <-. by apply (proj1 (Forall_forall _ _) Hacc).
    + destruct (mapM_elem _ _ _ _ Hc Hin) as (c & _ & Hv). apply tx_roundtrip in Hv.
      rewrite Hm in Hv. by injection Hv as ->.
    + specialize (Htxs tx m Hin Hm). by destruct m as [|[]|].
Qed.
End proposal_theorems.

(** ** Witnesses *)

Definition sample_params (x : Z) : FvmStateParams := mkStateParams [x] x 18 0 1000 1337 3 0.
Lemma history_window_witness :
  let db := commit_states 2 (init_chain 2 (init_committed_state 2 empty_db [0]) 1 (sample_params 1))
              (sample_params <$> [2; 3; 4]) in
  state_params_at_height db (QueryHeight 3) = Ok (sample_params 3, 3) ∧
  state_params_at_height db (QueryHeight 2) = Ok (sample_params 4, 3).
Proof.
  split.
  - destruct (history_window 2 [0] (sample_params 1) (sample_params <$> [2; 3; 4]) 3)
      as (latest & Hl & Hq & _); [lia|vm_compute; reflexivity|]. exact Hq.
  - destruct (history_window 2 [0] (sample_params 1) (sample_params <$> [2; 3; 4]) 2)
      as (latest & Hl & Hq & _); [lia|vm_compute; reflexivity|]. injection Hl as <-. exact Hq.
Defined.

Lemma empty_state_is_queryable_witness :
  query_state (init_committed_state 2 empty_db [0]) 1 = Ok (inr (empty_params [0], 1)) ∧
  state_hist (commit_states 2 (init_chain 2 (init_committed_state 2 empty_db [0]) 10 (sample_params 1))
                (sample_params <$> [2; 3; 4])) !! 1 = Some (empty_params [0]).
Proof.
  destruct (empty_state_is_queryable 2 [0] (sample_params 1) 10 (sample_params <$> [2; 3; 4])) as (_ & Hq & Hk);
    [lia|lia|vm_compute; reflexivity|]. split; [exact Hq|exact Hk].
Defined.

#[local] Remove Hints id_address_eq_dec : typeclass_instances.
#[local] Existing Instances toy_bls toy_codec.
#[local] Instance sample_tx_codec : TxCodec IdAddress := {
  tx_from_slice := λ b, match b with
                        | 1 :: h :: s => Some (Cetf (CetfTag h s))
                        | 2 :: h :: hash => Some (Ipc (TopDownExec (mkParentFinality h hash)))
                        | _ => None
                        end;
  tx_to_vec := λ m, match m with
                    | Cetf (CetfTag h s) => Some (1 :: h :: s)
                    | Ipc (TopDownExec p) => Some (2 :: pf_height p :: pf_block_hash p)
                    | _ => None
                    end;
}.
#[local] Instance sample_tx_codec_laws : TxCodecLaws IdAddress.
Proof. split. intros [m|[m|m|[h hash]]|[h s]] b Hb; simpl in Hb; try done; by injection Hb as <-. Qed.
#[local] Instance sample_store : FvmStore GwLedger := {
  fvm_open := λ p h, Ok (sample_ledger None);
  fvm_flush := λ s, Ok [Z.of_nat (length (gl_applied s))];
}.
Definition sample_interpreter : BytesMessageInterpreter := mkBytes PrependOnly false 10.
Definition sample_app (env : ChainEnv Z IdAddress) : App GwLedger Z IdAddress :=
  mkApp (init_chain 2 (init_committed_state 2 empty_db [0]) 1 (sample_params 1)) None None env.
Definition sample_request : FinalizeRequest :=
  mkFinalize 1 (Some [9]) 77 [3] [[1; 7; 66]; [2; 2; 2]; [0]].
Definition sample_finalize :=
  finalize_block (M:=Z) 2 0 (λ _, None) flaky_client (∅ : UpgradeScheduler GwLedger) true (λ _, Ok []) None true
    (λ k : Z, [k]) (λ k, Some [k]) (λ p, state_root p) (sample_app sample_env) sample_request.

Lemma finalize_block_all_or_nothing_witness :
  ∃ app' resp s', sample_finalize = (app', Answer (Ok resp)) ∧
    app_db app' = set_committed_state 2 (app_db (sample_app sample_env)) s' ∧
    block_height s' = 1 ∧ timestamp (state_params s') = 77.
Proof.
  unfold sample_finalize.
  destruct (finalize_block (M:=Z) 2 0 (λ _, None) flaky_client (∅ : UpgradeScheduler GwLedger) true (λ _, Ok []) None true
    (λ k : Z, [k]) (λ k, Some [k]) (λ p, state_root p) (sample_app sample_env) sample_request) as [app' res] eqn:Hf.
  assert (match res with Answer (Ok _) => True | _ => False end) as Hok.
  { change res with (app', res).2. rewrite <- Hf. vm_compute. exact I. }
  destruct (finalize_block_all_or_nothing (M:=Z) 2 0 (λ _, None) flaky_client ∅ true (λ _, Ok []) None true
    (λ k : Z, [k]) (λ k, Some [k]) (λ p, state_root p) (sample_app sample_env) sample_request app' res) as (_ & _ & Hres);
    [intros c h u st st' Hs; vm_compute in Hs; discriminate Hs|reflexivity|exact Hf|].
  destruct res as [[resp|e| |]|]; try destruct Hok.
  destruct Hres as (s' & ret & rs & pt & us & (s & hash & st & st' & root & _ & _ & _ & _ & _ & _ & Hs') & Hdb & _).
  exists app', resp, s'. split; [reflexivity|]. split; [exact Hdb|]. rewrite Hs'. split; reflexivity.
Defined.

(** A node at finality 10 that has seen the parent up to 14, with a quorum of votes
    for block 13. *)
Definition sample_parent (h : Z) : option (ParentViewPayload IdAddress) :=
  if h =? 10 then Some ([0], [], []) else if h =? 12 then None else sample_payload h.
Definition voted_chain : list (Z * option bytes) :=
  [(10, Some [0]); (11, Some [11]); (12, None); (13, Some [13]); (14, Some [14])].
Definition voted_tally : VoteTally Z bytes :=
  mkTally {[1 := 10]} (list_to_map voted_chain)
    {[13 := {[[13] := {[1]}]}]} false.
Definition voted_env : ChainEnv Z IdAddress := mkEnv new_pool (Some sample_provider) voted_tally.

Lemma sample_provider_entries h v :
  to_map (cached_data sample_provider) !! h = Some v →
  (h = 11 ∨ h = 12 ∨ h = 13 ∨ h = 14) ∧ v = sample_parent h.
Proof.
  intros Hv. apply to_map_Some in Hv; [|apply sample_provider_inv].
  vm_compute in Hv.
  repeat (apply elem_of_cons in Hv as [[= -> ->]|Hv]; [split; [lia|reflexivity]|]).
  by apply not_elem_of_nil in Hv.
Qed.

Lemma voted_entries h bh :
  chain (parent_finality_votes voted_env) !! h = Some bh → (h, bh) ∈ voted_chain.
Proof. apply elem_of_list_to_map_2. Qed.

Lemma voted_follows : follows sample_parent voted_env sample_provider (mkFinality 10 [0]).
Proof.
  split; try done.
  - apply sample_provider_inv.
  - intros h v Hv. by apply sample_provider_entries in Hv as [_ ->].
  - intros h bh Hh. apply voted_entries in Hh.
    repeat (apply elem_of_cons in Hh as [[= -> ->]|Hh]; [reflexivity|]). by apply not_elem_of_nil in Hh.
  - intros h [bh Hh]. apply voted_entries in Hh.
    repeat (apply elem_of_cons in Hh as [[= -> ->]|Hh]; [unfold is_u64, U64_MAX; lia|]).
    by apply not_elem_of_nil in Hh.
  - split; [|vm_compute; discriminate]. intros vk w Hw. simpl in Hw.
    apply lookup_singleton_Some in Hw as [_ <-]. lia.
Qed.

Lemma honest_block_accepted_witness :
  ∃ app' block, prepare_proposal sample_interpreter elements (sample_app voted_env) 1 None [[1; 7; 66]; [0]] 100 =
      Ok (app', block) ∧ block = [[2; 11; 11]; [1; 7; 66]; [0]] ∧
    process_proposal sample_interpreter (sample_app voted_env) block = Ok true.
Proof.
  destruct (prepare_proposal sample_interpreter elements (sample_app voted_env) 1 None [[1; 7; 66]; [0]] 100)
    as [[app' block]| | |] eqn:Hp; [|vm_compute in Hp; discriminate Hp..].
  exists app', block. split; [reflexivity|]. split.
  - assert (snd <$> prepare_proposal sample_interpreter elements (sample_app voted_env) 1 None [[1; 7; 66]; [0]] 100 =
      Ok [[2; 11; 11]; [1; 7; 66]; [0]]) as Hs by (vm_compute; reflexivity).
    rewrite Hp in Hs. by injection Hs.
  - apply (honest_block_accepted sample_interpreter sample_parent elements (sample_app voted_env) (sample_app voted_env)
      sample_provider sample_provider (mkFinality 10 [0]) (mkFinality 10 [0]) 1 None [[1; 7; 66]; [0]] 100 app' block);
      [reflexivity|reflexivity|exact voted_follows|exact voted_follows|reflexivity|clear Hp..|exact Hp].
    + intros h Hh [Hc|[bh Hc]]; [exact Hc|]. simpl in Hh. apply voted_entries in Hc.
      repeat (apply elem_of_cons in Hc as [[= -> ->]|Hc]; [first [lia|vm_compute; by eexists]|]).
      by apply not_elem_of_nil in Hc.
    + intros k s item Hk. vm_compute in Hk. discriminate Hk.
    + reflexivity.
    + intros k s Hk. vm_compute in Hk. discriminate Hk.
    + intros tx m Htx Hm. repeat (apply elem_of_cons in Htx as [->|Htx]; [simpl in Hm; by simplify_eq|]).
      by apply not_elem_of_nil in Htx.
Defined.
