(* ===== verification/Merkle.v ===== *)
(** * Merkle trees and their proofs ([ext/merkle-tree-rs/src])

    A tree is stored in one vector, the root first and the children of node [i] at
    [2 i + 1] and [2 i + 2]; the leaves are at the end, in reverse order.  Proofs of
    one leaf are the siblings on the way to the root; multiproofs prove several
    leaves at once, with a queue of nodes still to be combined.

    Keccak-256, the ABI encoding of leaves and the hexadecimal encoding are code of
    other crates, and parameters here.  Indices are [usize] values below the length
    of a vector, kept as [nat]; only [sibling_index] computes in [i32], and its
    conversion is written out. *)

From stdpp Require Import base tactics numbers list gmap sorting strings pretty.
From Equations Require Import Equations.
From Stdlib Require Import ZArith Lia.
From S2P Require Import Prelude.

Local Open Scope nat_scope.

#[local] Instance ge_dec : RelDecision ge := λ x y, le_dec y x.

(** ** The array ([core.rs]) *)

Notation Hash := (list Z) (only parsing).

Record MultiProof (T U : Type) := mkMultiProof {
  mp_leaves : list T;
  mp_proof : list U;
  proof_flags : list bool;
}.
Arguments mkMultiProof {T U}.
Arguments mp_leaves {T U}.
Arguments mp_proof {T U}.
Arguments proof_flags {T U}.

(** The order of byte slices is lexicographic. *)
Fixpoint bytes_leb (a b : bytes) : bool :=
  match a, b with
  | [], _ => true
  | _ :: _, [] => false
  | x :: a', y :: b' => if (x <? y)%Z then true else if (x =? y)%Z then bytes_leb a' b' else false
  end.

Definition left_child_index (i : nat) : nat := 2 * i + 1.
Definition right_child_index (i : nat) : nat := 2 * i + 2.
Definition parent (i : nat) : nat := (i - 1) / 2.
Definition parent_index (i : nat) : outcome string nat :=
  if 0 <? i then Ok (parent i) else Err "Root has no parent"%string.

Definition I32_MAX : Z := 2 ^ 31 - 1.
(** [i - (-1)^(i mod 2)] *)
Definition sibling (i : nat) : nat := if Nat.even i then i - 1 else i + 1.
(** The sum [i + 1] wraps around at the maximum of [i32]; the cast to [usize] extends the sign. *)
Definition sibling_index (i : nat) : outcome string Z :=
  if (I32_MAX <? Z.of_nat i)%Z then Err "out of range integral type conversion attempted"%string else
  if 0 <? i then
    Ok (if (Z.of_nat (sibling i) <=? I32_MAX)%Z then Z.of_nat (sibling i) else 2 ^ 64 - 2 ^ 31)%Z
  else Err "Root has no sibling"%string.

Definition is_tree_node (tree : list Hash) (i : nat) : bool := i <? length tree.
Definition is_internal_node (tree : list Hash) (i : nat) : bool := is_tree_node tree (left_child_index i).
Definition is_leaf_node (tree : list Hash) (i : nat) : bool :=
  is_tree_node tree i && negb (is_internal_node tree i).
Definition check_leaf_node (tree : list Hash) (i : nat) : outcome string unit :=
  if negb (is_leaf_node tree i) then Err "Index is not in tree"%string else Ok tt.

(** [tree[i]] *)
Definition node (tree : list Hash) (i : Z) : outcome string Hash :=
  if (i <? Z.of_nat (length tree))%Z then unwrap (tree !! Z.to_nat i) else Panic.

Section core.
Context (keccak256 : bytes → bytes).
Implicit Types (tree leaves : list Hash).

Definition hash_pair (a b : Hash) : Hash :=
  keccak256 (if bytes_leb a b then a ++ b else b ++ a).

(** One round of the loop that fills the inner nodes. *)
Definition fill_node (acc : outcome string (list Hash)) (i : nat) : outcome string (list Hash) :=
  tree ← acc;
  left_child ← unwrap (tree !! left_child_index i);
  right_child ← unwrap (tree !! right_child_index i);
  Ok (<[i := hash_pair left_child right_child]> tree).

Definition make_merkle_tree leaves : outcome string (list Hash) :=
  match leaves with
  | [] => Err "Expected non-zero number of leaves"%string
  | _ =>
      let tree_length := 2 * length leaves - 1 in
      let tree := foldl (λ t p, <[tree_length - 1 - p.1 := p.2]> t)
                    (replicate tree_length (replicate 32 0%Z)) (imap pair leaves) in
      foldl fill_node (Ok tree) (reverse (seq 0 (tree_length - length leaves)))
  end.

Lemma parent_lt i : 0 < i → parent i < i.
Proof. intros ?. unfold parent. apply (Nat.le_lt_trans _ (i - 1)); [apply Nat.Div0.div_le_upper_bound|]; lia. Qed.

(** The loop of [get_proof]; [parent_index] cannot fail on the way. *)
Equations? get_proof_loop (tree : list Hash) (i : nat) : outcome string (list Hash) by wf i lt :=
get_proof_loop tree 0 := Ok [];
get_proof_loop tree (S j) :=
  sibling_i ← sibling_index (S j);
  n ← node tree sibling_i;
  proof ← get_proof_loop tree (parent (S j));
  Ok (n :: proof).
Proof. apply parent_lt. lia. Qed.

Definition get_proof tree (i : nat) : outcome string (list Hash) :=
  _ ← check_leaf_node tree i;
  get_proof_loop tree i.

Definition process_proof (leaf : Hash) (proof : list Hash) : Hash := foldl hash_pair leaf proof.

Lemma sum_list_tail l : sum_list (tail l) <= sum_list l.
Proof. destruct l; simpl; lia. Qed.

(** The queue of [get_multi_proof]: the first index is combined with its sibling,
    taken from the queue when it comes next and from the tree otherwise. *)
Equations? multi_proof_loop (tree : list Hash) (stack : list nat)
    : outcome string (list Hash * list bool) by wf (sum_list stack) lt :=
multi_proof_loop tree [] := Ok ([], []);
multi_proof_loop tree (0 :: _) := Ok ([], []);
multi_proof_loop tree (S i :: stack) :=
  s ← sibling_index (S i);
  match bool_decide (Z.of_nat <$> head stack = Some s) with
  | true =>
      r ← multi_proof_loop tree (tail stack ++ [parent (S i)]);
      Ok (r.1, true :: r.2)
  | false =>
      n ← node tree s;
      r ← multi_proof_loop tree (stack ++ [parent (S i)]);
      Ok (n :: r.1, false :: r.2)
  end.
Proof.
  all: rewrite sum_list_with_app; simpl; pose proof (parent_lt (S i) ltac:(lia));
    pose proof (sum_list_tail stack); lia.
Qed.

Fixpoint check_leaf_nodes tree (indices : list nat) : outcome string unit :=
  match indices with
  | [] => Ok tt
  | i :: rest => _ ← check_leaf_node tree i; check_leaf_nodes tree rest
  end.

Fixpoint has_equal_neighbours (l : list nat) : bool :=
  match l with
  | x :: (y :: _) as rest => (x =? y) || has_equal_neighbours rest
  | _ => false
  end.

Definition get_multi_proof tree (indices : list nat) : outcome string (MultiProof Hash Hash) :=
  _ ← check_leaf_nodes tree indices;
  let indices := merge_sort ge indices in
  if has_equal_neighbours indices then Err "Cannot prove duplicated index"%string else
  r ← multi_proof_loop tree indices;
  proof ← match indices with [] => root ← unwrap (tree !! 0); Ok (r.1 ++ [root]) | _ => Ok r.1 end;
  leaves ← unwrap (mapM (λ i, tree !! i) indices);
  Ok (mkMultiProof leaves proof r.2).

(** [Vec::remove] panics on an empty vector. *)
Fixpoint combine_nodes (stack proof : list Hash) (flags : list bool) : outcome string (list Hash * list Hash) :=
  match flags with
  | [] => Ok (stack, proof)
  | flag :: flags =>
      match stack with
      | [] => Panic
      | a :: stack =>
          if (flag : bool) then
            match stack with [] => Panic | b :: stack => combine_nodes (stack ++ [hash_pair a b]) proof flags end
          else
            match proof with [] => Panic | b :: proof => combine_nodes (stack ++ [hash_pair a b]) proof flags end
      end
  end.

Definition process_multi_proof (p : MultiProof Hash Hash) : outcome string Hash :=
  if length (mp_proof p) <? length (filter (λ b, b = false) (proof_flags p)) then
    Err "Invalid multiproof format"%string
  else if negb (length (mp_leaves p) + length (mp_proof p) =? length (proof_flags p) + 1) then
    Err "Provide leaves and multi_proof are not compatible"%string
  else
    r ← combine_nodes (mp_leaves p) (mp_proof p) (proof_flags p);
    match last r.1 with
    | Some b => Ok b
    | None => unwrap (head r.2)
    end.

Definition is_valid_node tree (i : nat) (n : Hash) : bool :=
  let l := left_child_index i in
  let r := right_child_index i in
  if length tree <=? r then negb (l <? length tree)
  else match tree !! l, tree !! r with
       | Some a, Some b => bool_decide (n = hash_pair a b)
       | _, _ => false
       end.
Definition is_valid_merkle_tree tree : bool :=
  forallb (λ p, is_valid_node tree p.1 p.2) (imap pair tree) && negb (length tree =? 0).
End core.

(** *** Rendering *)

(** Children come after their parent, so this weight of the pending nodes goes down. *)
Definition pending_weight (len : nat) (stack : list (nat * list bool)) : nat :=
  sum_list ((λ p, 2 ^ (len - p.1)) <$> stack).

Lemma pending_weight_step len i path stack : right_child_index i < len →
  pending_weight len ((left_child_index i, path ++ [true]) :: (right_child_index i, path ++ [false]) :: stack) <
  pending_weight len ((i, path) :: stack).
Proof.
  unfold pending_weight, left_child_index, right_child_index. cbn [fmap list_fmap sum_list sum_list_with fst].
  intros Hi. unfold id.
  assert (2 ^ (len - (2 * i + 2)) <= 2 ^ (len - i - 2)) by (apply Nat.pow_le_mono_r; lia).
  assert (2 ^ (len - (2 * i + 1)) <= 2 ^ (len - i - 1)) by (apply Nat.pow_le_mono_r; lia).
  assert (2 ^ (len - i) = 2 * 2 ^ (len - i - 1)) by (rewrite <- Nat.pow_succ_r'; f_equal; lia).
  assert (2 ^ (len - i - 1) = 2 * 2 ^ (len - i - 2)) by (rewrite <- Nat.pow_succ_r'; f_equal; lia).
  assert (0 < 2 ^ (len - i - 2)) by (apply Nat.neq_0_lt_0, Nat.pow_nonzero; lia).
  lia.
Qed.
Lemma pending_weight_pop len i path stack : pending_weight len stack < pending_weight len ((i, path) :: stack).
Proof.
  unfold pending_weight. cbn [fmap list_fmap sum_list sum_list_with fst]. unfold id.
  assert (0 < 2 ^ (len - i)) by (apply Nat.neq_0_lt_0, Nat.pow_nonzero; lia). lia.
Qed.

Section render.
Context (hex_encode : bytes → string).

Definition node_label (tree : list Hash) (index : nat) : outcome string string :=
  n ← unwrap (tree !! index);
  Ok (pretty (N.of_nat index) +:+ ") 0x" +:+ hex_encode n)%string.
(** The branches drawn before a node; [true] stands for a sibling that follows. *)
Definition node_line (tree : list Hash) (index : nat) (path : list bool) : outcome string string :=
  label ← node_label tree index;
  match last path with
  | None => Ok label
  | Some d =>
      Ok (String.concat "" ((λ p : bool, if p then "│  " else "   ") <$> take (length path - 1) path)
            +:+ (if d then "├─ " else "└─ ") +:+ label)%string
  end.

(** The nodes still to draw, each with its path. *)
Equations? render_loop (tree : list Hash) (stack : list (nat * list bool)) : outcome string (list string)
  by wf (pending_weight (length tree) stack) lt :=
render_loop tree [] := Ok [];
render_loop tree ((index, path) :: stack) :=
  line ← node_line tree index path;
  match decide (right_child_index index < length tree) with
  | left _ =>
      lines ← render_loop tree ((left_child_index index, path ++ [true]) ::
                                (right_child_index index, path ++ [false]) :: stack);
      Ok (line :: lines)
  | right _ =>
      lines ← render_loop tree stack;
      Ok (line :: lines)
  end.
Proof. all: [> by apply pending_weight_step | apply pending_weight_pop]. Qed.

Definition render_merkle_tree (tree : list Hash) : outcome string string :=
  match tree with
  | [] => Err "Expected non-zero number of nodes"%string
  | _ => lines ← render_loop tree [(0, [])]; Ok (String.concat (String (Ascii.ascii_of_nat 10) EmptyString) lines)
  end.
End render.

(** ** Trees of values ([standard.rs], [format.rs]) *)

Record HashedValues := mkHashedValues { hv_value : list string; value_index : nat; hv_hash : Hash }.
Record Values := mkValues { v_value : list string; tree_index : nat }.
Record StandardMerkleTreeData := mkTreeData {
  d_format : string;
  d_tree : list string;
  d_values : list Values;
  d_leaf_encoding : list string;
}.
Record StandardMerkleTree := mkStandardTree {
  hash_lookup : gmap (list Z) nat;
  nodes : list Hash;
  values : list Values;
  leaf_encoding : list string;
}.
Inductive LeafType :=
| Number (i : nat)
| LeafBytes (v : list string).

Definition hash_le (a b : HashedValues) : Prop := bytes_leb (hv_hash a) (hv_hash b) = true.
#[local] Instance hash_le_dec : RelDecision hash_le := λ a b, decide (bytes_leb _ _ = true).

Section standard.
Context (keccak256 : bytes → bytes).
(** The parser of parameter types, the tokenizer and the encoder of [ethers::abi]. *)
Context {ParamType Token : Type} (read : string → outcome string ParamType)
  (tokenize : ParamType → string → outcome string Token) (abi_encode : list Token → bytes).
(** [hex::encode] and [hex::decode] *)
Context (hex_encode : bytes → string) (hex_decode : string → option bytes).
(** [F::format] *)
Context {Out : Type} (format : Hash → Out).
Implicit Types t : StandardMerkleTree.

Fixpoint tokens_of (values : list string) (i : nat) (params : list string) : outcome string (list Token) :=
  match params with
  | [] => Ok []
  | p :: params =>
      param_type ← read p;
      v ← unwrap (values !! i);
      token ← tokenize param_type v;
      tokens ← tokens_of values (S i) params;
      Ok (token :: tokens)
  end.
Definition standard_leaf_hash (values params : list string) : outcome string Hash :=
  tokens ← tokens_of values 0 params;
  Ok (keccak256 (keccak256 (abi_encode tokens))).

Fixpoint index_hashes (leaf_encoding : list string) (i : nat) (values : list Values)
    (m : gmap (list Z) nat) : outcome string (gmap (list Z) nat) :=
  match values with
  | [] => Ok m
  | v :: values =>
      h ← standard_leaf_hash (v_value v) leaf_encoding;
      index_hashes leaf_encoding (S i) values (<[h := i]> m)
  end.
Definition new (tree : list Hash) (values : list Values) (leaf_encoding : list string)
    : outcome string StandardMerkleTree :=
  lookup ← index_hashes leaf_encoding 0 values ∅;
  Ok (mkStandardTree lookup tree values leaf_encoding).

Fixpoint hash_values (leaf_encode : list string) (i : nat) (values : list (list string))
    : outcome string (list HashedValues) :=
  match values with
  | [] => Ok []
  | v :: values =>
      h ← standard_leaf_hash v leaf_encode;
      hs ← hash_values leaf_encode (S i) values;
      Ok (mkHashedValues v i h :: hs)
  end.
Definition set_tree_index (len : nat) (vs : list Values) (p : nat * HashedValues) : list Values :=
  alter (λ v, mkValues (v_value v) (len - p.1 - 1)) (value_index p.2) vs.
Definition of_values (values : list (list string)) (leaf_encode : list string) : outcome string StandardMerkleTree :=
  hashed ← hash_values leaf_encode 0 values;
  let hashed_values := merge_sort hash_le hashed in
  tree ← make_merkle_tree keccak256 (hv_hash <$> hashed_values);
  let indexed_values := foldl (set_tree_index (length tree)) ((λ v, mkValues v 0) <$> values)
                          (imap pair hashed_values) in
  new tree indexed_values leaf_encode.

(** [leaf.split_at(2).1] panics on strings shorter than two bytes, [Hash::from_slice]
    on slices that do not have 32 bytes. *)
Definition load_hash (leaf : string) : outcome string Hash :=
  if (String.length leaf <? 2) then Panic else
  match hex_decode (String.substring 2 (String.length leaf - 2) leaf) with
  | Some h => if length h =? 32 then Ok h else Panic
  | None => Panic
  end.
Fixpoint load_hashes (leaves : list string) : outcome string (list Hash) :=
  match leaves with
  | [] => Ok []
  | l :: leaves => h ← load_hash l; hs ← load_hashes leaves; Ok (h :: hs)
  end.
Definition load (data : StandardMerkleTreeData) : outcome string StandardMerkleTree :=
  if bool_decide (d_format data = "standard-v1"%string) then
    tree ← load_hashes (d_tree data);
    new tree (d_values data) (d_leaf_encoding data)
  else Err "Unknown format"%string.
Definition dump t : StandardMerkleTreeData :=
  mkTreeData "standard-v1" ((λ leaf, ("0x" ++ hex_encode leaf)%string) <$> nodes t) (values t) (leaf_encoding t).

Definition root t : outcome string Out := format <$> unwrap (nodes t !! 0).

Definition check_bounds {A} (values : list A) (index : nat) : outcome string unit :=
  if length values <=? index then Err "Index out of range"%string else Ok tt.
Definition validate_value t (index : nat) : outcome string unit :=
  _ ← check_bounds (values t) index;
  value ← unwrap (values t !! index);
  _ ← check_bounds (nodes t) (tree_index value);
  leaf ← standard_leaf_hash (v_value value) (leaf_encoding t);
  n ← unwrap (nodes t !! tree_index value);
  if bool_decide (leaf = n) then Ok tt
  else Err "Merkle tree does not contain the expected value"%string.

Definition leaf_lookup t (leaf : list string) : outcome string nat :=
  h ← standard_leaf_hash leaf (leaf_encoding t);
  ok_or "Leaf is not in tree"%string (hash_lookup t !! h).
Definition value_index_of t (leaf : LeafType) : outcome string nat :=
  match leaf with
  | Number i => Ok i
  | LeafBytes v => leaf_lookup t v
  end.

Definition tree_get_proof t (leaf : LeafType) : outcome string (list Out) :=
  value_index ← value_index_of t leaf;
  _ ← validate_value t value_index;
  value ← unwrap (values t !! value_index);
  proof ← get_proof (nodes t) (tree_index value);
  hash ← unwrap (nodes t !! tree_index value);
  r ← unwrap (nodes t !! 0);
  if bool_decide (process_proof keccak256 hash proof = r) then Ok (format <$> proof)
  else Err "Unable to prove value"%string.

Fixpoint collect_indices t (leaves : list LeafType) : outcome string (list nat) :=
  match leaves with
  | [] => Ok []
  | leaf :: leaves => i ← value_index_of t leaf; rest ← collect_indices t leaves; Ok (i :: rest)
  end.
Fixpoint validate_values t (indices : list nat) : outcome string unit :=
  match indices with
  | [] => Ok tt
  | i :: indices => _ ← validate_value t i; validate_values t indices
  end.
Definition validate t : outcome string unit := validate_values t (seq 0 (length (values t))).

Definition tree_get_multi_proof t (leaves : list LeafType) : outcome string (MultiProof (list string) Out) :=
  value_indices ← collect_indices t leaves;
  _ ← validate_values t value_indices;
  indices ← unwrap (mapM (λ i, tree_index <$> values t !! i) value_indices);
  multi_proof ← get_multi_proof (nodes t) indices;
  implied_root ← process_multi_proof keccak256 multi_proof;
  r ← unwrap (nodes t !! 0);
  if bool_decide (implied_root = r) then
    leaves ← unwrap (mapM (λ leaf, index ← hash_lookup t !! leaf; v_value <$> values t !! index)
                       (mp_leaves multi_proof));
    Ok (mkMultiProof leaves (format <$> mp_proof multi_proof) (proof_flags multi_proof))
  else Err "Unable to prove value"%string.
End standard.

(** ** Facts about indices and hashes *)

Lemma index_cases i : 0 < i →
  (∃ p, i = left_child_index p ∧ parent i = p ∧ sibling i = right_child_index p) ∨
  (∃ p, i = right_child_index p ∧ parent i = p ∧ sibling i = left_child_index p).
Proof.
  intros Hi. unfold parent, sibling, left_child_index, right_child_index.
  destruct (Nat.Even_or_Odd i) as [[k ->]|[k ->]].
  - right. exists (k - 1). rewrite Nat.even_mul. simpl Nat.even. cbn [orb].
    replace (2 * k - 1) with (1 + (k - 1) * 2) by lia. rewrite Nat.div_add by lia. simpl. lia.
  - left. exists k. rewrite Nat.even_add, Nat.even_mul. simpl Nat.even. cbn [orb].
    replace (2 * k + 1 - 1) with (0 + k * 2) by lia. rewrite Nat.div_add by lia. simpl. lia.
Qed.
Lemma parent_mono i j : i <= j → parent i <= parent j.
Proof. intros ?. unfold parent. apply Nat.Div0.div_le_mono. lia. Qed.
(** Two nodes with one parent are siblings. *)
Lemma parent_eq i j : 0 < i → i < j → parent i = parent j → i = sibling j.
Proof.
  intros Hi Hij Hp. destruct (index_cases i Hi) as [(p & -> & Ep & Es)|(p & -> & Ep & Es)];
    destruct (index_cases j ltac:(lia)) as [(q & -> & Eq & Et)|(q & -> & Eq & Et)];
    rewrite ?Et; unfold left_child_index, right_child_index in *; lia.
Qed.

Lemma sibling_index_ok i len : 0 < i → i < len → Nat.odd len = true → (Z.of_nat len <= I32_MAX)%Z →
  sibling_index i = Ok (Z.of_nat (sibling i)) ∧ sibling i < len.
Proof.
  intros Hi Hlt Hodd Hmax.
  assert (sibling i < len) as Hs.
  { apply Nat.odd_spec in Hodd as [k ->].
    destruct (index_cases i Hi) as [(p & -> & _ & ->)|(p & -> & _ & ->)];
      unfold left_child_index, right_child_index in *; lia. }
  split; [|done]. unfold sibling_index.
  rewrite (proj2 (Z.ltb_ge _ _)) by lia. rewrite (proj2 (Nat.ltb_lt 0 i)) by lia.
  by rewrite (proj2 (Z.leb_le _ _)) by lia.
Qed.
Lemma node_ok tree i a : tree !! i = Some a → node tree (Z.of_nat i) = Ok a.
Proof.
  intros Hi. pose proof (lookup_lt_Some _ _ _ Hi). unfold node.
  rewrite (proj2 (Z.ltb_lt _ _)) by lia. by rewrite Nat2Z.id, Hi.
Qed.

Lemma bytes_leb_total a b : bytes_leb a b = false → bytes_leb b a = true.
Proof.
  revert b. induction a as [|x a IH]; intros [|y b]; simpl; try done.
  destruct (x <? y)%Z eqn:?; [done|]. destruct (x =? y)%Z eqn:?.
  - intros ?%IH. zbool. subst. by rewrite Z.ltb_irrefl, Z.eqb_refl.
  - intros _. zbool. by rewrite (proj2 (Z.ltb_lt y x)) by lia.
Qed.
Lemma bytes_leb_antisym a b : bytes_leb a b = true → bytes_leb b a = true → a = b.
Proof.
  revert b. induction a as [|x a IH]; intros [|y b]; simpl; try done.
  destruct (x <? y)%Z eqn:?, (y <? x)%Z eqn:?; zbool; try lia.
  - destruct (y =? x)%Z eqn:?; zbool; [lia|done].
  - destruct (x =? y)%Z eqn:?; zbool; [lia|done].
  - assert (x = y) as -> by lia. rewrite Z.eqb_refl. intros. f_equal. auto.
Qed.

Section facts.
Context (keccak256 : bytes → bytes).
Implicit Types (tree leaves : list Hash).
Notation hash_pair := (hash_pair keccak256).

Lemma hash_pair_comm a b : hash_pair a b = hash_pair b a.
Proof.
  unfold Merkle.hash_pair. destruct (bytes_leb a b) eqn:H1, (bytes_leb b a) eqn:H2; try done.
  - by rewrite (bytes_leb_antisym a b).
  - by rewrite (bytes_leb_total a b) in H2.
Qed.

(** A tree in which every inner node is the hash of its two children. *)
Definition valid_tree tree : Prop :=
  Nat.odd (length tree) = true ∧
  ∀ i a b, tree !! left_child_index i = Some a → tree !! right_child_index i = Some b →
           tree !! i = Some (hash_pair a b).

Lemma is_valid_merkle_tree_spec tree : is_valid_merkle_tree keccak256 tree = true ↔ valid_tree tree.
Proof.
  unfold is_valid_merkle_tree, valid_tree. rewrite andb_true_iff, forallb_forall. split.
  - intros [Hall Hne]. apply negb_true_iff, Nat.eqb_neq in Hne.
    assert (∀ i n, tree !! i = Some n → is_valid_node keccak256 tree i n = true) as Hv.
    { intros i n Hi. apply (Hall (i, n)). apply list_elem_of_In, elem_of_lookup_imap. eauto. }
    split.
    + destruct (Nat.Even_or_Odd (length tree)) as [[k Hk]|Hodd]; [|by apply Nat.odd_spec].
      destruct (lookup_lt_is_Some_2 tree (k - 1) ltac:(lia)) as [n Hn].
      apply Hv in Hn. unfold is_valid_node, left_child_index, right_child_index in Hn.
      rewrite (proj2 (Nat.leb_le _ _)) in Hn by lia.
      by rewrite (proj2 (Nat.ltb_lt _ _)) in Hn by lia.
    + intros i a b Ha Hb. pose proof (lookup_lt_Some _ _ _ Hb).
      destruct (lookup_lt_is_Some_2 tree i) as [n Hn]; [unfold right_child_index in *; lia|].
      specialize (Hv _ _ Hn). unfold is_valid_node in Hv.
      rewrite (proj2 (Nat.leb_gt _ _)), Ha, Hb in Hv by done.
      apply bool_decide_eq_true in Hv. by subst.
  - intros [Hodd Hv]. split.
    + intros [i n] (i' & n' & [= <- <-] & Hi)%list_elem_of_In%elem_of_lookup_imap. simpl.
      unfold is_valid_node. apply Nat.odd_spec in Hodd as [k Hk].
      destruct (length tree <=? right_child_index i) eqn:Hr.
      * apply Nat.leb_le in Hr. apply negb_true_iff, Nat.ltb_ge.
        unfold left_child_index, right_child_index in *. lia.
      * apply Nat.leb_gt in Hr.
        destruct (lookup_lt_is_Some_2 tree (right_child_index i) Hr) as [b Hb].
        destruct (lookup_lt_is_Some_2 tree (left_child_index i)) as [a Ha];
          [unfold left_child_index, right_child_index in *; lia|].
        rewrite Ha, Hb. apply bool_decide_eq_true. specialize (Hv i a b Ha Hb). congruence.
    + destruct tree; [done|]. done.
Qed.

(** The step towards the root. *)
Lemma valid_tree_step tree i a : valid_tree tree → 0 < i → tree !! i = Some a →
  ∃ b, tree !! sibling i = Some b ∧ tree !! parent i = Some (hash_pair a b).
Proof.
  intros [Hodd Hv] Hi Ha. pose proof (lookup_lt_Some _ _ _ Ha) as Hlt.
  apply Nat.odd_spec in Hodd as [k Hk].
  destruct (index_cases i Hi) as [(p & -> & -> & ->)|(p & -> & -> & ->)].
  - destruct (lookup_lt_is_Some_2 tree (right_child_index p)) as [b Hb];
      [unfold left_child_index, right_child_index in *; lia|]. eauto.
  - destruct (lookup_lt_is_Some_2 tree (left_child_index p)) as [b Hb];
      [unfold left_child_index, right_child_index in *; lia|].
    exists b. split; [done|]. rewrite hash_pair_comm. eauto.
Qed.

(** *** Building *)

Lemma place_leaves_lookup (m c : nat) leaves tree j :
  c + length leaves <= m + 1 → m < length tree →
  foldl (λ t p, <[m - p.1 := p.2]> t) tree (imap (λ k, pair (c + k)) leaves) !! j =
  (if decide (m + 1 - (c + length leaves) <= j <= m - c ∧ leaves ≠ [])
   then leaves !! (m - c - j) else tree !! j).
Proof.
  revert c tree. induction leaves as [|x leaves IH]; intros c tree Hc Hm; simpl.
  { by rewrite decide_False by naive_solver. }
  simpl in Hc. rewrite Nat.add_0_r.
  rewrite (imap_ext _ (λ k, pair (S c + k))) by (intros; simpl; f_equal; lia).
  rewrite IH by (rewrite ?length_insert; lia).
  destruct (decide (j = m - c)) as [->|Hj].
  - rewrite (decide_True (P := m + 1 - (c + S (length leaves)) <= m - c <= m - c ∧ _)) by (split; [lia|done]).
    rewrite decide_False by (intros [? ?]; destruct leaves; [done|simpl in *; lia]).
    rewrite list_lookup_insert_eq by lia. by replace (m - c - (m - c)) with 0 by lia.
  - rewrite list_lookup_insert_ne by lia. repeat case_decide; try done.
    + replace (m - c - j) with (S (m - S c - j)) by lia. done.
    + naive_solver lia.
    + destruct leaves; [simpl in *; lia|]. exfalso. apply H. split; [|done]. simpl in *. lia.
Qed.
Lemma place_leaves_length (m c : nat) leaves tree :
  length (foldl (λ t p, <[m - p.1 := p.2]> t) tree (imap (λ k, pair (c + k)) leaves)) = length tree.
Proof.
  revert c tree. induction leaves as [|x leaves IH]; intros c tree; simpl; [done|].
  rewrite (imap_ext _ (λ k, pair (S c + k))) by (intros; simpl; f_equal; lia).
  by rewrite IH, length_insert.
Qed.

(** Nodes from [k] on are hashes of their children; the rest is still to do. *)
Definition filled_from (k n : nat) tree : Prop :=
  length tree = 2 * n - 1 ∧
  ∀ i a b, k <= i → tree !! left_child_index i = Some a → tree !! right_child_index i = Some b →
           tree !! i = Some (hash_pair a b).

Lemma fill_nodes_ok k n tree :
  k <= n - 1 → filled_from k n tree →
  ∃ tree', foldl (fill_node keccak256) (Ok tree) (reverse (seq 0 k)) = Ok tree' ∧ filled_from 0 n tree' ∧
    ∀ i, k <= i → tree' !! i = tree !! i.
Proof.
  revert tree. induction k as [|k IH]; intros tree Hk [Hlen Hf].
  { exists tree. split; [done|]. by split. }
  rewrite seq_S, reverse_snoc. cbn [foldl]. simpl.
  destruct (lookup_lt_is_Some_2 tree (left_child_index k)) as [a Ha]; [unfold left_child_index; lia|].
  destruct (lookup_lt_is_Some_2 tree (right_child_index k)) as [b Hb]; [unfold right_child_index; lia|].
  rewrite Ha, Hb. simpl.
  destruct (IH (<[k:=hash_pair a b]> tree)) as (tree' & Hrun & Hfill & Hsame); [lia| |].
  - split; [by rewrite length_insert|]. intros i a' b' Hi.
    unfold left_child_index, right_child_index in *. rewrite !list_lookup_insert_ne by lia.
    intros Ha' Hb'. destruct (decide (i = k)) as [->|].
    + rewrite list_lookup_insert_eq by lia. congruence.
    + rewrite list_lookup_insert_ne by lia. apply Hf; [lia|done..].
  - exists tree'. split; [done|]. split; [done|]. intros i Hi. rewrite Hsame by lia.
    by rewrite list_lookup_insert_ne by lia.
Qed.

Lemma make_merkle_tree_ok leaves : leaves ≠ [] →
  ∃ tree, make_merkle_tree keccak256 leaves = Ok tree ∧ valid_tree tree ∧
    length tree = 2 * length leaves - 1 ∧
    ∀ k x, leaves !! k = Some x → tree !! (length tree - 1 - k) = Some x.
Proof.
  intros Hne. assert (0 < length leaves) as Hpos by (destruct leaves; [done|simpl; lia]).
  unfold make_merkle_tree. destruct leaves as [|x0 rest] eqn:El; [done|]. rewrite <- El in *. clear x0 rest El Hne.
  set (n := length leaves) in *. set (len := 2 * n - 1).
  set (start := foldl (λ t p, _) _ _).
  assert (∀ j, start !! j = if decide (n - 1 <= j <= len - 1) then leaves !! (len - 1 - j)
                            else replicate len (replicate 32 0%Z) !! j) as Hstart.
  { intros j. unfold start. rewrite (imap_ext _ (λ k, pair (0 + k))) by done.
    rewrite place_leaves_lookup by (rewrite ?length_replicate; fold n; lia). fold n.
    assert (leaves ≠ []) by (intros ->; simpl in *; lia).
    repeat case_decide; try done; [|naive_solver lia..]. f_equal. lia. }
  assert (length start = len) as Hlen.
  { unfold start. rewrite (imap_ext _ (λ k, pair (0 + k))) by done.
    by rewrite place_leaves_length, length_replicate. }
  destruct (fill_nodes_ok (len - n) n start) as (tree & Hrun & [Hl Hf] & Hsame); [lia| |].
  { split; [lia|]. intros i a b Hi _ Hb%lookup_lt_Some. unfold right_child_index in Hb. lia. }
  exists tree. split; [done|]. split; [|split; [done|]].
  - split; [|intros; eapply Hf; eauto; lia].
    rewrite Hl. apply Nat.odd_spec. exists (n - 1). lia.
  - intros k x Hk. pose proof (lookup_lt_Some _ _ _ Hk). fold n in H.
    rewrite Hsame by lia. rewrite Hstart, decide_True by lia. rewrite <- Hk. f_equal. lia.
Qed.

(** *** Proofs of one leaf *)

Lemma get_proof_loop_ok tree i a :
  valid_tree tree → (Z.of_nat (length tree) <= I32_MAX)%Z → tree !! i = Some a →
  ∃ proof, get_proof_loop tree i = Ok proof ∧ Some (process_proof keccak256 a proof) = tree !! 0.
Proof.
  intros Hv Hmax. revert a. induction (lt_wf i) as [i _ IH]. intros a Ha.
  destruct i as [|j]; simp get_proof_loop; [by exists []|].
  pose proof (lookup_lt_Some _ _ _ Ha) as Hlt.
  destruct (sibling_index_ok (S j) (length tree)) as [-> _]; [lia|done|apply Hv|done|].
  destruct (valid_tree_step tree (S j) a Hv ltac:(lia) Ha) as (b & Hb & Hp).
  simpl. rewrite (node_ok _ _ _ Hb). simpl.
  destruct (IH _ (parent_lt (S j) ltac:(lia)) _ Hp) as (proof & -> & Hroot). simpl. eauto.
Qed.

Lemma get_proof_ok tree i a :
  valid_tree tree → (Z.of_nat (length tree) <= I32_MAX)%Z → tree !! i = Some a → is_leaf_node tree i = true →
  ∃ proof, get_proof tree i = Ok proof ∧ Some (process_proof keccak256 a proof) = tree !! 0.
Proof.
  intros Hv Hmax Ha Hleaf. unfold get_proof, check_leaf_node. rewrite Hleaf. simpl.
  by apply get_proof_loop_ok.
Qed.

(** *** Multiproofs *)

(** The queue is strictly decreasing, and every parent is still below all of it. *)
Definition queue_ok (stack : list nat) : Prop :=
  StronglySorted gt stack ∧ ∀ x y, x ∈ stack → y ∈ stack → 0 < y → parent y < x.

Lemma StronglySorted_snoc {A} (R : A → A → Prop) l x :
  StronglySorted R l → Forall (λ y, R y x) l → StronglySorted R (l ++ [x]).
Proof.
  induction 1 as [|y l Hl IH Hy]; inversion_clear 1; simpl; constructor; auto.
  - constructor.
  - apply Forall_app. auto.
Qed.

Lemma queue_step j stack stack' : queue_ok (j :: stack) → 0 < j →
  stack' `sublist_of` stack → sibling j ∉ stack' → queue_ok (stack' ++ [parent j]).
Proof.
  intros [Hs Hq] Hj Hsub Hsib. apply StronglySorted_inv in Hs as [Hs Hlt].
  rewrite Forall_forall in Hlt.
  assert (∀ x, x ∈ stack' → x ∈ stack) as Hin by (intros x ?; by eapply elem_of_sublist).
  split.
  - apply StronglySorted_snoc; [|apply Forall_forall; intros x ?; apply Hq; [right; auto|left|done]].
    clear -Hs Hsub. induction Hsub as [|x l1 l2 ? IH|x l1 l2 ? IH]; [constructor| |].
    + apply StronglySorted_inv in Hs as [Hs Hx]. constructor; [auto|].
      rewrite Forall_forall in *. intros y Hy. apply Hx. eapply elem_of_sublist; eauto.
    + apply StronglySorted_inv in Hs as [Hs _]. auto.
  - intros x y Hx Hy Hy0. apply elem_of_app in Hx as [Hx|Hx%list_elem_of_singleton];
      apply elem_of_app in Hy as [Hy|Hy%list_elem_of_singleton]; subst.
    + apply Hq; [right; auto..|done].
    + apply (Nat.lt_trans _ (parent j)); [by apply parent_lt|]. apply Hq; [right; auto|left|done].
    + specialize (Hlt y (Hin _ Hy)). assert (parent y <= parent j) by (apply parent_mono; lia).
      assert (parent y ≠ parent j); [|lia]. intros Heq. apply Hsib.
      by rewrite <- (parent_eq y j) by (done || lia).
    + by apply parent_lt.
Qed.

Lemma queue_head_zero stack : queue_ok (0 :: stack) → stack = [].
Proof.
  intros [Hs _]. apply StronglySorted_inv in Hs as [_ Hlt]. destruct stack; [done|].
  inversion_clear Hlt. lia.
Qed.

(** When the sibling is still in the queue it comes first. *)
Lemma queue_sibling_head j stack : queue_ok (j :: stack) → 0 < j → sibling j ∈ stack →
  ∃ rest, stack = sibling j :: rest ∧ sibling j ∉ rest.
Proof.
  intros [Hs Hq] Hj Hin. apply StronglySorted_inv in Hs as [Hs Hlt]. rewrite Forall_forall in Hlt.
  destruct stack as [|k rest]; [by apply elem_of_nil in Hin|].
  apply StronglySorted_inv in Hs as [_ Hk]. rewrite Forall_forall in Hk.
  assert (k < j) by (apply Hlt; left). specialize (Hlt _ Hin).
  assert (sibling j = j - 1) as Hsib.
  { destruct (index_cases j Hj) as [(p & -> & _ & Es)|(p & -> & _ & Es)]; rewrite Es in *;
      unfold left_child_index, right_child_index in *; lia. }
  apply elem_of_cons in Hin as [->|Hin]; [|specialize (Hk _ Hin); lia].
  exists rest. split; [done|]. intros Hr. specialize (Hk _ Hr). lia.
Qed.

(** The verifier follows the prover: with the nodes of the queue it computes the root. *)
Lemma multi_proof_loop_ok tree stack nodes :
  valid_tree tree → (Z.of_nat (length tree) <= I32_MAX)%Z → queue_ok stack → stack ≠ [] →
  Forall2 (λ i n, tree !! i = Some n) stack nodes →
  ∃ proof flags root, multi_proof_loop tree stack = Ok (proof, flags) ∧ tree !! 0 = Some root ∧
    combine_nodes keccak256 nodes proof flags = Ok ([root], []) ∧
    length proof = length (filter (λ b, b = false) flags) ∧
    length stack + length proof = length flags + 1.
Proof.
  intros Hv Hmax. remember (sum_list stack) as m eqn:Hm. revert stack nodes Hm.
  induction (lt_wf m) as [m _ IH]. intros stack nodes -> Hq Hne Hnodes. destruct stack as [|[|i] stack]; [done|..].
  { apply queue_head_zero in Hq as ->. simp multi_proof_loop.
    inversion_clear Hnodes as [|? root ? ? Hroot Hnil]. inversion_clear Hnil.
    exists [], [], root. done. }
  set (j := S i) in *. assert (0 < j) as Hj by lia.
  inversion_clear Hnodes as [|? a ? rest Ha Hrest].
  pose proof (lookup_lt_Some _ _ _ Ha) as Hlt.
  destruct (sibling_index_ok j (length tree)) as [Hsi Hslt]; [done|done|apply Hv|done|].
  destruct (valid_tree_step tree j a Hv Hj Ha) as (b & Hb & Hp).
  unfold j. simp multi_proof_loop. fold j. rewrite Hsi. simpl.
  assert (∀ l, sum_list l <= sum_list stack → sum_list (l ++ [parent j]) < sum_list (j :: stack)) as Hdec.
  { intros l Hl. rewrite sum_list_with_app. simpl. pose proof (parent_lt j Hj). lia. }
  case_bool_decide as Hhead.
  - destruct stack as [|k stack]; [done|]. simpl in Hhead. injection Hhead as Hhead.
    assert (k = sibling j) as -> by lia. simpl.
    destruct (queue_sibling_head j (sibling j :: stack) Hq Hj ltac:(left)) as (? & [= <-] & Hnin).
    inversion_clear Hrest as [|? b' ? rest' Hb' Hrest']. assert (b' = b) as -> by congruence.
    destruct (IH _ (Hdec stack ltac:(simpl; lia)) (stack ++ [parent j]) (rest' ++ [hash_pair a b]) eq_refl)
      as (proof & flags & root & Hl & Hroot & Hc & Hcount & Hlen).
    + eapply queue_step; [done..| |done]. by apply sublist_cons.
    + by destruct stack.
    + apply Forall2_app; [done|]. by repeat constructor.
    + rewrite Hl. simpl. exists proof, (true :: flags), root. repeat split; try done.
      rewrite length_app in Hlen. simpl in *. lia.
  - assert (sibling j ∉ stack) as Hnin.
    { intros Hin. destruct (queue_sibling_head j stack Hq Hj Hin) as (? & -> & _). by apply Hhead. }
    rewrite (node_ok _ _ _ Hb). simpl.
    destruct (IH _ (Hdec stack ltac:(done)) (stack ++ [parent j]) (rest ++ [hash_pair a b]) eq_refl)
      as (proof & flags & root & Hl & Hroot & Hc & Hcount & Hlen).
    + by eapply queue_step.
    + by destruct stack.
    + apply Forall2_app; [done|]. by repeat constructor.
    + rewrite Hl. simpl. exists (b :: proof), (false :: flags), root. repeat split; try done.
      * simpl. by rewrite Hcount.
      * rewrite length_app in Hlen. simpl in *. lia.
Qed.

Lemma leaf_queue tree stack :
  (∀ i, i ∈ stack → is_leaf_node tree i = true) → StronglySorted gt stack → queue_ok stack.
Proof.
  intros Hleaf Hs. split; [done|]. intros x y Hx%Hleaf Hy%Hleaf Hy0.
  unfold is_leaf_node, is_internal_node, is_tree_node, left_child_index in Hx, Hy.
  apply andb_true_iff in Hx as [Hx1%Nat.ltb_lt Hx2%negb_true_iff%Nat.ltb_ge].
  apply andb_true_iff in Hy as [Hy1%Nat.ltb_lt Hy2%negb_true_iff%Nat.ltb_ge].
  unfold parent. apply Nat.Div0.div_lt_upper_bound. lia.
Qed.

Lemma check_leaf_nodes_ok tree indices :
  (∀ i, i ∈ indices → is_leaf_node tree i = true) → check_leaf_nodes tree indices = Ok tt.
Proof.
  induction indices as [|i l IH]; intros Hl; [done|]. simpl. unfold check_leaf_node.
  rewrite Hl by left. simpl. apply IH. intros. apply Hl. by right.
Qed.

Lemma sorted_equal_neighbours l : StronglySorted ge l →
  if has_equal_neighbours l then ¬ NoDup l else StronglySorted gt l.
Proof.
  induction 1 as [|x l Hl IH Hx]; [constructor|]. destruct l as [|y l]; [by repeat constructor|].
  change (has_equal_neighbours (x :: y :: l)) with ((x =? y) || has_equal_neighbours (y :: l)).
  destruct (x =? y) eqn:Hxy; cbn [orb].
  - apply Nat.eqb_eq in Hxy as ->. intros [Hn _]%NoDup_cons. apply Hn. left.
  - destruct (has_equal_neighbours (y :: l)).
    + by intros [_ ?]%NoDup_cons.
    + constructor; [done|]. apply Nat.eqb_neq in Hxy. inversion_clear Hx as [|? ? Hy _].
      apply StronglySorted_inv in IH as [_ IH].
      constructor; [lia|]. eapply Forall_impl; [done|]. simpl. lia.
Qed.

Lemma lookup_all tree (indices : list nat) : (∀ i, i ∈ indices → i < length tree) →
  ∃ nodes, mapM (λ i, tree !! i) indices = Some nodes ∧ Forall2 (λ i n, tree !! i = Some n) indices nodes.
Proof.
  intros Hl. destruct (mapM (λ i, tree !! i) indices) as [nodes|] eqn:E.
  - exists nodes. split; [done|]. by apply mapM_Some.
  - apply mapM_None, Exists_exists in E as (i & Hi & Hn).
    apply lookup_ge_None in Hn. specialize (Hl i Hi). lia.
Qed.

Lemma get_multi_proof_ok tree indices :
  valid_tree tree → (Z.of_nat (length tree) <= I32_MAX)%Z →
  (∀ i, i ∈ indices → is_leaf_node tree i = true) → NoDup indices →
  ∃ p root, get_multi_proof tree indices = Ok p ∧ tree !! 0 = Some root ∧
    process_multi_proof keccak256 p = Ok root ∧
    Forall2 (λ i n, tree !! i = Some n) (merge_sort ge indices) (mp_leaves p).
Proof.
  intros Hv Hmax Hleaf Hnd. unfold get_multi_proof. rewrite check_leaf_nodes_ok by done.
  cbn [mbind outcome_bind].
  pose proof (merge_sort_Permutation ge indices) as Hperm.
  assert (StronglySorted ge (merge_sort ge indices)) as Hsort.
  { apply StronglySorted_merge_sort; [intros ???; lia|]. intros x y. unfold ge. lia. }
  set (l := merge_sort ge indices) in *. assert (NoDup l) as Hnd' by by rewrite Hperm.
  apply sorted_equal_neighbours in Hsort. destruct (has_equal_neighbours l); [done|].
  assert (∀ i, i ∈ l → is_leaf_node tree i = true) as Hleaf'.
  { intros i Hi. apply Hleaf. by rewrite <- Hperm. }
  destruct (lookup_all tree l) as (nodes & Hm & Hn).
  { intros i Hi%Hleaf'. apply andb_true_iff in Hi as [Hi _]. by apply Nat.ltb_lt. }
  destruct l as [|j l'] eqn:El.
  - destruct (lookup_lt_is_Some_2 tree 0) as [root Hroot].
    { destruct Hv as [Hodd _]. destruct tree; [done|simpl; lia]. }
    simp multi_proof_loop. simpl. rewrite Hroot. simpl. eexists _, root. repeat split. constructor.
  - rewrite <- El in *. destruct (multi_proof_loop_ok tree l nodes) as (proof & flags & root & Hrun & Hroot & Hc & Hcount & Hlen);
      [done|done|by eapply leaf_queue|by rewrite El|done|].
    rewrite Hrun, El, <- El. cbn [mbind outcome_bind fst snd]. rewrite Hm. cbn [unwrap mbind outcome_bind].
    eexists _, root. split; [done|]. split; [done|]. split; [|done].
    unfold process_multi_proof. cbn [mp_leaves mp_proof proof_flags].
    rewrite <- Hcount, Nat.ltb_irrefl. rewrite <- (Forall2_length _ _ _ Hn), Hlen, Nat.eqb_refl. cbn [negb].
    by rewrite Hc.
Qed.

(** *** Soundness *)

Definition collision : Prop := ∃ x y, x ≠ y ∧ keccak256 x = keccak256 y.

Lemma keccak_inv x y : keccak256 x = keccak256 y → x = y ∨ collision.
Proof. intros. destruct (decide (x = y)); [by left|right; by exists x, y]. Qed.

Lemma hash_pair_inv n a b c d : length a = n → length b = n → length c = n → length d = n →
  hash_pair a b = hash_pair c d → a = c ∨ a = d ∨ collision.
Proof.
  intros ???? [Heq|]%keccak_inv; [|by auto].
  destruct (bytes_leb a b), (bytes_leb c d); apply app_inj_1 in Heq as [??]; try congruence; auto; lia.
Qed.
Lemma hash_pair_length x a b : length a = 32 → length b = 32 → keccak256 x = hash_pair a b →
  length x = 64 ∨ collision.
Proof.
  intros ?? [->|]%keccak_inv; [left|by right]. destruct (bytes_leb a b); rewrite length_app; lia.
Qed.

(** Nodes of a tree over hashed leaves have 32 bytes. *)
Definition hashed_leaves tree : Prop :=
  ∀ i n, is_leaf_node tree i = true → tree !! i = Some n → ∃ e, length e = 32 ∧ n = keccak256 e.

Lemma node_hash tree i n : (∀ x, length (keccak256 x) = 32) → valid_tree tree → hashed_leaves tree →
  tree !! i = Some n →
  is_leaf_node tree i = true ∧ (∃ e, length e = 32 ∧ n = keccak256 e) ∨
  ∃ a b, tree !! left_child_index i = Some a ∧ tree !! right_child_index i = Some b ∧ n = hash_pair a b.
Proof.
  intros H32 [Hodd Hv] Hleaf Hn. destruct (is_leaf_node tree i) eqn:Hl; [left; eauto|right].
  pose proof (lookup_lt_Some _ _ _ Hn) as Hlt.
  unfold is_leaf_node, is_internal_node, is_tree_node in Hl.
  rewrite (proj2 (Nat.ltb_lt i _)) in Hl by done. apply negb_false_iff, Nat.ltb_lt in Hl.
  apply Nat.odd_spec in Hodd as [k Hk].
  destruct (lookup_lt_is_Some_2 tree _ Hl) as [a Ha].
  destruct (lookup_lt_is_Some_2 tree (right_child_index i)) as [b Hb];
    [unfold left_child_index, right_child_index in *; lia|].
  exists a, b. split; [done|]. split; [done|]. specialize (Hv _ _ _ Ha Hb). congruence.
Qed.
Lemma node_length tree i n : (∀ x, length (keccak256 x) = 32) → valid_tree tree → hashed_leaves tree →
  tree !! i = Some n → length n = 32.
Proof.
  intros H32 Hv Hl Hn. destruct (node_hash tree i n H32 Hv Hl Hn) as [(_ & e & _ & ->)|(a & b & _ & _ & ->)]; apply H32.
Qed.

Lemma process_proof_sound tree leaf proof i :
  (∀ x, length (keccak256 x) = 32) → valid_tree tree → hashed_leaves tree →
  (∃ e, length e = 32 ∧ leaf = keccak256 e) → Forall (λ h, length h = 32) proof →
  tree !! i = Some (process_proof keccak256 leaf proof) →
  (∃ k, is_leaf_node tree k = true ∧ tree !! k = Some leaf) ∨ collision.
Proof.
  intros H32 Hv Hh (e & He & ->). revert i.
  induction proof as [|s proof IH] using rev_ind; intros i Hp Hi.
  - simpl in Hi. destruct (node_hash tree i _ H32 Hv Hh Hi) as [(Hleaf & _)|(a & b & Ha & Hb & Heq)]; [eauto|].
    apply hash_pair_length in Heq as [?|?]; [lia|by right|by eapply node_length..].
  - apply Forall_app in Hp as [Hp Hs]. inversion_clear Hs as [|? ? Hs' _].
    unfold process_proof in Hi. rewrite foldl_app in Hi. simpl in Hi.
    change (foldl (Merkle.hash_pair keccak256)) with (process_proof keccak256) in Hi.
    set (v := process_proof keccak256 (keccak256 e) proof) in *.
    assert (length v = 32) as Hvl.
    { unfold v, process_proof. destruct proof as [|x proof'] using rev_ind; [apply H32|].
      rewrite foldl_app. apply H32. }
    destruct (node_hash tree i _ H32 Hv Hh Hi) as [(_ & e' & He' & Heq)|(a & b & Ha & Hb & Heq)].
    + symmetry in Heq. apply hash_pair_length in Heq as [?|?]; [lia|by right|done..].
    + apply (hash_pair_inv 32) in Heq as [->|[->|?]]; [eauto|eauto|by right|done|done|by eapply node_length..].
Qed.
End facts.

(** ** Facts about trees of values *)

Lemma substring_all s : String.substring 0 (String.length s) s = s.
Proof. induction s as [|c s IH]; simpl; [done|]. by rewrite IH. Qed.
Lemma substring_0x s : String.substring 2 (String.length ("0x" ++ s) - 2) ("0x" ++ s) = s.
Proof.
  change (String.substring 0 (String.length s - 0) s = s). rewrite Nat.sub_0_r. apply substring_all.
Qed.

Section standard_facts.
Context (keccak256 : bytes → bytes).
Context {ParamType Token : Type} (read : string → outcome string ParamType)
  (tokenize : ParamType → string → outcome string Token) (abi_encode : list Token → bytes).
Context {Out : Type} (format : Hash → Out).
Notation leaf_hash := (standard_leaf_hash keccak256 read tokenize abi_encode).
Notation of_values := (of_values keccak256 read tokenize abi_encode).

(** What holds of a tree made by [of]: nodes, values and lookup table agree. *)
Record tree_ok (t : StandardMerkleTree) : Prop := {
  ok_valid : valid_tree keccak256 (nodes t);
  ok_values k v : values t !! k = Some v → ∃ h, leaf_hash (v_value v) (leaf_encoding t) = Ok h ∧
    nodes t !! tree_index v = Some h ∧ is_leaf_node (nodes t) (tree_index v) = true ∧ is_Some (hash_lookup t !! h);
  ok_lookup h k : hash_lookup t !! h = Some k → ∃ v, values t !! k = Some v ∧
    leaf_hash (v_value v) (leaf_encoding t) = Ok h;
  ok_leaves i : is_leaf_node (nodes t) i = true → ∃ k v, values t !! k = Some v ∧ tree_index v = i;
  ok_inj k1 k2 v1 v2 : values t !! k1 = Some v1 → values t !! k2 = Some v2 →
    tree_index v1 = tree_index v2 → k1 = k2;
}.

Lemma hash_values_ok enc i vals hs : hash_values keccak256 read tokenize abi_encode enc i vals = Ok hs →
  length hs = length vals ∧
  ∀ k v, vals !! k = Some v → ∃ h, hs !! k = Some (mkHashedValues v (i + k) h) ∧ leaf_hash v enc = Ok h.
Proof.
  revert i hs. induction vals as [|v vals IH]; intros i hs; simpl; [by intros [= <-]|].
  destruct (leaf_hash v enc) as [h| | |] eqn:Hh; simpl; try done.
  destruct (hash_values _ _ _ _ enc (S i) vals) as [hs'| | |] eqn:Hr; simpl; try done.
  intros [= <-]. destruct (IH _ _ Hr) as [Hlen Hl]. split; [simpl; lia|].
  intros [|k] v'; simpl; [|intros Hk]; [intros [= <-]; rewrite Nat.add_0_r; eauto|].
  destruct (Hl _ _ Hk) as (h' & ? & ?). exists h'. by rewrite Nat.add_succ_r.
Qed.

Lemma index_hashes_ok enc i vs m m' :
  index_hashes keccak256 read tokenize abi_encode enc i vs m = Ok m' →
  (∀ h j, m' !! h = Some j → m !! h = Some j ∨
     ∃ k v, j = i + k ∧ vs !! k = Some v ∧ leaf_hash (v_value v) enc = Ok h) ∧
  (∀ h, is_Some (m !! h) → is_Some (m' !! h)) ∧
  ∀ k v, vs !! k = Some v → ∃ h, leaf_hash (v_value v) enc = Ok h ∧ is_Some (m' !! h).
Proof.
  revert i m. induction vs as [|v vs IH]; intros i m; simpl; [intros [= <-]; split_and!; [eauto|eauto|done]|].
  destruct (leaf_hash (v_value v) enc) as [h| | |] eqn:Hh; simpl; try done.
  intros (Hback & Hkeep & Hvs)%IH. split_and!.
  - intros h' j [Hm|(k & v' & -> & Hk & Hv')]%Hback.
    + apply lookup_insert_Some in Hm as [[<- <-]|[_ ?]]; [right|by left].
      exists 0, v. by rewrite Nat.add_0_r.
    + right. exists (S k), v'. by rewrite Nat.add_succ_r.
  - intros h' Hm. apply Hkeep. destruct (decide (h = h')) as [<-|].
    + rewrite lookup_insert_eq. eauto.
    + by rewrite lookup_insert_ne.
  - intros [|k] v'; simpl; [|apply Hvs]. intros [= <-]. exists h. split; [done|].
    apply Hkeep. rewrite lookup_insert_eq. eauto.
Qed.

Lemma set_indices_lookup len c l vs : NoDup (value_index <$> l) →
  let vs' := foldl (set_tree_index len) vs (imap (λ j, pair (c + j)) l) in
  (∀ p hv, l !! p = Some hv → vs' !! value_index hv =
     (λ v, mkValues (v_value v) (len - (c + p) - 1)) <$> vs !! value_index hv) ∧
  (∀ k, k ∉ value_index <$> l → vs' !! k = vs !! k).
Proof.
  revert c vs. induction l as [|hv l IH]; intros c vs Hnd; [done|]. cbn [imap foldl] in *.
  rewrite fmap_cons in Hnd. apply NoDup_cons in Hnd as [Hnin Hnd].
  rewrite (imap_ext (_ ∘ S) (λ j, pair (S c + j))) by (intros; simpl; f_equal; lia).
  destruct (IH (S c) (set_tree_index len vs (c + 0, hv)) Hnd) as [Hin Hout]. split.
  - intros [|p] hv' Hp.
    + injection Hp as <-. rewrite Hout by done. unfold set_tree_index. cbn [fst snd].
      by rewrite list_lookup_alter_eq.
    + change (l !! p = Some hv') in Hp. rewrite (Hin _ _ Hp). unfold set_tree_index. cbn [fst snd].
      rewrite list_lookup_alter_ne; [by rewrite Nat.add_succ_r|].
      intros Heq. apply Hnin. apply list_elem_of_fmap. exists hv'. split; [done|].
      by eapply list_elem_of_lookup_2.
  - intros k Hk. rewrite Hout by set_solver. unfold set_tree_index. cbn [fst snd].
    apply list_lookup_alter_ne. set_solver.
Qed.

(** The sorted leaves: a permutation, with one entry per value. *)
Lemma sorted_leaves enc vals hs : hash_values keccak256 read tokenize abi_encode enc 0 vals = Ok hs →
  let sorted := merge_sort hash_le hs in
  length sorted = length vals ∧ NoDup (value_index <$> sorted) ∧
  (∀ k v, vals !! k = Some v → ∃ p h, sorted !! p = Some (mkHashedValues v k h) ∧ leaf_hash v enc = Ok h) ∧
  (∀ p hv, sorted !! p = Some hv → vals !! value_index hv = Some (hv_value hv)).
Proof.
  intros [Hlen Hl]%hash_values_ok sorted.
  pose proof (merge_sort_Permutation hash_le hs) as Hperm. fold sorted in Hperm.
  assert (value_index <$> hs = seq 0 (length hs)) as Hseq.
  { apply list_eq. intros k. rewrite list_lookup_fmap. destruct (vals !! k) as [v|] eqn:Hk.
    - destruct (Hl _ _ Hk) as (h & -> & _). apply lookup_lt_Some in Hk.
      symmetry. apply lookup_seq. simpl. lia.
    - apply lookup_ge_None in Hk. rewrite (proj2 (lookup_ge_None hs k)) by lia.
      symmetry. apply lookup_ge_None. rewrite length_seq. lia. }
  split_and!.
  - by rewrite Hperm.
  - rewrite Hperm, Hseq. apply NoDup_seq.
  - intros k v (h & Hk & Hh)%Hl. apply list_elem_of_lookup_2 in Hk. rewrite <- Hperm in Hk.
    apply list_elem_of_lookup_1 in Hk as [p Hp]. eauto.
  - intros p hv Hp%list_elem_of_lookup_2. rewrite Hperm in Hp.
    apply list_elem_of_lookup_1 in Hp as [k Hk]. pose proof (lookup_lt_Some _ _ _ Hk).
    destruct (lookup_lt_is_Some_2 vals k) as [v Hv]; [lia|].
    destruct (Hl _ _ Hv) as (h & Hk' & _). rewrite Hk in Hk'. injection Hk' as ->. done.
Qed.

(** The values of the tree, with the place of their leaves. *)
Lemma indexed_values_lookup (len : nat) vals sorted k v' :
  NoDup (value_index <$> sorted) →
  (∀ k v, vals !! k = Some v → ∃ p h, sorted !! p = Some (mkHashedValues v k h)) →
  foldl (set_tree_index len) ((λ v, mkValues v 0) <$> vals) (imap pair sorted) !! k = Some v' ↔
  ∃ v p h, vals !! k = Some v ∧ sorted !! p = Some (mkHashedValues v k h) ∧ v' = mkValues v (len - p - 1).
Proof.
  intros Hnd Hv.
  destruct (set_indices_lookup len 0 sorted ((λ v, mkValues v 0) <$> vals) Hnd) as [Hin Hout].
  rewrite (imap_ext pair (λ j, pair (0 + j))) by done. split.
  - intros Hk. destruct (vals !! k) as [v|] eqn:Ev.
    + destruct (Hv _ _ Ev) as (p & h & Hp). specialize (Hin _ _ Hp). cbn [value_index] in Hin.
      rewrite Hin, list_lookup_fmap, Ev in Hk. injection Hk as <-. eauto 10.
    + exfalso. destruct (decide (k ∈ value_index <$> sorted)) as [Hk'|Hk'].
      * apply list_elem_of_fmap in Hk' as (hv & -> & [p Hp]%list_elem_of_lookup_1).
        by rewrite (Hin _ _ Hp), list_lookup_fmap, Ev in Hk.
      * by rewrite (Hout _ Hk'), list_lookup_fmap, Ev in Hk.
  - intros (v & p & h & Ev & Hp & ->). specialize (Hin _ _ Hp). cbn [value_index] in Hin.
    by rewrite Hin, list_lookup_fmap, Ev.
Qed.

Lemma of_values_ok vals enc t : of_values vals enc = Ok t →
  tree_ok t ∧ leaf_encoding t = enc ∧
  (∀ k v, vals !! k = Some v ↔ ∃ v', values t !! k = Some v' ∧ v_value v' = v).
Proof.
  unfold Merkle.of_values. intros (hs & Hhs & Hof)%bind_Ok.
  destruct (sorted_leaves _ _ _ Hhs) as (Hlen & Hnd & Hfwd & Hback).
  set (sorted := merge_sort hash_le hs) in *.
  apply bind_Ok in Hof as (tree & Htree & (lookup & Hlk & [= <-])%bind_Ok).
  assert (hv_hash <$> sorted ≠ []) as Hne by (intros Hn; by rewrite Hn in Htree).
  destruct (make_merkle_tree_ok keccak256 _ Hne) as (tree' & Htree' & Hvalid & Hlen' & Hleaf).
  assert (tree' = tree) as -> by congruence. clear Htree Htree'. rewrite length_fmap in Hlen'.
  assert (0 < length sorted) by (destruct sorted; [done|simpl; lia]).
  set (vs := foldl _ _ _) in *.
  assert (∀ k v', vs !! k = Some v' ↔ ∃ v p h, vals !! k = Some v ∧
            sorted !! p = Some (mkHashedValues v k h) ∧ v' = mkValues v (length tree - p - 1)) as Hvs.
  { intros k v'. apply indexed_values_lookup; [done|]. intros k0 v Hk0. destruct (Hfwd _ _ Hk0) as (p & h & ? & _). eauto. }
  destruct (index_hashes_ok _ _ _ _ _ Hlk) as (Hmap & _ & Hall).
  split; [split|split]; cbn [nodes values leaf_encoding hash_lookup]; [done|..].
  - intros k v' Hk. destruct (Hall _ _ Hk) as (h & Hh & Hs). exists h. split; [done|].
    apply Hvs in Hk as (v & p & h' & Hv & Hp & ->). cbn [tree_index v_value] in *.
    destruct (Hfwd _ _ Hv) as (p' & h'' & Hp' & Hh'').
    assert (p' = p) as ->.
    { apply (NoDup_lookup _ _ _ k Hnd); rewrite list_lookup_fmap; [by rewrite Hp'|by rewrite Hp]. }
    assert (h' = h) as -> by congruence. pose proof (lookup_lt_Some _ _ _ Hp).
    split_and!; [|..|done].
    + replace (length tree - p - 1) with (length tree - 1 - p) by lia. apply Hleaf.
      by rewrite list_lookup_fmap, Hp.
    + unfold is_leaf_node, is_internal_node, is_tree_node, left_child_index. apply andb_true_iff.
      rewrite Nat.ltb_lt, negb_true_iff, Nat.ltb_ge. lia.
  - intros h k Hk. apply Hmap in Hk as [?|(k' & v & -> & Hv & Hh)]; [by rewrite lookup_empty in *|eauto].
  - intros i [Hi%Nat.ltb_lt Hi'%negb_true_iff%Nat.ltb_ge]%andb_true_iff. unfold left_child_index in Hi'.
    destruct (lookup_lt_is_Some_2 sorted (length tree - 1 - i)) as [hv Hhv]; [lia|].
    pose proof (Hback _ _ Hhv) as Hv. destruct hv as [v k h]. exists k, (mkValues v i). split; [|done].
    apply Hvs. exists v, (length tree - 1 - i), h. split_and!; [done..|f_equal; lia].
  - intros k1 k2 v1 v2 (w1 & p1 & h1 & _ & Hp1 & ->)%Hvs (w2 & p2 & h2 & _ & Hp2 & ->)%Hvs Heq.
    cbn [tree_index] in Heq. apply lookup_lt_Some in Hp1 as Hl1. apply lookup_lt_Some in Hp2 as Hl2.
    assert (p1 = p2) as -> by lia. congruence.
  - done.
  - intros k v. split.
    + intros Hv. destruct (Hfwd _ _ Hv) as (p & h & Hp & _). eexists. split; [apply Hvs; eauto 10|done].
    + intros (v' & (w & p & h & Hw & _ & ->)%Hvs & <-). done.
Qed.

Lemma validate_value_ok t k v : tree_ok t → values t !! k = Some v →
  validate_value keccak256 read tokenize abi_encode t k = Ok tt.
Proof.
  intros Hok Hk. destruct (ok_values t Hok k v Hk) as (h & Hh & Hn & _).
  unfold validate_value, check_bounds. pose proof (lookup_lt_Some _ _ _ Hk). pose proof (lookup_lt_Some _ _ _ Hn).
  rewrite (proj2 (Nat.leb_gt _ _)), Hk by done. simpl.
  rewrite (proj2 (Nat.leb_gt _ _)), Hh, Hn by done. simpl. by rewrite bool_decide_eq_true_2.
Qed.

Lemma tree_get_proof_ok t leaf k v : tree_ok t → (Z.of_nat (length (nodes t)) <= I32_MAX)%Z →
  value_index_of keccak256 read tokenize abi_encode t leaf = Ok k → values t !! k = Some v →
  ∃ h proof r, leaf_hash (v_value v) (leaf_encoding t) = Ok h ∧ nodes t !! 0 = Some r ∧
    tree_get_proof keccak256 read tokenize abi_encode format t leaf = Ok (format <$> proof) ∧
    process_proof keccak256 h proof = r.
Proof.
  intros Hok Hmax Hleaf Hk. destruct (ok_values t Hok k v Hk) as (h & Hh & Hn & Hl & _).
  destruct (get_proof_ok keccak256 (nodes t) _ _ (ok_valid t Hok) Hmax Hn Hl) as (proof & Hp & Hroot).
  exists h, proof, (process_proof keccak256 h proof). split_and!; [done|done| |done].
  unfold tree_get_proof. rewrite Hleaf. cbn [mbind outcome_bind]. rewrite (validate_value_ok t k v Hok Hk).
  cbn [mbind outcome_bind]. rewrite Hk. cbn [unwrap mbind outcome_bind]. rewrite Hp, Hn. simpl.
  rewrite <- Hroot. simpl. by rewrite bool_decide_eq_true_2.
Qed.

Lemma leaf_lookup_ok t k v : tree_ok t → values t !! k = Some v →
  ∃ k' v', leaf_lookup keccak256 read tokenize abi_encode t (v_value v) = Ok k' ∧ values t !! k' = Some v' ∧
    leaf_hash (v_value v') (leaf_encoding t) = leaf_hash (v_value v) (leaf_encoding t).
Proof.
  intros Hok Hk. destruct (ok_values t Hok k v Hk) as (h & Hh & _ & _ & [k' Hk']).
  destruct (ok_lookup t Hok h k' Hk') as (v' & Hv' & Hh').
  exists k', v'. unfold leaf_lookup. rewrite Hh. simpl. rewrite Hk'. split_and!; [done..|congruence].
Qed.

(** Every value has a proof.  In a tree made by [of], a proof asked for by the number
    of a value or by the value itself is returned, and folding it over the hash of the
    value gives the root; nodes are numbered within [i32], as the code requires. *)
Theorem value_proofs_verify vals enc t k v :
  of_values vals enc = Ok t → (Z.of_nat (length (nodes t)) <= I32_MAX)%Z → vals !! k = Some v →
  ∃ h proof proof' r, leaf_hash v enc = Ok h ∧ nodes t !! 0 = Some r ∧
    tree_get_proof keccak256 read tokenize abi_encode format t (Number k) = Ok (format <$> proof) ∧
    process_proof keccak256 h proof = r ∧
    tree_get_proof keccak256 read tokenize abi_encode format t (LeafBytes v) = Ok (format <$> proof') ∧
    process_proof keccak256 h proof' = r.
Proof.
  intros (Hok & <- & Hvals)%of_values_ok Hmax (v' & Hk & <-)%Hvals.
  destruct (tree_get_proof_ok t (Number k) k v' Hok Hmax eq_refl Hk) as (h & proof & r & Hh & Hr & Hp & Hv).
  destruct (leaf_lookup_ok t k v' Hok Hk) as (k' & w & Hl & Hk' & Hw).
  destruct (tree_get_proof_ok t (LeafBytes (v_value v')) k' w Hok Hmax Hl Hk')
    as (h' & proof' & r' & Hh' & Hr' & Hp' & Hv').
  exists h, proof, proof', r. assert (h' = h) as -> by congruence. assert (r' = r) as -> by congruence. done.
Qed.

(** C35. Only values have proofs.  If a proof leads from the hash of some data to the root of
    a tree made by [of], then one of the values of the tree has that hash, or two
    different inputs of Keccak with the same digest are at hand. *)
Theorem proofs_are_sound vals enc t v h proof r :
  (∀ x, length (keccak256 x) = 32) → of_values vals enc = Ok t → leaf_hash v enc = Ok h →
  Forall (λ n, length n = 32) proof → nodes t !! 0 = Some r → process_proof keccak256 h proof = r →
  (∃ k v', vals !! k = Some v' ∧ leaf_hash v' enc = Ok h) ∨ collision keccak256.
Proof.
  intros H32 (Hok & <- & Hvals)%of_values_ok Hh Hproof Hr <-.
  assert (hashed_leaves keccak256 (nodes t)) as Hhl.
  { intros i n Hi Hn. destruct (ok_leaves t Hok i Hi) as (k & w & Hk & <-).
    destruct (ok_values t Hok k w Hk) as (h' & Hh' & Hn' & _). assert (h' = n) as -> by congruence.
    unfold standard_leaf_hash in Hh'. apply bind_Ok in Hh' as (ts & _ & [= <-]). eauto. }
  destruct (process_proof_sound keccak256 (nodes t) h proof 0 H32 (ok_valid t Hok) Hhl) as [(i & Hi & Hn)|?]; [|done|done| |by right].
  - unfold standard_leaf_hash in Hh. apply bind_Ok in Hh as (ts & _ & [= <-]). eauto.
  - left. destruct (ok_leaves t Hok i Hi) as (k & w & Hk & <-).
    destruct (ok_values t Hok k w Hk) as (h' & Hh' & Hn' & _). exists k, (v_value w).
    split; [apply Hvals; eauto|congruence].
Qed.

Lemma collect_numbers t ks : collect_indices keccak256 read tokenize abi_encode t (Number <$> ks) = Ok ks.
Proof. induction ks as [|k ks IH]; [done|]. rewrite fmap_cons.
  cbn [collect_indices value_index_of mbind outcome_bind]. by rewrite IH. Qed.
Lemma validate_values_ok t ks : tree_ok t → (∀ k, k ∈ ks → k < length (values t)) →
  validate_values keccak256 read tokenize abi_encode t ks = Ok tt.
Proof.
  intros Hok. induction ks as [|k ks IH]; intros Hks; [done|]. simpl.
  destruct (lookup_lt_is_Some_2 (values t) k) as [v Hv]; [apply Hks; left|].
  rewrite (validate_value_ok t k v Hok Hv). simpl. apply IH. intros. apply Hks. by right.
Qed.

(** The places of chosen values: distinct leaves of the tree. *)
Lemma tree_indices_ok t ks : tree_ok t → (∀ k, k ∈ ks → k < length (values t)) → NoDup ks →
  ∃ idx, mapM (λ i, tree_index <$> values t !! i) ks = Some idx ∧ NoDup idx ∧
    Forall2 (λ k i, ∃ v, values t !! k = Some v ∧ tree_index v = i) ks idx.
Proof.
  intros Hok. induction ks as [|k ks IH]; intros Hks Hnd.
  { exists []. split_and!; [done|constructor..]. }
  apply NoDup_cons in Hnd as [Hk Hnd].
  destruct IH as (idx & Hidx & Hnd' & Hf); [intros; apply Hks; by right|done|].
  destruct (lookup_lt_is_Some_2 (values t) k) as [v Hv]; [apply Hks; left|].
  exists (tree_index v :: idx). simpl. rewrite Hv. simpl. rewrite Hidx. split_and!; [done| |].
  - apply NoDup_cons. split; [|done]. intros [p Hp]%list_elem_of_lookup_1.
    destruct (Forall2_lookup_r _ _ _ _ _ Hf Hp) as (k' & Hk' & w & Hw & Heq).
    rewrite (ok_inj t Hok k' k w v Hw Hv Heq) in Hk'. by apply Hk, (list_elem_of_lookup_2 _ p).
  - constructor; eauto.
Qed.

Lemma lookup_leaves t ns : tree_ok t →
  (∀ n, n ∈ ns → ∃ k v, values t !! k = Some v ∧ leaf_hash (v_value v) (leaf_encoding t) = Ok n) →
  ∃ leaves, mapM (λ leaf, index ← hash_lookup t !! leaf; v_value <$> values t !! index) ns = Some leaves ∧
    Forall2 (λ v h, leaf_hash v (leaf_encoding t) = Ok h) leaves ns.
Proof.
  intros Hok. induction ns as [|n ns IH]; intros Hns; [by exists []|].
  destruct IH as (leaves & Hm & Hf); [intros; apply Hns; by right|].
  destruct (Hns n) as (k & v & Hk & Hh); [left|].
  destruct (ok_values t Hok k v Hk) as (h & Hh' & _ & _ & [k' Hk']). assert (h = n) as -> by congruence.
  destruct (ok_lookup t Hok n k' Hk') as (w & Hw & Hh'').
  exists (v_value w :: leaves). simpl. rewrite Hk'. simpl. rewrite Hw. simpl. rewrite Hm. split; [done|].
  by constructor.
Qed.

Lemma Forall2_nodes (tree : list Hash) l ns : Forall2 (λ i n, tree !! i = Some n) l ns →
  ns = (λ i : nat, default [] (tree !! i)) <$> l.
Proof. induction 1 as [|i n l ns Hi _ IH]; [done|]. rewrite fmap_cons, Hi. by f_equal. Qed.
End standard_facts.

Section standard_theorems.
Context (keccak256 : bytes → bytes).
Context {ParamType Token : Type} (read : string → outcome string ParamType)
  (tokenize : ParamType → string → outcome string Token) (abi_encode : list Token → bytes).
Context {Out : Type} (format : Hash → Out).
Notation leaf_hash := (standard_leaf_hash keccak256 read tokenize abi_encode).
Notation of_values := (of_values keccak256 read tokenize abi_encode).

(** Any set of values has a multiproof.  In a tree made by [of], a multiproof of any
    distinct values is returned; the values it names have the hashes of the values
    asked for, and with these hashes, its nodes and its flags the verifier computes
    the root without running out of nodes. *)
Theorem multiproofs_verify vals enc t ks :
  of_values vals enc = Ok t → (Z.of_nat (length (nodes t)) <= I32_MAX)%Z →
  (∀ k, k ∈ ks → k < length (values t)) → NoDup ks →
  ∃ leaves hashes proof flags r,
    tree_get_multi_proof keccak256 read tokenize abi_encode format t (Number <$> ks) =
      Ok (mkMultiProof leaves (format <$> proof) flags) ∧
    nodes t !! 0 = Some r ∧ process_multi_proof keccak256 (mkMultiProof hashes proof flags) = Ok r ∧
    Forall2 (λ v h, leaf_hash v enc = Ok h) leaves hashes ∧
    ∃ hs, Forall2 (λ k h, ∃ v, vals !! k = Some v ∧ leaf_hash v enc = Ok h) ks hs ∧ hashes ≡ₚ hs.
Proof.
  intros (Hok & <- & Hvals)%of_values_ok Hmax Hks Hnd.
  destruct (tree_indices_ok keccak256 read tokenize abi_encode t ks Hok Hks Hnd) as (idx & Hidx & Hndi & Hf).
  assert (∀ i, i ∈ idx → ∃ k v, values t !! k = Some v ∧ tree_index v = i) as Hval.
  { intros i [p Hp]%list_elem_of_lookup_1. destruct (Forall2_lookup_r _ _ _ _ _ Hf Hp) as (k & _ & v & ?). eauto. }
  destruct (get_multi_proof_ok keccak256 (nodes t) idx (ok_valid _ _ _ _ t Hok) Hmax) as (p & r & Hp & Hr & Hproc & Hl); [|done|].
  { intros i (k & v & Hk & <-)%Hval. by destruct (ok_values _ _ _ _ t Hok k v Hk) as (h & _ & _ & ? & _). }
  assert (mp_leaves p ≡ₚ (λ i, default [] (nodes t !! i)) <$> idx) as Hns.
  { rewrite (Forall2_nodes _ _ _ Hl). by rewrite merge_sort_Permutation. }
  destruct (lookup_leaves keccak256 read tokenize abi_encode t (mp_leaves p) Hok) as (leaves & Hm & Hfl).
  { intros n [q Hq]%list_elem_of_lookup_1. destruct (Forall2_lookup_r _ _ _ _ _ Hl Hq) as (i & Hi & Hn).
    apply list_elem_of_lookup_2 in Hi. rewrite merge_sort_Permutation in Hi.
    apply Hval in Hi as (k & v & Hk & <-). destruct (ok_values _ _ _ _ t Hok k v Hk) as (h & Hh & Hn' & _).
    assert (h = n) as -> by congruence. eauto. }
  exists leaves, (mp_leaves p), (mp_proof p), (proof_flags p), r. split_and!; [|done|by destruct p|done|].
  - unfold tree_get_multi_proof. rewrite collect_numbers. cbn [mbind outcome_bind].
    rewrite (validate_values_ok keccak256 read tokenize abi_encode t ks Hok Hks). cbn [mbind outcome_bind].
    rewrite Hidx. cbn [unwrap mbind outcome_bind]. rewrite Hp. cbn [mbind outcome_bind]. rewrite Hproc.
    cbn [mbind outcome_bind]. rewrite Hr. cbn [unwrap mbind outcome_bind]. rewrite bool_decide_eq_true_2 by done.
    by rewrite Hm.
  - eexists. split; [|exact Hns].
    apply Forall2_fmap_r. eapply Forall2_impl; [exact Hf|]. intros k i (v & Hk & <-).
    destruct (ok_values _ _ _ _ t Hok k v Hk) as (h & Hh & Hn & _). cbn. rewrite Hn. exists (v_value v).
    split; [apply Hvals; eauto|done].
Qed.

Context (hex_encode : bytes → string) (hex_decode : string → option bytes).

(** Dumping a tree and loading it gives the tree: [hash_lookup] is rebuilt, the
    hashes survive the hexadecimal encoding. *)
Theorem dump_load_roundtrip vals enc t :
  (∀ b, hex_decode (hex_encode b) = Some b) → (∀ x, length (keccak256 x) = 32) →
  of_values vals enc = Ok t → load keccak256 read tokenize abi_encode hex_decode (dump hex_encode t) = Ok t.
Proof.
  intros Hhex H32 Hof. pose proof (of_values_ok _ _ _ _ _ _ _ Hof) as (Hok & _ & _).
  assert (Forall (λ n, length n = 32) (nodes t)) as Hlen.
  { apply Forall_lookup. intros i n Hn. eapply (node_length keccak256); [done|by apply Hok| |done].
    intros i' n' Hi' Hn'. destruct (ok_leaves _ _ _ _ t Hok i' Hi') as (k & w & Hk & <-).
    destruct (ok_values _ _ _ _ t Hok k w Hk) as (h & Hh & Hn'' & _). assert (h = n') as -> by congruence.
    unfold standard_leaf_hash in Hh. apply bind_Ok in Hh as (ts & _ & [= <-]). eauto. }
  assert (load_hashes hex_decode ((λ leaf, ("0x" ++ hex_encode leaf)%string) <$> nodes t) = Ok (nodes t)) as Hl.
  { clear Hof Hok. induction Hlen as [|n ns Hn _ IH]; [done|]. cbn [fmap list_fmap load_hashes].
    unfold load_hash at 1. change (String.length ("0x" +:+ hex_encode n) <? 2) with false.
    cbv iota. rewrite substring_0x, Hhex, Hn. cbn. cbn in IH. by rewrite IH. }
  unfold load, dump. cbn [d_format d_tree d_values d_leaf_encoding].
  rewrite bool_decide_eq_true_2, Hl by done. cbn [mbind outcome_bind].
  unfold Merkle.of_values in Hof.
  apply bind_Ok in Hof as (hs & _ & (tree & _ & Hnew)%bind_Ok).
  unfold new in *. apply bind_Ok in Hnew as (m & Hm & [= <-]). cbn [nodes values leaf_encoding]. by rewrite Hm.
Qed.
End standard_theorems.

(** A malformed multiproof makes the verifier panic: with no leaves, two nodes and
    one flag it passes the checks on the lengths, and then takes from an empty queue. *)
Lemma malformed_multiproof_panics keccak256 a b :
  process_multi_proof keccak256 (mkMultiProof [] [a; b] [false]) = Panic.
Proof. done. Qed.

(** ** Samples *)

Definition toy_digest (x : bytes) : bytes :=
  let s := foldl (λ acc b, (acc * 31 + b + 1) mod 65521)%Z 7%Z x in
  [s / 256; s mod 256]%Z ++ replicate 30 0%Z.
Definition sample_encode (tokens : list string) : bytes :=
  concat ((λ s, (λ c, Z.of_nat (Ascii.nat_of_ascii c)) <$> String.list_ascii_of_string s) <$> tokens).
Definition sample_values : list (list string) := [["a"]; ["b"]; ["c"]; ["d"]; ["e"]]%string.
Definition sample_of := of_values toy_digest (λ p, Ok p) (λ _ v, Ok v) sample_encode sample_values ["string"%string].
Definition sample_tree : StandardMerkleTree :=
  match sample_of with Ok t => t | _ => mkStandardTree ∅ [] [] [] end.

Lemma value_proofs_verify_witness : ∃ h proof proof' r,
  standard_leaf_hash toy_digest (λ p, Ok p) (λ _ v, Ok v) sample_encode ["d"%string] ["string"%string] = Ok h ∧
  nodes sample_tree !! 0 = Some r ∧
  tree_get_proof toy_digest (λ p, Ok p) (λ _ v, Ok v) sample_encode id sample_tree (Number 3) = Ok (id <$> proof) ∧
  process_proof toy_digest h proof = r ∧
  tree_get_proof toy_digest (λ p, Ok p) (λ _ v, Ok v) sample_encode id sample_tree (LeafBytes ["d"%string]) =
    Ok (id <$> proof') ∧
  process_proof toy_digest h proof' = r.
Proof.
  apply (value_proofs_verify toy_digest (λ p, Ok p) (λ _ v, Ok v) sample_encode id sample_values).
  - vm_compute. reflexivity.
  - vm_compute. discriminate.
  - reflexivity.
Defined.

Lemma proofs_are_sound_witness :
  (∃ k v', sample_values !! k = Some v' ∧
     standard_leaf_hash toy_digest (λ p, Ok p) (λ _ v, Ok v) sample_encode v' ["string"%string] =
     Ok (toy_digest (toy_digest [100%Z]))) ∨ collision toy_digest.
Proof.
  refine (proofs_are_sound toy_digest (λ p, Ok p) (λ _ v, Ok v) sample_encode sample_values ["string"%string]
    sample_tree ["d"%string] (toy_digest (toy_digest [100%Z]))
    match tree_get_proof toy_digest (λ p, Ok p) (λ _ v, Ok v) sample_encode id sample_tree (Number 3) with
    | Ok p => p | _ => [] end
    match nodes sample_tree with r :: _ => r | [] => [] end _ _ _ _ _ _).
  - intros x. reflexivity.
  - vm_compute. reflexivity.
  - vm_compute. reflexivity.
  - vm_compute. repeat constructor.
  - vm_compute. reflexivity.
  - vm_compute. reflexivity.
Defined.

Lemma multiproofs_verify_witness : ∃ leaves hashes proof flags r,
  tree_get_multi_proof toy_digest (λ p, Ok p) (λ _ v, Ok v) sample_encode id sample_tree (Number <$> [4; 0; 3]) =
    Ok (mkMultiProof leaves (id <$> proof) flags) ∧
  nodes sample_tree !! 0 = Some r ∧ process_multi_proof toy_digest (mkMultiProof hashes proof flags) = Ok r ∧
  Forall2 (λ v h, standard_leaf_hash toy_digest (λ p, Ok p) (λ _ v, Ok v) sample_encode v ["string"%string] = Ok h)
    leaves hashes ∧
  ∃ hs, Forall2 (λ k h, ∃ v, sample_values !! k = Some v ∧
    standard_leaf_hash toy_digest (λ p, Ok p) (λ _ v, Ok v) sample_encode v ["string"%string] = Ok h) [4; 0; 3] hs ∧
    hashes ≡ₚ hs.
Proof.
  refine (multiproofs_verify toy_digest (λ p, Ok p) (λ _ v, Ok v) sample_encode id sample_values ["string"%string]
    sample_tree [4; 0; 3] _ _ _ _).
  - vm_compute. reflexivity.
  - vm_compute. discriminate.
  - replace (length (values sample_tree)) with 5 by (vm_compute; reflexivity). set_solver by lia.
  - apply (bool_decide_unpack _). vm_compute. done.
Defined.
