(* ===== verification/Storage.v ===== *)
(** * The key-value store ([fendermint/storage/src/lib.rs], [im.rs])

    A store keeps collections, named by a namespace, of encoded keys and values.  A
    transaction works on a snapshot of the data; write transactions of the in-memory
    backend replace the data when they commit, and by default hold a lock from their
    start until then.

    [run_event] is the store used by several threads: an event is a call to it by
    the holder of a transaction, with what the call returned, and an event that
    cannot happen, because the lock is taken or the answer is another one, has no
    successor.  The abstract store has no transactions, only a sequence of operations
    executed one after the other ([replay]).  The main theorem is that the locked
    backend implements it: every run is equivalent to a serial one. *)

From stdpp Require Import base tactics numbers list gmap sorting strings.
From S2P Require Import Prelude.

Inductive KVError :=
| Conflict
| Abort (e : string)
| Codec (e : string)
| Unexpected (e : string).

Section storage.
(** [S::Namespace] and [S::Repr] *)
Context {Ns R : Type} `{Countable Ns} `{Countable R} (repr_le : R → R → Prop) `{!RelDecision repr_le}.

Notation IDataMap := (gmap Ns (gmap R R)).

(** ** Encoded data *)

Definition data_get (data : IDataMap) (ns : Ns) (k : R) : option R := data !! ns ≫= (.!! k).
Definition data_put (data : IDataMap) (ns : Ns) (k v : R) : IDataMap :=
  <[ns := <[k := v]> (default ∅ (data !! ns))]> data.
Definition data_delete (data : IDataMap) (ns : Ns) (k : R) : IDataMap :=
  match data !! ns with
  | Some m => <[ns := delete k m]> data
  | None => data
  end.
(** Items ordered by the representation of their keys. *)
Definition key_le (a b : R * R) : Prop := repr_le a.1 b.1.
#[local] Instance key_le_dec : RelDecision key_le := λ a b, decide (repr_le a.1 b.1).
Definition data_items (data : IDataMap) (ns : Ns) : list (R * R) :=
  match data !! ns with
  | Some m => merge_sort key_le (map_to_list m)
  | None => []
  end.

(** ** Typed access ([KVRead], [KVWrite]) *)

Section typed.
Context {K V : Type} (k_to_repr : K → outcome KVError R) (k_from_repr : R → outcome KVError K)
  (v_to_repr : V → outcome KVError R) (v_from_repr : R → outcome KVError V).

(** The key is encoded only when the namespace exists. *)
Definition get (data : IDataMap) (ns : Ns) (k : K) : outcome KVError (option V) :=
  match data !! ns with
  | Some m =>
      kr ← k_to_repr k;
      match m !! kr with
      | Some v => Some <$> v_from_repr v
      | None => Ok None
      end
  | None => Ok None
  end.
Definition put (data : IDataMap) (ns : Ns) (k : K) (v : V) : outcome KVError IDataMap :=
  kr ← k_to_repr k;
  vr ← v_to_repr v;
  Ok (data_put data ns kr vr).
Definition kv_delete (data : IDataMap) (ns : Ns) (k : K) : outcome KVError IDataMap :=
  match data !! ns with
  | Some _ => kr ← k_to_repr k; Ok (data_delete data ns kr)
  | None => Ok data
  end.
Definition iterate (data : IDataMap) (ns : Ns) : list (outcome KVError (K * V)) :=
  (λ p, k ← k_from_repr p.1; v ← v_from_repr p.2; Ok (k, v)) <$> data_items data ns.
End typed.

(** ** The in-memory backend ([im.rs]) *)

Inductive TxMode := Read | Write.
Record InMemoryBackend := mkBackend {
  data : IDataMap;
  write_token : bool;   (* whether the mutex is held *)
  lock_writes : bool;
}.
Record Transaction := mkTx {
  tx_data : IDataMap;
  token : bool;         (* whether the transaction holds the mutex *)
  tx_mode : TxMode;
}.

Definition new (lock_writes : bool) : InMemoryBackend := mkBackend ∅ false lock_writes.
Definition backend_default : InMemoryBackend := new true.
Definition read (b : InMemoryBackend) : Transaction := mkTx (data b) false Read.
(** Waits for the lock when it is held. *)
Definition write (b : InMemoryBackend) : outcome KVError (InMemoryBackend * Transaction) :=
  if lock_writes b then
    if write_token b then Retry else Ok (mkBackend (data b) true true, mkTx (data b) true Write)
  else Ok (b, mkTx (data b) false Write).
Definition release (b : InMemoryBackend) (tx : Transaction) : InMemoryBackend :=
  mkBackend (data b) (if token tx then false else write_token b) (lock_writes b).
Definition commit (b : InMemoryBackend) (tx : Transaction) : InMemoryBackend :=
  release (mkBackend (tx_data tx) (write_token b) (lock_writes b)) tx.
Definition rollback (b : InMemoryBackend) (tx : Transaction) : InMemoryBackend := release b tx.
(** [Drop]: a transaction that still holds the lock must not go out of scope. *)
Definition drop_tx (b : InMemoryBackend) (tx : Transaction) : outcome KVError InMemoryBackend :=
  if token tx then Panic else Ok b.

(** [KVWritable::with_write]: when [f] fails, the transaction is dropped on the way out. *)
Definition with_write {T} (b : InMemoryBackend) (f : IDataMap → outcome KVError (IDataMap * T))
    : outcome KVError (InMemoryBackend * T) :=
  r ← write b;
  match f (tx_data r.2) with
  | Ok (d, res) => Ok (commit r.1 (mkTx d (token r.2) Write), res)
  | Err e => _ ← drop_tx r.1 r.2; Err e
  | Retry => Retry
  | Panic => Panic
  end.

(** ** Concurrent use *)

Inductive Op :=
| OpGet (ns : Ns) (k : R) (res : option R)
| OpIterate (ns : Ns) (res : list (R * R))
| OpPut (ns : Ns) (k v : R)
| OpDelete (ns : Ns) (k : R).

(** An operation on data: what it becomes, if the operation has that result. *)
Definition apply_op (d : IDataMap) (op : Op) : option IDataMap :=
  match op with
  | OpGet ns k res => if decide (data_get d ns k = res) then Some d else None
  | OpIterate ns res => if decide (data_items d ns = res) then Some d else None
  | OpPut ns k v => Some (data_put d ns k v)
  | OpDelete ns k => Some (data_delete d ns k)
  end.
Definition is_write (op : Op) : bool := match op with OpPut _ _ _ | OpDelete _ _ => true | _ => false end.

(** The abstract store: operations one after the other. *)
Fixpoint replay (d : IDataMap) (ops : list Op) : option IDataMap :=
  match ops with
  | [] => Some d
  | op :: ops => d' ← apply_op d op; replay d' ops
  end.

Inductive Event :=
| Begin (t : nat) (m : TxMode)
| Did (t : nat) (op : Op)
| Commit (t : nat)
| Rollback (t : nat)
| Dropped (t : nat).

Record System := mkSystem {
  backend : InMemoryBackend;
  live : gmap nat Transaction;
  used : gset nat;
}.

Definition run_event (s : System) (e : Event) : option System :=
  match e with
  | Begin t m =>
      if decide (t ∈ used s) then None else
      match m with
      | Read => Some (mkSystem (backend s) (<[t := read (backend s)]> (live s)) ({[t]} ∪ used s))
      | Write =>
          match write (backend s) with
          | Ok (b, tx) => Some (mkSystem b (<[t := tx]> (live s)) ({[t]} ∪ used s))
          | _ => None
          end
      end
  | Did t op =>
      tx ← live s !! t;
      match tx_mode tx, is_write op with
      | Read, true => None
      | _, _ => d ← apply_op (tx_data tx) op;
                Some (mkSystem (backend s) (<[t := mkTx d (token tx) (tx_mode tx)]> (live s)) (used s))
      end
  | Commit t =>
      tx ← live s !! t;
      match tx_mode tx with
      | Write => Some (mkSystem (commit (backend s) tx) (delete t (live s)) (used s))
      | Read => None
      end
  | Rollback t =>
      tx ← live s !! t;
      match tx_mode tx with
      | Write => Some (mkSystem (rollback (backend s) tx) (delete t (live s)) (used s))
      | Read => None
      end
  | Dropped t =>
      tx ← live s !! t;
      match drop_tx (backend s) tx with
      | Ok b => Some (mkSystem b (delete t (live s)) (used s))
      | _ => None
      end
  end.
Fixpoint run (s : System) (es : list Event) : option System :=
  match es with
  | [] => Some s
  | e :: es => s' ← run_event s e; run s' es
  end.
Definition initial (lock : bool) : System := mkSystem (new lock) ∅ ∅.

(** What a transaction did, and the transactions that committed, in that order. *)
Definition ops_of (t : nat) (es : list Event) : list Op :=
  omap (λ e, match e with Did t' op => if decide (t' = t) then Some op else None | _ => None end) es.
Definition commits (es : list Event) : list nat :=
  omap (λ e, match e with Commit t => Some t | _ => None end) es.

(** ** The serial order *)

(** What the first [n] transactions that committed did. *)
Definition serial (es : list Event) (n : nat) : list Op := concat ((λ t, ops_of t es) <$> take n (commits es)).

Lemma replay_app d ops1 ops2 : replay d (ops1 ++ ops2) = replay d ops1 ≫= λ d', replay d' ops2.
Proof. revert d. induction ops1 as [|op ops IH]; intros d; [done|]. simpl. destruct (apply_op d op); [apply IH|done]. Qed.
Lemma replay_snoc d ops op d1 d2 : replay d ops = Some d1 → apply_op d1 op = Some d2 →
  replay d (ops ++ [op]) = Some d2.
Proof. intros H1 H2. rewrite replay_app, H1. simpl. by rewrite H2. Qed.
Lemma ops_of_app t es es' : ops_of t (es ++ es') = ops_of t es ++ ops_of t es'.
Proof. apply omap_app. Qed.
Lemma commits_app es es' : commits (es ++ es') = commits es ++ commits es'.
Proof. apply omap_app. Qed.
Lemma run_snoc s es e s' : run s (es ++ [e]) = Some s' → ∃ s1, run s es = Some s1 ∧ run_event s1 e = Some s'.
Proof.
  revert s. induction es as [|e' es IH]; intros s; simpl.
  - intros (s1 & Hs1 & [= <-])%bind_Some. eauto.
  - intros (s1 & Hs1 & Hrun)%bind_Some. rewrite Hs1. simpl. eauto.
Qed.

(** Only an operation of a transaction adds to what it did. *)
Lemma ops_of_snoc t es e : (∀ op, e ≠ Did t op) → ops_of t (es ++ [e]) = ops_of t es.
Proof.
  intros Hne. rewrite ops_of_app. destruct e as [| t' op | | | ]; simpl; try apply app_nil_r.
  case_decide; [subst; by destruct (Hne op)|apply app_nil_r].
Qed.
Lemma serial_snoc es e n : (n <= length (commits es))%nat →
  (∀ t op, t ∈ commits es → e ≠ Did t op) → serial (es ++ [e]) n = serial es n.
Proof.
  intros Hn Hne. unfold serial. rewrite commits_app, take_app_le by done. f_equal.
  apply list_fmap_ext. intros i t Ht. apply ops_of_snoc. intros op. apply Hne.
  apply list_elem_of_lookup_2 in Ht. eapply elem_of_sublist; [done|apply sublist_take].
Qed.
Lemma serial_commit es t :
  serial (es ++ [Commit t]) (length (commits (es ++ [Commit t]))) =
  serial es (length (commits es)) ++ ops_of t es.
Proof.
  unfold serial. rewrite !firstn_all, commits_app, fmap_app, concat_app. simpl. rewrite app_nil_r.
  f_equal; [f_equal; apply list_fmap_ext; intros; by apply ops_of_snoc|by apply ops_of_snoc].
Qed.

(** Every transaction saw the data of a prefix of the commits, and the one that may
    write saw that of all of them. *)
Record serial_inv (es : list Event) (s : System) : Prop := {
  si_lock : lock_writes (backend s) = true;
  si_token t tx : live s !! t = Some tx → tx_mode tx = Write → token tx = true ∧ write_token (backend s) = true;
  si_read t tx : live s !! t = Some tx → tx_mode tx = Read → token tx = false;
  si_writer t1 t2 tx1 tx2 : live s !! t1 = Some tx1 → live s !! t2 = Some tx2 →
    tx_mode tx1 = Write → tx_mode tx2 = Write → t1 = t2;
  si_used t : is_Some (live s !! t) ∨ t ∈ commits es ∨ ops_of t es ≠ [] → t ∈ used s;
  si_done t : t ∈ commits es → live s !! t = None;
  si_data : replay ∅ (serial es (length (commits es))) = Some (data (backend s));
  si_view t : ∃ n d, (n <= length (commits es))%nat ∧ replay ∅ (serial es n ++ ops_of t es) = Some d ∧
    ∀ tx, live s !! t = Some tx → tx_data tx = d ∧ (tx_mode tx = Write → n = length (commits es));
}.

(** An event that neither commits nor operates keeps the views. *)
Lemma view_keep es e s s' t : serial_inv es s → commits [e] = [] → (∀ t op, e ≠ Did t op) →
  (∀ tx, live s' !! t = Some tx → live s !! t = Some tx) →
  ∃ n d, (n <= length (commits (es ++ [e])))%nat ∧ replay ∅ (serial (es ++ [e]) n ++ ops_of t (es ++ [e])) = Some d ∧
    ∀ tx, live s' !! t = Some tx → tx_data tx = d ∧ (tx_mode tx = Write → n = length (commits (es ++ [e]))).
Proof.
  intros Hinv Hc Hnd Hlive. destruct (si_view _ _ Hinv t) as (n & d & Hn & Hr & Hv).
  exists n, d. rewrite commits_app, Hc, app_nil_r. split; [done|].
  rewrite serial_snoc by (done || naive_solver). rewrite ops_of_snoc by naive_solver. split; [done|].
  intros tx Htx. by apply Hv, Hlive.
Qed.

Lemma fresh_no_ops es s t : serial_inv es s → t ∉ used s → ops_of t es = [] ∧ live s !! t = None ∧ t ∉ commits es.
Proof.
  intros Hinv Ht. split_and!.
  - destruct (decide (ops_of t es = [])) as [|Hne]; [done|]. destruct Ht. apply (si_used _ _ Hinv). auto.
  - destruct (live s !! t) eqn:E; [|done]. destruct Ht. apply (si_used _ _ Hinv). eauto.
  - intros ?. destruct Ht. apply (si_used _ _ Hinv). auto.
Qed.

(** A transaction that starts sees all commits. *)
Lemma begin_keep es s t m b tx : serial_inv es s → t ∉ used s →
  tx_mode tx = m → tx_data tx = data (backend s) → data b = data (backend s) → lock_writes b = true →
  (m = Read → token tx = false ∧ b = backend s) →
  (m = Write → token tx = true ∧ write_token b = true ∧ write_token (backend s) = false) →
  serial_inv (es ++ [Begin t m]) (mkSystem b (<[t := tx]> (live s)) ({[t]} ∪ used s)).
Proof.
  intros Hinv Ht Hm Htx Hb Hlock Hread Hwrite. destruct (fresh_no_ops es s t Hinv Ht) as (Hno & Hnl & Hnc).
  assert (∀ t' tx', live s !! t' = Some tx' → m = Write → tx_mode tx' = Read) as Hnow.
  { intros t' tx' Hl Hw. destruct (tx_mode tx') eqn:E; [done|].
    destruct (si_token _ _ Hinv _ _ Hl E) as [_ ?]. destruct (Hwrite Hw) as (_ & _ & ?). congruence. }
  assert (commits (es ++ [Begin t m]) = commits es) as Hc by by rewrite commits_app, app_nil_r.
  split; cbn [backend live used]; rewrite ?Hc.
  - done.
  - intros t' tx' [[<- <-]|[Hne Hl]]%lookup_insert_Some Hw; [subst; naive_solver|].
    destruct m; [destruct (Hread eq_refl) as [_ ->]; by eapply si_token|].
    by rewrite (Hnow _ _ Hl eq_refl) in Hw.
  - intros t' tx' [[<- <-]|[Hne Hl]]%lookup_insert_Some Hr; [subst; naive_solver|by eapply si_read].
  - intros t1 t2 tx1 tx2 [[<- <-]|[Hne1 Hl1]]%lookup_insert_Some [[<- <-]|[Hne2 Hl2]]%lookup_insert_Some Hw1 Hw2;
      [done|..|by eapply si_writer].
    + rewrite Hw1 in Hm. subst m. by rewrite (Hnow _ _ Hl2 eq_refl) in Hw2.
    + rewrite Hw2 in Hm. subst m. by rewrite (Hnow _ _ Hl1 eq_refl) in Hw1.
  - intros t' Ht'. rewrite ops_of_snoc in Ht' by done. destruct (decide (t' = t)) as [->|]; [set_solver|].
    rewrite lookup_insert_ne in Ht' by done. apply elem_of_union_r. by apply (si_used _ _ Hinv).
  - intros t' Ht'. rewrite lookup_insert_ne by (intros ->; done). by apply (si_done _ _ Hinv).
  - rewrite Hb, serial_snoc by (done || naive_solver). apply (si_data _ _ Hinv).
  - intros t'. destruct (decide (t' = t)) as [->|Hne].
    + exists (length (commits es)), (data (backend s)). split; [done|].
      rewrite ops_of_snoc, Hno, app_nil_r by done. rewrite serial_snoc by (done || naive_solver).
      split; [apply (si_data _ _ Hinv)|]. intros tx'. rewrite lookup_insert_eq. intros [= <-]. done.
    + destruct (view_keep es (Begin t m) s (mkSystem b (<[t := tx]> (live s)) ({[t]} ∪ used s)) t' Hinv)
        as (n & d & Hn & Hr & Hv); [done|done|by intros tx'; cbn; rewrite lookup_insert_ne|].
      rewrite Hc in *. eauto 10.
Qed.

Lemma did_keep es s t op tx d : serial_inv es s → live s !! t = Some tx → apply_op (tx_data tx) op = Some d →
  serial_inv (es ++ [Did t op]) (mkSystem (backend s) (<[t := mkTx d (token tx) (tx_mode tx)]> (live s)) (used s)).
Proof.
  intros Hinv Hl Hop.
  assert (commits (es ++ [Did t op]) = commits es) as Hc by by rewrite commits_app, app_nil_r.
  assert (∀ n, (n <= length (commits es))%nat → serial (es ++ [Did t op]) n = serial es n) as Hser.
  { intros n Hn. apply serial_snoc; [done|]. intros t' op' Ht' [= -> ->].
    by rewrite (si_done _ _ Hinv _ Ht') in Hl. }
  assert (∀ t' tx', <[t := mkTx d (token tx) (tx_mode tx)]> (live s) !! t' = Some tx' →
            ∃ tx0, live s !! t' = Some tx0 ∧ tx_mode tx' = tx_mode tx0 ∧ token tx' = token tx0) as Hback.
  { intros t' tx' [[<- <-]|[? ?]]%lookup_insert_Some; eauto. }
  split; cbn [backend live used]; rewrite ?Hc.
  - apply Hinv.
  - intros t' tx' (tx0 & Hl0 & -> & ->)%Hback. by eapply si_token.
  - intros t' tx' (tx0 & Hl0 & -> & ->)%Hback. by eapply si_read.
  - intros t1 t2 tx1 tx2 (w1 & Hw1 & -> & _)%Hback (w2 & Hw2 & -> & _)%Hback. by eapply si_writer.
  - intros t' Ht'. destruct (decide (t' = t)) as [->|].
    + apply (si_used _ _ Hinv). eauto.
    + rewrite lookup_insert_ne in Ht' by done. rewrite ops_of_snoc in Ht' by naive_solver. by apply (si_used _ _ Hinv).
  - intros t' Ht'. pose proof (si_done _ _ Hinv _ Ht'). rewrite lookup_insert_ne; [done|]. congruence.
  - rewrite Hser by done. apply (si_data _ _ Hinv).
  - intros t'. destruct (si_view _ _ Hinv t') as (n & d0 & Hn & Hr & Hv).
    destruct (decide (t' = t)) as [->|Hne].
    + destruct (Hv _ Hl) as [<- Hw]. exists n, d. split; [done|]. rewrite Hser by done. split.
      * rewrite ops_of_app. simpl. rewrite decide_True by done. rewrite app_assoc. by eapply replay_snoc.
      * intros tx'. rewrite lookup_insert_eq. intros [= <-]. done.
    + exists n, d0. split; [done|]. rewrite Hser, ops_of_snoc by naive_solver. split; [done|].
      intros tx'. rewrite lookup_insert_ne by done. apply Hv.
Qed.

(** The end of a transaction: it leaves, and the lock is released if it held it. *)
Lemma end_keep es s t e b tx : serial_inv es s → live s !! t = Some tx → (∀ t op, e ≠ Did t op) →
  lock_writes b = true → (tx_mode tx = Read → write_token b = write_token (backend s)) →
  (e = Commit t ∧ tx_mode tx = Write ∧ data b = tx_data tx ∨ commits [e] = [] ∧ data b = data (backend s)) →
  serial_inv (es ++ [e]) (mkSystem b (delete t (live s)) (used s)).
Proof.
  intros Hinv Hl Hnd Hlock Htok He.
  assert (∀ t', t' ∈ commits (es ++ [e]) ↔ t' ∈ commits es ∨ e = Commit t') as Hc.
  { intros t'. rewrite commits_app, elem_of_app. destruct e; simpl; set_solver. }
  assert (∀ t' tx', delete t (live s) !! t' = Some tx' → tx_mode tx' = Write → tx_mode tx = Read) as Hother.
  { intros t' tx' [Hne Hl']%lookup_delete_Some Hw. destruct (tx_mode tx) eqn:E; [done|].
    destruct Hne. by eapply si_writer. }
  split; cbn [backend live used].
  - done.
  - intros t' tx' Hd Hw. rewrite (Htok (Hother _ _ Hd Hw)). apply lookup_delete_Some in Hd as [_ ?]. by eapply si_token.
  - intros t' tx' [_ ?]%lookup_delete_Some. by eapply si_read.
  - intros t1 t2 tx1 tx2 [_ ?]%lookup_delete_Some [_ ?]%lookup_delete_Some. by eapply si_writer.
  - intros t'. rewrite Hc, ops_of_snoc by done. intros [[tx' [_ Hl']%lookup_delete_Some]|[[Ht'| ->]|Ht']].
    + apply (si_used _ _ Hinv). eauto.
    + apply (si_used _ _ Hinv). auto.
    + destruct He as [([= <-] & _)|[? _]]; [|done]. apply (si_used _ _ Hinv). eauto.
    + apply (si_used _ _ Hinv). auto.
  - intros t' [Ht'| ->]%Hc; apply lookup_delete_None; [right; by apply (si_done _ _ Hinv)|].
    destruct He as [([= <-] & _)|[? _]]; [by left|done].
  - destruct He as [(-> & Hw & ->)|[Hce ->]].
    + rewrite serial_commit. destruct (si_view _ _ Hinv t) as (n & d & _ & Hr & Hv).
      destruct (Hv _ Hl) as [-> Hn]. by rewrite <- (Hn Hw).
    + rewrite commits_app, Hce, app_nil_r, serial_snoc by (done || naive_solver). apply (si_data _ _ Hinv).
  - intros t'. destruct (si_view _ _ Hinv t') as (n & d & Hn & Hr & Hv). exists n, d.
    rewrite serial_snoc, ops_of_snoc by (done || naive_solver). split; [rewrite commits_app, length_app; lia|].
    split; [done|]. intros tx' Hd. pose proof Hd as Hd'. apply lookup_delete_Some in Hd as [Hne Hl'].
    destruct (Hv _ Hl') as [Htx Hw]. split; [done|]. intros Hw'. rewrite (Hw Hw').
    destruct He as [(-> & Hwt & _)|[Hce _]]; [by rewrite (Hother _ _ Hd' Hw') in Hwt|].
    by rewrite commits_app, Hce, app_nil_r.
Qed.

Lemma run_serial_inv es s : run (initial true) es = Some s → serial_inv es s.
Proof.
  revert s. induction es as [|e es IH] using rev_ind; intros s.
  { intros [= <-]. split; cbn; try done; try (intros ? ? Hl; by rewrite lookup_empty in Hl).
    - intros t [[? Hl]|[Hc|Hc]]; [by rewrite lookup_empty in Hl|by apply elem_of_nil in Hc|done].
    - intros t. by exists 0%nat, ∅. }
  intros (s1 & Hs1%IH & He)%run_snoc. clear IH. rename Hs1 into Hinv.
  destruct e as [t m|t op|t|t|t]; cbn [run_event] in He.
  - case_decide as Ht; [done|]. destruct m.
    + injection He as <-. apply begin_keep; try done. apply Hinv.
    + unfold write in He. rewrite (si_lock _ _ Hinv) in He. destruct (write_token (backend s1)) eqn:Htok; [done|].
      injection He as <-. by apply begin_keep.
  - apply bind_Some in He as (tx & Hl & He).
    assert (∃ d, apply_op (tx_data tx) op = Some d ∧
              s = mkSystem (backend s1) (<[t := mkTx d (token tx) (tx_mode tx)]> (live s1)) (used s1)) as (d & Hd & ->).
    { destruct (tx_mode tx), (is_write op); try done; apply bind_Some in He as (d & Hd & [= <-]); eauto. }
    by apply did_keep.
  - apply bind_Some in He as (tx & Hl & He). destruct (tx_mode tx) eqn:Hm; [done|]. injection He as <-.
    eapply end_keep; try done; [apply Hinv|by rewrite Hm|by left].
  - apply bind_Some in He as (tx & Hl & He). destruct (tx_mode tx) eqn:Hm; [done|]. injection He as <-.
    eapply end_keep; try done; [apply Hinv|by rewrite Hm|by right].
  - apply bind_Some in He as (tx & Hl & He). unfold drop_tx in He. destruct (token tx); [done|].
    injection He as <-. eapply end_keep; try done; [apply Hinv|by right].
Qed.

(** C34. The locked store is serializable.  However the calls of several threads
    interleave, the data of the backend is that of executing the transactions that
    committed one after the other, in the order of their commits, each with the
    answers it got; and every transaction, also one that only reads or is rolled
    back, got the answers of a store that had executed a prefix of them. *)
Theorem store_serializable es s :
  run (initial true) es = Some s →
  replay ∅ (serial es (length (commits es))) = Some (data (backend s)) ∧
  ∀ t, ∃ n, (n <= length (commits es))%nat ∧ is_Some (replay ∅ (serial es n ++ ops_of t es)).
Proof.
  intros Hinv%run_serial_inv. split; [apply (si_data _ _ Hinv)|].
  intros t. destruct (si_view _ _ Hinv t) as (n & d & Hn & Hr & _). eauto.
Qed.

(** A failing closure does not give its error to the caller of [with_write], it
    brings the thread down: the transaction is dropped while it holds the lock. *)
Lemma with_write_panics {T} b (f : IDataMap → outcome KVError (IDataMap * T)) e :
  lock_writes b = true → write_token b = false → f (data b) = Err e → with_write b f = Panic.
Proof. intros Hl Ht Hf. unfold with_write, write. rewrite Hl, Ht. simpl. by rewrite Hf. Qed.

(** *** Typed data *)

Lemma data_get_put d ns k v ns' k' :
  data_get (data_put d ns k v) ns' k' = if decide (ns' = ns ∧ k' = k) then Some v else data_get d ns' k'.
Proof.
  unfold data_get, data_put. destruct (decide (ns' = ns)) as [->|Hns].
  - rewrite lookup_insert_eq. simpl. destruct (decide (k' = k)) as [->|Hk].
    + by rewrite lookup_insert_eq, decide_True by done.
    + rewrite lookup_insert_ne, decide_False by naive_solver. destruct (d !! ns); simpl; [done|]. by rewrite lookup_empty.
  - by rewrite lookup_insert_ne, decide_False by naive_solver.
Qed.
Lemma data_get_delete d ns k ns' k' :
  data_get (data_delete d ns k) ns' k' = if decide (ns' = ns ∧ k' = k) then None else data_get d ns' k'.
Proof.
  unfold data_get, data_delete. destruct (d !! ns) as [m|] eqn:Hm.
  - destruct (decide (ns' = ns)) as [->|Hns].
    + rewrite lookup_insert_eq. simpl. destruct (decide (k' = k)) as [->|Hk].
      * by rewrite lookup_delete_eq, decide_True by done.
      * rewrite lookup_delete_ne, decide_False by naive_solver. by rewrite Hm.
    + by rewrite lookup_insert_ne, decide_False by naive_solver.
  - case_decide as Hd; [|done]. destruct Hd as [-> ->]. by rewrite Hm.
Qed.

Section typed_facts.
Context {K V : Type} (k_to_repr : K → outcome KVError R) (v_to_repr : V → outcome KVError R)
  (v_from_repr : R → outcome KVError V).
Notation kv_get := (get k_to_repr v_from_repr).

Lemma get_data d ns k kr : k_to_repr k = Ok kr →
  kv_get d ns k = match data_get d ns kr with Some v => Some <$> v_from_repr v | None => Ok None end.
Proof. intros Hk. unfold get, data_get. destruct (d !! ns); [|done]. simpl. by rewrite Hk. Qed.

(** What is put can be got: after [put] the key has the value, every other key of any
    namespace is as before, and [delete] takes exactly that key away again. *)
Theorem put_get_delete d ns k v d' :
  (∀ vr, v_to_repr v = Ok vr → v_from_repr vr = Ok v) →
  put k_to_repr v_to_repr d ns k v = Ok d' →
  kv_get d' ns k = Ok (Some v) ∧
  (∀ ns' k' kr', k_to_repr k' = Ok kr' → (ns' = ns → k_to_repr k ≠ Ok kr') → kv_get d' ns' k' = kv_get d ns' k') ∧
  ∃ d'', kv_delete k_to_repr d' ns k = Ok d'' ∧ kv_get d'' ns k = Ok None ∧
    ∀ ns' k' kr', k_to_repr k' = Ok kr' → (ns' = ns → k_to_repr k ≠ Ok kr') → kv_get d'' ns' k' = kv_get d ns' k'.
Proof.
  intros Hv (kr & Hk & (vr & Hvr & [= <-])%bind_Ok)%bind_Ok. split_and!.
  - rewrite (get_data _ _ _ _ Hk), data_get_put, decide_True by done. by rewrite (Hv _ Hvr).
  - intros ns' k' kr' Hk' Hne. rewrite !(get_data _ _ _ _ Hk'), data_get_put, decide_False by naive_solver. done.
  - exists (data_delete (data_put d ns kr vr) ns kr). split_and!.
    + unfold kv_delete, data_put at 1. rewrite lookup_insert_eq, Hk. done.
    + by rewrite (get_data _ _ _ _ Hk), data_get_delete, decide_True by done.
    + intros ns' k' kr' Hk' Hne. rewrite !(get_data _ _ _ _ Hk'), data_get_delete, decide_False by naive_solver.
      by rewrite data_get_put, decide_False by naive_solver.
Qed.
End typed_facts.

(** Iteration visits every item of the namespace once, in the order of the keys. *)
Lemma data_items_spec d ns `{!Total repr_le, !Transitive repr_le} :
  data_items d ns ≡ₚ map_to_list (default ∅ (d !! ns)) ∧ StronglySorted key_le (data_items d ns).
Proof.
  unfold data_items. destruct (d !! ns) as [m|]; simpl.
  - split; [apply merge_sort_Permutation|]. apply StronglySorted_merge_sort.
    + intros x y z. unfold key_le. by etransitivity.
    + intros x y. unfold key_le. apply total. done.
  - rewrite map_to_list_empty. split; [done|constructor].
Qed.
End storage.

(** ** Samples *)

(** A reader that starts between two writers, and a writer that is rolled back. *)
Definition sample_events : list (@Event Z Z) :=
  [Begin 0 Write; Did 0 (OpPut 1 10 5); Begin 1 Read; Commit 0; Did 1 (OpGet 1 10 None);
   Begin 2 Write; Did 2 (OpGet 1 10 (Some 5)); Did 2 (OpPut 1 10 6); Did 2 (OpIterate 1 [(10, 6)]);
   Did 1 (OpGet 1 10 None); Commit 2; Dropped 1; Begin 3 Write; Did 3 (OpDelete 1 10); Rollback 3].
Definition sample_system : @System Z Z _ _ _ _ :=
  match run Z.le (initial true) sample_events with Some s => s | None => initial true end.

Lemma store_serializable_witness :
  replay Z.le ∅ (serial sample_events (length (commits sample_events))) = Some (data (backend sample_system)) ∧
  ∀ t, ∃ n, (n <= length (commits sample_events))%nat ∧
    is_Some (replay Z.le ∅ (serial sample_events n ++ ops_of t sample_events)).
Proof. apply (store_serializable Z.le). vm_compute. reflexivity. Defined.

Lemma put_get_delete_witness : ∃ d' : gmap Z (gmap Z Z),
  put (λ k : Z, Ok (k + 1)) (λ v : Z, Ok (2 * v)) ∅ 7 3 4 = Ok d' ∧
  get (λ k : Z, Ok (k + 1)) (λ r, Ok (r / 2)) d' 7 3 = Ok (Some 4).
Proof.
  eexists. split; [reflexivity|].
  refine (proj1 (put_get_delete (λ k : Z, Ok (k + 1)) (λ v : Z, Ok (2 * v)) (λ r, Ok (r / 2)) ∅ 7 3 4 _ _ _)).
  - intros vr [= <-]. reflexivity.
  - reflexivity.
Defined.

(** Without the lock an update can be lost: two transactions read a counter and write
    it back, both commit, and no serial order gives the answers they got. *)
Definition racing_events : list (@Event Z Z) :=
  [Begin 0 Write; Begin 1 Write; Did 0 (OpGet 1 10 None); Did 1 (OpGet 1 10 None);
   Did 0 (OpPut 1 10 1); Did 1 (OpPut 1 10 1); Commit 0; Commit 1].
Lemma unlocked_store_loses_updates :
  is_Some (run Z.le (initial false) racing_events) ∧
  replay Z.le ∅ (ops_of 0 racing_events ++ ops_of 1 racing_events) = None ∧
  replay Z.le ∅ (ops_of 1 racing_events ++ ops_of 0 racing_events) = None.
Proof. split_and!; [eexists|..]; vm_compute; reflexivity. Qed.
