(* ===== verification/Gas.v ===== *)
(** * Gas prices of the Ethereum API ([eth/api/src/gas/mod.rs], [gas/output.rs], [apis/eth.rs])

    What a transaction pays, what it tips, and the premium recommended to clients.
    Amounts of tokens are unbounded integers, gas is counted in [u64] and [i64].

    The theorems show that the outcome of a transaction accounts for all of its
    deposit, and what the recommendation really is: the quotients of the rounding
    steps are computed and thrown away, so the "median" is the sum of two premiums
    and the noise that should be within one percent doubles the result. *)

From stdpp Require Import base tactics numbers list sorting strings.
From Stdlib Require Import ZArith Lia QArith.QArith Qround.
From S2P Require Import Prelude.

Open Scope Z_scope.

(** ** The outcome of a transaction ([output.rs]) *)

Record GasOutputs := mkGasOutputs {
  base_fee_burn : Z;
  over_estimation_burn : Z;
  miner_penalty : Z;
  miner_tip : Z;
  refund : Z;
  gas_refund : Z;
  gas_burned : Z;
}.

(** The products are computed in [u128], where they fit. *)
Definition compute_gas_overestimation_burn (gas_used gas_limit : Z) : Z * Z :=
  if gas_used =? 0 then (0, gas_limit) else
  let over := Z.min (saturating_sub gas_limit (11 * gas_used / 10)) gas_used in
  let gas_remaining := saturating_sub gas_limit gas_used in
  let gas_to_burn := gas_remaining * over / gas_used in
  (wrap64 (saturating_sub gas_remaining gas_to_burn), wrap64 gas_to_burn).

Definition compute (gas_used gas_limit base_fee fee_cap gas_premium : Z) : GasOutputs :=
  let base_fee_to_pay := if fee_cap <? base_fee then fee_cap else base_fee in
  let penalty := if fee_cap <? base_fee then (base_fee - fee_cap) * gas_used else 0 in
  let burn := base_fee_to_pay * gas_used in
  let tip := if fee_cap <? base_fee_to_pay + gas_premium then fee_cap - base_fee_to_pay else gas_premium in
  let '(out_gas_refund, out_gas_burned) := compute_gas_overestimation_burn gas_used gas_limit in
  let over := if out_gas_burned =? 0 then 0 else base_fee_to_pay * out_gas_burned in
  let penalty' := if out_gas_burned =? 0 then penalty
                  else penalty + (base_fee - base_fee_to_pay) * out_gas_burned in
  mkGasOutputs burn over penalty' (tip * gas_limit)
    (fee_cap * gas_limit - burn - tip * gas_limit - over) out_gas_refund out_gas_burned.

(** ** Prices and premiums ([mod.rs]) *)

(** [gas_used] is an [i64]; the conversion to [u64] panics when it is negative.  The
    division of big integers rounds towards zero. *)
Definition effective_gas_price (gas_limit gas_fee_cap gas_premium base_fee gas_used : Z) : outcome string Z :=
  if gas_used <? 0 then Panic else
  let out := compute gas_used gas_limit base_fee gas_fee_cap gas_premium in
  let total_spend := base_fee_burn out + miner_tip out + over_estimation_burn out in
  Ok (if 0 <? gas_used then Z.quot total_spend gas_used else 0).

Definition effective_gas_premium (gas_fee_cap gas_premium base_fee : Z) : Z :=
  let available := if gas_fee_cap <? base_fee then 0 else gas_fee_cap - base_fee in
  if gas_premium <? available then gas_premium else available.

Definition wrap_i64 (x : Z) : Z := (x + 2 ^ 63) mod 2 ^ 64 - 2 ^ 63.

Definition price_ge (a b : Z * Z) : Prop := b.1 <= a.1.
#[local] Instance price_ge_dec : RelDecision price_ge := λ a b, decide (b.1 <= a.1).

(** The walk over the prices, down to the target. *)
Fixpoint walk_prices (at_ prev1 prev2 : Z) (prices : list (Z * Z)) : Z * Z :=
  match prices with
  | [] => (prev1, prev2)
  | (price, limit) :: prices =>
      let at' := wrap_i64 (at_ - limit) in
      if at' <? 0 then (price, prev1) else walk_prices at' price prev1 prices
  end.

(** [premium.div_ceil(2)] returns a quotient, which is not used. *)
Definition median_gas_premium (prices : list (Z * Z)) (block_gas_target : Z) : Z :=
  let prices := merge_sort price_ge prices in
  let blocks := Z.of_nat (length prices) in
  let at_ := wrap_i64 (Z.quot (wrap_i64 (block_gas_target * blocks)) 2 +
                       Z.quot (wrap_i64 (block_gas_target * blocks)) (2 * 20)) in
  let '(prev1, prev2) := walk_prices at_ 0 0 prices in
  if prev2 =? 0 then prev1 else prev1 + prev2.

(** ** The recommended premium ([apis/eth.rs], [max_priority_fee_per_gas]) *)

(** [1 << 32] is a shift of an [i32], whose distance is taken modulo 32. *)
Definition shl_i32 (x n : Z) : Z := (x * 2 ^ (n mod 32) + 2 ^ 31) mod 2 ^ 32 - 2 ^ 31.
Definition noise_coeff (noise : Q) : Z := Qfloor (noise * inject_Z (shl_i32 1 32)) + 1.

(** The heights whose transactions count, from [blk] down; [latest_h - num_blocks] wraps around. *)
Fixpoint premium_heights (latest_h num_blocks : Z) (blk : nat) : list Z :=
  if negb ((latest_h - num_blocks)%u64 <? Z.of_nat blk) then [] else
  match blk with
  | O | S O => []
  | S blk' => Z.of_nat blk :: premium_heights latest_h num_blocks blk'
  end.

Section priority_fee.
Context (BLOCK_GAS_LIMIT : Z).
(** The premiums and gas of the transactions of a block, as far as results are known. *)
Context (premiums_at : Z → list (Z * Z)).

Definition block_gas_target (max_gas : Z) : Z := if max_gas <=? 0 then BLOCK_GAS_LIMIT else max_gas.

Definition max_priority_fee_per_gas (latest_h num_blocks max_gas min_premium : Z) (noise : Q) : Z :=
  let premiums := concat (premiums_at <$> premium_heights latest_h num_blocks (Z.to_nat latest_h)) in
  let median := median_gas_premium premiums (block_gas_target max_gas) in
  let median := if median <? min_premium then min_premium else median in
  median * noise_coeff noise.
End priority_fee.

(** ** The history of fees ([apis/eth.rs], [fee_history]) *)

Record FeeHistory := mkFeeHistory {
  base_fee_per_gas : list Z;
  gas_used_ratio : list (Z * Z);   (* gas used and gas limit *)
  oldest_block : Z;
  reward : list (list Z);
}.

(** The premium at which the gas of the cheaper transactions reaches the threshold. *)
Fixpoint reward_index (premiums : list (Z * Z)) (threshold sum : Z) : Z :=
  match premiums with
  | [] => 0
  | [p] => p.1
  | p :: rest => if sum <? threshold then reward_index rest threshold (wrap_i64 (sum + p.2)) else p.1
  end.

Definition premium_le (a b : Z * Z) : Prop := a.1 < b.1 ∨ a.1 = b.1 ∧ a.2 <= b.2.
#[local] Instance premium_le_dec : RelDecision premium_le := λ a b, decide (_ ∨ _ ∧ _).

Section fee_history.
Context (BLOCK_GAS_LIMIT : Z) {P : Type}.
(** The base fee and the gas limit of a height; the gas used by each transaction of a
    block, if its results are known; the premium and the gas of the signed ones. *)
Context (base_fee_at : Z → outcome string Z) (max_gas_at : Z → outcome string Z)
  (block_results : Z → option (list Z)) (signed_premiums : Z → Z → outcome string (list (Z * Z)))
  (to_eth_tokens : Z → outcome string Z).
(** [(gas as f64 * p / 100f64) as i64] *)
Context (percentile : Z → P → Z).

Fixpoint rewards (premiums : list (Z * Z)) (ps : list P) : outcome string (list Z) :=
  match ps with
  | [] => Ok []
  | p :: ps =>
      r ← (match premiums with
           | [] => Ok 0
           | _ => to_eth_tokens (reward_index premiums (percentile (wrap_i64 (foldr Z.add 0 premiums.*2)) p) 0)
           end);
      rs ← rewards premiums ps;
      Ok (r :: rs)
  end.

(** One block: the fee of the next block comes first. *)
Definition fee_block (height : Z) (ps : list P) (hist : FeeHistory) : outcome string (FeeHistory * bool) :=
  fees ← (match base_fee_per_gas hist with
          | [] => next ← base_fee_at (height + 1); f ← to_eth_tokens next; Ok [f]
          | fees => Ok fees
          end);
  base_fee ← base_fee_at height;
  max_gas ← max_gas_at height;
  match block_results height with
  | None => Ok (mkFeeHistory fees (gas_used_ratio hist) (oldest_block hist) (reward hist), false)
  | Some txs_results =>
      premiums ← signed_premiums height base_fee;
      let premiums := merge_sort premium_le premiums in
      (* the rewards are collected before the tokens are converted, and checked after *)
      f ← to_eth_tokens base_fee;
      rs ← rewards premiums ps;
      Ok (mkFeeHistory (fees ++ [f])
            (gas_used_ratio hist ++ [(wrap_i64 (foldr Z.add 0 txs_results), block_gas_target BLOCK_GAS_LIMIT max_gas)])
            height (reward hist ++ [rs]), true)
  end.

(** From a block down to genesis, which has height 1. *)
Fixpoint fee_loop (height : nat) (block_count : nat) (ps : list P) (hist : FeeHistory) : outcome string FeeHistory :=
  match block_count with
  | O => Ok hist
  | S count' =>
      r ← fee_block (Z.of_nat height) ps hist;
      match height with
      | O | S O => Ok r.1
      | S height' => fee_loop height' (match r.2 with true => count' | false => block_count end) ps r.1
      end
  end.

Definition fee_history (max_fee_hist_size : Z) (block_count : nat) (last_height : nat) (ps : list P)
    : outcome string FeeHistory :=
  if max_fee_hist_size <? Z.of_nat block_count then Err "block_count must be <= 1024"%string else
  hist ← fee_loop last_height block_count ps (mkFeeHistory [] [] 0 []);
  Ok (mkFeeHistory (reverse (base_fee_per_gas hist)) (reverse (gas_used_ratio hist)) (oldest_block hist)
        (reverse (reward hist))).
End fee_history.

(** ** What a transaction pays *)

Lemma overestimation_bounds gas_used gas_limit : is_u64 gas_used → is_u64 gas_limit →
  let '(refunded, burned) := compute_gas_overestimation_burn gas_used gas_limit in
  0 <= refunded ∧ 0 <= burned ∧ refunded + burned = saturating_sub gas_limit gas_used.
Proof.
  unfold is_u64, compute_gas_overestimation_burn, saturating_sub, U64_MAX. intros Hu Hl.
  destruct (gas_used =? 0) eqn:E; zbool; [lia|].
  set (over := Z.min _ _). set (rem := Z.max 0 (gas_limit - gas_used)).
  assert (0 <= 11 * gas_used / 10) by (apply Z.div_pos; lia).
  assert (0 <= over <= gas_used) by lia.
  assert (0 <= rem * over / gas_used) by (apply Z.div_pos; nia).
  assert (rem * over / gas_used <= rem) by (apply Z.div_le_upper_bound; nia).
  rewrite !wrap64_small by (unfold is_u64, U64_MAX; lia). lia.
Qed.

(** All gas money is accounted for.  For every transaction that uses no more gas than
    its limit, burn, tip, overestimation burn and refund are not negative and add up
    to the deposit, the fee cap times the limit; used, burned and refunded gas add up
    to the limit; and the price shown to clients never claims more than was spent. *)
Theorem gas_outputs_bounds gas_used gas_limit base_fee fee_cap gas_premium :
  is_u64 gas_limit → 0 <= gas_used <= gas_limit → 0 <= base_fee → 0 <= fee_cap → 0 <= gas_premium →
  let out := compute gas_used gas_limit base_fee fee_cap gas_premium in
  0 <= base_fee_burn out ∧ 0 <= miner_tip out ∧ 0 <= over_estimation_burn out ∧ 0 <= miner_penalty out ∧
  0 <= refund out ∧
  base_fee_burn out + miner_tip out + over_estimation_burn out + refund out = fee_cap * gas_limit ∧
  0 <= gas_refund out ∧ 0 <= gas_burned out ∧ gas_used + gas_burned out + gas_refund out = gas_limit ∧
  ∃ price, effective_gas_price gas_limit fee_cap gas_premium base_fee gas_used = Ok price ∧
    0 <= price ∧ price * gas_used <= fee_cap * gas_limit - refund out.
Proof.
  intros Hl Hu Hb Hc Hp. unfold effective_gas_price, compute.
  assert (is_u64 gas_used) as Hu' by (unfold is_u64 in *; lia).
  pose proof (overestimation_bounds gas_used gas_limit Hu' Hl) as Ho.
  destruct (compute_gas_overestimation_burn gas_used gas_limit) as [r b] eqn:E.
  destruct Ho as (Hr & Hbu & Hsum). unfold saturating_sub in Hsum.
  set (pay := if fee_cap <? base_fee then fee_cap else base_fee).
  assert (0 <= pay <= fee_cap ∧ pay <= base_fee) as [Hpay Hpay'] by (unfold pay; destruct (fee_cap <? base_fee) eqn:?; zbool; lia).
  set (tip := if fee_cap <? pay + gas_premium then fee_cap - pay else gas_premium).
  assert (0 <= tip <= fee_cap - pay) by (unfold tip; destruct (fee_cap <? pay + gas_premium) eqn:?; zbool; lia).
  cbn [base_fee_burn over_estimation_burn miner_penalty miner_tip refund gas_refund gas_burned].
  rewrite (proj2 (Z.ltb_ge gas_used 0)) by lia.
  assert ((if b =? 0 then 0 else pay * b) = pay * b) as -> by (destruct (b =? 0) eqn:?; zbool; subst; lia).
  assert (0 <= fee_cap * gas_limit - pay * gas_used - tip * gas_limit - pay * b) by nia.
  split_and!; try nia.
  - destruct (b =? 0), (fee_cap <? base_fee) eqn:?; zbool; nia.
  - eexists. split; [done|]. destruct (0 <? gas_used) eqn:Eu; zbool; [|nia].
    assert (0 <= pay * gas_used + tip * gas_limit + pay * b) by nia.
    rewrite Z.quot_div_nonneg by lia. split; [by apply Z.div_pos|].
    pose proof (Z.mul_div_le (pay * gas_used + tip * gas_limit + pay * b) gas_used ltac:(lia)). nia.
Qed.

Lemma gas_outputs_bounds_witness : ∃ price, effective_gas_price 130 11 1 10 100 = Ok price ∧ price * 100 <= 11 * 130 - 240.
Proof.
  pose proof (gas_outputs_bounds 100 130 10 11 1) as H.
  destruct H as (_ & _ & _ & _ & _ & _ & _ & _ & _ & price & Hp & _ & Hle); [done|lia|lia|lia|lia|].
  exists price. split; [exact Hp|exact Hle].
Defined.

(** ** What is recommended *)

Lemma wrap_i64_small x : - 2 ^ 63 <= x < 2 ^ 63 → wrap_i64 x = x.
Proof. intros ?. unfold wrap_i64. rewrite Z.mod_small by lia. lia. Qed.
Lemma noise_coeff_two noise : (1 <= noise)%Q → (noise < 2)%Q → noise_coeff noise = 2.
Proof.
  intros H1 H2. unfold noise_coeff. change (shl_i32 1 32) with 1.
  assert (noise * inject_Z 1 == noise)%Q as Hn by apply Qmult_1_r.
  assert (Qfloor (noise * inject_Z 1) = 1) as ->; [|done].
  apply Z.le_antisymm.
  - apply Z.lt_succ_r. rewrite Zlt_Qlt. eapply Qle_lt_trans; [apply Qfloor_le|]. by rewrite Hn.
  - change 1 with (Qfloor 1) at 1. apply Qfloor_resp_le. by rewrite Hn.
Qed.

(** A walk over equal prices ends with that price twice, once two have been seen. *)
Lemma walk_equal_prices n at_ p g : walk_prices at_ p p (replicate n (p, g)) = (p, p).
Proof.
  revert at_. induction n as [|n IH]; intros at_; [done|]. simpl. by destruct (wrap_i64 (at_ - g) <? 0).
Qed.
Lemma sorted_replicate n (x : Z * Z) : merge_sort price_ge (replicate n x) = replicate n x.
Proof.
  symmetry. apply replicate_Permutation. symmetry. apply merge_sort_Permutation.
Qed.

Lemma median_of_equal_prices n p g target :
  0 < p → 0 <= g <= target → (2 <= n)%nat → target * Z.of_nat n < 2 ^ 62 →
  median_gas_premium (replicate n (p, g)) target = 2 * p.
Proof.
  intros Hp Hg Hn Hsmall. unfold median_gas_premium. rewrite sorted_replicate, length_replicate.
  assert (0 <= target * Z.of_nat n) by nia.
  rewrite (wrap_i64_small (target * Z.of_nat n)) by lia.
  set (at_ := wrap_i64 _).
  assert (g <= at_ < 2 ^ 63) as Hat.
  { unfold at_. rewrite !Z.quot_div_nonneg by lia.
    assert (target <= target * Z.of_nat n / 2) by (apply Z.div_le_lower_bound; nia).
    assert (0 <= target * Z.of_nat n / (2 * 20)) by (apply Z.div_pos; lia).
    assert (target * Z.of_nat n / 2 <= 2 ^ 61) by (apply Z.div_le_upper_bound; lia).
    assert (target * Z.of_nat n / (2 * 20) <= 2 ^ 61) by (apply Z.div_le_upper_bound; lia).
    rewrite wrap_i64_small by lia. lia. }
  destruct n as [|[|n]]; [lia|lia|]. cbn [replicate walk_prices].
  rewrite (wrap_i64_small (at_ - g)) by lia. rewrite (proj2 (Z.ltb_ge _ 0)) by lia.
  rewrite walk_equal_prices. assert ((if wrap_i64 (at_ - g - g) <? 0 then (p, p) else (p, p)) = (p, p)) as -> by by case_match.
  rewrite (proj2 (Z.eqb_neq p 0)) by lia. lia.
Qed.

(** The recommended premium is four times what was paid.  When all recent transactions
    paid the same premium, at least the configured minimum, clients are told to pay
    four times as much: the sum of two prices is not halved, and the shift that should
    scale the noise is taken modulo 32, so that the factor is always two.  The quotients
    that would undo both are computed and dropped. *)
Theorem recommended_premium_quadruples limit premiums_at latest_h num_blocks max_gas min_premium noise n p g :
  concat (premiums_at <$> premium_heights latest_h num_blocks (Z.to_nat latest_h)) = replicate n (p, g) →
  (2 <= n)%nat → 0 < p → min_premium <= p → 0 <= g <= block_gas_target limit max_gas →
  block_gas_target limit max_gas * Z.of_nat n < 2 ^ 62 → (1 <= noise)%Q → (noise < 2)%Q →
  max_priority_fee_per_gas limit premiums_at latest_h num_blocks max_gas min_premium noise = 4 * p.
Proof.
  intros Hps Hn Hp Hmin Hg Hsmall H1 H2. unfold max_priority_fee_per_gas. rewrite Hps.
  rewrite median_of_equal_prices by done. rewrite (proj2 (Z.ltb_ge _ min_premium)) by lia.
  rewrite noise_coeff_two by done. lia.
Qed.

Lemma recommended_premium_quadruples_witness :
  max_priority_fee_per_gas 10000000000 (λ _, [(100, 21000)]) 10 4 (-1) 7 (201 # 200) = 400.
Proof.
  apply (recommended_premium_quadruples 10000000000 (λ _, [(100, 21000)]) 10 4 (-1) 7 (201 # 200) 4 100 21000);
    first [reflexivity | vm_compute; done | lia | idtac].
  all: vm_compute; try done; intuition discriminate.
Defined.

(** Below [num_blocks] the lower bound wraps around, and no transaction counts. *)
Lemma young_chain_has_no_premiums latest_h num_blocks :
  0 <= latest_h < num_blocks → num_blocks <= U64_MAX →
  premium_heights latest_h num_blocks (Z.to_nat latest_h) = [].
Proof.
  intros Hl Hn. unfold U64_MAX in Hn.
  assert ((latest_h - num_blocks)%u64 <? Z.of_nat (Z.to_nat latest_h) = false) as Hf.
  { apply Z.ltb_ge. rewrite sub64_underflow by (unfold is_u64, U64_MAX; lia). lia. }
  destruct (Z.to_nat latest_h); cbn [premium_heights]; by rewrite Hf.
Qed.

(** The history has one entry per block asked for or left, and one more base fee. *)
Lemma fee_loop_lengths {P} limit base max_gas results signed tokens (pct : Z → P → Z) height count ps hist hist' :
  fee_loop limit base max_gas results signed tokens pct height count ps hist = Ok hist' →
  (∀ h, is_Some (results h)) → (0 < height)%nat →
  (base_fee_per_gas hist = [] ∨ length (base_fee_per_gas hist) = S (length (reward hist))) →
  (base_fee_per_gas hist = [] → reward hist = []) → (0 < count)%nat →
  length (base_fee_per_gas hist') = S (length (reward hist')) ∧
  length (reward hist') = (length (reward hist) + Nat.min count height)%nat.
Proof.
  intros Hrun Hres. revert count hist Hrun. induction height as [|height IH]; intros count hist Hrun Hh Hlen Hnil Hc; [lia|].
  destruct count as [|count]; [lia|]. cbn [fee_loop] in Hrun.
  apply bind_Ok in Hrun as ([h1 b] & Hb & Hrun). unfold fee_block in Hb.
  apply bind_Ok in Hb as (fees & Hfees & (bf & _ & (mg & _ & Hb)%bind_Ok)%bind_Ok).
  destruct (Hres (Z.of_nat (S height))) as [txs Htxs]. rewrite Htxs in Hb.
  apply bind_Ok in Hb as (prem & _ & (f & _ & (rs & _ & [= <- <-])%bind_Ok)%bind_Ok).
  assert (length fees = S (length (reward hist))) as Hf.
  { destruct (base_fee_per_gas hist) as [|x l]; [|injection Hfees as <-; naive_solver].
    apply bind_Ok in Hfees as (nx & _ & (f' & _ & [= <-])%bind_Ok). rewrite (Hnil eq_refl). done. }
  destruct height as [|height].
  - injection Hrun as <-. cbn. rewrite !length_app, Hf. simpl. lia.
  - destruct count as [|count].
    + destruct height; cbn in Hrun; injection Hrun as <-; cbn; rewrite !length_app, Hf; simpl; lia.
    + apply IH in Hrun as [H1 H2]; [| simpl; lia | | | simpl; lia].
      * split; [done|]. rewrite H2. cbn. rewrite length_app. simpl. lia.
      * right. cbn. rewrite !length_app, Hf. simpl. lia.
      * cbn. by destruct fees.
Qed.
