(* ===== verification/TmConv.v ===== *)
(** * Answers to CometBFT ([app/src/tmconv.rs])

    The application turns what the FVM returned into the types of ABCI: results of
    transactions with their events and codes, and answers to checks.  CometBFT
    indexes the events and hands the answers to its clients, of which the Ethereum
    API is one; [EthConv] and [EthPool] read what is written here.

    [hex] is another crate: [HexCodec].  Attributes of events are pairs of strings;
    the older representation as bytes, which [key_str] may fail on, is never
    written by this code. *)

From Stdlib Require Import Ascii String.
From stdpp Require Import base tactics numbers list gmap.
From S2P Require Import Prelude Voting IpcApi Finality Provider CetfActor Message Checkpoint Exec Chain App.

Open Scope Z_scope.

(** ** Parameters *)

Class HexCodec := {
  hex_encode : bytes → string;
  hex_decode : string → option bytes;
}.
Definition is_bytes (b : bytes) : Prop := Forall (λ x, 0 <= x < 256) b.
Class HexCodecLaws `{HexCodec} : Prop := {
  hex_roundtrip b : is_bytes b → hex_decode (hex_encode b) = Some b;
}.

(** ** The types of ABCI *)

Inductive Code := CodeOk | CodeErr (code : Z).
Record EventAttribute := mkAttr { attr_key : string; attr_value : string; attr_index : bool }.
Record AbciEvent := mkAbciEvent { kind : string; attributes : list EventAttribute }.
Record TxResult := mkTxResult {
  tr_code : Code;
  tr_data : bytes;
  tr_log : string;
  tr_info : string;
  tr_gas_wanted : Z;
  tr_gas_used : Z;
  tr_events : list AbciEvent;
}.
Record CheckTx := mkCheckTx {
  ct_code : Code;
  ct_data : bytes;
  ct_log : string;
  ct_info : string;
  ct_gas_wanted : Z;
  ct_sender : string;
}.

(** ** Codes

    [ExitCode] is a [u32]; [exit_value] and [exit_new] are [ExitCode::value] and
    [ExitCode::new]. *)

Definition exit_value (c : ExitCode) : Z :=
  match c with
  | ExitOk => 0
  | SYS_SENDER_INVALID => 1
  | SYS_SENDER_STATE_INVALID => 2
  | SYS_ASSERTION_FAILED => 10
  | ExitOther c => c
  end.
Definition exit_new (v : Z) : ExitCode :=
  match v with
  | 0 => ExitOk
  | 1 => SYS_SENDER_INVALID
  | 2 => SYS_SENDER_STATE_INVALID
  | 10 => SYS_ASSERTION_FAILED
  | _ => ExitOther v
  end.
(** The codes of which [ExitOther] is the name. *)
Definition exit_canonical (c : ExitCode) : Prop := exit_new (exit_value c) = c.

Definition app_error_code (e : AppError) : Z :=
  match e with InvalidEncoding => 51 | InvalidSignature => 52 | IllegalMessage => 53 | NotInitialized => 54 end.

Definition to_code (c : ExitCode) : outcome string Code :=
  if is_success c then Ok CodeOk
  else if exit_value c =? 0 then Panic else Ok (CodeErr (exit_value c)).
Definition code_value (c : Code) : Z := match c with CodeOk => 0 | CodeErr v => v end.
Definition code_is_ok (c : Code) : bool := match c with CodeOk => true | CodeErr _ => false end.

Definition to_error_msg (c : ExitCode) : string :=
  match exit_value c with
  | 0 => ""
  | 1 => "The message sender doesn't exist."
  | 2 => "The message sender was not in a valid state to send this message. Either the nonce didn't match, or the sender didn't have funds to cover the message gas."
  | 4 => "The message receiver trapped (panicked)."
  | 5 => "The message receiver doesn't exist and can't be automatically created"
  | 6 => "The message sender didn't have the requisite funds."
  | 7 => "Message execution (including subcalls) used more gas than the specified limit."
  | 9 => "The message receiver aborted with a reserved exit code."
  | 10 => "An internal VM assertion failed."
  | 11 => "The actor returned a block handle that doesn't exist"
  | 16 => "The method parameters are invalid."
  | 17 => "The requested resource does not exist."
  | 18 => "The requested operation is forbidden."
  | 19 => "The actor has insufficient funds to perform the requested operation."
  | 20 => "The actor's internal state is invalid."
  | 21 => "There was a de/serialization failure within actor code."
  | 22 => "The message cannot be handled (usually indicates an unhandled method number)."
  | 23 => "The actor failed with an unspecified error."
  | 24 => "The actor failed a user-level assertion."
  | 25 => "The requested operation cannot be performed in 'read-only' mode."
  | 26 => "The method cannot handle a transfer of value."
  | _ => ""
  end%string.

Section tmconv.
Context {A : Type} `{AddressOps A} `{HexCodec}.

(** ** Events *)

Definition event_attributes (se : StampedEvent) (deleg : option A) : list EventAttribute :=
  mkAttr "emitter.id" (u64_to_string (emitter se)) true ::
  match deleg with
  | Some addr => [mkAttr "emitter.deleg" (addr_to_string addr) true]
  | None => []
  end ++
  ((λ e, mkAttr (entry_key e) (hex_encode (entry_value e)) (negb (entry_flags e =? 0))) <$> entries se).
Definition to_events (k : string) (stamped_events : list StampedEvent) (emitters : gmap Z A) : list AbciEvent :=
  (λ se, mkAbciEvent k (event_attributes se (emitters !! emitter se))) <$> stamped_events.

Definition to_domain_hash_event (h : bytes) : AbciEvent :=
  mkAbciEvent "eth" [mkAttr "hash" (hex_encode h) true].
Definition block_hash_event (h : bytes) : AbciEvent :=
  mkAbciEvent "block" [mkAttr "hash" (hex_encode h) true].
Definition to_message_event (from to : A) : AbciEvent :=
  mkAbciEvent "message" [mkAttr "from" (addr_to_string from) true; mkAttr "to" (addr_to_string to) true].

(** ** Answers *)

(** [u64::try_into().unwrap_or(i64::MAX)] *)
Definition u64_to_i64 (x : Z) : Z := if x <=? I64_MAX then x else I64_MAX.
(** [Option::filter(|s| !s.is_empty())], and the message of the code otherwise. *)
Definition message_or (info : option string) (c : ExitCode) : string :=
  default (to_error_msg c) (info ≫= non_empty).

Definition to_exec_tx_result `{!Countable A} (ret : FvmApplyRet A) (domain_hash block_hash : option bytes)
    : outcome string TxResult :=
  let r := apply_ret ret in
  code ← to_code (exit_code r);
  Ok (mkTxResult code (return_data r) "" (message_or (failure_info r) (exit_code r))
        (u64_to_i64 (ret_gas_limit ret)) (u64_to_i64 (gas_used r))
        (to_events "event" (events r) (emitters ret) ++
         match block_hash with Some h => [block_hash_event h] | None => [] end ++
         match domain_hash with Some h => [to_domain_hash_event h] | None => [] end ++
         [to_message_event (ret_from ret) (ret_to ret)])).
Definition invalid_exec_tx_result (err : AppError) (description : string) : TxResult :=
  mkTxResult (CodeErr (app_error_code err)) [] "" description 0 0 [].

Definition to_check_tx (ret : FvmCheckRet A) : outcome string CheckTx :=
  code ← to_code (check_exit_code ret);
  Ok (mkCheckTx code (default [] (check_return_data ret))
        (message_or (check_info ret) (check_exit_code ret)) ""
        (u64_to_i64 (check_gas_limit ret)) (addr_to_string (check_sender ret))).
Definition invalid_check_tx (err : AppError) (description : string) : CheckTx :=
  mkCheckTx (CodeErr (app_error_code err)) [] "" description 0 "".

(** What the application answers for the results of [App]. *)
Definition exec_response `{!Countable A} (r : ExecTxResult A) : outcome string TxResult :=
  match r with
  | ExecInvalid err info => Ok (invalid_exec_tx_result err info)
  | ExecRet ret domain_hash block_hash => to_exec_tx_result ret domain_hash block_hash
  end.
Definition check_response (r : CheckTxResult A) : outcome string CheckTx :=
  match r with
  | CheckInvalid err info => Ok (invalid_check_tx err info)
  | CheckRet ret => to_check_tx ret
  end.
Definition begin_events `{!Countable A} (ret : FvmApplyRet A) : list AbciEvent :=
  to_events "event" (events (apply_ret ret)) (emitters ret).
End tmconv.

(** ** Lemmas *)

(** A failure is answered with its own code, which the client reads back. *)
Lemma to_code_spec c :
  exit_canonical c → 0 <= exit_value c → ∃ code, to_code c = Ok code ∧ exit_new (code_value code) = c ∧
    code_is_ok code = is_success c.
Proof.
  intros Hc Hpos. unfold to_code. destruct (is_success c) eqn:Hs.
  - destruct c; try done. by exists CodeOk.
  - destruct (exit_value c =? 0) eqn:Hz.
    + zbool. unfold exit_canonical in Hc. rewrite Hz in Hc. simpl in Hc. by subst.
    + eexists. split; [done|]. by split.
Qed.

Section tmconv_lemmas.
Context {A : Type} `{AddressOps A} `{HexCodec}.
Implicit Types (em : gmap Z A).

Lemma to_events_kind k evs em e : e ∈ to_events k evs em → kind e = k.
Proof. unfold to_events. by intros (se & -> & _)%list_elem_of_fmap. Qed.
Lemma to_events_length k evs em : length (to_events k evs em) = length evs.
Proof. apply length_fmap. Qed.

(** The events of a result other than those of actors. *)
Definition extra_events (domain_hash block_hash : option bytes) (from to : A) : list AbciEvent :=
  match block_hash with Some h => [block_hash_event h] | None => [] end ++
  match domain_hash with Some h => [to_domain_hash_event h] | None => [] end ++
  [to_message_event from to].
Lemma exec_tx_result_events `{!Countable A} (ret : FvmApplyRet A) dh bh r :
  to_exec_tx_result ret dh bh = Ok r →
  tr_events r = to_events "event" (events (apply_ret ret)) (emitters ret) ++
                extra_events dh bh (ret_from ret) (ret_to ret).
Proof. unfold to_exec_tx_result. by intros (code & _ & [= <-])%bind_Ok. Qed.
End tmconv_lemmas.

(** ** A hexadecimal codec *)

Definition hex_digits : list ascii :=
  ["0"; "1"; "2"; "3"; "4"; "5"; "6"; "7"; "8"; "9"; "a"; "b"; "c"; "d"; "e"; "f"]%char.
Definition hex_digit (n : Z) : ascii := default "0"%char (hex_digits !! Z.to_nat n).
Definition hex_value (c : ascii) : option Z := Z.of_nat ∘ fst <$> list_find (λ d, d = c) hex_digits.
Fixpoint lower_hex (b : bytes) : string :=
  match b with
  | [] => EmptyString
  | x :: b => String (hex_digit (x / 16)) (String (hex_digit (x mod 16)) (lower_hex b))
  end.
Fixpoint of_lower_hex (s : string) : option bytes :=
  match s with
  | EmptyString => Some []
  | String h (String l s) =>
      h ← hex_value h; l ← hex_value l; b ← of_lower_hex s; Some (16 * h + l :: b)
  | _ => None
  end.
#[export] Instance lower_hex_codec : HexCodec := { hex_encode := lower_hex; hex_decode := of_lower_hex }.

Lemma hex_value_digit n : 0 <= n < 16 → hex_value (hex_digit n) = Some n.
Proof.
  intros Hn. assert (n ∈ seqZ 0 16) as Hin by (apply elem_of_seqZ; lia).
  revert n Hin Hn. apply (Forall_forall (λ n, 0 <= n < 16 → hex_value (hex_digit n) = Some n)).
  vm_compute. repeat constructor; done.
Qed.
#[export] Instance lower_hex_laws : HexCodecLaws.
Proof.
  split. intros b Hb. simpl. induction Hb as [|x b Hx _ IH]; [done|].
  cbn [lower_hex of_lower_hex].
  pose proof (Z.mod_pos_bound x 16). assert (0 <= x / 16 < 16) by (split; [apply Z.div_pos|apply Z.div_lt_upper_bound]; lia).
  rewrite !hex_value_digit by lia. simpl. rewrite IH. simpl. do 2 f_equal.
  pose proof (Z.div_mod x 16). lia.
Qed.
