(* ===== verification/EthConv.v ===== *)
(** * Ethereum's view of blocks, transactions and events
    ([eth/api/src/conv/from_tm.rs], [conv/from_eth.rs], [rpc/src/response.rs])

    The Ethereum API asks CometBFT for blocks and results of transactions, and
    presents them in the format of Ethereum: the events of actors as logs, signed
    messages as transactions, and results as receipts.

    [Bytes.TxCodec] decodes transactions and [TmConv.HexCodec] attributes.  SHA-256,
    CIDs, Base64 and the CBOR of a [CreateReturn] are other crates: [EthApiExt].
    Fields of blocks and receipts that are constants of Ethereum (difficulty, bloom
    filters, uncles and the like) are left out of the records. *)

From Stdlib Require Import Ascii String.
From stdpp Require Import base tactics numbers list gmap sorting.
From S2P Require Import Prelude Voting IpcApi Finality Provider CetfActor Message Checkpoint Exec Chain Bytes App.
From S2P Require Import TmConv Gas.

Open Scope Z_scope.

(** ** Parameters *)

Class EthApiExt := {
  sha256 : bytes → bytes;
  (** [Cid::try_from] on bytes, and the digest of the hash *)
  cid_digest : bytes → option bytes;
  (** [String::from_utf8] followed by Base64 *)
  base64_decode : bytes → option bytes;
  (** the Ethereum address in the CBOR of a [CreateReturn] *)
  create_return : bytes → option bytes;
}.

(** ** Data *)

Record Log := mkLog {
  log_address : bytes;
  topics : list bytes;
  log_data : bytes;
  log_block_hash : bytes;
  log_block_number : Z;
  log_transaction_hash : bytes;
  log_transaction_index : Z;
  log_index : Z;
  transaction_log_index : Z;
}.
Record EthTransaction := mkEthTransaction {
  et_hash : bytes;
  et_nonce : Z;
  et_block_hash : option bytes;
  et_block_number : option Z;
  et_transaction_index : option Z;
  et_from : bytes;
  et_to : option bytes;
  et_value : Z;
  et_gas : Z;
  et_max_fee_per_gas : option Z;
  et_max_priority_fee_per_gas : option Z;
  et_gas_price : option Z;
  et_input : bytes;
  et_chain_id : option Z;
  et_v : Z;
  et_r : Z;
  et_s : Z;
}.
(** The parts of CometBFT's [Block] and of the response to a query for a transaction
    that are used. *)
Record TmBlock := mkTmBlock {
  tb_hash : bytes;
  tb_height : Z;
  tb_time : Z;
  tb_last_block_hash : option bytes;
  tb_data_hash : option bytes;
  tb_proposer : bytes;
  tb_app_hash : bytes;
  tb_data : list bytes;
}.
Record TxResponse := mkTxResponse {
  resp_height : Z;
  resp_index : Z;
  resp_result : TxResult;
  resp_tx : bytes;
}.
Record EthBlock := mkEthBlock {
  eb_hash : bytes;
  eb_parent_hash : bytes;
  eb_number : Z;
  eb_timestamp : Z;
  eb_author : bytes;
  eb_state_root : bytes;
  eb_transactions_root : bytes;
  eb_base_fee_per_gas : Z;
  eb_transactions : list EthTransaction;
  eb_size : Z;
  eb_gas_limit : Z;
  eb_gas_used : Z;
}.
Record Receipt := mkReceipt {
  rc_transaction_hash : bytes;
  rc_transaction_index : Z;
  rc_block_hash : bytes;
  rc_block_number : Z;
  rc_from : bytes;
  rc_to : option bytes;
  rc_cumulative_gas_used : Z;
  rc_gas_used : Z;
  rc_contract_address : option bytes;
  rc_logs : list Log;
  rc_status : Z;
  rc_root : bytes;
  rc_effective_gas_price : Z;
}.

(** [H256::from_slice] panics on another length; [U256] panics on negative numbers
    and on overflow. *)
Definition h256 {E} (b : bytes) : outcome E bytes := if decide (length b = 32%nat) then Ok b else Panic.
Definition h160 {E} (b : bytes) : outcome E bytes := if decide (length b = 20%nat) then Ok b else Panic.
Definition u256_from_i64 {E} (x : Z) : outcome E Z := if x <? 0 then Panic else Ok x.
Definition u256_add {E} (a b : Z) : outcome E Z := if a + b <=? MAX_U256 then Ok (a + b) else Panic.
Definition zero_hash : bytes := repeat 0 32.

(** Keccak-256 of the RLP of null *)
Definition EMPTY_ROOT_HASH : bytes :=
  [0x56; 0xe8; 0x1f; 0x17; 0x1b; 0xcc; 0x55; 0xa6; 0xff; 0x83; 0x45; 0xe6; 0x92; 0xc0; 0xf8; 0x6e;
   0x5b; 0x48; 0xe0; 0x1b; 0x99; 0x6c; 0xad; 0xc0; 0x01; 0x62; 0x2f; 0xb5; 0xe3; 0x63; 0xb4; 0x21].

(** ** Attributes of events *)

Definition find_attr (key : string) (attrs : list EventAttribute) : option string :=
  attr_value <$> List.find (λ a, String.eqb (attr_key a) key) attrs.

(** The index of a topic from its key. *)
Definition topic_index (key : string) : option nat :=
  if String.eqb key "t1" then Some 0%nat
  else if String.eqb key "t2" then Some 1%nat
  else if String.eqb key "t3" then Some 2%nat
  else if String.eqb key "t4" then Some 3%nat
  else None.
(** [while topics.len() <= i { topics.push(default) }; topics[i] = h] *)
Definition set_topic (i : nat) (h : bytes) (ts : list bytes) : list bytes :=
  <[i := h]> (ts ++ replicate (S i - length ts) zero_hash).

Section conv.
Context {A : Type} `{AddressPayload A} `{!Countable A} `{!MsgCrypto A} `{!TxCodec A} `{HexCodec} `{EthApiExt}.

Definition decode_value (a : EventAttribute) : outcome string bytes :=
  ok_or "failed to decode attr value as hex"%string (hex_decode (attr_value a)).
Definition topic_step (acc : list bytes * option bytes) (a : EventAttribute)
    : outcome string (list bytes * option bytes) :=
  match topic_index (attr_key a) with
  | Some i =>
      bz ← decode_value a;
      if decide (length bz = 32%nat) then Ok (set_topic i bz acc.1, acc.2)
      else Err "unexpected topic value"%string
  | None =>
      if String.eqb (attr_key a) "d" then bz ← decode_value a; Ok (acc.1, Some bz) else Ok acc
  end.
Fixpoint topics_loop (acc : list bytes * option bytes) (attrs : list EventAttribute)
    : outcome string (list bytes * option bytes) :=
  match attrs with
  | [] => Ok acc
  | a :: attrs => acc ← topic_step acc a; topics_loop acc attrs
  end.
Definition to_topics_and_data (attrs : list EventAttribute) : outcome string (list bytes * bytes) :=
  r ← topics_loop ([], None) attrs; Ok (r.1, default [] r.2).

(** [parse().ok()] of an address, and [to_eth_address(..).ok().flatten()]. *)
Definition parse_addr (s : string) : option A := match addr_from_str s with inr a => Some a | inl _ => None end.
Definition eth_address_opt (a : A) : option bytes := match to_eth_address a with Ok o => o | _ => None end.

(** ** Logs *)

Definition to_log (bh : bytes) (bn : Z) (th : bytes) (ti : Z) (start : Z) (idx : Z) (e : AbciEvent)
    : outcome string Log :=
  let addr := find_attr "emitter.deleg" (attributes e) ≫= parse_addr in
  actor_id ← ok_or "cannot find the 'emitter.id' key"%string
               (find_attr "emitter.id" (attributes e) ≫= parse_u64);
  let address := default (from_id actor_id) (addr ≫= eth_address_opt) in
  td ← to_topics_and_data (attributes e);
  Ok (mkLog address td.1 td.2 bh bn th ti (idx + start) idx).
Fixpoint logs_loop bh bn th ti start (idx : Z) (evs : list AbciEvent) : outcome string (list Log) :=
  match evs with
  | [] => Ok []
  | e :: evs =>
      l ← to_log bh bn th ti start idx e;
      ls ← logs_loop bh bn th ti start (idx + 1) evs;
      Ok (l :: ls)
  end.
Definition is_actor_event (e : AbciEvent) : Prop := kind e = "event"%string.
#[local] Instance is_actor_event_dec e : Decision (is_actor_event e) := decide (kind e = "event"%string).
Definition to_logs (evs : list AbciEvent) (bh : bytes) (bn : Z) (th : bytes) (ti start : Z)
    : outcome string (list Log) :=
  logs_loop bh bn th ti start 0 (filter is_actor_event evs).

(** ** Hashes *)

Definition find_hash_event (k : string) (evs : list AbciEvent) : option bytes :=
  e ← List.find (λ e, String.eqb (kind e) k) evs;
  v ← find_attr "hash" (attributes e);
  bz ← hex_decode v;
  if decide (length bz = 32%nat) then Some bz else None.
Definition tx_hash (tx : bytes) : bytes := sha256 tx.
Definition msg_hash (evs : list AbciEvent) (tx : bytes) : outcome string bytes :=
  match find_hash_event "eth" evs with Some h => Ok h | None => h256 (tx_hash tx) end.

(** The addresses of the emitters, both forms of each. *)
Definition event_emitter_addrs (e : AbciEvent) : list A :=
  match find_attr "emitter.deleg" (attributes e) ≫= parse_addr with Some a => [a] | None => [] end ++
  match find_attr "emitter.id" (attributes e) ≫= parse_u64 with Some id => [addr_new_id id] | None => [] end.
Definition collect_emitters (evs : list AbciEvent) : gset A :=
  list_to_set (mjoin (event_emitter_addrs <$> filter is_actor_event evs)).

(** ** Transactions *)

(** [from_eth::to_eth_transaction]: a request as the transaction the API shows. *)
Definition request_to_transaction (tx : EthTx) (sig : EthSignature) (hash : bytes) : outcome string EthTransaction :=
  gas_price ← u256_add (default 0 (tx_max_fee_per_gas tx)) (default 0 (tx_max_priority_fee_per_gas tx));
  Ok (mkEthTransaction hash (default 0 (tx_nonce tx)) None None None (default zero_address (tx_from tx))
        (match tx_to tx with Some (EthTo a) => Some a | _ => None end)
        (default 0 (tx_value tx)) (default 0 (tx_gas tx)) (tx_max_fee_per_gas tx)
        (tx_max_priority_fee_per_gas tx) (Some gas_price) (default [] (tx_data tx)) (tx_chain_id tx)
        (sig_v sig) (sig_r sig) (sig_s sig)).
(** [from_tm::to_eth_transaction] *)
Definition to_eth_transaction (msg : SignedMessage A) (chain_id : Z) (hash : bytes) : outcome string EthTransaction :=
  sig ← to_eth_signature (A:=A) (signature msg) true;
  tx ← to_eth_transaction_request (message msg) chain_id;
  request_to_transaction tx sig hash.
Definition located (t : EthTransaction) (bh : bytes) (bn : Z) (idx : nat) : EthTransaction :=
  mkEthTransaction (et_hash t) (et_nonce t) (Some bh) (Some bn) (Some (Z.of_nat idx)) (et_from t) (et_to t)
    (et_value t) (et_gas t) (et_max_fee_per_gas t) (et_max_priority_fee_per_gas t) (et_gas_price t)
    (et_input t) (et_chain_id t) (et_v t) (et_r t) (et_s t).

(** ** Receipts *)

Fixpoint cumulative_loop (gas : Z) (count : Z) (rs : list TxResult) : outcome string (list (Z * Z)) :=
  match rs with
  | [] => Ok []
  | r :: rs =>
      g ← u256_from_i64 (tr_gas_used r);
      gas' ← u256_add gas g;
      let count' := count + Z.of_nat (length (tr_events r)) in
      rest ← cumulative_loop gas' count' rs;
      Ok ((gas', count') :: rest)
  end.
Definition to_cumulative (txs_results : option (list TxResult)) : outcome string (list (Z * Z)) :=
  match txs_results with Some rs => cumulative_loop 0 0 rs | None => Ok [] end.

Definition app_hash_to_root (app_hash : bytes) : outcome string bytes :=
  digest ← ok_or "app hash is not a CID"%string (cid_digest app_hash);
  match digest with [] => Ok zero_hash | _ => h256 digest end.

(** [rpc/src/response.rs] *)
Definition decode_data (data : bytes) : outcome string bytes :=
  ok_or "error parsing base64 to bytes"%string (base64_decode data).
Definition decode_fevm_return_data (data : bytes) : outcome string bytes :=
  match data with
  | [] => Ok []
  | _ => ok_or "failed to deserialize bytes returned by FEVM method invocation"%string (bytes_de (A:=A) data)
  end.
Definition decode_fevm_invoke (r : TxResult) : outcome string bytes :=
  data ← decode_data (tr_data r); decode_fevm_return_data data.
Definition decode_fevm_create (r : TxResult) : outcome string bytes :=
  data ← decode_data (tr_data r); ok_or "error parsing as CreateReturn"%string (create_return data).
Definition maybe_contract_address (r : TxResult) : option bytes :=
  match decode_fevm_create r with Ok a => Some a | _ => None end.

Definition to_eth_receipt (msg : SignedMessage A) (result : TxResponse) (cumulative : list (Z * Z))
    (header_hash header_app_hash : bytes) (base_fee : Z) : outcome string Receipt :=
  let m := message msg in
  let r := resp_result result in
  bh ← h256 header_hash;
  th ← msg_hash (tr_events r) (resp_tx result);
  price ← effective_gas_price (m_gas_limit m) (m_gas_fee_cap m) (m_gas_premium m) base_fee (tr_gas_used r);
  let '(gas, count) := default (0, 0) (cumulative !! Z.to_nat (resp_index result)) in
  let start := saturating_sub count (Z.of_nat (length (tr_events r))) in
  logs ← to_logs (tr_events r) bh (resp_height result) th (resp_index result) start;
  contract ← match (if code_is_ok (tr_code r) then maybe_contract_address r else None) with
             | Some a => a ← h160 a; Ok (Some a)
             | None => Ok None
             end;
  gas_used ← u256_from_i64 (tr_gas_used r);
  root ← app_hash_to_root header_app_hash;
  eff ← to_eth_tokens price;
  Ok (mkReceipt th (resp_index result) bh (resp_height result)
        (default zero_address (eth_address_opt (m_from m))) (eth_address_opt (m_to m)) gas gas_used
        contract logs (if code_is_ok (tr_code r) then 1 else 0) root eff).

(** ** Blocks *)

Record BlockTotals := mkTotals {
  bt_transactions : list EthTransaction;
  bt_size : Z;
  bt_gas_limit : Z;
  bt_gas_used : Z;
}.
(** One transaction of the block; a transaction without a result is skipped. *)
Definition block_step (chain_id : Z) (bh : bytes) (bn : Z) (results : list TxResult) (idx : nat) (data : bytes)
    (acc : BlockTotals) : outcome string BlockTotals :=
  match results !! idx with
  | None => Ok acc
  | Some r =>
      size ← u256_add (bt_size acc) (Z.of_nat (length data));
      used ← u256_from_i64 (tr_gas_used r);
      gas_used ← u256_add (bt_gas_used acc) used;
      wanted ← u256_from_i64 (tr_gas_wanted r);
      gas_limit ← u256_add (bt_gas_limit acc) wanted;
      msg ← ok_or "failed to decode tx as ChainMessage"%string (tx_from_slice data);
      match msg with
      | Signed sm =>
          hash ← msg_hash (tr_events r) data;
          tx ← to_eth_transaction sm chain_id hash;
          Ok (mkTotals (bt_transactions acc ++ [located tx bh bn idx]) size gas_limit gas_used)
      | _ => Ok (mkTotals (bt_transactions acc) size gas_limit gas_used)
      end
  end.
Fixpoint block_loop (chain_id : Z) (bh : bytes) (bn : Z) (results : list TxResult) (idx : nat) (data : list bytes)
    (acc : BlockTotals) : outcome string BlockTotals :=
  match data with
  | [] => Ok acc
  | tx :: rest =>
      acc ← block_step chain_id bh bn results idx tx acc;
      block_loop chain_id bh bn results (S idx) rest acc
  end.

(** [block_zero_hash] is the hash of the pretended block at height zero. *)
Definition to_eth_block (block_zero_hash : bytes) (block : TmBlock) (txs_results : option (list TxResult))
    (base_fee chain_id : Z) : outcome string EthBlock :=
  hash ← h256 (tb_hash block);
  parent ← (if tb_height block =? 1 then h256 block_zero_hash
            else match tb_last_block_hash block with Some h => h256 h | None => Ok zero_hash end);
  root ← match tb_data block, tb_data_hash block with
         | [], _ | _, None => Ok EMPTY_ROOT_HASH
         | _, Some h => h256 h
         end;
  author ← h160 (tb_proposer block);
  t ← block_loop chain_id hash (tb_height block) (default [] txs_results) 0 (tb_data block) (mkTotals [] 0 0 0);
  time ← u256_from_i64 (tb_time block);
  state_root ← app_hash_to_root (tb_app_hash block);
  fee ← to_eth_tokens base_fee;
  Ok (mkEthBlock hash parent (tb_height block) time author state_root root fee
        (bt_transactions t) (bt_size t) (bt_gas_limit t) (bt_gas_used t)).
End conv.

(** ** Facts *)

#[export] Instance is_actor_event_decision e : Decision (is_actor_event e) := is_actor_event_dec e.

(** The events of the EVM: up to four topics of 32 bytes, and data. *)
Definition topic_keys : list string := ["t1"; "t2"; "t3"; "t4"]%string.
Definition evm_entries (ts : list bytes) (data : option bytes) : list (string * bytes) :=
  zip topic_keys ts ++ match data with Some d => [("d"%string, d)] | None => [] end.
Record evm_event (se : StampedEvent) (ts : list bytes) (data : option bytes) : Prop := {
  evm_pairs : (λ e, (entry_key e, entry_value e)) <$> entries se = evm_entries ts data;
  evm_topics : (length ts <= 4)%nat ∧ Forall (λ t, length t = 32%nat ∧ is_bytes t) ts;
  evm_data : is_bytes (default [] data);
  evm_emitter : is_u64 (emitter se);
}.

Section facts.
Context {A : Type} `{AddressPayload A} `{!Countable A} `{!MsgCrypto A} `{!TxCodec A}.
Context {HX : HexCodec} {HL : HexCodecLaws} `{EthApiExt} `{!AddressLaws A}.
Implicit Types (em : gmap Z A) (se : StampedEvent).

Lemma topics_loop_app acc l1 l2 :
  topics_loop acc (l1 ++ l2) = acc' ← topics_loop acc l1; topics_loop acc' l2.
Proof.
  revert acc. induction l1 as [|a l1 IH]; intros acc; [done|]. cbn [topics_loop app].
  destruct (topic_step acc a); cbn [mbind outcome_bind]; [apply IH|done..].
Qed.

(** The attributes of the entries only depend on their keys and values. *)
Lemma topic_step_attr acc k v i j : topic_step acc (mkAttr k v i) = topic_step acc (mkAttr k v j).
Proof. done. Qed.
Lemma topics_loop_pairs acc es :
  topics_loop acc ((λ e, mkAttr (entry_key e) (hex_encode (entry_value e)) (negb (entry_flags e =? 0))) <$> es) =
  topics_loop acc ((λ p, mkAttr p.1 (hex_encode p.2) true) <$> ((λ e, (entry_key e, entry_value e)) <$> es)).
Proof.
  revert acc. induction es as [|e es IH]; intros acc; [done|].
  cbn [fmap list_fmap topics_loop fst snd]. rewrite (topic_step_attr _ _ _ _ true).
  destruct (topic_step _ _); cbn [mbind outcome_bind]; [apply IH|done..].
Qed.

Lemma topic_step_topic ts d k t i :
  topic_index k = Some i → length ts = i → length t = 32%nat → is_bytes t →
  topic_step (ts, d) (mkAttr k (hex_encode t) true) = Ok (ts ++ [t], d).
Proof.
  intros Hk Hi Ht Hb. unfold topic_step. cbn [attr_key]. rewrite Hk. unfold decode_value. cbn [attr_value].
  rewrite hex_roundtrip by done. cbn [ok_or mbind outcome_bind]. rewrite decide_True by done. f_equal.
  unfold set_topic. cbn [fst snd]. rewrite Hi. replace (S i - i)%nat with 1%nat by lia.
  cbn [replicate]. rewrite <- Hi, insert_app_r_alt by lia. by rewrite Nat.sub_diag.
Qed.
Lemma topics_loop_topics ks : ∀ ts acc rest,
  (∀ j k, ks !! j = Some k → topic_index k = Some (length acc + j)%nat) → (length ts <= length ks)%nat →
  Forall (λ t, length t = 32%nat ∧ is_bytes t) ts →
  topics_loop (acc, None) (((λ p, mkAttr p.1 (hex_encode p.2) true) <$> zip ks ts) ++ rest) =
  topics_loop (acc ++ ts, None) rest.
Proof.
  induction ks as [|k ks IH]; intros ts acc rest Hks Hl Hts.
  - destruct ts; [|simpl in Hl; lia]. by rewrite app_nil_r.
  - destruct Hts as [|t ts [Ht Hb] Hts]; [by rewrite app_nil_r|]. cbn [zip fmap list_fmap app topics_loop fst snd].
    rewrite (topic_step_topic acc None k t (length acc)); [|by rewrite (Hks 0%nat k), Nat.add_0_r|done..].
    cbn [mbind outcome_bind].
    replace (acc ++ t :: ts) with ((acc ++ [t]) ++ ts) by (by rewrite <- app_assoc).
    apply IH; [|simpl in Hl; lia|done].
    intros j k' Hj. rewrite (Hks (S j) k' Hj), length_app. simpl. f_equal. lia.
Qed.

(** Decoding the attributes written for an event of the EVM. *)
Lemma to_topics_and_data_spec se ts data (deleg : option A) :
  evm_event se ts data → to_topics_and_data (event_attributes se deleg) = Ok (ts, default [] data).
Proof.
  intros [Hp [Hl Hts] Hd _]. unfold to_topics_and_data, event_attributes.
  rewrite app_comm_cons, topics_loop_app.
  assert (topics_loop ([], None) (mkAttr "emitter.id" (u64_to_string (emitter se)) true ::
            match deleg with Some addr => [mkAttr "emitter.deleg" (addr_to_string addr) true] | None => [] end)
          = Ok ([], None)) as -> by (by destruct deleg).
  cbn [mbind outcome_bind]. rewrite topics_loop_pairs, Hp. unfold evm_entries. rewrite fmap_app.
  rewrite topics_loop_topics; [|intros [|[|[|[|]]]] k Hk; simpl in Hk; by simplify_eq|done..].
  destruct data as [d|]; [|done]. cbn [fmap list_fmap topics_loop fst snd].
  unfold topic_step, decode_value. cbn [attr_key attr_value].
  change (topic_index "d") with (@None nat). change (String.eqb "d" "d") with true. cbv iota.
  by rewrite (hex_roundtrip d Hd).
Qed.

Lemma find_attr_app k l1 l2 :
  find_attr k (l1 ++ l2) = match find_attr k l1 with Some v => Some v | None => find_attr k l2 end.
Proof.
  unfold find_attr. induction l1 as [|a l1 IH]; [done|]. cbn [List.find app].
  destruct (String.eqb (attr_key a) k); [done|]. exact IH.
Qed.
Lemma find_attr_none k l : (∀ a, a ∈ l → attr_key a ≠ k) → find_attr k l = None.
Proof.
  unfold find_attr. induction l as [|a l IH]; intros Hl; [done|]. cbn [List.find].
  destruct (String.eqb_spec (attr_key a) k) as [Hk|_]; [by destruct (Hl a ltac:(left))|].
  apply IH. intros a' Ha'. apply Hl. by right.
Qed.
Lemma find_emitter_id se (deleg : option A) :
  is_u64 (emitter se) →
  find_attr "emitter.id" (event_attributes se deleg) ≫= parse_u64 = Some (emitter se).
Proof.
  intros Hu. unfold event_attributes, find_attr. cbn [List.find attr_key].
  change (String.eqb "emitter.id" "emitter.id") with true. cbv iota. cbn [fmap option_fmap option_map attr_value mbind option_bind].
  by apply parse_u64_to_string.
Qed.
Lemma evm_entry_keys se ts data e : evm_event se ts data → e ∈ entries se → entry_key e ∈ topic_keys ++ ["d"%string].
Proof.
  intros [Hp _ _ _] He.
  assert ((entry_key e, entry_value e) ∈ evm_entries ts data) as Hin.
  { rewrite <- Hp. by apply (list_elem_of_fmap_2 (λ e, (entry_key e, entry_value e))). }
  unfold evm_entries in Hin. apply elem_of_app in Hin as [Hin|Hin].
  - apply elem_of_zip_l in Hin. apply elem_of_app. by left.
  - destruct data; [|by apply elem_of_nil in Hin].
    apply list_elem_of_singleton in Hin. apply elem_of_app. right.
    apply list_elem_of_singleton. congruence.
Qed.
Lemma find_emitter_deleg se ts data (deleg : option A) :
  evm_event se ts data →
  find_attr "emitter.deleg" (event_attributes se deleg) ≫= parse_addr = deleg.
Proof.
  intros Hev. unfold event_attributes. rewrite app_comm_cons, find_attr_app.
  destruct deleg as [a|].
  - cbn. unfold parse_addr. by rewrite addr_roundtrip.
  - rewrite (find_attr_none _ [_]) by (intros a ->%list_elem_of_singleton; done).
    rewrite find_attr_none; [done|]. intros a (e & -> & He)%list_elem_of_fmap. cbn [attr_key].
    pose proof (evm_entry_keys _ _ _ _ Hev He) as Hk. intros Heq. rewrite Heq in Hk.
    by apply (bool_decide_pack _) in Hk.
Qed.

Lemma filter_actor_events k evs em dh bh (from to : A) :
  k = "event"%string →
  filter is_actor_event (to_events k evs em ++ extra_events dh bh from to) = to_events k evs em.
Proof.
  intros ->. rewrite filter_app, (filter_all is_actor_event (to_events _ _ _)).
  - unfold extra_events. by destruct dh, bh; rewrite ?app_nil_r.
  - apply Forall_forall. intros e He. exact (to_events_kind _ _ _ _ He).
Qed.

(** The log of an event of an actor. *)
Definition emitter_address em (id : Z) : bytes := default (from_id id) (em !! id ≫= eth_address_opt).
Fixpoint evm_logs em bh bn th ti start (idx : Z) (evs : list StampedEvent)
    (evm : list (list bytes * option bytes)) : list Log :=
  match evs, evm with
  | se :: evs, (ts, data) :: evm =>
      mkLog (emitter_address em (emitter se)) ts (default [] data) bh bn th ti (idx + start) idx ::
      evm_logs em bh bn th ti start (idx + 1) evs evm
  | _, _ => []
  end.
Lemma logs_loop_spec em bh bn th ti start evs evm idx :
  Forall2 (λ se p, evm_event se p.1 p.2) evs evm →
  logs_loop (A:=A) bh bn th ti start idx (to_events "event" evs em) =
    Ok (evm_logs em bh bn th ti start idx evs evm).
Proof.
  intros Hev. revert idx. induction Hev as [|se [ts data] evs evm Hse _ IH]; intros idx; [done|].
  unfold to_events in *. cbn [fmap list_fmap logs_loop evm_logs fst snd].
  unfold to_log. cbn [attributes].
  rewrite find_emitter_id by apply (evm_emitter _ _ _ Hse). cbn [ok_or mbind outcome_bind].
  rewrite (to_topics_and_data_spec _ _ _ _ Hse). cbn [mbind outcome_bind fst snd].
  rewrite IH. cbn [mbind outcome_bind]. unfold emitter_address.
  by rewrite (find_emitter_deleg _ _ _ _ Hse).
Qed.
End facts.

(** ** Positions of logs in a block *)

Lemma seqZ_sorted a n : StronglySorted Z.lt (seqZ a n).
Proof.
  apply StronglySorted_of_lookup. intros i j x y Hij [-> _]%lookup_seqZ [-> _]%lookup_seqZ. lia.
Qed.

(** The number of events before a transaction. *)
Definition events_before (rs : list TxResult) (i : nat) : Z :=
  Zsum (λ r, Z.of_nat (length (tr_events r))) (take i rs).

Section positions.
Context {A : Type} `{AddressPayload A} `{!Countable A} `{!MsgCrypto A} `{!TxCodec A}.
Context {HX : HexCodec} `{EthApiExt}.

Lemma logs_loop_indexes bh bn th ti start evs : ∀ idx logs,
  logs_loop (A:=A) bh bn th ti start idx evs = Ok logs →
  log_index <$> logs = seqZ (idx + start) (Z.of_nat (length evs)).
Proof.
  induction evs as [|e evs IH]; intros idx logs; cbn [logs_loop].
  - intros [= <-]. done.
  - intros (l & Hl & (ls & Hls & [= <-])%bind_Ok)%bind_Ok. cbn [fmap list_fmap length].
    rewrite (IH _ _ Hls), Nat2Z.inj_succ, (seqZ_cons (idx + start)) by lia.
    unfold to_log in Hl. apply bind_Ok in Hl as (id & _ & (td & _ & [= <-])%bind_Ok). cbn [log_index].
    f_equal. f_equal; lia.
Qed.
Lemma filter_length_le evs : (length (filter is_actor_event evs) <= length evs)%nat.
Proof. apply length_filter. Qed.

Lemma cumulative_loop_spec rs : ∀ gas count cum i,
  cumulative_loop gas count rs = Ok cum → (i < length rs)%nat →
  ∃ g, cum !! i = Some (g, count + events_before rs (S i)) ∧
       g = gas + Zsum tr_gas_used (take (S i) rs).
Proof.
  induction rs as [|r rs IH]; intros gas count cum i Hc Hi; [simpl in Hi; lia|].
  cbn [cumulative_loop] in Hc. apply bind_Ok in Hc as (g & Hg & Hc).
  apply bind_Ok in Hc as (gas' & Hgas & (rest & Hrest & [= <-])%bind_Ok).
  assert (gas' = gas + tr_gas_used r) as ->.
  { unfold u256_from_i64 in Hg. unfold u256_add in Hgas.
    destruct (tr_gas_used r <? 0); simplify_eq. by destruct (_ <=? _); simplify_eq. }
  destruct i as [|i]; unfold events_before.
  - exists (gas + tr_gas_used r). unfold Zsum. cbn [firstn foldr]. change (take 0 rs) with (@nil TxResult). cbn [foldr].
    split; [|lia]. cbn [lookup list_lookup]. do 2 f_equal. lia.
  - destruct (IH _ _ _ i Hrest) as (g' & Hg' & ->); [simpl in Hi; lia|].
    eexists. split; [etransitivity; [exact Hg'|]|]; unfold events_before, Zsum; cbn [firstn foldr];
      [do 2 f_equal; lia|lia].
Qed.

Lemma events_before_mono rs i j r :
  rs !! i = Some r → (i < j)%nat → events_before rs i + Z.of_nat (length (tr_events r)) <= events_before rs j.
Proof.
  intros Hr Hij. unfold events_before. replace j with (S i + (j - S i))%nat by lia.
  rewrite <- take_take_drop, Zsum_app, (take_S_r _ _ _ Hr), Zsum_app.
  pose proof (Zsum_nonneg (λ r, Z.of_nat (length (tr_events r))) (take (j - S i) (drop (S i) rs)) ltac:(intros; simpl; lia)).
  unfold Zsum in *. cbn in *. lia.
Qed.

(** The indexes of the logs of a receipt. *)
Lemma receipt_log_indexes msg i h rs r tx cum hh ha fee rc :
  to_cumulative (Some rs) = Ok cum → rs !! i = Some r →
  to_eth_receipt (A:=A) msg (mkTxResponse h (Z.of_nat i) r tx) cum hh ha fee = Ok rc →
  log_index <$> rc_logs rc =
    seqZ (events_before rs i) (Z.of_nat (length (filter is_actor_event (tr_events r)))).
Proof.
  intros Hc Hr Hrc. assert (i < length rs)%nat as Hi by (by apply lookup_lt_Some in Hr).
  destruct (cumulative_loop_spec _ _ _ _ i Hc Hi) as (g & Hg & _).
  unfold to_eth_receipt in Hrc. cbn [resp_result resp_tx resp_index resp_height] in Hrc.
  apply bind_Ok in Hrc as (bh & _ & Hrc). apply bind_Ok in Hrc as (th & _ & Hrc).
  apply bind_Ok in Hrc as (price & _ & Hrc). rewrite Nat2Z.id, Hg in Hrc. cbn [default] in Hrc.
  apply bind_Ok in Hrc as (logs & Hlogs & Hrc). apply bind_Ok in Hrc as (contract & _ & Hrc).
  apply bind_Ok in Hrc as (gu & _ & Hrc). apply bind_Ok in Hrc as (root & _ & Hrc).
  apply bind_Ok in Hrc as (eff & _ & [= <-]). cbn [rc_logs].
  apply logs_loop_indexes in Hlogs. rewrite Hlogs. f_equal.
  unfold events_before. rewrite (take_S_r _ _ _ Hr), Zsum_app. unfold saturating_sub.
  pose proof (Zsum_nonneg (λ r, Z.of_nat (length (tr_events r))) (take i rs) ltac:(intros; simpl; lia)).
  unfold Zsum in *. cbn in *. lia.
Qed.
End positions.

Section block_loop.
Context {A : Type} `{AddressPayload A} `{!Countable A} `{!MsgCrypto A} `{!TxCodec A}.
Context {HX : HexCodec} `{EthApiExt}.
Implicit Types (rs : list TxResult).

(** What the API shows of the transaction at an index, if it is a signed message
    with a result. *)
Definition shown chain_id (bh : bytes) (bn : Z) rs (data : list bytes) (idx : nat) (t : EthTransaction) : Prop :=
  ∃ d r sm hash tx, data !! idx = Some d ∧ rs !! idx = Some r ∧ tx_from_slice d = Some (Signed sm) ∧
    msg_hash (tr_events r) d = Ok hash ∧ to_eth_transaction (A:=A) sm chain_id hash = Ok tx ∧
    t = located tx bh bn idx.

Lemma u256_add_Ok {E} a b c : u256_add (E:=E) a b = Ok c → c = a + b.
Proof. unfold u256_add. by destruct (_ <=? _); intros [= <-]. Qed.
Lemma u256_from_i64_Ok {E} a c : u256_from_i64 (E:=E) a = Ok c → c = a ∧ 0 <= a.
Proof. unfold u256_from_i64. destruct (a <? 0) eqn:?; intros [= <-]. zbool. lia. Qed.

Lemma block_step_Ok chain_id bh bn rs idx d acc acc' :
  block_step (A:=A) chain_id bh bn rs idx d acc = Ok acc' →
  match rs !! idx with
  | None => acc' = acc
  | Some r =>
      bt_size acc' = bt_size acc + Z.of_nat (length d) ∧ bt_gas_used acc' = bt_gas_used acc + tr_gas_used r ∧
      bt_gas_limit acc' = bt_gas_limit acc + tr_gas_wanted r ∧
      ∃ msg, tx_from_slice (A:=A) d = Some msg ∧
        match msg with
        | Signed sm => ∃ hash tx, msg_hash (tr_events r) d = Ok hash ∧ to_eth_transaction sm chain_id hash = Ok tx ∧
            bt_transactions acc' = bt_transactions acc ++ [located tx bh bn idx]
        | _ => bt_transactions acc' = bt_transactions acc
        end
  end.
Proof.
  unfold block_step. destruct (rs !! idx) as [r|]; [|by intros [= <-]].
  intros (size & Hsize%u256_add_Ok & Hs)%bind_Ok. apply bind_Ok in Hs as (used & [-> _]%u256_from_i64_Ok & Hs).
  apply bind_Ok in Hs as (gu & Hgu%u256_add_Ok & Hs). apply bind_Ok in Hs as (wanted & [-> _]%u256_from_i64_Ok & Hs).
  apply bind_Ok in Hs as (gl & Hgl%u256_add_Ok & Hs). apply bind_Ok in Hs as (msg & Hmsg & Hs).
  assert (tx_from_slice d = Some msg) as Hd by (destruct (tx_from_slice d); simpl in Hmsg; congruence).
  destruct msg as [sm|im|cm].
  - apply bind_Ok in Hs as (hash & Hh & (tx & Htx & [= <-])%bind_Ok). simpl. split_and!; [done..|].
    exists (Signed sm). split; [done|]. by exists hash, tx.
  - injection Hs as <-. simpl. split_and!; [done..|]. by exists (Ipc im).
  - injection Hs as <-. simpl. split_and!; [done..|]. by exists (Cetf cm).
Qed.

Lemma block_loop_Ok chain_id bh bn rs : ∀ data idx acc acc',
  block_loop (A:=A) chain_id bh bn rs idx data acc = Ok acc' →
  ∃ ts, bt_transactions acc' = bt_transactions acc ++ ts ∧
    (∀ t, t ∈ ts ↔ ∃ j d r sm hash tx, data !! j = Some d ∧ rs !! (idx + j)%nat = Some r ∧
        tx_from_slice d = Some (Signed sm) ∧ msg_hash (tr_events r) d = Ok hash ∧
        to_eth_transaction (A:=A) sm chain_id hash = Ok tx ∧ t = located tx bh bn (idx + j)) ∧
    StronglySorted (λ s t, default 0 (et_transaction_index s) < default 0 (et_transaction_index t)) ts ∧
    bt_gas_used acc' = bt_gas_used acc + Zsum tr_gas_used (take (length data) (drop idx rs)) ∧
    bt_gas_limit acc' = bt_gas_limit acc + Zsum tr_gas_wanted (take (length data) (drop idx rs)).
Proof.
  induction data as [|d data IH]; intros idx acc acc'; cbn [block_loop].
  { intros [= <-]. exists []. rewrite app_nil_r. split; [done|]. cbn. split_and!; [|apply SSorted_nil|rewrite take_0; cbn; lia..].
    intros t. split; [by intros ?%elem_of_nil|]. by intros (j & d & r & sm & hash & tx & Hd & _). }
  intros (acc1 & Hstep%block_step_Ok & Hrest)%bind_Ok.
  destruct (IH _ _ _ Hrest) as (ts & Hts & Hin & Hsorted & Hgu & Hgl). clear IH Hrest.
  assert (∀ f, Zsum f (take (length (d :: data)) (drop idx rs)) =
               match rs !! idx with Some r => f r | None => 0 end + Zsum f (take (length data) (drop (S idx) rs))) as Hsum.
  { intros f. destruct (rs !! idx) as [r|] eqn:Hr.
    - by rewrite (drop_S _ _ _ Hr).
    - apply lookup_ge_None in Hr. rewrite !drop_ge by lia. by rewrite !take_nil. }
  rewrite !Hsum.
  set (P j t := ∃ d' r sm hash tx, (d :: data) !! j = Some d' ∧ rs !! (idx + j)%nat = Some r ∧
        tx_from_slice d' = Some (Signed sm) ∧ msg_hash (tr_events r) d' = Ok hash ∧
        to_eth_transaction (A:=A) sm chain_id hash = Ok tx ∧ t = located tx bh bn (idx + j)).
  assert (∀ t, t ∈ ts ↔ ∃ j, P (S j) t) as Hin'.
  { intros t. rewrite Hin. unfold P. setoid_rewrite Nat.add_succ_r. done. }
  enough (∃ t0, bt_transactions acc1 = bt_transactions acc ++ t0 ∧ (∀ t, t ∈ t0 ↔ P 0%nat t) ∧ (length t0 <= 1)%nat ∧
            bt_gas_used acc1 = bt_gas_used acc + match rs !! idx with Some r => tr_gas_used r | None => 0 end ∧
            bt_gas_limit acc1 = bt_gas_limit acc + match rs !! idx with Some r => tr_gas_wanted r | None => 0 end)
    as (t0 & Ht0 & Hin0 & Hlen & Hu & Hw).
  { exists (t0 ++ ts). rewrite Hts, Ht0, <- app_assoc. split; [done|]. split_and!; [| |lia..].
    - intros t. rewrite elem_of_app, Hin0, Hin'. split.
      + intros [?|[j ?]]; [by exists 0%nat|by exists (S j)].
      + intros ([|j] & ?); [by left|right; by exists j].
    - destruct t0 as [|t [|]]; [done| |simpl in Hlen; lia]. simpl. constructor; [done|].
      apply Forall_forall. intros t' (j & _ & _ & _ & _ & tx' & _ & _ & _ & _ & _ & ->)%Hin'.
      destruct (proj1 (Hin0 t) ltac:(left)) as (_ & _ & _ & _ & tx & _ & _ & _ & _ & _ & ->). simpl. lia. }
  destruct (rs !! idx) as [r|] eqn:Hr.
  - destruct Hstep as (_ & Hu & Hw & msg & Hd & Hm).
    assert (∀ t, P 0%nat t → ∃ sm, msg = Signed sm) as HP.
    { intros t (d' & r' & sm & hash & tx & [= <-] & _ & Hsm & _). exists sm. congruence. }
    destruct msg as [sm|im|cm].
    + destruct Hm as (hash & tx & Hh & Htx & Ht). exists [located tx bh bn idx]. split_and!; try done.
      intros t. rewrite list_elem_of_singleton. split.
      * intros ->. exists d, r, sm, hash, tx. by rewrite Nat.add_0_r.
      * intros (d' & r' & sm' & hash' & tx' & [= <-] & Hr' & Hsm & Hh' & Htx' & ->).
        rewrite Nat.add_0_r in *. congruence.
    + exists []. rewrite app_nil_r. split_and!; try done; [|simpl; lia].
      intros t. split; [by intros ?%elem_of_nil|]. by intros [? ?]%HP.
    + exists []. rewrite app_nil_r. split_and!; try done; [|simpl; lia].
      intros t. split; [by intros ?%elem_of_nil|]. by intros [? ?]%HP.
  - subst acc1. exists []. rewrite app_nil_r. split_and!; try lia; try done; [|simpl; lia].
    intros t. split; [by intros ?%elem_of_nil|]. intros (d' & r' & sm & hash & tx & _ & Hr' & _).
    rewrite Nat.add_0_r in Hr'. congruence.
Qed.
End block_loop.

(** ** Theorems *)

Section theorems.
Context {A : Type} `{AddressPayload A} `{!Countable A} `{!MsgCrypto A} `{!TxCodec A}.
Context {HX : HexCodec} {HL : HexCodecLaws} `{EthApiExt} {AL : AddressLaws A}.

(** C36. The events of a contract reach Ethereum clients as it emitted them: from the
    result of a transaction as the application answers it, [to_logs] recovers for
    each event of an actor, in order, its topics, its data, its position, and the
    address of the emitter - the Ethereum form of its delegated address, or the
    masked actor id when it has none - and ignores the events that are not of actors. *)
Theorem logs_of_execution (ret : FvmApplyRet A) dh bhash r evm bh bn th ti start :
  to_exec_tx_result ret dh bhash = Ok r →
  Forall2 (λ se p, evm_event se p.1 p.2) (events (apply_ret ret)) evm →
  to_logs (A:=A) (tr_events r) bh bn th ti start =
    Ok (evm_logs (emitters ret) bh bn th ti start 0 (events (apply_ret ret)) evm).
Proof.
  intros Hr Hev. unfold to_logs. rewrite (exec_tx_result_events _ _ _ _ Hr), filter_actor_events by done.
  by apply logs_loop_spec.
Qed.

(** The hashes among the events of a result; events of actors are not mistaken for them. *)
Lemma find_skips_actor_events k evs (em : gmap Z A) rest :
  k ≠ "event"%string →
  List.find (λ e, String.eqb (kind e) k) (to_events "event" evs em ++ rest) =
  List.find (λ e, String.eqb (kind e) k) rest.
Proof.
  intros Hk. induction evs as [|se evs IH]; [done|].
  unfold to_events in *. cbn [fmap list_fmap app List.find kind].
  destruct (String.eqb_spec "event" k); [congruence|]. exact IH.
Qed.
Lemma execution_eth_hash (ret : FvmApplyRet A) h bhash r :
  to_exec_tx_result ret (Some h) bhash = Ok r → length h = 32%nat → is_bytes h →
  find_hash_event "eth" (tr_events r) = Some h.
Proof.
  intros Hr Hl Hb. rewrite (exec_tx_result_events _ _ _ _ Hr). unfold find_hash_event.
  rewrite find_skips_actor_events by done.
  assert (List.find (λ e, String.eqb (kind e) "eth") (extra_events (Some h) bhash (ret_from ret) (ret_to ret)) =
          Some (to_domain_hash_event h)) as -> by (by destruct bhash).
  cbn [mbind option_bind].
  change (find_attr "hash" (attributes (to_domain_hash_event h))) with (Some (hex_encode h)).
  cbn [mbind option_bind]. rewrite hex_roundtrip by done. cbn [mbind option_bind]. by rewrite decide_True.
Qed.

(** A transaction is known to Ethereum clients by its Ethereum hash: the hash the
    API reads from the events of a result is the domain hash the application put
    there, whatever events the actors emitted, and likewise for the hash of the block. *)
Theorem execution_hashes_found (ret : FvmApplyRet A) h bhash r tx :
  to_exec_tx_result ret (Some h) (Some bhash) = Ok r →
  length h = 32%nat → is_bytes h → length bhash = 32%nat → is_bytes bhash →
  msg_hash (tr_events r) tx = Ok h ∧ find_hash_event "block" (tr_events r) = Some bhash.
Proof.
  intros Hr Hl Hb Hl' Hb'. unfold msg_hash. rewrite (execution_eth_hash _ _ _ _ Hr) by done. split; [done|].
  rewrite (exec_tx_result_events _ _ _ _ Hr). unfold find_hash_event. rewrite find_skips_actor_events by done.
  assert (List.find (λ e, String.eqb (kind e) "block") (extra_events (Some h) (Some bhash) (ret_from ret) (ret_to ret)) =
          Some (block_hash_event bhash)) as -> by done.
  cbn [mbind option_bind].
  change (find_attr "hash" (attributes (block_hash_event bhash))) with (Some (hex_encode bhash)).
  cbn [mbind option_bind]. rewrite hex_roundtrip by done. cbn [mbind option_bind]. by rewrite decide_True.
Qed.

(** Positions of logs are unique in a block: listing the receipts of two
    transactions of a block, the indexes of their logs increase strictly. *)
Theorem block_log_indexes rs cum i j ri rj msgi msgj h txi txj hh ha fee rci rcj :
  to_cumulative (Some rs) = Ok cum → rs !! i = Some ri → rs !! j = Some rj → (i < j)%nat →
  to_eth_receipt (A:=A) msgi (mkTxResponse h (Z.of_nat i) ri txi) cum hh ha fee = Ok rci →
  to_eth_receipt (A:=A) msgj (mkTxResponse h (Z.of_nat j) rj txj) cum hh ha fee = Ok rcj →
  StronglySorted Z.lt (log_index <$> rc_logs rci ++ rc_logs rcj).
Proof.
  intros Hc Hi Hj Hij Hrci Hrcj. rewrite fmap_app.
  rewrite (receipt_log_indexes _ _ _ _ _ _ _ _ _ _ _ Hc Hi Hrci).
  rewrite (receipt_log_indexes _ _ _ _ _ _ _ _ _ _ _ Hc Hj Hrcj).
  apply StronglySorted_app. split_and!; [|apply seqZ_sorted..].
  intros a b Ha%elem_of_seqZ Hb%elem_of_seqZ.
  pose proof (events_before_mono _ _ _ _ Hi Hij). pose proof (filter_length_le (tr_events ri)). lia.
Qed.

(** The transactions of a block as Ethereum clients see it are the signed messages
    that have a result, in the order of the block, each with the hash of its result
    and its own position, and the gas of the block is the sum over its results. *)
Theorem eth_block_transactions zero block rs fee chain_id eb :
  to_eth_block (A:=A) zero block (Some rs) fee chain_id = Ok eb →
  (∀ t, t ∈ eb_transactions eb ↔
        ∃ idx, shown (A:=A) chain_id (tb_hash block) (tb_height block) rs (tb_data block) idx t) ∧
  StronglySorted (λ s t, default 0 (et_transaction_index s) < default 0 (et_transaction_index t)) (eb_transactions eb) ∧
  (length rs = length (tb_data block) →
   eb_gas_used eb = Zsum tr_gas_used rs ∧ eb_gas_limit eb = Zsum tr_gas_wanted rs).
Proof.
  unfold to_eth_block. intros (hash & Hhash & Hb)%bind_Ok.
  assert (hash = tb_hash block) as -> by (unfold h256 in Hhash; by destruct (decide _); simplify_eq).
  apply bind_Ok in Hb as (parent & _ & Hb). apply bind_Ok in Hb as (root & _ & Hb).
  apply bind_Ok in Hb as (author & _ & Hb). apply bind_Ok in Hb as (t & Ht & Hb).
  apply bind_Ok in Hb as (time & _ & Hb). apply bind_Ok in Hb as (sr & _ & Hb).
  apply bind_Ok in Hb as (f & _ & [= <-]). cbn [eb_transactions eb_gas_used eb_gas_limit].
  destruct (block_loop_Ok _ _ _ _ _ _ _ _ Ht) as (ts & Hts & Hin & Hs & Hu & Hl). cbn in Hts, Hu, Hl. subst ts.
  split; [exact Hin|]. split; [exact Hs|]. intros Hlen. rewrite drop_0, <- Hlen, firstn_all in Hu, Hl. done.
Qed.

(** One message that is not an Ethereum transaction hides its whole block: when a
    block holds an executed signed message whose sender has no Ethereum address, for
    instance a secp256k1 one, [to_eth_block] fails, although the other transactions
    of the block are well-formed. *)
Theorem native_message_hides_block zero block rs fee chain_id idx data r sm e :
  tb_data block !! idx = Some data → rs !! idx = Some r → tx_from_slice data = Some (Signed sm) →
  to_eth_address (m_from (message sm)) = Err e →
  ∀ eb, to_eth_block (A:=A) zero block (Some rs) fee chain_id ≠ Ok eb.
Proof.
  intros Hd Hr Hsm He eb Hb. unfold to_eth_block in Hb. apply bind_Ok in Hb as (hash & _ & Hb).
  apply bind_Ok in Hb as (parent & _ & Hb). apply bind_Ok in Hb as (root & _ & Hb).
  apply bind_Ok in Hb as (author & _ & Hb). apply bind_Ok in Hb as (t & Ht & _). cbn [default] in Ht. clear -Hd Hr Hsm He Ht.
  assert (∀ data' k acc, data' !! (idx - k)%nat = Some data → (k <= idx)%nat →
            block_loop (A:=A) chain_id hash (tb_height block) rs k data' acc ≠ Ok t) as Hloop.
  { intros data'. induction data' as [|d data' IH]; intros k acc Hk Hle; [done|]. cbn [block_loop].
    intros (acc1 & Hstep%block_step_Ok & Hrest)%bind_Ok.
    destruct (decide (k = idx)) as [->|Hne].
    - rewrite Nat.sub_diag in Hk. injection Hk as ->. rewrite Hr in Hstep.
      destruct Hstep as (_ & _ & _ & msg & Hm & Hsig). assert (msg = Signed sm) as -> by congruence.
      destruct Hsig as (h & tx & _ & Htx & _). unfold to_eth_transaction in Htx.
      apply bind_Ok in Htx as (sig & _ & (req & Hreq & _)%bind_Ok).
      destruct (to_eth_transaction_request_Ok _ _ _ Hreq) as (? & ? & ? & _ & Hf & _). congruence.
    - apply (IH (S k) acc1); [|lia|done]. replace (idx - k)%nat with (S (idx - S k))%nat in Hk by lia. done. }
  apply (Hloop (tb_data block) 0%nat (mkTotals [] 0 0 0)); [by rewrite Nat.sub_0_r|lia|exact Ht].
Qed.

(** A transaction whose fees add up to more than a [U256] panics instead of failing. *)
Theorem overflowing_fees_panic tx sig hash :
  MAX_U256 < default 0 (tx_max_fee_per_gas tx) + default 0 (tx_max_priority_fee_per_gas tx) →
  request_to_transaction tx sig hash = Panic.
Proof. intros Hm. unfold request_to_transaction, u256_add. by rewrite (proj2 (Z.leb_gt _ _) Hm). Qed.
End theorems.

(** ** Witnesses *)

#[export] Instance toy_eth_ext : EthApiExt := {
  sha256 := pad32;
  cid_digest := λ b, match b with 0 :: d => Some d | _ => None end;
  base64_decode := λ b, Some b;
  create_return := λ _, None;
}.
Definition native_message : Message Payload :=
  mkMessage 0 (PayloadSecp256k1 [1]) sample_to 5 0 INVOKE_CONTRACT [1; 2; 3] 1000000 100 10.
Definition previous_message : Message Payload :=
  mkMessage 0 sample_from sample_to 4 0 INVOKE_CONTRACT [1; 2; 3] 1000000 100 10.
#[export] Instance toy_tx_codec : TxCodec Payload := {
  tx_from_slice := λ b, match b with
    | [1] => Some (Signed (mkSigned (sample_message 30) sample_sig))
    | [2] => Some (Signed (mkSigned native_message sample_sig))
    | [3] => Some (Signed (mkSigned previous_message sample_sig))
    | _ => None
    end;
  tx_to_vec := λ _, Some [1];
}.
Definition sample_topic : bytes := repeat 17 32.
Definition sample_event : StampedEvent :=
  mkEvent 1000 [mkEntry 3 "t1" sample_topic; mkEntry 3 "d" [1; 2; 255]].
Definition sample_apply : ApplyRet := mkApplyRet ExitOk 1000 [] None [sample_event; sample_event].
Definition sample_ret : FvmApplyRet Payload :=
  mkFvmRet sample_apply sample_from sample_to INVOKE_CONTRACT 1000000 {[1000 := sample_from]}.
Definition sample_hash : bytes := repeat 9 32.
Definition sample_result : TxResult :=
  Eval vm_compute in
    match to_exec_tx_result sample_ret (Some sample_hash) (Some sample_topic) with
    | Ok r => r
    | _ => invalid_exec_tx_result InvalidEncoding ""
    end.
Lemma sample_result_ok : to_exec_tx_result sample_ret (Some sample_hash) (Some sample_topic) = Ok sample_result.
Proof. vm_compute. reflexivity. Qed.
Lemma sample_bytes n k : 0 <= k < 256 → is_bytes (repeat k n).
Proof. intros Hk. induction n as [|n IH]; constructor; done. Qed.
Lemma sample_evm_event : evm_event sample_event [sample_topic] (Some [1; 2; 255]).
Proof.
  split; [done|split; [simpl; lia|]|repeat constructor; lia|unfold is_u64, U64_MAX; simpl; lia].
  constructor; [|constructor]. split; [done|by apply sample_bytes].
Qed.

Lemma logs_of_execution_witness :
  ∃ logs, to_logs (A:=Payload) (tr_events sample_result) sample_hash 5 sample_hash 0 7 = Ok logs ∧
    (log_address <$> logs) = [repeat 7 20; repeat 7 20] ∧ (topics <$> logs) = [[sample_topic]; [sample_topic]] ∧
    (log_index <$> logs) = [7; 8].
Proof.
  eexists. split.
  - apply (logs_of_execution sample_ret (Some sample_hash) (Some sample_topic) sample_result
             [([sample_topic], Some [1; 2; 255]); ([sample_topic], Some [1; 2; 255])]).
    + exact sample_result_ok.
    + repeat constructor; apply sample_evm_event.
  - vm_compute. done.
Defined.

Lemma execution_hashes_found_witness : msg_hash (tr_events sample_result) [1] = Ok sample_hash.
Proof.
  apply (execution_hashes_found sample_ret sample_hash sample_topic sample_result [1] sample_result_ok);
    first [reflexivity | by apply sample_bytes].
Defined.

Definition sample_receipt (i : Z) : outcome string Receipt :=
  to_eth_receipt (mkSigned (sample_message 30) sample_sig) (mkTxResponse 5 i sample_result [1])
    [(1000, 5); (2000, 10)] sample_hash [0] 100.
Lemma block_log_indexes_witness :
  ∃ ra rb, sample_receipt 0 = Ok ra ∧ sample_receipt 1 = Ok rb ∧
    StronglySorted Z.lt (log_index <$> rc_logs ra ++ rc_logs rb).
Proof.
  destruct (sample_receipt 0) as [ra| | |] eqn:Ha; [|vm_compute in Ha; discriminate Ha..].
  destruct (sample_receipt 1) as [rb| | |] eqn:Hb; [|vm_compute in Hb; discriminate Hb..].
  exists ra, rb. split; [reflexivity|]. split; [reflexivity|].
  exact (block_log_indexes [sample_result; sample_result] [(1000, 5); (2000, 10)] 0 1 _ _ _ _ _ _ _ _ _ _ ra rb
           eq_refl eq_refl eq_refl (le_n 1) Ha Hb).
Defined.

Definition sample_tm_block (data : list bytes) : TmBlock :=
  mkTmBlock sample_hash 5 1000 None None (repeat 3 20) [0] data.
Lemma eth_block_transactions_witness :
  ∃ eb, to_eth_block (A:=Payload) sample_hash (sample_tm_block [[1]]) (Some [sample_result]) 100 1337 = Ok eb ∧
    eb_gas_used eb = 1000.
Proof.
  destruct (to_eth_block (A:=Payload) sample_hash (sample_tm_block [[1]]) (Some [sample_result]) 100 1337)
    as [eb| | |] eqn:Hb; [|vm_compute in Hb; discriminate Hb..].
  exists eb. split; [reflexivity|]. exact (proj1 (proj2 (proj2 (eth_block_transactions _ _ _ _ _ _ Hb)) eq_refl)).
Defined.

Lemma native_message_hides_block_witness :
  ∀ eb, to_eth_block (A:=Payload) sample_hash (sample_tm_block [[1]; [2]]) (Some [sample_result; sample_result])
          100 1337 ≠ Ok eb.
Proof.
  apply (native_message_hides_block sample_hash (sample_tm_block [[1]; [2]]) [sample_result; sample_result] 100 1337
           1 [2] sample_result (mkSigned native_message sample_sig) "not an Ethereum address"%string); reflexivity.
Defined.
