(* ===== verification/EthPool.v ===== *)
(** * Submitting Ethereum transactions, and the buffer for those out of order
    ([eth/api/src/mpool.rs], [error.rs], [apis/eth.rs] [send_raw_transaction],
    [get_transaction_by_hash])

    A transaction whose nonce is ahead of the account is refused by the checks of
    the node.  The API recognises the refusal from its text, keeps the transaction
    in a buffer, and broadcasts it once a block holds the transaction before it.

    [lru_time_cache], [ethers] and the ABI of errors are other crates.  A cache is a
    finite map here; that it also forgets entries, by age and for lack of space, is
    the event [Evict] of [step].  The strings matched are ASCII, and so is [\d]. *)

From Stdlib Require Import Ascii String DecimalString.
From Equations Require Import Equations.
From stdpp Require Import base tactics numbers list gmap sorting.
From S2P Require Import Prelude Voting IpcApi Finality Provider CetfActor Message Checkpoint Exec Chain Bytes App.
From S2P Require Import TmConv Gas EthConv.

Open Scope Z_scope.

(** ** Refusals for the wrong sequence ([error.rs]) *)

Record OutOfSequence := mkOos { expected : Z; got : Z }.

Definition is_admissible (o : OutOfSequence) (max_nonce_gap : Z) : bool :=
  (expected o <=? got o) && (got o - expected o <=? max_nonce_gap).

Fixpoint strip_prefix (p s : string) : option string :=
  match p, s with
  | EmptyString, _ => Some s
  | String a p, String b s => if Ascii.eqb a b then strip_prefix p s else None
  | _, _ => None
  end.
Definition is_digit (c : ascii) : bool :=
  existsb (Ascii.eqb c) ["0"; "1"; "2"; "3"; "4"; "5"; "6"; "7"; "8"; "9"]%char.
Fixpoint span_digits (s : string) : string * string :=
  match s with
  | EmptyString => (EmptyString, EmptyString)
  | String c s' => if is_digit c then let r := span_digits s' in (String c r.1, r.2) else (EmptyString, s)
  end.
(** A match of [expected sequence (\d+), got (\d+)] at the start of a string: the
    two numbers, and the rest.  A run of digits is followed by something else, so
    the longest run is the only one to try. *)
Definition match_here (s : string) : option (string * string * string) :=
  s1 ← strip_prefix "expected sequence " s;
  let e := span_digits s1 in
  if String.eqb e.1 "" then None else
  s2 ← strip_prefix ", got " e.2;
  let g := span_digits s2 in
  if String.eqb g.1 "" then None else Some (e.1, g.1, g.2).

Lemma strip_prefix_length p : ∀ s r,
  strip_prefix p s = Some r → String.length s = (String.length p + String.length r)%nat.
Proof.
  induction p as [|a p IH]; intros [|b s] r Hs; simpl in *; simplify_eq; try done.
  destruct (Ascii.eqb a b); [|done]. f_equal. by apply IH.
Qed.
Lemma span_digits_length s : (String.length (span_digits s).2 <= String.length s)%nat.
Proof. induction s as [|c s IH]; simpl; [lia|]. destruct (is_digit c); simpl; lia. Qed.
Lemma match_here_shorter s e g r : match_here s = Some (e, g, r) → (String.length r < String.length s)%nat.
Proof.
  unfold match_here. destruct (strip_prefix _ s) as [s1|] eqn:H1; [|done]. cbn [mbind option_bind].
  destruct (String.eqb _ _); [done|]. destruct (strip_prefix ", got " _) as [s2|] eqn:H2; [|done].
  cbn [mbind option_bind]. destruct (String.eqb _ _); [done|]. intros [= _ _ <-].
  apply strip_prefix_length in H1, H2. pose proof (span_digits_length s1). pose proof (span_digits_length s2).
  simpl in H1, H2. lia.
Qed.

(** Remember what is matched on. *)
Definition inspect {T} (x : T) : { y | x = y } := exist _ x eq_refl.

(** [Regex::captures_iter]: the matches, from left to right and without overlap. *)
Equations? captures_iter (s : string) : list (string * string) by wf (String.length s) lt :=
captures_iter s with inspect (match_here s) => {
  | exist _ (Some (e, g, r)) Heq => (e, g) :: captures_iter r
  | exist _ None Heq with s => {
    | EmptyString => []
    | String c s' => captures_iter s' } }.
Proof.
  - by eapply match_here_shorter.
  - simpl. lia.
Qed.

Definition try_parse (code : ExitCode) (msg : string) : option OutOfSequence :=
  if decide (code = SYS_SENDER_STATE_INVALID) then
    head (omap (λ c, e ← parse_u64 c.1; g ← parse_u64 c.2; Some (mkOos e g)) (captures_iter msg))
  else None.

(** ** The buffer ([mpool.rs]) *)

(** [while let Some(msg) = buffer.remove(&nonce)] *)
Equations? unblock {M} (buffer : gmap Z M) (nonce : Z) : list (Z * M) * gmap Z M by wf (size buffer) lt :=
unblock buffer nonce with inspect (buffer !! nonce) => {
  | exist _ (Some msg) Heq =>
      let r := unblock (delete nonce buffer) (nonce + 1)%u64 in ((nonce, msg) :: r.1, r.2)
  | exist _ None _ => ([], buffer) }.
Proof.
  assert (size buffer ≠ 0%nat) by (intros H0%map_size_empty_inv; by rewrite H0, lookup_empty in Heq).
  rewrite map_size_delete, Heq. lia.
Qed.

Section pool.
Context {A : Type} `{AddressPayload A} `{!Countable A} `{!MsgCrypto A} `{!TxCodec A} `{HexCodec} `{EthApiExt}.
Notation Buffer := (gmap A (gmap Z (ChainMessage A))).

Definition buffer_insert (c : Buffer) (sender : A) (nonce : Z) (msg : ChainMessage A) : Buffer :=
  <[sender := <[nonce := msg]> (default ∅ (c !! sender))]> c.
Fixpoint remove_many (c : Buffer) (txs : list (A * Z)) : Buffer :=
  match txs with
  | [] => c
  | (sender, nonce) :: txs =>
      remove_many match c !! sender with
                  | Some buffer => <[sender := delete nonce buffer]> c
                  | None => c
                  end txs
  end.
Fixpoint remove_unblocked (c : Buffer) (txs : list (A * Z)) : list (A * Z * ChainMessage A) * Buffer :=
  match txs with
  | [] => ([], c)
  | (sender, nonce) :: txs =>
      match c !! sender with
      | Some buffer =>
          let run := unblock buffer (nonce + 1)%u64 in
          let rest := remove_unblocked (<[sender := run.2]> c) txs in
          (((λ p, (sender, p.1, p.2)) <$> run.1) ++ rest.1, rest.2)
      | None => remove_unblocked c txs
      end
  end.

(** A panic of [domain_hash], on a hash that is not of 32 bytes, cannot happen. *)
Definition collect_txs (data : list bytes) (chain_id : Z) : list (bytes * A * Z) :=
  omap (λ tx, match tx_from_slice tx with
              | Some (Signed msg) =>
                  match domain_hash msg chain_id with
                  | Ok (Some h) => Some (h, m_from (message msg), m_sequence (message msg))
                  | _ => None
                  end
              | _ => None
              end) data.

(** ** The state of the API and its handlers *)

Record JsonRpcState := mkRpc {
  tx_cache : gmap bytes EthTransaction;
  tx_buffer : Buffer;
}.
Implicit Types (st : JsonRpcState).

Definition cache_remove_many (cache : gmap bytes EthTransaction) (keys : list bytes) : gmap bytes EthTransaction :=
  foldl (λ c k, delete k c) cache keys.

(** One block in [tx_cache_clearing_loop]: the messages to send come back. *)
Definition on_new_block st (chain_id : Z) (data : list bytes) : JsonRpcState * list (A * Z * ChainMessage A) :=
  let txs := collect_txs data chain_id in
  match txs with
  | [] => (st, [])
  | _ =>
      let nonces := (λ t, (t.1.2, t.2)) <$> txs in
      let r := remove_unblocked (remove_many (tx_buffer st) nonces) nonces in
      (mkRpc (cache_remove_many (tx_cache st) ((λ t, t.1.1) <$> txs)) r.2, r.1)
  end.
(** The transactions [send_msgs] broadcasts; the answers are only logged. *)
Definition send_msgs (msgs : list (A * Z * ChainMessage A)) : list bytes := omap (λ m, tx_to_vec m.2) msgs.

(** Errors of the API: an error of [anyhow] has code zero. *)
Record JsonRpcError := mkRpcError { err_code : Z; err_message : string; err_data : option string }.
Definition anyhow_error (e : string) : JsonRpcError := mkRpcError 0 e None.
Definition USR_ILLEGAL_ARGUMENT : Z := 16.

(** A decoded transaction; a legacy one carries the request it converts to. *)
Inductive TypedTransaction := Eip1559 (tx : EthTx) | Legacy (tx : EthTx) | Eip2930 (tx : EthTx).
Definition typed_to_fvm_message (tx : TypedTransaction) (accept_legacy : bool) : outcome JsonRpcError (Message A) :=
  match tx, accept_legacy with
  | Eip1559 tx, _ | Legacy tx, true => map_err anyhow_error (to_fvm_message tx)
  | _, _ => Err (mkRpcError USR_ILLEGAL_ARGUMENT "unexpected transaction type" None)
  end.

(** [decode_signed] of [ethers] on the RLP, the bytes of a signature, and what the
    revert data of a contract says. *)
Context (decode_signed : bytes → option (TypedTransaction * EthSignature)).
Context (sig_to_vec : EthSignature → bytes) (decode_revert : bytes → option string).

Definition error_with_revert {T} (code : ExitCode) (msg : string) (data : option bytes) : outcome JsonRpcError T :=
  Err match data with
      | None => mkRpcError (exit_value code) msg None
      | Some d =>
          mkRpcError (exit_value code)
            match decode_revert d with
            | Some rev => (msg ++ String "010" rev)%string
            | None => msg
            end (Some (hex_encode d))
      end.
Definition revert_data (data : bytes) : option bytes :=
  match decode_fevm_return_data (A:=A) data with
  | Ok b => Some b
  | _ => match (d ← decode_data data; decode_fevm_return_data (A:=A) d) with Ok b => Some b | _ => None end
  end.

(** What is known of a transaction once it was broadcast: [res] is the answer. *)
Definition after_broadcast (max_nonce_gap : Z) st (msghash : bytes) (sender : A) (nonce : Z) (msg : ChainMessage A)
    (res : CheckTx) : JsonRpcState * outcome JsonRpcError bytes :=
  if code_is_ok (ct_code res) then (st, Ok msghash)
  else
    let exit_code := exit_new (code_value (ct_code res)) in
    let failed := (st, error_with_revert exit_code (ct_log res) (revert_data (ct_data res))) in
    match try_parse exit_code (ct_log res) with
    | Some oos =>
        if is_admissible oos max_nonce_gap
        then (mkRpc (tx_cache st) (buffer_insert (tx_buffer st) sender nonce msg), Ok msghash)
        else failed
    | None => failed
    end.

(** The errors that come with the state of that moment. *)
Definition with_outcome {E T R} st (o : outcome E T) (f : T → JsonRpcState * outcome E R)
    : JsonRpcState * outcome E R :=
  match o with Ok x => f x | Err e => (st, Err e) | Retry => (st, Retry) | Panic => (st, Panic) end.

(** [broadcast_tx_sync] is the node: the checks of [App] behind [TmConv]. *)
Definition send_raw_transaction (max_nonce_gap : Z) (broadcast_tx_sync : bytes → outcome string CheckTx) st (raw : bytes)
    : JsonRpcState * outcome JsonRpcError bytes :=
  with_outcome st (ok_or (anyhow_error "failed to decode RLP as signed TypedTransaction") (decode_signed raw)) (λ d,
  let msghash := keccak256 (A:=A) raw in
  with_outcome st (match d.1 with
                   | Eip1559 tx => t ← map_err anyhow_error (request_to_transaction tx d.2 msghash); Ok (Some t)
                   | _ => Ok None
                   end) (λ cached,
  let st1 := match cached with Some t => mkRpc (<[msghash := t]> (tx_cache st)) (tx_buffer st) | None => st end in
  with_outcome st1 (typed_to_fvm_message d.1 false) (λ m,
  let msg := Signed (mkSigned m (mkSignature Secp256k1 (sig_to_vec d.2))) in
  with_outcome st1 (ok_or (anyhow_error "cannot serialize") (tx_to_vec msg)) (λ bz,
  with_outcome st1 (map_err anyhow_error (broadcast_tx_sync bz)) (λ res,
  after_broadcast max_nonce_gap st1 msghash (m_from m) (m_sequence m) msg res))))).

(** [tx_by_hash] is the query for an indexed transaction, with its block's hash. *)
Definition get_transaction_by_hash st (tx_by_hash : bytes → outcome string (option (TxResponse * bytes))) (chain_id : Z)
    (hash : bytes) : outcome JsonRpcError (option EthTransaction) :=
  match tx_cache st !! hash with
  | Some tx => Ok (Some tx)
  | None =>
      o ← map_err anyhow_error (tx_by_hash hash);
      match o with
      | None => Ok None
      | Some (res, header_hash) =>
          msg ← ok_or (anyhow_error "failed to decode tx as ChainMessage") (tx_from_slice (resp_tx res));
          match msg with
          | Signed sm =>
              h ← map_err anyhow_error (msg_hash (tr_events (resp_result res)) (resp_tx res));
              tx ← map_err anyhow_error (to_eth_transaction sm chain_id h);
              bh ← h256 header_hash;
              Ok (Some (located tx bh (resp_height res) (Z.to_nat (resp_index res))))
          | _ => Err (mkRpcError USR_ILLEGAL_ARGUMENT "incompatible transaction" None)
          end
      end
  end.

(** ** The API over time

    Submissions with the answers of the node, blocks, and what the caches forget. *)
Inductive Event :=
| Submit (raw : bytes) (node : bytes → outcome string CheckTx)
| NewBlock (chain_id : Z) (data : list bytes)
| Evict (sender : A)
| Forget (hash : bytes).
Definition step (max_nonce_gap : Z) st (e : Event) : JsonRpcState * list (A * Z * ChainMessage A) :=
  match e with
  | Submit raw node => ((send_raw_transaction max_nonce_gap node st raw).1, [])
  | NewBlock chain_id data => on_new_block st chain_id data
  | Evict sender => (mkRpc (tx_cache st) (delete sender (tx_buffer st)), [])
  | Forget hash => (mkRpc (delete hash (tx_cache st)) (tx_buffer st), [])
  end.
Fixpoint run_events (max_nonce_gap : Z) st (es : list Event) : JsonRpcState * list (A * Z * ChainMessage A) :=
  match es with
  | [] => (st, [])
  | e :: es =>
      let r := step max_nonce_gap st e in
      let r' := run_events max_nonce_gap r.1 es in
      (r'.1, r.2 ++ r'.2)
  end.
End pool.

(** ** Facts: the text of a refusal *)

Fixpoint all_digits (s : string) : bool :=
  match s with EmptyString => true | String c s => is_digit c && all_digits s end.
Lemma all_digits_u64 x : all_digits (u64_to_string x) = true ∧ String.eqb (u64_to_string x) "" = false.
Proof.
  assert (∀ d, all_digits (NilEmpty.string_of_uint d) = true) as Hd by (intros d; by induction d).
  unfold u64_to_string, NilZero.string_of_uint.
  destruct (N.to_uint (Z.to_N x)) as [|d|d|d|d|d|d|d|d|d|d]; split; try done; apply Hd.
Qed.
Lemma span_digits_app d s :
  all_digits d = true → match s with String c _ => is_digit c = false | EmptyString => True end →
  span_digits (d ++ s) = (d, s).
Proof.
  intros Hd Hs. induction d as [|c d IH].
  - destruct s as [|c s]; [done|]. change (span_digits (String c s) = (EmptyString, String c s)).
    cbn [span_digits]. by rewrite Hs.
  - simpl in Hd. apply andb_true_iff in Hd as [Hc Hd].
    change (String c d ++ s)%string with (String c (d ++ s)). cbn [span_digits]. rewrite Hc, IH by done. done.
Qed.
Lemma strip_prefix_app p s : strip_prefix p (p ++ s) = Some s.
Proof.
  induction p as [|a p IH]; [done|]. change (strip_prefix (String a p) (String a (p ++ s)) = Some s).
  cbn [strip_prefix]. by rewrite Ascii.eqb_refl.
Qed.

Lemma match_here_mismatch e g :
  match_here (sequence_mismatch e g) = Some (u64_to_string e, u64_to_string g, EmptyString).
Proof.
  unfold match_here, sequence_mismatch. rewrite strip_prefix_app. cbn [mbind option_bind].
  destruct (all_digits_u64 e) as [He Hne], (all_digits_u64 g) as [Hg Hng].
  rewrite span_digits_app by done. cbn [fst snd]. rewrite Hne, strip_prefix_app. cbn [mbind option_bind].
  pose proof (span_digits_app (u64_to_string g) "" Hg I) as Hs. rewrite string_app_nil_r in Hs.
  rewrite Hs. cbn [fst snd]. by rewrite Hng.
Qed.
Lemma captures_iter_match s e g r : match_here s = Some (e, g, r) → captures_iter s = (e, g) :: captures_iter r.
Proof.
  intros Hm. funelim (captures_iter s); first [discriminate Hm | congruence].
Qed.
Lemma captures_iter_mismatch e g :
  captures_iter (sequence_mismatch e g) = [(u64_to_string e, u64_to_string g)].
Proof. rewrite (captures_iter_match _ _ _ _ (match_here_mismatch e g)). f_equal. Qed.

(** The refusal of a message with the wrong sequence is recognised. *)
Lemma try_parse_mismatch e g :
  is_u64 e → is_u64 g → try_parse SYS_SENDER_STATE_INVALID (sequence_mismatch e g) = Some (mkOos e g).
Proof.
  intros He Hg. unfold try_parse. rewrite decide_True by done. rewrite captures_iter_mismatch. cbn [omap list_omap fst snd].
  by rewrite !parse_u64_to_string.
Qed.

(** ** Facts: runs of consecutive nonces *)

Section unblock.
Context {M : Type}.
Implicit Types (b : gmap Z M).

Lemma unblock_Some b n m :
  b !! n = Some m → unblock b n = ((n, m) :: (unblock (delete n b) (n + 1)%u64).1, (unblock (delete n b) (n + 1)%u64).2).
Proof. intros Hb. funelim (unblock b n); congruence. Qed.
Lemma unblock_None b n : b !! n = None → unblock b n = ([], b).
Proof. intros Hb. funelim (unblock b n); congruence. Qed.

(** The run takes entries out of the buffer, each once, up to a nonce that is absent. *)
Lemma unblock_spec b n :
  (∀ k m, b !! k = Some m ↔ (k, m) ∈ (unblock b n).1 ∨ (unblock b n).2 !! k = Some m) ∧
  (∀ k, k ∈ (unblock b n).1.*1 → (unblock b n).2 !! k = None) ∧ NoDup (unblock b n).1.*1 ∧
  (unblock b n).2 !! n = None.
Proof.
  remember (size b) as z eqn:Hz. revert b n Hz.
  induction z as [z IH] using (well_founded_induction lt_wf); intros b n ->.
  destruct (b !! n) as [m|] eqn:Hb.
  - assert (size (delete n b) < size b)%nat as Hlt.
    { assert (size b ≠ 0%nat) by (intros H0%map_size_empty_inv; by rewrite H0, lookup_empty in Hb).
      rewrite map_size_delete, Hb. lia. }
    destruct (IH _ Hlt (delete n b) (n + 1)%u64 eq_refl) as (H1 & H2 & H3 & _).
    rewrite (unblock_Some _ _ _ Hb). cbn [fst snd].
    set (r := unblock (delete n b) (n + 1)%u64) in *.
    assert (r.2 !! n = None ∧ n ∉ r.1.*1) as [Hn Hn'].
    { split; [|intros (p & -> & Hp)%list_elem_of_fmap].
      - destruct (r.2 !! n) as [m'|] eqn:E; [|done].
        assert (delete n b !! n = Some m') as Hd by (apply H1; by right). by rewrite lookup_delete_eq in Hd.
      - assert (delete p.1 b !! p.1 = Some p.2) as Hd by (apply H1; left; by destruct p).
        by rewrite lookup_delete_eq in Hd. }
    split_and!; [| |by constructor|done].
    + intros k m'. rewrite elem_of_cons. destruct (decide (k = n)) as [->|Hk].
      * rewrite Hb. split; [intros [= ->]; by left; left|]. intros [[[= <-]|Hin]|Hr]; [done| |congruence].
        by destruct Hn'; apply (list_elem_of_fmap_2' fst _ (n, m')).
      * rewrite <- (lookup_delete_ne b n k) by done. rewrite H1. split; [tauto|].
        intros [[[= -> _]|?]|?]; [done|tauto..].
    + intros k [->|Hk]%elem_of_cons; [done|]. by apply H2.
  - rewrite (unblock_None _ _ Hb). cbn [fst snd fmap list_fmap]. split_and!; [|by intros ? ?%elem_of_nil|constructor|done].
    intros k m. split; [by right|]. by intros [?%elem_of_nil|].
Qed.

(** The run that starts with given messages. *)
Lemma unblock_run ms : ∀ b n,
  0 <= n → n + Z.of_nat (length ms) <= U64_MAX →
  (∀ i m, ms !! i = Some m → b !! (n + Z.of_nat i) = Some m) → b !! (n + Z.of_nat (length ms)) = None →
  (unblock b n).1 = imap (λ i m, (n + Z.of_nat i, m)) ms.
Proof.
  induction ms as [|m ms IH]; intros b n Hn Hmax Hms Hend.
  - by rewrite unblock_None by (by rewrite Z.add_0_r in Hend).
  - pose proof (Hms 0%nat m eq_refl) as Hm. rewrite Z.add_0_r in Hm. rewrite (unblock_Some _ _ _ Hm). cbn [fst imap].
    rewrite Z.add_0_r. cbn [length] in *. f_equal.
    rewrite add64_small by (unfold is_u64, U64_MAX in *; lia).
    rewrite IH; [|lia..| |].
    + apply imap_ext. intros i m' _. cbn. f_equal. lia.
    + intros i m' Hi. rewrite lookup_delete_ne by lia. rewrite <- (Hms (S i) m' Hi). f_equal. lia.
    + rewrite lookup_delete_ne by lia. rewrite <- Hend. f_equal. lia.
Qed.
(** A run below an absent nonce does not get past it. *)
Lemma unblock_below b k n p : 0 <= k <= n → n <= U64_MAX → b !! n = None → p ∈ (unblock b k).1 → k <= p.1 < n.
Proof.
  remember (size b) as z eqn:Hz. revert b k Hz.
  induction z as [z IH] using (well_founded_induction lt_wf); intros b k -> Hk Hn Hb.
  destruct (b !! k) as [m|] eqn:Hbk; [|rewrite (unblock_None _ _ Hbk); by intros ?%elem_of_nil].
  assert (k ≠ n) by congruence.
  assert (size (delete k b) < size b)%nat as Hlt.
  { assert (size b ≠ 0%nat) by (intros H0%map_size_empty_inv; by rewrite H0, lookup_empty in Hbk).
    rewrite map_size_delete, Hbk. lia. }
  rewrite (unblock_Some _ _ _ Hbk). cbn [fst]. rewrite add64_small by (unfold is_u64, U64_MAX in *; lia).
  intros [->|Hp]%elem_of_cons; [cbn; lia|].
  apply (IH _ Hlt _ _ eq_refl) in Hp; [lia..|by rewrite lookup_delete_ne].
Qed.
End unblock.

(** ** Facts: the buffer *)

Section buffer.
Context {A : Type} `{AddressPayload A} `{!Countable A} `{!MsgCrypto A} `{!TxCodec A}.
Notation Buffer := (gmap A (gmap Z (ChainMessage A))).
Implicit Types (c : Buffer) (s : A).

(** What is buffered for a sender and a nonce. *)
Definition buffered c s (n : Z) : option (ChainMessage A) := b ← c !! s; b !! n.

Lemma buffered_insert c s n m s' n' :
  buffered (buffer_insert c s n m) s' n' = if decide (s = s' ∧ n = n') then Some m else buffered c s' n'.
Proof.
  unfold buffered, buffer_insert. destruct (decide (s = s')) as [<-|Hs].
  - rewrite lookup_insert_eq. cbn. destruct (decide (n = n')) as [<-|Hn].
    + by rewrite lookup_insert_eq, decide_True.
    + rewrite lookup_insert_ne, decide_False by (done || tauto).
      destruct (c !! s); [done|apply lookup_empty].
  - by rewrite lookup_insert_ne, decide_False by (done || tauto).
Qed.
Lemma buffered_set c s b s' n :
  buffered (<[s := b]> c) s' n = if decide (s = s') then b !! n else buffered c s' n.
Proof.
  unfold buffered. destruct (decide (s = s')) as [<-|]; [by rewrite lookup_insert_eq|by rewrite lookup_insert_ne].
Qed.
Lemma buffered_remove_many txs : ∀ c s n,
  buffered (remove_many c txs) s n = if decide ((s, n) ∈ txs) then None else buffered c s n.
Proof.
  induction txs as [|[s0 n0] txs IH]; intros c s n; cbn [remove_many].
  - by rewrite decide_False by apply not_elem_of_nil.
  - rewrite IH. destruct (decide ((s, n) ∈ txs)) as [Hin|Hin]; [by rewrite decide_True by (by right)|].
    destruct (decide ((s, n) ∈ (s0, n0) :: txs)) as [Hin'|Hin'].
    + apply elem_of_cons in Hin' as [[= -> ->]|?]; [|done]. unfold buffered.
      destruct (c !! s0) as [b|] eqn:Hc; [|by rewrite Hc].
      rewrite lookup_insert_eq. cbn. by rewrite lookup_delete_eq.
    + destruct (c !! s0) as [b|] eqn:Hc; [|done]. rewrite buffered_set.
      destruct (decide (s0 = s)) as [->|]; [|done]. unfold buffered. rewrite Hc. cbn.
      rewrite lookup_delete_ne; [done|]. intros ->. apply Hin'. by left.
Qed.

Lemma remove_unblocked_spec txs : ∀ c,
  (∀ s n m, buffered c s n = Some m ↔
     (s, n, m) ∈ (remove_unblocked c txs).1 ∨ buffered (remove_unblocked c txs).2 s n = Some m) ∧
  (∀ s n, (s, n) ∈ (remove_unblocked c txs).1.*1 → buffered (remove_unblocked c txs).2 s n = None) ∧
  NoDup (remove_unblocked c txs).1.*1 ∧
  (∀ s n, (s, n) ∈ txs → buffered (remove_unblocked c txs).2 s (n + 1)%u64 = None).
Proof.
  induction txs as [|[s0 n0] txs IH]; intros c; cbn [remove_unblocked fst snd].
  { split_and!; [|by intros ? ? ?%elem_of_nil|constructor|by intros ? ? ?%elem_of_nil].
    intros s n m. split; [by right|]. by intros [?%elem_of_nil|]. }
  destruct (c !! s0) as [b|] eqn:Hc.
  - destruct (unblock_spec b (n0 + 1)%u64) as (U1 & U2 & U3 & U4).
    set (run := unblock b (n0 + 1)%u64) in *. set (c1 := <[s0 := run.2]> c).
    destruct (IH c1) as (I1 & I2 & I3 & I4). set (rest := remove_unblocked c1 txs) in *. cbn [fst snd].
    assert (∀ s n m, buffered c s n = Some m ↔ (s = s0 ∧ (n, m) ∈ run.1) ∨ buffered c1 s n = Some m) as Hc1.
    { intros s n m. unfold c1. rewrite buffered_set. destruct (decide (s0 = s)) as [<-|Hs].
      - unfold buffered. rewrite Hc. cbn. rewrite U1. tauto.
      - split; [by right|]. intros [[-> _]|]; done. }
    assert (∀ s n, s = s0 ∧ n ∈ run.1.*1 → buffered c1 s n = None) as Hc1'.
    { intros s n [-> Hn]. unfold c1. rewrite buffered_set, decide_True by done. by apply U2. }
    assert (∀ s n, buffered c1 s n = None → buffered rest.2 s n = None) as Hmono.
    { intros s n Hn. destruct (buffered rest.2 s n) as [m|] eqn:E; [|done].
      assert (buffered c1 s n = Some m) by (apply I1; by right). congruence. }
    assert (∀ s n m, (s, n, m) ∈ ((λ p, (s0, p.1, p.2)) <$> run.1) ↔ s = s0 ∧ (n, m) ∈ run.1) as Hrun.
    { intros s n m. rewrite list_elem_of_fmap. split.
      - by intros ([k m'] & [= -> -> ->] & ?).
      - intros [-> ?]. by exists (n, m). }
    assert (((λ p : Z * ChainMessage A, (s0, p.1, p.2)) <$> run.1).*1 = (λ n, (s0, n)) <$> run.1.*1) as Hfst.
    { rewrite <- !list_fmap_compose. done. }
    split_and!.
    + intros s n m. rewrite Hc1, elem_of_app, Hrun, I1. tauto.
    + intros s n. rewrite fmap_app, elem_of_app, Hfst. intros [(k & [= -> ->] & Hk)%list_elem_of_fmap|Hr]; [|by apply I2].
      apply Hmono, Hc1'. done.
    + rewrite fmap_app, Hfst. apply NoDup_app. split_and!; [|intros [s n]|done].
      * apply NoDup_fmap_2; [by intros ?? [= ->]|done].
      * intros (k & [= -> ->] & Hk)%list_elem_of_fmap ([[s' n'] m] & [= <- <-] & Hin)%list_elem_of_fmap.
        assert (buffered c1 s0 k = Some m) as Hb by (apply I1; by left). by rewrite Hc1' in Hb.
    + intros s n [[= -> ->]|Hin]%elem_of_cons; [|by apply I4]. apply Hmono. unfold c1.
      by rewrite buffered_set, decide_True.
  - destruct (IH c) as (I1 & I2 & I3 & I4). split_and!; try done.
    intros s n [[= -> ->]|Hin]%elem_of_cons; [|by apply I4].
    destruct (buffered _ s0 _) as [m|] eqn:E; [|done].
    assert (buffered c s0 (n0 + 1)%u64 = Some m) as Hb by (apply I1; by right). unfold buffered in Hb. by rewrite Hc in Hb.
Qed.
End buffer.

(** ** Theorems *)

Section theorems.
Context {A : Type} `{AddressPayload A} `{!Countable A} `{!MsgCrypto A} `{!TxCodec A}.
Context {HX : HexCodec} {HL : HexCodecLaws} `{EthApiExt}.
Context (decode_signed : bytes → option (TypedTransaction * EthSignature)).
Context (sig_to_vec : EthSignature → bytes) (decode_revert : bytes → option string).
Implicit Types (rpc : JsonRpcState (A:=A)) (s : A).

(** From the check of the node to the buffer of the API: when the FVM refuses a
    message because its sequence is not that of the account, the answer that reaches
    the API is recognised; a nonce ahead of the account by at most the gap is buffered
    and the client gets the hash, and a nonce of the past or too far ahead is an error
    that leaves the buffer alone. *)
Theorem out_of_sequence_handled {S} `{!Fvm S A} exec_in_check (st st' : FvmExecState S) m id actor ret res gap rpc h msg :
  fvm_msg_check m = None → fvm_lookup_id (ledger st) (m_from m) = Ok (Some id) →
  fvm_get_actor (ledger st) id = Ok (Some actor) → m_gas_fee_cap m * m_gas_limit m <= act_balance actor →
  act_sequence actor ≠ m_sequence m → is_u64 (act_sequence actor) → is_u64 (m_sequence m) →
  fvm_check exec_in_check st m = Ok (st', ret) → check_response (CheckRet ret) = Ok res →
  let r := after_broadcast decode_revert gap rpc h (m_from m) (m_sequence m) msg res in
  st' = st ∧
  if bool_decide (act_sequence actor <= m_sequence m <= act_sequence actor + gap)
  then r = (mkRpc (tx_cache rpc) (buffer_insert (tx_buffer rpc) (m_from m) (m_sequence m) msg), Ok h)
  else r.1 = rpc ∧ ∃ e, r.2 = Err e ∧ err_code e = 2.
Proof.
  intros Hc Hid Ha Hbal Hseq Hu Hu' Hck Hres r. unfold fvm_check in Hck.
  rewrite Hc, Hid in Hck. cbn [mbind outcome_bind] in Hck. rewrite Ha in Hck. cbn [mbind outcome_bind] in Hck.
  rewrite (proj2 (Z.ltb_ge _ _) Hbal), (proj2 (Z.eqb_neq _ _) Hseq) in Hck. cbn [negb] in Hck.
  injection Hck as <- <-. split; [done|].
  assert (res = mkCheckTx (CodeErr 2) [] (sequence_mismatch (act_sequence actor) (m_sequence m)) ""
            (u64_to_i64 (m_gas_limit m)) (addr_to_string (m_from m))) as ->.
  { unfold check_response, to_check_tx in Hres. cbn in Hres. by injection Hres as <-. }
  unfold r, after_broadcast. cbn [ct_code code_is_ok code_value exit_new ct_log ct_data].
  rewrite try_parse_mismatch by done. unfold is_admissible. cbn [expected got].
  case_bool_decide as Hgap.
  - rewrite (proj2 (Z.leb_le _ _)), (proj2 (Z.leb_le _ _)) by lia. done.
  - assert ((act_sequence actor <=? m_sequence m) && (m_sequence m - act_sequence actor <=? gap) = false) as ->.
    { apply andb_false_iff. destruct (decide (act_sequence actor <= m_sequence m)).
      - right. apply Z.leb_gt. lia.
      - left. apply Z.leb_gt. lia. }
    split; [done|]. unfold error_with_revert. eexists. split; [done|]. by destruct (revert_data _).
Qed.

(** What a block does to the buffer: its own transactions and whatever they make
    ready leave it; every other buffered message stays.  Messages are sent at most
    once, each was buffered, and none is lost or sent while still buffered; of a
    sender with a transaction in the block, the next nonce is no longer waiting. *)
Theorem new_block_spec rpc chain_id data :
  let txs := collect_txs data chain_id in
  let r := on_new_block rpc chain_id data in
  (∀ h s n, (h, s, n) ∈ txs → tx_cache r.1 !! h = None ∧ buffered (tx_buffer r.1) s n = None ∧
     buffered (tx_buffer r.1) s (n + 1)%u64 = None) ∧
  (∀ s n m, (∃ h, (h, s, n) ∈ txs) ∧ buffered (tx_buffer rpc) s n = Some m ∨
            (s, n, m) ∈ r.2 ∨ buffered (tx_buffer r.1) s n = Some m ↔ buffered (tx_buffer rpc) s n = Some m) ∧
  (∀ s n, (s, n) ∈ r.2.*1 → buffered (tx_buffer r.1) s n = None ∧ ¬ ∃ h, (h, s, n) ∈ txs) ∧
  NoDup r.2.*1.
Proof.
  intros txs r. unfold r, on_new_block. fold txs.
  destruct txs as [|tx0 txs'] eqn:Htxs.
  { cbn. split_and!; [by intros ??? ?%elem_of_nil| |by intros ?? ?%elem_of_nil|constructor].
    intros s n m. split; [|by right; right]. intros [[[? ?%elem_of_nil] _]|[?%elem_of_nil|]]; done. }
  rewrite <- Htxs. clear Htxs tx0 txs' r. set (nonces := (λ t : bytes * A * Z, (t.1.2, t.2)) <$> txs).
  assert (∀ s n, (s, n) ∈ nonces ↔ ∃ h, (h, s, n) ∈ txs) as Hnonces.
  { intros s n. unfold nonces. rewrite list_elem_of_fmap. split.
    - intros ([[h s'] n'] & [= -> ->] & ?). by exists h.
    - intros [h ?]. by exists (h, s, n). }
  destruct (remove_unblocked_spec nonces (remove_many (tx_buffer rpc) nonces)) as (Hu & Hgone' & Hnd & Hnext).
  set (u := remove_unblocked (remove_many (tx_buffer rpc) nonces) nonces) in *. cbn [fst snd tx_cache tx_buffer].
  assert (∀ s n, (s, n) ∈ nonces → buffered u.2 s n = None) as Hgone.
  { intros s n Hin. destruct (buffered u.2 s n) as [m|] eqn:E; [|done].
    assert (buffered (remove_many (tx_buffer rpc) nonces) s n = Some m) as Hb by (apply Hu; by right).
    by rewrite buffered_remove_many, decide_True in Hb. }
  split_and!; [| | |done].
  - intros h s n Hin. assert ((s, n) ∈ nonces) by (apply Hnonces; eauto). split_and!; [|by apply Hgone|by apply Hnext].
    assert (h ∈ (λ t : bytes * A * Z, t.1.1) <$> txs) as Hh by (by apply (list_elem_of_fmap_2' (λ t, t.1.1) _ (h, s, n))).
    unfold cache_remove_many. revert Hh. generalize ((λ t : bytes * A * Z, t.1.1) <$> txs) as ks. intros ks.
    assert (∀ (c : gmap bytes EthTransaction), h ∈ ks ∨ c !! h = None → foldl (λ c k, delete k c) c ks !! h = None) as Hks.
    { induction ks as [|k ks IH]; intros c; cbn; [by intros [?%elem_of_nil|]|].
      intros Hc. apply IH. destruct (decide (k = h)) as [->|]; [right; apply lookup_delete_eq|].
      rewrite lookup_delete_ne by done. destruct Hc as [[->|]%elem_of_cons|]; [done|tauto..]. }
    intros Hh. apply Hks. by left.
  - intros s n m. rewrite <- Hu, buffered_remove_many, <- Hnonces.
    destruct (decide ((s, n) ∈ nonces)); naive_solver.
  - intros s n Hin. split; [by apply Hgone'|]. rewrite <- Hnonces. intros Hn.
    apply list_elem_of_fmap in Hin as ([[s' n'] m] & [= -> ->] & Hin).
    assert (buffered (remove_many (tx_buffer rpc) nonces) s' n' = Some m) as Hb by (apply Hu; by left).
    by rewrite buffered_remove_many, decide_True in Hb.
Qed.

(** What the transactions of one sender [s], up to nonce [n], unblock above [n]. *)
Lemma remove_unblocked_run txs : ∀ c s n ms,
  (∀ k, (s, k) ∈ txs → 0 <= k <= n) → 0 <= n → n + 1 + Z.of_nat (length ms) <= U64_MAX → buffered c s n = None →
  (∀ i m, ms !! i = Some m → buffered c s (n + 1 + Z.of_nat i) = Some m) → buffered c s (n + 1 + Z.of_nat (length ms)) = None →
  filter (λ x : A * Z * ChainMessage A, x.1.1 = s ∧ n < x.1.2) (remove_unblocked c txs).1 =
    if decide ((s, n) ∈ txs) then imap (λ i m, (s, n + 1 + Z.of_nat i, m)) ms else [].
Proof.
  induction txs as [|[s0 n0] txs IH]; intros c s n ms Hle Hn Hmax Hnone Hms Hend; cbn [remove_unblocked].
  { by rewrite decide_False by apply not_elem_of_nil. }
  assert (Hle' : ∀ k, (s, k) ∈ txs → 0 <= k <= n) by (intros k Hk; apply Hle; by right).
  destruct (c !! s0) as [b|] eqn:Hc.
  2: { rewrite (IH c s n ms) by done. destruct (decide (s0 = s)) as [->|Hs].
       - assert (ms = []) as ->. { destruct ms as [|m ms]; [done|]. specialize (Hms 0%nat m eq_refl). unfold buffered in Hms. by rewrite Hc in Hms. }
         by repeat case_decide.
       - apply decide_ext. rewrite elem_of_cons. naive_solver. }
  destruct (unblock_spec b (n0 + 1)%u64) as (U1 & _ & _ & U4). pose proof (λ p, unblock_below b (n0 + 1)%u64 n p) as Hbelow.
  set (run := unblock b (n0 + 1)%u64) in *. cbn [fst]. rewrite filter_app. destruct (decide (s0 = s)) as [->|Hs].
  - assert (Hb : ∀ k, buffered c s k = b !! k) by (intros k; unfold buffered; by rewrite Hc). rewrite Hb in Hnone, Hend.
    destruct (Hle n0) as [Hn0 Hn0']; [by left|].
    assert (Hrun2 : run.2 !! n = None). { destruct (run.2 !! n) eqn:E; [|done]. assert (b !! n = Some c0) by (apply U1; by right). congruence. }
    destruct (decide (n0 = n)) as [->|Hne].
    + rewrite (decide_True (P := (s, n) ∈ _ :: _)) by (by left).
      rewrite (IH (<[s := run.2]> c) s n []); [|done|done|cbn; unfold U64_MAX in *; lia|by rewrite buffered_set, decide_True|by intros ??|].
      2: { rewrite buffered_set, decide_True by done. cbn. rewrite Z.add_0_r. by rewrite add64_small in U4 by (unfold is_u64, U64_MAX in *; lia). }
      replace (if decide ((s, n) ∈ txs) then _ else []) with (@nil (A * Z * ChainMessage A)) by (by case_decide). rewrite app_nil_r.
      unfold run. rewrite add64_small by (unfold is_u64, U64_MAX in *; lia).
      rewrite (unblock_run ms) by (lia || done || intros i m Hm; rewrite <- Hb; by apply Hms).
      rewrite filter_all. { apply list_eq. intros i. rewrite list_lookup_fmap, !list_lookup_imap. by destruct (ms !! i). }
      apply Forall_forall. intros x ((k & m) & -> & Hk)%list_elem_of_fmap. apply elem_of_lookup_imap in Hk as (i & m' & [= -> ->] & _). cbn. split; [done|lia].
    + rewrite add64_small in * by (unfold is_u64, U64_MAX in *; lia).
      rewrite (filter_none _ (_ <$> run.1)).
      2: { intros x ([k m] & -> & Hk)%list_elem_of_fmap. apply Hbelow in Hk; [|lia|unfold U64_MAX in *; lia|done]. cbn in *. intros [_ ?]. lia. }
      assert (Heq : ∀ k, n <= k → run.2 !! k = b !! k).
      { intros k Hk. apply option_eq. intros m. rewrite U1. split; [by right|]. intros [Hin|?]; [|done].
        apply Hbelow in Hin; [cbn in Hin; lia|lia|unfold U64_MAX in *; lia|done]. }
      cbn [app]. rewrite (IH (<[s := run.2]> c) s n ms);
        [|done|done|done|by rewrite buffered_set, decide_True|intros i m Hm; rewrite buffered_set, decide_True, Heq, <- Hb by (done || lia); by apply Hms|by rewrite buffered_set, decide_True, Heq by (done || lia)].
      apply decide_ext. rewrite elem_of_cons. naive_solver.
  - rewrite (filter_none _ (_ <$> run.1)) by (intros x ([k m] & -> & Hk)%list_elem_of_fmap; cbn; tauto). cbn [app].
    rewrite (IH (<[s0 := run.2]> c) s n ms); [|done..| | |].
    + apply decide_ext. rewrite elem_of_cons. naive_solver.
    + by rewrite buffered_set, decide_False.
    + intros i m Hm. rewrite buffered_set, decide_False by done. by apply Hms.
    + by rewrite buffered_set, decide_False.
Qed.

(** C30. A gap that closes releases the queue in order.  Take a block with any Ethereum
    transactions, and let [n] be the highest nonce of a sender among them.  If messages of this
    sender with the nonces that follow [n] are buffered, up to one that is missing, then what
    is sent for the sender above [n] is these messages, each once and in the order of their
    nonces; and the transactions that are broadcast contain their encodings in that order. *)
Theorem gap_closes_in_order rpc chain_id data h s n msgs :
  (h, s, n) ∈ collect_txs data chain_id → (∀ h' k, (h', s, k) ∈ collect_txs data chain_id → 0 <= k <= n) →
  n + 1 + Z.of_nat (length msgs) <= U64_MAX →
  (∀ i m, msgs !! i = Some m → buffered (tx_buffer rpc) s (n + 1 + Z.of_nat i) = Some m) →
  buffered (tx_buffer rpc) s (n + 1 + Z.of_nat (length msgs)) = None →
  filter (λ x : A * Z * ChainMessage A, x.1.1 = s ∧ n < x.1.2) (on_new_block rpc chain_id data).2 = imap (λ i m, (s, n + 1 + Z.of_nat i, m)) msgs ∧
  omap tx_to_vec msgs `sublist_of` send_msgs (on_new_block rpc chain_id data).2.
Proof.
  intros Hin Hle Hmax Hms Hend. unfold on_new_block. destruct (collect_txs data chain_id) as [|t ts] eqn:Htxs; [by apply elem_of_nil in Hin|]. rewrite <- Htxs in *.
  set (nonces := (λ t : bytes * A * Z, (t.1.2, t.2)) <$> collect_txs data chain_id). cbn [snd].
  assert (Hno : ∀ k, (s, k) ∈ nonces → 0 <= k <= n).
  { intros k ([[h' s'] k'] & [= <- <-] & Hk)%list_elem_of_fmap. by eapply Hle. }
  assert (Hsn : (s, n) ∈ nonces) by (apply list_elem_of_fmap; by exists (h, s, n)).
  assert (Hkeep : ∀ k, n < k → buffered (remove_many (tx_buffer rpc) nonces) s k = buffered (tx_buffer rpc) s k).
  { intros k Hk. rewrite buffered_remove_many, decide_False; [done|]. intros Hk'%Hno. lia. }
  assert (Hf : filter (λ x : A * Z * ChainMessage A, x.1.1 = s ∧ n < x.1.2) (remove_unblocked (remove_many (tx_buffer rpc) nonces) nonces).1
               = imap (λ i m, (s, n + 1 + Z.of_nat i, m)) msgs).
  { rewrite (remove_unblocked_run nonces _ s n msgs); [by rewrite decide_True|done|by apply (Hno n)|done|by rewrite buffered_remove_many, decide_True| |].
    - intros i m Hm. rewrite Hkeep by lia. by apply Hms.
    - by rewrite Hkeep by lia. }
  split; [done|]. unfold send_msgs.
  assert (Hm : msgs = (imap (λ i m, (s, n + 1 + Z.of_nat i, m)) msgs).*2).
  { apply list_eq. intros i. rewrite list_lookup_fmap, list_lookup_imap. by destruct (msgs !! i). }
  rewrite Hm, <- Hf. etransitivity; [|apply (omap_filter_sublist (λ x : A * Z * ChainMessage A, x.1.1 = s ∧ n < x.1.2))].
  rewrite Hf. clear. induction (imap _ msgs) as [|x l IH]; [constructor|]. cbn. destruct (tx_to_vec x.2); [by constructor|done].
Qed.

(** What a client submitted. *)
Definition submitted (es : list (Event (A:=A))) s (n : Z) (m : ChainMessage A) : Prop :=
  ∃ raw node d fm, Submit raw node ∈ es ∧ decode_signed raw = Some d ∧
    typed_to_fvm_message d.1 false = Ok fm ∧ s = m_from fm ∧ n = m_sequence fm ∧
    m = Signed (mkSigned fm (mkSignature Secp256k1 (sig_to_vec d.2))).

Lemma send_raw_buffered gap node rpc raw s n m :
  buffered (tx_buffer (send_raw_transaction decode_signed sig_to_vec decode_revert gap node rpc raw).1) s n = Some m →
  buffered (tx_buffer rpc) s n = Some m ∨ submitted [Submit raw node] s n m.
Proof.
  unfold send_raw_transaction, with_outcome.
  destruct (decode_signed raw) as [d|] eqn:Hd; cbn [ok_or]; [|by left].
  destruct (match d.1 with Eip1559 _ => _ | _ => _ end) as [cached| | |]; try by left.
  set (rpc1 := match cached with Some t => _ | None => _ end).
  assert (tx_buffer rpc1 = tx_buffer rpc) as Hbuf by (by destruct cached).
  destruct (typed_to_fvm_message d.1 false) as [fm| | |] eqn:Hfm; try (rewrite <- Hbuf; by left).
  set (msg := Signed _). destruct (tx_to_vec msg) as [bz|]; cbn [ok_or]; [|rewrite <- Hbuf; by left].
  destruct (map_err anyhow_error (node bz)) as [res| | |]; try (rewrite <- Hbuf; by left).
  unfold after_broadcast. destruct (code_is_ok _); [rewrite <- Hbuf; by left|].
  destruct (try_parse _ _) as [oos|]; [|rewrite <- Hbuf; by left].
  destruct (is_admissible oos gap); [|rewrite <- Hbuf; by left].
  cbn [fst tx_buffer]. rewrite buffered_insert, Hbuf. case_decide as Hsn; [|by left].
  intros [= <-]. destruct Hsn as [<- <-]. right. exists raw, node, d, fm. split; [left|done].
Qed.

(** The API only broadcasts what was submitted to it: over any sequence of
    submissions, blocks and evictions, a message that is buffered or was sent from
    the buffer is one that a client submitted, under its own sender and nonce. *)
Theorem broadcasts_were_submitted gap es s n m :
  let r := run_events decode_signed sig_to_vec decode_revert gap (mkRpc ∅ ∅) es in
  (s, n, m) ∈ r.2 ∨ buffered (tx_buffer r.1) s n = Some m → submitted es s n m.
Proof.
  assert (∀ es0 es rpc,
    (∀ s n m, buffered (tx_buffer rpc) s n = Some m → submitted es0 s n m) → (∀ e, e ∈ es → e ∈ es0) →
    let r := run_events decode_signed sig_to_vec decode_revert gap rpc es in
    ∀ s n m, (s, n, m) ∈ r.2 ∨ buffered (tx_buffer r.1) s n = Some m → submitted es0 s n m) as Hgen.
  { clear. intros es0 es. induction es as [|e es IH]; intros rpc Hrpc Hes; cbn zeta; cbn [run_events fst snd].
    - intros s n m [?%elem_of_nil|]; [done|]. by apply Hrpc.
    - assert (∀ s n m, (s, n, m) ∈ (step decode_signed sig_to_vec decode_revert gap rpc e).2 ∨
                       buffered (tx_buffer (step decode_signed sig_to_vec decode_revert gap rpc e).1) s n = Some m →
                       submitted es0 s n m) as Hstep.
      { intros s n m. destruct e as [raw node|chain_id data|s0|h0]; cbn [step fst snd tx_buffer].
        - intros [?%elem_of_nil|Hb]; [done|]. apply send_raw_buffered in Hb as [?|Hsub]; [by apply Hrpc|].
          destruct Hsub as (raw' & node' & d & fm & Hin%list_elem_of_singleton & Hrest). injection Hin as -> ->.
          exists raw, node, d, fm. split; [apply Hes; left|exact Hrest].
        - intros Hb. apply Hrpc.
          destruct (remove_unblocked_spec ((λ t, (t.1.2, t.2)) <$> collect_txs data chain_id)
                      (remove_many (tx_buffer rpc) ((λ t, (t.1.2, t.2)) <$> collect_txs data chain_id))) as [Hu _].
          unfold on_new_block in Hb. destruct (collect_txs data chain_id) as [|t ts]; cbn [fst snd tx_buffer] in Hb.
          + destruct Hb as [?%elem_of_nil|]; done.
          + apply Hu in Hb. rewrite buffered_remove_many in Hb. by case_decide.
        - intros [?%elem_of_nil|Hb]; [done|]. apply Hrpc. unfold buffered in *.
          destruct (decide (s0 = s)) as [->|]; [by rewrite lookup_delete_eq in Hb|by rewrite lookup_delete_ne in Hb].
        - intros [?%elem_of_nil|Hb]; [done|]. by apply Hrpc. }
      intros s n m. rewrite elem_of_app. intros [[Hin|Hin]|Hb].
      + apply Hstep. by left.
      + eapply IH; [|intros e' He'; apply Hes; by right|by left]. intros s' n' m' Hb'. apply Hstep. by right.
      + eapply IH; [|intros e' He'; apply Hes; by right|by right]. intros s' n' m' Hb'. apply Hstep. by right. }
  intros r. apply Hgen; [|done]. intros s' n' m'. unfold buffered. cbn [tx_buffer]. by rewrite lookup_empty.
Qed.
End theorems.

Section served.
Context {A : Type} `{L : MsgCryptoLaws A} {PL : AddressPayloadLaws A} `{!Countable A} `{!TxCodec A}.
Context {HX : HexCodec} {HL : HexCodecLaws} `{EthApiExt}.
Context (decode_signed : bytes → option (TypedTransaction * EthSignature)).
Context (sig_to_vec : EthSignature → bytes) (decode_revert : bytes → option string).

(** The transaction of a message made from a wallet's transaction is that transaction,
    and its hash is the one the wallet computes. *)
Lemma wallet_message_shown tx from chain_id sig esig :
  wallet_tx (A:=A) tx from chain_id → to_eth_signature (A:=A) sig true = Ok esig →
  ∃ m, to_fvm_message tx = Ok m ∧
    (∀ h, to_eth_transaction (mkSigned m sig) chain_id h = request_to_transaction tx esig h) ∧
    domain_hash (mkSigned m sig) chain_id = Ok (Some (keccak256 (A:=A) (rlp_signed (A:=A) tx esig))).
Proof.
  intros Hw Hsig. destruct (wallet_tx_message tx from chain_id Hw) as (m & Hm & Hfrom & Htx & _).
  exists m. split; [done|]. split.
  - intros h. unfold to_eth_transaction. cbn [message signature]. rewrite Hsig. cbn [mbind outcome_bind]. by rewrite Htx.
  - unfold domain_hash, is_eth_addr_deleg, is_eth_addr_compat. cbn [message signature]. rewrite Hfrom.
    destruct (to_eth_transaction_request_Ok _ _ _ Htx) as (_ & _ & to & _ & _ & Hto & _). rewrite Hto.
    rewrite bool_decide_eq_true_2 by eauto. cbn [andb]. rewrite Htx. cbn [map_err mbind outcome_bind].
    rewrite Hsig. cbn [map_err mbind outcome_bind]. by rewrite decide_True by apply keccak_length.
Qed.

(** The life of a wallet's transaction: once [send_raw_transaction] answered with a
    hash, that hash is the one Ethereum gives the transaction, and a query for it
    returns the transaction as submitted; after a block holds it the same query, now
    answered from the result that CometBFT indexed, returns the same transaction with
    its place in the chain. *)
Theorem submitted_transaction_served gap node rpc raw tx esig from chain_id rpc' h :
  decode_signed raw = Some (Eip1559 tx, esig) → wallet_tx (A:=A) tx from chain_id →
  rlp_signed (A:=A) tx esig = raw → to_eth_signature (A:=A) (mkSignature Secp256k1 (sig_to_vec esig)) true = Ok esig →
  send_raw_transaction decode_signed sig_to_vec decode_revert gap node rpc raw = (rpc', Ok h) →
  h = keccak256 (A:=A) raw ∧ ∃ m t, to_fvm_message tx = Ok m ∧ request_to_transaction tx esig h = Ok t ∧
  (∀ q c, get_transaction_by_hash rpc' q c h = Ok (Some t)) ∧
  ∀ data q ret bhash r height idx hh,
    let sm := mkSigned m (mkSignature Secp256k1 (sig_to_vec esig)) in
    tx_from_slice data = Some (Signed sm) → to_exec_tx_result ret (Some h) (Some bhash) = Ok r →
    is_bytes h → length bhash = 32%nat → is_bytes bhash → length hh = 32%nat →
    q h = Ok (Some (mkTxResponse height (Z.of_nat idx) r data, hh)) →
    get_transaction_by_hash (on_new_block rpc' chain_id [data]).1 q chain_id h = Ok (Some (located t hh height idx)).
Proof.
  intros Hdec Hw Hraw Hsig Hsend.
  destruct (wallet_message_shown _ _ _ _ _ Hw Hsig) as (m & Hm & Hshown & Hdom). rewrite Hraw in Hdom.
  unfold send_raw_transaction, with_outcome in Hsend. rewrite Hdec in Hsend. cbn [ok_or fst snd] in Hsend.
  destruct (request_to_transaction tx esig (keccak256 (A:=A) raw)) as [t| | |] eqn:Ht; try done.
  cbn [map_err mbind outcome_bind typed_to_fvm_message] in Hsend. rewrite Hm in Hsend. cbn [map_err] in Hsend.
  destruct (tx_to_vec _) as [bz|] in Hsend; cbn [ok_or] in Hsend; [|done].
  destruct (map_err anyhow_error (node bz)) as [res| | |]; try done.
  assert (h = keccak256 (A:=A) raw ∧ tx_cache rpc' = <[keccak256 (A:=A) raw := t]> (tx_cache rpc)) as [-> Hcache].
  { unfold after_broadcast in Hsend. destruct (code_is_ok _); [by injection Hsend as <- <-|].
    destruct (try_parse _ _) as [oos|]; [|done]. destruct (is_admissible oos gap); [|done]. by injection Hsend as <- <-. }
  split; [done|]. exists m, t. split_and!; [done..| |].
  { intros q c. unfold get_transaction_by_hash. by rewrite Hcache, lookup_insert_eq. }
  intros data q ret bhash r height idx hh sm Hdata Hr Hb Hl Hb' Hhh Hq. subst sm. unfold get_transaction_by_hash.
  assert (collect_txs (A:=A) [data] chain_id = [(keccak256 (A:=A) raw, m_from m, m_sequence m)]) as Htxs.
  { unfold collect_txs. cbn [omap list_omap]. by rewrite Hdata, Hdom. }
  unfold on_new_block. rewrite Htxs. cbn [fst tx_cache fmap list_fmap cache_remove_many foldl].
  rewrite Hcache, lookup_delete_eq, Hq. cbn [map_err mbind outcome_bind resp_tx]. rewrite Hdata.
  cbn [ok_or mbind outcome_bind resp_result].
  assert (msg_hash (tr_events r) data = Ok (keccak256 (A:=A) raw)) as ->.
  { unfold msg_hash. by rewrite (execution_eth_hash _ _ _ _ Hr) by (done || apply keccak_length). }
  cbn [map_err mbind outcome_bind]. rewrite Hshown, Ht. cbn [map_err mbind outcome_bind].
  unfold h256. rewrite decide_True by done. cbn [mbind outcome_bind resp_height resp_index]. by rewrite Nat2Z.id.
Qed.
End served.

(** ** Witnesses *)

Definition ahead_message (nonce : Z) : Message Payload :=
  mkMessage 0 (PayloadID 1) sample_to nonce 0 INVOKE_CONTRACT [] 10 10 1.
Definition refused (e g : Z) : CheckTx := mkCheckTx (CodeErr 2) [] (sequence_mismatch e g) "" 10 "".
Definition toy_decode (raw : bytes) : option (TypedTransaction * EthSignature) :=
  match raw with [5] => Some (Eip1559 sample_tx, mkEthSig 0 7 7) | _ => None end.
Definition toy_sig_to_vec (s : EthSignature) : bytes := repeat (sig_r s) 64 ++ [sig_v s].
Definition no_revert (b : bytes) : option string := None.
Definition sample_chain_message : ChainMessage Payload := Signed (mkSigned (sample_message 30) sample_sig).

Lemma out_of_sequence_handled_witness :
  ∃ ret res, fvm_check false (toy_block []) (ahead_message 7) = Ok (toy_block [], ret) ∧
    check_response (CheckRet ret) = Ok res ∧
    after_broadcast no_revert 10 (mkRpc ∅ ∅) [9] (PayloadID 1) 7 sample_chain_message res =
      (mkRpc ∅ (buffer_insert ∅ (PayloadID 1) 7 sample_chain_message), Ok [9]).
Proof.
  destruct (fvm_check false (toy_block []) (ahead_message 7)) as [[st ret]| | |] eqn:Hck;
    [|vm_compute in Hck; discriminate Hck..].
  destruct (check_response (CheckRet ret)) as [res| | |] eqn:Hres;
    [|vm_compute in Hck; injection Hck as <- <-; vm_compute in Hres; discriminate Hres..].
  destruct (out_of_sequence_handled no_revert false (toy_block []) st (ahead_message 7) 1 (mkActor [] [] 5 1000 None) ret res
              10 (mkRpc ∅ ∅) [9] sample_chain_message) as [-> Hr]; try done.
  exists ret, res. split; [reflexivity|]. split; [exact Hres|]. rewrite bool_decide_eq_true_2 in Hr by done. exact Hr.
Defined.

Lemma gap_closes_in_order_witness :
  filter (λ x : Payload * Z * ChainMessage Payload, x.1.1 = sample_from ∧ 5 < x.1.2)
    (on_new_block (mkRpc ∅ {[sample_from := {[6 := sample_chain_message; 7 := sample_chain_message]}]}) 1337 [[1]; [1]]).2 =
    [(sample_from, 6, sample_chain_message); (sample_from, 7, sample_chain_message)].
Proof.
  assert (Ht : collect_txs (A:=Payload) [[1]; [1]] 1337 = [(pad32 [5], sample_from, 5); (pad32 [5], sample_from, 5)]) by (vm_compute; reflexivity).
  destruct (gap_closes_in_order (mkRpc ∅ {[sample_from := {[6 := sample_chain_message; 7 := sample_chain_message]}]}) 1337 [[1]; [1]] (pad32 [5])
              sample_from 5 [sample_chain_message; sample_chain_message]) as [Hf _].
  - rewrite Ht. by left.
  - rewrite Ht. intros h' k Hk. rewrite !elem_of_cons, elem_of_nil in Hk. destruct Hk as [Hk|[Hk|[]]]; apply (f_equal snd) in Hk; cbn in Hk; lia.
  - unfold U64_MAX. simpl. lia.
  - intros [|[|i]] m Hm; simpl in Hm; simplify_eq; vm_compute; reflexivity.
  - vm_compute. reflexivity.
  - exact Hf.
Defined.

Definition sample_events : list (Event (A:=Payload)) :=
  [Submit [5] (λ _, Ok (refused 4 5)); NewBlock 1337 [[3]]].
Definition sample_sent : list (Payload * Z * ChainMessage Payload) :=
  (run_events toy_decode toy_sig_to_vec no_revert 10 (mkRpc ∅ ∅) sample_events).2.
Lemma sample_sent_eq : sample_sent = [(sample_from, 5, sample_chain_message)].
Proof. vm_compute. reflexivity. Qed.
Lemma broadcasts_were_submitted_witness :
  submitted toy_decode toy_sig_to_vec sample_events sample_from 5 sample_chain_message.
Proof.
  apply (broadcasts_were_submitted toy_decode toy_sig_to_vec no_revert 10 sample_events).
  left. change ((sample_from, 5, sample_chain_message) ∈ sample_sent). rewrite sample_sent_eq. left.
Defined.

Definition sample_sent_raw : JsonRpcState * outcome JsonRpcError bytes :=
  send_raw_transaction toy_decode toy_sig_to_vec no_revert 10 (λ _, Ok (refused 4 5)) (mkRpc ∅ ∅) [5].
Lemma sample_sent_raw_ok : sample_sent_raw = (sample_sent_raw.1, Ok (pad32 [5])).
Proof. rewrite (surjective_pairing sample_sent_raw) at 1. f_equal. Qed.
Lemma submitted_transaction_served_witness :
  ∃ t, get_transaction_by_hash sample_sent_raw.1 (λ _, Ok None) 1337 (pad32 [5]) = Ok (Some t) ∧ et_value t = 30.
Proof.
  destruct (submitted_transaction_served toy_decode toy_sig_to_vec no_revert 10 (λ _, Ok (refused 4 5)) (mkRpc ∅ ∅) [5]
              sample_tx (mkEthSig 0 7 7) (repeat 7 20) 1337 sample_sent_raw.1 (pad32 [5]))
    as (_ & m & t & _ & Ht & Hq & _);
    [reflexivity|exact sample_wallet_tx|reflexivity|reflexivity|exact sample_sent_raw_ok|].
  exists t. split; [apply Hq|]. vm_compute in Ht. injection Ht as <-. reflexivity.
Defined.
