(* ===== verification/Query.v ===== *)
(** * Queries and gas estimation
    ([vm/interpreter/src/fvm/query.rs], [fvm/state/query.rs], [bytes.rs], and in
    [app/src] the handler of ABCI queries and [to_query])

    A query runs on the state of a height, or on top of the transactions of the
    mempool.  Messages run inside a transaction of the state tree that is always
    rolled back, so that calls leave nothing behind, not even for the later calls of
    the same query: estimating gas is a search that repeats the call with growing
    limits.

    Transactions of the state tree are code of the FVM: [FvmTransactions], with the
    laws [FvmTransactionLaws].  Codecs and the block store are [QueryCodec].  The
    limits are scaled with [f64] arithmetic, modelled bit for bit for the numbers
    that occur: [f64] is a non-negative normal number. *)

From Stdlib Require Import Ascii String.
From stdpp Require Import base tactics numbers list gmap.
From S2P Require Import Prelude Voting IpcApi Finality Provider CetfActor Message Checkpoint Exec Chain Bytes App.
From S2P Require Import TmConv.

Open Scope Z_scope.

(** ** Floating point *)

(** [mant * 2 ^ expo] *)
Record f64 := mkF64 { mant : Z; expo : Z }.

(** Rounding to 53 bits, to nearest and ties to even. *)
Definition round53 (m e : Z) : f64 :=
  let s := Z.log2 m - 52 in
  if s <=? 0 then mkF64 m e
  else
    let q := Z.shiftr m s in
    let r := m - Z.shiftl q s in
    let half := Z.shiftl 1 (s - 1) in
    mkF64 (if (half <? r) || ((half =? r) && Z.odd q) then q + 1 else q) (e + s).
Definition u64_to_f64 (x : Z) : f64 := round53 x 0.
Definition f64_mul (a b : f64) : f64 := round53 (mant a * mant b) (expo a + expo b).
(** [as u64] truncates and saturates. *)
Definition f64_to_u64 (a : f64) : Z :=
  Z.min U64_MAX (if expo a <? 0 then Z.shiftr (mant a) (- expo a) else Z.shiftl (mant a) (expo a)).
(** [(x as f64 * rate) as u64] *)
Definition scale (x : Z) (rate : f64) : Z := f64_to_u64 (f64_mul (u64_to_f64 x) rate).

(** ** Parameters *)

Class FvmTransactions (S : Type) := {
  begin_transaction : S → S;
  (** [end_transaction(true)]: roll back *)
  end_transaction : S → option S;
}.

Inductive FvmQuery (A : Type) :=
| QIpld (cid : bytes)
| QActorState (addr : A)
| QCall (msg : Message A)
| QEstimateGas (msg : Message A)
| QStateParams
| QBuiltinActors.
Arguments QIpld {A} _.
Arguments QActorState {A} _.
Arguments QCall {A} _.
Arguments QEstimateGas {A} _.
Arguments QStateParams {A}.
Arguments QBuiltinActors {A}.

Record GasEstimate := mkEstimate {
  est_exit_code : ExitCode;
  est_info : string;
  est_return_data : bytes;
  est_gas_limit : Z;
}.
Record StateParams := mkQueryParams {
  qp_base_fee : Z;
  qp_circ_supply : Z;
  qp_chain_id : Z;
  qp_network_version : Z;
}.
Inductive FvmQueryRet (A : Type) `{Countable A} :=
| RetIpld (data : option bytes)
| RetActorState (st : option (Z * ActorState A))
| RetCall (ret : FvmApplyRet A)
| RetEstimateGas (est : GasEstimate)
| RetStateParams (p : StateParams)
| RetBuiltinActors (actors : list (string * bytes)).
Arguments RetIpld {A _ _} _.
Arguments RetActorState {A _ _} _.
Arguments RetCall {A _ _} _.
Arguments RetEstimateGas {A _ _} _.
Arguments RetStateParams {A _ _} _.
Arguments RetBuiltinActors {A _ _} _.

Class QueryCodec (A : Type) := {
  (** decoding of requests *)
  de_cid : bytes → option bytes;
  de_query : bytes → option (FvmQuery A);
  (** the block store: raw blocks, the system actor's state (the CID of the manifest)
      and the manifest of built-in actors *)
  store_get : bytes → outcome string (option bytes);
  store_system_state : bytes → outcome string (option bytes);
  store_builtin_actors : bytes → outcome string (option (list (string * bytes)));
  (** encoding of answers; a result of a transaction goes through Protobuf *)
  en_id : Z → outcome string bytes;
  en_actor_state : ActorState A → outcome string bytes;
  en_tx_result : TxResult → outcome string bytes;
  en_estimate : GasEstimate → outcome string bytes;
  en_state_params : StateParams → outcome string bytes;
  en_builtin_actors : list (string * bytes) → outcome string bytes;
}.

(** ** The state of a query ([state/query.rs]) *)

Record FvmQueryState (S : Type) := mkQuery {
  q_height : Z;
  q_params : FvmStateParams;
  q_exec : option (FvmExecState S);
  q_pending : bool;
}.
Arguments mkQuery {S} _ _ _ _.
Arguments q_height {S} _.
Arguments q_params {S} _.
Arguments q_exec {S} _.
Arguments q_pending {S} _.

(** Operations of a query: they thread its state, and the state of checks that is
    shared with the mempool.  An error leaves the latter behind. *)
Definition QM (S T : Type) : Type :=
  FvmQueryState S → option (FvmExecState S) → option (FvmExecState S) * outcome string (FvmQueryState S * T).
Definition qret {S T} (x : T) : QM S T := λ q chk, (chk, Ok (q, x)).
Definition qlift {S T} (o : outcome string T) : QM S T := λ q chk, (chk, x ← o; Ok (q, x)).
Definition qbind {S T U} (m : QM S T) (f : T → QM S U) : QM S U := λ q chk,
  match m q chk with
  | (chk', Ok (q', x)) => f x q' chk'
  | (chk', Err e) => (chk', Err e)
  | (chk', Retry) => (chk', Retry)
  | (chk', Panic) => (chk', Panic)
  end.
Notation "'let!' x := m 'in' k" := (qbind m (λ x, k)) (at level 200, x name, m at level 100, k at level 200).

Section query.
Context {S A : Type} `{AddressPayload A} `{!Countable A} `{!Fvm S A} `{!FvmTransactions S} `{!FvmStore S}.
Context `{!QueryCodec A} `{HexCodec}.
(** The configuration. *)
Context (gas_overestimation_rate gas_search_step : f64).
Implicit Types (st : FvmExecState S) (m : Message A).

Definition with_revert {T} (f : FvmExecState S → outcome string (FvmExecState S * T)) st
    : FvmExecState S * outcome string T :=
  let st0 := set_ledger st (begin_transaction (ledger st)) in
  let finish st1 (res : outcome string T) :=
    match end_transaction (ledger st1) with Some s => (set_ledger st1 s, res) | None => (st1, Panic) end in
  match f st0 with
  | Ok (st1, x) => finish st1 (Ok x)
  | Err e => finish st0 (Err e)
  | Retry => (st0, Retry)
  | Panic => (st0, Panic)
  end.

(** Run on the state of the query itself, which is kept for the next operation. *)
Definition with_cached {T} (f : FvmExecState S → outcome string (FvmExecState S * T)) st : QM S T := λ q chk,
  let r := with_revert f st in
  (chk, x ← r.2; Ok (mkQuery (q_height q) (q_params q) (Some r.1) (q_pending q), x)).
Definition with_exec_state {T} (f : FvmExecState S → outcome string (FvmExecState S * T)) : QM S T := λ q chk,
  match (if q_pending q then chk else None) with
  | Some st => let r := with_revert f st in (Some r.1, x ← r.2; Ok (q, x))
  | None =>
      match q_exec q with
      | Some st => with_cached f st q chk
      | None =>
          match new_exec_state (q_params q) (q_height q) with
          | Ok st => with_cached f st q chk
          | Err e => (chk, Err ("error creating execution state: " ++ e)%string)
          | Retry => (chk, Retry)
          | Panic => (chk, Panic)
          end
      end
  end.

Definition get_actor_state (addr : A) st : outcome string (FvmExecState S * option (Z * ActorState A)) :=
  o ← fvm_lookup_id (ledger st) addr;
  match o with
  | Some id => a ← fvm_get_actor (ledger st) id; Ok (st, match a with Some a => Some (id, a) | None => None end)
  | None => Ok (st, None)
  end.
Definition actor_state (addr : A) : QM S (option (Z * ActorState A)) := with_exec_state (get_actor_state addr).

Definition is_system_addr (a : A) : bool :=
  bool_decide (a = SYSTEM_ACTOR_ADDR) ||
  match eth_to_address (E:=string) zero_address with Ok b => bool_decide (a = b) | _ => false end.

Definition with_gas_limit m (limit : Z) : Message A :=
  mkMessage (m_version m) (m_from m) (m_to m) (m_sequence m) (m_value m) (m_method_num m) (m_params m) limit
    (m_gas_fee_cap m) (m_gas_premium m).
Definition with_sequence m (sequence : Z) : Message A :=
  mkMessage (m_version m) (m_from m) (m_to m) sequence (m_value m) (m_method_num m) (m_params m) (m_gas_limit m)
    (m_gas_fee_cap m) (m_gas_premium m).
Definition with_prices m (fee_cap premium : Z) : Message A :=
  mkMessage (m_version m) (m_from m) (m_to m) (m_sequence m) (m_value m) (m_method_num m) (m_params m) (m_gas_limit m)
    fee_cap premium.

(** The closure of [call]. *)
Definition current_sequence st m : outcome string (Message A) :=
  if m_sequence m =? 0 then
    o ← fvm_lookup_id (ledger st) (m_from m);
    match o with
    | Some id =>
        a ← fvm_get_actor (ledger st) id;
        Ok (match a with Some a => with_sequence m (act_sequence a) | None => m end)
    | None => Ok m
    end
  else Ok m.
Definition run_call m st : outcome string (FvmExecState S * (ApplyRet * gmap Z A)) :=
  m1 ← current_sequence st m;
  let m2 := if m_gas_limit m1 =? 0 then with_gas_limit m1 BLOCK_GAS_LIMIT else m1 in
  if is_system_addr (m_from m2) then execute_implicit st m2 else execute_explicit st m2.
Definition call m : QM S (ApplyRet * gmap Z A) := with_exec_state (run_call m).

Definition builtin_actors : QM S (list (string * bytes)) :=
  let! o := actor_state SYSTEM_ACTOR_ADDR in
  let! sys := qlift (ok_or "no system actor"%string o) in
  let! manifest := qlift (o ← store_system_state (act_state sys.2); ok_or "system actor state not found"%string o) in
  qlift (o ← store_builtin_actors manifest; ok_or "builtin actors manifest not found"%string o).

(** ** Gas estimation ([query.rs]) *)

Definition estimate_of (r : ApplyRet) (limit : Z) : GasEstimate :=
  mkEstimate (exit_code r) (default ""%string (failure_info r)) (return_data r) limit.
Definition SYS_OUT_OF_GAS : ExitCode := ExitOther 7.

(** The message comes back with limit and prices filled in, with an estimate if it failed. *)
Definition estimate_gassed_msg m : QM S (Message A * option GasEstimate) :=
  let m0 := with_prices (with_gas_limit m BLOCK_GAS_LIMIT) 0 0 in
  let! r := call m0 in
  if negb (is_success (exit_code r.1)) then qret (m0, Some (estimate_of r.1 0))
  else
    let limit := scale (gas_used r.1) gas_overestimation_rate in
    let premium := if m_gas_premium m =? 0 then 10 ^ 9 else m_gas_premium m in
    let fee_cap := if m_gas_fee_cap m =? 0 then premium else m_gas_fee_cap m in
    qret (with_prices (with_gas_limit m limit) fee_cap premium, None).

Definition estimation_call_with_limit m (limit : Z) : QM S (option GasEstimate) :=
  let! r := call (with_sequence (with_gas_limit m limit) 0) in
  let est := estimate_of r.1 (gas_used r.1) in
  qret (if bool_decide (est_exit_code est = ExitOk) || negb (bool_decide (est_exit_code est = SYS_OUT_OF_GAS))
        then Some est else None).

(** The search; without an answer after [fuel] steps it is [None]. *)
Fixpoint gas_search (fuel : nat) m (curr_limit : Z) : QM S (option GasEstimate) :=
  match fuel with
  | O => qret None
  | Datatypes.S fuel =>
      let! est := estimation_call_with_limit m curr_limit in
      match est with
      | Some est => qret (Some est)
      | None =>
          let curr_limit := scale curr_limit gas_search_step in
          if BLOCK_GAS_LIMIT <? curr_limit then qret (Some (mkEstimate ExitOk "" [] BLOCK_GAS_LIMIT))
          else gas_search fuel m curr_limit
      end
  end.

Definition estimate_gas (fuel : nat) m : QM S (option GasEstimate) :=
  let! r := estimate_gassed_msg m in
  match r.2 with
  | Some est => qret (Some est)
  | None =>
      let! o := gas_search fuel r.1 (m_gas_limit r.1) in
      qret ((λ est, mkEstimate (est_exit_code est) (est_info est) (est_return_data est)
                      (scale (est_gas_limit est) gas_overestimation_rate)) <$> o)
  end.

(** ** Answering *)

Definition query_call m : QM S (FvmQueryRet A) :=
  let! r := call m in
  qret (RetCall (mkFvmRet r.1 (m_from m) (m_to m) (m_method_num m) (m_gas_limit m) r.2)).
(** [None]: the search has not finished. *)
Definition fvm_query (fuel : nat) (qry : FvmQuery A) : QM S (option (FvmQueryRet A)) := λ q chk,
  match qry with
  | QIpld cid => (let! data := qlift (store_get cid) in qret (Some (RetIpld data))) q chk
  | QActorState addr => (let! a := actor_state addr in qret (Some (RetActorState a))) q chk
  | QCall m => (let! r := query_call m in qret (Some r)) q chk
  | QEstimateGas m => (let! o := estimate_gas fuel m in qret (RetEstimateGas <$> o)) q chk
  | QStateParams =>
      let p := q_params q in
      qret (Some (RetStateParams (mkQueryParams (sp_base_fee p) (sp_circ_supply p) (sp_chain_id p) (network_version p)))) q chk
  | QBuiltinActors => (let! r := builtin_actors in qret (Some (RetBuiltinActors r))) q chk
  end.

(** [BytesMessageInterpreter::query]: [inl] is an encoding error. *)
Definition bytes_query (fuel : nat) (path : string) (bz : bytes) : QM S (option (unit + FvmQueryRet A)) :=
  match (if String.eqb path "/store" then QIpld <$> de_cid bz else de_query bz) with
  | None => qret (Some (inl tt))
  | Some qry => let! r := fvm_query fuel qry in qret (inr <$> r)
  end.

(** ** The answer to CometBFT ([tmconv.rs]) *)

Record QueryResponse := mkQueryResponse {
  qr_code : Code;
  qr_info : string;
  qr_key : bytes;
  qr_value : bytes;
  qr_height : Z;
}.
Definition USR_NOT_FOUND : ExitCode := ExitOther 17.
Definition invalid_query (err : AppError) (description : string) : QueryResponse :=
  mkQueryResponse (CodeErr (app_error_code err)) description [] [] 0.
Definition to_query (ret : FvmQueryRet A) (block_height : Z) : outcome string QueryResponse :=
  let exit_code := match ret with RetIpld None | RetActorState None => USR_NOT_FOUND | _ => ExitOk end in
  kv ← match ret with
       | RetIpld None | RetActorState None => Ok ([], [])
       | RetIpld (Some bz) => Ok ([], bz)
       | RetActorState (Some (id, st)) => k ← en_id id; v ← en_actor_state st; Ok (k, v)
       | RetCall ret => dtx ← to_exec_tx_result ret None None; v ← en_tx_result dtx; Ok ([], v)
       | RetEstimateGas est => v ← en_estimate est; Ok ([], v)
       | RetStateParams sp => v ← en_state_params sp; Ok ([], v)
       | RetBuiltinActors ba => v ← en_builtin_actors ba; Ok ([], v)
       end;
  if I64_MAX <? block_height then Err "height too big"%string else
  code ← to_code exit_code;
  Ok (mkQueryResponse code (to_error_msg exit_code) kv.1 kv.2 block_height).

(** The handler of queries; [has_root] is the sanity check of [FvmQueryState::new]. *)
Definition app_query (fuel : nat) (has_root : bytes → outcome string bool) (db : Db) (chk : option (FvmExecState S))
    (request_height : Z) (path : string) (bz : bytes)
    : option (FvmExecState S) * outcome string (option QueryResponse) :=
  let start :=
    r ← query_state db request_height;
    match r with
    | inl err => Ok None
    | inr (p, height) =>
        if I64_MAX <? height then Err "integer overflow"%string else
        found ← has_root (state_root p);
        if negb found then Err "blockstore doesn't have the state-root"%string else
        Ok (Some (mkQuery height p None (match query_height_from request_height with QueryPending => true | _ => false end)))
    end in
  match start with
  | Ok None => (chk, Ok (Some (invalid_query NotInitialized "The app hasn't been initialized yet.")))
  | Ok (Some q) =>
      match bytes_query fuel path bz q chk with
      | (chk', Ok (_, Some (inr ret))) => (chk', r ← to_query ret (q_height q); Ok (Some r))
      | (chk', Ok (_, Some (inl _))) => (chk', Ok (Some (invalid_query InvalidEncoding "")))
      | (chk', Ok (_, None)) => (chk', Ok None)
      | (chk', Err e) => (chk', Err e)
      | (chk', Retry) => (chk', Retry)
      | (chk', Panic) => (chk', Panic)
      end
  | Err e => (chk, Err e)
  | Retry => (chk, Retry)
  | Panic => (chk, Panic)
  end.
End query.

(** ** What queries mean

    A query as a function of the state it runs on: no caches, no transactions, and
    the state that a call leaves is dropped. *)

Section spec.
Context {S A : Type} `{AddressPayload A} `{!Countable A} `{!Fvm S A} `{!FvmStore S} `{!QueryCodec A}.
Context (gas_overestimation_rate gas_search_step : f64).
Implicit Types (base : FvmExecState S) (m : Message A).

Definition call_spec base m : outcome string (ApplyRet * gmap Z A) := r ← run_call m base; Ok r.2.
Definition actor_state_spec base (addr : A) : outcome string (option (Z * ActorState A)) :=
  r ← get_actor_state addr base; Ok r.2.

Definition estimate_gassed_spec base m : outcome string (Message A * option GasEstimate) :=
  let m0 := with_prices (with_gas_limit m BLOCK_GAS_LIMIT) 0 0 in
  r ← call_spec base m0;
  Ok (if negb (is_success (exit_code r.1)) then (m0, Some (estimate_of r.1 0))
      else
        let premium := if m_gas_premium m =? 0 then 10 ^ 9 else m_gas_premium m in
        (with_prices (with_gas_limit m (scale (gas_used r.1) gas_overestimation_rate))
           (if m_gas_fee_cap m =? 0 then premium else m_gas_fee_cap m) premium, None)).
(** The result of one step: anything but running out of gas is an answer. *)
Definition probe_spec base m (limit : Z) : outcome string (option GasEstimate) :=
  r ← call_spec base (with_sequence (with_gas_limit m limit) 0);
  Ok (if bool_decide (exit_code r.1 = SYS_OUT_OF_GAS) then None else Some (estimate_of r.1 (gas_used r.1))).
Fixpoint gas_search_spec (fuel : nat) base m (limit : Z) : outcome string (option GasEstimate) :=
  match fuel with
  | O => Ok None
  | Datatypes.S fuel =>
      o ← probe_spec base m limit;
      match o with
      | Some est => Ok (Some est)
      | None =>
          let limit := scale limit gas_search_step in
          if BLOCK_GAS_LIMIT <? limit then Ok (Some (mkEstimate ExitOk "" [] BLOCK_GAS_LIMIT))
          else gas_search_spec fuel base m limit
      end
  end.
Definition estimate_gas_spec (fuel : nat) base m : outcome string (option GasEstimate) :=
  r ← estimate_gassed_spec base m;
  match r.2 with
  | Some est => Ok (Some est)
  | None =>
      o ← gas_search_spec fuel base r.1 (m_gas_limit r.1);
      Ok match o with
         | Some est => Some (mkEstimate (est_exit_code est) (est_info est) (est_return_data est)
                               (scale (est_gas_limit est) gas_overestimation_rate))
         | None => None
         end
  end.
Definition builtin_actors_spec base : outcome string (list (string * bytes)) :=
  o ← actor_state_spec base SYSTEM_ACTOR_ADDR;
  sys ← ok_or "no system actor"%string o;
  manifest ← (o ← store_system_state (act_state sys.2); ok_or "system actor state not found"%string o);
  (o ← store_builtin_actors manifest; ok_or "builtin actors manifest not found"%string o).
Definition query_spec (fuel : nat) (p : FvmStateParams) base (qry : FvmQuery A)
    : outcome string (option (FvmQueryRet A)) :=
  match qry with
  | QIpld cid => data ← store_get cid; Ok (Some (RetIpld data))
  | QActorState addr => a ← actor_state_spec base addr; Ok (Some (RetActorState a))
  | QCall m =>
      r ← call_spec base m;
      Ok (Some (RetCall (mkFvmRet r.1 (m_from m) (m_to m) (m_method_num m) (m_gas_limit m) r.2)))
  | QEstimateGas m =>
      o ← estimate_gas_spec fuel base m;
      Ok match o with Some est => Some (RetEstimateGas est) | None => None end
  | QStateParams =>
      Ok (Some (RetStateParams (mkQueryParams (sp_base_fee p) (sp_circ_supply p) (sp_chain_id p) (network_version p))))
  | QBuiltinActors => r ← builtin_actors_spec base; Ok (Some (RetBuiltinActors r))
  end.

(** The state a query runs on, and caches that hold that state. *)
Definition base_of (q : FvmQueryState S) (chk : option (FvmExecState S)) : outcome string (FvmExecState S) :=
  match (if q_pending q then chk else None) with
  | Some st => Ok st
  | None => new_exec_state (q_params q) (q_height q)
  end.
Definition cache_ok (q : FvmQueryState S) : Prop :=
  ∀ st, q_exec q = Some st → new_exec_state (q_params q) (q_height q) = Ok st.
End spec.

(** What is relied on of the transactions of the state tree: rolling back restores
    the tree, and inside a transaction the tree reads and executes as before. *)
Class FvmTransactionLaws (S A : Type) `{AddressPayload A} `{!Countable A} `{!Fvm S A} `{!FvmTransactions S} : Prop := {
  revert_begin (s : S) : end_transaction (begin_transaction s) = Some s;
  revert_execute (s s' : S) (m : Message A) k len r :
    fvm_execute (begin_transaction s) m k len = Ok (s', r) → end_transaction s' = Some s;
  begin_lookup (s : S) (a : A) : fvm_lookup_id (begin_transaction s) a = fvm_lookup_id s a;
  begin_get_actor (s : S) id : fvm_get_actor (begin_transaction s) id = fvm_get_actor (A:=A) s id;
  begin_execute (s : S) (m : Message A) k len :
    match fvm_execute s m k len with
    | Ok (s1, r) => ∃ s1', fvm_execute (begin_transaction s) m k len = Ok (s1', r) ∧
                      ∀ id, fvm_get_actor s1' id = fvm_get_actor (A:=A) s1 id
    | Err e => fvm_execute (begin_transaction s) m k len = Err e
    | Retry => fvm_execute (begin_transaction s) m k len = Retry
    | Panic => fvm_execute (begin_transaction s) m k len = Panic
    end;
}.

Section refinement.
Context {S A : Type} `{AddressPayload A} `{!Countable A} `{!Fvm S A} `{!FvmTransactions S} `{!FvmStore S}.
Context `{!QueryCodec A} {TL : FvmTransactionLaws S A}.
Implicit Types (st base : FvmExecState S) (m : Message A) (q : FvmQueryState S).

(** An operation of queries does what the function says, and keeps the states. *)
Definition refines {T} (op : QM S T) (f : FvmExecState S → outcome string T) : Prop :=
  ∀ q chk base, base_of q chk = Ok base → cache_ok q →
  match f base with
  | Ok x => ∃ q', op q chk = (chk, Ok (q', x)) ∧ cache_ok q' ∧
              q_height q' = q_height q ∧ q_params q' = q_params q ∧ q_pending q' = q_pending q
  | Err e => op q chk = (chk, Err e)
  | Retry => (op q chk).2 = Retry
  | Panic => (op q chk).2 = Panic
  end.

Lemma refines_ret {T} (x : T) : refines (qret x) (λ _, Ok x).
Proof. intros q chk base _ Hc. by exists q. Qed.
Lemma refines_lift {T} (o : outcome string T) : refines (qlift o) (λ _, o).
Proof. intros q chk base _ Hc. unfold qlift. destruct o; cbn; [by eexists|done..]. Qed.
Lemma refines_bind {T U} (op : QM S T) f (op' : T → QM S U) f' :
  refines op f → (∀ x, refines (op' x) (f' x)) →
  refines (qbind op op') (λ base, x ← f base; f' x base).
Proof.
  intros Hop Hop' q chk base Hb Hc. specialize (Hop q chk base Hb Hc). unfold qbind.
  destruct (f base) as [x| | |]; cbn [mbind outcome_bind].
  - destruct Hop as (q1 & -> & Hc1 & Hh & Hp & Hpd).
    assert (base_of q1 chk = Ok base) as Hb1 by (unfold base_of in *; by rewrite Hh, Hp, Hpd).
    specialize (Hop' x q1 chk base Hb1 Hc1). rewrite Hh, Hp, Hpd in Hop'. exact Hop'.
  - by rewrite Hop.
  - destruct (op q chk) as [chk' o]. cbn in Hop. by subst.
  - destruct (op q chk) as [chk' o]. cbn in Hop. by subst.
Qed.
Lemma refines_ext {T} (op : QM S T) f g : (∀ base, f base = g base) → refines op f → refines op g.
Proof. intros Hfg Hop q chk base Hb Hc. rewrite <- Hfg. by apply Hop. Qed.

(** Reverting: an operation on the tree that agrees inside a transaction. *)
Definition transparent {T} (f : FvmExecState S → outcome string (FvmExecState S * T)) : Prop :=
  ∀ st, match f st with
        | Ok (_, x) => ∃ st1, f (set_ledger st (begin_transaction (ledger st))) = Ok (set_ledger st (ledger st1), x) ∧
                         end_transaction (ledger st1) = Some (ledger st)
        | Err e => f (set_ledger st (begin_transaction (ledger st))) = Err e
        | Retry => f (set_ledger st (begin_transaction (ledger st))) = Retry
        | Panic => f (set_ledger st (begin_transaction (ledger st))) = Panic
        end.
Lemma set_ledger_set st s s' : set_ledger (set_ledger st s) s' = set_ledger st s'.
Proof. done. Qed.
Lemma set_ledger_id st : set_ledger st (ledger st) = st.
Proof. by destruct st. Qed.

Lemma with_revert_spec {T} (f : FvmExecState S → outcome string (FvmExecState S * T)) st :
  transparent f →
  match f st with
  | Ok (_, x) => with_revert f st = (st, Ok x)
  | Err e => with_revert f st = (st, Err e)
  | Retry => (with_revert f st).2 = Retry
  | Panic => (with_revert f st).2 = Panic
  end.
Proof.
  intros Hf. specialize (Hf st). unfold with_revert.
  destruct (f st) as [[st' x]| | |].
  - destruct Hf as (st1 & -> & Hend). cbn [ledger set_ledger]. rewrite Hend. by rewrite set_ledger_set, set_ledger_id.
  - rewrite Hf. cbn [ledger set_ledger]. rewrite revert_begin. by rewrite set_ledger_set, set_ledger_id.
  - by rewrite Hf.
  - by rewrite Hf.
Qed.

Lemma refines_with_exec {T} (f : FvmExecState S → outcome string (FvmExecState S * T)) :
  transparent f → refines (with_exec_state f) (λ base, r ← f base; Ok r.2).
Proof.
  intros Hf q chk base Hb Hc. pose proof (with_revert_spec f base Hf) as Hr.
  unfold with_exec_state. unfold base_of in Hb.
  destruct (if q_pending q then chk else None) as [st|] eqn:Hp.
  - injection Hb as ->. destruct (q_pending q) eqn:Hpd; [|done]. subst chk.
    destruct (f base) as [[st' x]| | |]; cbn [mbind outcome_bind snd].
    + rewrite Hr. cbn. exists q. done.
    + by rewrite Hr.
    + cbn [snd]. by rewrite Hr.
    + cbn [snd]. by rewrite Hr.
  - assert (match q_exec q with
            | Some st => with_cached f st q chk
            | None => match new_exec_state (q_params q) (q_height q) with
                      | Ok st => with_cached f st q chk
                      | Err e => (chk, Err ("error creating execution state: " ++ e)%string)
                      | Retry => (chk, Retry)
                      | Panic => (chk, Panic)
                      end
            end = with_cached f base q chk) as ->.
    { destruct (q_exec q) as [st|] eqn:He; [|by rewrite Hb]. specialize (Hc st He). congruence. }
    unfold with_cached. destruct (f base) as [[st' x]| | |]; cbn [mbind outcome_bind snd].
    + rewrite Hr. cbn. eexists. split; [done|]. split; [|done]. intros st [= <-]. done.
    + by rewrite Hr.
    + cbn [snd]. by rewrite Hr.
    + cbn [snd]. by rewrite Hr.
Qed.

Lemma transparent_actor_state addr : transparent (get_actor_state addr).
Proof.
  intros st. unfold get_actor_state. cbn [ledger set_ledger]. rewrite (begin_lookup (A:=A)).
  destruct (fvm_lookup_id (ledger st) addr) as [[id|]| | |]; cbn [mbind outcome_bind]; try done.
  - rewrite (begin_get_actor (A:=A)). destruct (fvm_get_actor (ledger st) id) as [a| | |]; cbn [mbind outcome_bind]; try done.
    exists (set_ledger st (begin_transaction (ledger st))). split; [done|]. apply revert_begin.
  - exists (set_ledger st (begin_transaction (ledger st))). split; [done|]. apply revert_begin.
Qed.

Lemma delegated_addresses_ext (s s' : S) ids :
  (∀ id, fvm_get_actor s id = fvm_get_actor (A:=A) s' id) →
  delegated_addresses (A:=A) s ids = delegated_addresses s' ids.
Proof. intros Hs. induction ids as [|id ids IH]; [done|]. cbn [delegated_addresses]. by rewrite Hs, IH. Qed.
Lemma transparent_execute m kind : transparent (λ st, execute_message st m kind).
Proof.
  intros st. unfold execute_message. destruct (fvm_msg_check m) as [e|].
  { exists (set_ledger st (begin_transaction (ledger st))). split; [done|]. apply revert_begin. }
  destruct (fvm_raw_length m) as [len| | |]; cbn [mbind outcome_bind]; try done.
  cbn [ledger set_ledger]. pose proof (begin_execute (ledger st) m kind len) as He.
  destruct (fvm_execute (ledger st) m kind len) as [[s1 r]| | |]; cbn [mbind outcome_bind]; try by rewrite He.
  destruct He as (s1' & Hex & Hget). pose proof (revert_execute _ _ _ _ _ _ Hex) as Hrev.
  rewrite Hex. cbn [mbind outcome_bind fst snd]. unfold emitter_delegated_addresses. cbn [ledger set_ledger].
  rewrite (delegated_addresses_ext s1' s1) by done.
  destruct (delegated_addresses s1 _) as [addrs| | |]; cbn [mbind outcome_bind]; try done.
  by exists (set_ledger st s1').
Qed.
Lemma transparent_call m : transparent (run_call m).
Proof.
  intros st. unfold run_call.
  assert (current_sequence (set_ledger st (begin_transaction (ledger st))) m = current_sequence st m) as ->.
  { unfold current_sequence. cbn [ledger set_ledger]. destruct (m_sequence m =? 0); [|done].
    rewrite (begin_lookup (A:=A)). destruct (fvm_lookup_id (ledger st) (m_from m)) as [[id|]| | |]; try done.
    cbn [mbind outcome_bind]. by rewrite (begin_get_actor (A:=A)). }
  destruct (current_sequence st m) as [m1| | |]; cbn [mbind outcome_bind]; try done.
  unfold execute_implicit, execute_explicit. destruct (is_system_addr _); apply transparent_execute.
Qed.

Lemma refines_call m : refines (call m) (λ base, call_spec base m).
Proof. apply refines_with_exec, transparent_call. Qed.
Lemma refines_actor_state addr : refines (actor_state addr) (λ base, actor_state_spec base addr).
Proof. apply refines_with_exec, transparent_actor_state. Qed.

Context (rate step : f64).

Lemma refines_probe m limit : refines (estimation_call_with_limit m limit) (λ base, probe_spec base m limit).
Proof.
  eapply refines_ext; [|apply (refines_bind _ _ _ _ (refines_call _) (λ x, refines_ret _))].
  intros base. unfold probe_spec. destruct (call_spec base _) as [r| | |]; cbn [mbind outcome_bind]; try done.
  f_equal. cbn [est_exit_code estimate_of]. unfold SYS_OUT_OF_GAS.
  destruct (exit_code r.1); repeat case_bool_decide; done.
Qed.
Lemma refines_gas_search fuel m : ∀ limit,
  refines (gas_search step fuel m limit) (λ base, gas_search_spec step fuel base m limit).
Proof.
  induction fuel as [|fuel IH]; intros limit; cbn [gas_search gas_search_spec]; [apply refines_ret|].
  apply (refines_bind _ _ _ (λ o base, match o with Some est => _ | None => _ end) (refines_probe m limit)).
  intros [est|]; [apply refines_ret|]. cbn zeta. destruct (_ <? _); [apply refines_ret|apply IH].
Qed.
Lemma refines_estimate_gassed m : refines (estimate_gassed_msg rate m) (λ base, estimate_gassed_spec rate base m).
Proof.
  unfold estimate_gassed_msg, estimate_gassed_spec.
  apply (refines_bind _ _ _ (λ r base, Ok _) (refines_call _)). intros r.
  destruct (negb _); apply refines_ret.
Qed.
Lemma refines_estimate_gas fuel m : refines (estimate_gas rate step fuel m) (λ base, estimate_gas_spec rate step fuel base m).
Proof.
  unfold estimate_gas, estimate_gas_spec.
  apply (refines_bind _ _ _ (λ r base, match r.2 with Some est => _ | None => _ end) (refines_estimate_gassed m)).
  intros [m' [est|]]; cbn [fst snd]; [apply refines_ret|].
  apply (refines_bind _ _ _ (λ o base, Ok _) (refines_gas_search _ _ _)). intros o.
  by destruct o; apply refines_ret.
Qed.
Lemma refines_builtin_actors : refines builtin_actors builtin_actors_spec.
Proof.
  apply (refines_bind _ _ _ (λ o base, _) (refines_actor_state _)). intros o.
  apply (refines_bind _ _ _ (λ sys base, _) (refines_lift _)). intros sys.
  apply (refines_bind _ _ _ (λ manifest base, _) (refines_lift _)). intros manifest. apply refines_lift.
Qed.

(** C9. A query is a function of the state it asks about.  For every kind of query the
    answer of [fvm_query] is that of [query_spec] on the state of the height, or on the
    state of checks for a pending query: calls see nothing of one another, nor of the
    probes of a gas search.  The state of checks comes back unchanged, and so does
    everything the query state holds but its cache, which holds the same state. *)
Theorem query_refines_spec fuel qry q chk base :
  base_of q chk = Ok base → cache_ok q →
  match query_spec rate step fuel (q_params q) base qry with
  | Ok x => ∃ q', fvm_query rate step fuel qry q chk = (chk, Ok (q', x)) ∧ cache_ok q' ∧
              q_height q' = q_height q ∧ q_params q' = q_params q ∧ q_pending q' = q_pending q
  | Err e => fvm_query rate step fuel qry q chk = (chk, Err e)
  | Retry => (fvm_query rate step fuel qry q chk).2 = Retry
  | Panic => (fvm_query rate step fuel qry q chk).2 = Panic
  end.
Proof.
  intros Hb Hc. destruct qry as [cid|addr|m|m| |]; cbn [query_spec fvm_query].
  - apply (refines_bind _ _ _ (λ data _, Ok _) (refines_lift _) (λ _, refines_ret _) q chk base Hb Hc).
  - apply (refines_bind _ _ _ (λ a _, Ok _) (refines_actor_state _) (λ _, refines_ret _) q chk base Hb Hc).
  - refine (refines_ext _ _ (λ base, query_spec rate step fuel (q_params q) base (QCall m)) _ (refines_bind _ _ _ (λ r _, Ok _)
      (refines_bind _ _ _ (λ r _, Ok _) (refines_call m) (λ _, refines_ret _)) (λ _, refines_ret _)) q chk base Hb Hc).
    intros b. cbn [query_spec]. by destruct (call_spec b m).
  - refine (refines_ext _ _ (λ base, query_spec rate step fuel (q_params q) base (QEstimateGas m)) _
      (refines_bind _ _ _ (λ o _, Ok _) (refines_estimate_gas fuel m)
      (λ o, refines_ret _)) q chk base Hb Hc).
    intros b. cbn [query_spec]. destruct (estimate_gas_spec rate step fuel b m) as [[est|]| | |]; done.
  - apply (refines_ret _ q chk base Hb Hc).
  - apply (refines_bind _ _ _ (λ r _, Ok _) refines_builtin_actors (λ _, refines_ret _) q chk base Hb Hc).
Qed.
End refinement.

(** ** Scaling *)

(** Rounding does not go below a number that has 53 bits. *)
Lemma round53_lower m e n j :
  0 <= j → 0 <= n < 2 ^ 53 → n * 2 ^ j <= m →
  expo (round53 m e) = e + Z.max 0 (Z.log2 m - 52) ∧
  n * 2 ^ j <= mant (round53 m e) * 2 ^ (expo (round53 m e) - e).
Proof.
  intros Hj Hn Hm. unfold round53. destruct (Z.log2 m - 52 <=? 0) eqn:Hs; zbool; cbn [mant expo].
  { rewrite Z.max_l by lia. split; [lia|]. rewrite Z.sub_diag. lia. }
  set (s := Z.log2 m - 52) in *. rewrite Z.max_r by lia. split; [done|].
  replace (e + s - e) with s by lia. rewrite !Z.shiftr_div_pow2 by lia.
  assert (n * 2 ^ j <= m / 2 ^ s * 2 ^ s) as Hlow.
  { assert (0 < m) as Hpos 
      by (destruct (Z.le_gt_cases m 0) as [Hm0|]; [|done]; pose proof (Z.log2_nonpos m Hm0); lia).
    destruct (Z.le_gt_cases s j) as [Hsj|Hsj].
    - replace j with (j - s + s) in * by lia. rewrite Z.pow_add_r, Z.mul_assoc in * by lia.
      apply Z.mul_le_mono_nonneg_r; [lia|]. apply Z.div_le_lower_bound; [lia|]. lia.
    - assert (2 ^ (52 + s) <= m) as Hlog.
      { replace (52 + s) with (Z.log2 m) by lia. by apply Z.log2_spec. }
      assert (2 ^ 52 <= m / 2 ^ s) as Hq.
      { apply Z.div_le_lower_bound; [lia|]. rewrite Z.pow_add_r in Hlog by lia. lia. }
      assert (2 ^ s = 2 ^ (s - 1 - j) * 2 * 2 ^ j) as Hpow.
      { replace s with (s - 1 - j + 1 + j) at 1 by lia. rewrite !Z.pow_add_r by lia. lia. }
      generalize dependent (m / 2 ^ s). intros q Hq.
      rewrite Hpow. assert (0 < 2 ^ (s - 1 - j)) by (apply Z.pow_pos_nonneg; lia).
      assert (0 < 2 ^ j) by (apply Z.pow_pos_nonneg; lia).
      assert (n <= q * 2) by lia. nia. }
  assert (0 < 2 ^ s) by (apply Z.pow_pos_nonneg; lia).
  destruct (_ || _); nia.
Qed.

(** A rate above one, [1 + d / 2 ^ k], strictly increases the numbers it can. *)
Definition rate_above_one (r : f64) (d k : Z) : Prop :=
  0 <= k ∧ 0 < d ∧ mant r = 2 ^ k + d ∧ expo r = - k.
Lemma scale_increases r d k x :
  rate_above_one r d k → 0 <= x < 2 ^ 53 - 1 → 2 ^ k <= x * d → x < scale x r.
Proof.
  intros (Hk & Hd & Hmant & Hexpo) Hx Hxd.
  assert (u64_to_f64 x = mkF64 x 0) as Hux.
  { unfold u64_to_f64, round53. assert (Z.log2 x <= 52) as Hl.
    { destruct (Z.eq_dec x 0) as [->|]; [done|]. apply Z.lt_succ_r, Z.log2_lt_pow2; lia. }
    by rewrite (proj2 (Z.leb_le _ _)) by lia. }
  unfold scale. rewrite Hux. unfold f64_mul. cbn [mant expo]. rewrite Hmant, Hexpo.
  assert (0 < 2 ^ k) by (apply Z.pow_pos_nonneg; lia).
  destruct (round53_lower (x * (2 ^ k + d)) (0 + - k) (x + 1) k Hk) as [He Hlow]; [lia|nia|].
  set (r' := round53 _ _) in *. unfold f64_to_u64.
  enough (x + 1 <= (if expo r' <? 0 then Z.shiftr (mant r') (- expo r') else Z.shiftl (mant r') (expo r'))).
  { unfold U64_MAX. lia. }
  destruct (expo r' <? 0) eqn:Hneg; zbool.
  - rewrite Z.shiftr_div_pow2 by lia. apply Z.div_le_lower_bound; [apply Z.pow_pos_nonneg; lia|].
    replace (expo r' - (0 + - k)) with (k - (- expo r')) in Hlow by lia.
    replace (2 ^ k) with (2 ^ (- expo r') * 2 ^ (k - (- expo r'))) in Hlow
      by (rewrite <- Z.pow_add_r by lia; f_equal; lia).
    assert (0 < 2 ^ (k - (- expo r'))) by (apply Z.pow_pos_nonneg; lia).
    assert (0 < 2 ^ (- expo r')) by (apply Z.pow_pos_nonneg; lia). nia.
  - rewrite Z.shiftl_mul_pow2 by lia. replace (expo r' - (0 + - k)) with (expo r' + k) in Hlow by lia.
    rewrite Z.pow_add_r in Hlow by lia. nia.
Qed.

(** ** Theorems *)

Section theorems.
Context {S A : Type} `{AddressPayload A} `{!Countable A} `{!Fvm S A} `{!FvmTransactions S} `{!FvmStore S}.
Context `{!QueryCodec A}.
Implicit Types (base : FvmExecState S) (m : Message A) (q : FvmQueryState S).

(** The search for gas ends.  With a step above one, a first limit that the step
    can increase, and fewer than [2 ^ 53] units of gas in a block, the search has an
    answer, or an error of the FVM, after at most one call for every unit of gas
    between the first limit and that of the block. *)
Theorem gas_search_terminates step d k m fuel limit q chk :
  rate_above_one step d k → 0 <= BLOCK_GAS_LIMIT < 2 ^ 53 - 1 → 0 <= limit < 2 ^ 53 - 1 → 2 ^ k <= limit * d →
  Z.max 0 (BLOCK_GAS_LIMIT - limit) < Z.of_nat fuel →
  ∀ q', (gas_search step fuel m limit q chk).2 ≠ Ok (q', None).
Proof.
  intros Hr Hb. revert limit q chk. induction fuel as [|fuel IH]; intros limit q chk Hl Hlk Hf q'; [lia|].
  cbn [gas_search]. unfold qbind.
  destruct (estimation_call_with_limit m limit q chk) as [chk1 [[q1 [est|]]| | |]]; try done.
  pose proof (scale_increases step d k limit Hr Hl Hlk) as Hinc.
  destruct (BLOCK_GAS_LIMIT <? scale limit step) eqn:Hcmp; [done|]. zbool.
  destruct Hr as (Hk & Hd & Hrest). apply IH; try lia. nia.
Qed.

(** Limits below four never grow under the default step: as long as calls run out of
    gas with them, the search goes on. *)
Theorem tiny_limit_search_stalls m limit fuel q chk :
  0 <= limit <= 3 → limit <= BLOCK_GAS_LIMIT →
  (∀ q chk, estimation_call_with_limit m limit q chk = (chk, Ok (q, None))) →
  gas_search (mkF64 5 (-2)) fuel m limit q chk = (chk, Ok (q, None)).
Proof.
  intros Hl Hb Hcall. assert (scale limit (mkF64 5 (-2)) = limit) as Hs.
  { assert (limit = 0 ∨ limit = 1 ∨ limit = 2 ∨ limit = 3) as [->|[->|[->| ->]]] by lia; reflexivity. }
  induction fuel as [|fuel IH]; [done|]. cbn [gas_search]. unfold qbind. rewrite Hcall, Hs.
  by rewrite (proj2 (Z.ltb_ge _ _)).
Qed.
End theorems.

Section call_theorems.
Context {S A : Type} `{AddressPayload A} `{!Countable A} `{!Fvm S A} `{!FvmTransactions S} `{!FvmStore S}.
Context `{!QueryCodec A} {TL : FvmTransactionLaws S A} (rate step : f64).
Implicit Types (base : FvmExecState S) (m : Message A) (q : FvmQueryState S).

(** A call predicts a delivery: for a message with its sequence and gas limit set,
    from a sender other than the system, the answer to a call is the result that
    delivering the message on the same state returns, with nothing delivered. *)
Theorem call_predicts_delivery fuel m q chk base st' ret :
  base_of q chk = Ok base → cache_ok q → m_sequence m ≠ 0 → m_gas_limit m ≠ 0 → is_system_addr (m_from m) = false →
  fvm_deliver base m = Ok (st', ret) →
  ∃ q', fvm_query rate step fuel (QCall m) q chk = (chk, Ok (q', Some (RetCall ret))) ∧ cache_ok q'.
Proof.
  intros Hb Hc Hs Hg Hsys Hd.
  assert (call_spec base m = Ok (apply_ret ret, emitters ret) ∧
          ret = mkFvmRet (apply_ret ret) (m_from m) (m_to m) (m_method_num m) (m_gas_limit m) (emitters ret)) as [Hcall Hret].
  { unfold fvm_deliver in Hd. rewrite decide_False in Hd.
    2: { intros Heq. unfold is_system_addr in Hsys. rewrite Heq, bool_decide_eq_true_2 in Hsys by done. done. }
    apply bind_Ok in Hd as ([st1 [r em]] & Hex & [= _ <-]). cbn [apply_ret emitters fst snd]. split; [|done].
    unfold call_spec, run_call, current_sequence. rewrite (proj2 (Z.eqb_neq _ _) Hs). cbn [mbind outcome_bind].
    rewrite (proj2 (Z.eqb_neq _ _) Hg), Hsys, Hex. done. }
  pose proof (refines_call m q chk base Hb Hc) as Hop. cbv beta in Hop. rewrite Hcall in Hop. destruct Hop as (q' & Hop & Hc' & _).
  exists q'. split; [|done]. cbn [fvm_query]. unfold query_call, qbind. rewrite Hop. cbn [qret fst snd].
  by rewrite <- Hret.
Qed.

Lemma gas_search_spec_ok fuel base m : ∀ limit est,
  gas_search_spec step fuel base m limit = Ok (Some est) → est_exit_code est = ExitOk →
  est_gas_limit est = BLOCK_GAS_LIMIT ∨
  ∃ l r, call_spec base (with_sequence (with_gas_limit m l) 0) = Ok r ∧ exit_code r.1 = ExitOk ∧
    est_gas_limit est = gas_used r.1.
Proof.
  induction fuel as [|fuel IH]; intros limit est Hs Hok; cbn [gas_search_spec] in Hs; [done|].
  apply bind_Ok in Hs as (o & Hp & Hs). unfold probe_spec in Hp. apply bind_Ok in Hp as (r & Hr & [= <-]).
  case_bool_decide.
  - destruct (_ <? _); [by injection Hs as <-; left|]. by eapply IH.
  - injection Hs as <-. right. by exists limit, r.
Qed.

(** A successful estimate is backed by a call: scaled by the overestimation rate, it
    is the gas that the message used when it succeeded on that state with some limit
    and prices, or the limit of a block when no smaller limit was enough. *)
Theorem estimates_come_from_calls fuel m q chk base chk' q' est :
  base_of q chk = Ok base → cache_ok q →
  fvm_query rate step fuel (QEstimateGas m) q chk = (chk', Ok (q', Some (RetEstimateGas est))) →
  est_exit_code est = ExitOk →
  ∃ used, est_gas_limit est = scale used rate ∧
    (used = BLOCK_GAS_LIMIT ∨
     ∃ limit fee_cap premium r,
       call_spec base (with_sequence (with_prices (with_gas_limit m limit) fee_cap premium) 0) = Ok r ∧
       exit_code r.1 = ExitOk ∧ used = gas_used r.1).
Proof.
  intros Hb Hc Hq Hok. cbn [fvm_query] in Hq. unfold qbind in Hq at 1.
  pose proof (refines_estimate_gas rate step fuel m q chk base Hb Hc) as Hr.
  cbv beta in Hr. destruct (estimate_gas_spec rate step fuel base m) as [o| | |] eqn:Ho.
  2: { by rewrite Hr in Hq. }
  2,3: destruct (estimate_gas rate step fuel m q chk) as [? o']; cbn in Hr; by subst.
  destruct Hr as (q1 & Hr & _). rewrite Hr in Hq. unfold qret in Hq.
  destruct o as [e|]; cbn in Hq; [|done]. injection Hq as <- <- <-.
  unfold estimate_gas_spec, estimate_gassed_spec in Ho. apply bind_Ok in Ho as (r & (r0 & Hr0 & [= <-])%bind_Ok & Ho).
  destruct (negb (is_success (exit_code r0.1))) eqn:Hsuc; cbn [fst snd] in Ho.
  { injection Ho as <-. cbn in Hok. by rewrite Hok in Hsuc. }
  apply bind_Ok in Ho as ([e0|] & Hs & [= <-]). cbn [est_exit_code est_gas_limit] in *.
  exists (est_gas_limit e0). split; [done|].
  destruct (gas_search_spec_ok _ _ _ _ _ Hs Hok) as [->|(l & r & Hl & He & ->)]; [by left|]. right.
  by eexists l, _, _, r.
Qed.
End call_theorems.

(** ** Witnesses

    The ledger of [Exec] with a stack of saved ledgers for transactions. *)

Record SavedLedger := mkSaved { current : ToyLedger; saved : list ToyLedger }.
#[export] Instance saved_fvm : Fvm SavedLedger Payload := {
  BLOCK_GAS_LIMIT := 10000000000;
  method_hash := λ s, Z.of_nat (String.length s);
  fvm_msg_check := fvm_msg_check (Fvm:=toy_fvm);
  fvm_raw_length := fvm_raw_length (Fvm:=toy_fvm);
  fvm_execute := λ s m k len, r ← fvm_execute (current s) m k len; Ok (mkSaved r.1 (saved s), r.2);
  fvm_lookup_id := λ s a, fvm_lookup_id (current s) a;
  fvm_get_actor := λ s id, fvm_get_actor (current s) id;
  fvm_set_actor := λ s id a, mkSaved (fvm_set_actor (current s) id a) (saved s);
  fvm_cetf_state := λ s, fvm_cetf_state (current s);
  fvm_push_block_params := λ h b, Ok (h :: b);
  fvm_signed_tag_params := λ p, Ok (ast_height p :: ast_signature p);
  addr_new_secp256k1 := λ b, Some (PayloadSecp256k1 b);
  token_to_string := u64_to_string;
}.
#[export] Instance saved_transactions : FvmTransactions SavedLedger := {
  begin_transaction := λ s, mkSaved (current s) (current s :: saved s);
  end_transaction := λ s, match saved s with l :: ls => Some (mkSaved l ls) | [] => None end;
}.
#[export] Instance saved_laws : FvmTransactionLaws SavedLedger Payload.
Proof.
  split; try done.
  - by intros [].
  - intros [c ls] s' m k len r He. cbn in He. apply bind_Ok in He as (x & _ & [= <- _]). done.
  - intros [c ls] m k len. cbn. destruct (toy_execute c m k len) as [[s1 r]| | |]; cbn; [|done..]. by eexists.
Qed.
#[export] Instance saved_store : FvmStore SavedLedger := {
  fvm_open := λ p h, Ok (mkSaved (ledger (toy_block [])) []);
  fvm_flush := λ s, Ok [];
}.
#[export] Instance toy_query_codec : QueryCodec Payload := {
  de_cid := λ b, Some b;
  de_query := λ _, Some QStateParams;
  store_get := λ _, Ok None;
  store_system_state := λ _, Ok None;
  store_builtin_actors := λ _, Ok None;
  en_id := λ id, Ok [id];
  en_actor_state := λ _, Ok [];
  en_tx_result := λ _, Ok [];
  en_estimate := λ _, Ok [];
  en_state_params := λ _, Ok [];
  en_builtin_actors := λ _, Ok [];
}.
Definition default_rate : f64 := mkF64 5 (-2).
Definition sample_query : FvmQueryState SavedLedger := mkQuery 5 (empty_params []) None false.
Definition sample_base : FvmExecState SavedLedger :=
  mkExec (mkSaved (ledger (toy_block [])) []) 0 5 0 None None (mkParams 0 0 0 0) false.
Definition called_message : Message Payload := mkMessage 0 (PayloadID 1) sample_to 5 0 INVOKE_CONTRACT [] 10 10 1.

Lemma sample_cache_ok : cache_ok sample_query.
Proof. by intros st. Qed.
Lemma query_refines_spec_witness :
  ∃ q', fvm_query default_rate default_rate 10 (QEstimateGas called_message) sample_query None =
    (None, Ok (q', Some (RetEstimateGas (mkEstimate ExitOk "" [] 125)))) ∧ cache_ok q'.
Proof.
  pose proof (query_refines_spec default_rate default_rate 10 (QEstimateGas called_message) sample_query None sample_base
                eq_refl sample_cache_ok) as Hr.
  assert (query_spec default_rate default_rate 10 (q_params sample_query) sample_base (QEstimateGas called_message) =
          Ok (Some (RetEstimateGas (mkEstimate ExitOk "" [] 125)))) as Hs by (vm_compute; reflexivity).
  rewrite Hs in Hr. destruct Hr as (q' & Hq & Hc & _). exists q'. split; [exact Hq|exact Hc].
Defined.

Lemma gas_search_terminates_witness :
  ¬ ∃ q', (gas_search default_rate 4 called_message 9999999997 sample_query None).2 = Ok (q', None).
Proof.
  intros [q' Hq]. revert Hq. apply (gas_search_terminates default_rate 1 2).
  - unfold rate_above_one, default_rate. simpl. lia.
  - simpl. lia.
  - lia.
  - lia.
  - simpl. lia.
Defined.

Lemma call_predicts_delivery_witness :
  ∃ q' st ret, fvm_deliver sample_base called_message = Ok (st, ret) ∧
    fvm_query default_rate default_rate 10 (QCall called_message) sample_query None = (None, Ok (q', Some (RetCall ret))).
Proof.
  destruct (fvm_deliver sample_base called_message) as [[st ret]| | |] eqn:Hd; [|vm_compute in Hd; discriminate Hd..].
  destruct (call_predicts_delivery default_rate default_rate 10 called_message sample_query None sample_base st ret)
    as (q' & Hq & _); [reflexivity|exact sample_cache_ok|discriminate|discriminate|vm_compute; reflexivity|exact Hd|].
  exists q', st, ret. split; [reflexivity|exact Hq].
Defined.

Lemma estimates_come_from_calls_witness : ∃ used, 125 = scale used default_rate.
Proof.
  assert ((fvm_query default_rate default_rate 10 (QEstimateGas called_message) sample_query None).2 =
    Ok (mkQuery 5 (empty_params []) (Some sample_base) false, Some (RetEstimateGas (mkEstimate ExitOk "" [] 125)))) as Hq
    by (vm_compute; reflexivity).
  destruct (fvm_query default_rate default_rate 10 (QEstimateGas called_message) sample_query None) as [chk o] eqn:Hf.
  cbn [snd] in Hq. subst o.
  destruct (estimates_come_from_calls default_rate default_rate 10 called_message sample_query None sample_base chk
              (mkQuery 5 (empty_params []) (Some sample_base) false) (mkEstimate ExitOk "" [] 125)) as (used & Hu & _);
    [reflexivity|exact sample_cache_ok|exact Hf|reflexivity|].
  exists used. exact Hu.
Defined.
