(* ===== verification/Car.v ===== *)
(** * Exporting the state: the walk over the state tree and the chunk writer
    ([vm/interpreter/src/fvm/state/snapshot.rs] [StateTreeStreamer],
    [vm/snapshot/src/car])

    A snapshot of the state is a CAR file: a header, then the blocks of the state tree
    in the order a queue visits them.  The file is cut into chunks that peers can
    download, by a writer of the polled kind: each of its operations may answer
    [Pending] and be called again.

    The block store, the codec of blocks and the files are parameters: [get],
    [is_dag_cbor] and [decode] for blocks, and for each call of the writer the answers
    of the file it works on, [Io].  A CID is its bytes. *)

From Stdlib Require Import Ascii String.
From stdpp Require Import base tactics numbers list gmap.
From S2P Require Import Prelude.

(** ** The walk over the state tree ([StateTreeStreamer]) *)

Notation Cid := (list Z) (only parsing).

Inductive Ipld :=
| IpldList (v : list Ipld)
| IpldMap (m : list (string * Ipld))
| IpldLink (cid : Cid)
| IpldScalar.

(** [walk_ipld_cids]: the links in the order they are pushed. *)
Fixpoint walk_ipld_cids (ipld : Ipld) : list Cid :=
  match ipld with
  | IpldList v => concat (map walk_ipld_cids v)
  | IpldMap m => concat (map (λ kv, walk_ipld_cids kv.2) m)
  | IpldLink cid => [cid]
  | IpldScalar => []
  end.

(** [Blockstore::get] *)
Inductive GetResult := Found (b : bytes) | Missing | GetError.

Section streamer.
Context (get : Cid → GetResult) (is_dag_cbor : Cid → bool) (decode : bytes → option Ipld).

(** What visiting a block adds to the queue: raw blocks have no links, and a block
    that does not decode is a panic. *)
Definition links {E} (cid : Cid) (b : bytes) : outcome E (list Cid) :=
  if is_dag_cbor cid then ipld ← unwrap (decode b); Ok (walk_ipld_cids ipld) else Ok [].

(** The stream of blocks.  An error of the store ends it; without an end after
    [fuel] steps it is [Retry]. *)
Fixpoint stream (fuel : nat) (dfs : list Cid) : outcome string (list (Cid * bytes)) :=
  match fuel with
  | O => Retry
  | S fuel =>
      match dfs with
      | [] => Ok []
      | cid :: dfs =>
          match get cid with
          | Found b =>
              ls ← links cid b;
              rest ← stream fuel (dfs ++ ls);
              Ok ((cid, b) :: rest)
          | Missing => stream fuel dfs
          | GetError => Ok []
          end
      end
  end.
End streamer.

(** ** The chunk writer ([chunker.rs]) *)

Inductive Poll (T : Type) := Pending | Ready (r : string + T).
Arguments Pending {T}.
Arguments Ready {T} _.
Definition is_ready {T} (p : Poll T) : bool := match p with Ready _ => true | Pending => false end.

(** The answers of the file for one call of the writer. *)
Record Io := mkIo {
  io_open : Poll unit;
  io_write : Poll nat;
  io_flush : Poll unit;
  io_close : Poll unit;
}.

(** Files are known by their index. *)
Inductive ChunkWriterState :=
| Idle
| Opening (file : nat)
| Open (file : nat) (written : nat)
| Closing (file : nat).
Record ChunkWriter := mkWriter {
  next_idx : nat;
  state : ChunkWriterState;
  files : gmap nat bytes;
}.

Definition new_writer : ChunkWriter := mkWriter 0 Idle ∅.
Definition chunk_created (w : ChunkWriter) : nat := next_idx w.
Definition set_state (w : ChunkWriter) (s : ChunkWriterState) : ChunkWriter := mkWriter (next_idx w) s (files w).

Section writer.
Context (max_size : nat).
Implicit Types (w : ChunkWriter) (io : Io) (buf : bytes).

(** [File::create] makes an empty file when it succeeds. *)
Definition state_poll_open {T} io w (file : nat) (f : ChunkWriter → ChunkWriter * Poll T) : ChunkWriter * Poll T :=
  match io_open io with
  | Pending => (set_state w (Opening file), Pending)
  | Ready (inl e) => (set_state w Idle, Ready (inl e))
  | Ready (inr _) => f (mkWriter (next_idx w) (state w) (<[file := []]> (files w)))
  end.
Definition state_poll_write io buf w (file sofar : nat) : ChunkWriter * Poll nat :=
  match io_write io with
  | Pending => (set_state w (Open file sofar), Pending)
  | Ready (inr n) =>
      (mkWriter (next_idx w) (Open file (sofar + n)) (alter (λ c, c ++ take n buf) file (files w)), Ready (inr n))
  | Ready (inl e) => (set_state w (Open file sofar), Ready (inl e))
  end.
Definition state_poll_close io w (file : nat) : ChunkWriter * Poll unit :=
  match io_close io with
  | Pending => (set_state w (Closing file), Pending)
  | Ready (inl e) => (set_state w Idle, Ready (inl e))
  | Ready (inr _) => (set_state w Idle, Ready (inr tt))
  end.
Definition state_poll_open_write io buf w (file : nat) : ChunkWriter * Poll nat :=
  state_poll_open io w file (λ w, state_poll_write io buf w file 0).
Definition next_file w : ChunkWriter * nat := (mkWriter (S (next_idx w)) (state w) (files w), next_idx w).

Definition poll_write io buf w : ChunkWriter * Poll nat :=
  let open_next w := let '(w, file) := next_file w in state_poll_open_write io buf w file in
  match state w with
  | Idle => open_next w
  | Opening file => state_poll_open_write io buf w file
  | Open file written => state_poll_write io buf w file written
  | Closing file =>
      let '(w, poll) := state_poll_close io w file in
      if is_ready poll then open_next w else (w, Pending)
  end.

Definition poll_flush io w : ChunkWriter * Poll unit :=
  match state w with
  | Idle => (w, Ready (inr tt))
  | Opening file => state_poll_open io w file (λ w, (set_state w (Open file 0), Ready (inr tt)))
  | Open file written =>
      match io_flush io with
      | Pending => (w, Pending)
      | Ready (inl e) => (w, Ready (inl e))
      | Ready (inr _) =>
          if (next_idx w =? 1) || ((max_size <=? written) && (0 <? max_size))
          then state_poll_close io w file
          else (w, Ready (inr tt))
      end
  | Closing file => state_poll_close io w file
  end%nat.

Definition poll_close io w : ChunkWriter * Poll unit :=
  match state w with
  | Idle => (w, Ready (inr tt))
  | Opening file => state_poll_open io w file (λ w, state_poll_close io w file)
  | Open file _ => state_poll_close io w file
  | Closing file => state_poll_close io w file
  end.

(** ** Writing a CAR

    [ld_write] of the CAR library writes the length and the data of a frame, then
    flushes.  Here the files answer at once. *)
Definition io_ready (n : nat) : Io := mkIo (Ready (inr tt)) (Ready (inr n)) (Ready (inr tt)) (Ready (inr tt)).
Definition write_all buf w : ChunkWriter := (poll_write (io_ready (length buf)) buf w).1.
Definition ld_write w (frame : bytes * bytes) : ChunkWriter :=
  (poll_flush (io_ready 0) (write_all frame.2 (write_all frame.1 w))).1.
Definition split (header : bytes * bytes) (blocks : list (bytes * bytes)) : ChunkWriter :=
  foldl ld_write new_writer (header :: blocks).
End writer.

(** The chunks on disk, in the order of their index. *)
Definition chunks_of (w : ChunkWriter) : list bytes :=
  (λ i, default [] (files w !! i)) <$> seq 0 (next_idx w).

(** ** Polling: what is written is what was accepted

    The writer is driven by calls in any order, with any answers of the files. *)

Inductive Call := CallWrite (buf : bytes) (io : Io) | CallFlush (io : Io) | CallClose (io : Io).
(** A file does not accept more than it was given. *)
Definition call_ok (c : Call) : Prop :=
  match c with
  | CallWrite buf io => ∀ n, io_write io = Ready (inr n) → (n <= length buf)%nat
  | _ => True
  end.
(** The writer after the call, and the bytes it accepted. *)
Definition run_call (max_size : nat) (c : Call) (w : ChunkWriter) : ChunkWriter * bytes :=
  match c with
  | CallWrite buf io =>
      let r := poll_write io buf w in
      (r.1, match r.2 with Ready (inr n) => take n buf | _ => [] end)
  | CallFlush io => ((poll_flush max_size io w).1, [])
  | CallClose io => ((poll_close io w).1, [])
  end.
Inductive reachable (max_size : nat) : ChunkWriter → bytes → Prop :=
| reachable_new : reachable max_size new_writer []
| reachable_call w acc c : reachable max_size w acc → call_ok c →
    reachable max_size (run_call max_size c w).1 (acc ++ (run_call max_size c w).2).

(** ** Facts: the writer *)

Definition contents (w : ChunkWriter) : bytes := concat (chunks_of w).

Lemma chunks_of_ext w w' :
  next_idx w = next_idx w' →
  (∀ i, (i < next_idx w)%nat → default [] (files w !! i) = default [] (files w' !! i)) → chunks_of w = chunks_of w'.
Proof.
  intros Hn Hf. unfold chunks_of. rewrite <- Hn. apply list_fmap_ext. intros j i Hi.
  apply lookup_seq in Hi as [-> Hj]. apply Hf. lia.
Qed.
Lemma chunks_of_snoc n s fs :
  chunks_of (mkWriter (S n) s fs) = chunks_of (mkWriter n s fs) ++ [default [] (fs !! n)].
Proof. unfold chunks_of. cbn [next_idx files]. rewrite seq_S, fmap_app. done. Qed.

(** The file being written is the last one. *)
Definition current_file (s : ChunkWriterState) : option nat :=
  match s with Idle => None | Opening f | Open f _ | Closing f => Some f end.
Record writer_ok (w : ChunkWriter) : Prop := {
  ok_files : ∀ i, (next_idx w <= i)%nat → files w !! i = None;
  ok_current : ∀ f, current_file (state w) = Some f → S f = next_idx w;
  ok_opening : ∀ f, state w = Opening f → files w !! f = None;
  ok_open : ∀ f n, state w = Open f n → is_Some (files w !! f);
}.

Lemma contents_create w f s :
  files w !! f = None → contents (mkWriter (next_idx w) s (<[f := []]> (files w))) = contents w.
Proof.
  intros Hf. unfold contents. f_equal. apply chunks_of_ext; [done|]. intros i _. cbn [files].
  destruct (decide (f = i)) as [<-|]; [by rewrite lookup_insert_eq, Hf|by rewrite lookup_insert_ne].
Qed.
Lemma contents_append w f s x :
  S f = next_idx w → is_Some (files w !! f) →
  contents (mkWriter (next_idx w) s (alter (λ c, c ++ x) f (files w))) = contents w ++ x.
Proof.
  intros Hf [c Hc]. destruct w as [n s0 fs]. cbn [next_idx files] in *. subst n. unfold contents.
  rewrite !chunks_of_snoc, !concat_app, lookup_alter_eq, Hc.
  change (default [] ((λ c, c ++ x) <$> Some c)) with (c ++ x). change (default [] (Some c)) with c.
  cbn [concat]. rewrite !app_nil_r, <- app_assoc.
  do 2 f_equal. apply chunks_of_ext; [done|]. cbn [files next_idx]. intros i Hi. rewrite lookup_alter_ne by lia. done.
Qed.
Lemma contents_next w s :
  files w !! next_idx w = None → contents (mkWriter (S (next_idx w)) s (files w)) = contents w.
Proof.
  intros Hn. unfold contents. rewrite chunks_of_snoc, concat_app, Hn. cbn [default concat]. rewrite !app_nil_r.
  by destruct w.
Qed.
Lemma contents_state w s : contents (set_state w s) = contents w.
Proof. done. Qed.

Lemma ok_set_state w s :
  writer_ok w → (∀ f, current_file s = Some f → S f = next_idx w) → (∀ f, s = Opening f → files w !! f = None) →
  (∀ f n, s = Open f n → is_Some (files w !! f)) → writer_ok (set_state w s).
Proof. intros [H1 _ _ _] H2 H3 H4. by constructor. Qed.

(** Opening a file that is the last and not there, then continuing. *)
Lemma open_spec {T} io w f (k : ChunkWriter → ChunkWriter * Poll T) (P : ChunkWriter * Poll T → Prop) :
  writer_ok w → S f = next_idx w → files w !! f = None →
  (∀ w' p, writer_ok w' → contents w' = contents w → (∀ x, p ≠ Ready (inr x)) → P (w', p)) →
  (∀ s, P (k (mkWriter (next_idx w) s (<[f := []]> (files w))))) →
  P (state_poll_open io w f k).
Proof.
  intros Hok Hf Hnone Hfail Hk. unfold state_poll_open. destruct (io_open io) as [|[e|[]]].
  - apply Hfail; [|done|done]. apply ok_set_state; [done|by intros ? [= <-]|by intros ? [= <-]|done].
  - apply Hfail; [|done|done]. apply ok_set_state; done.
  - apply Hk.
Qed.
Lemma created_ok w f s n :
  writer_ok w → S f = next_idx w → writer_ok (mkWriter (next_idx w) (Open f n) (<[f := s]> (files w))).
Proof.
  intros [H1 _ _ _] Hf. constructor; cbn [next_idx state files]; try done.
  - intros i Hi. rewrite lookup_insert_ne by lia. by apply H1.
  - by intros ? [= <-].
  - intros f' n' [= <- _]. rewrite lookup_insert_eq. by eexists.
Qed.

Lemma poll_write_open_spec io buf w f n :
  writer_ok w → S f = next_idx w → is_Some (files w !! f) →
  let r := state_poll_write io buf w f n in
  writer_ok r.1 ∧ contents r.1 = contents w ++ match r.2 with Ready (inr n) => take n buf | _ => [] end.
Proof.
  intros Hok Hf Hs. unfold state_poll_write. destruct (io_write io) as [|[e|k]]; cbn [fst snd].
  - rewrite app_nil_r. split; [|done]. apply ok_set_state; [done|by intros ? [= <-]|done|by intros ?? [= <- _]].
  - rewrite app_nil_r. split; [|done]. apply ok_set_state; [done|by intros ? [= <-]|done|by intros ?? [= <- _]].
  - split; [|by apply contents_append]. destruct Hok as [H1 _ _ _]. constructor; cbn [next_idx state files]; try done.
    + intros i Hi. rewrite lookup_alter_ne by lia. by apply H1.
    + by intros ? [= <-].
    + intros f' n' [= <- _]. rewrite lookup_alter_eq. destruct Hs as [c ->]. by eexists.
Qed.
Lemma poll_close_spec io w f :
  writer_ok w → S f = next_idx w →
  writer_ok (state_poll_close io w f).1 ∧ contents (state_poll_close io w f).1 = contents w ∧
  ((state_poll_close io w f).2 = Pending ∨ state (state_poll_close io w f).1 = Idle).
Proof.
  intros Hok Hf. unfold state_poll_close.
  destruct (io_close io) as [|[e|[]]]; cbn [fst snd]; (split; [apply ok_set_state; try done; by intros ? [= <-]|split; [done|]]);
    [by left|by right|by right].
Qed.
Lemma poll_open_write_spec io buf w f :
  writer_ok w → S f = next_idx w → files w !! f = None →
  let r := state_poll_open_write io buf w f in
  writer_ok r.1 ∧ contents r.1 = contents w ++ match r.2 with Ready (inr n) => take n buf | _ => [] end.
Proof.
  intros Hok Hf Hnone. cbn zeta.
  apply (open_spec io w f _ (λ r, writer_ok r.1 ∧ contents r.1 = contents w ++ match r.2 with Ready (inr n) => take n buf | _ => [] end));
    try done.
  - intros w' p Hw' Hc Hp. split; [done|]. cbn [fst snd]. rewrite Hc.
    destruct p as [|[e|n]]; [by rewrite app_nil_r|by rewrite app_nil_r|by destruct (Hp n)].
  - intros s. rewrite <- (contents_create w f (Open f 0) Hnone).
    pose proof (poll_write_open_spec io buf (mkWriter (next_idx w) (Open f 0) (<[f := []]> (files w))) f 0
      (created_ok w f [] 0 Hok Hf) Hf ltac:(cbn [files]; rewrite lookup_insert_eq; by eexists)) as Hw.
    unfold state_poll_write in *. cbn [next_idx files] in *. destruct (io_write io) as [|[e|k]]; exact Hw.
Qed.
Lemma next_file_ok w : writer_ok w → state w = Idle →
  writer_ok (next_file w).1 ∧ contents (next_file w).1 = contents w ∧ files (next_file w).1 !! next_idx w = None.
Proof.
  intros [H1 H2 H3 H4] Hs. unfold next_file. cbn [fst]. split_and!.
  - constructor; cbn [next_idx state files]; rewrite ?Hs; try done. intros i Hi. apply H1. lia.
  - apply contents_next. apply H1. lia.
  - apply H1. lia.
Qed.

Lemma poll_write_spec io buf w :
  writer_ok w →
  let r := poll_write io buf w in
  writer_ok r.1 ∧ contents r.1 = contents w ++ match r.2 with Ready (inr n) => take n buf | _ => [] end.
Proof.
  intros Hok. cbn zeta. unfold poll_write.
  assert (∀ w, writer_ok w → state w = Idle →
    let r := state_poll_open_write io buf (next_file w).1 (next_idx w) in
    writer_ok r.1 ∧ contents r.1 = contents w ++ match r.2 with Ready (inr n) => take n buf | _ => [] end) as Hnext.
  { clear. intros w Hok Hs. destruct (next_file_ok w Hok Hs) as (Hok' & Hc & Hf). rewrite <- Hc.
    by apply poll_open_write_spec. }
  destruct (state w) as [|f|f n|f] eqn:Hs; cbn [next_file].
  - by apply Hnext.
  - apply poll_open_write_spec; [done|apply (ok_current w Hok); by rewrite Hs|by apply (ok_opening w Hok)].
  - apply poll_write_open_spec; [done|apply (ok_current w Hok); by rewrite Hs|by eapply (ok_open w Hok)].
  - destruct (poll_close_spec io w f Hok ltac:(apply (ok_current w Hok); by rewrite Hs)) as (Hok' & Hc & Hidle).
    destruct (state_poll_close io w f) as [w' p]. cbn [fst snd] in *.
    destruct p as [|r]; cbn [is_ready]; [by rewrite app_nil_r|]. rewrite <- Hc.
    destruct Hidle as [?|Hidle]; [done|]. by apply Hnext.
Qed.
Lemma poll_flush_spec max io w : writer_ok w → writer_ok (poll_flush max io w).1 ∧ contents (poll_flush max io w).1 = contents w.
Proof.
  intros Hok. unfold poll_flush. destruct (state w) as [|f|f n|f] eqn:Hs; [done| | |].
  - assert (S f = next_idx w) as Hf by (apply (ok_current w Hok); by rewrite Hs).
    assert (files w !! f = None) as Hn by (by apply (ok_opening w Hok)).
    apply (open_spec io w f _ (λ r, writer_ok r.1 ∧ contents r.1 = contents w)); try done.
    intros s. cbn [fst]. split; [exact (created_ok w f [] 0 Hok Hf)|exact (contents_create w f (Open f 0) Hn)].
  - assert (S f = next_idx w) as Hf by (apply (ok_current w Hok); by rewrite Hs).
    destruct (io_flush io) as [|[e|[]]]; [done|done|].
    destruct (_ || _); [|done]. destruct (poll_close_spec io w f Hok Hf) as (? & ? & _). done.
  - assert (S f = next_idx w) as Hf by (apply (ok_current w Hok); by rewrite Hs).
    destruct (poll_close_spec io w f Hok Hf) as (? & ? & _). done.
Qed.
Lemma poll_close_ok io w : writer_ok w → writer_ok (poll_close io w).1 ∧ contents (poll_close io w).1 = contents w.
Proof.
  intros Hok. unfold poll_close. destruct (state w) as [|f|f n|f] eqn:Hs; [done| | |];
    (assert (S f = next_idx w) as Hf by (apply (ok_current w Hok); by rewrite Hs)).
  - assert (files w !! f = None) as Hn by (by apply (ok_opening w Hok)).
    apply (open_spec io w f _ (λ r, writer_ok r.1 ∧ contents r.1 = contents w)); try done.
    intros s. rewrite <- (contents_create w f (Open f 0) Hn).
    destruct (poll_close_spec io _ f (created_ok w f [] 0 Hok Hf) Hf) as (H1 & H2 & _).
    unfold state_poll_close in *. cbn [next_idx files] in *. destruct (io_close io) as [|[e|[]]]; done.
  - destruct (poll_close_spec io w f Hok Hf) as (? & ? & _). done.
  - destruct (poll_close_spec io w f Hok Hf) as (? & ? & _). done.
Qed.

Lemma reachable_ok max w acc : reachable max w acc → writer_ok w ∧ contents w = acc.
Proof.
  induction 1 as [|w acc c _ [Hok Hc] Hcall].
  - split; [|done]. constructor; cbn; try done.
  - destruct c as [buf io|io|io]; cbn [run_call fst snd].
    + destruct (poll_write_spec io buf w Hok) as [Hok' Hc']. by rewrite Hc', Hc.
    + destruct (poll_flush_spec max io w Hok) as [Hok' Hc']. by rewrite Hc', Hc, app_nil_r.
    + destruct (poll_close_ok io w Hok) as [Hok' Hc']. by rewrite Hc', Hc, app_nil_r.
Qed.

(** ** Facts: a CAR in chunks *)

Definition frame_bytes (f : bytes * bytes) : bytes := f.1 ++ f.2.
(** Frames go into the current chunk until it has reached the size. *)
Definition full (max : nat) (c : bytes) : bool := ((max <=? length c) && (0 <? max))%nat.
Fixpoint group (max : nat) (chunk : option bytes) (frames : list bytes) : list bytes :=
  match frames with
  | [] => match chunk with Some c => [c] | None => [] end
  | f :: frames =>
      let c := default [] chunk ++ f in
      if full max c then c :: group max None frames else group max (Some c) frames
  end.

Lemma write_all_idle buf n fs :
  write_all buf (mkWriter n Idle fs) = mkWriter (S n) (Open n (length buf)) (<[n := buf]> fs).
Proof.
  unfold write_all, poll_write. cbn [state next_file next_idx files fst]. unfold state_poll_open_write, state_poll_open, state_poll_write.
  cbn [io_open io_write io_ready fst next_idx files]. f_equal.
  apply map_eq. intros i. destruct (decide (n = i)) as [<-|].
  - rewrite lookup_alter_eq, !lookup_insert_eq. cbn. by rewrite firstn_all.
  - by rewrite lookup_alter_ne, !lookup_insert_ne.
Qed.
Lemma write_all_open buf n f k fs c :
  fs !! f = Some c →
  write_all buf (mkWriter n (Open f k) fs) = mkWriter n (Open f (k + length buf)) (<[f := c ++ buf]> fs).
Proof.
  intros Hc. unfold write_all, poll_write. cbn [state]. unfold state_poll_write.
  cbn [io_write io_ready fst next_idx files]. f_equal.
  apply map_eq. intros i. destruct (decide (f = i)) as [<-|].
  - rewrite lookup_alter_eq, lookup_insert_eq, Hc. cbn. by rewrite firstn_all.
  - by rewrite lookup_alter_ne, lookup_insert_ne.
Qed.

(** The writer between frames: the current chunk is open, or there is none. *)
Definition between (n : nat) (fs : gmap nat bytes) (chunk : option bytes) : ChunkWriter :=
  match chunk with
  | Some c => mkWriter (S n) (Open n (length c)) (<[n := c]> fs)
  | None => mkWriter n Idle fs
  end.
Lemma ld_write_between max n fs chunk f :
  (chunk = None → n ≠ 0%nat) → (is_Some chunk → n ≠ 0%nat) →
  ld_write max (between n fs chunk) f =
    let c := default [] chunk ++ frame_bytes f in
    if full max c then between (S n) (<[n := c]> fs) None else between n fs (Some c).
Proof.
  intros Hn Hn'. set (c := default [] chunk ++ frame_bytes f).
  assert (write_all f.2 (write_all f.1 (between n fs chunk)) =
          mkWriter (S n) (Open n (length c)) (<[n := c]> fs)) as Hw.
  { unfold c, frame_bytes. destruct chunk as [c0|]; cbn [between default].
    - rewrite (write_all_open _ _ _ _ _ c0) by apply lookup_insert_eq.
      rewrite (write_all_open _ _ _ _ _ (c0 ++ f.1)) by apply lookup_insert_eq.
      rewrite !insert_insert_eq, !length_app, <- app_assoc, Nat.add_assoc. done.
    - rewrite write_all_idle, (write_all_open _ _ _ _ _ f.1) by apply lookup_insert_eq.
      rewrite insert_insert_eq, app_nil_l, length_app. done. }
  unfold ld_write. rewrite Hw. unfold poll_flush. cbn [state io_flush io_ready next_idx].
  assert (n ≠ 0%nat) as Hnz by (destruct chunk; [apply Hn'; by eexists|by apply Hn]).
  rewrite (proj2 (Nat.eqb_neq (S n) 1)) by lia. cbn [orb]. unfold full. cbn zeta.
  destruct ((max <=? length c) && (0 <? max))%nat; done.
Qed.

Lemma chunks_of_between n fs chunk :
  chunks_of (between n fs chunk) = chunks_of (mkWriter n Idle fs) ++ match chunk with Some c => [c] | None => [] end.
Proof.
  destruct chunk as [c|]; cbn [between]; [|by rewrite app_nil_r].
  rewrite chunks_of_snoc, lookup_insert_eq. cbn [default]. f_equal.
  apply chunks_of_ext; [done|]. cbn [next_idx files]. intros i Hi. rewrite lookup_insert_ne by lia. done.
Qed.
Lemma split_loop max blocks : ∀ n fs chunk,
  n ≠ 0%nat →
  chunks_of (foldl (ld_write max) (between n fs chunk) blocks) =
    chunks_of (mkWriter n Idle fs) ++ group max chunk (frame_bytes <$> blocks).
Proof.
  induction blocks as [|f blocks IH]; intros n fs chunk Hn; cbn [foldl]; [apply chunks_of_between|].
  rewrite ld_write_between by done. rewrite fmap_cons. cbn [group]. cbn zeta.
  set (c := default [] chunk ++ frame_bytes f). destruct (full max c).
  - rewrite IH by lia.
    assert (chunks_of (mkWriter (S n) Idle (<[n := c]> fs)) = chunks_of (mkWriter n Idle fs) ++ [c]) as ->.
    { pose proof (chunks_of_between n fs (Some c)) as Hb. exact Hb. }
    by rewrite <- app_assoc.
  - by rewrite IH.
Qed.

(** What grouping does: nothing is lost, and only the last chunk may be below the size. *)
Lemma group_concat max frames : ∀ chunk, concat (group max chunk frames) = default [] chunk ++ concat frames.
Proof.
  induction frames as [|f frames IH]; intros chunk; cbn [group concat].
  - destruct chunk; cbn; by rewrite ?app_nil_r.
  - cbn zeta. destruct (full max _); cbn [concat]; rewrite IH; [by rewrite <- app_assoc|].
    change (default [] (Some ?c)) with c. by rewrite app_assoc.
Qed.
Lemma group_sizes max frames bound : (0 < max)%nat → Forall (λ f, (length f <= bound)%nat) frames →
  ∀ chunk, (∀ c, chunk = Some c → (length c < max)%nat) →
  (∀ c, c ∈ group max chunk frames → (length c < max + bound)%nat) ∧
  (∀ i c, group max chunk frames !! i = Some c → (S i < length (group max chunk frames))%nat → (max <= length c)%nat).
Proof.
  intros Hmax Hb. induction Hb as [|f frames Hf _ IH]; intros chunk Hc; cbn [group].
  - destruct chunk as [c|].
    + split; [intros c' ->%list_elem_of_singleton; specialize (Hc c eq_refl); lia|]. intros [|i] c' Hi Hl; simpl in *; [lia|done].
    + split; [by intros ? ?%elem_of_nil|done].
  - cbn zeta. set (c := default [] chunk ++ f).
    assert (length c < max + bound)%nat as Hlc.
    { unfold c. rewrite length_app. destruct chunk as [c0|]; cbn [default length]; [specialize (Hc c0 eq_refl)|]; simpl in *; lia. }
    destruct (full max c) eqn:Hfull; unfold full in Hfull.
    + apply andb_true_iff in Hfull as [Hge%Nat.leb_le _]. destruct (IH None ltac:(done)) as [IH1 IH2]. split.
      * intros c' [->|Hin]%elem_of_cons; [done|by apply IH1].
      * intros [|i] c' Hi Hl; simpl in *; [by simplify_eq|]. apply (IH2 i); [done|lia].
    + apply IH. intros c' [= <-]. apply andb_false_iff in Hfull as [?%Nat.leb_gt|?%Nat.ltb_ge]; lia.
Qed.

(** ** Facts: the walk *)

Section streamer_facts.
Context (get : Cid → GetResult) (is_dag_cbor : Cid → bool) (decode : bytes → option Ipld).
Notation links := (links (E:=string) is_dag_cbor decode).
Notation stream := (stream get is_dag_cbor decode).

(** The blocks below a block. *)
Inductive reaches : Cid → Cid → Prop :=
| reaches_here c : reaches c c
| reaches_link c b ls c' d : get c = Found b → links c b = Ok ls → c' ∈ ls → reaches c' d → reaches c d.

(** The store answers, its blocks decode, and links go from blocks of a higher to
    blocks of a lower rank, as they do when links are hashes. *)
Record store_ok (rank : Cid → nat) : Prop := {
  store_no_error : ∀ c, get c ≠ GetError;
  store_decodes : ∀ c b, get c = Found b → ∃ ls, links c b = Ok ls;
  store_ranked : ∀ c b ls c', get c = Found b → links c b = Ok ls → c' ∈ ls → (rank c' < rank c)%nat;
}.

Definition children (c : Cid) : list Cid :=
  match get c with
  | Found b => match links c b with Ok ls => ls | _ => [] end
  | _ => []
  end.
(** The number of visits below a block. *)
Fixpoint weight (n : nat) (c : Cid) : nat :=
  match n with O => 1 | S n => S (sum_list (weight n <$> children c)) end.

Context (rank : Cid → nat) (Hok : store_ok rank).

Lemma children_rank c c' : c' ∈ children c → (rank c' < rank c)%nat.
Proof.
  unfold children. destruct (get c) as [b| |] eqn:Hg; [|by intros ?%elem_of_nil..].
  destruct (links c b) as [ls| | |] eqn:Hl; [|by intros ?%elem_of_nil..].
  by apply (store_ranked _ Hok c b).
Qed.
Lemma weight_stable n : ∀ m c, (rank c <= n)%nat → (rank c <= m)%nat → weight n c = weight m c.
Proof.
  assert (∀ c m, rank c = 0%nat → weight m c = 1%nat) as Hleaf.
  { intros c m Hr. destruct m as [|m]; [done|]. cbn [weight].
    destruct (children c) as [|c' cs] eqn:Hc; [done|].
    pose proof (children_rank c c' ltac:(rewrite Hc; left)). lia. }
  induction n as [|n IH]; intros m c Hn Hm; [rewrite !Hleaf by lia; done|].
  destruct m as [|m]; [rewrite !Hleaf by lia; done|]. cbn [weight]. do 2 f_equal.
  apply list_fmap_ext. intros i c' Hc'%list_elem_of_lookup_2%children_rank. apply IH; lia.
Qed.
Definition visits (c : Cid) : nat := weight (rank c) c.
Lemma visits_eq c : visits c = S (sum_list (visits <$> children c)).
Proof.
  unfold visits. rewrite (weight_stable (rank c) (S (rank c))) by lia. cbn [weight]. do 2 f_equal.
  apply list_fmap_ext. intros i c' Hc'%list_elem_of_lookup_2%children_rank. apply weight_stable; lia.
Qed.
Lemma sum_list_cons x l : sum_list (x :: l) = (x + sum_list l)%nat.
Proof. done. Qed.
Lemma sum_list_app l1 l2 : sum_list (l1 ++ l2) = (sum_list l1 + sum_list l2)%nat.
Proof. induction l1 as [|x l1 IH]; simpl; lia. Qed.

Lemma stream_total fuel : ∀ dfs, (sum_list (visits <$> dfs) < fuel)%nat → ∃ items, stream fuel dfs = Ok items.
Proof.
  induction fuel as [|fuel IH]; intros dfs Hf; [lia|]. cbn [Car.stream].
  destruct dfs as [|c dfs]; [by eexists|]. rewrite fmap_cons, sum_list_cons in Hf.
  rewrite visits_eq in Hf. unfold children in Hf.
  destruct (get c) as [b| |] eqn:Hg; [|apply IH; lia|by destruct (store_no_error _ Hok c)].
  destruct (store_decodes _ Hok c b Hg) as [ls Hls]. rewrite Hls in *. cbn [mbind outcome_bind].
  destruct (IH (dfs ++ ls)) as [items ->]; [rewrite fmap_app, sum_list_app; lia|]. cbn. by eexists.
Qed.
Lemma stream_items fuel : ∀ dfs items,
  stream fuel dfs = Ok items →
  ∀ c b, (c, b) ∈ items ↔ (∃ d, d ∈ dfs ∧ reaches d c) ∧ get c = Found b.
Proof.
  induction fuel as [|fuel IH]; intros dfs items Hs c b; [done|]. cbn [Car.stream] in Hs.
  destruct dfs as [|c0 dfs].
  { injection Hs as <-. split; [by intros ?%elem_of_nil|]. by intros [(d & ?%elem_of_nil & _) _]. }
  destruct (get c0) as [b0| |] eqn:Hg; [| |by destruct (store_no_error _ Hok c0)].
  - apply bind_Ok in Hs as (ls & Hls & (rest & Hrest & [= <-])%bind_Ok).
    rewrite elem_of_cons, (IH _ _ Hrest c b). split.
    + intros [[= -> ->]|[(d & [Hd|Hd]%elem_of_app & Hr) Hb]].
      * split; [|done]. exists c0. split; [left|constructor].
      * split; [|done]. exists d. split; [by right|done].
      * split; [|done]. exists c0. split; [left|]. by eapply reaches_link.
    + intros [(d & [->|Hd]%elem_of_cons & Hr) Hb].
      * inversion Hr as [|c1 b1 ls1 c' d1 Hg1 Hl1 Hin Hr1]; subst.
        { left. congruence. }
        right. split; [|done]. assert (b1 = b0) as -> by congruence. assert (ls1 = ls) as -> by congruence.
        exists c'. split; [|done]. apply elem_of_app. by right.
      * right. split; [|done]. exists d. split; [|done]. apply elem_of_app. by left.
  - rewrite (IH _ _ Hs c b). split.
    + intros [(d & Hd & Hr) Hb]. split; [|done]. exists d. split; [by right|done].
    + intros [(d & [->|Hd]%elem_of_cons & Hr) Hb]; [|split; [by exists d|done]].
      inversion Hr as [|c1 b1 ls1 c' d1 Hg1]; subst; congruence.
Qed.
End streamer_facts.

(** The header closes its file; then the frames are grouped. *)
Lemma split_frames max header blocks :
  chunks_of (split max header blocks) = frame_bytes header :: group max None (frame_bytes <$> blocks).
Proof.
  unfold split. cbn [foldl].
  assert (ld_write max new_writer header = between 1 {[0%nat := frame_bytes header]} None) as ->.
  { unfold ld_write. change new_writer with (mkWriter 0 Idle ∅).
    rewrite write_all_idle, (write_all_open _ _ _ _ _ header.1) by apply lookup_insert_eq.
    by rewrite insert_insert_eq. }
  rewrite split_loop by done. done.
Qed.
Lemma split_content max header blocks :
  concat (chunks_of (split max header blocks)) = concat (frame_bytes <$> header :: blocks).
Proof. rewrite split_frames. cbn [concat]. by rewrite group_concat. Qed.
Lemma chunk_created_length w : chunk_created w = length (chunks_of w).
Proof. unfold chunks_of. by rewrite length_fmap, length_seq. Qed.

(** ** Theorems *)

(** No byte of a snapshot is lost or reordered by polling: whatever the order of the
    calls of a [ChunkWriter], and whichever answers of the files are late, partial or
    errors, the chunks on disk read one after the other are the bytes that its writes
    accepted. *)
Theorem chunk_writer_faithful max w acc : reachable max w acc → concat (chunks_of w) = acc.
Proof. intros [_ Hc]%reachable_ok. exact Hc. Qed.

(** Splitting a CAR file: the first chunk is the header alone, and the others are
    what grouping whole frames up to the size gives.  So a frame is never torn, the
    chunks together are the file, all of them but the first and the last have reached
    the size, and none exceeds it by a whole frame. *)
Theorem split_chunks max header blocks bound :
  (0 < max)%nat → Forall (λ f, (length (frame_bytes f) <= bound)%nat) blocks →
  ∃ chunks, chunks_of (split max header blocks) = frame_bytes header :: chunks ∧
    chunk_created (split max header blocks) = S (length chunks) ∧
    chunks = group max None (frame_bytes <$> blocks) ∧
    concat (chunks_of (split max header blocks)) = concat (frame_bytes <$> header :: blocks) ∧
    (∀ c, c ∈ chunks → (length c < max + bound)%nat) ∧
    (∀ i c, chunks !! i = Some c → (S i < length chunks)%nat → (max <= length c)%nat).
Proof.
  intros Hmax Hb. exists (group max None (frame_bytes <$> blocks)). split; [apply split_frames|]. split_and!.
  - by rewrite chunk_created_length, split_frames.
  - done.
  - apply split_content.
  - apply (group_sizes max _ bound Hmax); [by apply Forall_fmap|done].
  - apply (group_sizes max _ bound Hmax); [by apply Forall_fmap|done].
Qed.

(** The export of the state ends and is complete: on a store without errors whose
    links lead to blocks of lower rank, the walk from the root ends after as many
    steps as there are paths below the root, and what it streams are exactly the
    blocks of the store that the root reaches. *)
Theorem stream_complete get is_dag_cbor decode rank root :
  store_ok get is_dag_cbor decode rank →
  ∃ items, stream get is_dag_cbor decode (S (visits get is_dag_cbor decode rank root)) [root] = Ok items ∧
    ∀ c b, (c, b) ∈ items ↔ reaches get is_dag_cbor decode root c ∧ get c = Found b.
Proof.
  intros Hok. destruct (stream_total get is_dag_cbor decode rank Hok
    (S (visits get is_dag_cbor decode rank root)) [root]) as [items Hs].
  { rewrite fmap_cons, sum_list_cons. simpl. lia. }
  exists items. split; [exact Hs|]. intros c b. rewrite (stream_items _ _ _ rank Hok _ _ _ Hs). split.
  - intros [(d & ->%list_elem_of_singleton & Hr) Hb]. done.
  - intros [Hr Hb]. split; [|done]. exists root. split; [left|done].
Qed.

(** ** Witnesses *)

Definition late_open : Io := mkIo Pending (Ready (inr 2%nat)) (Ready (inr tt)) Pending.
Definition ready_io : Io := mkIo (Ready (inr tt)) (Ready (inr 2%nat)) (Ready (inr tt)) Pending.
Definition sample_calls : list Call :=
  [CallWrite [1; 2; 3]%Z late_open; CallWrite [1; 2; 3]%Z ready_io; CallFlush ready_io; CallWrite [3]%Z late_open;
   CallFlush (io_ready 0); CallWrite [3; 4]%Z ready_io].
Definition run_calls (max : nat) (cs : list Call) : ChunkWriter * bytes :=
  foldl (λ p c, let r := run_call max c p.1 in (r.1, p.2 ++ r.2)) (new_writer, []) cs.
Lemma chunk_writer_faithful_witness :
  concat (chunks_of (run_calls 10 sample_calls).1) = [1; 2; 3; 4]%Z.
Proof.
  apply (chunk_writer_faithful 10).
  pose proof (reachable_new 10) as H.
  apply (reachable_call 10 _ _ (CallWrite [1; 2; 3]%Z late_open)) in H; [|intros n Hn; vm_compute in Hn; injection Hn as <-; simpl; lia].
  apply (reachable_call 10 _ _ (CallWrite [1; 2; 3]%Z ready_io)) in H; [|intros n Hn; vm_compute in Hn; injection Hn as <-; simpl; lia].
  apply (reachable_call 10 _ _ (CallFlush ready_io)) in H; [|exact I].
  apply (reachable_call 10 _ _ (CallWrite [3; 3]%Z late_open)) in H; [|intros n Hn; vm_compute in Hn; injection Hn as <-; simpl; lia].
  apply (reachable_call 10 _ _ (CallFlush (io_ready 0))) in H; [|exact I].
  apply (reachable_call 10 _ _ (CallWrite [3; 4]%Z ready_io)) in H; [|intros n Hn; vm_compute in Hn; injection Hn as <-; simpl; lia].
  exact H.
Defined.

Definition sample_blocks : list (bytes * bytes) := [([1], [7]); ([1], [8]); ([2], [9; 9])]%Z.
Lemma split_chunks_witness :
  chunks_of (split 4 ([2], [0; 0])%Z sample_blocks) = [[2; 0; 0]; [1; 7; 1; 8]; [2; 9; 9]]%Z.
Proof.
  destruct (split_chunks 4 ([2], [0; 0])%Z sample_blocks 3) as (chunks & Hs & _ & Hc & _).
  - lia.
  - repeat constructor; simpl; lia.
  - rewrite Hs, Hc. vm_compute. reflexivity.
Defined.

(** A tree of three blocks with a shared leaf. *)
Definition sample_get (c : Cid) : GetResult :=
  match c with [0%Z] => Found [0%Z] | [1%Z] => Found [1%Z] | [2%Z] => Found [2%Z] | _ => Missing end.
Definition sample_decode (b : bytes) : option Ipld :=
  match b with
  | [0%Z] => Some (IpldList [IpldLink [1%Z]; IpldMap [("k"%string, IpldLink [2%Z])]])
  | [1%Z] => Some (IpldLink [2%Z])
  | _ => Some IpldScalar
  end.
Definition sample_rank (c : Cid) : nat := match c with [0%Z] => 2 | [1%Z] => 1 | _ => 0 end.
Lemma sample_store_ok : store_ok sample_get (λ _, true) sample_decode sample_rank.
Proof.
  constructor.
  - intros [|[| [| |] |] []]; cbn; repeat case_match; done.
  - intros c b _. unfold links. destruct b as [|[|[]|] []]; cbn; by eexists.
  - intros c b ls c' Hg Hl Hin.
    assert (c = [0%Z] ∧ b = [0%Z] ∨ c = [1%Z] ∧ b = [1%Z] ∨ c = [2%Z] ∧ b = [2%Z]) as Hc.
    { unfold sample_get in Hg. repeat case_match; simplify_eq; tauto. }
    destruct Hc as [[-> ->]|[[-> ->]|[-> ->]]]; cbn in Hl; injection Hl as <-.
    + apply elem_of_cons in Hin as [->|[->|?%elem_of_nil]%elem_of_cons]; simpl; [lia|lia|done].
    + apply list_elem_of_singleton in Hin as ->. simpl. lia.
    + by apply elem_of_nil in Hin.
Qed.
Lemma stream_complete_witness :
  ∃ items, stream sample_get (λ _, true) sample_decode 6 [[0%Z]] = Ok items ∧
    ([2%Z], [2%Z]) ∈ items ∧ length items = 4%nat.
Proof.
  destruct (stream_complete sample_get (λ _, true) sample_decode sample_rank [0%Z] sample_store_ok) as (items & Hs & Hin).
  exists items. vm_compute in Hs. injection Hs as <-. split; [vm_compute; reflexivity|]. split; [|reflexivity].
  apply Hin. split; [|reflexivity]. eapply reaches_link; [reflexivity|reflexivity| |apply reaches_here].
  vm_compute. right. left.
Defined.
