(* ===== verification/Snapshot.v ===== *)
(** * Snapshots and state sync
    ([vm/snapshot/src], [vm/interpreter/src/fvm/state/snapshot.rs], and in [app/src]
    the ABCI snapshot handlers and their conversions)

    At every so many blocks the manager exports the state to a CAR file, splits it into
    parts ([Car]) and lists the snapshot.  A node that joins is offered a snapshot by
    CometBFT, downloads its parts one by one, and imports them when the last has come.

    A directory of the file system is the parts it holds, by their index, and its
    manifest.  The CAR library, hashes, codecs, [StateTree::new_from_root], the merging
    of streams and the copying of directories are parameters, [SnapshotExt]; their laws
    are [SnapshotLaws].  Errors of the file system are arguments of the operations that
    write; reading a file that is there succeeds. *)

From Stdlib Require Import Ascii String.
From stdpp Require Import base tactics numbers list gmap sorting fin_maps.
From S2P Require Import Prelude App Car.

Open Scope Z_scope.

(** ** Data *)

Record SnapshotManifest := mkManifest {
  m_height : Z;
  m_size : Z;
  m_chunks : Z;
  (** [tendermint::Hash]: no bytes for [Hash::None] *)
  m_checksum : bytes;
  m_params : FvmStateParams;
  m_version : Z;
}.

(** A snapshot is in [snapshots_dir/snapshot-{height}], a download in a temporary
    directory of [download_dir]. *)
Inductive Path := SnapshotPath (height : Z) | DownloadPath (name : nat).
#[global] Instance path_eq_dec : EqDecision Path.
Proof. solve_decision. Defined.
#[global] Instance path_countable : Countable Path.
Proof.
  refine (inj_countable' (λ p, match p with SnapshotPath h => inl h | DownloadPath n => inr n end)
    (λ s, match s with inl h => SnapshotPath h | inr n => DownloadPath n end) _). by intros [].
Defined.

Inductive ManifestFile := Parsed (m : SnapshotManifest) | Unparsable.
Record Dir := mkDir { dir_parts : gmap Z bytes; dir_manifest : option ManifestFile }.
Notation Disk := (gmap Path Dir).
Notation Store := (gmap Cid bytes).

(** [last_access] is a time since the epoch. *)
Record SnapshotItem := mkItem { snapshot_dir : Path; manifest : SnapshotManifest; last_access : Z }.
Record SnapshotDownload := mkDownload { dl_manifest : SnapshotManifest; download_dir : Path; next_index : Z }.
Record SnapshotState := mkSnapshots {
  snapshots : list SnapshotItem;
  latest_params : option (FvmStateParams * Z);
  current_download : option SnapshotDownload;
}.

Inductive SnapshotError :=
| IncompatibleVersion (v : Z)
| IoError (e : string)
| NoDownload
| UnexpectedChunk (expected got : Z)
| WrongChecksum (expected got : bytes).

(** In the CAR file, and in the ABCI snapshot. *)
Record CarMetadata := mkCarMetadata { car_version : Z; data_root_cid : Cid }.
Record AbciMetadata := mkAbciMetadata { md_size : Z; md_params : FvmStateParams }.
Record AbciSnapshot := mkAbciSnapshot {
  abci_height : Z;
  abci_format : Z;
  abci_chunks : Z;
  abci_hash : bytes;
  abci_metadata : bytes;
}.
Record OfferRequest := mkOffer { offer_snapshot_of : AbciSnapshot; offer_app_hash : bytes }.
Inductive OfferResponse := OfferUnknown | OfferAccept | OfferAbort | OfferReject | OfferRejectFormat.
Inductive ApplyResult := ApplyUnknown | ApplyAccept | ApplyRetry | ApplyRejectSnapshot.
Record ApplyResponse := mkApplyResponse { apply_result : ApplyResult; refetch_chunks : list Z }.

(** ** Parameters *)

Class SnapshotExt := {
  sha256 : bytes → bytes;
  (** [Cid::new_v1(DAG_CBOR, Blake2b256.digest(bytes))], and whether a CID is the one of a block *)
  cid_of : bytes → Cid;
  cid_matches : Cid → bytes → bool;
  is_dag_cbor : Cid → bool;
  decode_ipld : bytes → option Ipld;
  params_to_vec : FvmStateParams → bytes;
  car_metadata_to_vec : CarMetadata → bytes;
  car_metadata_from_slice : bytes → option CarMetadata;
  block_state_to_vec : FvmStateParams * Z → bytes;
  block_state_from_slice : bytes → option (FvmStateParams * Z);
  abci_metadata_to_vec : AbciMetadata → bytes;
  abci_metadata_from_slice : bytes → option AbciMetadata;
  (** The length and the data of the frames of a CAR file *)
  header_frame : list Cid → bytes * bytes;
  block_frame : Cid * bytes → bytes * bytes;
  (** [CarReader]: the roots, and the blocks or errors it reads *)
  car_reader : bytes → option (list Cid * list (option (Cid * bytes)));
  (** [load_car]: the blocks put into the store, and the roots unless it fails *)
  load_car : bytes → list (Cid * bytes) * option (list Cid);
  merge : list (Cid * bytes) → list (Cid * bytes) → list (Cid * bytes);
  (** The error of [StateTree::new_from_root] *)
  state_tree_error : Store → Cid → option string;
  (** [dircpy]: a directory copied over another *)
  dircpy : Dir → Dir → Dir;
}.

Section snapshots.
Context `{SnapshotExt}.

Definition store_get (s : Store) (c : Cid) : GetResult :=
  match s !! c with Some b => Found b | None => Missing end.

(** ** Exporting and importing a state ([fvm/state/snapshot.rs]) *)

Definition car_file (roots : list Cid) (blocks : list (Cid * bytes)) : bytes :=
  concat (frame_bytes <$> header_frame roots :: (block_frame <$> blocks)).

Definition v1_new (s : Store) (p : FvmStateParams) : outcome string unit :=
  match state_tree_error s (state_root p) with Some e => Err e | None => Ok tt end.
Definition v1_into_streamer (fuel : nat) (s : Store) (p : FvmStateParams) (height : Z)
    : outcome string (Cid * list (Cid * bytes)) :=
  let bz := block_state_to_vec (p, height) in
  let root_cid := cid_of bz in
  items ← stream (store_get s) is_dag_cbor decode_ipld fuel [state_root p];
  Ok (root_cid, merge items [(root_cid, bz)]).
(** The stream is polled in a task of its own, whose panic is an error here. *)
Definition write_car (fuel : nat) (s : Store) (p : FvmStateParams) (height : Z) : outcome string bytes :=
  match v1_into_streamer fuel s p height with
  | Ok (root_cid, streamer) =>
      let metadata_bytes := car_metadata_to_vec (mkCarMetadata 1 root_cid) in
      let metadata_cid := cid_of metadata_bytes in
      Ok (car_file [metadata_cid] (merge [(metadata_cid, metadata_bytes)] streamer))
  | Err e => Err e
  | Retry => Retry
  | Panic => Err "task panicked"%string
  end.

Definition get_cbor {T} (from_slice : bytes → option T) (s : Store) (c : Cid) : outcome string (option T) :=
  match s !! c with
  | None => Ok None
  | Some b => v ← ok_or "failed to decode"%string (from_slice b); Ok (Some v)
  end.
Definition v1_from_root (s : Store) (root_cid : Cid) : outcome string (FvmStateParams * Z) :=
  r ← get_cbor block_state_from_slice s root_cid;
  ph ← ok_or "invalid v1 snapshot, root cid not found"%string r;
  _ ← v1_new s ph.1;
  Ok ph.
(** [read_car] with validation: the blocks go to the store even when it fails. *)
Definition read_car (car : bytes) (s : Store) : Store * outcome string (FvmStateParams * Z) :=
  let '(blocks, roots) := load_car car in
  let s := foldl (λ s cb, <[cb.1 := cb.2]> s) s blocks in
  (s,
   roots ← ok_or "failed to load"%string roots;
   match roots with
   | [metadata_cid] =>
       r ← get_cbor car_metadata_from_slice s metadata_cid;
       md ← ok_or "invalid snapshot, metadata not found"%string r;
       if car_version md =? 1 then v1_from_root s (data_root_cid md) else Err "unknown snapshot version"%string
   | _ => Err "invalid snapshot, should have 1 root cid"%string
   end).

(** ** Directories ([manifest.rs], [state.rs]) *)

(** The parts in the order of their index. *)
Definition list_parts (d : Dir) : list Z := merge_sort Z.le (map_to_list (dir_parts d)).*1.
Definition part (d : Dir) (i : Z) : bytes := default [] (dir_parts d !! i).
(** A directory that is not there is a panic. *)
Definition parts_checksum {E} (disk : Disk) (path : Path) : outcome E bytes :=
  d ← unwrap (disk !! path); Ok (sha256 (concat (part d <$> list_parts d))).
Definition file_checksum (file : bytes) : bytes := sha256 file.

(** The snapshots found when the node starts.  Directories come in any order, here the
    one of the map, and are sorted by height. *)
Definition item_new (dir : Path) (m : SnapshotManifest) : SnapshotItem := mkItem dir m 0.
Definition height_le (i j : SnapshotItem) : Prop := m_height (manifest i) <= m_height (manifest j).
#[global] Instance height_le_dec i j : Decision (height_le i j) := Z_le_dec _ _.
Definition list_manifests (disk : Disk) : list SnapshotItem :=
  merge_sort height_le
    (omap (λ pd, match pd.1, dir_manifest pd.2 with
                 | SnapshotPath _, Some (Parsed m) => Some (item_new pd.1 m)
                 | _, _ => None
                 end) (map_to_list disk)).

Definition load_chunk (disk : Disk) (item : SnapshotItem) (chunk : Z) : outcome string bytes :=
  if m_chunks (manifest item) <=? chunk then Err "cannot load chunk"%string
  else d ← ok_or "failed to read chunk"%string (disk !! snapshot_dir item);
       ok_or "failed to read chunk"%string (dir_parts d !! chunk).

#[global] Instance params_eq_dec : EqDecision FvmStateParams.
Proof. solve_decision. Defined.

(** [import] with validation: the store may have changed even when it fails.  The files are read
    and the blocks written without input or output errors, which would only end the import. *)
Definition import (disk : Disk) (item : SnapshotItem) (s : Store) : Store * outcome string (FvmStateParams * Z) :=
  match disk !! snapshot_dir item with
  | None => (s, Panic)
  | Some d =>
      let car := concat (part d <$> list_parts d) in
      let '(s, result) := read_car car s in
      (s,
       snapshot ← result;
       if negb (snapshot.2 =? m_height (manifest item)) then Err "invalid snapshot block height"%string
       else if bool_decide (snapshot.1 ≠ m_params (manifest item)) then Err "invalid state params"%string
       else Ok snapshot)
  end.

(** ** The client ([client.rs]) *)

Definition snapshots_new (items : list SnapshotItem) : SnapshotState := mkSnapshots items None None.

(** [snapshot_interval] 0 divides by zero. *)
Definition notify (snapshot_interval : Z) (st : SnapshotState) (height : Z) (p : FvmStateParams)
    : outcome string SnapshotState :=
  if snapshot_interval =? 0 then Panic
  else if height mod snapshot_interval =? 0
  then Ok (mkSnapshots (snapshots st) (Some (p, height)) (current_download st))
  else Ok st.

Definition set_access (now : Z) (i : SnapshotItem) : SnapshotItem := mkItem (snapshot_dir i) (manifest i) now.
Fixpoint access_items (now height version : Z) (items : list SnapshotItem)
    : list SnapshotItem * option SnapshotItem :=
  match items with
  | [] => ([], None)
  | i :: items =>
      if (m_height (manifest i) =? height) && (m_version (manifest i) =? version)
      then (set_access now i :: items, Some (set_access now i))
      else let r := access_items now height version items in (i :: r.1, r.2)
  end.
Definition access_snapshot (now : Z) (st : SnapshotState) (height version : Z)
    : SnapshotState * option SnapshotItem :=
  let r := access_items now height version (snapshots st) in
  match r.2 with
  | Some i => (mkSnapshots r.1 (latest_params st) (current_download st), Some i)
  | None => (st, None)
  end.

(** The name [tempdir_in] chose, or its error; then the errors of making the parts
    directory and of writing the manifest. *)
Record OfferIo := mkOfferIo { io_tempdir : string + nat; io_parts_dir : option string; io_manifest : option string }.

(** A temporary directory goes away with the value that holds it: the new one when the
    offer fails, the one of the previous download when it succeeds. *)
Definition drop_download (st : SnapshotState) (disk : Disk) : Disk :=
  match current_download st with Some d => delete (download_dir d) disk | None => disk end.
Definition client_offer_snapshot (io : OfferIo) (st : SnapshotState) (disk : Disk) (m : SnapshotManifest)
    : (SnapshotState * Disk) * outcome SnapshotError Path :=
  if negb (m_version m =? 1) then ((st, disk), Err (IncompatibleVersion (m_version m)))
  else
    match io_tempdir io with
    | inl e => ((st, disk), Err (IoError e))
    | inr name =>
        match io_parts_dir io, io_manifest io with
        | Some e, _ | None, Some e => ((st, disk), Err (IoError e))
        | None, None =>
            let dir := DownloadPath name in
            ((mkSnapshots (snapshots st) (latest_params st) (Some (mkDownload m dir 0)),
              <[dir := mkDir ∅ (Some (Parsed m))]> (drop_download st disk)), Ok dir)
        end
    end.

(** Writing a part; a failed write leaves some of it. *)
Definition write_part (disk : Disk) (dir : Path) (index : Z) (contents : bytes) : Disk :=
  alter (λ d, mkDir (<[index := contents]> (dir_parts d)) (dir_manifest d)) dir disk.
Definition u32 (x : Z) : Z := x mod 2 ^ 32.

(** An abort drops the changes of the state, the files stay. *)
Definition save_chunk (io : option (string * bytes)) (st : SnapshotState) (disk : Disk) (index : Z) (contents : bytes)
    : (SnapshotState * Disk) * outcome SnapshotError (option SnapshotItem) :=
  match current_download st with
  | None => ((st, disk), Err NoDownload)
  | Some cd =>
      if negb (index =? next_index cd) then ((st, disk), Err (UnexpectedChunk (next_index cd) index))
      else
        match io with
        | Some (e, partial) => ((st, write_part disk (download_dir cd) index partial), Err (IoError e))
        | None =>
            let disk := write_part disk (download_dir cd) index contents in
            let next := u32 (index + 1) in
            let st' := mkSnapshots (snapshots st) (latest_params st)
                         (Some (mkDownload (dl_manifest cd) (download_dir cd) next)) in
            if next =? m_chunks (dl_manifest cd) then
              match parts_checksum disk (download_dir cd) with
              | Ok checksum =>
                  if bool_decide (checksum = m_checksum (dl_manifest cd))
                  then ((st', disk), Ok (Some (item_new (download_dir cd) (dl_manifest cd))))
                  else ((st, disk), Err (WrongChecksum (m_checksum (dl_manifest cd)) checksum))
              | Err e => ((st, disk), Err (IoError e))
              | Retry => ((st, disk), Retry)
              | Panic => ((st, disk), Panic)
              end
            else ((st', disk), Ok None)
        end
  end.

(** ** The manager ([manager.rs]) *)

Record SnapshotParams := mkParams { chunk_size : nat; hist_size : nat; last_access_hold : Z }.
Record SnapshotManager := mkManager { last_params : option (FvmStateParams * Z); is_syncing : bool }.

(** The popped snapshots and the others. A clock that went back is an error of
    [elapsed] and holds nothing. *)
Fixpoint prune_items (hist hold now : Z) (items : list SnapshotItem) : list SnapshotItem * list SnapshotItem :=
  match items with
  | [] => ([], [])
  | i :: rest =>
      if Z.of_nat (length items) <=? hist then ([], items)
      else if (last_access i <=? now) && (now - last_access i <=? hold) then ([], items)
      else let r := prune_items hist hold now rest in (i :: r.1, r.2)
  end.
Definition prune_history (params : SnapshotParams) (now : Z) (st : SnapshotState) (disk : Disk)
    : SnapshotState * Disk :=
  if (hist_size params =? 0)%nat then (st, disk)
  else
    let r := prune_items (Z.of_nat (hist_size params)) (last_access_hold params) now (snapshots st) in
    (mkSnapshots r.2 (latest_params st) (current_download st), foldl (λ d i, delete (snapshot_dir i) d) disk r.1).

(** [car::split]: the chunks of a CAR file and their number. *)
Definition car_split (max_size : nat) (car : bytes) : outcome string (list bytes * nat) :=
  r ← ok_or "failed to open CAR reader"%string (car_reader car);
  let w := Car.split max_size (header_frame r.1) (block_frame <$> omap id r.2) in
  Ok (chunks_of w, chunk_created w).

(** Errors of the file system: while the snapshot is made in a temporary directory,
    whether that directory can be moved or has to be copied, and at the end of that. *)
Record CreateIo := mkCreateIo { io_prepare : option string; io_rename : bool; io_finish : option string }.

(** Move the directory into its place, or copy it over what is there. *)
Definition move_or_copy (io : CreateIo) (disk : Disk) (dir : Path) (d : Dir) : Disk * outcome string unit :=
  let d' := if io_rename io then d else match disk !! dir with Some old => dircpy d old | None => d end in
  (<[dir := d']> disk, match io_finish io with Some e => Err e | None => Ok tt end).

Definition prepare_snapshot (params : SnapshotParams) (io : CreateIo) (fuel : nat) (s : Store)
    (height : Z) (p : FvmStateParams) : outcome string (SnapshotManifest * Dir) :=
  _ ← v1_new s p;
  car ← write_car fuel s p height;
  _ ← match io_prepare io with Some e => Err e | None => Ok tt end;
  chunks ← car_split (chunk_size params) car;
  let m := mkManifest height (Z.of_nat (length car)) (u32 (Z.of_nat chunks.2)) (file_checksum car) p 1 in
  Ok (m, mkDir (map_seqZ 0 chunks.1) (Some (Parsed m))).
Definition create_snapshot (params : SnapshotParams) (io : CreateIo) (fuel : nat) (s : Store) (disk : Disk)
    (height : Z) (p : FvmStateParams) : Disk * outcome string SnapshotItem :=
  match prepare_snapshot params io fuel s height p with
  | Ok (m, d) =>
      let dir := SnapshotPath height in
      let '(disk, r) := move_or_copy io disk dir d in
      (disk, _ ← r; Ok (item_new dir m))
  | Err e => (disk, Err e)
  | Retry => (disk, Retry)
  | Panic => (disk, Panic)
  end.

Definition manager_new (disk : Disk) : SnapshotManager * SnapshotState :=
  (mkManager None true, snapshots_new (list_manifests disk)).
(** One answer of CometBFT to [poll_sync_status]. *)
Definition poll_sync_status (catching_up : string + bool) (mgr : SnapshotManager) : SnapshotManager :=
  match catching_up with inr c => mkManager (last_params mgr) c | inl _ => mgr end.

(** One turn of the loop of [run]; [Retry] while it waits. *)
Definition manager_turn (params : SnapshotParams) (io : CreateIo) (fuel : nat) (now : Z) (s : Store)
    (mgr : SnapshotManager) (st : SnapshotState) (disk : Disk)
    : outcome string (SnapshotManager * SnapshotState * Disk) :=
  if is_syncing mgr then Retry
  else
    match latest_params st with
    | None => Retry
    | Some (p, height) =>
        if bool_decide (Some (p, height) = last_params mgr) then Retry
        else
          let '(disk, r) := create_snapshot params io fuel s disk height p in
          st ← match r with
               | Ok item => Ok (mkSnapshots (snapshots st ++ [item]) (latest_params st) (current_download st))
               | Err _ => Ok st
               | Retry => Retry
               | Panic => Panic
               end;
          let '(st, disk) := prune_history params now st disk in
          Ok (mkManager (Some (p, height)) (is_syncing mgr), st, disk)
    end.

(** ** Conversions ([tmconv.rs]) *)

Definition to_app_hash (p : FvmStateParams) : bytes := cid_of (params_to_vec p).

Definition to_snapshot (item : SnapshotItem) : outcome string AbciSnapshot :=
  let m := manifest item in
  if I64_MAX <? m_height m then Panic
  else Ok (mkAbciSnapshot (m_height m) (m_version m) (m_chunks m) (m_checksum m)
             (abci_metadata_to_vec (mkAbciMetadata (m_size m) (m_params m)))).
Fixpoint to_snapshots (items : list SnapshotItem) : outcome string (list AbciSnapshot) :=
  match items with
  | [] => Ok []
  | i :: items => s ← to_snapshot i; rest ← to_snapshots items; Ok (s :: rest)
  end.
(** [Hash::try_from] takes no bytes or the 32 of SHA-256. *)
Definition hash_try_from (b : bytes) : option bytes :=
  if (length b =? 0)%nat || (length b =? 32)%nat then Some b else None.
Definition from_snapshot (offer : OfferRequest) : outcome string SnapshotManifest :=
  let s := offer_snapshot_of offer in
  md ← ok_or "failed to parse snapshot metadata"%string (abci_metadata_from_slice (abci_metadata s));
  if bool_decide (to_app_hash (md_params md) ≠ offer_app_hash offer)
  then Err "the application hash does not match the metadata"%string
  else
    checksum ← ok_or "failed to parse checksum"%string (hash_try_from (abci_hash s));
    Ok (mkManifest (abci_height s) (md_size md) (abci_chunks s) checksum (md_params md) (abci_format s)).

(** ** The ABCI handlers ([app.rs]) *)

(** [snap] is [None] when snapshots are disabled. *)
Record Node := mkNode { snap : option SnapshotState; disk : Disk; store : Store; db : Db }.
Definition set_snap (n : Node) (st : SnapshotState) (d : Disk) : Node := mkNode (Some st) d (store n) (db n).

(** At the end of [commit]. *)
Definition commit_notify (snapshot_interval : Z) (n : Node) (s : AppState) : outcome string Node :=
  match snap n with
  | None => Ok n
  | Some st => st ← notify snapshot_interval st (block_height s) (state_params s); Ok (set_snap n st (disk n))
  end.

Definition list_snapshots (n : Node) : outcome string (list AbciSnapshot) :=
  match snap n with Some st => to_snapshots (snapshots st) | None => Ok [] end.

Definition load_snapshot_chunk (now : Z) (n : Node) (height format chunk : Z) : Node * bytes :=
  match snap n with
  | None => (n, [])
  | Some st =>
      let '(st, item) := access_snapshot now st height format in
      (set_snap n st (disk n),
       match item with
       | Some i => match load_chunk (disk n) i chunk with Ok c => c | _ => [] end
       | None => []
       end)
  end.

Definition offer_snapshot (io : OfferIo) (n : Node) (request : OfferRequest) : Node * outcome string OfferResponse :=
  match snap n with
  | None => (n, Ok OfferUnknown)
  | Some st =>
      match from_snapshot request with
      | Ok m =>
          let '((st, d), r) := client_offer_snapshot io st (disk n) m in
          (set_snap n st d,
           match r with
           | Ok _ => Ok OfferAccept
           | Err (IncompatibleVersion _) => Ok OfferRejectFormat
           | Err _ => Ok OfferAbort
           | Retry => Retry
           | Panic => Panic
           end)
      | Err _ => (n, Ok OfferReject)
      | Retry => (n, Retry)
      | Panic => (n, Panic)
      end
  end.

Definition apply_snapshot_chunk (state_hist_size : Z) (io : option (string * bytes)) (n : Node) (index : Z) (chunk : bytes)
    : Node * outcome string ApplyResponse :=
  match snap n with
  | None => (n, Ok (mkApplyResponse ApplyUnknown []))
  | Some st =>
      let '((st, d), r) := save_chunk io st (disk n) index chunk in
      let n := set_snap n st d in
      match r with
      | Ok None => (n, Ok (mkApplyResponse ApplyAccept []))
      | Ok (Some snapshot) =>
          let '(s, imported) := import d snapshot (store n) in
          let n := mkNode (snap n) d s (db n) in
          match imported with
          | Ok _ =>
              match import_snapshot state_hist_size (db n) (m_height (manifest snapshot)) (m_params (manifest snapshot)) with
              | Ok db' => (mkNode (snap n) d s db', Ok (mkApplyResponse ApplyAccept []))
              | Err e => (n, Err e)
              | Retry => (n, Retry)
              | Panic => (n, Panic)
              end
          | Err _ => (n, Ok (mkApplyResponse ApplyRejectSnapshot []))
          | Retry => (n, Retry)
          | Panic => (n, Panic)
          end
      | Err (UnexpectedChunk expected _) => (n, Ok (mkApplyResponse ApplyRetry [expected]))
      | Err (WrongChecksum _ _) => (n, Ok (mkApplyResponse ApplyRejectSnapshot []))
      | Err _ => (n, Ok (mkApplyResponse ApplyUnknown []))
      | Retry => (n, Retry)
      | Panic => (n, Panic)
      end
  end.
End snapshots.

(** ** The laws of the parameters *)

Class SnapshotLaws `{SnapshotExt} := {
  (** CIDs identify blocks. *)
  cid_of_matches b : cid_matches (cid_of b) b = true;
  cid_binding c b b' : cid_matches c b = true → cid_matches c b' = true → b = b';
  sha256_length b : length (sha256 b) = 32%nat;
  car_metadata_roundtrip m : car_metadata_from_slice (car_metadata_to_vec m) = Some m;
  block_state_roundtrip ph : block_state_from_slice (block_state_to_vec ph) = Some ph;
  abci_metadata_roundtrip m : abci_metadata_from_slice (abci_metadata_to_vec m) = Some m;
  (** What is written as a CAR file is read back. *)
  car_reader_file b blocks : Forall (λ cb, cid_matches cb.1 cb.2 = true) blocks →
    car_reader (car_file [cid_of b] blocks) = Some ([cid_of b], Some <$> blocks);
  load_car_file b blocks : Forall (λ cb, cid_matches cb.1 cb.2 = true) blocks →
    load_car (car_file [cid_of b] blocks) = (blocks, Some [cid_of b]);
  merge_elements l k : merge l k ≡ₚ l ++ k;
  (** Opening a state tree reads blocks that its root reaches. *)
  state_tree_local s s' root :
    state_tree_error s root = None →
    (∀ c b, reaches (store_get s) is_dag_cbor decode_ipld root c → s !! c = Some b → s' !! c = Some b) →
    state_tree_error s' root = None;
}.

(** ** Facts: parts *)

Lemma list_parts_seq (l : list bytes) mf : list_parts (mkDir (map_seqZ 0 l) mf) = seqZ 0 (Z.of_nat (length l)).
Proof.
  unfold list_parts. cbn [dir_parts].
  apply (Sorted_unique Z.le); [apply Sorted_merge_sort; intros x y; lia| |].
  - apply StronglySorted_Sorted. generalize 0. induction (length l) as [|n IH]; intros z; [constructor|].
    rewrite seqZ_cons by lia. constructor.
    + replace (Z.pred (Z.of_nat (S n))) with (Z.of_nat n) by lia. apply IH.
    + apply Forall_forall. intros x Hx%elem_of_seqZ. lia.
  - rewrite merge_sort_Permutation. apply NoDup_Permutation; [apply NoDup_fst_map_to_list|apply NoDup_seqZ|].
    intros k. rewrite elem_of_seqZ, list_elem_of_fmap. split.
    + intros ([k' c] & -> & Hk%elem_of_map_to_list). apply lookup_map_seqZ_Some in Hk as [Hk0 Hk].
      apply lookup_lt_Some in Hk. cbn [fst]. lia.
    + intros Hk. destruct (lookup_lt_is_Some_2 l (Z.to_nat k)) as [c Hc]; [lia|].
      exists (k, c). split; [done|]. apply elem_of_map_to_list, lookup_map_seqZ_Some. split; [lia|].
      by rewrite Z.sub_0_r.
Qed.
Lemma parts_concat (l : list bytes) mf :
  part (mkDir (map_seqZ 0 l) mf) <$> list_parts (mkDir (map_seqZ 0 l) mf) = l.
Proof.
  rewrite list_parts_seq. apply list_eq. intros i. rewrite list_lookup_fmap.
  destruct (decide (i < length l)%nat) as [Hi|Hi].
  - rewrite lookup_seqZ_lt by lia. destruct (lookup_lt_is_Some_2 l i Hi) as [c Hc]. rewrite Hc. simpl. unfold part.
    cbn [dir_parts]. replace (map_seqZ 0 l !! (0 + Z.of_nat i)) with (Some c); [done|]. symmetry.
    apply lookup_map_seqZ_Some. split; [lia|]. rewrite Z.add_0_l, Z.sub_0_r, Nat2Z.id. done.
  - rewrite lookup_seqZ_ge by lia. rewrite lookup_ge_None_2 by lia. done.
Qed.
Lemma map_seqZ_grow (l : list bytes) k c : l !! k = Some c →
  <[Z.of_nat k := c]> (map_seqZ 0 (take k l) : gmap Z bytes) = map_seqZ 0 (take (S k) l).
Proof.
  intros Hk. rewrite (take_S_r l k c Hk), map_seqZ_snoc, length_take_le; [f_equal; lia|].
  apply lookup_lt_Some in Hk. lia.
Qed.

(** ** Facts: export and import *)

Section facts.
Context `{SnapshotLaws}.
Notation good := (λ cb : Cid * bytes, cid_matches cb.1 cb.2 = true).
Notation put_blocks := (foldl (λ (s : Store) (cb : Cid * bytes), <[cb.1 := cb.2]> s)).

Lemma put_blocks_keep (blocks : list (Cid * bytes)) : ∀ (s : Store) c b,
  Forall good blocks → cid_matches c b = true → s !! c = Some b → put_blocks s blocks !! c = Some b.
Proof.
  induction blocks as [|[c' b'] blocks IH]; intros s c b Hg Hm Hs; [done|].
  apply Forall_cons in Hg as [Hb Hg]. cbn [foldl fst snd] in *. apply IH; [done|done|].
  destruct (decide (c' = c)) as [->|]; [|by rewrite lookup_insert_ne].
  rewrite lookup_insert_eq. f_equal. by apply (cid_binding c).
Qed.
Lemma put_blocks_in (blocks : list (Cid * bytes)) : ∀ (s : Store) c b,
  Forall good blocks → (c, b) ∈ blocks → put_blocks s blocks !! c = Some b.
Proof.
  induction blocks as [|[c' b'] blocks IH]; intros s c b Hg Hin; [by apply elem_of_nil in Hin|].
  pose proof Hg as Hg0. apply Forall_cons in Hg as [Hb Hg]. apply elem_of_cons in Hin as [[= -> ->]|Hin]; cbn [foldl fst snd] in *.
  - apply put_blocks_keep; [done|done|]. by rewrite lookup_insert_eq.
  - by apply IH.
Qed.

(** The state to export: its blocks are stored under their CIDs and it opens. *)
Record exportable (rank : Cid → nat) (s : Store) (p : FvmStateParams) : Prop := {
  export_store : store_ok (store_get s) is_dag_cbor decode_ipld rank;
  export_cids : ∀ c b, s !! c = Some b → cid_matches c b = true;
  export_opens : state_tree_error s (state_root p) = None;
}.
Notation tree_reaches s p := (reaches (store_get s) is_dag_cbor decode_ipld (state_root p)).
Notation tree_visits rank s p := (visits (store_get s) is_dag_cbor decode_ipld rank (state_root p)).

Lemma store_get_found s c b : store_get s c = Found b ↔ s !! c = Some b.
Proof. unfold store_get. destruct (s !! c); naive_solver. Qed.

(** What a snapshot file holds. *)
Record snapshot_blocks (s : Store) (p : FvmStateParams) (height : Z) (blocks : list (Cid * bytes)) : Prop := {
  blocks_good : Forall good blocks;
  blocks_metadata :
    let md := car_metadata_to_vec (mkCarMetadata 1 (cid_of (block_state_to_vec (p, height)))) in (cid_of md, md) ∈ blocks;
  blocks_root : let bz := block_state_to_vec (p, height) in (cid_of bz, bz) ∈ blocks;
  blocks_tree : ∀ c b, tree_reaches s p c → s !! c = Some b → (c, b) ∈ blocks;
}.
Definition snapshot_root (p : FvmStateParams) (height : Z) : bytes :=
  car_metadata_to_vec (mkCarMetadata 1 (cid_of (block_state_to_vec (p, height)))).

Lemma write_car_spec rank s p height fuel :
  exportable rank s p → (tree_visits rank s p < fuel)%nat →
  ∃ blocks, write_car fuel s p height = Ok (car_file [cid_of (snapshot_root p height)] blocks) ∧
    snapshot_blocks s p height blocks.
Proof.
  intros [Hok Hcids _] Hfuel.
  destruct (stream_total _ _ _ rank Hok fuel [state_root p]) as [items Hs].
  { rewrite fmap_cons, sum_list_cons. simpl. lia. }
  pose proof (stream_items _ _ _ rank Hok _ _ _ Hs) as Hin.
  unfold write_car, v1_into_streamer. rewrite Hs. cbn. fold (snapshot_root p height). eexists. split; [reflexivity|].
  set (bz := block_state_to_vec (p, height)). set (md := snapshot_root p height).
  assert (merge [(cid_of md, md)] (merge items [(cid_of bz, bz)]) ≡ₚ (cid_of md, md) :: items ++ [(cid_of bz, bz)]) as Hp.
  { rewrite merge_elements. simpl. by rewrite merge_elements. }
  constructor.
  - rewrite Hp. constructor; [apply cid_of_matches|]. apply Forall_app. split.
    + apply Forall_forall. intros [c b] Hcb. apply Hin in Hcb as [_ Hb%store_get_found]. by apply Hcids.
    + constructor; [apply cid_of_matches|constructor].
  - cbn zeta. fold bz. fold md. rewrite Hp. left.
  - cbn zeta. fold bz. rewrite Hp. right. apply elem_of_app. right. left.
  - intros c b Hr Hb. rewrite Hp. right. apply elem_of_app. left. apply Hin.
    split; [|by apply store_get_found]. exists (state_root p). split; [left|done].
Qed.

Lemma read_car_spec rank s p height blocks s2 :
  exportable rank s p → snapshot_blocks s p height blocks →
  read_car (car_file [cid_of (snapshot_root p height)] blocks) s2 = (put_blocks s2 blocks, Ok (p, height)).
Proof.
  intros [_ _ Hopen] [Hg Hmd Hroot Htree]. unfold read_car. rewrite load_car_file by done. f_equal. cbn [ok_or mbind outcome_bind].
  unfold get_cbor at 1. rewrite (put_blocks_in _ _ _ _ Hg Hmd). unfold snapshot_root. rewrite car_metadata_roundtrip. cbn.
  unfold v1_from_root, get_cbor. rewrite (put_blocks_in _ _ _ _ Hg Hroot), block_state_roundtrip. cbn.
  unfold v1_new. cbn [fst]. rewrite (state_tree_local s); [done|done|]. intros c b Hr Hb.
  apply put_blocks_in; [done|]. by apply Htree.
Qed.

(** The file comes back from its parts. *)
Lemma car_split_spec max b blocks :
  Forall good blocks →
  ∃ chunks, car_split max (car_file [cid_of b] blocks) = Ok (chunks, length chunks) ∧
    concat chunks = car_file [cid_of b] blocks ∧ chunks ≠ [].
Proof.
  intros Hg. unfold car_split. rewrite car_reader_file by done. cbn [mbind outcome_bind ok_or fst snd].
  assert (omap id (Some <$> blocks) = blocks) as ->.
  { clear. induction blocks as [|cb blocks IH]; [done|]. cbn. by rewrite IH. }
  eexists. rewrite chunk_created_length. split; [reflexivity|]. split; [apply split_content|]. by rewrite split_frames.
Qed.
End facts.

(** ** State sync

    CometBFT asks a node for the chunks of a snapshot, and feeds them to another. *)

Section fetch.
Context `{SnapshotExt}.
Fixpoint fetch_chunks (hist now : Z) (a b : Node) (height : Z) (indexes : list Z)
    : Node * Node * list (outcome string ApplyResponse) :=
  match indexes with
  | [] => (a, b, [])
  | i :: indexes =>
      let '(a, chunk) := load_snapshot_chunk now a height 1 i in
      let '(b, r) := apply_snapshot_chunk hist None b i chunk in
      let '(a, b, rs) := fetch_chunks hist now a b height indexes in
      (a, b, r :: rs)
  end.
End fetch.

Section sync.
Context `{SnapshotLaws}.
Context (m : SnapshotManifest) (chunks : list bytes).

(** A node that has the snapshot. *)
Definition serves (a : Node) : Prop :=
  ∃ st pre i post mf, snap a = Some st ∧ snapshots st = pre ++ i :: post ∧
    Forall (λ j, m_height (manifest j) ≠ m_height m) pre ∧ manifest i = m ∧
    disk a !! snapshot_dir i = Some (mkDir (map_seqZ 0 chunks) mf).

Lemma access_items_found now pre i post :
  Forall (λ j, m_height (manifest j) ≠ m_height m) pre → manifest i = m →
  access_items now (m_height m) (m_version m) (pre ++ i :: post) =
    (pre ++ set_access now i :: post, Some (set_access now i)).
Proof.
  intros Hpre Hi. induction Hpre as [|j pre Hj _ IH]; cbn [app access_items].
  - by rewrite Hi, !Z.eqb_refl.
  - rewrite (proj2 (Z.eqb_neq _ _) Hj). cbn [andb]. by rewrite IH.
Qed.
Lemma load_serves now a k c :
  serves a → m_version m = 1 → m_chunks m = Z.of_nat (length chunks) → chunks !! k = Some c →
  ∃ a', load_snapshot_chunk now a (m_height m) 1 (Z.of_nat k) = (a', c) ∧ serves a' ∧ store a' = store a ∧ db a' = db a.
Proof.
  intros (st & pre & i & post & mf & Hst & Hss & Hpre & Hi & Hd) Hv Hn Hk.
  unfold load_snapshot_chunk, access_snapshot. rewrite Hst, Hss, <- Hv, (access_items_found now pre i post Hpre Hi).
  cbn [fst snd]. unfold load_chunk. cbn [manifest snapshot_dir set_access]. rewrite Hi, Hn, Hd.
  pose proof (lookup_lt_Some _ _ _ Hk) as Hlt. rewrite (proj2 (Z.leb_gt _ _)) by lia. cbn [ok_or mbind outcome_bind dir_parts].
  rewrite lookup_map_seqZ_0 by lia. rewrite Nat2Z.id, Hk. cbn [ok_or]. eexists. split; [reflexivity|].
  split; [|done]. exists (mkSnapshots (pre ++ set_access now i :: post) (latest_params st) (current_download st)), pre, (set_access now i), post, mf.
  done.
Qed.

(** A node that has the first [k] chunks. *)
Definition dl_state (st : SnapshotState) (dir : Path) (k : nat) : SnapshotState :=
  mkSnapshots (snapshots st) (latest_params st) (Some (mkDownload m dir (Z.of_nat k))).
Definition downloading (b : Node) (st : SnapshotState) (dir : Path) (k : nat) : Node :=
  mkNode (Some (dl_state st dir k))
    (<[dir := mkDir (map_seqZ 0 (take k chunks)) (Some (Parsed m))]> (disk b)) (store b) (db b).
Context (hist now : Z).
Hypothesis (Hversion : m_version m = 1) (Hchunks : m_chunks m = Z.of_nat (length chunks)).
Hypothesis (Hsmall : Z.of_nat (length chunks) < 2 ^ 32).

Lemma save_chunk_next b st dir k c :
  chunks !! k = Some c →
  save_chunk None (dl_state st dir k) (disk (downloading b st dir k)) (Z.of_nat k) c =
    if Z.of_nat (S k) =? m_chunks m then
      if bool_decide (sha256 (concat (take (S k) chunks)) = m_checksum m)
      then ((dl_state st dir (S k), disk (downloading b st dir (S k))), Ok (Some (item_new dir m)))
      else ((dl_state st dir k, disk (downloading b st dir (S k))),
            Err (WrongChecksum (m_checksum m) (sha256 (concat (take (S k) chunks)))))
    else ((dl_state st dir (S k), disk (downloading b st dir (S k))), Ok None).
Proof.
  intros Hk. pose proof (lookup_lt_Some _ _ _ Hk) as Hlt.
  assert (write_part (disk (downloading b st dir k)) dir (Z.of_nat k) c = disk (downloading b st dir (S k))) as Hw.
  { unfold write_part, downloading. cbn [disk]. rewrite alter_insert_eq. cbn [dir_parts dir_manifest].
    by rewrite (map_seqZ_grow _ _ _ Hk). }
  unfold save_chunk. cbn [current_download dl_state next_index download_dir dl_manifest].
  rewrite Z.eqb_refl. cbn [negb]. cbn zeta.
  assert (u32 (Z.of_nat k + 1) = Z.of_nat (S k)) as -> by (unfold u32; rewrite Z.mod_small; lia).
  rewrite Hw. unfold parts_checksum. unfold downloading at 1. cbn [disk]. rewrite lookup_insert_eq.
  cbn [unwrap mbind outcome_bind]. rewrite parts_concat. done.
Qed.

Lemma apply_chunk_more b st dir k c :
  chunks !! k = Some c → (S k < length chunks)%nat →
  apply_snapshot_chunk hist None (downloading b st dir k) (Z.of_nat k) c =
    (downloading b st dir (S k), Ok (mkApplyResponse ApplyAccept [])).
Proof.
  intros Hk Hlt. unfold apply_snapshot_chunk. cbn [snap downloading].
  fold (downloading b st dir k). rewrite (save_chunk_next _ _ _ _ _ Hk), Hchunks.
  by rewrite (proj2 (Z.eqb_neq _ _)) by lia.
Qed.

(** The last chunk brings the state in. *)
Lemma apply_chunk_last rank s p height blocks b st dir k c old :
  exportable rank s p → snapshot_blocks s p height blocks →
  concat chunks = car_file [cid_of (snapshot_root p height)] blocks →
  m_checksum m = sha256 (concat chunks) → m_height m = height → m_params m = p →
  chunks !! k = Some c → length chunks = S k → db_state (db b) = Some old →
  ∃ b', apply_snapshot_chunk hist None (downloading b st dir k) (Z.of_nat k) c =
      (b', Ok (mkApplyResponse ApplyAccept [])) ∧
    db b' = set_committed_state hist (db b) (mkAppState height (oldest_state_height old) p) ∧
    (∀ c b0, reaches (store_get s) is_dag_cbor decode_ipld (state_root p) c → s !! c = Some b0 → store b' !! c = Some b0).
Proof.
  intros Hex Hbl Hcat Hsum Hh Hp Hk Hlen Hold. unfold apply_snapshot_chunk. cbn [snap downloading].
  fold (downloading b st dir k). rewrite (save_chunk_next _ _ _ _ _ Hk), Hchunks, Hlen, Z.eqb_refl.
  rewrite (take_ge chunks) by lia. rewrite bool_decide_true by done.
  unfold import. cbn [snapshot_dir item_new manifest]. unfold downloading at 1. cbn [disk]. rewrite lookup_insert_eq, parts_concat, (take_ge chunks) by lia.
  rewrite Hcat, (read_car_spec rank s p height blocks) by done. cbn [mbind outcome_bind fst snd].
  rewrite Hh, Hp, Z.eqb_refl, bool_decide_false by (intros Hn; by apply Hn). cbn [negb].
  unfold import_snapshot, committed_state. cbn [db set_snap downloading store]. rewrite Hold. cbn [ok_or mbind outcome_bind].
  eexists. split; [reflexivity|]. split; [done|]. intros c' b' Hr Hb. cbn [store].
  destruct Hbl as [Hg _ _ Htree]. apply put_blocks_in; [done|]. by apply Htree.
Qed.

(** All the remaining chunks. *)
Lemma fetch_rest rank s p height blocks b st dir old :
  exportable rank s p → snapshot_blocks s p height blocks →
  concat chunks = car_file [cid_of (snapshot_root p height)] blocks →
  m_checksum m = sha256 (concat chunks) → m_height m = height → m_params m = p → db_state (db b) = Some old →
  ∀ n k a, length chunks = (k + S n)%nat → serves a →
  ∃ a' b' rs, fetch_chunks hist now a (downloading b st dir k) height (seqZ (Z.of_nat k) (Z.of_nat (S n))) = (a', b', rs) ∧
    Forall (λ r, r = Ok (mkApplyResponse ApplyAccept [])) rs ∧
    db b' = set_committed_state hist (db b) (mkAppState height (oldest_state_height old) p) ∧
    (∀ c b0, reaches (store_get s) is_dag_cbor decode_ipld (state_root p) c → s !! c = Some b0 → store b' !! c = Some b0).
Proof.
  intros Hex Hbl Hcat Hsum Hh Hp Hold. induction n as [|n IH]; intros k a Hn Ha.
  all: destruct (lookup_lt_is_Some_2 chunks k) as [c Hc]; [lia|].
  all: destruct (load_serves now a k c Ha Hversion Hchunks Hc) as (a1 & Hl & Ha1 & _ & _).
  all: rewrite seqZ_cons by lia; cbn [fetch_chunks]; rewrite <- Hh, Hl.
  - destruct (apply_chunk_last rank s p height blocks b st dir k c old) as (b' & -> & Hdb & Htree); try done; [lia|].
    exists a1, b', [Ok (mkApplyResponse ApplyAccept [])]. cbn. rewrite Hh. split; [done|]. split; [by repeat constructor|done].
  - rewrite apply_chunk_more by (done || lia).
    destruct (IH (S k) a1) as (a' & b' & rs & Hf & Hrs & Hdb & Htree); [lia|done|].
    rewrite Hh. replace (Z.succ (Z.of_nat k)) with (Z.of_nat (S k)) by lia. replace (Z.pred (Z.of_nat (S (S n)))) with (Z.of_nat (S n)) by lia.
    rewrite Hf. exists a', b', (Ok (mkApplyResponse ApplyAccept []) :: rs). split; [done|]. split; [by constructor|done].
Qed.
End sync.

Section theorems.
Context `{SnapshotLaws}.

Lemma create_spec rank params s disk0 p height fuel :
  exportable rank s p → (visits (store_get s) is_dag_cbor decode_ipld rank (state_root p) < fuel)%nat →
  ∃ blocks chunks, snapshot_blocks s p height blocks ∧
    concat chunks = car_file [cid_of (snapshot_root p height)] blocks ∧ chunks ≠ [] ∧
    let m := mkManifest height (Z.of_nat (length (concat chunks))) (u32 (Z.of_nat (length chunks))) (sha256 (concat chunks)) p 1 in
    create_snapshot params (mkCreateIo None true None) fuel s disk0 height p =
      (<[SnapshotPath height := mkDir (map_seqZ 0 chunks) (Some (Parsed m))]> disk0, Ok (item_new (SnapshotPath height) m)).
Proof.
  intros Hex Hf. destruct (write_car_spec rank s p height fuel Hex Hf) as (blocks & Hw & Hbl).
  destruct (car_split_spec (chunk_size params) (snapshot_root p height) blocks) as (chunks & Hs & Hcat & Hne); [apply Hbl|].
  exists blocks, chunks. split; [done|]. split; [done|]. split; [done|]. cbn zeta.
  unfold create_snapshot, prepare_snapshot, v1_new. destruct Hex as [_ _ ->]. cbn [mbind outcome_bind]. rewrite Hw.
  cbn [mbind outcome_bind io_prepare]. rewrite Hs. cbn [mbind outcome_bind fst snd]. rewrite Hcat. done.
Qed.

(** The manifest goes through the ABCI types. *)
Lemma offer_of_item item :
  m_height (manifest item) <= I64_MAX → length (m_checksum (manifest item)) = 32%nat →
  ∃ offer, to_snapshot item = Ok offer ∧
    from_snapshot (mkOffer offer (to_app_hash (m_params (manifest item)))) = Ok (manifest item).
Proof.
  intros Hh Hl. unfold to_snapshot. rewrite (proj2 (Z.ltb_ge _ _)) by lia. eexists. split; [reflexivity|].
  unfold from_snapshot. cbn [offer_snapshot_of offer_app_hash abci_metadata]. rewrite abci_metadata_roundtrip.
  cbn [ok_or mbind outcome_bind md_params]. rewrite bool_decide_false by (intros Hn; by apply Hn).
  cbn [abci_hash]. unfold hash_try_from. rewrite Hl. cbn [Nat.eqb orb ok_or mbind outcome_bind]. by destruct (manifest item).
Qed.

(** C8. State sync works end to end: when a node has a state whose blocks are stored
    under their CIDs, the manager makes a snapshot of it, and a node that is offered
    this snapshot accepts it, accepts each chunk the first node serves for it, and
    with the last one commits the state at the height of the snapshot and has every
    block that the state root reaches.  The first node has no snapshot at that height yet,
    the snapshot has fewer than 2{^32} parts, and no file fails to be read or written. *)
Theorem state_sync rank params hist now fuel (a b : Node) sta stb p height name old :
  snap a = Some sta → snap b = Some stb → db_state (db b) = Some old → height <= I64_MAX →
  exportable rank (store a) p →
  (visits (store_get (store a)) is_dag_cbor decode_ipld rank (state_root p) < fuel)%nat →
  Forall (λ i, m_height (manifest i) ≠ height) (snapshots sta) →
  ∃ d item, create_snapshot params (mkCreateIo None true None) fuel (store a) (disk a) height p = (d, Ok item) ∧
    ∃ offer, to_snapshot item = Ok offer ∧
    (∀ parts, dir_parts <$> d !! snapshot_dir item = Some parts → Z.of_nat (size parts) < 2 ^ 32 →
      ∃ b1, offer_snapshot (mkOfferIo (inr name) None None) b (mkOffer offer (to_app_hash p)) = (b1, Ok OfferAccept) ∧
        let a1 := set_snap a (mkSnapshots (snapshots sta ++ [item]) (latest_params sta) (current_download sta)) d in
        ∃ a' b' rs, fetch_chunks hist now a1 b1 height (seqZ 0 (abci_chunks offer)) = (a', b', rs) ∧
          Forall (λ r, r = Ok (mkApplyResponse ApplyAccept [])) rs ∧
          db b' = set_committed_state hist (db b) (mkAppState height (oldest_state_height old) p) ∧
          ∀ c blk, reaches (store_get (store a)) is_dag_cbor decode_ipld (state_root p) c →
            store a !! c = Some blk → store b' !! c = Some blk).
Proof.
  intros Hsa Hsb Hold Hh Hex Hf Hfresh.
  destruct (create_spec rank params (store a) (disk a) p height fuel Hex Hf) as (blocks & chunks & Hbl & Hcat & Hne & Hc).
  cbn zeta in Hc. set (m := mkManifest _ _ _ _ _ _) in Hc. eexists _, _. split; [exact Hc|].
  destruct (offer_of_item (item_new (SnapshotPath height) m)) as (offer & Ho & Hfrom); [done|apply sha256_length|].
  exists offer. split; [exact Ho|]. cbn [snapshot_dir item_new]. rewrite lookup_insert_eq. cbn [fmap option_fmap option_map dir_parts].
  intros parts [= <-] Hsize. cbn [manifest item_new] in Hfrom.
  assert (size (map_seqZ 0 chunks : gmap Z bytes) = length chunks) as Hlen.
  { pose proof (f_equal length (list_parts_seq chunks None)) as Hl. unfold list_parts in Hl.
    rewrite merge_sort_Permutation, length_fmap, length_map_to_list, length_seqZ in Hl. cbn [dir_parts] in Hl. lia. }
  rewrite Hlen in Hsize.
  assert (u32 (Z.of_nat (length chunks)) = Z.of_nat (length chunks)) as Hu by (unfold u32; rewrite Z.mod_small; lia).
  set (b0 := mkNode (snap b) (drop_download stb (disk b)) (store b) (db b)).
  exists (downloading m chunks b0 stb (DownloadPath name) 0). split.
  { unfold offer_snapshot. rewrite Hsb. replace p with (m_params m) by done. rewrite Hfrom. done. }
  assert (abci_chunks offer = Z.of_nat (S (pred (length chunks)))) as ->.
  { unfold to_snapshot in Ho. cbn [manifest item_new m_height] in Ho. rewrite (proj2 (Z.ltb_ge _ _)) in Ho by done.
    injection Ho as <-. cbn [abci_chunks m_chunks m]. rewrite Hu. destruct chunks; [done|simpl; lia]. }
  cbn zeta. change 0 with (Z.of_nat 0).
  apply (fetch_rest m chunks hist now eq_refl Hu Hsize rank (store a) p height blocks b0 stb (DownloadPath name) old Hex Hbl Hcat eq_refl eq_refl eq_refl Hold).
  - destruct chunks; [done|simpl; lia].
  - eexists _, (snapshots sta), _, [], _. split; [reflexivity|]. split; [reflexivity|]. split; [exact Hfresh|]. split; [reflexivity|].
    cbn [disk set_snap snapshot_dir item_new]. apply lookup_insert_eq.
Qed.
End theorems.

(** ** Any peers

    The calls CometBFT makes while it syncs, with whatever peers send. *)

Inductive SyncEvent :=
| EvOffer (io : OfferIo) (request : OfferRequest)
| EvChunk (io : option (string * bytes)) (index : Z) (chunk : bytes)
| EvLoad (now height format chunk : Z).

Section safety.
Context `{SnapshotExt} (hist : Z).

Definition sync_event (n : Node) (e : SyncEvent) : Node :=
  match e with
  | EvOffer io request => (offer_snapshot io n request).1
  | EvChunk io index chunk => (apply_snapshot_chunk hist io n index chunk).1
  | EvLoad now height format chunk => (load_snapshot_chunk now n height format chunk).1
  end.
Definition sync_events (n : Node) (es : list SyncEvent) : Node := foldl sync_event n es.

(** The state of [n] was imported from a file with the checksum of the offer. *)
Definition adopted (request : OfferRequest) (d : Db) : Prop :=
  ∃ s car blocks, db_state d = Some s ∧ to_app_hash (state_params s) = offer_app_hash request ∧
    block_height s = abci_height (offer_snapshot_of request) ∧ sha256 car = abci_hash (offer_snapshot_of request) ∧
    (read_car car blocks).2 = Ok (state_params s, block_height s).
Definition download_offered (requests : OfferRequest → Prop) (n : Node) : Prop :=
  ∀ st cd, snap n = Some st → current_download st = Some cd → ∃ r, requests r ∧ from_snapshot r = Ok (dl_manifest cd).

Lemma set_committed_state_head d s :
  ∃ s', db_state (set_committed_state hist d s) = Some s' ∧ block_height s' = block_height s ∧ state_params s' = state_params s.
Proof. unfold set_committed_state. case_match; [case_match|]; eexists; done. Qed.

Lemma from_snapshot_Ok r m :
  from_snapshot r = Ok m →
  to_app_hash (m_params m) = offer_app_hash r ∧ m_height m = abci_height (offer_snapshot_of r) ∧
  m_checksum m = abci_hash (offer_snapshot_of r).
Proof.
  unfold from_snapshot. intros (md & Hmd & Hr)%bind_Ok. destruct (bool_decide _) eqn:Hb; [done|].
  apply bind_Ok in Hr as (cs & Hcs & [= <-]). apply bool_decide_eq_false in Hb. split; [|split]; [|done|].
  - cbn [m_params]. by destruct (decide (to_app_hash (md_params md) = offer_app_hash r)).
  - unfold hash_try_from in Hcs. destruct (_ || _); [by injection Hcs as <-|done].
Qed.

Lemma import_Ok d item s s' ph :
  import d item s = (s', Ok ph) →
  ph = (m_params (manifest item), m_height (manifest item)) ∧
  ∃ dir, d !! snapshot_dir item = Some dir ∧ (read_car (concat (part dir <$> list_parts dir)) s).2 = Ok ph.
Proof.
  unfold import. destruct (d !! snapshot_dir item) as [dir|] eqn:Hd; [|done]. destruct (read_car _ s) as [s2 r] eqn:Hr.
  intros [= _ Hv]. apply bind_Ok in Hv as (snap & -> & Hv). destruct (snap.2 =? _) eqn:Hh; [|done]. cbn [negb] in Hv.
  destruct (bool_decide _) eqn:Hp; [done|]. injection Hv as <-. apply Z.eqb_eq in Hh. apply bool_decide_eq_false in Hp.
  apply dec_stable in Hp. split; [destruct snap; simpl in *; congruence|]. exists dir. split; [done|]. by rewrite Hr.
Qed.

(** What a chunk can do to the download and to the committed state. *)
Lemma apply_chunk_db io n index chunk requests :
  download_offered requests n →
  download_offered requests (apply_snapshot_chunk hist io n index chunk).1 ∧
  (db (apply_snapshot_chunk hist io n index chunk).1 = db n ∨
   ∃ r, requests r ∧ adopted r (db (apply_snapshot_chunk hist io n index chunk).1)).
Proof.
  intros Hoff. unfold apply_snapshot_chunk. destruct (snap n) as [st|] eqn:Hst; [|by auto].
  unfold save_chunk. destruct (current_download st) as [cd|] eqn:Hcd.
  2: { cbn [fst]. split; [|by left]. intros st' cd' [= <-] Hc. congruence. }
  destruct (Hoff st cd Hst Hcd) as (r & Hr & Hm).
  assert (∀ st' d s d', current_download st' = Some cd ∨ (∃ k, current_download st' = Some (mkDownload (dl_manifest cd) (download_dir cd) k)) →
    download_offered requests (mkNode (Some st') d s d')) as Hkeep.
  { intros st' d s d' Hc st2 cd2 [= <-] Hc2. exists r. split; [done|]. destruct Hc as [Hc|[k Hc]]; rewrite Hc in Hc2; by injection Hc2 as <-. }
  destruct (negb _); [cbn [fst]; split; [apply Hkeep; by left|by left]|].
  destruct io as [[e partial]|]; [cbn [fst]; split; [apply Hkeep; by left|by left]|].
  cbn zeta. destruct (u32 _ =? _); [|cbn [fst]; split; [apply Hkeep; right; by eexists|by left]].
  unfold parts_checksum. destruct (write_part _ _ _ _ !! download_dir cd) as [dir|] eqn:Hdir.
  2: { cbn [unwrap mbind outcome_bind fst]. split; [apply Hkeep; by left|by left]. }
  cbn [unwrap mbind outcome_bind]. destruct (bool_decide _) eqn:Hsum.
  2: { cbn [fst]. split; [apply Hkeep; by left|by left]. }
  apply bool_decide_eq_true in Hsum. destruct (import _ _ _) as [s imported] eqn:Himp.
  destruct imported as [ph|e| |]; try (cbn [fst]; split; [apply Hkeep; right; by eexists|by left]).
  unfold import_snapshot. destruct (committed_state _) as [old|e| |]; cbn [mbind outcome_bind];
    try (cbn [fst]; split; [apply Hkeep; right; by eexists|by left]).
  cbn [fst]. split; [apply Hkeep; right; by eexists|]. right. exists r. split; [done|].
  apply import_Ok in Himp as [Hph (dir' & Hd' & Hread)]. cbn [snapshot_dir item_new manifest set_snap store] in *.
  rewrite Hdir in Hd'. injection Hd' as <-. apply from_snapshot_Ok in Hm as (Ha & Hh & Hc).
  cbn [db]. match goal with |- adopted _ (set_committed_state _ ?d ?st0) => destruct (set_committed_state_head d st0) as (s' & Hs' & Hb & Hp) end.
  cbn [block_height state_params] in Hb, Hp. exists s', (concat (part dir <$> list_parts dir)), (store n).
  rewrite Hb, Hp. split_and!; [done|done|done|congruence|congruence].
Qed.

Lemma offer_snapshot_db io n r requests :
  download_offered requests n → requests r →
  download_offered requests (offer_snapshot io n r).1 ∧ db (offer_snapshot io n r).1 = db n.
Proof.
  intros Hoff Hr. unfold offer_snapshot. destruct (snap n) as [st|] eqn:Hst; [|by auto].
  destruct (from_snapshot r) as [m|e| |] eqn:Hm; try (by auto).
  unfold client_offer_snapshot.
  assert (∀ d, download_offered requests (set_snap n st d) ∧ db (set_snap n st d) = db n) as Hkeep.
  { intros d. split; [|done]. intros st' cd [= <-] Hcd. by apply (Hoff st). }
  destruct (negb _); [apply Hkeep|]. destruct (io_tempdir io); [apply Hkeep|].
  destruct (io_parts_dir io), (io_manifest io); try apply Hkeep.
  split; [|done]. intros st' cd [= <-] [= <-]. by exists r.
Qed.
Lemma load_chunk_db now n height format chunk requests :
  download_offered requests n →
  download_offered requests (load_snapshot_chunk now n height format chunk).1 ∧
  db (load_snapshot_chunk now n height format chunk).1 = db n.
Proof.
  intros Hoff. unfold load_snapshot_chunk. destruct (snap n) as [st|] eqn:Hst; [|by auto].
  destruct (access_snapshot now st height format) as [st' item] eqn:Ha. split; [|done].
  intros st2 cd [= <-] Hcd. apply (Hoff st); [done|]. unfold access_snapshot in Ha.
  by destruct (_ : _ * option SnapshotItem).2; injection Ha as <- _.
Qed.

(** C29. A node that syncs only adopts states that CometBFT vouched for: whatever peers
    offer and send, in any order and with any errors of the file system, the committed
    state is the one from before, or its parameters have the application hash of an
    offer that was made, its height is the height of that offer, and it was read from
    a file whose checksum is the one of the offer. *)
Theorem synced_state_was_offered n es st :
  snap n = Some st → current_download st = None →
  db (sync_events n es) = db n ∨
  ∃ io r, EvOffer io r ∈ es ∧ adopted r (db (sync_events n es)).
Proof.
  intros Hst Hcd. set (requests r := ∃ io, EvOffer io r ∈ es).
  assert (∀ es' n', (∀ e, e ∈ es' → e ∈ es) → download_offered requests n' →
    db (sync_events n' es') = db n' ∨ ∃ r, requests r ∧ adopted r (db (sync_events n' es'))) as Hind.
  { induction es' as [|e es' IH]; intros n' Hsub Hoff; [by left|].
    assert (∀ e', e' ∈ es' → e' ∈ es) as Hsub' by (intros e' He'; apply Hsub; by right).
    cbn [sync_events foldl]. fold (sync_events (sync_event n' e) es').
    destruct e as [io r|io index chunk|now height format chunk]; cbn [sync_event].
    - destruct (offer_snapshot_db io n' r requests Hoff) as [Hoff' <-]; [exists io; apply Hsub; left|]. by apply IH.
    - destruct (apply_chunk_db io n' index chunk requests Hoff) as [Hoff' Hdb].
      destruct (IH _ Hsub' Hoff') as [->|?]; [|by right]. done.
    - destruct (load_chunk_db now n' height format chunk requests Hoff) as [Hoff' <-]. by apply IH. }
  destruct (Hind es n) as [?|(r & [io Hio] & Ha)]; [done| |by left|].
  - intros st' cd Hst' Hcd'. congruence.
  - right. by exists io, r.
Qed.
End safety.

(** ** The history of snapshots *)

(** A peer asked for it not longer than [hold] ago. *)
Definition held (hold now : Z) (i : SnapshotItem) : Prop := last_access i <= now ∧ now - last_access i <= hold.

Lemma prune_items_spec hist hold now items :
  0 <= hist →
  let r := prune_items hist hold now items in
  items = r.1 ++ r.2 ∧ Forall (λ i, ¬ held hold now i) r.1 ∧
  (Z.of_nat (length r.2) <= hist ∨ ∃ i rest, r.2 = i :: rest ∧ held hold now i) ∧
  (r.1 = [] ∨ hist <= Z.of_nat (length r.2)).
Proof.
  intros Hhist. induction items as [|i items IH]; cbn [prune_items]; cbn zeta in *.
  { split_and!; [done|constructor|left; simpl; lia|by left]. }
  destruct (Z.leb_spec (Z.of_nat (length (i :: items))) hist) as [Hle|Hgt];
    [split_and!; [done|constructor|by left|by left]|].
  destruct ((last_access i <=? now) && (now - last_access i <=? hold)) eqn:Hheld.
  { split_and!; [done|constructor| |by left]. right. exists i, items. unfold held.
    apply andb_prop in Hheld as [?%Z.leb_le ?%Z.leb_le]. done. }
  destruct IH as (IH1 & IH2 & IH3 & IH4). set (r := prune_items hist hold now items) in *. cbn [fst snd]. split_and!.
  - cbn [app]. by f_equal.
  - constructor; [|done]. intros [Ha%Z.leb_le Hb%Z.leb_le]. by rewrite Ha, Hb in Hheld.
  - done.
  - right. destruct IH4 as [Hnil|]; [|done]. rewrite Hnil in IH1. cbn [app] in IH1. rewrite <- IH1.
    cbn [length] in *. lia.
Qed.

Lemma foldl_delete_lookup (items : list SnapshotItem) : ∀ (d : Disk) p,
  foldl (λ d i, delete (snapshot_dir i) d) d items !! p =
    if decide (p ∈ snapshot_dir <$> items) then None else d !! p.
Proof.
  induction items as [|i items IH]; intros d p; [done|]. cbn [foldl]. rewrite IH, fmap_cons.
  destruct (decide (snapshot_dir i = p)) as [<-|Hne].
  - rewrite lookup_delete_eq. repeat case_decide; done || (exfalso; set_solver).
  - rewrite lookup_delete_ne by done. repeat case_decide; done || (exfalso; set_solver).
Qed.

(** The snapshots in memory are those on disk, and sorted by height. *)
Record listed (st : SnapshotState) (disk : Disk) : Prop := {
  listed_on_disk : ∀ i, i ∈ snapshots st → snapshot_dir i = SnapshotPath (m_height (manifest i)) ∧
    ∃ d, disk !! snapshot_dir i = Some d ∧ dir_manifest d = Some (Parsed (manifest i));
  listed_all : ∀ h d, disk !! SnapshotPath h = Some d → ∃ i, i ∈ snapshots st ∧ m_height (manifest i) = h;
  listed_sorted : StronglySorted (λ i j, m_height (manifest i) < m_height (manifest j)) (snapshots st);
}.
Lemma listed_suffix (st : SnapshotState) disk removed kept lp dl :
  listed st disk → snapshots st = removed ++ kept →
  listed (mkSnapshots kept lp dl) (foldl (λ d i, delete (snapshot_dir i) d) disk removed).
Proof.
  intros [Hd Hall Hs] Hss. rewrite Hss in Hs. pose proof (λ i j, StronglySorted_app_1_elem_of _ _ _ i j Hs) as Hlt.
  assert (∀ i j, i ∈ removed → j ∈ kept → snapshot_dir i ≠ snapshot_dir j) as Hne.
  { intros i j Hi Hj Heq. specialize (Hlt i j Hi Hj).
    destruct (Hd i) as [Hdi _]; [rewrite Hss; set_solver|]. destruct (Hd j) as [Hdj _]; [rewrite Hss; set_solver|].
    rewrite Hdi, Hdj in Heq. injection Heq. simpl in Hlt. lia. }
  constructor; cbn [snapshots].
  - intros i Hi. destruct (Hd i) as (Hdi & d & Hdd & Hm); [rewrite Hss; set_solver|]. split; [done|]. exists d. split; [|done].
    rewrite foldl_delete_lookup, decide_False; [done|]. intros (j & Hj & Hjr)%list_elem_of_fmap. by apply (Hne j i).
  - intros h d. rewrite foldl_delete_lookup. case_decide as Hin; [done|]. intros Hh. destruct (Hall h d Hh) as (i & Hi & Hih).
    exists i. split; [|done]. rewrite Hss in Hi. apply elem_of_app in Hi as [Hi|Hi]; [|done]. destruct Hin.
    apply list_elem_of_fmap. exists i. split; [|done]. destruct (Hd i) as [-> _]; [rewrite Hss; set_solver|]. by rewrite Hih.
  - by apply StronglySorted_app_1_r in Hs.
Qed.
Lemma listed_snoc st (disk : Disk) item d lp dl :
  listed st disk → (∀ i, i ∈ snapshots st → m_height (manifest i) < m_height (manifest item)) →
  snapshot_dir item = SnapshotPath (m_height (manifest item)) → dir_manifest d = Some (Parsed (manifest item)) →
  listed (mkSnapshots (snapshots st ++ [item]) lp dl) (<[snapshot_dir item := d]> disk).
Proof.
  intros [Hd Hall Hs] Hlt Hdir Hm. constructor; cbn [snapshots].
  - intros i [Hi| ->%list_elem_of_singleton]%elem_of_app; [|split; [done|]; exists d; by rewrite lookup_insert_eq].
    destruct (Hd i Hi) as (Hdi & d' & Hdd & Hmi). split; [done|]. exists d'. split; [|done].
    rewrite lookup_insert_ne; [done|]. rewrite Hdir, Hdi. intros [= Heq]. specialize (Hlt i Hi). lia.
  - intros h d' Hh. destruct (decide (snapshot_dir item = SnapshotPath h)) as [Heq|Hne].
    + exists item. split; [set_solver|]. rewrite Hdir in Heq. by injection Heq.
    + rewrite lookup_insert_ne in Hh by done. destruct (Hall h d' Hh) as (i & Hi & Hih). exists i. set_solver.
  - apply StronglySorted_app_2; [|done|by repeat constructor]. intros i j Hi ->%list_elem_of_singleton. by apply Hlt.
Qed.

Lemma omap_NoDup {A B K} (f : A → option B) (key : A → K) (key' : B → K) (l : list A) :
  (∀ x y, f x = Some y → key' y = key x) → NoDup (key <$> l) → NoDup (omap f l).
Proof.
  intros Hf. induction l as [|x l IH]; intros Hn; [constructor|]. rewrite fmap_cons in Hn. apply NoDup_cons in Hn as [Hx Hn].
  cbn. destruct (f x) as [y|] eqn:Hy; [|by apply IH]. constructor; [|by apply IH].
  intros (x' & Hx' & Hy')%list_elem_of_omap. apply Hx. apply list_elem_of_fmap. exists x'. split; [|done].
  by rewrite <- (Hf x y Hy), (Hf x' y Hy').
Qed.
Lemma heights_NoDup (l : list SnapshotItem) :
  StronglySorted (λ i j, m_height (manifest i) < m_height (manifest j)) l →
  NoDup ((λ i, m_height (manifest i)) <$> l).
Proof.
  induction 1 as [|i l _ IH Hi]; [constructor|]. rewrite fmap_cons. constructor; [|done].
  intros (j & Hj & Hin)%list_elem_of_fmap. rewrite Forall_forall in Hi. specialize (Hi j Hin). simpl in *. lia.
Qed.

(** A restart finds what was listed. *)
Definition reset_access (i : SnapshotItem) : SnapshotItem := item_new (snapshot_dir i) (manifest i).
Lemma listed_restart st (disk : Disk) : listed st disk → list_manifests disk = reset_access <$> snapshots st.
Proof.
  intros [Hd Hall Hs]. unfold list_manifests. set (f := λ pd : Path * Dir, _).
  assert (∀ x, x ∈ omap f (map_to_list disk) ↔ x ∈ reset_access <$> snapshots st) as Hin.
  { intros x. rewrite list_elem_of_omap, list_elem_of_fmap. split.
    - intros ([p d] & Hp%elem_of_map_to_list & Hx). unfold f in Hx. cbn [fst snd] in Hx. destruct p as [h|]; [|done].
      destruct (Hall h d Hp) as (i & Hi & Hih). destruct (Hd i Hi) as (Hdi & d' & Hdd & Hm).
      rewrite Hdi, Hih, Hp in Hdd. injection Hdd as <-. rewrite Hm in Hx. injection Hx as <-. exists i.
      unfold reset_access. by rewrite Hdi, Hih.
    - intros (i & -> & Hi). destruct (Hd i Hi) as (Hdi & d & Hdd & Hm). exists (snapshot_dir i, d).
      split; [by apply elem_of_map_to_list|]. unfold f, reset_access. cbn [fst snd]. by rewrite Hm, Hdi. }
  assert (Transitive height_le) by (intros i j k; unfold height_le; lia).
  apply (Sorted_unique_strong height_le); [intros x1 x2 H1 H2 Ha Hb| | |].
  - rewrite merge_sort_Permutation in H1. apply Hin, list_elem_of_fmap in H1 as (i & -> & Hi).
    apply list_elem_of_fmap in H2 as (j & -> & Hj). destruct (Hd i Hi) as (Hdi & d & Hdd & Hm), (Hd j Hj) as (Hdj & d' & Hdd' & Hm').
    assert (m_height (manifest i) = m_height (manifest j)) as Heq by (unfold height_le in *; cbn in *; lia).
    rewrite Hdi, Heq, <- Hdj, Hdd' in Hdd. injection Hdd as ->. rewrite Hm in Hm'. injection Hm' as Hmm.
    unfold reset_access. by rewrite Hdi, Hdj, Hmm.
  - apply Sorted_merge_sort. intros i j. unfold height_le. lia.
  - apply StronglySorted_Sorted. eapply StronglySorted_fmap; [|exact Hs]. intros i j. unfold height_le. cbn. lia.
  - rewrite merge_sort_Permutation. apply NoDup_Permutation; [| |done].
    + apply (omap_NoDup f fst snapshot_dir); [|apply NoDup_fst_map_to_list].
      intros [p d] y. unfold f. cbn [fst snd]. destruct p, (dir_manifest d) as [[m|]|]; try done. by intros [= <-].
    + apply (NoDup_fmap_1 (λ i, m_height (manifest i))). rewrite <- list_fmap_compose. by apply heights_NoDup.
Qed.

Section manager_theorems.
Context `{SnapshotExt}.

(** The new snapshot, if there is one, and what becomes of the directories. *)
Lemma create_listed params prep fuel s st disk height p disk' r lp dl :
  listed st disk → (∀ i, i ∈ snapshots st → m_height (manifest i) < height) →
  create_snapshot params (mkCreateIo prep true None) fuel s disk height p = (disk', r) →
  match r with
  | Ok item => m_height (manifest item) = height ∧ last_access item = 0 ∧
      listed (mkSnapshots (snapshots st ++ [item]) lp dl) disk'
  | _ => disk' = disk
  end.
Proof.
  intros Hl Hlt. unfold create_snapshot. destruct (prepare_snapshot _ _ _ _ _ _) as [[m d]|e| |] eqn:Hp; try (by intros [= <- <-]).
  cbn. intros [= <- <-]. unfold prepare_snapshot in Hp.
  apply bind_Ok in Hp as (_ & _ & Hp). apply bind_Ok in Hp as (car & _ & Hp). apply bind_Ok in Hp as (_ & _ & Hp).
  apply bind_Ok in Hp as (chunks & _ & [= <- <-]). cbn [manifest m_height last_access item_new]. split; [done|]. split; [done|].
  by apply (listed_snoc st disk (item_new (SnapshotPath height) _)).
Qed.

(** The history of snapshots: a turn of the manager at a new height keeps the
    snapshots in memory those on disk, sorted by height, so that a restart finds the
    same; it lists at most one new snapshot, of that height; and it removes the
    oldest first, none that a peer asked for within the hold, and leaves no more than
    the history size unless the oldest that is left is held. *)
Theorem snapshot_history params prep fuel now s mgr st disk mgr' st' disk' p height :
  hist_size params ≠ 0%nat → listed st disk → latest_params st = Some (p, height) →
  (∀ i, i ∈ snapshots st → m_height (manifest i) < height) →
  manager_turn params (mkCreateIo prep true None) fuel now s mgr st disk = Ok (mgr', st', disk') →
  listed st' disk' ∧
  snapshots (manager_new disk').2 = reset_access <$> snapshots st' ∧
  ∃ made removed, snapshots st ++ made = removed ++ snapshots st' ∧
    (made = [] ∨ ∃ item, made = [item] ∧ m_height (manifest item) = height ∧ last_access item = 0) ∧
    Forall (λ i, ¬ held (last_access_hold params) now i) removed ∧
    ((length (snapshots st') <= hist_size params)%nat ∨
     ∃ i rest, snapshots st' = i :: rest ∧ held (last_access_hold params) now i).
Proof.
  intros Hhist Hl Hlp Hlt Hturn. unfold manager_turn in Hturn. destruct (is_syncing mgr); [done|]. rewrite Hlp in Hturn.
  destruct (bool_decide _); [done|]. destruct (create_snapshot _ _ _ _ _ _ _) as [disk1 r] eqn:Hc.
  pose proof (create_listed _ _ _ _ _ _ _ _ _ _ (Some (p, height)) (current_download st) Hl Hlt Hc) as Hr.
  apply bind_Ok in Hturn as (st1 & Hst1 & Hturn).
  assert (listed st1 disk1 ∧ ∃ made, snapshots st1 = snapshots st ++ made ∧
    (made = [] ∨ ∃ item, made = [item] ∧ m_height (manifest item) = height ∧ last_access item = 0)) as (Hl1 & made & Hs1 & Hmade).
  { destruct r as [item|e| |]; [|..|]; try done; injection Hst1 as <-.
    - destruct Hr as (Hh & Ha & Hr). split; [done|]. exists [item]. split; [done|]. right. by exists item.
    - subst disk1. split; [done|]. exists []. split; [by rewrite app_nil_r|by left]. }
  unfold prune_history in Hturn. rewrite (proj2 (Nat.eqb_neq _ _) Hhist) in Hturn. injection Hturn as _ <- <-.
  destruct (prune_items_spec (Z.of_nat (hist_size params)) (last_access_hold params) now (snapshots st1)) as (Hsplit & Hrem & Hlen & _); [lia|].
  set (q := prune_items _ _ _ _) in *.
  assert (listed (mkSnapshots q.2 (latest_params st1) (current_download st1)) (foldl (λ d i, delete (snapshot_dir i) d) disk1 q.1)) as Hl2.
  { by apply (listed_suffix st1). }
  split; [exact Hl2|]. split; [exact (listed_restart _ _ Hl2)|].
  exists made, q.1. split; [by rewrite <- Hs1|]. split; [done|]. split; [done|]. destruct Hlen as [?|?]; [left; cbn [snapshots]; lia|by right].
Qed.
End manager_theorems.

(** ** Witnesses

    A block is its own CID; a block that starts with 1 links to the block after it. *)

Definition toy_params (p : FvmStateParams) : bytes :=
  timestamp p :: network_version p :: sp_base_fee p :: sp_circ_supply p :: sp_chain_id p :: sp_power_scale p ::
  sp_app_version p :: state_root p.
Definition toy_params_of (b : bytes) : option FvmStateParams :=
  match b with
  | t :: nv :: fee :: circ :: chain :: scale :: version :: root =>
      Some (mkStateParams root t nv fee circ chain scale version)
  | _ => None
  end.
Definition toy_head {A B} (f : Z → A → B) (parse : bytes → option A) (b : bytes) : option B :=
  match b with x :: b => f x <$> parse b | [] => None end.
Fixpoint toy_blocks (fuel : nat) (b : bytes) : list (Cid * bytes) :=
  match fuel, b with
  | S fuel, lc :: ld :: b =>
      let lc := Z.to_nat lc in let ld := Z.to_nat ld in
      (take lc b, take ld (drop lc b)) :: toy_blocks fuel (drop ld (drop lc b))
  | _, _ => []
  end.
Definition toy_car (car : bytes) : option (Cid * list (Cid * bytes)) :=
  match car with
  | lc :: b => Some (take (Z.to_nat lc) b, toy_blocks (length b) (drop (Z.to_nat lc) b))
  | [] => None
  end.
#[local] Instance toy_snapshot_ext : SnapshotExt := {|
  sha256 b := Z.of_nat (length b) :: replicate 31 0;
  cid_of b := b;
  cid_matches c b := bool_decide (c = b);
  is_dag_cbor _ := true;
  decode_ipld b := Some (match b with 1 :: c => IpldLink c | _ => IpldScalar end);
  params_to_vec := toy_params;
  car_metadata_to_vec m := car_version m :: data_root_cid m;
  car_metadata_from_slice := toy_head mkCarMetadata Some;
  block_state_to_vec ph := ph.2 :: toy_params ph.1;
  block_state_from_slice := toy_head (λ h p, (p, h)) toy_params_of;
  abci_metadata_to_vec m := md_size m :: toy_params (md_params m);
  abci_metadata_from_slice := toy_head mkAbciMetadata toy_params_of;
  header_frame roots := ([Z.of_nat (length (concat roots))], concat roots);
  block_frame cb := ([Z.of_nat (length cb.1); Z.of_nat (length cb.2)], cb.1 ++ cb.2);
  car_reader car := match toy_car car with Some (c, blocks) => Some ([c], map Some blocks) | None => None end;
  load_car car :=
    match toy_car car with
    | Some (c, blocks) => if forallb (λ cb, bool_decide (cb.1 = cb.2)) blocks then (blocks, Some [c]) else ([], None)
    | None => ([], None)
    end;
  merge l k := l ++ k;
  state_tree_error s root := match s !! root with Some _ => None | None => Some "not found"%string end;
  dircpy d _ := d;
|}.

Lemma toy_blocks_frames (blocks : list (Cid * bytes)) : ∀ fuel,
  (length blocks <= fuel)%nat → toy_blocks fuel (concat (frame_bytes <$> (block_frame <$> blocks))) = blocks.
Proof.
  induction blocks as [|[c b] blocks IH]; intros fuel Hf; [by destruct fuel|]. destruct fuel as [|fuel]; [simpl in Hf; lia|].
  cbn [fmap list_fmap concat frame_bytes block_frame toy_snapshot_ext fst snd app toy_blocks]. rewrite !Nat2Z.id.
  rewrite <- app_assoc, take_app_length, drop_app_length, take_app_length, drop_app_length. f_equal. apply IH. simpl in Hf. lia.
Qed.
Lemma toy_car_file c (blocks : list (Cid * bytes)) : toy_car (car_file [c] blocks) = Some (c, blocks).
Proof.
  unfold car_file. cbn [fmap list_fmap concat]. unfold frame_bytes at 1. cbn [header_frame toy_snapshot_ext fst snd].
  cbn [concat app]. rewrite app_nil_r. unfold toy_car. rewrite Nat2Z.id, take_app_length, drop_app_length.
  do 2 f_equal. apply toy_blocks_frames. rewrite length_app.
  assert (length blocks <= length (concat (frame_bytes <$> (block_frame <$> blocks))))%nat; [|lia].
  induction blocks as [|b blocks IH]; [done|]. rewrite !fmap_cons. cbn [concat length]. rewrite length_app.
  assert (1 <= length (frame_bytes (block_frame b)))%nat; [|lia].
  unfold frame_bytes. cbn [block_frame toy_snapshot_ext fst snd app length]. lia.
Qed.
#[local] Instance toy_snapshot_laws : SnapshotLaws.
Proof.
  constructor.
  - intros b. by apply bool_decide_eq_true.
  - intros c b b' H1%bool_decide_eq_true H2%bool_decide_eq_true. congruence.
  - done.
  - by intros [].
  - by intros [[] h].
  - by intros [s []].
  - intros b blocks _. cbn [car_reader toy_snapshot_ext]. fold toy_snapshot_ext. by rewrite toy_car_file.
  - intros b blocks Hg. cbn [load_car toy_snapshot_ext]. fold toy_snapshot_ext. rewrite toy_car_file.
    rewrite (proj2 (forallb_forall _ _)); [done|]. intros cb Hcb%list_elem_of_In. rewrite Forall_forall in Hg. by apply Hg.
  - done.
  - intros s s' root Ho Hs. cbn in *. destruct (s !! root) as [b|] eqn:Hb; [|done]. by rewrite (Hs root b (reaches_here _ _ _ root) Hb).
Qed.

Definition sync_params : FvmStateParams := mkStateParams [1; 0; 7] 100 21 0 1000 1337 3 0.
Definition sync_store : Store := {[ [1; 0; 7] := [1; 0; 7]; [0; 7] := [0; 7] ]}.
Definition full_node : Node := mkNode (Some (snapshots_new [])) ∅ sync_store (mkDb None ∅).
Definition new_node : Node := mkNode (Some (snapshots_new [])) ∅ ∅ (mkDb (Some (mkAppState 0 0 (empty_params []))) ∅).
Definition small_chunks : SnapshotParams := mkParams 20 2 60.
Lemma sync_exportable : exportable length sync_store sync_params.
Proof.
  assert (∀ c b, sync_store !! c = Some b → b = c) as Hs.
  { intros c b Hc. unfold sync_store in Hc. apply lookup_insert_Some in Hc as [[<- <-]|[_ Hc]]; [done|].
    apply lookup_singleton_Some in Hc as [<- <-]. done. }
  constructor.
  - constructor.
    + intros c. unfold store_get. by destruct (_ !! c).
    + intros c b _. unfold links. cbn. by eexists.
    + intros c b ls c' Hg%store_get_found%Hs Hl Hin. subst b. unfold links in Hl. cbn in Hl. injection Hl as <-.
      destruct c as [|[|[]|] c]; try (by apply elem_of_nil in Hin). apply list_elem_of_singleton in Hin as ->. simpl. lia.
  - intros c b ->%Hs. by apply bool_decide_eq_true.
  - reflexivity.
Qed.
Definition made : Disk * outcome string SnapshotItem :=
  create_snapshot small_chunks (mkCreateIo None true None) 10 sync_store ∅ 10 sync_params.
Lemma made_parts :
  match made.2 with Ok i => (λ d, size (dir_parts d)) <$> made.1 !! snapshot_dir i | _ => None end = Some 3%nat.
Proof. vm_compute. reflexivity. Qed.

Lemma state_sync_witness :
  ∃ d item offer b1 a' b' rs, made = (d, Ok item) ∧ to_snapshot item = Ok offer ∧
    offer_snapshot (mkOfferIo (inr 0%nat) None None) new_node (mkOffer offer (to_app_hash sync_params)) = (b1, Ok OfferAccept) ∧
    fetch_chunks 5 99 (set_snap full_node (mkSnapshots [item] None None) d) b1 10 (seqZ 0 (abci_chunks offer)) = (a', b', rs) ∧
    db b' = set_committed_state 5 (db new_node) (mkAppState 10 0 sync_params) ∧
    store b' !! [0; 7] = Some [0; 7].
Proof.
  pose proof made_parts as Hparts.
  destruct (state_sync length small_chunks 5 99 10 full_node new_node (snapshots_new []) (snapshots_new []) sync_params 10 0
    (mkAppState 0 0 (empty_params []))) as (d & item & Hc & offer & Ho & Hsync).
  - reflexivity.
  - reflexivity.
  - reflexivity.
  - vm_compute. discriminate.
  - exact sync_exportable.
  - vm_compute. lia.
  - constructor.
  - change (made = (d, Ok item)) in Hc. rewrite Hc in Hparts. cbn [fst snd] in Hparts.
    destruct (d !! snapshot_dir item) as [dir|]; [|discriminate Hparts]. injection Hparts as Hsize.
    destruct (Hsync (dir_parts dir) eq_refl) as (b1 & Hb1 & a' & b' & rs & Hf & _ & Hdb & Htree).
    { rewrite Hsize. reflexivity. }
    exists d, item, offer, b1, a', b', rs. split; [exact Hc|]. split; [exact Ho|]. split; [exact Hb1|]. split; [exact Hf|].
    split; [exact Hdb|]. apply Htree; [|reflexivity].
    eapply reaches_link; [reflexivity|reflexivity|left|apply reaches_here].
Defined.

(** The same snapshot, with a chunk that was not asked for in between. *)
Definition sync_calls : list SyncEvent :=
  match made.2 with
  | Ok i =>
      match to_snapshot i, made.1 !! snapshot_dir i with
      | Ok offer, Some d =>
          EvOffer (mkOfferIo (inr 0%nat) None None) (mkOffer offer (to_app_hash sync_params)) :: EvChunk None 2 [1] ::
          ((λ k, EvChunk None k (part d k)) <$> list_parts d)
      | _, _ => []
      end
  | _ => []
  end.
Lemma sync_calls_commit : db_state (db (sync_events 5 new_node sync_calls)) = Some (mkAppState 10 7 sync_params).
Proof. vm_compute. reflexivity. Qed.
Lemma synced_state_was_offered_witness :
  ∃ io r, EvOffer io r ∈ sync_calls ∧ adopted r (db (sync_events 5 new_node sync_calls)).
Proof.
  destruct (synced_state_was_offered 5 new_node sync_calls (snapshots_new [])) as [Hdb|Ha].
  - reflexivity.
  - reflexivity.
  - pose proof sync_calls_commit as Hs. rewrite Hdb in Hs. discriminate Hs.
  - exact Ha.
Defined.

Definition old_manifest (h : Z) : SnapshotManifest := mkManifest h 0 1 [] sync_params 1.
Definition old_item (h : Z) : SnapshotItem := item_new (SnapshotPath h) (old_manifest h).
Definition old_disk : Disk :=
  {[ SnapshotPath 4 := mkDir ∅ (Some (Parsed (old_manifest 4))); SnapshotPath 7 := mkDir ∅ (Some (Parsed (old_manifest 7))) ]}.
Definition old_state : SnapshotState := mkSnapshots [old_item 4; old_item 7] (Some (sync_params, 10)) None.
Definition turn := manager_turn small_chunks (mkCreateIo None true None) 10 1000 sync_store (mkManager None false) old_state old_disk.
Lemma old_listed : listed old_state old_disk.
Proof.
  constructor.
  - intros i [->|[->|Hn%elem_of_nil]%elem_of_cons]%elem_of_cons; [..|done]; (split; [reflexivity|]; eexists; split; reflexivity).
  - intros h d Hh. unfold old_disk in Hh. apply lookup_insert_Some in Hh as [[[= <-] _]|[_ Hh]].
    + exists (old_item 4). split; [left|reflexivity].
    + apply lookup_singleton_Some in Hh as [[= <-] _]. exists (old_item 7). split; [right; left|reflexivity].
  - repeat constructor; reflexivity.
Qed.
Lemma turn_heights :
  match turn with Ok (_, st, _) => (λ i, m_height (manifest i)) <$> snapshots st | _ => [] end = [7; 10].
Proof. vm_compute. reflexivity. Qed.
Lemma snapshot_history_witness :
  ∃ mgr st disk, turn = Ok (mgr, st, disk) ∧ listed st disk ∧
    (λ i, m_height (manifest i)) <$> snapshots (manager_new disk).2 = [7; 10].
Proof.
  pose proof turn_heights as Hh. destruct turn as [[[mgr st] disk]|e| |] eqn:Ht; [|discriminate Hh..].
  destruct (snapshot_history small_chunks None 10 1000 sync_store (mkManager None false) old_state old_disk mgr st disk sync_params 10)
    as (Hl & Hr & _).
  - discriminate.
  - exact old_listed.
  - reflexivity.
  - intros i [->|[->|Hn%elem_of_nil]%elem_of_cons]%elem_of_cons; [reflexivity|reflexivity|destruct Hn].
  - exact Ht.
  - exists mgr, st, disk. split; [reflexivity|]. split; [exact Hl|]. rewrite Hr, <- list_fmap_compose. exact Hh.
Defined.
