(* ===== verification/EthFilter.v ===== *)
(** * Filters and subscriptions ([eth/api/src/filters.rs], [state.rs])

    A filter of Ethereum becomes subscriptions with CometBFT, whose queries only know
    conjunctions, so that alternatives are multiplied out.  A driver per filter gathers
    what the subscriptions deliver, drops transactions it has seen, keeps the logs whose
    topics match, and hands them over when it is polled, or to a web socket.

    The queries are data here, and [query_matches] is how CometBFT evaluates them on
    the events of a transaction; the empty query selects nothing, as the source notes.  A hash seen less than a minute ago is a duplicate, as
    the cache of [lru_time_cache] answers it.  Times are in seconds. *)

From Stdlib Require Import Ascii String.
From stdpp Require Import base tactics numbers list gmap relations.
From S2P Require Import Prelude Voting IpcApi Finality Provider CetfActor Message Checkpoint Exec Chain Bytes App.
From S2P Require Import TmConv Gas EthConv.

Open Scope Z_scope.

(** ** Filters *)

Inductive ValueOrArray (T : Type) := Value (v : T) | Array (vs : list T).
Arguments Value {T} _.
Arguments Array {T} _.
(** [topics] has four positions. *)
Record Filter := mkFilter {
  f_from_block : option Z;
  f_to_block : option Z;
  f_address : option (ValueOrArray bytes);
  f_topics : list (option (ValueOrArray (option bytes)));
}.
Definition topics_at (f : Filter) (i : nat) : option (ValueOrArray (option bytes)) := mjoin (f_topics f !! i).
Definition has_topics (f : Filter) : bool := existsb (λ i, bool_decide (is_Some (topics_at f i))) (seq 0 4).

Definition topic_matches (ts : ValueOrArray (option bytes)) (topic : option bytes) : bool :=
  match ts with
  | Value (Some t) => bool_decide (topic = Some t)
  | Array ts => existsb (λ t, bool_decide (topic = Some t)) (omap id ts)
  | Value None => true
  end.
Definition matches_topics (f : Filter) (log : Log) : bool :=
  forallb (λ i, match topics_at f i with
                | Some ts => topic_matches ts (topics log !! i)
                | None => true
                end) (seq 0 4).

Inductive FilterKind := NewBlocks | PendingTransactions | Logs (f : Filter).

(** ** Queries *)

Inductive EventType := EvtNewBlock | EvtTx.
Inductive Condition := CondEq (key value : string) | CondGte (key : string) (n : Z) | CondLte (key : string) (n : Z).
Record Query := mkQuery { q_event : option EventType; q_conditions : list Condition }.
Definition and_cond (q : Query) (c : Condition) : Query := mkQuery (q_event q) (q_conditions q ++ [c]).

Section filters.
Context {A : Type} `{AddressPayload A} `{!Countable A} `{!MsgCrypto A} `{!TxCodec A} `{HexCodec} `{EthApiExt}.

Definition addresses (f : Filter) : list bytes :=
  match f_address f with None => [] | Some (Value a) => [a] | Some (Array l) => l end.
Fixpoint to_fvm_addresses (l : list bytes) : outcome string (list A) :=
  match l with
  | [] => Ok []
  | b :: l => a ← eth_to_address b; rest ← to_fvm_addresses l; Ok (a :: rest)
  end.
(** The conditions under which an address is involved: it emitted an event, or it is
    the sender or the receiver of the message. *)
Definition address_conditions (addr : A) : list Condition :=
  [ match payload addr with
    | PayloadID id => CondEq "event.emitter.id" (u64_to_string id)
    | _ => CondEq "event.emitter.deleg" (addr_to_string addr)
    end;
    CondEq "message.from" (addr_to_string addr);
    CondEq "message.to" (addr_to_string addr) ].
Definition topic_values (ts : ValueOrArray (option bytes)) : list bytes :=
  match ts with
  | Value (Some t) => [t]
  | Array ts => omap id ts
  | Value None => []
  end.
Definition topic_key (i : nat) : string :=
  match i with O => "event.t1" | 1%nat => "event.t2" | 2%nat => "event.t3" | _ => "event.t4" end.
Definition base_query (f : Filter) : Query :=
  let query := if has_topics f || bool_decide (is_Some (f_address f)) then mkQuery None [] else mkQuery (Some EvtTx) [] in
  let query := match f_from_block f with Some n => and_cond query (CondGte "tx.height" n) | None => query end in
  match f_to_block f with Some n => and_cond query (CondLte "tx.height" n) | None => query end.
Definition topic_queries (f : Filter) (queries : list Query) (i : nat) : list Query :=
  match topics_at f i with
  | None => queries
  | Some ts =>
      match topic_values ts with
      | [] => queries
      | values => flat_map (λ t, (λ q, and_cond q (CondEq (topic_key i) (hex_encode t))) <$> queries) values
      end
  end.
Definition to_queries (k : FilterKind) : outcome string (list Query) :=
  match k with
  | NewBlocks | PendingTransactions => Ok [mkQuery (Some EvtNewBlock) []]
  | Logs f =>
      let queries := [base_query f] in
      addrs ← to_fvm_addresses (addresses f);
      let queries :=
        match addrs with
        | [] => queries
        | _ => flat_map (λ addr, flat_map (λ q, and_cond q <$> address_conditions addr) queries) addrs
        end in
      Ok (foldl (topic_queries f) queries (seq 0 4))
  end.

(** ** Records *)

(** [B] is what is kept of a block. *)
Inductive FilterRecords (B : Type) :=
| RecBlocks (blocks : list B)
| RecHashes (hashes : list bytes)
| RecLogs (logs : list Log).
#[global] Arguments RecBlocks {B} _.
#[global] Arguments RecHashes {B} _.
#[global] Arguments RecLogs {B} _.
Record TxInfo := mkTxInfo { ti_height : Z; ti_index : option Z; ti_tx : bytes; ti_result : TxResult }.
Inductive EventData := DataNewBlock (block : option TmBlock) | DataTx (tx : TxInfo) | DataOther.

Definition records_new {B} (k : FilterKind) : FilterRecords B :=
  match k with NewBlocks => RecBlocks [] | PendingTransactions => RecHashes [] | Logs _ => RecLogs [] end.
(** What is taken and what is left. *)
Definition records_take {B} (r : FilterRecords B) : FilterRecords B * FilterRecords B :=
  (r, match r with RecBlocks _ => RecBlocks [] | RecHashes _ => RecHashes [] | RecLogs _ => RecLogs [] end).
Definition records_empty {B} (r : FilterRecords B) : bool :=
  match r with
  | RecBlocks xs => bool_decide (length xs = 0%nat)
  | RecHashes xs => bool_decide (length xs = 0%nat)
  | RecLogs xs => bool_decide (length xs = 0%nat)
  end.

Definition eth_hashes (data : list bytes) (chain_id : Z) : list bytes :=
  omap (λ tx, match tx_from_slice tx with
              | Some (Signed msg) => match domain_hash msg chain_id with Ok (Some h) => Some h | _ => None end
              | _ => None
              end) data.
(** The logs of a transaction that the filter wants. *)
Definition tx_logs (filter : option Filter) (tx : TxInfo) : outcome string (list Log) :=
  let evs := tr_events (ti_result tx) in
  let block_hash := default zero_hash (find_hash_event "block" evs) in
  transaction_hash ← msg_hash evs (ti_tx tx);
  logs ← to_logs (A:=A) evs block_hash (ti_height tx) transaction_hash (default 0 (ti_index tx)) 0;
  Ok (match filter with Some f => List.filter (matches_topics f) logs | None => logs end).
Definition update {B} (to_block : TmBlock → outcome string B) (chain_id : Z) (filter : option Filter)
    (r : FilterRecords B) (event : EventData) : outcome string (FilterRecords B) :=
  match r, event with
  | RecBlocks blocks, DataNewBlock (Some block) => b ← to_block block; Ok (RecBlocks (blocks ++ [b]))
  | RecHashes hashes, DataNewBlock (Some block) => Ok (RecHashes (hashes ++ eth_hashes (tb_data block) chain_id))
  | RecLogs logs, DataTx tx => ls ← tx_logs filter tx; Ok (RecLogs (logs ++ ls))
  | _, _ => Ok r
  end.

(** ** The driver *)

Record PollState := mkPoll {
  timeout : Z;
  last_poll : Z;
  finished : option (option string);
  records : FilterRecords bytes;
}.
Inductive FilterCommand := CmdUpdate (e : EventData) | CmdFinish (err : option string) | CmdTake | CmdUninstall.

Definition try_take (now : Z) (st : PollState) : PollState * (string + option (FilterRecords bytes)) :=
  let '(taken, remaining) := records_take (records st) in
  match (if records_empty taken then finished st else None) with
  | Some err =>
      (mkPoll (timeout st) now (Some None) remaining, match err with Some e => inl e | None => inr None end)
  | None => (mkPoll (timeout st) now (finished st) remaining, inr (Some taken))
  end.
Definition finish (err : option string) (st : PollState) : PollState :=
  let err := match mjoin (finished st) with Some e => Some e | None => err end in
  mkPoll (timeout st) (last_poll st) (Some err) (records st).
Definition is_timed_out (now : Z) (st : PollState) : bool := timeout st <? now - last_poll st.
Definition is_finished (st : PollState) : bool := bool_decide (is_Some (finished st)).

(** The times at which hashes were seen. *)
Definition cache_live (now : Z) (cache : gmap bytes Z) : gmap bytes Z := filter (λ kv, now <= kv.2 + 60) cache.
Definition cache_insert (now : Z) (hash : bytes) (cache : gmap bytes Z) : gmap bytes Z * bool :=
  (<[hash := now]> (cache_live now cache), bool_decide (is_Some (cache_live now cache !! hash))).
(** Whether a command is skipped, and the cache after it. *)
Definition dedup (now : Z) (cache : gmap bytes Z) (c : FilterCommand) : gmap bytes Z * bool :=
  match c with
  | CmdUpdate (DataTx tx) => cache_insert now (tx_hash (ti_tx tx)) cache
  | _ => (cache, false)
  end.

Definition filter_of (k : FilterKind) : option Filter := match k with Logs f => Some f | _ => None end.
Record PollDriver := mkDriver { d_kind : FilterKind; d_chain_id : string + Z; d_cache : gmap bytes Z; d_state : PollState }.
Definition set_poll (d : PollDriver) (st : PollState) : PollDriver := mkDriver (d_kind d) (d_chain_id d) (d_cache d) st.

(** One command for a polled filter: [None] when the driver ends and removes the
    filter, and the answer of a [Take]. *)
Definition poll_command (now : Z) (d : PollDriver) (c : FilterCommand)
    : option PollDriver * option (string + option (FilterRecords bytes)) :=
  let '(cache, skip) := dedup now (d_cache d) c in
  let d := mkDriver (d_kind d) (d_chain_id d) cache (d_state d) in
  let st := d_state d in
  if skip then (Some d, None)
  else
    match c with
    | CmdUpdate event =>
        if is_timed_out now st then (None, None)
        else if is_finished st then (Some d, None)
        else
          let res := match d_chain_id d with
                     | inr chain_id => update (λ b, h256 (tb_hash b)) chain_id (filter_of (d_kind d)) (records st) event
                     | inl e => Err ("failed to get chain ID: " ++ e)%string
                     end in
          match res with
          | Ok r => (Some (set_poll d (mkPoll (timeout st) (last_poll st) (finished st) r)), None)
          | Err e => (Some (set_poll d (finish (Some ("failed to update filter: " ++ e)%string) st)), None)
          | Retry | Panic => (None, None)
          end
    | CmdFinish err =>
        (Some (set_poll d (finish ((λ e, "subscription failed: " ++ e)%string <$> err) st)), None)
    | CmdTake =>
        let '(st, result) := try_take now st in
        (match result with inr (Some _) => Some (set_poll d st) | _ => None end, Some result)
    | CmdUninstall => (None, None)
    end.
Fixpoint poll_run (d : PollDriver) (cs : list (Z * FilterCommand))
    : option PollDriver * list (string + option (FilterRecords bytes)) :=
  match cs with
  | [] => (Some d, [])
  | (now, c) :: cs =>
      let '(d', answer) := poll_command now d c in
      let answers := match answer with Some a => [a] | None => [] end in
      match d' with
      | Some d' => let r := poll_run d' cs in (r.1, answers ++ r.2)
      | None => (None, answers)
      end
  end.
Definition driver_new (k : FilterKind) (chain_id : string + Z) (timeout now : Z) : PollDriver :=
  mkDriver k chain_id ∅ (mkPoll timeout now None (records_new k)).

(** A subscription of a web socket: what is sent to it one by one, a record or an
    error, and whether the driver goes on. [open] tells how many sends succeed before
    the socket is gone. *)
Inductive Notification := NotifyBlock (b : EthBlock) | NotifyHash (h : bytes) | NotifyLog (l : Log) | NotifyError (e : string).
Definition notifications (r : FilterRecords EthBlock) : list Notification :=
  match r with RecBlocks xs => NotifyBlock <$> xs | RecHashes xs => NotifyHash <$> xs | RecLogs xs => NotifyLog <$> xs end.
Definition send_all (open : option nat) (ns : list Notification) : list Notification * bool :=
  match open with
  | None => (ns, true)
  | Some n => (take n ns, (length ns <=? n)%nat)
  end.
Definition ws_command (enrich : TmBlock → outcome string EthBlock) (k : FilterKind) (chain_id : string + Z)
    (open : option nat) (now : Z) (cache : gmap bytes Z) (c : FilterCommand)
    : gmap bytes Z * list Notification * bool :=
  let '(cache, skip) := dedup now cache c in
  if skip then (cache, [], true)
  else
    match c with
    | CmdUpdate event =>
        let res := match chain_id with
                   | inr id => update enrich id (filter_of k) (records_new k) event
                   | inl e => Err ("failed to get chain ID: " ++ e)%string
                   end in
        match res with
        | Ok r => let s := send_all open (notifications r) in (cache, s.1, s.2)
        | Err e => (cache, (send_all open [NotifyError ("failed to process events: " ++ e)%string]).1, true)
        | Retry | Panic => (cache, [], false)
        end
    | CmdFinish err =>
        (cache, match err with
                | Some e => (send_all open [NotifyError ("subscription finished with error: " ++ e)%string]).1
                | None => []
                end, false)
    | CmdTake => (cache, [], true)
    | CmdUninstall => (cache, [], false)
    end.
End filters.

(** ** How CometBFT evaluates queries

    The events of a transaction are indexed by their kind and key. *)

Definition composite (evs : list AbciEvent) : list (string * string) :=
  mjoin ((λ e, (λ a, ((kind e ++ "." ++ attr_key a)%string, attr_value a)) <$> attributes e) <$> evs).
Definition cond_holds (height : Z) (evs : list AbciEvent) (c : Condition) : Prop :=
  match c with
  | CondEq k v => (k, v) ∈ composite evs
  | CondGte k n => k = "tx.height"%string ∧ n <= height
  | CondLte k n => k = "tx.height"%string ∧ height <= n
  end.
(** The conditions of a query for transactions. *)
Definition conditions_hold (height : Z) (evs : list AbciEvent) (q : Query) : Prop :=
  q_event q ≠ Some EvtNewBlock ∧ Forall (cond_holds height evs) (q_conditions q).
(** A query that selects a transaction: [Query::default()] selects none. *)
Definition nonempty (q : Query) : Prop := q_event q ≠ None ∨ q_conditions q ≠ [].
Definition query_matches (height : Z) (evs : list AbciEvent) (q : Query) : Prop :=
  nonempty q ∧ conditions_hold height evs q.
(** Filters that lead to a query which is not empty: there is a range, an address or a topic, or
    there are neither topics nor an address field, so that all transactions are asked for. *)
Definition asks (f : Filter) : bool :=
  negb (has_topics f || bool_decide (is_Some (f_address f))) || bool_decide (is_Some (f_from_block f)) || bool_decide (is_Some (f_to_block f))
  || bool_decide (addresses f ≠ []) || existsb (λ i, match topics_at f i with Some ts => bool_decide (topic_values ts ≠ []) | None => false end) (seq 0 4).

(** ** Facts: queries *)

Section query_facts.
Context {A : Type} `{AddressPayload A} `{HexCodec} (height : Z) (evs : list AbciEvent).
Implicit Types (q : Query) (f : Filter).
Notation matches := (conditions_hold height evs).
Notation holds := (cond_holds height evs).

Lemma and_cond_matches q c : matches (and_cond q c) ↔ matches q ∧ holds c.
Proof. unfold conditions_hold. cbn [and_cond q_event q_conditions]. rewrite Forall_app, Forall_singleton. tauto. Qed.

(** Alternatives multiplied out. *)
Lemma product_matches {T} (cond : T → Condition) (qs : list Query) (ts : list T) :
  Exists matches (flat_map (λ t, (λ q, and_cond q (cond t)) <$> qs) ts) ↔
  Exists matches qs ∧ ∃ t, t ∈ ts ∧ holds (cond t).
Proof.
  rewrite !Exists_exists. split.
  - intros (q & Hq & Hm). apply list_elem_of_In, in_flat_map in Hq as (t & Ht & Hq).
    apply list_elem_of_In, list_elem_of_fmap in Hq as (q0 & -> & Hq0). apply and_cond_matches in Hm as [Hm Hc].
    split; [by exists q0|]. exists t. split; [by apply list_elem_of_In|done].
  - intros [(q & Hq & Hm) (t & Ht & Hc)]. exists (and_cond q (cond t)). split; [|by apply and_cond_matches].
    apply list_elem_of_In, in_flat_map. exists t. split; [by apply list_elem_of_In|].
    apply list_elem_of_In, list_elem_of_fmap. by exists q.
Qed.
Lemma address_product_matches (qs : list Query) (addrs : list A) :
  Exists matches (flat_map (λ a, flat_map (λ q, and_cond q <$> address_conditions a) qs) addrs) ↔
  Exists matches qs ∧ ∃ a, a ∈ addrs ∧ Exists holds (address_conditions a).
Proof.
  rewrite !Exists_exists. setoid_rewrite Exists_exists. split.
  - intros (q & Hq & Hm). apply list_elem_of_In, in_flat_map in Hq as (a & Ha & Hq). apply in_flat_map in Hq as (q0 & Hq0 & Hq).
    apply list_elem_of_In, list_elem_of_fmap in Hq as (c & -> & Hc). apply and_cond_matches in Hm as [Hm Hh].
    split; [exists q0; split; [by apply list_elem_of_In|done]|]. exists a. split; [by apply list_elem_of_In|by exists c].
  - intros [(q & Hq & Hm) (a & Ha & c & Hc & Hh)]. exists (and_cond q c). split; [|by apply and_cond_matches].
    apply list_elem_of_In, in_flat_map. exists a. split; [by apply list_elem_of_In|]. apply in_flat_map.
    exists q. split; [by apply list_elem_of_In|]. apply list_elem_of_In, list_elem_of_fmap. by exists c.
Qed.

Definition topic_selected f (i : nat) : Prop :=
  ∀ ts, topics_at f i = Some ts →
    topic_values ts = [] ∨ ∃ t, t ∈ topic_values ts ∧ (topic_key i, hex_encode t) ∈ composite evs.
Lemma topic_queries_matches f qs i :
  Exists matches (topic_queries f qs i) ↔ Exists matches qs ∧ topic_selected f i.
Proof.
  unfold topic_queries, topic_selected. destruct (topics_at f i) as [ts|]; [|naive_solver].
  destruct (topic_values ts) as [|t0 l] eqn:Hv; [naive_solver|].
  rewrite (product_matches (λ t, CondEq (topic_key i) (hex_encode t))). cbn [cond_holds]. rewrite <- Hv.
  split; intros [Hq Ht]; (split; [done|]).
  - intros ts' [= <-]. right. exact Ht.
  - destruct (Ht ts eq_refl) as [Hn|Ht']; [congruence|done].
Qed.
Lemma topics_fold_matches f idxs : ∀ qs,
  Exists matches (foldl (topic_queries f) qs idxs) ↔ Exists matches qs ∧ ∀ i, i ∈ idxs → topic_selected f i.
Proof.
  induction idxs as [|i idxs IH]; intros qs; cbn [foldl].
  - split; [intros ?; split; [done|by intros ? ?%elem_of_nil]|by intros [? _]].
  - rewrite IH, topic_queries_matches. split.
    + intros [[Hq Hi] His]. split; [done|]. intros j [->|Hj]%elem_of_cons; [done|by apply His].
    + intros [Hq His]. split; [split; [done|apply His; left]|]. intros j Hj. apply His. by right.
Qed.

Definition in_range f : Prop :=
  (∀ n, f_from_block f = Some n → n <= height) ∧ (∀ n, f_to_block f = Some n → height <= n).
Lemma base_conditions_hold f : matches (base_query f) ↔ in_range f.
Proof.
  unfold base_query, in_range.
  assert (matches (if has_topics f || bool_decide (is_Some (f_address f)) then mkQuery None [] else mkQuery (Some EvtTx) [])) as Hb.
  { destruct (_ || _); split; done. }
  destruct (f_from_block f), (f_to_block f); rewrite ?and_cond_matches; cbn [cond_holds]; naive_solver.
Qed.
End query_facts.

(** ** Facts: what a transaction is indexed by *)

Section index_facts.
Context {A : Type} `{AddressPayloadLaws A} `{!Countable A} `{!MsgCrypto A} `{!TxCodec A}.
Context {HX : HexCodec} {HL : HexCodecLaws} `{EthApiExt} {AL : AddressLaws A}.
Implicit Types (em : gmap Z A) (se : StampedEvent).

Lemma composite_event (evs : list StampedEvent) em se rest a :
  se ∈ evs → a ∈ event_attributes se (em !! emitter se) →
  (("event." ++ attr_key a)%string, attr_value a) ∈ composite (to_events "event" evs em ++ rest).
Proof.
  intros Hse Ha. unfold composite. apply list_elem_of_join. eexists. split.
  - apply (list_elem_of_fmap_2 (λ a, (("event" ++ "." ++ attr_key a)%string, attr_value a))), Ha.
  - rewrite fmap_app. apply elem_of_app. left. apply list_elem_of_fmap. exists (mkAbciEvent "event" (event_attributes se (em !! emitter se))).
    split; [done|]. unfold to_events. apply list_elem_of_fmap. by exists se.
Qed.
Lemma composite_topic (evs : list StampedEvent) em se ts data rest i t :
  se ∈ evs → evm_event se ts data → ts !! i = Some t →
  (topic_key i, hex_encode t) ∈ composite (to_events "event" evs em ++ rest).
Proof.
  intros Hse [Hp [Hl _] _ _] Ht. pose proof (lookup_lt_Some _ _ _ Ht) as Hi.
  destruct (lookup_lt_is_Some_2 topic_keys i) as [k Hk]; [simpl; lia|].
  assert ((k, t) ∈ (λ e, (entry_key e, entry_value e)) <$> entries se) as (e & [= Hke Hte] & He)%list_elem_of_fmap.
  { rewrite Hp. apply elem_of_app. left. apply (list_elem_of_lookup_2 _ i). rewrite lookup_zip_with, Hk, Ht. done. }
  assert (topic_key i = ("event." ++ k)%string) as ->.
  { destruct i as [|[|[|[|]]]]; simpl in Hk; try (injection Hk as <-; reflexivity). simpl in *. lia. }
  rewrite Hke, Hte. apply (composite_event evs em se rest (mkAttr (entry_key e) (hex_encode (entry_value e)) (negb (entry_flags e =? 0)))); [done|].
  right. apply elem_of_app. right. apply list_elem_of_fmap. by exists e.
Qed.

(** Delegated addresses of emitters: not masked ids. *)
Definition delegated_ok (a : A) : Prop :=
  match payload a with
  | PayloadDelegated ns sub => ns = EAM_ACTOR_ID → is_masked_id sub = false
  | PayloadID _ => False
  | _ => True
  end.
(** The address of a log selects the transaction that emitted it. *)
Lemma emitter_selected (evs : list StampedEvent) em se rest height b :
  se ∈ evs → is_u64 (emitter se) → (∀ a, em !! emitter se = Some a → delegated_ok a) →
  eth_to_address (E:=string) (emitter_address em (emitter se)) = Ok b →
  Exists (cond_holds height (to_events "event" evs em ++ rest)) (address_conditions (A:=A) b).
Proof.
  intros Hse Hu Hok Hb. unfold address_conditions. left. unfold emitter_address in Hb.
  assert (payload b = PayloadID (emitter se) →
    cond_holds height (to_events "event" evs em ++ rest)
      match payload b with
      | PayloadID id => CondEq "event.emitter.id" (u64_to_string id)
      | _ => CondEq "event.emitter.deleg" (addr_to_string b)
      end) as Hid.
  { intros ->. cbn [cond_holds].
    apply (composite_event evs em se rest (mkAttr "emitter.id" (u64_to_string (emitter se)) true)); [done|left]. }
  destruct (em !! emitter se ≫= eth_address_opt) as [sub|] eqn:Hd; cbn [default from_option] in Hb; unfold id in Hb.
  - destruct (em !! emitter se) as [a|] eqn:Ha; [|done]. cbn [mbind option_bind] in Hd. specialize (Hok a eq_refl).
    unfold delegated_ok in Hok. unfold eth_address_opt, to_eth_address in Hd. destruct (payload a) as [| | |ns s|] eqn:Hp; try done.
    destruct ((ns =? EAM_ACTOR_ID) && bool_decide (length s = ETH_ADDRESS_LEN)) eqn:Hns; [|done]. injection Hd as <-.
    apply andb_prop in Hns as [->%Z.eqb_eq Hl%bool_decide_eq_true]. unfold eth_to_address in Hb. rewrite Hok in Hb by done.
    destruct (payload_new_delegated (A:=A) EAM_ACTOR_ID s Hl) as (a' & Ha' & Hpa'). rewrite Ha' in Hb. injection Hb as <-.
    rewrite Hpa'. cbn [cond_holds]. assert (a' = a) as -> by (apply payload_inj; congruence).
    apply (composite_event evs em se rest (mkAttr "emitter.deleg" (addr_to_string a) true)); [done|].
    unfold event_attributes. rewrite Ha. right. left.
  - apply Hid. unfold eth_to_address in Hb. rewrite from_id_masked, from_id_drop in Hb. injection Hb as <-.
    destruct (to_be_bytes_roundtrip (emitter se) Hu) as [-> _]. apply payload_new_id.
Qed.

Lemma evm_logs_elem em bh bn th ti start evs evm log : ∀ idx,
  Forall2 (λ se p, evm_event se p.1 p.2) evs evm → log ∈ evm_logs em bh bn th ti start idx evs evm →
  ∃ se ts data, se ∈ evs ∧ evm_event se ts data ∧ log_address log = emitter_address em (emitter se) ∧ topics log = ts.
Proof.
  intros idx Hev. revert idx. induction Hev as [|se [ts data] evs evm Hse _ IH]; intros idx Hl; [by apply elem_of_nil in Hl|].
  cbn [evm_logs] in Hl. apply elem_of_cons in Hl as [->|Hl].
  - exists se, ts, data. split; [left|done].
  - destruct (IH _ Hl) as (se' & ts' & data' & Hin & ?). exists se', ts', data'. split; [by right|done].
Qed.
Lemma topic_matches_selected ts (topic : option bytes) :
  topic_matches ts topic = true → topic_values ts = [] ∨ ∃ t, t ∈ topic_values ts ∧ topic = Some t.
Proof.
  destruct ts as [[t|]|l]; cbn; [|by left|]; intros Hm; right.
  - apply bool_decide_eq_true in Hm. exists t. split; [left|done].
  - apply existsb_exists in Hm as (t & Ht & Hm%bool_decide_eq_true). exists t. split; [by apply list_elem_of_In|done].
Qed.
Lemma to_fvm_addresses_elem l addrs b :
  to_fvm_addresses (A:=A) l = Ok addrs → b ∈ l → ∃ a, a ∈ addrs ∧ eth_to_address (E:=string) b = Ok a.
Proof.
  revert addrs. induction l as [|c l IH]; intros addrs Hl Hb; [by apply elem_of_nil in Hb|].
  cbn [to_fvm_addresses] in Hl. apply bind_Ok in Hl as (a & Ha & Hl). apply bind_Ok in Hl as (rest & Hr & [= <-]).
  apply elem_of_cons in Hb as [->|Hb]; [exists a; split; [left|done]|].
  destruct (IH rest Hr Hb) as (a' & Ha' & ?). exists a'. split; [by right|done].
Qed.
Definition address_queries (f : Filter) (addrs : list A) : list Query :=
  match addrs with
  | [] => [base_query f]
  | _ => flat_map (λ a, flat_map (λ q, and_cond q <$> address_conditions a) [base_query f]) addrs
  end.
Lemma to_queries_logs f qs :
  to_queries (A:=A) (Logs f) = Ok qs →
  ∃ addrs, to_fvm_addresses (addresses f) = Ok addrs ∧ qs = foldl (topic_queries f) (address_queries f addrs) (seq 0 4).
Proof.
  unfold to_queries. intros (addrs & Ha & Hq)%bind_Ok. exists addrs. split; [exact Ha|].
  cbv zeta in Hq. injection Hq as Hq. rewrite <- Hq. by destruct addrs.
Qed.
Lemma address_queries_matches f addrs height evs :
  Exists (conditions_hold height evs) (address_queries f addrs) ↔
    in_range height f ∧ (addrs = [] ∨ ∃ a, a ∈ addrs ∧ Exists (cond_holds height evs) (address_conditions a)).
Proof.
  unfold address_queries. destruct addrs as [|a0 addrs].
  - rewrite Exists_cons, Exists_nil, base_conditions_hold. naive_solver.
  - rewrite address_product_matches, Exists_cons, Exists_nil, base_conditions_hold. naive_solver.
Qed.
End index_facts.

(** ** Theorems *)

Section query_theorems.
Context {A : Type} `{AddressPayloadLaws A} `{!Countable A} `{!MsgCrypto A} `{!TxCodec A}.
Context {HX : HexCodec} {HL : HexCodecLaws} `{EthApiExt} {AL : AddressLaws A}.

(** The queries of a log filter select what the filter says: multiplied out as
    they are, some query of [to_queries] matches the events of a transaction exactly
    if its height is in the range, one of the addresses emitted an event of it or sent
    or received it, and for each position with topics one of them was emitted there. *)
Theorem queries_select f qs (addrs : list A) height evs :
  to_queries (Logs f) = Ok qs → to_fvm_addresses (addresses f) = Ok addrs →
  Exists (conditions_hold height evs) qs ↔
    in_range height f ∧
    (addrs = [] ∨ ∃ a, a ∈ addrs ∧ Exists (cond_holds height evs) (address_conditions a)) ∧
    ∀ i, (i < 4)%nat → topic_selected evs f i.
Proof.
  intros (addrs' & Ha' & ->)%to_queries_logs Ha. rewrite Ha in Ha'. injection Ha' as <-.
  rewrite topics_fold_matches, address_queries_matches.
  assert (∀ P, (∀ i, i ∈ seq 0 4 → P i) ↔ ∀ i, (i < 4)%nat → P i) as Hseq.
  { intros P. split; intros HP i Hi; apply HP; [apply elem_of_seq; lia|apply elem_of_seq in Hi; lia]. }
  rewrite Hseq. tauto.
Qed.

(** *** Empty queries *)

Lemma and_cond_nonempty q c : nonempty (and_cond q c).
Proof. right. cbn. by destruct (q_conditions q). Qed.
Lemma topic_queries_nonempty f qs i : Forall nonempty qs → Forall nonempty (topic_queries f qs i).
Proof.
  intros Hq. unfold topic_queries. destruct (topics_at f i) as [ts|]; [|done]. destruct (topic_values ts) as [|v l]; [done|].
  apply Forall_forall. intros q (t & _ & (q0 & <- & _)%in_map_iff)%list_elem_of_In%in_flat_map. apply and_cond_nonempty.
Qed.
Lemma topics_fold_nonempty f idxs : ∀ qs,
  Forall nonempty qs ∨ existsb (λ i, match topics_at f i with Some ts => bool_decide (topic_values ts ≠ []) | None => false end) idxs = true →
  Forall nonempty (foldl (topic_queries f) qs idxs).
Proof.
  induction idxs as [|i idxs IH]; intros qs Hq; cbn [foldl]; [by destruct Hq|]. apply IH. destruct Hq as [Hq|Hq]; [left; by apply topic_queries_nonempty|].
  cbn [existsb] in Hq. apply orb_true_iff in Hq as [Hi|Hq]; [left|by right]. unfold topic_queries. destruct (topics_at f i) as [ts|]; [|done].
  apply bool_decide_eq_true in Hi. destruct (topic_values ts) as [|v l]; [done|].
  apply Forall_forall. intros q (t & _ & (q0 & <- & _)%in_map_iff)%list_elem_of_In%in_flat_map. apply and_cond_nonempty.
Qed.
Lemma base_query_nonempty f :
  negb (has_topics f || bool_decide (is_Some (f_address f))) || bool_decide (is_Some (f_from_block f)) || bool_decide (is_Some (f_to_block f)) = true →
  nonempty (base_query f).
Proof.
  unfold base_query. destruct (f_to_block f); [intros _; apply and_cond_nonempty|]. destruct (f_from_block f); [intros _; apply and_cond_nonempty|].
  rewrite !orb_false_r. destruct (_ || _); [done|]. by left.
Qed.
Lemma to_queries_nonempty f qs : to_queries (A:=A) (Logs f) = Ok qs → asks f = true → Forall nonempty qs.
Proof.
  intros (addrs & Ha & ->)%to_queries_logs Hf. apply topics_fold_nonempty. unfold asks in Hf.
  apply orb_true_iff in Hf as [[Hf|Hf]%orb_true_iff|Hf]; [| |by right]; left; unfold address_queries.
  - destruct addrs as [|a addrs]; [constructor; [by apply base_query_nonempty|done]|].
    apply Forall_forall. intros q (x & _ & (q0 & _ & (c & <- & _)%in_map_iff)%in_flat_map)%list_elem_of_In%in_flat_map. apply and_cond_nonempty.
  - apply bool_decide_eq_true in Hf. destruct addrs as [|a addrs].
    + destruct (addresses f) as [|b l]; [done|]. cbn in Ha. apply bind_Ok in Ha as (? & _ & Ha). by apply bind_Ok in Ha as (? & _ & [=]).
    + apply Forall_forall. intros q (x & _ & (q0 & _ & (c & <- & _)%in_map_iff)%in_flat_map)%list_elem_of_In%in_flat_map. apply and_cond_nonempty.
Qed.
(** A filter with topics or an address field that name nothing, such as the topics [[null]],
    subscribes to the empty query and gets nothing. *)
Lemma silent_filter f qs height evs : to_queries (A:=A) (Logs f) = Ok qs → asks f = false → ∀ q, q ∈ qs → ¬ query_matches height evs q.
Proof.
  intros (addrs & Ha & ->)%to_queries_logs Hf. unfold asks in Hf.
  apply orb_false_iff in Hf as [[[[Hh%negb_false_iff Hfrom]%orb_false_iff Hto]%orb_false_iff Had]%orb_false_iff Ht].
  apply bool_decide_eq_false in Hfrom, Hto, Had. apply dec_stable in Had. rewrite Had in Ha. injection Ha as <-.
  assert (Hq : ∀ idxs qs, existsb (λ i, match topics_at f i with Some ts => bool_decide (topic_values ts ≠ []) | None => false end) idxs = false →
    foldl (topic_queries f) qs idxs = qs).
  { induction idxs as [|i idxs IH]; intros qs; cbn [existsb foldl]; [done|]. intros [Hi Hr]%orb_false_iff. rewrite IH by done.
    unfold topic_queries. destruct (topics_at f i) as [ts|]; [|done]. apply bool_decide_eq_false, dec_stable in Hi. by rewrite Hi. }
  rewrite Hq by done. cbn [address_queries]. intros q [->|[]%elem_of_nil]%elem_of_cons [[Hn|Hn] _]; revert Hn; unfold base_query; rewrite Hh;
    apply eq_None_not_Some in Hfrom, Hto; by rewrite Hfrom, Hto.
Qed.

(** C31. Filters miss nothing: a log that an execution emitted, of an address the filter
    names, with topics that match, at a height in the range, is in a transaction that
    one of the subscriptions of the filter delivers.  The filter has to ask for something,
    since the empty query delivers nothing; the events are those of the EVM, with up to
    four topics of 32 bytes, and no emitter has a masked identifier as delegated address. *)
Theorem filters_miss_nothing (f : Filter) qs (ret : FvmApplyRet A) dh bhash r evm bh bn th ti start log height :
  to_queries (A:=A) (Logs f) = Ok qs → asks f = true →
  to_exec_tx_result ret dh bhash = Ok r →
  Forall2 (λ se p, evm_event se p.1 p.2) (events (apply_ret ret)) evm →
  (∀ id a, emitters ret !! id = Some a → delegated_ok a) →
  log ∈ evm_logs (emitters ret) bh bn th ti start 0 (events (apply_ret ret)) evm →
  addresses f = [] ∨ log_address log ∈ addresses f → matches_topics f log = true → in_range height f →
  ∃ q, q ∈ qs ∧ query_matches height (tr_events r) q.
Proof.
  intros Hqs Hask Hr Hev Hdel Hlog Haddr Htop Hrange. pose proof (to_queries_nonempty _ _ Hqs Hask) as Hne.
  assert (He : Exists (conditions_hold height (tr_events r)) qs).
  2: { apply Exists_exists in He as (q & Hq & Hc). exists q. split; [done|]. split; [|done]. by rewrite Forall_forall in Hne; apply Hne. }
  clear Hask Hne. destruct (to_queries_logs _ _ Hqs) as (addrs & Ha & ->). clear Hqs.
  destruct (evm_logs_elem _ _ _ _ _ _ _ _ _ _ Hev Hlog) as (se & ts & data & Hse & Hevm & Hla & Hts).
  rewrite (exec_tx_result_events _ _ _ _ Hr). apply topics_fold_matches. split.
  - apply address_queries_matches. split; [done|]. destruct Haddr as [Hnil|Hin].
    + left. rewrite Hnil in Ha. by injection Ha as <-.
    + right. destruct (to_fvm_addresses_elem _ _ _ Ha Hin) as (a & Haa & Hea). rewrite Hla in Hea. exists a. split; [done|].
      apply (emitter_selected _ _ se); [done|apply (evm_emitter _ _ _ Hevm)|intros a'; apply Hdel|done].
  - intros i Hi%elem_of_seq ts' Hts'. unfold matches_topics in Htop. rewrite forallb_forall in Htop.
    specialize (Htop i). rewrite Hts' in Htop. destruct (topic_matches_selected ts' (topics log !! i)) as [Hn|(t & Ht & Htt)].
    + apply Htop, list_elem_of_In, elem_of_seq. lia.
    + by left.
    + right. exists t. split; [done|]. apply (composite_topic _ _ se ts data); [done|done|]. by rewrite <- Hts.
Qed.
End query_theorems.

(** ** Polling

    What a filter for logs delivers, polls aside: the logs of each transaction that
    is not a repetition, until the producers finish or an update fails. *)

Section polling.
Context {A : Type} `{AddressPayload A} `{!Countable A} `{!MsgCrypto A} `{!TxCodec A} `{HexCodec} `{EthApiExt}.

Fixpoint produced (f : Filter) (cache : gmap bytes Z) (cs : list (Z * FilterCommand)) : list Log :=
  match cs with
  | [] => []
  | (now, c) :: cs =>
      let '(cache, skip) := dedup now cache c in
      match c with
      | CmdUpdate (DataTx tx) =>
          if skip then produced f cache cs
          else match tx_logs (A:=A) (Some f) tx with Ok ls => ls ++ produced f cache cs | _ => [] end
      | CmdFinish _ => []
      | _ => produced f cache cs
      end
  end.
Definition pending_logs (d : PollDriver) : list Log := match records (d_state d) with RecLogs l => l | _ => [] end.
Definition answered_logs (answers : list (string + option (FilterRecords bytes))) : list Log :=
  mjoin ((λ a, match a with inr (Some (RecLogs l)) => l | _ => [] end) <$> answers).
(** What is still to be produced for a driver. *)
Definition to_produce (f : Filter) (d : PollDriver) (cs : list (Z * FilterCommand)) : list Log :=
  if is_finished (d_state d) then [] else produced f (d_cache d) cs.
Definition log_driver (f : Filter) (d : PollDriver) : Prop :=
  d_kind d = Logs f ∧ (∃ id, d_chain_id d = inr id) ∧ ∃ l, records (d_state d) = RecLogs l.

Lemma finish_finished err st : is_finished (finish err st) = true.
Proof. done. Qed.
Lemma poll_command_logs f d now c cs d' answer :
  log_driver f d → poll_command now d c = (Some d', answer) →
  log_driver f d' ∧
  pending_logs d ++ to_produce f d ((now, c) :: cs) =
    answered_logs (match answer with Some a => [a] | None => [] end) ++ pending_logs d' ++ to_produce f d' cs.
Proof.
  intros (Hk & [id Hid] & l & Hl) Hc. unfold poll_command in Hc. unfold to_produce. cbn [produced].
  destruct (dedup now (d_cache d) c) as [cache skip] eqn:Hd. cbn [d_state d_kind d_chain_id] in Hc.
  destruct skip.
  { injection Hc as <- <-. split; [by split_and!; eauto|]. destruct c as [[| |]|err| |]; by injection Hd. }
  destruct c as [e|err| |].
  - destruct (is_timed_out now (d_state d)); [done|]. destruct (is_finished (d_state d)) eqn:Hf.
    { injection Hc as <- <-. split; [by split_and!; eauto|]. cbn [d_state]. by rewrite Hf. }
    rewrite Hid, Hk, Hl in Hc. cbn [filter_of update] in Hc. destruct e as [b|tx|].
    + injection Hc as <- <-. injection Hd as <-. split; [by split_and!; eauto|].
      unfold pending_logs. cbn [d_state set_poll records d_cache]. unfold is_finished in *. cbn [finished]. by rewrite Hf, Hl.
    + destruct (tx_logs (Some f) tx) as [ls|e| |]; cbn [mbind outcome_bind] in Hc; try done; injection Hc as <- <-.
      * split; [by split_and!; eauto|]. unfold pending_logs. cbn [d_state set_poll records d_cache]. unfold is_finished in *.
        cbn [finished]. rewrite Hf, Hl. by rewrite <- app_assoc.
      * split; [by split_and!; eauto|]. unfold pending_logs. cbn [d_state set_poll]. by rewrite finish_finished.
    + injection Hc as <- <-. injection Hd as <-. split; [by split_and!; eauto|].
      unfold pending_logs. cbn [d_state set_poll records d_cache]. unfold is_finished in *. cbn [finished]. by rewrite Hf, Hl.
  - injection Hc as <- <-. split; [by split_and!; eauto|]. unfold pending_logs. cbn [d_state set_poll].
    rewrite finish_finished. by destruct (is_finished (d_state d)).
  - injection Hd as <-. unfold try_take in Hc. rewrite Hl in Hc. cbn [records_take] in Hc.
    destruct (if records_empty (RecLogs l) then finished (d_state d) else None) as [err|] eqn:Hfin.
    + destruct err; discriminate Hc.
    + injection Hc as <- <-. split; [by split_and!; eauto|]. unfold pending_logs. rewrite Hl.
      cbn [d_state set_poll records d_cache]. unfold is_finished. cbn [finished]. unfold answered_logs. cbn. by rewrite app_nil_r.
  - done.
Qed.

Lemma poll_run_logs f cs : ∀ d d' answers,
  log_driver f d → poll_run d cs = (Some d', answers) →
  log_driver f d' ∧ pending_logs d ++ to_produce f d cs = answered_logs answers ++ pending_logs d'.
Proof.
  induction cs as [|[now c] cs IH]; intros d d' answers Hd Hrun.
  - injection Hrun as <- <-. split; [done|]. unfold to_produce. destruct (is_finished _); cbn; by rewrite app_nil_r.
  - cbn [poll_run] in Hrun. destruct (poll_command now d c) as [[d1|] answer] eqn:Hc; [|done].
    destruct (poll_run d1 cs) as [d2 rest] eqn:Hr. cbn [fst snd] in Hrun. injection Hrun as -> <-.
    destruct (poll_command_logs f d now c cs d1 answer Hd Hc) as [Hd1 ->].
    destruct (IH d1 d' rest Hd1 Hr) as [Hd' Heq]. split; [done|]. rewrite Heq, app_assoc. f_equal.
    unfold answered_logs. by rewrite fmap_app, join_app.
Qed.

(** Polling loses and repeats nothing: however the polls fall between the updates,
    the logs handed out so far followed by those waiting are the logs of the
    transactions that came, each once and in their order; and a poll only ends the
    filter when nothing waits. *)
Theorem polling_exactly_once f chain_id timeout start cs d' answers :
  poll_run (driver_new (Logs f) (inr chain_id) timeout start) cs = (Some d', answers) →
  answered_logs answers ++ pending_logs d' = produced f ∅ cs ∧
  ∀ now, (poll_command now d' CmdTake).1 = None → pending_logs d' = [].
Proof.
  intros Hrun.
  assert (log_driver f (driver_new (Logs f) (inr chain_id) timeout start)) as Hd by (split_and!; eauto).
  destruct (poll_run_logs f cs _ _ _ Hd Hrun) as [(_ & _ & l & Hl) <-]. split; [done|].
  intros now. unfold poll_command, pending_logs. cbn [dedup d_state]. unfold try_take. rewrite Hl. cbn [records_take].
  unfold records_empty. case_bool_decide as He; [|done]. by apply nil_length_inv in He as ->.
Qed.
End polling.

(** ** Taking and removing

    The filters are in a map behind a lock that prefers writers.  A request for
    changes holds the lock for reading until it has its answer; the driver that ends
    removes its filter with the lock for writing, and keeps its mailbox until then. *)

Inductive DriverPhase := Receiving | Removing | Gone.
Inductive TakerPhase := Starting | Locked | Waiting | Answered.
Record MapState := mkMap { driver : DriverPhase; mailbox : list nat; takers : gmap nat TakerPhase }.
Definition reads (p : TakerPhase) : Prop := p = Locked ∨ p = Waiting.

Inductive map_step : MapState → MapState → Prop :=
(** The lock for reading is given unless a writer waits. *)
| step_lock d mb ts t : d ≠ Removing → ts !! t = Some Starting →
    map_step (mkMap d mb ts) (mkMap d mb (<[t := Locked]> ts))
(** The command goes to the mailbox, which holds ten. *)
| step_send d mb ts t : d ≠ Gone → ts !! t = Some Locked → (length mb < 10)%nat →
    map_step (mkMap d mb ts) (mkMap d (mb ++ [t]) (<[t := Waiting]> ts))
| step_missing mb ts t : ts !! t = Some Locked →
    map_step (mkMap Gone mb ts) (mkMap Gone mb (<[t := Answered]> ts))
(** A command is answered; the answer may be the last. *)
| step_answer mb ts t last :
    map_step (mkMap Receiving (t :: mb) ts) (mkMap (if last : bool then Removing else Receiving) mb (<[t := Answered]> ts))
(** The driver ends for another reason: it is uninstalled, or timed out. *)
| step_end mb ts : map_step (mkMap Receiving mb ts) (mkMap Removing mb ts)
| step_removed mb ts : (∀ t p, ts !! t = Some p → ¬ reads p) →
    map_step (mkMap Removing mb ts) (mkMap Gone [] ts).

(** A request for changes that is in the mailbox of a filter when its driver ends
    hangs: it waits for an answer and holds the lock, the driver waits for the lock and
    keeps the request, and no later request for any filter gets the lock. *)
Theorem removal_blocks_takes s s' t :
  driver s = Removing → takers s !! t = Some Waiting → rtc map_step s s' →
  driver s' = Removing ∧ takers s' !! t = Some Waiting ∧
  ∀ t', takers s !! t' = Some Starting → takers s' !! t' = Some Starting.
Proof.
  intros Hd Ht Hsteps. induction Hsteps as [s|s s1 s' Hstep _ IH]; [done|].
  assert (driver s1 = Removing ∧ takers s1 !! t = Some Waiting ∧
    ∀ t', takers s !! t' = Some Starting → takers s1 !! t' = Some Starting) as (Hd1 & Ht1 & Hs1).
  { inversion Hstep; subst; cbn [driver takers] in *; try done.
    - split; [done|]. split.
      + rewrite lookup_insert_ne; [done|]. intros ->. congruence.
      + intros t' Ht'. rewrite lookup_insert_ne; [done|]. intros ->. congruence.
    - exfalso. apply (H t Waiting Ht). by right. }
  destruct (IH Hd1 Ht1) as (? & ? & Hs'). split_and!; [done|done|]. intros t' Ht'. by apply Hs', Hs1.
Qed.

(** ** Witnesses *)

Definition log_filter : Filter :=
  mkFilter (Some 3) None (Some (Value (repeat 7 20))) [Some (Array [Some sample_topic; None; Some sample_hash]); None; None; None].
Definition log_queries : list Query := match to_queries (A:=Payload) (Logs log_filter) with Ok qs => qs | _ => [] end.
Lemma log_queries_ok : to_queries (A:=Payload) (Logs log_filter) = Ok log_queries.
Proof. vm_compute. reflexivity. Qed.
Lemma queries_select_witness :
  length log_queries = 6%nat ∧
  (Exists (conditions_hold 2 []) log_queries → False).
Proof.
  split; [vm_compute; reflexivity|]. intros Hq.
  apply (queries_select (A:=Payload) log_filter log_queries [sample_from] 2 [] log_queries_ok) in Hq as ((Hr & _) & _ & _); [|vm_compute; reflexivity].
  specialize (Hr 3 eq_refl). by apply Hr.
Defined.
Lemma filters_miss_nothing_witness :
  ∃ q, q ∈ log_queries ∧ query_matches 5 (tr_events sample_result) q.
Proof.
  apply (filters_miss_nothing (A:=Payload) log_filter log_queries sample_ret (Some sample_hash) (Some sample_topic) sample_result
    [([sample_topic], Some [1; 2; 255]); ([sample_topic], Some [1; 2; 255])] sample_hash 5 sample_hash 0 0
    (mkLog (repeat 7 20) [sample_topic] [1; 2; 255] sample_hash 5 sample_hash 0 0 0) 5).
  - exact log_queries_ok.
  - vm_compute. reflexivity.
  - exact sample_result_ok.
  - repeat constructor; apply sample_evm_event.
  - intros id a Ha. cbn [emitters sample_ret] in Ha. apply lookup_singleton_Some in Ha as [_ <-]. intros _. reflexivity.
  - vm_compute. left.
  - right. left.
  - vm_compute. reflexivity.
  - split; [intros n [= <-]; lia|discriminate].
Defined.

Definition tx_event (tx : bytes) : FilterCommand := CmdUpdate (DataTx (mkTxInfo 5 None tx sample_result)).
Definition poll_commands : list (Z * FilterCommand) :=
  [(1, tx_event [1]); (2, CmdTake); (3, tx_event [1]); (4, tx_event [2]); (5, CmdFinish None); (6, tx_event [3])].
Definition poll_result := poll_run (A:=Payload) (driver_new (Logs log_filter) (inr 1337) 60 0) poll_commands.
Lemma poll_result_counts :
  (match poll_result.1 with Some d => length (pending_logs d) | None => 0%nat end,
   length (answered_logs poll_result.2)) = (2, 2)%nat.
Proof. vm_compute. reflexivity. Qed.
Lemma polling_exactly_once_witness :
  length (produced (A:=Payload) log_filter ∅ poll_commands) = 4%nat.
Proof.
  pose proof poll_result_counts as Hc. destruct poll_result as [[d'|] answers] eqn:Hr; cbn [fst snd] in Hc; [|discriminate Hc].
  destruct (polling_exactly_once (A:=Payload) log_filter 1337 60 0 poll_commands d' answers Hr) as [<- _].
  rewrite length_app. injection Hc as -> ->. reflexivity.
Defined.

(** A poll arrives while the driver times out, and another after it. *)
Lemma removal_blocks_takes_witness :
  ∃ s, rtc map_step (mkMap Receiving [] {[ 0%nat := Starting; 1%nat := Starting ]}) s ∧
    ∀ s', rtc map_step s s' → takers s' !! 0%nat = Some Waiting ∧ takers s' !! 1%nat = Some Starting.
Proof.
  exists (mkMap Removing [0%nat] (<[0%nat := Waiting]> (<[0%nat := Locked]> {[ 0%nat := Starting; 1%nat := Starting ]}))). split.
  - eapply rtc_l; [apply (step_lock _ _ _ 0); [discriminate|reflexivity]|].
    eapply rtc_l; [apply (step_send _ _ _ 0); [discriminate|reflexivity|simpl; lia]|].
    eapply rtc_l; [apply step_end|]. apply rtc_refl.
  - intros s' Hs'. apply (removal_blocks_takes _ s' 0) in Hs' as (_ & Ht & Hs); [|reflexivity|reflexivity].
    split; [exact Ht|]. apply Hs. reflexivity.
Defined.
