(* ===== verification/Sol.v ===== *)
(** * What the contracts share: reverts, checked arithmetic and mappings

    The contracts under [contracts/src] are written in Solidity 0.8.  An operation on
    [uintN] that leaves the range reverts, except inside [unchecked] and for shifts,
    and a revert undoes the whole call: a function is an [outcome], and the state of
    an [Err] is lost.  Addresses are numbers, zero is the address that no one has.  A
    mapping is a finite map whose missing keys have the zero of the type. *)

From Stdlib Require Import Ascii String.
From stdpp Require Import base tactics numbers list gmap.
From S2P Require Import Prelude.

Open Scope Z_scope.

Notation address := Z (only parsing).

Inductive InvalidXnetMessageReason := ReasonSender | DstSubnet | ReasonNonce | ReasonValue | ReasonKind.

(** The errors of [IPCErrors.sol] that the modelled functions raise, those of
    [SubnetIDHelper], the panics of the language, and a call that failed. *)
Inductive SolError :=
| ArithmeticOverflow
| AssertFailed
| IndexOutOfBounds
| CallFailed
| AddressShouldBeValidator
| AlreadyRegisteredSubnet
| CannotConfirmFutureChanges
| CannotReleaseZero
| CannotSendCrossMsgToItself
| CheckpointAlreadyExists
| MaxMsgsPerBatchExceeded
| QuorumAlreadyProcessed
| CheckpointNotCreated
| BottomUpCheckpointAlreadySubmitted
| CollateralIsZero
| EmptyAddress
| FailedAddIncompleteQuorum
| FailedAddSignatory
| FailedRemoveIncompleteQuorum
| GatewayCannotBeZero
| InvalidActorAddress
| InvalidCollateral
| InvalidMajorityPercentage
| InvalidPowerScale
| InvalidSubmissionPeriod
| FacetCannotBeZero
| WrongGateway
| NotGateway
| EnforcedPause
| ExpectedPause
| NotOwner
| InvalidERC20Address
| CannotFindSubnet
| UnknownSubnet
| InvalidCheckpointEpoch
| CannotSubmitFutureCheckpoint
| InvalidCheckpointSource
| InvalidConfigurationNumber
| InvalidXnetMessage (reason : InvalidXnetMessageReason)
| InvalidRetentionHeight
| InvalidSignature
| InvalidSignatureErr (err : Z)
| InvalidPublicKeyLength
| InvalidSubnet
| NoCollateralToWithdraw
| NotAllValidatorsHaveLeft
| NotAuthorized (a : address)
| NotEmptySubnetCircSupply
| NotEnoughBalance
| NotEnoughCollateral
| NotEnoughFunds
| NotEnoughFundsToRelease
| NotEnoughSubnetCircSupply
| NotOwnerOfPublicKey
| NotRegisteredSubnet
| NotSystemActor
| NotValidator (a : address)
| OldConfigurationNumber
| PQDoesNotContainAddress
| PQEmpty
| ParentFinalityAlreadyCommitted
| SignatureReplay
| SubnetAlreadyKilled
| SubnetNotFound
| WithdrawExceedingCollateral
| ZeroMembershipWeight
| SubnetAlreadyBootstrapped
| SubnetNotBootstrapped
| MethodNotAllowed (reason : string)
| InvalidFederationPayload
| DuplicatedGenesisValidator
| NotEnoughGenesisValidators
| NoParentForSubnet
| NoAddressForRoot
| DifferentRootNetwork
| InvalidRoute
| UnexpectedSupplySource
| NoBalanceIncrease
| CannotExecuteEmptyEnvelope.

Notation result := (outcome SolError).

(** [require]-style guards: revert with [e] when [b] holds. *)
Definition revert_if (b : bool) (e : SolError) : result unit := if b then Err e else Ok ().

(** ** Arithmetic on [uintN] *)

Definition uint (bits x : Z) : Prop := 0 <= x < 2 ^ bits.
Definition checked (bits x : Z) : result Z :=
  if (0 <=? x) && (x <? 2 ^ bits) then Ok x else Err ArithmeticOverflow.
(** The truncation of [unchecked] blocks and of shifts. *)
Definition truncate (bits x : Z) : Z := x mod 2 ^ bits.

Lemma checked_Ok bits x : uint bits x → checked bits x = Ok x.
Proof.
  intros [H1 H2]. unfold checked.
  by rewrite (proj2 (Z.leb_le 0 x)), (proj2 (Z.ltb_lt x (2 ^ bits))) by lia.
Qed.
Lemma checked_inv bits x y : checked bits x = Ok y → y = x ∧ uint bits x.
Proof.
  unfold checked, uint. destruct (Z.leb_spec 0 x), (Z.ltb_spec x (2 ^ bits)); simpl; intros; simplify_eq. lia.
Qed.
Lemma truncate_small bits x : uint bits x → truncate bits x = x.
Proof. intros. by apply Z.mod_small. Qed.
Lemma revert_if_inv b e u : revert_if b e = Ok u → b = false.
Proof. by destruct b. Qed.

(** ** Mappings *)

Definition get0 {K} `{Countable K} (m : gmap K Z) (k : K) : Z := default 0 (m !! k).

Lemma get0_Some {K} `{Countable K} (m : gmap K Z) k v : m !! k = Some v → get0 m k = v.
Proof. unfold get0. by intros ->. Qed.
Lemma get0_insert {K} `{Countable K} (m : gmap K Z) k v : get0 (<[k := v]> m) k = v.
Proof. unfold get0. by rewrite lookup_insert_eq. Qed.
Lemma get0_insert_ne {K} `{Countable K} (m : gmap K Z) k k' v : k ≠ k' → get0 (<[k := v]> m) k' = get0 m k'.
Proof. intros. unfold get0. by rewrite lookup_insert_ne. Qed.

(** The sum of a field over a mapping. *)
Definition msum {A} (f : A → Z) (m : gmap Z A) : Z := map_fold (λ _ x acc, f x + acc) 0 m.

Section msum.
Context {A : Type} (f : A → Z).
Implicit Types (m : gmap Z A).

Lemma msum_empty : msum f ∅ = 0.
Proof. apply map_fold_empty. Qed.
Lemma msum_insert_new m k x : m !! k = None → msum f (<[k := x]> m) = f x + msum f m.
Proof. intros Hk. unfold msum. rewrite map_fold_insert_L; [done|intros; lia|done]. Qed.
Lemma msum_delete m k : msum f (delete k m) = msum f m - from_option f 0 (m !! k).
Proof.
  destruct (m !! k) as [x|] eqn:Hk; cbn.
  - rewrite <- (insert_delete_id m k x) at 2 by done. rewrite msum_insert_new by apply lookup_delete_eq. lia.
  - rewrite delete_id by done. lia.
Qed.
Lemma msum_insert m k x : msum f (<[k := x]> m) = msum f m - from_option f 0 (m !! k) + f x.
Proof.
  rewrite <- insert_delete_eq. rewrite msum_insert_new by apply lookup_delete_eq. rewrite msum_delete. lia.
Qed.
Lemma msum_nonneg m : (∀ k x, m !! k = Some x → 0 <= f x) → 0 <= msum f m.
Proof.
  induction m as [|k x m Hk IH] using map_ind; intros Hf; [by rewrite msum_empty|].
  rewrite msum_insert_new by done. pose proof (Hf k x (lookup_insert_eq m k x)).
  assert (0 <= msum f m); [|lia]. apply IH. intros k' x' Hx. apply (Hf k'). rewrite lookup_insert_ne; [done|congruence].
Qed.
Lemma msum_lookup_le m k x : (∀ k x, m !! k = Some x → 0 <= f x) → m !! k = Some x → f x <= msum f m.
Proof.
  intros Hf Hk. pose proof (msum_delete m k) as Hd. rewrite Hk in Hd. cbn in Hd.
  assert (0 <= msum f (delete k m)); [|lia]. apply msum_nonneg. intros k' x' [_ Hx]%lookup_delete_Some. by apply (Hf k').
Qed.
End msum.

(** ** Calls: a state and a result *)

Definition ST (S A : Type) : Type := S → result (S * A).
Definition gret {S A} (a : A) : ST S A := λ g, Ok (g, a).
Definition gbind {S A B} (m : ST S A) (f : A → ST S B) : ST S B := λ g,
  match m g with Ok (g, a) => f a g | Err e => Err e | Retry => Retry | Panic => Panic end.
Definition lift {S A} (o : result A) : ST S A := λ g,
  match o with Ok a => Ok (g, a) | Err e => Err e | Retry => Retry | Panic => Panic end.
Definition require {S} (b : bool) (e : SolError) : ST S unit := lift (revert_if (negb b) e).
Notation "'let*' x := m 'in' f" := (gbind m (λ x, f)) (at level 200, x pattern, f at level 200).
Notation "'do*' m ; f" := (gbind m (λ _, f)) (at level 200, m at level 99, f at level 200).

Section inversion.
Context {S A B : Type}.
Implicit Types (g : S).

Lemma gbind_inv (m : ST S A) (f : A → ST S B) g r :
  gbind m f g = Ok r → ∃ g1 a, m g = Ok (g1, a) ∧ f a g1 = Ok r.
Proof. unfold gbind. destruct (m g) as [[g1 a]| | |]; intros; simplify_eq. eauto. Qed.
Lemma lift_inv (o : result A) g g' a : lift o g = Ok (g', a) → g' = g ∧ o = Ok a.
Proof. unfold lift. destruct o; intros; by simplify_eq. Qed.
Lemma require_inv (b : bool) e g g' u : require b e g = Ok (g', u) → g' = g ∧ b = true.
Proof. unfold require, lift, revert_if. destruct b; intros; by simplify_eq/=. Qed.
Lemma gret_inv (a b : A) g g' : gret a g = Ok (g', b) → g' = g ∧ b = a.
Proof. unfold gret. intros. by simplify_eq. Qed.
End inversion.

(** Takes apart the [gbind _ _ _ = Ok _] in the context, with the primitives it is made of. *)
Ltac sol_inv :=
  match goal with
  | H : gbind _ _ _ = Ok _ |- _ => apply gbind_inv in H as (? & ? & ? & H)
  | H : lift _ _ = Ok (_, _) |- _ => apply lift_inv in H as [-> H]
  | H : require _ _ _ = Ok (_, _) |- _ => apply require_inv in H as [-> H]
  | H : gret _ _ = Ok (_, _) |- _ =>
      apply gret_inv in H as [-> H]; match type of H with ?b = _ => first [is_var b; subst b | try discriminate H] end
  | H : checked _ _ = Ok _ |- _ => apply checked_inv in H as [-> ?]
  end.
