(* ===== verification/PrioQueue.v ===== *)
(** * The priority queues of validators
    ([contracts/src/lib/priority/LibPQ.sol], [LibMinPQ.sol], [LibMaxPQ.sol])

    An indexed binary heap in storage: [posToAddress] is the array, from position 1,
    and [addressToPos] its inverse.  The keys are not in the heap: they are the powers
    of the validators, which the validator set keeps, so that an operation of the heap
    follows each change of a power.  [pw] is [validators.getPower].

    The two libraries are the same up to the comparison, and up to how a position is
    doubled: [LibMinPQ] multiplies, which reverts on overflow, and [LibMaxPQ] shifts,
    which truncates.  [order] holds the two.  Positions are [uint16], so the loops take
    at most 17 rounds; a loop that would need more is a [Panic], and the theorems show
    that there is none. *)

From stdpp Require Import base tactics numbers list gmap.
From Stdlib Require Import Lia.
From S2P Require Import Prelude Sol.

Open Scope Z_scope.

Record PQ := mkPQ { size : Z; addressToPos : gmap Z Z; posToAddress : gmap Z Z }.
Definition empty_pq : PQ := mkPQ 0 ∅ ∅.

(** ** Operations of [LibPQ] *)

Definition pq_contains (q : PQ) (validator : address) : bool := negb (get0 (addressToPos q) validator =? 0).
Definition requireNotEmpty (q : PQ) : result unit := revert_if (size q =? 0) PQEmpty.
Definition getPosOrRevert (q : PQ) (validator : address) : result Z :=
  let pos := get0 (addressToPos q) validator in
  _ ← revert_if (pos =? 0) PQDoesNotContainAddress; Ok pos.
Definition getAddress (q : PQ) (pos : Z) : address := get0 (posToAddress q) pos.
Definition del (q : PQ) (pos : Z) : PQ :=
  let addr := getAddress q pos in
  mkPQ (size q) (delete addr (addressToPos q)) (delete pos (posToAddress q)).
Definition exchange (q : PQ) (pos1 pos2 : Z) : result PQ :=
  _ ← revert_if (negb (pos1 <=? size q)) AssertFailed;
  _ ← revert_if (negb (pos2 <=? size q)) AssertFailed;
  let addr1 := getAddress q pos1 in
  let addr2 := getAddress q pos2 in
  Ok (mkPQ (size q)
    (<[addr2 := pos1]> (<[addr1 := pos2]> (addressToPos q)))
    (<[pos1 := addr2]> (<[pos2 := addr1]> (posToAddress q)))).
Definition set_size (q : PQ) (n : Z) : PQ := mkPQ n (addressToPos q) (posToAddress q).

(** ** Operations of [LibMinPQ] and [LibMaxPQ] *)

Record order := mkOrder {
  (** [firstValueLarger], or [firstValueSmaller] *)
  above : Z → Z → bool;
  (** [pos * 2], or [pos << 1] *)
  twice : Z → result Z;
}.
Definition min_order : order := mkOrder (λ v1 v2, v2 <? v1) (λ pos, checked 16 (pos * 2)).
Definition max_order : order := mkOrder (λ v1 v2, v1 <? v2) (λ pos, Ok (truncate 16 (Z.shiftl pos 1))).

Definition LOOPS : nat := 17.

Section ops.
Context (o : order) (pw : address → Z).

Definition getPower (q : PQ) (pos : Z) : Z := pw (getAddress q pos).

Fixpoint swim_loop (rounds : nat) (q : PQ) (pos value : Z) : result PQ :=
  if 1 <? pos then
    match rounds with
    | O => Panic
    | S rounds =>
        let parentPos := Z.shiftr pos 1 in
        let parentPower := getPower q parentPos in
        if above o parentPower value then
          q ← exchange q parentPos pos;
          swim_loop rounds q parentPos value
        else Ok q
    end
  else Ok q.
Definition swim (q : PQ) (pos value : Z) : result PQ := swim_loop LOOPS q pos value.

(** [smallerPosition], or [largerPosition] *)
Definition firstPosition (q : PQ) (pos1 pos2 : Z) : Z * Z :=
  let value1 := getPower q pos1 in
  let value2 := getPower q pos2 in
  if above o value1 value2 then (pos2, value2) else (pos1, value1).

Fixpoint sink_loop (rounds : nat) (q : PQ) (pos childPos value : Z) : result PQ :=
  if childPos <=? size q then
    match rounds with
    | O => Panic
    | S rounds =>
        c ← (if childPos <? size q then
               next ← checked 16 (childPos + 1); Ok (firstPosition q childPos next)
             else Ok (childPos, getPower q childPos));
        if above o value c.2 then
          q ← exchange q c.1 pos;
          childPos ← twice o c.1;
          sink_loop rounds q c.1 childPos value
        else Ok q
    end
  else Ok q.
Definition sink (q : PQ) (pos value : Z) : result PQ :=
  childPos ← twice o pos; sink_loop LOOPS q pos childPos value.

Definition insert (q : PQ) (validator : address) : result PQ :=
  n ← checked 16 (size q + 1);
  let q := mkPQ n (<[validator := n]> (addressToPos q)) (<[n := validator]> (posToAddress q)) in
  swim q n (pw validator).

Definition pop (q : PQ) : result PQ :=
  _ ← requireNotEmpty q;
  let n := size q in
  q ← exchange q 1 n;
  let q := del (set_size q (n - 1)) n in
  sink q 1 (getPower q 1).

Definition deleteReheapify (q : PQ) (validator : address) : result PQ :=
  pos ← getPosOrRevert q validator;
  let n := size q in
  q ← exchange q pos n;
  let q := del (set_size q (n - 1)) n in
  if n =? pos then Ok q
  else
    q ← swim q pos (getPower q pos);
    sink q pos (getPower q pos).

(** [min], or [max] *)
Definition first (q : PQ) : result (address * Z) :=
  _ ← requireNotEmpty q;
  let addr := getAddress q 1 in Ok (addr, pw addr).

(** In a min queue a larger power sinks and a smaller one swims, in a max queue the
    other way round. *)
Definition reheapify_down (q : PQ) (validator : address) : result PQ :=
  pos ← getPosOrRevert q validator; sink q pos (pw validator).
Definition reheapify_up (q : PQ) (validator : address) : result PQ :=
  pos ← getPosOrRevert q validator; swim q pos (pw validator).
End ops.

Definition min_increaseReheapify pw := reheapify_down min_order pw.
Definition min_decreaseReheapify pw := reheapify_up min_order pw.
Definition max_increaseReheapify pw := reheapify_up max_order pw.
Definition max_decreaseReheapify pw := reheapify_down max_order pw.

(** ** The heap property

    Stated of the powers by position, [P], of the first [n] positions. *)

Definition swap (i j k : Z) : Z := if k =? i then j else if k =? j then i else k.

Section heap.
Context (o : order).
Notation le v1 v2 := (above o v1 v2 = false).

Record good_order : Prop := {
  above_asym v1 v2 : above o v1 v2 = true → le v2 v1;
  above_trans v1 v2 v3 : le v1 v2 → le v2 v3 → le v1 v3;
  twice_small pos : 0 <= pos < 2 ^ 15 → twice o pos = Ok (2 * pos);
}.
Hypothesis (Ho : good_order).

Definition heap (P : Z → Z) (n : Z) : Prop := ∀ i, 2 <= i <= n → le (P (i / 2)) (P i).
(** A heap but for [pos], which may be too far down, or too far up. *)
Definition heap_grand (P : Z → Z) (n pos : Z) : Prop :=
  ∀ i, 2 <= i <= n → i / 2 = pos → 2 <= pos → le (P (pos / 2)) (P i).
Definition heap_but_up (P : Z → Z) (n pos : Z) : Prop :=
  (∀ i, 2 <= i <= n → i ≠ pos → le (P (i / 2)) (P i)) ∧ heap_grand P n pos.
Definition heap_but_down (P : Z → Z) (n pos : Z) : Prop :=
  (∀ i, 2 <= i <= n → i / 2 ≠ pos → le (P (i / 2)) (P i)) ∧ heap_grand P n pos.

Lemma above_le_refl v : le v v.
Proof. destruct (above o v v) eqn:E; [|done]. pose proof (above_asym Ho v v E). congruence. Qed.

Lemma heap_ext P P' n : (∀ k, P k = P' k) → heap P n → heap P' n.
Proof. intros HP H i Hi. rewrite <- !HP. by apply H. Qed.
Lemma heap_but_up_ext P P' n pos : (∀ k, P k = P' k) → heap_but_up P n pos → heap_but_up P' n pos.
Proof. intros HP [H1 H2]. split; intros i Hi; rewrite <- !HP; [by apply H1|by apply H2]. Qed.
Lemma heap_but_down_ext P P' n pos : (∀ k, P k = P' k) → heap_but_down P n pos → heap_but_down P' n pos.
Proof. intros HP [H1 H2]. split; intros i Hi; rewrite <- !HP; [by apply H1|by apply H2]. Qed.

Ltac half i := pose proof (Z.div_mod i 2 ltac:(lia)); pose proof (Z.mod_pos_bound i 2 ltac:(lia)).
Ltac swaps := unfold swap; repeat match goal with |- context [?a =? ?b] => destruct (Z.eqb_spec a b) end; subst; try lia.

Lemma heap_up_step P n pos :
  2 <= pos <= n → heap_but_up P n pos → above o (P (pos / 2)) (P pos) = true →
  heap_but_up (λ k, P (swap (pos / 2) pos k)) n (pos / 2).
Proof.
  intros Hpos [H1 H2] Ha. pose proof (above_asym Ho _ _ Ha) as Hle. half pos. split.
  - intros i Hi Hne. half i. swaps; try done.
    + pose proof (H1 i Hi ltac:(lia)) as Hi'. replace (i / 2) with (pos / 2) in Hi' by lia.
      by apply (above_trans Ho _ (P (pos / 2))).
    + apply H2; lia.
    + apply H1; lia.
  - intros i Hi Hpar Hge. half i. half (pos / 2). half (i / 2). rewrite Hpar in *.
    pose proof (H1 (pos / 2) ltac:(lia) ltac:(lia)) as Hpp. swaps; try done.
    pose proof (H1 i Hi ltac:(lia)) as Hi'. rewrite Hpar in Hi'.
    by apply (above_trans Ho _ (P (pos / 2))).
Qed.
Lemma heap_up_done P n pos : heap_but_up P n pos → (2 <= pos → le (P (pos / 2)) (P pos)) → heap P n.
Proof.
  intros [H1 _] Hle i Hi. destruct (decide (i = pos)) as [->|]; [apply Hle; lia|by apply H1].
Qed.

Lemma heap_down_step P n pos c :
  2 <= c <= n → c / 2 = pos → (∀ i, 2 <= i <= n → i / 2 = pos → le (P c) (P i)) →
  heap_but_down P n pos → above o (P pos) (P c) = true → heap_but_down (λ k, P (swap c pos k)) n c.
Proof.
  intros Hc Hpar Hmin [H1 H2] Ha. pose proof (above_asym Ho _ _ Ha) as Hle. half c. split.
  - intros i Hi Hne. half i. swaps; try done.
    + apply Hmin; [done|lia].
    + apply (H2 c); lia.
    + apply H1; lia.
  - intros i Hi Hci Hge. half i. swaps; try done. apply H1; lia.
Qed.
Lemma heap_down_done P n pos :
  heap_but_down P n pos → (∀ i, 2 <= i <= n → i / 2 = pos → le (P pos) (P i)) → heap P n.
Proof.
  intros [H1 _] Hle i Hi. destruct (decide (i / 2 = pos)) as [Heq|]; [rewrite Heq; by apply Hle|by apply H1].
Qed.

Lemma heap_but_up_of_heap P n pos : 1 <= pos → heap P n → heap_but_up P n pos.
Proof.
  intros Hpos H. split; [intros i Hi _; by apply H|]. intros i Hi Hpar Hge. half i.
  pose proof (H i Hi) as Hi'. rewrite Hpar in Hi'. apply (above_trans Ho _ (P pos)); [apply H; lia|done].
Qed.
Lemma heap_but_down_of_heap P n pos : 1 <= pos → heap P n → heap_but_down P n pos.
Proof.
  intros Hpos H. split; [intros i Hi _; by apply H|]. by apply heap_but_up_of_heap.
Qed.

(** The first position has the first power. *)
Lemma heap_first P n : heap P n → ∀ i, 1 <= i <= n → le (P 1) (P i).
Proof.
  intros H i [H0 Hn]. revert H0 Hn. induction (Z.lt_wf 0 i) as [i _ IH]. intros H0 Hn.
  destruct (decide (i = 1)) as [->|]; [apply above_le_refl|]. half i.
  apply (above_trans Ho _ (P (i / 2))); [apply IH; lia|apply H; lia].
Qed.
End heap.

(** ** The representation *)

Record pq_ok (q : PQ) : Prop := {
  ok_size : 0 <= size q < 2 ^ 15;
  ok_inverse a p : addressToPos q !! a = Some p ↔ posToAddress q !! p = Some a;
  ok_dom p : is_Some (posToAddress q !! p) ↔ 1 <= p <= size q;
}.
Definition members (q : PQ) : gset Z := dom (addressToPos q).
Lemma elem_of_members q a : a ∈ members q ↔ is_Some (addressToPos q !! a).
Proof. apply elem_of_dom. Qed.

Lemma pq_ok_empty : pq_ok empty_pq.
Proof.
  split; simpl; [lia|done|]. intros p. rewrite lookup_empty. split; [by intros []|lia].
Qed.
Lemma ok_at q p : pq_ok q → 1 <= p <= size q →
  posToAddress q !! p = Some (getAddress q p) ∧ addressToPos q !! getAddress q p = Some p.
Proof.
  intros Hq [a Ha]%(ok_dom q Hq). unfold getAddress, get0. rewrite Ha. split; [done|]. by apply (ok_inverse q Hq).
Qed.
Lemma ok_member q a : pq_ok q → a ∈ members q →
  ∃ p, 1 <= p <= size q ∧ get0 (addressToPos q) a = p ∧ getAddress q p = a.
Proof.
  intros Hq [p Hp]%elem_of_members. exists p. pose proof (proj1 (ok_inverse q Hq a p) Hp) as Ha. split; [|split].
  - apply (ok_dom q Hq). by rewrite Ha.
  - unfold get0. by rewrite Hp.
  - unfold getAddress, get0. by rewrite Ha.
Qed.
Lemma getAddress_member q p : pq_ok q → 1 <= p <= size q → getAddress q p ∈ members q.
Proof. intros Hq Hp. apply elem_of_members. exists p. by apply ok_at. Qed.
Lemma getAddress_inj q p p' : pq_ok q → 1 <= p <= size q → 1 <= p' <= size q →
  getAddress q p = getAddress q p' → p = p'.
Proof.
  intros Hq [_ H1]%(ok_at q p Hq) [_ H2]%(ok_at q p' Hq) Heq. rewrite Heq in H1. congruence.
Qed.
Lemma pq_contains_spec q a : pq_ok q → pq_contains q a = bool_decide (a ∈ members q).
Proof.
  intros Hq. unfold pq_contains. destruct (decide (a ∈ members q)) as [Ha|Ha].
  - rewrite bool_decide_true by done. destruct (ok_member q a Hq Ha) as (p & Hp & -> & _).
    by rewrite (proj2 (Z.eqb_neq p 0)) by lia.
  - rewrite bool_decide_false by done. rewrite elem_of_members in Ha. apply eq_None_not_Some in Ha. unfold get0. by rewrite Ha.
Qed.
Lemma getPosOrRevert_ok q a : pq_ok q → a ∈ members q →
  ∃ p, getPosOrRevert q a = Ok p ∧ 1 <= p <= size q ∧ getAddress q p = a.
Proof.
  intros Hq Ha. destruct (ok_member q a Hq Ha) as (p & Hp & Hg & Hat). exists p. split; [|done].
  unfold getPosOrRevert. rewrite Hg. unfold revert_if. by rewrite (proj2 (Z.eqb_neq p 0)) by lia.
Qed.
Lemma members_size q : pq_ok q → Z.of_nat (base.size (members q)) = size q.
Proof.
  intros Hq. pose proof (ok_size q Hq) as Hs. unfold members.
  assert (dom (addressToPos q) ≡ list_to_set (getAddress q <$> seqZ 1 (size q))) as ->.
  { intros a. rewrite elem_of_list_to_set, list_elem_of_fmap. split.
    - intros (p & Hp & _ & <-)%(ok_member q a Hq). exists p. split; [done|]. apply elem_of_seqZ. lia.
    - intros (p & -> & Hp%elem_of_seqZ). apply getAddress_member; [done|lia]. }
  rewrite size_list_to_set.
  - rewrite length_fmap, length_seqZ. lia.
  - apply NoDup_fmap_2_strong; [|apply NoDup_seqZ].
    intros p p' Hp%elem_of_seqZ Hp'%elem_of_seqZ. apply getAddress_inj; [done|lia|lia].
Qed.
Lemma members_empty q : pq_ok q → size q = 0 → members q = ∅.
Proof.
  intros Hq H0. apply leibniz_equiv, size_empty_iff. pose proof (members_size q Hq). lia.
Qed.

Lemma swapped_inverse q i j a p : pq_ok q → 1 <= i <= size q → 1 <= j <= size q →
  (getAddress q j = a ∧ i = p ∨
   getAddress q j ≠ a ∧ (getAddress q i = a ∧ j = p ∨ getAddress q i ≠ a ∧ posToAddress q !! p = Some a)) ↔
  (i = p ∧ getAddress q j = a ∨ i ≠ p ∧ (j = p ∧ getAddress q i = a ∨ j ≠ p ∧ posToAddress q !! p = Some a)).
Proof.
  intros Hq Hi Hj. destruct (ok_at q i Hq Hi) as [Hi1 _], (ok_at q j Hq Hj) as [Hj1 _].
  assert (∀ p p' a, posToAddress q !! p = Some a → posToAddress q !! p' = Some a → p = p') as Hinj.
  { intros ??? H1%(ok_inverse q Hq) H2%(ok_inverse q Hq). congruence. }
  revert Hi1 Hj1. generalize (getAddress q i) (getAddress q j). intros a1 a2 H1 H2.
  pose proof (Hinj p i a1) as K1. pose proof (Hinj p j a2) as K2.
  assert (a1 = a2 → i = j) as K3 by (intros ->; eauto).
  destruct (decide (i = p)), (decide (j = p)), (decide (a1 = a)), (decide (a2 = a)); subst; intuition congruence.
Qed.
Lemma exchange_ok q i j : pq_ok q → 1 <= i <= size q → 1 <= j <= size q →
  ∃ q', exchange q i j = Ok q' ∧ pq_ok q' ∧ size q' = size q ∧ members q' = members q ∧
    ∀ k, getAddress q' k = getAddress q (swap i j k).
Proof.
  intros Hq Hi Hj. unfold exchange.
  rewrite (proj2 (Z.leb_le i (size q))), (proj2 (Z.leb_le j (size q))) by lia. cbn.
  eexists. split; [reflexivity|]. destruct (ok_at q i Hq Hi) as [Hi1 Hi2], (ok_at q j Hq Hj) as [Hj1 Hj2].
  pose proof (getAddress_inj q i j Hq Hi Hj) as Hinj. split_and!.
  - split; cbn [size addressToPos posToAddress]; [apply (ok_size q Hq)| |].
    + intros a p. rewrite !lookup_insert_Some, (ok_inverse q Hq). by apply swapped_inverse.
    + intros p. rewrite !lookup_insert_is_Some', (ok_dom q Hq). naive_solver.
  - done.
  - unfold members. cbn. rewrite !dom_insert_L. apply set_eq. intros a. rewrite !elem_of_union, !elem_of_singleton, elem_of_dom.
    naive_solver.
  - intros k. unfold getAddress at 1, get0, swap. cbn.
    destruct (Z.eqb_spec k i) as [->|Hki]; [by rewrite lookup_insert_eq|].
    rewrite lookup_insert_ne by done. destruct (Z.eqb_spec k j) as [->|Hkj]; [by rewrite lookup_insert_eq|].
    by rewrite lookup_insert_ne by done.
Qed.

(** ** The operations keep the heap *)

Section specs.
Context (o : order) (Ho : good_order o) (pw : address → Z).
Notation le v1 v2 := (above o v1 v2 = false).
Notation P q := (getPower pw q).

Definition pq_heap (q : PQ) : Prop := pq_ok q ∧ heap o (P q) (size q).
(** [q'] holds the same validators as [q]. *)
Definition same_members (q q' : PQ) : Prop := size q' = size q ∧ members q' = members q.

Ltac stay q := exists q; split; [reflexivity|split; [split; [assumption|]|split; reflexivity]].

Lemma exchange_power q i j : pq_ok q → 1 <= i <= size q → 1 <= j <= size q →
  ∃ q', exchange q i j = Ok q' ∧ pq_ok q' ∧ same_members q q' ∧ ∀ k, P q' k = P q (swap i j k).
Proof.
  intros Hq Hi Hj. destruct (exchange_ok q i j Hq Hi Hj) as (q' & He & Hq' & Hs & Hm & Hat).
  exists q'. split_and!; try done. intros k. unfold getPower. by rewrite Hat.
Qed.

Lemma swim_loop_ok rounds : ∀ q pos, pq_ok q → 1 <= pos <= size q → pos < 2 ^ Z.of_nat rounds →
  heap_but_up o (P q) (size q) pos →
  ∃ q', swim_loop o pw rounds q pos (P q pos) = Ok q' ∧ pq_heap q' ∧ same_members q q'.
Proof.
  induction rounds as [|rounds IH]; intros q pos Hq Hpos Hr Hup; [simpl in Hr; lia|].
  cbn [swim_loop]. destruct (Z.ltb_spec 1 pos) as [H1|H1].
  2: { stay q. apply (heap_up_done o _ _ pos); [done|lia]. }
  rewrite Z.shiftr_div_pow2 by lia. change (2 ^ 1) with 2.
  pose proof (Z.div_mod pos 2 ltac:(lia)). pose proof (Z.mod_pos_bound pos 2 ltac:(lia)).
  destruct (above o (P q (pos / 2)) (P q pos)) eqn:Ha.
  2: { stay q. by apply (heap_up_done o _ _ pos). }
  destruct (exchange_power q (pos / 2) pos Hq ltac:(lia) Hpos) as (q1 & -> & Hq1 & [Hs Hm] & HP). cbn.
  destruct (IH q1 (pos / 2)) as (q' & Hq' & Hh & Hs' & Hm').
  - done.
  - lia.
  - rewrite Nat2Z.inj_succ, Z.pow_succ_r in Hr by lia. lia.
  - rewrite Hs. eapply (heap_but_up_ext o); [symmetry; apply HP|]. apply (heap_up_step o Ho); [lia|done|done].
  - exists q'. rewrite HP in Hq'. unfold swap in Hq'. rewrite Z.eqb_refl in Hq'.
    split; [done|]. split; [done|]. split; [lia|congruence].
Qed.
Lemma swim_ok q pos v : pq_ok q → 1 <= pos <= size q → v = P q pos → heap_but_up o (P q) (size q) pos →
  ∃ q', swim o pw q pos v = Ok q' ∧ pq_heap q' ∧ same_members q q'.
Proof.
  intros Hq Hpos -> Hup. pose proof (ok_size q Hq). apply swim_loop_ok; try done.
  change (2 ^ Z.of_nat LOOPS) with 131072. lia.
Qed.

(** The child that the loop compares with is a first one among the children. *)
Lemma firstPosition_spec q c : 2 <= c → c < size q → c mod 2 = 0 →
  let r := firstPosition o pw q c (c + 1) in
  2 <= r.1 <= size q ∧ r.1 / 2 = c / 2 ∧ r.2 = P q r.1 ∧
  ∀ i, 2 <= i <= size q → i / 2 = c / 2 → le (P q r.1) (P q i).
Proof.
  intros Hc Hlt Hev r. pose proof (Z.div_mod c 2 ltac:(lia)).
  assert ((c + 1) / 2 = c / 2) as Hdiv by (symmetry; apply (Z.div_unique (c + 1) 2 (c / 2) 1); lia).
  assert (∀ i, i / 2 = c / 2 → i = c ∨ i = c + 1) as Hch.
  { intros i Hi. pose proof (Z.div_mod i 2 ltac:(lia)). pose proof (Z.mod_pos_bound i 2 ltac:(lia)). lia. }
  unfold r, firstPosition. destruct (above o (P q c) (P q (c + 1))) eqn:Ha; cbn [fst snd].
  - split_and!; try lia; try done. intros i _ [->| ->]%Hch; [by apply (above_asym o Ho)|by apply above_le_refl].
  - split_and!; try lia; try done. intros i _ [->| ->]%Hch; [by apply above_le_refl|done].
Qed.

Lemma sink_loop_ok rounds : ∀ q pos, pq_ok q → 1 <= pos → size q < 2 * pos * 2 ^ Z.of_nat rounds →
  heap_but_down o (P q) (size q) pos →
  ∃ q', sink_loop o pw rounds q pos (2 * pos) (P q pos) = Ok q' ∧ pq_heap q' ∧ same_members q q'.
Proof.
  induction rounds as [|rounds IH]; intros q pos Hq Hpos Hr Hdown; cbn [sink_loop];
    destruct (Z.leb_spec (2 * pos) (size q)) as [Hc|Hc].
  1: { simpl in Hr. lia. }
  1, 3: stay q; apply (heap_down_done o _ _ pos); [done|];
    intros i Hi Hp; pose proof (Z.div_mod i 2 ltac:(lia)); pose proof (Z.mod_pos_bound i 2 ltac:(lia)); lia.
  pose proof (ok_size q Hq) as Hsz. assert (2 * pos / 2 = pos) as Hdiv by (rewrite Z.mul_comm; by apply Z.div_mul).
  assert (∃ c, (if 2 * pos <? size q then next ← checked 16 (2 * pos + 1); Ok (firstPosition o pw q (2 * pos) next)
                else Ok (2 * pos, P q (2 * pos))) = Ok (c, P q c) ∧ 2 <= c <= size q ∧ c / 2 = pos ∧
            ∀ i, 2 <= i <= size q → i / 2 = pos → le (P q c) (P q i)) as (c & -> & Hcr & Hcp & Hmin).
  { destruct (Z.ltb_spec (2 * pos) (size q)) as [Hlt|Hge].
    - rewrite checked_Ok by (unfold uint; lia). cbn.
      destruct (firstPosition_spec q (2 * pos) ltac:(lia) Hlt) as (H1 & H2 & H3 & H4).
      { rewrite Z.mul_comm. by apply Z.mod_mul. }
      destruct (firstPosition o pw q (2 * pos) (2 * pos + 1)) as [c v]. cbn [fst snd] in *. rewrite Hdiv in *. subst v. by exists c.
    - exists (2 * pos). split_and!; try done; try lia. intros i Hi Hp.
      assert (i = 2 * pos) as -> by (pose proof (Z.div_mod i 2 ltac:(lia)); pose proof (Z.mod_pos_bound i 2 ltac:(lia)); lia).
      by apply above_le_refl. }
  cbn. destruct (above o (P q pos) (P q c)) eqn:Ha.
  2: { stay q. apply (heap_down_done o _ _ pos); [done|].
       intros i Hi Hp. apply (above_trans o Ho _ (P q c)); [done|by apply Hmin]. }
  pose proof (Z.div_mod c 2 ltac:(lia)). pose proof (Z.mod_pos_bound c 2 ltac:(lia)).
  destruct (exchange_power q c pos Hq ltac:(lia) ltac:(lia)) as (q1 & -> & Hq1 & [Hs Hm] & HP). cbn.
  rewrite (twice_small o Ho) by lia. cbn. destruct (IH q1 c) as (q' & Hq' & Hh & Hs' & Hm').
  - done.
  - lia.
  - rewrite Nat2Z.inj_succ, Z.pow_succ_r in Hr by lia. rewrite Hs.
    assert (2 * pos * (2 * 2 ^ Z.of_nat rounds) <= 2 * c * 2 ^ Z.of_nat rounds) by nia. lia.
  - rewrite Hs. eapply (heap_but_down_ext o); [symmetry; apply HP|]. by apply (heap_down_step o Ho _ _ pos).
  - exists q'. rewrite HP in Hq'. unfold swap in Hq'. rewrite Z.eqb_refl in Hq'.
    split; [done|]. split; [done|]. split; [lia|congruence].
Qed.
Lemma sink_ok q pos v : pq_ok q → 1 <= pos < 2 ^ 15 → v = P q pos → heap_but_down o (P q) (size q) pos →
  ∃ q', sink o pw q pos v = Ok q' ∧ pq_heap q' ∧ same_members q q'.
Proof.
  intros Hq Hpos -> Hup. pose proof (ok_size q Hq). unfold sink. rewrite (twice_small o Ho) by lia. cbn [mbind outcome_bind].
  apply sink_loop_ok; try done; [lia|]. change (2 ^ Z.of_nat LOOPS) with 131072. lia.
Qed.

(** ** Inserting *)

Lemma insert_ok q a : pq_heap q → a ∉ members q → size q + 1 < 2 ^ 15 →
  ∃ q', insert o pw q a = Ok q' ∧ pq_heap q' ∧ size q' = size q + 1 ∧ members q' = {[a]} ∪ members q.
Proof.
  intros [Hq Hh] Ha Hs. pose proof (ok_size q Hq). unfold insert. rewrite checked_Ok by (unfold uint; lia).
  cbn [mbind outcome_bind]. set (n := size q + 1) in *.
  set (q1 := mkPQ n (<[a := n]> (addressToPos q)) (<[n := a]> (posToAddress q))).
  rewrite elem_of_members, <- eq_None_not_Some in Ha.
  assert (posToAddress q !! n = None) as Hn.
  { apply eq_None_not_Some. rewrite (ok_dom q Hq). unfold n. lia. }
  assert (pq_ok q1) as Hq1.
  { split; unfold q1; cbn [size addressToPos posToAddress].
    - lia.
    - intros b p. rewrite !lookup_insert_Some. pose proof (ok_inverse q Hq b p) as Hinv.
      split; [intros [[<- <-]|[? Hb]]|intros [[<- <-]|[? Hb]]]; auto.
      + right. split; [intros <-; apply Hinv in Hb; congruence|by apply Hinv].
      + right. split; [intros <-; apply Hinv in Hb; congruence|by apply Hinv].
    - intros p. rewrite lookup_insert_is_Some', (ok_dom q Hq). unfold n. lia. }
  assert (∀ k, getAddress q1 k = if k =? n then a else getAddress q k) as Hat.
  { intros k. unfold getAddress, get0, q1. cbn. destruct (Z.eqb_spec k n) as [->|]; [by rewrite lookup_insert_eq|].
    by rewrite lookup_insert_ne by done. }
  destruct (swim_ok q1 n (pw a)) as (q' & Hsw & Hh' & Hs' & Hm').
  - done.
  - cbn. lia.
  - unfold getPower. rewrite Hat. by rewrite Z.eqb_refl.
  - split.
    + intros i Hi Hne. cbn in Hi. unfold getPower. rewrite !Hat.
      pose proof (Z.div_mod i 2 ltac:(lia)). pose proof (Z.mod_pos_bound i 2 ltac:(lia)).
      rewrite (proj2 (Z.eqb_neq i n)), (proj2 (Z.eqb_neq (i / 2) n)) by lia. apply Hh. unfold n in *. lia.
    + intros i Hi Hp. cbn in Hi. pose proof (Z.div_mod i 2 ltac:(lia)). pose proof (Z.mod_pos_bound i 2 ltac:(lia)). lia.
  - exists q'. split_and!; [done|done|done|]. rewrite Hm'. unfold members, q1. cbn. by rewrite dom_insert_L.
Qed.

(** ** Changing a power

    A heap for the powers [pw0] is a heap for [pw] but for the one validator whose
    power is another. *)
Definition hole (P : Z → Z) (n pos : Z) : Prop :=
  (∀ i, 2 <= i <= n → i ≠ pos → i / 2 ≠ pos → le (P (i / 2)) (P i)) ∧ heap_grand o P n pos.

Lemma hole_cases P n pos : hole P n pos → 1 <= pos →
  heap_but_down o P n pos ∨ heap_but_up o P n pos ∧ above o (P (pos / 2)) (P pos) = true ∧ 2 <= pos.
Proof.
  intros [H1 H2] Hpos. destruct (decide (2 <= pos)) as [Hge|Hlt].
  - destruct (above o (P (pos / 2)) (P pos)) eqn:Ha; [right|left].
    + split; [|done]. split; [|done]. intros i Hi Hne. destruct (decide (i / 2 = pos)) as [Heq|]; [|by apply H1].
      rewrite Heq. apply (above_trans o Ho _ (P (pos / 2))); [by apply (above_asym o Ho)|by apply H2].
    + split; [|done]. intros i Hi Hne. destruct (decide (i = pos)) as [->|]; [done|by apply H1].
  - left. split; [|done]. intros i Hi Hne. apply H1; [done|lia|done].
Qed.

Lemma changed_power pw0 q a pos : pq_ok q → heap o (getPower pw0 q) (size q) →
  1 <= pos <= size q → getAddress q pos = a → (∀ b, b ≠ a → pw b = pw0 b) →
  hole (P q) (size q) pos ∧ (∀ k, 1 <= k <= size q → k ≠ pos → P q k = getPower pw0 q k).
Proof.
  intros Hq Hh Hpos Ha Hpw.
  assert (∀ k, 1 <= k <= size q → k ≠ pos → P q k = getPower pw0 q k) as HP.
  { intros k Hk Hne. unfold getPower. apply Hpw. rewrite <- Ha. intros He. by apply Hne, (getAddress_inj q). }
  split; [split|done].
  - intros i Hi H1 H2. pose proof (Z.div_mod i 2 ltac:(lia)). pose proof (Z.mod_pos_bound i 2 ltac:(lia)).
    rewrite !HP by lia. by apply Hh.
  - intros i Hi Hp Hge. pose proof (Z.div_mod i 2 ltac:(lia)). pose proof (Z.mod_pos_bound i 2 ltac:(lia)).
    pose proof (Z.div_mod pos 2 ltac:(lia)). pose proof (Z.mod_pos_bound pos 2 ltac:(lia)).
    rewrite !HP by lia. apply (above_trans o Ho _ (getPower pw0 q pos)); [apply Hh; lia|].
    rewrite <- Hp at 1. by apply Hh.
Qed.
Lemma unchanged_power pw0 q a : pq_ok q → heap o (getPower pw0 q) (size q) → a ∉ members q →
  (∀ b, b ≠ a → pw b = pw0 b) → heap o (P q) (size q).
Proof.
  intros Hq Hh Ha Hpw i Hi. pose proof (Z.div_mod i 2 ltac:(lia)). pose proof (Z.mod_pos_bound i 2 ltac:(lia)).
  assert (∀ k, 1 <= k <= size q → P q k = getPower pw0 q k) as HP.
  { intros k Hk. apply Hpw. intros <-. by apply Ha, getAddress_member. }
  rewrite !HP by lia. by apply Hh.
Qed.

Lemma reheapify_down_ok pw0 q a : pq_ok q → heap o (getPower pw0 q) (size q) → a ∈ members q →
  (∀ b, b ≠ a → pw b = pw0 b) → le (pw0 a) (pw a) →
  ∃ q', reheapify_down o pw q a = Ok q' ∧ pq_heap q' ∧ same_members q q'.
Proof.
  intros Hq Hh Ha Hpw Hle. destruct (getPosOrRevert_ok q a Hq Ha) as (pos & Hpos & Hr & Hat).
  unfold reheapify_down. rewrite Hpos. cbn [mbind outcome_bind]. pose proof (ok_size q Hq).
  destruct (changed_power pw0 q a pos Hq Hh Hr Hat Hpw) as [[H1 H2] HP].
  apply sink_ok; [done|lia|unfold getPower; by rewrite Hat|]. split; [|done].
  intros i Hi Hne. destruct (decide (i = pos)) as [->|]; [|by apply H1].
  pose proof (Z.div_mod pos 2 ltac:(lia)). pose proof (Z.mod_pos_bound pos 2 ltac:(lia)).
  rewrite HP by lia. apply (above_trans o Ho _ (getPower pw0 q pos)); [apply Hh; lia|].
  unfold getPower. by rewrite Hat.
Qed.
Lemma reheapify_up_ok pw0 q a : pq_ok q → heap o (getPower pw0 q) (size q) → a ∈ members q →
  (∀ b, b ≠ a → pw b = pw0 b) → le (pw a) (pw0 a) →
  ∃ q', reheapify_up o pw q a = Ok q' ∧ pq_heap q' ∧ same_members q q'.
Proof.
  intros Hq Hh Ha Hpw Hle. destruct (getPosOrRevert_ok q a Hq Ha) as (pos & Hpos & Hr & Hat).
  unfold reheapify_up. rewrite Hpos. cbn [mbind outcome_bind].
  destruct (changed_power pw0 q a pos Hq Hh Hr Hat Hpw) as [[H1 H2] HP].
  apply swim_ok; [done|done|unfold getPower; by rewrite Hat|]. split; [|done].
  intros i Hi Hne. destruct (decide (i / 2 = pos)) as [Heq|]; [|by apply H1].
  pose proof (Z.div_mod i 2 ltac:(lia)). pose proof (Z.mod_pos_bound i 2 ltac:(lia)).
  rewrite (HP i) by lia. rewrite Heq. apply (above_trans o Ho _ (getPower pw0 q pos)).
  - unfold getPower. by rewrite Hat.
  - rewrite <- Heq. by apply Hh.
Qed.

(** ** Removing *)

Lemma remove_last q pos : pq_ok q → 1 <= pos <= size q →
  ∃ q1, exchange q pos (size q) = Ok q1 ∧
    let q2 := del (set_size q1 (size q - 1)) (size q) in
    pq_ok q2 ∧ size q2 = size q - 1 ∧ members q2 = members q ∖ {[getAddress q pos]} ∧
    ∀ k, k ≠ size q → P q2 k = P q (swap pos (size q) k).
Proof.
  intros Hq Hpos. destruct (exchange_ok q pos (size q) Hq Hpos ltac:(lia)) as (q1 & He & Hq1 & Hs & Hm & Hat).
  exists q1. split; [done|]. intros q2. pose proof (ok_size q Hq).
  assert (getAddress q1 (size q) = getAddress q pos) as Hlast.
  { rewrite Hat. unfold swap. destruct (Z.eqb_spec (size q) pos) as [->|]; [done|]. by rewrite Z.eqb_refl. }
  destruct (ok_at q1 (size q) Hq1 ltac:(lia)) as [Hp1 Ha1]. rewrite Hlast in *.
  assert (getAddress (set_size q1 (size q - 1)) (size q) = getAddress q pos) as Hg by done.
  unfold q2, del. rewrite Hg. cbn [set_size addressToPos posToAddress size]. split_and!.
  - split; cbn [set_size addressToPos posToAddress size].
    + lia.
    + intros a p. rewrite !lookup_delete_Some, (ok_inverse q1 Hq1).
      split; intros [Hne Hl]; split; try done; intros <-; [congruence|].
      apply (ok_inverse q1 Hq1) in Hl. congruence.
    + intros p. rewrite lookup_delete_is_Some, (ok_dom q1 Hq1). rewrite Hs. lia.
  - done.
  - unfold members. cbn. rewrite dom_delete_L. unfold members in Hm. by rewrite Hm.
  - intros k Hk. unfold getPower. f_equal. rewrite <- Hat. unfold getAddress, get0. cbn.
    by rewrite lookup_delete_ne by done.
Qed.
Lemma remove_hole q pos q2 : 1 <= pos <= size q → hole (P q) (size q) pos → size q2 = size q - 1 →
  (∀ k, k ≠ size q → P q2 k = P q (swap pos (size q) k)) → hole (P q2) (size q2) pos.
Proof.
  intros Hpos [H1 H2] Hs HP. rewrite Hs. split.
  - intros i Hi Hne Hne2. pose proof (Z.div_mod i 2 ltac:(lia)). pose proof (Z.mod_pos_bound i 2 ltac:(lia)).
    rewrite !HP by lia. unfold swap.
    rewrite (proj2 (Z.eqb_neq i pos)), (proj2 (Z.eqb_neq (i / 2) pos)), (proj2 (Z.eqb_neq i (size q))),
      (proj2 (Z.eqb_neq (i / 2) (size q))) by lia. apply H1; [lia|done|done].
  - intros i Hi Hp Hge. pose proof (Z.div_mod i 2 ltac:(lia)). pose proof (Z.mod_pos_bound i 2 ltac:(lia)).
    pose proof (Z.div_mod pos 2 ltac:(lia)). pose proof (Z.mod_pos_bound pos 2 ltac:(lia)).
    rewrite !HP by lia. unfold swap.
    rewrite (proj2 (Z.eqb_neq i pos)), (proj2 (Z.eqb_neq (pos / 2) pos)), (proj2 (Z.eqb_neq i (size q))),
      (proj2 (Z.eqb_neq (pos / 2) (size q))) by lia. apply H2; [lia|done|done].
Qed.

Lemma deleteReheapify_ok pw0 q a : pq_ok q → heap o (getPower pw0 q) (size q) → a ∈ members q →
  (∀ b, b ≠ a → pw b = pw0 b) →
  ∃ q', deleteReheapify o pw q a = Ok q' ∧ pq_heap q' ∧ size q' = size q - 1 ∧ members q' = members q ∖ {[a]}.
Proof.
  intros Hq Hh Ha Hpw. destruct (getPosOrRevert_ok q a Hq Ha) as (pos & Hpos & Hr & Hat).
  destruct (changed_power pw0 q a pos Hq Hh Hr Hat Hpw) as [Hhole _].
  unfold deleteReheapify. rewrite Hpos. cbn [mbind outcome_bind].
  destruct (remove_last q pos Hq Hr) as (q1 & -> & H2). cbn [mbind outcome_bind].
  set (q2 := del _ _) in *. destruct H2 as (Hq2 & Hs2 & Hm2 & HP2). rewrite Hat in Hm2.
  pose proof (remove_hole q pos q2 Hr Hhole Hs2 HP2) as Hhole2. pose proof (ok_size q Hq).
  destruct (Z.eqb_spec (size q) pos) as [Heq|Hne].
  { exists q2. split; [done|]. split; [split; [done|]|done]. intros i Hi. pose proof (Z.div_mod i 2 ltac:(lia)).
    pose proof (Z.mod_pos_bound i 2 ltac:(lia)). destruct Hhole2 as [Hall _]. apply Hall; lia. }
  destruct (hole_cases _ _ _ Hhole2 ltac:(lia)) as [Hdown|(Hup & _)].
  - assert (swim o pw q2 pos (P q2 pos) = Ok q2) as ->.
    { unfold swim, LOOPS. cbn [swim_loop]. destruct (Z.ltb_spec 1 pos); [|done].
      destruct Hdown as [Hd _]. pose proof (Z.div_mod pos 2 ltac:(lia)). pose proof (Z.mod_pos_bound pos 2 ltac:(lia)).
      rewrite Z.shiftr_div_pow2 by lia. change (2 ^ 1) with 2. by rewrite (Hd pos) by lia. }
    cbn [mbind outcome_bind]. destruct (sink_ok q2 pos _ Hq2 ltac:(lia) eq_refl Hdown) as (q' & -> & Hh' & Hs' & Hm').
    exists q'. split_and!; first [done|lia|congruence].
  - destruct (swim_ok q2 pos _ Hq2 ltac:(lia) eq_refl Hup) as (q3 & -> & [Hq3 Hh3] & Hs3 & Hm3). cbn [mbind outcome_bind].
    destruct (sink_ok q3 pos _ Hq3 ltac:(lia) eq_refl) as (q' & -> & Hh' & Hs' & Hm').
    { apply (heap_but_down_of_heap o Ho); [lia|done]. }
    exists q'. split_and!; first [done|lia|congruence].
Qed.

Lemma first_ok q : pq_heap q → size q ≠ 0 →
  ∃ a, first pw q = Ok (a, pw a) ∧ a = getAddress q 1 ∧ a ∈ members q ∧ ∀ b, b ∈ members q → le (pw a) (pw b).
Proof.
  intros [Hq Hh] Hs. pose proof (ok_size q Hq). exists (getAddress q 1). unfold first, requireNotEmpty, revert_if.
  rewrite (proj2 (Z.eqb_neq _ 0)) by done. split_and!; [done|done|apply getAddress_member; [done|lia]|].
  intros b Hb. destruct (ok_member q b Hq Hb) as (p & Hp & _ & <-). by apply (heap_first o Ho _ _ Hh).
Qed.
Lemma pop_ok q : pq_heap q → size q ≠ 0 →
  ∃ q', pop o pw q = Ok q' ∧ pq_heap q' ∧ size q' = size q - 1 ∧ members q' = members q ∖ {[getAddress q 1]}.
Proof.
  intros [Hq Hh] Hs. pose proof (ok_size q Hq). unfold pop, requireNotEmpty, revert_if.
  rewrite (proj2 (Z.eqb_neq _ 0)) by done. cbn [mbind outcome_bind].
  destruct (remove_last q 1 Hq ltac:(lia)) as (q1 & -> & H2). cbn [mbind outcome_bind].
  set (q2 := del _ _) in *. destruct H2 as (Hq2 & Hs2 & Hm2 & HP2).
  assert (hole (P q) (size q) 1) as Hhole.
  { split; [intros i Hi _ _; by apply Hh|]. intros i Hi Hp Hge. lia. }
  pose proof (remove_hole q 1 q2 ltac:(lia) Hhole Hs2 HP2) as Hhole2.
  destruct (hole_cases _ _ _ Hhole2 ltac:(lia)) as [Hdown|(_ & _ & Hge)]; [|lia].
  destruct (sink_ok q2 1 _ Hq2 ltac:(lia) eq_refl Hdown) as (q' & -> & Hh' & Hs' & Hm').
  exists q'. split_and!; first [done|lia|congruence].
Qed.
End specs.

Lemma min_order_good : good_order min_order.
Proof.
  split; cbn.
  - intros v1 v2 H%Z.ltb_lt. apply Z.ltb_ge. lia.
  - intros v1 v2 v3 H1%Z.ltb_ge H2%Z.ltb_ge. apply Z.ltb_ge. lia.
  - intros pos Hpos. rewrite checked_Ok by (unfold uint; lia). f_equal. lia.
Qed.
Lemma max_order_good : good_order max_order.
Proof.
  split; cbn.
  - intros v1 v2 H%Z.ltb_lt. apply Z.ltb_ge. lia.
  - intros v1 v2 v3 H1%Z.ltb_ge H2%Z.ltb_ge. apply Z.ltb_ge. lia.
  - intros pos Hpos. rewrite Z.shiftl_mul_pow2 by lia. change (2 ^ 1) with 2.
    rewrite truncate_small by (unfold uint; lia). f_equal. lia.
Qed.
