(* ===== verification/Staking.v ===== *)
(** * Validators and their collateral in the contracts
    ([contracts/src/lib/LibStaking.sol], [LibStakingChangeLog.sol], [structs/Subnet.sol])

    The subnet actor on the parent chain keeps the validators of a subnet: the
    [activeLimit] strongest are active, the others wait.  A change of collateral is
    first only requested, in a log with configuration numbers, and takes effect when a
    checkpoint of the subnet confirms it.  The gateway in the subnet follows the same
    log, in a [ParentValidatorsTracker].  Collateral that is withdrawn is locked for
    some blocks in a release queue.

    Events are left out, except the requests of the log, which the nodes of the subnet
    read to feed the tracker. *)

From stdpp Require Import base tactics numbers list gmap.
From Stdlib Require Import Lia.
From S2P Require Import Prelude Sol PrioQueue.

Open Scope Z_scope.

(** ** Structs *)

Inductive StakingOperation := Deposit | Withdraw | SetMetadata | SetFederatedPower.
Record StakingChange := mkChange { op : StakingOperation; payload : bytes; validator : address }.
Record StakingChangeRequest := mkRequest { change : StakingChange; req_configurationNumber : Z }.
Record StakingChangeLog := mkLog {
  nextConfigurationNumber : Z;
  startConfigurationNumber : Z;
  changes : gmap Z StakingChange;
}.
Record StakingRelease := mkRelease { releaseAt : Z; release_amount : Z }.
Record AddressStakingReleases := mkReleases { length : Z; startIdx : Z; releases : gmap Z StakingRelease }.
Record StakingReleaseQueue := mkQueue { lockingDuration : Z; queue : gmap Z AddressStakingReleases }.
Record ValidatorInfo := mkInfo { federatedPower : Z; confirmedCollateral : Z; totalCollateral : Z; metadata : bytes }.
Inductive PermissionMode := Collateral | Federated | Static.
#[export] Instance permission_mode_eq_dec : EqDecision PermissionMode.
Proof. solve_decision. Defined.
Record ValidatorSet := mkSet {
  permissionMode : PermissionMode;
  activeLimit : Z;
  totalConfirmedCollateral : Z;
  validators : gmap Z ValidatorInfo;
  activeValidators : PQ;
  waitingValidators : PQ;
}.
Record ParentValidatorsTracker := mkTracker { tr_validators : ValidatorSet; tr_changes : StakingChangeLog }.

(** The zeros of the types, which missing keys have. *)
Definition zero_info : ValidatorInfo := mkInfo 0 0 0 [].
Definition zero_change : StakingChange := mkChange Deposit [] 0.
Definition zero_release : StakingRelease := mkRelease 0 0.
Definition zero_releases : AddressStakingReleases := mkReleases 0 0 ∅.

Implicit Types (s : ValidatorSet) (a : address).
Definition info s a : ValidatorInfo := default zero_info (validators s !! a).
Definition set_info s a (i : ValidatorInfo) : ValidatorSet :=
  mkSet (permissionMode s) (activeLimit s) (totalConfirmedCollateral s) (<[a := i]> (validators s))
    (activeValidators s) (waitingValidators s).
Definition set_queues s (active waiting : PQ) : ValidatorSet :=
  mkSet (permissionMode s) (activeLimit s) (totalConfirmedCollateral s) (validators s) active waiting.
Definition set_total s (n : Z) : ValidatorSet :=
  mkSet (permissionMode s) (activeLimit s) n (validators s) (activeValidators s) (waitingValidators s).

(** ** The release queue *)

Definition push (r : AddressStakingReleases) (release : StakingRelease) : result AddressStakingReleases :=
  nextIdx ← checked 16 (startIdx r + length r);
  length' ← checked 16 (length r + 1);
  Ok (mkReleases length' (startIdx r) (<[nextIdx := release]> (releases r))).

(** [while (i < length)]: [n] is [length - i]. *)
Fixpoint compact_loop (block_number : Z) (n : nat) (i newLength amount : Z) (rs : gmap Z StakingRelease)
    : result (Z * Z * Z * gmap Z StakingRelease) :=
  match n with
  | O => Ok (i, newLength, amount, rs)
  | S n =>
      let release := default zero_release (rs !! i) in
      if block_number <? releaseAt release then Ok (i, newLength, amount, rs)
      else
        amount ← checked 256 (amount + release_amount release);
        compact_loop block_number n (truncate 16 (i + 1)) (truncate 16 (newLength - 1)) amount (delete i rs)
  end.
Definition compact (block_number : Z) (r : AddressStakingReleases) : result (Z * Z * AddressStakingReleases) :=
  _ ← revert_if (length r =? 0) NoCollateralToWithdraw;
  c ← compact_loop block_number (Z.to_nat (length r - startIdx r)) (startIdx r) (length r) 0 (releases r);
  let '(i, newLength, amount, rs) := c in
  Ok (amount, newLength, mkReleases newLength i rs).

Definition addNewRelease (block_number : Z) (q : StakingReleaseQueue) a (amount : Z) : result StakingReleaseQueue :=
  at_block ← checked 256 (block_number + lockingDuration q);
  r ← push (default zero_releases (queue q !! a)) (mkRelease at_block amount);
  Ok (mkQueue (lockingDuration q) (<[a := r]> (queue q))).
(** The amount is then sent to the validator. *)
Definition claim (block_number : Z) (q : StakingReleaseQueue) a : result (Z * StakingReleaseQueue) :=
  c ← compact block_number (default zero_releases (queue q !! a));
  let '(amount, newLength, r) := c in
  Ok (amount, mkQueue (lockingDuration q)
    (if newLength =? 0 then delete a (queue q) else <[a := r]> (queue q))).

(** ** The change log *)

Definition recordChange (l : StakingChangeLog) a (op : StakingOperation) (payload : bytes)
    : result (StakingChangeLog * Z) :=
  let configurationNumber := nextConfigurationNumber l in
  next ← checked 64 (configurationNumber + 1);
  Ok (mkLog next (startConfigurationNumber l) (<[configurationNumber := mkChange op payload a]> (changes l)),
      configurationNumber).
Definition getChange (l : StakingChangeLog) (n : Z) : StakingChange := default zero_change (changes l !! n).
Definition purgeChange (l : StakingChangeLog) (n : Z) : StakingChangeLog :=
  mkLog (nextConfigurationNumber l) (startConfigurationNumber l) (delete n (changes l)).
Definition set_start (l : StakingChangeLog) (n : Z) : StakingChangeLog :=
  mkLog (nextConfigurationNumber l) n (changes l).

(** [abi.encode] and [abi.decode] of the payloads: words of 32 bytes; [bytes] are
    behind an offset, with their length, and padded. *)
Fixpoint big_endian (n : nat) (x : Z) : bytes :=
  match n with O => [] | S n => big_endian n (x / 256) ++ [x mod 256] end.
Definition word (x : Z) : bytes := big_endian 32 x.
Definition from_word (b : bytes) : Z := foldl (λ acc b, acc * 256 + b) 0 b.
Definition read_word (b : bytes) (offset : Z) : result Z :=
  if offset + 32 <=? Z.of_nat (List.length b) then Ok (from_word (take 32 (drop (Z.to_nat offset) b))) else Err CallFailed.
Definition encode_amount (amount : Z) : bytes := word amount.
Definition decode_amount (b : bytes) : result Z := read_word b 0.
Definition padding (n : nat) : nat := ((32 - n mod 32) mod 32)%nat.
Definition encode_power (metadata : bytes) (power : Z) : bytes :=
  word 64 ++ word power ++ word (Z.of_nat (List.length metadata)) ++ metadata ++ replicate (padding (List.length metadata)) 0.
Definition decode_power (b : bytes) : result (bytes * Z) :=
  offset ← read_word b 0;
  power ← read_word b 32;
  len ← read_word b offset;
  if offset + 32 + len <=? Z.of_nat (List.length b)
  then Ok (take (Z.to_nat len) (drop (Z.to_nat (offset + 32)) b), power)
  else Err CallFailed.

(** The four requests.  Each emits what it recorded. *)
Definition request (l : StakingChangeLog) a (op : StakingOperation) (payload : bytes)
    : result (StakingChangeLog * StakingChangeRequest) :=
  r ← recordChange l a op payload; Ok (r.1, mkRequest (mkChange op payload a) r.2).
Definition metadataRequest l a (metadata : bytes) := request l a SetMetadata metadata.
Definition federatedPowerRequest l a (metadata : bytes) (power : Z) :=
  request l a SetFederatedPower (encode_power metadata power).
Definition withdrawRequest l a (amount : Z) := request l a Withdraw (encode_amount amount).
Definition depositRequest l a (amount : Z) := request l a Deposit (encode_amount amount).

(** ** The validator set *)

Definition validator_power s a : Z :=
  match permissionMode s with Federated => federatedPower (info s a) | _ => confirmedCollateral (info s a) end.
Definition isActiveValidator s a : bool := pq_contains (activeValidators s) a.
Definition isWaitingValidator s a : bool := pq_contains (waitingValidators s) a.
Definition listActiveValidators s : list address :=
  getAddress (activeValidators s) <$> seqZ 1 (size (activeValidators s)).
(** A sum in [uint256], as the loops compute it. *)
Fixpoint checked_sum (acc : Z) (l : list Z) : result Z :=
  match l with [] => Ok acc | x :: l => acc ← checked 256 (acc + x); checked_sum acc l end.
Definition getTotalActivePower s : result Z := checked_sum 0 (validator_power s <$> listActiveValidators s).
Definition getTotalCollateral s : result Z :=
  waiting ← checked_sum 0 ((λ i, confirmedCollateral (info s (getAddress (waitingValidators s) i))) <$>
                           seqZ 1 (size (waitingValidators s)));
  checked 256 (waiting + totalConfirmedCollateral s).
Fixpoint getTotalPowerOfValidators s (addresses : list address) : result (list Z) :=
  match addresses with
  | [] => Ok []
  | a :: addresses =>
      _ ← revert_if (negb (isActiveValidator s a)) (NotValidator a);
      rest ← getTotalPowerOfValidators s addresses; Ok (validator_power s a :: rest)
  end.
Definition setMetadata s a (m : bytes) : ValidatorSet :=
  let i := info s a in set_info s a (mkInfo (federatedPower i) (confirmedCollateral i) (totalCollateral i) m).

Definition recordDeposit s a (amount : Z) : result ValidatorSet :=
  let i := info s a in
  total ← checked 256 (totalCollateral i + amount);
  Ok (set_info s a (mkInfo (federatedPower i) (confirmedCollateral i) total (metadata i))).
Definition recordWithdraw s a (amount : Z) : result ValidatorSet :=
  let i := info s a in
  _ ← revert_if (totalCollateral i <? amount) WithdrawExceedingCollateral;
  Ok (set_info s a (mkInfo (federatedPower i) (confirmedCollateral i) (totalCollateral i - amount) (metadata i))).

Definition increaseReshuffle s (maybeActive : address) (newPower : Z) : result ValidatorSet :=
  let pw := validator_power s in
  let active := activeValidators s in
  let waiting := waitingValidators s in
  if pq_contains active maybeActive then
    active ← min_increaseReheapify pw active maybeActive;
    Ok (set_queues s active waiting)
  else if size active <? activeLimit s then
    active ← insert min_order pw active maybeActive;
    Ok (set_queues s active waiting)
  else
    m ← first pw active;
    if m.2 <? newPower then
      active ← pop min_order pw active;
      waiting ← (if pq_contains waiting maybeActive then deleteReheapify max_order pw waiting maybeActive else Ok waiting);
      active ← insert min_order pw active maybeActive;
      waiting ← insert max_order pw waiting m.1;
      Ok (set_queues s active waiting)
    else if pq_contains waiting maybeActive then
      waiting ← max_increaseReheapify pw waiting maybeActive;
      Ok (set_queues s active waiting)
    else
      waiting ← insert max_order pw waiting maybeActive;
      Ok (set_queues s active waiting).

Definition reduceReshuffle s a (newPower : Z) : result ValidatorSet :=
  let pw := validator_power s in
  let active := activeValidators s in
  let waiting := waitingValidators s in
  if pq_contains waiting a then
    if newPower =? 0 then
      waiting ← deleteReheapify max_order pw waiting a;
      Ok (set_queues s active waiting)
    else
      waiting ← max_decreaseReheapify pw waiting a;
      Ok (set_queues s active waiting)
  else
    _ ← revert_if (negb (pq_contains active a)) AddressShouldBeValidator;
    if newPower =? 0 then
      active ← deleteReheapify min_order pw active a;
      if size waiting =? 0 then Ok (set_queues s active waiting)
      else
        m ← first pw waiting;
        waiting ← pop max_order pw waiting;
        active ← insert min_order pw active m.1;
        Ok (set_queues s active waiting)
    else
      active ← min_decreaseReheapify pw active a;
      if size waiting =? 0 then Ok (set_queues s active waiting)
      else
        demoted ← first pw active;
        promoted ← first pw waiting;
        if demoted.2 <? promoted.2 then
          active ← pop min_order pw active;
          waiting ← pop max_order pw waiting;
          active ← insert min_order pw active promoted.1;
          waiting ← insert max_order pw waiting demoted.1;
          Ok (set_queues s active waiting)
        else Ok (set_queues s active waiting).

Definition confirmFederatedPower s a (power : Z) : result ValidatorSet :=
  let i := info s a in
  let existingPower := federatedPower i in
  let s := set_info s a (mkInfo power (confirmedCollateral i) (totalCollateral i) (metadata i)) in
  if existingPower =? power then Ok s
  else if existingPower <? power then increaseReshuffle s a power
  else reduceReshuffle s a power.
Definition confirmDeposit s a (amount : Z) : result ValidatorSet :=
  let i := info s a in
  newCollateral ← checked 256 (confirmedCollateral i + amount);
  let s := set_info s a (mkInfo (federatedPower i) newCollateral (totalCollateral i) (metadata i)) in
  total ← checked 256 (totalConfirmedCollateral s + amount);
  increaseReshuffle (set_total s total) a newCollateral.
Definition confirmWithdraw s a (amount : Z) : result ValidatorSet :=
  let i := info s a in
  newCollateral ← checked 256 (confirmedCollateral i - amount);
  let s := if (newCollateral =? 0) && (totalCollateral i =? 0)
           then mkSet (permissionMode s) (activeLimit s) (totalConfirmedCollateral s) (delete a (validators s))
                  (activeValidators s) (waitingValidators s)
           else set_info s a (mkInfo (federatedPower i) newCollateral (totalCollateral i) (metadata i)) in
  s ← reduceReshuffle s a newCollateral;
  total ← checked 256 (totalConfirmedCollateral s - amount);
  Ok (set_total s total).

(** ** Following the parent in the subnet ([LibValidatorTracking]) *)

Definition storeChange (t : ParentValidatorsTracker) (r : StakingChangeRequest) : result ParentValidatorsTracker :=
  c ← recordChange (tr_changes t) (validator (change r)) (op (change r)) (payload (change r));
  _ ← revert_if (negb (c.2 =? req_configurationNumber r)) InvalidConfigurationNumber;
  Ok (mkTracker (tr_validators t) c.1).
Fixpoint batchStoreChange (t : ParentValidatorsTracker) (rs : list StakingChangeRequest) : result ParentValidatorsTracker :=
  match rs with [] => Ok t | r :: rs => t ← storeChange t r; batchStoreChange t rs end.

(** One change, applied to the validator set. *)
Definition apply_change s (c : StakingChange) : result ValidatorSet :=
  match op c with
  | SetMetadata => Ok (setMetadata s (validator c) (payload c))
  | SetFederatedPower =>
      p ← decode_power (payload c);
      confirmFederatedPower (setMetadata s (validator c) p.1) (validator c) p.2
  | Withdraw => amount ← decode_amount (payload c); confirmWithdraw s (validator c) amount
  | Deposit => amount ← decode_amount (payload c); confirmDeposit s (validator c) amount
  end.
(** [for (i = start; i <= configurationNumber; )]: [n] is the number of changes left. *)
Fixpoint tracker_confirm_loop (n : nat) (i : Z) (t : ParentValidatorsTracker) : result ParentValidatorsTracker :=
  match n with
  | O => Ok t
  | S n =>
      s ← apply_change (tr_validators t) (getChange (tr_changes t) i);
      tracker_confirm_loop n (truncate 64 (i + 1)) (mkTracker s (purgeChange (tr_changes t) i))
  end.
Definition tracker_confirmChange (t : ParentValidatorsTracker) (configurationNumber : Z) : result ParentValidatorsTracker :=
  let start := startConfigurationNumber (tr_changes t) in
  if nextConfigurationNumber (tr_changes t) <=? configurationNumber then Err CannotConfirmFutureChanges
  else if configurationNumber <? start then Ok t
  else
    t ← tracker_confirm_loop (Z.to_nat (configurationNumber - start + 1)) start t;
    next ← checked 64 (configurationNumber + 1);
    Ok (mkTracker (tr_validators t) (set_start (tr_changes t) next)).

(** ** The invariant of the validator set

    For the powers [pw]: the active validators are the strongest ones, as many as the
    limit allows, and every validator with power is active or waiting. *)
Record set_ok (pw : address → Z) s : Prop := {
  so_active : pq_heap min_order pw (activeValidators s);
  so_waiting : pq_heap max_order pw (waitingValidators s);
  so_disjoint a : a ∈ members (activeValidators s) → a ∉ members (waitingValidators s);
  so_limit : size (activeValidators s) <= activeLimit s;
  so_full : size (waitingValidators s) ≠ 0 → size (activeValidators s) = activeLimit s;
  so_top a b : a ∈ members (activeValidators s) → b ∈ members (waitingValidators s) → pw b <= pw a;
  so_all a : a ∈ members (activeValidators s) ∨ a ∈ members (waitingValidators s) ↔ 0 < pw a;
}.
(** Positions stay below [2 ^ 15] when one more validator comes. *)
Definition room s : Prop := size (activeValidators s) + size (waitingValidators s) + 1 < 2 ^ 15.
(** Only the queues differ, and they gained at most [n] validators. *)
Definition requeued (n : Z) s s' : Prop :=
  ∃ active waiting, s' = set_queues s active waiting ∧
    size active + size waiting <= size (activeValidators s) + size (waitingValidators s) + n.

Lemma pq_heap_other o (Ho : good_order o) pw pw0 q a :
  pq_heap o pw0 q → a ∉ members q → (∀ b, b ≠ a → pw b = pw0 b) → pq_heap o pw q.
Proof. intros [Hq Hh] Ha Hpw. split; [done|]. by apply (unchanged_power o pw pw0 q a). Qed.
Lemma nonempty_size q a : pq_ok q → a ∈ members q → size q ≠ 0.
Proof. intros Hq Ha H0. rewrite (members_empty q Hq H0) in Ha. set_solver. Qed.
Lemma first_is_getAddress pw q a v : first pw q = Ok (a, v) → a = getAddress q 1 ∧ v = pw a.
Proof. unfold first, requireNotEmpty, revert_if. destruct (size q =? 0); intros; by simplify_eq/=. Qed.

(** One active validator [m], the weakest, makes place for a stronger one. *)
Lemma replace_weakest pw active waiting limit m v :
  pq_heap min_order pw active → pq_heap max_order pw waiting → size active = limit → 1 <= limit →
  first pw active = Ok (m, pw m) → v ∉ members active →
  (∀ a, a ∈ members active → a ∉ members waiting) → size active + size waiting + 1 < 2 ^ 15 →
  (∀ a b, a ∈ members active → a ≠ m → b ∈ members waiting → pw b <= pw a) →
  (∀ b, b ∈ members waiting → pw b <= pw v) → pw m < pw v →
  ∃ active1 active2 waiting2,
    pop min_order pw active = Ok active1 ∧ insert min_order pw active1 v = Ok active2 ∧
    insert max_order pw waiting m = Ok waiting2 ∧
    pq_heap min_order pw active2 ∧ pq_heap max_order pw waiting2 ∧
    size active2 = limit ∧ size waiting2 = size waiting + 1 ∧ m ∈ members active ∧
    members active2 = {[v]} ∪ members active ∖ {[m]} ∧ members waiting2 = {[m]} ∪ members waiting ∧
    (∀ a b, a ∈ members active2 → b ∈ members waiting2 → pw b <= pw a).
Proof.
  intros Ha Hw Hs Hl Hf Hva Hd Hroom Htop Hvtop Hlt.
  destruct (first_ok min_order min_order_good pw active Ha ltac:(lia)) as (m' & Hf' & Hm & Hin & Hmin).
  rewrite Hf in Hf'. injection Hf' as <- _.
  destruct (pop_ok min_order min_order_good pw active Ha ltac:(lia)) as (a1 & Hpop & Ha1 & Hs1 & Hm1). rewrite <- Hm in Hm1.
  destruct (insert_ok min_order min_order_good pw a1 v Ha1) as (a2 & Hins & Ha2 & Hs2 & Hm2).
  { rewrite Hm1. set_solver. } { pose proof (ok_size _ (proj1 Hw)). lia. }
  destruct (insert_ok max_order max_order_good pw waiting m Hw) as (w2 & Hins2 & Hw2 & Hsw2 & Hmw2).
  { by apply Hd. } { pose proof (ok_size _ (proj1 Ha)). lia. }
  exists a1, a2, w2. split_and!; try done; [lia|by rewrite Hm2, Hm1|].
  intros a b. rewrite Hm2, Hm1, Hmw2, !elem_of_union, elem_of_difference, !elem_of_singleton.
  assert (∀ a, a ∈ members active → pw m <= pw a) as Hmin'.
  { intros c Hc. specialize (Hmin c Hc). cbn in Hmin. by apply Z.ltb_ge in Hmin. }
  intros [->|[Hma Hne]] [->|Hb]; [lia|by apply Hvtop|by apply Hmin'|by apply Htop].
Qed.

Lemma drop_waiting pw pw0 waiting v :
  pq_heap max_order pw0 waiting → (∀ b, b ≠ v → pw b = pw0 b) →
  ∃ waiting1, (if bool_decide (v ∈ members waiting) then deleteReheapify max_order pw waiting v else Ok waiting) = Ok waiting1 ∧
    pq_heap max_order pw waiting1 ∧ members waiting1 = members waiting ∖ {[v]} ∧ size waiting1 <= size waiting.
Proof.
  intros Hw Hpw. case_bool_decide as Hv.
  - destruct (deleteReheapify_ok max_order max_order_good pw pw0 waiting v (proj1 Hw) (proj2 Hw) Hv Hpw) as (w1 & -> & Hh & Hs & Hm).
    exists w1. split_and!; [done|done|done|lia].
  - exists waiting. split_and!; [done|by apply (pq_heap_other max_order max_order_good pw pw0 _ v)|set_solver|lia].
Qed.

Lemma increase_ok pw0 s v : set_ok pw0 s → room s → 1 <= activeLimit s →
  (∀ b, b ≠ v → validator_power s b = pw0 b) → 0 <= pw0 v < validator_power s v →
  ∃ s', increaseReshuffle s v (validator_power s v) = Ok s' ∧ set_ok (validator_power s) s' ∧ requeued 1 s s'.
Proof.
  intros [Ha Hw Hd Hl Hf Ht Hall] Hroom Hlim Hpw Hinc. set (pw := validator_power s) in *. unfold room in Hroom.
  pose proof (ok_size _ (proj1 Ha)) as Hsa. pose proof (ok_size _ (proj1 Hw)) as Hsw.
  unfold increaseReshuffle. fold pw. cbv zeta. rewrite (pq_contains_spec _ v (proj1 Ha)), (pq_contains_spec _ v (proj1 Hw)).
  case_bool_decide as Hva.
  { pose proof (pq_heap_other max_order max_order_good pw pw0 _ v Hw (Hd v Hva) Hpw) as Hw'.
    destruct (reheapify_down_ok min_order min_order_good pw pw0 _ v (proj1 Ha) (proj2 Ha) Hva Hpw) as (a' & Hr & Ha' & Hs & Hm).
    { cbn. apply Z.ltb_ge. lia. }
    unfold min_increaseReheapify. rewrite Hr. cbn [mbind outcome_bind]. eexists. split; [reflexivity|]. split; [|eexists _, _; split; [reflexivity|lia]].
    split; cbn [set_queues activeValidators waitingValidators activeLimit]; rewrite ?Hm, ?Hs; try done.
    - intros a b Hina Hinb. assert (b ≠ v) by (intros ->; by apply (Hd v)).
      rewrite (Hpw b) by done. destruct (decide (a = v)) as [->|]; [pose proof (Ht v b Hina Hinb); lia|].
      rewrite Hpw by done. by apply Ht.
    - intros a. destruct (decide (a = v)) as [->|]; [split; [lia|by left]|]. rewrite Hpw by done. apply Hall. }
  pose proof (pq_heap_other min_order min_order_good pw pw0 _ v Ha Hva Hpw) as Ha'.
  destruct (Z.ltb_spec (size (activeValidators s)) (activeLimit s)) as [Hnf|Hfull].
  { assert (size (waitingValidators s) = 0) as Hw0 by (destruct (decide (size (waitingValidators s) = 0)); [done|lia]).
    pose proof (members_empty _ (proj1 Hw) Hw0) as Hwe.
    destruct (insert_ok min_order min_order_good pw _ v Ha' Hva ltac:(lia)) as (a' & -> & Hh & Hs & Hm).
    cbn [mbind outcome_bind]. eexists. split; [reflexivity|]. split; [|eexists _, _; split; [reflexivity|lia]].
    assert (pq_heap max_order pw (waitingValidators s)) as Hw'.
    { apply (pq_heap_other max_order max_order_good pw pw0 _ v Hw); [rewrite Hwe; apply not_elem_of_empty|done]. }
    split; cbn [set_queues activeValidators waitingValidators activeLimit]; rewrite ?Hm, ?Hs, ?Hwe; try done; try lia.
    intros a. rewrite elem_of_union, elem_of_singleton. destruct (decide (a = v)) as [->|]; [split; [lia|by left; left]|].
    rewrite Hpw, <- Hall, Hwe by done. tauto. }
  assert (size (activeValidators s) = activeLimit s) as Hsl by lia.
  destruct (first_ok min_order min_order_good pw _ Ha' ltac:(lia)) as (m & Hfm & _ & Hin & Hmin). rewrite Hfm. cbn [mbind outcome_bind fst snd].
  assert (∀ a, a ∈ members (activeValidators s) → pw m <= pw a) as Hmin'.
  { intros c Hc. specialize (Hmin c Hc). cbn in Hmin. by apply Z.ltb_ge in Hmin. }
  assert (∀ a b, a ∈ members (activeValidators s) → b ∈ members (waitingValidators s) → b ≠ v → pw b <= pw a) as Ht'.
  { intros a b Hina Hinb Hne. rewrite (Hpw a), (Hpw b); [by apply Ht|done|by intros ->]. }
  destruct (Z.ltb_spec (pw m) (pw v)) as [Hlt|Hge].
  { destruct (drop_waiting pw pw0 (waitingValidators s) v Hw Hpw) as (w1 & -> & Hw1 & Hm1 & Hs1). cbn [mbind outcome_bind].
    destruct (replace_weakest pw _ w1 _ m v Ha' Hw1 Hsl Hlim Hfm Hva) as
      (a1 & a2 & w2 & -> & Hi1 & Hi2 & Hh2 & Hhw2 & Hsa2 & Hsw2 & _ & Hma2 & Hmw2 & Htop2).
    - intros a Hina. rewrite Hm1, elem_of_difference. pose proof (Hd a Hina). tauto.
    - pose proof (ok_size _ (proj1 Hw1)). lia.
    - intros a b Hina _. rewrite Hm1, elem_of_difference, elem_of_singleton. intros []. by apply Ht'.
    - intros b. rewrite Hm1, elem_of_difference, elem_of_singleton. intros [Hb Hne]. pose proof (Ht' m b Hin Hb Hne). lia.
    - done.
    - cbn [mbind outcome_bind]. rewrite Hi1. cbn [mbind outcome_bind]. rewrite Hi2. cbn [mbind outcome_bind].
      eexists. split; [reflexivity|]. split; [|eexists _, _; split; [reflexivity|lia]].
      split; cbn [set_queues activeValidators waitingValidators activeLimit]; try done; try lia; rewrite ?Hma2, ?Hmw2, ?Hm1.
      + intros a. rewrite !elem_of_union, !elem_of_difference, !elem_of_singleton. pose proof (Hd a).
        intros [->|[]]; [intros [->|[]]; [by apply Hva|done]|tauto].
      + intros a. rewrite !elem_of_union, !elem_of_difference, !elem_of_singleton.
        destruct (decide (a = v)) as [->|]; [split; [lia|by left; left]|].
        rewrite (Hpw a), <- Hall by done. destruct (decide (a = m)) as [->|]; tauto. }
  assert (∀ b, b ∈ members (activeValidators s) → pw v <= pw b) as Hvle by (intros b Hb; pose proof (Hmin' b Hb); lia).
  assert (∀ a b, a ∈ members (activeValidators s) → b = v ∨ b ∈ members (waitingValidators s) → pw b <= pw a) as Ht2.
  { intros a b Hina [->|Hb]; [by apply Hvle|]. destruct (decide (b = v)) as [->|]; [by apply Hvle|by apply Ht']. }
  case_bool_decide as Hvw.
  - unfold max_increaseReheapify.
    destruct (reheapify_up_ok max_order max_order_good pw pw0 _ v (proj1 Hw) (proj2 Hw) Hvw Hpw) as (w' & -> & Hh & Hs & Hm).
    { cbn. apply Z.ltb_ge. lia. }
    cbn [mbind outcome_bind]. eexists. split; [reflexivity|]. split; [|eexists _, _; split; [reflexivity|lia]].
    split; cbn [set_queues activeValidators waitingValidators activeLimit]; rewrite ?Hm, ?Hs; try done; [by eauto|].
    intros a. destruct (decide (a = v)) as [->|]; [split; [lia|by right]|]. rewrite Hpw by done. apply Hall.
  - pose proof (pq_heap_other max_order max_order_good pw pw0 _ v Hw Hvw Hpw) as Hw'.
    destruct (insert_ok max_order max_order_good pw _ v Hw' Hvw ltac:(lia)) as (w' & -> & Hh & Hs & Hm).
    cbn [mbind outcome_bind]. eexists. split; [reflexivity|]. split; [|eexists _, _; split; [reflexivity|lia]].
    split; cbn [set_queues activeValidators waitingValidators activeLimit]; rewrite ?Hm, ?Hs; try done.
    + intros a Hina. pose proof (Hd a Hina). rewrite elem_of_union, elem_of_singleton. intros [->|]; tauto.
    + intros a b Hina. rewrite elem_of_union, elem_of_singleton. by apply Ht2.
    + intros a. rewrite elem_of_union, elem_of_singleton.
      destruct (decide (a = v)) as [->|]; [split; [lia|by right; left]|]. rewrite Hpw, <- Hall by done. tauto.
Qed.

Lemma max_first_ok pw q : pq_heap max_order pw q → size q ≠ 0 →
  ∃ a, first pw q = Ok (a, pw a) ∧ a = getAddress q 1 ∧ a ∈ members q ∧ ∀ b, b ∈ members q → pw b <= pw a.
Proof.
  intros Hq Hs. destruct (first_ok max_order max_order_good pw q Hq Hs) as (a & H1 & H2 & H3 & H4).
  exists a. split_and!; try done. intros b Hb. specialize (H4 b Hb). cbn in H4. by apply Z.ltb_ge in H4.
Qed.
Lemma min_first_ok pw q : pq_heap min_order pw q → size q ≠ 0 →
  ∃ a, first pw q = Ok (a, pw a) ∧ a = getAddress q 1 ∧ a ∈ members q ∧ ∀ b, b ∈ members q → pw a <= pw b.
Proof.
  intros Hq Hs. destruct (first_ok min_order min_order_good pw q Hq Hs) as (a & H1 & H2 & H3 & H4).
  exists a. split_and!; try done. intros b Hb. specialize (H4 b Hb). cbn in H4. by apply Z.ltb_ge in H4.
Qed.

(** A validator of the waiting ones loses power. *)
Lemma reduce_waiting_ok pw0 s v : set_ok pw0 s → v ∈ members (waitingValidators s) →
  (∀ b, b ≠ v → validator_power s b = pw0 b) → 0 <= validator_power s v < pw0 v →
  ∃ s', reduceReshuffle s v (validator_power s v) = Ok s' ∧ set_ok (validator_power s) s' ∧ requeued 0 s s'.
Proof.
  intros [Ha Hw Hd Hl Hf Ht Hall] Hvw Hpw Hdec. set (pw := validator_power s) in *.
  unfold reduceReshuffle. fold pw. cbv zeta. rewrite (pq_contains_spec _ v (proj1 Hw)), bool_decide_true by done.
  assert (v ∉ members (activeValidators s)) as Hva by (intros H; by apply (Hd v)).
  pose proof (pq_heap_other min_order min_order_good pw pw0 _ v Ha Hva Hpw) as Ha'.
  assert (∀ a b, a ∈ members (activeValidators s) → b ∈ members (waitingValidators s) → pw b <= pw a) as Ht'.
  { intros a b Hina Hinb. pose proof (Ht a b Hina Hinb). rewrite (Hpw a) by (by intros ->).
    destruct (decide (b = v)) as [->|]; [lia|by rewrite Hpw]. }
  pose proof (nonempty_size _ v (proj1 Hw) Hvw) as Hne.
  destruct (Z.eqb_spec (pw v) 0) as [H0|H0].
  - destruct (deleteReheapify_ok max_order max_order_good pw pw0 _ v (proj1 Hw) (proj2 Hw) Hvw Hpw) as (w' & -> & Hh & Hs & Hm).
    cbn [mbind outcome_bind]. eexists. split; [reflexivity|]. split; [|eexists _, _; split; [reflexivity|lia]].
    split; cbn [set_queues activeValidators waitingValidators activeLimit]; rewrite ?Hm; try done.
    + intros a Hina. rewrite elem_of_difference. pose proof (Hd a Hina). tauto.
    + intros _. by apply Hf.
    + intros a b Hina. rewrite elem_of_difference. intros []. by apply Ht'.
    + intros a. rewrite elem_of_difference, elem_of_singleton. destruct (decide (a = v)) as [->|]; [split; [tauto|lia]|].
      rewrite (Hpw a), <- Hall by done. tauto.
  - unfold max_decreaseReheapify.
    destruct (reheapify_down_ok max_order max_order_good pw pw0 _ v (proj1 Hw) (proj2 Hw) Hvw Hpw) as (w' & -> & Hh & Hs & Hm).
    { cbn. apply Z.ltb_ge. lia. }
    cbn [mbind outcome_bind]. eexists. split; [reflexivity|]. split; [|eexists _, _; split; [reflexivity|lia]].
    split; cbn [set_queues activeValidators waitingValidators activeLimit]; rewrite ?Hm, ?Hs; try done.
    intros a. destruct (decide (a = v)) as [->|]; [split; [lia|by right]|]. rewrite (Hpw a) by done. apply Hall.
Qed.

(** An active validator leaves, and the strongest of the waiting ones takes its place. *)
Lemma reduce_active_leave_ok pw0 s v : set_ok pw0 s → room s → v ∈ members (activeValidators s) →
  (∀ b, b ≠ v → validator_power s b = pw0 b) → validator_power s v = 0 →
  ∃ s', reduceReshuffle s v 0 = Ok s' ∧ set_ok (validator_power s) s' ∧ requeued 0 s s'.
Proof.
  intros [Ha Hw Hd Hl Hf Ht Hall] Hroom Hva Hpw H0. set (pw := validator_power s) in *. unfold room in Hroom.
  pose proof (ok_size _ (proj1 Hw)) as Hsw. pose proof (Hd v Hva) as Hvw.
  unfold reduceReshuffle. fold pw. cbv zeta. rewrite (pq_contains_spec _ v (proj1 Hw)), bool_decide_false by done.
  rewrite (pq_contains_spec _ v (proj1 Ha)), bool_decide_true by done. cbn [negb revert_if mbind outcome_bind]. rewrite Z.eqb_refl.
  pose proof (pq_heap_other max_order max_order_good pw pw0 _ v Hw Hvw Hpw) as Hw'.
  pose proof (nonempty_size _ v (proj1 Ha) Hva) as Hne.
  destruct (deleteReheapify_ok min_order min_order_good pw pw0 _ v (proj1 Ha) (proj2 Ha) Hva Hpw) as (a1 & -> & Hh & Hs & Hm).
  cbn [mbind outcome_bind].
  assert (∀ a b, a ∈ members (activeValidators s) → a ≠ v → b ∈ members (waitingValidators s) → pw b <= pw a) as Ht'.
  { intros a b Hina Hne' Hinb. rewrite (Hpw a), (Hpw b); [by apply Ht|by intros ->|done]. }
  destruct (Z.eqb_spec (size (waitingValidators s)) 0) as [Hz|Hz].
  { eexists. split; [reflexivity|]. split; [|eexists _, _; split; [reflexivity|lia]].
    split; cbn [set_queues activeValidators waitingValidators activeLimit]; rewrite ?Hm; try done; try lia.
    - intros a [Hina _]%elem_of_difference. by apply Hd.
    - intros a b. rewrite elem_of_difference, elem_of_singleton. intros []. by apply Ht'.
    - intros a. rewrite elem_of_difference, elem_of_singleton. destruct (decide (a = v)) as [->|]; [split; [tauto|lia]|].
      rewrite (Hpw a), <- Hall by done. tauto. }
  destruct (max_first_ok pw _ Hw' Hz) as (x & -> & Hx & Hxin & Hmax). cbn [mbind outcome_bind fst].
  destruct (pop_ok max_order max_order_good pw _ Hw' Hz) as (w1 & -> & Hw1 & Hs1 & Hm1). rewrite <- Hx in Hm1. cbn [mbind outcome_bind].
  assert (x ∉ members (activeValidators s)) as Hxa by (intros H; by apply (Hd x)).
  assert (x ≠ v ∧ v ≠ x) as [Hxv Hvx] by (by split; intros ->).
  destruct (insert_ok min_order min_order_good pw a1 x Hh) as (a2 & -> & Ha2 & Hs2 & Hm2).
  { rewrite Hm, elem_of_difference. tauto. } { lia. }
  cbn [mbind outcome_bind]. eexists. split; [reflexivity|]. split; [|eexists _, _; split; [reflexivity|lia]].
  split; cbn [set_queues activeValidators waitingValidators activeLimit]; rewrite ?Hm2, ?Hm1, ?Hm; try done; try lia.
  - intros a. rewrite elem_of_union, !elem_of_difference, !elem_of_singleton. intros [->|[Hina _]]; [tauto|]. pose proof (Hd a Hina). tauto.
  - intros a b. rewrite elem_of_union, !elem_of_difference, !elem_of_singleton. intros [->|[Hina Hne']] [Hinb _]; [by apply Hmax|by apply Ht'].
  - intros a. rewrite elem_of_union, !elem_of_difference, !elem_of_singleton. destruct (decide (a = v)) as [->|]; [split; [tauto|lia]|].
    rewrite (Hpw a), <- Hall by done. destruct (decide (a = x)) as [->|]; tauto.
Qed.

(** An active validator loses power, and may have to change places. *)
Lemma reduce_active_ok pw0 s v : set_ok pw0 s → room s → v ∈ members (activeValidators s) →
  (∀ b, b ≠ v → validator_power s b = pw0 b) → 0 < validator_power s v < pw0 v →
  ∃ s', reduceReshuffle s v (validator_power s v) = Ok s' ∧ set_ok (validator_power s) s' ∧ requeued 0 s s'.
Proof.
  intros [Ha Hw Hd Hl Hf Ht Hall] Hroom Hva Hpw Hdec. set (pw := validator_power s) in *. unfold room in Hroom.
  pose proof (ok_size _ (proj1 Ha)) as Hsa. pose proof (Hd v Hva) as Hvw.
  unfold reduceReshuffle. fold pw. cbv zeta. rewrite (pq_contains_spec _ v (proj1 Hw)), bool_decide_false by done.
  rewrite (pq_contains_spec _ v (proj1 Ha)), bool_decide_true by done. cbn [negb revert_if mbind outcome_bind].
  rewrite (proj2 (Z.eqb_neq (pw v) 0)) by lia.
  pose proof (pq_heap_other max_order max_order_good pw pw0 _ v Hw Hvw Hpw) as Hw'. unfold min_decreaseReheapify.
  destruct (reheapify_up_ok min_order min_order_good pw pw0 _ v (proj1 Ha) (proj2 Ha) Hva Hpw) as (a1 & -> & Hh & Hs & Hm).
  { cbn. apply Z.ltb_ge. lia. }
  cbn [mbind outcome_bind].
  assert (∀ a, a ∈ members (activeValidators s) ∨ a ∈ members (waitingValidators s) ↔ 0 < pw a) as Hall'.
  { intros a. destruct (decide (a = v)) as [->|]; [split; [lia|by left]|]. rewrite (Hpw a) by done. apply Hall. }
  destruct (Z.eqb_spec (size (waitingValidators s)) 0) as [Hz|Hz].
  { pose proof (members_empty _ (proj1 Hw) Hz) as Hwe. eexists. split; [reflexivity|].
    split; [|eexists _, _; split; [reflexivity|lia]].
    split; cbn [set_queues activeValidators waitingValidators activeLimit]; rewrite ?Hm, ?Hs; try done.
    intros a b _ Hb. rewrite Hwe in Hb. by apply not_elem_of_empty in Hb. }
  pose proof (nonempty_size _ v (proj1 Ha) Hva) as Hne.
  destruct (min_first_ok pw a1 Hh ltac:(lia)) as (d & Hfd & _ & Hdin & Hmin). rewrite Hm in Hdin, Hmin. rewrite Hfd.
  destruct (max_first_ok pw _ Hw' Hz) as (x & -> & Hx & Hxin & Hmax). cbn [mbind outcome_bind fst snd].
  destruct (Z.ltb_spec (pw d) (pw x)) as [Hlt|Hge].
  - assert (d = v) as ->.
    { destruct (decide (d = v)); [done|]. pose proof (Ht d x Hdin Hxin).
      rewrite (Hpw d), (Hpw x) in Hlt; [lia|by intros ->|done]. }
    destruct (pop_ok max_order max_order_good pw _ Hw' Hz) as (w1 & Hpop & Hw1 & Hs1 & Hm1). rewrite <- Hx in Hm1.
    destruct (replace_weakest pw a1 w1 (size a1) v x Hh Hw1 eq_refl ltac:(lia) Hfd) as
      (a2 & a3 & w2 & -> & Hi1 & Hi2 & Hh2 & Hhw2 & Hsa2 & Hsw2 & _ & Hma2 & Hmw2 & Htop2); rewrite ?Hm, ?Hm1.
    + intros H. by apply (Hd x).
    + intros a Hina. rewrite elem_of_difference. pose proof (Hd a Hina). tauto.
    + lia.
    + intros a b Hina Hne'. rewrite elem_of_difference. intros [Hinb _].
      rewrite (Hpw a), (Hpw b); [by apply Ht|by intros ->|done].
    + intros b. rewrite elem_of_difference. intros [Hinb _]. by apply Hmax.
    + done.
    + cbn [mbind outcome_bind]. rewrite Hpop. cbn [mbind outcome_bind]. rewrite Hi1. cbn [mbind outcome_bind]. rewrite Hi2. cbn [mbind outcome_bind].
      eexists. split; [reflexivity|]. split; [|eexists _, _; split; [reflexivity|lia]].
      assert (x ≠ v ∧ v ≠ x) as [Hxv Hvx] by (by split; intros ->).
      split; cbn [set_queues activeValidators waitingValidators activeLimit]; try done; try lia; rewrite ?Hma2, ?Hmw2, ?Hm, ?Hm1.
      * intros a. rewrite !elem_of_union, !elem_of_difference, !elem_of_singleton. intros [->|[Hina Hne']]; [tauto|].
        pose proof (Hd a Hina). tauto.
      * intros a. rewrite !elem_of_union, !elem_of_difference, !elem_of_singleton, <- Hall'.
        destruct (decide (a = v)) as [->|]; [tauto|]. destruct (decide (a = x)) as [->|]; tauto.
  - eexists. split; [reflexivity|]. split; [|eexists _, _; split; [reflexivity|lia]].
    split; cbn [set_queues activeValidators waitingValidators activeLimit]; rewrite ?Hm, ?Hs; try done.
    intros a b Hina Hinb. pose proof (Hmin a Hina). pose proof (Hmax b Hinb). lia.
Qed.

Lemma reduce_ok pw0 s v : set_ok pw0 s → room s →
  (∀ b, b ≠ v → validator_power s b = pw0 b) → 0 <= validator_power s v < pw0 v →
  ∃ s', reduceReshuffle s v (validator_power s v) = Ok s' ∧ set_ok (validator_power s) s' ∧ requeued 0 s s'.
Proof.
  intros Hok Hroom Hpw Hdec. destruct (proj2 (so_all _ _ Hok v) ltac:(lia)) as [Hva|Hvw].
  - destruct (decide (validator_power s v = 0)) as [H0|H0].
    + rewrite H0. by apply (reduce_active_leave_ok pw0).
    + apply (reduce_active_ok pw0); try done. lia.
  - by apply (reduce_waiting_ok pw0).
Qed.

(** ** The payloads *)

Lemma big_endian_length n x : List.length (big_endian n x) = n.
Proof. revert x. induction n as [|n IH]; intros x; [done|]. cbn [big_endian]. rewrite length_app, IH. simpl. lia. Qed.
Lemma from_big_endian n x : 0 <= x < 256 ^ Z.of_nat n → from_word (big_endian n x) = x.
Proof.
  revert x. induction n as [|n IH]; intros x Hx; [change (256 ^ Z.of_nat 0) with 1 in Hx; change (0 = x); lia|].
  cbn [big_endian]. unfold from_word. rewrite foldl_app.
  fold (from_word (big_endian n (x / 256))). rewrite Nat2Z.inj_succ, Z.pow_succ_r in Hx by lia. rewrite IH.
  - cbn [foldl]. pose proof (Z.div_mod x 256 ltac:(lia)). lia.
  - split; [apply Z.div_pos; lia|apply Z.div_lt_upper_bound; lia].
Qed.
Lemma read_word_at pre x post : uint 256 x →
  read_word (pre ++ word x ++ post) (Z.of_nat (List.length pre)) = Ok x.
Proof.
  intros Hx. unfold read_word. pose proof (big_endian_length 32 x) as Hl. fold (word x) in Hl.
  rewrite !length_app, Hl, (proj2 (Z.leb_le _ _)) by lia. f_equal. rewrite Nat2Z.id, drop_app_length, take_app_le by lia.
  rewrite take_ge by lia. apply from_big_endian. unfold uint in Hx. change (256 ^ Z.of_nat 32) with (2 ^ 256). lia.
Qed.
Lemma amount_roundtrip x : uint 256 x → decode_amount (encode_amount x) = Ok x.
Proof.
  intros Hx. pose proof (read_word_at [] x [] Hx) as H. cbn [app] in H. rewrite app_nil_r in H. exact H.
Qed.
Lemma word_length x : List.length (word x) = 32%nat.
Proof. apply big_endian_length. Qed.
Lemma power_roundtrip m p : uint 256 p → Z.of_nat (List.length m) < 2 ^ 256 → decode_power (encode_power m p) = Ok (m, p).
Proof.
  intros Hp Hm. unfold decode_power, encode_power.
  set (len := Z.of_nat (List.length m)). set (pad := replicate _ _).
  pose proof (read_word_at [] 64 (word p ++ word len ++ m ++ pad) ltac:(unfold uint; lia)) as H0.
  cbn [app List.length] in H0. change (Z.of_nat 0) with 0 in H0. rewrite H0. cbn [mbind outcome_bind].
  pose proof (read_word_at (word 64) p (word len ++ m ++ pad) Hp) as H1.
  rewrite word_length in H1. change (Z.of_nat 32) with 32 in H1. rewrite H1. cbn [mbind outcome_bind].
  pose proof (read_word_at (word 64 ++ word p) len (m ++ pad) ltac:(unfold uint, len; lia)) as H2.
  rewrite <- app_assoc, length_app, !word_length in H2. change (Z.of_nat (32 + 32)) with 64 in H2.
  rewrite H2. cbn [mbind outcome_bind].
  rewrite !length_app, !word_length, (proj2 (Z.leb_le _ _)) by (unfold len; lia). do 2 f_equal.
  replace (word 64 ++ word p ++ word len ++ m ++ pad) with ((word 64 ++ word p ++ word len) ++ m ++ pad)
    by (by rewrite <- !app_assoc).
  rewrite drop_app_length' by (rewrite !length_app, !word_length; done).
  rewrite take_app_le by (unfold len; lia). apply take_ge. unfold len. lia.
Qed.

(** ** Confirming a change *)

Record staking_ok s : Prop := {
  sk_set : set_ok (validator_power s) s;
  sk_info a i : validators s !! a = Some i → 0 <= confirmedCollateral i ∧ 0 <= federatedPower i;
  sk_total : totalConfirmedCollateral s = msum confirmedCollateral (validators s);
  sk_uint : totalConfirmedCollateral s < 2 ^ 256;
}.
(** The number of validators known is far from the range of the positions. *)
Definition few s : Prop := Z.of_nat (base.size (dom (validators s))) + 1 < 2 ^ 15.

(** What the guards of the subnet actor ensure of a change when it was requested, and
    the power its validator has afterwards. *)
Definition change_ok s (c : StakingChange) : Prop :=
  match op c with
  | SetMetadata => True
  | SetFederatedPower => permissionMode s = Federated ∧
      ∃ m p, payload c = encode_power m p ∧ uint 256 p ∧ Z.of_nat (List.length m) < 2 ^ 256
  | Deposit => permissionMode s ≠ Federated ∧
      ∃ x, payload c = encode_amount x ∧ 0 < x ∧ totalConfirmedCollateral s + x < 2 ^ 256
  | Withdraw => permissionMode s ≠ Federated ∧
      ∃ x, payload c = encode_amount x ∧ 0 < x <= confirmedCollateral (info s (validator c))
  end.
Definition new_power s (c : StakingChange) (p : Z) : Prop :=
  match op c with
  | SetMetadata => p = validator_power s (validator c)
  | SetFederatedPower => ∃ m, decode_power (payload c) = Ok (m, p)
  | Deposit => ∃ x, decode_amount (payload c) = Ok x ∧ p = validator_power s (validator c) + x
  | Withdraw => ∃ x, decode_amount (payload c) = Ok x ∧ p = validator_power s (validator c) - x
  end.

Lemma info_set_info s a i b : info (set_info s a i) b = if decide (b = a) then i else info s b.
Proof.
  unfold info. cbn. destruct (decide (b = a)) as [->|]; [by rewrite lookup_insert_eq|by rewrite lookup_insert_ne].
Qed.
Lemma info_nonneg s a : staking_ok s → 0 <= confirmedCollateral (info s a) ∧ 0 <= federatedPower (info s a).
Proof.
  intros H. unfold info. destruct (validators s !! a) as [i|] eqn:Hi; [by apply (sk_info s H a)|done].
Qed.
Lemma info_confirmed s a : from_option confirmedCollateral 0 (validators s !! a) = confirmedCollateral (info s a).
Proof. unfold info. by destruct (validators s !! a). Qed.
Lemma confirmed_le_total s a : staking_ok s → confirmedCollateral (info s a) <= totalConfirmedCollateral s.
Proof.
  intros H. rewrite (sk_total s H). unfold info. destruct (validators s !! a) as [i|] eqn:Hi; cbn.
  - apply (msum_lookup_le _ _ a); [|done]. intros k x Hx. by apply (sk_info s H k).
  - apply msum_nonneg. intros k x Hx. by apply (sk_info s H k).
Qed.
Lemma power_nonneg s a : staking_ok s → 0 <= validator_power s a.
Proof. intros [? ?]%(info_nonneg s a). unfold validator_power. by destruct (permissionMode s). Qed.

Lemma pq_heap_ext o pw pw' q : (∀ a, pw a = pw' a) → pq_heap o pw q → pq_heap o pw' q.
Proof. intros H [Hq Hh]. split; [done|]. eapply heap_ext; [|exact Hh]. intros k. apply H. Qed.
Lemma set_ok_frame pw pw' s s' : set_ok pw s → (∀ a, pw a = pw' a) → activeLimit s' = activeLimit s →
  activeValidators s' = activeValidators s → waitingValidators s' = waitingValidators s → set_ok pw' s'.
Proof.
  intros [H1 H2 H3 H4 H5 H6 H7] Hpw Hl Ha Hw. split; rewrite ?Ha, ?Hw, ?Hl; try done.
  - by apply (pq_heap_ext _ pw).
  - by apply (pq_heap_ext _ pw).
  - intros a b. rewrite <- !Hpw. apply H6.
  - intros a. rewrite <- Hpw. apply H7.
Qed.
(** Whoever is in a queue is known, and in one queue only. *)
Lemma room_of_few s : staking_ok s → few s → room s.
Proof.
  intros H Hfew. destruct (sk_set s H) as [Ha Hw Hd _ _ _ Hall]. unfold room, few in *.
  rewrite <- (members_size _ (proj1 Ha)), <- (members_size _ (proj1 Hw)).
  assert (members (activeValidators s) ## members (waitingValidators s)) as Hdis by (intros a; apply Hd).
  rewrite <- Nat2Z.inj_add, <- (size_union _ _ Hdis).
  assert (members (activeValidators s) ∪ members (waitingValidators s) ⊆ dom (validators s)) as Hsub.
  { intros a Hin%elem_of_union. apply Hall in Hin. apply elem_of_dom. unfold validator_power, info in Hin.
    destruct (validators s !! a) as [i|]; [done|]. by destruct (permissionMode s). }
  apply subseteq_size in Hsub. lia.
Qed.

Lemma power_set_info s a i b : validator_power (set_info s a i) b =
  if decide (b = a) then match permissionMode s with Federated => federatedPower i | _ => confirmedCollateral i end
  else validator_power s b.
Proof.
  unfold validator_power. rewrite info_set_info. cbn. by destruct (decide (b = a)).
Qed.
(** A change that leaves the powers alone. *)
Lemma set_info_ok s a i : staking_ok s → confirmedCollateral i = confirmedCollateral (info s a) →
  federatedPower i = federatedPower (info s a) → staking_ok (set_info s a i).
Proof.
  intros H Hc Hf. split; cbn [set_info validators totalConfirmedCollateral].
  - eapply set_ok_frame; [apply (sk_set s H)| |done..]. intros b. rewrite power_set_info.
    destruct (decide (b = a)) as [->|]; [|done]. unfold validator_power. by rewrite Hc, Hf.
  - intros b j [[<- <-]|[_ Hj]]%lookup_insert_Some; [rewrite Hc, Hf; by apply info_nonneg|by apply (sk_info s H b)].
  - rewrite msum_insert, info_confirmed, <- (sk_total s H). lia.
  - apply (sk_uint s H).
Qed.

Lemma confirmDeposit_ok s a x : staking_ok s → few s → 1 <= activeLimit s → permissionMode s ≠ Federated →
  0 < x → totalConfirmedCollateral s + x < 2 ^ 256 →
  ∃ s', confirmDeposit s a x = Ok s' ∧ staking_ok s' ∧
    (∀ b, validator_power s' b = if decide (b = a) then validator_power s a + x else validator_power s b) ∧
    permissionMode s' = permissionMode s ∧ activeLimit s' = activeLimit s.
Proof.
  intros H Hfew Hlim Hmode Hx Hsum. pose proof (confirmed_le_total s a H). pose proof (info_nonneg s a H) as [Hc0 Hf0].
  pose proof (room_of_few s H Hfew) as Hroom.
  unfold confirmDeposit. rewrite checked_Ok by (unfold uint; lia). cbn [mbind outcome_bind].
  rewrite checked_Ok by (unfold uint; cbn; lia). cbn [mbind outcome_bind].
  set (i' := mkInfo _ _ _ _). set (s1 := set_total _ _).
  assert (∀ b, validator_power s1 b = if decide (b = a) then validator_power s a + x else validator_power s b) as Hpw.
  { intros b. change (validator_power s1 b) with (validator_power (set_info s a i') b). rewrite power_set_info.
    destruct (decide (b = a)); [|done]. unfold validator_power. by destruct (permissionMode s). }
  assert (validator_power s1 a = confirmedCollateral (info s a) + x) as Hnew.
  { rewrite Hpw, decide_True by done. unfold validator_power. by destruct (permissionMode s). }
  rewrite <- Hnew. destruct (increase_ok (validator_power s) s1 a) as (s' & -> & Hset & active & waiting & -> & _).
  - eapply set_ok_frame; [apply (sk_set s H)|done..].
  - done.
  - done.
  - intros b Hb. by rewrite Hpw, decide_False.
  - rewrite Hpw, decide_True by done. pose proof (power_nonneg s a H). lia.
  - eexists. split; [reflexivity|]. split; [|done].
    split; cbn [set_queues s1 set_total set_info validators totalConfirmedCollateral].
    + exact Hset.
    + intros b j [[<- <-]|[_ Hj]]%lookup_insert_Some; [cbn; lia|by apply (sk_info s H b)].
    + rewrite msum_insert, info_confirmed, <- (sk_total s H). cbn. lia.
    + lia.
Qed.

Lemma confirmWithdraw_ok s a x : staking_ok s → few s → permissionMode s ≠ Federated →
  0 < x <= confirmedCollateral (info s a) →
  ∃ s', confirmWithdraw s a x = Ok s' ∧ staking_ok s' ∧
    (∀ b, validator_power s' b = if decide (b = a) then validator_power s a - x else validator_power s b) ∧
    permissionMode s' = permissionMode s ∧ activeLimit s' = activeLimit s.
Proof.
  intros H Hfew Hmode Hx. pose proof (confirmed_le_total s a H) as Hle. pose proof (sk_uint s H).
  pose proof (room_of_few s H Hfew) as Hroom.
  unfold confirmWithdraw. rewrite checked_Ok by (unfold uint; lia). cbn [mbind outcome_bind].
  set (c := confirmedCollateral (info s a) - x). set (s1 := if _ && _ then _ else _).
  assert (∀ b, validator_power s1 b = if decide (b = a) then validator_power s a - x else validator_power s b) as Hpw.
  { intros b. unfold s1. destruct ((c =? 0) && _) eqn:Hdel.
    - apply andb_true_iff in Hdel as [Hc%Z.eqb_eq _]. unfold validator_power, info. cbn.
      destruct (decide (b = a)) as [->|]; [|by rewrite lookup_delete_ne].
      rewrite lookup_delete_eq. cbn. unfold c, info in Hc. destruct (permissionMode s); [lia|done|lia].
    - rewrite power_set_info. destruct (decide (b = a)); [|done]. unfold validator_power, c. by destruct (permissionMode s). }
  assert (validator_power s1 a = c) as Hnew.
  { rewrite Hpw, decide_True by done. unfold validator_power, c. by destruct (permissionMode s). }
  assert (activeLimit s1 = activeLimit s ∧ activeValidators s1 = activeValidators s ∧ waitingValidators s1 = waitingValidators s ∧
          permissionMode s1 = permissionMode s ∧ totalConfirmedCollateral s1 = totalConfirmedCollateral s) as (E1 & E2 & E3 & E4 & E5).
  { unfold s1. by destruct ((c =? 0) && _). }
  assert (msum confirmedCollateral (validators s1) = totalConfirmedCollateral s - x) as Hsum.
  { unfold s1. rewrite (sk_total s H). destruct ((c =? 0) && _) eqn:Hdel; cbn [set_info validators].
    - apply andb_true_iff in Hdel as [Hc%Z.eqb_eq _]. rewrite msum_delete, info_confirmed. unfold c in Hc. lia.
    - rewrite msum_insert, info_confirmed. cbn. unfold c. lia. }
  rewrite <- Hnew. destruct (reduce_ok (validator_power s) s1 a) as (s' & -> & Hset & active & waiting & -> & _).
  - by eapply set_ok_frame; [apply (sk_set s H)|..].
  - unfold room. by rewrite E2, E3.
  - intros b Hb. by rewrite Hpw, decide_False.
  - rewrite Hpw, decide_True by done. unfold validator_power. destruct (permissionMode s); [lia|done|lia].
  - cbn [mbind outcome_bind set_queues totalConfirmedCollateral]. rewrite E5, checked_Ok by (unfold uint; lia).
    cbn [mbind outcome_bind]. eexists. split; [reflexivity|]. split; [|done].
    split; cbn [set_total set_queues validators totalConfirmedCollateral]; [by eapply set_ok_frame; [exact Hset|..]| |by rewrite Hsum|lia].
    intros b j Hj. unfold s1 in Hj. destruct ((c =? 0) && _); cbn in Hj.
    + apply lookup_delete_Some in Hj as [_ Hj]. by apply (sk_info s H b).
    + apply lookup_insert_Some in Hj as [[<- <-]|[_ Hj]]; [cbn; pose proof (info_nonneg s a H); unfold c; lia|by apply (sk_info s H b)].
Qed.

Lemma confirmFederatedPower_ok s a p : staking_ok s → few s → 1 <= activeLimit s → permissionMode s = Federated → 0 <= p →
  ∃ s', confirmFederatedPower s a p = Ok s' ∧ staking_ok s' ∧
    (∀ b, validator_power s' b = if decide (b = a) then p else validator_power s b) ∧
    permissionMode s' = permissionMode s ∧ activeLimit s' = activeLimit s.
Proof.
  intros H Hfew Hlim Hmode Hp. pose proof (room_of_few s H Hfew) as Hroom.
  unfold confirmFederatedPower. set (i' := mkInfo _ _ _ _). set (s1 := set_info s a i').
  assert (∀ b, validator_power s1 b = if decide (b = a) then p else validator_power s b) as Hpw.
  { intros b. unfold s1. rewrite power_set_info, Hmode. by destruct (decide (b = a)). }
  assert (validator_power s1 a = p) as Hnew by (by rewrite Hpw, decide_True).
  assert (validator_power s a = federatedPower (info s a)) as Hold by (unfold validator_power; by rewrite Hmode).
  assert (set_ok (validator_power s) s1) as Hs1 by (eapply set_ok_frame; [apply (sk_set s H)|done..]).
  assert (∀ b, b ≠ a → validator_power s1 b = validator_power s b) as Hother by (intros b Hb; by rewrite Hpw, decide_False).
  assert (∀ s', set_ok (validator_power s') s' → (∃ active waiting, s' = set_queues s1 active waiting) → staking_ok s') as Hdone.
  { intros s' Hset (active & waiting & ->). split; cbn [set_queues s1 set_info validators totalConfirmedCollateral]; [exact Hset| | |].
    - intros b j [[<- <-]|[_ Hj]]%lookup_insert_Some; [|by apply (sk_info s H b)].
      unfold i'. cbn. split; [by apply info_nonneg|done].
    - rewrite msum_insert, info_confirmed, <- (sk_total s H). unfold i'. cbn. lia.
    - apply (sk_uint s H). }
  destruct (Z.eqb_spec (federatedPower (info s a)) p) as [He|Hne].
  { exists s1. split_and!; try done. apply set_info_ok; [done|done|cbn; congruence]. }
  pose proof (power_nonneg s a H). rewrite <- Hnew. destruct (Z.ltb_spec (federatedPower (info s a)) (validator_power s1 a)) as [Hlt|Hge].
  - destruct (increase_ok (validator_power s) s1 a Hs1 Hroom Hlim Hother ltac:(lia)) as (s' & -> & Hset & active & waiting & -> & _).
    eexists. split; [reflexivity|]. split; [|split; [intros b; rewrite Hnew; apply Hpw|done]]. apply Hdone; [exact Hset|by eexists _, _].
  - destruct (reduce_ok (validator_power s) s1 a Hs1 Hroom Hother ltac:(lia)) as (s' & -> & Hset & active & waiting & -> & _).
    eexists. split; [reflexivity|]. split; [|split; [intros b; rewrite Hnew; apply Hpw|done]]. apply Hdone; [exact Hset|by eexists _, _].
Qed.

Lemma setMetadata_ok s a m : staking_ok s → staking_ok (setMetadata s a m) ∧
  (∀ b, validator_power (setMetadata s a m) b = validator_power s b).
Proof.
  intros H. split; [by apply set_info_ok|]. intros b. unfold setMetadata. rewrite power_set_info.
  destruct (decide (b = a)) as [->|]; [|done]. unfold validator_power. by destruct (permissionMode s).
Qed.

(** C12. Confirming a change never fails and keeps the strongest validators active.  In a
    set that satisfies the invariant, of fewer than 2{^15} - 2 validators, a change as the subnet actor records it is applied
    without a revert; the validator then has the power that was asked for and no one else's
    power changes; the active validators are again the strongest ones, as many as the limit
    allows, each validator with power is in exactly one of the two queues, and the total of
    the confirmed collateral is the sum over the validators. *)
Theorem confirmed_change_applies s c :
  staking_ok s → change_ok s c → 1 <= activeLimit s → Z.of_nat (base.size (dom (validators s))) + 2 < 2 ^ 15 →
  ∃ s', apply_change s c = Ok s' ∧ staking_ok s' ∧ new_power s c (validator_power s' (validator c)) ∧
    (∀ b, b ≠ validator c → validator_power s' b = validator_power s b) ∧
    permissionMode s' = permissionMode s ∧ activeLimit s' = activeLimit s.
Proof.
  intros H Hc Hlim Hfew'. assert (few s) as Hfew by (unfold few; lia). unfold apply_change, change_ok, new_power in *.
  destruct (op c) eqn:Hop.
  - destruct Hc as (Hmode & x & Hpay & Hx & Hsum). pose proof (sk_uint s H).
    assert (0 <= totalConfirmedCollateral s).
    { pose proof (confirmed_le_total s 0 H). pose proof (info_nonneg s 0 H). lia. }
    rewrite Hpay, amount_roundtrip by (unfold uint; lia). cbn [mbind outcome_bind].
    destruct (confirmDeposit_ok s (validator c) x H Hfew Hlim Hmode Hx Hsum) as (s' & -> & Hs' & Hpw & Hm & Hl).
    exists s'. split_and!; try done; [|intros b Hb; by rewrite Hpw, decide_False]. exists x. by rewrite Hpw, decide_True.
  - destruct Hc as (Hmode & x & Hpay & Hx). pose proof (sk_uint s H). pose proof (confirmed_le_total s (validator c) H).
    rewrite Hpay, amount_roundtrip by (unfold uint; lia). cbn [mbind outcome_bind].
    destruct (confirmWithdraw_ok s (validator c) x H Hfew Hmode Hx) as (s' & -> & Hs' & Hpw & Hm & Hl).
    exists s'. split_and!; try done; [|intros b Hb; by rewrite Hpw, decide_False]. exists x. by rewrite Hpw, decide_True.
  - destruct (setMetadata_ok s (validator c) (payload c) H) as [Hs' Hpw]. eexists. by split_and!; [reflexivity|..].
  - destruct Hc as (Hmode & m & p & Hpay & Hp & Hlen). rewrite Hpay, power_roundtrip by done. cbn [mbind outcome_bind fst snd].
    destruct (setMetadata_ok s (validator c) m H) as [H1 Hpw1].
    assert (few (setMetadata s (validator c) m)) as Hfew1.
    { unfold few, setMetadata, set_info. cbn. rewrite dom_insert_L.
      pose proof (size_union_alt {[validator c]} (dom (validators s))) as Hu. rewrite size_singleton in Hu.
      assert (base.size (dom (validators s) ∖ {[validator c]}) ≤ base.size (dom (validators s)))%nat by (apply subseteq_size; set_solver).
      lia. }
    destruct (confirmFederatedPower_ok _ (validator c) p H1 Hfew1 Hlim Hmode (proj1 Hp)) as (s' & -> & Hs' & Hpw & Hm & Hl).
    exists s'. split_and!; try done.
    + exists m. by rewrite Hpw, decide_True.
    + intros b Hb. by rewrite Hpw, decide_False, Hpw1.
Qed.

Definition empty_set (mode : PermissionMode) (limit : Z) : ValidatorSet := mkSet mode limit 0 ∅ empty_pq empty_pq.
Lemma pq_heap_empty o pw : pq_heap o pw empty_pq.
Proof. split; [apply pq_ok_empty|]. intros i Hi. cbn in Hi. lia. Qed.
Lemma staking_ok_empty mode limit : 0 <= limit → staking_ok (empty_set mode limit).
Proof.
  intros Hl. split; [split| | |]; cbn; try done; try apply pq_heap_empty.
  intros a. unfold validator_power, info. cbn. unfold members. cbn. rewrite lookup_empty, dom_empty_L. cbn.
  destruct mode; split; try lia; intros [Ha|Ha]; by apply not_elem_of_empty in Ha.
Qed.

Lemma confirmed_change_applies_witness :
  ∃ s', apply_change (empty_set Collateral 2) (mkChange Deposit (encode_amount 10) 7) = Ok s' ∧ staking_ok s' ∧
    validator_power s' 7 = 10.
Proof.
  destruct (confirmed_change_applies (empty_set Collateral 2) (mkChange Deposit (encode_amount 10) 7)) as (s' & Ha & Hok & Hp & _).
  - by apply staking_ok_empty.
  - split; [done|]. exists 10. cbn. split; [done|lia].
  - cbn. lia.
  - cbn [empty_set validators]. rewrite dom_empty_L, size_empty. lia.
  - exists s'. split; [done|]. split; [done|]. destruct Hp as (x & Hx & Hp). cbn [payload validator] in Hx, Hp.
    rewrite amount_roundtrip in Hx by (unfold uint; lia). injection Hx as <-. rewrite Hp. reflexivity.
Defined.

(** ** Releases *)

Fixpoint pushes (r : AddressStakingReleases) (l : list StakingRelease) : result AddressStakingReleases :=
  match l with [] => Ok r | x :: l => r ← push r x; pushes r l end.
Definition total (l : list StakingRelease) : Z := foldr (λ x acc, release_amount x + acc) 0 l.

Lemma pushes_releases l : ∀ pre, Z.of_nat (List.length (pre ++ l)) < 2 ^ 16 →
  pushes (mkReleases (Z.of_nat (List.length pre)) 0 (map_seqZ 0 pre)) l =
  Ok (mkReleases (Z.of_nat (List.length (pre ++ l))) 0 (map_seqZ 0 (pre ++ l))).
Proof.
  induction l as [|x l IH]; intros pre Hl; [by rewrite app_nil_r|]. rewrite length_app in Hl. cbn [List.length] in Hl.
  cbn [pushes]. unfold push. cbn [startIdx length releases].
  rewrite !checked_Ok by (unfold uint; lia). cbn [mbind outcome_bind]. rewrite <- map_seqZ_snoc.
  replace (Z.of_nat (List.length pre) + 1) with (Z.of_nat (List.length (pre ++ [x]))) by (rewrite length_app; simpl; lia).
  rewrite IH; rewrite <- app_assoc; [done|]. rewrite length_app. simpl. lia.
Qed.
Lemma total_nonneg l : Forall (λ x, 0 <= release_amount x) l → 0 <= total l.
Proof. induction 1; cbn; [lia|]. unfold total in *. lia. Qed.

Lemma compact_matured block_number l : ∀ n i newLength amount rs,
  (∀ k x, l !! k = Some x → rs !! (i + Z.of_nat k) = Some x) →
  Forall (λ x, releaseAt x <= block_number) l → Forall (λ x, 0 <= release_amount x) l →
  0 <= i → i + Z.of_nat (List.length l) < 2 ^ 16 → Z.of_nat (List.length l) <= newLength < 2 ^ 16 →
  0 <= amount → amount + total l < 2 ^ 256 →
  ∃ rs', compact_loop block_number (List.length l + n) i newLength amount rs =
         compact_loop block_number n (i + Z.of_nat (List.length l)) (newLength - Z.of_nat (List.length l)) (amount + total l) rs' ∧
    ∀ k, i + Z.of_nat (List.length l) <= k → rs' !! k = rs !! k.
Proof.
  induction l as [|x l IH]; intros n i newLength amount rs Hrs Hm Hpos Hi Hb Hn Ha Hsum.
  { exists rs. cbn [List.length Nat.add]. change (total []) with 0. change (Z.of_nat 0) with 0. by rewrite !Z.add_0_r, Z.sub_0_r. }
  cbn [List.length] in *. change (total (x :: l)) with (release_amount x + total l) in *.
  apply Forall_cons in Hm as [Hmx Hm], Hpos as [Hpx Hpos]. pose proof (total_nonneg l Hpos).
  cbn [Nat.add compact_loop]. pose proof (Hrs 0%nat x eq_refl) as Hx. rewrite Z.add_0_r in Hx. rewrite Hx.
  change (default zero_release (Some x)) with x.
  rewrite (proj2 (Z.ltb_ge _ _)) by done. rewrite checked_Ok by (unfold uint; lia). cbn [mbind outcome_bind].
  rewrite !truncate_small by (unfold uint; lia).
  destruct (IH n (i + 1) (newLength - 1) (amount + release_amount x) (delete i rs)) as (rs' & -> & Hk); try done; try lia.
  { intros k y Hy. rewrite lookup_delete_ne by lia. replace (i + 1 + Z.of_nat k) with (i + Z.of_nat (S k)) by lia. by apply Hrs. }
  exists rs'. split; [f_equal; lia|]. intros k Hk'. rewrite Hk by lia. apply lookup_delete_ne. lia.
Qed.

(** The first claim pays what is due, and can lock the rest for good.  Of releases
    [l1 ++ l2] of which [l1] are due and the first of [l2] is not, a claim pays exactly the
    sum of [l1].  If there are no more left than were paid, then every later claim, at any
    block, pays nothing and leaves the queue as it is: the loop compares an index that
    starts at [startIdx] with the number of releases left. *)
Theorem released_collateral_stuck block_number l1 l2 :
  Forall (λ x, releaseAt x <= block_number) l1 → match l2 with [] => False | x :: _ => block_number < releaseAt x end →
  (List.length l2 <= List.length l1)%nat → Z.of_nat (List.length (l1 ++ l2)) < 2 ^ 16 →
  Forall (λ x, 0 <= release_amount x) l1 → total l1 < 2 ^ 256 →
  ∃ r r', pushes zero_releases (l1 ++ l2) = Ok r ∧
    compact block_number r = Ok (total l1, Z.of_nat (List.length l2), r') ∧
    ∀ later, compact later r' = Ok (0, Z.of_nat (List.length l2), r').
Proof.
  intros Hdue Hlocked Hlen Hb Hpos Hsum. pose proof (pushes_releases (l1 ++ l2) [] Hb) as Hp.
  eexists. destruct l2 as [|x l2]; [done|]. set (L2 := x :: l2) in *. rewrite length_app in Hb.
  assert (0 < List.length L2)%nat by (cbn; lia).
  destruct (compact_matured block_number l1 (List.length L2) 0 (Z.of_nat (List.length (l1 ++ L2))) 0 (map_seqZ 0 (l1 ++ L2)))
    as (rs & Hc & Hrs); try done; rewrite ?length_app; try lia.
  { intros k y Hy. rewrite Z.add_0_l. apply lookup_map_seqZ_Some. split; [lia|]. rewrite Z.sub_0_r, Nat2Z.id. by apply lookup_app_l_Some. }
  exists (mkReleases (Z.of_nat (List.length L2)) (Z.of_nat (List.length l1)) rs). split; [exact Hp|]. split.
  - unfold compact. cbn [length startIdx releases app]. rewrite length_app in *.
    rewrite (proj2 (Z.eqb_neq _ 0)) by lia. cbn [revert_if mbind outcome_bind].
    replace (Z.to_nat (Z.of_nat (List.length l1 + List.length L2) - 0)) with (List.length l1 + List.length L2)%nat by lia.
    rewrite Hc. assert (rs !! (0 + Z.of_nat (List.length l1)) = Some x) as Hx.
    { rewrite Hrs by lia. apply lookup_map_seqZ_Some. split; [lia|]. rewrite Z.add_0_l, Z.sub_0_r, Nat2Z.id.
      rewrite lookup_app_r by lia. by rewrite Nat.sub_diag. }
    cbn [List.length L2 compact_loop]. rewrite Hx. cbn. rewrite (proj2 (Z.ltb_lt _ _)) by done. cbn. do 3 f_equal; lia.
  - intros later. unfold compact. cbn [length startIdx releases]. rewrite (proj2 (Z.eqb_neq _ 0)) by lia. cbn [revert_if mbind outcome_bind].
    by replace (Z.to_nat (Z.of_nat (List.length L2) - Z.of_nat (List.length l1))) with 0%nat by lia.
Qed.

Lemma released_collateral_stuck_witness :
  ∃ r r', pushes zero_releases [mkRelease 10 5; mkRelease 20 7] = Ok r ∧
    compact 10 r = Ok (5, 1, r') ∧ compact 1000 r' = Ok (0, 1, r').
Proof.
  destruct (released_collateral_stuck 10 [mkRelease 10 5] [mkRelease 20 7]) as (r & r' & H1 & H2 & H3).
  - by repeat constructor.
  - done.
  - done.
  - done.
  - by repeat constructor.
  - done.
  - exists r, r'. split; [exact H1|]. split; [exact H2|]. apply (H3 1000).
Defined.
