(* ===== verification/Quorum.v ===== *)
(** * Collecting signatures on checkpoints in the contracts
    ([contracts/src/lib/LibQuorum.sol], [structs/Quorum.sol],
    [lib/LibMultisignatureChecker.sol])

    In the subnet the gateway collects the validators' signatures on a checkpoint, one
    by one, each with a Merkle proof that the signer was a validator with the weight
    it claims.  On the parent the subnet actor checks a bundle of signatures at once.

    The recovery of a signer and the verification of Merkle proofs are OpenZeppelin's,
    and parameters; an [EnumerableSet] is a finite set. *)

From stdpp Require Import base tactics numbers list gmap.
From Stdlib Require Import Lia.
From S2P Require Import Prelude Sol.

Open Scope Z_scope.

Record QuorumInfo := mkQuorumInfo { q_hash : Z; rootHash : Z; threshold : Z; currentWeight : Z; reached : bool }.
Definition zero_quorum : QuorumInfo := mkQuorumInfo 0 0 0 0 false.
(** [quorumSignatures] maps a height and a signer to the signature;
    [quorumSignatureSenders] is the set of the signers of a height. *)
Record QuorumMap := mkQuorumMap {
  retentionHeight : Z;
  quorumInfo : gmap Z QuorumInfo;
  incompleteQuorums : gset Z;
  quorumSignatureSenders : gmap Z (gset address);
  quorumSignatures : gmap (Z * address) bytes;
}.
Implicit Types (m : QuorumMap).
Definition quorum_info m (h : Z) : QuorumInfo := default zero_quorum (quorumInfo m !! h).
Definition senders m (h : Z) : gset address := default ∅ (quorumSignatureSenders m !! h).

(** [ECDSA.tryRecover], the hash of a leaf of the membership tree, and
    [MerkleProof.verify]. *)
Class SolCrypto := {
  tryRecover : Z → bytes → option address;
  validator_leaf : address → Z → Z;
  merkle_verify : list Z → Z → Z → bool;
}.

Section quorum.
Context `{SolCrypto}.

Definition weightNeeded (weight majorityPercentage : Z) : result Z :=
  w ← checked 256 (weight * majorityPercentage); Ok (w / 100).

Definition addQuorumSignature m (height : Z) (membershipProof : list Z) (weight : Z) (signature : bytes) : result QuorumMap :=
  let info := quorum_info m height in
  signatory ← ok_or InvalidSignature (tryRecover (q_hash info) signature);
  _ ← revert_if (bool_decide (signatory ∈ senders m height)) SignatureReplay;
  _ ← revert_if (negb (merkle_verify membershipProof (rootHash info) (validator_leaf signatory weight))) (NotAuthorized signatory);
  w ← checked 256 (currentWeight info + weight);
  let complete := (threshold info <=? w) && negb (reached info) in
  _ ← revert_if (complete && negb (bool_decide (height ∈ incompleteQuorums m))) FailedRemoveIncompleteQuorum;
  Ok (mkQuorumMap (retentionHeight m)
    (<[height := mkQuorumInfo (q_hash info) (rootHash info) (threshold info) w (reached info || complete)]> (quorumInfo m))
    (if complete then incompleteQuorums m ∖ {[height]} else incompleteQuorums m)
    (<[height := {[signatory]} ∪ senders m height]> (quorumSignatureSenders m))
    (<[(height, signatory) := signature]> (quorumSignatures m))).

Definition createQuorumInfo m (objHeight objHash membershipRootHash membershipWeight majorityPercentage : Z) : result QuorumMap :=
  _ ← revert_if (objHeight <? retentionHeight m) QuorumAlreadyProcessed;
  _ ← revert_if (membershipWeight =? 0) ZeroMembershipWeight;
  t ← weightNeeded membershipWeight majorityPercentage;
  _ ← revert_if (bool_decide (objHeight ∈ incompleteQuorums m)) FailedAddIncompleteQuorum;
  Ok (mkQuorumMap (retentionHeight m)
    (<[objHeight := mkQuorumInfo objHash membershipRootHash t 0 false]> (quorumInfo m))
    ({[objHeight]} ∪ incompleteQuorums m) (quorumSignatureSenders m) (quorumSignatures m)).

(** One height of the loop, and the loop: [n] heights from [h]. *)
Definition prune_height m (h : Z) : QuorumMap :=
  mkQuorumMap (retentionHeight m) (delete h (quorumInfo m)) (incompleteQuorums m) (delete h (quorumSignatureSenders m))
    (set_fold (λ a sigs, delete (h, a) sigs) (quorumSignatures m) (senders m h)).
Fixpoint prune_loop m (h : Z) (n : nat) : QuorumMap :=
  match n with O => m | S n => prune_loop (prune_height m h) (h + 1) n end.
Definition pruneQuorums m (newRetentionHeight : Z) : result QuorumMap :=
  let old := retentionHeight m in
  _ ← revert_if (newRetentionHeight <=? old) InvalidRetentionHeight;
  let m := prune_loop m old (Z.to_nat (newRetentionHeight - old)) in
  Ok (mkQuorumMap newRetentionHeight (quorumInfo m) (incompleteQuorums m) (quorumSignatureSenders m) (quorumSignatures m)).
Definition isHeightAlreadyProcessed m (height : Z) : result unit :=
  revert_if (height <? retentionHeight m) QuorumAlreadyProcessed.

(** ** Bundles of signatures ([MultisignatureChecker]) *)

Inductive MultisigError := Nil | InvalidArrayLength | EmptySignatures | InvalidSignatory | MultisigInvalid | WeightsSumLessThanThreshold.
Definition multisig_code (e : MultisigError) : Z :=
  match e with
  | Nil => 0 | InvalidArrayLength => 1 | EmptySignatures => 2 | InvalidSignatory => 3 | MultisigInvalid => 4
  | WeightsSumLessThanThreshold => 5
  end.
Fixpoint multisig_loop (hash weight : Z) (signatories : list address) (weights : list Z) (signatures : list bytes)
    : result (Z + MultisigError) :=
  match signatories, weights, signatures with
  | signatory :: signatories, w :: weights, signature :: signatures =>
      match tryRecover hash signature with
      | None => Ok (inr MultisigInvalid)
      | Some recovered =>
          if recovered =? signatory then
            weight ← checked 256 (weight + w);
            multisig_loop hash weight signatories weights signatures
          else Ok (inr InvalidSignatory)
      end
  | _, _, _ => Ok (inl weight)
  end.
Definition isValidWeightedMultiSignature (signatories : list address) (weights : list Z) (threshold hash : Z)
    (signatures : list bytes) : result (bool * MultisigError) :=
  if (length signatures =? 0)%nat then Ok (false, EmptySignatures)
  else if negb (length signatures =? length signatories)%nat || negb (length signatures =? length weights)%nat
  then Ok (false, InvalidArrayLength)
  else
    r ← multisig_loop hash 0 signatories weights signatures;
    match r with
    | inr e => Ok (false, e)
    | inl weight => if threshold <=? weight then Ok (true, Nil) else Ok (false, WeightsSumLessThanThreshold)
    end.
End quorum.

(** ** Quorums are earned

    The steps of the map, with the guard of [createBottomUpCheckpoint], which refuses a
    height that has a checkpoint. *)
Section facts.
Context `{SolCrypto}.

Inductive quorum_step m : QuorumMap → Prop :=
| StepCreate h hash root weight majority m' :
    quorumInfo m !! h = None → createQuorumInfo m h hash root weight majority = Ok m' → quorum_step m m'
| StepSign h proof weight signature m' :
    retentionHeight m <= h → is_Some (quorumInfo m !! h) → 0 <= weight →
    addQuorumSignature m h proof weight signature = Ok m' → quorum_step m m'
| StepPrune h m' : pruneQuorums m h = Ok m' → quorum_step m m'.

(** [ws] are the signers of height [h] with the weights they proved. *)
Definition signed m (h : Z) (info : QuorumInfo) (ws : gmap Z Z) : Prop :=
  dom ws = senders m h ∧ currentWeight info = msum id ws ∧
  ∀ a w, ws !! a = Some w → 0 <= w ∧ (∃ proof, merkle_verify proof (rootHash info) (validator_leaf a w) = true) ∧
    ∃ signature, tryRecover (q_hash info) signature = Some a ∧ quorumSignatures m !! (h, a) = Some signature.
Record quorum_ok m : Prop := {
  qo_signed h info : quorumInfo m !! h = Some info → ∃ ws, signed m h info ws;
  qo_reached h info : quorumInfo m !! h = Some info → reached info = true → threshold info <= currentWeight info;
  qo_incomplete h info : quorumInfo m !! h = Some info → reached info = false → h ∈ incompleteQuorums m;
  qo_complete h info : quorumInfo m !! h = Some info → reached info = false → senders m h = ∅ ∨ currentWeight info < threshold info;
  qo_height h info : quorumInfo m !! h = Some info → retentionHeight m <= h;
  qo_senders h : senders m h ≠ ∅ → is_Some (quorumInfo m !! h);
}.
Definition empty_quorums : QuorumMap := mkQuorumMap 1 ∅ ∅ ∅ ∅.

Lemma quorum_ok_empty : quorum_ok empty_quorums.
Proof. split; intros h; unfold senders; cbn; rewrite ?lookup_empty; done. Qed.

Lemma create_ok m h hash root weight majority m' :
  quorum_ok m → quorumInfo m !! h = None → createQuorumInfo m h hash root weight majority = Ok m' → quorum_ok m'.
Proof.
  intros [H1 H2 H3 H4 H5 H6] Hn Hc. unfold createQuorumInfo in Hc.
  destruct (Z.ltb_spec h (retentionHeight m)) as [|Hge]; [done|]. destruct (weight =? 0); [done|]. cbn [revert_if mbind outcome_bind] in Hc.
  destruct (weightNeeded weight majority) as [t| | |]; try done. cbn [mbind outcome_bind] in Hc.
  case_bool_decide; [done|]. cbn [revert_if mbind outcome_bind] in Hc. injection Hc as <-.
  assert (senders m h = ∅) as Hs.
  { destruct (decide (senders m h = ∅)) as [|Hne]; [done|]. apply H6 in Hne as [? Hne]. congruence. }
  split; cbn [quorumInfo incompleteQuorums retentionHeight]; try (intros h' info [[<- <-]|[Hne Hi]]%lookup_insert_Some); unfold senders in *;
    cbn [quorumSignatureSenders]; try done.
  - exists ∅. split; [by rewrite dom_empty_L|]. split; [by rewrite msum_empty|]. intros a w Ha. by rewrite lookup_empty in Ha.
  - by apply H1.
  - by apply (H2 h').
  - intros _. by apply elem_of_union_l, elem_of_singleton.
  - intros Hr. apply elem_of_union_r. by apply (H3 h' info).
  - intros _. by left.
  - by apply H4.
  - by apply (H5 h' info).
  - intros h' Hne. apply lookup_insert_is_Some'. right. by apply H6.
Qed.

Lemma addQuorumSignature_inv m h proof weight signature m' :
  addQuorumSignature m h proof weight signature = Ok m' →
  let info := quorum_info m h in
  ∃ a, tryRecover (q_hash info) signature = Some a ∧ a ∉ senders m h ∧
    merkle_verify proof (rootHash info) (validator_leaf a weight) = true ∧
    let w := currentWeight info + weight in
    let complete := (threshold info <=? w) && negb (reached info) in
    (complete = true → h ∈ incompleteQuorums m) ∧
    m' = mkQuorumMap (retentionHeight m)
      (<[h := mkQuorumInfo (q_hash info) (rootHash info) (threshold info) w (reached info || complete)]> (quorumInfo m))
      (if complete then incompleteQuorums m ∖ {[h]} else incompleteQuorums m)
      (<[h := {[a]} ∪ senders m h]> (quorumSignatureSenders m)) (<[(h, a) := signature]> (quorumSignatures m)).
Proof.
  intros Ha info. unfold addQuorumSignature in Ha. fold info in Ha.
  destruct (tryRecover (q_hash info) signature) as [a|]; [|done]. cbn [ok_or mbind outcome_bind] in Ha.
  destruct (bool_decide (a ∈ senders m h)) eqn:Hin; [done|]. apply bool_decide_eq_false in Hin. cbn [revert_if mbind outcome_bind] in Ha.
  destruct (merkle_verify _ _ _) eqn:Hv; [|done]. cbn [negb revert_if mbind outcome_bind] in Ha.
  destruct (checked 256 _) as [w| | |] eqn:Hw; try done. apply checked_inv in Hw as [-> _]. cbn [mbind outcome_bind] in Ha.
  exists a. split_and!; try done. intros w complete. fold w complete in Ha. destruct complete; cbn [andb] in Ha.
  - case_bool_decide as Hinc; [|done]. cbn in Ha. injection Ha as <-. done.
  - cbn in Ha. injection Ha as <-. done.
Qed.

Lemma sign_ok m h proof weight signature m' :
  quorum_ok m → is_Some (quorumInfo m !! h) → 0 <= weight → addQuorumSignature m h proof weight signature = Ok m' → quorum_ok m'.
Proof.
  intros [H1 H2 H3 H4 H5 H6] [info Hi] Hw0 (a & Hrec & Hin & Hv & Hinc & ->)%addQuorumSignature_inv.
  unfold quorum_info in *. rewrite Hi in *. change (default zero_quorum (Some info)) with info in *.
  set (w := currentWeight info + weight) in *. set (complete := (threshold info <=? w) && negb (reached info)) in *.
  destruct (H1 h info Hi) as (ws & Hdom & Hsum & Hws).
  assert (ws !! a = None) as Hwa by (apply not_elem_of_dom; by rewrite Hdom).
  split; cbn [quorumInfo incompleteQuorums retentionHeight quorumSignatures];
    try (intros h' info' [[<- <-]|[Hne Hi']]%lookup_insert_Some); unfold signed, senders; cbn [quorumSignatureSenders quorumSignatures reached threshold currentWeight rootHash q_hash].
  - exists (<[a := weight]> ws). rewrite lookup_insert_eq. cbn [default]. split_and!.
    + rewrite dom_insert_L, Hdom. done.
    + rewrite msum_insert_new by done. change (id weight) with weight. unfold w. lia.
    + intros b v [[<- <-]|[Hne Hb]]%lookup_insert_Some; [split_and!; [done|by exists proof|exists signature; split; [done|by rewrite lookup_insert_eq]]|].
      destruct (Hws b v Hb) as (Hv0 & Hp & sig & Hsig & Hst). split_and!; try done. exists sig. split; [done|].
      by rewrite lookup_insert_ne by congruence.
  - destruct (H1 h' info' Hi') as (ws' & Hdom' & Hsum' & Hws'). exists ws'. rewrite lookup_insert_ne by done. split_and!; try done.
    intros b v Hb. destruct (Hws' b v Hb) as (Hv0 & Hp & sig & Hsig & Hst). split_and!; try done. exists sig. split; [done|].
    by rewrite lookup_insert_ne by congruence.
  - destruct (reached info) eqn:Hr; cbn.
    + intros _. specialize (H2 h info Hi Hr). unfold w. lia.
    + unfold complete. rewrite andb_true_r. by intros Hle%Z.leb_le.
  - by apply (H2 h').
  - destruct (reached info) eqn:Hr; cbn; [done|]. intros Hcf. rewrite Hcf. by apply (H3 h info).
  - intros Hr. specialize (H3 h' info' Hi' Hr). destruct complete; [|done]. apply elem_of_difference. split; [done|]. by intros ->%elem_of_singleton.
  - destruct (reached info) eqn:Hr; cbn; [done|]. unfold complete. rewrite andb_true_r. intros Hle%Z.leb_gt. by right.
  - rewrite lookup_insert_ne by done. by apply H4.
  - by apply (H5 h info).
  - by apply (H5 h' info').
  - intros h' Hs. apply lookup_insert_is_Some'. destruct (decide (h = h')) as [->|Hne]; [by left|right].
    apply H6. rewrite lookup_insert_ne in Hs by done. done.
Qed.

Lemma prune_height_signatures m h k a : k ≠ h → quorumSignatures (prune_height m h) !! (k, a) = quorumSignatures m !! (k, a).
Proof.
  intros Hk. cbn [prune_height quorumSignatures].
  apply (set_fold_ind_L (λ sigs _, sigs !! (k, a) = quorumSignatures m !! (k, a))); [done|].
  intros x X sigs _ IH. rewrite lookup_delete_ne by congruence. exact IH.
Qed.
Lemma prune_loop_spec n : ∀ m h, let m' := prune_loop m h n in
  (∀ k, h <= k < h + Z.of_nat n → quorumInfo m' !! k = None ∧ senders m' k = ∅) ∧
  (∀ k, k < h ∨ h + Z.of_nat n <= k → quorumInfo m' !! k = quorumInfo m !! k ∧ senders m' k = senders m k ∧
     ∀ a, quorumSignatures m' !! (k, a) = quorumSignatures m !! (k, a)) ∧
  incompleteQuorums m' = incompleteQuorums m ∧ retentionHeight m' = retentionHeight m.
Proof.
  induction n as [|n IH]; intros m h m'; [split_and!; try done; lia|]. unfold m'. cbn [prune_loop].
  destruct (IH (prune_height m h) (h + 1)) as (H1 & H2 & H3 & H4). split_and!; [| |by rewrite H3|by rewrite H4].
  - intros k Hk. destruct (decide (k = h)) as [->|]; [|apply H1; lia]. destruct (H2 h ltac:(lia)) as (-> & -> & _).
    unfold senders. cbn. by rewrite !lookup_delete_eq.
  - intros k Hk. destruct (H2 k ltac:(lia)) as (-> & -> & H5). unfold senders. cbn. rewrite !lookup_delete_ne by lia. split_and!; try done.
    intros a. rewrite H5. apply prune_height_signatures. lia.
Qed.
Lemma pruneQuorums_inv m h m' : pruneQuorums m h = Ok m' →
  let m1 := prune_loop m (retentionHeight m) (Z.to_nat (h - retentionHeight m)) in
  retentionHeight m < h ∧
  m' = mkQuorumMap h (quorumInfo m1) (incompleteQuorums m1) (quorumSignatureSenders m1) (quorumSignatures m1).
Proof.
  unfold pruneQuorums. destruct (Z.leb_spec h (retentionHeight m)); [done|]. cbn. intros [= <-]. done.
Qed.
Lemma prune_ok m h m' : quorum_ok m → pruneQuorums m h = Ok m' → quorum_ok m'.
Proof.
  intros [H1 H2 H3 H4 H5 H6] [Hlt ->]%pruneQuorums_inv.
  set (n := Z.to_nat (h - retentionHeight m)). destruct (prune_loop_spec n m (retentionHeight m)) as (P1 & P2 & P3 & P4).
  set (m1 := prune_loop m (retentionHeight m) n) in *.
  assert (∀ k info, quorumInfo m1 !! k = Some info → h <= k ∧ quorumInfo m !! k = Some info ∧ senders m1 k = senders m k ∧
            ∀ a, quorumSignatures m1 !! (k, a) = quorumSignatures m !! (k, a)) as Hk.
  { intros k info Hi. destruct (decide (retentionHeight m <= k < h)) as [Hr|Hr].
    - destruct (P1 k ltac:(lia)) as [Hn _]. congruence.
    - destruct (P2 k ltac:(lia)) as (E1 & E2 & E3). rewrite E1 in Hi. specialize (H5 k info Hi). split_and!; [lia|done..]. }
  split; cbn [quorumInfo incompleteQuorums retentionHeight]; unfold signed, senders; cbn [quorumSignatureSenders quorumSignatures];
    try (intros k info Hi; destruct (Hk k info Hi) as (Hge & Hm & Hs & Hsig); fold (senders m1 k); rewrite ?Hs, ?P3).
  - destruct (H1 k info Hm) as (ws & Hd & Hsum & Hws). exists ws. split_and!; try done. intros a w Ha.
    destruct (Hws a w Ha) as (Hw & Hp & sig & Hr & Hst). split_and!; try done. exists sig. by rewrite Hsig.
  - by apply (H2 k).
  - by apply (H3 k).
  - by apply (H4 k).
  - done.
  - intros k. fold (senders m1 k). intros Hs. destruct (decide (retentionHeight m <= k < h)) as [Hr|Hr].
    + destruct (P1 k ltac:(lia)) as [_ Hn]. congruence.
    + destruct (P2 k ltac:(lia)) as (E1 & E2 & E3). rewrite E1. apply H6. by rewrite <- E2.
Qed.
Lemma quorum_step_ok m m' : quorum_ok m → quorum_step m m' → quorum_ok m'.
Proof.
  intros Hok [h hash root weight majority m1 Hn Hc|h proof weight signature m1 _ Hi Hw Ha|h m1 Hp].
  - by apply (create_ok m h hash root weight majority).
  - by apply (sign_ok m h proof weight signature).
  - by apply (prune_ok m h).
Qed.
Lemma quorum_reachable_ok m : rtc quorum_step empty_quorums m → quorum_ok m.
Proof.
  intros Hr. pose proof quorum_ok_empty as Hok. induction Hr as [|m1 m2 m3 Hs _ IH]; [done|]. apply IH.
  by apply (quorum_step_ok m1).
Qed.

(** C13. A quorum on a checkpoint is earned.  Whatever was created, signed and pruned, the
    weight collected for a height is the sum over distinct signers, each of whom proved
    its weight against the root of the membership and signed the hash of the checkpoint
    with a signature that is kept; and once there are signers, the quorum counts as
    reached exactly when that sum reaches the threshold. *)
Theorem quorum_is_earned m h info :
  rtc quorum_step empty_quorums m → quorumInfo m !! h = Some info →
  ∃ ws, signed m h info ws ∧ (senders m h ≠ ∅ → reached info = (threshold info <=? msum id ws)).
Proof.
  intros [H1 H2 H3 H4 H5 H6]%quorum_reachable_ok Hi. destruct (H1 h info Hi) as (ws & Hd & Hs & Hws).
  exists ws. split; [done|]. intros Hne. rewrite <- Hs. destruct (reached info) eqn:Hr; symmetry.
  - apply Z.leb_le. by apply (H2 h).
  - apply Z.leb_gt. by destruct (H4 h info Hi Hr).
Qed.

(** A pruned checkpoint that was not signed by enough validators stays in the set of
    incomplete ones. *)
Lemma pruned_height_stays_incomplete m h m' k : pruneQuorums m h = Ok m' → k ∈ incompleteQuorums m → k ∈ incompleteQuorums m'.
Proof.
  intros [_ ->]%pruneQuorums_inv Hk. destruct (prune_loop_spec (Z.to_nat (h - retentionHeight m)) m (retentionHeight m)) as (_ & _ & P3 & _).
  cbn. by rewrite P3.
Qed.

(** ** Bundles *)

Lemma multisig_repeat hash a w sig n : tryRecover hash sig = Some a → 0 <= w → ∀ acc, 0 <= acc → acc + Z.of_nat n * w < 2 ^ 256 →
  multisig_loop hash acc (replicate n a) (replicate n w) (replicate n sig) = Ok (inl (acc + Z.of_nat n * w)).
Proof.
  intros Hrec Hw. induction n as [|n IH]; intros acc Hacc Hb; cbn [replicate multisig_loop]; [do 2 f_equal; lia|].
  rewrite Hrec, Z.eqb_refl, checked_Ok by (unfold uint; nia). cbn [mbind outcome_bind]. rewrite IH by nia. do 2 f_equal. lia.
Qed.
Lemma multisig_repeat_valid hash a w sig n t :
  tryRecover hash sig = Some a → 0 <= w → (0 < n)%nat → t <= Z.of_nat n * w < 2 ^ 256 →
  isValidWeightedMultiSignature (replicate n a) (replicate n w) t hash (replicate n sig) = Ok (true, Nil).
Proof.
  intros Hrec Hw Hn Ht. unfold isValidWeightedMultiSignature. rewrite !length_replicate, Nat.eqb_refl.
  rewrite (proj2 (Nat.eqb_neq n 0)) by lia. cbn [negb orb]. rewrite (multisig_repeat hash a w) by (done || lia). cbn [mbind outcome_bind].
  by rewrite (proj2 (Z.leb_le _ _)) by lia.
Qed.
Lemma multisig_loop_sound hash ss : ∀ acc ws sigs w,
  length ss = length ws → length ss = length sigs → multisig_loop hash acc ss ws sigs = Ok (inl w) →
  w = acc + foldr Z.add 0 ws ∧ Forall2 (λ a sig, tryRecover hash sig = Some a) ss sigs.
Proof.
  induction ss as [|a ss IH]; intros acc [|v ws] [|sig sigs] w Hl1 Hl2 Hm; try done; cbn [multisig_loop] in Hm.
  { injection Hm as <-. cbn. split; [lia|constructor]. }
  destruct (tryRecover hash sig) as [r|] eqn:Hr; [|done]. destruct (Z.eqb_spec r a) as [->|]; [|done].
  destruct (checked 256 _) as [acc'| | |] eqn:Hc; try done. apply checked_inv in Hc as [-> _]. cbn in Hm.
  apply IH in Hm as [-> Hall]; [|simpl in *; lia..]. split; [cbn; lia|by constructor].
Qed.
End facts.

(** A toy scheme: the signature is the signer, and the leaf of a validator is the root. *)
Definition toy_crypto : SolCrypto := {|
  tryRecover _ sig := head sig;
  validator_leaf a w := a * 1000 + w;
  merkle_verify proof root leaf := bool_decide (leaf ∈ proof);
|}.
#[local] Existing Instance toy_crypto.
Lemma quorum_is_earned_witness :
  ∃ m info ws, rtc quorum_step empty_quorums m ∧ quorumInfo m !! 5 = Some info ∧ signed m 5 info ws ∧
    reached info = true ∧ senders m 5 = {[7; 8]}.
Proof.
  destruct (createQuorumInfo empty_quorums 5 42 99 100 67) as [m1| | |] eqn:E1; try done.
  destruct (addQuorumSignature m1 5 [7030] 30 [7]) as [m2| | |] eqn:E2; [|vm_compute in E1; injection E1 as <-; by vm_compute in E2..].
  destruct (addQuorumSignature m2 5 [8040] 40 [8]) as [m3| | |] eqn:E3;
    [|vm_compute in E1; injection E1 as <-; vm_compute in E2; injection E2 as <-; by vm_compute in E3..].
  assert (rtc quorum_step empty_quorums m3) as Hr.
  { apply (rtc_l _ _ m1); [by apply (StepCreate _ 5 42 99 100 67)|].
    apply (rtc_l _ _ m2); [apply (StepSign _ 5 [7030] 30 [7]); try done; vm_compute in E1; injection E1 as <-; first [cbn; lia|eexists; reflexivity]|].
    apply (rtc_l _ _ m3); [|done]. apply (StepSign _ 5 [8040] 40 [8]); try done;
      vm_compute in E1; injection E1 as <-; vm_compute in E2; injection E2 as <-; first [cbn; lia|eexists; reflexivity]. }
  assert (∃ info, quorumInfo m3 !! 5 = Some info ∧ reached info = true ∧ senders m3 5 = {[7; 8]}) as (info & Hi & Hre & Hs).
  { vm_compute in E1. injection E1 as <-. vm_compute in E2. injection E2 as <-. vm_compute in E3. injection E3 as <-.
    eexists. split; [reflexivity|]. by vm_compute. }
  destruct (quorum_is_earned m3 5 info Hr Hi) as (ws & Hws & _). by exists m3, info, ws.
Defined.
