(* ===== verification/GatewayActor.v ===== *)
(** * The gateway: cross-net messages and checkpoints in the contracts
    ([contracts/src/lib/LibGateway.sol], [CrossMsgHelper.sol], [SubnetIDHelper.sol],
    [SupplySourceHelper.sol], [gateway/*Facet.sol], [gateway/router/*Facet.sol])

    Each network of the tree runs a gateway.  It holds the collateral of the subnets
    below it and the funds sent down to them, numbers the messages that go down, collects
    those that go up into batches, and applies what arrives from above and below.

    [Gw] is the storage of one gateway together with what it touches: the native balances
    of all accounts, the log of the messages it sent down, and the rest of the chain,
    [W], of which only the answers to calls are known ([Outside]).  An account that receives
    a native call may call back into the gateway before it answers ([Callback]); token
    contracts and view functions do not.
    [networkName.children] is the [route] of the source.  Hashes are [SolHash]. *)

From Stdlib Require Import Ascii String.
From stdpp Require Import base tactics numbers list gmap.
From Stdlib Require Import Lia.
From S2P Require Import Prelude IpcApi Sol PrioQueue Staking Quorum.

Open Scope Z_scope.

(** ** Structs *)

Record FvmAddress := mkFvmAddress { addrType : Z; fvm_payload : bytes }.
Record IPCAddress := mkIPCAddress { subnetId : SubnetID Z; rawAddress : FvmAddress }.
Inductive IpcMsgKind := Transfer | Call | Result.
Inductive OutcomeType := OutcomeOk | SystemErr | ActorErr.
Inductive IPCMsgType := TopDown | BottomUp.
Record IpcEnvelope := mkEnvelope {
  kind : IpcMsgKind; to : IPCAddress; from : IPCAddress; nonce : Z; value : Z; message : bytes;
}.
Record ResultMsg := mkResultMsg { result_id : Z; result_outcome : OutcomeType; result_ret : bytes }.
Inductive SupplyKind := Native | ERC20.
Record SupplySource := mkSupply { supply_kind : SupplyKind; tokenAddress : address }.
Record Subnet := mkSubnet {
  stake : Z; genesisEpoch : Z; circSupply : Z; topDownNonce : Z; appliedBottomUpNonce : Z; sub_id : SubnetID Z;
}.
Record ParentFinality := mkFinality { pf_height : Z; pf_blockHash : Z }.
Record Validator := mkValidator { weight : Z; addr : address; v_metadata : bytes }.
Record Membership := mkMembership { m_validators : list Validator; m_configurationNumber : Z }.
Record BottomUpCheckpoint := mkCheckpoint {
  cp_subnetID : SubnetID Z; cp_blockHeight : Z; cp_blockHash : Z; cp_nextConfigurationNumber : Z; cp_msgs : list IpcEnvelope;
}.
Record BottomUpMsgBatch := mkBatch { b_subnetID : SubnetID Z; b_blockHeight : Z; b_msgs : list IpcEnvelope }.
#[export] Instance ipc_msg_kind_eq_dec : EqDecision IpcMsgKind.
Proof. solve_decision. Defined.
#[export] Instance supply_kind_eq_dec : EqDecision SupplyKind.
Proof. solve_decision. Defined.
#[export] Instance fvm_address_eq_dec : EqDecision FvmAddress.
Proof. solve_decision. Defined.
#[export] Instance subnet_id_Z_eq_dec : EqDecision (SubnetID Z).
Proof. solve_decision. Defined.
#[export] Instance validator_eq_dec : EqDecision Validator.
Proof. solve_decision. Defined.

Definition no_subnet : SubnetID Z := mkSubnetID 0 [].
Definition zero_subnet : Subnet := mkSubnet 0 0 0 0 0 no_subnet.
Definition zero_fvm : FvmAddress := mkFvmAddress 0 [].
Definition zero_envelope : IpcEnvelope :=
  mkEnvelope Transfer (mkIPCAddress no_subnet zero_fvm) (mkIPCAddress no_subnet zero_fvm) 0 0 [].
Definition zero_finality : ParentFinality := mkFinality 0 0.
Definition zero_checkpoint : BottomUpCheckpoint := mkCheckpoint no_subnet 0 0 0 [].
Definition zero_batch : BottomUpMsgBatch := mkBatch no_subnet 0 [].

(** What does not change after the constructor. *)
Record Config := mkConfig {
  networkName : SubnetID Z;
  bottomUpCheckPeriod : Z;
  maxMsgsPerBottomUpBatch : Z;
  majorityPercentage : Z;
  maxTreeDepth : Z;
  generalPurposeCrossMsg : bool;
  multiLevelCrossMsg : bool;
}.
Record GatewayActorStorage := mkStorage {
  config : Config;
  latestParentHeight : Z;
  bottomUpNonce : Z;
  appliedTopDownNonce : Z;
  totalSubnets : Z;
  currentMembership : Membership;
  lastMembership : Membership;
  checkpointQuorumMap : QuorumMap;
  validatorsTracker : ParentValidatorsTracker;
  subnets : gmap Z Subnet;
  finalitiesMap : gmap Z ParentFinality;
  postbox : gmap Z IpcEnvelope;
  bottomUpCheckpoints : gmap Z BottomUpCheckpoint;
  bottomUpMsgBatches : gmap Z BottomUpMsgBatch;
  subnetKeys : gset Z;
}.
Implicit Types (s : GatewayActorStorage).
Definition set_latestParentHeight s (x : Z) : GatewayActorStorage :=
  mkStorage (config s) x (bottomUpNonce s) (appliedTopDownNonce s) (totalSubnets s) (currentMembership s)
    (lastMembership s) (checkpointQuorumMap s) (validatorsTracker s) (subnets s) (finalitiesMap s) (postbox s)
    (bottomUpCheckpoints s) (bottomUpMsgBatches s) (subnetKeys s).
Definition set_bottomUpNonce s (x : Z) : GatewayActorStorage :=
  mkStorage (config s) (latestParentHeight s) x (appliedTopDownNonce s) (totalSubnets s) (currentMembership s)
    (lastMembership s) (checkpointQuorumMap s) (validatorsTracker s) (subnets s) (finalitiesMap s) (postbox s)
    (bottomUpCheckpoints s) (bottomUpMsgBatches s) (subnetKeys s).
Definition set_appliedTopDownNonce s (x : Z) : GatewayActorStorage :=
  mkStorage (config s) (latestParentHeight s) (bottomUpNonce s) x (totalSubnets s) (currentMembership s)
    (lastMembership s) (checkpointQuorumMap s) (validatorsTracker s) (subnets s) (finalitiesMap s) (postbox s)
    (bottomUpCheckpoints s) (bottomUpMsgBatches s) (subnetKeys s).
Definition set_totalSubnets s (x : Z) : GatewayActorStorage :=
  mkStorage (config s) (latestParentHeight s) (bottomUpNonce s) (appliedTopDownNonce s) x (currentMembership s)
    (lastMembership s) (checkpointQuorumMap s) (validatorsTracker s) (subnets s) (finalitiesMap s) (postbox s)
    (bottomUpCheckpoints s) (bottomUpMsgBatches s) (subnetKeys s).
Definition set_currentMembership s (x : Membership) : GatewayActorStorage :=
  mkStorage (config s) (latestParentHeight s) (bottomUpNonce s) (appliedTopDownNonce s) (totalSubnets s) x
    (lastMembership s) (checkpointQuorumMap s) (validatorsTracker s) (subnets s) (finalitiesMap s) (postbox s)
    (bottomUpCheckpoints s) (bottomUpMsgBatches s) (subnetKeys s).
Definition set_lastMembership s (x : Membership) : GatewayActorStorage :=
  mkStorage (config s) (latestParentHeight s) (bottomUpNonce s) (appliedTopDownNonce s) (totalSubnets s)
    (currentMembership s) x (checkpointQuorumMap s) (validatorsTracker s) (subnets s) (finalitiesMap s) (postbox s)
    (bottomUpCheckpoints s) (bottomUpMsgBatches s) (subnetKeys s).
Definition set_checkpointQuorumMap s (x : QuorumMap) : GatewayActorStorage :=
  mkStorage (config s) (latestParentHeight s) (bottomUpNonce s) (appliedTopDownNonce s) (totalSubnets s)
    (currentMembership s) (lastMembership s) x (validatorsTracker s) (subnets s) (finalitiesMap s) (postbox s)
    (bottomUpCheckpoints s) (bottomUpMsgBatches s) (subnetKeys s).
Definition set_validatorsTracker s (x : ParentValidatorsTracker) : GatewayActorStorage :=
  mkStorage (config s) (latestParentHeight s) (bottomUpNonce s) (appliedTopDownNonce s) (totalSubnets s)
    (currentMembership s) (lastMembership s) (checkpointQuorumMap s) x (subnets s) (finalitiesMap s) (postbox s)
    (bottomUpCheckpoints s) (bottomUpMsgBatches s) (subnetKeys s).
Definition set_subnets s (x : gmap Z Subnet) : GatewayActorStorage :=
  mkStorage (config s) (latestParentHeight s) (bottomUpNonce s) (appliedTopDownNonce s) (totalSubnets s)
    (currentMembership s) (lastMembership s) (checkpointQuorumMap s) (validatorsTracker s) x (finalitiesMap s)
    (postbox s) (bottomUpCheckpoints s) (bottomUpMsgBatches s) (subnetKeys s).
Definition set_finalitiesMap s (x : gmap Z ParentFinality) : GatewayActorStorage :=
  mkStorage (config s) (latestParentHeight s) (bottomUpNonce s) (appliedTopDownNonce s) (totalSubnets s)
    (currentMembership s) (lastMembership s) (checkpointQuorumMap s) (validatorsTracker s) (subnets s) x (postbox s)
    (bottomUpCheckpoints s) (bottomUpMsgBatches s) (subnetKeys s).
Definition set_postbox s (x : gmap Z IpcEnvelope) : GatewayActorStorage :=
  mkStorage (config s) (latestParentHeight s) (bottomUpNonce s) (appliedTopDownNonce s) (totalSubnets s)
    (currentMembership s) (lastMembership s) (checkpointQuorumMap s) (validatorsTracker s) (subnets s)
    (finalitiesMap s) x (bottomUpCheckpoints s) (bottomUpMsgBatches s) (subnetKeys s).
Definition set_bottomUpCheckpoints s (x : gmap Z BottomUpCheckpoint) : GatewayActorStorage :=
  mkStorage (config s) (latestParentHeight s) (bottomUpNonce s) (appliedTopDownNonce s) (totalSubnets s)
    (currentMembership s) (lastMembership s) (checkpointQuorumMap s) (validatorsTracker s) (subnets s)
    (finalitiesMap s) (postbox s) x (bottomUpMsgBatches s) (subnetKeys s).
Definition set_bottomUpMsgBatches s (x : gmap Z BottomUpMsgBatch) : GatewayActorStorage :=
  mkStorage (config s) (latestParentHeight s) (bottomUpNonce s) (appliedTopDownNonce s) (totalSubnets s)
    (currentMembership s) (lastMembership s) (checkpointQuorumMap s) (validatorsTracker s) (subnets s)
    (finalitiesMap s) (postbox s) (bottomUpCheckpoints s) x (subnetKeys s).
Definition set_subnetKeys s (x : gset Z) : GatewayActorStorage :=
  mkStorage (config s) (latestParentHeight s) (bottomUpNonce s) (appliedTopDownNonce s) (totalSubnets s)
    (currentMembership s) (lastMembership s) (checkpointQuorumMap s) (validatorsTracker s) (subnets s)
    (finalitiesMap s) (postbox s) (bottomUpCheckpoints s) (bottomUpMsgBatches s) x.

(** ** Parameters *)

(** Keccak over the ABI encoding, encodings, and [FilAddress]. *)
Class SolHash := {
  hash_subnet : SubnetID Z → Z;
  hash_envelope : IpcEnvelope → Z;
  hash_checkpoint : BottomUpCheckpoint → Z;
  hash_validators : list Validator → Z;
  abi_result : ResultMsg → bytes;
  abi_handle : IpcEnvelope → bytes;
  abi_call_msg : bytes → bool;
  error_bytes : SolError → bytes;
  normalize : address → address;
  SYSTEM_ACTOR : address;
}.
(** What other accounts do when they are called with data and value, what a token does
    when it is told to pay or to take from the caller, and the supply source that the
    contract at an address answers with. *)
Class Outside (W : Type) := {
  out_call : W → address → bytes → Z → bool * bytes * W;
  out_token_transfer : W → address → address → Z → bool * bytes * W;
  out_token_lock : W → address → address → Z → result (W * Z);
  out_supplySource : W → address → result SupplySource;
  out_has_code : W → address → bool;
}.

(** ** Subnet ids ([SubnetIDHelper]) *)

Section subnet_ids.
Context `{SolHash}.
Implicit Types (n : SubnetID Z).

Fixpoint common_length (l1 l2 : list address) : nat :=
  match l1, l2 with
  | x :: l1, y :: l2 => if x =? y then S (common_length l1 l2) else O
  | _, _ => O
  end.
Definition getActor n : address := default 0 (last (children n)).
Definition subnet_getAddress n : result address := ok_or NoAddressForRoot (last (children n)).
Definition getParentSubnet n : result (SubnetID Z) :=
  match children n with
  | [] => Err NoParentForSubnet
  | _ => Ok (mkSubnetID (root n) (take (List.length (children n) - 1) (children n)))
  end.
Definition createSubnetId n (actor : address) : SubnetID Z := mkSubnetID (root n) (children n ++ [actor]).
Definition isEmpty n : bool := (List.length (children n) =? 0)%nat && (root n =? 0).
Definition equals n1 n2 : bool :=
  (root n1 =? root n2) && (List.length (children n1) =? List.length (children n2))%nat &&
  (hash_subnet n1 =? hash_subnet n2).
Definition commonParent n1 n2 : SubnetID Z :=
  if negb (root n1 =? root n2) then no_subnet
  else mkSubnetID (root n1) (take (common_length (children n1) (children n2)) (children n1)).
Definition sol_down n1 n2 : result (SubnetID Z) :=
  if negb (root n1 =? root n2) then Err DifferentRootNetwork
  else if (List.length (children n1) <=? List.length (children n2))%nat then Err InvalidRoute
  else Ok (mkSubnetID (root n1) (take (S (common_length (children n1) (children n2))) (children n1))).
End subnet_ids.

(** ** Addresses ([FvmAddressHelper]): [abi.encode] of a [DelegatedAddress] *)

Definition DELEGATED : Z := 4.
Definition EAM_ACTOR : Z := 10.
Definition encode_delegated (namespace len : Z) (buffer : bytes) : bytes :=
  word 32 ++ word namespace ++ word len ++ word 96 ++ word (Z.of_nat (List.length buffer)) ++ buffer
    ++ replicate (padding (List.length buffer)) 0.
Definition decode_delegated (b : bytes) : result (Z * Z * bytes) :=
  start ← read_word b 0;
  namespace ← read_word b start;
  len ← read_word b (start + 32);
  offset ← read_word b (start + 64);
  blen ← read_word b (start + offset);
  if start + offset + 32 + blen <=? Z.of_nat (List.length b)
  then Ok (namespace, len, take (Z.to_nat blen) (drop (Z.to_nat (start + offset + 32)) b))
  else Err CallFailed.
Definition fvm_from (a : address) : FvmAddress := mkFvmAddress DELEGATED (encode_delegated EAM_ACTOR 20 (big_endian 20 a)).
Definition extractEvmAddress (f : FvmAddress) : result address :=
  _ ← revert_if (negb (addrType f =? DELEGATED)) CallFailed;
  d ← decode_delegated (fvm_payload f);
  let '(namespace, len, buffer) := d in
  _ ← revert_if (negb (namespace =? EAM_ACTOR)) CallFailed;
  _ ← revert_if (negb (len =? 20)) CallFailed;
  _ ← revert_if (negb (List.length buffer =? 20)%nat) CallFailed;
  Ok (from_word buffer).

Lemma read_word_off b off pre x post : b = pre ++ word x ++ post → off = Z.of_nat (List.length pre) → uint 256 x → read_word b off = Ok x.
Proof. intros -> -> Hx. by apply read_word_at. Qed.
Lemma decode_encode_delegated namespace len buffer : uint 256 namespace → uint 256 len → Z.of_nat (List.length buffer) < 2 ^ 256 →
  decode_delegated (encode_delegated namespace len buffer) = Ok (namespace, len, buffer).
Proof.
  intros Hn Hl Hb. unfold decode_delegated, encode_delegated. set (pad := replicate _ _). set (n := Z.of_nat (List.length buffer)).
  set (b := word 32 ++ _).
  rewrite (read_word_off b 0 [] 32 (word namespace ++ word len ++ word 96 ++ word n ++ buffer ++ pad)) by done. cbn [mbind outcome_bind].
  rewrite (read_word_off b 32 (word 32) namespace (word len ++ word 96 ++ word n ++ buffer ++ pad)) by done. cbn [mbind outcome_bind].
  rewrite (read_word_off b (32 + 32) (word 32 ++ word namespace) len (word 96 ++ word n ++ buffer ++ pad)); [|by rewrite <- app_assoc|by rewrite length_app, !word_length|done].
  cbn [mbind outcome_bind].
  rewrite (read_word_off b (32 + 64) (word 32 ++ word namespace ++ word len) 96 (word n ++ buffer ++ pad));
    [|by rewrite <- !app_assoc|by rewrite !length_app, !word_length|done].
  cbn [mbind outcome_bind].
  rewrite (read_word_off b (32 + 96) (word 32 ++ word namespace ++ word len ++ word 96) n (buffer ++ pad));
    [|by rewrite <- !app_assoc|by rewrite !length_app, !word_length|unfold uint, n; lia].
  cbn [mbind outcome_bind].
  assert (Hd : drop (Z.to_nat (32 + 96 + 32)) b = buffer ++ pad).
  { replace b with ((word 32 ++ word namespace ++ word len ++ word 96 ++ word n) ++ buffer ++ pad) by (by rewrite <- !app_assoc).
    apply drop_app_length'. by rewrite !length_app, !word_length. }
  rewrite (proj2 (Z.leb_le _ _)) by (unfold b; rewrite !length_app, !word_length; lia).
  rewrite Hd, take_app_length' by (unfold n; lia). done.
Qed.
Lemma evm_address_roundtrip a : uint 160 a → extractEvmAddress (fvm_from a) = Ok a.
Proof.
  intros Ha. pose proof (big_endian_length 20 a) as Hl. unfold extractEvmAddress, fvm_from. cbn [addrType fvm_payload].
  rewrite decode_encode_delegated by (rewrite ?Hl; done). cbn [mbind outcome_bind]. rewrite Hl.
  change (Ok (E := SolError) (from_word (big_endian 20 a)) = Ok a). f_equal. by apply from_big_endian.
Qed.

(** ** Envelopes ([CrossMsgHelper]) *)

Section envelopes.
Context `{SolHash}.

Definition createTransferMsg (from to : IPCAddress) (value : Z) : IpcEnvelope := mkEnvelope Transfer to from 0 value [].
Definition createResultMsg (m : IpcEnvelope) (outcome : OutcomeType) (ret : bytes) : IpcEnvelope :=
  let v := match outcome with OutcomeOk => 0 | _ => value m end in
  mkEnvelope Result (from m) (to m) 0 v (abi_result (mkResultMsg (hash_envelope m) outcome ret)).
Definition createReleaseMsg (subnet : SubnetID Z) (signer : address) (to : FvmAddress) (v : Z) : result IpcEnvelope :=
  parent ← getParentSubnet subnet;
  Ok (createTransferMsg (mkIPCAddress subnet (fvm_from signer)) (mkIPCAddress parent to) v).
Definition createFundMsg (subnet : SubnetID Z) (signer : address) (to : FvmAddress) (v : Z) : result IpcEnvelope :=
  parent ← getParentSubnet subnet;
  Ok (createTransferMsg (mkIPCAddress parent (fvm_from signer)) (mkIPCAddress subnet to) v).
Definition applyType (m : IpcEnvelope) (currentSubnet : SubnetID Z) : IPCMsgType :=
  let toSubnet := subnetId (to m) in
  let fromSubnet := subnetId (from m) in
  let currentParentSubnet := commonParent currentSubnet toSubnet in
  let messageParentSubnet := commonParent fromSubnet toSubnet in
  if equals currentParentSubnet messageParentSubnet &&
     (List.length (children messageParentSubnet) <? List.length (children fromSubnet))%nat
  then BottomUp else TopDown.
Definition envelope_isEmpty (m : IpcEnvelope) : bool :=
  match kind m with Transfer => value m =? 0 | _ => (List.length (message m) =? 0)%nat end.
Definition set_nonce (m : IpcEnvelope) (n : Z) : IpcEnvelope :=
  mkEnvelope (kind m) (to m) (from m) n (value m) (message m).
End envelopes.

(** ** The state of a call

    [sent] is the log of [NewTopDownMessage]: the subnet and the message. *)
Record Gw (W : Type) := mkGw {
  st : GatewayActorStorage;
  balances : gmap Z Z;
  sent : list (address * IpcEnvelope);
  outside : W;
}.
Arguments mkGw {W} _ _ _ _.
Arguments st {W} _.
Arguments balances {W} _.
Arguments sent {W} _.
Arguments outside {W} _.
Record Msg := mkMsg { msg_sender : address; msg_value : Z; block_number : Z }.

Notation GM W A := (ST (Gw W) A).
Definition get {W} : GM W GatewayActorStorage := λ g, Ok (g, st g).
Definition put {W} s : GM W unit := λ g, Ok (mkGw s (balances g) (sent g) (outside g), ()).

(** What an account that is called does to the gateway before it answers: the state of the
    gateway after the calls that it makes to it. *)
Class Callback (W : Type) := callback : address → bytes → Z → Gw W → Gw W.
Definition no_callback {W} : Callback W := λ _ _ _ g, g.

Section gateway.
Context `{SolHash} `{SolCrypto} {W : Type} `{Outside W} `{!Callback W} (this : address).
Implicit Types (g : Gw W) (m : Msg).

(** ** Money *)

Definition move (b : gmap Z Z) (a1 a2 : address) (v : Z) : result (gmap Z Z) :=
  _ ← revert_if (get0 b a1 <? v) NotEnoughBalance;
  let b := <[a1 := get0 b a1 - v]> b in
  Ok (<[a2 := get0 b a2 + v]> b).
(** The value of a payable call arrives before its body runs. *)
Definition receive m : GM W unit := λ g,
  b ← move (balances g) (msg_sender m) this (msg_value m); Ok (mkGw (st g) b (sent g) (outside g), ()).
(** [target.call{value: v}(data)], after the check of the balance.  The value is there when the
    callee runs, and a call that fails leaves no trace of what it did. *)
Definition functionCallWithValue (target : address) (data : bytes) (v : Z) : GM W (bool * bytes) := λ g,
  b ← move (balances g) this target v;
  let g1 := callback target data v (mkGw (st g) b (sent g) (outside g)) in
  let '(success, ret, w) := out_call (outside g1) target data v in
  if success then Ok (mkGw (st g1) (balances g1) (sent g1) w, (true, ret)) else Ok (g, (false, ret)).
(** [sendValue] of [FilAddress], which reverts when the call fails. *)
Definition sendValue (target : address) (v : Z) : GM W unit :=
  let* r := functionCallWithValue target [] v in require r.1 CallFailed.
Definition supplySource_of (actor : address) : GM W SupplySource := λ g, lift (out_supplySource (outside g) actor) g.

Definition ierc20Transfer (s : SupplySource) (recipient : address) (v : Z) : GM W (bool * bytes) := λ g,
  let '(success, ret, w) := out_token_transfer (outside g) (tokenAddress s) recipient v in
  if success then Ok (mkGw (st g) (balances g) (sent g) w, (true, ret)) else Ok (g, (false, ret)).
Definition transferFunds (s : SupplySource) (recipient : address) (v : Z) : GM W (bool * bytes) :=
  match supply_kind s with
  | Native => let* r := functionCallWithValue recipient [] v in gret (r.1, [])
  | ERC20 => ierc20Transfer s recipient v
  end.
Definition functionCallWithERC20Value (s : SupplySource) (target : address) (data : bytes) (v : Z) : GM W (bool * bytes) :=
  let* r := ierc20Transfer s target v in
  let* r := (if (r.1 : bool) then functionCallWithValue target data 0 else gret r) in
  do* require r.1 CallFailed;
  gret r.
Definition performCall (s : SupplySource) (target : address) (data : bytes) (v : Z) : GM W (bool * bytes) :=
  if v =? 0 then functionCallWithValue target data 0
  else match supply_kind s with
       | Native => functionCallWithValue target data v
       | ERC20 => functionCallWithERC20Value s target data v
       end.
(** [supplySource.lock] *)
Definition lock (s : SupplySource) (from : address) (v : Z) : GM W Z := λ g,
  match supply_kind s with
  | ERC20 =>
      r ← out_token_lock (outside g) (tokenAddress s) from v;
      _ ← revert_if (r.2 <=? 0) NoBalanceIncrease;
      Ok (mkGw (st g) (balances g) (sent g) r.1, r.2)
  | Native => Ok (g, v)
  end.

(** ** Subnets *)

Definition getSubnet s (n : SubnetID Z) : bool * Subnet :=
  let subnet := default zero_subnet (subnets s !! hash_subnet n) in
  (negb (isEmpty (sub_id subnet)), subnet).
Definition actor_subnet s (actor : address) : result (SubnetID Z) :=
  _ ← revert_if (actor =? 0) InvalidActorAddress; Ok (createSubnetId (networkName (config s)) actor).
Definition write_subnet s (n : SubnetID Z) (x : Subnet) : GatewayActorStorage :=
  set_subnets s (<[hash_subnet n := x]> (subnets s)).
Definition set_stake (x : Subnet) (v : Z) : Subnet :=
  mkSubnet v (genesisEpoch x) (circSupply x) (topDownNonce x) (appliedBottomUpNonce x) (sub_id x).
Definition set_circSupply (x : Subnet) (v : Z) : Subnet :=
  mkSubnet (stake x) (genesisEpoch x) v (topDownNonce x) (appliedBottomUpNonce x) (sub_id x).

Definition getNextEpoch (blockNumber checkPeriod : Z) : result Z :=
  _ ← revert_if (checkPeriod =? 0) ArithmeticOverflow;
  n ← checked 256 (truncate 64 blockNumber / checkPeriod + 1);
  checked 256 (n * checkPeriod).

(** ** Committing messages ([LibGateway]) *)

Definition commitTopDownMsg (crossMessage : IpcEnvelope) : GM W unit :=
  let* s := get in
  let* n := lift (sol_down (subnetId (to crossMessage)) (networkName (config s))) in
  let '(registered, subnet) := getSubnet s n in
  do* require registered NotRegisteredSubnet;
  let nonce := topDownNonce subnet in
  let* next := lift (checked 64 (nonce + 1)) in
  let* supply := lift (checked 256 (circSupply subnet + value crossMessage)) in
  do* put (write_subnet s n (mkSubnet (stake subnet) (genesisEpoch subnet) supply next (appliedBottomUpNonce subnet) (sub_id subnet)));
  let* a := lift (subnet_getAddress n) in
  λ g, Ok (mkGw (st g) (balances g) (sent g ++ [(a, set_nonce crossMessage nonce)]) (outside g), ()).

Definition commitBottomUpMsg (block : Z) (crossMessage : IpcEnvelope) : GM W unit :=
  let* s := get in
  let* epoch := lift (getNextEpoch block (bottomUpCheckPeriod (config s))) in
  let crossMessage := set_nonce crossMessage (bottomUpNonce s) in
  let* next := lift (checked 64 (bottomUpNonce s + 1)) in
  let s := set_bottomUpNonce s next in
  let batch := default zero_batch (bottomUpMsgBatches s !! epoch) in
  if b_blockHeight batch =? 0 then
    put (set_bottomUpMsgBatches s
      (<[epoch := mkBatch (networkName (config s)) epoch (b_msgs batch ++ [crossMessage])]> (bottomUpMsgBatches s)))
  else if Z.of_nat (List.length (b_msgs batch)) =? maxMsgsPerBottomUpBatch (config s) then
    let bs := <[epoch := mkBatch (b_subnetID batch) (b_blockHeight batch) [crossMessage]]> (bottomUpMsgBatches s) in
    let cut := default zero_batch (bs !! block) in
    put (set_bottomUpMsgBatches s
      (<[block := mkBatch (networkName (config s)) block (b_msgs cut ++ b_msgs batch)]> bs))
  else
    put (set_bottomUpMsgBatches s
      (<[epoch := mkBatch (b_subnetID batch) (b_blockHeight batch) (b_msgs batch ++ [crossMessage])]> (bottomUpMsgBatches s))).

(** Whether the message crosses the border of a subnet with a token supply. *)
Definition rejected (me : SubnetID Z) (crossMessage : IpcEnvelope) : GM W bool :=
  let to := subnetId (to crossMessage) in
  let from := subnetId (from crossMessage) in
  match applyType crossMessage me with
  | BottomUp =>
      let* parent := lift (getParentSubnet from) in
      if equals parent me then
        let* src := supplySource_of (getActor from) in gret (bool_decide (supply_kind src = ERC20))
      else gret false
  | TopDown =>
      let* n := lift (sol_down to me) in
      let* src := supplySource_of (getActor n) in gret (bool_decide (supply_kind src = ERC20))
  end.
(** Whether the message is committed downwards: it goes down, or turns around here. *)
Definition goes_down (me : SubnetID Z) (crossMessage : IpcEnvelope) : bool :=
  match applyType crossMessage me with
  | TopDown => true
  | BottomUp => equals (commonParent (subnetId (to crossMessage)) (subnetId (from crossMessage))) me
  end.
(** The result says whether the value has to be burnt. *)
Definition commitCrossMessage (block : Z) (crossMessage : IpcEnvelope) : GM W bool :=
  let* s := get in
  let me := networkName (config s) in
  let to := subnetId (to crossMessage) in
  do* require (negb (isEmpty to)) (InvalidXnetMessage DstSubnet);
  do* require (negb (equals to me)) CannotSendCrossMsgToItself;
  let* reject := rejected me crossMessage in
  do* require (negb (reject && bool_decide (kind crossMessage = Transfer)))
        (MethodNotAllowed "propagation of `Transfer` messages not suppported for subnets with ERC20 supply");
  if goes_down me crossMessage then
    let* n := lift (checked 64 (appliedTopDownNonce s + 1)) in
    do* put (set_appliedTopDownNonce s n);
    do* commitTopDownMsg crossMessage;
    gret false
  else
    do* commitBottomUpMsg block crossMessage;
    gret (negb (value crossMessage =? 0)).
Definition BURNT_FUNDS_ACTOR : address := 99.
Definition crossMsgSideEffects (v : Z) (shouldBurn : bool) : GM W unit :=
  if shouldBurn then sendValue BURNT_FUNDS_ACTOR v else gret ().

Definition sendReceipt (block : Z) (original : IpcEnvelope) (outcome : OutcomeType) (ret : bytes) : GM W unit :=
  if envelope_isEmpty original then gret ()
  else match kind original with
       | Result => gret ()
       | _ => do* commitCrossMessage block (createResultMsg original outcome ret); gret ()
       end.

(** ** Applying messages *)

Definition execute (crossMsg : IpcEnvelope) (source : SupplySource) : GM W (bool * bytes) :=
  do* require (negb (envelope_isEmpty crossMsg)) CannotExecuteEmptyEnvelope;
  let* a := lift (extractEvmAddress (rawAddress (to crossMsg))) in
  let recipient := normalize a in
  match kind crossMsg with
  | Transfer => transferFunds source recipient (value crossMsg)
  | Call | Result => performCall source recipient (abi_handle crossMsg) (value crossMsg)
  end.
(** A [delegatecall] to the library: a revert in it undoes what it did and is an answer. *)
Definition executeCrossMsg (crossMsg : IpcEnvelope) (source : SupplySource) : GM W (bool * bytes) := λ g,
  match execute crossMsg source g with
  | Ok r => Ok r
  | Err e => Ok (g, (false, error_bytes e))
  | Retry => Retry
  | Panic => Panic
  end.

Definition native : SupplySource := mkSupply Native 0.
Definition nonce_error : bytes := error_bytes (InvalidXnetMessage ReasonNonce).
(** The nonce check of a message: [inl] the supply source to execute it with. *)
Definition check_nonce (arrivingFrom : SubnetID Z) (crossMsg : IpcEnvelope) : GM W (option SupplySource + bytes) :=
  let* s := get in
  match applyType crossMsg (networkName (config s)) with
  | BottomUp =>
      let '(registered, subnet) := getSubnet s arrivingFrom in
      if negb registered then gret (inl None)
      else if negb (appliedBottomUpNonce subnet =? nonce crossMsg) then gret (inr nonce_error)
      else
        let* n := lift (checked 64 (appliedBottomUpNonce subnet + 1)) in
        do* put (write_subnet s arrivingFrom
          (mkSubnet (stake subnet) (genesisEpoch subnet) (circSupply subnet) (topDownNonce subnet) n (sub_id subnet)));
        let* src := supplySource_of (getActor (sub_id subnet)) in gret (inl (Some src))
  | TopDown =>
      if negb (appliedTopDownNonce s =? nonce crossMsg) then gret (inr nonce_error)
      else
        let* n := lift (checked 64 (appliedTopDownNonce s + 1)) in
        do* put (set_appliedTopDownNonce s n);
        gret (inl (Some native))
  end.
Definition applyMsg (block : Z) (arrivingFrom : SubnetID Z) (crossMsg : IpcEnvelope) : GM W unit :=
  if isEmpty (subnetId (to crossMsg)) then
    sendReceipt block crossMsg SystemErr (error_bytes (InvalidXnetMessage DstSubnet))
  else
    let* c := check_nonce arrivingFrom crossMsg in
    match c with
    | inr err => sendReceipt block crossMsg SystemErr err
    | inl None => gret ()
    | inl (Some source) =>
        let* s := get in
        if negb (equals (subnetId (to crossMsg)) (networkName (config s))) then
          put (set_postbox s (<[hash_envelope crossMsg := crossMsg]> (postbox s)))
        else
          let* r := executeCrossMsg crossMsg source in
          sendReceipt block crossMsg (if (r.1 : bool) then OutcomeOk else ActorErr) r.2
    end.
Fixpoint applyMessages (block : Z) (arrivingFrom : SubnetID Z) (msgs : list IpcEnvelope) : GM W unit :=
  match msgs with
  | [] => gret ()
  | x :: msgs => do* applyMsg block arrivingFrom x; applyMessages block arrivingFrom msgs
  end.

(** ** Managing subnets and funds ([GatewayManagerFacet]) *)

Definition register m (genesisCircSupply : Z) : GM W unit :=
  do* receive m;
  let* s := get in
  do* require (negb (maxTreeDepth (config s) <=? Z.of_nat (List.length (children (networkName (config s)))) + 1))
        (MethodNotAllowed "Subnet does not allow child subnets");
  do* require (negb (msg_value m <? genesisCircSupply)) NotEnoughFunds;
  let n := createSubnetId (networkName (config s)) (msg_sender m) in
  let '(registered, subnet) := getSubnet s n in
  do* require (negb registered) AlreadyRegisteredSubnet;
  let s := write_subnet s n (mkSubnet (msg_value m - genesisCircSupply) (block_number m) genesisCircSupply
             (topDownNonce subnet) (appliedBottomUpNonce subnet) n) in
  let* total := lift (checked 64 (totalSubnets s + 1)) in
  put (set_totalSubnets (set_subnetKeys s ({[hash_subnet n]} ∪ subnetKeys s)) total).

Definition addStake m : GM W unit :=
  do* receive m;
  do* require (negb (msg_value m =? 0)) NotEnoughFunds;
  let* s := get in
  let* n := lift (actor_subnet s (msg_sender m)) in
  let '(registered, subnet) := getSubnet s n in
  do* require registered NotRegisteredSubnet;
  let* total := lift (checked 256 (stake subnet + msg_value m)) in
  put (write_subnet s n (set_stake subnet total)).

Definition releaseStake m (amount : Z) : GM W unit :=
  do* require (negb (amount =? 0)) CannotReleaseZero;
  let* s := get in
  let* n := lift (actor_subnet s (msg_sender m)) in
  let '(registered, subnet) := getSubnet s n in
  do* require registered NotRegisteredSubnet;
  do* require (negb (stake subnet <? amount)) NotEnoughFundsToRelease;
  do* put (write_subnet s n (set_stake subnet (stake subnet - amount)));
  sendValue (getActor (sub_id subnet)) amount.

Definition kill m : GM W unit :=
  let* s := get in
  let* n := lift (actor_subnet s (msg_sender m)) in
  let '(registered, subnet) := getSubnet s n in
  do* require registered NotRegisteredSubnet;
  do* require (circSupply subnet =? 0) NotEmptySubnetCircSupply;
  let key := hash_subnet (sub_id subnet) in
  let* total := lift (checked 64 (totalSubnets s - 1)) in
  do* put (set_subnetKeys (set_subnets (set_totalSubnets s total) (delete key (subnets s))) (subnetKeys s ∖ {[key]}));
  sendValue (msg_sender m) (stake subnet).

Definition fund m (n : SubnetID Z) (to : FvmAddress) : GM W unit :=
  do* receive m;
  do* require (negb (msg_value m =? 0)) (InvalidXnetMessage ReasonValue);
  let* s := get in
  do* require (getSubnet s n).1 NotRegisteredSubnet;
  let* source := supplySource_of (getActor n) in
  do* require (bool_decide (supply_kind source = Native)) UnexpectedSupplySource;
  let* crossMsg := lift (createFundMsg n (msg_sender m) to (msg_value m)) in
  commitTopDownMsg crossMsg.

Definition fundWithToken m (n : SubnetID Z) (to : FvmAddress) (amount : Z) : GM W unit :=
  do* require (negb (amount =? 0)) (InvalidXnetMessage ReasonValue);
  let* s := get in
  do* require (getSubnet s n).1 NotRegisteredSubnet;
  let* source := supplySource_of (getActor n) in
  do* require (bool_decide (supply_kind source = ERC20)) UnexpectedSupplySource;
  let* transferAmount := lock source (msg_sender m) amount in
  let* crossMsg := lift (createFundMsg n (msg_sender m) to transferAmount) in
  commitTopDownMsg crossMsg.

Definition release m (to : FvmAddress) : GM W unit :=
  do* receive m;
  do* require (negb (msg_value m =? 0)) (InvalidXnetMessage ReasonValue);
  let* s := get in
  let* crossMsg := lift (createReleaseMsg (networkName (config s)) (msg_sender m) to (msg_value m)) in
  do* commitBottomUpMsg (block_number m) crossMsg;
  sendValue BURNT_FUNDS_ACTOR (msg_value m).

(** ** Sending messages ([GatewayMessengerFacet]) *)

Definition sendContractXnetMessage m (envelope : IpcEnvelope) : GM W unit :=
  do* receive m;
  let* s := get in
  do* require (generalPurposeCrossMsg (config s)) (MethodNotAllowed "Support for general-purpose cross-net messages is disabled");
  let* code := (λ g, Ok (g, out_has_code (outside g) (msg_sender m))) in
  do* require code (InvalidXnetMessage ReasonSender);
  do* require (value envelope =? msg_value m) (InvalidXnetMessage ReasonValue);
  do* require (bool_decide (kind envelope = Call)) (InvalidXnetMessage ReasonKind);
  do* require (abi_call_msg (message envelope)) CallFailed;
  let committed := mkEnvelope Call (to envelope) (mkIPCAddress (networkName (config s)) (fvm_from (msg_sender m))) 0
                     (msg_value m) (message envelope) in
  let* shouldBurn := commitCrossMessage (block_number m) committed in
  crossMsgSideEffects (value committed) shouldBurn.

Definition propagate m (msgCid : Z) : GM W unit :=
  do* receive m;
  let* s := get in
  do* require (multiLevelCrossMsg (config s)) (MethodNotAllowed "Support for multi-level cross-net messages is disabled");
  let crossMsg := default zero_envelope (postbox s !! msgCid) in
  let* shouldBurn := commitCrossMessage (block_number m) crossMsg in
  let* s := get in
  do* put (set_postbox s (delete msgCid (postbox s)));
  crossMsgSideEffects (value crossMsg) shouldBurn.

(** ** Checkpoints ([CheckpointingFacet]) *)

Definition execBottomUpMsgs (block : Z) (msgs : list IpcEnvelope) (n : SubnetID Z) : GM W unit :=
  let* totalAmount := lift (checked_sum 0 (value <$> msgs)) in
  let* s := get in
  let subnet := (getSubnet s n).2 in
  do* require (negb (circSupply subnet <? totalAmount)) NotEnoughSubnetCircSupply;
  do* put (write_subnet s n (set_circSupply subnet (circSupply subnet - totalAmount)));
  applyMessages block (sub_id subnet) msgs.
Definition commitCheckpoint m (checkpoint : BottomUpCheckpoint) : GM W unit :=
  do* require (getActor (cp_subnetID checkpoint) =? msg_sender m) InvalidCheckpointSource;
  let* s := get in
  let* n := lift (actor_subnet s (msg_sender m)) in
  let '(exists_, subnet) := getSubnet s n in
  do* require exists_ SubnetNotFound;
  do* require (equals (cp_subnetID checkpoint) (sub_id subnet)) InvalidSubnet;
  do* require (negb (maxMsgsPerBottomUpBatch (config s) <? Z.of_nat (List.length (cp_msgs checkpoint)))) MaxMsgsPerBatchExceeded;
  execBottomUpMsgs (block_number m) (cp_msgs checkpoint) n.

Definition systemActorOnly m : GM W unit := require (msg_sender m =? SYSTEM_ACTOR) NotSystemActor.

Definition createBottomUpCheckpoint m (checkpoint : BottomUpCheckpoint) (membershipRootHash membershipWeight : Z) : GM W unit :=
  do* systemActorOnly m;
  let* s := get in
  let old := default zero_checkpoint (bottomUpCheckpoints s !! cp_blockHeight checkpoint) in
  do* require (cp_blockHeight old =? 0) CheckpointAlreadyExists;
  let* q := lift (createQuorumInfo (checkpointQuorumMap s) (cp_blockHeight checkpoint) (hash_checkpoint checkpoint)
                    membershipRootHash membershipWeight (majorityPercentage (config s))) in
  put (set_bottomUpCheckpoints (set_checkpointQuorumMap s q)
    (<[cp_blockHeight checkpoint := mkCheckpoint (cp_subnetID checkpoint) (cp_blockHeight checkpoint) (cp_blockHash checkpoint)
        (cp_nextConfigurationNumber checkpoint) (cp_msgs old ++ cp_msgs checkpoint)]> (bottomUpCheckpoints s))).
(** [n] heights from [h]. *)
Fixpoint delete_heights {X} (xs : gmap Z X) (h : Z) (n : nat) : gmap Z X :=
  match n with O => xs | S n => delete_heights (delete h xs) (h + 1) n end.
Definition pruneBottomUpCheckpoints m (newRetentionHeight : Z) : GM W unit :=
  do* systemActorOnly m;
  let* s := get in
  let old := retentionHeight (checkpointQuorumMap s) in
  let n := Z.to_nat (newRetentionHeight - old) in
  let* q := lift (pruneQuorums (checkpointQuorumMap s) newRetentionHeight) in
  put (set_checkpointQuorumMap
    (set_bottomUpMsgBatches (set_bottomUpCheckpoints s (delete_heights (bottomUpCheckpoints s) old n))
       (delete_heights (bottomUpMsgBatches s) old n)) q).
Definition addCheckpointSignature (height : Z) (membershipProof : list Z) (weight : Z) (signature : bytes) : GM W unit :=
  let* s := get in
  do* lift (isHeightAlreadyProcessed (checkpointQuorumMap s) height);
  do* require (negb (cp_blockHeight (default zero_checkpoint (bottomUpCheckpoints s !! height)) =? 0)) CheckpointNotCreated;
  let* q := lift (addQuorumSignature (checkpointQuorumMap s) height membershipProof weight signature) in
  put (set_checkpointQuorumMap s q).

(** ** What comes from the parent ([TopDownFinalityFacet], [XnetMessagingFacet]) *)

Definition commitParentFinality m (finality : ParentFinality) : GM W (bool * ParentFinality) :=
  do* systemActorOnly m;
  let* s := get in
  do* require (negb (pf_height finality <=? latestParentHeight s)) ParentFinalityAlreadyCommitted;
  let last := default zero_finality (finalitiesMap s !! latestParentHeight s) in
  do* put (set_latestParentHeight (set_finalitiesMap s (<[pf_height finality := finality]> (finalitiesMap s))) (pf_height finality));
  gret (negb (pf_height last =? 0), last).

Definition storeValidatorChanges m (changeRequests : list StakingChangeRequest) : GM W unit :=
  do* systemActorOnly m;
  let* s := get in
  let* t := lift (batchStoreChange (validatorsTracker s) changeRequests) in
  put (set_validatorsTracker s t).

Definition membershipTotalWeight (ms : Membership) : result Z := checked_sum 0 (weight <$> m_validators ms).
Definition membershipEqual (m1 m2 : Membership) : result bool :=
  if negb (m_configurationNumber m1 =? m_configurationNumber m2) then Ok false
  else
    w1 ← membershipTotalWeight m1;
    w2 ← membershipTotalWeight m2;
    if negb (w1 =? w2) then Ok false
    else if negb (List.length (m_validators m1) =? List.length (m_validators m2))%nat then Ok false
    else Ok (hash_validators (m_validators m1) =? hash_validators (m_validators m2)).
Definition updateMembership (membership : Membership) : GM W unit :=
  let* s := get in
  let update := put (set_currentMembership (set_lastMembership s (currentMembership s)) membership) in
  if m_configurationNumber (currentMembership s) =? 0 then update
  else if m_configurationNumber membership =? m_configurationNumber (lastMembership s) then gret ()
  else
    do* require (negb (m_configurationNumber membership <? m_configurationNumber (lastMembership s))) OldConfigurationNumber;
    let* same := lift (membershipEqual membership (currentMembership s)) in
    if (same : bool) then gret () else update.
Fixpoint power_table (set : ValidatorSet) (validators : list address) : result (list Validator) :=
  match validators with
  | [] => Ok []
  | a :: validators =>
      let i := info set a in
      w ← checked 256 (confirmedCollateral i + federatedPower i);
      rest ← power_table set validators; Ok (mkValidator w a (metadata i) :: rest)
  end.
Definition applyFinalityChanges m : GM W Z :=
  do* systemActorOnly m;
  let* s := get in
  let log := tr_changes (validatorsTracker s) in
  let* configurationNumber := lift (checked 64 (nextConfigurationNumber log - 1)) in
  let* next := lift (checked 64 (configurationNumber + 1)) in
  if next =? startConfigurationNumber log then gret 0
  else
    let* t := lift (tracker_confirmChange (validatorsTracker s) configurationNumber) in
    do* put (set_validatorsTracker s t);
    let* vs := lift (power_table (tr_validators t) (listActiveValidators (tr_validators t))) in
    do* updateMembership (mkMembership vs configurationNumber);
    gret configurationNumber.

Definition applyCrossMessages m (crossMsgs : list IpcEnvelope) : GM W unit :=
  do* systemActorOnly m;
  let* s := get in
  let* parent := lift (getParentSubnet (networkName (config s))) in
  applyMessages (block_number m) parent crossMsgs.
End gateway.

(** The constructor of [GatewayDiamond]. *)
Definition gateway_constructor (c : Config) (activeValidatorsLimit : Z) (genesisValidators : list Validator) : result GatewayActorStorage :=
  _ ← revert_if (bottomUpCheckPeriod c =? 0) InvalidSubmissionPeriod;
  _ ← revert_if ((majorityPercentage c <? 51) || (100 <? majorityPercentage c)) InvalidMajorityPercentage;
  Ok (mkStorage c 0 0 0 0 (mkMembership genesisValidators 0) (mkMembership [] 0)
    (mkQuorumMap 1 ∅ ∅ ∅ ∅) (mkTracker (empty_set Collateral activeValidatorsLimit) (mkLog 1 1 ∅)) ∅ ∅ ∅ ∅ ∅ ∅).

(** ** Inverting the calls that succeed *)

Lemma get_inv {W} (g g' : Gw W) s : get g = Ok (g', s) → g' = g ∧ s = st g.
Proof. unfold get. intros. by simplify_eq. Qed.
Lemma put_inv {W} s (g g' : Gw W) u : put s g = Ok (g', u) → g' = mkGw s (balances g) (sent g) (outside g).
Proof. unfold put. intros. by simplify_eq. Qed.
Ltac gw_inv :=
  match goal with
  | H : get _ = Ok (_, _) |- _ => apply get_inv in H as [-> ->]
  | H : put _ _ = Ok (_, _) |- _ => apply put_inv in H as ->
  end.
Ltac ginv := repeat first [gw_inv | sol_inv].

Section calls.
Context `{SolHash} `{SolCrypto} {W : Type} `{Outside W}.
Implicit Types (g : Gw W).

Lemma supplySource_inv actor g g' src : supplySource_of actor g = Ok (g', src) → g' = g ∧ out_supplySource (outside g) actor = Ok src.
Proof. apply lift_inv. Qed.
Lemma rejected_inv me x g g' b : rejected me x g = Ok (g', b) → g' = g.
Proof.
  unfold rejected. intros Hr. repeat case_match; ginv;
    repeat match goal with H : supplySource_of _ _ = Ok _ |- _ => apply supplySource_inv in H as [-> ?] end; try done.
  case_match; ginv; [|done]. by apply supplySource_inv in H5 as [-> _].
Qed.
Lemma commitTopDownMsg_inv x g g' u : commitTopDownMsg x g = Ok (g', u) →
  ∃ n y a, sol_down (subnetId (to x)) (networkName (config (st g))) = Ok n ∧ getSubnet (st g) n = (true, y) ∧
    last (children n) = Some a ∧ uint 64 (topDownNonce y + 1) ∧ uint 256 (circSupply y + value x) ∧
    g' = mkGw (write_subnet (st g) n (mkSubnet (stake y) (genesisEpoch y) (circSupply y + value x) (topDownNonce y + 1)
                 (appliedBottomUpNonce y) (sub_id y)))
           (balances g) (sent g ++ [(a, set_nonce x (topDownNonce y))]) (outside g).
Proof.
  unfold commitTopDownMsg. intros Hr. apply gbind_inv in Hr as (? & ? & [-> ->]%get_inv & Hr).
  apply gbind_inv in Hr as (? & n & [-> Hn]%lift_inv & Hr).
  destruct (getSubnet (st g) n) as [f y] eqn:Hy. apply gbind_inv in Hr as (? & ? & [-> ->]%require_inv & Hr). ginv.
  exists n, y.
  match goal with Ha : subnet_getAddress n = Ok ?a |- _ =>
    exists a; unfold subnet_getAddress in Ha; destruct (last (children n)); simplify_eq/= end.
  done.
Qed.
Lemma commitTopDownMsg_ok x g n y a : sol_down (subnetId (to x)) (networkName (config (st g))) = Ok n →
  getSubnet (st g) n = (true, y) → last (children n) = Some a →
  uint 64 (topDownNonce y + 1) → uint 256 (circSupply y + value x) →
  commitTopDownMsg x g = Ok (mkGw (write_subnet (st g) n (mkSubnet (stake y) (genesisEpoch y) (circSupply y + value x)
      (topDownNonce y + 1) (appliedBottomUpNonce y) (sub_id y)))
    (balances g) (sent g ++ [(a, set_nonce x (topDownNonce y))]) (outside g), ()).
Proof.
  intros Hn Hy Ha H1' H2'. unfold commitTopDownMsg, gbind, get, lift, require, put. rewrite Hn, Hy. cbn.
  rewrite !checked_Ok by done. unfold subnet_getAddress. by rewrite Ha.
Qed.
(** The state in which a message that goes down is committed. *)
Definition bump_applied g : Gw W :=
  mkGw (set_appliedTopDownNonce (st g) (appliedTopDownNonce (st g) + 1)) (balances g) (sent g) (outside g).
Lemma commitCrossMessage_inv block x g g' burn : commitCrossMessage block x g = Ok (g', burn) →
  if goes_down (networkName (config (st g))) x
  then commitTopDownMsg x (bump_applied g) = Ok (g', ()) ∧ burn = false
  else commitBottomUpMsg block x g = Ok (g', ()) ∧ burn = negb (value x =? 0).
Proof.
  unfold commitCrossMessage. intros Hr. ginv.
  match goal with Hc : rejected _ _ _ = Ok _ |- _ => apply rejected_inv in Hc as -> end.
  destruct (goes_down _ _); ginv; by repeat match goal with u : unit |- _ => destruct u end.
Qed.
End calls.

(** ** A concrete environment for the examples: hashes that encode their argument as a number, accounts
    that accept every call, and a token that pays and takes what it is told, at the address
    of every actor in [tokens]. *)
Definition example_hash : SolHash := {|
  hash_subnet n := Zpos (encode (root n, children n));
  hash_envelope m := nonce m * 2 ^ 256 + value m;
  hash_checkpoint c := cp_blockHeight c;
  hash_validators vs := foldl (λ h v, h * 2 ^ 416 + addr v * 2 ^ 256 + weight v) 1 vs;
  abi_result r := word (result_id r);
  abi_handle m := word (nonce m);
  abi_call_msg _ := true;
  error_bytes _ := [1];
  normalize a := a;
  SYSTEM_ACTOR := 0;
|}.
Definition example_outside (tokens : gset address) : Outside unit := {|
  out_call w _ _ _ := (true, [], w);
  out_token_transfer w _ _ _ := (true, [], w);
  out_token_lock w _ _ v := Ok (w, v);
  out_supplySource _ a := Ok (if bool_decide (a ∈ tokens) then mkSupply ERC20 a else mkSupply Native 0);
  out_has_code _ _ := true;
|}.
Definition example_config (n : SubnetID Z) : Config := mkConfig n 10 10 66 3 true true.
Lemma example_hash_inj n1 n2 : hash_subnet (SolHash := example_hash) n1 = hash_subnet (SolHash := example_hash) n2 → n1 = n2.
Proof. destruct n1, n2. cbn. intros [=Heq]. apply (inj encode) in Heq. by simplify_eq. Qed.
