(* ===== verification/GatewayFunds.v ===== *)
(** * The gateway stays solvent
    ([contracts/src/lib/LibGateway.sol], [gateway/*Facet.sol], [gateway/router/*Facet.sol])

    A gateway of a network whose subnets all run on the native coin owes three things: the
    collateral of its subnets, the supply that circulates in them, and the value of the
    messages that wait in its postbox.  [slack] is what it holds beyond that.  The lemmas
    bound how much each operation takes from the slack, whatever the subnets, the senders
    and the contracts that are called do; the theorems add them up over the operations of
    a gateway in any order. *)

From Stdlib Require Import Ascii String.
From stdpp Require Import base tactics numbers list gmap.
From Stdlib Require Import Lia.
From S2P Require Import Prelude IpcApi Sol PrioQueue Staking Quorum GatewayActor.

Open Scope Z_scope.

Section funds.
Context `{SolHash} `{SolCrypto} {W : Type} `{Outside W} `{!Callback W} (this : address).
Implicit Types (g : Gw W) (m : Msg) (s : GatewayActorStorage).

Definition owed (x : Subnet) : Z := stake x + circSupply x.
Lemma owed_mk a b c d e f : owed (mkSubnet a b c d e f) = a + c.
Proof. done. Qed.
Definition liabilities s : Z := msum owed (subnets s) + msum value (postbox s).
Definition slack g : Z := get0 (balances g) this - liabilities (st g).
Definition subnet_ok (k : Z) (x : Subnet) : Prop :=
  hash_subnet (sub_id x) = k ∧ isEmpty (sub_id x) = false ∧ 0 <= stake x ∧ 0 <= circSupply x.
Definition funds_ok g : Prop :=
  map_Forall subnet_ok (subnets (st g)) ∧ map_Forall (λ _ x, 0 <= value x) (postbox (st g)).
(** [c] takes at most [k], which may depend on the answer, from the slack. *)
Definition takes {A} (c : GM W A) (k : A → Z) : Prop :=
  ∀ g g' a, c g = Ok (g', a) → funds_ok g → funds_ok g' ∧ slack g - k a <= slack g'.

Lemma takes_after g g1 g' k1 k : slack g - k1 <= slack g1 →
  funds_ok g' ∧ slack g1 - (k - k1) <= slack g' → funds_ok g' ∧ slack g - k <= slack g'.
Proof. intros ? [? ?]. split; [done|lia]. Qed.

(** ** Storage *)

Lemma getSubnet_found s n x : getSubnet s n = (true, x) → subnets s !! hash_subnet n = Some x.
Proof. unfold getSubnet. destruct (subnets s !! hash_subnet n); cbn; intros; by simplify_eq. Qed.
Lemma getSubnet_not_found s n x : map_Forall (λ _ y, isEmpty (sub_id y) = false) (subnets s) →
  getSubnet s n = (false, x) → subnets s !! hash_subnet n = None.
Proof.
  unfold getSubnet. destruct (subnets s !! hash_subnet n) eqn:E; cbn; intros Hs Hf; [|done].
  pose proof (Hs _ _ E) as Hi. cbn in Hi. by rewrite Hi in Hf.
Qed.
Lemma takes_write g g' n x y k : funds_ok g → subnets (st g) !! hash_subnet n = Some x → subnet_ok (hash_subnet n) y →
  st g' = write_subnet (st g) n y → get0 (balances g) this + owed y - owed x <= get0 (balances g') this + k →
  funds_ok g' ∧ slack g - k <= slack g'.
Proof.
  intros [Hs Hp] Hx Hy Hst Hb. unfold funds_ok, slack, liabilities. rewrite Hst. split.
  - split; [|done]. by apply map_Forall_insert_2.
  - cbn. rewrite msum_insert, Hx. cbn. lia.
Qed.

(** ** Money *)

Lemma move_get0 b b' a1 a2 v : move b a1 a2 v = Ok b' →
  get0 b' a1 = get0 b a1 - (if decide (a1 = a2) then 0 else v) ∧
  get0 b' a2 = get0 b a2 + (if decide (a1 = a2) then 0 else v).
Proof.
  unfold move. intros Hm. inv_outcome. case_decide as Hd; subst.
  - rewrite !get0_insert. lia.
  - rewrite get0_insert, get0_insert_ne, get0_insert, get0_insert_ne by congruence. lia.
Qed.
Lemma funds_ok_st g g' : st g' = st g → funds_ok g → funds_ok g'.
Proof. unfold funds_ok. by intros ->. Qed.

Lemma takes_receive m : msg_sender m ≠ this → takes (receive this m) (λ _, - msg_value m).
Proof.
  intros Hm g g' a Hr Hg. unfold receive in Hr. inv_outcome. split; [by eapply funds_ok_st|].
  apply move_get0 in Heqo as [_ Hb]. rewrite decide_False in Hb by done. unfold slack. cbn. rewrite Hb. lia.
Qed.

(** Accounts that call back take nothing: what a run of the gateway guarantees at one depth of
    calls is used for the next one. *)
Hypothesis callback_fair : ∀ target data v g, funds_ok g →
  funds_ok (callback target data v g) ∧ slack g <= slack (callback target data v g).

Lemma takes_call target data v : 0 <= v →
  takes (functionCallWithValue this target data v) (λ r, if r.1 : bool then v else 0).
Proof.
  intros Hv g g' a Hr Hg. unfold functionCallWithValue in Hr. apply bind_Ok in Hr as (b & Hb & Hr).
  destruct (callback_fair target data v (mkGw (st g) b (sent g) (outside g)) Hg) as [Hg1 Hs1].
  apply move_get0 in Hb as [Hb _]. unfold slack in Hs1 at 1. cbn in Hs1. rewrite Hb in Hs1.
  destruct (out_call _ _ _ _) as [[[] ret] w]; simplify_eq; cbn [fst].
  - split; [exact Hg1|]. change (slack g - v <= slack (callback target data v (mkGw (st g) b (sent g) (outside g)))).
    unfold slack at 1. case_decide; lia.
  - split; [done|lia].
Qed.
Lemma takes_sendValue target v : 0 <= v → takes (sendValue this target v) (λ _, v).
Proof.
  intros Hv g g' a Hr Hg. unfold sendValue in Hr. ginv. destruct x0 as [[] ret]; [|done].
  by apply (takes_call target [] v Hv _ _ (true, ret)).
Qed.
(** ** Messages *)

Lemma takes_commitTopDownMsg x : 0 <= value x → takes (commitTopDownMsg x) (λ _, value x).
Proof.
  intros Hv g g' a Hr Hg. unfold commitTopDownMsg in Hr. ginv.
  destruct (getSubnet (st g) _) as [[] y] eqn:Hy; ginv; [|done].
  apply getSubnet_found in Hy. pose proof (proj1 Hg _ _ Hy) as (? & ? & ? & ?).
  simplify_eq. eapply takes_write; [done..| |done|unfold owed; cbn; lia].
  repeat split; try done. unfold uint in *. cbn. lia.
Qed.
Lemma takes_commitBottomUpMsg block x : takes (commitBottomUpMsg block x) (λ _, 0).
Proof.
  intros g g' a Hr Hg. unfold commitBottomUpMsg in Hr. ginv.
  repeat case_match; ginv; (split; [apply Hg|unfold slack, liabilities; cbn; lia]).
Qed.
(** The value is either owed to a subnet or left to be burnt. *)
Lemma takes_commitCrossMessage block x : 0 <= value x →
  takes (commitCrossMessage block x) (λ burn, if burn : bool then 0 else value x).
Proof.
  intros Hv g g' a Hr Hg. apply commitCrossMessage_inv in Hr. case_match; destruct Hr as [Hr ->].
  - by apply (takes_commitTopDownMsg x Hv (bump_applied g) _ ()).
  - destruct (takes_commitBottomUpMsg block x _ _ _ Hr Hg) as [Hok Hs]. split; [done|]. case_match; zbool; lia.
Qed.
Lemma takes_sideEffects v b : 0 <= v → takes (crossMsgSideEffects this v b) (λ _, if b : bool then v else 0).
Proof.
  intros Hv g g' a Hr Hg. unfold crossMsgSideEffects in Hr. destruct b; [by eapply takes_sendValue|]. ginv. split; [done|lia].
Qed.
(** A receipt carries the value back unless the message was executed. *)
Lemma takes_sendReceipt block x o ret : 0 <= value x →
  takes (sendReceipt block x o ret) (λ _, match o with OutcomeOk => 0 | _ => value x end).
Proof.
  intros Hv g g' a Hr Hg. unfold sendReceipt in Hr.
  assert (Hz : ∀ k, 0 <= k → funds_ok g ∧ slack g - k <= slack g) by (intros; split; [done|lia]).
  assert (0 <= match o with OutcomeOk => 0 | _ => value x end) by (destruct o; lia).
  destruct (envelope_isEmpty x); [ginv; by apply Hz|].
  destruct (kind x); ginv; try (by apply Hz).
  all: assert (Hr : 0 <= value (createResultMsg x o ret)) by (destruct o; cbn; lia).
  all: match goal with Hc : commitCrossMessage _ _ _ = Ok (_, ?b) |- _ =>
         destruct (takes_commitCrossMessage block _ Hr _ _ _ Hc Hg) as [Hok Hs]; split; [done|]; destruct b, o; cbn in *; lia
       end.
Qed.
Lemma takes_execute x source : supply_kind source = Native → 0 <= value x →
  takes (execute this x source) (λ r, if r.1 : bool then value x else 0).
Proof.
  intros Hn Hv g g' [b ret] Hr Hg. unfold execute, transferFunds, performCall in Hr. rewrite Hn in Hr. ginv.
  assert (Hc : ∀ d, functionCallWithValue this (normalize x3) d (value x) g = Ok (g', (b, ret)) →
    funds_ok g' ∧ slack g - (if b then value x else 0) <= slack g').
  { intros d Hd. exact (takes_call _ _ _ Hv _ _ _ Hd Hg). }
  destruct (kind x); ginv.
  - match goal with Hc : functionCallWithValue _ _ _ _ _ = Ok (_, ?r) |- _ =>
      destruct r; simplify_eq/=; exact (takes_call _ _ _ Hv _ _ _ Hc Hg) end.
  - destruct (Z.eqb_spec (value x) 0) as [E|_]; [rewrite E in Hc |- *|]; by eapply Hc.
  - destruct (Z.eqb_spec (value x) 0) as [E|_]; [rewrite E in Hc |- *|]; by eapply Hc.
Qed.
Lemma takes_executeCrossMsg x source : supply_kind source = Native → 0 <= value x →
  takes (executeCrossMsg this x source) (λ r, if r.1 : bool then value x else 0).
Proof.
  intros Hn Hv g g' r Hr Hg. unfold executeCrossMsg in Hr. destruct (execute this x source g) as [[g1 r1]| | |] eqn:He; simplify_eq.
  - exact (takes_execute x source Hn Hv _ _ _ He Hg).
  - split; [done|]. cbn. lia.
Qed.

(** ** A gateway whose subnets all use the native coin *)

Hypothesis native_only : ∀ w a src, out_supplySource w a = Ok src → supply_kind src = Native.

Lemma takes_check_nonce n x : takes (check_nonce n x) (λ _, 0).
Proof.
  intros g g' a Hr Hg. unfold check_nonce in Hr. ginv. destruct (applyType _ _).
  - case_match; ginv; (split; [done|]; unfold slack, liabilities; cbn; lia).
  - destruct (getSubnet (st g) n) as [[] y] eqn:Hy; cbn [negb] in Hr; [|ginv; split; [done|lia]].
    apply getSubnet_found in Hy. case_match; ginv; [split; [done|lia]|].
    match goal with Hs : supplySource_of _ _ = Ok _ |- _ => apply supplySource_inv in Hs as [-> _] end.
    eapply takes_write; [done..| |done|unfold owed; cbn; lia]. exact (proj1 Hg _ _ Hy).
Qed.
Lemma check_nonce_native n x g g' src : check_nonce n x g = Ok (g', inl (Some src)) → supply_kind src = Native.
Proof.
  unfold check_nonce. intros Hr. ginv. destruct (applyType _ _).
  - case_match; ginv; unfold gret in *; by simplify_eq.
  - destruct (getSubnet (st g) n) as [[] y]; cbn [negb] in Hr; [|by unfold gret in *; simplify_eq].
    case_match; ginv; unfold gret in *; simplify_eq.
    match goal with Hs : supplySource_of _ _ = Ok _ |- _ => apply supplySource_inv in Hs as [-> Hs] end.
    by eapply native_only.
Qed.
(** Whatever becomes of a message, it takes no more than its value. *)
Lemma takes_applyMsg block n x : 0 <= value x → takes (applyMsg this block n x) (λ _, value x).
Proof.
  intros Hv g g' a Hr Hg. unfold applyMsg in Hr.
  destruct (isEmpty _); [exact (takes_sendReceipt block x SystemErr _ Hv _ _ _ Hr Hg)|].
  apply gbind_inv in Hr as (g1 & c & Hc & Hr).
  destruct (takes_check_nonce n x _ _ _ Hc Hg) as [Hg1 Hs1]. destruct c as [[src|]|err].
  - apply check_nonce_native in Hc. ginv. case_match; ginv.
    + split; [split; [apply Hg1|by apply map_Forall_insert_2, Hg1]|].
      unfold slack, liabilities in *. cbn. rewrite msum_insert. destruct (postbox (st g1) !! _) eqn:E; cbn; [|lia].
      pose proof (proj2 Hg1 _ _ E) as Hp. cbn in Hp. lia.
    + match goal with Hx : executeCrossMsg _ _ _ _ = Ok (_, ?r) |- _ =>
        destruct (takes_executeCrossMsg x src Hc Hv _ _ _ Hx Hg1) as [Hg2 Hs2];
        destruct (takes_sendReceipt block x _ _ Hv _ _ _ Hr Hg2) as [Hg3 Hs3]; split; [done|]; destruct r as [[] ?]; cbn in *; lia
      end.
  - ginv. split; [done|lia].
  - destruct (takes_sendReceipt block x _ _ Hv _ _ _ Hr Hg1) as [Hg3 Hs3]. split; [done|lia].
Qed.
Definition total_value (msgs : list IpcEnvelope) : Z := foldr Z.add 0 (value <$> msgs).
Lemma takes_applyMessages block n msgs : Forall (λ x, 0 <= value x) msgs →
  takes (applyMessages this block n msgs) (λ _, total_value msgs).
Proof.
  induction msgs as [|x msgs IH]; intros Hv g g' a Hr Hg; cbn in Hr; ginv; [split; [done|cbn; lia]|].
  apply Forall_cons in Hv as [Hx Hv].
  match goal with Ha : applyMsg _ _ _ _ _ = _ |- _ => destruct (takes_applyMsg block n x Hx _ _ _ Ha Hg) as [Hg1 Hs1] end.
  destruct (IH Hv _ _ _ Hr Hg1) as [Hg2 Hs2]. split; [done|]. cbn. unfold total_value in *. lia.
Qed.

(** ** Operations *)

Definition pays m : Prop := msg_sender m ≠ this ∧ 0 <= msg_value m.

Lemma takes_register m supply : pays m → 0 <= supply → takes (register this m supply) (λ _, 0).
Proof.
  intros [Hm Hv] Hs g g' a Hr Hg. unfold register in Hr.
  apply gbind_inv in Hr as (g1 & u & Hc & Hr). destruct (takes_receive m Hm _ _ _ Hc Hg) as [Hg1 Hs1]. ginv.
  destruct (getSubnet (st g1) _) as [[] y] eqn:Hy; ginv; [done|].
  apply getSubnet_not_found in Hy; [|intros k z Hz; apply (proj1 Hg1 _ _ Hz)].
  match goal with Hn : negb (msg_value m <? supply) = true |- _ => apply negb_true_iff, Z.ltb_ge in Hn end.
  split; [split; [|apply Hg1]|].
  - apply map_Forall_insert_2; [|apply Hg1]. repeat split; cbn; try lia. unfold isEmpty, createSubnetId. cbn.
    rewrite length_app. cbn. by rewrite Nat.add_comm.
  - unfold slack, liabilities in *. cbn -[owed]. rewrite msum_insert_new by done. rewrite owed_mk. lia.
Qed.
Lemma takes_addStake m : pays m → takes (addStake this m) (λ _, 0).
Proof.
  intros [Hm Hv] g g' a Hr Hg. unfold addStake in Hr.
  apply gbind_inv in Hr as (g1 & u & Hc & Hr). destruct (takes_receive m Hm _ _ _ Hc Hg) as [Hg1 Hs1]. ginv.
  destruct (getSubnet (st g1) _) as [[] y] eqn:Hy; ginv; [|done]. apply getSubnet_found in Hy.
  pose proof (proj1 Hg1 _ _ Hy) as (? & ? & ? & ?).
  eapply takes_after; [exact Hs1|].
  eapply (takes_write g1) with (y := set_stake y _); [done|exact Hy| |reflexivity|unfold owed; cbn; lia].
  repeat split; try done. cbn. lia.
Qed.
Lemma takes_releaseStake m amount : 0 <= amount → takes (releaseStake this m amount) (λ _, 0).
Proof.
  intros Hv g g' a Hr Hg. unfold releaseStake in Hr. ginv.
  destruct (getSubnet (st g) _) as [[] y] eqn:Hy; ginv; [|done]. apply getSubnet_found in Hy.
  pose proof (proj1 Hg _ _ Hy) as (? & ? & ? & ?).
  match goal with Hn : negb (stake y <? amount) = true |- _ => apply negb_true_iff, Z.ltb_ge in Hn end.
  destruct (takes_sendValue _ amount Hv _ _ _ Hr) as [Hok Hs2].
  - split; [|apply Hg]. apply map_Forall_insert_2; [|apply Hg]. repeat split; try done. cbn. lia.
  - split; [done|]. revert Hs2. unfold slack at 1, liabilities. cbn -[owed]. rewrite msum_insert, Hy.
    unfold slack, liabilities, set_stake. cbn -[owed]. rewrite owed_mk. unfold owed at 2. lia.
Qed.

Lemma takes_kill m : takes (kill this m) (λ _, 0).
Proof.
  intros g g' a Hr Hg. unfold kill in Hr. ginv.
  destruct (getSubnet (st g) _) as [[] y] eqn:Hy; ginv; [|done]. apply getSubnet_found in Hy.
  pose proof (proj1 Hg _ _ Hy) as (Hk & ? & ? & ?).
  match goal with Hc : (circSupply y =? 0) = true |- _ => apply Z.eqb_eq in Hc; rename Hc into Hz end.
  edestruct (takes_sendValue (msg_sender m) (stake y)) as [Hok Hs2]; [done|exact Hr| |].
  - split; [|apply Hg]. by apply map_Forall_delete, Hg.
  - split; [done|]. revert Hs2. unfold slack, liabilities. cbn -[owed]. rewrite msum_delete, Hk, Hy. cbn. unfold owed at 2. lia.
Qed.
Lemma takes_fund m n t : pays m → takes (fund this m n t) (λ _, 0).
Proof.
  intros [Hm Hv] g g' a Hr Hg. unfold fund in Hr.
  apply gbind_inv in Hr as (g1 & u & Hc & Hr). destruct (takes_receive m Hm _ _ _ Hc Hg) as [Hg1 Hs1]. ginv.
  match goal with Hs : supplySource_of _ _ = Ok _ |- _ => apply supplySource_inv in Hs as [-> _] end.
  match goal with Hf : createFundMsg _ _ _ _ = Ok ?x |- _ =>
    assert (Hx : value x = msg_value m) by (unfold createFundMsg in Hf; by inv_outcome); rewrite <- Hx in Hv end.
  destruct (takes_commitTopDownMsg _ Hv _ _ _ Hr Hg1) as [Hok Hs2]. split; [done|lia].
Qed.
Lemma takes_fundWithToken m n t amount : takes (fundWithToken m n t amount) (λ _, 0).
Proof.
  intros g g' a Hr Hg. unfold fundWithToken in Hr. ginv.
  match goal with Hs : supplySource_of _ _ = Ok (_, ?src), Hd : bool_decide _ = true |- _ =>
    apply supplySource_inv in Hs as [-> Hs]; apply native_only in Hs; apply bool_decide_eq_true in Hd; congruence end.
Qed.
Lemma takes_release m t : pays m → takes (release this m t) (λ _, 0).
Proof.
  intros [Hm Hv] g g' a Hr Hg. unfold release in Hr.
  apply gbind_inv in Hr as (g1 & u & Hc & Hr). destruct (takes_receive m Hm _ _ _ Hc Hg) as [Hg1 Hs1]. ginv.
  match goal with Hb : commitBottomUpMsg _ _ _ = Ok _ |- _ =>
    destruct (takes_commitBottomUpMsg _ _ _ _ _ Hb Hg1) as [Hg2 Hs2] end.
  destruct (takes_sendValue _ _ Hv _ _ _ Hr Hg2) as [Hg3 Hs3]. split; [done|lia].
Qed.
Lemma takes_sendContractXnetMessage m x : pays m → takes (sendContractXnetMessage this m x) (λ _, 0).
Proof.
  intros [Hm Hv] g g' a Hr Hg. unfold sendContractXnetMessage in Hr.
  apply gbind_inv in Hr as (g1 & u & Hc & Hr). destruct (takes_receive m Hm _ _ _ Hc Hg) as [Hg1 Hs1]. ginv. simplify_eq.
  match goal with Hx : commitCrossMessage _ _ _ = Ok (_, ?burn) |- _ =>
    edestruct takes_commitCrossMessage as [Hg2 Hs2]; [|exact Hx|exact Hg1|]; [exact Hv|];
    destruct (takes_sideEffects _ burn Hv _ _ _ Hr Hg2) as [Hg3 Hs3]; split; [done|]; cbn in *; destruct burn; lia end.
Qed.
Lemma commitCrossMessage_postbox block x g g' burn : commitCrossMessage block x g = Ok (g', burn) → postbox (st g') = postbox (st g).
Proof.
  intros Hr%commitCrossMessage_inv. case_match; destruct Hr as [Hr _].
  - unfold commitTopDownMsg in Hr. ginv. destruct (getSubnet _ _) as [[] y]; ginv; [|done]. by simplify_eq.
  - unfold commitBottomUpMsg in Hr. ginv. by repeat case_match; ginv.
Qed.
(** What is in the postbox has been owed since it was put there. *)
Lemma takes_propagate m cid : pays m → takes (propagate this m cid) (λ _, 0).
Proof.
  intros [Hm Hv] g g' a Hr Hg. unfold propagate in Hr.
  apply gbind_inv in Hr as (g1 & u & Hc & Hr). destruct (takes_receive m Hm _ _ _ Hc Hg) as [Hg1 Hs1].
  apply gbind_inv in Hr as (? & ? & [-> ->]%get_inv & Hr). apply gbind_inv in Hr as (? & ? & [-> _]%require_inv & Hr).
  apply gbind_inv in Hr as (g2 & burn & Hx & Hr). ginv.
  destruct (postbox (st g1) !! cid) as [x|] eqn:Hp; cbn [default] in *.
  2: { unfold commitCrossMessage in Hx. ginv. done. }
  change (id x) with x in *. pose proof (proj2 Hg1 _ _ Hp : 0 <= value x) as Hvx.
  destruct (takes_commitCrossMessage _ _ Hvx _ _ _ Hx Hg1) as [Hg2 Hs2].
  apply commitCrossMessage_postbox in Hx as Hpx.
  destruct (takes_sideEffects _ burn Hvx _ _ _ Hr) as [Hg3 Hs3].
  - split; [apply Hg2|]. by apply map_Forall_delete, Hg2.
  - split; [done|]. unfold slack, liabilities in *. cbn -[owed] in Hs3. rewrite Hpx in *. rewrite msum_delete, Hp in Hs3.
    cbn -[owed] in Hs3. destruct burn; lia.
Qed.
Lemma checked_sum_total acc l r : checked_sum acc l = Ok r → r = acc + foldr Z.add 0 l.
Proof.
  revert acc. induction l as [|x l IH]; cbn; intros acc Hr; inv_outcome; [lia|].
  apply checked_inv in Heqo as [-> _]. apply IH in Hr. lia.
Qed.
(** The messages of a checkpoint take no more than the supply of the subnet gives up. *)
Lemma takes_execBottomUpMsgs block msgs n g g' a y : Forall (λ x, 0 <= value x) msgs → getSubnet (st g) n = (true, y) →
  execBottomUpMsgs this block msgs n g = Ok (g', a) → funds_ok g → funds_ok g' ∧ slack g <= slack g'.
Proof.
  intros Hv Hy Hr Hg. unfold execBottomUpMsgs in Hr. ginv. rewrite Hy in *. cbn [snd] in *. apply getSubnet_found in Hy.
  match goal with Hc : checked_sum _ _ = Ok _ |- _ => apply checked_sum_total in Hc as -> end.
  match goal with Hc : negb (_ <? _) = true |- _ => apply negb_true_iff, Z.ltb_ge in Hc; rename Hc into Hle end.
  fold (total_value msgs) in *. rewrite Z.add_0_l in *.
  pose proof (proj1 Hg _ _ Hy) as (? & ? & ? & ?).
  match type of Hr with applyMessages _ _ _ _ ?g1 = _ =>
    destruct (takes_write g g1 n y (set_circSupply y (circSupply y - total_value msgs)) (- total_value msgs)) as [Hg1 Hs1] end;
    [done..| |done|unfold owed; cbn; lia|].
  - repeat split; try done. cbn. lia.
  - destruct (takes_applyMessages _ _ _ Hv _ _ _ Hr Hg1) as [Hg2 Hs2]. split; [done|]. cbn in *. lia.
Qed.
Lemma takes_commitCheckpoint m cp : Forall (λ x, 0 <= value x) (cp_msgs cp) → takes (commitCheckpoint this m cp) (λ _, 0).
Proof.
  intros Hv g g' a Hr Hg. unfold commitCheckpoint in Hr. ginv.
  destruct (getSubnet (st g) _) as [[] y] eqn:Hy; ginv; [|done].
  destruct (takes_execBottomUpMsgs _ _ _ _ _ _ _ Hv Hy Hr Hg) as [? ?]. split; [done|lia].
Qed.
Lemma takes_applyCrossMessages m msgs : Forall (λ x, 0 <= value x) msgs →
  takes (applyCrossMessages this m msgs) (λ _, total_value msgs).
Proof.
  intros Hv g g' a Hr Hg. unfold applyCrossMessages, systemActorOnly in Hr. ginv.
  exact (takes_applyMessages _ _ _ Hv _ _ _ Hr Hg).
Qed.

(** ** Operations that do not handle funds *)

Definition keeps_funds {A} (c : GM W A) : Prop := ∀ g g' a, c g = Ok (g', a) →
  balances g' = balances g ∧ sent g' = sent g ∧ config (st g') = config (st g) ∧
  subnets (st g') = subnets (st g) ∧ postbox (st g') = postbox (st g).
Lemma keeps_takes {A} (c : GM W A) : keeps_funds c → takes c (λ _, 0).
Proof.
  intros Hk g g' a Hr Hg. apply Hk in Hr as (Hb & _ & _ & Hs & Hp). unfold funds_ok, slack, liabilities. rewrite Hb, Hs, Hp.
  split; [done|lia].
Qed.
Lemma keeps_updateMembership ms : keeps_funds (updateMembership ms).
Proof.
  intros g g' a Hr. unfold updateMembership in Hr. ginv.
  case_match; ginv; [done|]. case_match; ginv; [done|]. case_match; by ginv.
Qed.
Lemma keeps_applyFinalityChanges m : keeps_funds (applyFinalityChanges m).
Proof.
  intros g g' a Hr. unfold applyFinalityChanges, systemActorOnly in Hr. ginv. case_match; ginv; [done|].
  match goal with Hu : updateMembership _ _ = Ok _ |- _ => by apply keeps_updateMembership in Hu end.
Qed.
Ltac keeps := intros g g' a Hr; unfold systemActorOnly in Hr; ginv; try done.
Lemma keeps_commitParentFinality m f : keeps_funds (commitParentFinality m f).
Proof. unfold commitParentFinality. by keeps. Qed.
Lemma keeps_storeValidatorChanges m l : keeps_funds (storeValidatorChanges m l).
Proof. unfold storeValidatorChanges. by keeps. Qed.
Lemma keeps_createBottomUpCheckpoint m cp r w : keeps_funds (createBottomUpCheckpoint m cp r w).
Proof. unfold createBottomUpCheckpoint. by keeps. Qed.
Lemma keeps_pruneBottomUpCheckpoints m h : keeps_funds (pruneBottomUpCheckpoints m h).
Proof. unfold pruneBottomUpCheckpoints. by keeps. Qed.
Lemma keeps_addCheckpointSignature h p w sg : keeps_funds (addCheckpointSignature h p w sg).
Proof. unfold addCheckpointSignature. by keeps. Qed.

(** ** Runs of a gateway *)

Inductive gcall :=
| CRegister (m : Msg) (supply : Z)
| CAddStake (m : Msg)
| CReleaseStake (m : Msg) (amount : Z)
| CKill (m : Msg)
| CFund (m : Msg) (n : SubnetID Z) (to : FvmAddress)
| CFundWithToken (m : Msg) (n : SubnetID Z) (to : FvmAddress) (amount : Z)
| CRelease (m : Msg) (to : FvmAddress)
| CSendContractXnetMessage (m : Msg) (x : IpcEnvelope)
| CPropagate (m : Msg) (cid : Z)
| CCommitCheckpoint (m : Msg) (cp : BottomUpCheckpoint)
| CCreateBottomUpCheckpoint (m : Msg) (cp : BottomUpCheckpoint) (root weight : Z)
| CPruneBottomUpCheckpoints (m : Msg) (height : Z)
| CAddCheckpointSignature (height : Z) (proof : list Z) (weight : Z) (signature : bytes)
| CCommitParentFinality (m : Msg) (f : ParentFinality)
| CStoreValidatorChanges (m : Msg) (l : list StakingChangeRequest)
| CApplyFinalityChanges (m : Msg).
Definition discard {A} (c : GM W A) : GM W unit := let* _ := c in gret ().
Definition run_gcall (c : gcall) : GM W unit :=
  match c with
  | CRegister m supply => register this m supply
  | CAddStake m => addStake this m
  | CReleaseStake m amount => releaseStake this m amount
  | CKill m => kill this m
  | CFund m n t => fund this m n t
  | CFundWithToken m n t amount => fundWithToken m n t amount
  | CRelease m t => release this m t
  | CSendContractXnetMessage m x => sendContractXnetMessage this m x
  | CPropagate m cid => propagate this m cid
  | CCommitCheckpoint m cp => commitCheckpoint this m cp
  | CCreateBottomUpCheckpoint m cp r w => createBottomUpCheckpoint m cp r w
  | CPruneBottomUpCheckpoints m h => pruneBottomUpCheckpoints m h
  | CAddCheckpointSignature h p w sg => addCheckpointSignature h p w sg
  | CCommitParentFinality m f => discard (commitParentFinality m f)
  | CStoreValidatorChanges m l => storeValidatorChanges m l
  | CApplyFinalityChanges m => discard (applyFinalityChanges m)
  end.
(** Who makes the call, where it matters. *)
Definition caller (c : gcall) : option address :=
  match c with
  | CRegister m _ | CAddStake m | CReleaseStake m _ | CKill m | CFund m _ _ | CFundWithToken m _ _ _ | CRelease m _
  | CSendContractXnetMessage m _ | CPropagate m _ | CCommitCheckpoint m _ | CCreateBottomUpCheckpoint m _ _ _
  | CPruneBottomUpCheckpoints m _ | CCommitParentFinality m _ | CStoreValidatorChanges m _ | CApplyFinalityChanges m => Some (msg_sender m)
  | CAddCheckpointSignature _ _ _ _ => None
  end.
(** The sender is not the gateway itself, and what is a [uint] is not negative. *)
Definition gcall_ok (c : gcall) : Prop :=
  match c with
  | CRegister m supply => pays m ∧ 0 <= supply
  | CReleaseStake _ amount => 0 <= amount
  | CAddStake m | CFund m _ _ | CRelease m _ | CSendContractXnetMessage m _ | CPropagate m _ => pays m
  | CCommitCheckpoint _ cp => Forall (λ x, 0 <= value x) (cp_msgs cp)
  | _ => True
  end.
Definition mint g (v : Z) : Gw W := mkGw (st g) (<[this := get0 (balances g) this + v]> (balances g)) (sent g) (outside g).
(** A call, the top-down messages of a block, for which the node first mints their value to
    the gateway, or anything elsewhere that does not take from the gateway. *)
Inductive gw_step : Gw W → Gw W → Prop :=
| step_call c g g' : gcall_ok c → run_gcall c g = Ok (g', ()) → gw_step g g'
| step_topdown m msgs g g' : Forall (λ x, 0 <= value x) msgs →
    applyCrossMessages this m msgs (mint g (total_value msgs)) = Ok (g', ()) → gw_step g g'
| step_elsewhere g b w : get0 (balances g) this <= get0 b this → gw_step g (mkGw (st g) b (sent g) w).

Fixpoint run_gcalls (cs : list gcall) : GM W unit :=
  match cs with [] => gret () | c :: cs => do* run_gcall c; run_gcalls cs end.
Lemma run_gcalls_rtc cs g g' : Forall gcall_ok cs → run_gcalls cs g = Ok (g', ()) → rtc gw_step g g'.
Proof.
  revert g. induction cs as [|c cs IH]; cbn; intros g Hc Hr; ginv; [done|]. apply Forall_cons in Hc as [Hc Hcs].
  match goal with Hx : run_gcall c g = Ok (?g1, ?u) |- _ => destruct u; eapply rtc_l; [exact (step_call c _ _ Hc Hx)|] end.
  by apply IH.
Qed.
Lemma takes_discard {A} (c : GM W A) : takes c (λ _, 0) → takes (discard c) (λ _, 0).
Proof. intros Hc g g' a Hr Hg. unfold discard in Hr. ginv. by eapply Hc. Qed.
Lemma takes_gcall c : gcall_ok c → takes (run_gcall c) (λ _, 0).
Proof.
  destruct c; cbn [gcall_ok run_gcall]; intros Hc;
    eauto using takes_addStake, takes_releaseStake, takes_kill, takes_fund, takes_fundWithToken, takes_release,
      takes_sendContractXnetMessage, takes_propagate, takes_commitCheckpoint, takes_discard, keeps_takes,
      keeps_createBottomUpCheckpoint, keeps_pruneBottomUpCheckpoints, keeps_addCheckpointSignature,
      keeps_commitParentFinality, keeps_storeValidatorChanges, keeps_applyFinalityChanges.
  destruct Hc. by apply takes_register.
Qed.
Lemma gw_step_slack g g' : gw_step g g' → funds_ok g → funds_ok g' ∧ slack g <= slack g'.
Proof.
  intros [c g1 g2 Hc Hr|m msgs g1 g2 Hv Hr|g1 b w Hb] Hg.
  - destruct (takes_gcall c Hc _ _ _ Hr Hg). split; [done|lia].
  - destruct (takes_applyCrossMessages m msgs Hv _ _ _ Hr Hg) as [Hg2 Hs]. split; [done|]. revert Hs.
    unfold slack at 1, mint. cbn. rewrite get0_insert. unfold slack at 2. lia.
  - split; [done|]. unfold slack. cbn. lia.
Qed.

Lemma run_slack g g' : rtc gw_step g g' → funds_ok g → funds_ok g' ∧ slack g <= slack g'.
Proof.
  induction 1 as [g|g1 g2 g3 Hstep _ IH]; intros Hg; [split; [done|lia]|].
  destruct (gw_step_slack _ _ Hstep Hg) as [Hg2 ?]. destruct (IH Hg2). split; [done|lia].
Qed.
Lemma constructor_funds c limit vs s0 b w : gateway_constructor c limit vs = Ok s0 → 0 <= get0 b this →
  funds_ok (mkGw s0 b [] w) ∧ 0 <= slack (mkGw s0 b [] w).
Proof.
  intros Hs0 Hb. unfold gateway_constructor in Hs0. inv_outcome. split; [split; apply map_Forall_empty|].
  unfold slack, liabilities. cbn. rewrite !msum_empty. lia.
Qed.
Lemma solvent g n x : funds_ok g → 0 <= slack g → getSubnet (st g) n = (true, x) →
  0 <= stake x ∧ 0 <= circSupply x ∧ stake x + circSupply x <= get0 (balances g) this.
Proof.
  intros Hg Hs Hx%getSubnet_found. pose proof (proj1 Hg _ _ Hx) as (_ & _ & ? & ?).
  assert (owed x <= msum owed (subnets (st g))).
  { eapply msum_lookup_le; [|done]. intros k y Hy. destruct (proj1 Hg _ _ Hy) as (_ & _ & ? & ?). unfold owed. lia. }
  assert (0 <= msum value (postbox (st g))) by (apply msum_nonneg; intros k y Hy; apply (proj2 Hg _ _ Hy)).
  unfold slack, liabilities, owed in *. lia.
Qed.

(** ** What others leave to a subnet *)

Context (me : SubnetID Z) (a : address).
Hypothesis hash_inj : ∀ n1 n2, hash_subnet n1 = hash_subnet n2 → n1 = n2.

(** The subnet of the actor [a] stays, with its stake and at least its supply. *)
Definition leaves_subnet g g' : Prop :=
  networkName (config (st g')) = networkName (config (st g)) ∧
  ∀ x, subnets (st g) !! hash_subnet (createSubnetId me a) = Some x →
    ∃ x', subnets (st g') !! hash_subnet (createSubnetId me a) = Some x' ∧
      sub_id x' = sub_id x ∧ stake x' = stake x ∧ circSupply x <= circSupply x'.
Definition leaves {A} (c : GM W A) : Prop := ∀ g g' r, c g = Ok (g', r) →
  networkName (config (st g)) = me → funds_ok g → leaves_subnet g g'.

Lemma leaves_same g g' : networkName (config (st g')) = networkName (config (st g)) → subnets (st g') = subnets (st g) →
  leaves_subnet g g'.
Proof. intros Hn Hs. split; [done|]. rewrite Hs. intros x Hx. exists x. by split_and!. Qed.
Lemma leaves_trans g1 g2 g3 : leaves_subnet g1 g2 → leaves_subnet g2 g3 → leaves_subnet g1 g3.
Proof.
  intros [N1 L1] [N2 L2]. split; [congruence|]. intros x (y & Hy & ? & ? & ?)%L1. destruct (L2 y Hy) as (z & Hz & ? & ? & ?).
  exists z. split_and!; [done|congruence..|lia].
Qed.
Lemma leaves_other g g' n y : hash_subnet n ≠ hash_subnet (createSubnetId me a) → st g' = write_subnet (st g) n y → leaves_subnet g g'.
Proof.
  intros Hk Hst. split; rewrite Hst; [done|]. intros x Hx. exists x. cbn. rewrite lookup_insert_ne by done. by split_and!.
Qed.
Lemma leaves_write g g' n x y : subnets (st g) !! hash_subnet n = Some x → st g' = write_subnet (st g) n y →
  sub_id y = sub_id x → stake y = stake x → circSupply x <= circSupply y → leaves_subnet g g'.
Proof.
  intros Hx Hst Hi Hs Hc. destruct (decide (hash_subnet n = hash_subnet (createSubnetId me a))) as [Hk|Hk]; [|by eapply leaves_other].
  split; rewrite Hst; [done|]. rewrite Hk in Hx. intros x' Hx'. rewrite Hx in Hx'. simplify_eq. exists y. cbn. rewrite Hk, lookup_insert_eq. done.
Qed.
Lemma other_key sender : sender ≠ a → hash_subnet (createSubnetId me sender) ≠ hash_subnet (createSubnetId me a).
Proof. intros Hs Heq%hash_inj. unfold createSubnetId in Heq. injection Heq as Heq. apply app_inj_tail in Heq as [_ Heq]. done. Qed.

Hypothesis callback_leaves : ∀ target data v g, networkName (config (st g)) = me → funds_ok g →
  leaves_subnet g (callback target data v g).

Lemma leaves_call target data v : leaves (functionCallWithValue this target data v).
Proof.
  intros g g' r Hr Hme Hg. unfold functionCallWithValue in Hr. apply bind_Ok in Hr as (b & _ & Hr).
  destruct (out_call _ _ _ _) as [[[] ret] w]; simplify_eq; [|by apply leaves_same].
  exact (callback_leaves target data v (mkGw (st g) b (sent g) (outside g)) Hme Hg).
Qed.
Lemma leaves_sendValue target v : leaves (sendValue this target v).
Proof. intros g g' r Hr Hme Hg. unfold sendValue in Hr. ginv. by eapply leaves_call. Qed.
Lemma leaves_commitTopDownMsg x : 0 <= value x → leaves (commitTopDownMsg x).
Proof.
  intros Hv g g' u Hr Hme Hg. apply commitTopDownMsg_inv in Hr as (n & y & b & _ & Hy%getSubnet_found & _ & _ & _ & ->).
  eapply leaves_write; [exact Hy|done..|cbn; lia].
Qed.
Lemma leaves_commitBottomUpMsg block x : leaves (commitBottomUpMsg block x).
Proof. intros g g' u Hr Hme Hg. unfold commitBottomUpMsg in Hr. ginv. repeat case_match; ginv; by apply leaves_same. Qed.
Lemma leaves_commitCrossMessage block x : 0 <= value x → leaves (commitCrossMessage block x).
Proof.
  intros Hv g g' u Hr Hme Hg. apply commitCrossMessage_inv in Hr. case_match; destruct Hr as [Hr _].
  - by apply (leaves_commitTopDownMsg x Hv (bump_applied g) g' () Hr).
  - by apply (leaves_commitBottomUpMsg block x g g' () Hr).
Qed.
Lemma leaves_sideEffects v b : leaves (crossMsgSideEffects this v b).
Proof.
  intros g g' u Hr Hme Hg. unfold crossMsgSideEffects in Hr. destruct b; [by eapply leaves_sendValue|]. ginv. by apply leaves_same.
Qed.
Lemma leaves_sendReceipt block x o ret : 0 <= value x → leaves (sendReceipt block x o ret).
Proof.
  intros Hv g g' u Hr Hme Hg. unfold sendReceipt in Hr. destruct (envelope_isEmpty x); [ginv; by apply leaves_same|].
  destruct (kind x); ginv; try by apply leaves_same.
  all: eapply leaves_commitCrossMessage; [|done..]; destruct o; cbn; lia.
Qed.
Lemma leaves_executeCrossMsg x source : supply_kind source = Native → leaves (executeCrossMsg this x source).
Proof.
  intros Hn g g' r Hr Hme Hg. unfold executeCrossMsg in Hr. destruct (execute this x source g) as [[g1 r1]| | |] eqn:He; simplify_eq; [|by apply leaves_same].
  unfold execute, transferFunds, performCall in He. rewrite Hn in He. ginv.
  destruct (kind x); ginv; [by eapply leaves_call|..]; case_match; by eapply leaves_call.
Qed.
Lemma leaves_check_nonce n x : leaves (check_nonce n x).
Proof.
  intros g g' r Hr Hme Hg. unfold check_nonce in Hr. ginv. destruct (applyType _ _).
  - case_match; ginv; by apply leaves_same.
  - destruct (getSubnet (st g) n) as [[] y] eqn:Hy; cbn [negb] in Hr; [|ginv; by apply leaves_same].
    apply getSubnet_found in Hy. case_match; ginv; [by apply leaves_same|].
    match goal with Hs : supplySource_of _ _ = Ok _ |- _ => apply supplySource_inv in Hs as [-> _] end.
    eapply leaves_write; [exact Hy|done..].
Qed.
Lemma leaves_applyMsg block n x : 0 <= value x → leaves (applyMsg this block n x).
Proof.
  intros Hv g g' u Hr Hme Hg. unfold applyMsg in Hr. destruct (isEmpty _); [by eapply leaves_sendReceipt|].
  apply gbind_inv in Hr as (g1 & c & Hc & Hr). destruct (takes_check_nonce n x _ _ _ Hc Hg) as [Hg1 _].
  pose proof (leaves_check_nonce n x _ _ _ Hc Hme Hg) as L1. assert (Hme1 : networkName (config (st g1)) = me) by (rewrite (proj1 L1); done).
  eapply leaves_trans; [exact L1|]. destruct c as [[src|]|err]; [|ginv; by apply leaves_same|by eapply leaves_sendReceipt].
  apply check_nonce_native in Hc. ginv. case_match; ginv; [by apply leaves_same|].
  match goal with Hx : executeCrossMsg _ _ _ _ = Ok (_, ?r) |- _ =>
    destruct (takes_executeCrossMsg x src Hc Hv _ _ _ Hx Hg1) as [Hg2 _];
    pose proof (leaves_executeCrossMsg x src Hc _ _ _ Hx Hme1 Hg1) as L2 end.
  eapply leaves_trans; [exact L2|]. eapply leaves_sendReceipt; [done..|by rewrite (proj1 L2)|done].
Qed.
Lemma leaves_applyMessages block n msgs : Forall (λ x, 0 <= value x) msgs → leaves (applyMessages this block n msgs).
Proof.
  induction msgs as [|x msgs IH]; intros Hv g g' u Hr Hme Hg; cbn in Hr; ginv; [by apply leaves_same|].
  apply Forall_cons in Hv as [Hx Hv].
  match goal with Ha : applyMsg _ _ _ _ _ = _ |- _ =>
    destruct (takes_applyMsg block n x Hx _ _ _ Ha Hg) as [Hg1 _]; pose proof (leaves_applyMsg block n x Hx _ _ _ Ha Hme Hg) as L1 end.
  eapply leaves_trans; [exact L1|]. eapply IH; [done..|by rewrite (proj1 L1)|done].
Qed.
Lemma leaves_receive m : leaves (receive this m).
Proof. intros g g' u Hr _ _. unfold receive in Hr. inv_outcome. by apply leaves_same. Qed.
Lemma receive_st m g g' u : receive this m g = Ok (g', u) → st g' = st g.
Proof. unfold receive. intros Hr. by inv_outcome. Qed.

Lemma actor_subnet_inv s actor n : actor_subnet s actor = Ok n → n = createSubnetId (networkName (config s)) actor.
Proof. unfold actor_subnet. intros (u & _ & [= <-])%bind_Ok. done. Qed.
Lemma leaves_register m supply : msg_sender m ≠ a → leaves (register this m supply).
Proof.
  intros Hs g g' u Hr Hme Hg. unfold register in Hr. apply gbind_inv in Hr as (g1 & u1 & Hc%receive_st & Hr). ginv.
  destruct (getSubnet (st g1) _) as [[] y] eqn:Hy; ginv; [done|]. split; cbn; [by rewrite Hc|]. rewrite Hc, Hme.
  intros x Hx. exists x. rewrite lookup_insert_ne by (by apply other_key). done.
Qed.
Lemma leaves_addStake m : msg_sender m ≠ a → leaves (addStake this m).
Proof.
  intros Hs g g' u Hr Hme Hg. unfold addStake in Hr. apply gbind_inv in Hr as (g1 & u1 & Hc%receive_st & Hr). ginv.
  match goal with Ha : actor_subnet _ _ = Ok _ |- _ => apply actor_subnet_inv in Ha as -> end.
  destruct (getSubnet (st g1) _) as [[] y]; ginv; [|done].
  split; cbn; [by rewrite Hc|]. rewrite Hc, Hme. intros x Hx. exists x. rewrite lookup_insert_ne by (by apply other_key). done.
Qed.
Lemma leaves_releaseStake m amount : msg_sender m ≠ a → 0 <= amount → leaves (releaseStake this m amount).
Proof.
  intros Hs Hv g g' u Hr Hme Hg. unfold releaseStake in Hr. ginv.
  match goal with Ha : actor_subnet _ _ = Ok _ |- _ => apply actor_subnet_inv in Ha as -> end. rewrite Hme in *.
  destruct (getSubnet (st g) _) as [[] y] eqn:Hy; ginv; [|done]. apply getSubnet_found in Hy.
  pose proof (proj1 Hg _ _ Hy) as (? & ? & ? & ?).
  match goal with Hn : negb (stake y <? amount) = true |- _ => apply negb_true_iff, Z.ltb_ge in Hn end.
  match type of Hr with sendValue _ _ _ ?g1 = _ => eapply (leaves_trans g g1); [eapply leaves_other; [|reflexivity]; by apply other_key|] end.
  eapply leaves_sendValue; [exact Hr|done|].
  split; [|apply Hg]. apply map_Forall_insert_2; [|apply Hg]. repeat split; try done. cbn. lia.
Qed.
Lemma leaves_kill m : msg_sender m ≠ a → leaves (kill this m).
Proof.
  intros Hs g g' u Hr Hme Hg. unfold kill in Hr. ginv.
  match goal with Ha : actor_subnet _ _ = Ok _ |- _ => apply actor_subnet_inv in Ha as -> end. rewrite Hme in *.
  destruct (getSubnet (st g) _) as [[] y] eqn:Hy; ginv; [|done]. apply getSubnet_found in Hy.
  pose proof (proj1 Hg _ _ Hy) as (Hk & ? & ? & ?).
  match type of Hr with sendValue _ _ _ ?g1 = _ => eapply (leaves_trans g g1) end.
  - split; [done|]. intros x Hx. exists x. cbn. rewrite Hk, lookup_delete_ne by (by apply other_key). done.
  - eapply leaves_sendValue; [exact Hr|done|]. split; [|apply Hg]. by apply map_Forall_delete, Hg.
Qed.
Lemma leaves_fund m n t : 0 <= msg_value m → leaves (fund this m n t).
Proof.
  intros Hv g g' u Hr Hme Hg. unfold fund in Hr. apply gbind_inv in Hr as (g1 & u1 & Hc & Hr). apply receive_st in Hc as Hst.
  ginv. match goal with Hs : supplySource_of _ _ = Ok _ |- _ => apply supplySource_inv in Hs as [-> _] end.
  eapply leaves_trans; [by eapply leaves_receive|]. eapply leaves_commitTopDownMsg; [|exact Hr|by rewrite Hst|by eapply funds_ok_st].
  match goal with Hf : createFundMsg _ _ _ _ = Ok ?x |- _ => unfold createFundMsg in Hf; inv_outcome; by simplify_eq/= end.
Qed.
Lemma leaves_fundWithToken m n t amount : leaves (fundWithToken m n t amount).
Proof.
  intros g g' u Hr _ _. unfold fundWithToken in Hr. ginv.
  match goal with Hs : supplySource_of _ _ = Ok (_, ?src), Hd : bool_decide _ = true |- _ =>
    apply supplySource_inv in Hs as [-> Hs]; apply native_only in Hs; apply bool_decide_eq_true in Hd; congruence end.
Qed.
Lemma leaves_release m t : leaves (release this m t).
Proof.
  intros g g' u Hr Hme Hg. unfold release in Hr. apply gbind_inv in Hr as (g1 & u1 & Hc & Hr). apply receive_st in Hc as Hst. ginv.
  assert (Hg1 : funds_ok g1) by (by eapply funds_ok_st).
  match goal with Hb : commitBottomUpMsg _ _ _ = Ok (?g2, _) |- _ =>
    assert (L : leaves_subnet g1 g2) by (eapply leaves_commitBottomUpMsg; [exact Hb|by rewrite Hst|done]);
    destruct (takes_commitBottomUpMsg _ _ _ _ _ Hb Hg1) as [Hg2 _] end.
  eapply leaves_trans; [by eapply leaves_receive|]. eapply leaves_trans; [exact L|].
  eapply leaves_sendValue; [exact Hr|by rewrite (proj1 L), Hst|done].
Qed.
Lemma leaves_sendContractXnetMessage m x : 0 <= msg_value m → leaves (sendContractXnetMessage this m x).
Proof.
  intros Hv g g' u Hr Hme Hg. unfold sendContractXnetMessage in Hr. apply gbind_inv in Hr as (g1 & u1 & Hc & Hr).
  pose proof (leaves_receive _ _ _ _ Hc Hme Hg) as L0. apply receive_st in Hc as Hst.
  assert (Hg1 : funds_ok g1) by (by eapply funds_ok_st). rewrite <- Hst in Hme. eapply leaves_trans; [exact L0|]. clear L0 Hst Hc Hg.
  ginv. simplify_eq.
  match goal with Hb : commitCrossMessage _ ?y ?g0 = Ok (?g2, _) |- _ =>
    assert (L : leaves_subnet g0 g2) by (eapply leaves_commitCrossMessage; [|exact Hb|done|done]; exact Hv);
    assert (Hg2 : funds_ok g2) by (eapply (takes_commitCrossMessage _ y); [|exact Hb|done]; exact Hv) end.
  eapply leaves_trans; [exact L|]. eapply leaves_sideEffects; [exact Hr|by rewrite (proj1 L)|done].
Qed.
Lemma leaves_propagate m cid : leaves (propagate this m cid).
Proof.
  intros g g' u Hr Hme Hg. unfold propagate in Hr. apply gbind_inv in Hr as (g1 & u1 & Hc & Hr). apply receive_st in Hc as Hst.
  assert (Hg1 : funds_ok g1) by (by eapply funds_ok_st).
  apply gbind_inv in Hr as (? & ? & [-> ->]%get_inv & Hr). apply gbind_inv in Hr as (? & ? & [-> _]%require_inv & Hr).
  apply gbind_inv in Hr as (g2 & burn & Hx & Hr). ginv.
  destruct (postbox (st g1) !! cid) as [x|] eqn:Hp; cbn [default] in *; [|unfold commitCrossMessage in Hx; ginv; done].
  change (id x) with x in *. pose proof (proj2 Hg1 _ _ Hp : 0 <= value x) as Hvx.
  assert (L : leaves_subnet g1 g2) by (eapply leaves_commitCrossMessage; [exact Hvx|exact Hx|by rewrite Hst|done]).
  destruct (takes_commitCrossMessage _ _ Hvx _ _ _ Hx Hg1) as [Hg2 _].
  eapply leaves_trans; [by eapply leaves_receive|]. eapply leaves_trans; [exact L|].
  match type of Hr with crossMsgSideEffects _ _ _ ?g3 = _ => eapply (leaves_trans g2 g3); [by apply leaves_same|] end.
  eapply leaves_sideEffects; [exact Hr|cbn; by rewrite (proj1 L), Hst|]. split; [apply Hg2|]. by apply map_Forall_delete, Hg2.
Qed.
Lemma leaves_commitCheckpoint m cp : msg_sender m ≠ a → Forall (λ x, 0 <= value x) (cp_msgs cp) → leaves (commitCheckpoint this m cp).
Proof.
  intros Hs Hv g g' u Hr Hme Hg. unfold commitCheckpoint in Hr. ginv.
  match goal with Ha : actor_subnet _ _ = Ok _ |- _ => apply actor_subnet_inv in Ha as -> end. rewrite Hme in *.
  destruct (getSubnet (st g) _) as [[] y] eqn:Hy; ginv; [|done]. unfold execBottomUpMsgs in Hr. ginv. rewrite Hy in *. cbn [snd] in *.
  apply getSubnet_found in Hy. pose proof (proj1 Hg _ _ Hy) as (? & ? & ? & ?).
  match goal with Hc : negb (circSupply y <? _) = true |- _ => apply negb_true_iff, Z.ltb_ge in Hc end.
  match type of Hr with applyMessages _ _ _ _ ?g1 = _ => eapply (leaves_trans g g1); [eapply leaves_other; [|reflexivity]; by apply other_key|] end.
  eapply leaves_applyMessages; [exact Hv|exact Hr|done|].
  split; [|apply Hg]. apply map_Forall_insert_2; [|apply Hg]. repeat split; try done. cbn. lia.
Qed.
Lemma leaves_applyCrossMessages m msgs : Forall (λ x, 0 <= value x) msgs → leaves (applyCrossMessages this m msgs).
Proof. intros Hv g g' u Hr Hme Hg. unfold applyCrossMessages, systemActorOnly in Hr. ginv. by eapply leaves_applyMessages. Qed.
Lemma keeps_leaves {A} (c : GM W A) : keeps_funds c → leaves c.
Proof. intros Hk g g' r Hr _ _. apply Hk in Hr as (_ & _ & Hc & Hs & _). apply leaves_same; [by rewrite Hc|done]. Qed.
Lemma leaves_discard {A} (c : GM W A) : leaves c → leaves (discard c).
Proof. intros Hc g g' r Hr Hme Hg. unfold discard in Hr. ginv. by eapply Hc. Qed.
Lemma leaves_gcall c : gcall_ok c → caller c ≠ Some a → leaves (run_gcall c).
Proof.
  destruct c; cbn [gcall_ok run_gcall caller]; intros Hc Ha; unfold pays in Hc;
    try (assert (msg_sender m ≠ a) by congruence);
    eauto using leaves_addStake, leaves_releaseStake, leaves_kill, leaves_fundWithToken, leaves_release,
      leaves_propagate, leaves_commitCheckpoint, leaves_discard, keeps_leaves, leaves_register,
      keeps_createBottomUpCheckpoint, keeps_pruneBottomUpCheckpoints, keeps_addCheckpointSignature,
      keeps_commitParentFinality, keeps_storeValidatorChanges, keeps_applyFinalityChanges.
  - apply leaves_fund, Hc.
  - apply leaves_sendContractXnetMessage, Hc.
Qed.
(** The steps of a gateway in which the actor [a] calls nothing. *)
Inductive foreign_step : Gw W → Gw W → Prop :=
| foreign_call c g g' : gcall_ok c → caller c ≠ Some a → run_gcall c g = Ok (g', ()) → foreign_step g g'
| foreign_topdown m msgs g g' : Forall (λ x, 0 <= value x) msgs →
    applyCrossMessages this m msgs (mint g (total_value msgs)) = Ok (g', ()) → foreign_step g g'
| foreign_elsewhere g b w : get0 (balances g) this <= get0 b this → foreign_step g (mkGw (st g) b (sent g) w).
Lemma foreign_step_step g g' : foreign_step g g' → gw_step g g'.
Proof. intros []; by econstructor. Qed.
Lemma foreign_leaves g g' : rtc foreign_step g g' → networkName (config (st g)) = me → funds_ok g → leaves_subnet g g'.
Proof.
  induction 1 as [g|g1 g2 g3 Hstep _ IH]; intros Hme Hg; [by apply leaves_same|].
  assert (L : leaves_subnet g1 g2).
  { destruct Hstep as [c g g' Hc Ha Hr|m msgs g g' Hv Hr|g b w Hb]; [by eapply leaves_gcall| |by apply leaves_same].
    by apply (leaves_applyCrossMessages m msgs Hv _ _ _ Hr Hme). }
  eapply leaves_trans; [exact L|]. apply IH; [by rewrite (proj1 L)|]. by eapply gw_step_slack, Hg; apply foreign_step_step.
Qed.
End funds.

(** ** Accounts that call back

    [script] says what an account does when it is called: the calls it makes to the gateway,
    one after the other, given all the state.  A call that reverts is skipped.  The calls of
    these calls may call back again, up to a depth; the guards of [releaseStake] and
    [fundWithToken] against that are not needed and are left out. *)
Section callbacks.
Context `{SolHash} `{SolCrypto} {W : Type} `{Outside W} (this : address).
Variable script : nat → address → bytes → Z → Gw W → list gcall.
Implicit Types (g : Gw W).

Fixpoint callback_at (depth : nat) : Callback W :=
  match depth with
  | O => no_callback
  | S depth => λ target data v g,
      foldl (λ g c, match run_gcall (Callback0 := callback_at depth) this c g with Ok (g', _) => g' | _ => g end) g
        (script depth target data v g)
  end.

Hypothesis native_only : ∀ w a src, out_supplySource w a = Ok src → supply_kind src = Native.
Hypothesis script_ok : ∀ depth target data v g, Forall (gcall_ok this) (script depth target data v g).

Lemma callback_at_fair depth target data v g : funds_ok g →
  funds_ok (callback_at depth target data v g) ∧ slack this g <= slack this (callback_at depth target data v g).
Proof.
  revert target data v g. induction depth as [|depth IH]; intros target data v g Hg; cbn; [split; [exact Hg|apply Z.le_refl]|].
  pose proof (script_ok depth target data v g) as Hok. revert Hok Hg. generalize (script depth target data v g). intros cs.
  revert g. induction cs as [|c cs IHc]; intros g Hok Hg; cbn; [split; [done|lia]|]. apply Forall_cons in Hok as [Hc Hok].
  destruct (run_gcall this c g) as [[g' []]| | |] eqn:Hr; [|by apply IHc..].
  destruct (takes_gcall this (Callback0 := callback_at depth) IH native_only c Hc _ _ _ Hr Hg) as [Hg' ?].
  destruct (IHc g' Hok Hg'). split; [done|lia].
Qed.
Lemma callback_at_leaves me a depth target data v g : (∀ n1 n2, hash_subnet n1 = hash_subnet n2 → n1 = n2) →
  (∀ depth target data v g, Forall (λ c, caller c ≠ Some a) (script depth target data v g)) →
  networkName (config (st g)) = me → funds_ok g → leaves_subnet me a g (callback_at depth target data v g).
Proof.
  intros Hinj Hfor. revert target data v g. induction depth as [|depth IH]; intros target data v g Hme Hg; cbn; [by apply leaves_same|].
  pose proof (script_ok depth target data v g) as Hok. pose proof (Hfor depth target data v g) as Hf. revert Hok Hf Hme Hg.
  generalize (script depth target data v g). intros cs. revert g. induction cs as [|c cs IHc]; intros g Hok Hf Hme Hg; cbn; [by apply leaves_same|].
  apply Forall_cons in Hok as [Hc Hok]. apply Forall_cons in Hf as [Ha Hf].
  destruct (run_gcall this c g) as [[g' []]| | |] eqn:Hr; [|by apply IHc..].
  pose proof (leaves_gcall this (Callback0 := callback_at depth) (callback_at_fair depth) native_only me a Hinj IH c Hc Ha _ _ _ Hr Hme Hg) as L.
  destruct (takes_gcall this (Callback0 := callback_at depth) (callback_at_fair depth) native_only c Hc _ _ _ Hr Hg) as [Hg' _].
  eapply leaves_trans; [exact L|]. apply IHc; [done..|by rewrite (proj1 L)|done].
Qed.

(** C5.  A gateway whose subnets use the native coin always holds the collateral and the
    supply of all its subnets and the value of the messages in its postbox, after any sequence
    of calls and blocks from its constructor on, even if the accounts that it pays call back
    into it, to any depth and with any calls of their own.  And as long as the actor of a subnet
    makes no call itself, the collateral of that subnet stays as it is and its supply does not
    fall, whatever checkpoints other subnets commit and whatever messages are in them. *)
Theorem gateway_solvent depth c limit vs s0 b w g :
  let step := gw_step (Callback0 := callback_at depth) this in
  let foreign := foreign_step (Callback0 := callback_at depth) this in
  gateway_constructor c limit vs = Ok s0 → 0 <= get0 b this → rtc step (mkGw s0 b [] w) g →
  liabilities (st g) <= get0 (balances g) this ∧
  (∀ n x, getSubnet (st g) n = (true, x) → 0 <= stake x ∧ 0 <= circSupply x ∧ stake x + circSupply x <= get0 (balances g) this) ∧
  ∀ a x g', (∀ n1 n2, hash_subnet n1 = hash_subnet n2 → n1 = n2) →
    (∀ depth target data v g, Forall (λ c, caller c ≠ Some a) (script depth target data v g)) →
    let n := createSubnetId (networkName (config (st g))) a in
    getSubnet (st g) n = (true, x) → rtc (foreign a) g g' →
    ∃ x', getSubnet (st g') n = (true, x') ∧ stake x' = stake x ∧ circSupply x <= circSupply x'.
Proof.
  intros step foreign Hs0 Hb Hrun. destruct (constructor_funds this c limit vs s0 b w Hs0 Hb) as [Hg0 Hs].
  destruct (run_slack this (callback_at_fair depth) native_only _ _ Hrun Hg0) as [Hg Hsl]. split_and!.
  - unfold slack at 2 in Hsl. lia.
  - intros n x Hx. eapply solvent; [done|lia|done].
  - intros a x g' Hinj Hfor n Hx Hrun'. pose proof Hx as Hx'%getSubnet_found.
    destruct (foreign_leaves this (Callback0 := callback_at depth) (callback_at_fair depth) native_only
      (networkName (config (st g))) a Hinj) with (2 := Hrun') as [_ L]; [|done..|].
    { intros. by apply callback_at_leaves. }
    destruct (L x Hx') as (x' & Hl & Hi & Hst & Hc). exists x'. split; [|done].
    unfold getSubnet in Hx |- *. fold n in Hl. rewrite Hl. rewrite Hx' in Hx. cbn in *. rewrite Hi. by injection Hx as ->.
Qed.
End callbacks.

(** A subnet [7] of the root registers with a collateral of 70 and a supply of 30, is funded
    with 10, and a checkpoint of it pays 5 to the account [8], which calls back to fund the
    subnet with them again; then the account [8] funds it with the rest of what it has. *)
#[local] Existing Instance example_hash.
#[local] Existing Instance toy_crypto.
#[local] Instance native_outside : Outside unit := example_outside ∅.
Definition example_root : SubnetID Z := mkSubnetID 1 [].
Definition example_sub : SubnetID Z := mkSubnetID 1 [7].
Definition example_calls : list gcall :=
  [CRegister (mkMsg 7 100 1) 30;
   CFund (mkMsg 8 10 2) example_sub (fvm_from 8);
   CCommitCheckpoint (mkMsg 7 0 20) (mkCheckpoint example_sub 10 0 0
     [mkEnvelope Transfer (mkIPCAddress example_root (fvm_from 8)) (mkIPCAddress example_sub (fvm_from 8)) 0 5 []])].
Definition example_script (depth : nat) (target : address) (data : bytes) (v : Z) (g : Gw unit) : list gcall :=
  if target =? 8 then [CFund (mkMsg 8 5 20) example_sub (fvm_from 8)] else [].
Definition example_last : gcall := CFund (mkMsg 8 2 21) example_sub (fvm_from 8).
#[local] Instance example_callback : Callback unit := callback_at 500 example_script 2.
Lemma gateway_solvent_witness :
  ∃ s0 g x g', gateway_constructor (example_config example_root) 10 [] = Ok s0 ∧
    rtc (gw_step 500) (mkGw s0 {[7 := 100; 8 := 12]} [] ()) g ∧ getSubnet (st g) example_sub = (true, x) ∧
    stake x = 70 ∧ circSupply x = 40 ∧ get0 (balances g) 8 = 2 ∧ stake x + circSupply x <= get0 (balances g) 500 ∧
    run_gcall 500 example_last g = Ok (g', ()) ∧ ∃ x', getSubnet (st g') example_sub = (true, x') ∧ stake x' = 70 ∧ 40 <= circSupply x'.
Proof.
  destruct (gateway_constructor (example_config example_root) 10 []) as [s0| | |] eqn:E0; try done.
  destruct (run_gcalls 500 example_calls (mkGw s0 {[7 := 100; 8 := 12]} [] ())) as [[g []]| | |] eqn:E;
    [|vm_compute in E0; injection E0 as <-; by vm_compute in E..].
  assert (Hrun : rtc (gw_step 500) (mkGw s0 {[7 := 100; 8 := 12]} [] ()) g).
  { eapply run_gcalls_rtc; [|exact E]. repeat constructor; cbn; lia. }
  destruct (getSubnet (st g) example_sub) as [f x] eqn:Ex. destruct (run_gcall 500 example_last g) as [[g' []]| | |] eqn:El;
    [|vm_compute in E0; injection E0 as <-; vm_compute in E; injection E as <-; by vm_compute in El..].
  exists s0, g, x, g'.
  assert (f = true ∧ stake x = 70 ∧ circSupply x = 40 ∧ get0 (balances g) 8 = 2 ∧ networkName (config (st g)) = example_root)
    as (-> & Hst & Hci & ? & Hn).
  { vm_compute in E0. injection E0 as <-. vm_compute in E. injection E as <-. vm_compute in Ex. by simplify_eq. }
  destruct (gateway_solvent 500 example_script) with (depth := 2%nat) (3 := E0) (5 := Hrun) as (_ & Hs & Hf).
  - intros w a src Hs. vm_compute in Hs. by simplify_eq.
  - intros d t data v h. unfold example_script. case_match; repeat constructor; cbn; lia.
  - by vm_compute.
  - split_and!; try done; [by apply (Hs example_sub)|]. rewrite Hn in Hf.
    destruct (Hf 7 x g' example_hash_inj) as (x' & Hx' & Hst' & Hc'); [|exact Ex| |].
    + intros d t data v h. unfold example_script. case_match; repeat constructor. by intros [=].
    + apply rtc_once, (foreign_call 500 7 example_last); [repeat constructor; cbn; lia|by intros [=]|exact El].
    + exists x'. split; [exact Hx'|lia].
Defined.
