(* ===== verification/GatewayMessages.v ===== *)
(** * Messages between gateways
    ([contracts/src/lib/LibGateway.sol], [CrossMsgHelper.sol], [SubnetIDHelper.sol];
    [ipc/api/src/subnet_id.rs], [ipc/api/src/cross.rs])

    The contracts and the nodes decide on their own which way a message goes: the first
    theorem says that they agree.  The others follow the messages from a parent to a child.
    The parent numbers them per subnet in its log; the child applies a batch by the rules
    of [applyMsg].  For messages that come from outside a child that sends nothing down
    itself this delivers each message once and in order; the theorems at the end show what
    goes wrong otherwise.  Accounts that are called may call back into the parent; those
    that the child calls do not ([no_callback]). *)

From Stdlib Require Import Ascii String.
From stdpp Require Import base tactics numbers list gmap.
From Stdlib Require Import Lia.
From S2P Require Import Prelude IpcApi Sol PrioQueue Staking Quorum GatewayActor GatewayFunds.

Open Scope Z_scope.

(** ** Routes *)

Lemma common_length_le l1 l2 : (common_length l1 l2 <= List.length l1)%nat ∧ (common_length l1 l2 <= List.length l2)%nat.
Proof. revert l2. induction l1 as [|x l1 IH]; intros [|y l2]; cbn; try lia. destruct (x =? y); [|lia]. specialize (IH l2). lia. Qed.
Lemma common_length_take l1 l2 : take (common_length l1 l2) l1 = take (common_length l1 l2) l2.
Proof.
  revert l2. induction l1 as [|x l1 IH]; intros [|y l2]; cbn; try done. destruct (Z.eqb_spec x y) as [->|]; [|done].
  cbn. by rewrite IH.
Qed.
Lemma common_length_sym l1 l2 : common_length l1 l2 = common_length l2 l1.
Proof. revert l2. induction l1 as [|x l1 IH]; intros [|y l2]; cbn; try done. rewrite Z.eqb_sym. by destruct (y =? x); rewrite ?IH. Qed.
Lemma common_length_app l k : common_length l (l ++ k) = List.length l.
Proof. induction l as [|x l IH]; cbn; [done|]. by rewrite Z.eqb_refl, IH. Qed.
Lemma common_length_refl l : common_length l l = List.length l.
Proof. rewrite <- (app_nil_r l) at 2. apply common_length_app. Qed.
Lemma common_length_app_both l k1 k2 : common_length (l ++ k1) (l ++ k2) = (List.length l + common_length k1 k2)%nat.
Proof. induction l as [|x l IH]; cbn; [done|]. by rewrite Z.eqb_refl, IH. Qed.
(** Two routes that part within the first part as they parted there. *)
Lemma common_length_within l k l' : (common_length l' l < List.length l)%nat → common_length l' (l ++ k) = common_length l' l.
Proof.
  revert l'. induction l as [|x l IH]; intros [|y l']; cbn; try lia. destruct (y =? x); [|done]. intros. rewrite IH; lia.
Qed.

Section routing.
Context `{SolHash} `{AddressOps Z}.
Implicit Types (n : SubnetID Z).

Lemma equals_refl n : equals n n = true.
Proof. unfold equals. by rewrite !Z.eqb_refl, Nat.eqb_refl. Qed.
Lemma equals_length n1 n2 : List.length (children n1) ≠ List.length (children n2) → equals n1 n2 = false.
Proof. intros Hl. unfold equals. apply Nat.eqb_neq in Hl. rewrite Hl. by rewrite andb_false_r. Qed.
Lemma equals_same_path n1 n2 : root n1 = root n2 → children n1 = children n2 → equals n1 n2 = true.
Proof. destruct n1, n2. cbn. intros -> ->. apply equals_refl. Qed.
Lemma commonParent_self n : commonParent n n = n.
Proof. unfold commonParent. rewrite Z.eqb_refl, common_length_refl. cbn. rewrite take_ge by done. by destruct n. Qed.

Lemma common_prefix_length l1 l2 : common_prefix l1 l2 = common_length l1 l2.
Proof.
  revert l2. induction l1 as [|x l1 IH]; intros [|y l2]; cbn; try done.
  case_decide as Hd; destruct (Z.eqb_spec x y); rewrite ?IH; congruence.
Qed.

Lemma commonParent_length n1 n2 : root n1 = root n2 →
  List.length (children (commonParent n1 n2)) = common_length (children n1) (children n2).
Proof.
  intros Hr. unfold commonParent. rewrite Hr, Z.eqb_refl. cbn. rewrite length_take.
  pose proof (common_length_le (children n1) (children n2)). lia.
Qed.
Lemma common_parent_agrees n1 n2 : root n1 = root n2 →
  common_parent n1 n2 = Some (common_length (children n1) (children n2), commonParent n1 n2).
Proof. intros Hr. unfold common_parent, commonParent. by rewrite Hr, Z.eqb_refl, common_prefix_length. Qed.

Definition rust_kind (k : IpcMsgKind) : IpcApi.IpcMsgKind :=
  match k with Transfer => IpcApi.Transfer | Call => IpcApi.Call | Result => IpcApi.Receipt end.
(** The message as the nodes see it; the raw addresses do not matter for routing. *)
Definition rust_envelope (m : IpcEnvelope) (f t : Z) : IpcApi.IpcEnvelope Z :=
  IpcApi.mkEnvelope (rust_kind (kind m)) (IpcApi.mkIPCAddress (subnetId (to m)) t) (value m)
    (IpcApi.mkIPCAddress (subnetId (from m)) f) (message m) (nonce m).

(**  The contracts and the nodes route alike: for identifiers below the same root, with
    routes shorter than 2{^64} and a hash without collisions, [down], the common parent and
    the direction in which a message is applied are the same functions in Solidity and in
    Rust. *)
Theorem routing_agrees n1 n2 (m : IpcEnvelope) curr f t :
  (∀ a b, hash_subnet a = hash_subnet b → a = b) →
  root n1 = root n2 → Z.of_nat (List.length (children n1)) < 2 ^ 64 →
  root (subnetId (from m)) = root (subnetId (to m)) → root curr = root (subnetId (to m)) →
  (∀ d, sol_down n1 n2 = Ok d ↔ down (E := SolError) n1 n2 = Ok (Some d)) ∧
  common_parent n1 n2 = Some (common_length (children n1) (children n2), commonParent n1 n2) ∧
  (applyType m curr = BottomUp ↔ apply_type (rust_envelope m f t) curr = IpcApi.BottomUp).
Proof.
  intros Hinj Hr Hlen Hm Hc. split; [|split].
  - intros d. unfold sol_down, down. rewrite common_parent_agrees, Hr, Z.eqb_refl by done. cbn.
    case_match eqn:Hle; [done|]. apply Nat.leb_gt in Hle.
    pose proof (common_length_le (children n1) (children n2)). unfold slice_to.
    rewrite add64_small by (unfold is_u64, U64_MAX; lia). rewrite (proj2 (Z.leb_le _ _)) by lia. cbn.
    replace (Z.to_nat _) with (S (common_length (children n1) (children n2))) by lia. split; intros; by simplify_eq.
  - by apply common_parent_agrees.
  - unfold applyType, apply_type, ipc_type, is_bottomup, rust_envelope. cbn.
    rewrite !common_parent_agrees, commonParent_length by done.
    set (p1 := commonParent curr _). set (p2 := commonParent (subnetId (from m)) _).
    assert (He : equals p1 p2 = true ↔ p1 = p2).
    { split; [|intros ->; apply equals_refl]. unfold equals. rewrite !andb_true_iff, Z.eqb_eq. intros [_ Hh]. by apply Hinj, Z.eqb_eq. }
    assert (Hb : Some (common_length (children curr) (children (subnetId (to m))), p1) =
      Some (common_length (children (subnetId (from m))) (children (subnetId (to m))), p2) ↔ equals p1 p2 = true).
    { rewrite He. split; [by intros [=]|]. intros Hp. rewrite <- !commonParent_length by done. fold p1 p2. by rewrite Hp. }
    rewrite (bool_decide_ext _ _ Hb). destruct (equals p1 p2); cbn; [|by split]. by case_match.
Qed.
End routing.

(** ** The log of the parent *)

Section log.
Context `{SolHash} `{SolCrypto} {W : Type} `{Outside W} `{!Callback W} (this : address).
Implicit Types (g : Gw W) (m : Msg) (s : GatewayActorStorage).

(** The messages the gateway has sent to the subnet of actor [a]. *)
Definition sent_to (a : address) g : list IpcEnvelope := (filter (λ p, p.1 = a) (sent g)).*2.
(** Since its registration the subnet was sent the nonces [0, 1, ...]. *)
Definition numbered g (x : Subnet) : Prop :=
  0 <= topDownNonce x ∧ ∃ old l, sent_to (getActor (sub_id x)) g = old ++ l ∧ nonce <$> l = seqZ 0 (topDownNonce x).
Definition log_ok g : Prop := map_Forall (λ k x,
  hash_subnet (sub_id x) = k ∧ sub_id x = createSubnetId (networkName (config (st g))) (getActor (sub_id x)) ∧ numbered g x)
  (subnets (st g)).
Definition log_part (x : Subnet) : Z * SubnetID Z := (topDownNonce x, sub_id x).
Definition logs {A} (c : GM W A) : Prop := ∀ g g' a, c g = Ok (g', a) → log_ok g → log_ok g'.

Lemma log_ok_same g g' : config (st g') = config (st g) → sent g' = sent g →
  log_part <$> subnets (st g') = log_part <$> subnets (st g) → log_ok g → log_ok g'.
Proof.
  intros Hc Hs Hp Hg k x Hx.
  assert (∃ y, subnets (st g) !! k = Some y ∧ log_part x = log_part y) as (y & Hy & Hxy).
  { apply (f_equal (.!! k)) in Hp. rewrite !lookup_fmap, Hx in Hp. destruct (subnets (st g) !! k) as [y|] eqn:E; [|done]. exists y. split; [done|]. cbn -[log_part] in Hp. congruence. }
  destruct (Hg k y Hy) as (H1' & H2' & H3'). unfold log_part in Hxy. injection Hxy as Ht Hi.
  unfold numbered, sent_to in *. rewrite Hc, Hs, Ht, Hi. done.
Qed.
Lemma log_ok_write g n x y b w : subnets (st g) !! hash_subnet n = Some x → log_part y = log_part x → log_ok g →
  log_ok (mkGw (write_subnet (st g) n y) b (sent g) w).
Proof.
  intros Hx Hy. apply log_ok_same; [done..|]. cbn. rewrite fmap_insert, Hy.
  apply insert_id. by rewrite lookup_fmap, Hx.
Qed.
Lemma log_ok_delete g k b w s : log_ok g → config s = config (st g) → subnets s = delete k (subnets (st g)) →
  log_ok (mkGw s b (sent g) w).
Proof. intros Hg Hc Hs k' x Hx. cbn in *. rewrite Hs in Hx. apply lookup_delete_Some in Hx as [_ Hx]. rewrite Hc. by apply Hg. Qed.

Hypothesis hash_inj : ∀ a b, hash_subnet a = hash_subnet b → a = b.

Lemma logs_commitTopDownMsg x : logs (commitTopDownMsg x).
Proof.
  intros g g' u (n & y & a & Hn & Hy & Ha & H64 & _ & ->)%commitTopDownMsg_inv Hg. apply getSubnet_found in Hy.
  destruct (Hg _ _ Hy) as (Hk & Hid & Hnum & old & l & Hold & Hl). apply hash_inj in Hk.
  assert (Hact : getActor (sub_id y) = a) by (unfold getActor; by rewrite Hk, Ha).
  intros k z Hz. cbn in Hz. apply lookup_insert_Some in Hz as [[<- <-]|[Hne Hz]]; cbn.
  - rewrite Hk at 1. split_and!; [done|done|]. split; [cbn; lia|]. exists old, (l ++ [set_nonce x (topDownNonce y)]). cbn.
    unfold sent_to in *. cbn. rewrite filter_app, fmap_app, Hold, Hact. rewrite filter_cons_True by done. cbn.
    rewrite app_assoc. split; [done|]. rewrite fmap_app, Hl. cbn. rewrite seqZ_app by lia. done.
  - destruct (Hg _ _ Hz) as (Hkz & Hidz & Hnz & old' & l' & Hold' & Hl'). split_and!; [done|done|]. split; [done|].
    exists old', l'. split; [|done]. unfold sent_to in *. cbn. rewrite filter_app, fmap_app, Hold'.
    rewrite filter_cons_False; [cbn; by rewrite app_nil_r|]. cbn. intros Heq. apply Hne. rewrite <- Hkz, Hidz, <- Heq, <- Hact, <- Hid. by rewrite Hk.
Qed.
Lemma logs_same {A} (c : GM W A) : (∀ g g' a, c g = Ok (g', a) →
  config (st g') = config (st g) ∧ sent g' = sent g ∧ log_part <$> subnets (st g') = log_part <$> subnets (st g)) → logs c.
Proof. intros Hc g g' a (? & ? & ?)%Hc. by apply log_ok_same. Qed.
Lemma logs_receive m : logs (receive this m).
Proof. apply logs_same. intros g g' a Hr. unfold receive in Hr. by inv_outcome. Qed.
Hypothesis callback_logs : ∀ target data v g, log_ok g → log_ok (callback target data v g).
Lemma logs_call target data v : logs (functionCallWithValue this target data v).
Proof.
  intros g g' a Hr Hg. unfold functionCallWithValue in Hr. apply bind_Ok in Hr as (b & _ & Hr).
  assert (Hg1 : log_ok (callback target data v (mkGw (st g) b (sent g) (outside g)))) by (by apply callback_logs, (log_ok_same g)).
  destruct (out_call _ _ _ _) as [[[] ret] w]; simplify_eq; [|done]. by eapply log_ok_same; [..|exact Hg1].
Qed.
Lemma logs_transfer src a v : logs (ierc20Transfer (W := W) src a v).
Proof. apply logs_same. intros g g' r Hr. unfold ierc20Transfer in Hr. by inv_outcome. Qed.
Lemma logs_lock src a v : logs (lock (W := W) src a v).
Proof. apply logs_same. intros g g' r Hr. unfold lock in Hr. by inv_outcome. Qed.
Lemma logs_supplySource a : logs (supplySource_of (W := W) a).
Proof. intros g g' src [-> _]%supplySource_inv. done. Qed.
Lemma logs_rejected me x : logs (rejected (W := W) me x).
Proof. intros g g' b ->%rejected_inv. done. Qed.
Lemma logs_commitBottomUpMsg block x : logs (commitBottomUpMsg (W := W) block x).
Proof. apply logs_same. intros g g' a Hr. unfold commitBottomUpMsg in Hr. ginv. by repeat case_match; ginv. Qed.
Lemma logs_commitCrossMessage block x : logs (commitCrossMessage (W := W) block x).
Proof.
  intros g g' b Hr%commitCrossMessage_inv Hg. case_match; destruct Hr as [Hr _].
  - eapply logs_commitTopDownMsg; [exact Hr|]. by apply (log_ok_same g).
  - by eapply logs_commitBottomUpMsg.
Qed.
Lemma logs_if {A} (b : bool) (c1 c2 : GM W A) : logs c1 → logs c2 → logs (if b then c1 else c2).
Proof. by destruct b. Qed.
Lemma logs_gret {A} (a : A) : logs (gret a).
Proof. intros g g' a' [-> _]%gret_inv. done. Qed.
Hint Resolve logs_if logs_gret logs_receive logs_call logs_transfer logs_lock logs_supplySource logs_rejected logs_commitTopDownMsg
  logs_commitBottomUpMsg logs_commitCrossMessage : logs.
(** Follows the calls from a state whose log is in order. *)
Ltac follow :=
  ginv; repeat match goal with
  | Hl : log_ok ?g, Hc : ?c ?g = Ok (?g1, _) |- _ =>
      let Hc' := fresh in
      pose proof ((ltac:(eauto with logs) : logs c) g g1 _ Hc Hl) as Hc'; clear Hc
  end; try done.
Lemma logs_sendValue target v : logs (sendValue this target v).
Proof. intros g g' a Hr Hg. unfold sendValue in Hr. by follow. Qed.
Lemma logs_sideEffects v b : logs (crossMsgSideEffects this v b).
Proof. intros g g' a Hr Hg. unfold crossMsgSideEffects in Hr. destruct b; [by eapply logs_sendValue|]. by follow. Qed.
Lemma logs_sendReceipt block x o ret : logs (sendReceipt (W := W) block x o ret).
Proof. intros g g' a Hr Hg. unfold sendReceipt in Hr. repeat case_match; by follow. Qed.
Lemma logs_execute x src : logs (execute this x src).
Proof.
  intros g g' a Hr Hg. unfold execute, transferFunds, performCall, functionCallWithERC20Value in Hr. ginv.
  destruct (kind x), (supply_kind src), (value x =? 0); by follow.
Qed.
Lemma logs_executeCrossMsg x src : logs (executeCrossMsg this x src).
Proof.
  intros g g' a Hr Hg. unfold executeCrossMsg in Hr. destruct (execute this x src g) as [[g1 r1]| | |] eqn:He; simplify_eq; [|done].
  by eapply logs_execute.
Qed.
Lemma logs_check_nonce n x : logs (check_nonce (W := W) n x).
Proof.
  intros g g' a Hr Hg. unfold check_nonce in Hr. ginv. destruct (applyType _ _).
  - case_match; ginv; [done|]. by apply (log_ok_same g).
  - destruct (getSubnet (st g) n) as [[] y] eqn:Hy; cbn [negb] in Hr; [|by follow]. apply getSubnet_found in Hy.
    case_match; ginv; [done|]. eapply logs_supplySource; [done|]. by apply (log_ok_write g n y).
Qed.
Hint Resolve logs_sendValue logs_sideEffects logs_sendReceipt logs_executeCrossMsg logs_check_nonce : logs.
Lemma logs_applyMsg block n x : logs (applyMsg this block n x).
Proof.
  intros g g' a Hr Hg. unfold applyMsg in Hr. destruct (isEmpty _); [by follow|].
  apply gbind_inv in Hr as (g1 & c & Hc & Hr). pose proof (logs_check_nonce n x _ _ _ Hc Hg) as Hg1. clear Hc.
  destruct c as [[src|]|err]; [|by follow..].
  ginv. case_match; [|by follow]. ginv. by apply (log_ok_same g1).
Qed.
Hint Resolve logs_applyMsg : logs.
Lemma logs_applyMessages block n msgs : logs (applyMessages this block n msgs).
Proof.
  induction msgs as [|x msgs IH]; intros g g' a Hr Hg; cbn in Hr; ginv; [done|].
  eapply IH; [done|]. by eapply logs_applyMsg.
Qed.
Hint Resolve logs_applyMessages : logs.

Lemma getActor_create n a : getActor (createSubnetId n a) = a.
Proof. unfold getActor, createSubnetId. cbn. by rewrite last_snoc. Qed.
Lemma log_ok_nonempty g : log_ok g → map_Forall (λ _ y, isEmpty (sub_id y) = false) (subnets (st g)).
Proof.
  intros Hg k y Hy. destruct (Hg _ _ Hy) as (_ & -> & _). unfold isEmpty, createSubnetId. cbn. rewrite length_app. cbn.
  by rewrite Nat.add_comm.
Qed.
Lemma logs_register m supply : logs (register this m supply).
Proof.
  intros g g' a Hr Hg. unfold register in Hr.
  apply gbind_inv in Hr as (g1 & u & Hc & Hr). pose proof (logs_receive m _ _ _ Hc Hg) as Hg1. ginv.
  destruct (getSubnet (st g1) _) as [[] y] eqn:Hy; ginv; [done|].
  assert (y = zero_subnet) as ->.
  { apply getSubnet_not_found in Hy as Hn; [|by apply log_ok_nonempty]. unfold getSubnet in Hy. rewrite Hn in Hy. by simplify_eq/=. }
  intros k z Hz. cbn in Hz. apply lookup_insert_Some in Hz as [[<- <-]|[_ Hz]]; [|by apply Hg1]. unfold numbered.
  cbn [sub_id topDownNonce zero_subnet]. rewrite getActor_create. split_and!; [done|done|lia|].
  exists (sent_to (msg_sender m) g1), []. by rewrite app_nil_r.
Qed.
Lemma logs_addStake m : logs (addStake this m).
Proof.
  intros g g' a Hr Hg. unfold addStake in Hr. apply gbind_inv in Hr as (g1 & u & Hc & Hr). pose proof (logs_receive m _ _ _ Hc Hg).
  ginv. destruct (getSubnet (st g1) _) as [[] y] eqn:Hy; ginv; [|done]. apply getSubnet_found in Hy. by eapply log_ok_write.
Qed.
Lemma logs_releaseStake m amount : logs (releaseStake this m amount).
Proof.
  intros g g' a Hr Hg. unfold releaseStake in Hr. ginv.
  destruct (getSubnet (st g) _) as [[] y] eqn:Hy; ginv; [|done]. apply getSubnet_found in Hy.
  eapply logs_sendValue; [done|]. by eapply log_ok_write.
Qed.
Lemma logs_kill m : logs (kill this m).
Proof.
  intros g g' a Hr Hg. unfold kill in Hr. ginv.
  destruct (getSubnet (st g) _) as [[] y] eqn:Hy; ginv; [|done].
  eapply logs_sendValue; [done|]. by eapply log_ok_delete.
Qed.
Lemma logs_fund m n t : logs (fund this m n t).
Proof. intros g g' a Hr Hg. unfold fund in Hr. by follow. Qed.
Lemma logs_fundWithToken m n t amount : logs (fundWithToken (W := W) m n t amount).
Proof. intros g g' a Hr Hg. unfold fundWithToken in Hr. by follow. Qed.
Lemma logs_release m t : logs (release this m t).
Proof. intros g g' a Hr Hg. unfold release in Hr. by follow. Qed.
Lemma logs_sendContractXnetMessage m x : logs (sendContractXnetMessage this m x).
Proof. intros g g' a Hr Hg. unfold sendContractXnetMessage in Hr. follow. simplify_eq. by follow. Qed.
Lemma logs_propagate m cid : logs (propagate this m cid).
Proof.
  intros g g' a Hr Hg. unfold propagate in Hr. follow.
  eapply logs_sideEffects; [done|]. by eapply log_ok_same; [..|done].
Qed.
Lemma logs_commitCheckpoint m cp : logs (commitCheckpoint this m cp).
Proof.
  intros g g' a Hr Hg. unfold commitCheckpoint, execBottomUpMsgs in Hr. ginv.
  destruct (getSubnet (st g) _) as [[] y] eqn:Hy; ginv; [|done]. rewrite Hy in *. apply getSubnet_found in Hy.
  eapply logs_applyMessages; [done|]. by eapply log_ok_write.
Qed.
Lemma keeps_logs {A} (c : GM W A) : keeps_funds c → logs c.
Proof. intros Hk. apply logs_same. intros g g' a (_ & ? & ? & Hs & _)%Hk. by rewrite Hs. Qed.
Lemma logs_discard {A} (c : GM W A) : logs c → logs (discard c).
Proof. intros Hc g g' a Hr Hg. unfold discard in Hr. ginv. by eapply Hc. Qed.
Lemma logs_gcall c : logs (run_gcall this c).
Proof.
  destruct c; cbn [run_gcall];
    auto using logs_register, logs_addStake, logs_releaseStake, logs_kill, logs_fund, logs_fundWithToken, logs_release,
      logs_sendContractXnetMessage, logs_propagate, logs_commitCheckpoint, logs_discard, keeps_logs,
      keeps_createBottomUpCheckpoint, keeps_pruneBottomUpCheckpoints, keeps_addCheckpointSignature,
      keeps_commitParentFinality, keeps_storeValidatorChanges, keeps_applyFinalityChanges.
Qed.
Lemma gw_step_log g g' : gw_step this g g' → log_ok g → log_ok g'.
Proof.
  intros [c g1 g2 _ Hr|m msgs g1 g2 _ Hr|g1 b w _] Hg.
  - by eapply logs_gcall.
  - unfold applyCrossMessages, systemActorOnly in Hr. ginv. eapply logs_applyMessages; [done|]. by apply (log_ok_same g1).
  - by apply (log_ok_same g1).
Qed.
Lemma reachable_log c limit vs s0 b w g : gateway_constructor c limit vs = Ok s0 →
  rtc (gw_step this) (mkGw s0 b [] w) g → log_ok g.
Proof.
  intros Hs0 Hrun. remember (mkGw s0 b [] w) as g0 eqn:Hg0. assert (Hi : log_ok g0).
  { subst. unfold gateway_constructor in Hs0. inv_outcome. apply map_Forall_empty. }
  clear Hg0. induction Hrun as [g|g1 g2 g3 Hstep _ IH]; [done|]. apply IH. by eapply gw_step_log.
Qed.
End log.

(** Callbacks keep the log in order at every depth, and so do accounts that do not call back. *)
Section callback_log.
Context `{SolHash} `{SolCrypto} {W : Type} `{Outside W} (this : address).
Lemma no_callback_logs target data v (g : Gw W) : log_ok g → log_ok (no_callback target data v g).
Proof. done. Qed.
Lemma callback_at_logs script depth target data v (g : Gw W) : (∀ a b, hash_subnet a = hash_subnet b → a = b) →
  log_ok g → log_ok (callback_at this script depth target data v g).
Proof.
  intros Hinj. revert target data v g. induction depth as [|depth IH]; intros target data v g Hg; [done|]. cbn.
  generalize (script depth target data v g). intros cs. revert g Hg. induction cs as [|c cs IHc]; intros g Hg; [done|]. cbn.
  apply IHc. destruct (run_gcall this c g) as [[g' []]| | |] eqn:Hr; [|done..].
  by apply (logs_gcall this (Callback0 := callback_at this script depth) Hinj IH c g g' ()).
Qed.
End callback_log.

(** ** The child applies what the parent sent *)

#[local] Existing Instance no_callback.

Section delivery.
Context `{SolHash} `{SolCrypto} {W : Type} `{Outside W} (this : address).
Implicit Types (g : Gw W) (me : SubnetID Z) (x : IpcEnvelope).

(** [x] goes to [me] or below it and comes from a network of the same tree outside of it. *)
Definition routed me x : Prop :=
  root (subnetId (to x)) = root me ∧ children me `prefix_of` children (subnetId (to x)) ∧
  root (subnetId (from x)) = root me ∧ (common_length (children (subnetId (from x))) (children me) < List.length (children me))%nat.

Lemma applyType_routed me x : routed me x → applyType x me = TopDown.
Proof.
  intros (Ht & [k Hk] & Hf & Hc). unfold applyType.
  rewrite equals_length; [done|]. rewrite !commonParent_length by congruence.
  rewrite Hk, common_length_app, common_length_within by done. lia.
Qed.
Lemma receipt_up me x o ret : routed me x →
  applyType (createResultMsg x o ret) me = BottomUp ∧ goes_down me (createResultMsg x o ret) = false.
Proof.
  intros (Ht & [k Hk] & Hf & Hc).
  assert (Hl : common_length (children (subnetId (to x))) (children (subnetId (from x))) =
    common_length (children (subnetId (from x))) (children me)) by (rewrite Hk, common_length_sym; by apply common_length_within).
  assert (Ha : applyType (createResultMsg x o ret) me = BottomUp).
  { unfold applyType. cbn. rewrite equals_same_path.
    - cbn. rewrite commonParent_length, Hl, Hk, length_app by congruence. case_match eqn:E; [done|]. apply Nat.ltb_ge in E. lia.
    - unfold commonParent. by rewrite Ht, Hf, Z.eqb_refl.
    - unfold commonParent. rewrite Ht, Hf, Z.eqb_refl, Hl. cbn. rewrite Hk, (common_length_sym (children me)).
      by rewrite take_app_le by lia. }
  split; [done|]. unfold goes_down. rewrite Ha. cbn. apply equals_length.
  rewrite commonParent_length, common_length_sym, Hl by congruence. lia.
Qed.

(** The program never gets stuck on what it is sent: it answers or reverts. *)
Definition answers {A} (r : result A) : Prop := match r with Ok _ | Err _ => True | _ => False end.
Lemma answers_bind {A B} (r : result A) (f : A → result B) : answers r → (∀ a, answers (f a)) → answers (r ≫= f).
Proof. destruct r; cbn; auto. Qed.
Lemma answers_gbind {A B} (c : GM W A) (f : A → GM W B) g :
  answers (c g) → (∀ a g', answers (f a g')) → answers (gbind c f g).
Proof. unfold gbind. destruct (c g) as [[]| | |]; cbn; auto. Qed.
Lemma answers_revert_if b e : answers (revert_if b e).
Proof. by destruct b. Qed.
Lemma answers_move b a1 a2 v : answers (move b a1 a2 v).
Proof. unfold move. by apply answers_bind; [apply answers_revert_if|]. Qed.
Lemma answers_call target data v g : answers (functionCallWithValue this target data v g).
Proof.
  unfold functionCallWithValue, callback, no_callback. apply answers_bind; [apply answers_move|]. intros b. by repeat case_match.
Qed.
Lemma answers_read_word b i : answers (read_word b i).
Proof. unfold read_word. by case_match. Qed.
Lemma answers_extract f : answers (extractEvmAddress f).
Proof.
  unfold extractEvmAddress, decode_delegated.
  repeat (apply answers_bind; [first [apply answers_revert_if | repeat (apply answers_bind; [apply answers_read_word|intros ?]); by case_match]|intros ?]).
  destruct a0 as [[namespace len] buffer]. by repeat (apply answers_bind; [apply answers_revert_if|intros ?]).
Qed.
Lemma call_st target data v g g' r : functionCallWithValue this target data v g = Ok (g', r) → st g' = st g.
Proof. unfold functionCallWithValue, callback, no_callback. intros. by inv_outcome. Qed.
Lemma executeCrossMsg_total x g : ∃ g' r, executeCrossMsg this x native g = Ok (g', r) ∧ st g' = st g.
Proof.
  assert (Ha : answers (execute this x native g)).
  { unfold execute, transferFunds, performCall. cbn [supply_kind native].
    apply answers_gbind; [unfold require, lift; by destruct (negb (negb _))|intros _ g1].
    apply answers_gbind; [unfold lift; pose proof (answers_extract (rawAddress (to x))); by destruct (extractEvmAddress _)|intros a g2].
    destruct (kind x); [apply answers_gbind; [apply answers_call|done]|case_match; apply answers_call..]. }
  unfold executeCrossMsg. destruct (execute this x native g) as [[g' r]|e| |] eqn:E; try done; [|by eauto].
  exists g', r. split; [done|]. unfold execute, transferFunds, performCall in E. cbn [supply_kind native] in E. ginv.
  destruct (kind x); [ginv|case_match..];
    match goal with Hc : functionCallWithValue _ _ _ _ _ = Ok _ |- _ => by apply call_st in Hc end.
Qed.

(** The epochs of a gateway with a checkpoint period below 2{^128} do not overflow. *)
Lemma getNextEpoch_total block period : 0 < period < 2 ^ 128 → ∃ e, getNextEpoch block period = Ok e.
Proof.
  intros Hp. unfold getNextEpoch. rewrite (proj2 (Z.eqb_neq _ _)) by lia. cbn.
  pose proof (Z.mod_pos_bound block (2 ^ 64) ltac:(lia)) as Hb. fold (truncate 64 block) in Hb.
  set (t := truncate 64 block) in *.
  assert (Hd : 0 <= t / period <= t) by (split; [apply Z.div_pos; lia|apply Z.div_le_upper_bound; nia]).
  rewrite checked_Ok by (unfold uint; lia). cbn. rewrite checked_Ok; [by eauto|]. unfold uint. nia.
Qed.
Definition period_ok g : Prop := 0 < bottomUpCheckPeriod (config (st g)) < 2 ^ 128.
Lemma commitBottomUpMsg_total block x g : period_ok g → uint 64 (bottomUpNonce (st g) + 1) →
  ∃ g', commitBottomUpMsg block x g = Ok (g', ()) ∧ config (st g') = config (st g) ∧
    bottomUpNonce (st g') = bottomUpNonce (st g) + 1 ∧ appliedTopDownNonce (st g') = appliedTopDownNonce (st g).
Proof.
  intros Hp Hn. destruct (getNextEpoch_total block _ Hp) as [e He].
  unfold commitBottomUpMsg, gbind, get, lift, put. rewrite He, checked_Ok by done. repeat case_match; by eauto.
Qed.

Hypothesis hash_inj : ∀ a b, hash_subnet a = hash_subnet b → a = b.

Lemma equals_inj n1 n2 : equals n1 n2 = true → n1 = n2.
Proof. unfold equals. rewrite !andb_true_iff, Z.eqb_eq. intros [_ Hh]. by apply hash_inj, Z.eqb_eq. Qed.

(** A child gateway in a state in which it can take [k] more messages. *)
Definition ready me (k : Z) g : Prop :=
  networkName (config (st g)) = me ∧ root me ≠ 0 ∧ period_ok g ∧
  0 <= bottomUpNonce (st g) ∧ bottomUpNonce (st g) + k < 2 ^ 64 ∧
  0 <= appliedTopDownNonce (st g) ∧ appliedTopDownNonce (st g) + k < 2 ^ 64.
Lemma sendReceipt_total block x o ret me g : networkName (config (st g)) = me → root me ≠ 0 → period_ok g →
  uint 64 (bottomUpNonce (st g) + 1) → routed me x → subnetId (to x) = me →
  ∃ g', sendReceipt block x o ret g = Ok (g', ()) ∧ config (st g') = config (st g) ∧
    bottomUpNonce (st g) <= bottomUpNonce (st g') <= bottomUpNonce (st g) + 1 ∧
    appliedTopDownNonce (st g') = appliedTopDownNonce (st g).
Proof.
  intros Hme Hroot Hp Hb Hx Hto. unfold sendReceipt.
  destruct (envelope_isEmpty x); [exists g; split_and!; done || lia|].
  assert (∃ g', commitCrossMessage block (createResultMsg x o ret) g = Ok (g', negb (value (createResultMsg x o ret) =? 0)) ∧
    config (st g') = config (st g) ∧ bottomUpNonce (st g') = bottomUpNonce (st g) + 1 ∧
    appliedTopDownNonce (st g') = appliedTopDownNonce (st g)) as (g' & Hc & ? & ? & ?).
  { destruct (receipt_up me x o ret Hx) as [Ha Hd]. destruct Hx as (_ & _ & Hf & Hcl).
    destruct (commitBottomUpMsg_total block (createResultMsg x o ret) g) as (g' & Hg' & ? & ? & ?); [done..|].
    exists g'. split_and!; [|done..]. unfold commitCrossMessage, gbind at 1, get at 1. rewrite Hme.
    assert (He : isEmpty (subnetId (to (createResultMsg x o ret))) = false).
    { unfold isEmpty. cbn. rewrite Hf. rewrite (proj2 (Z.eqb_neq _ _) Hroot). by rewrite andb_false_r. }
    assert (Hn : equals (subnetId (to (createResultMsg x o ret))) me = false).
    { apply not_true_iff_false. intros Heq%equals_inj. cbn in Heq. rewrite Heq, common_length_refl in Hcl. lia. }
    rewrite He, Hn, Hd. unfold rejected. rewrite Ha. cbn [subnetId from createResultMsg]. rewrite Hto.
    unfold getParentSubnet. destruct (children me) as [|c l] eqn:Hch; [cbn in Hcl; lia|].
    unfold gbind, require, lift, gret. cbn [negb revert_if]. rewrite equals_length by (cbn; rewrite Hch; cbn; rewrite length_take; lia).
    cbn [negb andb revert_if]. by rewrite Hg'. }
  destruct (kind x).
  1,2: exists g'; unfold gbind; rewrite Hc; split_and!; done || lia.
  exists g. split_and!; done || lia.
Qed.

(** [x] passes the check of its nonce and goes on to be executed or forwarded, or it is refused. *)
Definition accepts (parent : SubnetID Z) x g : Prop := ∃ g', check_nonce parent x g = Ok (g', inl (Some native)).
Definition refuses (parent : SubnetID Z) x g : Prop := check_nonce parent x g = Ok (g, inr nonce_error).
Lemma check_nonce_down parent me x g : ready me 1 g → routed me x →
  check_nonce parent x g = if appliedTopDownNonce (st g) =? nonce x then Ok (bump_applied g, inl (Some native)) else Ok (g, inr nonce_error).
Proof.
  intros (Hme & _ & _ & _ & _ & ? & ?) Hx. unfold check_nonce, gbind, get, gret. rewrite Hme, (applyType_routed me) by done.
  destruct (_ =? _); cbn [negb]; [|done]. unfold lift. by rewrite checked_Ok by (split; lia).
Qed.
Lemma ready_le me k k' g : k' <= k → ready me k g → ready me k' g.
Proof. intros ? (? & ? & ? & ? & ? & ? & ?). unfold ready. split_and!; done || lia. Qed.
Lemma applyMsg_delivers block parent me x k g : 0 <= k → ready me (k + 1) g → routed me x → nonce x = appliedTopDownNonce (st g) →
  accepts parent x g ∧ ∃ g', applyMsg this block parent x g = Ok (g', ()) ∧ ready me k g' ∧
    appliedTopDownNonce (st g') = appliedTopDownNonce (st g) + 1.
Proof.
  intros Hk Hr Hx Hn. pose proof (check_nonce_down parent me x g ltac:(by eapply ready_le; [|done]; lia) Hx) as Hc.
  rewrite Hn, Z.eqb_refl in Hc. split; [by eexists|].
  pose proof Hr as (Hme & Hroot & Hp & ? & ? & ? & ?). pose proof Hx as (Hrt & [suffix Hpre] & _).
  unfold applyMsg. replace (isEmpty (subnetId (to x))) with false.
  2: { unfold isEmpty. rewrite Hrt, (proj2 (Z.eqb_neq _ _) Hroot). by rewrite andb_false_r. }
  unfold gbind at 1. rewrite Hc. unfold gbind at 1, get at 1. cbn [st bump_applied config set_appliedTopDownNonce]. rewrite Hme.
  destruct (equals (subnetId (to x)) me) eqn:Heq; cbn [negb].
  - apply equals_inj in Heq. unfold gbind at 1.
    destruct (executeCrossMsg_total x (bump_applied g)) as (g2 & r & -> & Hst).
    destruct (sendReceipt_total block x (if r.1 : bool then OutcomeOk else ActorErr) r.2 me g2) as (g3 & -> & Hcf & Hb & Ha); [..|done|done|].
    + by rewrite Hst.
    + done.
    + unfold period_ok in *. by rewrite Hst.
    + rewrite Hst. cbn. split; lia.
    + rewrite Hst in *. cbn in *. exists g3. unfold ready, period_ok in *. rewrite Ha, Hcf. split_and!; done || lia.
  - eexists. split; [reflexivity|]. unfold ready, period_ok in *. cbn. split_and!; done || lia.
Qed.
Lemma applyMessages_delivers block parent me l g : ready me (Z.of_nat (List.length l)) g → Forall (routed me) l →
  nonce <$> l = seqZ (appliedTopDownNonce (st g)) (Z.of_nat (List.length l)) →
  (∃ g', applyMessages this block parent l g = Ok (g', ()) ∧
     appliedTopDownNonce (st g') = appliedTopDownNonce (st g) + Z.of_nat (List.length l) ∧ networkName (config (st g')) = me) ∧
  ∀ i x, l !! i = Some x → ∃ gi, applyMessages this block parent (take i l) g = Ok (gi, ()) ∧ accepts parent x gi.
Proof.
  revert g. induction l as [|x l IH]; intros g Hr Hx Hn.
  { split; [|done]. exists g. cbn. split_and!; [done|lia|apply Hr]. }
  apply Forall_cons in Hx as [Hx Hl]. rewrite seqZ_cons in Hn by (cbn; lia). injection Hn as Hnx Hn.
  destruct (applyMsg_delivers block parent me x (Z.of_nat (List.length l)) g) as (Hacc & g1 & Hg1 & Hr1 & Ha1);
    [lia|by eapply ready_le; [|done]; cbn; lia|done..|].
  destruct (IH g1 Hr1 Hl) as [(g' & Hg' & Ha & Hme) Hi].
  { etrans; [exact Hn|]. rewrite Ha1. f_equal; cbn; lia. }
  split.
  - exists g'. cbn. unfold gbind. rewrite Hg1, Hg'. split_and!; [done| |done]. rewrite Ha, Ha1. lia.
  - intros [|i] y Hy; cbn in Hy; simplify_eq.
    + exists g. by split.
    + destruct (Hi i y Hy) as (gi & Hgi & Hacci). exists gi. cbn. unfold gbind. by rewrite Hg1, Hgi.
Qed.

Lemma refuses_other parent me x g : networkName (config (st g)) = me → routed me x → appliedTopDownNonce (st g) ≠ nonce x →
  refuses parent x g.
Proof.
  intros Hme Hx Hn. unfold refuses, check_nonce, gbind, get, gret. rewrite Hme, (applyType_routed me) by done.
  by rewrite (proj2 (Z.eqb_neq _ _) Hn).
Qed.
End delivery.

(** ** Histories of the child *)

Section history.
Context `{SolHash} `{SolCrypto} {W : Type} `{Outside W} (this : address).
Implicit Types (g : Gw W) (me parent : SubnetID Z) (x y : IpcEnvelope).

Lemma commitBottomUpMsg_keeps block x g g' u : commitBottomUpMsg block x g = Ok (g', u) →
  config (st g') = config (st g) ∧ appliedTopDownNonce (st g') = appliedTopDownNonce (st g).
Proof. intros Hr. unfold commitBottomUpMsg in Hr. ginv. by repeat case_match; ginv. Qed.
Lemma sendReceipt_keeps me block x o ret g g' u : networkName (config (st g)) = me → routed me x →
  sendReceipt block x o ret g = Ok (g', u) →
  config (st g') = config (st g) ∧ appliedTopDownNonce (st g') = appliedTopDownNonce (st g).
Proof.
  intros Hme Hx Hr. unfold sendReceipt in Hr. destruct (envelope_isEmpty x); [by ginv|].
  destruct (receipt_up me x o ret Hx) as [_ Hd].
  destruct (kind x); ginv; try done.
  all: match goal with Hc : commitCrossMessage _ _ _ = Ok _ |- _ => apply commitCrossMessage_inv in Hc; rewrite Hme, Hd in Hc end.
  all: match goal with Hc : commitBottomUpMsg _ _ _ = Ok _ ∧ _ |- _ => destruct Hc as [Hc _]; by apply commitBottomUpMsg_keeps in Hc end.
Qed.
(** A message from outside with another nonce than the next one changes nothing but the
    messages that go back up. *)
Lemma applyMsg_refused block parent me x g g' u : networkName (config (st g)) = me → root me ≠ 0 → routed me x →
  appliedTopDownNonce (st g) ≠ nonce x → applyMsg this block parent x g = Ok (g', u) →
  config (st g') = config (st g) ∧ appliedTopDownNonce (st g') = appliedTopDownNonce (st g).
Proof.
  intros Hme Hroot Hx Hn Hr. unfold applyMsg in Hr. replace (isEmpty (subnetId (to x))) with false in Hr.
  2: { unfold isEmpty. destruct Hx as [Hrt _]. rewrite Hrt, (proj2 (Z.eqb_neq _ _) Hroot). by rewrite andb_false_r. }
  pose proof (refuses_other parent me x g Hme Hx Hn) as Hc. unfold refuses in Hc. unfold gbind in Hr. rewrite Hc in Hr.
  by eapply sendReceipt_keeps.
Qed.
(** The counter follows the messages that pass the check. *)
Definition passes parent x g : bool := match check_nonce parent x g with Ok (_, inl (Some _)) => true | _ => false end.
Lemma passes_down parent me x g : networkName (config (st g)) = me → routed me x →
  passes parent x g = true → appliedTopDownNonce (st g) = nonce x.
Proof.
  intros Hme Hx Hp. destruct (decide (appliedTopDownNonce (st g) = nonce x)) as [|Hn]; [done|].
  unfold passes in Hp. by rewrite (refuses_other parent me x g Hme Hx Hn) in Hp.
Qed.
Lemma applyMsg_counts block parent me x g g' u : networkName (config (st g)) = me → root me ≠ 0 → routed me x →
  applyMsg this block parent x g = Ok (g', u) →
  config (st g') = config (st g) ∧
  if passes parent x g then nonce x = appliedTopDownNonce (st g) ∧ appliedTopDownNonce (st g') = appliedTopDownNonce (st g) + 1
  else appliedTopDownNonce (st g') = appliedTopDownNonce (st g).
Proof.
  intros Hme Hroot Hx Hr. destruct (decide (appliedTopDownNonce (st g) = nonce x)) as [Hn|Hn].
  - unfold applyMsg in Hr. replace (isEmpty (subnetId (to x))) with false in Hr.
    2: { unfold isEmpty. destruct Hx as [Hrt _]. rewrite Hrt, (proj2 (Z.eqb_neq _ _) Hroot). by rewrite andb_false_r. }
    apply gbind_inv in Hr as (g1 & c & Hc & Hr). unfold passes. rewrite Hc.
    unfold check_nonce in Hc. apply gbind_inv in Hc as (? & ? & [-> ->]%get_inv & Hc). rewrite Hme, (applyType_routed me) in Hc by done.
    rewrite Hn, Z.eqb_refl in Hc. cbn [negb] in Hc. ginv. simplify_eq.
    assert (Hst : config (st g') = config (st g) ∧ appliedTopDownNonce (st g') = nonce x + 1); [|by destruct Hst; rewrite Hn].
    case_match; ginv; [done|].
    match goal with Hx' : executeCrossMsg _ _ _ ?g1 = Ok (?g2, _) |- _ =>
      assert (Hst : st g2 = st g1) by (destruct (executeCrossMsg_total this x g1) as (? & ? & He & <-); congruence) end.
    eapply (sendReceipt_keeps (networkName (config (st g)))) in Hr as [Hc Ha]; [|by rewrite Hst|done]. by rewrite Hc, Ha, Hst.
  - destruct (applyMsg_refused block parent me x g g' u) as [Hc Ha]; [done..|]. split; [done|].
    destruct (passes parent x g) eqn:Hp; [|done]. by apply (passes_down parent me) in Hp.
Qed.

(** The messages of a batch that pass the check when it is applied. *)
Fixpoint accepted (block : Z) parent (batch : list IpcEnvelope) g : list IpcEnvelope :=
  match batch with
  | [] => []
  | x :: batch =>
      (if passes parent x g then [x] else []) ++
      match applyMsg this block parent x g with Ok (g', _) => accepted block parent batch g' | _ => [] end
  end.
(** A history of a child: batches of messages from [msgs], in any order and number, and
    anything else that sends nothing down, together with the messages that were accepted. *)
Inductive child_run parent (msgs : IpcEnvelope → Prop) : Gw W → list IpcEnvelope → Gw W → Prop :=
| run_none g : child_run parent msgs g [] g
| run_batch block batch acc g g1 g2 : child_run parent msgs g acc g1 → Forall msgs batch →
    applyMessages this block parent batch g1 = Ok (g2, ()) → child_run parent msgs g (acc ++ accepted block parent batch g1) g2
| run_other acc g g1 g2 : child_run parent msgs g acc g1 → config (st g2) = config (st g1) →
    appliedTopDownNonce (st g2) = appliedTopDownNonce (st g1) → child_run parent msgs g acc g2.

(** What is accepted has the numbers that the counter runs through. *)
Lemma accepted_numbers block parent me batch g g' : networkName (config (st g)) = me → root me ≠ 0 → Forall (routed me) batch →
  applyMessages this block parent batch g = Ok (g', ()) →
  let k := Z.of_nat (List.length (accepted block parent batch g)) in
  config (st g') = config (st g) ∧ appliedTopDownNonce (st g') = appliedTopDownNonce (st g) + k ∧
  nonce <$> accepted block parent batch g = seqZ (appliedTopDownNonce (st g)) k ∧ Forall (λ x, x ∈ batch) (accepted block parent batch g).
Proof.
  revert g. induction batch as [|x batch IH]; intros g Hme Hroot Hx Hr; cbn in Hr |- *.
  { ginv. split_and!; [done|lia|done|constructor]. }
  apply Forall_cons in Hx as [Hx Hxl]. apply gbind_inv in Hr as (g1 & [] & Hm & Hr). rewrite Hm.
  destruct (applyMsg_counts block parent me x g g1 () Hme Hroot Hx Hm) as [Hc Hp].
  destruct (IH g1) as (Hc' & Ha & Hn & Hin); [congruence|done..|].
  assert (Hin' : Forall (λ y, y ∈ x :: batch) (accepted block parent batch g1)) by (eapply Forall_impl; [exact Hin|]; by right).
  destruct (passes parent x g); [destruct Hp as [Hnx Hp]|].
  - cbn [app List.length fmap list_fmap]. rewrite Hn, Hnx, Ha, Hp, Hc', Hc. split_and!; [done|lia| |constructor; [by left|done]].
    rewrite (seqZ_cons (appliedTopDownNonce (st g))) by lia. f_equal. f_equal; lia.
  - cbn [app]. rewrite Hn, Ha, Hp, Hc', Hc. by split_and!.
Qed.
Lemma child_run_numbers parent msgs me g acc g' : child_run parent msgs g acc g' → networkName (config (st g)) = me → root me ≠ 0 →
  (∀ x, msgs x → routed me x) →
  let k := Z.of_nat (List.length acc) in
  config (st g') = config (st g) ∧ appliedTopDownNonce (st g') = appliedTopDownNonce (st g) + k ∧
  nonce <$> acc = seqZ (appliedTopDownNonce (st g)) k ∧ Forall msgs acc.
Proof.
  intros Hrun Hme Hroot Hmsgs. induction Hrun as [g|block batch acc g g1 g2 _ IH Hb Hr|acc g g1 g2 _ IH Hc Ha]; cbn.
  - split_and!; [done|lia|done|constructor].
  - destruct (IH Hme) as (Hc & Ha & Hn & Hf).
    destruct (accepted_numbers block parent me batch g1 g2) as (Hc' & Ha' & Hn' & Hf'); [congruence|done|by eapply Forall_impl|done|].
    split_and!; [congruence|rewrite length_app; lia| |].
    + rewrite fmap_app, Hn, Hn', length_app, Nat2Z.inj_add, Ha. by rewrite seqZ_app by lia.
    + apply Forall_app. split; [done|]. eapply Forall_impl; [exact Hf'|]. intros x Hx. by eapply Forall_forall in Hx; [|exact Hb].
  - destruct (IH Hme) as (Hc' & Ha' & Hn' & Hf'). by rewrite Hc, Ha.
Qed.
Lemma elem_of_dropped y k (l : list IpcEnvelope) : y ∈ drop k l → y ∈ l.
Proof. intros Hy. rewrite <- (take_drop k l). apply elem_of_app. by right. Qed.
(** Numbers name the messages of a log. *)
Lemma numbered_prefix (l acc : list IpcEnvelope) : nonce <$> l = seqZ 0 (Z.of_nat (List.length l)) →
  nonce <$> acc = seqZ 0 (Z.of_nat (List.length acc)) → Forall (λ x, x ∈ l) acc → acc = take (List.length acc) l ∧ (List.length acc <= List.length l)%nat.
Proof.
  intros Hl Hacc Hin.
  assert (Hat : ∀ i x, acc !! i = Some x → l !! i = Some x).
  { intros i x Hi. pose proof (Forall_lookup_1 _ _ _ _ Hin Hi) as [j Hj]%list_elem_of_lookup.
    apply (f_equal (λ k : list Z, k !! i)) in Hacc. rewrite list_lookup_fmap, Hi in Hacc.
    pose proof (f_equal (λ k : list Z, k !! j) Hl) as Hl'. cbn in Hl'. rewrite list_lookup_fmap, Hj in Hl'. cbn in Hacc, Hl'.
    symmetry in Hacc, Hl'. apply lookup_seqZ in Hacc as [Hi' _], Hl' as [Hj' _]. assert (i = j) as -> by lia. done. }
  assert (Hle : (List.length acc <= List.length l)%nat).
  { destruct acc as [|x acc'] using rev_ind; [cbn; lia|]. rewrite length_app. cbn.
    assert (Hx : l !! List.length acc' = Some x) by (apply Hat; by rewrite lookup_app_r, Nat.sub_diag by lia). apply lookup_lt_Some in Hx. lia. }
  split; [|done]. apply list_eq. intros i. destruct (decide (i < List.length acc)%nat) as [Hi|Hi].
  - rewrite lookup_take_lt by done. destruct (lookup_lt_is_Some_2 acc i Hi) as [x Hx]. by rewrite Hx, (Hat i x Hx).
  - rewrite (lookup_ge_None_2 acc) by lia. symmetry. apply lookup_ge_None_2. rewrite length_take. lia.
Qed.
End history.

Section exactly_once.
Context `{SolHash} `{SolCrypto} {W1 W2 : Type} `{!Outside W1} `{!Outside W2} (parent_gateway child_gateway : address).

(** C7.  Top-down messages are delivered exactly once and in order.  In every state a parent
    gateway can reach, also if accounts call back into it, the messages it has sent to a
    registered subnet are numbered 0, 1, 2, ... up to its nonce.  Take a child that starts with
    its counter at 0, is sent batches of these messages, in any order and also more than once,
    and sends nothing down itself (which would move the same counter).  When the messages come
    from outside the subnet, those that the child has accepted are always the first ones of
    the log, in the order of the log and each once, as many as its counter says.  If it can still
    count the others, then applying those in order accepts them all, and from then on every
    message of the log is refused. *)
Theorem topdown_delivered_once script depth c limit vs s0 b w (p : Gw W1) n x :
  let step := gw_step (Callback0 := callback_at parent_gateway script depth) parent_gateway in
  (∀ n1 n2, hash_subnet n1 = hash_subnet n2 → n1 = n2) →
  gateway_constructor c limit vs = Ok s0 → rtc step (mkGw s0 b [] w) p → getSubnet (st p) n = (true, x) →
  ∃ l, l `suffix_of` sent_to (getActor n) p ∧ nonce <$> l = seqZ 0 (topDownNonce x) ∧
    ∀ (g0 g : Gw W2) acc, Forall (routed n) l → networkName (config (st g0)) = n → root n ≠ 0 → appliedTopDownNonce (st g0) = 0 →
      let parent := networkName (config (st p)) in
      let run := child_run child_gateway parent (λ y, y ∈ l) g0 in
      run acc g →
      0 <= appliedTopDownNonce (st g) <= topDownNonce x ∧ acc = take (Z.to_nat (appliedTopDownNonce (st g))) l ∧
      ∀ block, ready n (topDownNonce x - appliedTopDownNonce (st g)) g →
      let due := drop (Z.to_nat (appliedTopDownNonce (st g))) l in
      ∃ g', applyMessages child_gateway block parent due g = Ok (g', ()) ∧ run l g' ∧
        appliedTopDownNonce (st g') = topDownNonce x ∧ ∀ y, y ∈ l → refuses parent y g'.
Proof.
  intros step Hinj Hs0 Hrun Hx%getSubnet_found.
  destruct (reachable_log parent_gateway (Callback0 := callback_at parent_gateway script depth) Hinj (λ t d v g, callback_at_logs parent_gateway script depth t d v g Hinj)
    c limit vs s0 b w p Hs0 Hrun _ _ Hx) as (Hk & _ & Hpos & old & l & Hold & Hl).
  apply Hinj in Hk. rewrite Hk in Hold. exists l. split; [by exists old|]. split; [done|].
  intros g0 g acc Hrt Hme Hroot H0' parent run Hacc.
  assert (Hlen : Z.of_nat (List.length l) = topDownNonce x).
  { apply (f_equal List.length) in Hl. rewrite length_fmap, length_seqZ in Hl. lia. }
  rewrite <- Hlen in *. rewrite Forall_forall in Hrt.
  destruct (child_run_numbers child_gateway parent _ n g0 acc g Hacc Hme Hroot Hrt) as (Hc & Ha & Hn & Hin). rewrite H0' in *.
  destruct (numbered_prefix l acc Hl Hn Hin) as [Hpre Hle]. rewrite Ha, Z.add_0_l, Nat2Z.id. split; [lia|]. split; [done|].
  intros block Hr due.
  assert (Hdl : Z.of_nat (List.length due) = Z.of_nat (List.length l) - Z.of_nat (List.length acc)) by (unfold due; rewrite length_drop; lia).
  assert (Hdr : Forall (routed n) due) by (apply Forall_forall; intros y Hy; apply Hrt; by eapply elem_of_dropped).
  destruct (applyMessages_delivers child_gateway Hinj block parent n due g) as [(g' & Hg' & Hag' & Hme') Hi]; [by rewrite Hdl|done| |].
  { rewrite Hdl. unfold due. rewrite fmap_drop, Hl, Ha, Z.add_0_l.
    replace (Z.of_nat (List.length l)) with (Z.of_nat (List.length acc) + (Z.of_nat (List.length l) - Z.of_nat (List.length acc))) at 1 by lia.
    rewrite seqZ_app by lia. rewrite drop_app_length' by (rewrite length_seqZ; lia). done. }
  destruct (accepted_numbers child_gateway block parent n due g g') as (_ & Ha2 & _ & _); [congruence|done..|].
  assert (Hrun' : run (acc ++ accepted child_gateway block parent due g) g').
  { eapply run_batch; [done| |done]. apply Forall_forall. intros y Hy. by eapply elem_of_dropped. }
  destruct (child_run_numbers child_gateway parent _ n g0 _ g' Hrun' Hme Hroot Hrt) as (_ & Ha3 & Hn3 & Hin3). rewrite H0' in *.
  destruct (numbered_prefix l _ Hl Hn3 Hin3) as [Hpre3 Hle3]. exists g'. split; [done|].
  assert (Hfull : appliedTopDownNonce (st g') = Z.of_nat (List.length l)) by lia. split; [|split; [done|]].
  - rewrite take_ge in Hpre3 by lia. by rewrite Hpre3 in Hrun'.
  - intros y Hy. eapply refuses_other; [done|by apply Hrt|].
    apply (list_elem_of_fmap_2 nonce) in Hy. rewrite Hl in Hy. apply elem_of_seqZ in Hy. lia.
Qed.
End exactly_once.

(** ** When the nonces of parent and child part *)

Section stuck.
Context `{SolHash} `{SolCrypto} {W : Type} `{Outside W} (this : address).
Implicit Types (g : Gw W) (me : SubnetID Z) (x y : IpcEnvelope).

(**  Every message that a gateway between two levels sends down, and every message that
    turns around in it, costs it a message of its parent: committing it moves the nonce
    expected from the parent on, so the parent's next message is refused. *)
Theorem send_down_skips_parent block x g g' burn me parent y :
  networkName (config (st g)) = me → goes_down me x = true → commitCrossMessage block x g = Ok (g', burn) →
  routed me y → nonce y = appliedTopDownNonce (st g) → refuses parent y g'.
Proof.
  intros Hme Hd Hc Hy Hn. apply commitCrossMessage_inv in Hc. rewrite Hme, Hd in Hc.
  destruct Hc as [(n & z & a & _ & _ & _ & _ & _ & ->)%commitTopDownMsg_inv _].
  eapply refuses_other; [exact Hme|done|]. cbn. lia.
Qed.
End stuck.

(** ** A checkpoint with one message *)

Section single.
Context `{SolHash} `{SolCrypto} {W : Type} `{Outside W} (this : address).

Definition spend (g : Gw W) (n : SubnetID Z) (y : Subnet) (v : Z) : Gw W :=
  mkGw (write_subnet (st g) n (set_circSupply y (circSupply y - v))) (balances g) (sent g) (outside g).
Lemma commitCheckpoint_single g g' me actor x block height y :
  networkName (config (st g)) = me → actor ≠ 0 → 1 <= maxMsgsPerBottomUpBatch (config (st g)) →
  getSubnet (st g) (createSubnetId me actor) = (true, y) → sub_id y = createSubnetId me actor →
  uint 256 (value x) → value x <= circSupply y →
  applyMsg this block (sub_id y) x (spend g (createSubnetId me actor) y (value x)) = Ok (g', ()) →
  commitCheckpoint this (mkMsg actor 0 block) (mkCheckpoint (createSubnetId me actor) height 0 0 [x]) g = Ok (g', ()).
Proof.
  intros Hme Ha0 Hmax Hy Hid Hv Hc Hx. unfold commitCheckpoint. cbn [cp_subnetID msg_sender cp_msgs block_number].
  unfold gbind, require, lift, get, actor_subnet. rewrite getActor_create, Z.eqb_refl. cbn [negb revert_if].
  rewrite Hme, (proj2 (Z.eqb_neq _ _) Ha0). cbn [mbind outcome_bind revert_if]. rewrite Hy. cbn [negb revert_if].
  rewrite Hid, equals_refl. cbn [negb revert_if List.length]. rewrite (proj2 (Z.ltb_ge _ _)) by (cbn; lia). cbn [negb revert_if].
  unfold execBottomUpMsgs, gbind, get, lift, require, put. cbn [fmap list_fmap checked_sum].
  rewrite Z.add_0_l, checked_Ok by done. cbn [mbind outcome_bind checked_sum]. rewrite Hy. cbn [snd].
  rewrite (proj2 (Z.ltb_ge _ _)) by lia. cbn [negb revert_if applyMessages]. unfold gbind, lift.
  unfold spend in Hx. by rewrite Hx.
Qed.
End single.

(** ** A subnet that blocks another one *)

Section sibling.
Context `{SolHash} `{SolCrypto} {W1 W2 : Type} `{!Outside W1} `{!Outside W2} (parent_gateway child_gateway : address).
Implicit Types (p : Gw W1) (me : SubnetID Z).

(** What the attacker puts in a checkpoint: a call between two networks below the victim. *)
Definition forged me (victim a1 a2 q : Z) : IpcEnvelope :=
  let n := createSubnetId me victim in
  mkEnvelope Call (mkIPCAddress (createSubnetId n a1) zero_fvm) (mkIPCAddress (createSubnetId n a2) zero_fvm) q 0 [1].
(** The answer the gateway sends to the victim. *)
Definition forged_receipt me (victim a1 a2 q k : Z) : IpcEnvelope :=
  set_nonce (createResultMsg (forged me victim a1 a2 q) SystemErr nonce_error) k.

Lemma common_below me v a1 a2 : (List.length (children me) <
  common_length (children (createSubnetId (createSubnetId me v) a1)) (children (createSubnetId (createSubnetId me v) a2)))%nat.
Proof.
  cbn. rewrite <- !app_assoc, common_length_app_both. cbn. rewrite Z.eqb_refl. lia.
Qed.
(** Seen from above, a message between two networks below the victim goes down. *)
Lemma applyType_below me v a1 a2 x : subnetId (to x) = createSubnetId (createSubnetId me v) a1 →
  subnetId (from x) = createSubnetId (createSubnetId me v) a2 → applyType x me = TopDown.
Proof.
  intros Ht Hf. unfold applyType. rewrite Ht, Hf, equals_length; [done|]. rewrite !commonParent_length by done.
  pose proof (common_below me v a2 a1). cbn in *. rewrite <- !app_assoc in *. rewrite common_length_app. lia.
Qed.
Lemma sol_down_below me v a : sol_down (createSubnetId (createSubnetId me v) a) me = Ok (createSubnetId me v).
Proof.
  unfold sol_down, createSubnetId. cbn. rewrite Z.eqb_refl, !length_app. cbn.
  rewrite (proj2 (Nat.leb_gt _ _)) by lia. rewrite <- app_assoc at 1. rewrite common_length_sym, common_length_app.
  rewrite take_app_length'; [done|]. rewrite length_app. cbn. lia.
Qed.
(** Seen from the victim, it comes from below. *)
Lemma applyType_forged me v a1 a2 q k : a1 ≠ a2 → applyType (forged_receipt me v a1 a2 q k) (createSubnetId me v) = BottomUp.
Proof.
  intros Hne. unfold applyType, forged_receipt, forged. cbn [to from set_nonce createResultMsg subnetId].
  set (n := createSubnetId me v).
  assert (H1' : commonParent n (createSubnetId n a2) = n).
  { unfold commonParent. cbn. rewrite Z.eqb_refl, common_length_app. cbn. by rewrite take_ge by done. }
  assert (H2' : commonParent (createSubnetId n a1) (createSubnetId n a2) = n).
  { unfold commonParent. cbn. rewrite Z.eqb_refl, common_length_app_both. cbn. rewrite (proj2 (Z.eqb_neq _ _) Hne).
    unfold n. cbn. by rewrite take_app_length' by lia. }
  rewrite H1', H2', equals_refl. cbn. rewrite (length_app (_ ++ _)). cbn.
  case_match eqn:E; [done|]. apply Nat.ltb_ge in E. lia.
Qed.

Hypothesis hash_inj : ∀ n1 n2, hash_subnet n1 = hash_subnet n2 → n1 = n2.

Lemma isEmpty_create n a : isEmpty (createSubnetId n a) = false.
Proof. unfold isEmpty, createSubnetId. cbn. rewrite length_app. cbn. by rewrite Nat.add_comm. Qed.
Definition forged_checkpoint me (attacker victim a1 a2 q height : Z) : BottomUpCheckpoint :=
  mkCheckpoint (createSubnetId me attacker) height 0 0 [forged me victim a1 a2 q].

(** The parent gateway answers the forged message to the victim. *)
Lemma applyMsg_forged p me victim a1 a2 q block parent z src :
  networkName (config (st p)) = me → q ≠ appliedTopDownNonce (st p) → uint 64 (appliedTopDownNonce (st p) + 1) →
  getSubnet (st p) (createSubnetId me victim) = (true, z) → uint 64 (topDownNonce z + 1) → uint 256 (circSupply z) →
  out_supplySource (outside p) victim = Ok src →
  ∃ p', applyMsg parent_gateway block parent (forged me victim a1 a2 q) p = Ok (p', ()) ∧
    sent p' = sent p ++ [(victim, forged_receipt me victim a1 a2 q (topDownNonce z))].
Proof.
  intros Hme Hq Ha Hz Ht Hc Hs. unfold applyMsg. cbn [to forged subnetId]. rewrite isEmpty_create.
  assert (Hn : check_nonce parent (forged me victim a1 a2 q) p = Ok (p, inr nonce_error)).
  { unfold check_nonce, gbind, get, gret. rewrite Hme, (applyType_below me victim a1 a2) by done.
    by rewrite (proj2 (Z.eqb_neq _ _)) by (cbn; lia). }
  unfold gbind at 1. rewrite Hn. unfold sendReceipt. cbn [envelope_isEmpty kind forged message List.length Nat.eqb].
  set (r := createResultMsg (forged me victim a1 a2 q) SystemErr nonce_error).
  assert (Hr : applyType r me = TopDown) by (by apply (applyType_below me victim a2 a1)).
  unfold gbind at 1, commitCrossMessage, gbind at 1, get at 1. rewrite Hme.
  change (subnetId (to r)) with (createSubnetId (createSubnetId me victim) a2). rewrite isEmpty_create.
  rewrite equals_length by (cbn; rewrite !length_app; cbn; lia).
  unfold goes_down, rejected. rewrite Hr. change (subnetId (to r)) with (createSubnetId (createSubnetId me victim) a2).
  rewrite sol_down_below.
  unfold gbind, require, lift, gret, put, supplySource_of, lift. cbn [negb revert_if]. rewrite getActor_create, Hs.
  replace (bool_decide (kind r = Transfer)) with false by (symmetry; by apply bool_decide_eq_false). rewrite andb_false_r. cbn [negb revert_if].
  rewrite checked_Ok by done.
  erewrite commitTopDownMsg_ok; [|cbn; rewrite Hme; apply sol_down_below|exact Hz|cbn; by rewrite last_snoc|done|cbn; by rewrite Z.add_0_r].
  eexists. split; [reflexivity|done].
Qed.

(** C39.  Any registered subnet can cut another one off from its parent.  It puts a call between
    two networks below the victim, with a nonce out of turn, into a checkpoint: the parent
    answers with a receipt that takes the victim's next nonce.  The victim takes the receipt for
    a bottom-up message of a network it does not know and drops it without counting it.  As
    long as it sends nothing down itself, which would move its counter, it then accepts none of
    the later messages from its parent, in whatever batches they arrive. *)
Theorem sibling_blocks_topdown p me attacker victim a1 a2 q block height y z src :
  networkName (config (st p)) = me → attacker ≠ 0 → attacker ≠ victim → a1 ≠ a2 → 1 <= maxMsgsPerBottomUpBatch (config (st p)) →
  getSubnet (st p) (createSubnetId me attacker) = (true, y) → sub_id y = createSubnetId me attacker → 0 <= circSupply y →
  q ≠ appliedTopDownNonce (st p) → uint 64 (appliedTopDownNonce (st p) + 1) →
  getSubnet (st p) (createSubnetId me victim) = (true, z) → uint 64 (topDownNonce z + 1) → uint 256 (circSupply z) →
  out_supplySource (outside p) victim = Ok src →
  let r := forged_receipt me victim a1 a2 q (topDownNonce z) in
  (∃ p', commitCheckpoint parent_gateway (mkMsg attacker 0 block) (forged_checkpoint me attacker victim a1 a2 q height) p = Ok (p', ()) ∧
     sent p' = sent p ++ [(victim, r)]) ∧
  ∀ (g : Gw W2) block', networkName (config (st g)) = createSubnetId me victim → root me ≠ 0 →
    appliedTopDownNonce (st g) = topDownNonce z → (getSubnet (st g) me).1 = false →
    applyMsg child_gateway block' me r g = Ok (g, ()) ∧
    let later x := routed (createSubnetId me victim) x ∧ topDownNonce z < nonce x in
    ∀ acc g', child_run child_gateway me later g acc g' →
      acc = [] ∧ appliedTopDownNonce (st g') = topDownNonce z ∧ ∀ x, later x → refuses me x g'.
Proof.
  intros Hme Ha0 Hav Ha12 Hmax Hy Hid Hcy Hq Hap Hz Htd Hcz Hsrc r. split.
  - assert (Hne : hash_subnet (createSubnetId me attacker) ≠ hash_subnet (createSubnetId me victim)).
    { intros Heq%hash_inj. apply (f_equal getActor) in Heq. by rewrite !getActor_create in Heq. }
    destruct (applyMsg_forged (spend p (createSubnetId me attacker) y 0) me victim a1 a2 q block (sub_id y) z src)
      as (p' & Hp' & Hs'); try done.
    { unfold getSubnet in *. cbn. by rewrite lookup_insert_ne. }
    exists p'. split; [|done]. by eapply commitCheckpoint_single.
  - intros g block' Hg Hroot Hag Hreg. split.
    + assert (Hc : check_nonce me r g = Ok (g, inl None)).
      { unfold check_nonce, gbind, get, gret. rewrite Hg. unfold r. rewrite applyType_forged by done.
        destruct (getSubnet (st g) me) as [f w]. cbn in Hreg. by subst f. }
      unfold applyMsg. replace (isEmpty (subnetId (to r))) with false by (symmetry; apply isEmpty_create).
      unfold gbind. by rewrite Hc.
    + intros later acc g' Hr.
      destruct (child_run_numbers child_gateway me later (createSubnetId me victim) g acc g' Hr Hg Hroot) as (Hc & Ha & Hn & Hin); [by intros x []|].
      assert (acc = []) as ->.
      { destruct acc as [|x acc]; [done|]. apply Forall_cons in Hin as [[_ Hx] _]. rewrite seqZ_cons in Hn by (cbn; lia). injection Hn as Hn _. lia. }
      cbn in Ha. split; [done|]. split; [lia|]. intros x [Hx Hlt]. eapply refuses_other; [by rewrite Hc|done|lia].
Qed.
End sibling.

(** ** A subnet that runs on a token *)

Section token.
Context `{SolHash} `{SolCrypto} {W : Type} `{Outside W} (this : address).

(** A message that says it comes from the network it goes to. *)
Definition self_message (me : SubnetID Z) (receiver : address) (q v : Z) : IpcEnvelope :=
  mkEnvelope Result (mkIPCAddress me (fvm_from receiver)) (mkIPCAddress me zero_fvm) q v [1].

(**  The circulating supply of a subnet that runs on a token is counted in the token, but
    its checkpoints can spend it in native coins: a message that claims to come from the
    parent's own network is applied as a top-down message, for which the gateway pays in
    native coins, whatever the supply source of the subnet is.  These are the coins that
    back the collateral and the supply of the other subnets. *)
Theorem token_checkpoint_pays_native g me actor receiver v block height y ret w :
  networkName (config (st g)) = me → root me ≠ 0 → actor ≠ 0 → 1 <= maxMsgsPerBottomUpBatch (config (st g)) →
  getSubnet (st g) (createSubnetId me actor) = (true, y) → sub_id y = createSubnetId me actor →
  0 < v <= circSupply y → v < 2 ^ 256 → v <= get0 (balances g) this → this ≠ receiver →
  uint 160 receiver → normalize receiver = receiver → uint 64 (appliedTopDownNonce (st g) + 1) →
  let x := self_message me receiver (appliedTopDownNonce (st g)) v in
  out_call (outside g) receiver (abi_handle x) v = (true, ret, w) →
  ∃ g', commitCheckpoint this (mkMsg actor 0 block) (mkCheckpoint (createSubnetId me actor) height 0 0 [x]) g = Ok (g', ()) ∧
    get0 (balances g') this = get0 (balances g) this - v ∧ get0 (balances g') receiver = get0 (balances g) receiver + v.
Proof.
  intros Hme Hroot Ha0 Hmax Hy Hid Hv Hv256 Hb Hne Hrec Hnorm Hap x Hcall.
  set (g1 := spend g (createSubnetId me actor) y v).
  assert (Hc : check_nonce (sub_id y) x g1 = Ok (bump_applied g1, inl (Some native))).
  { unfold check_nonce, gbind, get, gret, lift, put. cbn [st g1 spend config write_subnet set_subnets]. rewrite Hme.
    replace (applyType x me) with TopDown.
    2: { unfold applyType. cbn [x self_message to from subnetId]. rewrite commonParent_self, equals_refl, Nat.ltb_irrefl. done. }
    cbn [appliedTopDownNonce nonce x self_message]. rewrite Z.eqb_refl. cbn [negb]. by rewrite checked_Ok. }
  destruct (move (balances g) this receiver v) as [b'| | |] eqn:Hmove;
    [|unfold move in Hmove; rewrite (proj2 (Z.ltb_ge _ _)) in Hmove by lia; done..].
  exists (mkGw (st (bump_applied g1)) b' (sent g) w). split.
  - eapply commitCheckpoint_single; try done; [unfold uint; cbn; lia|cbn; lia|]. change (value x) with v. fold g1.
    assert (He : executeCrossMsg this x native (bump_applied g1) = Ok (mkGw (st (bump_applied g1)) b' (sent g) w, (true, ret))).
    { unfold executeCrossMsg, execute, gbind, require, lift. change (envelope_isEmpty x) with false. cbn [negb revert_if].
      change (rawAddress (to x)) with (fvm_from receiver). change (kind x) with Result. change (value x) with v.
      rewrite evm_address_roundtrip, Hnorm by done. unfold performCall. rewrite (proj2 (Z.eqb_neq _ _)) by lia.
      cbn [supply_kind native]. unfold functionCallWithValue, callback, no_callback. change (balances (bump_applied g1)) with (balances g). rewrite Hmove.
      cbn [mbind outcome_bind outside]. change (outside (bump_applied g1)) with (outside g). by rewrite Hcall. }
    unfold applyMsg. change (subnetId (to x)) with me.
    replace (isEmpty me) with false by (unfold isEmpty; rewrite (proj2 (Z.eqb_neq _ _) Hroot); by rewrite andb_false_r).
    unfold gbind at 1. rewrite Hc. unfold gbind, get.
    change (networkName (config (st (bump_applied g1)))) with (networkName (config (st g))). rewrite Hme, equals_refl. cbn [negb].
    by rewrite He.
  - cbn [balances]. apply move_get0 in Hmove. by rewrite decide_False in Hmove.
Qed.
End token.

(** ** Examples

    Below the root [1] the subnets [7], which runs on a token, and [9] are registered. *)
#[local] Existing Instance example_hash.
#[local] Existing Instance toy_crypto.
#[local] Instance mixed_outside : Outside unit := example_outside {[7]}.
#[local] Instance example_ops : AddressOps Z :=
  {| addr_eq_dec := _; addr_new_id z := z; addr_to_string := u64_to_string; addr_from_str s := from_option inr (inl s) (parse_u64 s) |}.
Definition example_nine : SubnetID Z := mkSubnetID 1 [9].
Definition example_registrations : list gcall := [CRegister (mkMsg 7 100 1) 30; CRegister (mkMsg 9 100 1) 40].
Definition example_start : Gw unit :=
  mkGw (default (mkStorage (example_config example_root) 0 0 0 0 (mkMembership [] 0) (mkMembership [] 0) empty_quorums
          (mkTracker (empty_set Collateral 10) (mkLog 1 1 ∅)) ∅ ∅ ∅ ∅ ∅ ∅)
        match gateway_constructor (example_config example_root) 10 [] with Ok s => Some s | _ => None end)
    {[7 := 100; 9 := 100; 8 := 15]} [] ().
Definition example_child (n : SubnetID Z) : Gw unit :=
  mkGw (mkStorage (example_config n) 0 0 0 0 (mkMembership [] 0) (mkMembership [] 0) empty_quorums
          (mkTracker (empty_set Collateral 10) (mkLog 1 1 ∅)) ∅ ∅ ∅ ∅ ∅ ∅) {[500 := 15]} [] ().
Definition after (cs : list gcall) (g : Gw unit) : Gw unit := match run_gcalls 500 cs g with Ok (g', _) => g' | _ => g end.

Lemma routing_agrees_witness :
  sol_down (mkSubnetID 1 [7; 9; 3]) (mkSubnetID 1 [7; 8]) = Ok (mkSubnetID 1 [7; 9]) ∧
  down (E := SolError) (mkSubnetID 1 [7; 9; 3]) (mkSubnetID 1 [7; 8]) = Ok (Some (mkSubnetID 1 [7; 9])).
Proof.
  split; [by vm_compute|].
  apply (proj1 (routing_agrees (mkSubnetID 1 [7; 9; 3]) (mkSubnetID 1 [7; 8]) (self_message example_root 3 0 0) example_root 0 0
    example_hash_inj eq_refl ltac:(cbn; lia) eq_refl eq_refl)). by vm_compute.
Defined.

Definition example_funds : list gcall :=
  [CFund (mkMsg 8 10 2) example_nine (fvm_from 8); CFund (mkMsg 8 5 3) example_nine (fvm_from 4)].
Lemma topdown_delivered_once_witness :
  ∃ x l g', getSubnet (st (after (example_registrations ++ example_funds) example_start)) example_nine = (true, x) ∧
    topDownNonce x = 2 ∧ nonce <$> l = [0; 1] ∧
    applyMessages 500 4 example_root l (example_child example_nine) = Ok (g', ()) ∧ appliedTopDownNonce (st g') = 2.
Proof.
  set (p := after (example_registrations ++ example_funds) example_start).
  destruct (getSubnet (st p) example_nine) as [f x] eqn:Hx.
  assert (f = true ∧ topDownNonce x = 2) as [-> Ht] by (vm_compute in Hx; by simplify_eq).
  destruct (gateway_constructor (example_config example_root) 10 []) as [s0| | |] eqn:Hs0; [|discriminate Hs0..].
  assert (Hrun : rtc (gw_step 500) (mkGw s0 {[7 := 100; 9 := 100; 8 := 15]} [] ()) p).
  { apply (run_gcalls_rtc 500 (example_registrations ++ example_funds)); [repeat constructor; cbn; lia|].
    vm_compute in Hs0. injection Hs0 as <-. by vm_compute. }
  destruct (topdown_delivered_once 500 500 (λ _ _ _ _ _, []) 0 _ _ _ _ _ _ p example_nine x example_hash_inj Hs0 Hrun Hx) as (l & Hl & Hn & Hd).
  rewrite Ht in *.
  destruct (Hd (example_child example_nine) (example_child example_nine) []) as (_ & _ & Hdel).
  - destruct Hl as [k Hl]. assert (Hall : Forall (routed example_nine) (sent_to (getActor example_nine) p)).
    { vm_compute. repeat constructor; (reflexivity || (exists []; reflexivity)). }
    rewrite Hl in Hall. by apply Forall_app in Hall as [_ ?].
  - reflexivity.
  - by vm_compute.
  - reflexivity.
  - apply run_none.
  - destruct (Hdel 4) as (g' & Hg' & _ & Ha & _); [unfold ready, period_ok; cbn; split_and!; first [lia|reflexivity]|].
    exists x, l, g'. change (Z.to_nat (appliedTopDownNonce (st (example_child example_nine)))) with 0%nat in Hg'.
    rewrite drop_0 in Hg'. split_and!; [reflexivity|exact Ht|exact Hn|exact Hg'|exact Ha].
Defined.

(** The network [/1/9] with a subnet [3] of its own sends a message down to it; then it
    refuses the first message of its parent. *)
Definition example_middle : Gw unit := after [CRegister (mkMsg 3 10 1) 4] (mkGw (st (example_child example_nine)) {[3 := 10]} [] ()).
Definition example_down : IpcEnvelope :=
  mkEnvelope Call (mkIPCAddress (mkSubnetID 1 [9; 3]) (fvm_from 8)) (mkIPCAddress example_nine (fvm_from 8)) 0 0 [1].
Definition example_from_parent : IpcEnvelope :=
  mkEnvelope Transfer (mkIPCAddress example_nine (fvm_from 8)) (mkIPCAddress example_root (fvm_from 8)) 0 5 [].
Lemma send_down_skips_parent_witness :
  appliedTopDownNonce (st example_middle) = 0 ∧ nonce example_from_parent = 0 ∧
  ∃ g' burn, commitCrossMessage 4 example_down example_middle = Ok (g', burn) ∧ refuses example_root example_from_parent g'.
Proof.
  split; [reflexivity|]. split; [reflexivity|].
  destruct (commitCrossMessage 4 example_down example_middle) as [[g' burn]| | |] eqn:Hc; [|discriminate Hc..].
  exists g', burn. split; [reflexivity|].
  apply (send_down_skips_parent 4 example_down example_middle g' burn example_nine); [reflexivity|reflexivity|exact Hc| |reflexivity].
  split; [reflexivity|]. split; [by exists []|]. split; [reflexivity|]. cbn. lia.
Defined.

Definition example_registered : Gw unit := after example_registrations example_start.
Lemma sibling_blocks_topdown_witness :
  ∃ z r g, getSubnet (st example_registered) example_nine = (true, z) ∧
    (∃ p', commitCheckpoint 500 (mkMsg 7 0 20) (forged_checkpoint example_root 7 9 1 2 5 10) example_registered = Ok (p', ()) ∧
       sent p' = [(9, r)]) ∧
    networkName (config (st g)) = example_nine ∧ applyMsg 500 21 example_root r g = Ok (g, ()).
Proof.
  destruct (getSubnet (st example_registered) (createSubnetId example_root 7)) as [f y] eqn:Hy.
  assert (f = true ∧ sub_id y = createSubnetId example_root 7 ∧ circSupply y = 30) as (-> & Hid & Hc) by (vm_compute in Hy; by simplify_eq).
  destruct (getSubnet (st example_registered) (createSubnetId example_root 9)) as [f z] eqn:Hz.
  assert (f = true ∧ topDownNonce z = 0 ∧ circSupply z = 40) as (-> & Ht & Hcz) by (vm_compute in Hz; by simplify_eq).
  edestruct (sibling_blocks_topdown (W1 := unit) (W2 := unit) 500 500 example_hash_inj example_registered example_root 7 9 1 2 5 20 10 y z)
    as [(p' & Hp' & Hs') Hv]; try lia; try reflexivity; try eassumption.
  1,2: vm_compute; intros ?; discriminate.
  1-3: rewrite ?Ht, ?Hcz; vm_compute; split; first [reflexivity|discriminate].
  exists z, (forged_receipt example_root 9 1 2 5 (topDownNonce z)), (example_child example_nine).
  destruct (Hv (example_child example_nine) 21) as [Ha _]; [reflexivity|done|by rewrite Ht|reflexivity|].
  split; [exact Hz|]. split; [|split; [reflexivity|exact Ha]]. exists p'. split; [exact Hp'|exact Hs'].
Defined.

(** The token subnet [7] spends its supply in native coins. *)
Lemma token_checkpoint_pays_native_witness :
  ∃ src g', out_supplySource () 7 = Ok src ∧ supply_kind src = ERC20 ∧
    commitCheckpoint 500 (mkMsg 7 0 20) (mkCheckpoint (createSubnetId example_root 7) 10 0 0 [self_message example_root 8 0 30])
      example_registered = Ok (g', ()) ∧
    get0 (balances example_registered) 500 = 200 ∧ get0 (balances g') 500 = 170.
Proof.
  destruct (getSubnet (st example_registered) (createSubnetId example_root 7)) as [f y] eqn:Hy.
  assert (f = true ∧ sub_id y = createSubnetId example_root 7 ∧ circSupply y = 30) as (-> & Hid & Hc) by (vm_compute in Hy; by simplify_eq).
  assert (Hb : get0 (balances example_registered) 500 = 200) by reflexivity.
  edestruct (token_checkpoint_pays_native 500 example_registered example_root 7 8 30 20 10 y) as (g' & Hg' & Hb' & _);
    try lia; try reflexivity; try eassumption.
  1,2: vm_compute; discriminate.
  1,2: vm_compute; split; first [reflexivity|discriminate].
  exists (mkSupply ERC20 7), g'. split; [reflexivity|]. split; [reflexivity|]. split; [exact Hg'|]. split; [exact Hb|]. lia.
Defined.
