(* ===== verification/SubnetActor.v ===== *)
(** * The subnet actor: the contract of a subnet on its parent
    ([contracts/src/subnet/*Facet.sol], [lib/LibSubnetActor.sol], [lib/LibStaking.sol],
    [SubnetActorDiamond.sol], [lib/LibPausable.sol])

    Validators join a subnet through its actor.  Until the subnet is bootstrapped the actor
    holds their collateral and confirms it at once; bootstrapping registers the subnet in
    the gateway of the parent with the collateral and the pre-funded supply.  From then on
    changes of the validator set are requested, numbered and logged ([requests] is the log
    of [NewStakingChangeRequest]), and confirmed when a checkpoint of the subnet says that
    the subnet has applied them.

    [Sa] is the storage of the actor together with the gateway and the chain of
    [GatewayActor]; the calls between the two contracts are calls between the two models. *)

From Stdlib Require Import Ascii String.
From stdpp Require Import base tactics numbers list gmap strings.
From Stdlib Require Import Lia FunctionalExtensionality.
From S2P Require Import Prelude IpcApi Sol PrioQueue Staking Quorum GatewayActor GatewayFunds GatewayMessages.

Open Scope Z_scope.

(** Accounts that are called do not call back. *)
#[local] Existing Instance no_callback.

(** What the constructor sets once and for all. *)
Record Params := mkParams {
  minActivationCollateral : Z;
  minValidators : Z;
  sa_bottomUpCheckPeriod : Z;
  ipcGatewayAddr : address;
  activeValidatorsLimit : Z;
  sa_majorityPercentage : Z;
  powerScale : Z;
  sa_permissionMode : PermissionMode;
  supplySource : SupplySource;
  parentId : SubnetID Z;
  sa_maxMsgsPerBottomUpBatch : Z;
  owner : address;
}.
Record SubnetActorStorage := mkSubnetStorage {
  params : Params;
  genesisCircSupply : Z;
  lastBottomUpCheckpointHeight : Z;
  bootstrapped : bool;
  killed : bool;
  paused : bool;
  validatorSet : ValidatorSet;
  changeSet : StakingChangeLog;
  releaseQueue : StakingReleaseQueue;
  bootstrapNodes : gmap Z string;
  bootstrapOwners : gset Z;
  committedCheckpoints : gmap Z BottomUpCheckpoint;
  genesisValidators : list Validator;
  genesisBalance : gmap Z Z;
  genesisBalanceKeys : list address;
}.
Implicit Types (s : SubnetActorStorage).
Definition set_genesisCircSupply s (x : Z) : SubnetActorStorage :=
  mkSubnetStorage (params s) x (lastBottomUpCheckpointHeight s) (bootstrapped s) (killed s) (paused s)
    (validatorSet s) (changeSet s) (releaseQueue s) (bootstrapNodes s) (bootstrapOwners s) (committedCheckpoints
    s) (genesisValidators s) (genesisBalance s) (genesisBalanceKeys s).
Definition set_lastBottomUpCheckpointHeight s (x : Z) : SubnetActorStorage :=
  mkSubnetStorage (params s) (genesisCircSupply s) x (bootstrapped s) (killed s) (paused s) (validatorSet s)
    (changeSet s) (releaseQueue s) (bootstrapNodes s) (bootstrapOwners s) (committedCheckpoints s)
    (genesisValidators s) (genesisBalance s) (genesisBalanceKeys s).
Definition set_bootstrapped s (x : bool) : SubnetActorStorage :=
  mkSubnetStorage (params s) (genesisCircSupply s) (lastBottomUpCheckpointHeight s) x (killed s) (paused s)
    (validatorSet s) (changeSet s) (releaseQueue s) (bootstrapNodes s) (bootstrapOwners s) (committedCheckpoints
    s) (genesisValidators s) (genesisBalance s) (genesisBalanceKeys s).
Definition set_killed s (x : bool) : SubnetActorStorage :=
  mkSubnetStorage (params s) (genesisCircSupply s) (lastBottomUpCheckpointHeight s) (bootstrapped s) x (paused
    s) (validatorSet s) (changeSet s) (releaseQueue s) (bootstrapNodes s) (bootstrapOwners s)
    (committedCheckpoints s) (genesisValidators s) (genesisBalance s) (genesisBalanceKeys s).
Definition set_paused s (x : bool) : SubnetActorStorage :=
  mkSubnetStorage (params s) (genesisCircSupply s) (lastBottomUpCheckpointHeight s) (bootstrapped s) (killed s)
    x (validatorSet s) (changeSet s) (releaseQueue s) (bootstrapNodes s) (bootstrapOwners s)
    (committedCheckpoints s) (genesisValidators s) (genesisBalance s) (genesisBalanceKeys s).
Definition set_validatorSet s (x : ValidatorSet) : SubnetActorStorage :=
  mkSubnetStorage (params s) (genesisCircSupply s) (lastBottomUpCheckpointHeight s) (bootstrapped s) (killed s)
    (paused s) x (changeSet s) (releaseQueue s) (bootstrapNodes s) (bootstrapOwners s) (committedCheckpoints s)
    (genesisValidators s) (genesisBalance s) (genesisBalanceKeys s).
Definition set_changeSet s (x : StakingChangeLog) : SubnetActorStorage :=
  mkSubnetStorage (params s) (genesisCircSupply s) (lastBottomUpCheckpointHeight s) (bootstrapped s) (killed s)
    (paused s) (validatorSet s) x (releaseQueue s) (bootstrapNodes s) (bootstrapOwners s) (committedCheckpoints
    s) (genesisValidators s) (genesisBalance s) (genesisBalanceKeys s).
Definition set_releaseQueue s (x : StakingReleaseQueue) : SubnetActorStorage :=
  mkSubnetStorage (params s) (genesisCircSupply s) (lastBottomUpCheckpointHeight s) (bootstrapped s) (killed s)
    (paused s) (validatorSet s) (changeSet s) x (bootstrapNodes s) (bootstrapOwners s) (committedCheckpoints s)
    (genesisValidators s) (genesisBalance s) (genesisBalanceKeys s).
Definition set_bootstrapNodes s (x : gmap Z string) : SubnetActorStorage :=
  mkSubnetStorage (params s) (genesisCircSupply s) (lastBottomUpCheckpointHeight s) (bootstrapped s) (killed s)
    (paused s) (validatorSet s) (changeSet s) (releaseQueue s) x (bootstrapOwners s) (committedCheckpoints s)
    (genesisValidators s) (genesisBalance s) (genesisBalanceKeys s).
Definition set_bootstrapOwners s (x : gset Z) : SubnetActorStorage :=
  mkSubnetStorage (params s) (genesisCircSupply s) (lastBottomUpCheckpointHeight s) (bootstrapped s) (killed s)
    (paused s) (validatorSet s) (changeSet s) (releaseQueue s) (bootstrapNodes s) x (committedCheckpoints s)
    (genesisValidators s) (genesisBalance s) (genesisBalanceKeys s).
Definition set_committedCheckpoints s (x : gmap Z BottomUpCheckpoint) : SubnetActorStorage :=
  mkSubnetStorage (params s) (genesisCircSupply s) (lastBottomUpCheckpointHeight s) (bootstrapped s) (killed s)
    (paused s) (validatorSet s) (changeSet s) (releaseQueue s) (bootstrapNodes s) (bootstrapOwners s) x
    (genesisValidators s) (genesisBalance s) (genesisBalanceKeys s).
Definition set_genesisValidators s (x : list Validator) : SubnetActorStorage :=
  mkSubnetStorage (params s) (genesisCircSupply s) (lastBottomUpCheckpointHeight s) (bootstrapped s) (killed s)
    (paused s) (validatorSet s) (changeSet s) (releaseQueue s) (bootstrapNodes s) (bootstrapOwners s)
    (committedCheckpoints s) x (genesisBalance s) (genesisBalanceKeys s).
Definition set_genesisBalance s (x : gmap Z Z) : SubnetActorStorage :=
  mkSubnetStorage (params s) (genesisCircSupply s) (lastBottomUpCheckpointHeight s) (bootstrapped s) (killed s)
    (paused s) (validatorSet s) (changeSet s) (releaseQueue s) (bootstrapNodes s) (bootstrapOwners s)
    (committedCheckpoints s) (genesisValidators s) x (genesisBalanceKeys s).
Definition set_genesisBalanceKeys s (x : list address) : SubnetActorStorage :=
  mkSubnetStorage (params s) (genesisCircSupply s) (lastBottomUpCheckpointHeight s) (bootstrapped s) (killed s)
    (paused s) (validatorSet s) (changeSet s) (releaseQueue s) (bootstrapNodes s) (bootstrapOwners s)
    (committedCheckpoints s) (genesisValidators s) (genesisBalance s) x.

Record Sa (W : Type) := mkSa { sa : SubnetActorStorage; gw : Gw W; requests : list StakingChangeRequest }.
Arguments mkSa {W} _ _ _.
Arguments sa {W} _.
Arguments gw {W} _.
Arguments requests {W} _.
Notation SM W A := (ST (Sa W) A).
Definition sget {W} : SM W SubnetActorStorage := λ x, Ok (x, sa x).
Definition sput {W} s : SM W unit := λ x, Ok (mkSa s (gw x) (requests x), ()).
(** A call of another contract, or of a library that only touches the chain. *)
Definition outer {W A} (c : GM W A) : SM W A := λ x,
  match c (gw x) with
  | Ok (g, a) => Ok (mkSa (sa x) g (requests x), a)
  | Err e => Err e | Retry => Retry | Panic => Panic
  end.
Definition emit {W} (r : StakingChangeRequest) : SM W unit := λ x, Ok (mkSa (sa x) (gw x) (requests x ++ [r]), ()).

(** The address of a public key: the hash of its coordinates. *)
Class SolKeys := { key_address : bytes → address }.

Section subnet_actor.
Context `{SolHash} `{SolCrypto} `{SolKeys} {W : Type} `{Outside W} (this : address).
Implicit Types (m : Msg).

(** ** Guards *)

Definition notKilled : SM W unit := let* s := sget in require (negb (killed s)) SubnetAlreadyKilled.
Definition whenNotPaused : SM W unit := let* s := sget in require (negb (paused s)) EnforcedPause.
Definition enforceIsContractOwner m : SM W unit := let* s := sget in require (msg_sender m =? owner (params s)) NotOwner.
Definition enforceCollateralValidation : SM W unit :=
  let* s := sget in
  require (bool_decide (permissionMode (validatorSet s) = Collateral))
    (MethodNotAllowed "Method not allowed if permissioned is enabled and subnet bootstrapped").
Definition enforceFederatedValidation : SM W unit :=
  let* s := sget in
  require (bool_decide (permissionMode (validatorSet s) = Federated))
    (MethodNotAllowed "Method not allowed if permissioned is enabled and subnet bootstrapped").
Definition isValidator s (a : address) : bool := negb (totalCollateral (info (validatorSet s) a) =? 0).
Definition totalValidatorCollateral s (a : address) : Z := totalCollateral (info (validatorSet s) a).
Definition totalActiveValidators s : Z := size (activeValidators (validatorSet s)).
Definition totalValidators s : result Z :=
  checked 16 (size (waitingValidators (validatorSet s)) + size (activeValidators (validatorSet s))).
Definition publicKeyToAddress (publicKey : bytes) : result address :=
  _ ← revert_if (negb (List.length publicKey =? 65)%nat) AssertFailed; Ok (key_address (drop 1 publicKey)).

(** The messages the actor sends to the gateway. *)
Definition to_gateway m (v : Z) : Msg := mkMsg this v (block_number m).

(** ** Staking ([LibStaking]) *)

(** Before the bootstrap: confirmed at once. *)
Definition depositWithConfirm (a : address) (amount : Z) : SM W unit :=
  let* s := sget in
  let* v := lift (recordDeposit (validatorSet s) a amount) in
  let* v := lift (confirmDeposit v a amount) in
  let s := set_validatorSet s v in
  if negb (bootstrapped s) && negb (existsb (λ g, addr g =? a) (genesisValidators s))
  then sput (set_genesisValidators s (genesisValidators s ++ [mkValidator (confirmedCollateral (info v a)) a (metadata (info v a))]))
  else sput s.
Definition withdrawWithConfirm (a : address) (amount : Z) : SM W unit :=
  let* s := sget in
  let* v := lift (recordWithdraw (validatorSet s) a amount) in
  let* v := lift (confirmWithdraw v a amount) in
  do* sput (set_validatorSet s v);
  outer (sendValue this a amount).
Definition setMetadataWithConfirm (a : address) (metadata : bytes) : SM W unit :=
  let* s := sget in sput (set_validatorSet s (setMetadata (validatorSet s) a metadata)).
Definition setFederatedPowerWithConfirm (a : address) (power : Z) : SM W unit :=
  let* s := sget in
  let* v := lift (confirmFederatedPower (validatorSet s) a power) in sput (set_validatorSet s v).

(** After it: requested. *)
Definition request_change (f : StakingChangeLog → result (StakingChangeLog * StakingChangeRequest)) : SM W unit :=
  let* s := sget in
  let* r := lift (f (changeSet s)) in
  do* sput (set_changeSet s r.1); emit r.2.
Definition setFederatedPower_request (a : address) (metadata : bytes) (power : Z) : SM W unit :=
  request_change (λ l, federatedPowerRequest l a metadata power).
Definition setValidatorMetadata (a : address) (metadata : bytes) : SM W unit :=
  request_change (λ l, metadataRequest l a metadata).
Definition deposit (a : address) (amount : Z) : SM W unit :=
  do* request_change (λ l, depositRequest l a amount);
  let* s := sget in
  let* v := lift (recordDeposit (validatorSet s) a amount) in sput (set_validatorSet s v).
Definition withdraw (a : address) (amount : Z) : SM W unit :=
  do* request_change (λ l, withdrawRequest l a amount);
  let* s := sget in
  let* v := lift (recordWithdraw (validatorSet s) a amount) in sput (set_validatorSet s v).
Definition claimCollateral m (a : address) : SM W unit :=
  let* s := sget in
  let* r := lift (claim (block_number m) (releaseQueue s) a) in
  do* sput (set_releaseQueue s r.2);
  outer (sendValue this a r.1).

Definition confirm_one m (change : StakingChange) : SM W unit :=
  let a := validator change in
  let* s := sget in
  match op change with
  | SetMetadata => sput (set_validatorSet s (setMetadata (validatorSet s) a (payload change)))
  | SetFederatedPower =>
      let* p := lift (decode_power (payload change)) in
      let* v := lift (confirmFederatedPower (setMetadata (validatorSet s) a p.1) a p.2) in
      sput (set_validatorSet s v)
  | Withdraw =>
      let* amount := lift (decode_amount (payload change)) in
      let* v := lift (confirmWithdraw (validatorSet s) a amount) in
      let* q := lift (addNewRelease (block_number m) (releaseQueue s) a amount) in
      do* sput (set_releaseQueue (set_validatorSet s v) q);
      outer (releaseStake (ipcGatewayAddr (params s)) (to_gateway m 0) amount)
  | Deposit =>
      let* amount := lift (decode_amount (payload change)) in
      let* v := lift (confirmDeposit (validatorSet s) a amount) in
      do* sput (set_validatorSet s v);
      outer (addStake (ipcGatewayAddr (params s)) (to_gateway m amount))
  end.
(** [n] changes from [i]. *)
Fixpoint confirm_loop m (n : nat) (i : Z) : SM W unit :=
  match n with
  | O => gret ()
  | S n =>
      let* s := sget in
      do* confirm_one m (getChange (changeSet s) i);
      let* s := sget in
      do* sput (set_changeSet s (purgeChange (changeSet s) i));
      confirm_loop m n (truncate 64 (i + 1))
  end.
Definition confirmChange m (configurationNumber : Z) : SM W unit :=
  let* s := sget in
  let start := startConfigurationNumber (changeSet s) in
  do* require (negb (nextConfigurationNumber (changeSet s) <=? configurationNumber)) CannotConfirmFutureChanges;
  if configurationNumber <? start then gret ()
  else
    do* confirm_loop m (Z.to_nat (configurationNumber - start + 1)) start;
    let* s := sget in
    let* next := lift (checked 64 (configurationNumber + 1)) in
    sput (set_changeSet s (set_start (changeSet s) next)).

(** ** Bootstrapping ([LibSubnetActor]) *)

Definition bootstrapSubnetIfNeeded m : SM W unit :=
  let* s := sget in
  let total := totalConfirmedCollateral (validatorSet s) in
  if (minActivationCollateral (params s) <=? total) && (minValidators (params s) <=? totalActiveValidators s) then
    do* sput (set_bootstrapped s true);
    let* v := lift (checked 256 (total + genesisCircSupply s)) in
    outer (register (ipcGatewayAddr (params s)) (to_gateway m v) (genesisCircSupply s))
  else gret ().
Fixpoint genesis_powers (l : list (address * bytes * Z)) : SM W unit :=
  match l with
  | [] => gret ()
  | (a, publicKey, power) :: l =>
      let* converted := lift (publicKeyToAddress publicKey) in
      do* require (converted =? a) NotOwnerOfPublicKey;
      let* s := sget in
      do* require (negb (0 <? validator_power (validatorSet s) a)) DuplicatedGenesisValidator;
      do* setMetadataWithConfirm a publicKey;
      do* setFederatedPowerWithConfirm a power;
      let* s := sget in
      do* sput (set_genesisValidators s (genesisValidators s ++ [mkValidator power a publicKey]));
      genesis_powers l
  end.
Definition preBootstrapSetFederatedPower m (l : list (address * bytes * Z)) : SM W unit :=
  let* s := sget in
  do* require (negb (Z.of_nat (List.length l) <=? minValidators (params s))) NotEnoughGenesisValidators;
  do* genesis_powers l;
  let* s := sget in
  do* sput (set_bootstrapped s true);
  outer (register (ipcGatewayAddr (params s)) (to_gateway m (genesisCircSupply s)) (genesisCircSupply s)).
Fixpoint postBootstrapSetFederatedPower (l : list (address * bytes * Z)) : SM W unit :=
  match l with
  | [] => gret ()
  | (a, publicKey, power) :: l =>
      let* converted := lift (publicKeyToAddress publicKey) in
      do* require (converted =? a) NotOwnerOfPublicKey;
      do* setFederatedPower_request a publicKey power;
      postBootstrapSetFederatedPower l
  end.
(** The first [addr] is overwritten by the last key, which is dropped. *)
Definition rmAddressFromBalanceKey (keys : list address) (a : address) : list address :=
  match list_find (λ x, x = a) keys with
  | Some (i, _) => take (List.length keys - 1) (<[i := default 0 (last keys)]> keys)
  | None => keys
  end.

(** ** [SubnetActorManagerFacet] *)

Definition preFund m : SM W unit :=
  do* outer (receive this m);
  do* require (negb (msg_value m =? 0)) NotEnoughFunds;
  let* s := sget in
  do* require (negb (bootstrapped s)) SubnetAlreadyBootstrapped;
  let a := msg_sender m in
  let s := if get0 (genesisBalance s) a =? 0 then set_genesisBalanceKeys s (genesisBalanceKeys s ++ [a]) else s in
  let* b := lift (checked 256 (get0 (genesisBalance s) a + msg_value m)) in
  let* supply := lift (checked 256 (genesisCircSupply s + msg_value m)) in
  sput (set_genesisCircSupply (set_genesisBalance s (<[a := b]> (genesisBalance s))) supply).
Definition preRelease m (amount : Z) : SM W unit :=
  do* require (negb (amount =? 0)) NotEnoughFunds;
  let* s := sget in
  do* require (negb (bootstrapped s)) SubnetAlreadyBootstrapped;
  let a := msg_sender m in
  do* require (negb (get0 (genesisBalance s) a <? amount)) NotEnoughBalance;
  let b := get0 (genesisBalance s) a - amount in
  let s := set_genesisBalance s (<[a := b]> (genesisBalance s)) in
  let* supply := lift (checked 256 (genesisCircSupply s - amount)) in
  let s := set_genesisCircSupply s supply in
  do* sput (if b =? 0 then set_genesisBalanceKeys s (rmAddressFromBalanceKey (genesisBalanceKeys s) a) else s);
  outer (sendValue this a amount).
Definition setFederatedPower m (validators : list address) (publicKeys : list bytes) (powers : list Z) : SM W unit :=
  do* notKilled;
  do* enforceIsContractOwner m;
  do* enforceFederatedValidation;
  do* require (List.length validators =? List.length powers)%nat InvalidFederationPayload;
  do* require (List.length validators =? List.length publicKeys)%nat InvalidFederationPayload;
  let* s := sget in
  let l := zip (zip validators publicKeys) powers in
  if bootstrapped s then postBootstrapSetFederatedPower l else preBootstrapSetFederatedPower m l.
Definition join m (publicKey : bytes) : SM W unit :=
  do* outer (receive this m);
  do* whenNotPaused;
  do* notKilled;
  let* s := sget in
  do* (if bootstrapped s then enforceCollateralValidation else gret ());
  do* require (negb (msg_value m =? 0)) CollateralIsZero;
  let a := msg_sender m in
  do* require (negb (isValidator s a)) (MethodNotAllowed "Method not allowed if validator has already joined");
  do* require (List.length publicKey =? 65)%nat InvalidPublicKeyLength;
  let* converted := lift (publicKeyToAddress publicKey) in
  do* require (converted =? a) NotOwnerOfPublicKey;
  if bootstrapped s then
    do* setValidatorMetadata a publicKey;
    deposit a (msg_value m)
  else
    do* setMetadataWithConfirm a publicKey;
    do* depositWithConfirm a (msg_value m);
    bootstrapSubnetIfNeeded m.
Definition sa_stake m : SM W unit :=
  do* outer (receive this m);
  do* whenNotPaused;
  do* notKilled;
  do* enforceCollateralValidation;
  do* require (negb (msg_value m =? 0)) CollateralIsZero;
  let* s := sget in
  let a := msg_sender m in
  do* require (isValidator s a) (MethodNotAllowed "Method not allowed if validator has not joined");
  if bootstrapped s then deposit a (msg_value m)
  else
    do* depositWithConfirm a (msg_value m);
    bootstrapSubnetIfNeeded m.
Definition unstake m (amount : Z) : SM W unit :=
  do* whenNotPaused;
  do* notKilled;
  do* enforceCollateralValidation;
  do* require (negb (amount =? 0)) CannotReleaseZero;
  let* s := sget in
  let a := msg_sender m in
  let collateral := totalValidatorCollateral s a in
  do* require (negb (collateral =? 0)) (NotValidator a);
  do* require (negb (collateral <=? amount)) NotEnoughCollateral;
  if bootstrapped s then withdraw a amount else withdrawWithConfirm a amount.
(** What [leave] does with the pre-funds of the validator: the assignment to
    [genesisBalance] in the source is a comparison, so the balance stays. *)
Definition return_prefund m : SM W unit :=
  let* s := sget in
  let a := msg_sender m in
  let b := get0 (genesisBalance s) a in
  if b =? 0 then gret ()
  else
    let* supply := lift (checked 256 (genesisCircSupply s - b)) in
    let s := set_genesisCircSupply s supply in
    do* sput (set_genesisBalanceKeys s (rmAddressFromBalanceKey (genesisBalanceKeys s) a));
    outer (sendValue this a b).
Definition leave m : SM W unit :=
  do* whenNotPaused;
  do* notKilled;
  let* s := sget in
  do* (if bootstrapped s then enforceCollateralValidation else gret ());
  let a := msg_sender m in
  let amount := totalValidatorCollateral s a in
  do* require (negb (amount =? 0)) (NotValidator a);
  do* sput (set_bootstrapNodes (set_bootstrapOwners s (bootstrapOwners s ∖ {[a]})) (delete a (bootstrapNodes s)));
  if bootstrapped s then withdraw a amount
  else
    do* return_prefund m;
    withdrawWithConfirm a amount.
Definition sa_kill m : SM W unit :=
  do* notKilled;
  let* s := sget in
  let* total := lift (totalValidators s) in
  do* require (total =? 0) NotAllValidatorsHaveLeft;
  do* require (bootstrapped s) SubnetNotBootstrapped;
  do* sput (set_killed s true);
  outer (kill (ipcGatewayAddr (params s)) (to_gateway m 0)).
Definition addBootstrapNode m (netAddress : string) : SM W unit :=
  do* whenNotPaused;
  let* s := sget in
  let a := msg_sender m in
  do* require (isActiveValidator (validatorSet s) a) (NotValidator a);
  do* require (negb (String.length netAddress =? 0)%nat) EmptyAddress;
  sput (set_bootstrapOwners (set_bootstrapNodes s (<[a := netAddress]> (bootstrapNodes s))) ({[a]} ∪ bootstrapOwners s)).

(** ** [SubnetActorRewardFacet], [SubnetActorPauseFacet] *)

Definition sa_claim m : SM W unit := do* whenNotPaused; claimCollateral m (msg_sender m).
Definition pause m : SM W unit :=
  do* enforceIsContractOwner m; do* whenNotPaused; let* s := sget in sput (set_paused s true).
Definition unpause m : SM W unit :=
  do* enforceIsContractOwner m; let* s := sget in do* require (paused s) ExpectedPause; sput (set_paused s false).

(** ** [SubnetActorCheckpointingFacet] *)

Definition ensureValidCheckpoint (checkpoint : BottomUpCheckpoint) : SM W unit :=
  let* s := sget in
  let n := Z.of_nat (List.length (cp_msgs checkpoint)) in
  do* require (negb (sa_maxMsgsPerBottomUpBatch (params s) <? n)) MaxMsgsPerBatchExceeded;
  let last := lastBottomUpCheckpointHeight s in
  do* require (negb (cp_blockHeight checkpoint <=? last)) BottomUpCheckpointAlreadySubmitted;
  let* next := lift (getNextEpoch last (sa_bottomUpCheckPeriod (params s))) in
  do* require (negb (next <? cp_blockHeight checkpoint)) CannotSubmitFutureCheckpoint;
  if cp_blockHeight checkpoint =? next then gret ()
  else require (n =? sa_maxMsgsPerBottomUpBatch (params s)) InvalidCheckpointEpoch.
Definition validateActiveQuorumSignatures s (signatories : list address) (hash : Z) (signatures : list bytes) : result unit :=
  collaterals ← getTotalPowerOfValidators (validatorSet s) signatories;
  activeCollateral ← getTotalActivePower (validatorSet s);
  product ← checked 256 (activeCollateral * sa_majorityPercentage (params s));
  r ← isValidWeightedMultiSignature signatories collaterals (product / 100) hash signatures;
  revert_if (negb r.1) (InvalidSignatureErr (multisig_code r.2)).
Definition submitCheckpoint m (checkpoint : BottomUpCheckpoint) (signatories : list address) (signatures : list bytes) : SM W unit :=
  do* whenNotPaused;
  do* ensureValidCheckpoint checkpoint;
  let* s := sget in
  do* lift (validateActiveQuorumSignatures s signatories (hash_checkpoint checkpoint) signatures);
  do* sput (set_lastBottomUpCheckpointHeight
    (set_committedCheckpoints s (<[cp_blockHeight checkpoint := checkpoint]> (committedCheckpoints s))) (cp_blockHeight checkpoint));
  do* outer (commitCheckpoint (ipcGatewayAddr (params s)) (to_gateway m 0) checkpoint);
  confirmChange m (cp_nextConfigurationNumber checkpoint).
End subnet_actor.

(** [SubnetActorDiamond]; [lockingDuration] is never set and stays zero. *)
Definition MAX_MSGS_PER_BATCH : Z := 10.
Definition subnet_actor_constructor (p : Params) (token_answers : bool) : result SubnetActorStorage :=
  _ ← revert_if (ipcGatewayAddr p =? 0) GatewayCannotBeZero;
  _ ← revert_if (sa_bottomUpCheckPeriod p =? 0) InvalidSubmissionPeriod;
  _ ← revert_if (negb (bool_decide (sa_permissionMode p = Federated)) && (minActivationCollateral p =? 0)) InvalidCollateral;
  _ ← revert_if ((sa_majorityPercentage p <? 51) || (100 <? sa_majorityPercentage p)) InvalidMajorityPercentage;
  _ ← revert_if (18 <? powerScale p) InvalidPowerScale;
  _ ← (match supply_kind (supplySource p) with
       | ERC20 => _ ← revert_if (tokenAddress (supplySource p) =? 0) InvalidERC20Address; revert_if (negb token_answers) CallFailed
       | Native => Ok ()
       end);
  let min := if bool_decide (sa_permissionMode p = Federated) then 0 else minActivationCollateral p in
  let p := mkParams min (minValidators p) (sa_bottomUpCheckPeriod p) (ipcGatewayAddr p) (activeValidatorsLimit p)
             (sa_majorityPercentage p) (powerScale p) (sa_permissionMode p) (supplySource p) (parentId p) MAX_MSGS_PER_BATCH (owner p) in
  Ok (mkSubnetStorage p 0 0 false false false (empty_set (sa_permissionMode p) (activeValidatorsLimit p)) (mkLog 1 1 ∅)
    (mkQueue 0 ∅) ∅ ∅ ∅ [] ∅ []).

(** ** Inverting the calls that succeed *)

Section sa_inversion.
Context {W A : Type}.
Implicit Types (x : Sa W).

Lemma sget_inv x x' s : sget x = Ok (x', s) → x' = x ∧ s = sa x.
Proof. unfold sget. intros. by simplify_eq. Qed.
Lemma sput_inv s x x' u : sput s x = Ok (x', u) → x' = mkSa s (gw x) (requests x).
Proof. unfold sput. intros. by simplify_eq. Qed.
Lemma emit_inv r x x' u : emit r x = Ok (x', u) → x' = mkSa (sa x) (gw x) (requests x ++ [r]).
Proof. unfold emit. intros. by simplify_eq. Qed.
Lemma outer_inv (c : GM W A) x x' a : outer c x = Ok (x', a) → ∃ g, c (gw x) = Ok (g, a) ∧ x' = mkSa (sa x) g (requests x).
Proof. unfold outer. destruct (c (gw x)) as [[g b]| | |]; intros; simplify_eq. eauto. Qed.
End sa_inversion.
Ltac sa_inv1 :=
  match goal with
  | H : sget _ = Ok (_, _) |- _ => apply sget_inv in H as [-> ->]
  | H : sput _ _ = Ok (_, _) |- _ => apply sput_inv in H as ->
  | H : emit _ _ = Ok (_, _) |- _ => apply emit_inv in H as ->
  | H : outer _ _ = Ok (_, _) |- _ => apply outer_inv in H as (? & H & ->)
  end.
Ltac sainv := repeat first [sa_inv1 | sol_inv].

(** ** Signatures on checkpoints *)

Section signatures.
Context `{SolHash} `{SolCrypto}.

Lemma powers_spec vs l ws : getTotalPowerOfValidators vs l = Ok ws →
  ws = validator_power vs <$> l ∧ Forall (λ a, isActiveValidator vs a = true) l.
Proof.
  revert ws. induction l as [|a l IH]; cbn; intros ws Hw; inv_outcome; [by split|].
  destruct (IH _ eq_refl) as [-> Hl]. split; [done|]. constructor; [|done].
  unfold revert_if in *. by destruct (isActiveValidator vs a).
Qed.
Lemma powers_ok vs l : Forall (λ a, isActiveValidator vs a = true) l → getTotalPowerOfValidators vs l = Ok (validator_power vs <$> l).
Proof. induction 1 as [|a l Ha _ IH]; [done|]. cbn. rewrite Ha. cbn. by rewrite IH. Qed.
(** A checkpoint that is accepted carries a valid signature of every signatory, all of them
    active, and the powers of the list of signatories add up to the threshold. *)
Lemma validate_sound s l hash sigs : validateActiveQuorumSignatures s l hash sigs = Ok () →
  ∃ total, getTotalActivePower (validatorSet s) = Ok total ∧
    total * sa_majorityPercentage (params s) / 100 <= foldr Z.add 0 (validator_power (validatorSet s) <$> l) ∧
    Forall (λ a, isActiveValidator (validatorSet s) a = true) l ∧
    Forall2 (λ a sig, tryRecover hash sig = Some a) l sigs.
Proof.
  unfold validateActiveQuorumSignatures. intros Hv.
  destruct (getTotalPowerOfValidators _ l) as [ws| | |] eqn:Hw; try done. apply powers_spec in Hw as [-> Hact]. cbn in Hv.
  destruct (getTotalActivePower _) as [total| | |]; try done. cbn in Hv.
  destruct (checked 256 _) as [t| | |] eqn:Ht; try done. apply checked_inv in Ht as [-> _]. cbn in Hv.
  exists total. split; [done|].
  unfold isValidWeightedMultiSignature in Hv. destruct (List.length sigs =? 0)%nat; [done|].
  destruct (negb _ || negb _) eqn:Hl; [done|]. apply orb_false_iff in Hl as [H1'%negb_false_iff%Nat.eqb_eq H2'%negb_false_iff%Nat.eqb_eq].
  destruct (multisig_loop _ _ _ _ _) as [[w|e]| | |] eqn:Hm; try done. cbn in Hv.
  destruct (_ <=? w) eqn:Hle; [|done]. apply Z.leb_le in Hle. apply multisig_loop_sound in Hm as [-> Hsig]; [|congruence..].
  split_and!; [lia|done|done].
Qed.

(** C38.  A single active validator is a quorum of its own.  The signatures of a checkpoint are
    not checked for repetition: a validator with any power that lists its own signature often
    enough reaches the threshold, so one validator of a subnet can submit a checkpoint of
    its choice. *)
Theorem one_validator_is_a_quorum s a hash sig n total :
  isActiveValidator (validatorSet s) a = true → tryRecover hash sig = Some a →
  getTotalActivePower (validatorSet s) = Ok total → uint 256 (total * sa_majorityPercentage (params s)) →
  (0 < n)%nat → 0 <= validator_power (validatorSet s) a →
  total * sa_majorityPercentage (params s) / 100 <= Z.of_nat n * validator_power (validatorSet s) a < 2 ^ 256 →
  validateActiveQuorumSignatures s (replicate n a) hash (replicate n sig) = Ok ().
Proof.
  intros Ha Hsig Ht Hu Hn Hp Hw. unfold validateActiveQuorumSignatures.
  rewrite powers_ok by (by apply Forall_replicate). rewrite Ht. cbn [mbind outcome_bind].
  rewrite checked_Ok by done. cbn [mbind outcome_bind]. rewrite fmap_replicate. by rewrite multisig_repeat_valid.
Qed.

Lemma sum_permutation (f : address → Z) l1 l2 : l1 ≡ₚ l2 → foldr (λ a acc, f a + acc) 0 l1 = foldr (λ a acc, f a + acc) 0 l2.
Proof. induction 1; cbn; lia. Qed.
(**  Without repetitions a checkpoint that is accepted is a decision of the subnet: its
    signatories are distinct active validators, each signed its hash, and together they hold
    the required share of the active power. *)
Theorem distinct_signatures_are_a_quorum s l hash sigs : NoDup l →
  validateActiveQuorumSignatures s l hash sigs = Ok () →
  ∃ total (q : gset address), getTotalActivePower (validatorSet s) = Ok total ∧ q = list_to_set l ∧
    total * sa_majorityPercentage (params s) / 100 <= set_fold (λ a acc, validator_power (validatorSet s) a + acc) 0 q ∧
    set_Forall (λ a, isActiveValidator (validatorSet s) a = true ∧ ∃ sig, sig ∈ sigs ∧ tryRecover hash sig = Some a) q.
Proof.
  intros Hnd (total & Ht & Hw & Hact & Hsig)%validate_sound. exists total, (list_to_set l). split_and!; [done..| |].
  - unfold set_fold. cbn. rewrite (sum_permutation _ _ l) by (by apply elements_list_to_set).
    etrans; [exact Hw|]. clear. induction l; cbn in *; lia.
  - intros a Ha%elem_of_list_to_set. split; [by eapply Forall_forall in Hact|].
    apply list_elem_of_lookup in Ha as [i Hi]. destruct (Forall2_lookup_l _ _ _ _ _ Hsig Hi) as (sig & Hs & Hr).
    exists sig. split; [|done]. by eapply list_elem_of_lookup_2.
Qed.
End signatures.

(** ** Leaving before the bootstrap *)

Section leaving.
Context `{SolHash} `{SolCrypto} `{SolKeys} {W : Type} `{Outside W} (this : address).
Implicit Types (x : Sa W) (m : Msg).

Lemma sendValue_inv target v (g g' : Gw W) u : sendValue this target v g = Ok (g', u) →
  st g' = st g ∧ sent g' = sent g ∧ move (balances g) this target v = Ok (balances g').
Proof. unfold sendValue, functionCallWithValue, callback, no_callback. intros Hr. ginv. inv_outcome. by split_and!. Qed.
Lemma withdrawWithConfirm_inv a amount x x' u : withdrawWithConfirm this a amount x = Ok (x', u) →
  ∃ v1 v2, recordWithdraw (validatorSet (sa x)) a amount = Ok v1 ∧ confirmWithdraw v1 a amount = Ok v2 ∧
    sa x' = set_validatorSet (sa x) v2 ∧ st (gw x') = st (gw x) ∧ requests x' = requests x ∧
    move (balances (gw x)) this a amount = Ok (balances (gw x')).
Proof.
  unfold withdrawWithConfirm. intros Hr. sainv.
  match goal with Hs : sendValue _ _ _ _ = Ok _ |- _ => apply sendValue_inv in Hs as (? & ? & ?) end.
  eexists _, _. cbn in *. split_and!; done.
Qed.

Lemma return_prefund_inv m x x' u : return_prefund this m x = Ok (x', u) →
  let b := get0 (genesisBalance (sa x)) (msg_sender m) in
  let keys := if b =? 0 then genesisBalanceKeys (sa x) else rmAddressFromBalanceKey (genesisBalanceKeys (sa x)) (msg_sender m) in
  sa x' = set_genesisBalanceKeys (set_genesisCircSupply (sa x) (genesisCircSupply (sa x) - b)) keys ∧
  st (gw x') = st (gw x) ∧ requests x' = requests x ∧
  (balances (gw x') = balances (gw x) ∧ b = 0 ∨ move (balances (gw x)) this (msg_sender m) b = Ok (balances (gw x'))).
Proof.
  unfold return_prefund. intros Hr. sainv. cbn zeta.
  destruct (Z.eqb_spec (get0 (genesisBalance (sa x)) (msg_sender m)) 0) as [Hz|Hz]; sainv.
  - rewrite Hz, Z.sub_0_r. split_and!; [by destruct (sa x)|done..|]. by left.
  - match goal with Hs : sendValue _ _ _ _ = Ok _ |- _ => apply sendValue_inv in Hs as (? & ? & ?) end.
    cbn in *. split_and!; [done..|]. by right.
Qed.

(**  A validator that leaves a subnet before it is bootstrapped gets its pre-funds and its
    collateral back, but the actor does not forget either: the pre-funds stay in its books,
    to be paid again the next time it joins and leaves, out of what others have put in, and
    it stays in the list of genesis validators with the weight of its collateral. *)
Theorem leave_before_bootstrap_is_not_recorded m x x' :
  leave this m x = Ok (x', ()) → bootstrapped (sa x) = false → this ≠ msg_sender m →
  let b := get0 (genesisBalance (sa x)) (msg_sender m) in
  let c := totalValidatorCollateral (sa x) (msg_sender m) in
  get0 (balances (gw x')) (msg_sender m) = get0 (balances (gw x)) (msg_sender m) + b + c ∧
  genesisCircSupply (sa x') = genesisCircSupply (sa x) - b ∧
  genesisBalance (sa x') = genesisBalance (sa x) ∧
  genesisValidators (sa x') = genesisValidators (sa x).
Proof.
  intros Hr Hboot Hne b c. unfold leave, whenNotPaused, notKilled in Hr. sainv. rewrite Hboot in *. sainv.
  match goal with Hp : return_prefund _ _ _ = Ok _ |- _ => apply return_prefund_inv in Hp as (Hsa & _ & _ & Hm1) end.
  apply withdrawWithConfirm_inv in Hr as (v1 & v2 & _ & _ & Hsa' & _ & _ & Hm2). cbn in Hsa, Hm1. fold b in Hsa, Hm1. fold c in Hm2.
  split_and!; [|rewrite Hsa', Hsa; done..].
  apply move_get0 in Hm2 as [_ Hm2]. rewrite Hm2, decide_False by done.
  destruct Hm1 as [[-> ->]|[_ ->]%move_get0]; [|rewrite decide_False by done]; lia.
Qed.
End leaving.

(** ** Examples: the actor [7] below the root [1], with the gateway at [500] *)
#[local] Existing Instance example_hash.
#[local] Existing Instance toy_crypto.
#[local] Instance example_keys : SolKeys := { key_address b := default 0 (head b) }.
#[local] Instance accepting_outside : Outside unit := example_outside ∅.
Definition example_key (a : address) : bytes := [4; a] ++ replicate 63 0.
Definition example_params : Params :=
  mkParams 100 1 10 500 10 66 18 Collateral (mkSupply Native 0) example_root 0 3.
Definition example_actor (b : gmap Z Z) : Sa unit :=
  mkSa (match subnet_actor_constructor example_params true with
        | Ok s => s
        | _ => mkSubnetStorage example_params 0 0 false false false (empty_set Collateral 0) (mkLog 0 0 ∅) (mkQueue 0 ∅) ∅ ∅ ∅ [] ∅ []
        end)
    (mkGw (st example_start) b [] ()) [].
Definition run (c : SM unit unit) (x : Sa unit) : Sa unit := match c x with Ok (x', _) => x' | _ => x end.
(** [8] has put in 30 and [9] 10, and [9] joins with a collateral of 5. *)
Definition example_joined : Sa unit :=
  run (join 7 (mkMsg 9 5 3) (example_key 9)) (run (preFund 7 (mkMsg 9 10 2)) (run (preFund 7 (mkMsg 8 30 1)) (example_actor {[8 := 30; 9 := 15]}))).
Lemma leave_before_bootstrap_is_not_recorded_witness :
  ∃ x1 x2, leave 7 (mkMsg 9 0 4) example_joined = Ok (x1, ()) ∧ get0 (balances (gw x1)) 9 = 15 ∧
    leave 7 (mkMsg 9 0 6) (run (join 7 (mkMsg 9 5 5) (example_key 9)) x1) = Ok (x2, ()) ∧ get0 (balances (gw x2)) 9 = 25 ∧
    get0 (genesisBalance (sa x2)) 9 = 10 ∧ (addr <$> genesisValidators (sa x2)) = [9].
Proof.
  destruct (leave 7 (mkMsg 9 0 4) example_joined) as [[x1 []]| | |] eqn:E1; [|vm_compute in E1; discriminate E1..].
  destruct (leave_before_bootstrap_is_not_recorded 7 _ _ _ E1) as (Hb1 & _ & _ & _); [vm_compute; reflexivity|discriminate|].
  set (y := run (join 7 (mkMsg 9 5 5) (example_key 9)) x1).
  assert (Hy : bootstrapped (sa y) = false ∧ get0 (balances (gw y)) 9 = 10 ∧ genesisBalance (sa y) = {[8 := 30; 9 := 10]} ∧
    totalValidatorCollateral (sa y) 9 = 5 ∧ (addr <$> genesisValidators (sa y)) = [9]).
  { subst y. vm_compute in E1. injection E1 as <-. vm_compute. repeat split. }
  destruct Hy as (Hby & Hbal & Hgy & Hcy & Hvy).
  destruct (leave 7 (mkMsg 9 0 6) y) as [[x2 []]| | |] eqn:E2;
    [|subst y; vm_compute in E1; injection E1 as <-; vm_compute in E2; discriminate E2..].
  destruct (leave_before_bootstrap_is_not_recorded 7 _ _ _ E2 Hby) as (Hb2 & _ & Hg2 & Hv2); [discriminate|].
  cbn [msg_sender] in Hb1, Hb2. exists x1, x2. split; [reflexivity|]. split; [rewrite Hb1; vm_compute; reflexivity|].
  split; [exact E2|]. rewrite Hb2, Hg2, Hv2, Hgy, Hbal, Hcy. split; [vm_compute; reflexivity|].
  split; [vm_compute; reflexivity|exact Hvy].
Defined.

(** [9] joins with a tenth of the collateral and [8] with the rest. *)
Definition example_two : Sa unit :=
  run (join 7 (mkMsg 8 90 2) (example_key 8)) (run (join 7 (mkMsg 9 10 1) (example_key 9)) (example_actor {[8 := 90; 9 := 10]})).
Lemma one_validator_is_a_quorum_witness :
  getTotalActivePower (validatorSet (sa example_two)) = Ok 100 ∧ validator_power (validatorSet (sa example_two)) 9 = 10 ∧
  validateActiveQuorumSignatures (sa example_two) (replicate 7 9) 1234 (replicate 7 [9]) = Ok ().
Proof.
  assert (Ht : getTotalActivePower (validatorSet (sa example_two)) = Ok 100) by (vm_compute; reflexivity).
  assert (Hp : validator_power (validatorSet (sa example_two)) 9 = 10) by (vm_compute; reflexivity).
  assert (Hm : sa_majorityPercentage (params (sa example_two)) = 66) by (vm_compute; reflexivity).
  split; [exact Ht|]. split; [exact Hp|]. apply (one_validator_is_a_quorum _ 9 1234 [9] 7 100); rewrite ?Hp, ?Hm.
  - vm_compute. reflexivity.
  - reflexivity.
  - exact Ht.
  - unfold uint. lia.
  - lia.
  - lia.
  - change (100 * 66 / 100) with 66. lia.
Defined.
Lemma distinct_signatures_are_a_quorum_witness :
  ∃ total (q : gset address), validateActiveQuorumSignatures (sa example_two) [8; 9] 1234 [[8]; [9]] = Ok () ∧
    getTotalActivePower (validatorSet (sa example_two)) = Ok total ∧ q = {[8; 9]} ∧
    total * 66 / 100 <= set_fold (λ a acc, validator_power (validatorSet (sa example_two)) a + acc) 0 q.
Proof.
  assert (Hv : validateActiveQuorumSignatures (sa example_two) [8; 9] 1234 [[8]; [9]] = Ok ()) by (vm_compute; reflexivity).
  destruct (distinct_signatures_are_a_quorum (sa example_two) [8; 9] 1234 [[8]; [9]]) as (total & q & Ht & -> & Hw & _).
  - apply (bool_decide_unpack _). vm_compute. exact I.
  - exact Hv.
  - exists total, (list_to_set [8; 9]). split; [exact Hv|]. split; [exact Ht|]. split; [vm_compute; reflexivity|].
    replace (sa_majorityPercentage (params (sa example_two))) with 66 in Hw by (vm_compute; reflexivity). exact Hw.
Defined.
