(* ===== verification/SubnetFunds.v ===== *)
(** * The collateral of a subnet is backed
    ([contracts/src/subnet/*Facet.sol], [lib/LibStaking.sol], [gateway/GatewayManagerFacet.sol])

    The collateral of the validators lies in two contracts.  Before the bootstrap all of it
    is in the subnet actor, with the pre-funds.  Afterwards the confirmed part is the stake
    of the subnet in the gateway, and what waits to be confirmed or to be claimed is in the
    actor.  The theorem says that the books of the two contracts agree and that the actor
    holds what it owes, after any sequence of calls of the actor and of the gateway. *)

From Stdlib Require Import Ascii String.
From stdpp Require Import base tactics numbers list gmap strings.
From Stdlib Require Import Lia.
From S2P Require Import Prelude IpcApi Sol PrioQueue Staking Quorum GatewayActor GatewayFunds GatewayMessages SubnetActor.

Open Scope Z_scope.

(** Accounts that are called do not call back. *)
#[local] Existing Instance no_callback.

Section backing.
Context `{SolHash} `{SolCrypto} `{SolKeys} {W : Type} `{Outside W} (A G : address).
Implicit Types (g : Gw W) (m : Msg) (x : IpcEnvelope) (z : Sa W).

Hypothesis hash_inj : ∀ a b, hash_subnet a = hash_subnet b → a = b.
Hypothesis A_not_G : A ≠ G.
Hypothesis A_not_burnt : A ≠ BURNT_FUNDS_ACTOR.

(** ** What a call of the gateway does to the actor *)

Definition stake_of g : option Z :=
  stake <$> (subnets (st g) !! hash_subnet (createSubnetId (networkName (config (st g))) A)).
(** The stake of the actor is the same, and the actor has not lost money. *)
Definition unharmed g g' : Prop :=
  config (st g') = config (st g) ∧ stake_of g' = stake_of g ∧ get0 (balances g) A <= get0 (balances g') A.
Definition spares {B} (c : GM W B) : Prop := ∀ g g' b, c g = Ok (g', b) → unharmed g g'.

Lemma unharmed_refl g : unharmed g g.
Proof. split_and!; [done..|lia]. Qed.
Lemma unharmed_trans g1 g2 g3 : unharmed g1 g2 → unharmed g2 g3 → unharmed g1 g3.
Proof. intros (? & ? & ?) (? & ? & ?). split_and!; [congruence..|lia]. Qed.
Lemma unharmed_st g g' : config (st g') = config (st g) → stake <$> subnets (st g') = stake <$> subnets (st g) →
  get0 (balances g) A <= get0 (balances g') A → unharmed g g'.
Proof. intros Hc Hs Hb. split_and!; [done| |done]. unfold stake_of. by rewrite Hc, <- !lookup_fmap, Hs. Qed.
Lemma unharmed_write g n (y z : Subnet) b l w : subnets (st g) !! hash_subnet n = Some y → stake z = stake y → get0 (balances g) A <= get0 b A →
  unharmed g (mkGw (write_subnet (st g) n z) b l w).
Proof.
  intros Hy Hz Hb. apply unharmed_st; [done| |done]. cbn. rewrite fmap_insert, Hz. apply insert_id. by rewrite lookup_fmap, Hy.
Qed.
Lemma unharmed_other g s n b l w : config s = config (st g) → n ≠ A →
  (∀ k, k ≠ hash_subnet (createSubnetId (networkName (config (st g))) n) → subnets s !! k = subnets (st g) !! k) →
  get0 (balances g) A <= get0 b A → unharmed g (mkGw s b l w).
Proof.
  intros Hc Hn Hs Hb. split_and!; [done| |done]. unfold stake_of. cbn. rewrite Hc, Hs; [done|].
  intros Heq%hash_inj. apply (f_equal getActor) in Heq. rewrite !getActor_create in Heq. congruence.
Qed.
Lemma move_other b b' a1 a2 v : a1 ≠ A → a2 ≠ A ∨ 0 <= v → move b a1 a2 v = Ok b' → get0 b A <= get0 b' A.
Proof.
  intros Ha Hv Hm. destruct (decide (a2 = A)) as [->|].
  - apply move_get0 in Hm as [_ ->]. case_decide; destruct Hv; done || lia.
  - unfold move in Hm. inv_outcome. by rewrite !get0_insert_ne by done.
Qed.

Lemma spares_receive m : msg_sender m ≠ A → 0 <= msg_value m → spares (receive G m).
Proof.
  intros Hm Hv g g' u Hr. unfold receive in Hr. inv_outcome. apply unharmed_st; [done..|]. eapply move_other; [..|done]; auto.
Qed.
Lemma spares_call target data v : target ≠ A ∨ 0 <= v → spares (functionCallWithValue G target data v).
Proof.
  intros Hv g g' r Hr. unfold functionCallWithValue, callback, no_callback in Hr. inv_outcome.
  - apply unharmed_st; [done..|]. eapply (move_other _ _ G target v); congruence || done.
  - apply unharmed_st; [done..|]. cbn. lia.
Qed.
Lemma spares_sendValue target v : target ≠ A ∨ 0 <= v → spares (sendValue G target v).
Proof. intros Hv g g' u Hr. unfold sendValue in Hr. ginv. by eapply spares_call. Qed.
Lemma spares_transfer src a v : spares (ierc20Transfer (W := W) src a v).
Proof. intros g g' r Hr. unfold ierc20Transfer in Hr. inv_outcome; apply unharmed_st; try done; cbn; lia. Qed.
Lemma spares_lock src a v : spares (lock (W := W) src a v).
Proof. intros g g' r Hr. unfold lock in Hr. inv_outcome; apply unharmed_st; try done; cbn; lia. Qed.
Lemma spares_supplySource a : spares (supplySource_of (W := W) a).
Proof. intros g g' src [-> _]%supplySource_inv. apply unharmed_refl. Qed.
Lemma spares_commitTopDownMsg x : spares (commitTopDownMsg (W := W) x).
Proof.
  intros g g' u (n & y & a & _ & Hy & _ & _ & _ & ->)%commitTopDownMsg_inv. apply getSubnet_found in Hy.
  by eapply unharmed_write.
Qed.
Lemma spares_commitBottomUpMsg block x : spares (commitBottomUpMsg (W := W) block x).
Proof. intros g g' u Hr. unfold commitBottomUpMsg in Hr. ginv. repeat case_match; ginv; apply unharmed_st; done || (cbn; lia). Qed.
Lemma spares_commitCrossMessage block x : spares (commitCrossMessage (W := W) block x).
Proof.
  intros g g' b Hr%commitCrossMessage_inv. case_match; destruct Hr as [Hr _]; [|by eapply spares_commitBottomUpMsg].
  apply spares_commitTopDownMsg in Hr. eapply unharmed_trans; [|exact Hr]. apply unharmed_st; done || (cbn; lia).
Qed.
Lemma spares_gret {B} (b : B) : spares (gret b).
Proof. intros g g' b' [-> _]%gret_inv. apply unharmed_refl. Qed.
Lemma spares_if {B} (b : bool) (c1 c2 : GM W B) : spares c1 → spares c2 → spares (if b then c1 else c2).
Proof. by destruct b. Qed.
Lemma spares_bind {B C} (c : GM W B) (f : B → GM W C) : spares c → (∀ b, spares (f b)) → spares (gbind c f).
Proof. intros Hc Hf g g' r (g1 & b & H1' & H2')%gbind_inv. eapply unharmed_trans; [by eapply Hc|by eapply Hf]. Qed.
Lemma spares_lift {B} (o : result B) : spares (lift o).
Proof. intros g g' b [-> _]%lift_inv. apply unharmed_refl. Qed.
Lemma spares_require b e : spares (require b e).
Proof. apply spares_lift. Qed.
Lemma spares_get : spares get.
Proof. intros g g' s [-> _]%get_inv. apply unharmed_refl. Qed.
Hint Resolve spares_gret spares_if spares_lift spares_require spares_get spares_receive spares_call spares_sendValue spares_transfer
  spares_lock spares_supplySource spares_commitTopDownMsg spares_commitBottomUpMsg spares_commitCrossMessage : spares.
Hint Extern 1 (_ ∨ _) => (left; by auto) || (right; lia) : spares.
(** A call made of calls that spare the actor. *)
Ltac spare :=
  repeat match goal with
  | |- spares (gbind _ _) => apply spares_bind; [|intros ?]
  | |- spares (match _ with _ => _ end) => case_match
  end; eauto with spares.

Lemma spares_sideEffects v b : spares (crossMsgSideEffects G v b).
Proof. unfold crossMsgSideEffects. spare. Qed.
Lemma spares_sendReceipt block x o ret : spares (sendReceipt (W := W) block x o ret).
Proof. unfold sendReceipt. spare. Qed.
Lemma spares_execute x src : 0 <= value x → spares (execute G x src).
Proof.
  intros Hv. unfold execute, transferFunds, performCall, functionCallWithERC20Value. spare.
Qed.
Lemma spares_executeCrossMsg x src : 0 <= value x → spares (executeCrossMsg G x src).
Proof.
  intros Hv g g' r Hr. unfold executeCrossMsg in Hr. destruct (execute G x src g) as [[g1 r1]| | |] eqn:He; simplify_eq.
  - by eapply spares_execute.
  - apply unharmed_refl.
Qed.
Lemma spares_check_nonce n x : spares (check_nonce (W := W) n x).
Proof.
  intros g g' r Hr. unfold check_nonce in Hr. ginv. destruct (applyType _ _).
  - case_match; ginv; apply unharmed_st; done || (cbn; lia).
  - destruct (getSubnet (st g) n) as [[] y] eqn:Hy; cbn [negb] in Hr; [|ginv; apply unharmed_refl].
    apply getSubnet_found in Hy. case_match; ginv; [apply unharmed_refl|].
    match goal with Hs : supplySource_of _ _ = Ok _ |- _ => apply supplySource_inv in Hs as [-> _] end. by eapply unharmed_write.
Qed.
Hint Resolve spares_sideEffects spares_sendReceipt spares_executeCrossMsg spares_check_nonce : spares.
Lemma spares_applyMsg block n x : 0 <= value x → spares (applyMsg G block n x).
Proof.
  intros Hv. unfold applyMsg. case_match; [auto with spares|]. apply spares_bind; [auto with spares|].
  intros [[src|]|err]; auto with spares. intros g g' u Hr. ginv. case_match; ginv.
  - apply unharmed_st; done || (cbn; lia).
  - match goal with Hx : executeCrossMsg _ _ _ _ = Ok _ |- _ => apply spares_executeCrossMsg in Hx; [|done] end.
    eapply unharmed_trans; [done|]. by eapply spares_sendReceipt.
Qed.
Lemma spares_applyMessages block n msgs : Forall (λ x, 0 <= value x) msgs → spares (applyMessages G block n msgs).
Proof. induction 1; cbn; [auto with spares|]. apply spares_bind; [by apply spares_applyMsg|done]. Qed.
Hint Resolve spares_applyMessages : spares.

(** ** The calls of others *)

Lemma pays_spares m : pays G m → msg_sender m ≠ A → spares (receive G m).
Proof. intros [_ Hv] Hm. by apply spares_receive. Qed.
Lemma register_unharmed m supply g g' u : pays G m → msg_sender m ≠ A → register G m supply g = Ok (g', u) → unharmed g g'.
Proof.
  intros Hp Hm Hr. unfold register in Hr. apply gbind_inv in Hr as (g1 & ? & Hc & Hr).
  apply pays_spares in Hc; [|done..]. eapply unharmed_trans; [exact Hc|]. ginv.
  destruct (getSubnet (st g1) _) as [[] y]; ginv; [done|].
  apply (unharmed_other _ _ (msg_sender m)); [done..| |cbn; lia]. intros k Hk. cbn. by rewrite lookup_insert_ne.
Qed.
Lemma addStake_unharmed m g g' u : pays G m → msg_sender m ≠ A → addStake G m g = Ok (g', u) → unharmed g g'.
Proof.
  intros Hp Hm Hr. unfold addStake in Hr. apply gbind_inv in Hr as (g1 & ? & Hc & Hr).
  apply pays_spares in Hc; [|done..]. eapply unharmed_trans; [exact Hc|]. ginv.
  match goal with Ha : actor_subnet _ _ = Ok _ |- _ => apply actor_subnet_inv in Ha as -> end.
  destruct (getSubnet (st g1) _) as [[] y]; ginv; [|done].
  apply (unharmed_other _ _ (msg_sender m)); [done..| |cbn; lia]. intros k Hk. cbn. by rewrite lookup_insert_ne.
Qed.
Lemma releaseStake_unharmed m amount g g' u : 0 <= amount → msg_sender m ≠ A → releaseStake G m amount g = Ok (g', u) → unharmed g g'.
Proof.
  intros Hp Hm Hr. unfold releaseStake in Hr. ginv.
  match goal with Ha : actor_subnet _ _ = Ok _ |- _ => apply actor_subnet_inv in Ha as -> end.
  destruct (getSubnet (st g) _) as [[] y]; ginv; [|done]. apply spares_sendValue in Hr; [|by right].
  eapply unharmed_trans; [|exact Hr].
  apply (unharmed_other _ _ (msg_sender m)); [done..| |cbn; lia]. intros k Hk. cbn. by rewrite lookup_insert_ne.
Qed.
Lemma kill_unharmed m g g' u : log_ok g → msg_sender m ≠ A → kill G m g = Ok (g', u) → unharmed g g'.
Proof.
  intros Hl Hm Hr. unfold kill in Hr. ginv.
  match goal with Ha : actor_subnet _ _ = Ok _ |- _ => apply actor_subnet_inv in Ha as -> end.
  destruct (getSubnet (st g) _) as [[] y] eqn:Hy; ginv; [|done]. apply getSubnet_found in Hy.
  destruct (Hl _ _ Hy) as (Hk & _). apply spares_sendValue in Hr; [|by left]. eapply unharmed_trans; [|exact Hr].
  apply (unharmed_other _ _ (msg_sender m)); [done..| |cbn; lia]. intros k Hne. cbn. rewrite Hk. by rewrite lookup_delete_ne.
Qed.
Lemma commitCheckpoint_unharmed m cp g g' u : Forall (λ x, 0 <= value x) (cp_msgs cp) → commitCheckpoint G m cp g = Ok (g', u) → unharmed g g'.
Proof.
  intros Hv Hr. unfold commitCheckpoint, execBottomUpMsgs in Hr. ginv.
  destruct (getSubnet (st g) _) as [[] y] eqn:Hy; ginv; [|done]. rewrite Hy in *. apply getSubnet_found in Hy.
  apply spares_applyMessages in Hr; [|done]. eapply unharmed_trans; [|exact Hr]. eapply unharmed_write; [exact Hy|done|cbn; lia].
Qed.
Definition gcall_sender (c : gcall) : option address :=
  match c with
  | CRegister m _ | CAddStake m | CReleaseStake m _ | CKill m | CFund m _ _ | CRelease m _ | CSendContractXnetMessage m _
  | CPropagate m _ => Some (msg_sender m)
  | _ => None
  end.
Lemma keeps_spares {B} (c : GM W B) : keeps_funds c → spares c.
Proof. intros Hk g g' b (Hb & _ & Hc & Hs & _)%Hk. apply unharmed_st; [done|by rewrite Hs|by rewrite Hb]. Qed.
Lemma spares_discard {B} (c : GM W B) : spares c → spares (discard c).
Proof. intros Hc. unfold discard. spare. Qed.
Lemma spares_fund m n t : pays G m → msg_sender m ≠ A → spares (fund G m n t).
Proof. intros [_ Hv] Hm. unfold fund. spare. Qed.
Lemma spares_fundWithToken m n t amount : spares (fundWithToken (W := W) m n t amount).
Proof. unfold fundWithToken. spare. Qed.
Lemma spares_release m t : pays G m → msg_sender m ≠ A → spares (release G m t).
Proof. intros [_ Hv] Hm. unfold release. spare. Qed.
Lemma spares_sendContractXnetMessage m x : pays G m → msg_sender m ≠ A → spares (sendContractXnetMessage G m x).
Proof.
  intros [_ Hv] Hm. unfold sendContractXnetMessage. spare. intros ??? Hr. simplify_eq. apply unharmed_refl.
Qed.
Lemma spares_propagate m cid : pays G m → msg_sender m ≠ A → spares (propagate G m cid).
Proof.
  intros [_ Hv] Hm g g' u Hr. unfold propagate in Hr. ginv.
  match goal with Hc : receive _ _ _ = Ok _, Hx : commitCrossMessage _ _ _ = Ok _ |- _ =>
    apply spares_receive in Hc; [|done..]; apply spares_commitCrossMessage in Hx;
    eapply unharmed_trans; [exact Hc|]; eapply unharmed_trans; [exact Hx|] end.
  apply spares_sideEffects in Hr. eapply unharmed_trans; [|exact Hr]. apply unharmed_st; done || (cbn; lia).
Qed.
Lemma gcall_unharmed c g g' u : gcall_ok G c → gcall_sender c ≠ Some A → log_ok g → run_gcall G c g = Ok (g', u) → unharmed g g'.
Proof.
  intros Hc Hs Hl Hr. destruct c; cbn [gcall_ok run_gcall gcall_sender] in *;
    try (assert (Hm : msg_sender m ≠ A) by congruence).
  - destruct Hc. by eapply register_unharmed.
  - by eapply addStake_unharmed.
  - by eapply releaseStake_unharmed.
  - by eapply kill_unharmed.
  - by eapply spares_fund.
  - by eapply spares_fundWithToken.
  - by eapply spares_release.
  - by eapply spares_sendContractXnetMessage.
  - by eapply spares_propagate.
  - by eapply commitCheckpoint_unharmed.
  - eapply keeps_spares; [apply keeps_createBottomUpCheckpoint|done].
  - eapply keeps_spares; [apply keeps_pruneBottomUpCheckpoints|done].
  - eapply keeps_spares; [apply keeps_addCheckpointSignature|done].
  - eapply spares_discard; [apply keeps_spares, keeps_commitParentFinality|done].
  - eapply keeps_spares; [apply keeps_storeValidatorChanges|done].
  - eapply spares_discard; [apply keeps_spares, keeps_applyFinalityChanges|done].
Qed.

(** ** What the actor owes *)

Definition deposit_of (c : StakingChange) : Z :=
  match op c, decode_amount (payload c) with Deposit, Ok v => v | _, _ => 0 end.
Definition pending (l : StakingChangeLog) : Z := msum deposit_of (changes l).
Definition queued (q : StakingReleaseQueue) : Z := msum (λ r, msum release_amount (releases r)) (queue q).
Definition owes (s : SubnetActorStorage) : Z :=
  pending (changeSet s) + queued (releaseQueue s) +
  if bootstrapped s then 0 else totalConfirmedCollateral (validatorSet s) + genesisCircSupply s.
(** Amounts are not negative, those of the changes in the log in particular. *)
Definition amounts_ok (s : SubnetActorStorage) : Prop :=
  map_Forall (λ _ c, match op c with Deposit | Withdraw => ∃ v, decode_amount (payload c) = Ok v ∧ 0 <= v | _ => True end)
    (changes (changeSet s)) ∧
  map_Forall (λ _ r, map_Forall (λ _ e, 0 <= release_amount e) (releases r)) (queue (releaseQueue s)) ∧
  map_Forall (λ _ b, 0 <= b) (genesisBalance s).
Definition collateral_ok (v : ValidatorSet) : Prop := map_Forall (λ _ i, uint 256 (totalCollateral i)) (validators v).
(** The books are in order, apart from whether the actor holds enough. *)
Record books z : Prop := {
  bk_log : log_ok (gw z);
  bk_gateway : ipcGatewayAddr (params (sa z)) = G;
  bk_mode : permissionMode (validatorSet (sa z)) = Collateral;
  bk_amounts : amounts_ok (sa z);
  bk_total : 0 <= totalConfirmedCollateral (validatorSet (sa z));
  bk_collateral : collateral_ok (validatorSet (sa z));
  bk_stake : stake_of (gw z) =
    if bootstrapped (sa z) && negb (killed (sa z)) then Some (totalConfirmedCollateral (validatorSet (sa z))) else None;
}.
Definition surplus z : Z := get0 (balances (gw z)) A - owes (sa z).

(** ** The staking library *)

(** The total and the mode of the set. *)
Definition total_mode (v : ValidatorSet) : Z * PermissionMode := (totalConfirmedCollateral v, permissionMode v).
Lemma increase_total v a p v' : increaseReshuffle v a p = Ok v' → total_mode v' = total_mode v.
Proof. unfold increaseReshuffle. intros Hr. by inv_outcome. Qed.
Lemma reduce_total v a p v' : reduceReshuffle v a p = Ok v' → total_mode v' = total_mode v.
Proof. unfold reduceReshuffle. intros Hr. by inv_outcome. Qed.
Lemma recordDeposit_total v a n v' : recordDeposit v a n = Ok v' → total_mode v' = total_mode v.
Proof. unfold recordDeposit. intros Hr. by inv_outcome. Qed.
Lemma recordWithdraw_total v a n v' : recordWithdraw v a n = Ok v' → total_mode v' = total_mode v.
Proof. unfold recordWithdraw. intros Hr. by inv_outcome. Qed.
Lemma confirmDeposit_total v a n v' : confirmDeposit v a n = Ok v' →
  total_mode v' = (totalConfirmedCollateral v + n, permissionMode v) ∧ 0 <= totalConfirmedCollateral v'.
Proof.
  unfold confirmDeposit. intros Hr. destruct (checked 256 _) eqn:Hc; try done. cbn [mbind outcome_bind] in Hr.
  destruct (checked 256 (totalConfirmedCollateral _ + n)) eqn:Ht; try done. apply checked_inv in Ht as [-> [Hpos _]].
  apply increase_total in Hr. split; [done|]. injection Hr as -> _. exact Hpos.
Qed.
Lemma confirmWithdraw_total v a n v' : confirmWithdraw v a n = Ok v' →
  total_mode v' = (totalConfirmedCollateral v - n, permissionMode v) ∧ 0 <= totalConfirmedCollateral v'.
Proof.
  unfold confirmWithdraw. intros Hr. destruct (checked 256 _) eqn:Hc; try done. cbn [mbind outcome_bind] in Hr.
  match type of Hr with context [reduceReshuffle ?v1 a ?p] => destruct (reduceReshuffle v1 a p) as [v2| | |] eqn:Hv2; try done;
    apply reduce_total in Hv2; assert (Hv1 : total_mode v1 = total_mode v) by (by case_match) end.
  rewrite Hv1 in Hv2. injection Hv2 as Ht Hm. cbn [mbind outcome_bind] in Hr.
  destruct (checked 256 (totalConfirmedCollateral v2 - n)) as [t| | |] eqn:Hct; try done. apply checked_inv in Hct as [-> [Hpos _]].
  cbn in Hr. simplify_eq. unfold total_mode. cbn. split; [by rewrite Ht, Hm|lia].
Qed.

Lemma info_collateral v a : collateral_ok v → uint 256 (totalCollateral (info v a)).
Proof. intros Hv. unfold info. destruct (validators v !! a) eqn:E; [apply (Hv _ _ E)|by unfold uint; cbn]. Qed.
Lemma set_info_collateral v a i : collateral_ok v → uint 256 (totalCollateral i) → collateral_ok (set_info v a i).
Proof. intros Hv Hi. unfold collateral_ok. cbn. by apply map_Forall_insert_2. Qed.
Lemma increase_collateral v a p v' : increaseReshuffle v a p = Ok v' → collateral_ok v → collateral_ok v'.
Proof. unfold increaseReshuffle. intros Hr. by inv_outcome. Qed.
Lemma reduce_collateral v a p v' : reduceReshuffle v a p = Ok v' → collateral_ok v → collateral_ok v'.
Proof. unfold reduceReshuffle. intros Hr. by inv_outcome. Qed.
Lemma recordDeposit_collateral v a n v' : recordDeposit v a n = Ok v' → collateral_ok v → collateral_ok v'.
Proof.
  unfold recordDeposit. intros Hr Hv. destruct (checked 256 _) eqn:Hc; try done. apply checked_inv in Hc as [-> Hu]. cbn in Hr. simplify_eq.
  by apply set_info_collateral.
Qed.
Lemma recordWithdraw_collateral v a n v' : 0 <= n → recordWithdraw v a n = Ok v' → collateral_ok v → collateral_ok v'.
Proof.
  unfold recordWithdraw, revert_if. intros Hn Hr Hv. case_match; try done. cbn in Hr. simplify_eq. apply set_info_collateral; [done|].
  pose proof (info_collateral v a Hv). unfold uint in *. cbn. zbool. lia.
Qed.
Lemma confirmDeposit_collateral v a n v' : confirmDeposit v a n = Ok v' → collateral_ok v → collateral_ok v'.
Proof.
  unfold confirmDeposit. intros Hr Hv. destruct (checked 256 _); try done. cbn [mbind outcome_bind] in Hr.
  destruct (checked 256 (totalConfirmedCollateral _ + n)); try done. cbn [mbind outcome_bind] in Hr.
  eapply increase_collateral; [exact Hr|]. apply (set_info_collateral v); [done|]. by apply info_collateral.
Qed.
Lemma confirmWithdraw_collateral v a n v' : confirmWithdraw v a n = Ok v' → collateral_ok v → collateral_ok v'.
Proof.
  unfold confirmWithdraw. intros Hr Hv. destruct (checked 256 _) eqn:Hc; try done. cbn [mbind outcome_bind] in Hr.
  match type of Hr with context [reduceReshuffle ?v1 a ?p] => destruct (reduceReshuffle v1 a p) as [v2| | |] eqn:Hv2; try done end.
  cbn [mbind outcome_bind] in Hr. destruct (checked 256 (totalConfirmedCollateral v2 - n)); try done. cbn in Hr. simplify_eq.
  change (collateral_ok v2). eapply reduce_collateral; [exact Hv2|]. case_match.
  - unfold collateral_ok. cbn. by apply map_Forall_delete.
  - apply set_info_collateral; [done|]. by apply info_collateral.
Qed.
Lemma setMetadata_collateral v a b : collateral_ok v → collateral_ok (setMetadata v a b).
Proof. intros Hv. apply set_info_collateral; [done|]. by apply info_collateral. Qed.
Lemma confirmFederated_collateral v a n v' : confirmFederatedPower v a n = Ok v' → collateral_ok v → collateral_ok v'.
Proof.
  unfold confirmFederatedPower. intros Hr Hv.
  match type of Hr with context [set_info v a ?i] => assert (Hi : collateral_ok (set_info v a i)) by (apply set_info_collateral; [done|by apply info_collateral]) end.
  repeat case_match; [by simplify_eq|by eapply increase_collateral|by eapply reduce_collateral].
Qed.
Lemma deposit_of_nonneg s k c : amounts_ok s → changes (changeSet s) !! k = Some c → 0 <= deposit_of c.
Proof.
  intros [Hc _] Hk. specialize (Hc _ _ Hk). unfold deposit_of. cbn in Hc. destruct (op c); try lia.
  destruct Hc as (v & -> & ?). done.
Qed.
Lemma request_spec l a o p l' r : request l a o p = Ok (l', r) → changes l' = <[nextConfigurationNumber l := mkChange o p a]> (changes l).
Proof. unfold request, recordChange. intros Hr. by inv_outcome. Qed.
Lemma compact_loop_sum block n i len amount rs i' len' amount' rs' :
  compact_loop block n i len amount rs = Ok (i', len', amount', rs') →
  rs' ⊆ rs ∧ msum release_amount rs' = msum release_amount rs - (amount' - amount) ∧ (0 <= amount → 0 <= amount').
Proof.
  revert i len amount rs. induction n as [|n IH]; cbn; intros i len amount rs Hr.
  { simplify_eq. split_and!; [done|lia|done]. }
  case_match; [simplify_eq; split_and!; [done|lia|done]|]. destruct (checked 256 _) eqn:Hc; try done.
  apply checked_inv in Hc as [-> [Hpos _]]. cbn in Hr. apply IH in Hr as (Hsub & -> & Hp). split_and!.
  - etrans; [done|]. apply delete_subseteq.
  - rewrite msum_delete. destruct (rs !! i); cbn; lia.
  - intros _. by apply Hp.
Qed.
Definition releases_ok (q : StakingReleaseQueue) : Prop :=
  map_Forall (λ _ r, map_Forall (λ _ e, 0 <= release_amount e) (releases r)) (queue q).
Lemma releases_nonneg q k r : releases_ok q → queue q !! k = Some r → 0 <= msum release_amount (releases r).
Proof. intros Hq Hr. apply msum_nonneg. intros k' e He. apply (Hq _ _ Hr _ _ He). Qed.
Lemma claim_queued block q a amount q' : releases_ok q → claim block q a = Ok (amount, q') →
  releases_ok q' ∧ queued q' <= queued q - amount ∧ 0 <= amount.
Proof.
  intros Hq Hr. unfold claim, compact in Hr. set (r := default zero_releases (queue q !! a)) in *.
  destruct (revert_if _ _); try done. cbn in Hr.
  destruct (compact_loop _ _ _ _ _ _) as [[[[i' len'] amount'] rs']| | |] eqn:Hc; try done. cbn in Hr. simplify_eq.
  apply compact_loop_sum in Hc as (Hsub & Hsum & Hpos).
  assert (Hold : from_option (λ r, msum release_amount (releases r)) 0 (queue q !! a) = msum release_amount (releases r)).
  { unfold r. by destruct (queue q !! a). }
  assert (Hok : map_Forall (λ _ e, 0 <= release_amount e) (releases r)).
  { unfold r. destruct (queue q !! a) eqn:E; [apply (Hq _ _ E)|apply map_Forall_empty]. }
  assert (Hok' : map_Forall (λ _ e, 0 <= release_amount e) rs') by (intros k e He; apply (Hok k); by eapply lookup_weaken).
  assert (0 <= msum release_amount rs') by (apply msum_nonneg; intros k e He; apply (Hok' _ _ He)).
  unfold queued, releases_ok. cbn. case_match.
  - split_and!; [by apply map_Forall_delete| |lia]. rewrite msum_delete, Hold. lia.
  - split_and!; [by apply map_Forall_insert_2| |lia]. rewrite msum_insert, Hold. cbn. lia.
Qed.
Lemma addNewRelease_queued block q a amount q' : releases_ok q → 0 <= amount → addNewRelease block q a amount = Ok q' →
  releases_ok q' ∧ queued q' <= queued q + amount.
Proof.
  intros Hq Ha Hr. unfold addNewRelease, push in Hr. set (r := default zero_releases (queue q !! a)) in *. inv_outcome.
  assert (Hok : map_Forall (λ _ e, 0 <= release_amount e) (releases r)).
  { unfold r. destruct (queue q !! a) eqn:E; [apply (Hq _ _ E)|apply map_Forall_empty]. }
  assert (Hold : from_option (λ r, msum release_amount (releases r)) 0 (queue q !! a) = msum release_amount (releases r)).
  { unfold r. by destruct (queue q !! a). }
  split.
  - apply map_Forall_insert_2; [|done]. by apply map_Forall_insert_2.
  - unfold queued. cbn. rewrite msum_insert, Hold. cbn. rewrite msum_insert. cbn.
    match goal with |- context [releases r !! ?k] => destruct (releases r !! k) as [e|] eqn:E; cbn; [pose proof (Hok _ _ E) as He; cbn in He|]; lia end.
Qed.

(** ** The steps of the actor

    [goes k z z']: from [z] to [z'] the books stay in order, at most [k] is taken from the
    surplus, and the phase of the subnet is the same. *)
Definition phase z : bool * bool := (bootstrapped (sa z), killed (sa z)).
Definition goes (k : Z) z z' : Prop := books z → books z' ∧ surplus z - k <= surplus z' ∧ phase z' = phase z.

Lemma goes_trans k1 k2 z1 z2 z3 : goes k1 z1 z2 → goes k2 z2 z3 → goes (k1 + k2) z1 z3.
Proof. intros H1' H2' Hb. destruct (H1' Hb) as (Hb2 & ? & ?). destruct (H2' Hb2) as (? & ? & ?). split_and!; [done|lia|congruence]. Qed.
Lemma goes_le k k' z z' : k <= k' → goes k z z' → goes k' z z'.
Proof. intros ? Hg Hb. destruct (Hg Hb) as (? & ? & ?). split_and!; [done|lia|done]. Qed.
(** A step that keeps the state of the gateway and the total. *)
Lemma goes_local k z z' : st (gw z') = st (gw z) → sent (gw z') = sent (gw z) → params (sa z') = params (sa z) →
  total_mode (validatorSet (sa z')) = total_mode (validatorSet (sa z)) →
  (collateral_ok (validatorSet (sa z)) → collateral_ok (validatorSet (sa z'))) → phase z' = phase z →
  (amounts_ok (sa z) → amounts_ok (sa z') ∧ owes (sa z') - owes (sa z) <= get0 (balances (gw z')) A - get0 (balances (gw z)) A + k) →
  goes k z z'.
Proof.
  intros Hst Hsent Hp Htm Hcol Hph Ha [Hl Hg Hm Ham Hto Hco Hs]. destruct (Ha Ham) as [Ham' Ho]. injection Htm as Ht Hmode.
  unfold phase in Hph. injection Hph as Hbo Hki. split; [|split; [unfold surplus; lia|unfold phase; congruence]]. split.
  - by eapply log_ok_same; [..|exact Hl]; rewrite ?Hst, ?Hsent.
  - congruence.
  - congruence.
  - done.
  - by rewrite Ht.
  - auto.
  - rewrite Hbo, Hki, Ht. unfold stake_of in *. by rewrite Hst.
Qed.

Lemma goes_receive m z z' u : msg_sender m ≠ A → outer (receive A m) z = Ok (z', u) → goes (- msg_value m) z z'.
Proof.
  intros Hm Hr. sainv. unfold receive in Hr. inv_outcome. apply goes_local; [done..|]. intros Ha. split; [done|].
  apply move_get0 in Heqo as [_ Hb]. rewrite decide_False in Hb by done. cbn. lia.
Qed.
Lemma goes_sendValue a v z z' u : 0 <= v → outer (sendValue A a v) z = Ok (z', u) → goes v z z'.
Proof.
  intros Hv Hr. sainv. apply sendValue_inv in Hr as (Hst & Hse & Hmv). apply goes_local; [done..|]. intros Ha. split; [done|].
  apply move_get0 in Hmv as [Hb _]. cbn. case_decide; lia.
Qed.
Lemma goes_setMetadataWithConfirm a b z z' u : setMetadataWithConfirm a b z = Ok (z', u) → goes 0 z z'.
Proof.
  unfold setMetadataWithConfirm. intros Hr. sainv. apply goes_local; [done..|apply setMetadata_collateral|done|].
  intros Ha. split; [done|]. unfold owes. cbn. lia.
Qed.

Lemma owes_total s v : bootstrapped s = false →
  owes (set_validatorSet s v) = owes s + (totalConfirmedCollateral v - totalConfirmedCollateral (validatorSet s)).
Proof. intros Hb. unfold owes. cbn. rewrite Hb. lia. Qed.
(** Before the bootstrap the collateral is in the actor. *)
Lemma goes_total k z s' g' r v : bootstrapped (sa z) = false → permissionMode v = permissionMode (validatorSet (sa z)) →
  0 <= totalConfirmedCollateral v → (collateral_ok (validatorSet (sa z)) → collateral_ok v) →
  s' = set_validatorSet (sa z) v ∨ (∃ l, s' = set_genesisValidators (set_validatorSet (sa z) v) l) → st g' = st (gw z) → sent g' = sent (gw z) →
  totalConfirmedCollateral v - totalConfirmedCollateral (validatorSet (sa z)) <= get0 (balances g') A - get0 (balances (gw z)) A + k →
  goes k z (mkSa s' g' r).
Proof.
  intros Hb Hm Hvpos Hcol Hs' Hst Hse Hk [Hl Hg Hmode Ham Hto Hco Hs].
  assert (Hsame : params s' = params (sa z) ∧ changeSet s' = changeSet (sa z) ∧ releaseQueue s' = releaseQueue (sa z) ∧
    validatorSet s' = v ∧ genesisBalance s' = genesisBalance (sa z) ∧ bootstrapped s' = bootstrapped (sa z) ∧ killed s' = killed (sa z) ∧ genesisCircSupply s' = genesisCircSupply (sa z))
    by (destruct Hs' as [->|[l ->]]; done).
  destruct Hsame as (Hp & Hc & Hq & Hv & Hgb & Hbo & Hki & Hgc). split; [|split; [|unfold phase; cbn; congruence]].
  - split; cbn.
    + by eapply log_ok_same; [..|exact Hl]; rewrite ?Hst, ?Hse.
    + congruence.
    + congruence.
    + unfold amounts_ok in *. by rewrite Hc, Hq, Hgb.
    + congruence.
    + rewrite Hv. auto.
    + rewrite Hbo, Hb in *. cbn in *. unfold stake_of in *. by rewrite Hst.
  - unfold surplus, owes. cbn. rewrite Hc, Hq, Hbo, Hb, Hv, Hgc. lia.
Qed.
Lemma goes_depositWithConfirm a v z z' u : bootstrapped (sa z) = false → depositWithConfirm a v z = Ok (z', u) → goes v z z'.
Proof.
  intros Hb Hr. unfold depositWithConfirm in Hr. sainv.
  match goal with H1' : recordDeposit _ _ _ = Ok _, H2' : confirmDeposit _ _ _ = Ok _ |- _ =>
    pose proof (recordDeposit_collateral _ _ _ _ H1') as Hc1; pose proof (confirmDeposit_collateral _ _ _ _ H2') as Hc2;
    apply recordDeposit_total in H1'; apply confirmDeposit_total in H2' as [H2' Hpos]; injection H1' as Ht1 Hm1; injection H2' as Ht2 Hm2 end.
  case_match; sainv; (eapply goes_total; [done| | | |by eauto|done|done|]); first [congruence|lia|by auto].
Qed.
Lemma goes_withdrawWithConfirm a v z z' u : bootstrapped (sa z) = false → 0 <= v → withdrawWithConfirm A a v z = Ok (z', u) → goes 0 z z'.
Proof.
  intros Hb Hv Hr. unfold withdrawWithConfirm in Hr. sainv.
  match goal with H1' : recordWithdraw _ _ _ = Ok _, H2' : confirmWithdraw _ _ _ = Ok _ |- _ =>
    pose proof (recordWithdraw_collateral _ _ _ _ Hv H1') as Hc1; pose proof (confirmWithdraw_collateral _ _ _ _ H2') as Hc2;
    apply recordWithdraw_total in H1'; apply confirmWithdraw_total in H2' as [H2' Hpos]; injection H1' as Ht1 Hm1; injection H2' as Ht2 Hm2 end.
  apply sendValue_inv in Hr as (Hst & Hse & Hmv). cbn in *. apply move_get0 in Hmv as [Hbal _].
  eapply goes_total; [done| | | |by left|done|done|]; [congruence|done|by auto|]. case_decide; lia.
Qed.

(** *** Requests *)

Lemma goes_request f a o p z z' u :
  (∀ l l' r, f l = Ok (l', r) → request l a o p = Ok (l', r)) →
  match o with Deposit | Withdraw => ∃ v, decode_amount p = Ok v ∧ 0 <= v | _ => True end →
  request_change f z = Ok (z', u) → goes (deposit_of (mkChange o p a)) z z'.
Proof.
  intros Hf Hp Hr. unfold request_change in Hr. sainv.
  match goal with Hq : f _ = Ok ?r |- _ => destruct r as [l' r']; apply Hf, request_spec in Hq as Hl end. cbn [fst snd].
  apply goes_local; [done..|]. intros Ham. pose proof (deposit_of_nonneg (sa z)) as Hnn. destruct Ham as [Hc Hq]. split.
  - split; [|done]. cbn. rewrite Hl. by apply map_Forall_insert_2.
  - unfold owes, pending. cbn. rewrite Hl, msum_insert.
    destruct (changes (changeSet (sa z)) !! _) as [c|] eqn:E; cbn; [pose proof (Hnn _ _ (conj Hc Hq) E)|]; lia.
Qed.
Lemma goes_setValidatorMetadata a b z z' u : setValidatorMetadata a b z = Ok (z', u) → goes 0 z z'.
Proof. intros Hr. by apply (goes_request _ a SetMetadata b) in Hr. Qed.
Lemma goes_record (f : ValidatorSet → result ValidatorSet) z z' u : (∀ v v', f v = Ok v' → total_mode v' = total_mode v ∧ (collateral_ok v → collateral_ok v')) →
  (let* s := sget in let* v := lift (f (validatorSet s)) in sput (set_validatorSet s v)) z = Ok (z', u) → goes 0 z z'.
Proof.
  intros Hf Hr. sainv. match goal with Hq : f _ = Ok _ |- _ => apply Hf in Hq as [Ht Hcol] end.
  apply goes_local; [done..|]. intros Ha. split; [done|]. unfold owes. cbn. injection Ht as -> _. lia.
Qed.
Lemma goes_deposit a v z z' u : uint 256 v → deposit a v z = Ok (z', u) → goes v z z'.
Proof.
  intros Hv Hr. unfold deposit in Hr. apply gbind_inv in Hr as (z1 & u1 & H1' & H2').
  apply (goes_request _ a Deposit (encode_amount v)) in H1'; [|done|rewrite amount_roundtrip by done; exists v; split; [done|apply Hv]].
  apply (goes_record (λ s, recordDeposit s a v)) in H2'; [|intros ?? Hx; split; [by eapply recordDeposit_total|by eapply recordDeposit_collateral]].
  replace v with (deposit_of (mkChange Deposit (encode_amount v) a) + 0); [by eapply goes_trans|].
  unfold deposit_of. cbn [op payload]. rewrite amount_roundtrip by done. lia.
Qed.
Lemma goes_withdraw a v z z' u : uint 256 v → withdraw a v z = Ok (z', u) → goes 0 z z'.
Proof.
  intros Hv Hr. unfold withdraw in Hr. apply gbind_inv in Hr as (z1 & u1 & H1' & H2').
  apply (goes_request _ a Withdraw (encode_amount v)) in H1'; [|done|rewrite amount_roundtrip by done; exists v; split; [done|apply Hv]].
  apply (goes_record (λ s, recordWithdraw s a v)) in H2'; [|intros ?? Hx; split; [by eapply recordWithdraw_total|eapply recordWithdraw_collateral; [apply Hv|exact Hx]]]. exact (goes_trans 0 0 _ _ _ H1' H2').
Qed.
Lemma goes_claimCollateral m a z z' u : claimCollateral A m a z = Ok (z', u) → goes 0 z z'.
Proof.
  intros Hr. unfold claimCollateral in Hr.
  apply gbind_inv in Hr as (? & ? & [-> ->]%sget_inv & Hr). apply gbind_inv in Hr as (? & [amount q'] & [-> Hc]%lift_inv & Hr).
  apply gbind_inv in Hr as (z1 & ? & ->%sput_inv & Hr). cbn [fst snd] in *. intros Hb.
  destruct (claim_queued _ _ _ _ _ (proj1 (proj2 (bk_amounts _ Hb))) Hc) as (Hok & Hq & Hpos).
  assert (Hg : goes (- amount) z (mkSa (set_releaseQueue (sa z) q') (gw z) (requests z))).
  { apply goes_local; [done..|]. intros (Hch & _ & Hgb). split; [by split_and!|]. unfold owes. cbn. lia. }
  apply goes_sendValue in Hr; [|done]. pose proof (goes_trans _ _ _ _ _ Hg Hr) as Ht. replace (- amount + amount) with 0 in Ht by lia.
  by apply Ht.
Qed.
Lemma get0_nonneg (b : gmap Z Z) a : map_Forall (λ _ v, 0 <= v) b → 0 <= get0 b a.
Proof. intros Hb. unfold get0. destruct (b !! a) as [v|] eqn:E; cbn; [exact (Hb _ _ E)|lia]. Qed.
Lemma goes_return_prefund m z z' u : bootstrapped (sa z) = false → return_prefund A m z = Ok (z', u) → goes 0 z z'.
Proof.
  intros Hb Hr. unfold return_prefund in Hr. sainv. case_match; sainv; [intros Hbk; split_and!; [done|lia|done]|].
  apply sendValue_inv in Hr as (Hst & Hse & Hmv). cbn in *. apply goes_local; [done..|]. intros Ha. split; [done|].
  pose proof (get0_nonneg _ (msg_sender m) (proj2 (proj2 Ha))).
  apply move_get0 in Hmv as [Hbal _]. unfold owes. cbn. rewrite Hb. case_decide; lia.
Qed.
(** *** The pre-funds *)
Lemma goes_preFund m z z' u : msg_sender m ≠ A → 0 <= msg_value m → preFund A m z = Ok (z', u) → goes 0 z z'.
Proof.
  intros Hm Hv Hr. unfold preFund in Hr. apply gbind_inv in Hr as (z1 & u1 & Hrc & Hr). apply goes_receive in Hrc; [|done].
  replace 0 with (- msg_value m + msg_value m) by lia. eapply goes_trans; [exact Hrc|]. sainv.
  match goal with Hx : negb (bootstrapped (sa z1)) = true |- _ => apply negb_true_iff in Hx as Hb end.
  apply goes_local; [by case_match..|]. intros (Hc & Hq & Hg). split.
  - split_and!; [by case_match|by case_match|]. case_match; cbn; (apply map_Forall_insert_2; [|done]); unfold uint in *; cbn in *; lia.
  - unfold owes. case_match; cbn in *; rewrite Hb; lia.
Qed.
Lemma goes_preRelease m v z z' u : 0 <= v → preRelease A m v z = Ok (z', u) → goes 0 z z'.
Proof.
  intros Hv Hr. unfold preRelease in Hr. sainv. apply sendValue_inv in Hr as (Hst & Hse & Hmv).
  match goal with Hx : negb (bootstrapped (sa z)) = true |- _ => apply negb_true_iff in Hx as Hb end.
  match goal with Hx : negb (_ <? v) = true |- _ => apply negb_true_iff, Z.ltb_ge in Hx end.
  apply move_get0 in Hmv as [Hbal _]. cbn in *. set (e := _ - v =? 0) in *. apply goes_local; [done|done|by (unfold phase; cbn; destruct e)..|]. intros (Hc & Hq & Hg). split.
  - split_and!; [by destruct e|by destruct e|]. cbn. destruct e; cbn; (apply map_Forall_insert_2; [lia|done]).
  - unfold owes. destruct e; case_decide; cbn in *; rewrite Hb; lia.
Qed.

(** *** The gateway *)

Lemma receive_spec v block g g' u : receive G (mkMsg A v block) g = Ok (g', u) →
  st g' = st g ∧ get0 (balances g') A = get0 (balances g) A - v.
Proof.
  unfold receive. intros Hr. inv_outcome. apply move_get0 in Heqo as [Hb _]. by rewrite decide_False in Hb.
Qed.
Lemma register_spec v block supply g g' u : register G (mkMsg A v block) supply g = Ok (g', u) →
  config (st g') = config (st g) ∧ stake_of g' = Some (v - supply) ∧ get0 (balances g') A = get0 (balances g) A - v.
Proof.
  intros Hr. unfold register in Hr. apply gbind_inv in Hr as (g1 & ? & Hc & Hr). apply receive_spec in Hc as [Hst Hb]. rewrite <- Hst, <- Hb.
  clear Hst Hb. ginv. destruct (getSubnet (st g1) _) as [[] y]; ginv; [done|]. split_and!; [done| |done].
  unfold stake_of. cbn. by rewrite lookup_insert_eq.
Qed.
Lemma stake_of_Some g t n y : stake_of g = Some t → actor_subnet (st g) A = Ok n → getSubnet (st g) n = (true, y) →
  n = createSubnetId (networkName (config (st g))) A ∧ stake y = t.
Proof.
  intros Ht ->%actor_subnet_inv Hy%getSubnet_found. unfold stake_of in Ht. rewrite Hy in Ht. by simplify_eq/=.
Qed.
Lemma addStake_spec v block t g g' u : stake_of g = Some t → addStake G (mkMsg A v block) g = Ok (g', u) →
  stake_of g' = Some (t + v) ∧ get0 (balances g') A = get0 (balances g) A - v.
Proof.
  intros Ht Hr. unfold addStake in Hr. apply gbind_inv in Hr as (g1 & ? & Hc & Hr). apply receive_spec in Hc as [Hst Hb].
  rewrite <- Hb. clear Hb. ginv. assert (Ht1 : stake_of g1 = Some t) by (unfold stake_of in *; by rewrite Hst).
  destruct (getSubnet (st g1) _) as [[] y] eqn:Hy; ginv; [|done].
  match goal with Ha : actor_subnet _ _ = Ok ?n |- _ => destruct (stake_of_Some _ _ _ _ Ht1 Ha Hy) as [-> <-] end.
  split; [|done]. unfold stake_of. cbn. by rewrite lookup_insert_eq.
Qed.
Lemma releaseStake_spec amount block t g g' u : log_ok g → stake_of g = Some t → releaseStake G (mkMsg A 0 block) amount g = Ok (g', u) →
  stake_of g' = Some (t - amount) ∧ get0 (balances g') A = get0 (balances g) A + amount.
Proof.
  intros Hl Ht Hr. unfold releaseStake in Hr. ginv. destruct (getSubnet (st g) _) as [[] y] eqn:Hy; ginv; [|done].
  match goal with Ha : actor_subnet _ _ = Ok ?n |- _ => destruct (stake_of_Some _ _ _ _ Ht Ha Hy) as [-> <-] end.
  apply getSubnet_found in Hy. destruct (Hl _ _ Hy) as (Hk & _). apply hash_inj in Hk. rewrite Hk, getActor_create in Hr.
  apply sendValue_inv in Hr as (Hst & _ & Hmv). apply move_get0 in Hmv as [_ Hb]. cbn in Hb, Hst. rewrite decide_False in Hb by congruence.
  split; [|done]. unfold stake_of. rewrite Hst. cbn. by rewrite lookup_insert_eq.
Qed.

(** The registration brings the collateral into the gateway. *)
Lemma bootstrap_register m z z' u : books z → bootstrapped (sa z) = false → killed (sa z) = false →
  outer (register G (to_gateway A m (totalConfirmedCollateral (validatorSet (sa z)) + genesisCircSupply (sa z))) (genesisCircSupply (sa z)))
    (mkSa (set_bootstrapped (sa z) true) (gw z) (requests z)) = Ok (z', u) →
  books z' ∧ surplus z <= surplus z'.
Proof.
  intros [Hl Hg Hm Ham Hto Hco Hs] Hb Hki Hr. sainv. cbn [gw sa requests] in *. pose proof (logs_register G _ _ _ _ _ Hr Hl) as Hl'.
  apply register_spec in Hr as (Hcf & Hst & Hbal). split; [|unfold surplus, owes; cbn; rewrite Hb, Hbal; lia].
  split; [done..|]. cbn. rewrite Hki, Hst. cbn. f_equal. lia.
Qed.
Lemma bootstrap_step m z z' u : books z → bootstrapped (sa z) = false → killed (sa z) = false →
  bootstrapSubnetIfNeeded A m z = Ok (z', u) → books z' ∧ surplus z <= surplus z'.
Proof.
  intros Hbk Hb Hki Hr. unfold bootstrapSubnetIfNeeded in Hr. pose proof (bk_gateway _ Hbk) as Hgw.
  apply gbind_inv in Hr as (? & ? & [-> ->]%sget_inv & Hr). rewrite Hgw in Hr.
  case_match; [|sainv; split; [done|lia]].
  apply gbind_inv in Hr as (? & ? & ->%sput_inv & Hr). apply gbind_inv in Hr as (? & ? & [-> [-> _]%checked_inv]%lift_inv & Hr).
  by eapply bootstrap_register.
Qed.

(** *** Confirming changes *)

(** The end of a round: the change is gone from the log. *)
Definition purged z i : Sa W := mkSa (set_changeSet (sa z) (purgeChange (changeSet (sa z)) i)) (gw z) (requests z).
Lemma purge_amounts s i : amounts_ok s → amounts_ok (set_changeSet s (purgeChange (changeSet s) i)).
Proof. intros (Hc & Hq & Hg). split_and!; [|done..]. cbn. by apply map_Forall_delete. Qed.
Lemma purge_pending l i c : changes l !! i = Some c → pending (purgeChange l i) = pending l - deposit_of c.
Proof. intros Hc. unfold pending. cbn. rewrite msum_delete, Hc. done. Qed.
Lemma round_ok z i c s' g' r : changes (changeSet (sa z)) !! i = Some c → books z → bootstrapped (sa z) = true → killed (sa z) = false →
  params s' = params (sa z) ∧ changeSet s' = changeSet (sa z) ∧ genesisBalance s' = genesisBalance (sa z) ∧
    bootstrapped s' = bootstrapped (sa z) ∧ killed s' = killed (sa z) →
  log_ok g' → permissionMode (validatorSet s') = Collateral → 0 <= totalConfirmedCollateral (validatorSet s') → collateral_ok (validatorSet s') → releases_ok (releaseQueue s') →
  stake_of g' = Some (totalConfirmedCollateral (validatorSet s')) →
  queued (releaseQueue s') - queued (releaseQueue (sa z)) - deposit_of c <= get0 (balances g') A - get0 (balances (gw z)) A →
  let z' := mkSa s' g' r in books (purged z' i) ∧ surplus z <= surplus (purged z' i) ∧ phase z' = phase z.
Proof.
  intros Hc [Hl Hg Hm Ham Hto Hco Hs] Hb Hki (Hp & Hch & Hgb & Hbo & Hk) Hl' Hm' Htp Hcp Hq' Hs' Hk' z'. split_and!.
  - split; cbn; [done|congruence|done| |done|done|].
    + apply purge_amounts. destruct Ham as (H1' & H2' & H3'). unfold amounts_ok. rewrite Hch, Hgb. done.
    + by rewrite Hbo, Hk, Hb, Hki.
  - unfold surplus, owes. cbn. rewrite Hbo, Hb, Hch. rewrite (purge_pending _ _ _ Hc). lia.
  - unfold phase. cbn. congruence.
Qed.
Lemma confirmFederated_total v a n v' : confirmFederatedPower v a n = Ok v' → total_mode v' = total_mode v.
Proof.
  unfold confirmFederatedPower. intros Hr. repeat case_match; [by simplify_eq|by apply increase_total in Hr|by apply reduce_total in Hr].
Qed.
Lemma confirm_round m i z z' u : books z → bootstrapped (sa z) = true → killed (sa z) = false →
  confirm_one A m (getChange (changeSet (sa z)) i) z = Ok (z', u) →
  books (purged z' i) ∧ surplus z <= surplus (purged z' i) ∧ phase z' = phase z.
Proof.
  intros Hbk Hb Hki Hr. pose proof Hbk as [Hl Hg Hm Ham Hto Hco Hs]. rewrite Hb, Hki in Hs. cbn in Hs.
  unfold getChange in Hr. destruct (changes (changeSet (sa z)) !! i) as [c|] eqn:Hc; cbn [default] in Hr.
  2: { unfold confirm_one in Hr. sainv. cbn in *. sainv. done. }
  change (id c) with c in Hr. pose proof (proj1 Ham _ _ Hc) as Hcok. cbn in Hcok.
  unfold confirm_one in Hr. sainv. rewrite Hg in Hr.
  destruct (op c) eqn:Hop.
  - destruct Hcok as (n & Hn & Hpos). rewrite Hn in Hr. sainv. simplify_eq. cbn in Hr.
    match goal with Hx : confirmDeposit _ _ _ = Ok _ |- _ => pose proof (confirmDeposit_collateral _ _ _ _ Hx Hco); apply confirmDeposit_total in Hx as [[=Ht Hmode] Hvp] end.
    pose proof (logs_addStake G _ _ _ _ Hr Hl) as Hl'. apply (addStake_spec _ _ _ _ _ _ Hs) in Hr as [Hst Hbal].
    eapply round_ok; [exact Hc|exact Hbk|done|done|done|done| | | | | |]; cbn.
    + congruence.
    + done.
    + done.
    + apply Ham.
    + rewrite Hst. congruence.
    + unfold deposit_of. rewrite Hop, Hn, Hbal. lia.
  - destruct Hcok as (n & Hn & Hpos). rewrite Hn in Hr. sainv. simplify_eq. cbn in Hr.
    match goal with Hx : confirmWithdraw _ _ _ = Ok _ |- _ => pose proof (confirmWithdraw_collateral _ _ _ _ Hx Hco); apply confirmWithdraw_total in Hx as [[=Ht Hmode] Hvp] end.
    match goal with Hx : addNewRelease _ _ _ _ = Ok _ |- _ => apply addNewRelease_queued in Hx as [Hq Hqs]; [|apply Ham|done] end.
    pose proof (logs_releaseStake G no_callback_logs _ _ _ _ _ Hr Hl) as Hl'. apply (releaseStake_spec _ _ _ _ _ _ Hl Hs) in Hr as [Hst Hbal].
    eapply round_ok; [exact Hc|exact Hbk|done|done|done|done| | | | | |]; cbn.
    + congruence.
    + done.
    + done.
    + done.
    + rewrite Hst. congruence.
    + unfold deposit_of. rewrite Hop, Hbal. lia.
  - sainv. eapply round_ok; [exact Hc|exact Hbk|done|done|done|done| | | | | |]; cbn; [done|done|by apply setMetadata_collateral|apply Ham|done|]. unfold deposit_of. rewrite Hop. lia.
  - sainv. match goal with Hx : confirmFederatedPower _ _ _ = Ok _ |- _ => pose proof (confirmFederated_collateral _ _ _ _ Hx (setMetadata_collateral _ _ _ Hco)); apply confirmFederated_total in Hx as [=Ht Hmode] end.
    eapply round_ok; [exact Hc|exact Hbk|done|done|done|done| | | | | |]; cbn; [cbn in *; congruence|cbn in *; lia|done|apply Ham|cbn in *; congruence|]. unfold deposit_of. rewrite Hop. lia.
Qed.
Lemma confirm_loop_step m n i z z' u : books z → bootstrapped (sa z) = true → killed (sa z) = false →
  confirm_loop A m n i z = Ok (z', u) → books z' ∧ surplus z <= surplus z' ∧ phase z' = phase z.
Proof.
  revert i z. induction n as [|n IH]; intros i z Hbk Hb Hki Hr; cbn [confirm_loop] in Hr; [sainv; split_and!; [done|lia|done]|].
  apply gbind_inv in Hr as (? & ? & [-> ->]%sget_inv & Hr). apply gbind_inv in Hr as (z1 & u1 & Hone & Hr).
  destruct (confirm_round m i z z1 u1 Hbk Hb Hki Hone) as (Hbk1 & Hsur & Hph).
  apply gbind_inv in Hr as (? & ? & [-> ->]%sget_inv & Hr). apply gbind_inv in Hr as (? & ? & ->%sput_inv & Hr).
  fold (purged z1 i) in Hr. injection Hph as Hb1 Hk1. destruct (IH (truncate 64 (i + 1)) (purged z1 i)) as (? & ? & Hph'); [done|cbn; congruence..|done|].
  split_and!; [done|lia|]. rewrite Hph'. unfold phase. cbn. congruence.
Qed.
Lemma confirmChange_step m n z z' u : books z → bootstrapped (sa z) = true → killed (sa z) = false →
  confirmChange A m n z = Ok (z', u) → books z' ∧ surplus z <= surplus z'.
Proof.
  intros Hbk Hb Hki Hr. unfold confirmChange in Hr. apply gbind_inv in Hr as (? & ? & [-> ->]%sget_inv & Hr).
  apply gbind_inv in Hr as (? & ? & [-> _]%require_inv & Hr). case_match; [sainv; split; [done|lia]|].
  apply gbind_inv in Hr as (z1 & u1 & Hloop & Hr). destruct (confirm_loop_step _ _ _ _ _ _ Hbk Hb Hki Hloop) as (Hbk1 & Hs1 & _). sainv.
  match goal with |- books ?z2 ∧ _ => assert (Hg : goes 0 z1 z2) end.
  { apply goes_local; [done..|]. intros Ha. split; [done|]. unfold owes, pending. cbn. lia. }
  destruct (Hg Hbk1) as (? & ? & _). split; [done|lia].
Qed.
(** A call of the gateway that spares the actor. *)
Lemma goes_gateway z s' g' r : params s' = params (sa z) → changeSet s' = changeSet (sa z) → releaseQueue s' = releaseQueue (sa z) →
  validatorSet s' = validatorSet (sa z) → genesisBalance s' = genesisBalance (sa z) → genesisCircSupply s' = genesisCircSupply (sa z) →
  bootstrapped s' = bootstrapped (sa z) → killed s' = killed (sa z) → (log_ok (gw z) → log_ok g' ∧ unharmed (gw z) g') →
  goes 0 z (mkSa s' g' r).
Proof.
  intros Hp Hc Hq Hv Hgb Hgc Hbo Hki Hg' [Hl Hg Hm Ham Hto Hco Hs]. destruct (Hg' Hl) as [Hl' (Hcf & Hst & Hbal)]. split_and!.
  - split; cbn; [done|congruence|congruence| | | |].
    + unfold amounts_ok in *. by rewrite Hc, Hq, Hgb.
    + by rewrite Hv.
    + by rewrite Hv.
    + by rewrite Hst, Hbo, Hki, Hv.
  - unfold surplus, owes. cbn. rewrite Hc, Hq, Hv, Hgc, Hbo. lia.
  - unfold phase. cbn. congruence.
Qed.
Lemma commitCheckpoint_registered block cp g r : commitCheckpoint G (mkMsg A 0 block) cp g = Ok r → is_Some (stake_of g).
Proof.
  intros Hr. unfold commitCheckpoint in Hr. ginv. destruct (getSubnet (st g) _) as [[] y] eqn:Hy; ginv; [|done].
  apply getSubnet_found in Hy. match goal with Ha : actor_subnet _ _ = Ok ?n |- _ => apply actor_subnet_inv in Ha as -> end.
  unfold stake_of. cbn in Hy. rewrite Hy. by eexists.
Qed.
Lemma submitCheckpoint_step m cp ss sigs z z' u : books z → Forall (λ x, 0 <= value x) (cp_msgs cp) →
  submitCheckpoint A m cp ss sigs z = Ok (z', u) → books z' ∧ surplus z <= surplus z'.
Proof.
  intros Hbk Hv Hr. unfold submitCheckpoint, whenNotPaused in Hr.
  apply gbind_inv in Hr as (? & ? & Hp & Hr). sainv.
  match goal with Hx : ensureValidCheckpoint _ _ = Ok (?z1, _) |- _ =>
    assert (z1 = z) as -> by (unfold ensureValidCheckpoint in Hx; sainv; case_match; by sainv) end.
  rewrite (bk_gateway _ Hbk) in *.
  match goal with Hx : commitCheckpoint _ _ _ _ = Ok _ |- _ =>
    pose proof (commitCheckpoint_registered _ _ _ _ Hx) as [t Ht]; pose proof (commitCheckpoint_unharmed _ _ _ _ _ Hv Hx) as Hun;
    pose proof (logs_commitCheckpoint G hash_inj no_callback_logs _ _ _ _ _ Hx) as Hlog end. cbn [gw sa requests] in *.
  rewrite (bk_stake _ Hbk) in Ht. destruct (bootstrapped (sa z)) eqn:Hb; [|done]. destruct (killed (sa z)) eqn:Hki; [done|].
  match type of Hr with confirmChange _ _ _ ?z1 = _ => assert (Hg : goes 0 z z1) by (apply goes_gateway; done || (intros; split; auto)) end.
  destruct (Hg Hbk) as (Hbk1 & Hs1 & _). destruct (confirmChange_step _ _ _ _ _ Hbk1 Hb Hki Hr). split; [done|lia].
Qed.

(** ** Every call of the actor *)

Definition sender_ok m : Prop := msg_sender m ≠ A ∧ uint 256 (msg_value m).
Lemma join_step m key z z' u : books z → sender_ok m → join A m key z = Ok (z', u) → books z' ∧ surplus z <= surplus z'.
Proof.
  intros Hbk [Hm Hv] Hr. unfold join, whenNotPaused, notKilled in Hr.
  apply gbind_inv in Hr as (z1 & ? & Hrc & Hr). apply goes_receive in Hrc; [|done]. destruct (Hrc Hbk) as (Hbk1 & Hs1 & _).
  sainv. match goal with Hx : negb (killed (sa z1)) = true |- _ => apply negb_true_iff in Hx as Hki end.
  destruct (bootstrapped (sa z1)) eqn:Hb.
  - match goal with Hx : enforceCollateralValidation _ = Ok (?z2, _) |- _ =>
      assert (z2 = z1) as -> by (unfold enforceCollateralValidation in Hx; by sainv) end.
    sainv. match goal with Hx : setValidatorMetadata _ _ _ = Ok _ |- _ => apply goes_setValidatorMetadata in Hx; destruct (Hx Hbk1) as (Hbk2 & Hs2 & _) end.
    apply goes_deposit in Hr; [|done]. destruct (Hr Hbk2) as (? & ? & _). split; [done|lia].
  - sainv. match goal with Hx : setMetadataWithConfirm _ _ _ = Ok _ |- _ =>
      apply goes_setMetadataWithConfirm in Hx; destruct (Hx Hbk1) as (Hbk2 & Hs2 & [=Hb2 Hk2]) end.
    match goal with Hx : depositWithConfirm _ _ _ = Ok _ |- _ =>
      apply goes_depositWithConfirm in Hx; [|congruence]; destruct (Hx Hbk2) as (Hbk3 & Hs3 & [=Hb3 Hk3]) end.
    destruct (bootstrap_step _ _ _ _ Hbk3 ltac:(congruence) ltac:(congruence) Hr). split; [done|lia].
Qed.
Lemma stake_step m z z' u : books z → sender_ok m → sa_stake A m z = Ok (z', u) → books z' ∧ surplus z <= surplus z'.
Proof.
  intros Hbk [Hm Hv] Hr. unfold sa_stake, whenNotPaused, notKilled, enforceCollateralValidation in Hr.
  apply gbind_inv in Hr as (z1 & ? & Hrc & Hr). apply goes_receive in Hrc; [|done]. destruct (Hrc Hbk) as (Hbk1 & Hs1 & _).
  sainv. match goal with Hx : negb (killed (sa z1)) = true |- _ => apply negb_true_iff in Hx as Hki end.
  destruct (bootstrapped (sa z1)) eqn:Hb; sainv.
  - apply goes_deposit in Hr; [|done]. destruct (Hr Hbk1) as (? & ? & _). split; [done|lia].
  - match goal with Hx : depositWithConfirm _ _ _ = Ok _ |- _ =>
      apply goes_depositWithConfirm in Hx; [|done]; destruct (Hx Hbk1) as (Hbk3 & Hs3 & [=Hb3 Hk3]) end.
    destruct (bootstrap_step _ _ _ _ Hbk3 ltac:(congruence) ltac:(congruence) Hr). split; [done|lia].
Qed.
Lemma unstake_step m v z z' u : books z → uint 256 v → unstake A m v z = Ok (z', u) → books z' ∧ surplus z <= surplus z'.
Proof.
  intros Hbk Hv Hr. unfold unstake, whenNotPaused, notKilled, enforceCollateralValidation in Hr. sainv.
  destruct (bootstrapped (sa z)) eqn:Hb.
  - apply goes_withdraw in Hr; [|done]. destruct (Hr Hbk) as (? & ? & _). split; [done|lia].
  - apply goes_withdrawWithConfirm in Hr; [|done|apply Hv]. destruct (Hr Hbk) as (? & ? & _). split; [done|lia].
Qed.
Lemma leave_step m z z' u : books z → leave A m z = Ok (z', u) → books z' ∧ surplus z <= surplus z'.
Proof.
  intros Hbk Hr. unfold leave, whenNotPaused, notKilled in Hr. sainv.
  match goal with Hx : (if bootstrapped (sa z) then _ else _) z = Ok (?z1, _) |- _ =>
    assert (z1 = z) as -> by (unfold enforceCollateralValidation in Hx; case_match; by sainv) end.
  pose proof (info_collateral _ (msg_sender m) (bk_collateral _ Hbk)) as Hu. fold (totalValidatorCollateral (sa z) (msg_sender m)) in Hu.
  match type of Hr with _ ?z1 = _ => assert (Hg : goes 0 z z1) by (apply goes_local; [done..|]; intros Ha; split; [done|unfold owes; cbn; lia]) end.
  destruct (Hg Hbk) as (Hbk1 & Hs1 & _).
  destruct (bootstrapped (sa z)) eqn:Hb.
  - apply goes_withdraw in Hr; [|done]. destruct (Hr Hbk1) as (? & ? & _). split; [done|lia].
  - sainv. match goal with Hx : return_prefund _ _ _ = Ok _ |- _ => apply goes_return_prefund in Hx; [|done]; destruct (Hx Hbk1) as (Hbk2 & Hs2 & [=Hb2 _]) end.
    apply goes_withdrawWithConfirm in Hr; [|cbn in Hb2; congruence|apply Hu]. destruct (Hr Hbk2) as (? & ? & _). split; [done|lia].
Qed.
Lemma kill_spec block t g g' u : log_ok g → stake_of g = Some t → 0 <= t → kill G (mkMsg A 0 block) g = Ok (g', u) →
  stake_of g' = None ∧ get0 (balances g) A <= get0 (balances g') A.
Proof.
  intros Hl Ht Hpos Hr. unfold kill in Hr. ginv. destruct (getSubnet (st g) _) as [[] y] eqn:Hy; ginv; [|done].
  match goal with Ha : actor_subnet _ _ = Ok ?n |- _ => destruct (stake_of_Some _ _ _ _ Ht Ha Hy) as [-> <-] end.
  apply getSubnet_found in Hy. destruct (Hl _ _ Hy) as (Hk & _).
  apply sendValue_inv in Hr as (Hst & _ & Hmv). apply move_get0 in Hmv as [_ Hb]. cbn in Hb, Hst. rewrite decide_False in Hb by congruence.
  split; [|lia]. unfold stake_of. rewrite Hst. cbn. rewrite Hk. by rewrite lookup_delete_eq.
Qed.
Lemma kill_step m z z' u : books z → sa_kill A m z = Ok (z', u) → books z' ∧ surplus z <= surplus z'.
Proof.
  intros Hbk Hr. unfold sa_kill, notKilled in Hr. sainv. rewrite (bk_gateway _ Hbk) in *. destruct Hbk as [Hl Hg Hm Ham Hto Hco Hs].
  match goal with Hx : negb (killed (sa z)) = true, Hy : bootstrapped (sa z) = true |- _ =>
    apply negb_true_iff in Hx as Hki; rewrite Hx, Hy in Hs; rename Hy into Hb end. cbn in Hs. cbn [gw] in Hr.
  pose proof (logs_kill G no_callback_logs _ _ _ _ Hr Hl) as Hl'. destruct (kill_spec _ _ _ _ _ Hl Hs Hto Hr) as [Hst Hbal]. split.
  - split; [exact Hl'|exact Hg|exact Hm|exact Ham|exact Hto|exact Hco|]. cbn. rewrite Hst, andb_false_r. reflexivity.
  - unfold surplus, owes. cbn. rewrite Hb. lia.
Qed.
Lemma federated_step m l1 l2 l3 z z' u : books z → setFederatedPower A m l1 l2 l3 z = Ok (z', u) → False.
Proof.
  intros Hbk Hr. unfold setFederatedPower, notKilled, enforceIsContractOwner, enforceFederatedValidation in Hr. sainv.
  match goal with Hx : bool_decide _ = true |- _ => apply bool_decide_eq_true in Hx; rewrite (bk_mode _ Hbk) in Hx; done end.
Qed.

Inductive acall :=
| APreFund (m : Msg)
| APreRelease (m : Msg) (amount : Z)
| ASetFederatedPower (m : Msg) (validators : list address) (publicKeys : list bytes) (powers : list Z)
| AJoin (m : Msg) (publicKey : bytes)
| AStake (m : Msg)
| AUnstake (m : Msg) (amount : Z)
| ALeave (m : Msg)
| AKill (m : Msg)
| AAddBootstrapNode (m : Msg) (netAddress : string)
| AClaim (m : Msg)
| APause (m : Msg)
| AUnpause (m : Msg)
| ASubmitCheckpoint (m : Msg) (cp : BottomUpCheckpoint) (signatories : list address) (signatures : list bytes).
Definition run_acall (c : acall) : SM W unit :=
  match c with
  | APreFund m => preFund A m
  | APreRelease m v => preRelease A m v
  | ASetFederatedPower m l1 l2 l3 => setFederatedPower A m l1 l2 l3
  | AJoin m key => join A m key
  | AStake m => sa_stake A m
  | AUnstake m v => unstake A m v
  | ALeave m => leave A m
  | AKill m => sa_kill A m
  | AAddBootstrapNode m n => addBootstrapNode m n
  | AClaim m => sa_claim A m
  | APause m => pause m
  | AUnpause m => unpause m
  | ASubmitCheckpoint m cp ss sigs => submitCheckpoint A m cp ss sigs
  end.
Definition acall_ok (c : acall) : Prop :=
  match c with
  | APreFund m | AJoin m _ | AStake m => sender_ok m
  | APreRelease _ v | AUnstake _ v => uint 256 v
  | ASubmitCheckpoint _ cp _ _ => Forall (λ x, 0 <= value x) (cp_msgs cp)
  | _ => True
  end.
Lemma goes_step z z' : books z → goes 0 z z' → books z' ∧ surplus z <= surplus z'.
Proof. intros Hbk Hg. destruct (Hg Hbk) as (? & ? & _). split; [done|lia]. Qed.
Lemma acall_step c z z' u : books z → acall_ok c → run_acall c z = Ok (z', u) → books z' ∧ surplus z <= surplus z'.
Proof.
  intros Hbk Hc Hr. destruct c; cbn [run_acall acall_ok] in *.
  - destruct Hc as [? [? _]]. by eapply goes_step, goes_preFund.
  - eapply goes_step, goes_preRelease; [done|apply Hc|done].
  - by eapply federated_step in Hr.
  - by eapply join_step.
  - by eapply stake_step.
  - by eapply unstake_step.
  - by eapply leave_step.
  - by eapply kill_step.
  - apply goes_step; [done|]. unfold addBootstrapNode, whenNotPaused in Hr. sainv. apply goes_local; [done..|]. intros; split; [done|unfold owes; cbn; lia].
  - apply goes_step; [done|]. unfold sa_claim, whenNotPaused in Hr. sainv. by eapply goes_claimCollateral.
  - apply goes_step; [done|]. unfold pause, enforceIsContractOwner, whenNotPaused in Hr. sainv. apply goes_local; [done..|]. intros; split; [done|unfold owes; cbn; lia].
  - apply goes_step; [done|]. unfold unpause, enforceIsContractOwner in Hr. sainv. apply goes_local; [done..|]. intros; split; [done|unfold owes; cbn; lia].
  - by eapply submitCheckpoint_step.
Qed.

(** ** The two contracts together *)

(** A call of the actor, a call of the gateway by somebody else, the top-down messages of a
    block, or anything elsewhere that does not take from the two contracts. *)
Inductive sys_step : Sa W → Sa W → Prop :=
| sys_actor c z z' : acall_ok c → run_acall c z = Ok (z', ()) → sys_step z z'
| sys_gateway c z g' : gcall_ok G c → gcall_sender c ≠ Some A → run_gcall G c (gw z) = Ok (g', ()) →
    sys_step z (mkSa (sa z) g' (requests z))
| sys_topdown m msgs z g' : Forall (λ x, 0 <= value x) msgs →
    applyCrossMessages G m msgs (mint G (gw z) (total_value msgs)) = Ok (g', ()) → sys_step z (mkSa (sa z) g' (requests z))
| sys_elsewhere z b w : get0 (balances (gw z)) A <= get0 b A → get0 (balances (gw z)) G <= get0 b G →
    sys_step z (mkSa (sa z) (mkGw (st (gw z)) b (sent (gw z)) w) (requests z)).

Lemma sys_gateway_step z g' : (log_ok (gw z) → log_ok g' ∧ unharmed (gw z) g') → books z →
  books (mkSa (sa z) g' (requests z)) ∧ surplus z <= surplus (mkSa (sa z) g' (requests z)).
Proof. intros Hg Hbk. apply goes_step; [done|]. by apply goes_gateway. Qed.
Lemma topdown_unharmed m msgs g g' : Forall (λ x, 0 <= value x) msgs →
  applyCrossMessages G m msgs (mint G g (total_value msgs)) = Ok (g', ()) → unharmed g g'.
Proof.
  intros Hv Hr. unfold applyCrossMessages, systemActorOnly in Hr. ginv. apply spares_applyMessages in Hr; [|done].
  eapply unharmed_trans; [|exact Hr]. apply unharmed_st; [done..|]. cbn. by rewrite get0_insert_ne.
Qed.
Lemma sys_step_books z z' : sys_step z z' → books z → books z' ∧ surplus z <= surplus z'.
Proof.
  intros [c z1 z2 Hc Hr|c z1 g' Hc Hs Hr|m msgs z1 g' Hv Hr|z1 b w Ha Hg] Hbk.
  - by eapply acall_step.
  - apply sys_gateway_step; [|done]. intros Hl. split; [by eapply (logs_gcall G hash_inj no_callback_logs)|by eapply gcall_unharmed].
  - apply sys_gateway_step; [|done]. intros Hl. split; [|by eapply topdown_unharmed].
    eapply (gw_step_log G hash_inj no_callback_logs); [|done]. by eapply step_topdown.
  - apply sys_gateway_step; [|done]. intros Hl. split; [by apply (log_ok_same (gw z1))|by apply unharmed_st].
Qed.
Lemma sys_steps_books z z' : rtc sys_step z z' → books z → books z' ∧ surplus z <= surplus z'.
Proof.
  induction 1 as [z|z1 z2 z3 Hs _ IH]; intros Hbk; [split; [done|lia]|].
  destruct (sys_step_books _ _ Hs Hbk) as [Hbk2 ?]. destruct (IH Hbk2). split; [done|lia].
Qed.
Lemma constructor_books p token s g r : subnet_actor_constructor p token = Ok s → sa_permissionMode p = Collateral →
  ipcGatewayAddr p = G → log_ok g → stake_of g = None → books (mkSa s g r) ∧ owes s = 0.
Proof.
  intros Hs Hm Hg Hl Hst. unfold subnet_actor_constructor in Hs. inv_outcome; (split;
    [split; cbn; rewrite ?Hm; done
    |unfold owes, pending, queued; cbn; by rewrite !msum_empty]).
Qed.
(** What the actor owes is a sum of amounts. *)
Lemma owes_parts z : books z → 0 <= pending (changeSet (sa z)) ∧ 0 <= queued (releaseQueue (sa z)).
Proof.
  intros Hbk. destruct (bk_amounts _ Hbk) as (Hc & Hq & _). split; apply msum_nonneg.
  - intros k c Hx. specialize (Hc _ _ Hx). cbn in Hc. unfold deposit_of. destruct (op c); try lia; destruct Hc as (v & -> & ?); lia.
  - intros k q Hx. apply msum_nonneg. intros k' e He. exact (Hq _ _ Hx _ _ He).
Qed.

(** ** The pre-funds of the accounts

    [genesisBalance] is what each account has pre-funded, and [genesisCircSupply] counts what
    registration will send.  They differ by what [leave] paid out, since it does not clear the
    balance of the account. *)
Definition prefunds (s : SubnetActorStorage) : Z := msum id (genesisBalance s).
Definition keeps_prefunds {X} (c : SM W X) : Prop := ∀ z z' r, c z = Ok (z', r) →
  genesisBalance (sa z') = genesisBalance (sa z) ∧ genesisCircSupply (sa z') = genesisCircSupply (sa z).
Lemma keeps_outer {X} (c : GM W X) : keeps_prefunds (outer c).
Proof. intros z z' r Hr. by sainv. Qed.
Lemma keeps_request f : keeps_prefunds (request_change f).
Proof. intros z z' r Hr. unfold request_change in Hr. by sainv. Qed.
Lemma keeps_deposit a v : keeps_prefunds (deposit (W := W) a v).
Proof. intros z z' r Hr. unfold deposit, request_change in Hr. by sainv. Qed.
Lemma keeps_withdraw a v : keeps_prefunds (withdraw (W := W) a v).
Proof. intros z z' r Hr. unfold withdraw, request_change in Hr. by sainv. Qed.
Lemma keeps_depositWithConfirm a v : keeps_prefunds (depositWithConfirm (W := W) a v).
Proof. intros z z' r Hr. unfold depositWithConfirm in Hr. sainv. case_match; by sainv. Qed.
Lemma keeps_withdrawWithConfirm a v : keeps_prefunds (withdrawWithConfirm A (W := W) a v).
Proof. intros z z' r Hr. unfold withdrawWithConfirm in Hr. by sainv. Qed.
Lemma keeps_bootstrap m : keeps_prefunds (bootstrapSubnetIfNeeded A m).
Proof. intros z z' r Hr. unfold bootstrapSubnetIfNeeded in Hr. sainv. case_match; by sainv. Qed.
Lemma keeps_confirm_one m c : keeps_prefunds (confirm_one A m c).
Proof. intros z z' r Hr. unfold confirm_one in Hr. sainv. destruct (op c); by sainv. Qed.
Lemma keeps_confirm_loop m n i : keeps_prefunds (confirm_loop A m n i).
Proof.
  revert i. induction n as [|n IH]; intros i z z' r Hr; cbn in Hr; sainv; [done|]. apply IH in Hr as [-> ->].
  match goal with Hx : confirm_one _ _ _ _ = Ok _ |- _ => by apply keeps_confirm_one in Hx end.
Qed.
Lemma keeps_powers l : keeps_prefunds (genesis_powers (W := W) l) ∧ keeps_prefunds (postBootstrapSetFederatedPower (W := W) l).
Proof.
  induction l as [|[[a key] power] l [IH1 IH2]]; split; intros z z' r Hr; cbn in Hr; [by sainv..| |].
  - unfold setMetadataWithConfirm, setFederatedPowerWithConfirm in Hr. sainv. by apply IH1 in Hr.
  - unfold setFederatedPower_request, request_change in Hr. sainv. by apply IH2 in Hr.
Qed.
Lemma keeps_setFederatedPower m l1 l2 l3 : keeps_prefunds (setFederatedPower A m l1 l2 l3).
Proof.
  intros z1 z2 r Hr. unfold setFederatedPower, notKilled, enforceIsContractOwner, enforceFederatedValidation, preBootstrapSetFederatedPower in Hr.
  sainv. case_match; [by apply keeps_powers in Hr|]. sainv.
  match goal with Hx : genesis_powers _ _ = Ok _ |- _ => by apply keeps_powers in Hx end.
Qed.
Lemma keeps_join m key : keeps_prefunds (join A m key).
Proof.
  intros z1 z2 r Hr. unfold join, whenNotPaused, notKilled, enforceCollateralValidation in Hr. sainv.
  destruct (bootstrapped _); sainv.
  - unfold setValidatorMetadata in *. apply keeps_deposit in Hr as [-> ->].
    match goal with Hx : request_change _ _ = Ok _ |- _ => by apply keeps_request in Hx end.
  - unfold setMetadataWithConfirm in *. sainv. apply keeps_bootstrap in Hr as [-> ->].
    match goal with Hx : depositWithConfirm _ _ _ = Ok _ |- _ => by apply keeps_depositWithConfirm in Hx end.
Qed.
Lemma keeps_stake m : keeps_prefunds (sa_stake A m).
Proof.
  intros z1 z2 r Hr. unfold sa_stake, whenNotPaused, notKilled, enforceCollateralValidation in Hr. sainv.
  destruct (bootstrapped _); sainv; [by apply keeps_deposit in Hr|]. apply keeps_bootstrap in Hr as [-> ->].
  match goal with Hx : depositWithConfirm _ _ _ = Ok _ |- _ => by apply keeps_depositWithConfirm in Hx end.
Qed.
Lemma keeps_unstake m v : keeps_prefunds (unstake A m v).
Proof.
  intros z1 z2 r Hr. unfold unstake, whenNotPaused, notKilled, enforceCollateralValidation in Hr. sainv.
  case_match; [by apply keeps_withdraw in Hr|by apply keeps_withdrawWithConfirm in Hr].
Qed.
Lemma keeps_kill m : keeps_prefunds (sa_kill A m).
Proof. intros z1 z2 r Hr. unfold sa_kill, notKilled in Hr. by sainv. Qed.
Lemma keeps_submitCheckpoint m cp l1 l2 : keeps_prefunds (submitCheckpoint A m cp l1 l2).
Proof.
  intros z1 z2 r Hr. unfold submitCheckpoint, whenNotPaused, ensureValidCheckpoint, confirmChange in Hr. sainv.
  assert (Hgo : ∀ z, sa z = sa z1 → genesisBalance (sa z) = genesisBalance (sa z1) ∧ genesisCircSupply (sa z) = genesisCircSupply (sa z1)) by (by intros z ->).
  repeat case_match; sainv; try done;
  match goal with Hx : confirm_loop _ _ _ _ _ = Ok _ |- _ => by apply keeps_confirm_loop in Hx end.
Qed.
Lemma leave_keeps m z z' u : bootstrapped (sa z) = true ∨ get0 (genesisBalance (sa z)) (msg_sender m) = 0 → leave A m z = Ok (z', u) →
  genesisBalance (sa z') = genesisBalance (sa z) ∧ genesisCircSupply (sa z') = genesisCircSupply (sa z).
Proof.
  intros Hst Hr. unfold leave, whenNotPaused, notKilled, enforceCollateralValidation, return_prefund in Hr. sainv.
  destruct (bootstrapped (sa z)) eqn:Hb; sainv.
  - by apply keeps_withdraw in Hr.
  - destruct Hst as [|Hz]; [done|]. cbn in *. rewrite Hz in *. cbn in *. by sainv.
Qed.
(** Every call keeps the two in step but one: a pre-funded validator that leaves before the bootstrap. *)
Definition stays (c : acall) z : Prop :=
  match c with ALeave m => bootstrapped (sa z) = true ∨ get0 (genesisBalance (sa z)) (msg_sender m) = 0 | _ => True end.
Lemma acall_prefunds c z z' u : stays c z → run_acall c z = Ok (z', u) →
  prefunds (sa z') - genesisCircSupply (sa z') = prefunds (sa z) - genesisCircSupply (sa z).
Proof.
  assert (Hk : ∀ {X} (k : SM W X) z z' r, keeps_prefunds k → k z = Ok (z', r) →
    prefunds (sa z') - genesisCircSupply (sa z') = prefunds (sa z) - genesisCircSupply (sa z)).
  { intros X k z1 z2 r Hk [Hb Hc]%Hk. unfold prefunds. by rewrite Hb, Hc. }
  assert (Hins : ∀ (b : gmap Z Z) a v, msum id (<[a := v]> b) = msum id b + v - get0 b a).
  { intros b a v. rewrite msum_insert. unfold get0. destruct (b !! a); cbn; unfold id; lia. }
  intros Hst Hr. destruct c; cbn [run_acall stays] in *.
  - unfold preFund in Hr. sainv. unfold prefunds. case_match; cbn; rewrite Hins; lia.
  - unfold preRelease in Hr. sainv. unfold prefunds. case_match; cbn; rewrite Hins; lia.
  - eapply Hk, Hr. apply keeps_setFederatedPower.
  - eapply Hk, Hr. apply keeps_join.
  - eapply Hk, Hr. apply keeps_stake.
  - eapply Hk, Hr. apply keeps_unstake.
  - destruct (leave_keeps m z z' u Hst Hr) as [Hb Hc]. unfold prefunds. by rewrite Hb, Hc.
  - eapply Hk, Hr. apply keeps_kill.
  - unfold addBootstrapNode, whenNotPaused in Hr. by sainv.
  - unfold sa_claim, whenNotPaused, claimCollateral in Hr. by sainv.
  - unfold pause, enforceIsContractOwner, whenNotPaused in Hr. by sainv.
  - unfold unpause, enforceIsContractOwner in Hr. by sainv.
  - eapply Hk, Hr. apply keeps_submitCheckpoint.
Qed.

Inductive quiet_step : Sa W → Sa W → Prop :=
| quiet_actor c z z' : acall_ok c → stays c z → run_acall c z = Ok (z', ()) → quiet_step z z'
| quiet_other z z' : sys_step z z' → sa z' = sa z → quiet_step z z'.
Lemma quiet_prefunds z z' : rtc quiet_step z z' → prefunds (sa z') - genesisCircSupply (sa z') = prefunds (sa z) - genesisCircSupply (sa z).
Proof.
  induction 1 as [z|z1 z2 z3 Hs _ IH]; [done|]. rewrite IH.
  destruct Hs as [c z z' _ Hst Hr|z z' _ ->]; [by eapply acall_prefunds|done].
Qed.

(** C6.  The collateral of a subnet is backed.  Take a subnet actor in the collateral mode and
    its gateway, from the constructor of the actor on, and any sequence of calls of the two,
    blocks of top-down messages and transactions elsewhere that take nothing from them, where
    the accounts that are paid do not call back.  While the subnet is live its stake at the
    gateway is the confirmed collateral of its validators, and at no other time has it a stake;
    and the actor holds the deposits that wait to be confirmed, the collateral that waits to be
    claimed and, before the bootstrap, all the collateral and the supply that it will register
    the subnet with, which the counter [genesisCircSupply] holds.  If no validator with a
    pre-fund leaves before the bootstrap, that counter is the sum of what all accounts have
    pre-funded; without that it may be less, as [leave] takes the same pre-fund off it every
    time. *)
Theorem collateral_backed p token s0 c limit vs t0 b w g r z :
  gateway_constructor c limit vs = Ok t0 → rtc (gw_step G) (mkGw t0 b [] w) g → stake_of g = None → 0 <= get0 (balances g) A →
  subnet_actor_constructor p token = Ok s0 → sa_permissionMode p = Collateral → ipcGatewayAddr p = G →
  rtc sys_step (mkSa s0 g r) z →
  stake_of (gw z) = (if bootstrapped (sa z) && negb (killed (sa z))
    then Some (totalConfirmedCollateral (validatorSet (sa z))) else None) ∧
  0 <= pending (changeSet (sa z)) ∧ 0 <= queued (releaseQueue (sa z)) ∧
  pending (changeSet (sa z)) + queued (releaseQueue (sa z)) +
    (if bootstrapped (sa z) then 0 else totalConfirmedCollateral (validatorSet (sa z)) + genesisCircSupply (sa z))
    <= get0 (balances (gw z)) A ∧
  (rtc quiet_step (mkSa s0 g r) z → genesisCircSupply (sa z) = msum id (genesisBalance (sa z))).
Proof.
  intros Ht0 Hrun Hst Hb Hs0 Hm Hg Hz. pose proof (reachable_log G hash_inj no_callback_logs _ _ _ _ _ _ _ Ht0 Hrun) as Hl.
  destruct (constructor_books _ _ _ _ r Hs0 Hm Hg Hl Hst) as [Hbk Ho].
  destruct (sys_steps_books _ _ Hz Hbk) as [Hbk' Hsur]. destruct (owes_parts _ Hbk').
  unfold surplus in Hsur. cbn [sa gw] in Hsur. rewrite Ho in Hsur. unfold owes in Hsur. split_and!; [apply Hbk'|done..|lia|].
  intros Hq%quiet_prefunds. cbn [sa] in Hq. assert (prefunds s0 = 0 ∧ genesisCircSupply s0 = 0) as [E1 E2].
  { clear -Hs0. unfold subnet_actor_constructor in Hs0. unfold prefunds. inv_outcome; cbn; by rewrite msum_empty. }
  rewrite E1, E2 in Hq. unfold prefunds in Hq. lia.
Qed.
End backing.

(** ** Example: [8] joins the actor [7] and starts the subnet, [9] joins it, a checkpoint
    confirms that, and [8] takes out a part *)
#[local] Existing Instance example_hash.
#[local] Existing Instance toy_crypto.
#[local] Existing Instance example_keys.
#[local] Existing Instance accepting_outside.
Fixpoint run_acalls (cs : list acall) (z : Sa unit) : result (Sa unit) :=
  match cs with [] => Ok z | c :: cs => z' ← run_acall 7 c z; run_acalls cs z'.1 end.
Definition example_life : list acall :=
  [APreFund (mkMsg 9 5 1); AJoin (mkMsg 8 100 1) (example_key 8); AJoin (mkMsg 9 20 2) (example_key 9);
   ASubmitCheckpoint (mkMsg 8 0 3) (mkCheckpoint example_sub 10 0 2 []) [8] [[8]]; AUnstake (mkMsg 8 0 4) 30;
   AStake (mkMsg 9 2 5)].
Lemma run_acalls_quiet cs z z' : Forall (λ c, acall_ok 7 c ∧ ∀ m, c ≠ ALeave m) cs → run_acalls cs z = Ok z' → rtc (quiet_step 7 500) z z'.
Proof.
  revert z. induction cs as [|c cs IH]; cbn [run_acalls]; intros z Hc Hr; [by simplify_eq|]. apply Forall_cons in Hc as [[Hc Hl] Hcs].
  destruct (run_acall 7 c z) as [[z1 []]| | |] eqn:E; try done. eapply rtc_l; [|by apply IH].
  apply (quiet_actor 7 500 c); [done| |done]. destruct c; try done. by destruct (Hl m).
Qed.
Lemma run_acalls_rtc cs z z' : Forall (acall_ok 7) cs → run_acalls cs z = Ok z' → rtc (sys_step 7 500) z z'.
Proof.
  revert z. induction cs as [|c cs IH]; cbn [run_acalls]; intros z Hc Hr; [by simplify_eq|]. apply Forall_cons in Hc as [Hc Hcs].
  destruct (run_acall 7 c z) as [[z1 []]| | |] eqn:E; try done. eapply rtc_l; [exact (sys_actor 7 500 c _ _ Hc E)|]. by apply IH.
Qed.
Lemma collateral_backed_witness :
  ∃ z, run_acalls example_life (example_actor {[8 := 100; 9 := 30]}) = Ok z ∧
    stake_of 7 (gw z) = Some 120 ∧ pending (changeSet (sa z)) = 2 ∧
    pending (changeSet (sa z)) + queued (releaseQueue (sa z)) <= get0 (balances (gw z)) 7 ∧
    msum id (genesisBalance (sa z)) = 5.
Proof.
  destruct (run_acalls example_life (example_actor {[8 := 100; 9 := 30]})) as [z| | |] eqn:E; [|vm_compute in E; discriminate E..].
  assert (Hz : stake_of 7 (gw z) = Some 120 ∧ pending (changeSet (sa z)) = 2 ∧ bootstrapped (sa z) = true ∧ genesisCircSupply (sa z) = 5).
  { vm_compute in E. injection E as <-. split_and!; vm_compute; reflexivity. }
  exists z. split; [done|]. destruct Hz as (Hst & Hp & Hb & Hs). split; [done|]. split; [done|].
  assert (Hrun : rtc (sys_step 7 500) (example_actor {[8 := 100; 9 := 30]}) z).
  { eapply run_acalls_rtc; [|exact E]. repeat constructor; cbn; done || lia. }
  assert (Hquiet : rtc (quiet_step 7 500) (example_actor {[8 := 100; 9 := 30]}) z).
  { eapply run_acalls_quiet; [|exact E]. repeat constructor; cbn; done || lia. }
  destruct (gateway_constructor (example_config example_root) 10 []) as [t0| | |] eqn:Et; [|vm_compute in Et; discriminate Et..].
  destruct (subnet_actor_constructor example_params true) as [s0| | |] eqn:Es; [|vm_compute in Es; discriminate Es..].
  assert (He : example_actor {[8 := 100; 9 := 30]} = mkSa s0 (mkGw t0 {[8 := 100; 9 := 30]} [] ()) []).
  { unfold example_actor, example_start. rewrite Es, Et. reflexivity. }
  rewrite He in Hrun, Hquiet.
  destruct (collateral_backed 7 500 example_hash_inj ltac:(done) ltac:(done) example_params true s0 (example_config example_root) 10 []
    t0 {[8 := 100; 9 := 30]} () (mkGw t0 {[8 := 100; 9 := 30]} [] ()) [] z Et (rtc_refl _ _)) as (_ & _ & _ & Hle & Hpre).
  - vm_compute in Et. injection Et as <-. vm_compute. reflexivity.
  - vm_compute. discriminate.
  - exact Es.
  - reflexivity.
  - reflexivity.
  - exact Hrun.
  - rewrite Hb in Hle. specialize (Hpre Hquiet). split; lia.
Defined.
