(* ===== verification/ProviderCache.v ===== *)
(** * Signed records and the cache of subnet providers
    ([ipld/resolver/src/{timestamp,signed_record,provider_record,vote_record,provider_cache}.rs])

    Agents gossip signed records: which subnets a peer serves, and how a validator votes.
    The cache keeps, for each subnet, the peers that said they serve it.  The main theorem
    compares it with its specification, the newest record of every routable peer. *)

From Stdlib Require Import Ascii String.
From stdpp Require Import base tactics numbers list gmap sorting strings.
From S2P Require Import Prelude IpcApi Provider.

Open Scope Z_scope.

(** ** Timestamps ([timestamp.rs])

    A [Duration] is a number of nanoseconds; a timestamp counts whole seconds. *)
Notation Duration := Z (only parsing).
Definition as_secs (d : Duration) : Z := d / 10 ^ 9.
Definition ts_sub (t : Z) (d : Duration) : Z := saturating_sub t (as_secs d).
Definition ts_add (t : Z) (d : Duration) : Z := Z.min (t + as_secs d) U64_MAX.

(** ** Signed records ([signed_record.rs]) *)

(** Keys, peer ids and signed envelopes of libp2p. *)
Class Libp2p (Key Pub Peer Envelope : Type) := {
  key_public : Key → Pub;
  to_peer_id : Pub → Peer;
  envelope_new : Key → string → string → bytes → option Envelope;
  payload_and_signing_key : Envelope → string → string → option (bytes * Pub);
  into_protobuf_encoding : Envelope → bytes;
  from_protobuf_encoding : bytes → option Envelope;
}.
(** An envelope can be read with the domain and the type of payload it was made for, and
    with no other type. *)
Class Libp2pLaws (Key Pub Peer Envelope : Type) `{Libp2p Key Pub Peer Envelope} : Prop := {
  envelope_read k d t p e : envelope_new k d t p = Some e → payload_and_signing_key e d t = Some (p, key_public k);
  envelope_typed e d t1 t2 x1 x2 : payload_and_signing_key e d t1 = Some x1 → payload_and_signing_key e d t2 = Some x2 → t1 = t2;
  protobuf_roundtrip e : from_protobuf_encoding (into_protobuf_encoding e) = Some e;
}.
(** [fvm_ipld_encoding] on a type of records. *)
Class Ipld (R : Type) := { to_vec : R → option bytes; from_slice : bytes → option R }.
Class IpldLaws (R : Type) `{Ipld R} : Prop := { from_slice_to_vec r b : to_vec r = Some b → from_slice b = Some r }.

(** The trait [Record]. *)
Class SomeRecord (Pub R : Type) := { payload_type : string; check_signing_key : R → Pub → bool }.
Arguments payload_type {Pub} R {_}.

Inductive FromEnvelopeError := BadPayload | InvalidRecord | MismatchedSignature.
Inductive RecordError := InvalidEnvelope | FromEnvelope (e : FromEnvelopeError) | EncodingFailed | SigningFailed.
Definition DOMAIN_SEP : string := "/ipc/ipld/resolver".

Record SignedRecord (R Envelope : Type) := mkSigned { record : R; envelope : Envelope }.
Arguments mkSigned {R Envelope} _ _.
Arguments record {R Envelope} _.
Arguments envelope {R Envelope} _.

Section signed.
Context {Key Pub Peer Envelope R : Type} `{Libp2p Key Pub Peer Envelope} `{Ipld R} `{!SomeRecord Pub R}.

Definition signed_new (key : Key) (r : R) : outcome RecordError (SignedRecord R Envelope) :=
  payload ← ok_or EncodingFailed (to_vec r);
  e ← ok_or SigningFailed (envelope_new key DOMAIN_SEP (payload_type R) payload);
  Ok (mkSigned r e).
Definition from_signed_envelope (e : Envelope) : outcome FromEnvelopeError (SignedRecord R Envelope) :=
  pk ← ok_or BadPayload (payload_and_signing_key e DOMAIN_SEP (payload_type R));
  r ← ok_or InvalidRecord (from_slice pk.1);
  if negb (check_signing_key r pk.2) then Err MismatchedSignature else Ok (mkSigned r e).
Definition signed_from_bytes (b : bytes) : outcome RecordError (SignedRecord R Envelope) :=
  e ← ok_or InvalidEnvelope (from_protobuf_encoding b);
  map_err FromEnvelope (from_signed_envelope e).
End signed.

(** ** Provider and vote records ([provider_record.rs], [vote_record.rs]) *)

Record ProviderRecord (N Peer : Type) := mkProvider { peer_id : Peer; subnet_ids : list N; timestamp : Z }.
Arguments mkProvider {N Peer} _ _ _.
Arguments peer_id {N Peer} _.
Arguments subnet_ids {N Peer} _.
Arguments timestamp {N Peer} _.
Record VoteRecord (N Pub C : Type) := mkVote { public_key : Pub; vote_subnet : N; content : C; vote_timestamp : Z }.
Arguments mkVote {N Pub C} _ _ _ _.
Arguments public_key {N Pub C} _.
Arguments vote_subnet {N Pub C} _.
Arguments content {N Pub C} _.
Arguments vote_timestamp {N Pub C} _.

Section records.
Context {N C Key Pub Peer Envelope : Type} `{!EqDecision Pub} `{!EqDecision Peer} `{Libp2p Key Pub Peer Envelope} `{!Ipld (ProviderRecord N Peer)} `{!Ipld (VoteRecord N Pub C)}.

#[export] Instance provider_record_record : SomeRecord Pub (ProviderRecord N Peer) :=
  {| payload_type := "/ipc/provider-record"; check_signing_key r key := bool_decide (peer_id r = to_peer_id key) |}.
#[export] Instance vote_record_record : SomeRecord Pub (VoteRecord N Pub C) :=
  {| payload_type := "/ipc/vote-record"; check_signing_key r key := bool_decide (public_key r = key) |}.
(** [now] is the clock. *)
Definition provider_signed (now : Z) (key : Key) (ids : list N) : outcome RecordError (SignedRecord (ProviderRecord N Peer) Envelope) :=
  signed_new key (mkProvider (to_peer_id (key_public key)) ids now).
Definition vote_signed (now : Z) (key : Key) (n : N) (c : C) : outcome RecordError (SignedRecord (VoteRecord N Pub C) Envelope) :=
  signed_new key (mkVote (key_public key) n c now).
End records.

(** ** The cache ([provider_cache.rs]) *)

Record ProviderDelta (N : Type) := mkDelta { is_new : bool; added : list N; removed : list N }.
Arguments mkDelta {N} _ _ _.
Arguments is_new {N} _.
Arguments added {N} _.
Arguments removed {N} _.
Definition delta_is_empty {N} (d : ProviderDelta N) : bool :=
  match added d, removed d with [], [] => true | _, _ => false end.

Record SubnetProviderCache (N Peer : Type) `{Countable N} `{Countable Peer} := mkCache {
  max_subnets : Z;
  pinned_subnets : gset N;
  routable_peers : gset Peer;
  subnet_providers : gmap N (gset Peer);
  peer_timestamps : gmap Peer Z;
}.
Arguments mkCache {N Peer _ _ _ _} _ _ _ _ _.
Arguments max_subnets {N Peer _ _ _ _} _.
Arguments pinned_subnets {N Peer _ _ _ _} _.
Arguments routable_peers {N Peer _ _ _ _} _.
Arguments subnet_providers {N Peer _ _ _ _} _.
Arguments peer_timestamps {N Peer _ _ _ _} _.

(** A [HashMap] is visited in an order that is not specified. *)
Class HashOrder (N Peer : Type) `{Countable N} `{Countable Peer} := {
  iter_subnets : gmap N (gset Peer) → list (N * gset Peer);
  iter_peers : gmap Peer Z → list (Peer * Z);
  iter_subnets_perm m : iter_subnets m ≡ₚ map_to_list m;
  iter_peers_perm m : iter_peers m ≡ₚ map_to_list m;
}.

Section cache.
Context {N Peer : Type} `{Countable N} `{Countable Peer} `{!HashOrder N Peer}.
Implicit Types (c : SubnetProviderCache N Peer) (n : N) (p : Peer).

Definition cache_new (max : Z) (static_subnets : list N) : SubnetProviderCache N Peer :=
  mkCache max (list_to_set static_subnets) ∅ ∅ ∅.
Definition cache_pin_subnet c n : SubnetProviderCache N Peer :=
  mkCache (max_subnets c) ({[n]} ∪ pinned_subnets c) (routable_peers c) (subnet_providers c) (peer_timestamps c).
Definition cache_unpin_subnet c n : SubnetProviderCache N Peer :=
  mkCache (max_subnets c) (pinned_subnets c ∖ {[n]}) (routable_peers c) (subnet_providers c) (peer_timestamps c).
Definition cache_set_routable c p : SubnetProviderCache N Peer :=
  mkCache (max_subnets c) (pinned_subnets c) ({[p]} ∪ routable_peers c) (subnet_providers c) (peer_timestamps c).
Definition cache_set_unroutable c p : SubnetProviderCache N Peer :=
  mkCache (max_subnets c) (pinned_subnets c) (routable_peers c ∖ {[p]})
    ((λ ps : gset Peer, ps ∖ {[p]}) <$> subnet_providers c) (delete p (peer_timestamps c)).
Definition is_routable c p : bool := bool_decide (p ∈ routable_peers c).
Definition has_timestamp c p : bool := bool_decide (is_Some (peer_timestamps c !! p)).

(** The subnets the peer no longer serves, in the order of the map. *)
Definition remove_peer (ids : list N) p (m : gmap N (gset Peer)) : gmap N (gset Peer) * list N :=
  (map_imap (λ n ps, Some (if bool_decide (n ∈ ids) then ps else ps ∖ {[p]})) m,
   omap (λ e : N * gset Peer, if negb (bool_decide (e.1 ∈ ids)) && bool_decide (p ∈ e.2) then Some e.1 else None) (iter_subnets m)).
Fixpoint insert_peer (ids : list N) p (m : gmap N (gset Peer)) : gmap N (gset Peer) * list N :=
  match ids with
  | [] => (m, [])
  | n :: ids =>
      let ps := default ∅ (m !! n) in
      let '(m', l) := insert_peer ids p (<[n := {[p]} ∪ ps]> m) in
      (m', if bool_decide (p ∈ ps) then l else n :: l)
  end.
(** The loop of [prune_subnets] over the subnets in the order of their sizes. *)
Fixpoint prune_counts (pinned : gset N) (to_prune : Z) (counts : list (N * Z)) (m : gmap N (gset Peer)) (gone : gset N) : gmap N (gset Peer) * gset N :=
  match counts with
  | [] => (m, gone)
  | (n, _) :: counts =>
      if bool_decide (n ∈ pinned) then prune_counts pinned to_prune counts m gone else
      let gone := {[n]} ∪ gone in
      if Z.of_nat (size gone) =? to_prune then (delete n m, gone) else prune_counts pinned to_prune counts (delete n m) gone
  end.
Definition prune_subnets c : SubnetProviderCache N Peer * gset N :=
  let to_prune := saturating_sub (Z.of_nat (size (subnet_providers c))) (max_subnets c) in
  if to_prune <=? 0 then (c, ∅) else
  let counts := sort_by_key snd ((λ e : N * gset Peer, (e.1, Z.of_nat (size e.2))) <$> iter_subnets (subnet_providers c)) in
  let '(m, gone) := prune_counts (pinned_subnets c) to_prune counts (subnet_providers c) ∅ in
  (mkCache (max_subnets c) (pinned_subnets c) (routable_peers c) m (peer_timestamps c), gone).
Definition add_provider c (r : ProviderRecord N Peer) : SubnetProviderCache N Peer * option (ProviderDelta N) :=
  let p := peer_id r in
  if negb (is_routable c p) then (c, None) else
  let new := negb (has_timestamp c p) in
  let t := default 0 (peer_timestamps c !! p) in
  if t <? timestamp r then
    let '(m, gone) := remove_peer (subnet_ids r) p (subnet_providers c) in
    let '(m, fresh) := insert_peer (subnet_ids r) p m in
    let '(c, pruned) := prune_subnets (mkCache (max_subnets c) (pinned_subnets c) (routable_peers c) m (<[p := timestamp r]> (peer_timestamps c))) in
    (c, Some (mkDelta new (filter (λ n, n ∉ pruned) fresh) gone))
  else
    (mkCache (max_subnets c) (pinned_subnets c) (routable_peers c) (subnet_providers c) (<[p := t]> (peer_timestamps c)),
     Some (mkDelta new [] [])).
Definition prune_providers c (cutoff : Z) : SubnetProviderCache N Peer * list Peer :=
  let to_prune := omap (λ e : Peer * Z, if e.2 <? cutoff then Some e.1 else None) (iter_peers (peer_timestamps c)) in
  (foldl cache_set_unroutable c to_prune, to_prune).
(** The order of the peers is that of a hash set. *)
Definition cache_providers_of_subnet c n : gset Peer := default ∅ (subnet_providers c !! n).
End cache.

(** ** What the records guarantee *)

Section signed_lemmas.
Context {Key Pub Peer Envelope : Type} `{Libp2pLaws Key Pub Peer Envelope}.

(** A record that is signed with the key it names can be read back from its bytes. *)
Lemma signed_roundtrip {R} `{IpldLaws R} `{!SomeRecord Pub R} (key : Key) (r : R) (s : SignedRecord R Envelope) :
  signed_new key r = Ok s → check_signing_key r (key_public key) = true →
  record s = r ∧ signed_from_bytes (into_protobuf_encoding (envelope s)) = Ok s.
Proof.
  intros Hs Hk. unfold signed_new in Hs. destruct (to_vec r) as [b|] eqn:Hb; [|done]. cbn in Hs.
  destruct (envelope_new key DOMAIN_SEP _ b) as [e|] eqn:He; [|done]. cbn in Hs. simplify_eq/=. split; [done|].
  unfold signed_from_bytes. rewrite protobuf_roundtrip. cbn. unfold from_signed_envelope.
  rewrite (envelope_read _ _ _ _ _ He). cbn. rewrite (from_slice_to_vec _ _ Hb). cbn. by rewrite Hk.
Qed.
(** Whatever bytes arrive, a record that is accepted was in an envelope that verifies under
    the key that the record names, for this type of record. *)
Lemma signed_from_bytes_sound {R} `{Ipld R} `{!SomeRecord Pub R} (b : bytes) (s : SignedRecord R Envelope) :
  signed_from_bytes b = Ok s →
  ∃ payload pub, from_protobuf_encoding b = Some (envelope s) ∧
    payload_and_signing_key (envelope s) DOMAIN_SEP (payload_type R) = Some (payload, pub) ∧
    from_slice payload = Some (record s) ∧ check_signing_key (record s) pub = true.
Proof.
  unfold signed_from_bytes, from_signed_envelope. intros Hs. destruct (from_protobuf_encoding b) as [e|] eqn:He; [|done]. cbn in Hs.
  destruct (payload_and_signing_key e _ _) as [[payload pub]|] eqn:Hp; [|done]. cbn in Hs.
  destruct (from_slice payload) as [r|] eqn:Hr; [|done]. cbn in Hs. destruct (check_signing_key r pub) eqn:Hk; [|done]. cbn in Hs.
  simplify_eq/=. by exists payload, pub.
Qed.
End signed_lemmas.

(** ** The cache and the newest records *)

Section cache_lemmas.
Context {N Peer : Type} `{Countable N} `{Countable Peer} `{!HashOrder N Peer}.
Implicit Types (c : SubnetProviderCache N Peer) (n : N) (p q : Peer) (m : gmap N (gset Peer)) (ids : list N).

Definition serves m n p : Prop := p ∈ default ∅ (m !! n).

Lemma serves_insert m n n' ps p : serves (<[n := ps]> m) n' p ↔ if decide (n' = n) then p ∈ ps else serves m n' p.
Proof. unfold serves. case_decide; subst; [by rewrite lookup_insert_eq|by rewrite lookup_insert_ne]. Qed.
Lemma iter_subnets_elem m n ps : (n, ps) ∈ iter_subnets m ↔ m !! n = Some ps.
Proof. rewrite iter_subnets_perm. apply elem_of_map_to_list. Qed.
Lemma iter_peers_elem (m : gmap Peer Z) p t : (p, t) ∈ iter_peers m ↔ m !! p = Some t.
Proof. rewrite iter_peers_perm. apply elem_of_map_to_list. Qed.

Lemma remove_peer_serves ids p m n q : serves (remove_peer ids p m).1 n q ↔ serves m n q ∧ (q = p → n ∈ ids).
Proof.
  unfold serves, remove_peer. cbn. rewrite map_lookup_imap. destruct (m !! n) as [ps|]; cbn; [|set_solver].
  case_bool_decide; set_solver.
Qed.
Lemma remove_peer_gone ids p m n : n ∈ (remove_peer ids p m).2 ↔ serves m n p ∧ n ∉ ids.
Proof.
  unfold remove_peer. cbn. rewrite list_elem_of_omap. split.
  - intros ([n' ps] & Hi%iter_subnets_elem & Hn). cbn in Hn. repeat case_bool_decide; simplify_eq/=. unfold serves. by rewrite Hi.
  - unfold serves. intros [Hs Hn]. destruct (m !! n) as [ps|] eqn:Hm; [|set_solver]. exists (n, ps).
    rewrite iter_subnets_elem. split; [done|]. cbn. rewrite bool_decide_false by done. cbn in *. by rewrite bool_decide_true.
Qed.
Lemma insert_peer_serves ids p m n q : serves (insert_peer ids p m).1 n q ↔ serves m n q ∨ (q = p ∧ n ∈ ids).
Proof.
  revert m. induction ids as [|n' ids IH]; intros m; cbn; [set_solver|].
  specialize (IH (<[n' := {[p]} ∪ default ∅ (m !! n')]> m)). destruct (insert_peer _ _ _) as [m' l]. cbn in *.
  rewrite IH, serves_insert. unfold serves. case_decide; subst; set_solver.
Qed.
Lemma insert_peer_fresh ids p m n : n ∈ (insert_peer ids p m).2 ↔ n ∈ ids ∧ ¬ serves m n p.
Proof.
  revert m. induction ids as [|n' ids IH]; intros m; cbn; [set_solver|].
  specialize (IH (<[n' := {[p]} ∪ default ∅ (m !! n')]> m)). destruct (insert_peer _ _ _) as [m' l]. cbn in *.
  rewrite serves_insert in IH. unfold serves in *. case_bool_decide; case_decide; subst; set_solver.
Qed.

(** The loop removes the subnets of a prefix of its list that are not pinned, and stops early
    only when it has removed as many as it has to. *)
Lemma prune_counts_spec pinned k counts m gone m' gone' : (∀ n, n ∈ gone → m !! n = None) →
  prune_counts pinned k counts m gone = (m', gone') →
  (∀ n, m' !! n = if bool_decide (n ∈ gone') then None else m !! n) ∧
  ∃ l1 l2, counts = l1 ++ l2 ∧ (∀ n, n ∈ gone' ↔ n ∈ gone ∨ (n ∈ l1.*1 ∧ n ∉ pinned)) ∧ (Z.of_nat (size gone') = k ∨ l2 = []).
Proof.
  revert m gone. induction counts as [|[n0 x] counts IH]; intros m gone Hg; cbn.
  - intros [= <- <-]. split; [intros n; case_bool_decide; auto|]. exists [], []. split_and!; [done|set_solver|by right].
  - assert (Hd : ∀ n, n ∈ {[n0]} ∪ gone → delete n0 m !! n = None).
    { intros n Hn. destruct (decide (n = n0)) as [->|]; [apply lookup_delete_eq|]. rewrite lookup_delete_ne by done. apply Hg. set_solver. }
    case_bool_decide as Hpin; [|case_match eqn:Hk].
    + intros (H1 & l1 & l2 & -> & H2 & H3)%IH; [|done]. split; [done|]. exists ((n0, x) :: l1), l2. split_and!; [done| |done].
      intros n. rewrite H2, fmap_cons, elem_of_cons. cbn. destruct (decide (n = n0)); subst; tauto.
    + intros [= <- <-]. apply Z.eqb_eq in Hk. split.
      * intros n. case_bool_decide as Hn; [by apply Hd|]. rewrite lookup_delete_ne; set_solver.
      * exists [(n0, x)], counts. split_and!; [done| |by left].
        intros n. rewrite elem_of_union, elem_of_singleton, fmap_cons, elem_of_cons, elem_of_nil. cbn. destruct (decide (n = n0)); subst; tauto.
    + intros (H1 & l1 & l2 & -> & H2 & H3)%IH; [|done]. split.
      * intros n. rewrite H1. case_bool_decide; [done|]. rewrite lookup_delete_ne; [done|]. intros ->. destruct (H2 n) as [_ Hn]. rewrite elem_of_union, elem_of_singleton in Hn. tauto.
      * exists ((n0, x) :: l1), l2. split_and!; [done| |done].
        intros n. rewrite H2, elem_of_union, elem_of_singleton, fmap_cons, elem_of_cons. cbn. destruct (decide (n = n0)); subst; tauto.
Qed.
(** Pruning removes only subnets that are not pinned, the smallest ones, and brings the cache
    down to its size unless only pinned subnets are left. *)
Lemma prune_subnets_spec c c' gone : 0 <= max_subnets c → prune_subnets c = (c', gone) →
  c' = mkCache (max_subnets c) (pinned_subnets c) (routable_peers c) (subnet_providers c') (peer_timestamps c) ∧
  (∀ n, subnet_providers c' !! n = if bool_decide (n ∈ gone) then None else subnet_providers c !! n) ∧
  (∀ n, n ∈ gone → n ∈ dom (subnet_providers c) ∧ n ∉ pinned_subnets c) ∧
  (Z.of_nat (size (subnet_providers c')) <= max_subnets c ∨ dom (subnet_providers c') ⊆ pinned_subnets c) ∧
  (∀ n n' ps ps', n ∈ gone → n' ∉ pinned_subnets c → subnet_providers c !! n = Some ps → subnet_providers c' !! n' = Some ps' →
     (size ps <= size ps')%nat).
Proof.
  intros Hmax Hp. unfold prune_subnets in Hp. set (k := saturating_sub _ _) in Hp. destruct (k <=? 0) eqn:Hk.
  - injection Hp as <- <-. zbool. unfold saturating_sub in k. split_and!; [by destruct c|intros n; by rewrite bool_decide_false by set_solver|set_solver|left; lia|set_solver].
  - set (counts := sort_by_key _ _) in Hp. destruct (prune_counts _ _ _ _ _) as [m g] eqn:Hc. injection Hp as <- <-. cbn.
    apply prune_counts_spec in Hc as (H1 & l1 & l2 & Hl & H2 & H3); [|set_solver].
    assert (Hin : ∀ n x, (n, x) ∈ counts ↔ ∃ ps, subnet_providers c !! n = Some ps ∧ x = Z.of_nat (size ps)).
    { intros n x. unfold counts, sort_by_key. rewrite merge_sort_Permutation, list_elem_of_fmap. split.
      - intros ([n' ps] & [= -> ->] & Hi%iter_subnets_elem). by exists ps.
      - intros (ps & Hi & ->). exists (n, ps). by rewrite iter_subnets_elem. }
    assert (Hg : ∀ n, n ∈ g → ∃ ps, subnet_providers c !! n = Some ps ∧ n ∉ pinned_subnets c ∧ (n, Z.of_nat (size ps)) ∈ l1).
    { intros n [?|[([n' x] & -> & Hn)%list_elem_of_fmap Hp]]%H2; [set_solver|]. cbn in *.
      assert ((n', x) ∈ counts) as (ps & ? & ->)%Hin by (rewrite Hl; apply elem_of_app; by left). by exists ps. }
    split_and!; [done..| | |].
    + intros n (ps & ? & ? & ?)%Hg. split; [|done]. apply elem_of_dom. by exists ps.
    + destruct H3 as [H3|H3]; [left|right].
      * assert (Hd : dom m = dom (subnet_providers c) ∖ g).
        { apply set_eq. intros n. rewrite elem_of_difference, !elem_of_dom, H1. case_bool_decide; [|set_solver].
          split; [intros []%is_Some_None|set_solver]. }
        assert (Hsub : g ⊆ dom (subnet_providers c)) by (intros n (ps & ? & _)%Hg; apply elem_of_dom; by exists ps).
        rewrite <- size_dom, Hd, size_difference, size_dom by done. rewrite Nat2Z.inj_sub by (rewrite <- size_dom; by apply subseteq_size).
        unfold k, saturating_sub in *. lia.
      * intros n [ps Hm]%elem_of_dom. rewrite H1 in Hm. case_bool_decide as Hn; [done|].
        destruct (decide (n ∈ pinned_subnets c)); [done|]. destruct Hn. apply H2. right. split; [|done].
        rewrite H3, app_nil_r in Hl. rewrite <- Hl. apply list_elem_of_fmap. exists (n, Z.of_nat (size ps)). split; [done|]. apply Hin. by exists ps.
    + intros n n' ps ps' (ps0 & Hps & _ & Hl1)%Hg Hn' Hn Hm. rewrite Hps in Hn. injection Hn as ->. rewrite H1 in Hm. case_bool_decide as Hg'; [done|].
      assert ((n', Z.of_nat (size ps')) ∈ counts) as Hc by (apply Hin; by exists ps'). rewrite Hl in Hc.
      apply elem_of_app in Hc as [Hc|Hc].
      * destruct Hg'. apply H2. right. split; [|done]. apply list_elem_of_fmap. by exists (n', Z.of_nat (size ps')).
      * assert (Hs : StronglySorted (key_le snd) counts) by (apply StronglySorted_merge_sort; unfold key_le; [intros ???; lia|intros ??; lia]). rewrite Hl in Hs.
        pose proof (StronglySorted_app_1_elem_of _ _ _ _ _ Hs Hl1 Hc) as Hle. unfold key_le in Hle. cbn in Hle. lia.
Qed.
Lemma prune_serves c c' gone n p : prune_subnets c = (c', gone) → 0 <= max_subnets c →
  serves (subnet_providers c') n p ↔ serves (subnet_providers c) n p ∧ n ∉ gone.
Proof.
  intros Hp Hm. apply prune_subnets_spec in Hp as (_ & Hl & _); [|done]. unfold serves. rewrite Hl. case_bool_decide; cbn; set_solver.
Qed.

(** What a record of a routable peer does to the cache. *)
Lemma add_provider_serves c r c' d : 0 <= max_subnets c → add_provider c r = (c', Some d) →
  peer_id r ∈ routable_peers c ∧ pinned_subnets c' = pinned_subnets c ∧ routable_peers c' = routable_peers c ∧ max_subnets c' = max_subnets c ∧
  if default 0 (peer_timestamps c !! peer_id r) <? timestamp r then
    peer_timestamps c' = <[peer_id r := timestamp r]> (peer_timestamps c) ∧
    ∃ pruned : gset N, (∀ n, n ∈ pruned → n ∉ pinned_subnets c) ∧
      ∀ n q, serves (subnet_providers c') n q ↔ n ∉ pruned ∧ if decide (q = peer_id r) then n ∈ subnet_ids r else serves (subnet_providers c) n q
  else peer_timestamps c' = <[peer_id r := default 0 (peer_timestamps c !! peer_id r)]> (peer_timestamps c) ∧
    subnet_providers c' = subnet_providers c.
Proof.
  intros Hm Ha. unfold add_provider, is_routable in Ha. case_bool_decide as Hr; [|done]. cbn [negb] in Ha. split; [done|].
  destruct (_ <? timestamp r) eqn:Ht; [|by simplify_eq/=]. destruct (remove_peer _ _ _) as [m1 gone] eqn:H1.
  destruct (insert_peer _ _ _) as [m2 fresh] eqn:H2. destruct (prune_subnets _) as [c2 pruned] eqn:Hp. injection Ha as <- <-.
  pose proof (λ n q, prune_serves _ _ _ n q Hp Hm) as Hs. apply prune_subnets_spec in Hp as (Heq & _ & Hpin & _); [|done].
  cbn in Heq, Hs, Hpin. rewrite Heq. cbn. split_and!; [done..|]. exists pruned. split; [intros n Hn; by apply Hpin|]. intros n q.
  rewrite Hs. pose proof (insert_peer_serves (subnet_ids r) (peer_id r) m1 n q) as Hi. rewrite H2 in Hi. cbn in Hi. rewrite Hi.
  pose proof (remove_peer_serves (subnet_ids r) (peer_id r) (subnet_providers c) n q) as Hq. rewrite H1 in Hq. cbn in Hq. rewrite Hq.
  case_decide; subst; naive_solver.
Qed.

(** The reported difference is what changed for the peer. *)
Lemma add_provider_delta c r c' d n : 0 <= max_subnets c → add_provider c r = (c', Some d) →
  (n ∈ added d ↔ serves (subnet_providers c') n (peer_id r) ∧ ¬ serves (subnet_providers c) n (peer_id r)) ∧
  (n ∈ removed d → serves (subnet_providers c) n (peer_id r) ∧ ¬ serves (subnet_providers c') n (peer_id r)).
Proof.
  intros Hm Ha. pose proof Ha as Ha'. apply add_provider_serves in Ha' as (_ & _ & _ & _ & Hs); [|done].
  unfold add_provider in Ha. destruct (negb (is_routable c _)); [done|]. destruct (_ <? timestamp r) eqn:Ht.
  - destruct (remove_peer _ _ _) as [m1 gone] eqn:H1. destruct (insert_peer _ _ _) as [m2 fresh] eqn:H2.
    destruct (prune_subnets _) as [c2 pruned] eqn:Hp. injection Ha as <- <-. cbn.
    pose proof (λ n q, prune_serves _ _ _ n q Hp Hm) as Hs2. cbn in Hs2.
    pose proof (λ n, insert_peer_fresh (subnet_ids r) (peer_id r) m1 n) as Hf. rewrite H2 in Hf. cbn in Hf.
    pose proof (λ n q, insert_peer_serves (subnet_ids r) (peer_id r) m1 n q) as Hi. rewrite H2 in Hi. cbn in Hi.
    pose proof (λ n, remove_peer_gone (subnet_ids r) (peer_id r) (subnet_providers c) n) as Hg. rewrite H1 in Hg. cbn in Hg.
    pose proof (λ n q, remove_peer_serves (subnet_ids r) (peer_id r) (subnet_providers c) n q) as Hq. rewrite H1 in Hq. cbn in Hq.
    rewrite list_elem_of_filter, Hf, Hg, Hs2, Hi, Hq. split; [|naive_solver]. naive_solver.
  - destruct Hs as [_ ->]. injection Ha as <- <-. cbn. set_solver.
Qed.

(** ** The specification: the newest record of every routable peer *)

Inductive cache_op :=
| OpPin (n : N)
| OpUnpin (n : N)
| OpRoutable (p : Peer)
| OpUnroutable (p : Peer)
| OpAdd (r : ProviderRecord N Peer)
| OpPrune (cutoff : Z).
Definition run_op c (o : cache_op) : SubnetProviderCache N Peer :=
  match o with
  | OpPin n => cache_pin_subnet c n
  | OpUnpin n => cache_unpin_subnet c n
  | OpRoutable p => cache_set_routable c p
  | OpUnroutable p => cache_set_unroutable c p
  | OpAdd r => (add_provider c r).1
  | OpPrune t => (prune_providers c t).1
  end.
Record Newest := mkNewest { known : gset Peer; newest : gmap Peer (Z * list N) }.
Definition spec_op (s : Newest) (o : cache_op) : Newest :=
  match o with
  | OpPin _ | OpUnpin _ => s
  | OpRoutable p => mkNewest ({[p]} ∪ known s) (newest s)
  | OpUnroutable p => mkNewest (known s ∖ {[p]}) (delete p (newest s))
  | OpAdd r =>
      if bool_decide (peer_id r ∈ known s) then
        let old := default (0, []) (newest s !! peer_id r) in
        mkNewest (known s) (<[peer_id r := if old.1 <? timestamp r then (timestamp r, subnet_ids r) else old]> (newest s))
      else s
  | OpPrune t =>
      let old := filter (λ e : Peer * (Z * list N), e.2.1 < t) (newest s) in
      mkNewest (known s ∖ dom old) (filter (λ e : Peer * (Z * list N), ¬ e.2.1 < t) (newest s))
  end.
Definition advertised (s : Newest) n p : Prop := ∃ t l, newest s !! p = Some (t, l) ∧ n ∈ l.

Record refines (keep : gset N) c (s : Newest) : Prop := {
  rf_max : 0 <= max_subnets c;
  rf_routable : routable_peers c = known s;
  rf_timestamps : peer_timestamps c = fst <$> newest s;
  rf_pinned : keep ⊆ pinned_subnets c;
  rf_sound n p : serves (subnet_providers c) n p → advertised s n p;
  rf_complete n p : n ∈ keep → advertised s n p → serves (subnet_providers c) n p;
}.

Lemma unroutable_serves c p n q : serves (subnet_providers (cache_set_unroutable c p)) n q ↔ serves (subnet_providers c) n q ∧ q ≠ p.
Proof. unfold serves, cache_set_unroutable. cbn. rewrite lookup_fmap. destruct (_ !! n); cbn; set_solver. Qed.
Lemma refines_forget keep c s p : refines keep c s → refines keep (cache_set_unroutable c p) (spec_op s (OpUnroutable p)).
Proof.
  intros [H1 H2 H3 H4 H5 H6]. split; cbn -[cache_set_unroutable]; try done.
  - cbn. by rewrite H2.
  - cbn. by rewrite H3, fmap_delete.
  - intros n q [(t & l & Hq & Hl)%H5 Hne]%unroutable_serves. exists t, l. cbn. by rewrite lookup_delete_ne.
  - intros n q Hn (t & l & Hq & Hl). cbn in Hq. apply lookup_delete_Some in Hq as [Hne Hq]. apply unroutable_serves.
    split; [|done]. apply H6; [done|]. by exists t, l.
Qed.
Lemma refines_forget_all keep ps c s : refines keep c s → refines keep (foldl cache_set_unroutable c ps) (foldl (λ s p, spec_op s (OpUnroutable p)) s ps).
Proof. revert c s. induction ps as [|p ps IH]; intros c s Hr; cbn [foldl]; [done|]. by apply IH, refines_forget. Qed.
Lemma forget_all ps s : let s' := foldl (λ s p, spec_op s (OpUnroutable p)) s ps in
  (∀ p, p ∈ known s' ↔ p ∈ known s ∧ p ∉ ps) ∧ ∀ p, newest s' !! p = if bool_decide (p ∈ ps) then None else newest s !! p.
Proof.
  revert s. induction ps as [|p ps IH]; intros s s'; cbn in s'; [split; [set_solver|done]|]. subst s'.
  destruct (IH (spec_op s (OpUnroutable p))) as [H1 H2]. split; [set_solver|]. intros q. rewrite H2. cbn.
  destruct (decide (q = p)) as [->|].
  - rewrite lookup_delete_eq, (bool_decide_true (p ∈ p :: ps)) by (by left). by case_bool_decide.
  - rewrite lookup_delete_ne by done. do 2 case_bool_decide; set_solver.
Qed.
Lemma refines_prune keep c s t : refines keep c s → refines keep (prune_providers c t).1 (spec_op s (OpPrune t)).
Proof.
  intros Hr. unfold prune_providers. cbn [fst]. set (ps := omap _ _).
  assert (Hps : ∀ p, p ∈ ps ↔ ∃ x l, newest s !! p = Some (x, l) ∧ x < t).
  { intros p. unfold ps. rewrite list_elem_of_omap. split.
    - intros ([q x] & Hq%iter_peers_elem & Hx). cbn in Hx. destruct (x <? t) eqn:Hlt; [|done]. simplify_eq. zbool.
      rewrite (rf_timestamps _ _ _ Hr), lookup_fmap in Hq. destruct (newest s !! p) as [[x' l]|]; simplify_eq/=. by exists x, l.
    - intros (x & l & Hn & Hx). exists (p, x). rewrite iter_peers_elem, (rf_timestamps _ _ _ Hr), lookup_fmap, Hn. cbn.
      by rewrite (proj2 (Z.ltb_lt _ _)). }
  replace (spec_op s (OpPrune t)) with (foldl (λ s p, spec_op s (OpUnroutable p)) s ps); [by apply refines_forget_all|].
  destruct (forget_all ps s) as [Hk Hn]. destruct (foldl _ s ps) as [k m]. cbn in *. f_equal.
  - apply set_eq. intros p. rewrite Hk, elem_of_difference, elem_of_dom, Hps. apply and_iff_compat_l, not_iff_compat. split.
    + intros (x & l & Hx & Hlt). exists (x, l). by apply map_lookup_filter_Some.
    + intros [[x l] [Hx Hlt]%map_lookup_filter_Some]. by exists x, l.
  - apply map_eq. intros p. rewrite Hn. symmetry. case_bool_decide as Hp.
    + apply Hps in Hp as (x & l & Hx & Hlt). apply map_lookup_filter_None. right. intros [x' l'] Hx' Hlt'. cbn in Hlt'. rewrite Hx in Hx'. injection Hx' as <- <-. by apply Hlt'.
    + destruct (newest s !! p) as [[x l]|] eqn:Hx; [|apply map_lookup_filter_None; by left].
      apply map_lookup_filter_Some. split; [done|]. cbn. intros Hlt. apply Hp, Hps. by exists x, l.
Qed.
Lemma refines_add keep c s r : refines keep c s → refines keep (add_provider c r).1 (spec_op s (OpAdd r)).
Proof.
  intros Hr. destruct (add_provider c r) as [c' [d|]] eqn:Ha; cbn [fst spec_op].
  - apply add_provider_serves in Ha as (Hk & Hp & Hrt & Hm & Ha); [|apply Hr]. destruct Hr as [H1 H2 H3 H4 H5 H6].
    rewrite bool_decide_true by (by rewrite <- H2).
    assert (Hd : default 0 (peer_timestamps c !! peer_id r) = (default (0, []) (newest s !! peer_id r)).1).
    { rewrite H3, lookup_fmap. by destruct (newest s !! peer_id r). }
    rewrite Hd in Ha. destruct (_ <? timestamp r).
    + destruct Ha as (Ht & pruned & Hpr & Hs). split; cbn; rewrite ?Hm, ?Hrt, ?Hp; try done.
      * by rewrite Ht, H3, fmap_insert.
      * intros n q [_ Hq]%Hs. unfold advertised. cbn. destruct (decide (q = peer_id r)) as [->|Hne].
        -- rewrite lookup_insert_eq. by eexists _, _.
        -- rewrite lookup_insert_ne by done. by apply H5.
      * intros n q Hn (t & l & Hq & Hl). apply Hs. split; [intros Hx; by apply (Hpr n), H4|].
        cbn in Hq. case_decide as Hc; [subst; rewrite lookup_insert_eq in Hq; by simplify_eq|].
        rewrite lookup_insert_ne in Hq by done. apply H6; [done|]. by exists t, l.
    + destruct Ha as [Ht Hs]. split; cbn; rewrite ?Hm, ?Hrt, ?Hp, ?Hs; try done.
      * by rewrite Ht, H3, fmap_insert.
      * intros n q (t & l & Hq & Hl)%H5. exists t, l. cbn. destruct (decide (q = peer_id r)) as [->|Hne].
        -- by rewrite lookup_insert_eq, Hq.
        -- by rewrite lookup_insert_ne.
      * intros n q Hn (t & l & Hq & Hl). cbn in Hq. apply H6; [done|]. destruct (decide (q = peer_id r)) as [->|Hne].
        -- rewrite lookup_insert_eq in Hq. injection Hq as Hq. destruct (newest s !! peer_id r) as [x|] eqn:E; cbn in Hq; subst x || injection Hq as <- <-; [by exists t, l|by apply elem_of_nil in Hl].
        -- rewrite lookup_insert_ne in Hq by done. by exists t, l.
  - unfold add_provider, is_routable in Ha. case_bool_decide as Hk; cbn [negb] in Ha.
    + destruct (_ <? _); [|done]. by repeat case_match.
    + simplify_eq. rewrite bool_decide_false; [done|]. by rewrite <- (rf_routable _ _ _ Hr).
Qed.
Lemma refines_op keep c s o : refines keep c s → match o with OpUnpin n => n ∉ keep | _ => True end → refines keep (run_op c o) (spec_op s o).
Proof.
  intros Hr Ho. destruct o; cbn [run_op].
  - destruct Hr as [H1 H2 H3 H4 H5 H6]. split; try done. cbn. set_solver.
  - destruct Hr as [H1 H2 H3 H4 H5 H6]. split; try done. cbn. set_solver.
  - destruct Hr as [H1 H2 H3 H4 H5 H6]. split; try done. cbn. by rewrite H2.
  - by apply refines_forget.
  - by apply refines_add.
  - by apply refines_prune.
Qed.

(** C22. The cache refines its specification.  After any sequence of operations, in whatever
    order its hash maps are visited, every provider it lists for a subnet is a routable peer
    whose newest record names that subnet; and for a subnet that is pinned from the start and
    not unpinned it lists all of them, so that nobody can crowd the subnet out of the cache. *)
Theorem provider_cache_refines max static ops :
  0 <= max →
  let c := foldl run_op (cache_new max static) ops in
  let s := foldl spec_op (mkNewest ∅ ∅) ops in
  (∀ n p, p ∈ cache_providers_of_subnet c n → advertised s n p) ∧
  (∀ n p, n ∈ static → OpUnpin n ∉ ops → (p ∈ cache_providers_of_subnet c n ↔ advertised s n p)).
Proof.
  intros Hmax c s.
  assert (Hr : ∀ keep, keep ⊆ list_to_set static → (∀ n, n ∈ keep → OpUnpin n ∉ ops) → refines keep c s).
  { intros keep Hk Hu. subst c s. assert (Hi : refines keep (cache_new max static) (mkNewest ∅ ∅)).
    { split; cbn; try done. intros n p Hn (t & l & Hp & _). cbn in Hp. by rewrite lookup_empty in Hp. }
    revert Hi. generalize (cache_new (Peer := Peer) max static) (mkNewest ∅ ∅). induction ops as [|o os IH]; intros c s Hi; cbn [foldl]; [done|].
    apply IH; [set_solver|]. apply refines_op; [done|]. destruct o; try done. intros Hn. apply (Hu _ Hn). by left. }
  split.
  - intros n p Hp. by apply (rf_sound _ _ _ (Hr ∅ ltac:(set_solver) ltac:(set_solver))).
  - intros n p Hn Hu. specialize (Hr {[n]} ltac:(set_solver) ltac:(set_solver)). split.
    + apply (rf_sound _ _ _ Hr).
    + apply (rf_complete _ _ _ Hr). set_solver.
Qed.
End cache_lemmas.

(** ** Example: a cache with room for one subnet, in which [7] is pinned *)
#[local] Instance example_order : HashOrder Z Z :=
  {| iter_subnets m := map_to_list m; iter_peers m := map_to_list m;
     iter_subnets_perm _ := Permutation_refl _; iter_peers_perm _ := Permutation_refl _ |}.
Definition example_ops : list (cache_op (N := Z) (Peer := Z)) :=
  [OpRoutable 1; OpRoutable 2; OpAdd (mkProvider 1 [7] 100); OpAdd (mkProvider 2 [8; 7; 9] 110); OpAdd (mkProvider 3 [7] 120);
   OpAdd (mkProvider 1 [] 90)].
Lemma provider_cache_refines_witness :
  let c := foldl run_op (cache_new 1 [7]) example_ops in
  dom (subnet_providers c) = ({[7]} : gset Z) ∧ cache_providers_of_subnet c 7 = {[1; 2]} ∧ advertised (foldl spec_op (mkNewest ∅ ∅) example_ops) 7 2.
Proof.
  intros c. destruct (provider_cache_refines 1 [7] example_ops ltac:(done)) as [_ Hp].
  split; [vm_compute; reflexivity|]. split; [vm_compute; reflexivity|].
  apply Hp; [by left|unfold example_ops; by rewrite !elem_of_cons, elem_of_nil; intuition|]. apply (bool_decide_unpack _). vm_compute. exact I.
Defined.
