(* ===== verification/Membership.v ===== *)
(** * Gossip about membership, votes and data ([ipld/resolver/src/behaviour/membership.rs])

    The behaviour that publishes which subnets the agent serves, learns which ones others
    serve, and passes on votes and data published in advance.  Gossipsub is a parameter: it
    may refuse any subscription or message. *)

From Stdlib Require Import Ascii String.
From stdpp Require Import base tactics numbers list gmap strings.
From S2P Require Import Prelude IpcApi ProviderCache.

Open Scope Z_scope.

#[export] Instance subnet_id_countable {A} `{AddressOps A} `{!Countable A} : Countable (SubnetID A) :=
  inj_countable' (λ s, (root s, children s)) (λ p, mkSubnetID p.1 p.2) (λ s, match s with mkSubnetID _ _ => eq_refl end).

(** [gossipsub::Behaviour], on the hashes of topics: subscriptions and publications may fail. *)
Class Gossipsub (Key G : Type) := {
  gs_new : Key → string → option G;
  gs_subscribe : G → string → G * bool;
  gs_unsubscribe : G → string → G * bool;
  gs_publish : G → string → bytes → G * bool;
  sha256_topic : string → string;
}.
(** The hash of a [Sha256Topic] has no collisions, and is not the name of a membership topic. *)
Class TopicLaws (Key G : Type) `{Gossipsub Key G} : Prop := {
  sha256_topic_inj a b : sha256_topic a = sha256_topic b → a = b;
  sha256_topic_other a b : sha256_topic a ≠ ("/ipc/membership/" ++ b)%string;
}.

(** [str::replace] of a character by another. *)
Fixpoint replace_char (a b : ascii) (s : string) : string :=
  match s with
  | EmptyString => EmptyString
  | String c s => String (if Ascii.eqb c a then b else c) (replace_char a b s)
  end.
Definition PUBSUB_MEMBERSHIP : string := "/ipc/membership".
Definition PUBSUB_VOTES : string := "/ipc/ipld/votes".
Definition PUBSUB_PREEMPTIVE : string := "/ipc/ipld/pre-emptive".

Inductive Event (N Pub Peer V : Type) :=
| Updated (p : Peer) (d : ProviderDelta N)
| Removed (p : Peer)
| Skipped (p : Peer)
| ReceivedVote (v : VoteRecord N Pub V)
| ReceivedPreemptive (n : N) (data : bytes).
Arguments Updated {N Pub Peer V} _ _.
Arguments Removed {N Pub Peer V} _.
Arguments Skipped {N Pub Peer V} _.
Arguments ReceivedVote {N Pub Peer V} _.
Arguments ReceivedPreemptive {N Pub Peer V} _ _.

Record MembershipConfig (N : Type) := mkMembershipConfig {
  mc_static_subnets : list N;
  mc_max_subnets : Z;
  mc_publish_interval : Duration;
  mc_min_time_between_publish : Duration;
  mc_max_provider_age : Duration;
}.
Arguments mkMembershipConfig {N} _ _ _ _ _.
Arguments mc_static_subnets {N} _.
Arguments mc_max_subnets {N} _.
Arguments mc_publish_interval {N} _.
Arguments mc_min_time_between_publish {N} _.
Arguments mc_max_provider_age {N} _.

(** The clocks: seconds since 1970, and an instant in nanoseconds.  An interval has a period
    and the instant of its next tick. *)
Record Clock := mkClock { now : Z; instant : Z }.
Record Interval := mkInterval { period : Duration; due : Z }.
Definition interval_reset (clk : Clock) (i : Interval) : Interval := mkInterval (period i) (instant clk + period i).
Definition poll_tick (clk : Clock) (i : Interval) : bool * Interval :=
  if due i <=? instant clk then (true, mkInterval (period i) (due i + period i)) else (false, i).

Inductive MembershipError := InvalidNetwork | InvalidGossipsubConfig | SubscriptionFailed | PublishFailed | RecordFailed (e : RecordError).
Record GossipMessage := mkGossip { topic : string; data : bytes }.
Inductive GossipEvent (Peer : Type) :=
| Subscribed (p : Peer) (t : string)
| Unsubscribed
| GossipsubNotSupported
| Message (m : GossipMessage)
| Other.
Arguments Subscribed {Peer} _ _.
Arguments Unsubscribed {Peer}.
Arguments GossipsubNotSupported {Peer}.
Arguments Message {Peer} _.
Arguments Other {Peer}.

Record Behaviour (A Key Pub Peer G V : Type) `{AddressOps A} `{!Countable A} `{Countable Peer} := mkBehaviour {
  inner : G;
  outbox : list (Event (SubnetID A) Pub Peer V);
  local_key : Key;
  network_name : string;
  membership_topic : string;
  provided : list (SubnetID A);
  voting_topics : gset string;
  preemptive_topics : gmap string (SubnetID A);
  provider_cache : SubnetProviderCache (SubnetID A) Peer;
  publish_interval : Interval;
  min_time_between_publish : Duration;
  last_publish_timestamp : Z;
  next_publish_timestamp : Z;
  max_provider_age : Duration;
}.
Arguments mkBehaviour {A Key Pub Peer G V _ _ _ _} _ _ _ _ _ _ _ _ _ _ _ _ _ _.
Arguments inner {A Key Pub Peer G V _ _ _ _} _.
Arguments outbox {A Key Pub Peer G V _ _ _ _} _.
Arguments local_key {A Key Pub Peer G V _ _ _ _} _.
Arguments network_name {A Key Pub Peer G V _ _ _ _} _.
Arguments membership_topic {A Key Pub Peer G V _ _ _ _} _.
Arguments provided {A Key Pub Peer G V _ _ _ _} _.
Arguments voting_topics {A Key Pub Peer G V _ _ _ _} _.
Arguments preemptive_topics {A Key Pub Peer G V _ _ _ _} _.
Arguments provider_cache {A Key Pub Peer G V _ _ _ _} _.
Arguments publish_interval {A Key Pub Peer G V _ _ _ _} _.
Arguments min_time_between_publish {A Key Pub Peer G V _ _ _ _} _.
Arguments last_publish_timestamp {A Key Pub Peer G V _ _ _ _} _.
Arguments next_publish_timestamp {A Key Pub Peer G V _ _ _ _} _.
Arguments max_provider_age {A Key Pub Peer G V _ _ _ _} _.

Section behaviour.
Context {A Key Pub Peer Envelope G V : Type} `{AddressOps A} `{!Countable A} `{!EqDecision Pub} `{Countable Peer}
  `{!Libp2p Key Pub Peer Envelope} `{!Gossipsub Key G} `{!HashOrder (SubnetID A) Peer}
  `{!Ipld (ProviderRecord (SubnetID A) Peer)} `{!Ipld (VoteRecord (SubnetID A) Pub V)}.
Notation B := (Behaviour A Key Pub Peer G V).
Notation N := (SubnetID A).
Implicit Types (b : B) (n : N) (clk : Clock).

Definition set_inner b g : B :=
  mkBehaviour g (outbox b) (local_key b) (network_name b) (membership_topic b) (provided b) (voting_topics b) (preemptive_topics b)
    (provider_cache b) (publish_interval b) (min_time_between_publish b) (last_publish_timestamp b) (next_publish_timestamp b) (max_provider_age b).
Definition set_outbox b o : B :=
  mkBehaviour (inner b) o (local_key b) (network_name b) (membership_topic b) (provided b) (voting_topics b) (preemptive_topics b)
    (provider_cache b) (publish_interval b) (min_time_between_publish b) (last_publish_timestamp b) (next_publish_timestamp b) (max_provider_age b).
Definition set_provided b l : B :=
  mkBehaviour (inner b) (outbox b) (local_key b) (network_name b) (membership_topic b) l (voting_topics b) (preemptive_topics b)
    (provider_cache b) (publish_interval b) (min_time_between_publish b) (last_publish_timestamp b) (next_publish_timestamp b) (max_provider_age b).
Definition set_topics b v p : B :=
  mkBehaviour (inner b) (outbox b) (local_key b) (network_name b) (membership_topic b) (provided b) v p
    (provider_cache b) (publish_interval b) (min_time_between_publish b) (last_publish_timestamp b) (next_publish_timestamp b) (max_provider_age b).
Definition set_cache b c : B :=
  mkBehaviour (inner b) (outbox b) (local_key b) (network_name b) (membership_topic b) (provided b) (voting_topics b) (preemptive_topics b)
    c (publish_interval b) (min_time_between_publish b) (last_publish_timestamp b) (next_publish_timestamp b) (max_provider_age b).
Definition set_timing b i last next : B :=
  mkBehaviour (inner b) (outbox b) (local_key b) (network_name b) (membership_topic b) (provided b) (voting_topics b) (preemptive_topics b)
    (provider_cache b) i (min_time_between_publish b) last next (max_provider_age b).

(** A method may fail half-way: what it has changed stays changed. *)
Definition MB (T : Type) : Type := B → B * outcome MembershipError T.
Definition mb_ret {T} (t : T) : MB T := λ b, (b, Ok t).
Definition mb_fail {T} (e : MembershipError) : MB T := λ b, (b, Err e).
Definition mb_bind {T U} (m : MB T) (f : T → MB U) : MB U := λ b,
  match m b with
  | (b, Ok t) => f t b
  | (b, Err e) => (b, Err e)
  | (b, Retry) => (b, Retry)
  | (b, Panic) => (b, Panic)
  end.
Notation "m ;; f" := (mb_bind m (λ _, f)) (at level 100, f at level 200, right associativity).
Fixpoint mb_each {T} (f : T → MB unit) (l : list T) : MB unit :=
  match l with [] => mb_ret () | x :: l => f x ;; mb_each f l end.
Definition mb_update (f : B → B) : MB unit := λ b, (f b, Ok ()).

Definition subscribe (t : string) : MB unit := λ b,
  let '(g, ok) := gs_subscribe (inner b) (sha256_topic t) in (set_inner b g, if ok then Ok () else Err SubscriptionFailed).
Definition unsubscribe (t : string) : MB unit := λ b,
  let '(g, ok) := gs_unsubscribe (inner b) (sha256_topic t) in (set_inner b g, if ok then Ok () else Err PublishFailed).
Definition topic_of (prefix net : string) n : string :=
  (prefix ++ "/" ++ replace_char "/" "_" net ++ "/" ++ replace_char "/" "_" (to_string n))%string.
Definition preemptive_topic b n : string := topic_of PUBSUB_PREEMPTIVE (network_name b) n.
Definition voting_topic b n : string := topic_of PUBSUB_VOTES (network_name b) n.
Definition preemptive_subscribe n : MB unit := λ b,
  (subscribe (preemptive_topic b n) ;;
   mb_update (λ b', set_topics b' (voting_topics b') (<[sha256_topic (preemptive_topic b n) := n]> (preemptive_topics b')))) b.
Definition preemptive_unsubscribe n : MB unit := λ b,
  (unsubscribe (preemptive_topic b n) ;;
   mb_update (λ b', set_topics b' (voting_topics b') (delete (sha256_topic (preemptive_topic b n)) (preemptive_topics b')))) b.
Definition voting_subscribe n : MB unit := λ b,
  (subscribe (voting_topic b n) ;;
   mb_update (λ b', set_topics b' ({[sha256_topic (voting_topic b n)]} ∪ voting_topics b') (preemptive_topics b'))) b.
Definition voting_unsubscribe n : MB unit := λ b,
  (unsubscribe (voting_topic b n) ;;
   mb_update (λ b', set_topics b' (voting_topics b' ∖ {[sha256_topic (voting_topic b n)]}) (preemptive_topics b'))) b.

Definition publish_membership clk : MB unit := λ b,
  match provider_signed (now clk) (local_key b) (provided b) with
  | Ok r =>
      let '(g, ok) := gs_publish (inner b) (membership_topic b) (into_protobuf_encoding (envelope r)) in
      let b := set_inner b g in
      if ok then
        (set_timing b (interval_reset clk (publish_interval b)) (now clk) (ts_add (now clk) (period (publish_interval b))), Ok ())
      else (b, Err PublishFailed)
  | Err e => (b, Err (RecordFailed e))
  | Retry => (b, Retry)
  | Panic => (b, Panic)
  end.
(** [std::mem::take] empties the list before the topics are changed. *)
Definition set_provided_subnets clk (ids : list N) : MB unit := λ b,
  let old := provided b in
  (mb_update (λ b, set_provided b []) ;;
   mb_each (λ n, if bool_decide (n ∈ ids) then mb_ret () else voting_unsubscribe n) old ;;
   mb_each (λ n, if bool_decide (n ∈ old) then mb_ret () else voting_subscribe n) ids ;;
   mb_update (λ b, set_provided b ids) ;;
   publish_membership clk) b.
Definition add_provided_subnet clk n : MB unit := λ b,
  if bool_decide (n ∈ provided b) then (b, Ok ()) else
  (voting_subscribe n ;; mb_update (λ b, set_provided b (provided b ++ [n])) ;; publish_membership clk) b.
Definition remove_provided_subnet clk n : MB unit := λ b,
  if negb (bool_decide (n ∈ provided b)) then (b, Ok ()) else
  (voting_unsubscribe n ;; mb_update (λ b, set_provided b (filter (λ n', n' ≠ n) (provided b))) ;; publish_membership clk) b.
Definition pin_subnet n : MB unit :=
  preemptive_subscribe n ;; mb_update (λ b, set_cache b (cache_pin_subnet (provider_cache b) n)).
Definition unpin_subnet n : MB unit :=
  preemptive_unsubscribe n ;; mb_update (λ b, set_cache b (cache_unpin_subnet (provider_cache b) n)).

Definition membership_new clk (key : Key) (name : string) (mc : MembershipConfig N) : outcome MembershipError B :=
  if bool_decide (name = ""%string) then Err InvalidNetwork else
  let mt := (PUBSUB_MEMBERSHIP ++ "/" ++ name)%string in
  match gs_new key mt with
  | None => Err InvalidGossipsubConfig
  | Some g =>
      let '(g, ok) := gs_subscribe g mt in
      if negb ok then Err SubscriptionFailed else
      let b := mkBehaviour g [] key name mt [] ∅ ∅ (cache_new (mc_max_subnets mc) [])
        (mkInterval (mc_publish_interval mc) (instant clk + mc_publish_interval mc)) (mc_min_time_between_publish mc)
        0 (ts_add (now clk) (mc_publish_interval mc)) (mc_max_provider_age mc) in
      let '(b, r) := mb_each pin_subnet (mc_static_subnets mc) b in r ≫= λ _, Ok b
  end.

Definition publish_on (t : string) (data : bytes) : MB unit := λ b,
  let '(g, ok) := gs_publish (inner b) (sha256_topic t) data in (set_inner b g, if ok then Ok () else Err PublishFailed).
Definition publish_vote (vote : SignedRecord (VoteRecord N Pub V) Envelope) : MB unit := λ b,
  publish_on (voting_topic b (vote_subnet (record vote))) (into_protobuf_encoding (envelope vote)) b.
Definition publish_preemptive n (data : bytes) : MB unit := λ b, publish_on (preemptive_topic b n) data b.

(** A new timer replaces the interval instead of publishing at once. *)
Definition publish_for_new_peer clk b : B :=
  match provided b with
  | [] => b
  | _ =>
      if ts_sub (now clk) (min_time_between_publish b) <? last_publish_timestamp b then b
      else if next_publish_timestamp b <=? ts_add (now clk) (min_time_between_publish b) then b
      else set_timing b (mkInterval (period (publish_interval b)) (instant clk + min_time_between_publish b))
             (last_publish_timestamp b) (ts_add (now clk) (min_time_between_publish b))
  end.
Definition set_routable clk (p : Peer) b : B :=
  publish_for_new_peer clk (set_cache b (cache_set_routable (provider_cache b) p)).
Definition set_unroutable (p : Peer) b : B :=
  let b := set_cache b (cache_set_unroutable (provider_cache b) p) in set_outbox b (outbox b ++ [Removed p]).
Definition providers_of_subnet b n : gset Peer := cache_providers_of_subnet (provider_cache b) n.
Definition handle_provider_record clk (r : ProviderRecord N Peer) b : B :=
  let '(c, d) := add_provider (provider_cache b) r in
  let b := set_cache b c in
  match d with
  | None => set_outbox b (outbox b ++ [Skipped (peer_id r)])
  | Some d =>
      if delta_is_empty d && negb (is_new d) then b else
      let b := set_outbox b (outbox b ++ [Updated (peer_id r) d]) in
      if is_new d then publish_for_new_peer clk b else b
  end.
Definition handle_vote_record (v : VoteRecord N Pub V) b : B := set_outbox b (outbox b ++ [ReceivedVote v]).
Definition handle_preemptive_data n (data : bytes) b : B := set_outbox b (outbox b ++ [ReceivedPreemptive n data]).
Definition handle_message clk (m : GossipMessage) b : B :=
  if bool_decide (topic m = membership_topic b) then
    match signed_from_bytes (R := ProviderRecord N Peer) (data m) with Ok s => handle_provider_record clk (record s) b | _ => b end
  else if bool_decide (topic m ∈ voting_topics b) then
    match signed_from_bytes (R := VoteRecord N Pub V) (data m) with Ok s => handle_vote_record (record s) b | _ => b end
  else match preemptive_topics b !! topic m with
       | Some n => handle_preemptive_data n (data m) b
       | None => b
       end.
Definition handle_subscriber clk (p : Peer) (t : string) b : B :=
  if bool_decide (t = membership_topic b) then publish_for_new_peer clk b else b.
Definition prune_membership clk b : B :=
  let '(c, pruned) := prune_providers (provider_cache b) (ts_sub (now clk) (max_provider_age b)) in
  let b := set_cache b c in set_outbox b (outbox b ++ (Removed <$> pruned)).

(** The events that Gossipsub has ready; one that is not ours ends the poll. *)
Fixpoint handle_events clk (evs : list (GossipEvent Peer)) b : B * list (GossipEvent Peer) * bool :=
  match evs with
  | [] => (b, [], false)
  | Other :: evs => (b, evs, true)
  | Subscribed p t :: evs => handle_events clk evs (handle_subscriber clk p t b)
  | Message m :: evs => handle_events clk evs (handle_message clk m b)
  | _ :: evs => handle_events clk evs b
  end.
Inductive PollResult := ReadyEvent (e : Event N Pub Peer V) | ReadyOther | Pending.
Definition poll clk (evs : list (GossipEvent Peer)) b : B * list (GossipEvent Peer) * PollResult :=
  match outbox b with
  | e :: o => (set_outbox b o, evs, ReadyEvent e)
  | [] =>
      let '(tick, i) := poll_tick clk (publish_interval b) in
      let b := set_timing b i (last_publish_timestamp b) (next_publish_timestamp b) in
      let b := if tick then prune_membership clk (publish_membership clk b).1 else b in
      let '(b, evs, other) := handle_events clk evs b in
      (b, evs, if other then ReadyOther else Pending)
  end.
End behaviour.

(** ** Topics *)

Lemma replace_char_inj a b s1 s2 : no_char b s1 = true → no_char b s2 = true → replace_char a b s1 = replace_char a b s2 → s1 = s2.
Proof.
  revert s2. induction s1 as [|c1 s1 IH]; intros [|c2 s2]; cbn; intros H1 H2 He; try done. injection He as Hc Hs.
  apply andb_true_iff in H1 as [Hn1 H1], H2 as [Hn2 H2]. apply negb_true_iff, Ascii.eqb_neq in Hn1, Hn2.
  f_equal; [|by apply IH]. destruct (Ascii.eqb_spec c1 a), (Ascii.eqb_spec c2 a); congruence.
Qed.
Lemma append_inj (p s1 s2 : string) : (p ++ s1)%string = (p ++ s2)%string → s1 = s2.
Proof. induction p as [|c p IH]; cbn; [done|]. intros [= H]. by apply IH. Qed.

Section topics.
Context {A : Type} `{AddressLaws A}.
Hypothesis addr_no_underscore : ∀ a : A, no_char "_" (addr_to_string a) = true.

Lemma to_string_inj (n1 n2 : SubnetID A) : is_u64 (root n1) → is_u64 (root n2) → to_string n1 = to_string n2 → n1 = n2.
Proof. intros H1 H2 He. pose proof (from_str_to_string n1 H1) as Hs. rewrite He, from_str_to_string in Hs by done. by injection Hs. Qed.
Lemma no_underscore_to_string (n : SubnetID A) : no_char "_" (to_string n) = true.
Proof.
  unfold to_string. rewrite children_str_slashed, !no_char_app, no_char_u64 by done.
  assert (Hs : no_char "_" (slashed (children n)) = true); [|by rewrite Hs].
  induction (children n) as [|a l IH]; [done|].
  change (no_char "_" (addr_to_string a ++ slashed l) = true). by rewrite no_char_app, IH, addr_no_underscore.
Qed.
Lemma topic_of_inj prefix net (n1 n2 : SubnetID A) : is_u64 (root n1) → is_u64 (root n2) →
  topic_of prefix net n1 = topic_of prefix net n2 → n1 = n2.
Proof.
  intros H1 H2 He. unfold topic_of in He. do 4 apply append_inj in He. apply replace_char_inj in He; [|apply no_underscore_to_string..].
  by apply to_string_inj.
Qed.
End topics.

(** ** Subscriptions follow what is provided and pinned *)

Section wiring.
Context {A Key Pub Peer Envelope G V : Type} `{AddressLaws A} `{!Countable A} `{!EqDecision Pub} `{Countable Peer}
  `{!Libp2p Key Pub Peer Envelope} `{!Gossipsub Key G} `{!TopicLaws Key G} `{!HashOrder (SubnetID A) Peer}
  `{!Ipld (ProviderRecord (SubnetID A) Peer)} `{!Ipld (VoteRecord (SubnetID A) Pub V)}.
Hypothesis addr_no_underscore : ∀ a : A, no_char "_" (addr_to_string a) = true.
Notation B := (Behaviour A Key Pub Peer G V).
Notation N := (SubnetID A).
Implicit Types (b : B) (n : N) (clk : Clock).

(** What decides where a message goes. *)
Definition wiring b := (network_name b, membership_topic b, voting_topics b, preemptive_topics b, pinned_subnets (provider_cache b)).
(** The agent listens to the votes of the subnets [l]. *)
Definition listens (l : list N) b : Prop := ∀ n, n ∈ l → is_u64 (root n) ∧ sha256_topic (voting_topic b n) ∈ voting_topics b.
Record wired b : Prop := {
  wi_topic : membership_topic b = (PUBSUB_MEMBERSHIP ++ "/" ++ network_name b)%string;
  wi_votes t : t ∈ voting_topics b → ∃ n, is_u64 (root n) ∧ t = sha256_topic (voting_topic b n);
  wi_pinned n : n ∈ pinned_subnets (provider_cache b) → is_u64 (root n) ∧ preemptive_topics b !! sha256_topic (preemptive_topic b n) = Some n;
  wi_data t n : preemptive_topics b !! t = Some n → n ∈ pinned_subnets (provider_cache b) ∧ t = sha256_topic (preemptive_topic b n);
}.
Definition ready b : Prop := wired b ∧ listens (provided b) b.

Lemma wired_same b b' : wiring b' = wiring b → wired b → wired b'.
Proof.
  intros [= Hn Hm Hv Hp Hc] [E1 E2 E3 E4]. unfold voting_topic, preemptive_topic in *.
  split; unfold voting_topic, preemptive_topic; rewrite ?Hn, ?Hm, ?Hv, ?Hp, ?Hc; try done.
Qed.
Lemma listens_same l b b' : wiring b' = wiring b → listens l b → listens l b'.
Proof. intros [= Hn Hm Hv Hp Hc] Hl n Hi. unfold voting_topic in *. rewrite Hn, Hv. by apply Hl. Qed.
Lemma ready_same b b' : wiring b' = wiring b → provided b' = provided b → ready b → ready b'.
Proof. intros Hw Hp [Hi Hl]. split; [by eapply wired_same|]. rewrite Hp. by eapply listens_same. Qed.
Lemma ready_drop b b' : wiring b' = wiring b → provided b' = [] → ready b → ready b'.
Proof. intros Hw Hp [Hi Hl]. split; [by eapply wired_same|]. rewrite Hp. intros n Hn. by apply elem_of_nil in Hn. Qed.

(** A method of the behaviour returns or fails with an error. *)
Definition succeeds {T : Type} (r : outcome MembershipError T) : bool := match r with Ok _ => true | _ => false end.
Lemma mb_bind_cases {T U : Type} (m : B → B * outcome MembershipError T) (f : T → B → B * outcome MembershipError U) b b2 r :
  mb_bind m f b = (b2, r) → (∃ b1 t, m b = (b1, Ok t) ∧ f t b1 = (b2, r)) ∨ (∃ r1, m b = (b2, r1) ∧ succeeds r1 = false) ∧ succeeds r = false.
Proof. unfold mb_bind. destruct (m b) as [b1 []]; intros [= <- <-] || intros Hf; eauto 10. Qed.
Lemma subscribe_wiring t b b' r : subscribe t b = (b', r) → wiring b' = wiring b ∧ provided b' = provided b.
Proof. unfold subscribe. destruct (gs_subscribe _ _). by intros [= <- <-]. Qed.
Lemma unsubscribe_wiring t b b' r : unsubscribe t b = (b', r) → wiring b' = wiring b ∧ provided b' = provided b.
Proof. unfold unsubscribe. destruct (gs_unsubscribe _ _). by intros [= <- <-]. Qed.
Lemma publish_on_wiring t x b b' r : publish_on t x b = (b', r) → wiring b' = wiring b ∧ provided b' = provided b.
Proof. unfold publish_on. destruct (gs_publish _ _ _). by intros [= <- <-]. Qed.
Lemma publish_membership_wiring clk b b' r : publish_membership clk b = (b', r) → wiring b' = wiring b ∧ provided b' = provided b.
Proof.
  unfold publish_membership. destruct (provider_signed _ _ _); [destruct (gs_publish _ _ _) as [g []]|..]; by intros [= <- <-].
Qed.

(** What a change of the topics does, if the call to Gossipsub succeeds. *)
Lemma change_topics (m : B → B * outcome MembershipError unit) (f : B → B) b b' r :
  (∀ b1 r1, m b = (b1, r1) → wiring b1 = wiring b ∧ provided b1 = provided b) →
  mb_bind m (λ _, mb_update f) b = (b', r) →
  if succeeds r then ∃ b1, wiring b1 = wiring b ∧ provided b1 = provided b ∧ b' = f b1 else wiring b' = wiring b ∧ provided b' = provided b.
Proof.
  intros Hm [(b1 & [] & Hb & Hu)|[(r1 & Hb & _) ->]]%mb_bind_cases; [|by apply (Hm b' r1)].
  injection Hu as <- <-. cbn. exists b1. destruct (Hm _ _ Hb). done.
Qed.
Lemma voting_subscribe_ready n l b b' r : voting_subscribe n b = (b', r) → is_u64 (root n) → wired b → listens l b →
  wired b' ∧ provided b' = provided b ∧ listens (if succeeds r then n :: l else l) b'.
Proof.
  intros Hc Hu Hw Hl. unfold voting_subscribe in Hc. apply change_topics in Hc; [|by intros ?? ?%subscribe_wiring].
  destruct (succeeds r).
  - destruct Hc as (b1 & Hb & Hp & ->). apply (wired_same _ b1) in Hw; [|done]. apply (listens_same _ _ b1) in Hl; [|done].
    assert (Hn : voting_topic b n = voting_topic b1 n) by (unfold voting_topic; by injection Hb as -> _ _ _ _). rewrite Hn.
    split_and!; [|done|].
    + destruct Hw as [E1 E2 E3 E4]. split; [done| |done..]. cbn. intros t [->%elem_of_singleton|Ht]%elem_of_union; [by exists n|by apply E2].
    + intros n' [->|[? ?]%Hl]%elem_of_cons; (split; [done|]); cbn; set_solver.
  - destruct Hc as [Hb Hp]. split_and!; [by eapply wired_same|done|by eapply listens_same].
Qed.
Lemma voting_unsubscribe_ready n l b b' r : voting_unsubscribe n b = (b', r) → is_u64 (root n) → n ∉ l → wired b → listens l b →
  wired b' ∧ provided b' = provided b ∧ listens l b'.
Proof.
  intros Hc Hu Hni Hw Hl. unfold voting_unsubscribe in Hc. apply change_topics in Hc; [|by intros ?? ?%unsubscribe_wiring].
  destruct (succeeds r).
  - destruct Hc as (b1 & Hb & Hp & ->). apply (wired_same _ b1) in Hw; [|done]. apply (listens_same _ _ b1) in Hl; [|done].
    assert (Hn : voting_topic b n = voting_topic b1 n) by (unfold voting_topic; by injection Hb as -> _ _ _ _). rewrite Hn.
    split_and!; [|done|].
    + destruct Hw as [E1 E2 E3 E4]. split; [done| |done..]. cbn. intros t [Ht _]%elem_of_difference. by apply E2.
    + intros n' Hn'. destruct (Hl n' Hn') as [Hu' Ht]. split; [done|]. cbn. apply elem_of_difference. split; [done|].
      rewrite elem_of_singleton. intros Heq%sha256_topic_inj. apply Hni.
      replace n with n'; [done|]. by eapply (topic_of_inj addr_no_underscore).
  - destruct Hc as [Hb Hp]. split_and!; [by eapply wired_same|done|by eapply listens_same].
Qed.

Lemma unsubscribe_all (ids l old : list N) b b' r : mb_each (λ n, if bool_decide (n ∈ ids) then mb_ret () else voting_unsubscribe n) old b = (b', r) →
  Forall (λ n, is_u64 (root n)) old → (∀ n, n ∈ l → n ∈ ids) → wired b → listens l b →
  wired b' ∧ provided b' = provided b ∧ listens l b'.
Proof.
  intros Hr Hu Hl. revert b Hr. induction Hu as [|n old Hn _ IH]; intros b Hr Hw Hs; cbn [mb_each] in Hr.
  { unfold mb_ret in Hr. injection Hr as <- <-. done. }
  apply mb_bind_cases in Hr as [(b1 & [] & Hc & Hr)|[(r1 & Hc & Hf) _]]; case_bool_decide as Hi.
  - unfold mb_ret in Hc. injection Hc as <-. by apply IH.
  - destruct (voting_unsubscribe_ready n l _ _ _ Hc) as (W1 & W2 & W3); [done|by intros ?%Hl|done..|].
    destruct (IH _ Hr W1 W3) as (? & ? & ?). split_and!; [done|congruence|done].
  - unfold mb_ret in Hc. by simplify_eq.
  - by destruct (voting_unsubscribe_ready n l _ _ _ Hc) as (W1 & W2 & W3); [done|by intros ?%Hl|done..|].
Qed.
Lemma subscribe_all (old l ids : list N) b b' r : mb_each (λ n, if bool_decide (n ∈ old) then mb_ret () else voting_subscribe n) ids b = (b', r) →
  Forall (λ n, is_u64 (root n)) ids → (∀ n, n ∈ ids → n ∈ old → n ∈ l) → wired b → listens l b →
  wired b' ∧ provided b' = provided b ∧ listens (if succeeds r then ids ++ l else []) b'.
Proof.
  intros Hr Hu Hl. revert l b Hr Hl. induction Hu as [|n ids Hn _ IH]; intros l b Hr Hl Hw Hs; cbn [mb_each] in Hr.
  { unfold mb_ret in Hr. injection Hr as <- <-. done. }
  apply mb_bind_cases in Hr as [(b1 & [] & Hc & Hr)|[(r1 & Hc & Hf) ->]]; case_bool_decide as Hi.
  - unfold mb_ret in Hc. injection Hc as <-. destruct (IH l _ Hr) as (? & ? & Hx); [set_solver|done..|]. split_and!; [done..|].
    destruct (succeeds r); [|done]. intros n' [[->|?]%elem_of_cons|?]%elem_of_app; apply Hx; apply elem_of_app; [|by left|by right].
    right. apply Hl; [by left|done].
  - destruct (voting_subscribe_ready n l _ _ _ Hc) as (W1 & W2 & W3); [done..|]. cbn in W3.
    destruct (IH (n :: l) _ Hr) as (? & ? & Hx); [set_solver|done..|]. split_and!; [done|congruence|].
    destruct (succeeds r); [|done]. intros n' Hn'. apply Hx. set_solver.
  - unfold mb_ret in Hc. by simplify_eq.
  - destruct (voting_subscribe_ready n l _ _ _ Hc) as (W1 & W2 & W3); [done..|]. split_and!; [done..|]. intros n' Hn'. by apply elem_of_nil in Hn'.
Qed.
Lemma listens_sub l l' b : (∀ n, n ∈ l' → n ∈ l) → listens l b → listens l' b.
Proof. intros Hs Hl n Hn. apply Hl, Hs, Hn. Qed.
Lemma ready_publish clk b b' r : publish_membership clk b = (b', r) → ready b → ready b'.
Proof. intros [Hw Hp]%publish_membership_wiring. by apply ready_same. Qed.
Lemma set_provided_ready clk ids b b' r : set_provided_subnets clk ids b = (b', r) → Forall (λ n, is_u64 (root n)) ids → ready b → ready b'.
Proof.
  intros Hr Hu [Hw Hl]. unfold set_provided_subnets in Hr. set (b0 := set_provided b []).
  assert (Ho : Forall (λ n, is_u64 (root n)) (provided b)) by (apply Forall_forall; intros n Hn; by apply Hl).
  assert (Hdone : ∀ b1, wired b1 → provided b1 = [] → ready b1) by (intros b1 W P; split; [done|]; rewrite P; intros n Hn; by apply elem_of_nil in Hn).
  apply mb_bind_cases in Hr as [(b1 & [] & Hc & Hr)|[(r1 & Hc & Hf) _]]; [|unfold mb_update in Hc; by simplify_eq].
  unfold mb_update in Hc. injection Hc as <-. fold b0 in Hr.
  assert (W0 : wired b0) by (by apply (wired_same b)).
  assert (L0 : listens (filter (λ n, n ∈ ids) (provided b)) b0).
  { apply (listens_sub (provided b)); [by intros n [_ ?]%list_elem_of_filter|by apply (listens_same _ b)]. }
  apply mb_bind_cases in Hr as [(b1 & [] & Hc & Hr)|[(r1 & Hc & Hf) _]];
    (apply unsubscribe_all with (l := filter (λ n, n ∈ ids) (provided b)) in Hc as (W1 & P1 & L1); [|done|by intros n [? _]%list_elem_of_filter|done..]);
    [|by apply Hdone].
  apply mb_bind_cases in Hr as [(b2 & [] & Hc & Hr)|[(r1 & Hc & Hf) _]];
    (apply subscribe_all with (l := filter (λ n, n ∈ ids) (provided b)) in Hc as (W2 & P2 & L2);
       [|done|intros n ? ?; by apply list_elem_of_filter|done..]); [|apply Hdone; [done|by rewrite P2, P1]].
  cbn in L2. apply mb_bind_cases in Hr as [(b3 & [] & Hc & Hr)|[(r1 & Hc & Hf) _]]; [|unfold mb_update in Hc; by simplify_eq].
  unfold mb_update in Hc. injection Hc as <-. apply ready_publish in Hr; [done|]. split; [by apply (wired_same b2)|]. cbn.
  apply (listens_same _ b2); [done|]. eapply listens_sub; [|done]. intros n Hn. apply elem_of_app. by left.
Qed.
Lemma add_provided_ready clk n b b' r : add_provided_subnet clk n b = (b', r) → is_u64 (root n) → ready b → ready b'.
Proof.
  intros Hr Hu [Hw Hl]. unfold add_provided_subnet in Hr. case_bool_decide; [by simplify_eq|].
  apply mb_bind_cases in Hr as [(b1 & [] & Hc & Hr)|[(r1 & Hc & Hf) _]];
    (apply (voting_subscribe_ready n (provided b)) in Hc as (W1 & P1 & L1); [|done..]).
  - apply mb_bind_cases in Hr as [(b2 & [] & Hc & Hr)|[(r1 & Hc & Hf) _]]; [|unfold mb_update in Hc; by simplify_eq].
    unfold mb_update in Hc. injection Hc as <-. apply ready_publish in Hr; [done|]. split; [by apply (wired_same b1)|]. cbn. rewrite P1.
    apply (listens_same _ b1); [done|]. eapply listens_sub; [|done]. cbn. set_solver.
  - rewrite Hf in L1. split; [done|]. by rewrite P1.
Qed.
Lemma remove_provided_ready clk n b b' r : remove_provided_subnet clk n b = (b', r) → ready b → ready b'.
Proof.
  intros Hr [Hw Hl]. unfold remove_provided_subnet in Hr. case_bool_decide as Hn; cbn [negb] in Hr; [|by simplify_eq]. pose proof (Hl n Hn) as [Hu _].
  assert (Hl' : listens (filter (λ n', n' ≠ n) (provided b)) b) by (eapply listens_sub; [|done]; by intros n' [_ ?]%list_elem_of_filter).
  destruct (mb_bind (voting_unsubscribe n) _ b) as [b0 r0] eqn:Hc0. injection Hr as <- <-.
  apply mb_bind_cases in Hc0 as [(b1 & [] & Hc & Hr)|[(r1 & Hc & Hf) _]].
  - apply (voting_unsubscribe_ready n (filter (λ n', n' ≠ n) (provided b))) in Hc as (W1 & P1 & L1); [|done| |done..]; [|by intros [? _]%list_elem_of_filter].
    apply mb_bind_cases in Hr as [(b2 & [] & Hc & Hr)|[(r1 & Hc & Hf) _]]; [|unfold mb_update in Hc; by simplify_eq].
    unfold mb_update in Hc. injection Hc as <-. apply ready_publish in Hr; [done|]. split; [by apply (wired_same b1)|]. cbn. by rewrite P1.
  - unfold voting_unsubscribe in Hc. apply change_topics in Hc; [|by intros ?? ?%unsubscribe_wiring]. rewrite Hf in Hc.
    destruct Hc. by apply (ready_same b).
Qed.

Lemma preemptive_inj b n1 n2 : is_u64 (root n1) → is_u64 (root n2) →
  sha256_topic (preemptive_topic b n1) = sha256_topic (preemptive_topic b n2) → n1 = n2.
Proof. intros U1 U2 He%sha256_topic_inj. by eapply (topic_of_inj addr_no_underscore). Qed.
Lemma pin_ready n b b' r : pin_subnet n b = (b', r) → is_u64 (root n) → ready b → ready b'.
Proof.
  intros Hr Hu Hrd. unfold pin_subnet in Hr.
  apply mb_bind_cases in Hr as [(b1 & [] & Hc & Hr)|[(r1 & Hc & Hf) _]]; unfold preemptive_subscribe in Hc;
    (apply change_topics in Hc; [|by intros ?? ?%subscribe_wiring]).
  - destruct Hc as (b2 & Hb & Hp & ->). unfold mb_update in Hr. injection Hr as <- <-. apply (ready_same _ b2) in Hrd as [Hw Hl]; [|done..].
    assert (Hn : preemptive_topic b n = preemptive_topic b2 n) by (unfold preemptive_topic; by injection Hb as -> _ _ _ _). rewrite Hn.
    split; [|done]. destruct Hw as [E1 E2 E3 E4]. split; cbn; [done|done| |].
    + intros n' [->%elem_of_singleton|[U Hd]%E3]%elem_of_union; (split; [done|]); [by apply lookup_insert_eq|].
      destruct (decide (n' = n)) as [->|Hne]; [by apply lookup_insert_eq|]. rewrite lookup_insert_ne; [done|].
      intros He. by apply (preemptive_inj b2) in He.
    + intros t n' [[<- <-]|[Hne [? ->]%E4]]%lookup_insert_Some; (split; [set_solver|done]).
  - rewrite Hf in Hc. destruct Hc. by apply (ready_same b).
Qed.
Lemma unpin_ready n b b' r : unpin_subnet n b = (b', r) → is_u64 (root n) → ready b → ready b'.
Proof.
  intros Hr Hu Hrd. unfold unpin_subnet in Hr.
  apply mb_bind_cases in Hr as [(b1 & [] & Hc & Hr)|[(r1 & Hc & Hf) _]]; unfold preemptive_unsubscribe in Hc;
    (apply change_topics in Hc; [|by intros ?? ?%unsubscribe_wiring]).
  - destruct Hc as (b2 & Hb & Hp & ->). unfold mb_update in Hr. injection Hr as <- <-. apply (ready_same _ b2) in Hrd as [Hw Hl]; [|done..].
    assert (Hn : preemptive_topic b n = preemptive_topic b2 n) by (unfold preemptive_topic; by injection Hb as -> _ _ _ _). rewrite Hn.
    split; [|done]. destruct Hw as [E1 E2 E3 E4]. split; cbn; [done|done| |].
    + intros n' [[U Hd]%E3 Hne]%elem_of_difference. split; [done|]. rewrite lookup_delete_ne; [done|].
      intros He. apply Hne, elem_of_singleton. symmetry. by apply (preemptive_inj b2).
    + intros t n' [Hne [Hp' ->]%E4]%lookup_delete_Some. split; [|done]. apply elem_of_difference. split; [done|]. intros ->%elem_of_singleton. done.
  - rewrite Hf in Hc. destruct Hc. by apply (ready_same b).
Qed.

Lemma publish_for_new_peer_wiring clk b : wiring (publish_for_new_peer clk b) = wiring b ∧ provided (publish_for_new_peer clk b) = provided b.
Proof. unfold publish_for_new_peer. by repeat case_match. Qed.
Lemma add_provider_pinned (c : SubnetProviderCache N Peer) r : pinned_subnets (add_provider c r).1 = pinned_subnets c.
Proof.
  unfold add_provider. destruct (is_routable c _); [|done]. cbn [negb]. destruct (_ <? _); [|done].
  destruct (remove_peer _ _ _), (insert_peer _ _ _), (prune_subnets _) as [c' d] eqn:Hp. cbn.
  unfold prune_subnets in Hp. destruct (_ <=? 0); [by simplify_eq|]. destruct (prune_counts _ _ _ _ _). by simplify_eq.
Qed.
Lemma unroutables_pinned ps (c : SubnetProviderCache N Peer) : pinned_subnets (foldl cache_set_unroutable c ps) = pinned_subnets c.
Proof. revert c. induction ps as [|p ps IH]; intros c; cbn [foldl]; [done|]. by rewrite IH. Qed.
Lemma handle_message_wiring clk m b : wiring (handle_message clk m b) = wiring b ∧ provided (handle_message clk m b) = provided b.
Proof.
  unfold handle_message. case_bool_decide.
  - destruct (signed_from_bytes _) as [s| | |]; try done. unfold handle_provider_record.
    pose proof (add_provider_pinned (provider_cache b) (record s)) as Hp. destruct (add_provider _ _) as [c [d|]]; cbn in Hp;
      [|unfold wiring; cbn; by rewrite Hp].
    destruct (delta_is_empty d && _); [unfold wiring; cbn; by rewrite Hp|].
    destruct (is_new d); [|unfold wiring; cbn; by rewrite Hp].
    match goal with |- wiring (publish_for_new_peer clk ?x) = _ ∧ _ => destruct (publish_for_new_peer_wiring clk x) as [-> ->] end.
    unfold wiring. cbn. by rewrite Hp.
  - case_bool_decide; [by destruct (signed_from_bytes _)|]. by case_match.
Qed.
Lemma handle_events_wiring clk evs b : wiring (handle_events clk evs b).1.1 = wiring b ∧ provided (handle_events clk evs b).1.1 = provided b.
Proof.
  revert b. induction evs as [|e evs IH]; intros b; [done|]. destruct e; cbn [handle_events]; try apply IH; [| |done].
  - destruct (IH (handle_subscriber clk p t b)) as [-> ->]. unfold handle_subscriber. case_bool_decide; [|done]. apply publish_for_new_peer_wiring.
  - destruct (IH (handle_message clk m b)) as [-> ->]. apply handle_message_wiring.
Qed.
Lemma poll_wiring clk evs b : wiring (poll clk evs b).1.1 = wiring b ∧ provided (poll clk evs b).1.1 = provided b.
Proof.
  unfold poll. destruct (outbox b); [|done]. destruct (poll_tick _ _) as [tick i]. set (b1 := set_timing b i _ _).
  set (b2 := if tick then _ else b1). destruct (handle_events clk evs b2) as [[b3 l] o] eqn:He. cbn.
  destruct (handle_events_wiring clk evs b2) as [W1 W2]. rewrite He in W1, W2. cbn in W1, W2. rewrite W1, W2. subst b2.
  destruct tick; [|done]. destruct (publish_membership clk b1) as [b4 r] eqn:Hp. apply publish_membership_wiring in Hp as [W3 W4].
  cbn. unfold prune_membership, prune_providers. unfold wiring in *. cbn. rewrite unroutables_pinned. by rewrite W4.
Qed.

(** ** The methods of the behaviour *)

Inductive m_step : B → B → Prop :=
| st_set_provided clk ids b : Forall (λ n, is_u64 (root n)) ids → m_step b (set_provided_subnets clk ids b).1
| st_add_provided clk n b : is_u64 (root n) → m_step b (add_provided_subnet clk n b).1
| st_remove_provided clk n b : m_step b (remove_provided_subnet clk n b).1
| st_pin n b : is_u64 (root n) → m_step b (pin_subnet n b).1
| st_unpin n b : is_u64 (root n) → m_step b (unpin_subnet n b).1
| st_publish_vote v b : m_step b (publish_vote v b).1
| st_publish_preemptive n x b : m_step b (publish_preemptive n x b).1
| st_routable clk p b : m_step b (set_routable clk p b)
| st_unroutable p b : m_step b (set_unroutable p b)
| st_poll clk evs b : m_step b (poll clk evs b).1.1.
Lemma m_step_ready b b' : m_step b b' → ready b → ready b'.
Proof.
  intros Hs Hr. destruct Hs.
  - destruct (set_provided_subnets clk ids b) eqn:He. by eapply set_provided_ready.
  - destruct (add_provided_subnet clk n b) eqn:He. by eapply add_provided_ready.
  - destruct (remove_provided_subnet clk n b) eqn:He. by eapply remove_provided_ready.
  - destruct (pin_subnet n b) eqn:He. by eapply pin_ready.
  - destruct (unpin_subnet n b) eqn:He. by eapply unpin_ready.
  - destruct (publish_vote v b) eqn:He. apply publish_on_wiring in He as [? ?]. by apply (ready_same b).
  - destruct (publish_preemptive n x b) eqn:He. apply publish_on_wiring in He as [? ?]. by apply (ready_same b).
  - destruct (publish_for_new_peer_wiring clk (set_cache b (cache_set_routable (provider_cache b) p))) as [W1 W2].
    by apply (ready_same b); [etrans; [exact W1|]|etrans; [exact W2|]|].
  - by apply (ready_same b).
  - destruct (poll_wiring clk evs b). by apply (ready_same b).
Qed.
Lemma new_ready clk key name mc b : membership_new clk key name mc = Ok b → Forall (λ n, is_u64 (root n)) (mc_static_subnets mc) → ready b.
Proof.
  unfold membership_new. case_bool_decide; [done|]. destruct (gs_new key _) as [g|]; [|done]. destruct (gs_subscribe g _) as [g' []]; [|done].
  cbn [negb]. set (b0 := mkBehaviour _ _ _ _ _ _ _ _ _ _ _ _ _ _). intros Hr Hu.
  assert (Hi : ready b0) by (split; [split|]; cbn; set_solver).
  assert (He : ∀ l b b' r, Forall (λ n, is_u64 (root n)) l → mb_each pin_subnet l b = (b', r) → ready b → ready b').
  { induction l as [|n l IH]; intros b1 b2 r Hl Hc Hb; cbn [mb_each] in Hc; [unfold mb_ret in Hc; by simplify_eq|].
    apply Forall_cons in Hl as [? ?]. apply mb_bind_cases in Hc as [(b3 & [] & Hc & Hr')|[(r1 & Hc & _) _]]; [eapply IH; [done|exact Hr'|]|];
      by eapply pin_ready. }
  destruct (mb_each pin_subnet _ b0) as [b1 r] eqn:Hc. destruct r; try done. cbn in Hr. simplify_eq. by eapply He.
Qed.

(** ** Delivery *)

Lemma membership_topic_other b x : wired b → sha256_topic x ≠ membership_topic b.
Proof. intros Hw. rewrite (wi_topic _ Hw). apply sha256_topic_other. Qed.
Lemma preemptive_not_voting b n t : wired b → t ∈ voting_topics b → t ≠ sha256_topic (preemptive_topic b n).
Proof. intros Hw (n' & _ & ->)%(wi_votes _ Hw) He%sha256_topic_inj. done. Qed.
Lemma handle_vote clk t x s b : wired b → sha256_topic t ∈ voting_topics b → signed_from_bytes (R := VoteRecord N Pub V) x = Ok s →
  handle_message clk (mkGossip (sha256_topic t) x) b = set_outbox b (outbox b ++ [ReceivedVote (record s)]).
Proof.
  intros Hw Ht Hs. unfold handle_message. cbn. rewrite bool_decide_false by (by apply membership_topic_other).
  by rewrite bool_decide_true, Hs by done.
Qed.
Lemma handle_data clk n x b : wired b → n ∈ pinned_subnets (provider_cache b) →
  handle_message clk (mkGossip (sha256_topic (preemptive_topic b n)) x) b = set_outbox b (outbox b ++ [ReceivedPreemptive n x]).
Proof.
  intros Hw Hn. unfold handle_message. cbn. rewrite bool_decide_false by (by apply membership_topic_other).
  rewrite bool_decide_false by (intros Ht; by eapply preemptive_not_voting). by destruct (wi_pinned _ Hw n Hn) as [_ ->].
Qed.
Lemma handle_provider clk x s b : wired b → signed_from_bytes (R := ProviderRecord N Peer) x = Ok s →
  handle_message clk (mkGossip (membership_topic b) x) b = handle_provider_record clk (record s) b.
Proof. intros Hw Hs. unfold handle_message. cbn. by rewrite bool_decide_true, Hs. Qed.
Lemma handle_provider_cache clk r b : provider_cache (handle_provider_record clk r b) = (add_provider (provider_cache b) r).1.
Proof.
  unfold handle_provider_record. destruct (add_provider _ _) as [c [d|]]; [|done]. destruct (delta_is_empty d && _); [done|].
  destruct (is_new d); [|done]. unfold publish_for_new_peer. by repeat case_match.
Qed.
End wiring.

Section delivery.
Context {A Key Pub Peer Envelope G V : Type} `{AddressLaws A} `{!Countable A} `{!EqDecision Pub} `{Countable Peer}
  `{!Libp2p Key Pub Peer Envelope} `{!Libp2pLaws Key Pub Peer Envelope} `{!Gossipsub Key G} `{!TopicLaws Key G} `{!HashOrder (SubnetID A) Peer}
  `{!Ipld (ProviderRecord (SubnetID A) Peer)} `{!IpldLaws (ProviderRecord (SubnetID A) Peer)}
  `{!Ipld (VoteRecord (SubnetID A) Pub V)} `{!IpldLaws (VoteRecord (SubnetID A) Pub V)}.
Notation B := (Behaviour A Key Pub Peer G V).
Notation N := (SubnetID A).
Implicit Types (a b : B) (n : N) (clk : Clock).

(** C23. What is published arrives.  Let an agent have run any sequence of its methods, some of
    which may have failed half-way, and let another agent of the network publish.  A vote in a
    subnet the first one provides is handed to it as it was signed; so is data for a subnet it
    has pinned; and a newer list of subnets of a routable peer decides, for every subnet that
    is pinned, whether the peer is one of its providers.  The hash of topics is taken to have
    no collisions. *)
Theorem gossip_delivered clk0 key0 name mc b0 a b clk t key :
  (∀ x : A, no_char "_" (addr_to_string x) = true) →
  membership_new clk0 key0 name mc = Ok b0 → Forall (λ n, is_u64 (root n)) (mc_static_subnets mc) → rtc m_step b0 b →
  network_name a = network_name b →
  (∀ n c (v : SignedRecord (VoteRecord N Pub V) Envelope), n ∈ provided b → vote_signed t key n c = Ok v →
     handle_message clk (mkGossip (sha256_topic (voting_topic a n)) (into_protobuf_encoding (envelope v))) b =
       set_outbox b (outbox b ++ [ReceivedVote (mkVote (key_public key) n c t)])) ∧
  (∀ n x, n ∈ pinned_subnets (provider_cache b) →
     handle_message clk (mkGossip (sha256_topic (preemptive_topic a n)) x) b = set_outbox b (outbox b ++ [ReceivedPreemptive n x])) ∧
  (∀ ids (r : SignedRecord (ProviderRecord N Peer) Envelope) n, let p := to_peer_id (key_public key) in
     provider_signed t key ids = Ok r → 0 <= max_subnets (provider_cache b) → p ∈ routable_peers (provider_cache b) →
     default 0 (peer_timestamps (provider_cache b) !! p) < t → n ∈ pinned_subnets (provider_cache b) →
     (p ∈ providers_of_subnet (handle_message clk (mkGossip (membership_topic b) (into_protobuf_encoding (envelope r))) b) n ↔ n ∈ ids)).
Proof.
  intros Hu Hnew Hs Hrun Hnet. assert (Hrd : ready b).
  { apply (new_ready Hu _ _ _ _ _ Hnew) in Hs. clear Hnew Hnet. induction Hrun as [|b1 b2 b3 H1' _ IH]; [done|]. by apply IH, (m_step_ready Hu b1). }
  destruct Hrd as [Hw Hl]. split_and!.
  - intros n c v Hn Hv. destruct (signed_roundtrip _ _ _ Hv) as [Hr Hb]; [by apply bool_decide_true|].
    unfold voting_topic. rewrite Hnet. destruct (Hl n Hn) as [_ Ht]. erewrite handle_vote; [|done..]. by rewrite Hr.
  - intros n x Hn. unfold preemptive_topic. rewrite Hnet. by apply handle_data.
  - intros ids r n p Hr Hm Hp Hts Hn. destruct (signed_roundtrip _ _ _ Hr) as [Hrec Hb]; [by apply bool_decide_true|].
    unfold providers_of_subnet. erewrite handle_provider; [|done..]. rewrite handle_provider_cache, Hrec.
    destruct (add_provider _ _) as [c [d|]] eqn:Ha.
    + apply add_provider_serves in Ha as (_ & _ & _ & _ & Ha); [|done]. cbn [peer_id timestamp subnet_ids] in Ha.
      rewrite (proj2 (Z.ltb_lt _ _)) in Ha by done. destruct Ha as (_ & pruned & Hpr & Hsv). cbn [fst].
      specialize (Hsv n p). unfold serves in Hsv. unfold cache_providers_of_subnet. rewrite Hsv, decide_True by done.
      split; [by intros [_ ?]|]. intros Hi. split; [|done]. intros Hx. by apply (Hpr n).
    + unfold add_provider, is_routable in Ha. cbn [peer_id] in Ha. rewrite bool_decide_true in Ha by done. cbn [negb] in Ha.
      destruct (_ <? _); [|done]. by repeat case_match.
Qed.
End delivery.

(** ** What else the methods do *)

Section timing.
Context {A Key Pub Peer Envelope G V : Type} `{AddressOps A} `{!Countable A} `{!EqDecision Pub} `{Countable Peer}
  `{!Libp2p Key Pub Peer Envelope} `{!Gossipsub Key G} `{!HashOrder (SubnetID A) Peer}
  `{!Ipld (ProviderRecord (SubnetID A) Peer)} `{!Ipld (VoteRecord (SubnetID A) Pub V)}.
Implicit Types (b : Behaviour A Key Pub Peer G V) (clk : Clock).

(** New peers bring the next publication forward, never back, and keep the minimum distance
    to the last one. *)
Lemma new_peer_never_delays clk b : let b' := publish_for_new_peer clk b in
  next_publish_timestamp b' <= next_publish_timestamp b ∧ last_publish_timestamp b' = last_publish_timestamp b ∧
  (b' = b ∨ (0 <= now clk <= U64_MAX → 0 <= min_time_between_publish b →
     Z.min (last_publish_timestamp b + as_secs (min_time_between_publish b)) U64_MAX <= next_publish_timestamp b')).
Proof.
  intros b'. subst b'. unfold publish_for_new_peer. destruct (provided b); [split_and!; [lia|done|by left]|].
  destruct (_ <? _) eqn:H1'; [split_and!; [lia|done|by left]|]. destruct (_ <=? _) eqn:H2'; [split_and!; [lia|done|by left]|].
  zbool. cbn. unfold ts_add, ts_sub, saturating_sub in *. split_and!; [lia|done|]. right. intros Hn Hm.
  assert (0 <= as_secs (min_time_between_publish b)) by (apply Z.div_pos; lia). lia.
Qed.
(** When a topic cannot be left, [set_provided_subnets] gives up with an empty list: the
    agent announces no subnet until it is told again. *)
Lemma failed_update_drops_subnets clk n l ids b g : provided b = n :: l → n ∉ ids →
  gs_unsubscribe (inner b) (sha256_topic (voting_topic b n)) = (g, false) →
  ∃ b' e, set_provided_subnets clk ids b = (b', Err e) ∧ provided b' = [] ∧ voting_topics b' = voting_topics b.
Proof.
  intros Hp Hn Hg. eexists _, _. split.
  - unfold set_provided_subnets. rewrite Hp. cbn [mb_each]. unfold mb_bind at 1, mb_update at 1. unfold mb_bind at 1 2.
    rewrite bool_decide_false by done. unfold voting_unsubscribe, mb_bind at 1, unsubscribe. cbn [inner set_provided].
    change (voting_topic (set_provided b []) n) with (voting_topic b n). by rewrite Hg.
  - done.
Qed.
(** A poll can report that nothing is ready although it has put events into the outbox. *)
Lemma poll_leaves_events clk m b n : outbox b = [] → instant clk < due (publish_interval b) → topic m ≠ membership_topic b →
  topic m ∉ voting_topics b → preemptive_topics b !! topic m = Some n →
  ∃ b', poll clk [Message m] b = (b', [], Pending) ∧ outbox b' = [ReceivedPreemptive n (data m)].
Proof.
  intros Ho Hd Hm Hv Hp. unfold poll, poll_tick. rewrite Ho, (proj2 (Z.leb_gt _ _)) by lia. cbn [handle_events]. unfold handle_message.
  cbn [membership_topic set_timing voting_topics preemptive_topics]. rewrite !bool_decide_false, Hp by done. eexists. split; [done|].
  cbn. by rewrite Ho.
Qed.
End timing.

(** ** Example: two agents in a network, with a toy transport *)

Record ToyEnvelope := mkToy { e_domain : Z; e_type : Z; e_key : Z; e_payload : bytes }.
Definition tag (s : string) : Z := Z.pos (encode s).
#[local] Instance toy_libp2p : Libp2p Z Z Z ToyEnvelope := {
  key_public k := k + 1000;
  to_peer_id p := p;
  envelope_new k d t p := Some (mkToy (tag d) (tag t) k p);
  payload_and_signing_key e d t := if (e_domain e =? tag d) && (e_type e =? tag t) then Some (e_payload e, e_key e + 1000) else None;
  into_protobuf_encoding e := e_domain e :: e_type e :: e_key e :: e_payload e;
  from_protobuf_encoding b := match b with d :: t :: k :: p => Some (mkToy d t k p) | _ => None end;
}.
#[local] Instance toy_libp2p_laws : Libp2pLaws Z Z Z ToyEnvelope.
Proof.
  split.
  - intros k d t p e [= <-]. cbn -[Z.eqb tag]. by rewrite !Z.eqb_refl.
  - intros e d t1 t2 x1 x2. cbn -[Z.eqb tag]. intros H1 H2. apply (inj encode). destruct (e_domain e =? tag d); [|done]. cbn in *.
    destruct (e_type e =? tag t1) eqn:E1; [|done]. destruct (e_type e =? tag t2) eqn:E2; [|done]. zbool. unfold tag in *. congruence.
  - by intros [].
Qed.
#[local] Instance toy_gossipsub : Gossipsub Z unit := {
  gs_new _ _ := Some (); gs_subscribe _ _ := ((), true); gs_unsubscribe _ _ := ((), true); gs_publish _ _ _ := ((), true);
  sha256_topic t := String "#" t;
}.
#[local] Instance toy_topic_laws : TopicLaws Z unit.
Proof. split; [by intros a b [= ->]|done]. Qed.
#[export] Instance actor_countable : Countable IdAddress := inj_countable' actor_id mkId (λ a, match a with mkId _ => eq_refl end).
#[local] Instance toy_order : HashOrder (SubnetID IdAddress) Z :=
  {| iter_subnets m := map_to_list m; iter_peers m := map_to_list m;
     iter_subnets_perm _ := Permutation_refl _; iter_peers_perm _ := Permutation_refl _ |}.
#[local] Instance toy_provider_ipld : Ipld (ProviderRecord (SubnetID IdAddress) Z) := {
  to_vec r := Some [Z.pos (encode (peer_id r, subnet_ids r, timestamp r))];
  from_slice b := match b with [Z.pos p] => (λ x, mkProvider x.1.1 x.1.2 x.2) <$> decode p | _ => None end;
}.
#[local] Instance toy_provider_laws : IpldLaws (ProviderRecord (SubnetID IdAddress) Z).
Proof. split. intros [] b [= <-]. cbn. by rewrite decode_encode. Qed.
#[local] Instance toy_vote_ipld : Ipld (VoteRecord (SubnetID IdAddress) Z Z) := {
  to_vec r := Some [Z.pos (encode (public_key r, vote_subnet r, content r, vote_timestamp r))];
  from_slice b := match b with [Z.pos p] => (λ x, mkVote x.1.1.1 x.1.1.2 x.1.2 x.2) <$> decode p | _ => None end;
}.
#[local] Instance toy_vote_laws : IpldLaws (VoteRecord (SubnetID IdAddress) Z Z).
Proof. split. intros [] b [= <-]. cbn. by rewrite decode_encode. Qed.
Lemma id_no_underscore (x : IdAddress) : no_char "_" (addr_to_string x) = true.
Proof. destruct x as [n]. pose proof (no_char_u64 "_" (Z.of_N n) eq_refl) as Hn. unfold u64_to_string in Hn. by rewrite N2Z.id in Hn. Qed.

Definition toy_config : MembershipConfig (SubnetID IdAddress) := mkMembershipConfig [sample_subnet] 10 60 5 600.
Definition toy_agent (k : Z) : outcome MembershipError (Behaviour IdAddress Z Z Z unit Z) := membership_new (mkClock 100 0) k "net" toy_config.
Lemma gossip_delivered_witness :
  ∃ a b0 (b : Behaviour IdAddress Z Z Z unit Z) v,
    toy_agent 1 = Ok a ∧ toy_agent 2 = Ok b0 ∧ b = (add_provided_subnet (mkClock 110 1) sample_subnet b0).1 ∧
    vote_signed (Peer := Z) 200 1 sample_subnet 42 = Ok v ∧
    handle_message (mkClock 120 2) (mkGossip (sha256_topic (voting_topic a sample_subnet)) (into_protobuf_encoding (envelope v))) b =
      set_outbox b [ReceivedVote (mkVote 1001 sample_subnet 42 200)].
Proof.
  assert (Hok : match toy_agent 1, toy_agent 2, vote_signed (Peer := Z) (Envelope := ToyEnvelope) 200 1 sample_subnet 42 with
                | Ok a, Ok b0, Ok v =>
                    let b := (add_provided_subnet (mkClock 110 1) sample_subnet b0).1 in
                    bool_decide (network_name a = network_name b) && bool_decide (sample_subnet ∈ provided b) && bool_decide (length (outbox b) = 0%nat)
                | _, _, _ => false
                end = true) by (vm_compute; reflexivity).
  destruct (toy_agent 1) as [a| | |] eqn:Ea; [|discriminate Hok..]. destruct (toy_agent 2) as [b0| | |] eqn:Eb; [|discriminate Hok..].
  destruct (vote_signed 200 1 sample_subnet 42) as [v| | |] eqn:Ev; [|discriminate Hok..].
  set (b := (add_provided_subnet (mkClock 110 1) sample_subnet b0).1). exists a, b0, b, v. do 4 (split; [reflexivity|]).
  cbv zeta in Hok. fold b in Hok. rewrite !andb_true_iff, !bool_decide_eq_true in Hok. destruct Hok as [[Hn Hp] Ho%nil_length_inv].
  destruct (gossip_delivered (mkClock 100 0) 2 "net" toy_config b0 a b (mkClock 120 2) 200 1 id_no_underscore Eb) as (Hv & _ & _).
  - apply Forall_singleton. split; vm_compute; discriminate.
  - apply rtc_once, st_add_provided. split; vm_compute; discriminate.
  - exact Hn.
  - rewrite (Hv sample_subnet 42 v Hp Ev), Ho. reflexivity.
Defined.
