(* ===== verification/ResolverService.v ===== *)
(** * The resolver service
    ([ipld/resolver/src/{service,client,missing_blocks,limiter}.rs], [behaviour/{discovery,content}.rs]
    and the dispatch of its events in [app/src/cmd/run.rs])

    The service drives three behaviours: discovery knows the addresses of peers, membership
    the subnets they serve, and content fetches blocks from them.  Kademlia, Bitswap, the
    rate limiter and the Bloom filter are parameters. *)

From Stdlib Require Import Ascii String.
From stdpp Require Import base tactics numbers list gmap strings.
From S2P Require Import Prelude IpcApi Voting ProviderCache Membership.

Open Scope Z_scope.

(** ** Discovery ([discovery.rs]) *)

Class Kademlia (Peer Addr K : Type) := {
  kad_add_address : K → Peer → Addr → K;
  kad_get_closest_peers : K → Peer → K;
  kad_bootstrap : K → option K;
  (** [handle_pending_outbound_connection]; no answer if the connection is denied *)
  kad_addresses : K → Peer → option (list Addr);
}.
Inductive DiscoveryEvent (Peer Addr : Type) := Added (p : Peer) (addrs : list Addr) | DRemoved (p : Peer).
Arguments Added {Peer Addr} _ _.
Arguments DRemoved {Peer Addr} _.
Record Info (Addr : Type) := mkInfo { protocols : list string; listen_addrs : list Addr }.
Arguments mkInfo {Addr} _ _.
Arguments protocols {Addr} _.
Arguments listen_addrs {Addr} _.
Record Discovery (Peer Addr K : Type) := mkDiscovery {
  static_addresses : list (Peer * Addr);
  protocol_name : string;
  kad : option K;
  num_connections : Z;
  target_connections : Z;
  lookup_interval : Interval;
  bootstrap_buffer : option (list (Peer * Info Addr));
  d_outbox : list (DiscoveryEvent Peer Addr);
}.
Arguments mkDiscovery {Peer Addr K} _ _ _ _ _ _ _ _.
Arguments static_addresses {Peer Addr K} _.
Arguments protocol_name {Peer Addr K} _.
Arguments kad {Peer Addr K} _.
Arguments num_connections {Peer Addr K} _.
Arguments target_connections {Peer Addr K} _.
Arguments lookup_interval {Peer Addr K} _.
Arguments bootstrap_buffer {Peer Addr K} _.
Arguments d_outbox {Peer Addr K} _.
Inductive DiscoveryError := DInvalidNetwork | InvalidBootstrapAddress | NoBootstrapAddress.
(** An address of the configuration, with the peer id at its end if it has one. *)
Definition StaticAddress (Peer Addr : Type) : Type := option Peer * Addr.
Record DiscoveryConfig (Peer Addr : Type) := mkDiscoveryConfig {
  dc_static_addresses : list (StaticAddress Peer Addr);
  dc_target_connections : Z;
  dc_enable_kademlia : bool;
}.
Arguments mkDiscoveryConfig {Peer Addr} _ _ _.
Arguments dc_static_addresses {Peer Addr} _.
Arguments dc_target_connections {Peer Addr} _.
Arguments dc_enable_kademlia {Peer Addr} _.
Inductive KadEvent (Peer Addr : Type) :=
| UnroutablePeer (p : Peer)
| InboundRequest
| ModeChanged
| OutboundQueryProgressed (bootstrap_done : bool)
| RoutablePeer (p : Peer)
| PendingRoutablePeer (p : Peer) (a : Addr)
| RoutingUpdated (p : Peer) (addrs : list Addr) (old_peer : option Peer)
| KadOther.
Arguments UnroutablePeer {Peer Addr} _.
Arguments InboundRequest {Peer Addr}.
Arguments ModeChanged {Peer Addr}.
Arguments OutboundQueryProgressed {Peer Addr} _.
Arguments RoutablePeer {Peer Addr} _.
Arguments PendingRoutablePeer {Peer Addr} _ _.
Arguments RoutingUpdated {Peer Addr} _ _ _.
Arguments KadOther {Peer Addr}.
(** Connections to a peer, with the number of others that it has. *)
Inductive SwarmEvent (Peer Addr : Type) :=
| ConnectionEstablished (p : Peer) (other_established : Z) (dialer : bool) (addr : Addr)
| ConnectionClosed (p : Peer) (remaining_established : Z)
| SwarmOther.
Arguments ConnectionEstablished {Peer Addr} _ _ _ _.
Arguments ConnectionClosed {Peer Addr} _ _.
Arguments SwarmOther {Peer Addr}.

Section discovery.
Context {Peer Addr K : Type} `{Countable Peer} `{!Kademlia Peer Addr K}.
Notation D := (Discovery Peer Addr K).
Implicit Types (d : D) (p : Peer).

Definition set_kad d k : D :=
  mkDiscovery (static_addresses d) (protocol_name d) k (num_connections d) (target_connections d) (lookup_interval d) (bootstrap_buffer d) (d_outbox d).
Definition set_buffer d b : D :=
  mkDiscovery (static_addresses d) (protocol_name d) (kad d) (num_connections d) (target_connections d) (lookup_interval d) b (d_outbox d).
Definition set_d_outbox d o : D :=
  mkDiscovery (static_addresses d) (protocol_name d) (kad d) (num_connections d) (target_connections d) (lookup_interval d) (bootstrap_buffer d) o.
Definition set_num_connections d n : D :=
  mkDiscovery (static_addresses d) (protocol_name d) (kad d) n (target_connections d) (lookup_interval d) (bootstrap_buffer d) (d_outbox d).
Definition set_lookup d i : D :=
  mkDiscovery (static_addresses d) (protocol_name d) (kad d) (num_connections d) (target_connections d) i (bootstrap_buffer d) (d_outbox d).

(** The local peer is left out; an address without a peer id is an error. *)
Fixpoint parse_static (me : Peer) (l : list (StaticAddress Peer Addr)) : outcome DiscoveryError (list (Peer * Addr)) :=
  match l with
  | [] => Ok []
  | (Some p, a) :: l => rest ← parse_static me l; Ok (if bool_decide (p ≠ me) then (p, a) :: rest else rest)
  | (None, _) :: _ => Err InvalidBootstrapAddress
  end.
(** [fresh] is an empty Kademlia behaviour. *)
Definition discovery_new (clk : Clock) (fresh : K) (me : Peer) (name : string) (dc : DiscoveryConfig Peer Addr) : outcome DiscoveryError D :=
  if bool_decide (name = ""%string) then Err DInvalidNetwork else
  static ← parse_static me (dc_static_addresses dc);
  let proto := ("/ipc/" ++ name ++ "/kad/1.0.0")%string in
  let make k buffer out :=
    mkDiscovery static proto k 0 (dc_target_connections dc) (mkInterval (10 ^ 9) (instant clk)) buffer out in
  if dc_enable_kademlia dc then
    match static with
    | [] => Ok (make (Some fresh) None [])
    | _ =>
        k ← ok_or NoBootstrapAddress (kad_bootstrap (foldl (λ k e, kad_add_address k e.1 e.2) fresh static));
        Ok (make (Some k) (Some []) [])
    end
  else Ok (make None None ((λ e : Peer * Addr, Added e.1 [e.2]) <$> static)).

Definition addresses_of_peer d p : list Addr :=
  match match kad d with Some k => kad_addresses k p | None => Some [] end with
  | Some addrs => addrs ++ ((λ e : Peer * Addr, e.2) <$> filter (λ e : Peer * Addr, e.1 = p) (static_addresses d))
  | None => []
  end.
Definition background_lookup p d : D :=
  match addresses_of_peer d p with
  | [] => match kad d with Some k => set_kad d (Some (kad_get_closest_peers k p)) | None => d end
  | _ => d
  end.
Definition is_static d p : bool := existsb (λ e : Peer * Addr, bool_decide (e.1 = p)) (static_addresses d).
Definition add_address p a d : D :=
  match kad d with Some k => set_kad d (Some (kad_add_address k p a)) | None => d end.
Definition add_identified p (info : Info Addr) d : D :=
  if negb (bool_decide (protocol_name d ∈ protocols info)) then d else
  match bootstrap_buffer d with
  | Some buffer =>
      if (Z.of_nat (length buffer) <? target_connections d) && negb (existsb (λ e : Peer * Info Addr, bool_decide (e.1 = p)) buffer)
      then set_buffer d (Some (buffer ++ [(p, info)])) else d
  | None => foldl (λ d a, add_address p a d) d (listen_addrs info)
  end.
Definition discovery_on_swarm_event (e : SwarmEvent Peer Addr) d : D :=
  match e with
  | ConnectionEstablished _ 0 _ _ => set_num_connections d (num_connections d + 1)%u64
  | ConnectionClosed _ 0 => set_num_connections d (num_connections d - 1)%u64
  | _ => d
  end.
Definition handle_kad_event (e : KadEvent Peer Addr) d : D :=
  match e with
  | OutboundQueryProgressed true =>
      match bootstrap_buffer d with
      | Some buffer => foldl (λ d e, add_identified e.1 e.2 d) (set_buffer d None) buffer
      | None => d
      end
  | PendingRoutablePeer p a => set_d_outbox d (d_outbox d ++ [Added p [a]])
  | RoutingUpdated p addrs old =>
      let d := match old with
               | Some q => if is_static d q then set_d_outbox d (d_outbox d ++ [DRemoved q]) else d
               | None => d
               end in
      set_d_outbox d (d_outbox d ++ [Added p addrs])
  | _ => d
  end.
Fixpoint handle_kad_events (evs : list (KadEvent Peer Addr)) d : D * list (KadEvent Peer Addr) * bool :=
  match evs with
  | [] => (d, [], false)
  | KadOther :: evs => (d, evs, true)
  | e :: evs => handle_kad_events evs (handle_kad_event e d)
  end.
Inductive DPollResult := DReady (e : DiscoveryEvent Peer Addr) | DOther | DPending.
(** [random] is the peer id that is looked up. *)
Definition discovery_poll (clk : Clock) (random : Peer) (evs : list (KadEvent Peer Addr)) d : D * list (KadEvent Peer Addr) * DPollResult :=
  match d_outbox d with
  | e :: o => (set_d_outbox d o, evs, DReady e)
  | [] =>
      let '(tick, _) := poll_tick clk (lookup_interval d) in
      let d := if tick then
                 let d := if num_connections d <? target_connections d
                          then match kad d with Some k => set_kad d (Some (kad_get_closest_peers k random)) | None => d end else d in
                 let p := Z.min (2 * period (lookup_interval d)) (60 * 10 ^ 9) in set_lookup d (mkInterval p (instant clk + p))
               else d in
      let '(d, evs, other) := handle_kad_events evs d in
      (d, evs, if other then DOther else DPending)
  end.
End discovery.

(** ** Content ([content.rs], [limiter.rs]) *)

(** The states of [gcra], and the expiring cache of them: an entry is taken out if it has not
    expired, and is put back. *)
Class Limiter (Addr L : Type) := {
  GcraState : Type;
  gcra_default : GcraState;
  gcra_check_and_modify_at : GcraState → Z * Duration → Z → Z → GcraState * bool;
  lru_with_expiry : Duration → L;
  lru_entry : L → Z → Addr → L * option GcraState;
  lru_insert : L → Z → Addr → GcraState → L;
}.
(** [instant] is the time of the cache, [at_] that of the limit. *)
Definition limiter_new {Addr L} `{!Limiter Addr L} (ttl : Duration) : L := lru_with_expiry ttl.
Definition limiter_add_at {Addr L} `{!Limiter Addr L} (l : L) (limit : Z * Duration) (key : Addr) (cost : Z) (instant at_ : Z) : L * bool :=
  let '(l, st) := lru_entry l instant key in
  let '(st, ok) := gcra_check_and_modify_at (default gcra_default st) limit at_ cost in
  (lru_insert l instant key st, ok).
(** The protocols of a multiaddress that matter here. *)
Inductive Protocol := Ip4 (x : Z) | Ip6 (x : Z) | P2p (x : Z) | Tcp (x : Z) | Udp (x : Z) | OtherProtocol (x : Z).
Notation Multiaddr := (list Protocol).
(** [pop] takes the last protocol. *)
Fixpoint non_ephemeral_loop (rev_addr : Multiaddr) (keep : list Protocol) : list Protocol :=
  match rev_addr with
  | [] => keep
  | proto :: addr =>
      match proto with
      | Ip4 _ | Ip6 _ => [proto]
      | P2p _ | Tcp _ | Udp _ => non_ephemeral_loop addr keep
      | OtherProtocol _ => non_ephemeral_loop addr (keep ++ [proto])
      end
  end.
Definition select_non_ephemeral (addr : Multiaddr) : Multiaddr := reverse (non_ephemeral_loop (reverse addr) []).

Class Bitswap (Peer Cid BS Qid : Type) := { bs_sync : BS → Cid → list Peer → BS * Qid }.
Record Content (Peer BS L : Type) `{Countable Peer} := mkContent {
  bitswap : BS;
  peer_addresses : gmap Peer Multiaddr;
  rate_limiter : L;
  rate_limit_period : Duration;
  rate_limit : option (Z * Duration);
}.
Arguments mkContent {Peer BS L _ _} _ _ _ _ _.
Arguments bitswap {Peer BS L _ _} _.
Arguments peer_addresses {Peer BS L _ _} _.
Arguments rate_limiter {Peer BS L _ _} _.
Arguments rate_limit_period {Peer BS L _ _} _.
Arguments rate_limit {Peer BS L _ _} _.
Definition U32_MAX : Z := 2 ^ 32 - 1.

Section content.
Context {Peer BS L Cid Qid : Type} `{Countable Peer} `{!Limiter Multiaddr L} `{!Bitswap Peer Cid BS Qid}.
Implicit Types (c : Content Peer BS L) (p : Peer).

Definition limit_of (bytes : Z) (period : Duration) : option (Z * Duration) :=
  if (bytes =? 0) || (period =? 0) then None else Some (bytes, period).
Definition content_new (bs : BS) (bytes : Z) (period : Duration) : Content Peer BS L :=
  mkContent bs ∅ (limiter_new (Addr := Multiaddr) period) period (limit_of bytes period).
Definition content_resolve c (cid : Cid) (peers : list Peer) : Content Peer BS L * Qid :=
  let '(bs, q) := bs_sync (bitswap c) cid peers in
  (mkContent bs (peer_addresses c) (rate_limiter c) (rate_limit_period c) (rate_limit c), q).
(** The cost is [try_into().unwrap_or(u32::MAX)]. *)
Definition limiter_add (clk : Clock) c p (bytes : Z) : Content Peer BS L * bool :=
  match rate_limit c, peer_addresses c !! p with
  | Some limit, Some addr =>
      let '(l, ok) := limiter_add_at (rate_limiter c) limit addr (Z.min bytes U32_MAX) (instant clk) (instant clk) in
      (mkContent (bitswap c) (peer_addresses c) l (rate_limit_period c) (rate_limit c), ok)
  | _, _ => (c, true)
  end.
(** [check_rate_limit], which nothing calls; [cid_len] is the length of the identifier. *)
Definition check_rate_limit (clk : Clock) c p (cid_len : Z) : Content Peer BS L * bool := limiter_add clk c p cid_len.
Definition rate_limit_used (clk : Clock) p (bytes : Z) c : Content Peer BS L := (limiter_add clk c p bytes).1.
Definition update_rate_limit (bytes : Z) c : Content Peer BS L :=
  mkContent (bitswap c) (peer_addresses c) (rate_limiter c) (rate_limit_period c) (limit_of bytes (rate_limit_period c)).
Definition content_on_swarm_event (e : SwarmEvent Peer Multiaddr) c : Content Peer BS L :=
  match e with
  | ConnectionEstablished p 0 dialer addr =>
      mkContent (bitswap c) (<[p := if dialer then addr else select_non_ephemeral addr]> (peer_addresses c)) (rate_limiter c) (rate_limit_period c) (rate_limit c)
  | ConnectionClosed p 0 => mkContent (bitswap c) (delete p (peer_addresses c)) (rate_limiter c) (rate_limit_period c) (rate_limit c)
  | _ => c
  end.
End content.

(** ** The service ([service.rs]) *)

Class Bloom (Peer F : Type) := { bloom_insert : F → Peer → F * bool }.
Inductive ResolveResult := Resolved | NoKnownPeers | ResolutionFailed.
Record Query (N Peer Cid Chan : Type) := mkQuery { q_cid : Cid; q_subnet : N; fallback_peer_ids : list Peer; response_channel : Chan }.
Arguments mkQuery {N Peer Cid Chan} _ _ _ _.
Arguments q_cid {N Peer Cid Chan} _.
Arguments q_subnet {N Peer Cid Chan} _.
Arguments fallback_peer_ids {N Peer Cid Chan} _.
Arguments response_channel {N Peer Cid Chan} _.
Inductive ServiceEvent (N Pub V : Type) := SVote (v : VoteRecord N Pub V) | SPreemptive (n : N) (data : bytes).
Arguments SVote {N Pub V} _.
Arguments SPreemptive {N Pub V} _ _.
Inductive Request (N Pub Peer V Envelope Cid Chan : Type) :=
| SetProvidedSubnets (ids : list N)
| AddProvidedSubnet (n : N)
| RemoveProvidedSubnet (n : N)
| PublishVote (v : SignedRecord (VoteRecord N Pub V) Envelope)
| PublishPreemptive (n : N) (data : bytes)
| PinSubnet (n : N)
| UnpinSubnet (n : N)
| Resolve (cid : Cid) (n : N) (ch : Chan)
| RateLimitUsed (p : Peer) (bytes : Z)
| UpdateRateLimit (bytes : Z).
Arguments SetProvidedSubnets {N Pub Peer V Envelope Cid Chan} _.
Arguments AddProvidedSubnet {N Pub Peer V Envelope Cid Chan} _.
Arguments RemoveProvidedSubnet {N Pub Peer V Envelope Cid Chan} _.
Arguments PublishVote {N Pub Peer V Envelope Cid Chan} _.
Arguments PublishPreemptive {N Pub Peer V Envelope Cid Chan} _ _.
Arguments PinSubnet {N Pub Peer V Envelope Cid Chan} _.
Arguments UnpinSubnet {N Pub Peer V Envelope Cid Chan} _.
Arguments Resolve {N Pub Peer V Envelope Cid Chan} _ _ _.
Arguments RateLimitUsed {N Pub Peer V Envelope Cid Chan} _ _.
Arguments UpdateRateLimit {N Pub Peer V Envelope Cid Chan} _.
Record Service (A Key Pub Peer G V K BS L Cid Qid Chan F : Type) `{AddressOps A} `{!Countable A} `{Countable Peer} `{Countable Qid} := mkService {
  membership : Behaviour A Key Pub Peer G V;
  discovery : Discovery Peer Multiaddr K;
  contents : Content Peer BS L;
  queries : gmap Qid (Query (SubnetID A) Peer Cid Chan);
  background_lookup_filter : F;
  max_peers_per_query : nat;
  (** what was broadcast to the clients, and the answers to their requests *)
  events : list (ServiceEvent (SubnetID A) Pub V);
  responses : list (Chan * ResolveResult);
}.
Arguments mkService {A Key Pub Peer G V K BS L Cid Qid Chan F _ _ _ _ _ _} _ _ _ _ _ _ _ _.
Arguments membership {A Key Pub Peer G V K BS L Cid Qid Chan F _ _ _ _ _ _} _.
Arguments discovery {A Key Pub Peer G V K BS L Cid Qid Chan F _ _ _ _ _ _} _.
Arguments contents {A Key Pub Peer G V K BS L Cid Qid Chan F _ _ _ _ _ _} _.
Arguments queries {A Key Pub Peer G V K BS L Cid Qid Chan F _ _ _ _ _ _} _.
Arguments background_lookup_filter {A Key Pub Peer G V K BS L Cid Qid Chan F _ _ _ _ _ _} _.
Arguments max_peers_per_query {A Key Pub Peer G V K BS L Cid Qid Chan F _ _ _ _ _ _} _.
Arguments events {A Key Pub Peer G V K BS L Cid Qid Chan F _ _ _ _ _ _} _.
Arguments responses {A Key Pub Peer G V K BS L Cid Qid Chan F _ _ _ _ _ _} _.

Section service.
Context {A Key Pub Peer Envelope G V K BS L Cid Qid Chan F : Type} `{AddressOps A} `{!Countable A} `{!EqDecision Pub} `{Countable Peer} `{Countable Qid}
  `{!Libp2p Key Pub Peer Envelope} `{!Gossipsub Key G} `{!HashOrder (SubnetID A) Peer}
  `{!Ipld (ProviderRecord (SubnetID A) Peer)} `{!Ipld (VoteRecord (SubnetID A) Pub V)}
  `{!Kademlia Peer Multiaddr K} `{!Limiter Multiaddr L} `{!Bitswap Peer Cid BS Qid} `{!Bloom Peer F}.
Notation S := (Service A Key Pub Peer G V K BS L Cid Qid Chan F).
Notation N := (SubnetID A).
Implicit Types (s : S) (clk : Clock).

Definition set_membership s m : S := mkService m (discovery s) (contents s) (queries s) (background_lookup_filter s) (max_peers_per_query s) (events s) (responses s).
Definition set_discovery s d : S := mkService (membership s) d (contents s) (queries s) (background_lookup_filter s) (max_peers_per_query s) (events s) (responses s).
Definition set_contents s c : S := mkService (membership s) (discovery s) c (queries s) (background_lookup_filter s) (max_peers_per_query s) (events s) (responses s).
Definition set_queries s q : S := mkService (membership s) (discovery s) (contents s) q (background_lookup_filter s) (max_peers_per_query s) (events s) (responses s).
Definition set_filter s f : S := mkService (membership s) (discovery s) (contents s) (queries s) f (max_peers_per_query s) (events s) (responses s).
Definition send_event s e : S := mkService (membership s) (discovery s) (contents s) (queries s) (background_lookup_filter s) (max_peers_per_query s) (events s ++ [e]) (responses s).
Definition send_resolve_result s (ch : Chan) r : S := mkService (membership s) (discovery s) (contents s) (queries s) (background_lookup_filter s) (max_peers_per_query s) (events s) (responses s ++ [(ch, r)]).

Definition handle_identify_received p (info : Info Multiaddr) s : S := set_discovery s (add_identified p info (discovery s)).
Definition handle_discovery_event clk (e : DiscoveryEvent Peer Multiaddr) s : S :=
  match e with
  | Added p _ => set_membership s (set_routable clk p (membership s))
  | DRemoved p => set_membership s (set_unroutable p (membership s))
  end.
Definition handle_membership_event (e : Event N Pub Peer V) s : S :=
  match e with
  | Skipped p =>
      let '(f, new) := bloom_insert (background_lookup_filter s) p in
      let s := set_filter s f in
      if new then set_discovery s (background_lookup p (discovery s)) else s
  | Updated _ _ | Removed _ => s
  | ReceivedVote v => send_event s (SVote v)
  | ReceivedPreemptive n x => send_event s (SPreemptive n x)
  end.
Definition split_peers_for_query s (peers : list Peer) : list Peer * list Peer :=
  let size := Nat.min (max_peers_per_query s) (length peers) in (take size peers, drop size peers).
Definition resolve_query s (q : Query N Peer Cid Chan) (r : ResolveResult) : S :=
  match r, fallback_peer_ids q with
  | Resolved, _ | _, [] => send_resolve_result s (response_channel q) r
  | _, peers =>
      let '(peers, fallback) := split_peers_for_query s peers in
      let '(c, qid) := content_resolve (contents s) (q_cid q) peers in
      set_queries (set_contents s c) (<[qid := mkQuery (q_cid q) (q_subnet q) fallback (response_channel q)]> (queries s))
  end.
(** [content::Event::Complete]. *)
Definition handle_complete (qid : Qid) (r : ResolveResult) s : S :=
  match queries s !! qid with
  | Some q => resolve_query (set_queries s (delete qid (queries s))) q r
  | None => s
  end.
(** [shuffled] is the list of providers after [shuffle]; connected peers come first. *)
Definition start_query (cid : Cid) (n : N) (ch : Chan) (shuffled : list Peer) (is_connected : Peer → bool) s : S :=
  match shuffled with
  | [] => send_resolve_result s ch NoKnownPeers
  | _ =>
      let peers := filter (λ p, is_connected p = true) shuffled ++ filter (λ p, is_connected p = false) shuffled in
      let '(peers, fallback) := split_peers_for_query s peers in
      let '(c, qid) := content_resolve (contents s) cid peers in
      set_queries (set_contents s c) (<[qid := mkQuery cid n fallback ch]> (queries s))
  end.
(** [shuffle] stands for the random order. *)
Definition handle_request clk (shuffle : list Peer → list Peer) (is_connected : Peer → bool) (r : Request N Pub Peer V Envelope Cid Chan) s : S :=
  match r with
  | SetProvidedSubnets ids => set_membership s (set_provided_subnets clk ids (membership s)).1
  | AddProvidedSubnet n => set_membership s (add_provided_subnet clk n (membership s)).1
  | RemoveProvidedSubnet n => set_membership s (remove_provided_subnet clk n (membership s)).1
  | PublishVote v => set_membership s (publish_vote v (membership s)).1
  | PublishPreemptive n x => set_membership s (publish_preemptive n x (membership s)).1
  | PinSubnet n => set_membership s (pin_subnet n (membership s)).1
  | UnpinSubnet n => set_membership s (unpin_subnet n (membership s)).1
  | Resolve cid n ch => start_query cid n ch (shuffle (elements (providers_of_subnet (membership s) n))) is_connected s
  | RateLimitUsed p x => set_contents s (rate_limit_used clk p x (contents s))
  | UpdateRateLimit x => set_contents s (update_rate_limit x (contents s))
  end.
End service.

(** ** Missing blocks ([missing_blocks.rs]) *)

Inductive StoreError := GetFailed | InvalidBlock.
(** [get] answers with the links of a block of the store; [fuel] bounds the rounds of the
    loop, whose stack has its top first. *)
Fixpoint missing_blocks {Cid} (fuel : nat) (get : Cid → outcome StoreError (option (list Cid))) (stack missing : list Cid) : option (outcome StoreError (list Cid)) :=
  match fuel with
  | O => None
  | Datatypes.S fuel =>
      match stack with
      | [] => Some (Ok missing)
      | cid :: stack =>
          match get cid with
          | Ok (Some links) => missing_blocks fuel get (reverse links ++ stack) missing
          | Ok None => missing_blocks fuel get stack (missing ++ [cid])
          | Err e => Some (Err e)
          | Retry => Some Retry
          | Panic => Some Panic
          end
      end
  end.

(** ** Votes from the resolver to the tally ([app/src/cmd/run.rs]) *)

Section dispatch.
Context {N Pub Hash : Type} `{Countable Pub} `{Countable Hash}.

(** A vote of the application is about the finality of a parent block. *)
Record AppVote := mkAppVote { av_height : Z; av_block_hash : Hash }.
Definition dispatch_vote (topdown_enabled : bool) (t : VoteTally Pub Hash) (v : VoteRecord N Pub AppVote) : outcome (VotingError Pub Hash) (VoteTally Pub Hash) :=
  if negb topdown_enabled then Ok t else
  match add_vote t (public_key v) (av_height (content v)) (av_block_hash (content v)) with
  | Ok (t', _) => Ok t'
  | Err _ => Ok t
  | Retry => Retry
  | Panic => Panic
  end.
Definition dispatch_resolver_event (topdown_enabled : bool) (t : VoteTally Pub Hash) (e : ServiceEvent N Pub AppVote) : outcome (VotingError Pub Hash) (VoteTally Pub Hash) :=
  match e with SVote v => dispatch_vote topdown_enabled t v | SPreemptive _ _ => Ok t end.
(** What [rx.recv()] returns, one after the other; at the end of the list the loop waits. *)
Inductive RecvError := Lagged (n : Z) | Closed.
Fixpoint dispatch_resolver_events (topdown_enabled : bool) (t : VoteTally Pub Hash) (rx : list (RecvError + ServiceEvent N Pub AppVote))
    : outcome (VotingError Pub Hash) (VoteTally Pub Hash) :=
  match rx with
  | [] => Ok t
  | inr event :: rx => t' ← dispatch_resolver_event topdown_enabled t event; dispatch_resolver_events topdown_enabled t' rx
  | inl (Lagged _) :: rx => dispatch_resolver_events topdown_enabled t rx
  | inl Closed :: _ => Ok t
  end.
End dispatch.

(** The broadcast channel of [tokio] between the service and the loop: [bc_recv] is what a
    receiver reads of the events that were sent since it last looked.  It reads all of them
    when they fit in the channel; otherwise it reads an error and the later ones. *)
Class Broadcast (E : Type) := { bc_capacity : nat; bc_recv : list E → list (RecvError + E) }.
Class BroadcastLaws (E : Type) `{!Broadcast E} := {
  recv_all (es : list E) : (length es <= bc_capacity)%nat → bc_recv es = inr <$> es;
  recv_only (es : list E) : omap (λ r, match r with inr e => Some e | inl _ => None end) (bc_recv es) `sublist_of` es;
}.

(** ** Every request is answered once *)

Section answered.
Context {A Key Pub Peer Envelope G V K BS L Cid Qid Chan F : Type} `{AddressOps A} `{!Countable A} `{Countable Peer} `{Countable Qid}
  `{!Bitswap Peer Cid BS Qid}.
Notation S := (Service A Key Pub Peer G V K BS L Cid Qid Chan F).
Notation N := (SubnetID A).
Implicit Types (s : S).

Definition waiting s : list Chan := response_channel ∘ snd <$> map_to_list (queries s).
(** Bitswap does not use the number of a query that runs for another one. *)
Definition fresh_ids s : Prop := ∀ cid peers, (bs_sync (bitswap (contents s)) cid peers).2 ∉ dom (queries s).
(** A request or the end of a query; nothing else changes queries or answers. *)
Inductive q_step : S * list Chan → S * list Chan → Prop :=
| q_request cid n ch ps conn s asked : fresh_ids s → q_step (s, asked) (start_query cid n ch ps conn s, ch :: asked)
| q_complete qid r s asked : fresh_ids s → is_Some (queries s !! qid) → q_step (s, asked) (handle_complete qid r s, asked)
| q_other s s' asked : queries s' = queries s → responses s' = responses s → max_peers_per_query s' = max_peers_per_query s →
    q_step (s, asked) (s', asked).
Definition work s : nat := foldr (λ e acc, (1 + length (fallback_peer_ids e.2) + acc)%nat) 0%nat (map_to_list (queries s)).

Lemma waiting_insert s qid q m : m !! qid = None → queries s = <[qid := q]> m →
  waiting s ≡ₚ response_channel q :: (response_channel ∘ snd <$> map_to_list m).
Proof. intros Hm Hq. unfold waiting. rewrite Hq, map_to_list_insert by done. done. Qed.
Lemma waiting_delete s qid q : queries s !! qid = Some q →
  waiting s ≡ₚ response_channel q :: (response_channel ∘ snd <$> map_to_list (delete qid (queries s))).
Proof. intros Hq. apply (waiting_insert s qid q); [apply lookup_delete_eq|]. by rewrite insert_delete_id. Qed.
Lemma work_perm (l1 l2 : list (Qid * Query N Peer Cid Chan)) : l1 ≡ₚ l2 →
  foldr (λ e acc, (1 + length (fallback_peer_ids e.2) + acc)%nat) 0%nat l1 = foldr (λ e acc, (1 + length (fallback_peer_ids e.2) + acc)%nat) 0%nat l2.
Proof. induction 1; cbn in *; lia. Qed.
Lemma work_insert s qid q m : m !! qid = None → queries s = <[qid := q]> m →
  work s = (1 + length (fallback_peer_ids q) + foldr (λ e acc, (1 + length (fallback_peer_ids e.2) + acc)%nat) 0%nat (map_to_list m))%nat.
Proof. intros Hm Hq. unfold work. by rewrite Hq, (work_perm _ _ (map_to_list_insert m qid q Hm)). Qed.

Lemma complete_cases qid r q s : fresh_ids s → queries s !! qid = Some q → let s' := handle_complete qid r s in
  max_peers_per_query s' = max_peers_per_query s ∧
  ((r = Resolved ∨ fallback_peer_ids q = []) ∧ queries s' = delete qid (queries s) ∧ responses s' = responses s ++ [(response_channel q, r)] ∨
   r ≠ Resolved ∧ fallback_peer_ids q ≠ [] ∧ ∃ qid', qid' ∉ dom (queries s) ∧ responses s' = responses s ∧
     queries s' = <[qid' := mkQuery (q_cid q) (q_subnet q) (drop (max_peers_per_query s) (fallback_peer_ids q)) (response_channel q)]> (delete qid (queries s))).
Proof.
  intros Hf Hq s'. subst s'. unfold handle_complete. rewrite Hq. unfold resolve_query.
  destruct (fallback_peer_ids q) as [|p ps] eqn:Hfb; [split; [by destruct r|left; destruct r; auto]|].
  assert (Hd : drop (Nat.min (max_peers_per_query s) (length (p :: ps))) (p :: ps) = drop (max_peers_per_query s) (p :: ps)).
  { destruct (decide (max_peers_per_query s <= length (p :: ps))%nat); [by rewrite Nat.min_l|]. rewrite Nat.min_r by lia. rewrite !drop_ge; (done || lia). }
  unfold split_peers_for_query, content_resolve. cbn [max_peers_per_query set_queries contents]. rewrite Hd.
  specialize (Hf (q_cid q) (take (Nat.min (max_peers_per_query s) (length (p :: ps))) (p :: ps))).
  destruct (bs_sync _ _ _) as [bs qid'] eqn:Hb. destruct r; (split; [done|]); [by left; auto|..]; (right; split; [done|]; split; [done|]; by exists qid').
Qed.
Lemma start_cases cid n ch ps conn s : fresh_ids s → let s' := start_query cid n ch ps conn s in
  max_peers_per_query s' = max_peers_per_query s ∧
  match ps with
  | [] => queries s' = queries s ∧ responses s' = responses s ++ [(ch, NoKnownPeers)]
  | _ => ∃ qid' fb, qid' ∉ dom (queries s) ∧ responses s' = responses s ∧ queries s' = <[qid' := mkQuery cid n fb ch]> (queries s)
  end.
Proof.
  intros Hf s'. subst s'. unfold start_query. destruct ps as [|p ps]; [done|]. unfold split_peers_for_query, content_resolve.
  set (l := filter _ (p :: ps) ++ _). specialize (Hf cid (take (Nat.min (max_peers_per_query s) (length l)) l)).
  destruct (bs_sync _ _ _) as [bs qid']. split; [done|]. by eexists qid', _.
Qed.
Definition accounted (x : S * list Chan) : Prop := waiting x.1 ++ (responses x.1).*1 ≡ₚ x.2.
Lemma q_step_accounted x y : q_step x y → accounted x → accounted y ∧ max_peers_per_query y.1 = max_peers_per_query x.1.
Proof.
  intros [cid n ch ps conn s asked Hf|qid r s asked Hf [q Hq]|s s' asked E1 E2 E3] Ha; unfold accounted in *; cbn [fst snd] in *.
  - destruct (start_cases cid n ch ps conn s Hf) as [Hm Hs]. split; [|done]. destruct ps as [|p ps].
    + destruct Hs as [Hq Hr]. rewrite Hr, fmap_app. unfold waiting in *. rewrite Hq. cbn. rewrite app_assoc, Ha. by rewrite <- Permutation_cons_append.
    + destruct Hs as (qid & fb & Hn & Hr & Hq). apply not_elem_of_dom in Hn. rewrite (waiting_insert _ qid _ _ Hn Hq), Hr. cbn. by rewrite <- Ha.
  - destruct (complete_cases qid r q s Hf Hq) as [Hm Hs]. split; [|done]. rewrite (waiting_delete s qid q Hq) in Ha. cbn in Ha.
    destruct Hs as [(_ & Hq' & Hr)|(_ & _ & qid' & Hn & Hr & Hq')].
    + unfold waiting. rewrite Hr, fmap_app, Hq'. cbn. rewrite app_assoc, <- Permutation_cons_append. done.
    + rewrite (waiting_insert _ qid' _ (delete qid (queries s))) by
        (done || (apply lookup_delete_None; right; by apply not_elem_of_dom)). by rewrite Hr.
  - split; [|done]. unfold waiting in *. by rewrite E1, E2.
Qed.
(** A query that ends leaves less to do, as every attempt asks at least one peer. *)
Lemma complete_work qid r s : fresh_ids s → is_Some (queries s !! qid) → (0 < max_peers_per_query s)%nat →
  (work (handle_complete qid r s) < work s)%nat.
Proof.
  intros Hf [q Hq] Hm. destruct (complete_cases qid r q s Hf Hq) as [_ Hs].
  rewrite (work_insert s qid q (delete qid (queries s))) by (apply lookup_delete_eq || by rewrite insert_delete_id).
  destruct Hs as [(_ & Hq' & _)|(_ & Hfb & qid' & Hn & _ & Hq')]; [unfold work; rewrite Hq'; lia|].
  rewrite (work_insert _ qid' _ (delete qid (queries s))) by (done || (apply lookup_delete_None; right; by apply not_elem_of_dom)).
  cbn. rewrite length_drop. destruct (fallback_peer_ids q); [done|]. cbn. lia.
Qed.

(** Only queries that end. *)
Inductive completions : nat → S → S → Prop :=
| no_completions s : completions 0 s s
| more_completions k qid r s s' : fresh_ids s → is_Some (queries s !! qid) → completions k (handle_complete qid r s) s' → completions (1 + k) s s'.

(** C21. Every request to resolve content is answered exactly once, where a query asks at
    least one peer at a time ([0 < max_peers_per_query]) and Bitswap gives every query a number
    of its own.  Along any run the channels of the requests are those that were answered and
    those whose query still runs, each as often as it was used for a request; and the queries
    that run can end only so many times before all requests are answered, because an attempt
    that fails leaves fewer peers to fall back on. *)
Theorem resolution_answered_once s0 s asked :
  queries s0 = ∅ → responses s0 = [] → (0 < max_peers_per_query s0)%nat → rtc q_step (s0, []) (s, asked) →
  waiting s ++ (responses s).*1 ≡ₚ asked ∧
  ∀ k s', completions k s s' → (k <= work s)%nat ∧ (queries s' = ∅ → (responses s').*1 ≡ₚ asked).
Proof.
  intros Hq Hr Hm Hrun.
  assert (Ha : accounted (s, asked) ∧ (0 < max_peers_per_query s)%nat).
  { assert (Hi : accounted (s0, [])) by (unfold accounted, waiting; cbn; by rewrite Hq, Hr).
    change s0 with (s0, @nil Chan).1 in Hm. change s with (s, asked).1 at 2. clear Hq Hr.
    induction Hrun as [x|x y z Hs _ IH]; [done|]. destruct (q_step_accounted _ _ Hs Hi) as [? He]. apply IH; [by rewrite He|done]. }
  destruct Ha as [Ha Hm']. split; [done|]. intros k s' Hc. clear Hq Hr Hm Hrun s0.
  induction Hc as [s|k qid r s s' Hf Hi _ IH].
  - split; [lia|]. intros Hq. unfold accounted, waiting in Ha. cbn in Ha. by rewrite Hq in Ha.
  - pose proof (complete_work qid r s Hf Hi Hm'). destruct Hi as [q Hi].
    destruct (q_step_accounted _ _ (q_complete qid r s asked Hf (ex_intro _ q Hi)) Ha) as [Ha2 Hm2]. cbn in Hm2.
    destruct IH as [? ?]; [done|by rewrite Hm2|]. split; [lia|done].
Qed.

(** With a limit of no peers per query a request whose first attempt fails is never
    answered: the next attempt asks nobody, and its peers stay the fallback. *)
Lemma zero_peers_never_answers qid r q s : fresh_ids s → queries s !! qid = Some q → max_peers_per_query s = 0%nat → r ≠ Resolved → fallback_peer_ids q ≠ [] →
  ∃ qid', queries (handle_complete qid r s) !! qid' = Some q ∧ responses (handle_complete qid r s) = responses s.
Proof.
  intros Hf Hq Hm Hr Hfb. destruct (complete_cases qid r q s Hf Hq) as [_ [([?|?] & _)|(_ & _ & qid' & _ & Hr' & Hq')]]; [done..|].
  exists qid'. rewrite Hq', lookup_insert_eq, Hm. by destruct q.
Qed.
End answered.

(** ** Who is asked for content *)

Section routing.
Context {A Key Pub Peer Envelope G V K BS L Cid Qid Chan F : Type} `{AddressOps A} `{!Countable A} `{!EqDecision Pub} `{Countable Peer} `{Countable Qid}
  `{!Libp2p Key Pub Peer Envelope} `{!Gossipsub Key G} `{!HashOrder (SubnetID A) Peer}
  `{!Ipld (ProviderRecord (SubnetID A) Peer)} `{!Ipld (VoteRecord (SubnetID A) Pub V)}
  `{!Kademlia Peer Multiaddr K} `{!Limiter Multiaddr L} `{!Bitswap Peer Cid BS Qid} `{!Bloom Peer F}.
Notation S := (Service A Key Pub Peer G V K BS L Cid Qid Chan F).
Notation N := (SubnetID A).
Implicit Types (s : S) (clk : Clock) (b : Behaviour A Key Pub Peer G V).

Lemma unroutables_out ps p (c : SubnetProviderCache N Peer) : p ∈ ps →
  p ∉ routable_peers (foldl cache_set_unroutable c ps) ∧ ∀ n, p ∉ cache_providers_of_subnet (foldl cache_set_unroutable c ps) n.
Proof.
  assert (Hkeep : ∀ ps (c : SubnetProviderCache N Peer), p ∉ routable_peers c → (∀ n, p ∉ cache_providers_of_subnet c n) →
    p ∉ routable_peers (foldl cache_set_unroutable c ps) ∧ ∀ n, p ∉ cache_providers_of_subnet (foldl cache_set_unroutable c ps) n).
  { clear. induction ps as [|q ps IH]; intros c Hr Hp; cbn [foldl]; [done|]. apply IH; cbn; [set_solver|]. intros n.
    specialize (Hp n). unfold cache_providers_of_subnet in *. cbn. rewrite lookup_fmap. destruct (subnet_providers c !! n); cbn in *; set_solver. }
  revert c. induction ps as [|q ps IH]; intros c; [by intros ?%elem_of_nil|]. intros [->|Hi]%elem_of_cons; cbn [foldl]; [|by apply IH].
  apply Hkeep; cbn; [set_solver|]. intros n. unfold cache_providers_of_subnet. cbn. rewrite lookup_fmap. destruct (subnet_providers c !! n); cbn; set_solver.
Qed.
Lemma skipped_keeps_discovery p s k : addresses_of_peer (discovery s) p ≠ [] →
  discovery (foldl (λ s e, handle_membership_event e s) s (replicate k (Skipped p))) = discovery s.
Proof.
  revert s. induction k as [|k IH]; intros s Ha; cbn [replicate foldl]; [done|]. unfold handle_membership_event at 2.
  assert (Hb : background_lookup p (discovery s) = discovery s) by (unfold background_lookup; by destruct (addresses_of_peer (discovery s) p)).
  destruct (bloom_insert _ p) as [f []]; cbn [discovery set_filter]; rewrite IH; cbn; by rewrite ?Hb.
Qed.
(** A peer that was silent for too long does not come back while discovery knows its address.
    Pruning makes the peer unroutable; from then on its records are skipped, and the lookup
    that a skipped record asks for does nothing for a peer whose address is known. *)
Lemma pruned_peer_stays_out clk clk' p t s rs : let b := membership s in
  peer_timestamps (provider_cache b) !! p = Some t → t < ts_sub (now clk) (max_provider_age b) → addresses_of_peer (discovery s) p ≠ [] →
  Forall (λ r : ProviderRecord N Peer, peer_id r = p) rs →
  let b1 := prune_membership clk b in let b2 := foldl (λ b r, handle_provider_record clk' r b) b1 rs in
  Removed p ∈ outbox b1 ∧ (∀ n, p ∉ providers_of_subnet b2 n) ∧ outbox b2 = outbox b1 ++ replicate (length rs) (Skipped p) ∧
  discovery (foldl (λ s e, handle_membership_event e s) s (replicate (length rs) (Skipped p))) = discovery s.
Proof.
  intros b Ht Hc Ha Hr b1 b2.
  set (pruned := (prune_providers (provider_cache b) (ts_sub (now clk) (max_provider_age b))).2).
  assert (Hp : p ∈ pruned).
  { apply list_elem_of_omap. exists (p, t). split; [by apply iter_peers_elem|]. cbn. by rewrite (proj2 (Z.ltb_lt _ _)). }
  destruct (unroutables_out pruned p (provider_cache b) Hp) as [Hn Hs].
  assert (Hb2 : provider_cache b2 = provider_cache b1 ∧ outbox b2 = outbox b1 ++ replicate (length rs) (Skipped p)).
  { subst b2. assert (Hn1 : p ∉ routable_peers (provider_cache b1)) by done. clear Hn Hs Hp Ht Hc Ha. clearbody b1. revert b1 Hn1.
    induction Hr as [|r rs Hr _ IH]; intros b1 Hn1; [split; [done|by rewrite app_nil_r]|]. cbn [foldl length replicate].
    assert (He : handle_provider_record clk' r b1 = set_outbox b1 (outbox b1 ++ [Skipped p])).
    { unfold handle_provider_record, add_provider, is_routable. rewrite Hr, bool_decide_false by done. by destruct b1. }
    rewrite He. destruct (IH (set_outbox b1 (outbox b1 ++ [Skipped p])) Hn1) as [-> ->]. cbn. by rewrite <- app_assoc. }
  destruct Hb2 as [Hcache Ho]. split_and!; [|intros n; unfold providers_of_subnet; rewrite Hcache; apply Hs|done|by apply skipped_keeps_discovery].
  apply elem_of_app. right. by apply list_elem_of_fmap_2.
Qed.
(** When a peer takes the place of another one in the routing table, discovery reports the
    other one as removed only if it is a static peer, whose address it still knows; any other
    peer stays routable although its address is gone. *)
Lemma evicted_static_peer_removed (d : Discovery Peer Multiaddr K) p addrs q :
  d_outbox (handle_kad_event (RoutingUpdated p addrs (Some q)) d) =
    d_outbox d ++ (if is_static d q then [DRemoved q] else []) ++ [Added p addrs] ∧
  (is_static d q = true → (∀ k, kad d = Some k → is_Some (kad_addresses k q)) → addresses_of_peer d q ≠ []).
Proof.
  split; [cbn; destruct (is_static d q); cbn; by rewrite <- ?app_assoc|]. intros Hs Hk. unfold addresses_of_peer.
  apply existsb_exists in Hs as ([q' a] & Hi & Hq%bool_decide_eq_true). cbn in Hq. subst q'.
  assert (Hf : a ∈ (λ e : Peer * Multiaddr, e.2) <$> filter (λ e : Peer * Multiaddr, e.1 = q) (static_addresses d)).
  { apply list_elem_of_fmap. exists (q, a). split; [done|]. apply list_elem_of_filter. split; [done|]. by apply list_elem_of_In. }
  destruct (kad d) as [k|]; [destruct (Hk k eq_refl) as [l ->]|]; intros He; apply app_eq_nil in He as [_ He]; rewrite He in Hf; by apply elem_of_nil in Hf.
Qed.
End routing.

(** ** From gossip to the tally *)

Section votes.
Context {A Key Pub Peer Envelope G Hash K BS L Cid Qid Chan F : Type} `{AddressLaws A} `{!Countable A} `{Countable Pub} `{Countable Peer} `{Countable Hash} `{Countable Qid}
  `{!Libp2p Key Pub Peer Envelope} `{!Libp2pLaws Key Pub Peer Envelope} `{!Gossipsub Key G} `{!TopicLaws Key G} `{!HashOrder (SubnetID A) Peer}
  `{!Ipld (ProviderRecord (SubnetID A) Peer)} `{!Ipld (VoteRecord (SubnetID A) Pub (AppVote (Hash := Hash)))} `{!IpldLaws (VoteRecord (SubnetID A) Pub (AppVote (Hash := Hash)))}
  `{!Kademlia Peer Multiaddr K} `{!Limiter Multiaddr L} `{!Bitswap Peer Cid BS Qid} `{!Bloom Peer F}
  `{!Broadcast (ServiceEvent (SubnetID A) Pub (AppVote (Hash := Hash)))} `{!BroadcastLaws (ServiceEvent (SubnetID A) Pub (AppVote (Hash := Hash)))}.
Notation V := (AppVote (Hash := Hash)).
Notation S := (Service A Key Pub Peer G V K BS L Cid Qid Chan F).
Notation B := (Behaviour A Key Pub Peer G V).
Notation N := (SubnetID A).
Notation T := (VoteTally Pub Hash).
Implicit Types (s : S) (clk : Clock) (b : B) (t : T).

(** What the service tells its clients about the events of the behaviour, and what the
    application makes of it. *)
Definition raised s (es : list (Event N Pub Peer V)) : list (ServiceEvent N Pub V) :=
  drop (length (events s)) (events (foldl (λ s e, handle_membership_event e s) s es)).
Definition dispatched (topdown_enabled : bool) t (es : list (ServiceEvent N Pub V)) : outcome (VotingError Pub Hash) T :=
  dispatch_resolver_events topdown_enabled t (bc_recv es).
Definition service_event (e : Event N Pub Peer V) : option (ServiceEvent N Pub V) :=
  match e with ReceivedVote v => Some (SVote v) | ReceivedPreemptive n x => Some (SPreemptive n x) | _ => None end.
Lemma raised_spec s es : raised s es = omap service_event es.
Proof.
  unfold raised. cut (events (foldl (λ s e, handle_membership_event e s) s es) = events s ++ omap service_event es).
  { intros ->. by rewrite drop_app_length. }
  revert s. induction es as [|e es IH]; intros s; cbn [foldl]; [cbn; by rewrite app_nil_r|]. rewrite IH.
  destruct e as [| |p|v|n x]; cbn; try done; [|by rewrite <- app_assoc..]. by destruct (bloom_insert _ p) as [f []].
Qed.
Lemma dispatch_app td t (xs ys : list (ServiceEvent N Pub V)) :
  dispatch_resolver_events td t (inr <$> xs ++ ys) =
    (t' ← dispatch_resolver_events td t (inr <$> xs); dispatch_resolver_events td t' (inr <$> ys)).
Proof.
  revert t. induction xs as [|x xs IH]; intros t; [done|]. cbn [app fmap list_fmap dispatch_resolver_events].
  destruct (dispatch_resolver_event td t x); [apply IH|done..].
Qed.
Lemma dispatch_preemptive td t (es : list (ServiceEvent N Pub V)) : (∀ v, SVote v ∉ es) →
  dispatch_resolver_events td t (inr <$> es) = Ok t.
Proof.
  induction es as [|e es IH]; intros Hv; [done|]. destruct e as [v|n x]; [destruct (Hv v); by left|].
  apply IH. intros v Hi. apply (Hv v). by right.
Qed.
Lemma dispatch_foldl td t (es : list (ServiceEvent N Pub V)) :
  dispatch_resolver_events td t (inr <$> es) = foldl (λ r e, t ← r; dispatch_resolver_event td t e) (Ok t) es.
Proof.
  assert (Hstop : ∀ (r : outcome (VotingError Pub Hash) T) (es : list (ServiceEvent N Pub V)), (∀ t, r ≠ Ok t) →
    foldl (λ r (e : ServiceEvent N Pub V), t ← r; dispatch_resolver_event td t e) r es = r).
  { intros r es' Hr. induction es' as [|e es' IH]; [done|]. cbn. destruct r as [t'| | |]; [by destruct (Hr t')|apply IH..]. }
  revert t. induction es as [|e es IH]; intros t; [done|]. cbn.
  destruct (dispatch_resolver_event td t e); [apply IH|by rewrite Hstop..].
Qed.
(** Errors of the channel lose events and add none. *)
Lemma dispatch_sublist td t (rx : list (RecvError + ServiceEvent N Pub V)) :
  ∃ es, es `sublist_of` omap (λ r, match r with inr e => Some e | inl _ => None end) rx ∧
    dispatch_resolver_events td t rx = dispatch_resolver_events td t (inr <$> es).
Proof.
  revert t. induction rx as [|[[n|]|e] rx IH]; intros t.
  - by exists [].
  - apply IH.
  - exists []. split; [apply sublist_nil_l|done].
  - cbn. destruct (dispatch_resolver_event td t e) as [t'|x| |] eqn:He.
    + destruct (IH t') as (es & Hs & Heq). exists (e :: es). split; [by apply sublist_skip|]. cbn. by rewrite He.
    + exists [e]. split; [apply sublist_skip, sublist_nil_l|]. cbn. by rewrite He.
    + exists [e]. split; [apply sublist_skip, sublist_nil_l|]. cbn. by rewrite He.
    + exists [e]. split; [apply sublist_skip, sublist_nil_l|]. cbn. by rewrite He.
Qed.
(** What a message adds to the outbox: the vote of a verified envelope, or no vote. *)
Lemma message_events clk (m : GossipMessage) b :
  ∃ es, outbox (handle_message clk m b) = outbox b ++ es ∧ (length es <= 1)%nat ∧
    ((∃ v e payload, es = [ReceivedVote v] ∧ from_protobuf_encoding (data m) = Some e ∧
        payload_and_signing_key e DOMAIN_SEP "/ipc/vote-record" = Some (payload, public_key v) ∧ from_slice payload = Some v) ∨
     ∀ v, ReceivedVote v ∉ es).
Proof.
  assert (Hnil : ∃ es : list (Event N Pub Peer V), outbox b = outbox b ++ es ∧ (length es <= 1)%nat ∧
    ∀ v, ReceivedVote v ∉ es) by (exists []; rewrite app_nil_r; repeat split; [cbn; lia|intros v; apply not_elem_of_nil]).
  assert (Hone : ∀ e : Event N Pub Peer V, (∀ v, e ≠ ReceivedVote v) → ∃ es, outbox b ++ [e] = outbox b ++ es ∧ (length es <= 1)%nat ∧
    ∀ v, ReceivedVote v ∉ es) by (intros e He; exists [e]; repeat split; [cbn; lia|intros v Hi%list_elem_of_singleton; by destruct (He v)]).
  assert (Hor : ∀ out, (∃ es, out = outbox b ++ es ∧ (length es <= 1)%nat ∧ ∀ v, ReceivedVote v ∉ es) →
    ∃ es, out = outbox b ++ es ∧ (length es <= 1)%nat ∧
    ((∃ v e payload, es = [ReceivedVote v] ∧ from_protobuf_encoding (data m) = Some e ∧
        payload_and_signing_key e DOMAIN_SEP "/ipc/vote-record" = Some (payload, public_key v) ∧ from_slice payload = Some v) ∨
     ∀ v, ReceivedVote v ∉ es)) by (intros out (es & ? & ? & ?); eauto).
  unfold handle_message. case_bool_decide as Hm; [|case_bool_decide as Hv].
  - apply Hor. destruct (signed_from_bytes _) as [r| | |]; [|done..].
    unfold handle_provider_record. destruct (add_provider _ _) as [c' [d|]]; [|by apply Hone].
    destruct (delta_is_empty d && _); [done|]. destruct (is_new d); [|by apply Hone].
    unfold publish_for_new_peer. repeat case_match; by apply Hone.
  - destruct (signed_from_bytes _) as [r| | |] eqn:Hr; [|by apply Hor..].
    apply signed_from_bytes_sound in Hr as (payload & pub & He & Hp & Hf & Hk%bool_decide_eq_true). cbn in Hk, Hp.
    exists [ReceivedVote (record r)]. split; [done|]. split; [cbn; lia|]. left. exists (record r), (envelope r), payload. by rewrite Hk.
  - apply Hor. destruct (preemptive_topics b !! topic m); [by apply Hone|done].
Qed.
Lemma dispatched_snoc td t xs ys : (length (xs ++ ys) <= bc_capacity)%nat →
  dispatched td t (xs ++ ys) = (t' ← dispatched td t xs; dispatch_resolver_events td t' (inr <$> ys)).
Proof.
  rewrite length_app. intros Hl. unfold dispatched. rewrite !recv_all by (rewrite ?length_app; lia). apply dispatch_app.
Qed.

(** A vote that is put last in the outbox is dispatched last. *)
Lemma dispatched_vote td t s b unread (v : VoteRecord N Pub V) :
  (length (unread ++ raised s (outbox b)) < bc_capacity)%nat →
  dispatched td t (unread ++ raised s (outbox b ++ [ReceivedVote v])) =
    (t1 ← dispatched td t (unread ++ raised s (outbox b)); dispatch_vote td t1 v).
Proof.
  intros Hcap. rewrite (raised_spec s (_ ++ _)), omap_app, app_assoc, <- (raised_spec s (outbox b)).
  rewrite dispatched_snoc by (rewrite length_app; cbn in *; lia). destruct (dispatched _ _ _) as [t1| | |]; [|done..].
  cbn. by destruct (dispatch_vote td t1 v).
Qed.

(** C20. Votes reach the tally of an agent that serves the subnet, and nothing else does.
    Whatever the agent did before, and whatever events wait in its outbox and in the channel to
    the application ([unread]), a vote that another agent of the network publishes in the subnet is
    added after those for the key that signed it, if the channel has room for it and top-down
    messages are enabled; if they are disabled it is ignored.  When a message changes the tally
    it holds an envelope that verifies under the key of the voter.  When the application falls
    behind the channel events are lost, and the tally is that of some of the events in their
    order.  The subnet that the vote names is not compared with the one whose topic it arrives
    on: the first part holds for every [n']. *)
Theorem vote_reaches_tally td clk0 key0 name mc b0 b (a : B) s clk t unread :
  (∀ x : A, no_char "_" (addr_to_string x) = true) →
  membership_new clk0 key0 name mc = Ok b0 → Forall (λ n, is_u64 (root n)) (mc_static_subnets mc) → rtc m_step b0 b →
  network_name a = network_name b →
  let pending := unread ++ raised s (outbox b) in
  let tally_after m := dispatched td t (unread ++ raised s (outbox (handle_message clk m b))) in
  ((length pending < bc_capacity)%nat →
   (∀ n n' key ts c (v : SignedRecord (VoteRecord N Pub V) Envelope), n ∈ provided b → vote_signed ts key n' c = Ok v →
     tally_after (mkGossip (sha256_topic (voting_topic a n)) (into_protobuf_encoding (envelope v))) =
       (t1 ← dispatched td t pending;
        if td then
          match add_vote t1 (key_public key) (av_height c) (av_block_hash c) with
          | Ok (t', _) => Ok t'
          | Err _ => Ok t1
          | Retry => Retry
          | Panic => Panic
          end
        else Ok t1)) ∧
   (∀ m, tally_after m ≠ dispatched td t pending →
     td = true ∧
     ∃ v e payload, from_protobuf_encoding (data m) = Some e ∧ payload_and_signing_key e DOMAIN_SEP "/ipc/vote-record" = Some (payload, public_key v) ∧
       from_slice payload = Some v ∧ tally_after m = (t1 ← dispatched td t pending; dispatch_vote true t1 v))) ∧
  (∀ es, ∃ es', es' `sublist_of` es ∧
     dispatched td t es = foldl (λ r e, t ← r; dispatch_resolver_event td t e) (Ok t) es').
Proof.
  intros Hu Hnew Hs Hrun Hnet pending tally_after. assert (Hrd : ready b).
  { apply (new_ready Hu _ _ _ _ _ Hnew) in Hs. clear Hnew Hnet. induction Hrun as [|b1 b2 b3 H1' _ IH]; [done|]. by apply IH, (m_step_ready Hu b1). }
  destruct Hrd as [Hw Hl]. split; [intros Hcap; split|].
  - intros n n' key ts c v Hn Hv. destruct (signed_roundtrip _ _ _ Hv) as [Hr Hb]; [by apply bool_decide_true|].
    unfold tally_after, voting_topic. rewrite Hnet. destruct (Hl n Hn) as [_ Ht]. erewrite handle_vote; [|done..]. cbn [outbox set_outbox].
    rewrite dispatched_vote by done. rewrite Hr. fold pending. destruct (dispatched td t pending); [|done..]. cbn. by destruct td.
  - intros m. destruct (message_events clk m b) as (es & Ho & Hone & Hes). unfold tally_after. rewrite Ho.
    destruct Hes as [(v & e & payload & -> & He & Hp & Hf)|Hno].
    + rewrite dispatched_vote by done. intros Hne. destruct td; [split; [done|]; by exists v, e, payload|].
      destruct Hne. fold pending. by destruct (dispatched false t pending).
    + intros []. rewrite raised_spec, omap_app, app_assoc, <- (raised_spec s (outbox b)). fold pending.
      rewrite dispatched_snoc.
      * destruct (dispatched td t pending) as [t1| | |]; [|done..]. apply dispatch_preemptive. intros v Hi.
        apply list_elem_of_omap in Hi as ([] & Hi & Hx); [discriminate Hx..| |discriminate Hx]. by apply (Hno v0).
      * rewrite length_app. destruct es as [|e [|e2 es]]; cbn in *; [lia| |lia]. destruct (service_event e); cbn; lia.
  - intros es. destruct (dispatch_sublist td t (bc_recv es)) as (es' & Hsub & Heq). exists es'. split.
    + etrans; [done|]. apply recv_only.
    + unfold dispatched. rewrite Heq. apply dispatch_foldl.
Qed.
End votes.

(** ** One limit for each remote host *)

Definition is_ip (x : Protocol) : bool := match x with Ip4 _ | Ip6 _ => true | _ => false end.
Lemma non_ephemeral_tail l ip rest keep : Forall (λ x, is_ip x = false) l → is_ip ip = true → non_ephemeral_loop (l ++ ip :: rest) keep = [ip].
Proof.
  intros Hl Hi. revert keep. induction Hl as [|x l Hx _ IH]; intros keep; cbn; [by destruct ip|]. destruct x; cbn in *; try done; apply IH.
Qed.
(** Whatever the port, the protocol above it or the peer id, connections from one IP address
    have the same key of the rate limiter. *)
Lemma same_host_same_key pre ip l1 l2 : is_ip ip = true → Forall (λ x, is_ip x = false) l1 → Forall (λ x, is_ip x = false) l2 →
  select_non_ephemeral (pre ++ ip :: l1) = [ip] ∧ select_non_ephemeral (pre ++ ip :: l1) = select_non_ephemeral (ip :: l2).
Proof.
  intros Hi H1 H2. assert (Hs : ∀ pre l, Forall (λ x, is_ip x = false) l → select_non_ephemeral (pre ++ ip :: l) = [ip]).
  { intros pre' l Hl. unfold select_non_ephemeral. rewrite reverse_app, reverse_cons, <- app_assoc. cbn [app].
    rewrite non_ephemeral_tail; [done|by apply Forall_reverse|done]. }
  split; [by apply Hs|]. rewrite Hs by done. symmetry. by apply (Hs []).
Qed.

(** ** What is missing from a store *)

Section missing.
Context {Cid : Type} (get : Cid → outcome StoreError (option (list Cid))).

(** A block refers to another one; content is addressed by its hash, so that there is no cycle. *)
Definition refers (d c : Cid) : Prop := ∃ links, get c = Ok (Some links) ∧ d ∈ links.
Definition found (c : Cid) (n : nat) (out : list Cid) : Prop :=
  (∀ fuel stack missing, missing_blocks (n + fuel) get (c :: stack) missing = missing_blocks fuel get stack (missing ++ out)) ∧
  ∀ d, d ∈ out ↔ rtc (flip refers) c d ∧ get d = Ok None.

Lemma found_all l : (∀ d, d ∈ l → ∃ n out, found d n out) →
  ∃ n out, (∀ fuel stack missing, missing_blocks (n + fuel) get (l ++ stack) missing = missing_blocks fuel get stack (missing ++ out)) ∧
    ∀ d, d ∈ out ↔ ∃ c, c ∈ l ∧ rtc (flip refers) c d ∧ get d = Ok None.
Proof.
  induction l as [|c l IH]; intros Hl.
  - exists 0%nat, []. split; [intros; by rewrite app_nil_r|set_solver].
  - destruct (Hl c) as (n1 & o1 & E1 & E2); [by left|]. destruct IH as (n2 & o2 & E3 & E4); [intros d Hd; apply Hl; by right|].
    exists (n1 + n2)%nat, (o1 ++ o2). split.
    + intros fuel stack missing. cbn [app]. by rewrite <- Nat.add_assoc, E1, E3, app_assoc.
    + intros d. rewrite elem_of_app, E2, E4. set_solver.
Qed.
(** The search ends, and finds the blocks that can be reached from the root through blocks of
    the store and are not in the store themselves. *)
Lemma missing_blocks_exact root : (∀ c, ∃ x, get c = Ok x) → well_founded refers →
  ∃ n out, (∀ fuel, (n <= fuel)%nat → missing_blocks fuel get [root] [] = Some (Ok out)) ∧ ∀ d, d ∈ out ↔ rtc (flip refers) root d ∧ get d = Ok None.
Proof.
  intros Hok Hwf. assert (Hf : ∃ n out, found root n out).
  { induction (Hwf root) as [c _ IH]. destruct (Hok c) as [[links|] Hg].
    - destruct (found_all (reverse links)) as (n & out & E1 & E2).
      { intros d Hd. rewrite elem_of_reverse in Hd. apply IH. exists links. by split. }
      exists (1 + n)%nat, out. split.
      + intros fuel stack missing. cbn [Nat.add missing_blocks]. by rewrite Hg, E1.
      + intros d. rewrite E2. split.
        * intros (c' & Hc & Hr & Hd). rewrite elem_of_reverse in Hc. split; [|done]. eapply rtc_l; [|done]. exists links. by split.
        * intros [Hr Hd]. inversion Hr as [|? c' ? (l & Hl & Hc) Hr']; subst; [congruence|]. exists c'. rewrite elem_of_reverse.
          rewrite Hg in Hl. by simplify_eq.
    - exists 1%nat, [c]. split; [intros fuel stack missing; cbn [Nat.add missing_blocks]; by rewrite Hg|]. intros d. rewrite list_elem_of_singleton. split.
      + intros ->. split; [apply rtc_refl|done].
      + intros [Hr _]. inversion Hr as [|? c' ? (l & Hl & _) _]; subst; [done|congruence]. }
  destruct Hf as (n & out & E1 & E2). exists (n + 1)%nat, out. split; [|done]. intros fuel Hle.
  replace fuel with (n + (1 + (fuel - n - 1)))%nat by lia. by rewrite E1.
Qed.
End missing.

(** ** Examples *)

#[local] Existing Instance toy_libp2p.
#[local] Existing Instance toy_libp2p_laws.
#[local] Existing Instance toy_gossipsub.
#[local] Existing Instance toy_topic_laws.
#[local] Existing Instance toy_order.
#[local] Existing Instance toy_provider_ipld.
#[local] Instance toy_bitswap : Bitswap Z Z Z Z := { bs_sync n _ _ := (n + 1, n) }.
#[local] Instance toy_bloom : Bloom Z unit := { bloom_insert _ _ := ((), true) }.
#[local] Instance toy_kademlia : Kademlia Z Multiaddr unit :=
  { kad_add_address k _ _ := k; kad_get_closest_peers k _ := k; kad_bootstrap k := Some k; kad_addresses _ _ := Some [] }.
#[local] Instance toy_app_ipld : Ipld (VoteRecord (SubnetID IdAddress) Z (AppVote (Hash := Z))) := {
  to_vec r := Some [Z.pos (encode (public_key r, vote_subnet r, (av_height (content r), av_block_hash (content r)), vote_timestamp r))];
  from_slice b := match b with [Z.pos p] => (λ x, mkVote x.1.1.1 x.1.1.2 (mkAppVote x.1.2.1 x.1.2.2) x.2) <$> decode p | _ => None end;
}.
#[local] Instance toy_app_laws : IpldLaws (VoteRecord (SubnetID IdAddress) Z (AppVote (Hash := Z))).
Proof. split. intros [? ? [] ?] b [= <-]. cbn. by rewrite decode_encode. Qed.

#[local] Instance toy_broadcast E : Broadcast E := {
  bc_capacity := 4;
  bc_recv es := if (length es <=? 4)%nat then inr <$> es else inl (Lagged (Z.of_nat (length es - 4))) :: (inr <$> drop (length es - 4) es);
}.
#[local] Instance toy_broadcast_laws E : BroadcastLaws E.
Proof.
  assert (Ho : ∀ es : list E, omap (λ r : RecvError + E, match r with inr e => Some e | inl _ => None end) (inr <$> es) = es).
  { intros es. induction es as [|e es IH]; [done|]. cbn. by rewrite IH. }
  split; intros es; cbn.
  - intros Hl. by rewrite (proj2 (Nat.leb_le _ _) Hl).
  - destruct (length es <=? 4)%nat; cbn; rewrite Ho; [done|apply sublist_drop].
Qed.

Notation ToyBehaviour := (Behaviour IdAddress Z Z Z unit (AppVote (Hash := Z))).
Notation ToyService := (Service IdAddress Z Z Z unit (AppVote (Hash := Z)) unit Z unit Z Z Z unit).
Definition toy_behaviour : ToyBehaviour :=
  mkBehaviour () [] 1 "net" "/ipc/membership/net" [] ∅ ∅ (cache_new 10 []) (mkInterval 60 60) 5 0 60 600.
Definition toy_service : ToyService :=
  mkService toy_behaviour (mkDiscovery [] "/ipc/net/kad/1.0.0" None 0 8 (mkInterval 1 0) None []) (mkContent 0 ∅ () 0 None) ∅ () 1 [] [].
(** Channel [7] asks for block [5], which two peers have; the first one fails. *)
Lemma resolution_answered_once_witness :
  let s := start_query 5 sample_subnet 7 [11; 12] (λ p, p =? 12) toy_service in
  let s' := handle_complete 1 Resolved (handle_complete 0 ResolutionFailed s) in
  waiting s = [7] ∧ completions 2 s s' ∧ work s = 2%nat ∧ (responses s').*1 ≡ₚ [7].
Proof.
  intros s s'.
  assert (Hf : fresh_ids toy_service ∧ fresh_ids s ∧ fresh_ids (handle_complete 0 ResolutionFailed s)).
  { split; [|split]; intros cid ps; apply (bool_decide_unpack _); vm_compute; exact I. }
  destruct Hf as (F1 & F2 & F3).
  assert (Hc : completions 2 s s').
  { apply (more_completions _ 0 ResolutionFailed); [exact F2|eexists; vm_compute; reflexivity|].
    apply (more_completions _ 1 Resolved); [exact F3|eexists; vm_compute; reflexivity|]. apply no_completions. }
  destruct (resolution_answered_once toy_service s [7]) as [_ Hx].
  - reflexivity.
  - reflexivity.
  - vm_compute. lia.
  - apply rtc_once, (q_request 5 sample_subnet 7 [11; 12] (λ p, p =? 12) toy_service [] F1).
  - split; [vm_compute; reflexivity|]. split; [exact Hc|]. split; [vm_compute; reflexivity|]. apply (Hx _ _ Hc). vm_compute. reflexivity.
Defined.
(** Agent [2] serves [sample_subnet]; validator [1] signs a vote for the root network, and it
    is counted when it arrives on the topic of [sample_subnet], after an event that waits. *)
Definition toy_tally : VoteTally Z Z := mkTally {[1001 := 5]} {[10 := Some 77]} ∅ false.
Definition toy_agent2 : outcome MembershipError ToyBehaviour := membership_new (mkClock 100 0) 2 "net" toy_config.
Lemma vote_reaches_tally_witness :
  ∃ b0 (b : ToyBehaviour) (v : SignedRecord (VoteRecord (SubnetID IdAddress) Z (AppVote (Hash := Z))) ToyEnvelope) (t' : VoteTally Z Z),
    toy_agent2 = Ok b0 ∧ b = (add_provided_subnet (mkClock 110 1) sample_subnet b0).1 ∧
    vote_signed (Peer := Z) 200 1 (mkSubnetID 999 []) (mkAppVote 11 78) = Ok v ∧
    dispatched true toy_tally ([SPreemptive sample_subnet [1]] ++ raised toy_service (outbox (handle_message (mkClock 120 2)
      (mkGossip (sha256_topic (voting_topic b sample_subnet)) (into_protobuf_encoding (envelope v))) b))) = Ok t' ∧
    bool_decide (votes t' !! 11 = Some ({[78 := {[1001]}]} : gmap Z (gset Z))) = true.
Proof.
  assert (Hok : match toy_agent2, vote_signed (Peer := Z) (Envelope := ToyEnvelope) 200 1 (mkSubnetID (A := IdAddress) 999 []) (mkAppVote 11 78) with
                | Ok b0, Ok v =>
                    let b := (add_provided_subnet (mkClock 110 1) sample_subnet b0).1 in
                    bool_decide (sample_subnet ∈ provided b) && bool_decide (length (outbox b) = 0%nat)
                | _, _ => false
                end = true) by (vm_compute; reflexivity).
  destruct toy_agent2 as [b0| | |] eqn:Eb; [|discriminate Hok..].
  destruct (vote_signed 200 1 _ _) as [v| | |] eqn:Ev; [|discriminate Hok..].
  set (b := (add_provided_subnet (mkClock 110 1) sample_subnet b0).1). cbv zeta in Hok. fold b in Hok.
  rewrite andb_true_iff, !bool_decide_eq_true in Hok. destruct Hok as [Hp Ho%nil_length_inv].
  destruct (vote_reaches_tally true (mkClock 100 0) 2 "net" toy_config b0 b b toy_service (mkClock 120 2) toy_tally
    [SPreemptive sample_subnet [1]] id_no_underscore Eb) as [Hv _].
  - apply Forall_singleton. split; vm_compute; discriminate.
  - apply rtc_once, st_add_provided. split; vm_compute; discriminate.
  - reflexivity.
  - rewrite Ho in Hv. destruct Hv as [Hv _]; [cbn; lia|].
    assert (Ht : match add_vote toy_tally (key_public (Key := Z) 1) 11 78 with
                 | Ok (t', _) => bool_decide (votes t' !! 11 = Some ({[78 := {[1001]}]} : gmap Z (gset Z)))
                 | _ => false
                 end = true) by (vm_compute; reflexivity).
    specialize (Hv _ _ _ _ _ v Hp Ev).
    assert (Hpend : dispatched true toy_tally ([SPreemptive sample_subnet [1]] ++ raised toy_service []) = Ok toy_tally)
      by (vm_compute; reflexivity).
    rewrite Hpend in Hv. destruct (add_vote toy_tally (key_public 1) 11 78) as [[t' x]| | |] eqn:Hadd; [|discriminate Ht..].
    exists b0, b, v, t'. do 3 (split; [reflexivity|]). split; [|exact Ht]. etrans; [exact Hv|].
    change (match add_vote toy_tally (key_public (Key := Z) 1) 11 78 with
            | Ok (t', _) => Ok t' | Err _ => Ok toy_tally | Retry => Retry | Panic => Panic end = Ok (E := VotingError Z Z) t').
    rewrite Hadd. reflexivity.
Defined.
