(* ===== verification/Actors.v ===== *)
(** * The chain metadata and account manager actors
    ([fendermint/actors/chainmetadata/src], [fendermint/actors/eam/src], [fvm/externs.rs])

    The chain metadata actor keeps the hashes of the latest blocks, from which contracts read
    [BLOCKHASH]; the account manager (EAM) restricts who may deploy contracts.  As in
    [CetfActor] an AMT or a HAMT is the finite map it stores.  The built-in EAM actor, which
    ours wraps, is a parameter. *)

From Stdlib Require Import String.
From stdpp Require Import base tactics numbers list gmap sorting.
From S2P Require Import Prelude CetfActor.

Open Scope Z_scope.

(** ** Chain metadata ([shared.rs], [actor.rs]) *)

Notation BlockHash := (list Z) (only parsing).
Record ChainState := mkChainState { blockhashes : gmap Z BlockHash; lookback_len : Z }.
Definition DEFAULT_LOOKBACK_LEN : Z := 256.
(** The largest index of an AMT. *)
Definition AMT_MAX_INDEX : Z := U64_MAX - 1.
Record PushBlockParams := mkPushBlock { epoch : Z; block : BlockHash }.

Definition chain_state_new (len : Z) : ChainState := mkChainState ∅ len.
Definition chain_constructor (rt : Runtime) (len : Z) : outcome ActorError ChainState :=
  _ ← validate_caller_is_system rt; Ok (chain_state_new len).
(** The index at which an iteration starts. *)
Definition first_idx (m : gmap Z BlockHash) : Z :=
  match (map_to_list m).*1 with [] => 0 | i :: l => foldr Z.min i l end.
Definition push_block_hash (rt : Runtime) (p : PushBlockParams) (st : ChainState) : outcome ActorError ChainState :=
  _ ← validate_caller_is_system rt;
  let i := i64_as_u64 (epoch p) in
  if AMT_MAX_INDEX <? i then Panic else
  let m := <[i := block p]> (blockhashes st) in
  let m := if lookback_len st <? Z.of_nat (size m) then delete (first_idx m) m else m in
  Ok (mkChainState m (lookback_len st)).
Definition get_block_hash (st : ChainState) (e : Z) : option BlockHash := blockhashes st !! i64_as_u64 e.

(** ** What contracts see of it ([externs.rs]) *)

Section externs.
Context {Cid : Type} (cid_default : Cid) (wrap_blake2b256 : BlockHash → option Cid).

(** The state of the actor is the one at the state root of the block, if the actor exists. *)
Definition get_tipset_cid (actor : option ChainState) (e : Z) : outcome string Cid :=
  st ← ok_or "chain metadata actor not found in state"%string actor;
  match get_block_hash st e with
  | Some h => ok_or "failed to wrap block hash"%string (wrap_blake2b256 h)
  | None => Ok cid_default
  end.
End externs.

(** ** The account manager ([eam/src/state.rs], [eam/src/lib.rs]) *)

Inductive PermissionModeParams (A : Type) := Unrestricted | AllowList (l : list A).
Arguments Unrestricted {A}.
Arguments AllowList {A} _.
Inductive PermissionMode (A : Type) `{Countable A} := UnrestrictedMode | AllowListMode (l : gset A).
Arguments UnrestrictedMode {A _ _}.
Arguments AllowListMode {A _ _} _.
(** The runtime of a call: the caller, whether it is an EVM contract ([None] if it has no
    code), and the actor that an address belongs to at this time. *)
Record EamRuntime (A : Type) := mkEamRuntime { eam_caller : Z; caller_is_evm : option bool; resolve_address : A → option Z }.
Arguments mkEamRuntime {A} _ _ _.
Arguments eam_caller {A} _.
Arguments caller_is_evm {A} _.
Arguments resolve_address {A} _ _.
Inductive EamError := EamForbidden (msg : string) | BuiltinError.
(** The methods, by what happens to them; [BuiltinMethod] stands for all others. *)
Inductive EamMethod (A M : Type) := EamConstructor (p : PermissionModeParams A) | UpdateDeployers (l : list A) | BuiltinMethod (m : M).
Arguments EamConstructor {A M} _.
Arguments UpdateDeployers {A M} _.
Arguments BuiltinMethod {A M} _.

(** The built-in actor, on the rest of the world. *)
Class BuiltinEam (A M W R : Type) := {
  builtin_constructor : EamRuntime A → W → outcome EamError W;
  builtin_invoke : EamRuntime A → M → W → outcome EamError (W * R);
}.

Section eam.
Context {A M W R : Type} `{Countable A} `{!BuiltinEam A M W R}.
Implicit Types (rt : EamRuntime A) (st : PermissionMode A).

Definition eam_state_new (p : PermissionModeParams A) : PermissionMode A :=
  match p with Unrestricted => UnrestrictedMode | AllowList l => AllowListMode (foldl (λ s d, {[d]} ∪ s) ∅ l) end.
Definition can_deploy st rt (deployer : Z) : bool :=
  match st with
  | UnrestrictedMode => true
  | AllowListMode l => foldr (λ k allowed, allowed || bool_decide (resolve_address rt k = Some deployer)) false (elements l)
  end.
Definition eam_constructor rt (p : PermissionModeParams A) (w : W) : outcome EamError (PermissionMode A * W) :=
  w ← builtin_constructor rt w; Ok (eam_state_new p, w).
Definition ensure_deployer_allowed rt st : outcome EamError unit :=
  match caller_is_evm rt with
  | None => Panic
  | Some true => Ok ()
  | Some false => if can_deploy st rt (eam_caller rt) then Ok () else Err (EamForbidden "sender not allowed to deploy contracts")
  end.
Definition update_deployers rt (deployers : list A) st : outcome EamError (PermissionMode A) :=
  match st with
  | UnrestrictedMode => Err (EamForbidden "deployers can only be updated in allowlist mode")
  | AllowListMode _ =>
      if can_deploy st rt (eam_caller rt) then Ok (eam_state_new (AllowList deployers))
      else Err (EamForbidden "sender not allowed to update deployers")
  end.
Definition invoke_method rt (m : EamMethod A M) (st : PermissionMode A) (w : W) : outcome EamError (PermissionMode A * W * option R) :=
  match m with
  | EamConstructor p => r ← eam_constructor rt p w; Ok (r.1, r.2, None)
  | UpdateDeployers l => st ← update_deployers rt l st; Ok (st, w, None)
  | BuiltinMethod m =>
      _ ← ensure_deployer_allowed rt st;
      r ← builtin_invoke rt m w;
      Ok (st, r.1, Some r.2)
  end.
End eam.

(** ** The window of block hashes *)

Definition system_runtime : Runtime := mkRuntime SYSTEM_ACTOR_ID 0 (λ _, None).
(** A block pushes its hash; blocks are pushed in the order of their heights. *)
Fixpoint push_blocks (l : list (Z * BlockHash)) (st : ChainState) : outcome ActorError ChainState :=
  match l with
  | [] => Ok st
  | (e, h) :: l => st ← push_block_hash system_runtime (mkPushBlock e h) st; push_blocks l st
  end.
(** The last [n] elements of a list. *)
Definition last_n {X} (n : nat) (l : list X) : list X := drop (length l - n) l.

Lemma first_idx_spec (m : gmap Z BlockHash) i : is_Some (m !! i) → (∀ j, is_Some (m !! j) → i <= j) → first_idx m = i.
Proof.
  intros Hi Hm. unfold first_idx.
  assert (Hk : ∀ j, j ∈ (map_to_list m).*1 ↔ is_Some (m !! j)).
  { intros j. rewrite list_elem_of_fmap. split.
    - intros ([j' x] & -> & Hx%elem_of_map_to_list). by exists x.
    - intros [x Hx]. exists (j, x). by rewrite elem_of_map_to_list. }
  destruct ((map_to_list m).*1) as [|k ks]; [by apply Hk, elem_of_nil in Hi|].
  assert (Hlow : i <= foldr Z.min k ks).
  { assert (Hks : ∀ j, j ∈ k :: ks → i <= j) by (intros j Hj; by apply Hm, Hk). clear Hi Hk.
    induction ks as [|j ks IH]; cbn; [apply Hks; by left|]. apply Z.min_glb; [apply Hks; set_solver|]. apply IH. set_solver. }
  assert (Hup : ∀ j, j ∈ k :: ks → foldr Z.min k ks <= j).
  { clear. intros j. induction ks as [|x ks IH]; cbn; [intros ->%list_elem_of_singleton; done|].
    intros Hj. destruct (decide (j = x)) as [->|]; [apply Z.le_min_l|]. etrans; [apply Z.le_min_r|]. apply IH. set_solver. }
  apply Hk, Hup in Hi. lia.
Qed.
Lemma push_blocks_app l1 l2 st : push_blocks (l1 ++ l2) st = st ← push_blocks l1 st; push_blocks l2 st.
Proof.
  revert st. induction l1 as [|[e h] l1 IH]; intros st; cbn [app push_blocks]; [done|].
  destruct (push_block_hash _ _ _); cbn; [apply IH|done..].
Qed.
Lemma last_n_snoc {X} n (l : list X) x :
  last_n n (l ++ [x]) = if decide (length l < n)%nat then last_n n l ++ [x] else drop 1 (last_n n l ++ [x]).
Proof.
  unfold last_n. rewrite length_app. cbn. case_decide.
  - replace (length l + 1 - n)%nat with 0%nat by lia. by replace (length l - n)%nat with 0%nat by lia.
  - destruct (decide (n = 0)%nat) as [->|].
    + rewrite !drop_ge; [done|..]; rewrite ?length_app, ?length_drop; cbn; lia.
    + rewrite !drop_app_le by (rewrite ?length_drop; lia). rewrite drop_drop. by replace (length l - n + 1)%nat with (length l + 1 - n)%nat by lia.
Qed.

Lemma last_n_sub {X} n (l : list X) x : x ∈ last_n n l → x ∈ l.
Proof. intros Hx. rewrite <- (take_drop (length l - n) l). apply elem_of_app. by right. Qed.
Lemma last_n_sorted n (l : list (Z * BlockHash)) : StronglySorted Z.lt l.*1 → StronglySorted Z.lt (last_n n l).*1.
Proof. intros Hs. unfold last_n. rewrite fmap_drop. rewrite <- (take_drop (length l - n) l.*1) in Hs. by apply StronglySorted_app_1_r in Hs. Qed.
Lemma sorted_nodup (l : list Z) : StronglySorted Z.lt l → NoDup l.
Proof.
  induction 1 as [|x l _ IH Hx]; constructor; [|done]. intros Hi. rewrite Forall_forall in Hx. specialize (Hx x Hi). lia.
Qed.
Lemma sorted_snoc_lt (l : list Z) x : StronglySorted Z.lt (l ++ [x]) → ∀ y, y ∈ l → y < x.
Proof. intros Hs y Hy. eapply (StronglySorted_app_1_elem_of _ l [x]); [done..|by left]. Qed.

(** Adding a block to a full window drops its oldest block. *)
Lemma push_window n w e h : StronglySorted Z.lt (w ++ [(e, h)]).*1 → Forall (λ x, 0 <= x.1 < 2 ^ 63) (w ++ [(e, h)]) → (length w <= n)%nat →
  push_block_hash system_runtime (mkPushBlock e h) (mkChainState (list_to_map w) (Z.of_nat n)) =
    Ok (mkChainState (list_to_map (if decide (length w < n)%nat then w ++ [(e, h)] else drop 1 (w ++ [(e, h)]))) (Z.of_nat n)).
Proof.
  intros Hs Hr Hl. unfold push_block_hash. cbn [validate_caller_is_system system_runtime caller epoch block mbind outcome_bind].
  apply Forall_app in Hr as [Hr [He _]%Forall_cons]. cbn in He.
  assert (Hi : i64_as_u64 e = e) by (unfold i64_as_u64, wrap64; apply Z.mod_small; lia). rewrite Hi.
  unfold AMT_MAX_INDEX, U64_MAX. rewrite (proj2 (Z.ltb_ge _ _)) by lia. cbn [blockhashes lookback_len].
  pose proof (sorted_nodup _ Hs) as Hnd. rewrite fmap_app in Hs, Hnd. cbn in Hs, Hnd.
  assert (Hne : e ∉ w.*1) by (intros Hx; apply (sorted_snoc_lt _ _ Hs) in Hx; lia).
  assert (Hm : <[e := h]> (list_to_map w : gmap Z BlockHash) = list_to_map (w ++ [(e, h)])).
  { rewrite list_to_map_snoc by done. done. }
  rewrite Hm. assert (Hsz : size (list_to_map (w ++ [(e, h)]) : gmap Z BlockHash) = (length w + 1)%nat).
  { rewrite <- length_map_to_list, map_to_list_to_map by (by rewrite fmap_app). by rewrite length_app. }
  rewrite Hsz. case_decide; [rewrite (proj2 (Z.ltb_ge _ _)) by lia; done|].
  rewrite (proj2 (Z.ltb_lt _ _)) by lia. do 2 f_equal.
  destruct w as [|[e0 h0] w].
  - cbn. erewrite first_idx_spec; [by rewrite delete_insert_eq, delete_empty|by rewrite lookup_insert_eq|].
    intros j [x Hx]. destruct (decide (j = e)) as [->|]; [done|]. by rewrite lookup_insert_ne, lookup_empty in Hx.
  - cbn [app drop]. cbn in Hs. apply StronglySorted_inv in Hs as [_ Hall]. rewrite Forall_forall in Hall.
    erewrite first_idx_spec.
    + cbn. rewrite delete_insert_id; [done|]. apply not_elem_of_list_to_map_1. rewrite fmap_app. cbn. intros Hx%Hall. lia.
    + cbn. by rewrite lookup_insert_eq.
    + intros j [x Hx%elem_of_list_to_map_2]. cbn in Hx. apply elem_of_cons in Hx as [[= -> ->]|Hx]; [done|].
      assert (j ∈ (w.*1 ++ [e])) as ?%Hall; [|lia]. apply (list_elem_of_fmap_2 fst) in Hx. by rewrite fmap_app in Hx.
Qed.

(** Contracts can look back exactly [lookback_len] blocks.  When blocks push their hashes in
    the order of their heights, no push fails, and afterwards the hash of a height is found if
    and only if it belongs to one of the latest [n] blocks. *)
Theorem block_hash_window n l :
  StronglySorted Z.lt l.*1 → Forall (λ x, 0 <= x.1 < 2 ^ 63) l →
  ∃ st, push_blocks l (chain_state_new (Z.of_nat n)) = Ok st ∧ ∀ e h, 0 <= e < 2 ^ 63 → get_block_hash st e = Some h ↔ (e, h) ∈ last_n n l.
Proof.
  intros Hs Hr. exists (mkChainState (list_to_map (last_n n l)) (Z.of_nat n)). split.
  - induction l as [|[e h] l IH] using rev_ind; [done|].
    assert (Hs' : StronglySorted Z.lt l.*1) by (rewrite fmap_app in Hs; by apply StronglySorted_app_1_l in Hs).
    pose proof Hr as [Hr' _]%Forall_app. rewrite push_blocks_app, (IH Hs' Hr'). cbn [mbind outcome_bind push_blocks].
    assert (Hd : ∀ x, x ∈ last_n n l ++ [(e, h)] → x ∈ l ++ [(e, h)]).
    { intros x. rewrite !elem_of_app. intros [?%last_n_sub|?]; auto. }
    assert (Hw : StronglySorted Z.lt (last_n n l ++ [(e, h)]).*1).
    { rewrite fmap_app in Hs |- *. apply StronglySorted_app_2; [|by apply last_n_sorted|by apply StronglySorted_app_1_r in Hs].
      intros x y Hx Hy. eapply (StronglySorted_app_1_elem_of _ l.*1 [e]); [done| |done].
      apply list_elem_of_fmap in Hx as (z & -> & Hz%last_n_sub). by apply list_elem_of_fmap_2. }
    rewrite push_window; [| done| |unfold last_n; rewrite length_drop; lia].
    + cbn. do 2 f_equal. rewrite last_n_snoc. f_equal.
      assert (Hlen : length (last_n n l) = (length l - (length l - n))%nat) by (unfold last_n; apply length_drop). repeat case_decide; (done || lia).
    + rewrite Forall_forall in Hr |- *. intros x Hx. by apply Hr, Hd.
  - intros e h He. unfold get_block_hash. cbn. unfold i64_as_u64, wrap64. rewrite Z.mod_small by lia.
    symmetry. apply elem_of_list_to_map. apply sorted_nodup, last_n_sorted, Hs.
Qed.
Lemma block_hash_window_witness :
  ∃ st, push_blocks [(1, [1]); (2, [2]); (4, [4])] (chain_state_new 2) = Ok st ∧
    get_block_hash st 4 = Some [4] ∧ get_block_hash st 2 = Some [2] ∧ get_block_hash st 1 = None.
Proof.
  destruct (block_hash_window 2 [(1, [1]); (2, [2]); (4, [4])]) as (st & Hp & Hw).
  - repeat constructor.
  - repeat constructor; cbn; lia.
  - exists st. split; [exact Hp|]. split; [apply Hw; [lia|vm_compute; by apply list_elem_of_further, list_elem_of_here]|].
    split; [apply Hw; [lia|vm_compute; by apply list_elem_of_here]|].
    destruct (get_block_hash st 1) as [h|] eqn:Hg; [|reflexivity]. apply Hw in Hg; [|lia].
    apply (bool_decide_pack _) in Hg. exfalso. revert Hg. unfold last_n. cbn. intros Hg.
    apply bool_decide_unpack in Hg. rewrite !elem_of_cons, elem_of_nil in Hg. naive_solver.
Defined.

(** ** Who may deploy *)

Section eam_lemmas.
Context {A M W R : Type} `{Countable A} `{!BuiltinEam A M W R}.
Implicit Types (rt : EamRuntime A) (st : PermissionMode A).

Lemma can_deploy_spec l rt d : can_deploy (AllowListMode l) rt d = true ↔ ∃ a, a ∈ l ∧ resolve_address rt a = Some d.
Proof.
  cbn. setoid_rewrite <- elem_of_elements. induction (elements l) as [|a ks IH]; cbn; [set_solver|].
  rewrite orb_true_iff, IH, bool_decide_eq_true. setoid_rewrite elem_of_cons. naive_solver.
Qed.
Lemma eam_state_new_list (l : list A) : eam_state_new (AllowList l) = AllowListMode (list_to_set l).
Proof.
  cbn. f_equal. cut (∀ s : gset A, foldl (λ s d, {[d]} ∪ s) s l = list_to_set l ∪ s); [intros ->; set_solver|].
  induction l as [|a l IH]; intros s; cbn; [set_solver|]. rewrite IH. set_solver.
Qed.
(** In allow-list mode a method of the built-in actor runs only for a contract or for an actor
    that an address of the list belongs to; only the latter can replace the list. *)
Lemma deployers_guarded rt m l w st' w' r : invoke_method rt m (AllowListMode l) w = Ok (st', w', r) →
  match m with
  | EamConstructor _ => True
  | UpdateDeployers l' => (∃ a, a ∈ l ∧ resolve_address rt a = Some (eam_caller rt)) ∧ st' = AllowListMode (list_to_set l') ∧ w' = w
  | BuiltinMethod _ => (caller_is_evm rt = Some true ∨ ∃ a, a ∈ l ∧ resolve_address rt a = Some (eam_caller rt)) ∧ st' = AllowListMode l
  end.
Proof.
  destruct m as [p|l'|m]; [done|..]; cbn [invoke_method].
  - unfold update_deployers. destruct (can_deploy _ _ _) eqn:Hc; [|done]. rewrite eam_state_new_list. cbn. intros [= <- <- <-].
    by apply can_deploy_spec in Hc.
  - unfold ensure_deployer_allowed. destruct (caller_is_evm rt) as [[]|]; [|destruct (can_deploy _ _ _) eqn:Hc; [|done]|done]; cbn [mbind outcome_bind];
      (destruct (builtin_invoke _ _ _) as [[w1 r1]| | |]; [|done..]); cbn; intros [= <- <- <-]; (split; [|done]); [by left|right; by apply can_deploy_spec].
Qed.
(** A list none of whose addresses belongs to an actor is final; the empty list lets nobody
    deploy but contracts, for ever. *)
Lemma empty_allowlist_is_final l rt m w st' w' r : (∀ a, a ∈ l → resolve_address rt a = None) → (∀ p, m ≠ EamConstructor p) →
  invoke_method rt m (AllowListMode l) w = Ok (st', w', r) → st' = AllowListMode l ∧ caller_is_evm rt = Some true.
Proof.
  intros Hn Hm Hi. apply deployers_guarded in Hi. destruct m as [p|l'|m]; [by destruct (Hm p)|..].
  - destruct Hi as [(a & Ha & Hr) _]. rewrite Hn in Hr by done. done.
  - destruct Hi as [[He|(a & Ha & Hr)] ->]; [done|]. rewrite Hn in Hr by done. done.
Qed.
End eam_lemmas.
