(* ===== verification/Deploy.v ===== *)
(** * Linking and ordering contracts ([fendermint/eth/hardhat/src/lib.rs])

    The genesis deploys Solidity libraries before the contracts that use them.  The bytecode
    of a contract has placeholders for the addresses of its libraries; the order of deployment
    is a topological sort of what the artifacts refer to.  Reading an artifact from disk and
    decoding hexadecimal are parameters. *)

From Stdlib Require Import Ascii String.
From stdpp Require Import base tactics numbers list gmap strings sorting.
From S2P Require Import Prelude IpcApi.

Open Scope Z_scope.

(** ** Data *)

(** A source file and the name of a contract in it. *)
Notation ContractSourceAndName := (string * string)%type.
Notation FQN := string (only parsing).
Record Position := mkPosition { p_start : nat; p_length : nat }.
#[export] Instance position_eq_dec : EqDecision Position.
Proof. solve_decision. Defined.
(** [link_references] lists the entries of the two hash maps in the order of a traversal. *)
Record Artifact := mkArtifact { object : list ascii; link_references : list (string * list (string * list Position)) }.

Inductive HardhatError :=
| ArtifactFailed (e : string)
| UnresolvedLibrary (fqn : FQN)
| AmbiguousLibrary (fqn : FQN)
| DecodeFailed
| CircularReference.

(** The files of a build, and the crate [hex]. *)
Class Hardhat := {
  artifact : ContractSourceAndName → outcome HardhatError Artifact;
  hex_encode : bytes → list ascii;
  hex_decode : list ascii → option bytes;
}.

Definition fqn (src name : string) : FQN := (src ++ ":" ++ name)%string.
Definition libraries_needed (a : Artifact) : list ContractSourceAndName :=
  link_references a ≫= λ e, (λ l : string * list Position, (e.1, l.1)) <$> e.2.
(** [HashMap::get]. *)
Fixpoint assoc_get {V} (l : list (string * V)) (k : string) : option V :=
  match l with [] => None | (k', v) :: l => if decide (k' = k) then Some v else assoc_get l k end.
Definition library_positions (a : Artifact) (lib : ContractSourceAndName) : list Position :=
  default [] (assoc_get (link_references a) lib.1 ≫= λ links, assoc_get links lib.2).

(** ** Linking *)

(** [String::replace_range] panics outside of the string. *)
Definition replace_range {E} (start stop : nat) (r s : list ascii) : outcome E (list ascii) :=
  if (start <=? stop)%nat && (stop <=? length s)%nat then Ok (take start s ++ r ++ drop stop s) else Panic.
Fixpoint replace_all {E} (addr : list ascii) (ps : list Position) (s : list ascii) : outcome E (list ascii) :=
  match ps with
  | [] => Ok s
  | p :: ps =>
      let start := (2 + p_start p * 2)%nat in
      s ← replace_range start (start + p_length p * 2)%nat addr s;
      replace_all addr ps s
  end.
(** [trim_start_matches("0x")] removes every repetition. *)
Fixpoint trim_0x (s : list ascii) : list ascii :=
  match s with
  | a :: b :: rest => if Ascii.eqb a "0" && Ascii.eqb b "x" then trim_0x rest else s
  | _ => s
  end.

Section linking.
Context `{Hardhat}.

Definition resolve_library (libraries : gmap string bytes) (lib : ContractSourceAndName) : outcome HardhatError bytes :=
  match libraries !! fqn lib.1 lib.2, libraries !! lib.2 with
  | None, None => Err (UnresolvedLibrary (fqn lib.1 lib.2))
  | Some _, Some _ => Err (AmbiguousLibrary (fqn lib.1 lib.2))
  | Some addr, None | None, Some addr => Ok addr
  end.
Fixpoint link (a : Artifact) (libraries : gmap string bytes) (libs : list ContractSourceAndName) (s : list ascii) : outcome HardhatError (list ascii) :=
  match libs with
  | [] => Ok s
  | lib :: libs =>
      addr ← resolve_library libraries lib;
      s ← replace_all (hex_encode addr) (library_positions a lib) s;
      link a libraries libs s
  end.
Definition bytecode (sc : ContractSourceAndName) (libraries : gmap string bytes) : outcome HardhatError bytes :=
  a ← artifact sc;
  s ← link a libraries (libraries_needed a) (object a);
  ok_or DecodeFailed (hex_decode (trim_0x s)).
End linking.

(** ** Ordering *)

Section sorting.
Context {T : Type} `{Countable T} (le : relation T) `{!RelDecision le}.
Notation DependencyTree := (gmap T (gset T)).

(** The entries of a [BTreeMap], in the order of its keys. *)
Definition key_order : relation (T * gset T) := λ x y, le x.1 y.1.
#[local] Instance key_order_dec : RelDecision key_order := λ x y, decide (le x.1 y.1).
Definition btree_iter (t : DependencyTree) : list (T * gset T) := merge_sort key_order (map_to_list t).
(** A round removes one contract, so that the size of the tree bounds the rounds. *)
Fixpoint topo_loop (rounds : nat) (t : DependencyTree) (sorted : list T) : outcome HardhatError (list T) :=
  match rounds with
  | O => Ok sorted
  | S rounds =>
      match list_find (λ e : T * gset T, e.2 = ∅) (btree_iter t) with
      | Some (_, (leaf, _)) => topo_loop rounds ((λ ds : gset T, ds ∖ {[leaf]}) <$> delete leaf t) (sorted ++ [leaf])
      | None => Err CircularReference
      end
  end.
Definition topo_sort (t : DependencyTree) : outcome HardhatError (list T) := topo_loop (size t) t [].
End sorting.

Section dependencies.
Context `{Hardhat} (le : relation ContractSourceAndName) `{!RelDecision le}.

(** The traversal of what the contracts in the queue need; [None] if the fuel runs out. *)
Fixpoint collect (fuel : nat) (queue : list ContractSourceAndName) (deps : gmap ContractSourceAndName (gset ContractSourceAndName))
    : option (outcome HardhatError (gmap ContractSourceAndName (gset ContractSourceAndName))) :=
  match fuel with
  | O => None
  | S fuel =>
      match queue with
      | [] => Some (Ok deps)
      | sc :: queue =>
          if decide (is_Some (deps !! sc)) then collect fuel queue deps else
          match artifact sc with
          | Ok a => collect fuel (queue ++ libraries_needed a) (<[sc := list_to_set (libraries_needed a)]> deps)
          | Err e => Some (Err e)
          | Retry => Some Retry
          | Panic => Some Panic
          end
      end
  end.
Definition dependencies (fuel : nat) (roots : list ContractSourceAndName) : option (outcome HardhatError (list ContractSourceAndName)) :=
  r ← collect fuel roots ∅; Some (r ≫= topo_sort le).
End dependencies.

(** ** The sort is topological *)

Section sorting_lemmas.
Context {T : Type} `{Countable T} (le : relation T) `{!RelDecision le}.
Implicit Types (t : gmap T (gset T)) (x d : T).

Lemma elem_of_btree_iter t x ds : (x, ds) ∈ btree_iter le t ↔ t !! x = Some ds.
Proof. unfold btree_iter. rewrite merge_sort_Permutation. apply elem_of_map_to_list. Qed.
Lemma without_leaf t leaf x ds : x ≠ leaf → t !! x = Some ds → ((λ ds : gset T, ds ∖ {[leaf]}) <$> delete leaf t) !! x = Some (ds ∖ {[leaf]}).
Proof. intros Hne Hx. by rewrite lookup_fmap, lookup_delete_ne, Hx. Qed.
Lemma without_leaf_inv t leaf x ds : ((λ ds : gset T, ds ∖ {[leaf]}) <$> delete leaf t) !! x = Some ds →
  x ≠ leaf ∧ ∃ ds', t !! x = Some ds' ∧ ds = ds' ∖ {[leaf]}.
Proof.
  rewrite lookup_fmap, fmap_Some. intros (ds' & Hx & ->). apply lookup_delete_Some in Hx as [? ?]. eauto.
Qed.
Lemma topo_loop_sorted n t acc out : size t = n → topo_loop le n t acc = Ok out →
  ∃ rest, out = acc ++ rest ∧ NoDup rest ∧ (∀ x, x ∈ rest ↔ is_Some (t !! x)) ∧
    ∀ l1 x l2 ds, rest = l1 ++ x :: l2 → t !! x = Some ds → ds ⊆ list_to_set l1.
Proof.
  revert t acc. induction n as [|n IH]; intros t acc Hn Hr; cbn in Hr.
  - apply map_size_empty_inv in Hn as ->. simplify_eq. exists []. split_and!; [by rewrite app_nil_r|constructor| |].
    + intros x. rewrite lookup_empty. split; [by intros ?%elem_of_nil|by intros []].
    + intros l1 x l2 ds He. by apply app_cons_not_nil in He.
  - destruct (list_find _ _) as [[i [leaf ds0]]|] eqn:Hf; [|done]. apply list_find_Some in Hf as (Hi & He & _). cbn in He. subst ds0.
    apply list_elem_of_lookup_2, elem_of_btree_iter in Hi.
    apply IH in Hr as (rest & -> & Hnd & Hin & Hord); [|rewrite map_size_fmap, map_size_delete_Some by eauto; lia].
    exists (leaf :: rest). split_and!; [by rewrite <- app_assoc| | |].
    + constructor; [|done]. intros [ds Hx]%Hin. by apply without_leaf_inv in Hx as [? _].
    + intros x. rewrite elem_of_cons, Hin. split; [intros [->|[ds (_ & ds' & Hx & _)%without_leaf_inv]]; eauto|].
      intros [ds Hx]. destruct (decide (x = leaf)); [by left|]. right. eexists. by apply without_leaf.
    + intros [|y l1] x l2 ds [= <- ->] Hx; [rewrite Hi in Hx; by simplify_eq|].
      assert (Hne : x ≠ leaf).
      { intros ->. assert (Hl : leaf ∈ l1 ++ leaf :: l2) by (apply elem_of_app; right; by left). apply Hin in Hl as [? Hl]. by apply without_leaf_inv in Hl as [? _]. }
      pose proof (Hord l1 x l2 _ eq_refl (without_leaf _ _ _ _ Hne Hx)) as Hs. cbn. intros d Hd.
      destruct (decide (d = leaf)) as [->|]; [apply elem_of_union_l, elem_of_singleton; done|]. apply elem_of_union_r, Hs, elem_of_difference. by rewrite elem_of_singleton.
Qed.
(** A tree without cycles has a leaf. *)
Lemma leaf_exists (R : relation T) t x : Acc R x → (∀ x ds d, t !! x = Some ds → d ∈ ds → R d x ∧ is_Some (t !! d)) → is_Some (t !! x) →
  ∃ leaf, t !! leaf = Some ∅.
Proof.
  intros Hacc Ht. induction Hacc as [x _ IH]. intros [ds Hx]. destruct (set_choose_or_empty ds) as [[d Hd]|He%leibniz_equiv].
  - destruct (Ht _ _ _ Hx Hd). by apply (IH d).
  - subst ds. by exists x.
Qed.
Lemma topo_loop_total (R : relation T) n t acc : well_founded R → (∀ x ds d, t !! x = Some ds → d ∈ ds → R d x ∧ is_Some (t !! d)) → size t = n →
  ∃ out, topo_loop le n t acc = Ok out.
Proof.
  intros Hwf. revert t acc. induction n as [|n IH]; intros t acc Ht Hn; cbn; [eauto|].
  assert (Hx : ∃ x, is_Some (t !! x)).
  { destruct (map_choose t) as (x & ds & Hx); [intros ->; by rewrite map_size_empty in Hn|]. by exists x, ds. }
  destruct Hx as [x Hx]. destruct (leaf_exists R t x (Hwf x) Ht Hx) as [leaf Hleaf].
  destruct (list_find _ _) as [[i [leaf' ds0]]|] eqn:Hf.
  - apply list_find_Some in Hf as (Hi & He & _). cbn in He. subst ds0. apply list_elem_of_lookup_2, elem_of_btree_iter in Hi.
    apply IH; [|rewrite map_size_fmap, map_size_delete_Some by eauto; lia].
    intros y ds d (Hne & ds' & Hy & ->)%without_leaf_inv [Hd Hdl]%elem_of_difference. destruct (Ht _ _ _ Hy Hd) as [? [? Hd']]. split; [done|].
    eexists. apply without_leaf; [set_solver|done].
  - apply list_find_None in Hf. rewrite Forall_forall in Hf. exfalso. apply (Hf (leaf, ∅)); [by apply elem_of_btree_iter|done].
Qed.
End sorting_lemmas.

(** ** The traversal finds what is needed *)

Section dependencies_lemmas.
Context `{Hardhat} (le : relation ContractSourceAndName) `{!RelDecision le}.
Notation C := ContractSourceAndName.
Implicit Types (deps : gmap C (gset C)) (queue : list C) (x d : C).

(** [x] links the library [d]. *)
Definition needs (d x : C) : Prop := ∃ a, artifact x = Ok a ∧ d ∈ libraries_needed a.
(** The artifacts that are in the tree are complete, up to the queue. *)
Record collecting queue deps : Prop := {
  co_entry x ds : deps !! x = Some ds → ∃ a, artifact x = Ok a ∧ ds = list_to_set (libraries_needed a);
  co_closed x d : is_Some (deps !! x) → needs d x → is_Some (deps !! d) ∨ d ∈ queue;
}.

Lemma collecting_skip x queue deps : is_Some (deps !! x) → collecting (x :: queue) deps → collecting queue deps.
Proof. intros Hx [E1 E2]. split; [done|]. intros y d Hy Hd. destruct (E2 _ _ Hy Hd) as [?|[->|?]%elem_of_cons]; auto. Qed.
Lemma collecting_add x queue deps a : artifact x = Ok a → collecting (x :: queue) deps →
  collecting (queue ++ libraries_needed a) (<[x := list_to_set (libraries_needed a)]> deps).
Proof.
  intros Ha [E1 E2]. split.
  - intros y ds [[<- <-]|[_ Hy]]%lookup_insert_Some; [by exists a|by apply E1].
  - intros y d Hy Hd. destruct (decide (d = x)) as [->|]; [left; by rewrite lookup_insert_eq|]. rewrite lookup_insert_ne, elem_of_app by done.
    destruct (decide (y = x)) as [->|]; [destruct Hd as (a' & Ha' & ?); rewrite Ha in Ha'; simplify_eq; auto|].
    rewrite lookup_insert_ne in Hy by done. destruct (E2 _ _ Hy Hd) as [?|[?|?]%elem_of_cons]; [by left|done|by right; left].
Qed.
Lemma collect_total (univ : gset C) : (∀ x, x ∈ univ → ∃ a, artifact x = Ok a ∧ ∀ d, d ∈ libraries_needed a → d ∈ univ) →
  ∀ k queue deps, (size (univ ∖ dom deps) <= k)%nat → (∀ x, x ∈ queue → x ∈ univ) → collecting queue deps →
  ∃ n out, (∀ fuel, (n <= fuel)%nat → collect fuel queue deps = Some (Ok out)) ∧ collecting [] out ∧ deps ⊆ out ∧
    (∀ x, x ∈ queue → is_Some (out !! x)) ∧ (∀ x, is_Some (out !! x) → is_Some (deps !! x) ∨ ∃ r, r ∈ queue ∧ rtc (flip needs) r x).
Proof.
  intros Hu. induction k as [k IHk] using lt_wf_ind. induction queue as [|x queue IHq]; intros deps Hk Hq Hc.
  { exists 1%nat, deps. split_and!; [intros [|fuel] ?; [lia|done]|done..| |by left]. intros x Hx. by apply elem_of_nil in Hx. }
  destruct (decide (is_Some (deps !! x))) as [Hx|Hx].
  - destruct (IHq deps Hk) as (n & out & E1 & E2 & E3 & E4 & E5); [set_solver|by eapply collecting_skip|].
    exists (1 + n)%nat, out. split_and!; [|done..| |].
    + intros [|fuel] ?; [lia|]. cbn. rewrite decide_True by done. apply E1. lia.
    + intros y [->|?]%elem_of_cons; [|by apply E4]. destruct Hx as [ds Hx]. exists ds. by eapply lookup_weaken.
    + intros y [?|(r & ? & ?)]%E5; [by left|]. right. exists r. split; [by right|done].
  - destruct (Hu x) as (a & Ha & Hn); [apply Hq; by left|].
    destruct (IHk (size (univ ∖ dom (<[x := list_to_set (libraries_needed a)]> deps)))) with (queue := queue ++ libraries_needed a)
      (deps := <[x := (list_to_set (libraries_needed a) : gset C)]> deps) as (n & out & E1 & E2 & E3 & E4 & E5).
    { eapply Nat.lt_le_trans; [|exact Hk]. apply subset_size. rewrite dom_insert. split; [set_solver|]. intros Hs.
      assert (Hxu : x ∈ univ ∖ dom deps) by (apply elem_of_difference; split; [apply Hq; by left|by rewrite elem_of_dom]). apply Hs in Hxu. set_solver. }
    { done. }
    { intros y [?|?]%elem_of_app; [apply Hq; by right|by apply Hn]. }
    { by apply collecting_add. }
    exists (1 + n)%nat, out. split_and!; [|done|..].
    + intros [|fuel] ?; [lia|]. cbn. rewrite decide_False, Ha by done. apply E1. lia.
    + etrans; [|exact E3]. apply insert_subseteq, eq_None_not_Some, Hx.
    + intros y [->|?]%elem_of_cons; [|apply E4, elem_of_app; by left]. eexists. eapply lookup_weaken; [|exact E3]. apply lookup_insert_eq.
    + intros y [[ds Hy]|(r & [Hr|Hr]%elem_of_app & Hry)]%E5.
      * apply lookup_insert_Some in Hy as [[<- _]|[_ Hy]]; [|left; eauto]. right. exists x. split; [by left|apply rtc_refl].
      * right. exists r. split; [by right|done].
      * right. exists x. split; [by left|]. eapply rtc_l; [|done]. by exists a.
Qed.

(** C27. Contracts are deployed after what they need.  If the artifacts of all contracts that the
    roots reach can be read and do not refer to one another in a cycle, the dependencies are
    exactly those contracts, each once, and every library stands before its users. *)
Theorem deployment_order (roots : list C) (univ : gset C) :
  (∀ r, r ∈ roots → r ∈ univ) → (∀ x, x ∈ univ → ∃ a, artifact x = Ok a ∧ ∀ d, d ∈ libraries_needed a → d ∈ univ) → well_founded needs →
  ∃ n sorted, (∀ fuel, (n <= fuel)%nat → dependencies le fuel roots = Some (Ok sorted)) ∧ NoDup sorted ∧
    (∀ x, x ∈ sorted ↔ ∃ r, r ∈ roots ∧ rtc (flip needs) r x) ∧
    ∀ l1 x l2 d, sorted = l1 ++ x :: l2 → needs d x → d ∈ l1.
Proof.
  intros Hr Hu Hwf. destruct (collect_total univ Hu (size univ) roots ∅) as (n & deps & E1 & [E2 E3] & _ & E4 & E5).
  { apply subseteq_size. set_solver. } { done. } { split; [intros x ds|intros x d [ds Hx]]; by rewrite ?lookup_empty in *. }
  assert (Ht : ∀ x ds d, deps !! x = Some ds → d ∈ ds → needs d x ∧ is_Some (deps !! d)).
  { intros x ds d Hx Hd. destruct (E2 _ _ Hx) as (a & Ha & ->). apply elem_of_list_to_set in Hd.
    assert (Hn : needs d x) by (by exists a). split; [done|]. destruct (E3 x d) as [?|?%elem_of_nil]; [eauto|done..]. }
  destruct (topo_loop_total le needs (size deps) deps [] Hwf Ht eq_refl) as [sorted Hs].
  pose proof Hs as (rest & Hrest & Hnd & Hin & Hord)%topo_loop_sorted; [|done]. cbn in Hrest. subst rest.
  exists n, sorted. split_and!; [|done| |].
  - intros fuel Hf. unfold dependencies. rewrite E1 by done. cbn. by unfold topo_sort; rewrite Hs.
  - intros x. rewrite Hin. split; [intros [Hx|?]%E5; [by rewrite lookup_empty in Hx; destruct Hx|done]|]. intros (r & Hroot & Hx). specialize (E4 r Hroot).
    assert (Hc : ∀ r y, needs y r → is_Some (deps !! r) → is_Some (deps !! y)) by (intros r' y Hn Hd; by destruct (E3 r' y Hd Hn) as [?|?%elem_of_nil]).
    clear Hroot. induction Hx as [r|r y x Hn _ IH]; [done|]. by apply IH, (Hc r).
  - intros l1 x l2 d He Hn. assert (Hx : is_Some (deps !! x)) by (apply Hin; rewrite He; apply elem_of_app; right; by left). destruct Hx as [ds Hx].
    apply (elem_of_list_to_set (C := gset C)). apply (Hord _ _ _ _ He Hx). destruct (E2 _ _ Hx) as (a & Ha & ->). destruct Hn as (a' & Ha' & Hd).
    rewrite Ha in Ha'. simplify_eq. by apply elem_of_list_to_set.
Qed.
End dependencies_lemmas.

(** ** Linking puts the addresses into the placeholders *)

Section linking_lemmas.
Context `{Hardhat}.
Implicit Types (s : list ascii) (es : list (list ascii * Position)).

(** The place of a placeholder in the string, which starts with [0x]. *)
Definition covers (p : Position) (i : nat) : Prop := (2 + p_start p * 2 <= i < 2 + p_start p * 2 + p_length p * 2)%nat.
(** A replacement fits when it is as long as the placeholder, which is in the string. *)
Definition fits s (e : list ascii * Position) : Prop :=
  length e.1 = (p_length e.2 * 2)%nat ∧ (2 + p_start e.2 * 2 + p_length e.2 * 2 <= length s)%nat.
Fixpoint edit es s : outcome HardhatError (list ascii) :=
  match es with [] => Ok s | (r, p) :: es => s ← replace_all r [p] s; edit es s end.

Lemma replace_fits {E} r p s : fits s (r, p) → ∃ s', replace_all (E := E) r [p] s = Ok s' ∧ length s' = length s ∧
  ∀ i, s' !! i = if decide (covers p i) then r !! (i - (2 + p_start p * 2))%nat else s !! i.
Proof.
  intros [Hl Hs]. cbn [fst snd] in *. unfold replace_all, replace_range. set (start := (2 + p_start p * 2)%nat) in *.
  rewrite (proj2 (Nat.leb_le _ _)), (proj2 (Nat.leb_le _ _)) by lia. cbn [mbind outcome_bind andb]. eexists. split; [reflexivity|].
  split; [rewrite !length_app, length_take, length_drop; lia|]. intros i. unfold covers. fold start. case_decide as Hc.
  - rewrite lookup_app_r by (rewrite length_take; lia). rewrite length_take, lookup_app_l by lia. f_equal. lia.
  - destruct (decide (i < start)%nat).
    + rewrite lookup_app_l by (rewrite length_take; lia). by rewrite lookup_take_lt.
    + rewrite !lookup_app_r by (rewrite ?length_take; lia). rewrite length_take, lookup_drop. f_equal. lia.
Qed.
Lemma edit_fits es s : Forall (fits s) es → (∀ e1 e2 i, e1 ∈ es → e2 ∈ es → covers e1.2 i → covers e2.2 i → e1 = e2) →
  ∃ s', edit es s = Ok s' ∧ length s' = length s ∧ (∀ i, (∀ e, e ∈ es → ¬ covers e.2 i) → s' !! i = s !! i) ∧
    ∀ e i, e ∈ es → covers e.2 i → s' !! i = e.1 !! (i - (2 + p_start e.2 * 2))%nat.
Proof.
  revert s. induction es as [|[r p] es IH]; intros s Hf Hd; [exists s; split_and!; [done..|by intros e i ?%elem_of_nil]|].
  apply Forall_cons in Hf as [Hf Hfs]. destruct (replace_fits (E := HardhatError) r p s Hf) as (s1 & E1 & L1 & Hi1). cbn [edit]. rewrite E1. cbn [mbind outcome_bind].
  destruct (IH s1) as (s2 & E2 & L2 & Hi2 & Hc2).
  { eapply Forall_impl; [exact Hfs|]. intros e [? ?]. split; [done|]. by rewrite L1. }
  { intros e1 e2 i ? ?. apply Hd; by right. }
  exists s2. split_and!; [done|congruence| |].
  - intros i Hn. rewrite Hi2 by (intros e He; apply Hn; by right). rewrite Hi1, decide_False; [done|]. apply (Hn (r, p)). by left.
  - intros e i He Hc. destruct (decide (e ∈ es)) as [?|Hne]; [by apply Hc2|]. apply elem_of_cons in He as [->|?]; [|done]. cbn in *.
    rewrite Hi2, Hi1, decide_True; [done..|].
    intros e' He' Hc'. apply Hne. by rewrite (Hd (r, p) e' i (list_elem_of_here _ _) (list_elem_of_further _ _ _ He') Hc Hc').
Qed.
(** The replacements that linking makes. *)
Definition link_edits (a : Artifact) (addr_of : ContractSourceAndName → bytes) libs : list (list ascii * Position) :=
  libs ≫= λ lib, (λ p, (hex_encode (addr_of lib), p)) <$> library_positions a lib.
Lemma edit_app es1 es2 s : edit (es1 ++ es2) s = s ← edit es1 s; edit es2 s.
Proof. revert s. induction es1 as [|[r p] es IH]; intros s; cbn [app edit]; [done|]. destruct (replace_all r [p] s); cbn; [apply IH|done..]. Qed.
Lemma replace_all_edit r ps s : replace_all r ps s = edit ((λ p, (r, p)) <$> ps) s.
Proof.
  revert s. induction ps as [|p ps IH]; intros s; cbn [replace_all fmap list_fmap edit]; [done|]. cbn. destruct (replace_range _ _ _ _); cbn; [apply IH|done..].
Qed.
Lemma link_edit a libraries addr_of libs s : (∀ lib, lib ∈ libs → resolve_library libraries lib = Ok (addr_of lib)) →
  link a libraries libs s = edit (link_edits a addr_of libs) s.
Proof.
  revert s. induction libs as [|lib libs IH]; intros s Hl; [done|]. cbn [link]. rewrite Hl by (by left). cbn [mbind outcome_bind].
  unfold link_edits. rewrite bind_cons, edit_app. fold (link_edits a addr_of libs). rewrite replace_all_edit. destruct (edit _ s); cbn; [|done..].
  apply IH. intros lib' ?. apply Hl. by right.
Qed.
End linking_lemmas.

(** If every library of an artifact is resolved to an address of the length of its
    placeholders, and placeholders do not overlap, linking replaces each placeholder by the
    address of its library and nothing else. *)
Lemma linked_bytecode `{Hardhat} a libraries addr_of (s : list ascii) :
  let es := link_edits a addr_of (libraries_needed a) in
  (∀ lib, lib ∈ libraries_needed a → resolve_library libraries lib = Ok (addr_of lib)) →
  Forall (fits s) es → (∀ e1 e2 i, e1 ∈ es → e2 ∈ es → covers e1.2 i → covers e2.2 i → e1 = e2) →
  ∃ s', link a libraries (libraries_needed a) s = Ok s' ∧ length s' = length s ∧
    (∀ lib p i, lib ∈ libraries_needed a → p ∈ library_positions a lib → covers p i →
       s' !! i = hex_encode (addr_of lib) !! (i - (2 + p_start p * 2))%nat) ∧
    ∀ i, (∀ lib p, lib ∈ libraries_needed a → p ∈ library_positions a lib → ¬ covers p i) → s' !! i = s !! i.
Proof.
  intros es Hr Hf Hd. destruct (edit_fits es s Hf Hd) as (s' & E1 & E2 & E3 & E4). exists s'. rewrite (link_edit _ _ addr_of) by done.
  assert (He : ∀ e, e ∈ es ↔ ∃ lib p, lib ∈ libraries_needed a ∧ p ∈ library_positions a lib ∧ e = (hex_encode (addr_of lib), p)).
  { intros e. unfold es, link_edits. rewrite list_elem_of_bind. setoid_rewrite list_elem_of_fmap. naive_solver. }
  split_and!; [done..| |].
  - intros lib p i Hl Hp Hc. apply (E4 (hex_encode (addr_of lib), p)); [|done]. apply He. eauto.
  - intros i Hn. apply E3. intros e (lib & p & Hl & Hp & ->)%He. by apply (Hn lib p).
Qed.

(** ** Example: [A] uses [B] and [C], and [B] uses [C] *)
#[local] Instance example_hardhat : Hardhat := {
  artifact x :=
    if decide (x.2 = "A"%string) then Ok (mkArtifact [] [("B.sol", [("B", [])]); ("C.sol", [("C", [])])]) else
    if decide (x.2 = "B"%string) then Ok (mkArtifact [] [("C.sol", [("C", [])])]) else
    if decide (x.2 = "C"%string) then Ok (mkArtifact [] []) else Err (ArtifactFailed x.2);
  hex_encode _ := []; hex_decode _ := Some [];
}.
Definition by_source : relation ContractSourceAndName := λ x y, String.leb x.1 y.1 = true.
#[local] Instance by_source_dec : RelDecision by_source := λ x y, decide (String.leb x.1 y.1 = true).
Definition example_contracts : gset ContractSourceAndName := {[("A.sol", "A"); ("B.sol", "B"); ("C.sol", "C")]}%string.
Lemma deployment_order_witness :
  dependencies by_source 10 [("A.sol", "A")]%string = Some (Ok [("C.sol", "C"); ("B.sol", "B"); ("A.sol", "A")]%string) ∧
  ∃ sorted, (∃ n, ∀ fuel, (n <= fuel)%nat → dependencies by_source fuel [("A.sol", "A")]%string = Some (Ok sorted)) ∧ NoDup sorted.
Proof.
  split; [vm_compute; reflexivity|].
  assert (Hn : ∀ d x, needs d x → d.2 = "C"%string ∨ (d.2 = "B"%string ∧ x.2 = "A"%string)).
  { intros d x (a & Ha & Hd). cbn in Ha. repeat case_decide; simplify_eq; cbn in Hd; rewrite ?elem_of_cons, elem_of_nil in Hd; naive_solver. }
  assert (Hc : ∀ x, x.2 = "C"%string → Acc needs x).
  { intros x Hx. constructor. intros d (a & Ha & Hd). cbn in Ha. repeat case_decide; simplify_eq; try congruence. cbn in Hd. by apply elem_of_nil in Hd. }
  assert (Hb : ∀ x, x.2 = "B"%string → Acc needs x).
  { intros x Hx. constructor. intros d [Hd|[_ Hd]]%Hn; [by apply Hc|congruence]. }
  destruct (deployment_order by_source [("A.sol", "A")]%string example_contracts) as (n & sorted & E1 & E2 & _).
  - intros r ->%list_elem_of_singleton. apply (bool_decide_unpack _). vm_compute. exact I.
  - intros x Hx. unfold example_contracts in Hx. rewrite !elem_of_union, !elem_of_singleton in Hx.
    destruct Hx as [[->| ->]| ->]; eexists; (split; [reflexivity|]); intros d Hd; apply (bool_decide_unpack _); cbn in Hd;
      rewrite ?elem_of_cons, elem_of_nil in Hd; repeat (destruct Hd as [->|Hd]; [vm_compute; exact I|]); done.
  - intros x. constructor. intros d [Hd|[Hd _]]%Hn; [by apply Hc|by apply Hb].
  - exists sorted. split; [by exists n|exact E2].
Defined.
