(* ===== verification/Genesis.v ===== *)
(** * Genesis
    ([fvm/genesis.rs], [fvm/state/genesis.rs], [actor_interface/src/{init,ipc,diamond}.rs],
    [vm/genesis/src/lib.rs], [vm/core/src/chainid.rs])

    From the genesis file the interpreter creates the built-in actors, the accounts, and the
    libraries and contracts of IPC.  The identifiers of accounts are handed out by the state
    of the init actor, those of multisigs and libraries by a counter that has to agree with it.

    The state of an actor is the data it stores, so the CIDs in the tree are left out, as are
    failures of the block store.  The bundles of actor code, the virtual machine that runs
    constructors, and the encoding of their arguments are parameters.  The counters of
    identifiers stay far below [2^64] and are not wrapped around. *)

From Stdlib Require Import Ascii String.
From stdpp Require Import base tactics numbers list gmap strings sorting.
From S2P Require Import Prelude IpcApi CetfActor Message Checkpoint Exec Actors Deploy.

Open Scope Z_scope.

(** ** Chain identifiers ([chainid.rs]) *)

Definition MAX_CHAIN_ID : Z := 4503599627370476.
Definition KNOWN_CHAIN_IDS : list (Z * string) :=
  [(0, ""); (314, "filecoin"); (3141, "hyperspace"); (31415, "wallaby"); (3141592, "butterflynet"); (314159, "calibnet"); (31415926, "devnet")]%string.
Definition known_id (name : string) : option Z := fst <$> (snd <$> list_find (λ e : Z * string, e.2 = name) KNOWN_CHAIN_IDS).
Definition is_digit (c : ascii) : bool := (48 <=? Z.of_N (N_of_ascii c)) && (Z.of_N (N_of_ascii c) <=? 57).
Fixpoint all_digits (s : string) : bool := match s with EmptyString => true | String c s => is_digit c && all_digits s end.
(** The expression [ROOT_RE]: [/r] and a number without leading zeros. *)
Definition root_re (name : string) : option string :=
  match name with
  | String a (String b rest) =>
      if Ascii.eqb a "/" && Ascii.eqb b "r" then
        match rest with
        | EmptyString => None
        | String c s => if bool_decide (rest = "0"%string) || (is_digit c && negb (Ascii.eqb c "0") && all_digits s) then Some rest else None
        end
      else None
  | _ => None
  end.
Definition just_root_id (name : string) : option Z := root_re name ≫= parse_u64.
Inductive ChainIDError := IllegalName (name : string) (id : Z).
(** [fnv] is the 64-bit hash of the crate [fnv]. *)
Definition from_str_hashed (fnv : string → Z) (name : string) : outcome ChainIDError Z :=
  match known_id name with
  | Some id => Ok id
  | None =>
      match just_root_id name with
      | Some id => Ok id
      | None =>
          let id := fnv name mod MAX_CHAIN_ID in
          if bool_decide (id ∈ KNOWN_CHAIN_IDS.*1) then Err (IllegalName name id) else Ok id
      end
  end.

(** ** The genesis file ([vm/genesis/src/lib.rs]) *)

Inductive ActorMeta (A : Type) :=
| MAccount (owner : A)
| MMultisig (signers : list A) (threshold vesting_duration vesting_start : Z).
Arguments MAccount {A} _.
Arguments MMultisig {A} _ _ _ _.
Record GenesisActor (A : Type) := mkGenesisActor { meta : ActorMeta A; balance : Z }.
Arguments mkGenesisActor {A} _ _.
Arguments meta {A} _.
Arguments balance {A} _.
Record GatewayParams (A : Type) := mkGatewayParams { gp_subnet_id : SubnetID A; bottom_up_check_period : Z; majority_percentage : Z; active_validators_limit : Z }.
Arguments mkGatewayParams {A} _ _ _ _.
Arguments gp_subnet_id {A} _.
Arguments bottom_up_check_period {A} _.
Arguments majority_percentage {A} _.
Arguments active_validators_limit {A} _.
(** Validators have their collateral as power; keys are serialized. *)
Record GenesisFile (A : Type) := mkGenesis {
  chain_name : string;
  g_timestamp : Z;
  g_network_version : Z;
  g_base_fee : Z;
  g_power_scale : Z;
  g_validators : list (Validator bytes);
  accounts : list (GenesisActor A);
  eam_permission_mode : PermissionModeParams A;
  ipc : option (GatewayParams A);
}.
Arguments mkGenesis {A} _ _ _ _ _ _ _ _ _.
Arguments chain_name {A} _.
Arguments g_timestamp {A} _.
Arguments g_network_version {A} _.
Arguments g_base_fee {A} _.
Arguments g_power_scale {A} _.
Arguments g_validators {A} _.
Arguments accounts {A} _.
Arguments eam_permission_mode {A} _.
Arguments ipc {A} _.
Definition circ_supply {A} (g : GenesisFile A) : Z := foldl (λ s a, s + balance a) 0 (accounts g).
Record GenesisOutput := mkOutput {
  out_chain_id : Z; out_timestamp : Z; out_network_version : Z; out_base_fee : Z; out_power_scale : Z;
  out_circ_supply : Z; out_validators : list (Validator bytes);
}.

(** ** Actors and their states *)

Inductive GState (A Cid W : Type) `{Countable A} :=
| SystemState (builtin_actors : list (string * Cid))
| InitState (address_map : gmap A Z) (next_id : Z) (network_name : string)
| CronState
| EmptyState
| AccountState (address : A)
| ChainMetadataState (st : ChainState)
| CetfActorState (st : State A)
| EamActorState (st : PermissionMode A)
| MultisigState (signers : list Z) (threshold start duration initial_balance : Z)
| EvmState (w : W).
Arguments SystemState {A Cid W _ _} _.
Arguments InitState {A Cid W _ _} _ _ _.
Arguments CronState {A Cid W _ _}.
Arguments EmptyState {A Cid W _ _}.
Arguments AccountState {A Cid W _ _} _.
Arguments ChainMetadataState {A Cid W _ _} _.
Arguments CetfActorState {A Cid W _ _} _.
Arguments EamActorState {A Cid W _ _} _.
Arguments MultisigState {A Cid W _ _} _ _ _ _ _.
Arguments EvmState {A Cid W _ _} _.
Record GActor (A Cid W : Type) `{Countable A} := mkGActor {
  g_code : Cid; g_state : GState A Cid W; g_sequence : Z; g_balance : Z; g_delegated : option A;
}.
Arguments mkGActor {A Cid W _ _} _ _ _ _ _.
Arguments g_code {A Cid W _ _} _.
Arguments g_state {A Cid W _ _} _.
Arguments g_sequence {A Cid W _ _} _.
Arguments g_balance {A Cid W _ _} _.
Arguments g_delegated {A Cid W _ _} _.
Record FacetCut := mkFacetCut { facet_address : bytes; facet_selectors : list bytes }.
Record GatewayValidator := mkGwValidator { gv_addr : bytes; gv_weight : Z; gv_metadata : bytes }.
(** The arguments of the two constructors. *)
Inductive CtorArgs :=
| GatewayCtor (facets : list FacetCut) (period limit majority root : Z) (route : list bytes) (validators : list GatewayValidator)
| RegistryCtor (facets : list FacetCut) (gateway : bytes) (subnet_facets : list FacetCut).

Section state.
Context {A Cid W : Type} `{Countable A}.
Notation Tree := (gmap Z (GActor A Cid W)).
(** [GEnv] has the bundles and the virtual machine.  [execute_constructor] runs a message of
    the init actor on the tree and answers with its exit code. *)
Class GEnv := {
  fnv_hash : string → Z;
  keccak_256 : bytes → bytes;
  code_by_id : Z → option Cid;
  code_by_name : string → option Cid;
  builtin_manifest : list (string * Cid);
  exec_state_new : Tree → GenesisOutput → outcome string unit;
  evm_ctor_params : bytes → bytes → outcome string bytes;
  encode_ctor : string → bytes → CtorArgs → option bytes;
  execute_constructor : Tree → Message A → outcome string (Tree * bool);
  contract_functions : string → list (string * bytes);
  gas_limit_of_block : Z;
}.
End state.
Arguments GEnv A Cid W {_ _}.

(** ** Contracts of IPC ([ipc.rs], [diamond.rs]) *)

Record EthContract := mkEthContract { contract_id : Z; contract_facets : list string }.
Definition GATEWAY : string := "GatewayDiamond".
Definition REGISTRY : string := "SubnetRegistryDiamond".
Definition SUBNETREGISTRY_ACTOR_ID : Z := 65.
Definition IPC_CONTRACTS : list (string * EthContract) :=
  [(GATEWAY, mkEthContract 64
      ["GatewayGetterFacet"; "GatewayManagerFacet"; "TopDownFinalityFacet"; "CheckpointingFacet"; "GatewayMessengerFacet"; "XnetMessagingFacet";
       "DiamondLoupeFacet"; "DiamondCutFacet"; "OwnershipFacet"]);
   (REGISTRY, mkEthContract SUBNETREGISTRY_ACTOR_ID
      ["SubnetActorGetterFacet"; "SubnetActorManagerFacet"; "SubnetActorRewardFacet"; "SubnetActorCheckpointingFacet"; "SubnetActorPauseFacet";
       "DiamondLoupeFacet"; "DiamondCutFacet"; "OwnershipFacet"; "RegisterSubnetFacet"; "SubnetGetterFacet"])]%string.
Definition contract_src (name : string) : string := (name ++ ".sol")%string.

(** ** Building the state ([state/genesis.rs]) *)

Definition FIRST_NON_SINGLETON_ADDR : Z := 100.
Definition METHOD_CONSTRUCTOR : Z := 1.

Section genesis.
Context {A Cid W : Type} `{AddressPayload A} `{!Countable A} `{!GEnv A Cid W} `{!Hardhat}
  (le : relation ContractSourceAndName) `{!RelDecision le}.
Notation Tree := (gmap Z (GActor A Cid W)).
(** The tree, and whether the execution state exists ([Stage]). *)
Record GenesisState := mkGenesisState { tree : Tree; exec_stage : bool }.
Implicit Types (gs : GenesisState) (st : GState A Cid W).

Definition set_actor (id : Z) a gs : GenesisState := mkGenesisState (<[id := a]> (tree gs)) (exec_stage gs).
Definition create_actor_internal (code : Cid) (id : Z) st (bal : Z) (delegated : option A) gs : GenesisState :=
  set_actor id (mkGActor code st 0 bal delegated) gs.
Definition create_builtin_actor (code_id id : Z) st (bal : Z) (delegated : option A) gs : outcome string GenesisState :=
  code ← ok_or "can't find the code in the manifest"%string (code_by_id code_id);
  Ok (create_actor_internal code id st bal delegated gs).
Definition create_custom_actor (name : string) (id : Z) st (bal : Z) (delegated : option A) gs : outcome string GenesisState :=
  code ← ok_or "can't find actor in the custom actor manifest"%string (code_by_name name);
  Ok (create_actor_internal code id st bal delegated gs).
Definition update_system_actor_manifest (built_in custom : string) gs : outcome string (GenesisState * Cid) :=
  code ← ok_or "replacement actor not found"%string (code_by_name custom);
  sys ← ok_or "actor state not found, is it deployed?"%string (tree gs !! SYSTEM_ACTOR_ID);
  match g_state sys with
  | SystemState actors =>
      let actors := (λ e : string * Cid, if decide (e.1 = built_in) then (e.1, code) else e) <$> actors in
      Ok (set_actor SYSTEM_ACTOR_ID (mkGActor (g_code sys) (SystemState actors) (g_sequence sys) (g_balance sys) (g_delegated sys)) gs, code)
  | _ => Err "failed to get actor state by state cid"%string
  end.
Definition replace_builtin_actor (built_in : string) (id : Z) (custom : string) st (bal : Z) (delegated : option A) gs : outcome string GenesisState :=
  r ← update_system_actor_manifest built_in custom gs;
  Ok (create_actor_internal r.2 id st bal delegated r.1).

Definition create_account_actor (owner : A) (bal : Z) (ids : gmap A Z) gs : outcome string GenesisState :=
  id ← ok_or "can't find ID for owner"%string (ids !! owner);
  match payload owner with
  | PayloadSecp256k1 _ => create_builtin_actor 4 id (AccountState owner) bal None gs
  | PayloadDelegated ns _ =>
      if ns =? EAM_ACTOR_ID then create_builtin_actor 16 id EmptyState bal (Some owner) gs else Err "unexpected actor owner"%string
  | _ => Err "unexpected actor owner"%string
  end.
(** Make sure every signer has their own account. *)
Fixpoint create_signers (signers : list A) (ids : gmap A Z) gs : outcome string (GenesisState * list Z) :=
  match signers with
  | [] => Ok (gs, [])
  | s :: signers =>
      id ← ok_or "can't find ID for signer"%string (ids !! s);
      gs ← match tree gs !! id with Some _ => Ok gs | None => create_account_actor s 0 ids gs end;
      r ← create_signers signers ids gs;
      Ok (r.1, id :: r.2)
  end.
(** Casts of [u64] to a [ChainEpoch] wrap around. *)
Definition as_epoch (x : Z) : Z := if x <? 2 ^ 63 then x else x - 2 ^ 64.
Definition create_multisig_actor (signers : list A) (threshold duration start bal : Z) (ids : gmap A Z) (next_id : Z) gs : outcome string GenesisState :=
  r ← create_signers signers ids gs;
  create_builtin_actor 9 next_id (MultisigState r.2 threshold (as_epoch start) (as_epoch duration) bal) bal None r.1.

Definition init_exec_state (out : GenesisOutput) gs : outcome string GenesisState :=
  if exec_stage gs then Err "execution engine already initialized"%string else
  _ ← exec_state_new (tree gs) out;
  Ok (mkGenesisState (tree gs) true).

(** The delegated address of a built-in contract ([init.rs]). *)
Definition builtin_actor_eth_addr (id : Z) : bytes := take 20 (drop 12 (keccak_256 (from_id id))).
Definition create_evm_actor (id : Z) (initcode : bytes) gs : outcome string (GenesisState * bytes) :=
  params ← evm_ctor_params (from_id SYSTEM_ACTOR_ID) initcode;
  f4 ← eth_to_address (builtin_actor_eth_addr id);
  let msg := mkMessage 0 (addr_new_id 1) (addr_new_id id) 0 0 METHOD_CONSTRUCTOR params gas_limit_of_block 0 0 in
  gs ← create_builtin_actor 14 id EmptyState 0 (Some f4) gs;
  if negb (exec_stage gs) then Err "execution engine not initialized"%string else
  r ← execute_constructor (tree gs) msg;
  if negb r.2 then Err "failed to deploy EVM actor"%string else
  match payload f4 with
  | PayloadDelegated _ sub => if decide (length sub = 20%nat) then Ok (mkGenesisState r.1 true, sub) else Panic
  | _ => Panic
  end.
Definition create_evm_actor_with_cons (id : Z) (name : string) (code : bytes) (args : CtorArgs) gs : outcome string (GenesisState * bytes) :=
  initcode ← ok_or "failed to encode constructor input"%string (encode_ctor name code args);
  create_evm_actor id initcode gs.

(** ** The state of the init actor ([init.rs]) *)

Definition account_addresses (l : list (GenesisActor A)) : list A :=
  l ≫= λ a, match meta a with MAccount o => [o] | MMultisig signers _ _ _ => signers end.
Fixpoint allocate (addrs : list A) (ids amap : gmap A Z) (next : Z) : gmap A Z * gmap A Z * Z :=
  match addrs with
  | [] => (ids, amap, next)
  | a :: addrs =>
      match ids !! a with
      | Some _ => allocate addrs ids amap next
      | None => allocate addrs (<[a := next]> ids) (<[a := next]> amap) (next + 1)
      end
  end.
Definition is_multisig (a : GenesisActor A) : bool := match meta a with MMultisig _ _ _ _ => true | _ => false end.
Fixpoint set_builtins (ids : list Z) (amap : gmap A Z) : outcome string (gmap A Z) :=
  match ids with
  | [] => Ok amap
  | id :: ids => a ← eth_to_address (builtin_actor_eth_addr id); set_builtins ids (<[a := id]> amap)
  end.
Definition libraries_from (next : Z) (count : nat) : list Z := seqZ next (Z.of_nat count).
Definition init_state_new (name : string) (accs : list (GenesisActor A)) (builtin : list Z) (library_count : nat) : outcome string (GState A Cid W * gmap A Z) :=
  let '(ids, amap, next) := allocate (account_addresses accs) ∅ ∅ FIRST_NON_SINGLETON_ADDR in
  let next := next + Z.of_nat (length (filter (λ a, is_multisig a = true) accs)) in
  amap ← set_builtins builtin amap;
  amap ← set_builtins (libraries_from next library_count) amap;
  system ← eth_to_address (replicate 20 0);
  Ok (InitState (<[system := SYSTEM_ACTOR_ID]> amap) (next + Z.of_nat library_count) name, ids).

(** ** Deploying contracts ([genesis.rs]) *)

Definition deploy_library (lib : ContractSourceAndName) (x : GenesisState * Z * gmap string bytes) : outcome string (GenesisState * Z * gmap string bytes) :=
  let '(gs, next_id, lib_addrs) := x in
  code ← map_err (λ _, "failed to load library bytecode"%string) (bytecode lib lib_addrs);
  r ← create_evm_actor next_id code gs;
  Ok (r.1, next_id + 1, <[fqn lib.1 lib.2 := from_id next_id]> lib_addrs).
Fixpoint deploy_libraries (libs : list ContractSourceAndName) (x : GenesisState * Z * gmap string bytes) : outcome string (GenesisState * Z * gmap string bytes) :=
  match libs with [] => Ok x | lib :: libs => x ← deploy_library lib x; deploy_libraries libs x end.
Definition top_contract (top : list (string * EthContract)) (name : string) : outcome string EthContract :=
  ok_or "unknown top contract name"%string (assoc_get top name).
Definition deploy_contract (top : list (string * EthContract)) (lib_addrs : gmap string bytes) (name : string) (args : CtorArgs) gs : outcome string (GenesisState * bytes) :=
  c ← top_contract top name;
  code ← map_err (λ _, "failed to load bytecode"%string) (bytecode (contract_src name, name) lib_addrs);
  create_evm_actor_with_cons (contract_id c) name code args gs.
Fixpoint facet_cuts (lib_addrs : gmap string bytes) (names : list string) : outcome string (list FacetCut) :=
  match names with
  | [] => Ok []
  | n :: names =>
      addr ← ok_or "facet has not been deployed"%string (lib_addrs !! fqn (contract_src n) n);
      rest ← facet_cuts lib_addrs names;
      Ok (mkFacetCut addr (snd <$> filter (λ f : string * bytes, f.1 ≠ "init(bytes)"%string) (contract_functions n)) :: rest)
  end.
Definition facets (top : list (string * EthContract)) (lib_addrs : gmap string bytes) (name : string) : outcome string (list FacetCut) :=
  c ← top_contract top name; facet_cuts lib_addrs (contract_facets c).

(** The arguments of the gateway ([ipc.rs]).  An amount that does not fit panics. *)
Definition eth_address_new_secp256k1 (pk : bytes) : outcome string bytes :=
  if decide (length pk = SECP_PUB_LEN) then Ok (drop 12 (keccak_256 (drop 1 pk))) else Err "invalid secp length"%string.
Definition tokens_to_u256 (v : Z) : outcome string Z := if Z.abs v <=? MAX_U256 then Ok (Z.abs v) else Panic.
Fixpoint gateway_validators (l : list (Validator bytes)) : outcome string (list GatewayValidator) :=
  match l with
  | [] => Ok []
  | v :: l =>
      addr ← eth_address_new_secp256k1 (public_key v);
      weight ← tokens_to_u256 (power v);
      rest ← gateway_validators l;
      Ok (mkGwValidator addr weight (public_key v) :: rest)
  end.
Fixpoint route_to_eth (l : list A) : outcome string (list bytes) :=
  match l with
  | [] => Ok []
  | a :: l =>
      b ← match payload a with
          | PayloadID id => Ok (from_id id)
          | PayloadDelegated ns sub => if (ns =? EAM_ACTOR_ID) && bool_decide (length sub = 20%nat) then Ok sub else Err "invalid payload"%string
          | _ => Err "invalid payload"%string
          end;
      rest ← route_to_eth l;
      Ok (b :: rest)
  end.
Definition subnet_id_to_eth (s : SubnetID A) : outcome string (Z * list bytes) :=
  route ← route_to_eth (children s); Ok (root s, route).
Definition gateway_ctor (p : GatewayParams A) (vs : list (Validator bytes)) : outcome string (list FacetCut → CtorArgs) :=
  vs ← gateway_validators vs;
  r ← subnet_id_to_eth (gp_subnet_id p);
  Ok (λ cuts, GatewayCtor cuts (bottom_up_check_period p) (active_validators_limit p) (majority_percentage p) r.1 r.2 vs).
(** The first eight facets of the registry are those of the subnet actor; [remove] panics on
    an empty list. *)
Definition registry_ctor (gateway : bytes) (cuts : list FacetCut) : outcome string CtorArgs :=
  if (length cuts <? 8)%nat then Panic else Ok (RegistryCtor (drop 8 cuts) gateway (take 8 cuts)).

(** ** The interpreter *)

Definition eth_contracts (g : GenesisFile A) : list (string * EthContract) := match ipc g with Some _ => IPC_CONTRACTS | None => [] end.
Definition eth_root_contracts (top : list (string * EthContract)) : list string := (fst <$> top) ++ (top ≫= λ c, contract_facets c.2).
(** The built-in actors, in the order of their creation. *)
Definition create_builtins (g : GenesisFile A) (init_st : GState A Cid W) gs : outcome string GenesisState :=
  gs ← create_builtin_actor 2 1 init_st 0 None gs;
  gs ← create_builtin_actor 3 3 CronState 0 None gs;
  gs ← create_builtin_actor 15 EAM_ACTOR_ID EmptyState 0 None gs;
  gs ← create_builtin_actor 4 99 (AccountState (addr_new_id 99)) 0 None gs;
  gs ← create_builtin_actor 4 2 (AccountState (addr_new_id 2)) 0 None gs;
  gs ← create_custom_actor "chainmetadata" 48 (ChainMetadataState (chain_state_new DEFAULT_LOOKBACK_LEN)) 0 None gs;
  gs ← create_custom_actor "cetf" 49 (CetfActorState new) 0 None gs;
  replace_builtin_actor "eam" EAM_ACTOR_ID "eam" (EamActorState (eam_state_new (eam_permission_mode g))) 0 None gs.
Fixpoint create_accounts (accs : list (GenesisActor A)) (ids : gmap A Z) (x : GenesisState * Z) : outcome string (GenesisState * Z) :=
  match accs with
  | [] => Ok x
  | a :: accs =>
      x ← match meta a with
          | MAccount owner => gs ← create_account_actor owner (balance a) ids x.1; Ok (gs, x.2)
          | MMultisig signers threshold duration start =>
              gs ← create_multisig_actor signers threshold duration start (balance a) ids x.2 x.1; Ok (gs, x.2 + 1)
          end;
      create_accounts accs ids x
  end.
Definition deploy_ipc (g : GenesisFile A) (p : GatewayParams A) (top : list (string * EthContract)) (lib_addrs : gmap string bytes) gs : outcome string GenesisState :=
  params ← gateway_ctor p (g_validators g);
  cuts ← facets top lib_addrs GATEWAY;
  r ← deploy_contract top lib_addrs GATEWAY (params cuts) gs;
  cuts ← facets top lib_addrs REGISTRY;
  args ← registry_ctor r.2 cuts;
  r ← deploy_contract top lib_addrs REGISTRY args r.1;
  Ok r.1.
Definition genesis_output (chain_id : Z) (g : GenesisFile A) : GenesisOutput :=
  mkOutput chain_id (g_timestamp g) (g_network_version g) (g_base_fee g) (g_power_scale g) (circ_supply g)
    (map_power (λ c, into_power c (g_power_scale g)) <$> g_validators g).
(** [init], after the chain id and the dependencies [deps] of the contracts are known. *)
Definition genesis_with (chain_id : Z) (g : GenesisFile A) (deps : list ContractSourceAndName) gs : outcome string (GenesisState * GenesisOutput) :=
  let out := genesis_output chain_id g in
  let top := eth_contracts g in
  let libs := filter (λ d, assoc_get top d.2 = None) deps in
  gs ← create_builtin_actor 1 SYSTEM_ACTOR_ID (SystemState builtin_manifest) 0 None gs;
  init ← init_state_new (chain_name g) (accounts g) (merge_sort Z.le (contract_id ∘ snd <$> top)) (length libs);
  gs ← create_builtins g init.1 gs;
  x ← create_accounts (accounts g) init.2 (gs, FIRST_NON_SINGLETON_ADDR + Z.of_nat (size init.2));
  gs ← init_exec_state out x.1;
  x ← deploy_libraries libs (gs, x.2, ∅);
  let '(gs, _, lib_addrs) := x in
  gs ← match ipc g with Some p => deploy_ipc g p top lib_addrs gs | None => Ok gs end;
  Ok (gs, out).
Definition empty_genesis_state : GenesisState := mkGenesisState ∅ false.
(** [None] if the traversal of the dependencies runs out of fuel. *)
Definition genesis_init (fuel : nat) (g : GenesisFile A) : option (outcome string (GenesisState * GenesisOutput)) :=
  match from_str_hashed fnv_hash (chain_name g) with
  | Ok chain_id =>
      deps ← dependencies le fuel ((λ n, (contract_src n, n)) <$> eth_root_contracts (eth_contracts g));
      Some (deps ← map_err (λ _, "failed to collect EVM contract dependencies"%string) deps; genesis_with chain_id g deps empty_genesis_state)
  | _ => Some (Err "illegal name"%string)
  end.
End genesis.

(** ** What genesis leaves behind *)

Section consistent.
Context {A Cid W : Type} `{AddressPayload A} `{!Countable A} `{!GEnv A Cid W} `{!Hardhat}.
Notation Tree := (gmap Z (GActor A Cid W)).
Implicit Types (t : Tree) (ids amap : gmap A Z) (a : GActor A Cid W).

(** The constructor of a contract changes no other actor, and moves no funds. *)
Class GEnvLaws : Prop := {
  constructor_local t id m t' ok : m_to m = addr_new_id id → execute_constructor t m = Ok (t', ok) →
    (∀ i, i ≠ id → t' !! i = t !! i) ∧
    ∀ a, t !! id = Some a → ∃ a', t' !! id = Some a' ∧ g_balance a' = g_balance a ∧ g_delegated a' = g_delegated a;
}.

Definition total t : Z := Zsum (λ e : Z * GActor A Cid W, g_balance e.2) (map_to_list t).
Lemma total_insert id a t : total (<[id := a]> t) = total t - default 0 (g_balance <$> t !! id) + g_balance a.
Proof.
  unfold total. destruct (t !! id) as [a0|] eqn:Hid; cbn.
  - rewrite <- (insert_delete_id t id a0 Hid) at 2. rewrite <- insert_delete_eq, !map_to_list_insert by apply lookup_delete_eq. unfold Zsum. cbn. lia.
  - rewrite map_to_list_insert by done. unfold Zsum. cbn. lia.
Qed.

(** What holds of the tree while genesis is built.  [init_a] is the init actor; [spent] are the
    owners whose accounts were funded. *)
Record ginv ids amap (init_a : GActor A Cid W) (next : Z) (spent : list A) (sum : Z) t : Prop := {
  gi_bound id a : t !! id = Some a → id < next;
  gi_total : total t = sum;
  gi_low id a : t !! id = Some a → id < 100 → g_balance a = 0;
  gi_unspent addr id a : ids !! addr = Some id → t !! id = Some a → addr ∉ spent → g_balance a = 0;
  gi_delegated id a d : t !! id = Some a → g_delegated a = Some d → amap !! d = Some id;
  gi_init : t !! 1 = Some init_a;
}.
Lemma ginv_set ids amap init_a next next' spent spent' sum t id a :
  ginv ids amap init_a next spent sum t → id ≠ 1 → next <= next' → id < next' → (∀ a0, t !! id = Some a0 → g_balance a0 = 0) →
  (id < 100 → g_balance a = 0) → (∀ x, x ∈ spent → x ∈ spent') → (∀ addr, ids !! addr = Some id → addr ∉ spent' → g_balance a = 0) →
  (∀ d, g_delegated a = Some d → amap !! d = Some id) →
  ginv ids amap init_a next' spent' (sum + g_balance a) (<[id := a]> t).
Proof.
  intros [E1 E2 E3 E4 E5 E6] Hne Hn Hid Hold Hlow Hsp Hun Hdel. split.
  - intros i x [[<- <-]|[_ Hx%E1]]%lookup_insert_Some; lia.
  - rewrite total_insert, E2. destruct (t !! id) as [a0|] eqn:Ha; cbn; [rewrite (Hold _ eq_refl)|]; lia.
  - intros i x [[<- <-]|[_ Hx]]%lookup_insert_Some; [done|by apply E3].
  - intros addr i x Hi [[<- <-]|[_ Hx]]%lookup_insert_Some Hs; [by apply (Hun addr)|]. apply (E4 addr i x Hi Hx). intros ?. by apply Hs, Hsp.
  - intros i x d [[<- <-]|[_ Hx]]%lookup_insert_Some; [by apply Hdel|by apply E5].
  - by rewrite lookup_insert_ne.
Qed.

Lemma ginv_mono ids amap ia next next' spent sum t : next <= next' → ginv ids amap ia next spent sum t → ginv ids amap ia next' spent sum t.
Proof. intros Hn [E1 E2 E3 E4 E5 E6]. split; try done. intros id a ?%E1. lia. Qed.
Lemma supply_sum (g : GenesisFile A) : 0 + Zsum balance (accounts g) = circ_supply g.
Proof.
  unfold circ_supply. cut (∀ s, s + Zsum balance (accounts g) = foldl (λ s x, s + balance x) s (accounts g)); [done|].
  induction (accounts g) as [|x l IH]; intros s; cbn [foldl]; [unfold Zsum; cbn; lia|]. rewrite <- IH. change (Zsum balance (x :: l)) with (balance x + Zsum balance l). lia.
Qed.

(** ** Identifiers of accounts *)

Record allocated ids amap (next : Z) : Prop := {
  al_range addr id : ids !! addr = Some id → 100 <= id < next;
  al_inj x y id : ids !! x = Some id → ids !! y = Some id → x = y;
  al_size : next = 100 + Z.of_nat (size ids);
  al_amap : amap = ids;
}.
Lemma allocate_spec addrs ids amap next ids' amap' next' : allocate addrs ids amap next = (ids', amap', next') → allocated ids amap next →
  allocated ids' amap' next' ∧ next' <= next + Z.of_nat (length addrs) ∧ ∀ x, is_Some (ids' !! x) ↔ is_Some (ids !! x) ∨ x ∈ addrs.
Proof.
  revert ids amap next. induction addrs as [|x addrs IH]; intros ids amap next; cbn [allocate].
  { intros [= <- <- <-]. intros Ha. split; [done|]. split; [cbn; lia|]. intros x. rewrite elem_of_nil. tauto. }
  destruct (ids !! x) as [i|] eqn:Hx; intros Hr Ha.
  - destruct (IH _ _ _ Hr Ha) as (? & ? & Hd). split; [done|]. split; [cbn; lia|]. intros y. rewrite Hd, elem_of_cons. split; [tauto|]. intros [?|[->|?]]; eauto.
  - destruct (IH _ _ _ Hr) as (? & ? & Hd).
    + destruct Ha as [E1 E2 E3 ->]. split.
      * intros y i [[<- <-]|[_ Hy%E1]]%lookup_insert_Some; lia.
      * intros y1 y2 i [[<- <-]|[N1 Y1]]%lookup_insert_Some [[<- ?]|[N2 Y2]]%lookup_insert_Some; try done; subst.
        -- apply E1 in Y2. lia.
        -- apply E1 in Y1. lia.
        -- by eapply E2.
      * rewrite map_size_insert_None by done. lia.
      * done.
    + split; [done|]. split; [cbn; lia|]. intros y. rewrite Hd, elem_of_cons. destruct (decide (y = x)) as [->|]; [rewrite lookup_insert_eq; intuition eauto|].
      rewrite lookup_insert_ne by done. naive_solver.
Qed.
Definition builtin_at (id : Z) (x : A) : Prop := eth_to_address (E := string) (builtin_actor_eth_addr id) = Ok x.
Definition distinct_builtins : Prop := ∀ i j x, is_u64 i → is_u64 j → builtin_at i x → builtin_at j x → i = j.
Lemma set_builtins_spec l amap amap' : set_builtins l amap = Ok amap' → distinct_builtins → (∀ i, i ∈ l → is_u64 i) →
  (∀ id x, id ∈ l → builtin_at id x → amap' !! x = Some id) ∧ (∀ x, (∀ id, id ∈ l → ¬ builtin_at id x) → amap' !! x = amap !! x).
Proof.
  revert amap. induction l as [|id l IH]; intros amap Hs Hinj Hu; cbn [set_builtins] in Hs; [simplify_eq; split; [by intros ?? ?%elem_of_nil|done]|].
  apply bind_Ok in Hs as (x & Hx & Hs). destruct (IH _ Hs Hinj) as [E1 E2]; [intros i Hi; apply Hu; by right|]. split.
  - intros i y Hi Hy. destruct (decide (i ∈ l)) as [?|Hn]; [by apply E1|]. apply elem_of_cons in Hi as [->|?]; [|done].
    assert (y = x) as -> by (unfold builtin_at in Hy; rewrite Hx in Hy; by simplify_eq).
    rewrite E2; [apply lookup_insert_eq|]. intros j Hj Hjx. rewrite (Hinj j id x) in Hj; [done|apply Hu; by right|apply Hu; by left|done..].
  - intros y Hy. rewrite E2 by (intros j ?; apply Hy; by right). rewrite lookup_insert_ne; [done|]. intros ->. by apply (Hy id); [left|].
Qed.

(** ** The stages of genesis *)

Lemma create_builtin_Ok c id st bal del (gs gs' : GenesisState) : create_builtin_actor c id st bal del gs = Ok gs' →
  ∃ code, gs' = mkGenesisState (<[id := mkGActor code st 0 bal del]> (tree gs)) (exec_stage gs).
Proof. unfold create_builtin_actor. intros (code & _ & [= <-])%bind_Ok. by exists code. Qed.
Lemma create_custom_Ok n id st bal del (gs gs' : GenesisState) : create_custom_actor n id st bal del gs = Ok gs' →
  ∃ code, gs' = mkGenesisState (<[id := mkGActor code st 0 bal del]> (tree gs)) (exec_stage gs).
Proof. unfold create_custom_actor. intros (code & _ & [= <-])%bind_Ok. by exists code. Qed.

(** An actor without funds and without a delegated address can replace another one. *)
Lemma ginv_zero ids amap ia next spent sum t id a : ginv ids amap ia next spent sum t → id ≠ 1 → id < next → id < 100 → g_balance a = 0 → g_delegated a = None →
  ginv ids amap ia next spent sum (<[id := a]> t).
Proof.
  intros Hi H1' H2' H3' Hb Hd. replace sum with (sum + g_balance a) by lia. apply (ginv_set _ _ _ next _ spent); try done; [by intros a0 ?%(gi_low _ _ _ _ _ _ _ Hi)|].
  intros d. by rewrite Hd.
Qed.
Lemma create_builtins_inv g ids amap init_st sys (gs gs' : GenesisState) :
  tree gs = {[0 := sys]} → g_balance sys = 0 → g_delegated sys = None → create_builtins g init_st gs = Ok gs' →
  (∀ addr id, ids !! addr = Some id → 100 <= id) →
  ∃ code, ginv ids amap (mkGActor code init_st 0 0 None) 100 [] 0 (tree gs') ∧ exec_stage gs' = exec_stage gs.
Proof.
  intros Ht Hb Hd Hc Hids. unfold create_builtins in Hc.
  apply bind_Ok in Hc as (g1 & (code & ->)%create_builtin_Ok & Hc). apply bind_Ok in Hc as (g2 & (? & ->)%create_builtin_Ok & Hc).
  apply bind_Ok in Hc as (g3 & (? & ->)%create_builtin_Ok & Hc). apply bind_Ok in Hc as (g4 & (? & ->)%create_builtin_Ok & Hc).
  apply bind_Ok in Hc as (g5 & (? & ->)%create_builtin_Ok & Hc). apply bind_Ok in Hc as (g6 & (? & ->)%create_custom_Ok & Hc).
  apply bind_Ok in Hc as (g7 & (? & ->)%create_custom_Ok & Hc). unfold replace_builtin_actor in Hc. apply bind_Ok in Hc as ([g8 c8] & Hu & [= <-]).
  exists code. unfold update_system_actor_manifest in Hu. apply bind_Ok in Hu as (c & _ & Hu). apply bind_Ok in Hu as (s & Hs & Hu).
  cbn [tree exec_stage] in *. unfold SYSTEM_ACTOR_ID in *. rewrite Ht in *. cbn in Hs. rewrite !lookup_insert_ne, lookup_singleton_eq in Hs by done. simplify_eq/=.
  destruct (g_state s); simplify_eq/=. split; [|done]. unfold SYSTEM_ACTOR_ID, EAM_ACTOR_ID. rewrite ?Ht.
  repeat (apply ginv_zero; [|done..]). split.
  - intros i y [[<- <-]|[_ Hx]]%lookup_insert_Some; [lia|]. apply lookup_singleton_Some in Hx as [<- _]. lia.
  - rewrite total_insert. rewrite lookup_singleton_ne by done. cbn. unfold total. rewrite map_to_list_singleton. unfold Zsum. cbn. lia.
  - intros i y [[<- <-]|[_ Hx]]%lookup_insert_Some _; [done|]. by apply lookup_singleton_Some in Hx as [<- <-].
  - intros addr i y Hi%Hids [[<- <-]|[_ Hx]]%lookup_insert_Some; [done|]. apply lookup_singleton_Some in Hx as [<- _]. lia.
  - intros i y d [[<- <-]|[_ Hx]]%lookup_insert_Some; [done|]. apply lookup_singleton_Some in Hx as [<- <-]. by rewrite Hd.
  - apply lookup_insert_eq.
Qed.

Section accounts_stage.
Context (ids amap : gmap A Z) (ia : GActor A Cid W) (n0 : Z).
Context (Hal : allocated ids ids n0) (Ham : ∀ u id, ids !! u = Some id → amap !! u = Some id).

Lemma create_account_inv owner bal next spent spent' sum (gs gs' : GenesisState) :
  create_account_actor owner bal ids gs = Ok gs' → ginv ids amap ia next spent sum (tree gs) → n0 <= next →
  (∀ x, x ∈ spent → x ∈ spent') → (bal = 0 ∨ owner ∈ spent') → (∀ id a0, ids !! owner = Some id → tree gs !! id = Some a0 → g_balance a0 = 0) →
  ginv ids amap ia next spent' (sum + bal) (tree gs') ∧ exec_stage gs' = exec_stage gs.
Proof.
  unfold create_account_actor. destruct (ids !! owner) as [id|] eqn:Hid; [|done]. cbn [ok_or mbind outcome_bind]. intros Hc Hi Hn Hsp Hbal Hold.
  destruct (al_range _ _ _ Hal _ _ Hid) as [Hlow Hup].
  assert (Hset : ∀ code st del, (∀ d, del = Some d → d = owner) → ginv ids amap ia next spent' (sum + bal) (<[id := mkGActor code st 0 bal del]> (tree gs))).
  { intros code st del Hdel. apply (ginv_set _ _ _ next _ spent _ _ _ id (mkGActor code st 0 bal del) Hi); cbn; try lia; [by intros a0 ?%(Hold id)|done| |].
    - intros x Hx Hs. destruct Hbal as [?|Ho]; [done|]. by rewrite (al_inj _ _ _ Hal _ _ _ Hx Hid) in Hs.
    - intros d ->%Hdel. by apply Ham. }
  destruct (payload owner) as [| | |ns sub|]; try done.
  - apply create_builtin_Ok in Hc as (code & ->). split; [|done]. by apply Hset.
  - destruct (ns =? EAM_ACTOR_ID); [|done]. apply create_builtin_Ok in Hc as (code & ->). split; [|done]. apply Hset. congruence.
Qed.
Lemma create_signers_inv signers next spent sum (gs gs' : GenesisState) l :
  create_signers signers ids gs = Ok (gs', l) → ginv ids amap ia next spent sum (tree gs) → n0 <= next →
  ginv ids amap ia next spent sum (tree gs') ∧ exec_stage gs' = exec_stage gs.
Proof.
  revert gs l. induction signers as [|x signers IH]; intros gs l; cbn [create_signers]; [by intros [= <- <-]|].
  destruct (ids !! x) as [id|] eqn:Hid; [|done]. cbn [ok_or mbind outcome_bind]. intros (g1 & H1' & Hr)%bind_Ok Hi Hn.
  apply bind_Ok in Hr as ([g2 l2] & Hr & [= <- <-]).
  assert (Hg : ginv ids amap ia next spent sum (tree g1) ∧ exec_stage g1 = exec_stage gs).
  { destruct (tree gs !! id) as [a0|] eqn:Ha; [by simplify_eq|]. replace sum with (sum + 0) by lia.
    apply (create_account_inv x 0 next spent spent sum gs g1 H1' Hi Hn); [done|by left|]. intros i a1 Hx Hi1. rewrite Hid in Hx. simplify_eq. }
  destruct Hg as [Hg He]. destruct (IH g1 l2 Hr Hg Hn) as [? ?]. split; [done|congruence].
Qed.
Definition owners (accs : list (GenesisActor A)) : list A := omap (λ x, match meta x with MAccount o => Some o | _ => None end) accs.
Definition multisigs (accs : list (GenesisActor A)) : nat := length (filter (λ x, is_multisig x = true) accs).
Lemma create_accounts_inv accs next next' spent sum (gs gs' : GenesisState) :
  create_accounts accs ids (gs, next) = Ok (gs', next') → ginv ids amap ia next spent sum (tree gs) → n0 <= next →
  NoDup (owners accs) → (∀ o, o ∈ owners accs → o ∉ spent) →
  ∃ spent', ginv ids amap ia next' spent' (sum + Zsum balance accs) (tree gs') ∧ exec_stage gs' = exec_stage gs ∧ next' = next + Z.of_nat (multisigs accs).
Proof.
  revert next spent sum gs. induction accs as [|x accs IH]; intros next spent sum gs; cbn [create_accounts].
  { intros [= <- <-] Hi _ _ _. exists spent. unfold multisigs. cbn. split_and!; [by rewrite Z.add_0_r|done|lia]. }
  intros ([g1 n1] & Hx & Hr)%bind_Ok Hi Hn Hnd Hsp. unfold multisigs. rewrite filter_cons. unfold owners in Hnd, Hsp. cbn [omap list_omap] in Hnd, Hsp.
  change (Zsum balance (x :: accs)) with (balance x + Zsum balance accs). destruct (meta x) as [o|signers th du st] eqn:Hm; cbn [fst snd] in Hx.
  - apply bind_Ok in Hx as (g2 & Hc & [= <- <-]). apply NoDup_cons in Hnd as [Ho Hnd]. rewrite decide_False by (unfold is_multisig; by rewrite Hm).
    destruct (create_account_inv o (balance x) next spent (o :: spent) sum gs g2 Hc Hi Hn) as [Hg He].
    { by right. } { right. by left. } { intros id a0 Hid Ha. apply (gi_unspent _ _ _ _ _ _ _ Hi o id a0 Hid Ha), Hsp. by left. }
    destruct (IH _ _ _ _ Hr Hg Hn Hnd) as (sp & E1 & E2 & E3).
    { intros o' Ho' [->|?]%elem_of_cons; [done|]. by apply (Hsp o'); [right|]. }
    exists sp. split_and!; [by rewrite Z.add_assoc|congruence|done].
  - apply bind_Ok in Hx as (g2 & Hc & [= <- <-]). unfold create_multisig_actor in Hc. apply bind_Ok in Hc as ([g3 l3] & Hs & (code & ->)%create_builtin_Ok).
    destruct (create_signers_inv _ _ _ _ _ _ _ Hs Hi Hn) as [Hg He]. pose proof (al_size _ _ _ Hal) as Hsz.
    destruct (IH _ spent (sum + balance x) _ Hr) as (sp & E1 & E2 & E3); [|lia|done|done|].
    + cbn. apply (ginv_set _ _ _ next _ spent _ _ _ next (mkGActor code _ 0 (balance x) None) Hg); cbn; try lia; try done.
      * intros a0 Ha%(gi_bound _ _ _ _ _ _ _ Hg). lia.
      * intros y Hy%(al_range _ _ _ Hal). lia.
    + exists sp. rewrite decide_True by (unfold is_multisig; by rewrite Hm). cbn [length]. fold (multisigs accs). split_and!; [by rewrite Z.add_assoc|cbn in *; congruence|lia].
Qed.

Context `{!GEnvLaws}.
Lemma create_evm_inv id code next next' spent sum (gs gs' : GenesisState) eth :
  create_evm_actor id code gs = Ok (gs', eth) → ginv ids amap ia next spent sum (tree gs) → id ≠ 1 → next <= next' → id < next' →
  (∀ a0, tree gs !! id = Some a0 → g_balance a0 = 0) → (∀ x, builtin_at id x → amap !! x = Some id) →
  ginv ids amap ia next' spent sum (tree gs').
Proof.
  unfold create_evm_actor. intros (ps & _ & Hc)%bind_Ok Hi H1' Hn Hid Hold Hamap. apply bind_Ok in Hc as (f4 & Hf4 & Hc).
  apply bind_Ok in Hc as (g1 & (c & ->)%create_builtin_Ok & Hc). cbn [tree exec_stage] in Hc. destruct (exec_stage gs); [|done]. cbn [negb] in Hc.
  apply bind_Ok in Hc as ([t' ok] & Hx & Hc). destruct ok; [|done]. cbn [fst snd negb] in Hc.
  assert (Hgs : tree gs' = t') by (destruct (payload f4); try done; case_decide; [|done]; by simplify_eq). rewrite Hgs.
  set (a := mkGActor c EmptyState 0 0 (Some f4)) in *. set (t1 := <[id := a]> (tree gs)) in *.
  assert (Hi1 : ginv ids amap ia next' spent sum t1).
  { replace sum with (sum + g_balance a) by (cbn; lia). apply (ginv_set _ _ _ next _ spent); try done. intros d [= <-]. by apply Hamap. }
  destruct (constructor_local t1 id (mkMessage 0 (addr_new_id 1) (addr_new_id id) 0 0 METHOD_CONSTRUCTOR ps gas_limit_of_block 0 0) t' true) as [Ho Hs]; [done|exact Hx|].
  destruct (Hs a (lookup_insert_eq _ _ _)) as (a' & Ha' & Hb & Hd).
  assert (He : t' = <[id := a']> t1).
  { apply map_eq. intros i. destruct (decide (i = id)) as [->|]; [by rewrite lookup_insert_eq|]. rewrite lookup_insert_ne by done. by apply Ho. }
  rewrite He. replace sum with (sum + g_balance a') by (rewrite Hb; cbn; lia).
  apply (ginv_set _ _ _ next' _ spent); try done.
  - intros a0 Ha0. unfold t1 in Ha0. rewrite lookup_insert_eq in Ha0. by simplify_eq.
  - intros d Hdd. rewrite Hd in Hdd. apply (gi_delegated _ _ _ _ _ _ _ Hi1 id a d); [apply lookup_insert_eq|done].
Qed.
Lemma deploy_libraries_inv libs next spent sum (gs gs' : GenesisState) next' addrs addrs' :
  deploy_libraries libs (gs, next, addrs) = Ok (gs', next', addrs') → ginv ids amap ia next spent sum (tree gs) → n0 <= next →
  (∀ id x, next <= id < next + Z.of_nat (length libs) → builtin_at id x → amap !! x = Some id) →
  ginv ids amap ia next' spent sum (tree gs') ∧ next' = next + Z.of_nat (length libs).
Proof.
  revert gs next addrs. induction libs as [|lib libs IH]; intros gs next addrs; cbn [deploy_libraries]; [intros [= <- <- <-] ? _ _; split; [done|cbn; lia]|].
  intros ([[g1 n1] a1] & Hd & Hr)%bind_Ok Hi Hn Hamap. unfold deploy_library in Hd. apply bind_Ok in Hd as (code & _ & Hd).
  apply bind_Ok in Hd as ([g2 eth] & Hd & [= <- <- <-]). pose proof (al_size _ _ _ Hal) as Hsz. cbn [length] in *.
  eapply (create_evm_inv next code next (next + 1)) in Hd; [|done|lia|lia|lia| |].
  - destruct (IH _ _ _ Hr Hd) as [E1 E2]; [lia|intros id x Hid; apply Hamap; lia|]. split; [done|lia].
  - intros a0 Ha%(gi_bound _ _ _ _ _ _ _ Hi). lia.
  - intros x. apply Hamap. lia.
Qed.
Lemma deploy_contract_inv top addrs name args c next spent sum (gs gs' : GenesisState) eth :
  deploy_contract top addrs name args gs = Ok (gs', eth) → assoc_get top name = Some c → 1 < contract_id c < 100 → 100 <= next →
  ginv ids amap ia next spent sum (tree gs) → (∀ x, builtin_at (contract_id c) x → amap !! x = Some (contract_id c)) →
  ginv ids amap ia next spent sum (tree gs').
Proof.
  unfold deploy_contract, top_contract. intros Hd Hc Hr Hn Hi Hamap. rewrite Hc in Hd. cbn [ok_or mbind outcome_bind] in Hd.
  apply bind_Ok in Hd as (code & _ & Hd). unfold create_evm_actor_with_cons in Hd. apply bind_Ok in Hd as (ic & _ & Hd).
  eapply (create_evm_inv _ _ next next) in Hd; [done|done|lia|lia|lia| |done]. intros a0 Ha. apply (gi_low _ _ _ _ _ _ _ Hi _ _ Ha). lia.
Qed.
End accounts_stage.

Lemma ipc_contracts_ids : ∃ c1 c2, assoc_get IPC_CONTRACTS GATEWAY = Some c1 ∧ contract_id c1 = 64 ∧ assoc_get IPC_CONTRACTS REGISTRY = Some c2 ∧ contract_id c2 = 65 ∧
  (GATEWAY, c1) ∈ IPC_CONTRACTS ∧ (REGISTRY, c2) ∈ IPC_CONTRACTS.
Proof. eexists _, _. split_and!; [reflexivity..|by left|by right; left]. Qed.

(** C16. The genesis state is consistent.  If the interpreter succeeds, and no two accounts of the
    file have the same owner, then the balances of all actors add up to the circulating supply;
    the init actor will hand out only identifiers that no actor has; and the delegated
    address of every actor leads to it in the map of the init actor.  The addresses that are
    hashes of built-in identifiers have to be distinct, and no account may own one; the
    constructors of the contracts change no other actor and move no funds. *)
Theorem genesis_consistent `{!GEnvLaws} (le : relation ContractSourceAndName) `{!RelDecision le} fuel (g : GenesisFile A) deps gs out :
  genesis_init le fuel g = Some (Ok (gs, out)) → NoDup (owners (accounts g)) →
  dependencies le fuel ((λ n, (contract_src n, n)) <$> eth_root_contracts (eth_contracts g)) = Some (Ok deps) →
  100 + Z.of_nat (length (account_addresses (accounts g)) + length (accounts g) + length deps) <= U64_MAX →
  distinct_builtins →
  (∀ i x, builtin_at i x → x ∉ account_addresses (accounts g)) →
  (∀ x, eth_to_address (E := string) (replicate 20 0) = Ok x → x ∉ account_addresses (accounts g) ∧ ∀ i, ¬ builtin_at i x) →
  ∃ init_a amap next, tree gs !! 1 = Some init_a ∧ g_state init_a = InitState amap next (chain_name g) ∧
    (∀ id a, tree gs !! id = Some a → id < next) ∧
    Zsum (λ e : Z * GActor A Cid W, g_balance e.2) (map_to_list (tree gs)) = out_circ_supply out ∧
    (∀ id a d, tree gs !! id = Some a → g_delegated a = Some d → amap !! d = Some id).
Proof.
  intros Hg Hnd Hdeps Hmax Hinj Hown Hsys. unfold genesis_init in Hg. destruct (from_str_hashed _ _) as [cid| | |]; try done.
  rewrite Hdeps in Hg. cbn in Hg. injection Hg as Hg. unfold genesis_with in Hg. set (top := eth_contracts g) in *. set (libs := filter _ deps) in *.
  assert (Hlen : (length libs <= length deps)%nat) by apply length_filter.
  assert (Hms : (multisigs (accounts g) <= length (accounts g))%nat) by apply length_filter.
  apply bind_Ok in Hg as (g0 & (c0 & ->)%create_builtin_Ok & Hg). apply bind_Ok in Hg as ([init_st ids] & Hinit & Hg).
  apply bind_Ok in Hg as (g1 & Hb & Hg). apply bind_Ok in Hg as ([g2 n2] & Hacc & Hg). apply bind_Ok in Hg as (g3 & Hex & Hg).
  apply bind_Ok in Hg as ([[g4 n4] addrs] & Hlib & Hg). apply bind_Ok in Hg as (g5 & Hipc & [= <- <-]). cbn [fst snd] in *.
  unfold init_state_new in Hinit. destruct (allocate _ _ _ _) as [[ids0 amap0] n0] eqn:Hal.
  apply allocate_spec in Hal as (Hal & Hn0 & Hdom); [|split; [intros ??; by rewrite lookup_empty|intros ???; by rewrite lookup_empty|by rewrite map_size_empty|done]].
  apply bind_Ok in Hinit as (amap1 & Hs1 & Hinit). apply bind_Ok in Hinit as (amap2 & Hs2 & Hinit). apply bind_Ok in Hinit as (sys & Hsysa & [= <- <-]).
  pose proof (al_amap _ _ _ Hal) as ->. set (n1 := n0 + _) in *. set (amap := <[sys := SYSTEM_ACTOR_ID]> amap2) in *.
  pose proof (al_size _ _ _ Hal) as Hsz. unfold FIRST_NON_SINGLETON_ADDR in *.
  assert (Hu1 : ∀ c, c ∈ top → is_u64 (contract_id c.2)).
  { intros c Hc. unfold top, eth_contracts in Hc. destruct (ipc g); [|by apply elem_of_nil in Hc]. unfold IPC_CONTRACTS in Hc.
    rewrite !elem_of_cons, elem_of_nil in Hc. destruct Hc as [->|[->|[]]]; vm_compute; split; discriminate. }
  assert (Hu2 : ∀ i, i ∈ libraries_from n1 (length libs) → is_u64 i).
  { intros i Hi%elem_of_seqZ. unfold n1, is_u64 in *. unfold multisigs in Hms. lia. }
  destruct (set_builtins_spec _ _ _ Hs1 Hinj) as [M1 M2].
  { intros i. rewrite merge_sort_Permutation, list_elem_of_fmap. intros (c & -> & Hc). by apply Hu1. }
  destruct (set_builtins_spec _ _ _ Hs2 Hinj Hu2) as [M3 M4]. destruct (Hsys _ Hsysa) as [Hsu Hsb].
  assert (Ham : ∀ u id, ids0 !! u = Some id → amap !! u = Some id).
  { intros u id Hu. assert (Hin : u ∈ account_addresses (accounts g)).
    { destruct (proj1 (Hdom u)) as [[? Hx]|?]; [by exists id|by rewrite lookup_empty in Hx|done]. }
    unfold amap. rewrite lookup_insert_ne by (by intros ->). rewrite M4, M2; [done|..]; intros i _ Hi; by apply (Hown i u). }
  assert (Hb1 : ∀ id x, n1 <= id < n1 + Z.of_nat (length libs) → builtin_at id x → amap !! x = Some id).
  { intros id x Hid Hx. unfold amap. rewrite lookup_insert_ne by (intros ->; by apply (Hsb id)). apply M3; [|done]. apply elem_of_seqZ. lia. }
  assert (Hb2 : ∀ c x, c ∈ top → contract_id c.2 < 100 → builtin_at (contract_id c.2) x → amap !! x = Some (contract_id c.2)).
  { intros c x Hc Hlow Hx. unfold amap. rewrite lookup_insert_ne by (intros ->; by apply (Hsb (contract_id c.2))). rewrite M4.
    - apply M1; [|done]. rewrite merge_sort_Permutation. apply list_elem_of_fmap. by exists c.
    - intros i Hi Hix. rewrite <- (Hinj _ _ _ (Hu1 _ Hc) (Hu2 _ Hi) Hx Hix) in Hi. apply elem_of_seqZ in Hi. unfold n1 in Hi. lia. }
  eapply (create_builtins_inv g ids0 amap) in Hb as (code & Hinv & He); [|done|done|done|by intros u id [? _]%(al_range _ _ _ Hal)].
  eapply (create_accounts_inv ids0 amap _ n0 Hal Ham _ _ _ [] 0) in Hacc as (sp & Hinv2 & He2 & Hn2); [|eapply ginv_mono; [|exact Hinv]; lia|lia|done|by intros o _ ?%elem_of_nil].
  unfold init_exec_state in Hex. destruct (exec_stage g2); [done|]. apply bind_Ok in Hex as (u & _ & [= <-]).
  assert (Hn1 : n2 = n1) by (unfold n1, multisigs in *; rewrite Hn2; lia). rewrite Hn1 in Hinv2, Hlib. clear Hn1 Hn2.
  eapply (deploy_libraries_inv ids0 amap _ n0 Hal) in Hlib as [Hinv4 Hn4]; [|exact Hinv2|unfold n1; lia|done]. cbn in Hinv4.
  assert (Hinv5 : ginv ids0 amap (mkGActor code (InitState amap (n1 + Z.of_nat (length libs)) (chain_name g)) 0 0 None) n4 sp (0 + Zsum balance (accounts g)) (tree g5)).
  { unfold top, eth_contracts in *. destruct (ipc g) as [ps|]; [|by simplify_eq]. unfold deploy_ipc in Hipc.
    apply bind_Ok in Hipc as (args & _ & Hipc). apply bind_Ok in Hipc as (cuts & _ & Hipc). apply bind_Ok in Hipc as ([g6 e6] & Hd1 & Hipc).
    apply bind_Ok in Hipc as (cuts2 & _ & Hipc). apply bind_Ok in Hipc as (args2 & _ & Hipc). apply bind_Ok in Hipc as ([g7 e7] & Hd2 & [= <-]).
    destruct ipc_contracts_ids as (c1 & c2 & A1 & I1 & A2 & I2 & T1 & T2).
    assert (Hi6 : ginv ids0 amap (mkGActor code (InitState amap (n1 + Z.of_nat (length libs)) (chain_name g)) 0 0 None) n4 sp (0 + Zsum balance (accounts g)) (tree g6)).
    { refine (deploy_contract_inv _ _ _ _ _ _ _ c1 _ _ _ _ _ _ Hd1 A1 _ _ Hinv4 _); [lia|unfold n1 in *; lia|]. intros x. apply (Hb2 (GATEWAY, c1) x T1). cbn. lia. }
    refine (deploy_contract_inv _ _ _ _ _ _ _ c2 _ _ _ _ _ _ Hd2 A2 _ _ Hi6 _); [lia|unfold n1 in *; lia|]. intros x. apply (Hb2 (REGISTRY, c2) x T2). cbn. lia. }
  destruct Hinv5 as [I1 I2 I3 I4 I5 I6]. eexists _, amap, (n1 + Z.of_nat (length libs)). split_and!; [exact I6|done| |exact (eq_trans I2 (supply_sum _))|exact I5].
  intros id a Ha%I1. lia.
Qed.
End consistent.

(** The hash of a name gives an identifier below the limit, but a root name gives any number. *)
Lemma hashed_chain_id fnv name id : from_str_hashed fnv name = Ok id → known_id name = None → just_root_id name = None → 0 <= id < MAX_CHAIN_ID.
Proof.
  unfold from_str_hashed. intros Hf Hk Hr. rewrite Hk, Hr in Hf. case_bool_decide; [done|]. injection Hf as <-. by apply Z.mod_pos_bound.
Qed.
Lemma root_chain_id_exceeds fnv : from_str_hashed fnv "/r18446744073709551615" = Ok U64_MAX ∧ MAX_CHAIN_ID < U64_MAX.
Proof. split; reflexivity. Qed.

(** ** Example: two accounts, a multisig, and the contracts of IPC, which need no libraries *)
#[local] Instance example_artifacts : Hardhat := { artifact _ := Ok (mkArtifact [] []); hex_encode _ := []; hex_decode _ := Some [] }.
#[local] Instance example_genv : GEnv Payload Z unit := {
  fnv_hash _ := 7; keccak_256 b := repeat 1 12 ++ [7] ++ drop 1 b; code_by_id _ := Some 0; code_by_name _ := Some 1; builtin_manifest := [("eam"%string, 0)];
  exec_state_new _ _ := Ok (); evm_ctor_params _ b := Ok b; encode_ctor _ b _ := Some b; execute_constructor t _ := Ok (t, true);
  contract_functions _ := []; gas_limit_of_block := 1000;
}.
#[local] Instance example_genv_laws : GEnvLaws (A := Payload).
Proof. split. intros t id m t' ok _ [= <- _]. split; [done|]. eauto. Qed.
#[local] Instance by_source_decision : RelDecision by_source := λ x y, decide (String.leb x.1 y.1 = true).

Definition secp_owner : Payload := PayloadSecp256k1 [1].
Definition eth_owner : Payload := PayloadDelegated EAM_ACTOR_ID (repeat 9 20).
Definition example_genesis (accs : list (GenesisActor Payload)) : GenesisFile Payload :=
  mkGenesis "test" 0 21 0 0 [] accs Unrestricted (Some (mkGatewayParams (mkSubnetID 1 []) 10 67 100)).
Definition example_accounts : list (GenesisActor Payload) :=
  [mkGenesisActor (MAccount secp_owner) 10; mkGenesisActor (MMultisig [secp_owner; eth_owner] 1 0 0) 5; mkGenesisActor (MAccount eth_owner) 20].
#[local] Notation run_genesis accs := (genesis_init (Cid := Z) (W := unit) by_source 40 (example_genesis accs)) (only parsing).

Lemma example_builtin i x : builtin_at (A := Payload) (Cid := Z) (W := unit) i x → x = PayloadDelegated EAM_ACTOR_ID (7 :: repeat 0 11 ++ to_be_bytes i).
Proof. unfold builtin_at, builtin_actor_eth_addr. cbn [keccak_256 example_genv from_id]. by intros [= <-]. Qed.
Lemma genesis_consistent_witness : ∃ gs out init_a amap next, run_genesis example_accounts = Some (Ok (gs, out)) ∧
  tree gs !! 1 = Some init_a ∧ g_state init_a = InitState amap next "test" ∧ next = 119 ∧ (∀ id a, tree gs !! id = Some a → id < next) ∧
  Zsum (λ e : Z * GActor Payload Z unit, g_balance e.2) (map_to_list (tree gs)) = 35.
Proof.
  assert (Hr : match run_genesis example_accounts with Some (Ok (gs, out)) =>
      match g_state <$> tree gs !! 1 with Some (InitState _ next _) => (next =? 119) && (out_circ_supply out =? 35) | _ => false end | _ => false end = true)
    by (vm_compute; reflexivity).
  destruct (run_genesis example_accounts) as [[[gs out]| | |]|] eqn:Hg; [|discriminate Hr..].
  assert (Hd : match dependencies by_source 40 ((λ n, (contract_src n, n)) <$> eth_root_contracts (eth_contracts (example_genesis example_accounts))) with
               Some (Ok deps) => bool_decide (length deps = 18%nat) | _ => false end = true) by (vm_compute; reflexivity).
  destruct (dependencies _ _ _) as [[deps| | |]|] eqn:Hdeps; [|discriminate Hd..]. apply bool_decide_eq_true in Hd.
  destruct (genesis_consistent by_source 40 (example_genesis example_accounts) deps gs out Hg) as (ia & amap & next & E1 & E2 & E3 & E4 & _).
  - apply (bool_decide_unpack _). vm_compute. exact I.
  - exact Hdeps.
  - rewrite Hd. vm_compute. discriminate.
  - clear. intros i j x Hi Hj ->%example_builtin Hx%example_builtin. apply (from_id_inj i j Hi Hj).
    apply (f_equal (λ p, match p with PayloadDelegated _ b => drop 12 b | _ => [] end)) in Hx. change (to_be_bytes i = to_be_bytes j) in Hx. unfold from_id. by rewrite Hx.
  - clear. intros i x ->%example_builtin. cbn. rewrite !elem_of_cons, elem_of_nil. intros [?|[?|[?|[?|[]]]]]; discriminate.
  - clear. intros x [= <-]. split; [apply (bool_decide_unpack _); vm_compute; exact I|]. intros i Hi%example_builtin. discriminate.
  - exists gs, out, ia, amap, next. split; [reflexivity|]. clear Hd Hdeps Hg.
    assert (Hs : (next =? 119) && (out_circ_supply out =? 35) = true).
    { rewrite <- Hr. symmetry. etransitivity; [exact (f_equal (λ o, match g_state <$> o with
        Some (InitState _ n _) => (n =? 119) && (out_circ_supply out =? 35) | _ => false end) E1)|]. cbn [fmap option_fmap option_map]. by rewrite E2. }
    apply andb_true_iff in Hs as [Hn%Z.eqb_eq Hs%Z.eqb_eq]. split; [exact E1|]. split; [exact E2|]. split; [exact Hn|]. split; [exact E3|]. rewrite <- Hs. exact E4.
Defined.

(** The second account of an owner replaces the first one, while the circulating supply counts both. *)
Lemma duplicate_owner_counted_twice : ∃ gs out,
  run_genesis [mkGenesisActor (MAccount secp_owner) 10; mkGenesisActor (MAccount secp_owner) 20] = Some (Ok (gs, out)) ∧
  out_circ_supply out = 30 ∧ Zsum (λ e : Z * GActor Payload Z unit, g_balance e.2) (map_to_list (tree gs)) = 20.
Proof.
  assert (Hr : match run_genesis [mkGenesisActor (MAccount secp_owner) 10; mkGenesisActor (MAccount secp_owner) 20] with Some (Ok (gs, out)) =>
      (out_circ_supply out =? 30) && (Zsum (λ e : Z * GActor Payload Z unit, g_balance e.2) (map_to_list (tree gs)) =? 20) | _ => false end = true)
    by (vm_compute; reflexivity).
  destruct (genesis_init _ _ _) as [[[gs out]| | |]|]; [|discriminate Hr..]. apply andb_true_iff in Hr as [?%Z.eqb_eq ?%Z.eqb_eq]. by exists gs, out.
Qed.
