(* ===== verification/Delorean.v ===== *)
(** * The contracts of the Delorean protocol ([contracts/src/delorean])

    A contract that holds the conditions for releasing a key calls the CETF actor with
    the library [DeloreanAPI]; the validators then sign the tag derived from its address.
    [Demo.sol] releases its key to anyone, [FundRaising.sol] once enough funds arrived.

    The CBOR library, the encoding of method numbers and the exit codes of failed calls are
    parameters.  A call of an actor runs its method, and leaves no trace if it fails. *)

From Stdlib Require Import Ascii String.
From stdpp Require Import base tactics numbers list gmap.
From S2P Require Import Prelude CetfActor.

Open Scope Z_scope.

(** ** The library [DeloreanAPI] *)

Definition DELOREAN_ACTOR_ID : Z := 49.
Definition EchoMethodNum : Z := 1638589290.
Definition EnqueueTagMethodNum : Z := 1820684761.
Definition EnqueueTagParamsNumFields : Z := 1.

(** [cbor_array] and [cbor_bytes] are what [startFixedArray] and [writeBytes] append.
    [method_of] is the dispatch of the actor on the number and the parameters. *)
Class DeloreanEnv (A : Type) := {
  cbor_array : Z → bytes;
  cbor_bytes : bytes → bytes;
  cbor_null : bytes;
  method_of : Z → bytes → option (Method A);
  exit_code_of : option ActorError → Z;
}.
Class DeloreanEnvLaws (A : Type) `{DeloreanEnv A} : Prop := {
  enqueue_method tag : length tag = TAG_LEN → method_of EnqueueTagMethodNum (cbor_array EnqueueTagParamsNumFields ++ cbor_bytes tag) = Some (EnqueueTag tag);
  echo_method : method_of EchoMethodNum cbor_null = Some Echo;
  failure_code e : exit_code_of e ≠ 0;
}.

Inductive DemoKind := DemoSol | FundRaisingSol.
#[export] Instance demo_kind_eq_dec : EqDecision DemoKind.
Proof. solve_decision. Defined.

(** The part of the chain that matters: the CETF actor, the Ethereum addresses of actors, and which of them are demo contracts. *)
Record World (A : Type) `{Countable A} := mkWorld {
  cetf : State A; w_epoch : Z; eth_addr : gmap Z bytes; demo : gmap Z DemoKind; w_balance : gmap Z Z;
}.
Arguments mkWorld {A _ _} _ _ _ _ _.
Arguments cetf {A _ _} _.
Arguments w_epoch {A _ _} _.
Arguments eth_addr {A _ _} _.
Arguments demo {A _ _} _.
Arguments w_balance {A _ _} _.

Inductive DemoError := InsufficientFunds | NonPayable | NoSuchFunction.

Section contracts.
Context {A : Type} `{Countable A} `{!DeloreanEnv A} (keccak256 : bytes → bytes).
Implicit Types (w : World A) (id v : Z).

Definition set_cetf w st : World A := mkWorld st (w_epoch w) (eth_addr w) (demo w) (w_balance w).
Definition balance_of w id : Z := default 0 (w_balance w !! id).
Definition credit w id v : World A := mkWorld (cetf w) (w_epoch w) (eth_addr w) (demo w) (<[id := balance_of w id + v]> (w_balance w)).
(** The namespace of Ethereum addresses is 10, and is the first byte of the payload. *)
Definition world_runtime w id : Runtime := mkRuntime id (w_epoch w) (λ i, cons 10 <$> eth_addr w !! i).

(** [Actor.callByID] on the CETF actor, without value. *)
Definition callByID w id (method : Z) (params : bytes) : Z * World A :=
  match method_of method params with
  | None => (exit_code_of None, w)
  | Some m =>
      match invoke_method keccak256 (world_runtime w id) (cetf w) m with
      | Ok (st, _) => (0, set_cetf w st)
      | Err e => (exit_code_of (Some e), w)
      | _ => (exit_code_of None, w)
      end
  end.

(** The loop that copies the tag byte by byte. *)
Fixpoint copy_tag (n : nat) (tag out : bytes) : bytes :=
  match n with
  | O => out
  | S n => <[n := default 0 (tag !! n)]> (copy_tag n tag out)
  end.
Definition serializeEnqueueTagParams (tag : bytes) : bytes :=
  cbor_array EnqueueTagParamsNumFields ++ cbor_bytes (copy_tag 32 tag (replicate 32 0)).
Definition serializeEchoParams : bytes := cbor_null.
Definition echo w id : Z * World A := callByID w id EchoMethodNum serializeEchoParams.
Definition enqueueTag w id (tag : bytes) : Z * World A := callByID w id EnqueueTagMethodNum (serializeEnqueueTagParams tag).

(** ** The contracts *)

Definition FUNDING_GOAL : Z := 88 * 10 ^ 18.
Definition MEMO : bytes := repeat 17 32.

(** [releaseKey] of [Demo.sol] and of [FundRaising.sol].  The exit code is ignored. *)
Definition demo_releaseKey w id v : outcome DemoError (World A * bool) :=
  if negb (v =? 0) then Err NonPayable else
  let '(_, w) := enqueueTag w id MEMO in Ok (w, true).
Definition fundraising_releaseKey w id v : outcome DemoError (World A * bool) :=
  if negb (v =? 0) then Err NonPayable else
  if balance_of w id <? FUNDING_GOAL then Err InsufficientFunds else
  let '(_, w) := enqueueTag w id MEMO in Ok (w, true).
Definition releaseKey w id v : outcome DemoError (World A * bool) :=
  match demo w !! id with
  | Some DemoSol => demo_releaseKey w id v
  | Some FundRaisingSol => fundraising_releaseKey w id v
  | None => Err NoSuchFunction
  end.
(** [keccak256(abi.encodePacked(address(this), MEMO))]. *)
Definition signingTag w id : option Tag := (λ e, keccak256 (e ++ MEMO)) <$> eth_addr w !! id.
(** Only [FundRaising.sol] has a [receive] function. *)
Definition receive w id v : outcome DemoError (World A) :=
  match demo w !! id with Some FundRaisingSol => Ok (credit w id v) | _ => Err NonPayable end.

(** ** What can happen on the chain

    Contracts are deployed at new addresses, blocks pass, contracts receive funds (also without their [receive] being run), and anyone calls
    [releaseKey], or the CETF actor. *)
Definition wf_method (m : Method A) : Prop := match m with EnqueueTag tag => length tag = TAG_LEN | _ => True end.
Inductive step w : World A → Prop :=
| step_deploy id (k : option DemoKind) e :
    eth_addr w !! id = None → demo w !! id = None → length e = 20%nat → (∀ j, eth_addr w !! j ≠ Some e) →
    step w (mkWorld (cetf w) (w_epoch w) (<[id := e]> (eth_addr w)) (partial_alter (λ _, k) id (demo w)) (w_balance w))
| step_epoch n : w_epoch w < n → step w (mkWorld (cetf w) n (eth_addr w) (demo w) (w_balance w))
| step_receive id v w' : 0 <= v → receive w id v = Ok w' → step w w'
| step_credit id v : 0 <= v → step w (credit w id v)
| step_release id v w' b : releaseKey w id v = Ok (w', b) → step w w'
| step_other id m st ret : demo w !! id = None → wf_method m → invoke_method keccak256 (world_runtime w id) (cetf w) m = Ok (st, ret) → step w (set_cetf w st).
Definition empty_world : World A := mkWorld new 0 ∅ ∅ ∅.
Definition reachable w : Prop := rtc step empty_world w.
End contracts.

(** ** Correctness *)

Section facts.
Context {A : Type} `{Countable A} `{DeloreanEnvLaws A} (keccak256 : bytes → bytes).
Implicit Types (w : World A) (id v : Z).

Lemma copy_tag_prefix n tag (out : bytes) : (n <= length tag)%nat → length out = length tag → copy_tag n tag out = take n tag ++ drop n out.
Proof.
  induction n as [|n IH]; intros Hn Hl; cbn [copy_tag]; [done|]. rewrite IH by lia.
  destruct (lookup_lt_is_Some_2 tag n ltac:(lia)) as [x Hx]. destruct (lookup_lt_is_Some_2 out n ltac:(lia)) as [y Hy].
  rewrite Hx. cbn. rewrite (take_S_r _ _ _ Hx), (drop_S _ _ _ Hy), insert_app_r_alt by (rewrite length_take; lia).
  rewrite length_take, Nat.min_l by lia. rewrite Nat.sub_diag. cbn. by rewrite <- app_assoc.
Qed.
Lemma serialize_tag tag : length tag = TAG_LEN → method_of EnqueueTagMethodNum (serializeEnqueueTagParams tag) = Some (EnqueueTag tag).
Proof.
  intros Hl. unfold serializeEnqueueTagParams, TAG_LEN in *. rewrite copy_tag_prefix by (rewrite ?length_replicate; lia).
  rewrite <- Hl, firstn_all, drop_ge, app_nil_r by (rewrite length_replicate; lia). by apply enqueue_method.
Qed.

(** What [enqueueTag] does with the memo of a contract. *)
Lemma enqueue_cases w id e : eth_addr w !! id = Some e → length e = 20%nat →
  (enqueueTag keccak256 w id MEMO).2 =
    match signing_tag keccak256 e MEMO with
    | Ok stag => if enabled (cetf w) then set_cetf w (add_tag_at_height (cetf w) (i64_as_u64 (w_epoch w + 2)) stag) else w
    | _ => w
    end.
Proof.
  intros He Hl. unfold enqueueTag, callByID. rewrite serialize_tag by done. cbn [invoke_method]. unfold enqueue_tag, calling_eth_address, world_runtime.
  cbn. rewrite He. cbn. rewrite decide_True by done. cbn. unfold signing_tag, copy_from_slice. case_decide; cbn; [|done].
  destruct (enabled (cetf w)); cbn; [done|]. by destruct w.
Qed.

(** Tags that are scheduled or signed. *)
Definition known_tag w (s : Tag) : Prop := (∃ h, tag_map (cetf w) !! h = Some s) ∨ is_Some (signed_hashed_tags (cetf w) !! s).
(** The tag comes from a contract; one with a goal has reached it. *)
Definition justified w (s : Tag) : Prop := ∃ i e t, eth_addr w !! i = Some e ∧ length t = TAG_LEN ∧ signing_tag keccak256 e t = Ok s ∧
  (demo w !! i = Some FundRaisingSol → FUNDING_GOAL <= balance_of w i).
Record world_inv w : Prop := {
  wi_len i e : eth_addr w !! i = Some e → length e = 20%nat;
  wi_inj i j e : eth_addr w !! i = Some e → eth_addr w !! j = Some e → i = j;
  wi_demo i k : demo w !! i = Some k → is_Some (eth_addr w !! i);
  wi_tags s : known_tag w s → justified w s;
}.
Lemma world_inv_grow w w' : world_inv w → cetf w' = cetf w → eth_addr w' = eth_addr w → demo w' = demo w → (∀ i, balance_of w i <= balance_of w' i) → world_inv w'.
Proof.
  intros [I1 I2 I3 I4] Ec Ee Ed Hb. split; rewrite ?Ee, ?Ed; try done. intros s Hs. unfold known_tag in Hs. rewrite Ec in Hs.
  destruct (I4 s Hs) as (i & e & t & E1 & E2 & E3 & E4). exists i, e, t. rewrite Ee, Ed. split_and!; try done. intros Hd%E4. specialize (Hb i). lia.
Qed.
Lemma balance_credit w id v i : 0 <= v → balance_of w i <= balance_of (credit w id v) i.
Proof.
  intros Hv. unfold balance_of at 2, credit. cbn. destruct (decide (i = id)) as [->|].
  - rewrite lookup_insert_eq. cbn. lia.
  - by rewrite lookup_insert_ne.
Qed.
(** A call of the actor schedules a tag of the caller, or no new one. *)
Lemma world_inv_tag w st : world_inv w → (∀ s, known_tag (set_cetf w st) s → known_tag w s ∨ justified w s) → world_inv (set_cetf w st).
Proof. intros [I1 I2 I3 I4] Ht. split; try done. intros s [Hs|Hs]%Ht; [exact (I4 s Hs)|exact Hs]. Qed.
Lemma add_tag_known w h s s' : known_tag (set_cetf w (add_tag_at_height (cetf w) h s)) s' → known_tag w s' ∨ s' = s.
Proof.
  intros [[h' Ht]|Ht]; cbn in Ht; [|by left; right]. apply lookup_insert_Some in Ht as [[_ <-]|[_ Ht]]; [by right|]. left. left. by exists h'.
Qed.
Lemma release_inv w id v w' b : world_inv w → releaseKey keccak256 w id v = Ok (w', b) → world_inv w'.
Proof.
  intros Hi Hr. assert (Hc : ∃ k, demo w !! id = Some k ∧ w' = (enqueueTag keccak256 w id MEMO).2 ∧ (k = FundRaisingSol → FUNDING_GOAL <= balance_of w id)).
  { unfold releaseKey, demo_releaseKey, fundraising_releaseKey in Hr. destruct (demo w !! id) as [[]|] eqn:Hd; [| |done]; destruct (negb _); try done.
    - exists DemoSol. destruct (enqueueTag _ _ _ _) as [c u]. by simplify_eq/=.
    - destruct (_ <? _) eqn:Hb; [done|]. zbool. exists FundRaisingSol. destruct (enqueueTag _ _ _ _) as [c u]. by simplify_eq/=. }
  destruct Hc as (k & Hk & -> & Hg). destruct (wi_demo _ Hi _ _ Hk) as [e He]. rewrite (enqueue_cases w id e He (wi_len _ Hi _ _ He)).
  destruct (signing_tag keccak256 e MEMO) as [stag| | |] eqn:Hs; try done. destruct (enabled (cetf w)); [|done].
  apply world_inv_tag; [done|]. intros s [?| ->]%add_tag_known; [by left|]. right. exists id, e, MEMO. split_and!; try done. rewrite Hk. intros [= ->]. by apply Hg.
Qed.
Lemma other_inv w id m st ret : world_inv w → demo w !! id = None → wf_method m → invoke_method keccak256 (world_runtime w id) (cetf w) m = Ok (st, ret) →
  world_inv (set_cetf w st).
Proof.
  intros Hi Hd Hw Hm%invoke_method_cases. apply world_inv_tag; [done|]. intros s Hs.
  destruct m as [| |tag|h|p| | |p]; [done|destruct Hm as [-> _]; by left| |destruct Hm as [-> _]; by left|destruct Hm as [-> _]; by left|destruct Hm as (_ & -> & _); by left..|].
  - destruct Hm as (e & stag & He & Hst & _ & ->). destruct (enabled (cetf w)); [|by left]. apply add_tag_known in Hs as [?| ->]; [by left|]. right.
    unfold calling_eth_address, world_runtime in He. cbn in He. destruct (eth_addr w !! id) as [e'|] eqn:He'; cbn in He; [|done].
    case_decide; simplify_eq. exists id, e, tag. rewrite Hd. by split_and!.
  - destruct Hm as (_ & _ & tag & Ht & ->). left. destruct Hs as [Hs|[x Hs]]; cbn in Hs; [by left|].
    apply lookup_insert_Some in Hs as [[<- _]|[_ Hs]]; [left; by exists (ast_height p)|right; eauto].
Qed.
Lemma step_inv w w' : world_inv w → step keccak256 w w' → world_inv w'.
Proof.
  intros Hi [id k e He Hd Hl Hf|n Hn|id v u Hv Hr|id v Hv|id v u b Hr|id m st ret Hd Hm Hc].
  - split; cbn.
    + intros i x [[_ <-]|[_ Hx]]%lookup_insert_Some; [done|by eapply wi_len].
    + intros i j x [[<- <-]|[? Hx]]%lookup_insert_Some [[<- ?]|[? Hy]]%lookup_insert_Some; subst; try done; [by destruct (Hf j)|by destruct (Hf i)|by eapply wi_inj].
    + intros i x Hx. destruct (decide (i = id)) as [->|Hn]; [by rewrite lookup_insert_eq|]. rewrite lookup_partial_alter_ne in Hx by done. rewrite lookup_insert_ne by done. by eapply wi_demo.
    + intros s Hs. destruct (wi_tags _ Hi s Hs) as (i & x & t & E1 & E2 & E3 & E4). assert (i ≠ id) by congruence. exists i, x, t. cbn.
      rewrite lookup_insert_ne, lookup_partial_alter_ne by done. by split_and!.
  - by apply (world_inv_grow w).
  - unfold receive in Hr. destruct (demo w !! id) as [[]|]; simplify_eq. apply (world_inv_grow w); try done. intros i. by apply balance_credit.
  - apply (world_inv_grow w); try done. intros i. by apply balance_credit.
  - by eapply release_inv.
  - by eapply other_inv.
Qed.
Lemma reachable_inv w : reachable keccak256 w → world_inv w.
Proof.
  intros Hr. unfold reachable in Hr. remember empty_world as w0 eqn:E0. assert (Hi : world_inv w0).
  { subst w0. split; cbn; try (intros *; rewrite lookup_empty; done). intros s [[h Hs]|[x Hs]]; cbn in Hs; by rewrite lookup_empty in Hs. }
  clear E0. induction Hr as [w|w w1 w2 Hs _ IH]; [done|]. apply IH. by eapply step_inv.
Qed.
End facts.

Section theorems.
Context {A : Type} `{Countable A} `{DeloreanEnvLaws A} (keccak256 : bytes → bytes).
Implicit Types (w : World A) (id v : Z).

(** C14. The key of the fund-raising contract is released only after the goal is reached:
    however contracts are deployed, funded and called, if the tag of the contract is
    scheduled for signing, or its signature is stored, then the contract has the 88
    tokens.  The digest of the tag must have no second preimage. *)
Theorem key_release_needs_goal w id e s :
  reachable keccak256 w → demo w !! id = Some FundRaisingSol → eth_addr w !! id = Some e → signingTag keccak256 w id = Some s →
  (∀ x, length x = 52%nat → keccak256 x = s → x = e ++ MEMO) →
  (∃ h, tag_map (cetf w) !! h = Some s) ∨ is_Some (signed_hashed_tags (cetf w) !! s) → FUNDING_GOAL <= balance_of w id.
Proof.
  intros Hr%reachable_inv Hd He Hs Hp Hk. destruct (wi_tags _ _ Hr s Hk) as (i & e' & t & E1 & E2 & E3 & E4).
  unfold signing_tag, copy_from_slice in E3. case_decide; [|done]. injection E3 as E3.
  assert (Hl : length e' = length e) by (by rewrite (wi_len _ _ Hr _ _ E1), (wi_len _ _ Hr _ _ He)).
  assert (Hx : e' ++ t = e ++ MEMO) by (apply Hp; [rewrite length_app, E2, (wi_len _ _ Hr _ _ E1)|]; done).
  destruct (app_inj_1 _ _ _ _ Hl Hx) as [-> _].
  rewrite (wi_inj _ _ Hr _ _ _ E1 He) in E4. by apply E4.
Qed.

(** C15. Once the goal is reached, and while the CETF actor is enabled, [releaseKey] schedules
    the tag: called without value in any epoch [n], it succeeds, and the tag that [signingTag]
    promises is up for signing at height [n + 2].  The balance is the only condition of the
    contract; the height of 10 that its documentation asks for is not one. *)
Theorem funded_release_schedules w id e :
  demo w !! id = Some FundRaisingSol → eth_addr w !! id = Some e → length e = 20%nat → FUNDING_GOAL <= balance_of w id →
  enabled (cetf w) = true → 0 <= w_epoch w < 2 ^ 63 - 2 → length (keccak256 (e ++ MEMO)) = TAG_LEN →
  ∃ w', releaseKey keccak256 w id 0 = Ok (w', true) ∧ get_tag_at_height (cetf w') (w_epoch w + 2) = signingTag keccak256 w id ∧
    balance_of w' id = balance_of w id.
Proof.
  intros Hd He Hl Hg Hen Hep Hk. unfold releaseKey, fundraising_releaseKey, signingTag. rewrite Hd, He. cbn [negb Z.eqb].
  destruct (_ <? _) eqn:Hb; zbool; [lia|]. pose proof (enqueue_cases keccak256 w id e He Hl) as Hq.
  destruct (enqueueTag keccak256 w id MEMO) as [c u]. cbn in Hq. unfold signing_tag, copy_from_slice in Hq. rewrite decide_True, Hen in Hq by done. cbn in Hq. subst u.
  eexists. split; [reflexivity|]. split; [|done]. unfold get_tag_at_height, i64_as_u64. cbn. rewrite wrap64_small by (unfold is_u64, U64_MAX; lia). apply lookup_insert_eq.
Qed.

(** While the actor is disabled, [releaseKey] answers [true] as well, and schedules nothing. *)
Lemma disabled_release_reports_success w id e :
  demo w !! id = Some FundRaisingSol → eth_addr w !! id = Some e → length e = 20%nat → FUNDING_GOAL <= balance_of w id →
  enabled (cetf w) = false → releaseKey keccak256 w id 0 = Ok (w, true).
Proof.
  intros Hd He Hl Hg Hen. unfold releaseKey, fundraising_releaseKey. rewrite Hd. cbn [negb Z.eqb]. destruct (_ <? _) eqn:Hb; zbool; [lia|].
  pose proof (enqueue_cases keccak256 w id e He Hl) as Hq. destruct (enqueueTag keccak256 w id MEMO) as [c u]. cbn [snd] in Hq. rewrite Hen in Hq.
  destruct (signing_tag keccak256 e MEMO); by rewrite Hq.
Qed.
(** The block height is no condition: in every epoch a funded contract releases the key. *)
Lemma release_ignores_height w n id : is_Some (demo w !! id) →
  (∃ w', releaseKey keccak256 w id 0 = Ok (w', true)) ↔ (∃ w', releaseKey keccak256 (mkWorld (cetf w) n (eth_addr w) (demo w) (w_balance w)) id 0 = Ok (w', true)).
Proof.
  intros [k Hk]. unfold releaseKey, demo_releaseKey, fundraising_releaseKey, balance_of. cbn. rewrite Hk. destruct k; cbn; [|destruct (_ <? _); [naive_solver|]];
    destruct (enqueueTag _ w _ _), (enqueueTag _ _ _ _); split; intros _; eauto.
Qed.
End theorems.

(** ** Example: a contract that reaches its goal and releases its key *)
#[local] Instance example_delorean : DeloreanEnv Z := {
  cbor_array n := [128 + n]; cbor_bytes b := [88; Z.of_nat (length b)] ++ b; cbor_null := [246];
  method_of n p := if n =? EnqueueTagMethodNum then Some (EnqueueTag (drop 3 p)) else if n =? EchoMethodNum then Some Echo else None;
  exit_code_of _ := 1;
}.
#[local] Instance example_delorean_laws : DeloreanEnvLaws Z.
Proof. split; [intros tag _; reflexivity|reflexivity|intros e; discriminate]. Qed.
(** A digest of 32 numbers that determines its argument. *)
Definition example_keccak (b : bytes) : bytes := Z.pos (encode b) :: repeat 0 31.
Definition example_eth : bytes := repeat 5 20.
Definition funded_world : World Z := mkWorld (set_enabled new true) 3 {[100 := example_eth]} {[100 := FundRaisingSol]} {[100 := FUNDING_GOAL]}.
Lemma funded_reachable : reachable example_keccak funded_world.
Proof.
  eapply rtc_l; [apply (step_deploy _ _ 100 (Some FundRaisingSol) example_eth); [done..|intros j; cbn; by rewrite lookup_empty]|].
  eapply rtc_l; [apply (step_receive _ _ 100 FUNDING_GOAL); [by vm_compute|reflexivity]|].
  eapply rtc_l; [apply (step_other _ _ 0 Enable (set_enabled new true) RetUnit); [done..|reflexivity]|].
  eapply rtc_l; [apply (step_epoch _ _ 3); done|]. apply rtc_refl.
Qed.
Lemma funded_release_schedules_witness : ∃ w', releaseKey example_keccak funded_world 100 0 = Ok (w', true) ∧
  get_tag_at_height (cetf w') 5 = Some (example_keccak (example_eth ++ MEMO)) ∧ balance_of w' 100 = FUNDING_GOAL.
Proof. apply (funded_release_schedules example_keccak funded_world 100 example_eth); try done. Defined.
Lemma key_release_needs_goal_witness : ∃ w', releaseKey example_keccak funded_world 100 0 = Ok (w', true) ∧ FUNDING_GOAL <= balance_of w' 100.
Proof.
  assert (Hr : match releaseKey example_keccak funded_world 100 0 with
               | Ok (w', b) => b && bool_decide (tag_map (cetf w') !! 5 = Some (example_keccak (example_eth ++ MEMO)))
                                 && bool_decide (demo w' !! 100 = Some FundRaisingSol) && bool_decide (eth_addr w' !! 100 = Some example_eth)
               | _ => false end = true) by (vm_compute; reflexivity).
  destruct (releaseKey example_keccak funded_world 100 0) as [[w' b]| | |] eqn:Hw; [|discriminate Hr..]. destruct b; [|discriminate Hr]. cbn [andb] in Hr.
  apply andb_true_iff in Hr as [[Ht%bool_decide_eq_true Hd%bool_decide_eq_true]%andb_true_iff He%bool_decide_eq_true].
  exists w'. split; [reflexivity|]. apply (key_release_needs_goal example_keccak w' 100 example_eth (example_keccak (example_eth ++ MEMO))).
  - eapply rtc_r; [exact funded_reachable|]. eapply step_release. exact Hw.
  - exact Hd.
  - exact He.
  - clear Hw. unfold signingTag. by rewrite He.
  - clear Hw. intros x _ [= Hx]. by apply (inj encode).
  - clear Hw. left. by exists 5.
Defined.
