(* ===== verification/Diamond.v ===== *)
(** * The diamond proxy ([LibDiamond.sol], [diamond/], [OwnershipFacet.sol])

    The gateway, the subnet actors and the registry are diamonds: the proxy looks up the
    facet of a selector and runs its code.  The owner adds, replaces and removes selectors.
    Selectors are kept twice, in a mapping with the position of each and in an array, from
    which they are removed by moving the last one into the gap.

    Selectors and addresses are numbers.  The code at an address and the effect of the
    initialization call of a cut are parameters. *)

From Stdlib Require Import Ascii String.
From stdpp Require Import base tactics numbers list gmap.
From S2P Require Import Prelude Sol.

Open Scope Z_scope.

Notation selector := Z (only parsing).

(** ** Storage and errors *)

Inductive DiamondError :=
| InvalidAddress
| NotContractOwner
| NoBytecodeAtAddress (a : address)
| NoSelectorsProvidedForFacetForCut (a : address)
| CannotAddFunctionToDiamondThatAlreadyExists (s : selector)
| CannotAddSelectorsToZeroAddress
| InitializationFunctionReverted
| CannotReplaceFunctionsFromFacetWithZeroAddress
| CannotReplaceImmutableFunction (s : selector)
| CannotReplaceFunctionWithTheSameFunctionFromTheSameFacet (s : selector)
| CannotReplaceFunctionThatDoesNotExists (s : selector)
| RemoveFacetAddressMustBeZeroAddress (a : address)
| CannotRemoveFunctionThatDoesNotExist (s : selector)
| CannotRemoveImmutableFunction (s : selector)
| FunctionNotFound (s : selector)
| DiamondPanic.

Inductive FacetCutAction := Add | Replace | Remove.
Record FacetCut := mkFacetCut { facetAddress : address; action : FacetCutAction; functionSelectors : list selector }.
Record DiamondStorage := mkDS {
  positions : gmap selector (address * Z);
  selectors : list selector;
  supportedInterfaces : gset Z;
  contractOwner : address;
}.
Definition empty_storage : DiamondStorage := mkDS ∅ [] ∅ 0.

Section lib.
(** [has_code]: the code size at an address is not zero.  [run_init]: a [delegatecall] to an address, which may change the storage. *)
Context (has_code : address → bool) (run_init : address → bytes → DiamondStorage → option DiamondStorage) (this : address).
Implicit Types (ds : DiamondStorage) (s : selector).
Notation result := (outcome DiamondError DiamondStorage).

Definition set_positions ds m : DiamondStorage := mkDS m (selectors ds) (supportedInterfaces ds) (contractOwner ds).
Definition at_selector ds s : address * Z := default (0, 0) (positions ds !! s).

(** ** Ownership *)

Definition setContractOwner (newOwner : address) ds : DiamondStorage := mkDS (positions ds) (selectors ds) (supportedInterfaces ds) newOwner.
Definition enforceIsContractOwner (sender : address) ds : outcome DiamondError unit :=
  if sender =? contractOwner ds then Ok () else Err NotContractOwner.
Definition transferOwnership (sender newOwner : address) ds : result :=
  _ ← enforceIsContractOwner sender ds;
  if newOwner =? 0 then Err InvalidAddress else Ok (setContractOwner newOwner ds).

(** ** Cuts *)

Definition enforceHasContractCode (a : address) : outcome DiamondError unit := if has_code a then Ok () else Err (NoBytecodeAtAddress a).
Fixpoint add_loop (facet : address) (selectorCount : Z) (l : list selector) ds : result :=
  match l with
  | [] => Ok ds
  | s :: l =>
      if negb ((at_selector ds s).1 =? 0) then Err (CannotAddFunctionToDiamondThatAlreadyExists s) else
      let ds := mkDS (<[s := (facet, selectorCount)]> (positions ds)) (selectors ds ++ [s]) (supportedInterfaces ds) (contractOwner ds) in
      count ← map_err (λ _, DiamondPanic) (checked 16 (selectorCount + 1));
      add_loop facet count l ds
  end.
Definition addFunctions (facet : address) (l : list selector) ds : result :=
  if facet =? 0 then Err CannotAddSelectorsToZeroAddress else
  _ ← enforceHasContractCode facet;
  add_loop facet (truncate 16 (Z.of_nat (length (selectors ds)))) l ds.

Fixpoint replace_loop (facet : address) (l : list selector) ds : result :=
  match l with
  | [] => Ok ds
  | s :: l =>
      let old := (at_selector ds s).1 in
      if old =? this then Err (CannotReplaceImmutableFunction s) else
      if old =? facet then Err (CannotReplaceFunctionWithTheSameFunctionFromTheSameFacet s) else
      if old =? 0 then Err (CannotReplaceFunctionThatDoesNotExists s) else
      replace_loop facet l (set_positions ds (<[s := (facet, (at_selector ds s).2)]> (positions ds)))
  end.
Definition replaceFunctions (facet : address) (l : list selector) ds : result :=
  if facet =? 0 then Err CannotReplaceFunctionsFromFacetWithZeroAddress else
  _ ← enforceHasContractCode facet;
  replace_loop facet l ds.

(** The last selector takes the place of the one that is removed. *)
Definition fill_gap (pos last_pos : Z) ds : result :=
  if pos =? last_pos then Ok ds else
  last_s ← ok_or DiamondPanic (selectors ds !! Z.to_nat last_pos);
  _ ← ok_or DiamondPanic (selectors ds !! Z.to_nat pos);
  Ok (mkDS (<[last_s := ((at_selector ds last_s).1, pos)]> (positions ds)) (<[Z.to_nat pos := last_s]> (selectors ds)) (supportedInterfaces ds) (contractOwner ds)).
Definition pop_selector ds : result :=
  match selectors ds with
  | [] => Err DiamondPanic
  | _ => Ok (mkDS (positions ds) (removelast (selectors ds)) (supportedInterfaces ds) (contractOwner ds))
  end.
Fixpoint remove_loop (selectorCount : Z) (l : list selector) ds : result :=
  match l with
  | [] => Ok ds
  | s :: l =>
      let old := at_selector ds s in
      if old.1 =? 0 then Err (CannotRemoveFunctionThatDoesNotExist s) else
      if old.1 =? this then Err (CannotRemoveImmutableFunction s) else
      count ← map_err (λ _, DiamondPanic) (checked 256 (selectorCount - 1));
      ds ← fill_gap old.2 count ds;
      ds ← pop_selector ds;
      remove_loop count l (set_positions ds (delete s (positions ds)))
  end.
Definition removeFunctions (facet : address) (l : list selector) ds : result :=
  if negb (facet =? 0) then Err (RemoveFacetAddressMustBeZeroAddress facet) else
  remove_loop (Z.of_nat (length (selectors ds))) l ds.

Definition initializeDiamondCut (init : address) (calldata : bytes) ds : result :=
  if init =? 0 then Ok ds else
  _ ← enforceHasContractCode init;
  ok_or InitializationFunctionReverted (run_init init calldata ds).
Definition cut_one (c : FacetCut) ds : result :=
  match functionSelectors c with
  | [] => Err (NoSelectorsProvidedForFacetForCut (facetAddress c))
  | l => match action c with
         | Add => addFunctions (facetAddress c) l ds
         | Replace => replaceFunctions (facetAddress c) l ds
         | Remove => removeFunctions (facetAddress c) l ds
         end
  end.
Fixpoint cut_loop (cuts : list FacetCut) ds : result :=
  match cuts with [] => Ok ds | c :: cuts => ds ← cut_one c ds; cut_loop cuts ds end.
Definition diamondCut (cuts : list FacetCut) (init : address) (calldata : bytes) ds : result :=
  ds ← cut_loop cuts ds; initializeDiamondCut init calldata ds.
(** The external function of [DiamondCutFacet]. *)
Definition diamondCut_external (sender : address) (cuts : list FacetCut) (init : address) (calldata : bytes) ds : result :=
  _ ← enforceIsContractOwner sender ds; diamondCut cuts init calldata ds.

(** ** The proxy and the loupe *)

(** The facet that the proxy runs. *)
Definition fallback_facet (sig : selector) ds : outcome DiamondError address :=
  let facet := (at_selector ds sig).1 in
  if facet =? 0 then Err (FunctionNotFound sig) else Ok facet.
Definition loupe_facetAddress (s : selector) ds : address := (at_selector ds s).1.
Definition supportsInterface (i : Z) ds : bool := bool_decide (i ∈ supportedInterfaces ds).
(** Arrays that are allocated for all selectors and cut to size are lists. *)
Fixpoint selectors_of (facet : address) (l : list selector) ds : list selector :=
  match l with
  | [] => []
  | s :: l => let rest := selectors_of facet l ds in if facet =? (at_selector ds s).1 then s :: rest else rest
  end.
Definition facetFunctionSelectors (facet : address) ds : list selector := selectors_of facet (selectors ds) ds.
Fixpoint addresses_loop (l : list selector) (acc : list address) ds : list address :=
  match l with
  | [] => acc
  | s :: l => let a := (at_selector ds s).1 in addresses_loop l (if bool_decide (a ∈ acc) then acc else acc ++ [a]) ds
  end.
Definition facetAddresses ds : list address := addresses_loop (selectors ds) [] ds.
(** The first facet with the address gets the selector, or a new one. *)
Fixpoint add_to_facet (a : address) (s : selector) (fs : list (address * list selector)) : list (address * list selector) :=
  match fs with
  | [] => [(a, [s])]
  | f :: fs => if f.1 =? a then (f.1, f.2 ++ [s]) :: fs else f :: add_to_facet a s fs
  end.
Definition facets ds : list (address * list selector) :=
  foldl (λ fs s, add_to_facet (at_selector ds s).1 s fs) [] (selectors ds).
End lib.

(** ** The specification: a table from selectors to facets *)

Definition table (ds : DiamondStorage) : gmap selector address := fst <$> positions ds.
Fixpoint fold_opt {X Y} (f : X → Y → option Y) (l : list X) (y : Y) : option Y :=
  match l with [] => Some y | x :: l => f x y ≫= fold_opt f l end.
Definition spec_add (facet : address) (s : selector) (m : gmap selector address) : option (gmap selector address) :=
  match m !! s with Some _ => None | None => Some (<[s := facet]> m) end.
Definition spec_replace (this facet : address) (s : selector) (m : gmap selector address) : option (gmap selector address) :=
  old ← m !! s; if decide (old = this ∨ old = facet) then None else Some (<[s := facet]> m).
Definition spec_remove (this : address) (s : selector) (m : gmap selector address) : option (gmap selector address) :=
  old ← m !! s; if decide (old = this) then None else Some (delete s m).
Definition spec_cut (has_code : address → bool) (this : address) (c : FacetCut) (m : gmap selector address) : option (gmap selector address) :=
  let f := facetAddress c in
  if decide (functionSelectors c = []) then None else
  match action c with
  | Add => if (f =? 0) || negb (has_code f) then None else fold_opt (spec_add f) (functionSelectors c) m
  | Replace => if (f =? 0) || negb (has_code f) then None else fold_opt (spec_replace this f) (functionSelectors c) m
  | Remove => if f =? 0 then fold_opt (spec_remove this) (functionSelectors c) m else None
  end.
(** How many selectors a list of cuts adds at most. *)
Definition added (cuts : list FacetCut) : nat := sum_list (length ∘ functionSelectors <$> cuts).

(** The array and the mapping agree. *)
Record wf_storage (ds : DiamondStorage) : Prop := {
  wf_position s f p : positions ds !! s = Some (f, p) → f ≠ 0 ∧ 0 <= p ∧ selectors ds !! Z.to_nat p = Some s;
  wf_selector i s : selectors ds !! i = Some s → ∃ f, positions ds !! s = Some (f, Z.of_nat i);
}.

(** ** Refinement *)

Section refinement.
Implicit Types (ds : DiamondStorage) (s : selector).

(** A result that does to the table what the specification says, with at most [n] selectors. *)
Definition refines (n : nat) (r : outcome DiamondError DiamondStorage) (m : option (gmap selector address)) ds : Prop :=
  match r with
  | Ok ds' => wf_storage ds' ∧ (length (selectors ds') <= n)%nat ∧ m = Some (table ds') ∧ contractOwner ds' = contractOwner ds ∧ supportedInterfaces ds' = supportedInterfaces ds
  | Err _ => m = None
  | _ => False
  end.

Lemma at_none ds s : positions ds !! s = None → at_selector ds s = (0, 0).
Proof. unfold at_selector. by intros ->. Qed.
Lemma at_some ds s x : positions ds !! s = Some x → at_selector ds s = x.
Proof. unfold at_selector. by intros ->. Qed.
Lemma at_zero ds s : wf_storage ds → (at_selector ds s).1 = 0 ↔ table ds !! s = None.
Proof.
  intros Hw. unfold table, at_selector. rewrite lookup_fmap. destruct (positions ds !! s) as [[f p]|] eqn:Hs; cbn; [|done].
  apply (wf_position _ Hw) in Hs as (? & _). naive_solver.
Qed.
Lemma at_table ds s f : wf_storage ds → table ds !! s = Some f → at_selector ds s = (f, (at_selector ds s).2) ∧ is_Some (positions ds !! s) ∧ f ≠ 0.
Proof.
  intros Hw. unfold table, at_selector. rewrite lookup_fmap. destruct (positions ds !! s) as [[f' p]|] eqn:Hs; cbn; [|done]. intros [= ->].
  apply (wf_position _ Hw) in Hs as (? & _). eauto.
Qed.

Lemma wf_push ds s facet : wf_storage ds → positions ds !! s = None → facet ≠ 0 →
  wf_storage (mkDS (<[s := (facet, Z.of_nat (length (selectors ds)))]> (positions ds)) (selectors ds ++ [s]) (supportedInterfaces ds) (contractOwner ds)).
Proof.
  intros Hw Hs Hf. split; cbn.
  - intros s' f p [[<- [= <- <-]]|[_ Hp]]%lookup_insert_Some.
    + split_and!; [done|lia|]. by rewrite Nat2Z.id, list_lookup_middle.
    + destruct (wf_position _ Hw _ _ _ Hp) as (? & ? & Hl). split_and!; [done..|]. by apply lookup_app_l_Some.
  - intros i s' [Hi|[Hi Hx]]%lookup_app_Some.
    + destruct (wf_selector _ Hw _ _ Hi) as [f Hf']. exists f. rewrite lookup_insert_ne; [done|congruence].
    + apply list_lookup_singleton_Some in Hx as [Hx <-]. exists facet. rewrite lookup_insert_eq. do 2 f_equal. lia.
Qed.
Lemma add_loop_refines facet l ds n : facet ≠ 0 → wf_storage ds → (length (selectors ds) + length l <= n)%nat → Z.of_nat n < 2 ^ 16 →
  refines n (add_loop facet (Z.of_nat (length (selectors ds))) l ds) (fold_opt (spec_add facet) l (table ds)) ds.
Proof.
  intros Hf. revert ds. induction l as [|s l IH]; intros ds Hw Hn Hmax; cbn [add_loop fold_opt]; cbn [length] in Hn.
  { split_and!; try done. lia. }
  unfold spec_add at 2. destruct (table ds !! s) as [f|] eqn:Ht.
  - destruct (at_table _ _ _ Hw Ht) as (-> & _ & Hf'). cbn [fst]. by rewrite (proj2 (Z.eqb_neq f 0)).
  - assert (Hs : positions ds !! s = None) by (unfold table in Ht; rewrite lookup_fmap in Ht; by destruct (positions ds !! s)).
    rewrite (at_none _ _ Hs). cbn [fst Z.eqb negb]. rewrite checked_Ok by (unfold uint; lia). cbn [map_err mbind outcome_bind option_bind].
    set (ds1 := mkDS _ _ _ _). replace (Z.of_nat (length (selectors ds)) + 1) with (Z.of_nat (length (selectors ds1))) by (cbn; rewrite length_app; cbn; lia).
    replace (<[s := facet]> (table ds)) with (table ds1) by (unfold table, ds1; cbn; by rewrite fmap_insert).
    apply (IH ds1); [by apply wf_push|cbn; rewrite length_app; cbn; lia|done].
Qed.

Lemma wf_set_facet ds s facet f p : wf_storage ds → positions ds !! s = Some (f, p) → facet ≠ 0 → wf_storage (set_positions ds (<[s := (facet, p)]> (positions ds))).
Proof.
  intros Hw Hs Hf. split; cbn.
  - intros s' f' p' [[<- [= <- <-]]|[_ Hp]]%lookup_insert_Some; [|by eapply wf_position]. by destruct (wf_position _ Hw _ _ _ Hs) as (_ & ? & ?).
  - intros i s' Hi. destruct (wf_selector _ Hw _ _ Hi) as [f' Hf']. destruct (decide (s' = s)) as [->|]; [|rewrite lookup_insert_ne by done; eauto].
    rewrite lookup_insert_eq. exists facet. congruence.
Qed.
(** Removing a selector keeps the array and the mapping in agreement. *)
Lemma remove_one ds s f p n : wf_storage ds → positions ds !! s = Some (f, p) → length (selectors ds) = S n →
  ∃ ds1 ds2, fill_gap p (Z.of_nat n) ds = Ok ds1 ∧ pop_selector ds1 = Ok ds2 ∧
    let ds' := set_positions ds2 (delete s (positions ds2)) in
    wf_storage ds' ∧ length (selectors ds') = n ∧ table ds' = delete s (table ds) ∧ contractOwner ds' = contractOwner ds ∧ supportedInterfaces ds' = supportedInterfaces ds.
Proof.
  intros Hw Hs Hl. destruct (wf_position _ Hw _ _ _ Hs) as (Hf & Hp & Hi). destruct (selectors ds) as [|x xs _] eqn:Hsel using rev_ind; [done|].
  rewrite length_app in Hl. cbn in Hl. assert (Hn : length xs = n) by lia. clear Hl.
  assert (Hlast : selectors ds !! n = Some x) by (rewrite Hsel, lookup_app_r, Hn, Nat.sub_diag by lia; done).
  destruct (wf_selector _ Hw _ _ Hlast) as [fx Hx]. unfold fill_gap. rewrite Nat2Z.id. destruct (p =? Z.of_nat n) eqn:E; zbool.
  - exists ds, (mkDS (positions ds) xs (supportedInterfaces ds) (contractOwner ds)). split; [done|]. split.
    { unfold pop_selector. rewrite Hsel, removelast_last. by destruct xs. }
    assert (x = s) as -> by (rewrite E, Nat2Z.id, <- Hsel, Hlast in Hi; congruence). cbn. split_and!; try done; [|by unfold table; rewrite fmap_delete].
    split; cbn.
    + intros s' f' p' [Hne Hp']%lookup_delete_Some. destruct (wf_position _ Hw _ _ _ Hp') as (? & ? & Hj). split_and!; [done..|]. rewrite Hsel in Hj.
      apply lookup_app_Some in Hj as [?|[_ Hj]]; [done|]. by apply list_lookup_singleton_Some in Hj as [_ ?].
    + intros i s' Hj. assert (Hj' : selectors ds !! i = Some s') by (rewrite Hsel; by apply lookup_app_l_Some). destruct (wf_selector _ Hw _ _ Hj') as [f' Hf'].
      exists f'. rewrite lookup_delete_ne; [done|]. intros <-. rewrite Hs in Hf'. apply lookup_lt_Some in Hj. simplify_eq. lia.
  - rewrite Hlast. cbn [ok_or mbind outcome_bind]. assert (Hi' : selectors ds !! Z.to_nat p = Some s) by (by rewrite Hsel). rewrite Hi'. cbn [ok_or mbind outcome_bind]. rewrite (at_some _ _ _ Hx). cbn [fst].
    assert (Hps : (Z.to_nat p < n)%nat) by (apply lookup_lt_Some in Hi; rewrite length_app, Hn in Hi; cbn in Hi; lia).
    rewrite Hsel, insert_app_l by lia. assert (Hne : s ≠ x) by congruence.
    eexists _, (mkDS (<[x := (fx, p)]> (positions ds)) (<[Z.to_nat p := x]> xs) (supportedInterfaces ds) (contractOwner ds)). split; [done|]. split.
    { unfold pop_selector. cbn. rewrite removelast_last. by destruct (<[Z.to_nat p := x]> xs). }
    cbn. split_and!; try done; [|by rewrite length_insert|].
    + split; cbn.
      * intros s' f' p' [Hne' [[<- [= <- <-]]|[Hne2 Hp']]%lookup_insert_Some]%lookup_delete_Some.
        -- destruct (wf_position _ Hw _ _ _ Hx) as (? & _). split_and!; [done..|]. apply list_lookup_insert_eq. lia.
        -- destruct (wf_position _ Hw _ _ _ Hp') as (? & ? & Hj). split_and!; [done..|]. rewrite Hsel in Hj.
           apply lookup_app_Some in Hj as [Hj|[_ Hj]]; [|by apply list_lookup_singleton_Some in Hj as [_ ?]].
           rewrite list_lookup_insert_ne; [done|]. intros Heq. rewrite Heq, <- Hsel in Hi. rewrite Hsel, lookup_app_l in Hi by (by eapply lookup_lt_Some). congruence.
      * intros i s' Hj. apply list_lookup_insert_Some in Hj as [(<- & <- & _)|[Hne' Hj]].
        -- exists fx. rewrite lookup_delete_ne, lookup_insert_eq by done. do 2 f_equal. lia.
        -- assert (Hj' : selectors ds !! i = Some s') by (rewrite Hsel; by apply lookup_app_l_Some). destruct (wf_selector _ Hw _ _ Hj') as [f' Hf'].
           exists f'. apply lookup_lt_Some in Hj. rewrite lookup_delete_ne, lookup_insert_ne; [done|intros <-; rewrite Hx in Hf'; simplify_eq; lia|].
           intros <-. rewrite Hs in Hf'. simplify_eq. lia.
    + unfold table. cbn. rewrite fmap_delete, fmap_insert. apply map_eq. intros k. destruct (decide (k = s)) as [->|]; [by rewrite !lookup_delete_eq|].
      rewrite !lookup_delete_ne by done. destruct (decide (k = x)) as [->|]; [by rewrite lookup_insert_eq, lookup_fmap, Hx|by rewrite lookup_insert_ne].
Qed.

Section cuts.
Context (has_code : address → bool) (this : address).

Lemma replace_loop_refines facet l ds n : facet ≠ 0 → wf_storage ds → (length (selectors ds) <= n)%nat →
  refines n (replace_loop this facet l ds) (fold_opt (spec_replace this facet) l (table ds)) ds.
Proof.
  intros Hf. revert ds. induction l as [|s l IH]; intros ds Hw Hn; cbn [replace_loop fold_opt]; [done|].
  unfold spec_replace at 2. destruct (table ds !! s) as [f|] eqn:Ht; cbn [mbind option_bind].
  - destruct (at_table _ _ _ Hw Ht) as (Ha & [[f' p] Hs] & Hf'). rewrite (at_some _ _ _ Hs) in *. cbn [fst snd] in *. injection Ha as ->.
    destruct (f =? this) eqn:E1; zbool; [by rewrite decide_True by auto|]. destruct (f =? facet) eqn:E2; zbool; [by rewrite decide_True by auto|].
    rewrite decide_False by naive_solver. rewrite (proj2 (Z.eqb_neq f 0)) by done. cbn [mbind option_bind].
    replace (<[s := facet]> (table ds)) with (table (set_positions ds (<[s := (facet, p)]> (positions ds)))) by (unfold table; cbn; by rewrite fmap_insert).
    apply (IH (set_positions ds _)); [by eapply wf_set_facet|done].
  - apply (at_zero _ _ Hw) in Ht. rewrite Ht. destruct (0 =? this); [done|]. by destruct (0 =? facet).
Qed.

Lemma remove_loop_refines l ds n : wf_storage ds → (length (selectors ds) <= n)%nat → Z.of_nat n < 2 ^ 16 →
  refines n (remove_loop this (Z.of_nat (length (selectors ds))) l ds) (fold_opt (spec_remove this) l (table ds)) ds.
Proof.
  revert ds. induction l as [|s l IH]; intros ds Hw Hn Hmax; cbn [remove_loop fold_opt]; [done|].
  unfold spec_remove at 2. destruct (table ds !! s) as [f|] eqn:Ht; cbn [mbind option_bind]; [|by rewrite (proj2 (at_zero _ _ Hw) Ht)].
  destruct (at_table _ _ _ Hw Ht) as (Ha & [[f' p] Hs] & Hf'). rewrite (at_some _ _ _ Hs) in *. cbn [fst snd] in *. injection Ha as ->.
  rewrite (proj2 (Z.eqb_neq f 0)) by done. destruct (f =? this) eqn:E1; zbool; [by rewrite decide_True by auto|]. rewrite decide_False by done.
  destruct (wf_position _ Hw _ _ _ Hs) as (_ & _ & Hi%lookup_lt_Some). destruct (length (selectors ds)) as [|k] eqn:Hl; [lia|].
  destruct (remove_one ds s f p k Hw Hs Hl) as (ds1 & ds2 & F1 & F2 & Hw' & Hl' & Ht' & Ho & Hsi).
  replace (Z.of_nat (S k) - 1) with (Z.of_nat k) by lia.
  assert (2 ^ 16 <= 2 ^ 256) by (by vm_compute). rewrite checked_Ok by (unfold uint; lia). cbn [map_err mbind outcome_bind option_bind].
  rewrite F1. cbn [mbind outcome_bind]. rewrite F2. cbn [mbind outcome_bind]. rewrite <- Ht'. rewrite <- Hl' at 1.
  specialize (IH _ Hw' ltac:(lia) Hmax). unfold refines in *. destruct (remove_loop _ _ _ _); try done. by rewrite Ho, Hsi in IH.
Qed.

Lemma cut_one_refines c ds n : wf_storage ds → (length (selectors ds) + length (functionSelectors c) <= n)%nat → Z.of_nat n < 2 ^ 16 →
  refines n (cut_one has_code this c ds) (spec_cut has_code this c (table ds)) ds.
Proof.
  intros Hw Hn Hmax. unfold cut_one, spec_cut. destruct (functionSelectors c) as [|s l] eqn:Hl; [done|]. rewrite decide_False by done. destruct (action c).
  - unfold addFunctions, enforceHasContractCode. destruct (_ =? 0) eqn:Hf; [done|]. zbool. destruct (has_code _); [|done]. cbn [orb negb mbind outcome_bind].
    rewrite truncate_small by (unfold uint; lia). by apply add_loop_refines.
  - unfold replaceFunctions, enforceHasContractCode. destruct (_ =? 0) eqn:Hf; [done|]. zbool. destruct (has_code _); [|done]. cbn [orb negb mbind outcome_bind].
    apply replace_loop_refines; [done..|lia].
  - unfold removeFunctions. destruct (_ =? 0); [|done]. apply remove_loop_refines; [done|lia|done].
Qed.
Lemma cut_loop_refines cuts ds n : wf_storage ds → (length (selectors ds) + added cuts <= n)%nat → Z.of_nat n < 2 ^ 16 →
  refines n (cut_loop has_code this cuts ds) (fold_opt (spec_cut has_code this) cuts (table ds)) ds.
Proof.
  revert ds. induction cuts as [|c cuts IH]; intros ds Hw Hn Hmax; cbn [cut_loop fold_opt]; [split_and!; try done; lia|].
  unfold added in Hn. cbn in Hn. fold (added cuts) in Hn.
  pose proof (cut_one_refines c ds (length (selectors ds) + length (functionSelectors c)) Hw ltac:(lia) ltac:(lia)) as Hc. unfold refines in Hc at 1.
  destruct (cut_one _ _ c ds) as [ds1| | |] eqn:H1; try done; cbn [mbind outcome_bind]; [|by rewrite Hc].
  destruct Hc as (Hw1 & Hl1 & -> & Ho & Hs). cbn [mbind option_bind]. specialize (IH ds1 Hw1 ltac:(lia) Hmax).
  unfold refines in *. destruct (cut_loop _ _ _ _); try done. by rewrite Ho, Hs in IH.
Qed.
End cuts.

(** ** The loupe *)

Lemma selectors_of_app facet l1 l2 ds : selectors_of facet (l1 ++ l2) ds = selectors_of facet l1 ds ++ selectors_of facet l2 ds.
Proof. induction l1 as [|s l1 IH]; cbn; [done|]. rewrite IH. by destruct (_ =? _). Qed.
Lemma elem_selectors_of facet l ds s : s ∈ selectors_of facet l ds ↔ s ∈ l ∧ (at_selector ds s).1 = facet.
Proof.
  induction l as [|x l IH]; cbn; [rewrite elem_of_nil; tauto|]. destruct (facet =? _) eqn:E; zbool; rewrite !elem_of_cons, IH; naive_solver.
Qed.
Lemma addresses_app l1 l2 acc ds : addresses_loop (l1 ++ l2) acc ds = addresses_loop l2 (addresses_loop l1 acc ds) ds.
Proof. revert acc. induction l1 as [|s l1 IH]; intros acc; cbn; [done|]. by rewrite IH. Qed.
Lemma addresses_spec l ds : NoDup (addresses_loop l [] ds) ∧ ∀ a, a ∈ addresses_loop l [] ds ↔ ∃ s, s ∈ l ∧ (at_selector ds s).1 = a.
Proof.
  induction l as [|x l [IH1 IH2]] using rev_ind; cbn; [split; [constructor|]; intros a; setoid_rewrite elem_of_nil; naive_solver|].
  rewrite addresses_app. cbn. setoid_rewrite elem_of_app. setoid_rewrite list_elem_of_singleton. case_bool_decide as Hx.
  - split; [done|]. intros a. rewrite IH2. apply IH2 in Hx as (y & Hy & Hyx). naive_solver.
  - split; [apply NoDup_app; split_and!; [done|intros a Ha ->%list_elem_of_singleton; done|apply NoDup_singleton]|].
    intros a. rewrite elem_of_app, list_elem_of_singleton, IH2. naive_solver.
Qed.
Lemma add_to_facet_spec a s (g : address → list selector) fs : NoDup fs →
  add_to_facet a s ((λ f, (f, g f)) <$> fs) =
    if bool_decide (a ∈ fs) then (λ f, (f, if f =? a then g f ++ [s] else g f)) <$> fs else ((λ f, (f, g f)) <$> fs) ++ [(a, [s])].
Proof.
  induction fs as [|f fs IH]; intros Hnd; cbn; [done|]. apply NoDup_cons in Hnd as [Hf Hnd]. destruct (f =? a) eqn:E; zbool.
  - subst. rewrite bool_decide_true by (by left). f_equal. apply list_fmap_ext. intros i x Hx. destruct (x =? a) eqn:Ex; zbool; [|done].
    subst. by apply list_elem_of_lookup_2 in Hx.
  - rewrite IH by done. destruct (decide (a ∈ fs)) as [Ha|Ha].
    + by rewrite !bool_decide_true by (try right; done).
    + rewrite (bool_decide_false _ Ha), bool_decide_false; [done|]. intros [?|?]%elem_of_cons; congruence.
Qed.
Lemma facets_spec l ds : foldl (λ fs s, add_to_facet (at_selector ds s).1 s fs) [] l = (λ f, (f, selectors_of f l ds)) <$> addresses_loop l [] ds.
Proof.
  induction l as [|x l IH] using rev_ind; [done|]. rewrite foldl_app, addresses_app. cbn [foldl addresses_loop]. rewrite IH.
  destruct (addresses_spec l ds) as [Hnd Hin]. rewrite add_to_facet_spec by done. case_bool_decide as Hx.
  - apply list_fmap_ext. intros i f Hf. rewrite selectors_of_app. cbn. destruct (f =? _); [done|by rewrite app_nil_r].
  - rewrite fmap_app. cbn. rewrite selectors_of_app. cbn. rewrite Z.eqb_refl. f_equal.
    + apply list_fmap_ext. intros i f Hf. rewrite selectors_of_app. cbn. destruct (f =? _) eqn:E; zbool; [|by rewrite app_nil_r].
      subst. by apply list_elem_of_lookup_2 in Hf.
    + do 2 f_equal. destruct (selectors_of _ l ds) as [|y ys] eqn:Hy; [done|]. destruct Hx. apply Hin. exists y. apply elem_selectors_of. rewrite Hy. by left.
Qed.
Lemma wf_nodup ds : wf_storage ds → NoDup (selectors ds).
Proof.
  intros Hw. apply NoDup_alt. intros i j s Hi Hj. destruct (wf_selector _ Hw _ _ Hi) as [f Hf], (wf_selector _ Hw _ _ Hj) as [f' Hf']. simplify_eq. lia.
Qed.
Lemma table_at ds s f : wf_storage ds → f ≠ 0 → (at_selector ds s).1 = f ↔ table ds !! s = Some f.
Proof.
  intros Hw Hf. unfold table, at_selector. rewrite lookup_fmap. destruct (positions ds !! s) as [[g p]|]; cbn; naive_solver.
Qed.
Lemma table_selectors ds s f : wf_storage ds → table ds !! s = Some f → s ∈ selectors ds.
Proof.
  intros Hw Ht. destruct (at_table _ _ _ Hw Ht) as (_ & [[g p] Hs] & _). destruct (wf_position _ Hw _ _ _ Hs) as (_ & _ & Hl). by eapply list_elem_of_lookup_2.
Qed.
End refinement.

Section theorems.
Context (has_code : address → bool) (run_init : address → bytes → DiamondStorage → option DiamondStorage) (this : address).
Implicit Types (ds : DiamondStorage) (s : selector).

(** C17. A diamond implements a table of functions.  As long as fewer than 65536 selectors
    are in use, a cut without an initializer fails exactly if the specification on the table
    does.  Otherwise the table is updated as specified, the array and the mapping of selectors
    agree again, and the proxy runs, for every selector, the facet that the table has. *)
Theorem diamond_implements_table cuts ds :
  wf_storage ds → Z.of_nat (length (selectors ds) + added cuts) < 2 ^ 16 →
  match diamondCut has_code run_init this cuts 0 [] ds with
  | Ok ds' => wf_storage ds' ∧ fold_opt (spec_cut has_code this) cuts (table ds) = Some (table ds') ∧ contractOwner ds' = contractOwner ds ∧
      ∀ sig f, fallback_facet sig ds' = Ok f ↔ table ds' !! sig = Some f
  | Err _ => fold_opt (spec_cut has_code this) cuts (table ds) = None
  | _ => False
  end.
Proof.
  intros Hw Hn. pose proof (cut_loop_refines has_code this cuts ds _ Hw (le_n _) Hn) as Hr. unfold diamondCut, initializeDiamondCut.
  unfold refines in Hr. destruct (cut_loop _ _ _ _) as [ds'| | |]; try done. cbn [mbind outcome_bind Z.eqb]. destruct Hr as (Hw' & _ & ? & ? & _). split_and!; try done.
  intros sig f. unfold fallback_facet. destruct (_ =? 0) eqn:E; zbool.
  - rewrite (proj1 (at_zero _ _ Hw') E). done.
  - split; [intros [= <-]; by apply table_at|]. intros Ht. f_equal. apply table_at; [done| |done]. by destruct (at_table _ _ _ Hw' Ht) as (_ & _ & ?).
Qed.

(** The loupe shows the table: the selectors of a facet, the facets in use, and both
    together, each once. *)
Theorem loupe_shows_table ds :
  wf_storage ds →
  (∀ f s, f ≠ 0 → s ∈ facetFunctionSelectors f ds ↔ table ds !! s = Some f) ∧ (∀ f, NoDup (facetFunctionSelectors f ds)) ∧
  NoDup (facetAddresses ds) ∧ (∀ f, f ∈ facetAddresses ds ↔ ∃ s, table ds !! s = Some f) ∧
  facets ds = (λ f, (f, facetFunctionSelectors f ds)) <$> facetAddresses ds.
Proof.
  intros Hw. destruct (addresses_spec (selectors ds) ds) as [Hnd Hin]. split_and!; [| |done| |apply facets_spec].
  - intros f s Hf. unfold facetFunctionSelectors. rewrite elem_selectors_of, table_at by done. split; [by intros [_ ?]|]. intros Ht. split; [by eapply table_selectors|done].
  - intros f. unfold facetFunctionSelectors. generalize (wf_nodup _ Hw). generalize (selectors ds). intros l. induction l as [|x l IH]; cbn; [done|].
    intros [Hx Hl]%NoDup_cons. destruct (_ =? _); [|by apply IH]. apply NoDup_cons. split; [|by apply IH]. by intros [? _]%elem_selectors_of.
  - intros f. unfold facetAddresses. rewrite Hin. split.
    + intros (s & Hs & <-). apply list_elem_of_lookup in Hs as [i Hi]. destruct (wf_selector _ Hw _ _ Hi) as [f Hf]. exists s. unfold table. rewrite lookup_fmap, Hf.
      by rewrite (at_some _ _ _ Hf).
    + intros [s Hs]. exists s. split; [by eapply table_selectors|]. destruct (at_table _ _ _ Hw Hs) as (-> & _). done.
Qed.

(** Nobody but the owner changes the functions of a diamond or its owner. *)
Lemma only_owner_cuts sender cuts init calldata ds ds' : diamondCut_external has_code run_init this sender cuts init calldata ds = Ok ds' → sender = contractOwner ds.
Proof. unfold diamondCut_external, enforceIsContractOwner. destruct (sender =? contractOwner ds) eqn:E; [|done]. by zbool. Qed.
Lemma only_owner_transfers sender newOwner ds ds' : transferOwnership sender newOwner ds = Ok ds' →
  sender = contractOwner ds ∧ newOwner ≠ 0 ∧ contractOwner ds' = newOwner ∧ table ds' = table ds.
Proof.
  unfold transferOwnership, enforceIsContractOwner. destruct (sender =? contractOwner ds) eqn:E; [|done]. zbool. cbn. destruct (newOwner =? 0) eqn:E0; [done|].
  zbool. by intros [= <-].
Qed.
End theorems.

(** ** Example: two facets, then one selector replaced and one removed from the middle *)
Definition example_cuts : list FacetCut :=
  [mkFacetCut 7 Add [11; 12; 13]; mkFacetCut 8 Add [21]; mkFacetCut 9 Replace [12]; mkFacetCut 0 Remove [11]].
Lemma diamond_implements_table_witness : ∃ ds',
  diamondCut (λ _, true) (λ _ _ _, None) 5 example_cuts 0 [] empty_storage = Ok ds' ∧ selectors ds' = [21; 12; 13] ∧ wf_storage ds' ∧
  (fallback_facet 12 ds' = Ok 9 ↔ table ds' !! 12 = Some 9).
Proof.
  pose proof (diamond_implements_table (λ _, true) (λ _ _ _, None) 5 example_cuts empty_storage) as Hd.
  assert (Hr : match diamondCut (λ _, true) (λ _ _ _, None) 5 example_cuts 0 [] empty_storage with Ok ds' => bool_decide (selectors ds' = [21; 12; 13]) | _ => false end = true)
    by (vm_compute; reflexivity).
  destruct (diamondCut _ _ _ _ _ _ _) as [ds'| | |]; try done. apply bool_decide_eq_true in Hr.
  destruct Hd as (Hw & _ & _ & Hf); [split; cbn; [intros s f p; by rewrite lookup_empty|done]|done|]. exists ds'. split_and!; [done..|]. apply Hf.
Defined.
