(* ===== verification/Registry.v ===== *)
(** * The subnet registry ([SubnetRegistryDiamond.sol], [subnetregistry/],
    [lib/LibSubnetRegistryStorage.sol], [lib/LibReentrancyGuard.sol])

    The registry deploys subnet actors: it keeps the facets and selectors of the actors, and
    for each user the actors they deployed, numbered from one.

    The address that a contract is created at, and whether the token of a supply answers, are
    arguments.  [deployed] are the actors that the registry created, each with its own storage
    and the storage of its diamond. *)

From Stdlib Require Import Ascii String.
From stdpp Require Import base tactics numbers list gmap.
From S2P Require Import Prelude IpcApi Sol SubnetActor Diamond.

Open Scope Z_scope.

Inductive RegistryError := FromActor (e : SolError) | FromDiamond (e : DiamondError) | ReentrancyError.
Notation rresult := (outcome RegistryError).
Inductive SubnetCreationPrivileges := UnrestrictedCreation | OwnerCreation.

(** The address and the selectors of one of the eight facets of subnet actors. *)
Record FacetRef := mkRef { ref_facet : address; ref_selectors : list selector }.
Record RegistryStorage := mkRegistry {
  GATEWAY : address;
  getter_ref : FacetRef; manager_ref : FacetRef; rewarder_ref : FacetRef; checkpointer_ref : FacetRef;
  pauser_ref : FacetRef; cut_ref : FacetRef; loupe_ref : FacetRef; ownership_ref : FacetRef;
  subnets : gmap (address * Z) address;
  userNonces : gmap address Z;
  creationPrivileges : SubnetCreationPrivileges;
  entered : bool;
}.
Record Registry := mkReg { reg : RegistryStorage; reg_diamond : DiamondStorage; deployed : gmap address (SubnetActorStorage * DiamondStorage) }.
Record ConstructorParams := mkCtor {
  c_gateway : address;
  c_getter : FacetRef; c_manager : FacetRef; c_rewarder : FacetRef; c_checkpointer : FacetRef;
  c_pauser : FacetRef; c_cut : FacetRef; c_loupe : FacetRef; c_ownership : FacetRef;
  c_privileges : SubnetCreationPrivileges;
}.

Section registry.
Context (has_code : address → bool) (run_init : address → bytes → DiamondStorage → option DiamondStorage) (erc165 : gset Z).
Implicit Types (s : RegistryStorage) (r : Registry) (p : Params).

(** ** Constructors *)

(** [erc165] are the three interfaces that a diamond supports. *)
Definition add_interfaces (ds : DiamondStorage) : DiamondStorage :=
  mkDS (positions ds) (selectors ds) (erc165 ∪ supportedInterfaces ds) (contractOwner ds).
Definition registry_constructor (this sender : address) (cuts : list FacetCut) (c : ConstructorParams) : rresult Registry :=
  if c_gateway c =? 0 then Err (FromActor GatewayCannotBeZero) else
  if existsb (λ f, ref_facet f =? 0) [c_getter c; c_manager c; c_rewarder c; c_checkpointer c; c_pauser c; c_cut c; c_loupe c; c_ownership c]
  then Err (FromActor FacetCannotBeZero) else
  ds ← map_err FromDiamond (diamondCut has_code run_init this cuts 0 [] (setContractOwner sender empty_storage));
  Ok (mkReg (mkRegistry (c_gateway c) (c_getter c) (c_manager c) (c_rewarder c) (c_checkpointer c) (c_pauser c) (c_cut c) (c_loupe c) (c_ownership c) ∅ ∅ (c_privileges c) false)
        (add_interfaces ds) ∅).
(** [SubnetActorDiamond]: the storage of the actor, and its diamond. *)
Definition with_owner p (o : address) : Params :=
  mkParams (minActivationCollateral p) (minValidators p) (sa_bottomUpCheckPeriod p) (ipcGatewayAddr p) (activeValidatorsLimit p)
    (sa_majorityPercentage p) (powerScale p) (sa_permissionMode p) (supplySource p) (parentId p) (sa_maxMsgsPerBottomUpBatch p) o.
Definition new_actor (this : address) (cuts : list FacetCut) p (o : address) (token_answers : bool) : rresult (SubnetActorStorage * DiamondStorage) :=
  a ← map_err FromActor (subnet_actor_constructor (with_owner p o) token_answers);
  ds ← map_err FromDiamond (diamondCut has_code run_init this cuts 0 [] (setContractOwner o empty_storage));
  Ok (a, add_interfaces ds).

(** ** [RegisterSubnetFacet] *)

Definition ensurePrivileges (sender : address) r : rresult unit :=
  match creationPrivileges (reg r) with
  | UnrestrictedCreation => Ok ()
  | OwnerCreation => map_err FromDiamond (enforceIsContractOwner sender (reg_diamond r))
  end.
Definition subnet_refs s : list FacetRef :=
  [getter_ref s; manager_ref s; rewarder_ref s; checkpointer_ref s; pauser_ref s; cut_ref s; loupe_ref s; ownership_ref s].
Definition subnet_cuts s : list FacetCut := (λ f, mkFacetCut (ref_facet f) Add (ref_selectors f)) <$> subnet_refs s.
Definition record_subnet s (sender addr : address) (nonce : Z) : RegistryStorage :=
  mkRegistry (GATEWAY s) (getter_ref s) (manager_ref s) (rewarder_ref s) (checkpointer_ref s) (pauser_ref s) (cut_ref s) (loupe_ref s) (ownership_ref s)
    (<[(sender, nonce) := addr]> (subnets s)) (<[sender := nonce]> (userNonces s)) (creationPrivileges s) (entered s).
Definition newSubnetActor (sender addr : address) (token_answers : bool) p r : rresult (Registry * address) :=
  if entered (reg r) then Err ReentrancyError else
  if negb (ipcGatewayAddr p =? GATEWAY (reg r)) then Err (FromActor WrongGateway) else
  _ ← ensurePrivileges sender r;
  d ← new_actor addr (subnet_cuts (reg r)) p sender token_answers;
  nonce ← map_err FromActor (checked 64 (get0 (userNonces (reg r)) sender + 1));
  Ok (mkReg (record_subnet (reg r) sender addr nonce) (reg_diamond r) (<[addr := d]> (deployed r)), addr).

(** ** [SubnetGetterFacet] *)

Definition nonzero (a : address) : rresult address := if a =? 0 then Err (FromActor CannotFindSubnet) else Ok a.
Definition getUserLastNonce s (user : address) : rresult Z := nonzero (get0 (userNonces s) user).
Definition getSubnetDeployedByNonce s (user : address) (nonce : Z) : rresult address :=
  if nonce =? 0 then Err (FromActor CannotFindSubnet) else nonzero (get0 (subnets s) (user, nonce)).
Definition latestSubnetDeployed s (user : address) : rresult address :=
  let nonce := get0 (userNonces s) user in
  if nonce =? 0 then Err (FromActor CannotFindSubnet) else nonzero (get0 (subnets s) (user, nonce)).
Definition updateReferenceSubnetContract (sender newGetterFacet newManagerFacet : address) (getters managers : list selector) r : rresult Registry :=
  _ ← map_err FromDiamond (enforceIsContractOwner sender (reg_diamond r));
  if newGetterFacet =? 0 then Err (FromActor FacetCannotBeZero) else
  if newManagerFacet =? 0 then Err (FromActor FacetCannotBeZero) else
  let s := reg r in
  Ok (mkReg (mkRegistry (GATEWAY s) (mkRef newGetterFacet getters) (mkRef newManagerFacet managers) (rewarder_ref s) (checkpointer_ref s) (pauser_ref s) (cut_ref s)
               (loupe_ref s) (ownership_ref s) (subnets s) (userNonces s) (creationPrivileges s) (entered s)) (reg_diamond r) (deployed r)).

(** ** Histories of a registry

    [log] has the deployments, latest last: who deployed, and the address. *)
Inductive history : list (address * address) → Registry → Prop :=
| history_new this sender cuts c r : registry_constructor this sender cuts c = Ok r → history [] r
| history_deploy log sender addr token p r r' a :
    history log r → addr ≠ 0 → newSubnetActor sender addr token p r = Ok (r', a) → history (log ++ [(sender, addr)]) r'
| history_update log sender g m gs ms r r' : history log r → updateReferenceSubnetContract sender g m gs ms r = Ok r' → history log r'
| history_diamond log r ds : history log r → history log (mkReg (reg r) ds (deployed r)).
Definition deployed_by (user : address) (log : list (address * address)) : list address := snd <$> filter (λ e, e.1 = user) log.
End registry.

(** ** Deployed actors *)

(** Adding facets to an empty table gives each selector its facet. *)
Lemma spec_add_all f l (m m' : gmap selector address) : fold_opt (spec_add f) l m = Some m' →
  ∀ s g, m' !! s = Some g ↔ m !! s = Some g ∨ (s ∈ l ∧ g = f).
Proof.
  revert m. induction l as [|x l IH]; intros m Hm s g; cbn [fold_opt] in Hm; [injection Hm as ->; rewrite elem_of_nil; tauto|].
  unfold spec_add at 2 in Hm. destruct (m !! x) as [y|] eqn:Hx; cbn in Hm; [done|]. rewrite (IH _ Hm), elem_of_cons.
  destruct (decide (s = x)) as [->|]; [rewrite lookup_insert_eq|rewrite lookup_insert_ne by done]; naive_solver.
Qed.
Lemma spec_cut_adds has_code this refs (m m' : gmap selector address) :
  fold_opt (spec_cut has_code this) ((λ f, mkFacetCut (ref_facet f) Add (ref_selectors f)) <$> refs) m = Some m' →
  ∀ s g, m' !! s = Some g ↔ m !! s = Some g ∨ ∃ f, f ∈ refs ∧ s ∈ ref_selectors f ∧ g = ref_facet f.
Proof.
  revert m. induction refs as [|f refs IH]; intros m Hm s g; cbn [fold_opt fmap list_fmap] in Hm; [injection Hm as ->; setoid_rewrite elem_of_nil; naive_solver|].
  unfold spec_cut at 2 in Hm. cbn [functionSelectors action facetAddress] in Hm. case_decide; [done|]. destruct (_ || _); [done|].
  destruct (fold_opt (spec_add _) _ _) as [m1|] eqn:H1; [|done]. cbn [mbind option_bind] in Hm. rewrite (IH _ Hm), (spec_add_all _ _ _ _ H1).
  setoid_rewrite elem_of_cons. naive_solver.
Qed.

Section facts.
Context (has_code : address → bool) (run_init : address → bytes → DiamondStorage → option DiamondStorage) (erc165 : gset Z).
Implicit Types (s : RegistryStorage) (r : Registry) (p : Params) (log : list (address * address)).

Lemma newSubnet_inv sender addr token p r r' a : newSubnetActor has_code run_init erc165 sender addr token p r = Ok (r', a) →
  ∃ act ds, a = addr ∧ entered (reg r) = false ∧ ipcGatewayAddr p = GATEWAY (reg r) ∧ ensurePrivileges sender r = Ok () ∧
    subnet_actor_constructor (with_owner p sender) token = Ok act ∧
    diamondCut has_code run_init addr (subnet_cuts (reg r)) 0 [] (setContractOwner sender empty_storage) = Ok ds ∧
    uint 64 (get0 (userNonces (reg r)) sender + 1) ∧
    r' = mkReg (record_subnet (reg r) sender addr (get0 (userNonces (reg r)) sender + 1)) (reg_diamond r) (<[addr := (act, add_interfaces erc165 ds)]> (deployed r)).
Proof.
  unfold newSubnetActor. destruct (entered (reg r)); [done|]. destruct (_ =? GATEWAY _) eqn:Hg; [|done]. zbool. cbn [negb]. intros (u & Hp & Hr)%bind_Ok.
  apply bind_Ok in Hr as (d & Hd & Hr). apply bind_Ok in Hr as (n & Hn & [= <- <-]). apply map_err_Ok in Hn. apply checked_inv in Hn as [-> Hn]. unfold new_actor in Hd.
  apply bind_Ok in Hd as (act & Ha & Hd). apply bind_Ok in Hd as (ds & Hds & [= <-]). apply map_err_Ok in Ha, Hds. destruct u. by exists act, ds.
Qed.

Record log_inv log s : Prop := {
  li_nonce u : get0 (userNonces s) u = Z.of_nat (length (deployed_by u log));
  li_subnet u k : subnets s !! (u, k) = if 1 <=? k then deployed_by u log !! Z.to_nat (k - 1) else None;
  li_nonzero e : e ∈ log → e.2 ≠ 0;
  li_entered : entered s = false;
}.
Lemma deployed_by_snoc u log x a : deployed_by u (log ++ [(x, a)]) = deployed_by u log ++ (if decide (x = u) then [a] else []).
Proof. unfold deployed_by. rewrite filter_app, fmap_app. f_equal. rewrite filter_cons. cbn. by case_decide. Qed.
Lemma log_inv_deploy log s sender addr : log_inv log s → addr ≠ 0 → log_inv (log ++ [(sender, addr)]) (record_subnet s sender addr (get0 (userNonces s) sender + 1)).
Proof.
  intros [I1 I2 I3 I4] Ha. split; cbn; [| | |done].
  - intros u. rewrite deployed_by_snoc. destruct (decide (sender = u)) as [->|]; [|by rewrite get0_insert_ne, app_nil_r].
    rewrite get0_insert, I1, length_app. cbn. lia.
  - intros u k. rewrite deployed_by_snoc. destruct (decide ((u, k) = (sender, get0 (userNonces s) sender + 1))) as [[= -> ->]|Hne].
    + rewrite lookup_insert_eq, decide_True, I1 by done. destruct (1 <=? _) eqn:E; zbool; [|lia].
      rewrite lookup_app_r by lia. replace (_ - _)%nat with 0%nat by lia. done.
    + rewrite lookup_insert_ne, I2 by congruence. destruct (1 <=? k) eqn:E; [|done]. zbool. destruct (decide (sender = u)) as [->|]; [|by rewrite app_nil_r].
      destruct (decide (Z.to_nat (k - 1) < length (deployed_by u log))%nat); [by rewrite lookup_app_l|].
      rewrite (lookup_ge_None_2 (deployed_by u log)), lookup_ge_None_2 by (rewrite ?length_app; cbn; rewrite I1 in Hne; try lia;
        assert (k ≠ Z.of_nat (length (deployed_by u log)) + 1) by congruence; lia). done.
  - intros e [?|He%list_elem_of_singleton]%elem_of_app; [by apply I3|by subst].
Qed.
Lemma history_inv log r : history has_code run_init erc165 log r → log_inv log (reg r).
Proof.
  induction 1 as [this sender cuts c r Hc|log sender addr token p r r' a Hh IH Ha Hn|log sender g m gs ms r r' Hh IH Hu|log r ds Hh IH]; [| | |done].
  - unfold registry_constructor in Hc. destruct (_ =? 0); [done|]. destruct (existsb _ _); [done|]. apply bind_Ok in Hc as (ds & _ & [= <-]).
    split; cbn; try done; [intros u k; rewrite lookup_empty; by destruct (1 <=? k)|by intros e ?%elem_of_nil].
  - apply newSubnet_inv in Hn as (act & ds & _ & _ & _ & _ & _ & _ & _ & ->). by apply log_inv_deploy.
  - unfold updateReferenceSubnetContract in Hu. apply bind_Ok in Hu as (u & _ & Hu). destruct (g =? 0); [done|]. destruct (m =? 0); [done|]. injection Hu as <-. by destruct IH.
Qed.
Lemma nonzero_ok a : a ≠ 0 → nonzero a = Ok a.
Proof. intros Ha. unfold nonzero. by rewrite (proj2 (Z.eqb_neq a 0)). Qed.
Lemma deployed_nonzero log s u i a : log_inv log s → deployed_by u log !! i = Some a → a ≠ 0.
Proof.
  intros Hi Ha%list_elem_of_lookup_2. unfold deployed_by in Ha. apply list_elem_of_fmap in Ha as (e & -> & [_ He]%list_elem_of_filter). by apply (li_nonzero _ _ Hi).
Qed.

(** The getters of the registry show the log of deployments: the subnet of a user with a
    given nonce, the latest one, and how many there are. *)
Theorem registry_shows_log log r u :
  history has_code run_init erc165 log r →
  (∀ k, getSubnetDeployedByNonce (reg r) u k =
     match (if 1 <=? k then deployed_by u log !! Z.to_nat (k - 1) else None) with Some a => Ok a | None => Err (FromActor CannotFindSubnet) end) ∧
  latestSubnetDeployed (reg r) u = match last (deployed_by u log) with Some a => Ok a | None => Err (FromActor CannotFindSubnet) end ∧
  getUserLastNonce (reg r) u = match deployed_by u log with [] => Err (FromActor CannotFindSubnet) | l => Ok (Z.of_nat (length l)) end.
Proof.
  intros Hi%history_inv.
  assert (Hk : ∀ k, getSubnetDeployedByNonce (reg r) u k =
     match (if 1 <=? k then deployed_by u log !! Z.to_nat (k - 1) else None) with Some a => Ok a | None => Err (FromActor CannotFindSubnet) end).
  { intros k. unfold getSubnetDeployedByNonce, get0. rewrite (li_subnet _ _ Hi). destruct (k =? 0) eqn:E0; zbool; [by subst|].
    destruct (1 <=? k) eqn:E1; [|done]. destruct (deployed_by u log !! _) as [a|] eqn:Ha; [|done]. cbn. apply nonzero_ok. by eapply deployed_nonzero. }
  split; [done|]. unfold latestSubnetDeployed, getUserLastNonce. rewrite (li_nonce _ _ Hi). split.
  - rewrite last_lookup. specialize (Hk (Z.of_nat (length (deployed_by u log)))). unfold getSubnetDeployedByNonce in Hk. rewrite Hk.
    destruct (deployed_by u log) as [|x l] eqn:Hl; [done|]. rewrite (proj2 (Z.leb_le 1 _)) by (cbn; lia).
    by replace (Z.to_nat (Z.of_nat (length (x :: l)) - 1)) with (pred (length (x :: l))) by (cbn; lia).
  - destruct (deployed_by u log) as [|x l]; [done|]. apply nonzero_ok. cbn. lia.
Qed.

(** A subnet actor that the registry deploys belongs to its deployer, uses the gateway
    of the registry, and its proxy runs exactly the functions of the eight facets that the
    registry refers to, each on its facet. *)
Theorem deployed_actor_routes sender addr token p r r' a :
  newSubnetActor has_code run_init erc165 sender addr token p r = Ok (r', a) → Z.of_nat (added (subnet_cuts (reg r))) < 2 ^ 16 →
  ∃ act ds, deployed r' !! a = Some (act, ds) ∧ owner (params act) = sender ∧ contractOwner ds = sender ∧ ipcGatewayAddr (params act) = GATEWAY (reg r) ∧
    wf_storage ds ∧ ∀ sig f, fallback_facet sig ds = Ok f ↔ ∃ x, x ∈ subnet_refs (reg r) ∧ sig ∈ ref_selectors x ∧ f = ref_facet x.
Proof.
  intros (act & ds & -> & _ & Hg & _ & Ha & Hd & _ & ->)%newSubnet_inv Hn. exists act, (add_interfaces erc165 ds). cbn. split; [apply lookup_insert_eq|].
  assert (Hp : owner (params act) = sender ∧ ipcGatewayAddr (params act) = ipcGatewayAddr p).
  { unfold subnet_actor_constructor in Ha. repeat (apply bind_Ok in Ha as (? & _ & Ha)). by injection Ha as <-. }
  destruct Hp as [Hp1 Hp2]. split; [done|]. unfold diamondCut in Hd. apply bind_Ok in Hd as (d1 & Hc & Hd). unfold initializeDiamondCut in Hd. cbn in Hd. injection Hd as ->.
  assert (He : wf_storage (setContractOwner sender empty_storage)) by (split; cbn; [intros s f q; by rewrite lookup_empty|done]).
  pose proof (cut_loop_refines has_code addr (subnet_cuts (reg r)) _ _ He (le_n _) Hn) as Hr. rewrite Hc in Hr. destruct Hr as (Hw & _ & Ht & Ho & _).
  assert (Hw' : wf_storage (add_interfaces erc165 ds)) by (by destruct Hw). split_and!; [done|congruence|done|]. intros s f.
  unfold fallback_facet. change (at_selector (add_interfaces erc165 ds) s) with (at_selector ds s).
  pose proof (spec_cut_adds _ _ _ _ _ Ht s) as Hs. unfold table at 2 in Hs. cbn in Hs. rewrite fmap_empty in Hs. setoid_rewrite lookup_empty in Hs.
  destruct (_ =? 0) eqn:E; zbool.
  - apply (at_zero _ _ Hw) in E. split; [done|]. intros Hx. destruct (Hs f) as [_ Hx']. rewrite E in Hx'. discriminate Hx'. right. naive_solver.
  - assert (Hf : table ds !! s = Some (at_selector ds s).1) by (by apply table_at). rewrite Hf in Hs. split.
    + intros [= <-]. destruct (proj1 (Hs _) eq_refl) as [?|(x & ? & ? & ?)]; [done|]. by exists x.
    + intros (x & Hx1 & Hx2 & ->). assert (Hx : Some (at_selector ds s).1 = Some (ref_facet x)) by (apply Hs; right; by exists x). congruence.
Qed.
End facts.

(** ** Example: a registry with eight facets of one function each *)
Definition example_registry : Registry :=
  mkReg (mkRegistry 500 (mkRef 21 [1]) (mkRef 22 [2]) (mkRef 23 [3]) (mkRef 24 [4]) (mkRef 25 [5]) (mkRef 26 [6]) (mkRef 27 [7]) (mkRef 28 [8]) ∅ ∅ UnrestrictedCreation false)
    empty_storage ∅.
Lemma deployed_actor_routes_witness : ∃ r' act ds,
  newSubnetActor (λ _, true) (λ _ _ _, None) ∅ 9 77 true example_params example_registry = Ok (r', 77) ∧ deployed r' !! 77 = Some (act, ds) ∧
  contractOwner ds = 9 ∧ fallback_facet 3 ds = Ok 23.
Proof.
  assert (Hr : match newSubnetActor (λ _, true) (λ _ _ _, None) ∅ 9 77 true example_params example_registry with Ok (_, a) => a =? 77 | _ => false end = true)
    by (vm_compute; reflexivity).
  destruct (newSubnetActor _ _ _ _ _ _ _ _) as [[r' a]| | |] eqn:Hn; try done. apply Z.eqb_eq in Hr as ->.
  destruct (deployed_actor_routes (λ _, true) (λ _ _ _, None) ∅ 9 77 true example_params example_registry r' 77 Hn) as (act & ds & E1 & _ & E2 & _ & _ & E3); [done|].
  exists r', act, ds. split_and!; [done..|]. apply E3. exists (mkRef 23 [3]). split_and!; [by right; right; left|by left|done].
Defined.
