(* ===== verification/Relayer.v ===== *)
(** * The relayer of bottom-up checkpoints ([ipc/provider/src/checkpoint.rs])

    The relayer reads from the child at which heights checkpoints reached a quorum, and
    submits them to the parent, several at a time: a semaphore bounds the number of tasks.

    The child and the parent are parameters: what the relayer reads from the child, and how
    the parent answers and changes when a checkpoint is submitted.  Tasks interleave in every
    way that the semaphore allows. *)

From Stdlib Require Import Ascii String.
From stdpp Require Import base tactics numbers list gmap.
From S2P Require Import Prelude.

Open Scope Z_scope.

Record QuorumReachedEvent := mkEvent { event_height : Z; event_checkpoint : Z }.
(** A bundle: a checkpoint with its height, whether its batch of messages is full, and the rest, with the signatures. *)
Record Bundle := mkBundle { bundle_height : Z; full_batch : bool; bundle_data : bytes }.

(** [Child] is the handler of the child, [Parent] the one of the parent with state [P]. *)
Class Child := {
  current_epoch : outcome string Z;
  quorum_reached_events : Z → outcome string (list QuorumReachedEvent);
  checkpoint_bundle_at : Z → outcome string (option Bundle);
}.
Class Parent (P : Type) := {
  last_bottom_up_checkpoint_height : P → outcome string Z;
  parent_submit : Bundle → P → outcome string (P * Z);
}.
(** The configuration of the manager: the period is read once from the parent. *)
Record Manager := mkManager { m_period : Z; finalization_blocks : Z; max_parallelism : nat }.
Definition manager_new (period : outcome string Z) (parallelism : nat) : outcome string Manager :=
  p ← map_err (λ _, "cannot get bottom up checkpoint period"%string) period; Ok (mkManager p 0 parallelism).
Definition with_finalization_blocks (n : Z) (m : Manager) : Manager := mkManager (m_period m) n (max_parallelism m).

Section relayer.
Context `{!Child} {P : Type} `{!Parent P} (m : Manager).
Implicit Types (p : P).

(** A spawned task submits one bundle. *)
Definition submit_checkpoint (b : Bundle) p : outcome string (P * Z) := map_err (λ _, "cannot submit bottom up checkpoint"%string) (parent_submit b p).

(** The loops over heights and events: the bundles to submit in order, and the error that stops the loops, if any. *)
Fixpoint tasks_of_events (last : Z) (events : list QuorumReachedEvent) : list Bundle * option string :=
  match events with
  | [] => ([], None)
  | e :: events =>
      if event_height e <=? last then tasks_of_events last events else
      match checkpoint_bundle_at (event_height e) with
      | Ok (Some b) => let '(ts, r) := tasks_of_events last events in (b :: ts, r)
      | Ok None => ([], Some "expected checkpoint but none found"%string)
      | Err e => ([], Some e)
      | _ => ([], Some "child handler failed"%string)
      end
  end.
Fixpoint tasks_of_heights (last : Z) (hs : list Z) : list Bundle * option string :=
  match hs with
  | [] => ([], None)
  | h :: hs =>
      match quorum_reached_events h with
      | Ok events =>
          match tasks_of_events last events with
          | (ts, Some e) => (ts, Some e)
          | (ts, None) => let '(ts', r) := tasks_of_heights last hs in (ts ++ ts', r)
          end
      | Err e => ([], Some e)
      | _ => ([], Some "child handler failed"%string)
      end
  end.
(** [submit_next_epoch] up to the submissions: the tasks of this round. *)
Definition submit_next_epoch p : outcome string (list Bundle * option string) :=
  last ← map_err (λ _, "cannot obtain the last bottom up checkpoint height"%string) (last_bottom_up_checkpoint_height p);
  current ← current_epoch;
  let finalized := Z.max 1 (current - finalization_blocks m) in
  if finalized <=? last then Ok ([], None) else
  Ok (tasks_of_heights last (seqZ (last + 1) (finalized - last))).
(** [try_join_all] fails only if a task panics: the result of a round does not depend on the answers of the parent. *)
Definition round_result (r : list Bundle * option string) (answers : list (outcome string Z)) : outcome string unit :=
  match r.2 with
  | Some e => Err e
  | None => if existsb (λ a, match a with Panic => true | _ => false end) answers then Err "task panicked"%string else Ok ()
  end.

(** One task after the other. *)
Fixpoint submit_all (ts : list Bundle) p : P :=
  match ts with [] => p | b :: ts => submit_all ts (match submit_checkpoint b p with Ok (p', _) => p' | _ => p end) end.
End relayer.

(** ** Interleavings

    A round in progress: bundles that wait for a permit, tasks that run, the parent, and the
    bundles that it accepted and refused. *)
Record Round (P : Type) := mkRound { waiting : list Bundle; running : list Bundle; parent : P; taken : list Bundle; turned_down : list Bundle }.
Arguments mkRound {P} _ _ _ _ _.
Arguments waiting {P} _.
Arguments running {P} _.
Arguments parent {P} _.
Arguments taken {P} _.
Arguments turned_down {P} _.
Section rounds.
Context {P : Type} `{!Parent P} (m : Manager).
Inductive round_step : Round P → Round P → Prop :=
| spawn b ws rs p as_ ds : (length rs < max_parallelism m)%nat → round_step (mkRound (b :: ws) rs p as_ ds) (mkRound ws (rs ++ [b]) p as_ ds)
| accepted b rs1 rs2 ws p p' ep as_ ds : submit_checkpoint b p = Ok (p', ep) →
    round_step (mkRound ws (rs1 ++ b :: rs2) p as_ ds) (mkRound ws (rs1 ++ rs2) p' (as_ ++ [b]) ds)
| refused b rs1 rs2 ws p e as_ ds : submit_checkpoint b p = Err e →
    round_step (mkRound ws (rs1 ++ b :: rs2) p as_ ds) (mkRound ws (rs1 ++ rs2) p as_ (ds ++ [b])).
(** A complete round for some tasks. *)
Definition round (ts : list Bundle) (p p' : P) (as_ ds : list Bundle) : Prop := rtc round_step (mkRound ts [] p [] []) (mkRound [] [] p' as_ ds).
End rounds.

(** ** Progress *)

(** The rule of the contract: a checkpoint is newer than the last one and not beyond the next period, and, unless it is
    the one of the period, its batch of messages is full.  The bound on the number of messages is part of [valid]. *)
Definition next_epoch (period last : Z) : Z := (last / period + 1) * period.
Definition acceptable (period last : Z) (b : Bundle) : Prop :=
  last < bundle_height b <= next_epoch period last ∧ (bundle_height b = next_epoch period last ∨ full_batch b = true).
(** [valid] bundles are those whose signatures and messages the parent accepts whenever the height is right. *)
Class ParentLaws (P : Type) `{!Parent P} (period : Z) (valid : Bundle → Prop) : Prop := {
  height_known (p : P) : ∃ h, last_bottom_up_checkpoint_height p = Ok h;
  accept_rule (p p' : P) b ep last : parent_submit b p = Ok (p', ep) → last_bottom_up_checkpoint_height p = Ok last →
    acceptable period last b ∧ last_bottom_up_checkpoint_height p' = Ok (bundle_height b);
  accept_valid (p : P) b last : valid b → last_bottom_up_checkpoint_height p = Ok last → acceptable period last b → ∃ p' ep, parent_submit b p = Ok (p', ep);
  submit_answers (p : P) b : parent_submit b p ≠ Panic ∧ parent_submit b p ≠ Retry;
}.

Section progress.
Context `{!Child} {P : Type} `{!Parent P} (m : Manager) (valid : Bundle → Prop) `{!ParentLaws P (m_period m) valid} (Hperiod : 0 < m_period m).
Implicit Types (p : P) (r : Round P).
Notation next := (next_epoch (m_period m)).
Notation height_of p h := (last_bottom_up_checkpoint_height p = Ok h).

Lemma next_gt last : last < next last.
Proof. unfold next_epoch. pose proof (Z.mul_succ_div_gt last (m_period m) Hperiod). lia. Qed.
Lemma next_same last0 last : last0 <= last < next last0 → next last = next last0.
Proof.
  unfold next_epoch. intros [H1 H2]. do 2 f_equal. symmetry. apply (Z.div_unique_pos _ _ _ (last - m_period m * (last0 / m_period m))); [|lia].
  pose proof (Z.mul_div_le last0 (m_period m) Hperiod). lia.
Qed.
Lemma submit_Ok b p x : submit_checkpoint b p = Ok x ↔ parent_submit b p = Ok x.
Proof. unfold submit_checkpoint. split; [apply map_err_Ok|]. by intros ->. Qed.
Lemma submit_Err b p e last : submit_checkpoint b p = Err e → valid b → height_of p last → ¬ acceptable (m_period m) last b.
Proof. intros He Hv Hl Ha. destruct (accept_valid _ _ _ Hv Hl Ha) as (p' & ep & Hs). apply submit_Ok in Hs. congruence. Qed.

(** The checkpoint of the period is still to be submitted, or the parent is already past it. *)
Definition pending_or_past (last0 : Z) (b : Bundle) r : Prop :=
  ∃ last, height_of (parent r) last ∧ last0 <= last ∧ (next last0 <= last ∨ b ∈ waiting r ++ running r).
Lemma pending_step last0 b r r' : valid b → bundle_height b = next last0 → round_step m r r' → pending_or_past last0 b r → pending_or_past last0 b r'.
Proof.
  intros Hv Hb Hstep (last & Hl & H0 & Hor). destruct Hstep as [x ws rs p as_ ds Hk|x rs1 rs2 ws p p' ep as_ ds Hs|x rs1 rs2 ws p e as_ ds Hs]; cbn in *.
  - exists last. split_and!; [done..|]. destruct Hor as [?|Hin]; [by left|]. right. cbn. revert Hin. rewrite !elem_of_cons, !elem_of_app, list_elem_of_singleton. tauto.
  - apply submit_Ok in Hs. destruct (accept_rule _ _ _ _ _ Hs Hl) as [[Hr _] Hl']. exists (bundle_height x). split_and!; [done|lia|].
    destruct (decide (next last0 <= bundle_height x)) as [?|Hn]; [by left|]. destruct Hor as [?|Hin]; [lia|]. right. cbn.
    rewrite !elem_of_app, elem_of_cons in Hin. rewrite !elem_of_app. destruct Hin as [?|[?|[->|?]]]; [tauto|tauto|lia|tauto].
  - exists last. split_and!; [done..|]. destruct (decide (next last0 <= last)) as [?|Hn]; [by left|]. destruct Hor as [?|Hin]; [by left|]. cbn.
    rewrite !elem_of_app, elem_of_cons in Hin. rewrite !elem_of_app. destruct Hin as [?|[?|[->|?]]]; [tauto|tauto| |tauto].
    destruct (submit_Err _ _ _ _ Hs Hv Hl). pose proof (next_same last0 last ltac:(lia)) as Hsame. unfold acceptable. rewrite Hsame, Hb. split; [|by left]. lia.
Qed.

(** The tasks of a round: the bundle of every new event in range, unless the child fails. *)
Lemma tasks_of_events_complete last events ts e b : tasks_of_events last events = (ts, None) → e ∈ events → last < event_height e →
  checkpoint_bundle_at (event_height e) = Ok (Some b) → b ∈ ts.
Proof.
  revert ts. induction events as [|x events IH]; intros ts Ht He Hl Hb; cbn in Ht; [by apply elem_of_nil in He|]. apply elem_of_cons in He as [<-|He].
  - rewrite (proj2 (Z.leb_gt _ _)) in Ht by lia. rewrite Hb in Ht. destruct (tasks_of_events last events) as [ts' r]. simplify_eq. by left.
  - destruct (_ <=? _); [by eapply IH|]. destruct (checkpoint_bundle_at (event_height x)) as [[y|]| | |]; try done.
    destruct (tasks_of_events last events) as [ts' r]. simplify_eq. right. by eapply IH.
Qed.
Lemma tasks_of_heights_complete last hs ts h events e b : tasks_of_heights last hs = (ts, None) → h ∈ hs → quorum_reached_events h = Ok events →
  e ∈ events → last < event_height e → checkpoint_bundle_at (event_height e) = Ok (Some b) → b ∈ ts.
Proof.
  revert ts. induction hs as [|x hs IH]; intros ts Ht Hh Hq He Hl Hb; cbn in Ht; [by apply elem_of_nil in Hh|].
  destruct (quorum_reached_events x) as [ev| | |] eqn:Hx; try done. destruct (tasks_of_events last ev) as [t1 [err|]] eqn:H1; [done|].
  destruct (tasks_of_heights last hs) as [t2 r2]. simplify_eq. apply elem_of_app. apply elem_of_cons in Hh as [->|Hh]; [left|right; by eapply IH].
  rewrite Hx in Hq. simplify_eq. by eapply tasks_of_events_complete.
Qed.

(** C19. A round of the relayer makes progress, however many tasks run at a time and in
    whichever order they reach the parent: if the checkpoint of the next period has a quorum,
    and the child reports it at a finalized height and answers all queries of the round, then the
    parent has this checkpoint, or a later one, when the round is over.  The parent accepts a
    bundle with valid signatures and no more messages than allowed if its height is right. *)
Theorem relayer_makes_progress p p' ts as_ ds last current h events e b :
  height_of p last → current_epoch = Ok current → submit_next_epoch m p = Ok (ts, None) → round m ts p p' as_ ds →
  last < h <= Z.max 1 (current - finalization_blocks m) → quorum_reached_events h = Ok events → e ∈ events → event_height e = next last →
  checkpoint_bundle_at (event_height e) = Ok (Some b) → valid b → bundle_height b = next last →
  ∃ last', height_of p' last' ∧ next last <= last'.
Proof.
  intros Hl Hc Hs Hr Hh Hq He Heh Hb Hv Hbh. assert (Hin : b ∈ ts).
  { unfold submit_next_epoch in Hs. rewrite Hl, Hc in Hs. cbn in Hs. rewrite (proj2 (Z.leb_gt _ _)) in Hs by lia. injection Hs as Hs.
    eapply tasks_of_heights_complete; [exact Hs| |done..| |done]; [apply elem_of_seqZ; lia|]. rewrite Heh. apply next_gt. }
  assert (Hp : pending_or_past last b (mkRound ts [] p [] [])).
  { exists last. split_and!; [done..|]. right. cbn. by rewrite app_nil_r. }
  unfold round in Hr. remember (mkRound ts [] p [] []) as r0 eqn:E0. remember (mkRound [] [] p' as_ ds) as r1 eqn:E1.
  assert (Hq' : pending_or_past last b r1) by (clear E0 E1; induction Hr; eauto using pending_step).
  subst r1. destruct Hq' as (last' & Hl' & _ & [?|Hin']); [by exists last'|]. by apply elem_of_nil in Hin'.
Qed.

(** A chain of checkpoints, each acceptable after the one before. *)
Fixpoint chain (last : Z) (ts : list Bundle) : Prop :=
  match ts with [] => True | b :: ts => valid b ∧ acceptable (m_period m) last b ∧ chain (bundle_height b) ts end.
Definition chain_state (ts : list Bundle) r : Prop :=
  ∃ last, height_of (parent r) last ∧ chain last (running r ++ waiting r) ∧ (length (running r) <= 1)%nat ∧ turned_down r = [] ∧
    ts = taken r ++ running r ++ waiting r.
Lemma chain_step ts r r' : max_parallelism m = 1%nat → round_step m r r' → chain_state ts r → chain_state ts r'.
Proof.
  intros Hm Hstep (last & Hl & Hc & Hlen & Ht & Hts). destruct Hstep as [x ws rs p as_ ds Hk|x rs1 rs2 ws p p' ep as_ ds Hs|x rs1 rs2 ws p e as_ ds Hs]; cbn in *.
  - destruct rs; cbn in Hk; [|lia]. by exists last.
  - assert (rs1 = [] ∧ rs2 = []) as [-> ->] by (rewrite length_app in Hlen; cbn in Hlen; destruct rs1, rs2; cbn in *; try lia; done). cbn in *.
    apply submit_Ok in Hs. destruct (accept_rule _ _ _ _ _ Hs Hl) as [_ Hl']. exists (bundle_height x). cbn. rewrite <- app_assoc. destruct Hc as (_ & _ & ?). split_and!; try done. lia.
  - assert (rs1 = [] ∧ rs2 = []) as [-> ->] by (rewrite length_app in Hlen; cbn in Hlen; destruct rs1, rs2; cbn in *; try lia; done). cbn in *.
    destruct Hc as (Hv & Ha & _). by destruct (submit_Err _ _ _ _ Hs Hv Hl).
Qed.
Lemma one_at_a_time_submits_all ts p p' as_ ds last :
  max_parallelism m = 1%nat → chain last ts → height_of p last → round m ts p p' as_ ds → as_ = ts ∧ ds = [].
Proof.
  intros Hm Hc Hl Hr. assert (Hp : chain_state ts (mkRound ts [] p [] [])) by (exists last; cbn; split_and!; try done; lia).
  unfold round in Hr. remember (mkRound ts [] p [] []) as r0 eqn:E0. remember (mkRound [] [] p' as_ ds) as r1 eqn:E1.
  assert (Hq : chain_state ts r1) by (clear E0 E1; induction Hr; eauto using chain_step).
  subst r1. destruct Hq as (_ & _ & _ & _ & ? & Hts). cbn in *. by rewrite app_nil_r in Hts.
Qed.

(** C40. With more than one task at a time the relayer can lose a checkpoint: a full batch
    that reached its quorum before the checkpoint of the period can be overtaken by it.  The
    parent then refuses the batch, and every later round skips it, so its messages never
    leave the subnet. *)
Theorem parallel_relayer_loses_batch p last b1 b2 :
  (2 <= max_parallelism m)%nat → height_of p last → chain last [b1; b2] → valid b2 → bundle_height b2 = next last →
  ∃ p', round m [b1; b2] p p' [b2] [b1] ∧ height_of p' (next last) ∧
    (∀ q h, height_of q h → next last <= h → ∀ x, parent_submit b1 q ≠ Ok x) ∧
    ∀ h events, next last <= h → (∀ e, e ∈ events → event_height e = bundle_height b1) → tasks_of_events h events = ([], None).
Proof.
  intros Hm Hl (Hv1 & Ha1 & _ & Ha2 & _) Hv2 Hh. assert (Hlt : bundle_height b1 < next last) by (rewrite <- Hh; destruct Ha2 as [? _]; lia).
  assert (Hacc : acceptable (m_period m) last b2) by (split; [pose proof (next_gt last); lia|by left]).
  destruct (accept_valid _ _ _ Hv2 Hl Hacc) as (p' & ep & Hs). destruct (accept_rule _ _ _ _ _ Hs Hl) as [_ Hl']. rewrite Hh in Hl'.
  assert (Hno : ∀ q h, height_of q h → next last <= h → ∀ x, parent_submit b1 q ≠ Ok x).
  { intros q h Hq Hge [q' eq] Hx. destruct (accept_rule _ _ _ _ _ Hx Hq) as [[? _] _]. lia. }
  exists p'. split_and!; [|done|done|].
  - unfold round. eapply rtc_l; [by apply (spawn _ b1 [b2] []); cbn; lia|]. eapply rtc_l; [by apply (spawn _ b2 [] [b1]); cbn; lia|]. cbn.
    eapply rtc_l; [apply (accepted _ b2 [b1] [] _ p p' ep); by apply submit_Ok|]. cbn.
    destruct (submit_checkpoint b1 p') as [x|e| |] eqn:He.
    + apply submit_Ok in He. by destruct (Hno p' (next last) Hl' ltac:(lia) x).
    + eapply rtc_l; [by apply (refused _ b1 [] [] _ p' e)|]. apply rtc_refl.
    + unfold submit_checkpoint in He. destruct (submit_answers p' b1) as [_ Hn]. by destruct (parent_submit b1 p').
    + unfold submit_checkpoint in He. destruct (submit_answers p' b1) as [Hn _]. by destruct (parent_submit b1 p').
  - intros h events Hge. induction events as [|e events IH]; intros He; cbn [tasks_of_events]; [done|].
    rewrite (He e) by (by left). rewrite (proj2 (Z.leb_le _ _)) by lia. apply IH. intros x Hx. apply He. by right.
Qed.
End progress.

(** ** Example: a parent with a period of 10, and a child with a full batch at 7 and the checkpoint of the period at 10 *)
Definition example_batch : Bundle := mkBundle 7 true [].
Definition example_period : Bundle := mkBundle 10 false [].
#[local] Instance example_child : Child := {
  current_epoch := Ok 20;
  quorum_reached_events h := Ok (if h =? 8 then [mkEvent 7 0] else if h =? 12 then [mkEvent 10 0] else []);
  checkpoint_bundle_at h := Ok (if h =? 7 then Some example_batch else if h =? 10 then Some example_period else None);
}.
Definition may_accept (last : Z) (b : Bundle) : bool :=
  (last <? bundle_height b) && (bundle_height b <=? next_epoch 10 last) && ((bundle_height b =? next_epoch 10 last) || full_batch b).
#[local] Instance example_parent : Parent Z := {
  last_bottom_up_checkpoint_height p := Ok p;
  parent_submit b p := if may_accept p b then Ok (bundle_height b, 1) else Err "refused"%string;
}.
Definition example_manager (k : nat) : Manager := mkManager 10 2 k.
Lemma may_accept_spec last b : may_accept last b = true ↔ acceptable 10 last b.
Proof.
  unfold may_accept, acceptable. rewrite !andb_true_iff, orb_true_iff, Z.ltb_lt, Z.leb_le, Z.eqb_eq. tauto.
Qed.
#[local] Instance example_parent_laws k : ParentLaws Z (m_period (example_manager k)) (λ _, True).
Proof.
  split; cbn.
  - eauto.
  - intros p p' b ep last. destruct (may_accept p b) eqn:Ha; [|done]. intros [= <- <-] [= <-]. split; [by apply may_accept_spec|done].
  - intros p b last _ [= <-] Ha%may_accept_spec. rewrite Ha. eauto.
  - intros p b. by destruct (may_accept p b).
Qed.
Lemma relayer_makes_progress_witness : ∃ p', round (example_manager 3) [example_batch; example_period] 0 p' [example_batch; example_period] [] ∧
  ∃ last', last_bottom_up_checkpoint_height p' = Ok last' ∧ 10 <= last'.
Proof.
  assert (Hr : round (example_manager 3) [example_batch; example_period] 0 10 [example_batch; example_period] []).
  { unfold round. eapply rtc_l; [apply (spawn _ example_batch [example_period] []); cbn; lia|]. eapply rtc_l; [by apply (accepted _ example_batch [] [] _ 0 7 1)|]. cbn.
    eapply rtc_l; [apply (spawn _ example_period [] []); cbn; lia|]. eapply rtc_l; [by apply (accepted _ example_period [] [] _ 7 10 1)|]. apply rtc_refl. }
  exists 10. split; [exact Hr|].
  apply (relayer_makes_progress (example_manager 3) (λ _, True) eq_refl 0 10 [example_batch; example_period] [example_batch; example_period] [] 0 20 12 [mkEvent 10 0] (mkEvent 10 0) example_period);
    try done; by left.
Defined.
Lemma parallel_relayer_loses_batch_witness : ∃ p', round (example_manager 2) [example_batch; example_period] 0 p' [example_period] [example_batch] ∧ p' = 10.
Proof.
  destruct (parallel_relayer_loses_batch (example_manager 2) (λ _, True) eq_refl 0 0 example_batch example_period) as (p' & Hr & Hh & _); try done.
  - cbn. split_and!; try done; by apply may_accept_spec.
  - exists p'. split; [exact Hr|]. by injection Hh.
Defined.
