(* ===== verification/Broadcast.v ===== *)
(** * Message factories and broadcasting ([rpc/src/message.rs], [fvm/broadcast.rs],
    [fvm/checkpoint.rs])

    A validator signs transactions to the gateway of its own chain with its key and sends
    them to its node.  A factory builds and signs messages and counts the sequence number.
    The broadcaster asks the node for the sequence number and an estimate of the gas, sends the
    transaction, and starts over if the check failed because of a race for the number.

    The node is a parameter with a state [W]; every call may see a different state, so other
    transactions can arrive in between.  Scaling by a floating-point rate is a function. *)

From Stdlib Require Import Ascii String.
From stdpp Require Import base tactics numbers list gmap strings.
From S2P Require Import Prelude IpcApi Message Checkpoint.

Open Scope Z_scope.

(** ** Factories ([message.rs]) *)

Record GasParams := mkGasParams { gp_gas_limit : Z; gp_gas_fee_cap : Z; gp_gas_premium : Z }.
Record MessageFactory (A : Type) := mkFactory { mf_addr : A; mf_sequence : Z }.
Arguments mkFactory {A} _ _.
Arguments mf_addr {A} _.
Arguments mf_sequence {A} _.

Section factory.
Context {A : Type} `{AddressPayload A} `{!MsgCrypto A}.
Implicit Types (f : MessageFactory A) (g : GasParams).

Definition set_sequence (n : Z) f : MessageFactory A := mkFactory (mf_addr f) n.
Definition transaction (to : A) (method_num : Z) (params : bytes) (value : Z) g f : Message A * MessageFactory A :=
  (mkMessage 0 (mf_addr f) to (mf_sequence f) value method_num params (gp_gas_limit g) (gp_gas_fee_cap g) (gp_gas_premium g),
   set_sequence (mf_sequence f + 1)%u64 f).
Definition fevm_create (contract constructor_args : bytes) (value : Z) g f : outcome string (Message A * MessageFactory A) :=
  initcode ← ok_or "serialization"%string (bytes_ser (contract ++ constructor_args));
  Ok (transaction EAM_ACTOR_ADDR CREATE_EXTERNAL initcode value g f).
Definition fevm_invoke (contract : A) (calldata : bytes) (value : Z) g f : outcome string (Message A * MessageFactory A) :=
  calldata ← ok_or "serialization"%string (bytes_ser calldata);
  Ok (transaction contract INVOKE_CONTRACT calldata value g f).
(** The sequence is rolled back. *)
Definition fevm_call (contract : A) (calldata : bytes) (value : Z) g f : outcome string (Message A * MessageFactory A) :=
  r ← fevm_invoke contract calldata value g f;
  Ok (r.1, set_sequence (m_sequence r.1) r.2).

(** [SignedMessageFactory]. *)
Record SignedFactory := mkSignedFactory { inner : MessageFactory A; sf_sk : SecretKey; sf_chain_id : Z }.
Definition signed_factory_new (sk : SecretKey) (addr : A) (sequence chain_id : Z) : SignedFactory := mkSignedFactory (mkFactory addr sequence) sk chain_id.
Definition sign_with (sf : SignedFactory) (r : Message A * MessageFactory A) : outcome string (SignedMessage A * SignedFactory) :=
  sm ← map_err (λ _, "failed to sign"%string) (new_secp256k1 r.1 (sf_sk sf) (sf_chain_id sf));
  Ok (sm, mkSignedFactory r.2 (sf_sk sf) (sf_chain_id sf)).
Definition signed_transaction (to : A) (method_num : Z) (params : bytes) (value : Z) g (sf : SignedFactory) : outcome string (SignedMessage A * SignedFactory) :=
  sign_with sf (transaction to method_num params value g (inner sf)).
Definition signed_transfer (to : A) (value : Z) g (sf : SignedFactory) : outcome string (SignedMessage A * SignedFactory) :=
  signed_transaction to 0 [] value g sf.
Definition signed_fevm_create (contract constructor_args : bytes) (value : Z) g (sf : SignedFactory) : outcome string (SignedMessage A * SignedFactory) :=
  initcode ← ok_or "serialization"%string (bytes_ser (contract ++ constructor_args));
  signed_transaction EAM_ACTOR_ADDR CREATE_EXTERNAL initcode value g sf.
Definition signed_fevm_invoke (contract : A) (calldata : bytes) (value : Z) g (sf : SignedFactory) : outcome string (SignedMessage A * SignedFactory) :=
  calldata ← ok_or "serialization"%string (bytes_ser calldata);
  signed_transaction contract INVOKE_CONTRACT calldata value g sf.
Definition signed_fevm_call (contract : A) (calldata : bytes) (value : Z) g (sf : SignedFactory) : outcome string (Message A * SignedFactory) :=
  r ← signed_fevm_invoke contract calldata value g sf;
  let msg := message r.1 in
  Ok (msg, mkSignedFactory (set_sequence (m_sequence msg) (inner r.2)) (sf_sk r.2) (sf_chain_id r.2)).
End factory.
Arguments SignedFactory A {_}.

(** ** The broadcaster ([broadcast.rs]) *)

(** What the node answers. [GasEstimate]: whether the estimation succeeded, and the limit. *)
Class Node (A W : Type) := {
  pending_sequence : A → W → outcome string (W * option Z);
  estimate_gas : Message A → W → outcome string (W * (bool * Z));
  (** [broadcast_tx_sync]: the code of the check, and the hash. *)
  broadcast_sync : SignedMessage A → W → outcome string (W * (Z * bytes));
  sleep : W → W;
  latest_height : W → outcome string (W * Z);
  over_estimate : Z → Z;
  block_gas_limit : Z;
}.
Record Broadcaster (A : Type) `{MsgCrypto A} := mkBroadcaster { b_key : SecretKey; b_addr : A; b_fee_cap : Z; b_premium : Z; max_retries : nat }.
Arguments mkBroadcaster {A _} _ _ _ _ _.
Arguments b_key {A _} _.
Arguments b_addr {A _} _.
Arguments b_fee_cap {A _} _.
Arguments b_premium {A _} _.
Arguments max_retries {A _} _.

Definition SYS_SENDER_STATE_INVALID : Z := 2.
Definition can_retry (code : Z) : bool := code =? SYS_SENDER_STATE_INVALID.

Section broadcaster.
Context {A W : Type} `{AddressPayload A} `{!MsgCrypto A} `{!Node A W}.
Implicit Types (b : Broadcaster A) (w : W).

Definition with_max_retries (n : nat) b : Broadcaster A := mkBroadcaster (b_key b) (b_addr b) (b_fee_cap b) (b_premium b) n.
Definition broadcaster_sequence b w : outcome string (W * Z) :=
  r ← map_err (λ _, "failed to get broadcaster actor state"%string) (pending_sequence (b_addr b) w);
  match r.2 with Some n => Ok (r.1, n) | None => Err "broadcaster actor cannot be found"%string end.
(** One attempt: the message that was sent, the code of its check, and the hash. *)
Definition attempt b (contract : A) (calldata : bytes) (chain_id : Z) w : outcome string (W * (SignedMessage A * Z * bytes)) :=
  r ← map_err (λ _, "failed to get broadcaster sequence"%string) (broadcaster_sequence b w);
  let '(w, sequence) := r in
  let sf := signed_factory_new (b_key b) (b_addr b) sequence chain_id in
  call ← signed_fevm_call contract calldata 0 (mkGasParams block_gas_limit (b_fee_cap b) (b_premium b)) sf;
  r ← map_err (λ _, "failed to estimate gas"%string) (estimate_gas call.1 w);
  let '(w, (success, limit)) := r in
  if negb success then Err "failed to estimate gas"%string else
  inv ← signed_fevm_invoke contract calldata 0 (mkGasParams (over_estimate limit) (b_fee_cap b) (b_premium b)) call.2;
  r ← map_err (λ _, "failed to invoke contract"%string) (broadcast_sync inv.1 w);
  Ok (r.1, (inv.1, r.2.1, r.2.2)).
(** The macro [retry!]; the messages that were sent are remembered. *)
Fixpoint retry_loop (retries : nat) b (contract : A) (calldata : bytes) (chain_id : Z) (sent : list (SignedMessage A * Z)) w
    : list (SignedMessage A * Z) * outcome string (W * bytes) :=
  match attempt b contract calldata chain_id w with
  | Ok (w, (sm, code, hash)) =>
      let sent := sent ++ [(sm, code)] in
      if code =? 0 then (sent, Ok (w, hash)) else
      match retries with
      | O => (sent, Err "broadcasted transaction failed during check"%string)
      | S retries => if can_retry code then retry_loop retries b contract calldata chain_id sent (sleep w)
                     else (sent, Err "broadcasted transaction failed during check"%string)
      end
  | Err e => (sent, Err e)
  | Panic => (sent, Panic)
  | Retry => (sent, Retry)
  end.
Definition broadcaster_invoke b (contract : A) (calldata : bytes) (chain_id : Z) w : list (SignedMessage A * Z) * outcome string (W * bytes) :=
  retry_loop (max_retries b) b contract calldata chain_id [] w.
End broadcaster.

(** ** What is sent *)

Section facts.
Context {A W : Type} `{AddressPayload A} `{!MsgCrypto A} `{!Node A W}.
Implicit Types (b : Broadcaster A) (w : W) (f : MessageFactory A).

(** A read-only call leaves the factory as it was. *)
Lemma fevm_call_keeps contract calldata v g sf msg (sf' : SignedFactory A) : signed_fevm_call contract calldata v g sf = Ok (msg, sf') →
  sf' = sf ∧ m_sequence msg = mf_sequence (inner sf).
Proof.
  unfold signed_fevm_call. intros ([sm sf1] & Hi & [= <- <-])%bind_Ok. unfold signed_fevm_invoke, signed_transaction, sign_with in Hi.
  apply bind_Ok in Hi as (cd & _ & Hi). apply bind_Ok in Hi as (sm' & Hs & [= <- <-]). apply map_err_Ok in Hs. cbn in *.
  unfold new_secp256k1 in Hs. apply bind_Ok in Hs as (sg & _ & [= <-]). cbn. split; [|done]. by destruct sf as [[a n] k c].
Qed.
Lemma invoke_message contract calldata v g (sf sf' : SignedFactory A) sm : signed_fevm_invoke contract calldata v g sf = Ok (sm, sf') →
  ∃ params, bytes_ser calldata = Some params ∧ new_secp256k1 (message sm) (sf_sk sf) (sf_chain_id sf) = Ok sm ∧
    message sm = mkMessage 0 (mf_addr (inner sf)) contract (mf_sequence (inner sf)) v INVOKE_CONTRACT params (gp_gas_limit g) (gp_gas_fee_cap g) (gp_gas_premium g).
Proof.
  unfold signed_fevm_invoke, signed_transaction, sign_with. intros (cd & Hcd & Hi)%bind_Ok. apply bind_Ok in Hi as (sm' & Hs & [= <- <-]). apply map_err_Ok in Hs. cbn in *.
  exists cd. assert (Hm : message sm' = mkMessage 0 (mf_addr (inner sf)) contract (mf_sequence (inner sf)) v INVOKE_CONTRACT cd (gp_gas_limit g) (gp_gas_fee_cap g) (gp_gas_premium g)).
  { unfold new_secp256k1 in Hs. apply bind_Ok in Hs as (sg & _ & [= <-]). done. }
  rewrite Hm. split_and!; [by destruct (bytes_ser calldata); simplify_eq/=|done..].
Qed.
Lemma fevm_call_message contract calldata v g sf msg (sf' : SignedFactory A) : signed_fevm_call contract calldata v g sf = Ok (msg, sf') →
  ∃ params, bytes_ser calldata = Some params ∧
    msg = mkMessage 0 (mf_addr (inner sf)) contract (mf_sequence (inner sf)) v INVOKE_CONTRACT params (gp_gas_limit g) (gp_gas_fee_cap g) (gp_gas_premium g).
Proof. unfold signed_fevm_call. intros ([sm sf1] & (ps & Hs & _ & Hm)%invoke_message & [= <- <-])%bind_Ok. by exists ps. Qed.

(** The state in which the [i]-th attempt starts. *)
Fixpoint attempt_state b (contract : A) (calldata : bytes) (chain_id : Z) (i : nat) w : option W :=
  match i with
  | O => Some w
  | S i =>
      match attempt b contract calldata chain_id w with
      | Ok (w, _) => attempt_state b contract calldata chain_id i (sleep w)
      | _ => None
      end
  end.
(** The call of the contract that a broadcaster sends, up to the number and the gas limit. *)
Definition contract_call b (contract : A) (params : bytes) (sequence gas_limit : Z) : Message A :=
  mkMessage 0 (b_addr b) contract sequence 0 INVOKE_CONTRACT params gas_limit (b_fee_cap b) (b_premium b).
(** A transaction as the broadcaster makes it in the state [w]: signed, with the sequence number
    that the node has pending there, and the gas limit that it estimates for the call. *)
Definition well_made b contract calldata chain_id w (sm : SignedMessage A) : Prop :=
  new_secp256k1 (message sm) (b_key b) chain_id = Ok sm ∧
  ∃ params sequence limit w1 w2, bytes_ser calldata = Some params ∧
    pending_sequence (b_addr b) w = Ok (w1, Some sequence) ∧
    estimate_gas (contract_call b contract params sequence block_gas_limit) w1 = Ok (w2, (true, limit)) ∧
    message sm = contract_call b contract params sequence (over_estimate limit).
Lemma attempt_well_made b contract calldata chain_id w w' sm code hash : attempt b contract calldata chain_id w = Ok (w', (sm, code, hash)) →
  well_made b contract calldata chain_id w sm.
Proof.
  unfold attempt. intros ([w1 n] & Hn & Ha)%bind_Ok. apply map_err_Ok in Hn. unfold broadcaster_sequence in Hn.
  apply bind_Ok in Hn as ([w2 [k|]] & Hp & Hn); [|done]. apply map_err_Ok in Hp. injection Hn as <- <-.
  apply bind_Ok in Ha as ([msg sf] & Hc & Ha). pose proof (fevm_call_message _ _ _ _ _ _ _ Hc) as (ps & Hps & Hmsg).
  apply fevm_call_keeps in Hc as [-> _]. apply bind_Ok in Ha as ([w3 [ok limit]] & He & Ha). apply map_err_Ok in He. destruct ok; [|done]. cbn [negb] in Ha.
  apply bind_Ok in Ha as ([sm' sf'] & Hi & Ha). apply bind_Ok in Ha as (r & _ & [= <- <- <- <-]). cbn [fst snd] in *.
  apply invoke_message in Hi as (ps' & Hs & Hnew & Hm). split; [exact Hnew|]. assert (ps' = ps) as -> by congruence.
  exists ps, k, limit, w2, w3. rewrite Hmsg in He. by split_and!.
Qed.
Lemma retry_loop_spec retries b contract calldata chain_id sent w sent' res :
  retry_loop retries b contract calldata chain_id sent w = (sent', res) →
  ∃ l, sent' = sent ++ l ∧ (length l <= S retries)%nat ∧
    (∀ i sm code, l !! i = Some (sm, code) →
       ∃ wi, attempt_state b contract calldata chain_id i w = Some wi ∧ well_made b contract calldata chain_id wi sm) ∧
    (∀ l1 x l2, l = l1 ++ x :: l2 → l2 ≠ [] → x.2 = SYS_SENDER_STATE_INVALID) ∧
    (∀ x, res = Ok x → ∃ sm, last l = Some (sm, 0)).
Proof.
  revert sent w. induction retries as [|n IH]; intros sent w; cbn [retry_loop]; destruct (attempt _ _ _ _ _) as [[w' [[sm code] hash]]|e| |] eqn:Ha;
    try (intros [= <- <-]; exists []; rewrite app_nil_r; split_and!; [done|cbn; lia|done|by intros [|] ?? ?|done]).
  all: assert (Hone : ∀ i sm0 code0, [(sm, code)] !! i = Some (sm0, code0) →
    ∃ wi, attempt_state b contract calldata chain_id i w = Some wi ∧ well_made b contract calldata chain_id wi sm0)
    by (intros [|i] sm0 code0 [= <- <-]; exists w; split; [done|]; by eapply attempt_well_made).
  - destruct (code =? 0) eqn:Hc; zbool; intros [= <- <-]; exists [(sm, code)];
      (split_and!; [done|cbn; lia|done|intros [|? [|]] x l2 [=]; by subst|]); [intros x _; subst; eauto|done].
  - destruct (code =? 0) eqn:Hc; zbool.
    { intros [= <- <-]. exists [(sm, code)]. split_and!; [done|cbn; lia|done|intros [|? [|]] x l2 [=]; by subst|intros x _; subst; eauto]. }
    destruct (can_retry code) eqn:Hr; [|intros [= <- <-]; exists [(sm, code)]; split_and!; [done|cbn; lia|done|intros [|? [|]] x l2 [=]; by subst|done]].
    intros (l & -> & Hl & Hw & Hx & Hlast)%IH. unfold can_retry in Hr. zbool. exists ((sm, code) :: l). rewrite <- app_assoc. cbn.
    split_and!; [done|lia| | |].
    + intros [|i] sm0 code0 Hi; [by apply (Hone 0%nat sm0 code0)|]. cbn [attempt_state]. rewrite Ha. by apply (Hw i sm0 code0).
    + intros [|y l1] x l2 [= <- Hl2] Hne; [done|]. by eapply Hx.
    + intros x Hres. destruct (Hlast x Hres) as [sm' Hs]. exists sm'. by destruct l.
Qed.
End facts.

Section theorems.
Context {A W : Type} `{AddressPayload A} `{!MsgCrypto A} `{!MsgCryptoLaws A} `{!Node A W}.
Implicit Types (b : Broadcaster A) (w : W).

(** The address of the broadcaster is that of its key, as [to_address] of [run.rs] makes it for
    a regular or an Ethereum account; Ethereum accounts invoke a contract other than the
    address manager. *)
Definition owns_address b (contract : A) : Prop :=
  b_addr b = secp_address (b_key b) ∧ maybe_eth_address (b_addr b) = None ∨
  maybe_eth_address (b_addr b) = Some (drop 12 (keccak256 (drop 1 (public_key_bytes (b_key b))))) ∧ contract ≠ EAM_ACTOR_ADDR.
Lemma well_made_verifies b contract calldata chain_id w sm :
  well_made b contract calldata chain_id w sm → owns_address b contract → verify sm chain_id = Ok tt.
Proof.
  intros (Hnew & ps & n & limit & w1 & w2 & _ & _ & _ & Hm) Hown. apply (signed_message_verifies _ _ _ _ Hnew). rewrite Hm. cbn.
  destruct Hown as [?|[Hown Hc]]; [by left|]. right. split; [done|]. intros _. unfold verify_eth_method. cbn. by rewrite decide_False.
Qed.

End theorems.

(** ** Example: the first attempt loses a race for the sequence number 5, the second one has 6 *)
#[local] Instance example_race : Node Payload Z := {
  pending_sequence _ w := Ok (w + 1, Some w); estimate_gas _ w := Ok (w, (true, 100));
  broadcast_sync sm w := Ok (w, (if m_sequence (message sm) =? 5 then 2 else 0, [7]));
  sleep w := w; latest_height w := Ok (w, 0); over_estimate x := x + x / 4; block_gas_limit := 1000;
}.
Definition example_broadcaster : Broadcaster Payload := mkBroadcaster (toy_key 7 eq_refl) (secp_address (A := Payload) (toy_key 7 eq_refl)) 1 1 2.
