(* ===== verification/SignCheckpoint.v ===== *)
(** * Signing bottom-up checkpoints ([fvm/checkpoint.rs], [fvm/state/ipc.rs],
    [actor_interface/src/ipc.rs])

    After a block with a checkpoint, a validator signs every incomplete checkpoint that it
    has not signed yet: it waits until the block is committed, fetches the validators at the
    height of the checkpoint, and broadcasts a signature with a Merkle proof that it is one of
    them.  The tasks run after the block, so an error ends the loop and is logged.

    The ABI encoding of calls and values, and the answers of the node, are parameters. *)

From Stdlib Require Import Ascii String.
From stdpp Require Import base tactics numbers list gmap strings.
From S2P Require Import Prelude IpcApi Message Merkle Checkpoint Broadcast.

Open Scope Z_scope.

Definition VALIDATOR_TREE_FIELDS : list string := ["address"; "uint256"]%string.

(** The encodings of [ethers], the answers of the node on validators, and its clock. *)
Class CheckpointEnv (A M W : Type) `{MsgCrypto A} := {
  abi_tokenize : string → string → outcome string bytes;
  abi_encode_tokens : list bytes → bytes;
  show_address : bytes → string;
  checkpoint_abi_hash : BottomUpCheckpoint A M → bytes;
  signature_call : Z → list bytes → Z → bytes → option bytes;
  (** The validators at a height: the key as CometBFT has it, and the power. *)
  bft_validators : Z → W → outcome string (W * list (bytes * Z));
  validator_key : bytes → option bytes;
  gateway_addr : bytes;
}.

Section sign.
Context {A M W : Type} `{AddressPayload A} `{!MsgCrypto A} `{!Node A W} `{!CheckpointEnv A M W}.
Implicit Types (v : Validator bytes) (w : W) (cp : BottomUpCheckpoint A M).

(** ** The tree of validators *)

Definition validator_to_vec v : outcome string (list string) :=
  addr ← eth_address_of_key (public_key v);
  Ok [show_address addr; u64_to_string (power v)].
Fixpoint validators_to_vecs (vs : list (Validator bytes)) : outcome string (list (list string)) :=
  match vs with
  | [] => Ok []
  | v :: vs => x ← validator_to_vec v; xs ← validators_to_vecs vs; Ok (x :: xs)
  end.
Definition validator_tree_new (vs : list (Validator bytes)) : outcome string StandardMerkleTree :=
  values ← validators_to_vecs vs;
  map_err (λ _, "failed to construct Merkle tree"%string)
    (of_values (keccak256 (A := A)) Ok abi_tokenize abi_encode_tokens values VALIDATOR_TREE_FIELDS).
Definition root_hash (t : StandardMerkleTree) : outcome string bytes := Merkle.root id t.
Definition prove (t : StandardMerkleTree) v : outcome string (list bytes) :=
  x ← validator_to_vec v;
  map_err (λ _, "failed to produce Merkle proof"%string) (tree_get_proof (keccak256 (A := A)) Ok abi_tokenize abi_encode_tokens id t (LeafBytes x)).
Definition validate v (root : bytes) (proof : list bytes) : outcome string bool :=
  x ← validator_to_vec v;
  h ← standard_leaf_hash (keccak256 (A := A)) Ok abi_tokenize abi_encode_tokens x VALIDATOR_TREE_FIELDS;
  Ok (bool_decide (root = process_proof (keccak256 (A := A)) h proof)).

(** ** The call that adds a signature *)

(** [U256::to_big_endian], and [Signature::to_vec] of [ethers]. *)
Definition be32 (x : Z) : bytes := (λ i, (x / 256 ^ (31 - i)) mod 256) <$> seqZ 0 32.
Definition signature_bytes (s : EthSignature) : bytes := be32 (sig_r s) ++ be32 (sig_s s) ++ [sig_v s].
Definition add_checkpoint_signature_calldata cp (power_table : list (Validator bytes)) v (sk : SecretKey) : outcome string bytes :=
  esig ← map_err (λ _, "invalid signature"%string) (to_eth_signature (sign_secp256k1 (A := A) sk (checkpoint_abi_hash cp)) false);
  tree ← validator_tree_new power_table;
  proof ← map_err (λ _, "failed to construct Merkle proof"%string) (prove tree v);
  ok_or "no calldata for adding signature"%string (signature_call (cp_block_height cp) proof (power v) (signature_bytes esig)).

(** ** Broadcasting *)

(** [U256::as_u64] panics on larger numbers, and [Height] is an [i64]. *)
Definition as_u64 (x : Z) : outcome string Z := if x <=? U64_MAX then Ok x else Panic.
Definition height_try_from (x : Z) : outcome string Z := if x <? 2 ^ 63 then Ok x else Err "integer overflow"%string.
(** [None] if the height is not reached within [fuel] queries. *)
Fixpoint wait_for_commit (fuel : nat) (block_height : Z) w : option (outcome string W) :=
  match fuel with
  | O => None
  | S fuel =>
      match latest_height w with
      | Ok (w, h) => if block_height <=? h then Some (Ok w) else wait_for_commit fuel block_height (sleep w)
      | _ => Some (Err "failed to fetch latest commit"%string)
      end
  end.
Fixpoint to_validators (l : list (bytes * Z)) : outcome string (list (Validator bytes)) :=
  match l with
  | [] => Ok []
  | (k, p) :: l =>
      key ← ok_or "unexpected key type"%string (validator_key k);
      vs ← to_validators l;
      Ok (mkValidator key p :: vs)
  end.
Definition bft_power_table (height : Z) w : outcome string (W * list (Validator bytes)) :=
  r ← bft_validators height w;
  vs ← to_validators r.2;
  Ok (r.1, vs).

Record ValidatorContext := mkValidatorCtx { vc_secret_key : SecretKey; vc_public_key : bytes; vc_broadcaster : Broadcaster A }.
Implicit Types (ctx : ValidatorContext).
(** The transactions that were sent for a checkpoint, with the validators and the member they were made for. *)
Record Submission := mkSubmission { sub_checkpoint : BottomUpCheckpoint A M; sub_table : list (Validator bytes); sub_validator : Validator bytes;
  sub_calldata : bytes; sub_sent : list (SignedMessage A * Z) }.
Definition broadcast_signature ctx cp (table : list (Validator bytes)) v (chain_id : Z) w : list Submission * outcome string W :=
  match add_checkpoint_signature_calldata cp table v (vc_secret_key ctx) with
  | Ok calldata =>
      match eth_to_address gateway_addr with
      | Ok contract =>
          let '(sent, r) := broadcaster_invoke (vc_broadcaster ctx) contract calldata chain_id w in
          ([mkSubmission cp table v calldata sent], x ← map_err (λ _, "failed to broadcast signature"%string) r; Ok x.1)
      | Err e => ([], Err e)
      | Panic => ([], Panic)
      | Retry => ([], Retry)
      end
  | Err e => ([], Err "failed to produce checkpoint signature calldata"%string)
  | Panic => ([], Panic)
  | Retry => ([], Retry)
  end.
Definition find_validator ctx (table : list (Validator bytes)) : option (Validator bytes) := snd <$> list_find (λ v, public_key v = vc_public_key ctx) table.
Definition sign_one ctx cp (chain_id : Z) w : list Submission * outcome string W :=
  match (x ← as_u64 (cp_block_height cp); h ← height_try_from x; map_err (λ _, "failed to get power table"%string) (bft_power_table h w)) with
  | Ok (w, table) =>
      match find_validator ctx table with
      | Some v => broadcast_signature ctx cp table v chain_id w
      | None => ([], Ok w)
      end
  | Err e => ([], Err e)
  | Panic => ([], Panic)
  | Retry => ([], Retry)
  end.
Fixpoint sign_loop ctx (cps : list (BottomUpCheckpoint A M)) (chain_id : Z) w : list Submission * outcome string W :=
  match cps with
  | [] => ([], Ok w)
  | cp :: cps =>
      match sign_one ctx cp chain_id w with
      | (subs, Ok w) => let '(rest, r) := sign_loop ctx cps chain_id w in (subs ++ rest, r)
      | r => r
      end
  end.
Definition highest (cps : list (BottomUpCheckpoint A M)) : option Z :=
  foldl (λ acc cp, Some (match acc with Some h => Z.max h (cp_block_height cp) | None => cp_block_height cp end)) None cps.
Definition broadcast_incomplete_signatures (fuel : nat) ctx (cps : list (BottomUpCheckpoint A M)) (chain_id : Z) w : option (list Submission * outcome string W) :=
  match highest cps with
  | None => Some (sign_loop ctx cps chain_id w)
  | Some h =>
      match as_u64 h with
      | Ok h =>
          r ← wait_for_commit fuel (h + 1)%u64 w;
          Some (match r with Ok w => sign_loop ctx cps chain_id w | _ => ([], Err "failed to wait for commit"%string) end)
      | _ => Some ([], Panic)
      end
  end.
End sign.
Arguments ValidatorContext A {_}.
Arguments Submission A M : clear implicits.

(** ** Proofs of membership *)

Section facts.
Context {A M W : Type} `{AddressPayload A} `{!MsgCrypto A} `{!MsgCryptoLaws A} `{!Node A W} `{!CheckpointEnv A M W}.
Implicit Types (v : Validator bytes) (w : W) (cp : BottomUpCheckpoint A M).

Lemma to_vecs_elem vs vecs v : validators_to_vecs (M := M) (W := W) vs = Ok vecs → v ∈ vs → ∃ k x, vecs !! k = Some x ∧ validator_to_vec (M := M) (W := W) v = Ok x.
Proof.
  revert vecs. induction vs as [|u vs IH]; intros vecs Hv Hin; cbn in Hv; [by apply elem_of_nil in Hin|].
  apply bind_Ok in Hv as (x & Hx & Hv). apply bind_Ok in Hv as (xs & Hxs & [= <-]). apply elem_of_cons in Hin as [->|Hin]; [by exists 0%nat, x|].
  destruct (IH _ Hxs Hin) as (k & y & ? & ?). by exists (S k), y.
Qed.

(** A validator of a power table can always prove that it is one: in the tree of the
    table, [prove] succeeds for every member, and [validate] accepts the proof against the
    root of the tree, which is what the gateway stores for a checkpoint. *)
Theorem validator_proof_validates vs t v :
  validator_tree_new (M := M) (W := W) vs = Ok t → Z.of_nat (length (nodes t)) <= I32_MAX → v ∈ vs →
  ∃ proof r, prove (M := M) (W := W) t v = Ok proof ∧ root_hash t = Ok r ∧ validate (M := M) (W := W) v r proof = Ok true.
Proof.
  unfold validator_tree_new. intros (vecs & Hvs & Ht)%bind_Ok Hn Hin. apply map_err_Ok in Ht. destruct (to_vecs_elem _ _ _ Hvs Hin) as (k & x & Hk & Hx).
  destruct (value_proofs_verify _ _ _ _ id _ _ _ _ _ Ht Hn Hk) as (h & _ & proof & r & Hh & Hr & _ & _ & Hp & Hpr).
  exists proof, r. unfold prove, root_hash, Merkle.root, validate. rewrite Hx. cbn [mbind outcome_bind]. rewrite Hp, Hr, Hh. cbn. rewrite list_fmap_id. split_and!; [done..|].
  by rewrite bool_decide_eq_true_2.
Qed.

(** What a validator sent for a checkpoint: a call that adds a signature for its height, with
    the power of the validator in the table, a proof that validates against the root of the tree
    of the table (for tables that the tree can index), and a signature of the hash of the
    checkpoint that recovers to the address of the validator; the last transaction was accepted,
    verifies on the chain, and makes that call at the gateway. *)
Definition submitted (ctx : ValidatorContext A) (chain_id : Z) (s : Submission A M) : Prop :=
  let cp := sub_checkpoint s in
  let v := sub_validator s in
  v ∈ sub_table s ∧ public_key v = vc_public_key ctx ∧
  (∃ t proof esig addr,
     validator_tree_new (M := M) (W := W) (sub_table s) = Ok t ∧
     (Z.of_nat (length (nodes t)) <= I32_MAX →
        ∃ r, root_hash t = Ok r ∧ validate (M := M) (W := W) v r proof = Ok true) ∧
     eth_address_of_key (A := A) (E := string) (public_key v) = Ok addr ∧
     eth_recover (mkEthSig (sig_v esig - 27) (sig_r esig) (sig_s esig)) (checkpoint_abi_hash cp) = Some addr ∧
     signature_call (cp_block_height cp) proof (power v) (signature_bytes esig) = Some (sub_calldata s)) ∧
  ∃ sm contract, last (sub_sent s) = Some (sm, 0) ∧ verify sm chain_id = Ok tt ∧
    eth_to_address (E := string) gateway_addr = Ok contract ∧ m_from (message sm) = b_addr (vc_broadcaster ctx) ∧
    m_to (message sm) = contract ∧ m_method_num (message sm) = INVOKE_CONTRACT ∧
    bytes_ser (sub_calldata s) = Some (m_params (message sm)).

(** The states of a round: for each checkpoint the validators are fetched in the state that the
    previous one left, and the broadcast, if there is one, starts in the state after that. *)
Inductive signing_round (ctx : ValidatorContext A) (chain_id : Z) :
  W → list (BottomUpCheckpoint A M * list (Validator bytes)) → list (Submission A M) → W → Prop :=
| round_end w : signing_round ctx chain_id w [] [] w
| round_absent cp table l subs w w1 w' :
    bft_power_table (A := A) (M := M) (cp_block_height cp) w = Ok (w1, table) → find_validator ctx table = None →
    signing_round ctx chain_id w1 l subs w' → signing_round ctx chain_id w ((cp, table) :: l) subs w'
| round_member cp table v contract calldata sent hash l subs w w1 w2 w' :
    bft_power_table (A := A) (M := M) (cp_block_height cp) w = Ok (w1, table) → find_validator ctx table = Some v →
    eth_to_address (E := string) gateway_addr = Ok contract →
    broadcaster_invoke (vc_broadcaster ctx) contract calldata chain_id w1 = (sent, Ok (w2, hash)) →
    signing_round ctx chain_id w2 l subs w' →
    signing_round ctx chain_id w ((cp, table) :: l) (mkSubmission cp table v calldata sent :: subs) w'.

Lemma find_validator_Some (ctx : ValidatorContext A) table v : find_validator ctx table = Some v → v ∈ table ∧ public_key v = vc_public_key ctx.
Proof.
  unfold find_validator. intros ([i u] & (Hi & Hk & _)%list_find_Some & ->)%fmap_Some. split; [by eapply list_elem_of_lookup_2|done].
Qed.

(** A broadcast that succeeds makes a submission as described. *)
Lemma broadcast_submitted ctx cp table v calldata contract chain_id w sent x :
  vc_public_key ctx = public_key_bytes (vc_secret_key ctx) → owns_address (vc_broadcaster ctx) contract →
  find_validator ctx table = Some v → add_checkpoint_signature_calldata cp table v (vc_secret_key ctx) = Ok calldata →
  eth_to_address (E := string) gateway_addr = Ok contract →
  broadcaster_invoke (vc_broadcaster ctx) contract calldata chain_id w = (sent, Ok x) →
  submitted ctx chain_id (mkSubmission cp table v calldata sent).
Proof.
  intros Hpk Hown [Hin Hk]%find_validator_Some Hc Hg Hb. split; [done|]. split; [done|]. split; cbn.
  - unfold add_checkpoint_signature_calldata in Hc. destruct (to_eth_signature_sign_shifted (A := A) (vc_secret_key ctx) (checkpoint_abi_hash cp)) as (esig & He & Hrec).
    apply bind_Ok in Hc as (e & He' & Hc). apply map_err_Ok in He'. assert (e = esig) as -> by congruence.
    apply bind_Ok in Hc as (t & Ht & Hc). apply bind_Ok in Hc as (proof & Hp & Hc). apply map_err_Ok in Hp.
    assert (Hcall : signature_call (cp_block_height cp) proof (power v) (signature_bytes esig) = Some calldata)
      by (destruct (signature_call _ _ _ _); by simplify_eq/=).
    exists t, proof, esig, (drop 12 (keccak256 (drop 1 (public_key_bytes (vc_secret_key ctx))))). split_and!; [done| | |done|done].
    + intros Hn. destruct (validator_proof_validates table t v Ht Hn Hin) as (proof' & r & Hp' & Hr & Hv). exists r. split; congruence.
    + rewrite Hk, Hpk. apply eth_address_of_public_key.
  - apply retry_loop_spec in Hb as (l & Hl & _ & Hw & _ & Hlast). cbn in Hl. subst l. destruct (Hlast _ eq_refl) as [sm Hs]. exists sm, contract.
    rewrite last_lookup in Hs. destruct (Hw _ _ _ Hs) as (wi & _ & Hm). rewrite <- last_lookup in Hs. pose proof (well_made_verifies _ _ _ _ _ _ Hm Hown) as Hver.
    destruct Hm as (_ & ps & n & limit & w1 & w2 & Hser & _ & _ & Hm). rewrite Hm. by split_and!.
Qed.
Lemma sign_one_spec ctx cp chain_id w subs w' :
  vc_public_key ctx = public_key_bytes (vc_secret_key ctx) →
  (∀ contract, eth_to_address (E := string) gateway_addr = Ok contract → owns_address (vc_broadcaster ctx) contract) →
  sign_one ctx cp chain_id w = (subs, Ok w') →
  ∃ table, (∀ l subs' w'', signing_round ctx chain_id w' l subs' w'' → signing_round ctx chain_id w ((cp, table) :: l) (subs ++ subs') w'') ∧
    (λ s, (sub_checkpoint s, sub_table s)) <$> subs = filter (λ x, is_Some (find_validator ctx x.2)) [(cp, table)] ∧ Forall (submitted ctx chain_id) subs.
Proof.
  intros Hpk Hown. unfold sign_one, as_u64, height_try_from. destruct (_ <=? U64_MAX); [|done]. cbn [mbind outcome_bind]. destruct (_ <? 2 ^ 63); [|done]. cbn [mbind outcome_bind].
  destruct (map_err _ _) as [[w1 table]| | |] eqn:Ht; try done. apply map_err_Ok in Ht.
  destruct (find_validator ctx table) as [v|] eqn:Hf.
  2:{ intros [= <- <-]. exists table. split_and!; [by econstructor| |by apply Forall_nil]. rewrite filter_cons_False; [done|]. cbn [snd]. rewrite Hf. by intros []. }
  unfold broadcast_signature. destruct (add_checkpoint_signature_calldata _ _ _ _) as [cd| | |] eqn:Hc; try done. destruct (eth_to_address gateway_addr) as [contract| | |] eqn:Hg; try done.
  destruct (broadcaster_invoke _ _ _ _ _) as [sent r] eqn:Hb. intros [= <- Hr]. apply bind_Ok in Hr as ([w2 hash] & Hr & [= <-]). apply map_err_Ok in Hr. subst r.
  exists table. split_and!; [intros; by eapply round_member|rewrite filter_cons_True; [done|]; cbn [snd]; rewrite Hf; by exists v|].
  constructor; [|constructor]. eapply broadcast_submitted; eauto.
Qed.

(** C18. A round of signing covers all checkpoints.  The validator's public key is that of its
    secret key, and the address of its broadcaster is that of the broadcaster's key.  If the round
    ends without an error, then the validators were fetched once for each checkpoint, in a run of
    the node that starts where the round does; there is one submission for each checkpoint at whose
    height the validator is in the table that was fetched, in the order of the checkpoints, and
    none for the others.  Each carries a signature of that checkpoint that recovers to the
    validator, its power, and a proof that validates against the root of the tree of that table,
    and its last transaction was accepted by the node. *)
Theorem every_membership_is_signed ctx cps chain_id w subs w' :
  vc_public_key ctx = public_key_bytes (vc_secret_key ctx) →
  (∀ contract, eth_to_address (E := string) gateway_addr = Ok contract → owns_address (vc_broadcaster ctx) contract) →
  sign_loop ctx cps chain_id w = (subs, Ok w') →
  ∃ tables, length tables = length cps ∧ signing_round ctx chain_id w (zip cps tables) subs w' ∧
    (λ s, (sub_checkpoint s, sub_table s)) <$> subs = filter (λ x, is_Some (find_validator ctx x.2)) (zip cps tables) ∧ Forall (submitted ctx chain_id) subs.
Proof.
  intros Hpk Hown. revert w subs. induction cps as [|cp cps IH]; intros w subs; cbn [sign_loop]; [intros [= <- <-]; exists []; split_and!; [done|constructor|done|constructor]|].
  destruct (sign_one ctx cp chain_id w) as [s1 [w1| | |]] eqn:H1; try done. destruct (sign_loop ctx cps chain_id w1) as [s2 r] eqn:H2. intros [= <- ->].
  destruct (sign_one_spec _ _ _ _ _ _ Hpk Hown H1) as (t & Ht & Hs1 & Hf1). destruct (IH _ _ H2) as (ts & Hl & Hts & Hs2 & Hf2). exists (t :: ts).
  split_and!; [cbn; congruence|by apply Ht| |by apply Forall_app]. rewrite fmap_app, Hs1, Hs2. cbn [zip zip_with]. by rewrite (filter_app _ [(cp, t)] (zip cps ts)).
Qed.

(** Waiting ends once the node reaches the height: it is enough to ask that it does so within [n] pauses. *)
Fixpoint later (n : nat) w : option W := match n with O => Some w | S n => match latest_height w with Ok (w, _) => later n (sleep w) | _ => None end end.
Lemma wait_terminates n block_height w w1 w2 h : later n w = Some w1 → latest_height w1 = Ok (w2, h) → block_height <= h →
  ∀ fuel, (n < fuel)%nat → ∃ w', wait_for_commit fuel block_height w = Some (Ok w').
Proof.
  revert w. induction n as [|n IH]; intros w Hn Hh Hle fuel Hf; (destruct fuel as [|fuel]; [lia|]); cbn in *.
  - injection Hn as ->. rewrite Hh. rewrite (proj2 (Z.leb_le _ _)) by done. eauto.
  - destruct (latest_height w) as [[w3 h3]| | |]; try done. destruct (block_height <=? h3); [eauto|]. apply (IH (sleep w3)); [done..|lia].
Qed.
End facts.

(** ** Example: a validator that signs two checkpoints at a node that accepts everything *)
#[local] Instance example_node : Node Payload Z := {
  pending_sequence _ w := Ok (w, Some w); estimate_gas _ w := Ok (w, (true, 100)); broadcast_sync _ w := Ok (w + 1, (0, []));
  sleep w := w; latest_height w := Ok (w, 50); over_estimate x := x; block_gas_limit := 1000;
}.
#[local] Instance example_checkpoint_env : CheckpointEnv Payload unit Z := {
  abi_tokenize _ s := Ok (Z.of_nat ∘ Ascii.nat_of_ascii <$> String.list_ascii_of_string s); abi_encode_tokens l := concat l;
  show_address b := u64_to_string (from_be_bytes (drop 12 b)); checkpoint_abi_hash cp := replicate 32 (cp_block_height cp);
  signature_call h proof p s := Some (h :: p :: concat proof ++ s); bft_validators h w := Ok (w, [(replicate 65 3, 10); (replicate 65 4, 20)]);
  validator_key k := Some k; gateway_addr := replicate 20 9;
}.
Definition example_table : list (Validator bytes) := [mkValidator (replicate 65 3) 10; mkValidator (replicate 65 4) 20].
Lemma validator_proof_validates_witness : ∃ t proof r, validator_tree_new (A := Payload) (M := unit) (W := Z) example_table = Ok t ∧
  prove (A := Payload) (M := unit) (W := Z) t (mkValidator (replicate 65 4) 20) = Ok proof ∧ root_hash t = Ok r ∧
  validate (A := Payload) (M := unit) (W := Z) (mkValidator (replicate 65 4) 20) r proof = Ok true.
Proof.
  assert (Ht : match validator_tree_new (A := Payload) (M := unit) (W := Z) example_table with Ok t => Z.of_nat (length (nodes t)) <=? I32_MAX | _ => false end = true)
    by (vm_compute; reflexivity).
  destruct (validator_tree_new _) as [t| | |] eqn:He; [|discriminate Ht..]. apply Z.leb_le in Ht.
  destruct (validator_proof_validates (A := Payload) (M := unit) (W := Z) example_table t (mkValidator (replicate 65 4) 20) He Ht) as (proof & r & ?); [by right; left|].
  by exists t, proof, r.
Defined.
Definition example_ctx : ValidatorContext Payload :=
  mkValidatorCtx (toy_key 4 eq_refl) (replicate 65 4) (mkBroadcaster (toy_key 7 eq_refl) (secp_address (A := Payload) (toy_key 7 eq_refl)) 1 1 2).
Definition example_checkpoint (h : Z) : BottomUpCheckpoint Payload unit := mkCheckpoint (mkSubnetID 1 []) h [] 0 [].
Lemma every_membership_is_signed_witness : ∃ subs w' tables,
  sign_loop example_ctx [example_checkpoint 10; example_checkpoint 20] 1337 5 = (subs, Ok w') ∧ length subs = 2%nat ∧
  (λ s, (sub_checkpoint s, sub_table s)) <$> subs = filter (λ x, is_Some (find_validator example_ctx x.2)) (zip [example_checkpoint 10; example_checkpoint 20] tables).
Proof.
  assert (Hr : match sign_loop example_ctx [example_checkpoint 10; example_checkpoint 20] 1337 5 with (subs, Ok _) => bool_decide (length subs = 2%nat) | _ => false end = true)
    by (vm_compute; reflexivity).
  destruct (sign_loop example_ctx [example_checkpoint 10; example_checkpoint 20] 1337 5) as [subs [w'| | |]] eqn:He; [|discriminate Hr..]. apply bool_decide_eq_true in Hr.
  destruct (every_membership_is_signed example_ctx [example_checkpoint 10; example_checkpoint 20] 1337 5 subs w') as (tables & _ & _ & Hs & _).
  - vm_compute. reflexivity.
  - intros contract _. left. split; [reflexivity|vm_compute; reflexivity].
  - exact He.
  - exists subs, w', tables. split; [reflexivity|]. split; [exact Hr|exact Hs].
Defined.
