(* ===== verification/EvmKeyStore.v ===== *)
(** * The Ethereum key store ([ipc/wallet/src/evm])

    Private keys by address, in memory and in a JSON file.  The default key is a
    second entry under the default value of the key type, with its address cached.
    The file models [memory.rs], [persistent.rs] and the key type of [mod.rs].

    The key type is the class [KeyT], which [EthKeyAddress] implements; deriving an
    address from a private key ([ethers]), the JSON format ([serde_json]) and the order
    in which a hash map is iterated are parameters.  The file system does what it is
    asked to: there are no input and output errors. *)

From Stdlib Require Import Ascii String.
From stdpp Require Import base tactics numbers list gmap strings.
From S2P Require Import Prelude TmConv.

Open Scope Z_scope.

(** ** Keys *)

Record KeyInfo := mkKeyInfo { private_key : bytes }.
Record PersistentKeyInfo := mkPersistentInfo { address : string; hex_private_key : string }.

#[export] Instance key_info_eq_dec : EqDecision KeyInfo.
Proof. solve_decision. Defined.

Class KeyT (T : Type) := {
  key_eq_dec :: EqDecision T;
  key_countable :: Countable T;
  key_default : T;
  key_to_string : T → string;
  key_try_from : KeyInfo → option T;
}.
Class KeyTLaws (T : Type) `{KeyT T} : Prop := {
  key_string_default k : key_to_string k = key_to_string key_default → k = key_default;
}.

(** *** [EthKeyAddress] *)

Record EthKeyAddress := mkEthKey { inner : bytes }.
#[export] Instance eth_key_eq_dec : EqDecision EthKeyAddress.
Proof. solve_decision. Defined.
#[export] Instance eth_key_countable : Countable EthKeyAddress.
Proof. apply (inj_countable' inner mkEthKey). by intros []. Defined.

Definition eth_key_default : EthKeyAddress := mkEthKey (repeat 0 20).
Definition eth_key_to_string (k : EthKeyAddress) : string :=
  if decide (k = eth_key_default) then "default-key" else "0x" ++ lower_hex (inner k).
(** [Wallet::from_bytes] and [address] of [ethers]. *)
Class EthersWallet := { wallet_address : bytes → option bytes }.
#[export] Instance EthKeyAddress_key `{EthersWallet} : KeyT EthKeyAddress := {
  key_default := eth_key_default;
  key_to_string := eth_key_to_string;
  key_try_from info := mkEthKey <$> wallet_address (private_key info);
}.
#[export] Instance EthKeyAddress_laws `{EthersWallet} : KeyTLaws EthKeyAddress.
Proof.
  split. intros k. cbn. unfold eth_key_to_string. rewrite (decide_True (P := eth_key_default = _)) by done.
  by destruct (decide (k = eth_key_default)).
Qed.

(** ** Parameters *)

Class KeyFile (T : Type) `{KeyT T} := {
  to_writer : list PersistentKeyInfo → bytes;
  from_reader : bytes → option (list PersistentKeyInfo);
  iter : gmap T KeyInfo → list (T * KeyInfo);
}.
Class KeyFileLaws (T : Type) `{KeyFile T} : Prop := {
  keyfile_roundtrip l : from_reader (to_writer l) = Some l;
  iter_perm m : iter m ≡ₚ map_to_list m;
}.

Inductive KeyStoreError :=
| CannotConvert | NotInKeyStore | CannotGetAddress | BadKeyFile | BadHex.

(** ** The store in memory *)

Record MemoryKeyStore (T : Type) `{KeyT T} := mkMemory {
  data : gmap T KeyInfo;
  default_key : option T;
}.
Arguments mkMemory {T _} data default_key.
Arguments data {T _} m.
Arguments default_key {T _} m.
Record PersistentKeyStore (T : Type) `{KeyT T} := mkPersistent {
  memory : MemoryKeyStore T;
  file : option bytes;
}.
Arguments mkPersistent {T _} memory file.
Arguments memory {T _} p.
Arguments file {T _} p.

Section store.
Context {T : Type} `{KeyT T}.
Implicit Types m : MemoryKeyStore T.

Definition memory_get m (addr : T) : option KeyInfo := data m !! addr.
Definition memory_list `{!KeyFile T} m : list T := (iter (data m)).*1.

Definition memory_put m (info : KeyInfo) : outcome KeyStoreError (MemoryKeyStore T * T) :=
  addr ← ok_or CannotConvert (key_try_from info);
  Ok (mkMemory (<[addr := info]> (data m)) (default_key m), addr).

(** The inner call of [remove] finds the cached default gone and only deletes the entry. *)
Definition memory_remove m (addr : T) : MemoryKeyStore T :=
  let m := if decide (default_key m = Some addr) then mkMemory (delete key_default (data m)) None else m in
  mkMemory (delete addr (data m)) (default_key m).

Definition memory_set_default m (addr : T) : outcome KeyStoreError (MemoryKeyStore T) :=
  match memory_get m addr with
  | Some i => Ok (mkMemory (<[key_default := i]> (data m)) (Some addr))
  | None => Err NotInKeyStore
  end.

Definition memory_get_default m : outcome KeyStoreError (MemoryKeyStore T * option T) :=
  match default_key m, memory_get m key_default with
  | None, Some info =>
      k ← ok_or CannotGetAddress (key_try_from info);
      Ok (mkMemory (data m) (Some k), Some k)
  | d, _ => Ok (m, d)
  end.

(** ** The store in a file *)

Context `{!KeyFile T} `{!HexCodec}.
Implicit Types p : PersistentKeyStore T.

Definition to_persist (e : T * KeyInfo) : PersistentKeyInfo :=
  mkPersistentInfo (key_to_string e.1) (hex_encode (private_key e.2)).
Definition flush_no_encryption (m : MemoryKeyStore T) : PersistentKeyStore T :=
  mkPersistent m (Some (to_writer (to_persist <$> iter (data m)))).

Definition read_entry (info : PersistentKeyInfo) : outcome KeyStoreError (T * KeyInfo) :=
  pk ← ok_or BadHex (hex_decode (hex_private_key info));
  let key_info := mkKeyInfo pk in
  if decide (address info = key_to_string key_default) then Ok (key_default, key_info)
  else addr ← ok_or CannotConvert (key_try_from key_info); Ok (addr, key_info).
Fixpoint read_entries (acc : gmap T KeyInfo) (infos : list PersistentKeyInfo) : outcome KeyStoreError (gmap T KeyInfo) :=
  match infos with
  | [] => Ok acc
  | info :: infos => e ← read_entry info; read_entries (<[e.1 := e.2]> acc) infos
  end.

Definition persistent_new (f : option bytes) : outcome KeyStoreError (PersistentKeyStore T) :=
  match f with
  | None => Ok (mkPersistent (mkMemory ∅ None) None)
  | Some b =>
      infos ← ok_or BadKeyFile (from_reader b);
      key_infos ← read_entries ∅ infos;
      d ← match key_infos !! key_default with
          | Some i => Some <$> ok_or CannotGetAddress (key_try_from i)
          | None => Ok None
          end;
      Ok (mkPersistent (mkMemory key_infos d) f)
  end.

Definition persistent_put p (info : KeyInfo) : outcome KeyStoreError (PersistentKeyStore T * T) :=
  '(m, addr) ← memory_put (memory p) info;
  Ok (flush_no_encryption m, addr).
Definition persistent_remove p (addr : T) : PersistentKeyStore T :=
  flush_no_encryption (memory_remove (memory p) addr).
Definition persistent_set_default p (addr : T) : outcome KeyStoreError (PersistentKeyStore T) :=
  m ← memory_set_default (memory p) addr;
  Ok (flush_no_encryption m).
Definition persistent_get_default p : outcome KeyStoreError (PersistentKeyStore T * option T) :=
  '(m, d) ← memory_get_default (memory p);
  Ok (flush_no_encryption m, d).

(** The life of a store: callers name keys by their address, never by the default
    value of the key type, which is not the address of a key they hold. *)
Inductive key_step : relation (PersistentKeyStore T) :=
| step_put p info p' addr : is_bytes (private_key info) → addr ≠ key_default →
    persistent_put p info = Ok (p', addr) → key_step p p'
| step_remove p addr : addr ≠ key_default → key_step p (persistent_remove p addr)
| step_set_default p addr p' : addr ≠ key_default → persistent_set_default p addr = Ok p' → key_step p p'
| step_get_default p p' d : persistent_get_default p = Ok (p', d) → key_step p p'
| step_reopen p p' : persistent_new (file p) = Ok p' → key_step p p'.
Definition store_reachable p : Prop := rtc key_step (mkPersistent (mkMemory ∅ None) None) p.
End store.

(** ** Invariant *)

Section invariant.
Context {T : Type} `{KeyT T} `{!KeyTLaws T} `{!KeyFile T} `{!KeyFileLaws T} `{!HexCodec} `{!HexCodecLaws}.
Implicit Types m : MemoryKeyStore T.
Implicit Types p : PersistentKeyStore T.

(** Every entry is stored under the address of its key, but for the default entry; the
    cached default is the address of that entry, and is an entry itself. *)
Record memory_inv m : Prop := {
  inv_bytes a i : data m !! a = Some i → is_bytes (private_key i);
  inv_address a i : data m !! a = Some i → a ≠ key_default → key_try_from i = Some a;
  inv_default : default_key m = data m !! key_default ≫= key_try_from;
  inv_default_addr i : data m !! key_default = Some i → ∃ a, key_try_from i = Some a ∧ a ≠ key_default ∧ is_Some (data m !! a);
}.
Definition file_inv p : Prop :=
  match file p with
  | None => data (memory p) = ∅
  | Some b => b = to_writer (to_persist <$> iter (data (memory p)))
  end.

Lemma put_key_inv m info m' addr :
  memory_inv m → is_bytes (private_key info) → addr ≠ key_default → memory_put m info = Ok (m', addr) → memory_inv m'.
Proof.
  intros [I1 I2 I3 I4] Hb Hd. unfold memory_put. destruct (key_try_from info) as [a|] eqn:Ha; [|done]. intros [= <- ->]. split; cbn [data default_key].
  - intros b i. rewrite lookup_insert_Some. naive_solver.
  - intros b i. rewrite lookup_insert_Some. naive_solver.
  - by rewrite lookup_insert_ne.
  - intros i. rewrite lookup_insert_ne by done. intros (b & ? & ? & ?)%I4. exists b. split_and!; [done..|]. rewrite lookup_insert_is_Some'. by right.
Qed.
Lemma set_default_inv m addr m' :
  memory_inv m → addr ≠ key_default → memory_set_default m addr = Ok m' → memory_inv m'.
Proof.
  intros [I1 I2 I3 I4] Hd. unfold memory_set_default, memory_get. destruct (data m !! addr) as [info|] eqn:Ha; [|done]. intros [= <-]. split; cbn [data default_key].
  - intros b i. rewrite lookup_insert_Some. naive_solver.
  - intros b i. rewrite lookup_insert_Some. naive_solver.
  - rewrite lookup_insert_eq. cbn. by rewrite (I2 addr).
  - intros i. rewrite lookup_insert_eq. intros [= <-]. exists addr. rewrite lookup_insert_ne by done. eauto.
Qed.
Lemma remove_inv m addr : memory_inv m → addr ≠ key_default → memory_inv (memory_remove m addr).
Proof.
  intros [I1 I2 I3 I4] Hd. unfold memory_remove. destruct (decide _) as [He|He]; split; cbn [data default_key].
  - intros b i. rewrite !lookup_delete_Some. naive_solver.
  - intros b i. rewrite !lookup_delete_Some. naive_solver.
  - by rewrite lookup_delete_ne, lookup_delete_eq.
  - intros i. by rewrite lookup_delete_ne, lookup_delete_eq.
  - intros b i. rewrite lookup_delete_Some. naive_solver.
  - intros b i. rewrite lookup_delete_Some. naive_solver.
  - by rewrite lookup_delete_ne.
  - intros i. rewrite lookup_delete_ne by done. intros Hi. destruct (I4 i Hi) as (b & Hb & ? & ?). exists b. split_and!; [done..|].
    rewrite lookup_delete_ne; [done|]. intros <-. apply He. by rewrite I3, Hi.
Qed.
(** The cached default is never missing, so [get_default] changes nothing. *)
Lemma get_default_id m : memory_inv m → memory_get_default m = Ok (m, default_key m).
Proof.
  intros [_ _ I3 I4]. unfold memory_get_default, memory_get. destruct (default_key m) eqn:He; [by destruct (data m !! key_default)|].
  destruct (data m !! key_default) as [i|] eqn:Hi; [|done]. destruct (I4 i eq_refl) as (a & Ha & _). cbn in I3. congruence.
Qed.

(** *** Reading back what was written *)

Lemma read_to_persist m a i : memory_inv m → data m !! a = Some i → read_entry (to_persist (a, i)) = Ok (a, i).
Proof.
  intros Hi Ha. unfold read_entry, to_persist. cbn. rewrite hex_roundtrip by (by eapply inv_bytes). destruct i as [pk]. cbn.
  destruct (decide _) as [->%key_string_default|Hn]; [done|]. rewrite (inv_address m Hi a _ Ha) by (by intros ->). done.
Qed.
Lemma read_entries_spec m l acc : memory_inv m → (∀ e, e ∈ l → data m !! e.1 = Some e.2) →
  read_entries acc (to_persist <$> l) = Ok (foldl (λ acc e, <[e.1 := e.2]> acc) acc l).
Proof.
  intros Hi. revert acc. induction l as [|[a i] l IH]; intros acc Hl; [done|]. cbn [fmap list_fmap read_entries].
  rewrite (read_to_persist m) by (done || apply (Hl (a, i)); by left). cbn. apply IH. intros e He. apply Hl. by right.
Qed.
Lemma foldl_insert_iter (m : gmap T KeyInfo) : foldl (λ acc e, <[e.1 := e.2]> acc) ∅ (iter m) = m.
Proof.
  pose proof (iter_perm m) as Hp. set (l := reverse (iter m)).
  assert (Hf : foldl (λ acc e, <[e.1 := e.2]> acc) ∅ (iter m) = (list_to_map l : gmap T KeyInfo)).
  { unfold l. generalize (iter m). intros k. induction k as [|x k IH] using rev_ind; [done|]. rewrite foldl_app, reverse_app, IH. by destruct x. }
  rewrite Hf. assert (Hl : l ≡ₚ map_to_list m) by (unfold l; by rewrite reverse_Permutation).
  rewrite (list_to_map_proper l (map_to_list m)); [apply list_to_map_to_list| |done].
  rewrite Hl. apply NoDup_fst_map_to_list.
Qed.

Lemma reopen_spec p : memory_inv (memory p) → file_inv p → persistent_new (file p) = Ok p.
Proof.
  intros Hi Hf. unfold persistent_new, file_inv in *. destruct p as [m [b|]]; cbn [file memory] in *.
  - subst b. rewrite keyfile_roundtrip. cbn [ok_or mbind outcome_bind]. rewrite (read_entries_spec m) by
      (done || intros [a i]; rewrite iter_perm; apply elem_of_map_to_list). cbn. rewrite foldl_insert_iter.
    pose proof (inv_default m Hi) as Hd. destruct (data m !! key_default) as [i|] eqn:Hk.
    + destruct (inv_default_addr m Hi i Hk) as (a & Ha & _). cbn in Hd. rewrite Ha in Hd |- *. cbn. rewrite <- Hd. by destruct m.
    + cbn in *. rewrite <- Hd. by destruct m.
  - destruct m as [d k]. cbn in *. subst d. pose proof (inv_default _ Hi) as Hd. cbn in Hd. rewrite lookup_empty in Hd. cbn in Hd. by subst k.
Qed.

Lemma key_step_inv p p' : memory_inv (memory p) ∧ file_inv p → key_step p p' → memory_inv (memory p') ∧ file_inv p'.
Proof.
  intros [Hi Hf]. destruct 1 as [p info p' addr Hb Hd Hs|p addr Hd|p addr p' Hd Hs|p p' d Hs|p p' Hs].
  - unfold persistent_put in Hs. apply bind_Ok in Hs as ([m a] & Hm & [= <- ->]). split; [by eapply put_key_inv|done].
  - split; [by apply remove_inv|done].
  - unfold persistent_set_default in Hs. apply bind_Ok in Hs as (m & Hm & [= <-]). split; [by eapply set_default_inv|done].
  - unfold persistent_get_default in Hs. rewrite get_default_id in Hs by done. cbn in Hs. simplify_eq. done.
  - rewrite reopen_spec in Hs by done. by simplify_eq.
Qed.
Lemma store_reachable_inv p : store_reachable p → memory_inv (memory p) ∧ file_inv p.
Proof.
  intros Hr. unfold store_reachable in Hr. remember (mkPersistent (mkMemory ∅ None) None) as p0 eqn:E0.
  assert (Hi : memory_inv (memory p0) ∧ file_inv p0).
  { subst. split; [|done]. split; cbn; intros; by rewrite ?lookup_empty in *. }
  clear E0. induction Hr as [|???? _ IH]; [done|]. apply IH. by eapply key_step_inv.
Qed.

(** C25. Opening the file of a key store gives the store back, as long as its users name keys
    by their addresses.  Take any sequence of puts of keys, of removals and changes of the
    default by an address other than the default value of the key type, of reads of the default
    and of reopenings.  Then reading the file yields the same keys and the same default; and the
    default, if there is one, is the address of a key that is stored.  Removing the entry of
    the default by its own name is excluded: there the store keeps a stale default, which
    [removed_default_is_cached] shows. *)
Theorem keystore_reopens p : store_reachable p →
  persistent_new (file p) = Ok p ∧
  ∃ p', persistent_get_default p = Ok (p', default_key (memory p)) ∧ memory p' = memory p ∧
    ∀ a, default_key (memory p) = Some a → ∃ i, memory_get (memory p) a = Some i ∧ key_try_from i = Some a.
Proof.
  intros [Hi Hf]%store_reachable_inv. split; [by apply reopen_spec|]. unfold persistent_get_default. rewrite get_default_id by done.
  eexists. split; [done|]. split; [done|]. intros a Ha. rewrite inv_default in Ha by done. apply bind_Some in Ha as (i & Hd & Ht).
  destruct (inv_default_addr _ Hi i Hd) as (b & Hb & Hn & [j Hj]). simplify_eq. exists j. split; [done|]. by eapply inv_address.
Qed.

(** Removing the default entry by its own name leaves the cached default behind, which
    the file does not have any more. *)
Lemma removed_default_is_cached p addr i : addr ≠ key_default → memory_inv (memory p) → memory_get (memory p) key_default = Some i → key_try_from i = Some addr →
  let p' := persistent_remove p key_default in
  default_key (memory p') = Some addr ∧ ∃ p'', persistent_new (file p') = Ok p'' ∧ default_key (memory p'') = None.
Proof.
  intros Ha Hi Hg Hf. assert (Hd : default_key (memory p) = Some addr) by (rewrite inv_default by done; unfold memory_get in Hg; by rewrite Hg).
  unfold persistent_remove, memory_remove. rewrite decide_False by (rewrite Hd; congruence). cbn. split; [done|].
  set (m' := mkMemory (delete key_default (data (memory p))) None : MemoryKeyStore T).
  assert (Hi' : memory_inv m').
  { destruct Hi as [I1 I2 _ _]. unfold m'. split; cbn.
    - intros b j [_ ?]%lookup_delete_Some. eauto.
    - intros b j [_ ?]%lookup_delete_Some. eauto.
    - by rewrite lookup_delete_eq.
    - intros j. by rewrite lookup_delete_eq. }
  exists (flush_no_encryption m'). split; [|done]. by apply (reopen_spec (flush_no_encryption m')).
Qed.
End invariant.

(** ** Example: two keys, one of which is the default *)

#[local] Instance example_ethers : EthersWallet := { wallet_address b := match b with [] => None | x :: _ => Some (x :: repeat 1 19) end }.
#[local] Instance example_keyfile : KeyFile EthKeyAddress := {
  to_writer l := [Z.pos (encode ((λ i, (address i, hex_private_key i)) <$> l))];
  from_reader b := match b with
    | [Z.pos x] => (λ l : list (string * string), (λ e, mkPersistentInfo e.1 e.2) <$> l) <$> decode x
    | _ => None end;
  iter m := map_to_list m;
}.
#[local] Instance example_keyfile_laws : KeyFileLaws EthKeyAddress.
Proof.
  split; [|done]. intros l. cbn. rewrite decode_encode. cbn. f_equal. rewrite <- list_fmap_compose.
  induction l as [|[] l IH]; [done|]. cbn. f_equal. exact IH.
Qed.
Lemma keystore_reopens_witness : ∃ p : PersistentKeyStore EthKeyAddress,
  persistent_new (file p) = Ok p ∧ default_key (memory p) = Some (mkEthKey (9 :: repeat 1 19)) ∧ size (data (memory p)) = 3%nat.
Proof.
  set (p1 := flush_no_encryption (mkMemory {[mkEthKey (7 :: repeat 1 19) := mkKeyInfo [7]]} None)).
  set (p2 := flush_no_encryption (mkMemory (<[mkEthKey (9 :: repeat 1 19) := mkKeyInfo [9]]> (data (memory p1))) None)).
  set (p3 := flush_no_encryption (mkMemory (<[key_default := mkKeyInfo [9]]> (data (memory p2))) (Some (mkEthKey (9 :: repeat 1 19))))).
  exists p3. split; [|split; reflexivity]. apply (keystore_reopens p3).
  eapply rtc_l; [apply (step_put _ (mkKeyInfo [7]) p1 (mkEthKey (7 :: repeat 1 19))); [by repeat constructor|done|reflexivity]|].
  eapply rtc_l; [apply (step_put _ (mkKeyInfo [9]) p2 (mkEthKey (9 :: repeat 1 19))); [by repeat constructor|done|reflexivity]|].
  eapply rtc_l; [apply (step_set_default _ (mkEthKey (9 :: repeat 1 19)) p3); [done|reflexivity]|]. apply rtc_refl.
Defined.
